(* ===== verification/_CoqProject ===== *)
-Q . S2P
Prelude.v
Text.v
Json.v
VersionVector.v
Hlc.v
Delta.v
Crdt.v
Conflict.v
Transaction.v
Wal.v
Codec.v
Kv.v
Document.v
Indexes.v
Collection.v
CollectionProps.v
TxManager.v
CollectionTx.v
Sharding.v
SyncLog.v
SdbqlLexer.v
SdbqlAst.v
SdbqlParser.v
SdbqlTotal.v
SdbqlFuel.v
SdbqlGrammar.v
SdbqlParsed.v
SdbqlPrint.v
SdbqlProps.v
F64.v
Levenshtein.v
SdbqlValue.v
SdbqlExec.v
SdbqlQuery.v
GraphProps.v
SdbqlQueryProps.v
CollectionBatch.v
CollectionBatchProps.v
IndexLife.v
SqlLexer.v
SqlParser.v
SqlTranslator.v
SqlTotal.v
SqlText.v
SqlProps.v
SqlQueries.v
DocStore.v
StoreInstance.v
Authorization.v
Auth.v
RoleHandlers.v
AuthProps.v
AuthDemo.v
QueryServer.v
QueryServerProps.v
Databases.v
DatabasesProps.v
SyncState.v
SyncTransport.v
Cluster.v
SyncWorker.v
SyncWorkerProps.v
ClusterManager.v
ClusterManagerProps.v
SyncSessions.v
SyncSessionsProps.v
Columnar.v
ColumnarProps.v
ColumnarFilters.v
ColumnarIndexes.v
NodeStore.v
SdbqlStore.v
Triggers.v
Coordinator.v
CoordinatorProps.v
Migration.v
MigrationProps.v
ShardingDemo.v
Scripts.v
ScriptsProps.v
