(* ===== verification/Prelude.v ===== *)
(** * SoliDB: a verification development

    SoliDB is a document database in Rust: collections of JSON documents with
    secondary indexes over RocksDB, columnar collections, transactions with a
    write-ahead log, a query language and a SQL front end for it, a cluster whose
    nodes replicate through a log of operations, and collections sharded over the
    nodes. This library models the parts that carry its data and decide its
    answers, from the sources under src/, and proves what makes them correct. It
    is a shallow embedding: each Rust function is a function of the same name,
    state is passed explicitly or in a small state monad, fallible code returns a
    [result], and what runs concurrently is a step relation.

    ** Parts, files and sources

    Foundations
    - Prelude: machine integers, results, comparators and stable sorting, byte
      strings, counter maps, prefixes, and the tactics of the library.
    - Text: number formatting and parsing, splitting, escaping helpers.
    - Json: serde_json values; objects are sorted association lists ([OMap]),
      numbers a class. F64: floats by their bits, with exact rounding.
    - Kv: what the code uses of RocksDB, as classes with their laws, and a store
      that satisfies them.

    Storage (src/storage)
    - Codec (codec.rs): order-preserving index keys, on the bits of the floats.
    - Document (document.rs, serializer.rs): documents and their stored form.
    - Indexes (index.rs, collection/core.rs, indexes.rs, geo.rs, fulltext.rs,
      ttl.rs): the key spaces of a column family, the entries a document has in
      each index, the unique check, the Bloom and Cuckoo filters in memory, and the
      lookups. Levenshtein: the edit distance of index.rs.
    - Collection (collection/mod.rs, crud.rs, blobs.rs): the operations on
      documents and blobs; CollectionProps has their theorems.
    - CollectionBatch (the rest of crud.rs, indexes.rs and ttl.rs): batches,
      truncation, pruning, and the life of an index; CollectionBatchProps and
      IndexLife have the theorems.
    - CollectionTx (collection/txn.rs): transactional operations, applying a
      transaction as one batch, and the collections as the engine's store
      (module [EngineStore], an instance of [CollectionStore]).
    - Databases, DatabasesProps (engine.rs, database.rs, collection/core.rs): the
      engine with its cached handles over the column families.
    - Columnar (columnar.rs): columnar collections with their five kinds of index,
      filters, aggregates and groups; ColumnarProps, ColumnarFilters and
      ColumnarIndexes have the theorems and concrete runs.

    Transactions (src/transaction, src/storage/engine.rs)
    - Transaction (mod.rs, lock_manager.rs): the transaction record; the lock
      manager with its two critical sections as a step relation.
    - Wal (wal.rs): writing, reading, replaying and truncating the log.
    - TxManager (manager.rs): begin, validation, commit, rollback, expiry,
      checkpoint; module [Engine] has the engine's commit and recovery, against
      the interface [CollectionStore].

    Replication (src/sync, src/cluster)
    - VersionVector (version_vector.rs), Hlc (cluster/hlc.rs): logical clocks. The
      clock generator is a step relation over its two atomics.
    - Delta (delta.rs): JSON diff, JSON pointers and patches.
    - Crdt (crdt.rs): registers, counters, OR-sets and documents behind an
      interface [Crdt] with laws [CrdtLaws]; convergence is proved once from the
      laws, which each type discharges.
    - Conflict (conflict.rs): detection and the resolution strategies.
    - SyncLog (log.rs): the replication log with its cache, over [Kv].
    - SyncState (state.rs, tombstone.rs), SyncTransport (protocol.rs,
      transport.rs), SyncWorker (worker.rs): the state, the framing of messages,
      and the worker that pulls and applies entries; SyncWorkerProps.
    - Cluster (state.rs, health.rs, node.rs), ClusterManager (manager.rs,
      transport.rs): members, health, joining and replicated batches;
      ClusterManagerProps has the network of managers as a step relation.
    - SyncSessions (session.rs, server/handlers/sync.rs): sessions of offline
      clients and their handlers; SyncSessionsProps.

    Sharding (src/sharding)
    - Sharding (distribution.rs, router.rs, assignment.rs): placement and routing.
    - NodeStore: the databases of a node as handlers and coordinator reach them.
    - Triggers (src/triggers/mod.rs, src/queue/types.rs): triggers and the jobs
      they create.
    - Coordinator (coordinator.rs, healing.rs, rebalance.rs, cleanup.rs and
      server/handlers/documents.rs): shard tables, failover, single documents and
      batches, over a [System] of nodes and a network that loses requests and
      responses; CoordinatorProps.
    - Migration (migration.rs): moving documents when the number of shards
      changes; MigrationProps. ShardingDemo has concrete clusters.

    Queries (src/sdbql, src/sql)
    - SdbqlLexer, SdbqlAst, SdbqlParser (lexer.rs, ast.rs, parser/): the language.
      SdbqlTotal, SdbqlFuel, SdbqlGrammar, SdbqlParsed, SdbqlPrint and SdbqlProps
      have termination, the grammar and the round trip.
    - SdbqlValue, SdbqlExec, SdbqlQuery (executor/): operators, expressions,
      clauses, graph traversals, index use and subqueries; GraphProps and
      SdbqlQueryProps. SdbqlStore: the executor over the collections of a node.
    - SqlLexer, SqlParser, SqlTranslator (sql/): SQL and its translation to SDBQL
      text; SqlTotal, SqlText, SqlProps and SqlQueries.

    Server (src/server)
    - DocStore, StoreInstance: the interface of a collection for the handlers, and
      that [Collection] implements it.
    - Authorization, Auth, RoleHandlers (authorization.rs, permission_cache.rs,
      auth.rs, handlers/auth.rs, role_handlers.rs): permissions, credentials,
      middlewares and handlers; AuthProps, AuthDemo.
    - QueryServer (cursor_store.rs, query_cache.rs, document_cache.rs,
      handlers/query.rs): cursors, caches and the query handler; QueryServerProps.
    - Scripts (script_handlers.rs, src/scripting/types.rs, engine/cache.rs,
      engine/script_index.rs): the handlers of Lua scripts and services, the index
      and the cache beside the collections, and the routing of a request to a
      script; ScriptsProps.

    ** How the parts meet

    A collection reads and writes a column family through [KvStore]. The
    transaction manager and the engine see collections through
    [CollectionStore], the server modules through [DocStore], the query executor
    through [DataStore] of SdbqlExec; each has an instance from [Collection]
    (EngineStore, StoreInstance, SdbqlStore), which discharges the laws that the
    clients rely on. The replication worker works on the
    engine of Databases; the coordinator on NodeStore, the tree the engine is
    shown to be, and on the members of ClusterManager. Migration gets its sender
    as an argument; MigrationProps puts the coordinator in its place.

    ** What the theorems show

    - Collections: a collection is a finite map with its size as count; regular
      index entries are exactly those of the documents, through every sequence of
      requests, batches and transactions; an index lookup is a full scan, up to
      the filter that a Bloom or Cuckoo index asks first; creating and rebuilding
      an index enters every document.
    - Columnar collections: a collection is a table of rows; a filter selects rows
      that satisfy it; an index selects what the scan selects.
    - Transactions: locks exclude each other in every interleaving; recovery is
      atomic, and finds what was committed through restarts and failed writes, but
      for records that could not be synced; the outcomes of commit; what a commit through the engine leaves in
      the collections.
    - Replication: version vectors decide causality; clocks grow and their keys
      sort; patches rebuild documents; CRDTs converge; the log has no gaps; a
      replica that pulls comes to hold what its peer wrote; a cluster forms
      whatever the order of its messages; a client receives each change up to where
      it has come once.
    - Sharding: placements are complete, balanced and stable; a collection
      sharded by its keys is one map whatever node is asked; a migration loses no document whatever
      the network loses.
    - Queries: parsing ends and follows the grammar; a translated SQL statement is
      the query it stands for; FILTER on a text gives the documents of the storage
      that hold it, through an index or by scanning; the rows COLLECT makes are
      those of its groups; traversals and shortest paths are those of the graph.
    - Server: who passes the middlewares and the checks of permissions; the bound
      of the login limiter; cursors drain; the document cache is an LRU cache.
    - Scripts: the index follows the collections through every request, so a
      request reaches only a script that is stored now, and reaches one if there
      is one; running through the cache is compiling each time.
    - Several theorems and examples describe where the code falls short of its
      comments: Bloom indexes that miss inserted documents, commits that could not
      be synced and are recovered, truncated columnar collections that cannot be loaded, conjunctions
      and stale indexes of columnar collections, lookups on compound indexes,
      unchecked updates, transactions applied before they are validated, query
      results cached across databases, SQL strings that end the literal, custom
      shard keys, the journal of migrations, scripts of dropped databases, and the
      resets of the hybrid clock.

    ** Conventions and bounds

    Unsigned integers are [N] with the wrap-around written out ([wrap64],
    [sub64]); floats are their 64 bits; strings and byte vectors are [string].
    Clocks, uuids and I/O outcomes are arguments. Recursion is structural or over a
    list where the code allows it. Where it does not there is fuel: the digit count
    of [Text.Radix] has [log2 n], enough in any base; the parsers have a fuel
    linear in the number of tokens, with which SdbqlTotal and SqlTotal prove that
    they answer, and more changes nothing (SdbqlFuel); the executor's recursion
    through queries and functions takes a fuel that bounds the nesting; the pages of
    [SyncWorker.sync_pages] are bounded by the entries of the log, which
    [replica_converges] shows to be enough; [Migration.send_until_ok] retries
    without end in the source too, and [None] is a migration still trying. Code
    outside the repository (RocksDB, serde_json, rmp, bincode, chrono, hex, hash
    functions, cryptography, Unicode tables) is a class with the documented
    behaviour as laws, and each theorem that uses one has a witness on a concrete
    instance. The iteration order of hash maps is a parameter. Operations of a
    collection run one at a time; concurrency is modelled where the code is about
    it (locks, the clock generator, the messages of the cluster, lost requests).

    ** Not modelled

    Sockets, timers, most HTTP handlers, the Lua interpreter and its bindings, AI features, the command line,
    dump and restore, the FUSE file system and the client libraries: input and
    output around these parts. HNSW vector search and geometry are numerical code
    whose results the sources leave approximate; JSON schema validation is a
    wrapper of a crate and a parameter of the collections. The rebalancing and
    healing loops copy whole shards over HTTP with the decisions that Sharding,
    Cluster and Coordinator model. The library of builtin query functions is a
    parameter of the executor. Index structures of geo and fulltext search beyond
    their entries, the statistics of the cluster and the local executor of the
    sdbql-core crate are left out. *)

From Stdlib Require Export String Ascii NArith ZArith Lia Permutation Sorted.
From stdpp Require Export gmap strings numbers sorting prelude list.

Declare Scope solidb_scope.
Delimit Scope solidb_scope with solidb.

(** ** Machine integers

    An unsigned integer of the source is an [N]; an operation that can leave
    the type's range is followed by the reduction written out below (the
    release profile of Cargo.toml leaves overflow checks off). *)

Definition u16_modulus : N := 2 ^ 16.
Definition u32_modulus : N := 2 ^ 32.
Definition u64_modulus : N := 2 ^ 64.
Definition wrap32 (n : N) : N := N.modulo n u32_modulus.
Definition wrap64 (n : N) : N := N.modulo n u64_modulus.
(** [a - b] on [u64]. *)
Definition sub64 (a b : N) : N := N.modulo (a + u64_modulus - b) u64_modulus.

Lemma wrap32_small n : (n < u32_modulus)%N → wrap32 n = n.
Proof. apply N.mod_small. Qed.
Lemma wrap64_small n : (n < u64_modulus)%N → wrap64 n = n.
Proof. apply N.mod_small. Qed.
Lemma wrap64_lt n : (wrap64 n < u64_modulus)%N.
Proof. by apply N.mod_lt. Qed.
Lemma wrap32_lt n : (wrap32 n < u32_modulus)%N.
Proof. by apply N.mod_lt. Qed.
Lemma sub64_le a b : (b <= a)%N → (a < u64_modulus)%N → sub64 a b = (a - b)%N.
Proof.
  intros Hba Ha. unfold sub64.
  replace (a + u64_modulus - b)%N with (a - b + 1 * u64_modulus)%N by lia.
  rewrite N.Div0.mod_add. apply N.mod_small. lia.
Qed.

(** ** Results

    [Result<T, E>] and the [?] operator. *)

Inductive result (E A : Type) : Type :=
| Ok (a : A)
| Err (e : E).
Arguments Ok {E A} a.
Arguments Err {E A} e.

Definition result_bind {E A B} (r : result E A) (k : A → result E B) : result E B :=
  match r with Ok a => k a | Err e => Err e end.
Notation "'let?' x ':=' r 'in' k" := (result_bind r (fun x => k))
  (at level 200, x pattern, r at level 100, k at level 200, right associativity)
  : solidb_scope.

Definition is_ok {E A} (r : result E A) : bool :=
  match r with Ok _ => true | Err _ => false end.
Definition ok_or {E A} (o : option A) (e : E) : result E A :=
  match o with Some a => Ok a | None => Err e end.

(** ** Comparators

    [std::cmp::Ordering] is [comparison]. [TotalCmp] is the contract of a
    comparator handed to [sort_by]: a total preorder; [StrictCmp] adds that
    equal means identical, the contract of [Ord] on the keys. *)

Class TotalCmp {A} (cmp : A → A → comparison) : Prop := {
  cmp_antisym x y : cmp y x = CompOpp (cmp x y);
  cmp_le_trans x y z : cmp x y ≠ Gt → cmp y z ≠ Gt → cmp x z ≠ Gt;
}.
Class StrictCmp {A} (cmp : A → A → comparison) : Prop := {
  strict_total :: TotalCmp cmp;
  cmp_eq x y : cmp x y = Eq → x = y;
}.

Section Comparators.
Context {A : Type} (cmp : A → A → comparison) `{!TotalCmp cmp}.

Lemma cmp_refl x : cmp x x = Eq.
Proof. pose proof (cmp_antisym (cmp:=cmp) x x). by destruct (cmp x x). Qed.
Lemma cmp_gt_lt x y : cmp x y = Gt ↔ cmp y x = Lt.
Proof. rewrite (cmp_antisym (cmp:=cmp) x y). by destruct (cmp x y). Qed.
Lemma cmp_lt_gt x y : cmp x y = Lt ↔ cmp y x = Gt.
Proof. by rewrite cmp_gt_lt. Qed.
Lemma cmp_total x y : cmp x y ≠ Gt ∨ cmp y x ≠ Gt.
Proof. rewrite (cmp_antisym (cmp:=cmp) x y). destruct (cmp x y); naive_solver. Qed.
Lemma cmp_eq_sym x y : cmp x y = Eq → cmp y x = Eq.
Proof. rewrite (cmp_antisym (cmp:=cmp) x y). by intros ->. Qed.
Lemma cmp_le_lt_trans x y z : cmp x y ≠ Gt → cmp y z = Lt → cmp x z = Lt.
Proof.
  intros Hxy Hyz. destruct (cmp x z) eqn:Hxz; [|done|].
  - exfalso. apply (cmp_le_trans (cmp:=cmp) z x y); [|done|by apply cmp_gt_lt].
    by rewrite (cmp_eq_sym _ _ Hxz).
  - exfalso. revert Hxz. apply (cmp_le_trans (cmp:=cmp)) with y; [done|by rewrite Hyz].
Qed.
Lemma cmp_lt_le_trans x y z : cmp x y = Lt → cmp y z ≠ Gt → cmp x z = Lt.
Proof.
  intros Hxy Hyz. destruct (cmp x z) eqn:Hxz; [|done|].
  - exfalso. apply (cmp_le_trans (cmp:=cmp) y z x); [done| |by apply cmp_gt_lt].
    by rewrite (cmp_eq_sym _ _ Hxz).
  - exfalso. revert Hxz. apply (cmp_le_trans (cmp:=cmp)) with y; [by rewrite Hxy|done].
Qed.
Lemma cmp_lt_trans x y z : cmp x y = Lt → cmp y z = Lt → cmp x z = Lt.
Proof. intros H1 H2. apply cmp_le_lt_trans with y; [by rewrite H1|done]. Qed.
Lemma cmp_eq_l x y z : cmp x y = Eq → cmp x z = cmp y z.
Proof.
  intros Hxy. pose proof (cmp_eq_sym _ _ Hxy) as Hyx.
  destruct (cmp y z) eqn:Hyz.
  - assert (cmp x z ≠ Gt) by (apply (cmp_le_trans (cmp:=cmp)) with y; congruence).
    assert (cmp z x ≠ Gt).
    { apply (cmp_le_trans (cmp:=cmp)) with y; [by rewrite (cmp_eq_sym _ _ Hyz)|congruence]. }
    rewrite (cmp_antisym (cmp:=cmp) x z) in *. by destruct (cmp x z).
  - apply cmp_le_lt_trans with y; congruence.
  - apply cmp_gt_lt. apply cmp_gt_lt in Hyz.
    apply cmp_lt_le_trans with y; congruence.
Qed.
End Comparators.

(** The larger of two values, the first one on a tie. *)
Section Pick.
Context {A : Type} (cmp : A → A → comparison) `{!TotalCmp cmp}.

Definition pick (a b : A) : A := match cmp a b with Lt => b | _ => a end.

Lemma pick_cases a b : pick a b = a ∨ pick a b = b.
Proof. unfold pick. destruct (cmp a b); auto. Qed.
Lemma pick_idem a : pick a a = a.
Proof. unfold pick. by destruct (cmp a a). Qed.
Lemma pick_comm a b : (cmp a b = Eq → a = b) → pick a b = pick b a.
Proof.
  intros H. unfold pick. rewrite (cmp_antisym (cmp:=cmp) a b).
  destruct (cmp a b); simpl; auto.
Qed.
Lemma pick_assoc a b c : pick (pick a b) c = pick a (pick b c).
Proof.
  unfold pick. destruct (cmp a b) eqn:Hab.
  - rewrite (cmp_eq_l cmp _ _ c Hab). destruct (cmp b c) eqn:Hbc; rewrite ?Hab; try done.
    + by rewrite (cmp_eq_l cmp _ _ c Hab), Hbc.
  - destruct (cmp b c) eqn:Hbc; rewrite ?Hab; try done. by rewrite (cmp_lt_trans cmp a b c).
  - destruct (cmp b c) eqn:Hbc; rewrite ?Hab; try done.
    + apply cmp_gt_lt in Hab; [|done]. apply cmp_eq_sym in Hbc; [|done].
      assert (cmp c a = Lt) as Hca by by rewrite (cmp_eq_l cmp _ _ a Hbc).
      apply (cmp_gt_lt cmp) in Hca. by rewrite Hca.
    + assert (cmp c a = Lt) as Hca by (apply (cmp_lt_trans cmp) with b; by apply cmp_gt_lt).
      apply (cmp_gt_lt cmp) in Hca. by rewrite Hca.
Qed.
End Pick.

(** [Ordering::then]: the second comparator decides a tie of the first. *)
Definition cmp_then {A} (c1 c2 : A → A → comparison) (x y : A) : comparison :=
  match c1 x y with Eq => c2 x y | o => o end.
(** Comparing by a key. *)
Definition cmp_by {A B} (f : A → B) (c : B → B → comparison) (x y : A) : comparison :=
  c (f x) (f y).
(** [false] before [true]: [bool::cmp]. *)
Definition bool_cmp (a b : bool) : comparison :=
  match a, b with
  | false, true => Lt
  | true, false => Gt
  | _, _ => Eq
  end.

#[export] Instance cmp_then_total {A} (c1 c2 : A → A → comparison) :
  TotalCmp c1 → TotalCmp c2 → TotalCmp (cmp_then c1 c2).
Proof.
  intros H1 H2. split; unfold cmp_then.
  - intros x y. rewrite (cmp_antisym (cmp:=c1) x y), (cmp_antisym (cmp:=c2) x y).
    by destruct (c1 x y).
  - intros x y z.
    destruct (c1 x y) eqn:Hxy; [| |done].
    + rewrite (cmp_eq_l c1 _ _ z Hxy).
      destruct (c1 y z); [|done|done]. apply cmp_le_trans.
    + intros _ Hyz. assert (c1 y z ≠ Gt) by (by destruct (c1 y z)).
      by rewrite (cmp_lt_le_trans c1 _ _ _ Hxy).
Qed.
#[export] Instance cmp_by_total {A B} (f : A → B) (c : B → B → comparison) :
  TotalCmp c → TotalCmp (cmp_by f c).
Proof. intros H. split; unfold cmp_by; intros; [apply cmp_antisym|eapply cmp_le_trans; eauto]. Qed.
#[export] Instance bool_cmp_strict : StrictCmp bool_cmp.
Proof. split; [split|]; [by intros [] []|by intros [] [] []|by intros [] []]. Qed.
#[export] Instance N_compare_strict : StrictCmp N.compare.
Proof.
  split; [split|].
  - intros x y. apply N.compare_antisym.
  - intros x y z. rewrite !N.compare_ngt_iff. lia.
  - intros x y. apply N.compare_eq_iff.
Qed.
#[export] Instance nat_compare_strict : StrictCmp Nat.compare.
Proof.
  split; [split|].
  - intros x y. apply Nat.compare_antisym.
  - intros x y z. rewrite !Nat.compare_ngt_iff. lia.
  - intros x y. apply Nat.compare_eq_iff.
Qed.

(** ** Byte strings

    A [String] of the source is the sequence of its UTF-8 bytes, and its order
    ([String::cmp]) is the lexicographic order of the bytes. *)

Notation str_cmp := String.compare.

#[export] Instance ascii_compare_strict : StrictCmp Ascii.compare.
Proof.
  unfold Ascii.compare. split; [split|].
  - intros x y. apply N.compare_antisym.
  - intros x y z. rewrite !N.compare_ngt_iff. lia.
  - intros x y H%N.compare_eq_iff.
    by rewrite <-(ascii_N_embedding x), H, ascii_N_embedding.
Qed.

#[export] Instance str_cmp_strict : StrictCmp str_cmp.
Proof.
  split; [split|].
  - intros x y. apply String.compare_antisym.
  - induction x as [|a x IH]; intros [|b y] [|c z]; simpl; try done.
    destruct (Ascii.compare a b) eqn:Hab; [| |done].
    + rewrite (cmp_eq_l Ascii.compare _ _ c Hab).
      destruct (Ascii.compare b c); [|done|done]. apply IH.
    + intros _ Hbc. assert (Ascii.compare b c ≠ Gt) by (by destruct (Ascii.compare b c)).
      by rewrite (cmp_lt_le_trans Ascii.compare _ _ _ Hab).
  - intros x y. apply String.compare_eq_iff.
Qed.

Definition str_ltb (x y : string) : bool :=
  match str_cmp x y with Lt => true | _ => false end.
Definition str_leb (x y : string) : bool :=
  match str_cmp x y with Gt => false | _ => true end.

Lemma str_cmp_refl x : str_cmp x x = Eq.
Proof. apply cmp_refl, _. Qed.
Lemma str_cmp_eq_iff x y : str_cmp x y = Eq ↔ x = y.
Proof. split; [apply String.compare_eq_iff|intros ->; apply str_cmp_refl]. Qed.

(** Comparing concatenations: an equal-length prefix decides first. *)
Lemma str_cmp_app a b x y :
  String.length a = String.length b →
  str_cmp (a +:+ x) (b +:+ y) =
  match str_cmp a b with Eq => str_cmp x y | o => o end.
Proof.
  revert b. induction a as [|c a IH]; intros [|d b]; simpl; intros Hlen; try done.
  destruct (Ascii.compare c d); [|done|done]. apply IH. lia.
Qed.
Lemma str_length_app a b :
  String.length (a +:+ b) = (String.length a + String.length b)%nat.
Proof. induction a as [|c a IH]; simpl; [done|]. by rewrite IH. Qed.
Lemma substring_all s : String.substring 0 (String.length s) s = s.
Proof. induction s as [|c s IH]; [done|]. cbn. by rewrite IH. Qed.
Lemma substring_app_l a b : String.substring 0 (String.length a) (a +:+ b) = a.
Proof.
  induction a as [|c a IH]; [by destruct b|]. change (String c a +:+ b) with (String c (a +:+ b)). cbn. by rewrite IH.
Qed.
Lemma substring_app_r a b : String.substring (String.length a) (String.length b) (a +:+ b) = b.
Proof. induction a as [|c a IH]; [apply substring_all|done]. Qed.
Lemma str_app_assoc (a b c : string) : (a +:+ b) +:+ c = a +:+ (b +:+ c).
Proof. induction a as [|x a IH]; [done|]. exact (f_equal (String x) IH). Qed.
Lemma str_app_nil_r (a : string) : a +:+ "" = a.
Proof. induction a as [|x a IH]; [done|]. exact (f_equal (String x) IH). Qed.

(** Every byte of a string satisfies a test. *)
Fixpoint str_all (P : ascii → bool) (s : string) : bool :=
  match s with EmptyString => true | String c s' => P c && str_all P s' end.
Lemma str_all_app P a b : str_all P (a +:+ b) = str_all P a && str_all P b.
Proof.
  induction a as [|c a IH]; [done|].
  change (String c a +:+ b) with (String c (a +:+ b)). cbn [str_all].
  by rewrite IH, andb_assoc.
Qed.

(** ** Stable sort

    [slice::sort_by] is a stable sort; for a total comparator its result is
    determined by the input, and this insertion sort computes it. *)

Section Sort.
Context {A : Type} (cmp : A → A → comparison).

Fixpoint sort_insert (x : A) (l : list A) : list A :=
  match l with
  | [] => [x]
  | y :: l' => match cmp x y with Gt => y :: sort_insert x l' | _ => x :: l end
  end.
Fixpoint sort_by (l : list A) : list A :=
  match l with [] => [] | x :: l' => sort_insert x (sort_by l') end.

Definition cmp_le (x y : A) : Prop := cmp x y ≠ Gt.

Lemma sort_insert_perm x l : sort_insert x l ≡ₚ x :: l.
Proof.
  induction l as [|y l IH]; simpl; [done|].
  destruct (cmp x y); [done|done|]. rewrite IH. apply Permutation_swap.
Qed.
Lemma sort_by_perm l : sort_by l ≡ₚ l.
Proof. induction l as [|x l IH]; simpl; [done|]. by rewrite sort_insert_perm, IH. Qed.
Lemma sort_by_length l : length (sort_by l) = length l.
Proof. by rewrite sort_by_perm. Qed.
Lemma elem_of_sort_by x l : x ∈ sort_by l ↔ x ∈ l.
Proof. by rewrite sort_by_perm. Qed.

Context `{!TotalCmp cmp}.

Lemma sort_insert_sorted x l :
  StronglySorted cmp_le l → StronglySorted cmp_le (sort_insert x l).
Proof.
  induction 1 as [|y l Hl IH Hy]; simpl.
  { repeat constructor. }
  destruct (cmp x y) eqn:Hxy.
  3: { constructor; [done|]. rewrite sort_insert_perm. constructor; [|done].
       unfold cmp_le. apply (cmp_gt_lt cmp) in Hxy. by rewrite Hxy. }
  all: assert (cmp_le x y) by (unfold cmp_le; congruence).
  all: constructor; [by constructor|]; constructor; [done|].
  all: rewrite !Forall_forall in *; intros z Hz.
  all: by apply (cmp_le_trans (cmp:=cmp)) with y; [|apply Hy].
Qed.
Lemma sort_by_sorted l : StronglySorted cmp_le (sort_by l).
Proof.
  induction l as [|x l IH]; simpl; [constructor|]. by apply sort_insert_sorted.
Qed.

(** The element [sort_by] puts first is a minimum of the list. *)
Lemma sort_by_head_min l x r :
  sort_by l = x :: r → x ∈ l ∧ ∀ y, y ∈ l → cmp x y ≠ Gt.
Proof.
  intros Hl. pose proof (sort_by_sorted l) as Hs. rewrite Hl in Hs.
  split; [rewrite <-elem_of_sort_by, Hl; apply list_elem_of_here|].
  intros y Hy. rewrite <-elem_of_sort_by, Hl in Hy.
  inversion Hs as [|?? _ Hall]; subst. apply elem_of_cons in Hy as [->|Hy].
  - by rewrite (cmp_refl cmp).
  - rewrite Forall_forall in Hall. exact (Hall y Hy).
Qed.
Lemma sort_by_nonempty l : l ≠ [] → ∃ x r, sort_by l = x :: r.
Proof.
  intros Hl. destruct (sort_by l) as [|x r] eqn:E; [|by eauto].
  pose proof (sort_by_length l) as Hlen. rewrite E in Hlen. by destruct l.
Qed.
End Sort.

(** For a strict comparator the sorted list depends on the elements only. *)
Lemma sorted_unique {A} (cmp : A → A → comparison) `{!StrictCmp cmp} l1 l2 :
  StronglySorted (cmp_le cmp) l1 → StronglySorted (cmp_le cmp) l2 →
  l1 ≡ₚ l2 → l1 = l2.
Proof.
  intros H1. revert l2. induction H1 as [|x l1 Hl1 IH Hx]; intros l2 H2 Hp.
  { by apply Permutation_nil_l in Hp as <-. }
  destruct H2 as [|y l2 Hl2 Hy].
  { by symmetry in Hp; apply Permutation_nil_cons in Hp. }
  assert (x = y) as ->.
  { assert (y ∈ x :: l1) as Hyin by (rewrite Hp; apply list_elem_of_here).
    assert (x ∈ y :: l2) as Hxin by (rewrite <-Hp; apply list_elem_of_here).
    apply elem_of_cons in Hyin as [->|Hyin]; [done|].
    apply elem_of_cons in Hxin as [->|Hxin]; [done|].
    rewrite Forall_forall in Hx, Hy.
    pose proof (Hx _ Hyin) as Hxy. pose proof (Hy _ Hxin) as Hyx.
    unfold cmp_le in *. rewrite (cmp_antisym (cmp:=cmp) x y) in Hyx.
    apply cmp_eq. by destruct (cmp x y). }
  f_equal. apply IH; [done|]. by apply Permutation_cons_inv in Hp.
Qed.
Lemma sort_by_perm_eq {A} (cmp : A → A → comparison) `{!StrictCmp cmp} l1 l2 :
  l1 ≡ₚ l2 → sort_by cmp l1 = sort_by cmp l2.
Proof.
  intros Hp. apply (sorted_unique cmp); try apply sort_by_sorted, _.
  by rewrite !sort_by_perm.
Qed.

(** ** Counter maps

    The loop [for (k, c) in &other { let s = m.entry(k).or_insert(0); if *c > *s
    { *s = *c } }], which the version vectors and the grow-only counters share.
    A [HashMap] is a [gmap]; iterating over it is [map_fold], and the lemma
    below says that the order of the iteration does not matter. *)

Definition raise_entry (k : string) (c : N) (m : gmap string N) : gmap string N :=
  let s := default 0%N (m !! k) in
  <[k := if (s <? c)%N then c else s]> m.
Definition raise_all (m other : gmap string N) : gmap string N :=
  map_fold raise_entry m other.
Definition count_of (m : gmap string N) (k : string) : N := default 0%N (m !! k).

Definition max_counts (m1 m2 : gmap string N) : gmap string N :=
  union_with (λ x y, Some (N.max x y)) m1 m2.

Lemma raise_entry_max k c m :
  raise_entry k c m = max_counts m {[k := c]}.
Proof.
  unfold raise_entry, max_counts. apply map_eq. intros i.
  rewrite lookup_union_with, lookup_insert, lookup_singleton.
  case_decide as Hi; [subst i|by destruct (m !! i)].
  destruct (m !! k) as [s|]; simpl; f_equal; [destruct (N.ltb_spec s c)|destruct (N.ltb_spec 0 c)]; lia.
Qed.
Lemma max_counts_assoc m1 m2 m3 :
  max_counts (max_counts m1 m2) m3 = max_counts m1 (max_counts m2 m3).
Proof.
  apply map_eq. intros i. unfold max_counts. rewrite !lookup_union_with.
  destruct (m1 !! i), (m2 !! i), (m3 !! i); simpl; f_equal; lia.
Qed.
Lemma max_counts_comm m1 m2 : max_counts m1 m2 = max_counts m2 m1.
Proof.
  apply map_eq. intros i. unfold max_counts. rewrite !lookup_union_with.
  destruct (m1 !! i), (m2 !! i); simpl; f_equal; lia.
Qed.
Lemma max_counts_idemp m : max_counts m m = m.
Proof.
  apply map_eq. intros i. unfold max_counts. rewrite !lookup_union_with.
  destruct (m !! i); simpl; f_equal; lia.
Qed.
Lemma raise_all_max m other : raise_all m other = max_counts m other.
Proof.
  unfold raise_all.
  apply (map_fold_weak_ind (λ r o, r = max_counts m o)).
  - apply map_eq. intros i. unfold max_counts.
    rewrite lookup_union_with, lookup_empty. by destruct (m !! i).
  - intros k c o r Hk ->. rewrite raise_entry_max, max_counts_assoc. f_equal.
    apply map_eq. intros i. unfold max_counts.
    rewrite lookup_union_with, lookup_insert, lookup_singleton.
    case_decide; [subst i; by rewrite Hk|by destruct (o !! i)].
Qed.
Lemma count_of_max m1 m2 k :
  count_of (max_counts m1 m2) k = N.max (count_of m1 k) (count_of m2 k).
Proof.
  unfold count_of, max_counts. rewrite lookup_union_with.
  destruct (m1 !! k), (m2 !! k); simpl; lia.
Qed.
Lemma count_of_insert m k c k' :
  count_of (<[k := c]> m) k' = if decide (k = k') then c else count_of m k'.
Proof. unfold count_of. rewrite lookup_insert. by case_decide. Qed.

(** ** Filters that keep everything or nothing *)

Lemma filter_keep_all {A} (P : A → Prop) `{∀ x, Decision (P x)} (l : list A) :
  Forall P l → filter P l = l.
Proof. induction 1 as [|x l Hx _ IH]; [done|]. by rewrite filter_cons_True, IH. Qed.
Lemma filter_keep_none {A} (P : A → Prop) `{∀ x, Decision (P x)} (l : list A) :
  Forall (λ x, ¬ P x) l → filter P l = [].
Proof. induction 1 as [|x l Hx _ IH]; [done|]. by rewrite filter_cons_False, IH. Qed.

(** ** Prefixes

    [starts_with] and [take_while]. *)

Definition starts_with (p s : string) : bool := String.prefix p s.
Fixpoint take_while {A} (f : A → bool) (l : list A) : list A :=
  match l with
  | [] => []
  | x :: l' => if f x then x :: take_while f l' else []
  end.

Lemma starts_with_cons a p b s :
  starts_with (String a p) (String b s) = Ascii.eqb a b && starts_with p s.
Proof.
  unfold starts_with. simpl. destruct (Ascii.eqb_spec a b) as [->|Hne].
  - by destruct (ascii_dec b b).
  - by destruct (ascii_dec a b).
Qed.
Lemma starts_with_app p s : starts_with p (p +:+ s) = true.
Proof.
  induction p as [|c p IH]; [by destruct s|].
  change (String c p +:+ s) with (String c (p +:+ s)). by rewrite starts_with_cons, Ascii.eqb_refl.
Qed.
Lemma starts_with_split p s : starts_with p s = true ↔ ∃ r, s = p +:+ r.
Proof.
  split; [|intros [r ->]; apply starts_with_app].
  revert s. induction p as [|c p IH]; intros s H; [by exists s|].
  destruct s as [|d s]; [done|]. rewrite starts_with_cons in H.
  apply andb_true_iff in H as [->%Ascii.eqb_eq H]. apply IH in H as [r ->]. by exists r.
Qed.
Lemma str_app_inj_l (p s t : string) : p +:+ s = p +:+ t → s = t.
Proof.
  induction p as [|c p IH]; [done|].
  change (String c (p +:+ s) = String c (p +:+ t) → s = t). intros [=]. auto.
Qed.

(** The text before the first separator and the text after it. *)
Lemma separated_inj (c : ascii) a b a' b' :
  str_all (λ x, negb (Ascii.eqb x c)) a = true → str_all (λ x, negb (Ascii.eqb x c)) a' = true →
  a +:+ String c b = a' +:+ String c b' → a = a' ∧ b = b'.
Proof.
  revert a'. induction a as [|x a IH]; intros [|x' a'] Ha Ha' H.
  - change (String c b = String c b') in H. by injection H as ->.
  - change (String c b = String x' (a' +:+ String c b')) in H. injection H as <- _.
    cbn [str_all] in Ha'. by rewrite Ascii.eqb_refl in Ha'.
  - change (String x (a +:+ String c b) = String c b') in H. injection H as -> _.
    cbn [str_all] in Ha. by rewrite Ascii.eqb_refl in Ha.
  - change (String x (a +:+ String c b) = String x' (a' +:+ String c b')) in H.
    injection H as -> H. cbn [str_all] in Ha, Ha'.
    apply andb_true_iff in Ha as [_ Ha], Ha' as [_ Ha'].
    destruct (IH a' Ha Ha' H) as [-> ->]. done.
Qed.

(** ** Automation

    [passes] goes past the next check of an operation: a result or an option
    whose failure ends the operation and leaves its state. *)

Ltac next_check tac :=
  match goal with
  | |- context [match ?x with _ => _ end] =>
      lazymatch x with context [match _ with _ => _ end] => fail | _ => tac x end
  end.
Tactic Notation "passes" := next_check ltac:(fun x => destruct x); [|by intros [= <- <-]].
Tactic Notation "passes" "as" simple_intropattern(p) "eqn" ident(H) :=
  next_check ltac:(fun x => destruct x as p eqn:H); [|by intros [= <- <-]].

(** Facts on strings and orders that close goals on their own. *)
Create HintDb solidb.
#[export] Hint Resolve starts_with_app str_cmp_refl wrap64_lt wrap32_lt : solidb.
#[export] Hint Rewrite str_app_assoc str_app_nil_r : solidb.
