(* ===== verification/Text.v ===== *)
(** * Text: number formatting and parsing, splitting

    What the source uses of Rust's string formatting: [{}], [{:020}] and
    [{:016x}] on unsigned integers, [from_str_radix] and [parse::<usize>],
    [split], [splitn] and [replace]. *)

From S2P Require Import Prelude.

Local Open Scope N_scope.

Module Radix.

Definition digit (d : N) : ascii :=
  ascii_of_N (if d <? 10 then 48 + d else 87 + d).
(** The [w] low digits in base [b], most significant first. *)
Fixpoint fixed (b : N) (w : nat) (n : N) : string :=
  match w with
  | O => ""
  | S w' => fixed b w' (n / b) +:+ String (digit (n mod b)) ""
  end.
(** How many digits the number needs (at least one); [log2 n] divisions are
    enough in any base. *)
Fixpoint width_go (b : N) (fuel : nat) (n : N) : nat :=
  match fuel with
  | O => 1
  | S fuel' => if n <? b then 1 else S (width_go b fuel' (n / b))
  end.
Definition width (b n : N) : nat := width_go b (N.to_nat (N.log2 n)) n.
(** Zero-padded to at least [w] digits; [w = 1] is plain formatting. *)
Definition pad (b : N) (w : nat) (n : N) : string := fixed b (Nat.max w (width b n)) n.

Definition digit_value (b : N) (c : ascii) : option N :=
  let v := N_of_ascii c in
  d ← (if (48 <=? v) && (v <=? 57) then Some (v - 48)
       else if (97 <=? v) && (v <=? 102) then Some (v - 87)
       else if (65 <=? v) && (v <=? 70) then Some (v - 55)
       else None);
  if d <? b then Some d else None.
(** The digit loop with its overflow checks. *)
Fixpoint parse_digits (b bound acc : N) (s : string) : option N :=
  match s with
  | EmptyString => Some acc
  | String c s' =>
      d ← digit_value b c;
      let acc' := acc * b + d in
      if acc' <? bound then parse_digits b bound acc' s' else None
  end.
(** [from_str_radix] on an unsigned type with [bound] values: no empty input,
    an optional leading [+]. *)
Definition from_str_radix (b bound : N) (s : string) : option N :=
  match s with
  | EmptyString => None
  | String c s' =>
      if Ascii.eqb c "+" then
        match s' with EmptyString => None | _ => parse_digits b bound 0 s' end
      else parse_digits b bound 0 s
  end.

(** Facts on the sixteen digits, by enumeration. *)
Definition digits16 : list N := N.of_nat <$> seq 0 16.
Lemma digits16_forall (P : N → bool) :
  forallb P digits16 = true → ∀ d, d < 16 → P d = true.
Proof.
  intros H d Hd. rewrite forallb_forall in H. apply H.
  apply list_elem_of_In. unfold digits16. apply list_elem_of_fmap.
  exists (N.to_nat d). rewrite elem_of_seq. lia.
Qed.
Lemma digit_value_digit16 d : d < 16 → digit_value 16 (digit d) = Some d.
Proof.
  intros Hd. apply (bool_decide_eq_true_1 (digit_value 16 (digit d) = Some d)).
  revert d Hd. apply digits16_forall. by vm_compute.
Qed.
Lemma digit_value_digit b d : b <= 16 → d < b → digit_value b (digit d) = Some d.
Proof.
  intros Hb Hd. pose proof (digit_value_digit16 d ltac:(lia)) as H. revert H.
  unfold digit_value. destruct (if (48 <=? N_of_ascii (digit d)) && _ then _ else _); simpl; [|done].
  destruct (_ <? 16); [|done]. intros [= ->]. by rewrite (proj2 (N.ltb_lt _ _) Hd).
Qed.
Lemma digit_compare d e :
  d < 16 → e < 16 → Ascii.compare (digit d) (digit e) = N.compare d e.
Proof.
  intros Hd He. apply (bool_decide_eq_true_1 (Ascii.compare (digit d) (digit e) = N.compare d e)).
  revert e He.
  apply (digits16_forall (λ e, bool_decide (Ascii.compare (digit d) (digit e) = N.compare d e))).
  revert d Hd. apply digits16_forall. by vm_compute.
Qed.
(** A byte that is not a digit, tested on all of them. *)
Lemma digit_not (c : ascii) d :
  forallb (λ d, negb (Ascii.eqb (digit d) c)) digits16 = true →
  d < 16 → Ascii.eqb (digit d) c = false.
Proof. intros Hc Hd. apply negb_true_iff. by apply (digits16_forall (λ d, negb (Ascii.eqb (digit d) c))). Qed.

Lemma fixed_length b w n : String.length (fixed b w n) = w.
Proof.
  revert n. induction w as [|w IH]; intros n; [done|].
  cbn [fixed]. rewrite str_length_app, IH. simpl. lia.
Qed.

Section Base.
Context (b : N) (b_ge : 2 <= b) (b_le : b <= 16).
#[local] Hint Resolve b_ge b_le : core.

Lemma mod_digit n : n mod b < 16.
Proof. apply N.lt_le_trans with b; [apply N.mod_lt; lia|done]. Qed.
Lemma pow_S w : b ^ N.of_nat (S w) = b * b ^ N.of_nat w.
Proof. by rewrite Nat2N.inj_succ, N.pow_succ_r'. Qed.
Lemma div_lt_pow w n : n < b ^ N.of_nat (S w) → n / b < b ^ N.of_nat w.
Proof. rewrite pow_S. intros H. apply N.Div0.div_lt_upper_bound; lia. Qed.

Lemma width_go_spec fuel n :
  N.log2 n <= N.of_nat fuel → n < b ^ N.of_nat (width_go b fuel n).
Proof.
  revert n. induction fuel as [|fuel IH]; intros n Hlog; cbn [width_go].
  { rewrite N.pow_1_r. destruct (decide (n = 0)) as [->|]; [lia|].
    apply N.lt_le_trans with 2; [|done].
    apply N.log2_lt_cancel. simpl. lia. }
  destruct (N.ltb_spec n b); [by rewrite N.pow_1_r|].
  rewrite pow_S. assert (n / b < b ^ N.of_nat (width_go b fuel (n / b))) as Hq.
  { apply IH. assert (N.log2 (n / b) < N.log2 n); [|lia].
    apply N.log2_lt_pow2; [apply N.div_str_pos; lia|].
    apply N.Div0.div_lt_upper_bound. pose proof (N.log2_spec n ltac:(lia)) as [_ Hlt].
    rewrite N.pow_succ_r' in Hlt. nia. }
  pose proof (N.mul_succ_div_gt n b ltac:(lia)). nia.
Qed.
Lemma width_go_le fuel n w :
  (0 < w)%nat → n < b ^ N.of_nat w → (width_go b fuel n <= w)%nat.
Proof.
  revert n w. induction fuel as [|fuel IH]; intros n w Hw Hn; cbn [width_go]; [lia|].
  destruct (N.ltb_spec n b); [lia|]. destruct w as [|[|w]]; [lia| |].
  - rewrite N.pow_1_r in Hn. lia.
  - apply le_n_S, IH; [lia|]. by apply div_lt_pow.
Qed.
Lemma width_spec n : n < b ^ N.of_nat (width b n).
Proof. apply width_go_spec. lia. Qed.
Lemma width_pos n : (0 < width b n)%nat.
Proof. unfold width. destruct (N.to_nat _); cbn; [lia|]. destruct (n <? b); lia. Qed.
Lemma pad_fixed w n : (0 < w)%nat → n < b ^ N.of_nat w → pad b w n = fixed b w n.
Proof. intros Hw Hn. unfold pad. by rewrite Nat.max_l by by apply width_go_le. Qed.

Lemma div_mod_compare x y :
  N.compare x y =
  match N.compare (x / b) (y / b) with Eq => N.compare (x mod b) (y mod b) | o => o end.
Proof.
  pose proof (N.div_mod' x b) as Hx. pose proof (N.div_mod' y b) as Hy.
  assert (x mod b < b) as Hrx by (apply N.mod_lt; lia).
  assert (y mod b < b) as Hry by (apply N.mod_lt; lia).
  revert Hx Hy Hrx Hry. generalize (x / b), (y / b), (x mod b), (y mod b).
  intros qx qy rx ry Hx Hy Hrx Hry. destruct (N.compare_spec qx qy).
  - subst qy. destruct (N.compare_spec rx ry).
    + apply N.compare_eq_iff. lia.
    + apply N.compare_lt_iff. lia.
    + apply N.compare_gt_iff. lia.
  - apply N.compare_lt_iff. nia.
  - apply N.compare_gt_iff. nia.
Qed.
(** Fixed-width numerals are ordered as the numbers. *)
Lemma fixed_compare w x y :
  x < b ^ N.of_nat w → y < b ^ N.of_nat w →
  str_cmp (fixed b w x) (fixed b w y) = N.compare x y.
Proof.
  revert x y. induction w as [|w IH]; intros x y Hx Hy.
  { simpl in *. by assert (x = 0 ∧ y = 0) as [-> ->] by lia. }
  cbn [fixed]. rewrite str_cmp_app by by rewrite !fixed_length.
  rewrite IH by by apply div_lt_pow. rewrite (div_mod_compare x y).
  destruct (N.compare (x / b) (y / b)); [|done|done]. simpl.
  rewrite digit_compare by apply mod_digit. by destruct (N.compare _ _).
Qed.

Lemma parse_digits_app bound acc s c :
  parse_digits b bound acc (s +:+ String c "") =
  x ← parse_digits b bound acc s; parse_digits b bound x (String c "").
Proof.
  revert acc. induction s as [|c' s IH]; intros acc; [done|].
  change (String c' s +:+ String c "") with (String c' (s +:+ String c "")).
  cbn [parse_digits]. destruct (digit_value b c'); simpl; [|done].
  by destruct (_ <? bound); [apply IH|].
Qed.
Lemma parse_fixed w bound n :
  n < bound → n < b ^ N.of_nat w → parse_digits b bound 0 (fixed b w n) = Some n.
Proof.
  revert n. induction w as [|w IH]; intros n Hb Hn.
  { simpl in *. f_equal. lia. }
  cbn [fixed]. rewrite parse_digits_app.
  pose proof (N.div_mod' n b) as Hdm.
  rewrite IH; [|apply N.le_lt_trans with n; [apply N.Div0.div_le_upper_bound; nia|done]
              |by apply div_lt_pow].
  cbn. rewrite digit_value_digit by (done || apply N.mod_lt; lia). cbn.
  rewrite (N.mul_comm (n / b)), <-Hdm. by rewrite (proj2 (N.ltb_lt _ _) Hb).
Qed.
Lemma fixed_head w n : (0 < w)%nat → ∃ d s, fixed b w n = String (digit d) s ∧ d < 16.
Proof.
  revert n. induction w as [|w IH]; intros n Hw; [lia|]. cbn [fixed].
  destruct (decide (w = 0)%nat) as [->|].
  { exists (n mod b), "". split; [done|]. apply mod_digit. }
  destruct (IH (n / b)) as (d & s & -> & Hd); [lia|].
  by exists d, (s +:+ String (digit (n mod b)) "").
Qed.
Lemma fixed_head_lt w n : (0 < w)%nat → ∃ d s, fixed b w n = String (digit d) s ∧ d < b.
Proof.
  revert n. induction w as [|w IH]; intros n Hw; [lia|]. cbn [fixed].
  destruct (decide (w = 0)%nat) as [->|].
  { exists (n mod b), "". split; [done|]. apply N.mod_lt. lia. }
  destruct (IH (n / b)) as (d & s & -> & Hd); [lia|].
  by exists d, (s +:+ String (digit (n mod b)) "").
Qed.
Lemma from_str_radix_fixed w bound n :
  (0 < w)%nat → n < bound → n < b ^ N.of_nat w →
  from_str_radix b bound (fixed b w n) = Some n.
Proof.
  intros Hw Hb Hn. destruct (fixed_head w n Hw) as (d & s & E & Hd).
  pose proof (parse_fixed w bound n Hb Hn) as Hp. rewrite E in *.
  unfold from_str_radix. by rewrite (digit_not "+").
Qed.
(** Parsing what formatting printed. *)
Lemma from_str_radix_pad w bound n : n < bound → from_str_radix b bound (pad b w n) = Some n.
Proof.
  intros Hn. unfold pad. apply from_str_radix_fixed; [pose proof (width_pos n); lia|done|].
  eapply N.lt_le_trans; [apply width_spec|]. apply N.pow_le_mono_r; lia.
Qed.
(** A byte that is no digit does not occur in a numeral. *)
Lemma fixed_all (P : ascii → bool) w n :
  forallb (λ d, P (digit d)) digits16 = true → str_all P (fixed b w n) = true.
Proof.
  intros HP. revert n. induction w as [|w IH]; intros n; [done|].
  cbn [fixed]. rewrite str_all_app, IH. cbn [str_all].
  by rewrite (digits16_forall (λ d, P (digit d)) HP) by apply mod_digit.
Qed.
End Base.

End Radix.

(** Decimal formatting ([{}]) and [parse::<usize>] (64-bit). *)
Definition dec (n : N) : string := Radix.pad 10 1 n.
Definition parse_usize (s : string) : option N := Radix.from_str_radix 10 u64_modulus s.
Lemma parse_dec n : n < u64_modulus → parse_usize (dec n) = Some n.
Proof. intros H. by apply Radix.from_str_radix_pad. Qed.

(** ** Splitting and replacing *)

(** [s.split(c)]: always at least one piece. *)
Fixpoint split_on (c : ascii) (s : string) : list string :=
  match s with
  | EmptyString => [""]
  | String a s' =>
      if Ascii.eqb a c then "" :: split_on c s'
      else match split_on c s' with
           | [] => [String a ""]
           | p :: ps => String a p :: ps
           end
  end.
(** [s.split_once(c)] *)
Fixpoint split_once (c : ascii) (s : string) : option (string * string) :=
  match s with
  | EmptyString => None
  | String a s' =>
      if Ascii.eqb a c then Some ("", s')
      else '(l, r) ← split_once c s'; Some (String a l, r)
  end.
(** [s.replace(c, r)] for a one-byte pattern. *)
Fixpoint replace_char (c : ascii) (r : string) (s : string) : string :=
  match s with
  | EmptyString => ""
  | String a s' => if Ascii.eqb a c then r +:+ replace_char c r s'
                   else String a (replace_char c r s')
  end.
(** [s.replace("ab", r)] for a pattern of two different bytes. *)
Fixpoint replace_pair (a b : ascii) (r : string) (s : string) : string :=
  match s with
  | String x s' =>
      match s' with
      | String y s'' =>
          if Ascii.eqb x a && Ascii.eqb y b then r +:+ replace_pair a b r s''
          else String x (replace_pair a b r s')
      | EmptyString => s
      end
  | EmptyString => s
  end.

Lemma split_on_none c p :
  str_all (λ x, negb (Ascii.eqb x c)) p = true → split_on c p = [p].
Proof.
  induction p as [|x p IH]; [done|]. cbn [str_all split_on].
  intros [Hx Hp]%andb_true_iff. apply negb_true_iff in Hx. by rewrite Hx, (IH Hp).
Qed.
Lemma split_on_app c p q :
  str_all (λ x, negb (Ascii.eqb x c)) p = true →
  split_on c (p +:+ String c q) = p :: split_on c q.
Proof.
  induction p as [|x p IH]; intros Hp.
  - change ("" +:+ String c q) with (String c q). cbn [split_on]. by rewrite Ascii.eqb_refl.
  - change (String x p +:+ String c q) with (String x (p +:+ String c q)).
    cbn [str_all split_on] in *. apply andb_true_iff in Hp as [Hx Hp].
    apply negb_true_iff in Hx. by rewrite Hx, (IH Hp).
Qed.
Lemma replace_char_none c r s :
  str_all (λ x, negb (Ascii.eqb x c)) s = true → replace_char c r s = s.
Proof.
  induction s as [|x s IH]; [done|]. cbn [str_all replace_char].
  intros [Hx Hs]%andb_true_iff. apply negb_true_iff in Hx. by rewrite Hx, (IH Hs).
Qed.
(** The decimal numeral of an index has none of the bytes special to paths. *)
Lemma dec_all (P : ascii → bool) n :
  forallb (λ d, P (Radix.digit d)) Radix.digits16 = true → str_all P (dec n) = true.
Proof. intros HP. by apply Radix.fixed_all. Qed.
Lemma dec_nonempty n : dec n ≠ "".
Proof.
  intros H. apply (f_equal String.length) in H. unfold dec, Radix.pad in H.
  rewrite Radix.fixed_length in H. simpl in H. lia.
Qed.

(** ** Texts of countable data

    A text for every value of a countable type, to instantiate the encodings
    that libraries provide: the binary digits of its code. *)

Fixpoint bits (p : positive) : string :=
  match p with
  | xH => ""
  | xO p => String "0" (bits p)
  | xI p => String "1" (bits p)
  end.
Fixpoint unbits (s : string) : positive :=
  match s with
  | EmptyString => xH
  | String c s' => if Ascii.eqb c "0" then xO (unbits s') else xI (unbits s')
  end.
Lemma unbits_bits p : unbits (bits p) = p.
Proof. induction p as [p IH|p IH|]; simpl; congruence. Qed.
Definition to_text {A} `{Countable A} (x : A) : string := bits (encode x).
Definition of_text {A} `{Countable A} (s : string) : option A := decode (unbits s).
Lemma of_to_text {A} `{Countable A} (x : A) : of_text (to_text x) = Some x.
Proof. unfold of_text, to_text. by rewrite unbits_bits, decode_encode. Qed.

(** The order in which a hash map is walked, and its law. *)
Class HashOrder := hash_order : list string → list string.
Class HashOrderLaws `{!HashOrder} : Prop := hash_order_perm l : hash_order l ≡ₚ l.
