(* ===== verification/Json.v ===== *)
(** * JSON values

    The documents of SoliDB are [serde_json::Value]s. The enum is the one the
    source matches on; its object map is the ordered map of serde_json's
    default feature set (a [BTreeMap], Cargo.toml enables no other), here an
    association list kept in key order. [serde_json::Number] belongs to the
    crate, so it stays a parameter: a type with the operations the source
    calls ([JsonNumber]) and the documented law that its equality is an
    equivalence ([JsonNumberLaws]). *)

From S2P Require Import Prelude.

(** ** Ordered maps *)

Module OMap.
Section OMap.
Context {A : Type}.
Implicit Types (m : list (string * A)) (k : string) (v : A).

Fixpoint get k m : option A :=
  match m with
  | [] => None
  | (k', v) :: m' => if String.eqb k k' then Some v else get k m'
  end.
Definition contains_key k m : bool := match get k m with Some _ => true | None => false end.
Fixpoint insert k v m : list (string * A) :=
  match m with
  | [] => [(k, v)]
  | (k', v') :: m' =>
      match str_cmp k k' with
      | Lt => (k, v) :: m
      | Eq => (k, v) :: m'
      | Gt => (k', v') :: insert k v m'
      end
  end.
Fixpoint remove k m : list (string * A) :=
  match m with
  | [] => []
  | (k', v') :: m' => if String.eqb k k' then m' else (k', v') :: remove k m'
  end.

(** Keys strictly increasing. *)
Definition wf m : Prop := StronglySorted (λ x y, str_cmp x y = Lt) m.*1.

Lemma wf_nil : wf [].
Proof. constructor. Qed.
Lemma wf_cons k v m : wf ((k, v) :: m) ↔ wf m ∧ ∀ k' v', (k', v') ∈ m → str_cmp k k' = Lt.
Proof.
  unfold wf. simpl. split.
  - inversion 1 as [|?? H1 H2]; subst. split; [done|]. intros k' v' Hin.
    rewrite Forall_forall in H2. apply H2. apply list_elem_of_fmap. by exists (k', v').
  - intros [H1 H2]. constructor; [done|]. apply Forall_forall.
    intros k' ([k'' v'] & -> & Hin)%list_elem_of_fmap. by apply (H2 _ v').
Qed.

Lemma get_elem k v m : wf m → (k, v) ∈ m ↔ get k m = Some v.
Proof.
  induction m as [|[k' v'] m IH]; simpl; intros Hwf.
  { split; [by intros ?%elem_of_nil|done]. }
  apply wf_cons in Hwf as [Hwf Hlt]. rewrite elem_of_cons.
  destruct (String.eqb_spec k k') as [->|Hne].
  - split; [intros [[= ->]|Hin]|intros [= ->]]; [done| |by left].
    apply Hlt in Hin. by rewrite str_cmp_refl in Hin.
  - rewrite (IH Hwf). split; [intros [[= -> ->]|]; done|by right].
Qed.
Lemma get_head_lt k v m k' :
  wf ((k, v) :: m) → str_cmp k' k = Lt → get k' ((k, v) :: m) = None.
Proof.
  intros Hwf Hlt. destruct (get k' ((k, v) :: m)) as [v'|] eqn:E; [exfalso|done].
  apply get_elem in E; [|done]. apply wf_cons in Hwf as [_ Hall].
  apply elem_of_cons in E as [[= -> ->]|E].
  - by rewrite str_cmp_refl in Hlt.
  - apply Hall in E. pose proof (cmp_lt_trans str_cmp _ _ _ Hlt E) as H.
    by rewrite str_cmp_refl in H.
Qed.

Lemma get_insert k v m k' :
  wf m → get k' (insert k v m) = if decide (k = k') then Some v else get k' m.
Proof.
  induction m as [|[k1 v1] m IH]; intros Hwf; simpl.
  { destruct (String.eqb_spec k' k), (decide (k = k')); congruence. }
  destruct (str_cmp k k1) eqn:Hcmp; simpl.
  - apply str_cmp_eq_iff in Hcmp as ->.
    destruct (String.eqb_spec k' k1), (decide (k1 = k')); congruence.
  - destruct (String.eqb_spec k' k), (decide (k = k')); try congruence.
  - destruct (String.eqb_spec k' k1) as [->|].
    + case_decide; [subst; by rewrite str_cmp_refl in Hcmp|done].
    + apply IH. by apply wf_cons in Hwf as [? _].
Qed.
Lemma elem_of_insert k v m k' v' :
  (k', v') ∈ insert k v m → (k', v') = (k, v) ∨ (k', v') ∈ m.
Proof.
  induction m as [|[k1 v1] m IH]; simpl; [intros ->%list_elem_of_singleton; by left|].
  destruct (str_cmp k k1); rewrite !elem_of_cons; intuition.
Qed.
Lemma wf_insert k v m : wf m → wf (insert k v m).
Proof.
  induction m as [|[k1 v1] m IH]; simpl; intros Hwf.
  { apply wf_cons. split; [apply wf_nil|]. by intros ?? ?%elem_of_nil. }
  pose proof Hwf as [Hm Hall]%wf_cons.
  destruct (str_cmp k k1) eqn:Hcmp; apply wf_cons.
  - apply str_cmp_eq_iff in Hcmp as ->. done.
  - split; [done|]. intros k' v' [[= -> ->]|Hin]%elem_of_cons; [done|].
    apply (cmp_lt_trans str_cmp) with k1; [done|by eapply Hall].
  - split; [by apply IH|]. intros k' v' [[= -> ->]|Hin]%elem_of_insert; [|by eapply Hall].
    by apply (cmp_gt_lt str_cmp).
Qed.

Lemma get_remove k m k' :
  wf m → get k' (remove k m) = if decide (k = k') then None else get k' m.
Proof.
  induction m as [|[k1 v1] m IH]; simpl; intros Hwf; [by case_decide|].
  pose proof Hwf as [Hm Hall]%wf_cons.
  destruct (String.eqb_spec k k1) as [->|Hne]; simpl.
  - case_decide as Hk; [subst|by destruct (String.eqb_spec k' k1); [congruence|]].
    destruct (get k' m) eqn:E; [|done]. apply get_elem in E; [|done].
    apply Hall in E. by rewrite str_cmp_refl in E.
  - destruct (String.eqb_spec k' k1) as [->|]; [by rewrite decide_False by done|by apply IH].
Qed.
Lemma elem_of_remove p k m : p ∈ remove k m → p ∈ m.
Proof.
  induction m as [|[k1 v1] m IH]; simpl; [done|].
  destruct (String.eqb k k1); rewrite !elem_of_cons; intuition.
Qed.
Lemma wf_remove k m : wf m → wf (remove k m).
Proof.
  induction m as [|[k1 v1] m IH]; simpl; intros Hwf; [done|].
  apply wf_cons in Hwf as [Hm Hall]. destruct (String.eqb k k1); [done|].
  apply wf_cons. split; [by apply IH|]. intros k' v' Hin%elem_of_remove. by eapply Hall.
Qed.
End OMap.

(** Two ordered maps whose lookups are related have related entries, in the
    same order: equality of lookups is equality of maps. *)
Section Ext.
Context {A B : Type} (R : A → B → Prop).
Lemma ext_rel (m1 : list (string * A)) (m2 : list (string * B)) :
  wf m1 → wf m2 → (∀ k, option_Forall2 R (get k m1) (get k m2)) →
  Forall2 (λ p q, p.1 = q.1 ∧ R p.2 q.2) m1 m2.
Proof.
  revert m2. induction m1 as [|[k1 v1] m1 IH]; intros m2 Hwf1 Hwf2 H.
  { destruct m2 as [|[k2 v2] m2]; [constructor|]. specialize (H k2). simpl in H.
    rewrite String.eqb_refl in H. inversion H. }
  destruct m2 as [|[k2 v2] m2].
  { specialize (H k1). simpl in H. rewrite String.eqb_refl in H. inversion H. }
  assert (k1 = k2) as ->.
  { destruct (str_cmp k1 k2) eqn:E; [by apply str_cmp_eq_iff in E|exfalso..].
    - specialize (H k1). rewrite (get_head_lt k2 v2 m2 k1) in H by done.
      simpl in H. rewrite String.eqb_refl in H. inversion H.
    - apply (cmp_gt_lt str_cmp) in E. specialize (H k2).
      rewrite (get_head_lt k1 v1 m1 k2) in H by done.
      simpl in H. rewrite String.eqb_refl in H. inversion H. }
  pose proof Hwf1 as [? Hl1]%wf_cons. pose proof Hwf2 as [? Hl2]%wf_cons.
  constructor.
  - specialize (H k2). simpl in H. rewrite !String.eqb_refl in H. by inversion H.
  - apply IH; try done. intros k. specialize (H k). simpl in H.
    destruct (String.eqb_spec k k2) as [Heq|]; [subst k|done].
    destruct (get k2 m1) as [w|] eqn:E1.
    { apply get_elem in E1; [|done]. apply Hl1 in E1. by rewrite str_cmp_refl in E1. }
    destruct (get k2 m2) as [w|] eqn:E2; [|constructor].
    apply get_elem in E2; [|done]. apply Hl2 in E2. by rewrite str_cmp_refl in E2.
Qed.
End Ext.
Lemma ext {A} (m1 m2 : list (string * A)) :
  wf m1 → wf m2 → (∀ k, get k m1 = get k m2) → m1 = m2.
Proof.
  intros H1 H2 H. pose proof (ext_rel eq m1 m2 H1 H2) as Hr.
  assert (∀ k, option_Forall2 eq (get k m1) (get k m2)) as Hk.
  { intros k. rewrite H. destruct (get k m2); by constructor. }
  specialize (Hr Hk). clear -Hr. induction Hr as [|[??] [??] ?? [??]]; simpl in *; congruence.
Qed.
End OMap.

(** ** Writing fields into an object

    The loops that copy a map into an object, field by field. *)

Module FieldWrites.
Section FieldWrites.
Context {V : Type}.
Implicit Types (r l : list (string * V)).

Lemma write_map {A} (f : A → V) (m : gmap string A) r :
  OMap.wf r →
  let r' := map_fold (λ k a r, OMap.insert k (f a) r) r m in
  OMap.wf r' ∧
  ∀ k, OMap.get k r' = match m !! k with Some a => Some (f a) | None => OMap.get k r end.
Proof.
  intros Hr. simpl. apply (map_fold_weak_ind (λ r' m', OMap.wf r' ∧ ∀ k, OMap.get k r' =
    match m' !! k with Some a => Some (f a) | None => OMap.get k r end)).
  - split; [done|]. intros k. by rewrite lookup_empty.
  - intros k a m' r' Hk [Hw IH]. split; [by apply OMap.wf_insert|].
    intros k'. rewrite OMap.get_insert, lookup_insert by done. case_decide; [done|apply IH].
Qed.
Lemma write_list l r :
  OMap.wf r → OMap.wf l →
  let r' := foldl (λ r p, OMap.insert p.1 p.2 r) r l in
  OMap.wf r' ∧
  ∀ k, OMap.get k r' = match OMap.get k l with Some v => Some v | None => OMap.get k r end.
Proof.
  simpl. revert r. induction l as [|[k v] l IH]; intros r Hr Hl; [done|].
  apply OMap.wf_cons in Hl as [Hl Hlt]. simpl.
  destruct (IH (OMap.insert k v r)) as [Hw Hg]; [by apply OMap.wf_insert|done|].
  split; [done|]. intros k'. rewrite Hg, OMap.get_insert by done.
  destruct (String.eqb_spec k' k) as [->|Hne].
  - rewrite decide_True by done. destruct (OMap.get k l) as [w|] eqn:E; [|done].
    apply OMap.get_elem in E; [|done]. apply Hlt in E. by rewrite str_cmp_refl in E.
  - by rewrite decide_False by congruence.
Qed.
End FieldWrites.
End FieldWrites.

(** ** Numbers *)

Class JsonNumber (Num : Type) := {
  num_eqb : Num → Num → bool;
  num_as_u64 : Num → option N;
  num_of_i64 : Z → Num;
  num_of_u64 : N → Num;
}.
Class JsonNumberLaws (Num : Type) `{!JsonNumber Num} : Prop := {
  num_eqb_refl (x : Num) : num_eqb x x = true;
  num_eqb_sym (x y : Num) : num_eqb x y = true → num_eqb y x = true;
  num_eqb_trans (x y z : Num) : num_eqb x y = true → num_eqb y z = true → num_eqb x z = true;
  num_u64_roundtrip n : (n < u64_modulus)%N → num_as_u64 (num_of_u64 n) = Some n;
}.

(** ** Values *)

Module Json.

Section Value.
Context {Num : Type}.

#[local] Set Warnings "-register-all".
Inductive Value :=
| Null
| Bool (b : bool)
| Number (n : Num)
| JString (s : string)
| Array (arr : list Value)
| Object (map : list (string * Value)).

Definition is_object (v : Value) : bool := match v with Object _ => true | _ => false end.
Definition is_array (v : Value) : bool := match v with Array _ => true | _ => false end.
Definition as_object (v : Value) : option (list (string * Value)) :=
  match v with Object m => Some m | _ => None end.
Definition as_str (v : Value) : option string :=
  match v with JString s => Some s | _ => None end.
(** [Value::get] with a string index. *)
Definition value_get (k : string) (v : Value) : option Value :=
  match v with Object m => OMap.get k m | _ => None end.

(** Induction through the arrays and the objects. *)
Lemma Value_nested_ind (P : Value → Prop) :
  P Null → (∀ b, P (Bool b)) → (∀ n, P (Number n)) → (∀ s, P (JString s)) →
  (∀ arr, Forall P arr → P (Array arr)) →
  (∀ map, Forall (λ p, P p.2) map → P (Object map)) →
  ∀ v, P v.
Proof.
  intros HN HB HNum HS HA HO. fix IH 1.
  intros [|b|n|s|arr|map]; [exact HN|exact (HB b)|exact (HNum n)|exact (HS s)| |].
  - apply HA. induction arr as [|x arr IHa]; constructor; [exact (IH x)|exact IHa].
  - apply HO. induction map as [|[k v] map IHm]; constructor; [exact (IH v)|exact IHm].
Qed.

(** What every value of the program satisfies: object keys in order without
    repetition, and arrays no longer than the address space. *)
Fixpoint wf_value (v : Value) : Prop :=
  match v with
  | Array arr =>
      (N.of_nat (length arr) < u64_modulus)%N ∧
      (fix all (l : list Value) : Prop :=
         match l with [] => True | x :: l' => wf_value x ∧ all l' end) arr
  | Object map =>
      OMap.wf map ∧
      (fix all (l : list (string * Value)) : Prop :=
         match l with [] => True | (_, x) :: l' => wf_value x ∧ all l' end) map
  | _ => True
  end.
Lemma wf_Array arr :
  wf_value (Array arr) ↔ (N.of_nat (length arr) < u64_modulus)%N ∧ Forall wf_value arr.
Proof.
  cbn [wf_value]. apply and_iff_compat_l.
  induction arr as [|x arr IH]; [by rewrite Forall_nil|]. by rewrite Forall_cons, IH.
Qed.
Lemma wf_Object map :
  wf_value (Object map) ↔ OMap.wf map ∧ Forall (λ p, wf_value p.2) map.
Proof.
  cbn [wf_value]. apply and_iff_compat_l.
  induction map as [|[k x] map IH]; [by rewrite Forall_nil|]. by rewrite Forall_cons, IH.
Qed.
Lemma wf_Object_get map k v :
  wf_value (Object map) → OMap.get k map = Some v → wf_value v.
Proof.
  intros [Hwf Hall]%wf_Object Hget. apply OMap.get_elem in Hget; [|done].
  rewrite Forall_forall in Hall. by apply (Hall (k, v)).
Qed.
End Value.
Arguments Value : clear implicits.

(** [PartialEq]: structural, with the number equality at the leaves. *)
Definition list_eqb {A} (eqb : A → A → bool) : list A → list A → bool :=
  fix go l1 l2 :=
    match l1, l2 with
    | [], [] => true
    | x :: l1', y :: l2' => eqb x y && go l1' l2'
    | _, _ => false
    end.
Lemma list_eqb_Forall2 {A} (eqb : A → A → bool) l1 l2 :
  list_eqb eqb l1 l2 = true ↔ Forall2 (λ x y, eqb x y = true) l1 l2.
Proof.
  revert l2. induction l1 as [|x l1 IH]; intros [|y l2]; simpl.
  - split; constructor.
  - split; [done|inversion 1].
  - split; [done|inversion 1].
  - rewrite andb_true_iff, IH. split; [intros []; by constructor|by inversion 1].
Qed.

Definition as_u64 {Num} `{!JsonNumber Num} (v : Value Num) : option N :=
  match v with Number n => num_as_u64 n | _ => None end.

Section Eq.
Context {Num : Type} `{!JsonNumber Num}.

Fixpoint value_eqb (x y : Value Num) : bool :=
  match x, y with
  | Null, Null => true
  | Bool a, Bool b => Bool.eqb a b
  | Number a, Number b => num_eqb a b
  | JString a, JString b => String.eqb a b
  | Array a, Array b => list_eqb value_eqb a b
  | Object a, Object b =>
      list_eqb (λ p q, String.eqb p.1 q.1 && value_eqb p.2 q.2) a b
  | _, _ => false
  end.

#[export] Instance value_equiv : Equiv (Value Num) := λ x y, value_eqb x y = true.

Lemma Array_equiv a b : Array a ≡ Array b ↔ Forall2 (≡) a b.
Proof. apply list_eqb_Forall2. Qed.
Lemma Object_equiv a b :
  Object a ≡ Object b ↔ Forall2 (λ p q, p.1 = q.1 ∧ p.2 ≡ q.2) a b.
Proof.
  unfold equiv, value_equiv. cbn [value_eqb]. rewrite list_eqb_Forall2.
  split; intros H; (eapply Forall2_impl; [exact H|]); intros [k1 v1] [k2 v2]; simpl.
  - by intros [->%String.eqb_eq ?]%andb_true_iff.
  - intros [-> ->]. by rewrite String.eqb_refl.
Qed.

Context `{!JsonNumberLaws Num}.

#[export] Instance value_equivalence : Equivalence (≡@{Value Num}).
Proof.
  split.
  - intros v. induction v as [|b|n|s|arr IH|map IH] using Value_nested_ind.
    + done.
    + by destruct b.
    + apply num_eqb_refl.
    + apply String.eqb_refl.
    + apply Array_equiv. by induction IH; constructor.
    + apply Object_equiv. by induction IH as [|[??]]; constructor.
  - intros x. induction x as [|b|n|s|arr IH|map IH] using Value_nested_ind; intros y; destruct y;
      try done.
    + unfold equiv, value_equiv; simpl. by rewrite Bool.eqb_true_iff; intros ->; apply Bool.eqb_reflx.
    + apply num_eqb_sym.
    + unfold equiv, value_equiv; simpl. intros ->%String.eqb_eq. apply String.eqb_refl.
    + rewrite !Array_equiv. intros H. induction H; constructor; inversion IH; subst; auto.
    + rewrite !Object_equiv. intros H. induction H as [|[??] [??] ?? []]; constructor;
        inversion IH; subst; simpl in *; auto.
  - intros x. induction x as [|b|n|s|arr IH|map IH] using Value_nested_ind; intros y z;
      destruct y, z; try done.
    + unfold equiv, value_equiv; simpl. by rewrite !Bool.eqb_true_iff; intros -> ->.
    + apply num_eqb_trans.
    + unfold equiv, value_equiv; simpl. by intros ->%String.eqb_eq ->%String.eqb_eq; apply String.eqb_refl.
    + rewrite !Array_equiv. intros H. revert arr1. induction H; intros l3 H3;
        inversion H3; subst; constructor; inversion IH; subst; eauto.
    + rewrite !Object_equiv. intros H. revert map1. induction H as [|[??] [??] ?? []]; intros l3 H3;
        inversion H3 as [|?[??]?? []]; subst; constructor; inversion IH; subst; simpl in *; eauto.
      split; [congruence|]. eauto.
Qed.

Lemma value_eqb_spec x y : value_eqb x y = false ↔ ¬ x ≡ y.
Proof. unfold equiv, value_equiv. by destruct (value_eqb x y). Qed.

(** Objects are equal when their lookups are. *)
Lemma Object_equiv_get a b :
  OMap.wf a → OMap.wf b →
  (∀ k, option_Forall2 (≡) (OMap.get k a) (OMap.get k b)) → Object a ≡ Object b.
Proof. intros Ha Hb H. apply Object_equiv. by apply OMap.ext_rel. Qed.
End Eq.

End Json.

(** ** A number type

    The three forms of serde_json's documentation ([u64], negative [i64], and
    a finite [f64] by its bits, with the two zeros equal), to run the
    definitions on. *)

Inductive demo_number := PosInt (n : N) | NegInt (z : Z) | Float (bits : N).
Definition f64_zero_bits (bits : N) : bool := (bits =? 0)%N || (bits =? 2 ^ 63)%N.
#[export] Instance demo_number_ops : JsonNumber demo_number := {
  num_eqb x y :=
    match x, y with
    | PosInt a, PosInt b => N.eqb a b
    | NegInt a, NegInt b => Z.eqb a b
    | Float a, Float b => N.eqb a b || (f64_zero_bits a && f64_zero_bits b)
    | _, _ => false
    end;
  num_as_u64 x := match x with PosInt n => Some n | _ => None end;
  num_of_i64 z := if (z <? 0)%Z then NegInt z else PosInt (Z.to_N z);
  num_of_u64 n := PosInt n;
}.
#[export] Instance demo_number_laws : JsonNumberLaws demo_number.
Proof.
  split; simpl.
  - intros [n|z|b]; rewrite ?N.eqb_refl, ?Z.eqb_refl; done.
  - intros [n|z|b] [n'|z'|b']; try done.
    + by rewrite N.eqb_sym.
    + by rewrite Z.eqb_sym.
    + by rewrite N.eqb_sym, (andb_comm (f64_zero_bits b)).
  - intros [n|z|b] [n'|z'|b'] [n''|z''|b'']; try done.
    + by intros ->%N.eqb_eq.
    + by intros ->%Z.eqb_eq.
    + rewrite !orb_true_iff, !andb_true_iff, !N.eqb_eq. intros [->|[]] [->|[]]; auto.
  - done.
Qed.

(** ** Values are countable *)

Section Countable.
Context {Num : Type} `{Countable Num}.
Notation leaf := (bool + Num + string)%type.

Fixpoint to_tree (v : Json.Value Num) : gen_tree leaf :=
  match v with
  | Json.Null => GenNode 0 []
  | Json.Bool b => GenLeaf (inl (inl b))
  | Json.Number n => GenLeaf (inl (inr n))
  | Json.JString s => GenLeaf (inr s)
  | Json.Array l => GenNode 1 (List.map to_tree l)
  | Json.Object m => GenNode 2 (List.map (λ p, GenNode 3 [GenLeaf (inr p.1); to_tree p.2]) m)
  end.
Fixpoint of_tree (t : gen_tree leaf) : Json.Value Num :=
  match t with
  | GenLeaf (inl (inl b)) => Json.Bool b
  | GenLeaf (inl (inr n)) => Json.Number n
  | GenLeaf (inr s) => Json.JString s
  | GenNode 1 l => Json.Array (List.map of_tree l)
  | GenNode 2 l =>
      Json.Object (List.map (λ t, match t with
        | GenNode _ [GenLeaf (inr k); u] => (k, of_tree u)
        | _ => ("", Json.Null)
        end) l)
  | GenNode _ _ => Json.Null
  end.
Lemma of_to_tree v : of_tree (to_tree v) = v.
Proof.
  induction v as [| | | |l IH|m IH] using Json.Value_nested_ind; simpl; try done; f_equal.
  - rewrite List.map_map. induction IH as [|x l Hx _ IHl]; simpl; [done|]. by rewrite Hx, IHl.
  - rewrite List.map_map. induction IH as [|[k x] m Hx _ IHm]; simpl; [done|]. simpl in Hx. by rewrite Hx, IHm.
Qed.
#[export] Instance Value_eq : EqDecision (Json.Value Num).
Proof.
  intros v w. destruct (decide (to_tree v = to_tree w)) as [E|E]; [left|right].
  - by rewrite <-(of_to_tree v), E, of_to_tree.
  - by intros ->.
Defined.
#[export] Instance Value_countable : Countable (Json.Value Num) :=
  inj_countable' to_tree of_tree of_to_tree.
End Countable.

#[export] Instance demo_number_eq : EqDecision demo_number.
Proof. solve_decision. Defined.
#[export] Program Instance demo_number_countable : Countable demo_number :=
  inj_countable' (λ n, match n with PosInt a => inl (inl a) | NegInt z => inl (inr z) | Float b => inr b end)
    (λ x, match x with inl (inl a) => PosInt a | inl (inr z) => NegInt z | inr b => Float b end) _.
Next Obligation. by intros []. Qed.
