(* ===== verification/VersionVector.v ===== *)
(** * Version vectors (src/src/sync/version_vector.rs)

    The per-document version vector that decides whether two replicas of a
    document are ordered or concurrent: its operations, the order they decide,
    the merge as a least upper bound, and a small system of replicas in which
    the vectors are shown to track the update histories exactly. *)

From S2P Require Import Prelude.

Local Open Scope N_scope.

Module VersionVector.

(** The struct; [versions] maps a node to its logical clock. *)
Record VersionVector := mkVV {
  versions : gmap string N;
  hlc_timestamp : N;
  hlc_counter : N;
}.

Definition new : VersionVector := mkVV ∅ 0 0.
Definition with_node (node_id : string) (counter : N) : VersionVector :=
  mkVV {[node_id := counter]} 0 0.

Definition get (v : VersionVector) (node_id : string) : N :=
  default 0 (versions v !! node_id).

(** [increment] returns the new counter and updates the vector. *)
Definition increment (v : VersionVector) (node_id : string) : N * VersionVector :=
  let counter := wrap64 (default 0 (versions v !! node_id) + 1) in
  (counter, mkVV (<[node_id := counter]> (versions v)) (hlc_timestamp v) (hlc_counter v)).

Definition set_hlc (v : VersionVector) (timestamp counter : N) : VersionVector :=
  mkVV (versions v) timestamp counter.

(** The loop leaves at the first counter of [other] that is ahead. *)
Definition dominates (self other : VersionVector) : bool :=
  forallb (λ '(node_id, other_counter),
             negb (default 0 (versions self !! node_id) <? other_counter))
          (map_to_list (versions other)).
Definition is_dominated_by (self other : VersionVector) : bool := dominates other self.

Inductive VectorComparison := Equal | Dominates | Dominated | Concurrent.
#[export] Instance VectorComparison_eq_dec : EqDecision VectorComparison.
Proof. solve_decision. Defined.

Definition compare (self other : VersionVector) : VectorComparison :=
  match dominates self other, dominates other self with
  | true, true => Equal
  | true, false => Dominates
  | false, true => Dominated
  | false, false => Concurrent
  end.

Definition is_conflict (c : VectorComparison) : bool :=
  match c with Concurrent => true | _ => false end.
Definition self_wins (c : VectorComparison) : bool :=
  match c with Dominates | Equal => true | _ => false end.

Definition merge (self other : VersionVector) : VersionVector :=
  let vs := raise_all (versions self) (versions other) in
  if hlc_timestamp self <? hlc_timestamp other then
    mkVV vs (hlc_timestamp other) (hlc_counter other)
  else if (hlc_timestamp other =? hlc_timestamp self) && (hlc_counter self <? hlc_counter other) then
    mkVV vs (hlc_timestamp self) (hlc_counter other)
  else mkVV vs (hlc_timestamp self) (hlc_counter self).
(** [merged] clones the receiver and merges into the clone. *)
Definition merged (self other : VersionVector) : VersionVector := merge self other.

Definition nodes (v : VersionVector) : list string := (map_to_list (versions v)).*1.
Definition is_empty (v : VersionVector) : bool := bool_decide (versions v = ∅).
(** [PartialEq]: the counters only, not the HLC. *)
Definition eq (self other : VersionVector) : bool :=
  bool_decide (versions self = versions other).

(** ** The order of the vectors *)

Definition vv_le (a b : VersionVector) : Prop := ∀ n, get a n <= get b n.
Definition vv_lt_at (a b : VersionVector) : Prop := ∃ n, get a n < get b n.

Lemma dominates_true self other : dominates self other = true ↔ vv_le other self.
Proof.
  unfold dominates, vv_le, get. rewrite forallb_forall. split.
  - intros H n. destruct (versions other !! n) as [c|] eqn:E; simpl; [|lia].
    specialize (H (n, c)). rewrite <-list_elem_of_In, elem_of_map_to_list in H.
    apply H in E. destruct (N.ltb_spec (default 0 (versions self !! n)) c); naive_solver.
  - intros H [n c] E. apply list_elem_of_In, elem_of_map_to_list in E.
    specialize (H n). rewrite E in H. simpl in H.
    by destruct (N.ltb_spec (default 0 (versions self !! n)) c); [lia|].
Qed.
Lemma dominates_false self other : dominates self other = false ↔ vv_lt_at self other.
Proof.
  split.
  - unfold dominates, vv_lt_at, get. intros H.
    assert (existsb (λ '(n, c), default 0 (versions self !! n) <? c)
              (map_to_list (versions other)) = true) as Hex.
    { revert H. induction (map_to_list (versions other)) as [|[n c] l IH]; simpl; [done|].
      by destruct (default 0 (versions self !! n) <? c). }
    apply existsb_exists in Hex as [[n c] [Hin Hlt]]. exists n.
    apply list_elem_of_In, elem_of_map_to_list in Hin. rewrite Hin. by apply N.ltb_lt.
  - intros [n Hn]. destruct (dominates self other) eqn:E; [|done].
    apply dominates_true in E. specialize (E n). lia.
Qed.

Lemma get_merged a b n : get (merged a b) n = N.max (get a n) (get b n).
Proof.
  transitivity (count_of (raise_all (versions a) (versions b)) n).
  { unfold merged, merge. by repeat case_match. }
  by rewrite raise_all_max, count_of_max.
Qed.

(** The lexicographically larger of two HLC readings; the first on a tie. *)
Definition hlc_ltb (p q : N * N) : bool :=
  (p.1 <? q.1) || ((p.1 =? q.1) && (p.2 <? q.2)).
Definition hlc_max (p q : N * N) : N * N := if hlc_ltb p q then q else p.
Definition hlc_of (v : VersionVector) : N * N := (hlc_timestamp v, hlc_counter v).

Lemma hlc_ltb_spec p q :
  BoolSpec (p.1 < q.1 ∨ p.1 = q.1 ∧ p.2 < q.2) (q.1 < p.1 ∨ p.1 = q.1 ∧ q.2 <= p.2)
    (hlc_ltb p q).
Proof.
  unfold hlc_ltb. destruct (N.ltb_spec p.1 q.1), (N.eqb_spec p.1 q.1),
    (N.ltb_spec p.2 q.2); constructor; lia.
Qed.
Lemma hlc_max_comm p q : hlc_max p q = hlc_max q p.
Proof.
  unfold hlc_max. destruct (hlc_ltb_spec p q), (hlc_ltb_spec q p), p, q;
    simpl in *; f_equal; lia.
Qed.
Lemma hlc_max_assoc p q r : hlc_max (hlc_max p q) r = hlc_max p (hlc_max q r).
Proof.
  unfold hlc_max. destruct (hlc_ltb_spec q r), (hlc_ltb_spec p q);
    try done; destruct (hlc_ltb_spec p r), (hlc_ltb_spec q r); try done; exfalso; lia.
Qed.
Lemma merged_hlc a b : hlc_of (merged a b) = hlc_max (hlc_of a) (hlc_of b).
Proof.
  unfold merged, merge, hlc_max, hlc_ltb, hlc_of; simpl.
  rewrite (N.eqb_sym (hlc_timestamp a)).
  destruct (hlc_timestamp a <? hlc_timestamp b); simpl; [done|].
  destruct (N.eqb_spec (hlc_timestamp b) (hlc_timestamp a)) as [->|]; simpl; [|done].
  by destruct (hlc_counter a <? hlc_counter b).
Qed.
Lemma merged_versions a b :
  versions (merged a b) = max_counts (versions a) (versions b).
Proof. rewrite <-raise_all_max. unfold merged, merge. by repeat case_match. Qed.

Lemma vv_eq a b : versions a = versions b → hlc_of a = hlc_of b → a = b.
Proof. destruct a, b; unfold hlc_of; simpl. congruence. Qed.

(** The four outcomes of [compare] are exactly the four relations between
    the counters: pointwise equal, ahead, behind, and ahead at one node while
    behind at another. *)
Theorem compare_causality a b :
  match compare a b with
  | Equal => ∀ n, get a n = get b n
  | Dominates => vv_le b a ∧ vv_lt_at b a
  | Dominated => vv_le a b ∧ vv_lt_at a b
  | Concurrent => vv_lt_at a b ∧ vv_lt_at b a
  end.
Proof.
  unfold compare.
  destruct (dominates a b) eqn:Hab, (dominates b a) eqn:Hba;
    rewrite ?dominates_true, ?dominates_false in *; try done.
  intros n. specialize (Hab n). specialize (Hba n). lia.
Qed.

(** [merged] is the least upper bound of its arguments in the order that
    [dominates] decides, and as an operation on vectors (HLC included) it is
    commutative, associative and idempotent, so replicas that exchange their
    vectors in any order and any number of times agree. *)
Theorem merged_join a b c :
  (dominates (merged a b) a = true ∧ dominates (merged a b) b = true) ∧
  (dominates c a = true → dominates c b = true → dominates c (merged a b) = true) ∧
  merged a b = merged b a ∧
  merged (merged a b) c = merged a (merged b c) ∧
  merged a a = a.
Proof.
  rewrite !dominates_true. unfold vv_le.
  split; [split; intros n; rewrite get_merged; lia|]. split.
  { intros Ha Hb n. rewrite get_merged. specialize (Ha n). specialize (Hb n). lia. }
  split; [|split]; apply vv_eq; rewrite ?merged_versions, ?merged_hlc.
  - apply max_counts_comm.
  - apply hlc_max_comm.
  - apply max_counts_assoc.
  - apply hlc_max_assoc.
  - apply max_counts_idemp.
  - unfold hlc_max. by destruct (hlc_ltb _ _).
Qed.

Lemma get_increment v n m :
  get (increment v n).2 m = if decide (n = m) then wrap64 (get v n + 1) else get v m.
Proof. apply count_of_insert. Qed.

(** ** Replicas and their histories

    Each replica holds its vector and, as a ghost, the set of the updates it
    has seen, an update being the node that made it and its number there. A
    replica either makes an update of its own or merges the vector of another
    one. *)

Record replica := mkReplica { vec : VersionVector; seen : gset (string * N) }.
Definition system := string → replica.
Definition init_system : system := λ _, mkReplica new ∅.
Definition set_replica (s : system) (r : string) (x : replica) : system :=
  λ r', if decide (r = r') then x else s r'.

Inductive sys_step : system → system → Prop :=
| step_update s r :
    get (vec (s r)) r + 1 < u64_modulus →
    let '(counter, v) := increment (vec (s r)) r in
    sys_step s (set_replica s r (mkReplica v ({[(r, counter)]} ∪ seen (s r))))
| step_sync s r r' :
    sys_step s (set_replica s r
      (mkReplica (merged (vec (s r)) (vec (s r'))) (seen (s r) ∪ seen (s r')))).

Definition tracks (x : replica) : Prop :=
  ∀ n i, (n, i) ∈ seen x ↔ 1 <= i <= get (vec x) n.

Lemma tracks_init r : tracks (init_system r).
Proof. intros n i. unfold init_system, get; simpl. rewrite lookup_empty; simpl. split; [set_solver|lia]. Qed.

Lemma tracks_step s s' : sys_step s s' → (∀ r, tracks (s r)) → ∀ r, tracks (s' r).
Proof.
  destruct 1 as [s r Hlt|s r r']; simpl; intros IH q; unfold set_replica;
    case_decide; try apply IH; subst q; intros n i; simpl.
  - change (mkVV _ _ _) with (increment (vec (s r)) r).2.
    rewrite get_increment, elem_of_union, elem_of_singleton, (IH r n i).
    change (default 0 (versions (vec (s r)) !! r)) with (get (vec (s r)) r).
    rewrite wrap64_small by done. case_decide; [subst n|].
    + split; [intros [[= ->]|]; lia|]. intros Hi.
      destruct (decide (i = get (vec (s r)) r + 1)) as [->|]; [by left|right; lia].
    + split; [intros [[= -> ->]|]; [done|done]|by right].
  - rewrite get_merged, elem_of_union, (IH r n i), (IH r' n i). lia.
Qed.

Lemma tracks_reachable s : rtc sys_step init_system s → ∀ r, tracks (s r).
Proof.
  intros H. pattern s. revert s H. apply rtc_ind_r; [apply tracks_init|].
  intros s s' _ Hstep IH. by eapply tracks_step.
Qed.

(** C24: in every reachable system of replicas the vector of one replica
    dominates the vector of another exactly when it has seen every update the
    other has seen: [dominates] decides causality, neither missing nor
    inventing a conflict. *)
Theorem dominates_iff_seen s r r' :
  rtc sys_step init_system s →
  dominates (vec (s r)) (vec (s r')) = true ↔ seen (s r') ⊆ seen (s r).
Proof.
  intros H. pose proof (tracks_reachable _ H r) as Hr.
  pose proof (tracks_reachable _ H r') as Hr'.
  rewrite dominates_true. split.
  - intros Hle [n i] Hi. apply Hr. apply Hr' in Hi. specialize (Hle n). lia.
  - intros Hsub n. destruct (decide (get (vec (s r')) n = 0)) as [->|Hne]; [lia|].
    apply (Hr n (get (vec (s r')) n)), Hsub, Hr'. lia.
Qed.

(** Two replicas update concurrently, then the first merges the second. *)
Definition demo_system : system :=
  let s1 := set_replica init_system "a"
              (mkReplica (increment new "a").2 ({[("a", 1)]} ∪ ∅)) in
  let s2 := set_replica s1 "b" (mkReplica (increment new "b").2 ({[("b", 1)]} ∪ ∅)) in
  set_replica s2 "a"
    (mkReplica (merged (vec (s2 "a")) (vec (s2 "b"))) (seen (s2 "a") ∪ seen (s2 "b"))).

Lemma demo_system_reachable : rtc sys_step init_system demo_system.
Proof.
  eapply rtc_l; [apply (step_update init_system "a"); by vm_compute|].
  eapply rtc_l; [refine (step_update _ "b" _); by vm_compute|].
  apply rtc_once, (step_sync _ "a" "b").
Qed.

Lemma dominates_iff_seen_witness :
  rtc sys_step init_system demo_system ∧
  (dominates (vec (demo_system "a")) (vec (demo_system "b")) = true ↔
   seen (demo_system "b") ⊆ seen (demo_system "a")).
Proof.
  split; [exact demo_system_reachable|].
  apply dominates_iff_seen. exact demo_system_reachable.
Defined.

End VersionVector.
