(* ===== verification/Hlc.v ===== *)
(** * Hybrid logical clocks (src/src/cluster/hlc.rs)

    The clock values with their order and their sortable string keys, the
    clock rules [tick] and [receive], and the lock-free [HlcGenerator], whose
    loop is a step relation over the two atomics. The wall clock
    ([current_time_ms]) is an argument of every operation that reads it. *)

From S2P Require Import Prelude Text.

Local Open Scope N_scope.

(** ** The clock values *)

Module Hlc.

Record HybridLogicalClock := mkHLC {
  physical_time : N;
  logical_counter : N;
  node_id : string;
}.
#[export] Instance HLC_eq_dec : EqDecision HybridLogicalClock.
Proof. solve_decision. Defined.

Definition new (p l : N) (n : string) : HybridLogicalClock := mkHLC p l n.
(** [HybridLogicalClock::now] at wall-clock time [now]. *)
Definition hlc_now (now : N) (node : string) : HybridLogicalClock := mkHLC now 0 node.

Definition tick (self : HybridLogicalClock) (now : N) (node : string) : HybridLogicalClock :=
  if physical_time self <? now then mkHLC now 0 node
  else mkHLC (physical_time self) (wrap32 (logical_counter self + 1)) node.

Definition receive (self other : HybridLogicalClock) (now : N) (node : string)
    : HybridLogicalClock :=
  let '(physical, logical) :=
    if (physical_time self <? now) && (physical_time other <? now) then (now, 0)
    else if physical_time other <? physical_time self then
      if physical_time self <=? now then (now, 0)
      else (physical_time self, wrap32 (logical_counter self + 1))
    else if physical_time self <? physical_time other then
      (physical_time other, wrap32 (logical_counter other + 1))
    else
      (physical_time self,
       wrap32 (N.max (logical_counter self) (logical_counter other) + 1)) in
  mkHLC physical logical node.

Definition compare (self other : HybridLogicalClock) : comparison :=
  match N.compare (physical_time self) (physical_time other) with
  | Eq =>
      match N.compare (logical_counter self) (logical_counter other) with
      | Eq => str_cmp (node_id self) (node_id other)
      | o => o
      end
  | o => o
  end.
Definition is_newer_than (self other : HybridLogicalClock) : bool :=
  match compare self other with Gt => true | _ => false end.

Definition to_string_key (self : HybridLogicalClock) : string :=
  Radix.pad 16 16 (physical_time self) +:+ String "-"
    (Radix.pad 16 8 (logical_counter self) +:+ String "-" (node_id self)).

(** The text before the first dash and the text after it. *)
Fixpoint split_dash (s : string) : option (string * string) :=
  match s with
  | EmptyString => None
  | String c s' =>
      if Ascii.eqb c "-" then Some ("", s')
      else '(a, b) ← split_dash s'; Some (String c a, b)
  end.
(** [splitn(3, '-')] has three parts exactly when there are two dashes. *)
Definition from_string_key (s : string) : option HybridLogicalClock :=
  '(p0, rest) ← split_dash s;
  '(p1, p2) ← split_dash rest;
  physical ← Radix.from_str_radix 16 u64_modulus p0;
  logical ← Radix.from_str_radix 16 u32_modulus p1;
  Some (mkHLC physical logical p2).

(** The field ranges of the struct. *)
Definition in_range (h : HybridLogicalClock) : Prop :=
  physical_time h < u64_modulus ∧ logical_counter h < u32_modulus.

(** *** The order *)

#[export] Instance compare_strict : StrictCmp compare.
Proof.
  set (c := cmp_then (cmp_by physical_time N.compare)
              (cmp_then (cmp_by logical_counter N.compare) (cmp_by node_id str_cmp))).
  assert (TotalCmp c) as Hc by apply _.
  assert (∀ x y, compare x y = c x y) as Heq by done.
  split; [split|].
  - intros x y. rewrite !Heq. apply cmp_antisym.
  - intros x y z. rewrite !Heq. apply cmp_le_trans.
  - intros [px lx nx] [py ly ny]. unfold compare; simpl.
    destruct (N.compare_spec px py); [|done|done].
    destruct (N.compare_spec lx ly); [|done|done].
    intros ->%str_cmp_eq_iff. by subst.
Qed.

Lemma newer_lex a b :
  physical_time b < physical_time a ∨
  physical_time a = physical_time b ∧ logical_counter b < logical_counter a →
  is_newer_than a b = true.
Proof.
  unfold is_newer_than, compare.
  destruct (N.compare_spec (physical_time a) (physical_time b)); [|lia|done].
  destruct (N.compare_spec (logical_counter a) (logical_counter b)); [lia|lia|done].
Qed.
Lemma newer_lex_inv a b :
  is_newer_than a b = true →
  physical_time b < physical_time a ∨
  physical_time a = physical_time b ∧ logical_counter b <= logical_counter a.
Proof.
  unfold is_newer_than, compare.
  destruct (N.compare_spec (physical_time a) (physical_time b)); [|done|lia].
  destruct (N.compare_spec (logical_counter a) (logical_counter b)); [lia|done|lia].
Qed.

(** [tick] returns a clock strictly newer than the one it was called on
    and not behind the wall clock, as long as the 32-bit counter has room. *)
Theorem tick_newer h now node :
  logical_counter h + 1 < u32_modulus →
  is_newer_than (tick h now node) h = true ∧ now <= physical_time (tick h now node).
Proof.
  intros Hl. unfold tick. destruct (N.ltb_spec (physical_time h) now).
  - split; [apply newer_lex; simpl; lia|simpl; lia].
  - rewrite wrap32_small by done. split; [apply newer_lex; simpl; lia|simpl; lia].
Qed.
Lemma tick_newer_witness :
  5 + 1 < u32_modulus ∧
  is_newer_than (tick (mkHLC 100 5 "a") 90 "a") (mkHLC 100 5 "a") = true ∧
  90 <= physical_time (tick (mkHLC 100 5 "a") 90 "a").
Proof. split; [by vm_compute|]. apply (tick_newer (mkHLC 100 5 "a") 90 "a"). by vm_compute. Defined.

(** The five ways [receive] can go. *)
Lemma receive_cases self other now node :
  let r := receive self other now node in
  (physical_time self < now ∧ physical_time other < now ∧ r = mkHLC now 0 node) ∨
  (physical_time other < physical_time self ∧ now = physical_time self ∧
     r = mkHLC (physical_time self) 0 node) ∨
  (physical_time other < physical_time self ∧ now < physical_time self ∧
     r = mkHLC (physical_time self) (wrap32 (logical_counter self + 1)) node) ∨
  (physical_time self < physical_time other ∧ now <= physical_time other ∧
     r = mkHLC (physical_time other) (wrap32 (logical_counter other + 1)) node) ∨
  (physical_time self = physical_time other ∧ now <= physical_time self ∧
     r = mkHLC (physical_time self)
           (wrap32 (N.max (logical_counter self) (logical_counter other) + 1)) node).
Proof.
  unfold receive. destruct self as [ps ls ns], other as [po lo no]; simpl.
  destruct (N.ltb_spec ps now), (N.ltb_spec po now); simpl; [by left|right..];
    (destruct (N.ltb_spec po ps); simpl;
     [destruct (N.leb_spec ps now); simpl; [left|right; left]
     |right; right; destruct (N.ltb_spec ps po); simpl; [left|right]]);
    repeat split; try lia; f_equal; lia.
Qed.

(** [receive] returns a clock newer than the message's clock in every
    case, but newer than the receiver's own clock in every case but one: when
    the wall clock reads exactly the receiver's physical time and the message
    is older, the counter is reset to 0 and the result is newer only if the
    receiver's counter was 0 and its node id is smaller. The documentation
    comment promises a clock greater than both. *)
Theorem receive_newer self other now node :
  logical_counter self + 1 < u32_modulus → logical_counter other + 1 < u32_modulus →
  is_newer_than (receive self other now node) other = true ∧
  is_newer_than (receive self other now node) self =
    negb ((now =? physical_time self) && (physical_time other <? physical_time self)
          && (negb (logical_counter self =? 0) || str_leb node (node_id self))).
Proof.
  intros Hs Ho.
  destruct (receive_cases self other now node) as
    [(?&?&->)|[(?&->&->)|[(?&?&->)|[(?&?&->)|(?&?&->)]]]];
    rewrite ?wrap32_small by lia; (split; [apply newer_lex; simpl; lia|]).
  - rewrite (proj2 (N.eqb_neq _ _)) by lia. apply newer_lex; simpl; lia.
  - rewrite N.eqb_refl, (proj2 (N.ltb_lt _ _)) by done. simpl.
    unfold is_newer_than, compare, str_leb; simpl. rewrite N.compare_refl.
    destruct (logical_counter self); simpl; [by destruct (str_cmp _ _)|done].
  - rewrite (proj2 (N.eqb_neq _ _)) by lia. apply newer_lex; simpl; lia.
  - rewrite (proj2 (N.ltb_ge _ _)), andb_false_r by lia. apply newer_lex; simpl; lia.
  - rewrite (proj2 (N.ltb_ge _ _)), andb_false_r by lia. apply newer_lex; simpl; lia.
Qed.
Lemma receive_newer_witness :
  let self := mkHLC 100 7 "a" in let other := mkHLC 90 2 "b" in
  (7 + 1 < u32_modulus ∧ 2 + 1 < u32_modulus) ∧
  is_newer_than (receive self other 100 "a") self = false.
Proof.
  intros self other. split; [by vm_compute|].
  destruct (receive_newer self other 100 "a") as [_ ->]; by vm_compute.
Defined.

(** *** String keys *)

Lemma key_fixed h :
  in_range h →
  to_string_key h = Radix.fixed 16 16 (physical_time h) +:+
    String "-" (Radix.fixed 16 8 (logical_counter h) +:+ String "-" (node_id h)).
Proof.
  intros [Hp Hl]. unfold to_string_key. by rewrite !Radix.pad_fixed by (lia || done).
Qed.

(** the string keys sort exactly as the clocks: comparing two keys byte by
    byte gives the result of [compare], so a range scan over keys visits the
    clocks in causal order. *)
Theorem string_key_order a b :
  in_range a → in_range b →
  str_cmp (to_string_key a) (to_string_key b) = compare a b.
Proof.
  intros Ha Hb. rewrite !key_fixed by done. destruct Ha, Hb.
  rewrite str_cmp_app by by rewrite !Radix.fixed_length.
  rewrite Radix.fixed_compare by done. unfold compare.
  destruct (N.compare (physical_time a) _); [|done|done].
  cbn [String.compare]. rewrite (cmp_refl Ascii.compare).
  rewrite str_cmp_app by by rewrite !Radix.fixed_length.
  rewrite Radix.fixed_compare by done.
  destruct (N.compare (logical_counter a) _); [|done|done].
  cbn [String.compare]. by rewrite (cmp_refl Ascii.compare).
Qed.
Lemma string_key_order_witness :
  let a := mkHLC 255 9 "n2" in let b := mkHLC 256 1 "n1" in
  (in_range a ∧ in_range b) ∧ str_cmp (to_string_key a) (to_string_key b) = Lt.
Proof.
  intros a b. assert (in_range a ∧ in_range b) as [Ha Hb] by by vm_compute.
  split; [done|]. rewrite (string_key_order a b Ha Hb). by vm_compute.
Defined.

Lemma split_dash_app t s :
  str_all (λ c, negb (Ascii.eqb c "-")) t = true →
  split_dash (t +:+ String "-" s) = Some (t, s).
Proof.
  induction t as [|c t IH]; [done|].
  change (String c t +:+ String "-" s) with (String c (t +:+ String "-" s)).
  cbn [str_all split_dash]. intros [Hc Ht]%andb_true_iff.
  apply negb_true_iff in Hc. rewrite Hc, IH by done. done.
Qed.
Lemma fixed_no_dash w n :
  str_all (λ c, negb (Ascii.eqb c "-")) (Radix.fixed 16 w n) = true.
Proof. by apply Radix.fixed_all. Qed.

(** parsing the string key of a clock gives the clock back, whatever its
    node id (dashes in the id included). *)
Theorem string_key_roundtrip h :
  in_range h → from_string_key (to_string_key h) = Some h.
Proof.
  intros Hr. rewrite key_fixed by done. destruct Hr as [Hp Hl].
  unfold from_string_key.
  rewrite split_dash_app by apply fixed_no_dash. cbn [mbind option_bind].
  rewrite split_dash_app by apply fixed_no_dash. cbn [mbind option_bind].
  rewrite !Radix.from_str_radix_fixed by (lia || done). cbn [mbind option_bind]. by destruct h.
Qed.
Lemma string_key_roundtrip_witness :
  let h := mkHLC 1234567890 42 "node-abc" in
  in_range h ∧ from_string_key (to_string_key h) = Some h.
Proof.
  intros h. assert (in_range h) as Hh by by vm_compute.
  split; [done|]. exact (string_key_roundtrip h Hh).
Defined.

End Hlc.

(** ** The lock-free generator

    [HlcGenerator] keeps the last stamp in two atomics. Both of its methods
    read the wall clock once and then loop: load the physical part, load the
    logical part, compute the next pair, compare-and-swap the physical part,
    and on success store the logical part and return. Each atomic access is
    one step; other threads may run between any two of them. *)

Module HlcGenerator.
Import Hlc.

Record Generator := mkGen {
  gen_node : string;
  last_physical : N;
  last_logical : N;
}.
Definition gen_new (node : string) : Generator := mkGen node 0 0.

(** The pair computed by one iteration of [now]. *)
Definition next_now (now last_phys last_log : N) : N * N :=
  if last_phys <? now then (now, 0) else (last_phys, wrap64 (last_log + 1)).
(** The pair computed by one iteration of [receive]. *)
Definition next_receive (now : N) (remote : HybridLogicalClock) (last_phys last_log : N)
    : N * N :=
  if (last_phys <? now) && (physical_time remote <? now) then (now, 0)
  else if physical_time remote <? last_phys then
    if last_phys <=? now then (now, 0) else (last_phys, wrap64 (last_log + 1))
  else if last_phys <? physical_time remote then
    (physical_time remote, wrap64 (logical_counter remote + 1))
  else (last_phys, wrap64 (N.max last_log (logical_counter remote) + 1)).
(** [new_log as u32]. *)
Definition stamp (node : string) (np nl : N) : HybridLogicalClock :=
  mkHLC np (wrap32 nl) node.

(** A pending call, with the wall-clock reading it made on entry. *)
Inductive call :=
| CNow (now : N)
| CReceive (now : N) (remote : HybridLogicalClock).
Definition next_pair (c : call) (last_phys last_log : N) : N * N :=
  match c with
  | CNow now => next_now now last_phys last_log
  | CReceive now remote => next_receive now remote last_phys last_log
  end.

(** Where a thread is in the loop. *)
Inductive pc :=
| Start
| LoadedPhys (last_phys : N)
| LoadedBoth (last_phys last_log : N)
| Storing (new_phys new_log : N)
| Returned (h : HybridLogicalClock).
Definition config : Type := Generator * list (call * pc).

Inductive gen_step : config → config → Prop :=
| load_phys_step g ts i c :
    ts !! i = Some (c, Start) →
    gen_step (g, ts) (g, <[i := (c, LoadedPhys (last_physical g))]> ts)
| load_log_step g ts i c p :
    ts !! i = Some (c, LoadedPhys p) →
    gen_step (g, ts) (g, <[i := (c, LoadedBoth p (last_logical g))]> ts)
| cas_ok_step g ts i c p l np nl :
    ts !! i = Some (c, LoadedBoth p l) →
    last_physical g = p → next_pair c p l = (np, nl) →
    gen_step (g, ts) (mkGen (gen_node g) np (last_logical g), <[i := (c, Storing np nl)]> ts)
| cas_fail_step g ts i c p l :
    ts !! i = Some (c, LoadedBoth p l) → last_physical g ≠ p →
    gen_step (g, ts) (g, <[i := (c, Start)]> ts)
| store_log_step g ts i c np nl :
    ts !! i = Some (c, Storing np nl) →
    gen_step (g, ts) (mkGen (gen_node g) (last_physical g) nl,
                      <[i := (c, Returned (stamp (gen_node g) np nl))]> ts).

(** A call that no other call overlaps. *)
Definition run_call (g : Generator) (c : call) : HybridLogicalClock * Generator :=
  let '(np, nl) := next_pair c (last_physical g) (last_logical g) in
  (stamp (gen_node g) np nl, mkGen (gen_node g) np nl).
Definition gen_now (g : Generator) (now : N) := run_call g (CNow now).
Definition gen_receive (g : Generator) (now : N) (remote : HybridLogicalClock) :=
  run_call g (CReceive now remote).
Fixpoint run_nows (g : Generator) (nows : list N) : list HybridLogicalClock :=
  match nows with
  | [] => []
  | now :: nows' => let '(h, g') := gen_now g now in h :: run_nows g' nows'
  end.

(** Run without interference the loop exits in its first iteration, with
    the stamp and the state of the sequential reading of the code. *)
Theorem solo_run_returns g c :
  let '(h, g') := run_call g c in
  rtc gen_step (g, [(c, Start)]) (g', [(c, Returned h)]).
Proof.
  unfold run_call. destruct (next_pair c (last_physical g) (last_logical g)) as [np nl] eqn:E.
  eapply rtc_l; [by apply (load_phys_step g [(c, Start)] 0)|].
  eapply rtc_l; [by apply (load_log_step g [(c, LoadedPhys (last_physical g))] 0)|].
  eapply rtc_l; [by eapply (cas_ok_step g [(c, LoadedBoth _ _)] 0)|].
  apply rtc_once.
  by apply (store_log_step (mkGen (gen_node g) np (last_logical g)) [(c, Storing np nl)] 0).
Qed.

(** [(p, l)] lexicographically before the stamp. *)
Definition after (p l : N) (h : HybridLogicalClock) : Prop :=
  p < physical_time h ∨ p = physical_time h ∧ l < logical_counter h.

Lemma run_nows_after g nows :
  last_logical g + N.of_nat (length nows) < u32_modulus →
  StronglySorted (λ a b, is_newer_than b a = true) (run_nows g nows) ∧
  Forall (after (last_physical g) (last_logical g)) (run_nows g nows).
Proof.
  revert g. induction nows as [|now nows IH]; intros g Hlen; [by repeat constructor|].
  cbn [run_nows]. unfold gen_now, run_call, next_pair, next_now.
  cbn [length] in Hlen. rewrite Nat2N.inj_succ in Hlen.
  destruct (N.ltb_spec (last_physical g) now) as [Hlt|Hge].
  - destruct (IH (mkGen (gen_node g) now 0)) as [Hs Hf]; [simpl; lia|]. simpl in *.
    split; constructor; try done.
    + eapply Forall_impl; [exact Hf|]. intros h Hh. apply newer_lex. simpl.
      destruct Hh as [?|[??]]; [by left|right]. rewrite wrap32_small by done. done.
    + left. done.
    + eapply Forall_impl; [exact Hf|]. intros h [?|[??]]; left; lia.
  - assert (wrap64 (last_logical g + 1) = last_logical g + 1) as Hw.
    { apply wrap64_small. transitivity u32_modulus; [lia|by vm_compute]. }
    rewrite Hw.
    destruct (IH (mkGen (gen_node g) (last_physical g) (last_logical g + 1)))
      as [Hs Hf]; [simpl; lia|]. simpl in *.
    split; constructor; try done.
    + eapply Forall_impl; [exact Hf|]. intros h Hh. apply newer_lex. simpl.
      rewrite wrap32_small by lia. destruct Hh as [?|[??]]; [by left|right; done].
    + right. simpl. rewrite wrap32_small by lia. lia.
    + eapply Forall_impl; [exact Hf|]. intros h [?|[??]]; [left; lia|right; lia].
Qed.

(** the stamps of any sequence of non-overlapping [now] calls are strictly
    increasing, whatever the wall clock does (standing still or going back
    included), for fewer than 2^32 calls. *)
Theorem now_strictly_increasing node nows :
  N.of_nat (length nows) < u32_modulus →
  StronglySorted (λ a b, is_newer_than b a = true) (run_nows (gen_new node) nows).
Proof. intros H. by apply run_nows_after. Qed.
Lemma now_strictly_increasing_witness :
  let nows := [5; 5; 3; 9] in
  N.of_nat (length nows) < u32_modulus ∧
  StronglySorted (λ a b, is_newer_than b a = true) (run_nows (gen_new "n") nows).
Proof.
  intros nows. assert (N.of_nat (length nows) < u32_modulus) as H by by vm_compute.
  split; [done|]. exact (now_strictly_increasing "n" nows H).
Defined.

(** the generator hands out the same stamp twice in two ways. Two
    overlapping [now] calls can both pass the compare-and-swap when the
    physical part does not change, and return one stamp; and a [receive] of an
    older message in the same millisecond as a [now] returns the stamp [now]
    returned. The comments promise unique stamps. *)
Theorem generator_not_unique g now remote :
  (now <= last_physical g →
   ∃ h g', rtc gen_step (g, [(CNow now, Start); (CNow now, Start)])
                        (g', [(CNow now, Returned h); (CNow now, Returned h)])) ∧
  (last_physical g < now → physical_time remote < now →
   (gen_receive (gen_now g now).2 now remote).1 = (gen_now g now).1).
Proof.
  split.
  - intros Hle. set (p := last_physical g). set (l := last_logical g).
    assert (next_pair (CNow now) p l = (p, wrap64 (l + 1))) as Hn.
    { simpl. unfold next_now. by rewrite (proj2 (N.ltb_ge _ _)). }
    set (c := CNow now) in *.
    exists (stamp (gen_node g) p (wrap64 (l + 1))), (mkGen (gen_node g) p (wrap64 (l + 1))).
    eapply rtc_l; [by apply (load_phys_step _ _ 0)|].
    eapply rtc_l; [by apply (load_phys_step _ _ 1)|].
    eapply rtc_l; [by eapply (load_log_step _ _ 0)|].
    eapply rtc_l; [by eapply (load_log_step _ _ 1)|].
    eapply rtc_l; [by eapply (cas_ok_step _ _ 0)|].
    eapply rtc_l; [by eapply (cas_ok_step _ _ 1)|].
    eapply rtc_l; [by eapply (store_log_step _ _ 0)|].
    eapply rtc_l; [by eapply (store_log_step _ _ 1)|]. reflexivity.
  - intros Hnow Hrem. unfold gen_receive, gen_now, run_call, next_pair, next_now.
    rewrite (proj2 (N.ltb_lt _ _) Hnow). simpl. unfold next_receive. simpl.
    by rewrite N.ltb_irrefl, (proj2 (N.ltb_lt _ _) Hrem), N.leb_refl.
Qed.
Lemma generator_not_unique_witness :
  let g := mkGen "n" 5 0 in
  (∃ h g', rtc gen_step (g, [(CNow 5, Start); (CNow 5, Start)])
                        (g', [(CNow 5, Returned h); (CNow 5, Returned h)])) ∧
  (gen_receive (gen_now g 7).2 7 (mkHLC 3 1 "m")).1 = (gen_now g 7).1.
Proof.
  intros g. split.
  - by apply (generator_not_unique g 5 (mkHLC 3 1 "m")).
  - by apply (generator_not_unique g 7 (mkHLC 3 1 "m")).
Defined.

End HlcGenerator.
