(* ===== verification/Delta.v ===== *)
(** * Delta sync: JSON Patch (src/src/sync/delta.rs)

    The patches that replication sends instead of whole documents: escaping
    and JSON pointers, the four pointer operations, the application of a patch
    and the diff that computes one. The main theorem is that applying the diff
    of two documents to the first gives the second. *)

From S2P Require Import Prelude Text Json.
Import Json.

Module Delta.

(** [escape_json_pointer] and the unescaping that [JsonPointer::new] does. *)
Definition escape_json_pointer (s : string) : string :=
  replace_char "/" "~1" (replace_char "~" "~0" s).
Definition unescape_json_pointer (s : string) : string :=
  replace_pair "~" "0" "~" (replace_pair "~" "1" "/" s).

Inductive PatchError := PathNotFound | InvalidPath | TestFailed | CannotReplaceRoot.
#[export] Instance PatchError_eq_dec : EqDecision PatchError.
Proof. solve_decision. Defined.

Section Delta.
Context {Num : Type} `{!JsonNumber Num}.
Notation Value := (Value Num).

Inductive PatchOperation :=
| Add (path : string) (value : Value)
| Remove (path : string)
| Replace (path : string) (value : Value)
| Copy (from path : string)
| Move (from path : string)
| Test (path : string) (value : Value).

(** ** JSON pointers *)

(** [JsonPointer::new]: the tokens of a path. *)
Definition pointer_new (path : string) : list string :=
  if String.eqb path "" || String.eqb path "/" then []
  else unescape_json_pointer <$> tail (split_on "/" path).

(** [JsonPointer::get]; ["-"] reads the last element of an array. *)
Fixpoint pointer_get (tokens : list string) (doc : Value) : result PatchError Value :=
  match tokens with
  | [] => Ok doc
  | token :: rest =>
      match doc with
      | Object map =>
          match OMap.get token map with
          | Some v => pointer_get rest v
          | None => Err PathNotFound
          end
      | Array arr =>
          match (if String.eqb token "-" then last arr
                 else i ← parse_usize token; arr !! N.to_nat i) with
          | Some v => pointer_get rest v
          | None => Err PathNotFound
          end
      | _ => Err InvalidPath
      end
  end.

(** "Navigate deeper", the step the three updating operations share. *)
Definition child (token : string) (current : Value) : result PatchError Value :=
  match current with
  | Object map => ok_or (OMap.get token map) PathNotFound
  | Array arr =>
      match parse_usize token with
      | None => Err InvalidPath
      | Some idx => ok_or (arr !! N.to_nat idx) PathNotFound
      end
  | _ => Err InvalidPath
  end.
(** The write through the reference [child] returned. *)
Definition set_child (token : string) (current v : Value) : Value :=
  match current with
  | Object map => Object (OMap.insert token v map)
  | Array arr =>
      match parse_usize token with
      | Some idx => Array (<[N.to_nat idx := v]> arr)
      | None => current
      end
  | _ => current
  end.
(** Navigate to the last token and act there; an error leaves the document. *)
Fixpoint walk {A} (leaf : string → Value → result PatchError (A * Value))
    (tokens : list string) (doc : Value) : result PatchError (A * Value) :=
  match tokens with
  | [] => Err CannotReplaceRoot
  | [token] => leaf token doc
  | token :: rest =>
      match child token doc with
      | Err e => Err e
      | Ok sub =>
          match walk leaf rest sub with
          | Err e => Err e
          | Ok (a, sub') => Ok (a, set_child token doc sub')
          end
      end
  end.

(** [Vec::insert] and [Vec::remove] at an index in range. *)
Definition vec_insert {A} (i : nat) (x : A) (l : list A) : list A := take i l ++ x :: drop i l.
Definition vec_remove {A} (i : nat) (l : list A) : list A := take i l ++ drop (S i) l.

Definition add_leaf (value : Value) (token : string) (current : Value)
    : result PatchError (unit * Value) :=
  match current with
  | Object map => Ok (tt, Object (OMap.insert token value map))
  | Array arr =>
      if String.eqb token "-" then Ok (tt, Array (arr ++ [value]))
      else match parse_usize token with
           | None => Err InvalidPath
           | Some idx =>
               if (N.of_nat (length arr) <? idx)%N then Err PathNotFound
               else Ok (tt, Array (vec_insert (N.to_nat idx) value arr))
           end
  | _ => Err InvalidPath
  end.
Definition remove_leaf (token : string) (current : Value) : result PatchError (Value * Value) :=
  match current with
  | Object map =>
      match OMap.get token map with
      | Some v => Ok (v, Object (OMap.remove token map))
      | None => Err PathNotFound
      end
  | Array arr =>
      match parse_usize token with
      | None => Err InvalidPath
      | Some idx =>
          match arr !! N.to_nat idx with
          | Some v => Ok (v, Array (vec_remove (N.to_nat idx) arr))
          | None => Err PathNotFound
          end
      end
  | _ => Err InvalidPath
  end.
Definition replace_leaf (value : Value) (token : string) (current : Value)
    : result PatchError (unit * Value) :=
  match current with
  | Object map =>
      if OMap.contains_key token map then Ok (tt, Object (OMap.insert token value map))
      else Err PathNotFound
  | Array arr =>
      match parse_usize token with
      | None => Err InvalidPath
      | Some idx =>
          if (N.of_nat (length arr) <=? idx)%N then Err PathNotFound
          else Ok (tt, Array (<[N.to_nat idx := value]> arr))
      end
  | _ => Err InvalidPath
  end.

(** The operations of [JsonPointer] on [&mut Value]. *)
Definition pointer_add (tokens : list string) (value doc : Value) :=
  walk (add_leaf value) tokens doc.
Definition pointer_remove (tokens : list string) (doc : Value) :=
  walk remove_leaf tokens doc.
Definition pointer_replace (tokens : list string) (value doc : Value)
    : result PatchError (unit * Value) :=
  match tokens with
  | [] => Ok (tt, value)
  | _ => walk (replace_leaf value) tokens doc
  end.

(** ** Applying a patch

    The document is updated in place, so both functions return the document
    they leave behind, on errors too. *)

Definition finish {A} (doc : Value) (r : result PatchError (A * Value))
    : result PatchError unit * Value :=
  match r with Ok (_, doc') => (Ok tt, doc') | Err e => (Err e, doc) end.

Definition apply_operation (doc : Value) (op : PatchOperation)
    : result PatchError unit * Value :=
  match op with
  | Add path value => finish doc (pointer_add (pointer_new path) value doc)
  | Remove path => finish doc (pointer_remove (pointer_new path) doc)
  | Replace path value => finish doc (pointer_replace (pointer_new path) value doc)
  | Copy from path =>
      match pointer_get (pointer_new from) doc with
      | Err e => (Err e, doc)
      | Ok value => finish doc (pointer_add (pointer_new path) value doc)
      end
  | Move from path =>
      match pointer_remove (pointer_new from) doc with
      | Err e => (Err e, doc)
      | Ok (value, doc') => finish doc' (pointer_add (pointer_new path) value doc')
      end
  | Test path value =>
      match pointer_get (pointer_new path) doc with
      | Err e => (Err e, doc)
      | Ok actual => if value_eqb actual value then (Ok tt, doc) else (Err TestFailed, doc)
      end
  end.

Fixpoint apply_patch (doc : Value) (patch : list PatchOperation)
    : result PatchError unit * Value :=
  match patch with
  | [] => (Ok tt, doc)
  | op :: patch' =>
      match apply_operation doc op with
      | (Ok _, doc') => apply_patch doc' patch'
      | (Err e, doc') => (Err e, doc')
      end
  end.

(** ** Computing a diff

    The operations are returned in the order in which the code pushes them.
    The recursive calls on the fields and the elements of [old] are prepared
    next to them, which keeps the recursion structural. *)

Definition full_path (path key : string) : string :=
  if String.eqb path "" then "/" +:+ escape_json_pointer key
  else path +:+ ("/" +:+ escape_json_pointer key).
Definition elem_path (path : string) (i : nat) : string :=
  path +:+ ("/" +:+ dec (N.of_nat i)).

Definition diff_fun : Type := Value → string → list PatchOperation.

Definition removed_fields (path : string) (new_map old_map : list (string * Value))
    : list PatchOperation :=
  flat_map (λ '(key, _),
    if OMap.contains_key key new_map then [] else [Remove (full_path path key)]) old_map.
Definition changed_fields (path : string) (olds : list (string * (Value * diff_fun)))
    (new_map : list (string * Value)) : list PatchOperation :=
  flat_map (λ '(key, new_val),
    match OMap.get key olds with
    | Some (old_val, diff) =>
        if value_eqb old_val new_val then []
        else if (is_object old_val && is_object new_val) || (is_array old_val && is_array new_val)
        then diff new_val (full_path path key)
        else [Replace (full_path path key) new_val]
    | None => [Add (full_path path key) new_val]
    end) new_map.
Definition changed_elems (path : string) (olds : list (Value * diff_fun))
    (new_arr : list Value) (idxs : list nat) : list PatchOperation :=
  flat_map (λ i,
    match olds !! i, new_arr !! i with
    | Some (old_e, diff), Some new_e =>
        if value_eqb old_e new_e then [] else diff new_e (elem_path path i)
    | None, Some new_e => [Add (path +:+ "/-") new_e]
    | _, None => []
    end) idxs.
(** The indices pushed on [removes], last first. *)
Definition removed_elems (path : string) (n_old n_new max_len : nat) : list PatchOperation :=
  (λ i, Remove (elem_path path i)) <$>
    rev (filter (λ i, (i < n_old)%nat ∧ ¬ (i < n_new)%nat) (seq 0 max_len)).

Fixpoint compute_diff_recursive (old new : Value) (path : string) : list PatchOperation :=
  match old, new with
  | Object old_map, Object new_map =>
      removed_fields path new_map old_map ++
      changed_fields path
        (List.map (λ p, (p.1, (p.2, compute_diff_recursive p.2))) old_map) new_map
  | Array old_arr, Array new_arr =>
      if list_eqb value_eqb old_arr new_arr then []
      else
        let max_len := Nat.max (length old_arr) (length new_arr) in
        let size_diff := Z.abs (Z.of_nat (length old_arr) - Z.of_nat (length new_arr)) in
        let threshold := Z.of_nat (Nat.max (Nat.div2 max_len) 5) in
        if (threshold <? size_diff)%Z then [Replace path new]
        else
          changed_elems path (List.map (λ v, (v, compute_diff_recursive v)) old_arr)
            new_arr (seq 0 max_len) ++
          removed_elems path (length old_arr) (length new_arr) max_len
  | _, _ => if value_eqb old new then [] else [Replace path new]
  end.

Definition compute_diff (old new : Value) : list PatchOperation :=
  compute_diff_recursive old new "".

End Delta.
Arguments PatchOperation : clear implicits.

(** ** Escaping and paths *)

Definition escape_char (c : ascii) : string :=
  if Ascii.eqb c "~" then "~0" else if Ascii.eqb c "/" then "~1" else String c "".
Lemma escape_cons c s :
  escape_json_pointer (String c s) = escape_char c +:+ escape_json_pointer s.
Proof.
  unfold escape_json_pointer, escape_char. cbn [replace_char].
  destruct (Ascii.eqb_spec c "~") as [->|Hc]; [done|].
  cbn [replace_char]. by destruct (Ascii.eqb c "/").
Qed.
Lemma escape_no_slash s :
  str_all (λ x, negb (Ascii.eqb x "/")) (escape_json_pointer s) = true.
Proof.
  induction s as [|c s IH]; [done|]. rewrite escape_cons, str_all_app, IH.
  unfold escape_char. destruct (Ascii.eqb c "~"); [done|].
  destruct (Ascii.eqb c "/") eqn:E; [done|]. cbn [str_all]. by rewrite E.
Qed.

(** Unescaping inverts escaping on every key, tildes and slashes included. *)
Lemma unescape_escape s : unescape_json_pointer (escape_json_pointer s) = s.
Proof.
  unfold unescape_json_pointer.
  assert (replace_pair "~" "1" "/" (escape_json_pointer s) = replace_char "~" "~0" s) as ->.
  { induction s as [|c s IH]; [done|]. rewrite escape_cons. cbn [replace_char].
    unfold escape_char. destruct (Ascii.eqb_spec c "~") as [->|Hc].
    - change ("~0" +:+ escape_json_pointer s)
        with (String "~" (String "0" (escape_json_pointer s))).
      change ("~0" +:+ replace_char "~" "~0" s)
        with (String "~" (String "0" (replace_char "~" "~0" s))).
      rewrite <-IH. cbn [replace_pair]. simpl.
      by destruct (escape_json_pointer s).
    - destruct (Ascii.eqb_spec c "/") as [->|Hs].
      + change ("~1" +:+ escape_json_pointer s)
          with (String "~" (String "1" (escape_json_pointer s))).
        rewrite <-IH. done.
      + rewrite <-IH. change (String c "" +:+ escape_json_pointer s)
          with (String c (escape_json_pointer s)).
        cbn [replace_pair]. destruct (escape_json_pointer s); [done|].
        by rewrite (proj2 (Ascii.eqb_neq c "~") Hc). }
  induction s as [|c s IH]; [done|]. cbn [replace_char].
  destruct (Ascii.eqb_spec c "~") as [->|Hc].
  - change ("~0" +:+ replace_char "~" "~0" s)
      with (String "~" (String "0" (replace_char "~" "~0" s))).
    cbn [replace_pair]. simpl. change ("~" +:+ ?x) with (String "~" x).
    by rewrite <-IH at 2.
  - cbn [replace_pair]. destruct (replace_char "~" "~0" s) eqn:E.
    + destruct s as [|c' s]; [done|]. cbn [replace_char] in E. by destruct (Ascii.eqb c' "~").
    + by rewrite (proj2 (Ascii.eqb_neq c "~") Hc), IH.
Qed.

(** The path of a list of tokens, as the diff builds it. *)
Fixpoint render (toks : list string) : string :=
  match toks with
  | [] => ""
  | t :: toks' => "/" +:+ (escape_json_pointer t +:+ render toks')
  end.

Lemma render_snoc toks t :
  render (toks ++ [t]) = render toks +:+ ("/" +:+ escape_json_pointer t).
Proof.
  induction toks as [|t' toks IH]; cbn [render app].
  - change ("" +:+ ?x) with x. by rewrite str_app_nil_r.
  - by rewrite IH, !str_app_assoc.
Qed.
Lemma render_empty toks : render toks = "" ↔ toks = [].
Proof. split; [by destruct toks|by intros ->]. Qed.
Lemma escape_empty t : escape_json_pointer t = "" → t = "".
Proof. intros H. by rewrite <-(unescape_escape t), H. Qed.
Lemma render_slash toks : render toks = "/" → toks = [""].
Proof.
  destruct toks as [|t toks]; [done|]. cbn [render]. intros H.
  change ("/" +:+ ?x) with (String "/" x) in H. injection H as H.
  destruct (escape_json_pointer t) eqn:E; [|done].
  apply escape_empty in E as ->. change ("" +:+ ?x) with x in H.
  by apply render_empty in H as ->.
Qed.
Lemma split_render p toks :
  str_all (λ x, negb (Ascii.eqb x "/")) p = true →
  split_on "/" (p +:+ render toks) = p :: (escape_json_pointer <$> toks).
Proof.
  revert p. induction toks as [|t toks IH]; intros p Hp; cbn [render].
  - rewrite str_app_nil_r. by apply split_on_none.
  - change ("/" +:+ ?x) with (String "/" x). rewrite split_on_app by done.
    rewrite IH by apply escape_no_slash. done.
Qed.

(** The tokens of a rendered path are the tokens, but for the single empty
    token, whose path ["/"] the code reads as the root. *)
Lemma pointer_render toks : toks ≠ [""] → pointer_new (render toks) = toks.
Proof.
  intros Hne. unfold pointer_new.
  destruct (String.eqb_spec (render toks) "") as [E|_].
  { by apply render_empty in E as ->. }
  destruct (String.eqb_spec (render toks) "/") as [E|_].
  { by apply render_slash in E. }
  cbn [orb]. change (render toks) with ("" +:+ render toks).
  rewrite split_render by done. cbn [tail].
  rewrite <-list_fmap_compose. rewrite <-(list_fmap_id toks) at 2.
  apply list_fmap_ext. intros i t _. apply unescape_escape.
Qed.
Lemma escape_id s :
  str_all (λ x, negb (Ascii.eqb x "/")) s = true →
  str_all (λ x, negb (Ascii.eqb x "~")) s = true → escape_json_pointer s = s.
Proof.
  intros H1 H2. unfold escape_json_pointer. by rewrite !replace_char_none; rewrite ?replace_char_none.
Qed.
Lemma escape_dec n : escape_json_pointer (dec n) = dec n.
Proof. apply escape_id; by apply dec_all. Qed.
Lemma full_path_render toks k : full_path (render toks) k = render (toks ++ [k]).
Proof.
  rewrite render_snoc. unfold full_path.
  destruct (String.eqb_spec (render toks) "") as [->|_]; done.
Qed.
Lemma elem_path_render toks i :
  elem_path (render toks) i = render (toks ++ [dec (N.of_nat i)]).
Proof. by rewrite render_snoc, escape_dec. Qed.
Lemma push_path_render toks : render toks +:+ "/-" = render (toks ++ ["-"]).
Proof. by rewrite render_snoc. Qed.

(** ** Reading and writing at a place of a document *)

Section Lens.
Context {Num : Type} `{!JsonNumber Num} `{!JsonNumberLaws Num}.
Notation Value := (Value Num).
Implicit Types (doc cur v : Value) (toks : list string) (map : list (string * Value)).

Fixpoint get_at toks doc : option Value :=
  match toks with
  | [] => Some doc
  | t :: toks' => match child t doc with Ok sub => get_at toks' sub | Err _ => None end
  end.
Fixpoint set_at toks doc v : Value :=
  match toks with
  | [] => v
  | t :: toks' =>
      match child t doc with
      | Ok sub => set_child t doc (set_at toks' sub v)
      | Err _ => doc
      end
  end.

Lemma child_set_child t doc cur v :
  wf_value doc → child t doc = Ok cur → child t (set_child t doc v) = Ok v.
Proof.
  intros Hwf. destruct doc as [| | | |arr|map]; simpl; try done.
  - destruct (parse_usize t) as [idx|] eqn:E; simpl; [|done]. rewrite E.
    destruct (arr !! N.to_nat idx) eqn:El; [|done]. intros _.
    by rewrite list_lookup_insert_eq by by eapply lookup_lt_Some.
  - apply wf_Object in Hwf as [Hwf _]. intros _.
    by rewrite OMap.get_insert, decide_True by done.
Qed.
Lemma set_child_set_child t doc v w :
  wf_value doc → set_child t (set_child t doc v) w = set_child t doc w.
Proof.
  intros Hwf. destruct doc as [| | | |arr|map]; simpl; try done.
  - destruct (parse_usize t) eqn:E; simpl; [rewrite E|by rewrite E].
    by rewrite list_insert_insert_eq.
  - apply wf_Object in Hwf as [Hwf _]. f_equal. apply OMap.ext; auto using OMap.wf_insert.
    intros k. rewrite !OMap.get_insert by auto using OMap.wf_insert. by case_decide.
Qed.
Lemma set_child_same t doc cur :
  wf_value doc → child t doc = Ok cur → set_child t doc cur = doc.
Proof.
  intros Hwf. destruct doc as [| | | |arr|map]; simpl; try done.
  - destruct (parse_usize t) as [idx|] eqn:E; simpl; [|done].
    destruct (arr !! N.to_nat idx) eqn:El; [|done]. intros [= ->].
    by rewrite list_insert_id.
  - apply wf_Object in Hwf as [Hwf _].
    destruct (OMap.get t map) eqn:E; simpl; [|done]. intros [= ->]. f_equal.
    apply OMap.ext; auto using OMap.wf_insert. intros k.
    rewrite OMap.get_insert by done. case_decide; [by subst|done].
Qed.
Lemma wf_child t doc cur : wf_value doc → child t doc = Ok cur → wf_value cur.
Proof.
  intros Hwf. destruct doc as [| | | |arr|map]; simpl; try done.
  - destruct (parse_usize t) as [idx|]; simpl; [|done].
    destruct (arr !! N.to_nat idx) eqn:El; simpl; [|done]. intros [= ->].
    apply wf_Array in Hwf as [_ Hall]. by eapply Forall_lookup_1.
  - destruct (OMap.get t map) eqn:E; simpl; [|done]. intros [= ->].
    by eapply wf_Object_get.
Qed.
Lemma wf_Object_insert map k v :
  wf_value (Object map) → wf_value v → wf_value (Object (OMap.insert k v map)).
Proof.
  rewrite !wf_Object, !Forall_forall. intros [Hm Hall] Hv.
  split; [by apply OMap.wf_insert|].
  intros [k' v'] [[= -> ->]|Hin]%OMap.elem_of_insert; [done|by apply (Hall (k', v'))].
Qed.
Lemma wf_Object_remove map k :
  wf_value (Object map) → wf_value (Object (OMap.remove k map)).
Proof.
  rewrite !wf_Object, !Forall_forall. intros [Hm Hall].
  split; [by apply OMap.wf_remove|]. intros p Hp%OMap.elem_of_remove. by apply Hall.
Qed.
Lemma wf_set_child t doc v : wf_value doc → wf_value v → wf_value (set_child t doc v).
Proof.
  intros Hwf Hv. destruct doc as [| | | |arr|map]; simpl; try done.
  - destruct (parse_usize t); [|done]. apply wf_Array in Hwf as [Hlen Hall].
    apply wf_Array. rewrite length_insert. split; [done|]. by apply Forall_insert.
  - by apply wf_Object_insert.
Qed.

Lemma wf_set_at toks doc cur v :
  wf_value doc → wf_value v → get_at toks doc = Some cur → wf_value (set_at toks doc v).
Proof.
  revert doc. induction toks as [|t toks IH]; intros doc Hwf Hv; simpl; [done|].
  destruct (child t doc) as [sub|] eqn:E; [|done]. intros Hget.
  apply wf_set_child; [done|]. eapply IH; eauto using wf_child.
Qed.
Lemma get_set_at toks doc cur v :
  wf_value doc → get_at toks doc = Some cur → get_at toks (set_at toks doc v) = Some v.
Proof.
  revert doc. induction toks as [|t toks IH]; intros doc Hwf; simpl; [done|].
  destruct (child t doc) as [sub|] eqn:E; [|done]. intros Hget.
  rewrite (child_set_child _ _ sub) by done. eauto using wf_child.
Qed.
Lemma set_set_at toks doc cur v w :
  wf_value doc → get_at toks doc = Some cur →
  set_at toks (set_at toks doc v) w = set_at toks doc w.
Proof.
  revert doc. induction toks as [|t toks IH]; intros doc Hwf; simpl; [done|].
  destruct (child t doc) as [sub|] eqn:E; [|done]. intros Hget.
  rewrite (child_set_child _ _ sub) by done.
  rewrite set_child_set_child by done. f_equal. eauto using wf_child.
Qed.
Lemma set_at_same toks doc cur :
  wf_value doc → get_at toks doc = Some cur → set_at toks doc cur = doc.
Proof.
  revert doc. induction toks as [|t toks IH]; intros doc Hwf; simpl; [congruence|].
  destruct (child t doc) as [sub|] eqn:E; [|done]. intros Hget.
  rewrite IH by eauto using wf_child. by apply set_child_same.
Qed.
Lemma get_at_snoc toks t doc cur :
  get_at toks doc = Some cur →
  get_at (toks ++ [t]) doc = match child t cur with Ok sub => Some sub | Err _ => None end.
Proof.
  revert doc. induction toks as [|t' toks IH]; intros doc; simpl; [by intros [= ->]|].
  destruct (child t' doc) as [sub|] eqn:E; [|done]. apply IH.
Qed.
Lemma set_at_snoc toks t doc cur v :
  get_at toks doc = Some cur → is_ok (child t cur) = true →
  set_at (toks ++ [t]) doc v = set_at toks doc (set_child t cur v).
Proof.
  revert doc. induction toks as [|t' toks IH]; intros doc; simpl.
  - intros [= ->]. by destruct (child t cur).
  - destruct (child t' doc) as [sub|] eqn:E; [|done]. intros Hget Hok. by rewrite IH.
Qed.
Lemma walk_snoc {A} (leaf : string → Value → result PatchError (A * Value)) toks t doc cur :
  get_at toks doc = Some cur →
  walk leaf (toks ++ [t]) doc =
  match leaf t cur with Ok (a, cur') => Ok (a, set_at toks doc cur') | Err e => Err e end.
Proof.
  revert doc. induction toks as [|t' toks IH]; intros doc; simpl.
  - intros [= ->]. by destruct (leaf t cur) as [[]|].
  - destruct (child t' doc) as [sub|] eqn:E; [|done]. intros Hget.
    rewrite (IH _ Hget). destruct (toks ++ [t]) eqn:Ett.
    { by apply app_eq_nil in Ett as [_ ?]. }
    by destruct (leaf t cur) as [[]|].
Qed.
End Lens.

(** ** The diff is a patch from the old document to the new one *)

Section Correct.
Context {Num : Type} `{!JsonNumber Num} `{!JsonNumberLaws Num}.
Notation Value := (Value Num).
Implicit Types (doc cur v : Value) (toks : list string) (m : list (string * Value)).

Lemma apply_patch_app doc doc' (p1 p2 : list (PatchOperation Num)) :
  apply_patch doc p1 = (Ok tt, doc') → apply_patch doc (p1 ++ p2) = apply_patch doc' p2.
Proof.
  revert doc. induction p1 as [|op p1 IH]; intros doc; simpl; [by intros [= ->]|].
  destruct (apply_operation doc op) as [[] d]; [apply IH|done].
Qed.

(** The three operations of a diff, at a place that exists. *)
Lemma apply_remove_at toks t doc cur x cur' :
  toks ++ [t] ≠ [""] → get_at toks doc = Some cur → remove_leaf t cur = Ok (x, cur') →
  apply_operation doc (Remove (render (toks ++ [t]))) = (Ok tt, set_at toks doc cur').
Proof.
  intros Hne Hget Hleaf. simpl. unfold pointer_remove.
  by rewrite pointer_render, (walk_snoc _ _ _ _ cur), Hleaf by done.
Qed.
Lemma apply_add_at toks t doc cur v cur' :
  toks ++ [t] ≠ [""] → get_at toks doc = Some cur → add_leaf v t cur = Ok (tt, cur') →
  apply_operation doc (Add (render (toks ++ [t])) v) = (Ok tt, set_at toks doc cur').
Proof.
  intros Hne Hget Hleaf. simpl. unfold pointer_add.
  by rewrite pointer_render, (walk_snoc _ _ _ _ cur), Hleaf by done.
Qed.
Lemma replace_leaf_child t cur v :
  is_ok (child t cur) = true → replace_leaf v t cur = Ok (tt, set_child t cur v).
Proof.
  destruct cur as [| | | |arr|map]; simpl; try done.
  - destruct (parse_usize t) as [idx|]; simpl; [|done].
    destruct (arr !! N.to_nat idx) eqn:E; simpl; [|done].
    apply lookup_lt_Some in E. by rewrite (proj2 (N.leb_gt _ _)) by lia.
  - unfold OMap.contains_key. by destruct (OMap.get t map).
Qed.
Lemma apply_replace_at toks doc cur v :
  toks ≠ [""] → wf_value doc → get_at toks doc = Some cur →
  apply_operation doc (Replace (render toks) v) = (Ok tt, set_at toks doc v).
Proof.
  intros Hne Hwf Hget. simpl. rewrite pointer_render by done.
  destruct toks as [|t toks _] using rev_ind; [done|].
  unfold pointer_replace. destruct (toks ++ [t]) as [|t0 ts] eqn:Ets.
  { by apply app_eq_nil in Ets as [_ ?]. }
  rewrite <-Ets in *.
  destruct (get_at toks doc) as [sub|] eqn:Hsub.
  2: { exfalso. clear -Hget Hsub. revert doc Hget Hsub.
       induction toks as [|t' toks IH]; intros doc; simpl; [done|].
       destruct (child t' doc); [apply IH|done]. }
  rewrite (get_at_snoc _ _ _ sub) in Hget by done.
  assert (is_ok (child t sub) = true) as Hok by (by destruct (child t sub)).
  rewrite (walk_snoc _ _ _ _ sub) by done. rewrite replace_leaf_child by done.
  simpl. by rewrite (set_at_snoc _ _ _ sub).
Qed.

(** What a diff function has to do at a place: turn the value there into one
    equal to [new]. *)
Definition reaches (toks : list string) (old new : Value) (patch : list (PatchOperation Num))
    : Prop :=
  ∀ doc, wf_value doc → get_at toks doc = Some old →
  ∃ new', new' ≡ new ∧ wf_value new' ∧
    apply_patch doc patch = (Ok tt, set_at toks doc new').

Lemma reaches_replace toks old new :
  toks ≠ [""] → wf_value new → reaches toks old new [Replace (render toks) new].
Proof.
  intros Hne Hnew doc Hwf Hget. exists new. split; [done|]. split; [done|].
  cbn [apply_patch]. by rewrite (apply_replace_at _ _ old).
Qed.
Lemma reaches_nil toks old new : wf_value old → old ≡ new → reaches toks old new [].
Proof.
  intros Hold Heq doc Hwf Hget. exists old. split; [done|]. split; [done|].
  simpl. by rewrite set_at_same.
Qed.

(** *** Objects *)

Section Fields.
Context (toks : list string) (doc : Value) (old0 : Value).
Context (Hdoc : wf_value doc) (Hget0 : get_at toks doc = Some old0).
Notation at_place m := (set_at toks doc (Object m)).

Lemma place_get m : get_at toks (at_place m) = Some (Object m).
Proof. by eapply get_set_at. Qed.
Lemma place_wf m : wf_value (Object m) → wf_value (at_place m).
Proof. intros H. by eapply wf_set_at. Qed.
Lemma place_set m v : set_at toks (at_place m) v = set_at toks doc v.
Proof. by eapply set_set_at. Qed.

Lemma removed_fields_ok new_map l m :
  (∀ k, k ∈ l.*1 → OMap.contains_key k new_map = false → toks ++ [k] ≠ [""]) →
  NoDup l.*1 → wf_value (Object m) → (∀ k, k ∈ l.*1 → is_Some (OMap.get k m)) →
  ∃ m', wf_value (Object m') ∧
    (∀ k, OMap.get k m' =
       if decide (k ∈ l.*1 ∧ OMap.contains_key k new_map = false) then None else OMap.get k m) ∧
    apply_patch (at_place m) (removed_fields (render toks) new_map l) = (Ok tt, at_place m').
Proof.
  revert m. induction l as [|[k v] l IH]; intros m Hne Hnd Hwf Hin.
  { exists m. split; [done|]. split; [|done]. intros k. rewrite decide_False; [done|].
    intros [H _]. by apply elem_of_nil in H. }
  cbn [fmap list_fmap fst] in *. apply NoDup_cons in Hnd as [Hk Hnd].
  pose proof Hwf as [Hm _]%wf_Object.
  unfold removed_fields. cbn [flat_map]. fold (removed_fields (render toks) new_map l).
  destruct (OMap.contains_key k new_map) eqn:Hc.
  - destruct (IH m) as (m' & Hwf' & Hg' & Hap); auto.
    { intros k' Hk'. apply Hne. by right. }
    { intros k' Hk'. apply Hin. by right. }
    exists m'. split; [done|]. split; [|done]. intros k'. rewrite Hg'.
    apply decide_ext. rewrite elem_of_cons. naive_solver congruence.
  - destruct (IH (OMap.remove k m)) as (m' & Hwf' & Hg' & Hap); auto using wf_Object_remove.
    { intros k' Hk'. apply Hne. by right. }
    { intros k' Hk'. rewrite OMap.get_remove by done.
      rewrite decide_False by (by intros ->). apply Hin. by right. }
    exists m'. split; [done|]. split.
    + intros k'. rewrite Hg', OMap.get_remove by done.
      destruct (decide (k = k')) as [->|Hkk].
      * rewrite (decide_True (P:=(_ ∈ _ :: _) ∧ _)) by (split; [by left|done]).
        by case_decide.
      * apply decide_ext. rewrite elem_of_cons. naive_solver congruence.
    + destruct (Hin k ltac:(by left)) as [x Hx].
      cbn [app apply_patch]. rewrite full_path_render.
      rewrite (apply_remove_at _ _ _ (Object m) x (Object (OMap.remove k m))).
      * by rewrite place_set.
      * apply Hne; [by left|done].
      * apply place_get.
      * simpl. by rewrite Hx.
Qed.

Lemma get_olds (f : Value → diff_fun (Num:=Num)) k m :
  OMap.get k (List.map (λ p, (p.1, (p.2, f p.2))) m) = (λ v, (v, f v)) <$> OMap.get k m.
Proof.
  induction m as [|[k' v] m IH]; simpl; [done|]. by destruct (String.eqb k k').
Qed.

(** Setting one field of the object at the place. *)
Lemma field_insert m k v nv :
  wf_value (Object m) → wf_value v → v ≡ nv →
  ∃ m1, wf_value (Object m1) ∧ (∃ v', OMap.get k m1 = Some v' ∧ v' ≡ nv) ∧
    (∀ k', k' ≠ k → OMap.get k' m1 = OMap.get k' m) ∧
    at_place (OMap.insert k v m) = at_place m1.
Proof.
  intros Hwf Hv Heq. exists (OMap.insert k v m). split; [by apply wf_Object_insert|].
  apply wf_Object in Hwf as [Hm _]. split.
  { exists v. by rewrite OMap.get_insert, decide_True by done. }
  split; [|done]. intros k' Hk. by rewrite OMap.get_insert, decide_False by done.
Qed.

Lemma changed_field_ok old_map m k nv :
  toks ++ [k] ≠ [""] → wf_value nv → wf_value (Object m) →
  OMap.get k m = OMap.get k old_map →
  (∀ ov, OMap.get k old_map = Some ov →
     reaches (toks ++ [k]) ov nv (compute_diff_recursive ov nv (render (toks ++ [k])))) →
  ∃ m1, wf_value (Object m1) ∧ (∃ v', OMap.get k m1 = Some v' ∧ v' ≡ nv) ∧
    (∀ k', k' ≠ k → OMap.get k' m1 = OMap.get k' m) ∧
    apply_patch (at_place m)
      (changed_fields (render toks)
        (List.map (λ p, (p.1, (p.2, compute_diff_recursive p.2))) old_map) [(k, nv)])
    = (Ok tt, at_place m1).
Proof.
  intros Hne Hnv Hwf Hk IH. unfold changed_fields. cbn [flat_map].
  rewrite get_olds, app_nil_r, full_path_render.
  destruct (OMap.get k old_map) as [ov|] eqn:Hov; cbn [fmap option_fmap option_map].
  - assert (child k (Object m) = Ok ov) as Hch by (simpl; by rewrite Hk).
    destruct (value_eqb ov nv) eqn:Heq.
    { exists m. split; [done|]. split; [by exists ov|]. by split. }
    assert (get_at (toks ++ [k]) (at_place m) = Some ov) as Hg.
    { by rewrite (get_at_snoc _ _ _ (Object m)), Hch by apply place_get. }
    destruct ((is_object ov && is_object nv) || (is_array ov && is_array nv)).
    + destruct (IH ov eq_refl (at_place m)) as (v' & Heq' & Hwf' & ->); [by apply place_wf|done|].
      rewrite (set_at_snoc _ _ _ (Object m)) by (apply place_get || by rewrite Hch).
      rewrite place_set. simpl.
      destruct (field_insert m k v' nv Hwf Hwf' Heq') as (m1 & ? & ? & ? & E).
      exists m1. rewrite E. auto.
    + cbn [apply_patch]. rewrite (apply_replace_at _ _ ov) by (done || by apply place_wf).
      rewrite (set_at_snoc _ _ _ (Object m)) by (apply place_get || by rewrite Hch).
      rewrite place_set. simpl.
      destruct (field_insert m k nv nv Hwf Hnv) as (m1 & ? & ? & ? & E); [done|].
      exists m1. rewrite E. auto.
  - cbn [apply_patch].
    rewrite (apply_add_at _ _ _ (Object m) _ (Object (OMap.insert k nv m)))
      by (done || apply place_get).
    rewrite place_set.
    destruct (field_insert m k nv nv Hwf Hnv) as (m1 & ? & ? & ? & E); [done|].
      exists m1. rewrite E. auto.
Qed.

Lemma changed_fields_ok old_map l m :
  (∀ k, k ∈ l.*1 → toks ++ [k] ≠ [""]) → Forall (λ p, wf_value p.2) l → NoDup l.*1 →
  wf_value (Object m) → (∀ k, k ∈ l.*1 → OMap.get k m = OMap.get k old_map) →
  (∀ k ov nv, toks ++ [k] ≠ [""] → wf_value nv → OMap.get k old_map = Some ov →
     reaches (toks ++ [k]) ov nv (compute_diff_recursive ov nv (render (toks ++ [k])))) →
  ∃ m', wf_value (Object m') ∧
    (∀ k v, (k, v) ∈ l → ∃ v', OMap.get k m' = Some v' ∧ v' ≡ v) ∧
    (∀ k, k ∉ l.*1 → OMap.get k m' = OMap.get k m) ∧
    apply_patch (at_place m)
      (changed_fields (render toks)
        (List.map (λ p, (p.1, (p.2, compute_diff_recursive p.2))) old_map) l)
    = (Ok tt, at_place m').
Proof.
  intros Hne Hwfl Hnd Hwf Hold IHv. revert m Hwf Hold.
  induction l as [|[k nv] l IH]; intros m Hwf Hold.
  { exists m. split; [done|]. split; [by intros ?? ?%elem_of_nil|]. by split. }
  cbn [fmap list_fmap fst] in *. apply NoDup_cons in Hnd as [Hk Hnd].
  apply Forall_cons in Hwfl as [Hnv Hwfl]. simpl in Hnv.
  destruct (changed_field_ok old_map m k nv) as (m1 & Hwf1 & (v' & Hv' & Heq') & Ho & Hap); auto.
  { apply Hne. by left. }
  { apply Hold. by left. }
  { intros ov Hov. apply IHv; auto. apply Hne. by left. }
  destruct (IH ltac:(intros; apply Hne; by right) Hwfl Hnd m1 Hwf1)
    as (m' & Hwf' & Hl & Ho' & Hap').
  { intros k' Hk'. rewrite Ho by (by intros ->). apply Hold. by right. }
  exists m'. split; [done|]. split; [|split].
  - intros k1 v1 [[= -> ->]|Hin]%elem_of_cons; [|by apply Hl].
    exists v'. by rewrite Ho'.
  - intros k1 [Hk1 Hk1']%not_elem_of_cons. by rewrite Ho', Ho.
  - change ((k, nv) :: l) with ([(k, nv)] ++ l). unfold changed_fields in *.
    rewrite flat_map_app. by rewrite (apply_patch_app _ _ _ _ Hap).
Qed.
End Fields.

Lemma object_diff_ok toks old_map new_map :
  toks ≠ [""] →
  (∀ k, k ∈ old_map.*1 ∨ k ∈ new_map.*1 → toks ++ [k] ≠ [""]) →
  wf_value (Object old_map) → wf_value (Object new_map) →
  (∀ k ov nv, toks ++ [k] ≠ [""] → wf_value nv → OMap.get k old_map = Some ov →
     reaches (toks ++ [k]) ov nv (compute_diff_recursive ov nv (render (toks ++ [k])))) →
  reaches toks (Object old_map) (Object new_map)
    (compute_diff_recursive (Object old_map) (Object new_map) (render toks)).
Proof.
  intros Hne Hkeys Hwfo Hwfn IH doc Hdoc Hget.
  pose proof Hwfo as [Hmo _]%wf_Object. pose proof Hwfn as [Hmn Halln]%wf_Object.
  assert (∀ m, OMap.wf m → NoDup m.*1) as Hnodup.
  { clear. intros m H. unfold OMap.wf in H. induction H as [|k l Hs IH Hall]; constructor; [|done].
    intros Hin. rewrite Forall_forall in Hall. apply Hall in Hin.
    by rewrite str_cmp_refl in Hin. }
  destruct (removed_fields_ok toks doc _ Hdoc Hget new_map old_map old_map)
    as (m1 & Hwf1 & Hg1 & Hap1); auto.
  { intros k ([k' v] & -> & Hin)%list_elem_of_fmap. exists v. by apply OMap.get_elem. }
  destruct (changed_fields_ok toks doc _ Hdoc Hget old_map new_map m1)
    as (m2 & Hwf2 & Hl & Ho & Hap2); auto.
  { intros k ([k' v] & -> & Hin)%list_elem_of_fmap. rewrite Hg1, decide_False; [done|].
    intros [_ Hc]. unfold OMap.contains_key in Hc. apply OMap.get_elem in Hin; [|done].
    simpl in Hc. by rewrite Hin in Hc. }
  exists (Object m2). split; [|split; [done|]].
  - apply Object_equiv_get; [by apply wf_Object in Hwf2 as [? _]|done|].
    intros k. destruct (OMap.get k new_map) as [v|] eqn:Hk.
    { apply OMap.get_elem in Hk; [|done]. destruct (Hl k v Hk) as (v' & -> & ?). by constructor. }
    rewrite Ho, Hg1.
    + assert (OMap.contains_key k new_map = false) as Hc
        by (unfold OMap.contains_key; by rewrite Hk).
      case_decide as Hd; [constructor|].
      destruct (OMap.get k old_map) as [v|] eqn:Hk'; [|constructor]. exfalso. apply Hd.
      split; [|done]. apply list_elem_of_fmap. exists (k, v). split; [done|].
      by apply OMap.get_elem.
    + intros ([k' v] & -> & Hin)%list_elem_of_fmap. simpl in Hk.
      apply OMap.get_elem in Hin; [|done]. congruence.
  - cbn [compute_diff_recursive].
    rewrite <-(set_at_same toks doc (Object old_map)) at 1 by done.
    by rewrite (apply_patch_app _ _ _ _ Hap1).
Qed.

(** *** Arrays *)

Lemma index_token_ne toks i : toks ++ [dec (N.of_nat i)] ≠ [""].
Proof.
  destruct toks as [|t [|t' ts]]; [|done|done]. intros [= H]. by apply dec_nonempty in H.
Qed.

Section Elems.
Context (toks : list string) (doc : Value) (old0 : Value).
Context (Hdoc : wf_value doc) (Hget0 : get_at toks doc = Some old0).
Notation at_place a := (set_at toks doc (Array a)).
Implicit Types (arr old_arr new_arr : list Value).

Lemma aplace_get arr : get_at toks (at_place arr) = Some (Array arr).
Proof. by eapply get_set_at. Qed.
Lemma aplace_wf arr : wf_value (Array arr) → wf_value (at_place arr).
Proof. intros H. by eapply wf_set_at. Qed.
Lemma aplace_set arr v : set_at toks (at_place arr) v = set_at toks doc v.
Proof. by eapply set_set_at. Qed.
Lemma index_parse arr i :
  wf_value (Array arr) → i < length arr →
  parse_usize (dec (N.of_nat i)) = Some (N.of_nat i).
Proof. intros [Hlen _]%wf_Array Hi. apply parse_dec. lia. Qed.
Lemma index_child arr i v :
  wf_value (Array arr) → arr !! i = Some v → child (dec (N.of_nat i)) (Array arr) = Ok v.
Proof.
  intros Hwf Hi. simpl. rewrite (index_parse arr) by eauto using lookup_lt_Some.
  by rewrite Nat2N.id, Hi.
Qed.

Lemma changed_elems_cons olds new_arr i l :
  changed_elems (render toks) olds new_arr (i :: l) =
  changed_elems (render toks) olds new_arr [i] ++ changed_elems (Num:=Num) (render toks) olds new_arr l.
Proof. unfold changed_elems. simpl. by rewrite app_nil_r. Qed.
Lemma lookup_olds (f : Value → diff_fun (Num:=Num)) arr i :
  List.map (λ v, (v, f v)) arr !! i = (λ v, (v, f v)) <$> arr !! i.
Proof. apply list_lookup_fmap. Qed.

Lemma changed_elem_ok old_arr new_arr arr i ov nv :
  wf_value (Array arr) → wf_value ov → arr !! i = Some ov → old_arr !! i = Some ov →
  new_arr !! i = Some nv →
  reaches (toks ++ [dec (N.of_nat i)]) ov nv
    (compute_diff_recursive ov nv (render (toks ++ [dec (N.of_nat i)]))) →
  ∃ v', v' ≡ nv ∧ wf_value v' ∧
    apply_patch (at_place arr)
      (changed_elems (render toks)
        (List.map (λ v, (v, compute_diff_recursive v)) old_arr) new_arr [i])
    = (Ok tt, at_place (<[i := v']> arr)).
Proof.
  intros Hwf Hov Ha Ho Hn IH. unfold changed_elems. cbn [flat_map].
  rewrite lookup_olds, Ho, Hn, app_nil_r. cbn [fmap option_fmap option_map].
  pose proof (index_child arr i ov Hwf Ha) as Hch.
  destruct (value_eqb ov nv) eqn:Heq.
  { exists ov. split; [done|]. split; [done|]. by rewrite list_insert_id. }
  rewrite elem_path_render.
  destruct (IH (at_place arr)) as (v' & ? & ? & ->).
  { by apply aplace_wf. }
  { by rewrite (get_at_snoc _ _ _ (Array arr)), Hch by apply aplace_get. }
  exists v'. split; [done|]. split; [done|].
  rewrite (set_at_snoc _ _ _ (Array arr)) by (apply aplace_get || by rewrite Hch).
  rewrite aplace_set. simpl. rewrite (index_parse arr) by eauto using lookup_lt_Some.
  by rewrite Nat2N.id.
Qed.

(** The elements both arrays have. *)
Lemma common_elems_ok old_arr new_arr cnt i arr :
  Forall wf_value old_arr → Forall wf_value new_arr →
  (∀ j ov nv, wf_value ov → wf_value nv → old_arr !! j = Some ov →
     reaches (toks ++ [dec (N.of_nat j)]) ov nv
       (compute_diff_recursive ov nv (render (toks ++ [dec (N.of_nat j)])))) →
  i + cnt ≤ length old_arr → i + cnt ≤ length new_arr → wf_value (Array arr) →
  (∀ j, i ≤ j → arr !! j = old_arr !! j) →
  ∃ arr', wf_value (Array arr') ∧ length arr' = length arr ∧
    (∀ j nv, i ≤ j < i + cnt → new_arr !! j = Some nv → ∃ v', arr' !! j = Some v' ∧ v' ≡ nv) ∧
    (∀ j, j < i ∨ i + cnt ≤ j → arr' !! j = arr !! j) ∧
    apply_patch (at_place arr)
      (changed_elems (render toks)
        (List.map (λ v, (v, compute_diff_recursive v)) old_arr) new_arr (seq i cnt))
    = (Ok tt, at_place arr').
Proof.
  intros Hwo Hwn IHv. revert i arr. induction cnt as [|cnt IH]; intros i arr Hio Hin Hwf Hsame.
  { exists arr. split; [done|]. split; [done|]. split; [intros; lia|]. by split. }
  destruct (lookup_lt_is_Some_2 old_arr i ltac:(lia)) as [ov Hov].
  destruct (lookup_lt_is_Some_2 new_arr i ltac:(lia)) as [nv Hnv].
  assert (arr !! i = Some ov) as Ha by by rewrite Hsame.
  assert (wf_value ov) as Hwov by exact (Forall_lookup_1 _ _ _ _ Hwo Hov).
  destruct (changed_elem_ok old_arr new_arr arr i ov nv) as (v' & Heq & Hwv & Hap); auto.
  { apply IHv; auto. exact (Forall_lookup_1 _ _ _ _ Hwn Hnv). }
  assert (i < length arr) as Hilt by by eapply lookup_lt_Some.
  destruct (IH (S i) (<[i := v']> arr)) as (arr' & Hwf' & Hlen & Hnew & Hkeep & Hap'); try lia.
  { apply wf_Array in Hwf as [? ?]. apply wf_Array. rewrite length_insert.
    split; [done|]. by apply Forall_insert. }
  { intros j Hj. rewrite list_lookup_insert_ne by lia. apply Hsame. lia. }
  exists arr'. split; [done|]. split; [by rewrite Hlen, length_insert|]. split; [|split].
  - intros j nv' Hj Hnv'. destruct (decide (j = i)) as [->|].
    + rewrite Hkeep by lia. rewrite list_lookup_insert_eq by done. exists v'. by simplify_eq.
    + apply Hnew; [lia|done].
  - intros j Hj. rewrite Hkeep by lia. rewrite list_lookup_insert_ne by lia. done.
  - cbn [seq]. rewrite changed_elems_cons. by rewrite (apply_patch_app _ _ _ _ Hap).
Qed.

(** The elements only the new array has: pushed in order. *)
Lemma added_elem olds new_arr i nv :
  length olds ≤ i → new_arr !! i = Some nv →
  changed_elems (Num:=Num) (render toks) olds new_arr [i] = [Add (render (toks ++ ["-"])) nv].
Proof.
  intros Ho Hnv. unfold changed_elems. cbn [flat_map]. rewrite Hnv, push_path_render.
  destruct (olds !! i) as [[]|] eqn:Eo; [|done].
  by apply lookup_lt_Some, Nat.lt_nge in Eo; destruct (Eo Ho).
Qed.
Lemma added_elems_ok olds new_arr cnt i arr :
  length olds ≤ i → i + cnt = length new_arr →
  apply_patch (at_place arr) (changed_elems (render toks) olds new_arr (seq i cnt))
  = (Ok tt, at_place (arr ++ drop i new_arr)).
Proof.
  revert i arr. induction cnt as [|cnt IH]; intros i arr Ho Hi.
  { rewrite drop_ge, app_nil_r by lia. done. }
  destruct (lookup_lt_is_Some_2 new_arr i ltac:(lia)) as [nv Hnv].
  cbn [seq]. rewrite changed_elems_cons, (added_elem olds new_arr i nv Ho Hnv).
  cbn [app apply_patch].
  rewrite (apply_add_at _ _ _ (Array arr) _ (Array (arr ++ [nv]))).
  - rewrite aplace_set, IH by lia. by rewrite (drop_S new_arr nv i Hnv), <-app_assoc.
  - by destruct toks as [|? [|? ?]].
  - apply aplace_get.
  - done.
Qed.
Lemma no_new_elems olds new_arr l :
  Forall (λ i, length new_arr ≤ i) l → changed_elems (Num:=Num) (render toks) olds new_arr l = [].
Proof.
  induction 1 as [|i l Hi _ IH]; [done|]. rewrite changed_elems_cons, IH, app_nil_r.
  unfold changed_elems. cbn [flat_map]. destruct (new_arr !! i) eqn:En; [apply lookup_lt_Some in En; lia|].
  by destruct (olds !! i) as [[]|].
Qed.

(** The elements only the old array has: removed from the end. *)
Lemma removed_elems_ok k arr n :
  wf_value (Array arr) → length arr = n + k →
  apply_patch (at_place arr) ((λ i, Remove (elem_path (render toks) i)) <$> rev (seq n k))
  = (Ok tt, at_place (take n arr)).
Proof.
  revert arr. induction k as [|k IH]; intros arr Hwf Hlen.
  { simpl. by rewrite take_ge by lia. }
  rewrite seq_S, rev_app_distr. cbn [rev app fmap list_fmap apply_patch].
  destruct (lookup_lt_is_Some_2 arr (n + k) ltac:(lia)) as [x Hx].
  rewrite elem_path_render.
  rewrite (apply_remove_at _ _ _ (Array arr) x (Array (take (n + k) arr))).
  - rewrite aplace_set, IH.
    + by rewrite take_take, Nat.min_l by lia.
    + apply wf_Array in Hwf as [Hl Hall]. apply wf_Array. rewrite length_take.
      split; [lia|]. by apply Forall_take.
    + rewrite length_take. lia.
  - apply index_token_ne.
  - apply aplace_get.
  - simpl. rewrite (index_parse arr) by (done || lia). rewrite Nat2N.id, Hx.
    unfold vec_remove. by rewrite (drop_ge arr (S (n + k))), app_nil_r by lia.
Qed.

(** The two cases of the array diff: the new array is no shorter, or it is
    shorter. *)
Lemma changed_elems_app olds new_arr l1 l2 :
  changed_elems (Num:=Num) (render toks) olds new_arr (l1 ++ l2) =
  changed_elems (render toks) olds new_arr l1 ++ changed_elems (render toks) olds new_arr l2.
Proof. apply flat_map_app. Qed.
Lemma removed_indices n_old n_new max_len :
  n_old ≤ max_len →
  filter (λ i, (i < n_old)%nat ∧ ¬ (i < n_new)%nat) (seq 0 max_len) = seq n_new (n_old - n_new).
Proof.
  intros Hmax. set (P := λ i, (i < n_old)%nat ∧ ¬ (i < n_new)%nat).
  assert (∀ a k, (∀ i, a ≤ i < a + k → P i) → filter P (seq a k) = seq a k) as Hall.
  { intros a k H. apply filter_keep_all, Forall_forall. intros i Hi%elem_of_seq. apply H. lia. }
  assert (∀ a k, (∀ i, a ≤ i < a + k → ¬ P i) → filter P (seq a k) = []) as Hnone.
  { intros a k H. apply filter_keep_none, Forall_forall. intros i Hi%elem_of_seq. apply H. lia. }
  destruct (decide (n_old ≤ n_new)).
  - replace (n_old - n_new) with 0 by lia. rewrite Hnone; [done|]. subst P. simpl. lia.
  - replace max_len with (n_new + ((n_old - n_new) + (max_len - n_old))) by lia.
    rewrite !seq_app, !filter_app. cbn [Nat.add].
    rewrite Hnone, Hall, Hnone by (subst P; simpl; lia). by rewrite app_nil_r.
Qed.
Lemma prefix_equiv arr new_arr k :
  (∀ j nv, 0 ≤ j < 0 + k → new_arr !! j = Some nv → ∃ v', arr !! j = Some v' ∧ v' ≡ nv) →
  k ≤ length arr → k ≤ length new_arr → Forall2 (≡) (take k arr) (take k new_arr).
Proof.
  intros H Ha Hn. apply Forall2_same_length_lookup. split; [rewrite !length_take; lia|].
  intros j x y Hx Hy. apply lookup_take_Some in Hx as [Hx Hj], Hy as [Hy _].
  destruct (H j y) as (v' & Hv' & ?); [lia|done|]. by simplify_eq.
Qed.

Lemma elems_patch_ok old_arr new_arr :
  wf_value (Array old_arr) → wf_value (Array new_arr) →
  (∀ j ov nv, wf_value ov → wf_value nv → old_arr !! j = Some ov →
     reaches (toks ++ [dec (N.of_nat j)]) ov nv
       (compute_diff_recursive ov nv (render (toks ++ [dec (N.of_nat j)])))) →
  ∃ arr', Array arr' ≡ Array new_arr ∧ wf_value (Array arr') ∧
    apply_patch (at_place old_arr)
      (changed_elems (render toks) (List.map (λ v, (v, compute_diff_recursive v)) old_arr)
         new_arr (seq 0 (Nat.max (length old_arr) (length new_arr))) ++
       removed_elems (render toks) (length old_arr) (length new_arr)
         (Nat.max (length old_arr) (length new_arr)))
    = (Ok tt, at_place arr').
Proof.
  intros Hwo Hwn IH. pose proof Hwo as [Hlo Hao]%wf_Array. pose proof Hwn as [Hln Han]%wf_Array.
  set (k := Nat.min (length old_arr) (length new_arr)).
  destruct (common_elems_ok old_arr new_arr k 0 old_arr)
    as (arr1 & Hwf1 & Hlen1 & Hnew & Hkeep & Hap); auto; try lia.
  pose proof (prefix_equiv arr1 new_arr k Hnew ltac:(lia) ltac:(lia)) as Hpre.
  unfold removed_elems. rewrite removed_indices by lia.
  replace (Nat.max (length old_arr) (length new_arr))
    with (k + (Nat.max (length old_arr) (length new_arr) - k)) by lia.
  rewrite seq_app, changed_elems_app, <-app_assoc, (apply_patch_app _ _ _ _ Hap).
  destruct (decide (length old_arr ≤ length new_arr)) as [Hle|Hgt].
  - exists (arr1 ++ drop k new_arr). rewrite take_ge in Hpre by lia. split_and!.
    + apply Array_equiv. rewrite <-(take_drop k new_arr) at 2. by apply Forall2_app.
    + apply wf_Array. apply wf_Array in Hwf1 as [_ Hall1]. split.
      * rewrite length_app, length_drop. lia.
      * apply Forall_app. split; [done|]. by apply Forall_drop.
    + replace (length old_arr - length new_arr) with 0 by lia. cbn [rev seq fmap list_fmap].
      rewrite app_nil_r. rewrite added_elems_ok; [done| |lia].
      rewrite length_map. lia.
  - exists (take k arr1). rewrite (take_ge new_arr) in Hpre by lia. split_and!.
    + by apply Array_equiv.
    + apply wf_Array. apply wf_Array in Hwf1 as [Hl1 Hall1]. rewrite length_take.
      split; [lia|]. by apply Forall_take.
    + rewrite no_new_elems by (apply Forall_forall; intros i Hi%elem_of_seq; lia).
      cbn [app]. replace (length new_arr) with k by lia.
      rewrite removed_elems_ok; [done|done|lia].
Qed.
End Elems.

Lemma array_diff_ok toks old_arr new_arr :
  toks ≠ [""] → wf_value (Array old_arr) → wf_value (Array new_arr) →
  (∀ j ov nv, wf_value ov → wf_value nv → old_arr !! j = Some ov →
     reaches (toks ++ [dec (N.of_nat j)]) ov nv
       (compute_diff_recursive ov nv (render (toks ++ [dec (N.of_nat j)])))) →
  reaches toks (Array old_arr) (Array new_arr)
    (compute_diff_recursive (Array old_arr) (Array new_arr) (render toks)).
Proof.
  intros Hne Hwo Hwn IH. cbn [compute_diff_recursive].
  destruct (list_eqb value_eqb old_arr new_arr) eqn:Heq; [by apply reaches_nil|].
  destruct (_ <? _)%Z; [by apply reaches_replace|].
  intros doc Hdoc Hget.
  destruct (elems_patch_ok toks doc _ Hdoc Hget old_arr new_arr) as (arr' & ? & ? & Hap); auto.
  exists (Array arr'). split; [done|]. split; [done|].
  by rewrite (set_at_same toks doc (Array old_arr)) in Hap.
Qed.

(** No field of a document has the empty name. Only the root is read that
    way by the code; the predicate is about the root alone. *)
Definition no_empty_key (v : Value) : bool :=
  match v with Object m => negb (OMap.contains_key "" m) | _ => true end.

Lemma no_empty_key_spec m k :
  OMap.wf m → no_empty_key (Object m) = true → k ∈ m.*1 → k ≠ "".
Proof.
  intros Hm Hno ([k' v] & -> & Hin)%list_elem_of_fmap. simpl. intros ->.
  apply OMap.get_elem in Hin; [|done]. simpl in Hno. unfold OMap.contains_key in Hno.
  by rewrite Hin in Hno.
Qed.

Lemma leaf_diff_ok toks old new :
  toks ≠ [""] → wf_value old → wf_value new →
  reaches toks old new (if value_eqb old new then [] else [Replace (render toks) new]).
Proof.
  intros Hne Ho Hn. destruct (value_eqb old new) eqn:E; [by apply reaches_nil|by apply reaches_replace].
Qed.

Lemma diff_ok old : ∀ new toks,
  toks ≠ [""] → wf_value old → wf_value new →
  (toks = [] → no_empty_key old = true ∧ no_empty_key new = true) →
  reaches toks old new (compute_diff_recursive old new (render toks)).
Proof.
  induction old as [|b|n|s|arr IH|map IH] using Value_nested_ind; intros new toks Hne Ho Hn Hroot;
    try (by apply leaf_diff_ok).
  - destruct new as [| | | |arr'|map']; try by apply leaf_diff_ok.
    apply array_diff_ok; auto. intros j ov nv Hov Hnv Hj.
    rewrite Forall_lookup in IH. apply (IH j ov Hj); try done; [apply index_token_ne|].
    intros []%app_eq_nil; done.
  - destruct new as [| | | |arr'|map']; try by apply leaf_diff_ok.
    pose proof Ho as [Hmo Hao]%wf_Object. pose proof Hn as [Hmn _]%wf_Object.
    apply object_diff_ok; auto.
    + intros k Hk Heq. destruct toks as [|t [|? ?]]; [|done|done].
      destruct (Hroot eq_refl) as [H1 H2]. injection Heq as ->.
      destruct Hk as [Hk|Hk]; [by eapply (no_empty_key_spec map)|by eapply (no_empty_key_spec map')].
    + intros k ov nv Hk Hnv Hov. rewrite Forall_forall in IH, Hao.
      apply OMap.get_elem in Hov; [|done].
      apply (IH _ Hov); [done|exact (Hao _ Hov)|done|]. intros []%app_eq_nil; done.
Qed.
End Correct.

(** ** Properties *)

(** C14: the patch computed between two documents applies to the old one
    without an error and turns it into a document equal to the new one: fields
    and elements added, changed and removed at every depth, with any
    character in the field names. The one condition is that no field of the
    root object has the empty name. *)
Theorem diff_patch_roundtrip {Num} `{!JsonNumber Num} `{!JsonNumberLaws Num} (old new : Value Num) :
  wf_value old → wf_value new → no_empty_key old = true → no_empty_key new = true →
  ∃ doc, apply_patch old (compute_diff old new) = (Ok tt, doc) ∧ doc ≡ new ∧ wf_value doc.
Proof.
  intros Ho Hn Hko Hkn.
  destruct (diff_ok old new [] ltac:(done) Ho Hn ltac:(done) old Ho eq_refl)
    as (new' & Heq & Hwf & Hap).
  exists new'. split_and!; [exact Hap|done|done].
Qed.

(** What goes wrong without that condition. The path the diff gives a
    root field with the empty name is ["/"], which the patch reads as the
    whole document: a changed field replaces the document by the field's new
    value, and a removed field makes the patch fail. *)
Theorem empty_root_key_lost {Num} `{!JsonNumber Num} (v w : Value Num) :
  is_object v = false → is_array v = false → value_eqb v w = false →
  let old := Object [("", v)] in
  apply_patch old (compute_diff old (Object [("", w)])) = (Ok tt, w) ∧
  apply_patch old (compute_diff old (Object [])) = (Err CannotReplaceRoot, old).
Proof.
  intros Hobj Harr Hne old. subst old. unfold compute_diff.
  cbn [compute_diff_recursive removed_fields changed_fields flat_map List.map fst snd OMap.get
       String.eqb OMap.contains_key app].
  rewrite Hne, Hobj, Harr. by split.
Qed.

Definition demo_old : Value demo_number :=
  Object [("a", Array [Number (PosInt 1); Number (PosInt 2); Null]);
          ("b~/", JString "x"); ("c", Object [("", Bool true)])].
Definition demo_new : Value demo_number :=
  Object [("a", Array [Number (PosInt 3)]); ("c", Object [("", Bool false)]); ("d", Null)].

Lemma diff_patch_roundtrip_witness :
  ∃ doc, apply_patch demo_old (compute_diff demo_old demo_new) = (Ok tt, doc) ∧
    doc ≡ demo_new ∧ wf_value doc.
Proof.
  apply (diff_patch_roundtrip demo_old demo_new); [| |reflexivity|reflexivity];
    repeat (reflexivity || split || constructor).
Defined.
Lemma empty_root_key_lost_witness :
  apply_patch (Object [("", Number (PosInt 1))])
    (compute_diff (Object [("", Number (PosInt 1))]) (Object [("", Number (PosInt 2))]))
  = (Ok tt, Number (PosInt 2)) ∧
  apply_patch (Object [("", Number (PosInt 1))])
    (compute_diff (Object [("", Number (PosInt 1))]) (Object []))
  = (Err CannotReplaceRoot, Object [("", Number (PosInt 1))]).
Proof. apply empty_root_key_lost; vm_compute; reflexivity. Defined.

End Delta.
