(* ===== verification/Crdt.v ===== *)
(** * Conflict-free replicated data types (src/sync/crdt.rs)

    The trait [CRDT] is the class [Crdt]; [CrdtLaws] states what an
    implementation promises to the code that merges replicas: on well-formed
    and compatible replicas [merge] is associative, commutative and
    idempotent up to what can be observed. [Convergence] proves against the
    class that replicas that have merged the same states agree, whatever the
    order and the repetitions; the registers, the counters, the sets, the maps
    of these and the whole [CRDTDocument] are instances.

    [generate_tag] hashes with [DefaultHasher], whose algorithm the standard
    library does not specify: it is the class [TagHash]. The wall clock [now]
    is an argument. *)

From S2P Require Import Prelude Json.
Import Json.

Class Crdt (A : Type) := {
  merge : A → A → A;
  is_empty : A → bool;
}.
(** [merged]: every implementation clones itself and merges into the clone. *)
Definition merged {A} `{!Crdt A} (self other : A) : A := merge self other.

Class CrdtLaws (A : Type) `{!Crdt A} `{!Equiv A} := {
  crdt_ok : A → Prop;
  crdt_compat : A → A → Prop;
  crdt_equivalence :: Equivalence (≡@{A});
  merge_proper :: Proper ((≡) ==> (≡) ==> (≡)) (merge (A:=A));
  merge_ok a b : crdt_ok a → crdt_ok b → crdt_ok (merge a b);
  compat_sym a b : crdt_compat a b → crdt_compat b a;
  compat_merge a b c : crdt_compat a c → crdt_compat b c → crdt_compat (merge a b) c;
  merge_idem a : crdt_ok a → merge a a ≡ a;
  merge_comm a b : crdt_ok a → crdt_ok b → crdt_compat a b → merge a b ≡ merge b a;
  merge_assoc a b c : crdt_ok a → crdt_ok b → crdt_ok c →
    merge (merge a b) c ≡ merge a (merge b c);
}.

(** ** Last-write-wins register *)

Module LWWRegister.
Section LWWRegister.
Context {T : Type}.

Record LWWRegister := mkReg { reg_value : T; timestamp : N; node_id : string }.

(** [new] and [set] read the wall clock. *)
Definition new (now : N) (value : T) (node_id : string) : LWWRegister := mkReg value now node_id.
Definition with_timestamp (value : T) (node_id : string) (timestamp : N) : LWWRegister :=
  mkReg value timestamp node_id.
Definition value (r : LWWRegister) : T := reg_value r.
Definition set (now : N) (value : T) (r : LWWRegister) : LWWRegister :=
  mkReg value now (node_id r).

Definition merge (self other : LWWRegister) : LWWRegister :=
  match N.compare (timestamp self) (timestamp other) with
  | Lt => mkReg (reg_value other) (timestamp other) (node_id other)
  | Eq =>
      if str_ltb (node_id self) (node_id other)
      then mkReg (reg_value other) (timestamp self) (node_id other)
      else self
  | Gt => self
  end.
#[global] Instance lww_crdt : Crdt LWWRegister := { merge := merge; is_empty _ := false }.
End LWWRegister.
Arguments LWWRegister : clear implicits.
End LWWRegister.

(** ** Grow-only counter *)

Module GCounter.

Record GCounter := mkG { g_nodes : gmap string N }.

Definition new : GCounter := mkG ∅.
Definition increment (node_id : string) (c : GCounter) : GCounter :=
  mkG (<[node_id := wrap64 (count_of (g_nodes c) node_id + 1)]> (g_nodes c)).
(** [values().sum()], on wrapping [u64]s. *)
Definition value (c : GCounter) : N := map_fold (λ _ n acc, wrap64 (acc + n)) 0%N (g_nodes c).
Definition node_value (node_id : string) (c : GCounter) : N := count_of (g_nodes c) node_id.
Definition merge (self other : GCounter) : GCounter :=
  mkG (raise_all (g_nodes self) (g_nodes other)).
Definition g_is_empty (c : GCounter) : bool :=
  bool_decide (g_nodes c = ∅) || (value c =? 0)%N.
#[global] Instance gcounter_crdt : Crdt GCounter := { merge := merge; is_empty := g_is_empty }.
End GCounter.
Import GCounter (GCounter, mkG, g_nodes).

(** ** Positive-negative counter *)

(** [as i64] and the wrapping difference of two [i64]s. *)
Definition as_i64 (n : Z) : Z := ((n + 2 ^ 63) mod 2 ^ 64 - 2 ^ 63)%Z.

Module PNCounter.

Record PNCounter := mkPN { increments : GCounter; decrements : GCounter }.

Definition new : PNCounter := mkPN GCounter.new GCounter.new.
Definition increment (node_id : string) (c : PNCounter) : PNCounter :=
  mkPN (GCounter.increment node_id (increments c)) (decrements c).
Definition decrement (node_id : string) (c : PNCounter) : PNCounter :=
  mkPN (increments c) (GCounter.increment node_id (decrements c)).
Definition value (c : PNCounter) : Z :=
  as_i64 (as_i64 (Z.of_N (GCounter.value (increments c))) -
          as_i64 (Z.of_N (GCounter.value (decrements c)))).
Definition merge (self other : PNCounter) : PNCounter :=
  mkPN (GCounter.merge (increments self) (increments other))
       (GCounter.merge (decrements self) (decrements other)).
#[global] Instance pncounter_crdt : Crdt PNCounter :=
  { merge := merge; is_empty c := (value c =? 0)%Z }.
End PNCounter.
Import PNCounter (PNCounter, mkPN, increments, decrements).

(** ** Observed-removed set *)

Class TagHash := generate_tag : string → N → N.

Module ORSet.
Section ORSet.
Context {T : Type} `{Countable T}.

Record ORSet := mkOR {
  elems : gmap T (gset N);
  removed : gset N;
  tag_counter : N;
  node_id : string;
}.

Definition new (node_id : string) : ORSet := mkOR ∅ ∅ 0 node_id.
Definition add `{!TagHash} (element : T) (s : ORSet) : ORSet :=
  let tag_counter := wrap64 (tag_counter s + 1) in
  let tag := generate_tag (node_id s) tag_counter in
  mkOR (<[element := {[tag]} ∪ default ∅ (elems s !! element)]> (elems s))
       (removed s) tag_counter (node_id s).
Definition remove (element : T) (s : ORSet) : ORSet :=
  match elems s !! element with
  | Some tags =>
      mkOR (delete element (elems s)) (tags ∪ removed s) (tag_counter s) (node_id s)
  | None => s
  end.
Definition contains (element : T) (s : ORSet) : bool := bool_decide (is_Some (elems s !! element)).
Definition elements (s : ORSet) : gset T := dom (elems s).
Definition len (s : ORSet) : nat := size (elems s).
Definition or_is_empty (s : ORSet) : bool := bool_decide (elems s = ∅).

(** The three loops of [merge]: take over the live tags of the other set,
    take over its tombstones, drop the tags that are removed by now and the
    elements left without a tag. *)
Definition add_tags (removed : gset N) (element : T) (tags : gset N)
    (els : gmap T (gset N)) : gmap T (gset N) :=
  <[element := default ∅ (els !! element) ∪ filter (λ tag, tag ∉ removed) tags]> els.
Definition live_tags (removed tags : gset N) : option (gset N) :=
  let tags' := filter (λ tag, tag ∉ removed) tags in
  if bool_decide (tags' = ∅) then None else Some tags'.
Definition merge (self other : ORSet) : ORSet :=
  let els := map_fold (add_tags (removed self)) (elems self) (elems other) in
  let removed := removed self ∪ removed other in
  mkOR (omap (live_tags removed) els) removed (tag_counter self) (node_id self).
#[global] Instance orset_crdt : Crdt ORSet := { merge := merge; is_empty := or_is_empty }.
End ORSet.
Arguments ORSet T {_ _}.
End ORSet.

(** ** Documents *)

Module CRDTDocument.
Section CRDTDocument.
Context {Num : Type} `{!JsonNumber Num}.

Record CRDTDocument := mkDoc {
  regular_fields : list (string * Value Num);
  counters : gmap string PNCounter;
  sets : gmap string (ORSet.ORSet string);
  registers : gmap string (LWWRegister.LWWRegister (Value Num));
}.

Definition new : CRDTDocument := mkDoc [] ∅ ∅ ∅.

(** The time of a field: [value.get("_modified").and_then(as_u64).unwrap_or(0)]. *)
Definition modified (v : Value Num) : N :=
  default 0%N (value_get "_modified" v ≫= as_u64).
Definition merge_regular (self : list (string * Value Num)) (field : string * Value Num)
    : list (string * Value Num) :=
  let '(key, value) := field in
  match OMap.get key self with
  | Some existing =>
      if (modified existing <? modified value)%N then OMap.insert key value self else self
  | None => OMap.insert key value self
  end.

(** The loop the three maps of CRDTs share. *)
Definition merge_entry {A} `{!Crdt A} (key : string) (other : A) (self : gmap string A)
    : gmap string A :=
  match self !! key with
  | Some s => <[key := merge s other]> self
  | None => <[key := other]> self
  end.
Definition merge_map {A} `{!Crdt A} (self other : gmap string A) : gmap string A :=
  map_fold merge_entry self other.

Definition merge (self other : CRDTDocument) : CRDTDocument :=
  mkDoc (foldl merge_regular (regular_fields self) (regular_fields other))
        (merge_map (counters self) (counters other))
        (merge_map (sets self) (sets other))
        (merge_map (registers self) (registers other)).

(** [to_json]. The elements of a set are listed in the order of the hash map,
    which the code does not fix: [order] is that order. *)
Definition counter_json (c : PNCounter) : Value Num :=
  Object (OMap.insert "_value" (Number (num_of_i64 (PNCounter.value c)))
    (OMap.insert "_type" (JString "PNCounter") [])).
Definition set_json (order : gset string → list string) (s : ORSet.ORSet string) : Value Num :=
  Object (OMap.insert "_value" (Array (JString <$> order (ORSet.elements s)))
    (OMap.insert "_type" (JString "ORSet") [])).
Definition to_json (order : gset string → list string) (d : CRDTDocument) : Value Num :=
  let result := foldl (λ r p, OMap.insert p.1 p.2 r) [] (regular_fields d) in
  let result := map_fold (λ key c r, OMap.insert key (counter_json c) r) result (counters d) in
  Object (map_fold (λ key s r, OMap.insert key (set_json order s) r) result (sets d)).
End CRDTDocument.
Arguments CRDTDocument : clear implicits.
End CRDTDocument.

(** ** Convergence, against the interface *)

Section Convergence.
Context {A : Type} `{!Crdt A} `{!Equiv A} `{!CrdtLaws A}.
Implicit Types (a b x y : A) (l : list A).

(** A replica that started from [x] and merged the states of [l] in turn. *)
Definition merge_all x l : A := foldl merge x l.

Definition all_ok l : Prop := Forall crdt_ok l.
Definition all_compat l : Prop := ∀ x y, x ∈ l → y ∈ l → crdt_compat x y.

Lemma merge_all_ok x l : all_ok (x :: l) → crdt_ok (merge_all x l).
Proof.
  unfold merge_all. revert x. induction l as [|y l IH]; intros x H; simpl.
  - by inversion H.
  - apply IH. inversion H as [|?? Hx Hl]; subst. inversion Hl; subst.
    constructor; auto using merge_ok.
Qed.
Lemma merge_all_compat x l z :
  (∀ y, y ∈ x :: l → crdt_compat y z) → crdt_compat (merge_all x l) z.
Proof.
  unfold merge_all. revert x. induction l as [|y l IH]; intros x H; simpl.
  - apply H. by left.
  - apply IH. intros w [->|Hw]%elem_of_cons; [|apply H; by do 2 right].
    apply compat_merge; apply H; [by left|by right; left].
Qed.
Lemma merge_all_proper u v l : u ≡ v → merge_all u l ≡ merge_all v l.
Proof.
  unfold merge_all. revert u v. induction l as [|z l IH]; intros u v Huv; simpl; [done|].
  apply IH. by f_equiv.
Qed.
Lemma merge_all_app x l b :
  crdt_ok x → crdt_ok b → all_ok l → merge b (merge_all x l) ≡ merge_all (merge b x) l.
Proof.
  unfold merge_all. revert x. induction l as [|y l IH]; intros x Hx Hb Hl; simpl; [done|].
  inversion Hl; subst. rewrite IH by auto using merge_ok.
  apply merge_all_proper. symmetry. by apply merge_assoc.
Qed.

(** Merging again a state that was merged already changes nothing. *)
Lemma merge_all_absorb x l z :
  all_ok (x :: l) → all_compat (x :: l) → z ∈ x :: l → merge (merge_all x l) z ≡ merge_all x l.
Proof.
  revert x. induction l as [|y l IH] using rev_ind; intros x Hok Hc Hz.
  - apply list_elem_of_singleton in Hz as ->. apply merge_idem. by inversion Hok.
  - unfold merge_all in *. rewrite foldl_app. simpl.
    rewrite app_comm_cons in *. apply Forall_app in Hok as [Hok Hy].
    apply Forall_cons in Hy as [Hy _].
    assert (crdt_ok (foldl merge x l)) as Hf by by apply merge_all_ok.
    assert (all_compat (x :: l)) as Hc' by (intros ????; apply Hc; apply elem_of_app; by left).
    apply elem_of_app in Hz as [Hz| ->%list_elem_of_singleton].
    + assert (crdt_ok z) as Hzok by by eapply Forall_forall in Hok.
      rewrite merge_assoc by done.
      rewrite (merge_comm y z); [|done|done|].
      2: { apply Hc; apply elem_of_app; [right; by left|by left]. }
      rewrite <-merge_assoc by done. by rewrite IH.
    + rewrite merge_assoc by done. by rewrite merge_idem.
Qed.
Lemma merge_all_absorb_all x l l' :
  all_ok (x :: l) → all_compat (x :: l) → l' ⊆ x :: l →
  merge_all (merge_all x l) l' ≡ merge_all x l.
Proof.
  intros Hok Hc. induction l' as [|z l' IH]; intros Hsub; [done|]. simpl.
  rewrite merge_all_proper.
  - apply IH. intros w Hw. apply Hsub. by right.
  - apply merge_all_absorb; auto. apply Hsub. by left.
Qed.

Lemma merge_all_converge x l y l' :
  all_ok (x :: l) → all_compat (x :: l) → (∀ z, z ∈ x :: l ↔ z ∈ y :: l') →
  merge_all x l ≡ merge_all y l'.
Proof.
  intros Hok Hc Hset.
  assert (all_ok (y :: l')) as Hok'.
  { apply Forall_forall. intros z Hz%Hset. by eapply Forall_forall in Hok. }
  assert (all_compat (y :: l')) as Hc' by (intros u v Hu%Hset Hv%Hset; auto).
  pose proof (merge_all_ok _ _ Hok) as HF. pose proof (merge_all_ok _ _ Hok') as HG.
  assert (merge (merge_all x l) (merge_all y l') ≡ merge_all x l) as H1.
  { inversion Hok'; subst. rewrite merge_all_app by done.
    apply (merge_all_absorb_all x l (y :: l')); auto. intros z Hz. by apply Hset. }
  assert (merge (merge_all y l') (merge_all x l) ≡ merge_all y l') as H2.
  { inversion Hok; subst. rewrite merge_all_app by done.
    apply (merge_all_absorb_all y l' (x :: l)); auto. intros z Hz. by apply Hset. }
  rewrite <-H1, merge_comm, H2; [done|done|done|].
  apply merge_all_compat. intros u Hu. apply compat_sym, merge_all_compat.
  intros v Hv. apply Hc'; [done|by apply Hset].
Qed.
End Convergence.

(** ** The registers keep the contract *)

Module LWWRegisterLaws.
Import LWWRegister.
Section Laws.
Context {T : Type}.
Implicit Types a b c : LWWRegister T.

Definition reg_cmp : LWWRegister T → LWWRegister T → comparison :=
  cmp_then (cmp_by timestamp N.compare) (cmp_by node_id str_cmp).

Lemma merge_pick a b : LWWRegister.merge a b = pick reg_cmp a b.
Proof.
  unfold LWWRegister.merge, pick, reg_cmp, cmp_then, cmp_by, str_ltb.
  destruct (N.compare_spec (timestamp a) (timestamp b)) as [H|H|H]; [|by destruct b|done].
  destruct (str_cmp (node_id a) (node_id b)); [done| |done].
  rewrite H. by destruct b.
Qed.

(** Two writes of one node in one millisecond are one write. *)
Definition same_write a b : Prop :=
  timestamp a = timestamp b → node_id a = node_id b → a = b.

#[global] Instance lww_equiv : Equiv (LWWRegister T) := (=).
#[global] Program Instance lww_laws : CrdtLaws (LWWRegister T) :=
  {| crdt_ok := λ _, True; crdt_compat := same_write |}.
Next Obligation. done. Qed.
Next Obligation. intros a b H H1 H2. symmetry. by apply H. Qed.
Next Obligation.
  intros a b c Ha Hb. simpl. rewrite merge_pick.
  by destruct (pick_cases reg_cmp a b) as [-> | ->].
Qed.
Next Obligation. intros a _. simpl. rewrite merge_pick. apply pick_idem. Qed.
Next Obligation.
  intros a b _ _ H. simpl. rewrite !merge_pick. apply pick_comm; [apply _|].
  unfold reg_cmp, cmp_then, cmp_by. intros E.
  destruct (N.compare_spec (timestamp a) (timestamp b)) as [H1| |]; [|done|done].
  apply H; [done|]. by apply str_cmp_eq_iff.
Qed.
Next Obligation. intros a b c _ _ _. simpl. rewrite !merge_pick. apply pick_assoc, _. Qed.
End Laws.
End LWWRegisterLaws.

(** ** The counters keep the contract *)

Module CounterLaws.

#[global] Instance gcounter_equiv : Equiv GCounter := (=).
#[global] Program Instance gcounter_laws : CrdtLaws GCounter :=
  {| crdt_ok := λ _, True; crdt_compat := λ _ _, True |}.
Next Obligation. done. Qed.
Next Obligation. done. Qed.
Next Obligation. done. Qed.
Next Obligation.
  intros [a] _. unfold merge, GCounter.gcounter_crdt, GCounter.merge. simpl.
  by rewrite raise_all_max, max_counts_idemp.
Qed.
Next Obligation.
  intros [a] [b] _ _ _. unfold merge, GCounter.gcounter_crdt, GCounter.merge. simpl.
  by rewrite !raise_all_max, max_counts_comm.
Qed.
Next Obligation.
  intros [a] [b] [c] _ _ _. unfold merge, GCounter.gcounter_crdt, GCounter.merge. simpl.
  by rewrite !raise_all_max, max_counts_assoc.
Qed.

#[global] Instance pncounter_equiv : Equiv PNCounter := (=).
#[global] Program Instance pncounter_laws : CrdtLaws PNCounter :=
  {| crdt_ok := λ _, True; crdt_compat := λ _ _, True |}.
Next Obligation. done. Qed.
Next Obligation. done. Qed.
Next Obligation. done. Qed.
Next Obligation.
  intros [i d] _. exact (f_equal2 mkPN (merge_idem i I) (merge_idem d I)).
Qed.
Next Obligation.
  intros [i d] [i' d'] _ _ _.
  exact (f_equal2 mkPN (merge_comm i i' I I I) (merge_comm d d' I I I)).
Qed.
Next Obligation.
  intros [i d] [i' d'] [i'' d''] _ _ _.
  exact (f_equal2 mkPN (merge_assoc i i' i'' I I I) (merge_assoc d d' d'' I I I)).
Qed.
End CounterLaws.

(** ** The sets keep the contract *)

Module ORSetLaws.
Import ORSet.
Section Laws.
Context {T : Type} `{Countable T}.
Implicit Types (s a b c : ORSet T) (e : T) (els : gmap T (gset N)).

(** The tags of an element; none when it is absent. *)
Definition tags_of els e : gset N := default ∅ (els !! e).

(** Every element has a tag, and no tag of an element is removed. *)
Definition wf_set s : Prop :=
  ∀ e tags, elems s !! e = Some tags → tags ≠ ∅ ∧ tags ## removed s.

Lemma add_tags_fold els rem other e :
  map_fold (add_tags rem) els other !! e =
  match other !! e with
  | Some tags => Some (tags_of els e ∪ filter (λ tag, tag ∉ rem) tags)
  | None => els !! e
  end.
Proof.
  revert e. apply (map_fold_weak_ind (λ r o, ∀ e, r !! e =
    match o !! e with
    | Some tags => Some (tags_of els e ∪ filter (λ tag, tag ∉ rem) tags)
    | None => els !! e
    end)).
  - intros e. by rewrite lookup_empty.
  - intros k tags o r Hk IH e. unfold add_tags. rewrite !lookup_insert.
    case_decide as Hd; [|apply IH]. subst e. rewrite IH, Hk. done.
Qed.

Lemma live_tags_spec rem tags :
  live_tags rem tags = if decide (tags ∖ rem = ∅) then None else Some (tags ∖ rem).
Proof.
  unfold live_tags. assert (filter (λ tag, tag ∉ rem) tags = tags ∖ rem) as -> by set_solver.
  by repeat case_decide.
Qed.

(** The live tags after a merge: those of either side that neither side
    removed. *)
Lemma merge_tags a b e :
  tags_of (elems (ORSet.merge a b)) e =
  (tags_of (elems a) e ∪ tags_of (elems b) e) ∖ (removed a ∪ removed b).
Proof.
  unfold ORSet.merge, tags_of. simpl. rewrite lookup_omap, add_tags_fold. unfold tags_of.
  destruct (elems a !! e) as [ta|], (elems b !! e) as [tb|]; simpl;
    rewrite ?live_tags_spec; try case_decide; simpl; set_solver.
Qed.
Lemma merge_lookup a b e :
  elems (ORSet.merge a b) !! e =
  let tags := (tags_of (elems a) e ∪ tags_of (elems b) e) ∖ (removed a ∪ removed b) in
  if decide (tags = ∅) then None else Some tags.
Proof.
  rewrite <-merge_tags. unfold tags_of.
  destruct (elems (ORSet.merge a b) !! e) as [tags|] eqn:E; simpl; [|by rewrite decide_True].
  rewrite decide_False; [done|]. unfold ORSet.merge in E. simpl in E.
  rewrite lookup_omap in E. apply bind_Some in E as (x & _ & E).
  rewrite live_tags_spec in E. case_decide; [done|]. by injection E as <-.
Qed.
Lemma wf_lookup s e :
  wf_set s → elems s !! e = if decide (tags_of (elems s) e = ∅) then None
                            else Some (tags_of (elems s) e).
Proof.
  intros Hwf. unfold tags_of. destruct (elems s !! e) as [tags|] eqn:E; simpl.
  - rewrite decide_False; [done|]. by apply Hwf in E as [? _].
  - by rewrite decide_True.
Qed.
Lemma wf_disjoint s e : wf_set s → tags_of (elems s) e ## removed s.
Proof.
  intros Hwf. unfold tags_of. destruct (elems s !! e) as [tags|] eqn:E; simpl; [|set_solver].
  by apply Hwf in E as [_ ?].
Qed.
Lemma merge_wf a b : wf_set (ORSet.merge a b).
Proof.
  intros e tags. rewrite merge_lookup. simpl. case_decide; [done|].
  intros [= <-]. split; [done|]. set_solver.
Qed.

(** What replicas can tell apart: the elements with their tags, and the
    tombstones. *)
#[global] Instance orset_equiv : Equiv (ORSet T) := λ a b,
  elems a = elems b ∧ removed a = removed b.
Lemma orset_ext a b :
  wf_set a → wf_set b → (∀ e, tags_of (elems a) e = tags_of (elems b) e) →
  removed a = removed b → a ≡ b.
Proof.
  intros Ha Hb Ht Hr. split; [|done]. apply map_eq. intros e.
  by rewrite (wf_lookup a), (wf_lookup b), Ht.
Qed.

#[global] Program Instance orset_laws : CrdtLaws (ORSet T) :=
  {| crdt_ok := wf_set; crdt_compat := λ _ _, True |}.
Next Obligation.
  split; [done| |].
  - intros a b [? ?]. by split.
  - intros a b c [? ?] [? ?]. by split; etrans.
Qed.
Next Obligation.
  intros a a' [Ha Hra] b b' [Hb Hrb]. unfold Crdt.merge, orset_crdt, ORSet.merge.
  split; simpl; by rewrite ?Ha, ?Hra, ?Hb, ?Hrb.
Qed.
Next Obligation. intros. apply merge_wf. Qed.
Next Obligation. done. Qed.
Next Obligation. done. Qed.
Next Obligation.
  intros a Ha. apply orset_ext; [apply merge_wf|done| |simpl; set_solver].
  intros e. unfold Crdt.merge, orset_crdt. rewrite merge_tags. pose proof (wf_disjoint a e Ha). set_solver.
Qed.
Next Obligation.
  intros a b Ha Hb _. apply orset_ext; [apply merge_wf..| |simpl; set_solver].
  intros e. unfold Crdt.merge, orset_crdt. rewrite !merge_tags. set_solver.
Qed.
Next Obligation.
  intros a b c Ha Hb Hc. apply orset_ext; [apply merge_wf..| |simpl; set_solver].
  intros e. unfold Crdt.merge, orset_crdt. rewrite !merge_tags. simpl.
  apply set_eq. intros x. rewrite !elem_of_difference, !elem_of_union, !elem_of_difference,
    !elem_of_union. tauto.
Qed.
End Laws.
End ORSetLaws.

(** ** Maps of CRDTs and documents keep the contract *)

Module MapLaws.
Import CRDTDocument.
Section Laws.
Context {A : Type} `{!Crdt A} `{!Equiv A} `{!CrdtLaws A}.
Implicit Types (a b c : gmap string A).

Lemma merge_map_lookup `{!Crdt A} a b k :
  merge_map a b !! k =
  match a !! k, b !! k with
  | Some x, Some y => Some (Crdt.merge x y)
  | Some x, None => Some x
  | None, o => o
  end.
Proof.
  unfold merge_map. revert k. apply (map_fold_weak_ind (λ r o, ∀ k, r !! k =
    match a !! k, o !! k with
    | Some x, Some y => Some (Crdt.merge x y)
    | Some x, None => Some x
    | None, z => z
    end)).
  - intros k. rewrite lookup_empty. by destruct (a !! k).
  - intros k y o r Hk IH k'. unfold merge_entry.
    assert (r !! k = a !! k) as Hr by (rewrite IH, Hk; by destruct (a !! k)).
    rewrite Hr. destruct (a !! k) as [x|] eqn:Ha; rewrite !lookup_insert;
      (case_decide as Hd; [subst k'; by rewrite Ha|apply IH]).
Qed.

#[global] Instance map_crdt : Crdt (gmap string A) :=
  {| Crdt.merge := merge_map; is_empty m := bool_decide (m = ∅) |}.
#[global] Program Instance map_laws : CrdtLaws (gmap string A) :=
  {| crdt_ok := λ m, ∀ k x, m !! k = Some x → crdt_ok x;
     crdt_compat := λ a b, ∀ k x y, a !! k = Some x → b !! k = Some y → crdt_compat x y |}.
Next Obligation.
  intros a a' Ha b b' Hb k. simpl. rewrite !merge_map_lookup.
  destruct (Ha k), (Hb k); constructor; [by f_equiv|done|done].
Qed.
Next Obligation.
  simpl. intros a b Ha Hb k x. rewrite merge_map_lookup.
  destruct (a !! k) eqn:Ea, (b !! k) eqn:Eb; intros [= <-]; eauto using merge_ok.
Qed.
Next Obligation. simpl. eauto using compat_sym. Qed.
Next Obligation.
  simpl. intros a b c Ha Hb k x z. rewrite merge_map_lookup.
  destruct (a !! k) eqn:Ea, (b !! k) eqn:Eb; intros [= <-]; eauto using compat_merge.
Qed.
Next Obligation.
  simpl. intros a Ha k. rewrite merge_map_lookup.
  destruct (a !! k) eqn:Ea; constructor. eauto using merge_idem.
Qed.
Next Obligation.
  simpl. intros a b Ha Hb Hc k. rewrite !merge_map_lookup.
  destruct (a !! k) eqn:Ea, (b !! k) eqn:Eb; constructor; eauto using merge_comm.
Qed.
Next Obligation.
  simpl. intros a b c Ha Hb Hc k. rewrite !merge_map_lookup.
  destruct (a !! k) eqn:Ea, (b !! k) eqn:Eb, (c !! k) eqn:Ec; constructor; eauto using merge_assoc.
Qed.
End Laws.
End MapLaws.

Module DocumentLaws.
Import CRDTDocument.
Section Laws.
Context {Num : Type} `{!JsonNumber Num}.
Notation CRDTDocument := (CRDTDocument Num).
Implicit Types (a b c d : CRDTDocument).

(** The CRDT fields of two documents are equal. *)
#[global] Instance doc_equiv : Equiv CRDTDocument := λ a b,
  counters a ≡ counters b ∧ sets a ≡ sets b ∧ registers a ≡ registers b.
(** The sets of a document are well formed. *)
Definition doc_ok d : Prop := ∀ key s, sets d !! key = Some s → ORSetLaws.wf_set s.
(** A register of both documents with one time and one node holds one value. *)
Definition doc_compat a b : Prop :=
  ∀ key x y, registers a !! key = Some x → registers b !! key = Some y →
  LWWRegisterLaws.same_write x y.

#[global] Instance doc_crdt : Crdt CRDTDocument :=
  {| Crdt.merge := CRDTDocument.merge; is_empty _ := false |}.
#[global] Program Instance doc_laws : CrdtLaws CRDTDocument :=
  {| crdt_ok := doc_ok; crdt_compat := doc_compat |}.
Next Obligation.
  split.
  - intros a. by split_and!.
  - intros a b (?&?&?). by split_and!.
  - intros a b c (?&?&?) (?&?&?). split_and!; by etrans.
Qed.
Next Obligation.
  intros a a' (H1&H2&H3) b b' (H1'&H2'&H3').
  split_and!; [exact (merge_proper _ _ H1 _ _ H1')|exact (merge_proper _ _ H2 _ _ H2')
              |exact (merge_proper _ _ H3 _ _ H3')].
Qed.
Next Obligation. intros a b Ha Hb. exact (merge_ok (sets a) (sets b) Ha Hb). Qed.
Next Obligation. intros a b H. exact (compat_sym (registers a) (registers b) H). Qed.
Next Obligation.
  intros a b c H1 H2.
  exact (compat_merge (registers a) (registers b) (registers c) H1 H2).
Qed.
Next Obligation.
  intros a Ha. split_and!;
    [exact (merge_idem (counters a) (λ _ _ _, I))|exact (merge_idem (sets a) Ha)
    |exact (merge_idem (registers a) (λ _ _ _, I))].
Qed.
Next Obligation.
  intros a b Ha Hb Hc. split_and!;
    [exact (merge_comm (counters a) (counters b) (λ _ _ _, I) (λ _ _ _, I) (λ _ _ _ _ _, I))
    |exact (merge_comm (sets a) (sets b) Ha Hb (λ _ _ _ _ _, I))
    |exact (merge_comm (registers a) (registers b) (λ _ _ _, I) (λ _ _ _, I) Hc)].
Qed.
Next Obligation.
  intros a b c Ha Hb Hc. split_and!;
    [exact (merge_assoc (counters a) (counters b) (counters c) (λ _ _ _, I) (λ _ _ _, I) (λ _ _ _, I))
    |exact (merge_assoc (sets a) (sets b) (sets c) Ha Hb Hc)
    |exact (merge_assoc (registers a) (registers b) (registers c)
              (λ _ _ _, I) (λ _ _ _, I) (λ _ _ _, I))].
Qed.
End Laws.
End DocumentLaws.

(** ** Counting *)

Module CounterSums.
Implicit Types (m : gmap string N) (c : GCounter) (k x y : string).

Definition total m : N := map_fold (λ _ n acc, acc + n)%N 0%N m.

Lemma total_insert m k v : m !! k = None → total (<[k := v]> m) = (total m + v)%N.
Proof.
  intros Hk. unfold total. rewrite map_fold_insert_L; [done| |done]. intros. lia.
Qed.
Lemma total_delete m k : total m = (count_of m k + total (delete k m))%N.
Proof.
  unfold count_of. destruct (m !! k) as [v|] eqn:E; simpl.
  - rewrite <-(insert_delete_id m k v E) at 1. rewrite total_insert by apply lookup_delete_eq. lia.
  - by rewrite delete_id.
Qed.
Lemma count_of_delete m k k' :
  count_of (delete k m) k' = if decide (k = k') then 0%N else count_of m k'.
Proof. unfold count_of. rewrite lookup_delete. by case_decide. Qed.

(** The total depends on the counts alone: an entry with count 0 is no entry. *)
Lemma total_ext m1 m2 : (∀ k, count_of m1 k = count_of m2 k) → total m1 = total m2.
Proof.
  revert m2. induction m1 as [|k v m Hk IH] using map_ind; intros m2 H.
  - assert (∀ m, (∀ k, count_of m k = 0%N) → total m = 0%N) as H0.
    { clear. intros m. induction m as [|k v m Hk IH] using map_ind; intros H; [done|].
      rewrite total_insert by done. rewrite IH.
      - specialize (H k). rewrite count_of_insert, decide_True in H by done. lia.
      - intros k'. specialize (H k'). rewrite count_of_insert in H. case_decide; [|done].
        subst k'. unfold count_of. by rewrite Hk. }
    rewrite (H0 m2); [done|]. intros k. by rewrite <-H.
  - assert (∀ k', count_of m k' = count_of (delete k m2) k') as Hrest.
    { intros k'. rewrite count_of_delete. specialize (H k'). rewrite count_of_insert in H.
      case_decide as E; [|done]. subst k'. unfold count_of. by rewrite Hk. }
    rewrite total_insert, (total_delete m2 k), (IH _ Hrest) by done.
    specialize (H k). rewrite count_of_insert, decide_True in H by done. lia.
Qed.

Lemma value_total c : GCounter.value c = wrap64 (total (g_nodes c)).
Proof.
  destruct c as [m]. unfold GCounter.value. simpl.
  induction m as [|k v m Hk Hf IH] using map_first_key_ind; [done|].
  unfold total in *. rewrite !map_fold_insert_first_key by done. rewrite IH.
  unfold wrap64. apply N.Div0.add_mod_idemp_l.
Qed.

Lemma increment_count k c k' :
  (count_of (g_nodes c) k + 1 < u64_modulus)%N →
  count_of (g_nodes (GCounter.increment k c)) k' =
  (count_of (g_nodes c) k' + if decide (k = k') then 1 else 0)%N.
Proof.
  intros H. simpl. rewrite count_of_insert. case_decide; [subst k'|lia].
  by apply wrap64_small.
Qed.
Lemma increments_count n k c k' :
  (count_of (g_nodes c) k + N.of_nat n < u64_modulus)%N →
  count_of (g_nodes (Nat.iter n (GCounter.increment k) c)) k' =
  (count_of (g_nodes c) k' + if decide (k = k') then N.of_nat n else 0)%N.
Proof.
  revert k'. induction n as [|n IH]; intros k' Hn; [cbn [Nat.iter nat_rect]; case_decide; lia|].
  change (Nat.iter (S n) ?f c) with (f (Nat.iter n f c)).
  rewrite increment_count; rewrite IH by lia.
  - case_decide; lia.
  - rewrite decide_True by done. lia.
Qed.

(** Two replicas fork from [c] and count on their own nodes; merging adds up. *)
Lemma fork_total n p x y c :
  x ≠ y →
  (count_of (g_nodes c) x + N.of_nat n < u64_modulus)%N →
  (count_of (g_nodes c) y + N.of_nat p < u64_modulus)%N →
  total (g_nodes (GCounter.merge (Nat.iter n (GCounter.increment x) c)
                                 (Nat.iter p (GCounter.increment y) c))) =
  (total (g_nodes c) + N.of_nat n + N.of_nat p)%N.
Proof.
  intros Hxy Hn Hp. unfold GCounter.merge. simpl. rewrite raise_all_max.
  set (M := max_counts _ _).
  assert (∀ k, count_of M k = (count_of (g_nodes c) k +
    (if decide (x = k) then N.of_nat n else if decide (y = k) then N.of_nat p else 0))%N) as HM.
  { intros k. subst M. rewrite count_of_max, !increments_count by done.
    repeat case_decide; subst; try done; lia. }
  rewrite (total_delete M x), (total_delete (delete x M) y).
  rewrite (total_delete (g_nodes c) x), (total_delete (delete x (g_nodes c)) y).
  rewrite (total_ext (delete y (delete x M)) (delete y (delete x (g_nodes c)))).
  - rewrite !count_of_delete, !HM. repeat case_decide; try done; lia.
  - intros k. rewrite !count_of_delete, HM. repeat case_decide; try done; lia.
Qed.
Lemma as_i64_mod n p : (n mod 2 ^ 64 = p mod 2 ^ 64)%Z → as_i64 n = as_i64 p.
Proof.
  intros H. unfold as_i64. f_equal.
  by rewrite <-(Zplus_mod_idemp_l n), H, Zplus_mod_idemp_l.
Qed.
Lemma mod_as_i64 n : (as_i64 n mod 2 ^ 64 = n mod 2 ^ 64)%Z.
Proof. unfold as_i64. rewrite Zminus_mod_idemp_l. f_equal. lia. Qed.
Lemma pn_value_total (p : PNCounter) :
  PNCounter.value p =
  as_i64 (Z.of_N (total (g_nodes (increments p))) - Z.of_N (total (g_nodes (decrements p)))).
Proof.
  unfold PNCounter.value. apply as_i64_mod.
  rewrite Zminus_mod, !mod_as_i64, <-Zminus_mod, !value_total. unfold wrap64, u64_modulus.
  rewrite !N2Z.inj_mod. change (Z.of_N (2 ^ 64)) with (2 ^ 64)%Z.
  by rewrite Zminus_mod_idemp_l, Zminus_mod_idemp_r.
Qed.
Lemma increments_iter j k (d : PNCounter) :
  Nat.iter j (PNCounter.increment k) d =
  mkPN (Nat.iter j (GCounter.increment k) (increments d)) (decrements d).
Proof.
  induction j as [|j IH]; [by destruct d|].
  change (Nat.iter (S j) ?f ?z) with (f (Nat.iter j f z)). by rewrite IH.
Qed.
Lemma decrements_iter j k (d : PNCounter) :
  Nat.iter j (PNCounter.decrement k) d =
  mkPN (increments d) (Nat.iter j (GCounter.increment k) (decrements d)).
Proof.
  induction j as [|j IH]; [by destruct d|].
  change (Nat.iter (S j) ?f ?z) with (f (Nat.iter j f z)). by rewrite IH.
Qed.
End CounterSums.

(** ** Properties *)

Module CrdtProps.
Import CRDTDocument.

(** C8: replicas of a document that have merged the same states, in any
    order and any number of times, hold the same counters, sets and registers,
    provided the sets are well formed and no node wrote two values of a
    register in one millisecond. *)
Theorem document_replicas_converge {Num} `{!JsonNumber Num} (x y : CRDTDocument Num) l l' :
  Forall DocumentLaws.doc_ok (x :: l) →
  (∀ a b, a ∈ x :: l → b ∈ x :: l → DocumentLaws.doc_compat a b) →
  (∀ z, z ∈ x :: l ↔ z ∈ y :: l') →
  let r := foldl CRDTDocument.merge x l in
  let r' := foldl CRDTDocument.merge y l' in
  counters r ≡ counters r' ∧ sets r ≡ sets r' ∧ registers r ≡ registers r'.
Proof. intros Hok Hc Hset. exact (merge_all_converge x l y l' Hok Hc Hset). Qed.

(** an addition wins over a concurrent removal, and a removal takes
    effect on what its replica had observed. A replica that adds [e] under a
    tag the other has not removed keeps it through a merge in either
    direction; when a replica that has seen every tag of [e] the other has
    removes [e], the merge in either direction has no [e]. *)
Theorem orset_observed_remove {T} `{Countable T} `{!TagHash} (a b : ORSet.ORSet T) (e : T) :
  ORSetLaws.wf_set a → ORSetLaws.wf_set b →
  let tag := generate_tag (ORSet.node_id b) (wrap64 (ORSet.tag_counter b + 1)) in
  (tag ∉ ORSet.removed a → tag ∉ ORSet.removed b →
   ORSet.contains e (ORSet.merge a (ORSet.add e b)) = true ∧
   ORSet.contains e (ORSet.merge (ORSet.add e b) a) = true) ∧
  (ORSetLaws.tags_of (ORSet.elems b) e ⊆ ORSetLaws.tags_of (ORSet.elems a) e →
   ORSet.contains e (ORSet.merge (ORSet.remove e a) b) = false ∧
   ORSet.contains e (ORSet.merge b (ORSet.remove e a)) = false).
Proof.
  intros Ha Hb tag. unfold ORSet.contains. split.
  - intros H1 H2. split; apply bool_decide_eq_true; rewrite ORSetLaws.merge_lookup; simpl;
      (case_decide as E; [exfalso|eauto]);
      unfold ORSetLaws.tags_of in E; rewrite lookup_insert_eq in E; simpl in E;
      apply (not_elem_of_empty (C:=gset N) tag); rewrite <-E; set_solver.
  - intros Hsub.
    assert (ORSetLaws.tags_of (ORSet.elems (ORSet.remove e a)) e = ∅ ∧
      ORSetLaws.tags_of (ORSet.elems a) e ⊆ ORSet.removed (ORSet.remove e a)) as [He Hr].
    { unfold ORSet.remove, ORSetLaws.tags_of.
      destruct (ORSet.elems a !! e) as [tags|] eqn:E; simpl.
      - rewrite lookup_delete_eq. simpl. set_solver.
      - rewrite E. set_solver. }
    split; apply bool_decide_eq_false; rewrite ORSetLaws.merge_lookup; simpl;
      rewrite He, decide_True by set_solver; by intros [? ?].
Qed.

(** The counters count. Two replicas fork from [c]; one counts [n] up and
    [p] down on node [x], the other [m] up and [q] down on node [y]; the value
    after the merge is the value of [c] plus [n + m - p - q], in [i64]
    arithmetic, as long as no single node's count overflows. *)
Theorem counter_fork_merge n m p q x y (c : PNCounter) :
  let count g k j := (count_of (g_nodes g) k + N.of_nat j < u64_modulus)%N in
  x ≠ y →
  count (increments c) x n → count (decrements c) x p →
  count (increments c) y m → count (decrements c) y q →
  let left := Nat.iter p (PNCounter.decrement x) (Nat.iter n (PNCounter.increment x) c) in
  let right := Nat.iter q (PNCounter.decrement y) (Nat.iter m (PNCounter.increment y) c) in
  PNCounter.value (PNCounter.merge left right) =
  as_i64 (PNCounter.value c + Z.of_nat n + Z.of_nat m - Z.of_nat p - Z.of_nat q).
Proof.
  simpl. intros Hxy Hn Hp Hm Hq.
  rewrite !CounterSums.decrements_iter, !CounterSums.increments_iter, !CounterSums.pn_value_total.
  cbn [PNCounter.merge increments decrements].
  apply CounterSums.as_i64_mod.
  rewrite !CounterSums.fork_total by done.
  set (i := CounterSums.total _). set (d := CounterSums.total _).
  replace (as_i64 (Z.of_N i - Z.of_N d) + Z.of_nat n + Z.of_nat m - Z.of_nat p - Z.of_nat q)%Z
    with (as_i64 (Z.of_N i - Z.of_N d) + (Z.of_nat n + Z.of_nat m - Z.of_nat p - Z.of_nat q))%Z by lia.
  rewrite <-Zplus_mod_idemp_l, CounterSums.mod_as_i64, Zplus_mod_idemp_l.
  f_equal. lia.
Qed.

(** The JSON of a document has, for each name, the set of that name, else
    the counter, else the regular field, and nothing else: the registers of
    the document are not written at all. *)
Theorem to_json_fields {Num} `{!JsonNumber Num} order (d : CRDTDocument Num) key :
  OMap.wf (regular_fields d) →
  (value_get key (to_json order d) =
   match sets d !! key with
   | Some s => Some (set_json order s)
   | None => match counters d !! key with
             | Some c => Some (counter_json c)
             | None => OMap.get key (regular_fields d)
             end
   end) ∧
  ∀ regs, to_json order (mkDoc (regular_fields d) (counters d) (sets d) regs) = to_json order d.
Proof.
  intros Hwf. split; [|done]. unfold to_json, value_get.
  destruct (FieldWrites.write_list (regular_fields d) [] OMap.wf_nil Hwf) as [Hw1 Hg1].
  destruct (FieldWrites.write_map counter_json (counters d) _ Hw1) as [Hw2 Hg2].
  destruct (FieldWrites.write_map (set_json order) (sets d) _ Hw2) as [Hw3 Hg3].
  rewrite Hg3, Hg2, Hg1.
  by destruct (sets d !! key), (counters d !! key), (OMap.get key (regular_fields d)).
Qed.

(** *** Concrete replicas *)

#[local] Instance demo_tag : TagHash := λ node counter, (N.of_nat (String.length node) * 1000 + counter)%N.
Definition demo_set (node : string) (l : list string) : ORSet.ORSet string :=
  foldl (λ s e, ORSet.add e s) (ORSet.new node) l.
Definition demo_doc (node : string) (t : N) : CRDTDocument demo_number :=
  mkDoc [("name", JString node)] {["hits" := PNCounter.increment node PNCounter.new]}
    {["tags" := demo_set node ["a"; node]]}
    {["title" := LWWRegister.with_timestamp (JString node) node t]}.

Lemma demo_set_wf l : Forall (λ d, ∃ node t, d = demo_doc node t) l → Forall DocumentLaws.doc_ok l.
Proof.
  intros H. eapply Forall_impl; [exact H|]. intros d (node & t & ->) key s Hs.
  cbn [sets demo_doc] in Hs. apply lookup_singleton_Some in Hs as [<- <-].
  intros e tags. simpl. rewrite !lookup_insert, lookup_empty. repeat case_decide; intros [= <-];
    split; simpl; set_solver.
Qed.
Lemma document_replicas_converge_witness :
  let a := demo_doc "n1" 5 in let b := demo_doc "node2" 5 in let c := demo_doc "nd3" 7 in
  let r := foldl CRDTDocument.merge a [b; c; b] in
  let r' := foldl CRDTDocument.merge c [a; b] in
  counters r ≡ counters r' ∧ sets r ≡ sets r' ∧ registers r ≡ registers r'.
Proof.
  apply document_replicas_converge.
  - apply demo_set_wf. repeat constructor; eauto.
  - intros x y Hx Hy key u v Hu Hv.
    repeat (apply elem_of_cons in Hx as [->|Hx]; [|try by apply elem_of_nil in Hx]);
    repeat (apply elem_of_cons in Hy as [->|Hy]; [|try by apply elem_of_nil in Hy]);
    cbn [registers demo_doc] in Hu, Hv;
    apply lookup_singleton_Some in Hu as [<- <-], Hv as [_ <-]; intros ??; done.
  - intros z. set_solver.
Defined.
Lemma orset_observed_remove_witness :
  let a := demo_set "n1" ["x"] in
  let tag := generate_tag "node2" 1 in
  (tag ∉ ORSet.removed a → tag ∉ ORSet.removed (ORSet.new (T:=string) "node2") →
   ORSet.contains "x" (ORSet.merge a (ORSet.add "x" (ORSet.new "node2"))) = true ∧
   ORSet.contains "x" (ORSet.merge (ORSet.add "x" (ORSet.new "node2")) a) = true) ∧
  (ORSetLaws.tags_of (ORSet.elems (ORSet.new "node2")) "x" ⊆ ORSetLaws.tags_of (ORSet.elems a) "x" →
   ORSet.contains "x" (ORSet.merge (ORSet.remove "x" a) (ORSet.new "node2")) = false ∧
   ORSet.contains "x" (ORSet.merge (ORSet.new "node2") (ORSet.remove "x" a)) = false).
Proof.
  apply (orset_observed_remove (demo_set "n1" ["x"]) (ORSet.new "node2") "x").
  - intros e tags. simpl. rewrite !lookup_insert, lookup_empty. case_decide; intros [= <-];
      split; simpl; set_solver.
  - intros e tags. simpl. by rewrite lookup_empty.
Defined.
Lemma counter_fork_merge_witness :
  PNCounter.value (PNCounter.merge
    (Nat.iter 1 (PNCounter.decrement "a") (Nat.iter 5 (PNCounter.increment "a") PNCounter.new))
    (Nat.iter 2 (PNCounter.decrement "b") (Nat.iter 3 (PNCounter.increment "b") PNCounter.new))) = 5%Z.
Proof. etransitivity; [apply counter_fork_merge; done|reflexivity]. Defined.
Lemma to_json_fields_witness :
  (value_get "tags" (to_json elements (demo_doc "n1" 5)) =
   match sets (demo_doc "n1" 5) !! "tags" with
   | Some s => Some (set_json elements s)
   | None => match counters (demo_doc "n1" 5) !! "tags" with
             | Some c => Some (counter_json c)
             | None => OMap.get "tags" (regular_fields (demo_doc "n1" 5))
             end
   end) ∧
  ∀ regs, to_json elements (mkDoc (regular_fields (demo_doc "n1" 5)) (counters (demo_doc "n1" 5))
    (sets (demo_doc "n1" 5)) regs) = to_json elements (demo_doc "n1" 5).
Proof. apply to_json_fields. repeat constructor. Defined.
End CrdtProps.
