(* ===== verification/Conflict.v ===== *)
(** * Conflict resolution (src/sync/conflict.rs)

    The strategies that choose or build the document of two concurrent
    versions. The trait [ConflictResolver] is a class over the resolver types;
    the resolvers are asynchronous only in their signature. The resolver that
    runs a Lua script is not modelled (the Lua virtual machine is a library);
    [CustomScript] creates the manual resolver, as the code does. *)

From S2P Require Import Prelude Json VersionVector.
Import Json.

Module Conflict.
Section Conflict.
Context {Num : Type}.
Notation Value := (Value Num).

Record ConflictInfo := mkConflict {
  document_key : string;
  collection : string;
  local_vector : VersionVector.VersionVector;
  remote_vector : VersionVector.VersionVector;
  local_data : option Value;
  remote_data : option Value;
  detected_at : N;
}.

Inductive ConflictResolution :=
| LocalWins
| RemoteWins
| Merged (merged : Value)
| KeepBoth (local remote : Value).

Class ConflictResolver (R : Type) := {
  resolve : R → ConflictInfo → ConflictResolution;
  name : R → string;
}.

(** ** The resolvers *)

Inductive LastWriteWinsResolver := LastWriteWins_.
Definition lww_resolve (conflict : ConflictInfo) : ConflictResolution :=
  let local_ts := VersionVector.hlc_timestamp (local_vector conflict) in
  let remote_ts := VersionVector.hlc_timestamp (remote_vector conflict) in
  if (remote_ts <? local_ts)%N then LocalWins
  else if (local_ts <? remote_ts)%N then RemoteWins
  else
    let local_cnt := VersionVector.hlc_counter (local_vector conflict) in
    let remote_cnt := VersionVector.hlc_counter (remote_vector conflict) in
    if (remote_cnt <=? local_cnt)%N then LocalWins else RemoteWins.
#[global] Instance lww_resolver : ConflictResolver LastWriteWinsResolver :=
  { resolve _ := lww_resolve; name _ := "last_write_wins" }.

(** [nodes().max().unwrap_or("")]: the last of the largest. *)
Definition max_node (v : VersionVector.VersionVector) : string :=
  foldl (λ best n, if str_leb best n then n else best) "" (VersionVector.nodes v).

Inductive DeterministicResolver := Deterministic_.
Definition deterministic_resolve (conflict : ConflictInfo) : ConflictResolution :=
  let local_node := max_node (local_vector conflict) in
  let remote_node := max_node (remote_vector conflict) in
  if str_leb remote_node local_node then LocalWins else RemoteWins.
#[global] Instance deterministic_resolver : ConflictResolver DeterministicResolver :=
  { resolve _ := deterministic_resolve; name _ := "deterministic" }.

(** The recursive calls on the fields of [local] are prepared next to them. *)
Definition merge_fields (locals : list (string * (Value * (Value → option Value))))
    (merged : list (string * Value)) (field : string * Value) : list (string * Value) :=
  let '(key, remote_value) := field in
  match OMap.get key locals with
  | Some (_, attempt) =>
      match attempt remote_value with
      | Some merged_value => OMap.insert key merged_value merged
      | None => OMap.insert key remote_value merged
      end
  | None => OMap.insert key remote_value merged
  end.
Fixpoint attempt_crdt_merge (local remote : Value) : option Value :=
  match local, remote with
  | Object local_map, Object remote_map =>
      let merged := foldl (λ r p, OMap.insert p.1 p.2 r) [] local_map in
      Some (Object (foldl (merge_fields
        (List.map (λ p, (p.1, (p.2, attempt_crdt_merge p.2))) local_map)) merged remote_map))
  | _, _ => None
  end.

Inductive AutomaticMergeResolver := AutomaticMerge_.
Definition automatic_resolve (conflict : ConflictInfo) : ConflictResolution :=
  match local_data conflict, remote_data conflict with
  | Some local, Some remote =>
      match attempt_crdt_merge local remote with
      | Some merged => Merged merged
      | None => lww_resolve conflict
      end
  | _, _ => lww_resolve conflict
  end.
#[global] Instance automatic_resolver : ConflictResolver AutomaticMergeResolver :=
  { resolve _ := automatic_resolve; name _ := "automatic_merge" }.

Inductive ManualResolver := Manual_.
Definition manual_resolve (conflict : ConflictInfo) : ConflictResolution :=
  KeepBoth (default Null (local_data conflict)) (default Null (remote_data conflict)).
#[global] Instance manual_resolver : ConflictResolver ManualResolver :=
  { resolve _ := manual_resolve; name _ := "manual" }.

(** ** Strategies *)

Inductive ConflictResolutionStrategy :=
| LastWriteWins
| Deterministic
| AutomaticMerge
| Manual
| CustomScript.

(** [Arc<dyn ConflictResolver>]: a resolver with its implementation. *)
Record dyn_resolver := Dyn { dyn_type : Type; dyn_impl : ConflictResolver dyn_type; dyn_val : dyn_type }.
Definition create_resolver (s : ConflictResolutionStrategy) : dyn_resolver :=
  match s with
  | LastWriteWins => Dyn _ lww_resolver LastWriteWins_
  | Deterministic => Dyn _ deterministic_resolver Deterministic_
  | AutomaticMerge => Dyn _ automatic_resolver AutomaticMerge_
  | Manual => Dyn _ manual_resolver Manual_
  | CustomScript => Dyn _ manual_resolver Manual_
  end.
Definition resolve_conflict (s : ConflictResolutionStrategy) (conflict : ConflictInfo)
    : ConflictResolution :=
  let r := create_resolver s in @resolve (dyn_type r) (dyn_impl r) (dyn_val r) conflict.

Definition detect_conflict (local_vector remote_vector : VersionVector.VersionVector)
    : option VersionVector.VectorComparison :=
  match VersionVector.compare local_vector remote_vector with
  | VersionVector.Concurrent => Some VersionVector.Concurrent
  | _ => None
  end.

Definition apply_resolution (resolution : ConflictResolution) (local remote : option Value)
    : option Value :=
  match resolution with
  | LocalWins => local
  | RemoteWins => remote
  | Merged merged => Some merged
  | KeepBoth local remote =>
      Some (Object (OMap.insert "_remote" remote
        (OMap.insert "_local" local (OMap.insert "_conflict" (Bool true) []))))
  end.
End Conflict.
Arguments ConflictInfo : clear implicits.
Arguments ConflictResolution : clear implicits.

(** ** Merging documents *)

Section Merge.
Context {Num : Type}.
Notation Value := (Value Num).
Implicit Types (l r m : list (string * Value)) (k : string) (v : Value).

(** The field of a merged object. *)
Definition merged_field (lo ro : option Value) : option Value :=
  match lo, ro with
  | Some lv, Some rv => Some (default rv (attempt_crdt_merge lv rv))
  | Some lv, None => Some lv
  | None, _ => ro
  end.

Lemma get_locals k l :
  OMap.get k (List.map (λ p, (p.1, (p.2, attempt_crdt_merge p.2))) l) =
  (λ v, (v, attempt_crdt_merge v)) <$> OMap.get k l.
Proof. induction l as [|[k' v] l IH]; simpl; [done|]. by destruct (String.eqb k k'). Qed.

Lemma merge_fields_get l r m k :
  OMap.wf r → OMap.wf m →
  let m' := foldl (merge_fields
    (List.map (λ p, (p.1, (p.2, attempt_crdt_merge p.2))) l)) m r in
  OMap.wf m' ∧ OMap.get k m' =
    match OMap.get k r with
    | Some rv => merged_field (OMap.get k l) (Some rv)
    | None => OMap.get k m
    end.
Proof.
  simpl. revert m. induction r as [|[k' v] r IH]; intros m Hr Hm; simpl; [done|].
  apply OMap.wf_cons in Hr as [Hr Hlt].
  assert (OMap.get k' r = None) as Hk'.
  { destruct (OMap.get k' r) as [w|] eqn:E; [|done]. apply OMap.get_elem in E; [|done].
    apply Hlt in E. by rewrite str_cmp_refl in E. }
  rewrite get_locals. destruct (OMap.get k' l) as [lv|] eqn:El; simpl;
    [destruct (attempt_crdt_merge lv v) as [mv|] eqn:Ea|];
    (edestruct IH as [Hw Hg]; [done|by apply OMap.wf_insert|]; split; [exact Hw|];
     rewrite Hg, OMap.get_insert by done;
     destruct (String.eqb_spec k k') as [->|Hne];
     [rewrite Hk', decide_True, El by done; simpl; by rewrite ?Ea
     |by rewrite decide_False by congruence]).
Qed.

Lemma merge_objects l r :
  OMap.wf l → OMap.wf r →
  ∃ m, attempt_crdt_merge (Object l) (Object r) = Some (Object m) ∧ OMap.wf m ∧
    ∀ k, OMap.get k m = merged_field (OMap.get k l) (OMap.get k r).
Proof.
  intros Hl Hr. destruct (FieldWrites.write_list l [] OMap.wf_nil Hl) as [Hw Hg].
  exists (foldl (merge_fields (List.map (λ p, (p.1, (p.2, attempt_crdt_merge p.2))) l))
    (foldl (λ r p, OMap.insert p.1 p.2 r) [] l) r).
  split; [reflexivity|]. split.
  - by apply (merge_fields_get l r _ "" Hr Hw).
  - intros k. rewrite (proj2 (merge_fields_get l r _ k Hr Hw)), Hg.
    destruct (OMap.get k r), (OMap.get k l); done.
Qed.
Lemma merge_non_objects (lv rv : Value) :
  is_object lv && is_object rv = false → attempt_crdt_merge lv rv = None.
Proof. by destruct lv, rv. Qed.

(** A merge is determined by its fields. *)
Lemma merge_fields_determine l r m :
  OMap.wf l → OMap.wf r → OMap.wf m →
  (∀ k, OMap.get k m = merged_field (OMap.get k l) (OMap.get k r)) →
  attempt_crdt_merge (Object l) (Object r) = Some (Object m).
Proof.
  intros Hl Hr Hm H. destruct (merge_objects l r Hl Hr) as (m' & -> & Hm' & Hg).
  do 2 f_equal. apply OMap.ext; [done|done|]. intros k. by rewrite H, Hg.
Qed.

Lemma merge_self v : wf_value v → attempt_crdt_merge v v = if is_object v then Some v else None.
Proof.
  induction v as [| | | | |m IH] using Value_nested_ind; intros Hwf; try done.
  pose proof Hwf as [Hm Hall]%wf_Object. apply merge_fields_determine; [done..|].
  intros k. destruct (OMap.get k m) as [x|] eqn:E; [|done]. simpl.
  apply OMap.get_elem in E; [|done]. rewrite Forall_forall in IH, Hall.
  pose proof (IH _ E (Hall _ E)) as Hx. simpl in Hx. rewrite Hx. by destruct (is_object x).
Qed.
Lemma merge_self_default v : wf_value v → default v (attempt_crdt_merge v v) = v.
Proof. intros H. rewrite merge_self by done. by destruct (is_object v). Qed.

Lemma merge_absorbs_r (lv : Value) : ∀ rv mv,
  wf_value lv → wf_value rv → attempt_crdt_merge lv rv = Some mv →
  attempt_crdt_merge mv rv = Some mv ∧ attempt_crdt_merge lv mv = Some mv.
Proof.
  induction lv as [| | | | |l IH] using Value_nested_ind; intros [| | | | |r] mv Hwl Hwr Hm; try done.
  pose proof Hwl as [Hl Hal]%wf_Object. pose proof Hwr as [Hr Har]%wf_Object.
  destruct (merge_objects l r Hl Hr) as (mm & Hmm & Hmw & Hg).
  rewrite Hmm in Hm. injection Hm as <-. rewrite !Forall_forall in *.
  split; apply merge_fields_determine; try done; intros k;
    rewrite !Hg; destruct (OMap.get k l) as [x|] eqn:El, (OMap.get k r) as [y|] eqn:Er; simpl; try done.
  - f_equal. assert (wf_value y) as Hy by (apply OMap.get_elem in Er; [exact (Har _ Er)|done]).
    destruct (attempt_crdt_merge x y) as [z|] eqn:Ez; simpl; [|by rewrite merge_self_default].
    apply OMap.get_elem in El; [|done].
    destruct (IH _ El y z (Hal _ El) Hy Ez) as [H1 _]. simpl in H1. by rewrite H1.
  - f_equal. symmetry. apply merge_self_default. apply OMap.get_elem in Er; [exact (Har _ Er)|done].
  - f_equal. assert (wf_value y) as Hy by (apply OMap.get_elem in Er; [exact (Har _ Er)|done]).
    destruct (attempt_crdt_merge x y) as [z|] eqn:Ez; simpl; [|by rewrite Ez].
    apply OMap.get_elem in El; [|done].
    destruct (IH _ El y z (Hal _ El) Hy Ez) as [_ H1]. simpl in H1. by rewrite H1.
  - f_equal. symmetry. apply merge_self_default. apply OMap.get_elem in El; [exact (Hal _ El)|done].
Qed.
End Merge.

(** ** Properties *)

(** The same conflict as the other replica sees it. *)
Definition mirror {Num} (c : ConflictInfo Num) : ConflictInfo Num :=
  mkConflict (document_key c) (collection c) (remote_vector c) (local_vector c)
    (remote_data c) (local_data c) (detected_at c).
(** Both replicas end with the same document. *)
Definition agree {Num} (s : ConflictResolutionStrategy) (c : ConflictInfo Num) : Prop :=
  apply_resolution (resolve_conflict s c) (local_data c) (remote_data c) =
  apply_resolution (resolve_conflict s (mirror c)) (remote_data c) (local_data c).

(** when two replicas resolve the conflict between their versions, they
    end with the same document under last-write-wins exactly when the two
    clocks differ (or the documents were equal), and under the deterministic
    strategy exactly when the largest node names of the two vectors differ
    (or the documents were equal): on a tie each replica keeps its own. *)
Theorem winner_agreement {Num} (c : ConflictInfo Num) :
  (agree LastWriteWins c ↔
   VersionVector.hlc_of (local_vector c) ≠ VersionVector.hlc_of (remote_vector c) ∨
   local_data c = remote_data c) ∧
  (agree Deterministic c ↔
   max_node (local_vector c) ≠ max_node (remote_vector c) ∨ local_data c = remote_data c).
Proof.
  unfold agree, resolve_conflict, VersionVector.hlc_of. destruct c as [dk co [lv lt lc] [rv rt rc] l r t].
  simpl. unfold lww_resolve, deterministic_resolve, mirror. simpl. split.
  - destruct (N.ltb_spec rt lt), (N.ltb_spec lt rt), (N.leb_spec rc lc), (N.leb_spec lc rc); simpl;
      try lia; (split; [intros Heq|intros [H'|H']; try done; exfalso; apply H'; f_equal; lia]);
      solve [left; intros [=]; lia|by right].
  - unfold str_leb. rewrite (String.compare_antisym (max_node _)).
    destruct (str_cmp (max_node _) (max_node _)) eqn:E; simpl.
    + apply str_cmp_eq_iff in E. rewrite E. naive_solver.
    + split; [|done]. left. intros E'. by rewrite E', str_cmp_refl in E.
    + split; [|done]. left. intros E'. by rewrite E', str_cmp_refl in E.
Qed.

(** what the automatic merge builds. Two objects merge into the object
    that has every field of either side, merged again when both sides hold an
    object there and taken from the remote side otherwise; anything else does
    not merge. The merged document absorbs both sides: merging it with the
    remote version, or merging it into the local one again, gives it back. *)
Theorem automatic_merge_spec {Num} (local remote : Value Num) :
  wf_value local → wf_value remote →
  match attempt_crdt_merge local remote with
  | Some merged =>
      ∃ l r m, local = Object l ∧ remote = Object r ∧ merged = Object m ∧ OMap.wf m ∧
        (∀ k, OMap.get k m = merged_field (OMap.get k l) (OMap.get k r)) ∧
        attempt_crdt_merge merged remote = Some merged ∧
        attempt_crdt_merge local merged = Some merged
  | None => is_object local && is_object remote = false
  end.
Proof.
  intros Hl Hr. destruct (attempt_crdt_merge local remote) as [v|] eqn:E.
  - destruct (merge_absorbs_r _ _ _ Hl Hr E) as [H1 H2].
    destruct local as [| | | | |l], remote as [| | | | |r]; try done.
    apply wf_Object in Hl as [Hl _], Hr as [Hr _].
    destruct (merge_objects l r Hl Hr) as (m & Hm & Hw & Hg).
    rewrite E in Hm. injection Hm as ->. by exists l, r, m.
  - by destruct local, remote.
Qed.

(** The automatic merge is not symmetric. Two replicas that changed one
    field to different values exchange the values: each takes the other's. *)
Theorem automatic_merge_swaps {Num} (c : ConflictInfo Num) k v w :
  is_object v && is_object w = false →
  local_data c = Some (Object [(k, v)]) → remote_data c = Some (Object [(k, w)]) →
  apply_resolution (resolve_conflict AutomaticMerge c) (local_data c) (remote_data c)
    = remote_data c ∧
  apply_resolution (resolve_conflict AutomaticMerge (mirror c)) (remote_data c) (local_data c)
    = local_data c.
Proof.
  intros Hn Hl Hr. unfold resolve_conflict. simpl. unfold automatic_resolve, mirror. simpl.
  rewrite Hl, Hr. cbn [attempt_crdt_merge foldl List.map merge_fields OMap.get fst snd OMap.insert].
  rewrite !String.eqb_refl, !merge_non_objects by (done || by rewrite andb_comm).
  cbn [OMap.insert]. by rewrite str_cmp_refl.
Qed.

(** *** Concrete conflicts *)

Definition demo_conflict : ConflictInfo demo_number :=
  mkConflict "k" "c" (VersionVector.mkVV {["a" := 2%N; "b" := 1%N]} 10 0)
    (VersionVector.mkVV {["a" := 1%N; "b" := 2%N]} 10 0)
    (Some (Object [("x", Bool true)])) (Some (Object [("x", Bool false)])) 11.
Lemma automatic_merge_spec_witness :
  match attempt_crdt_merge (Object [("x", Null)] : Value demo_number) (Object [("y", Null)]) with
  | Some merged =>
      ∃ l r m, Object [("x", Null)] = Object l ∧ Object [("y", Null)] = Object r ∧
        merged = Object m ∧ OMap.wf m ∧
        (∀ k, OMap.get k m = merged_field (OMap.get k l) (OMap.get k r)) ∧
        attempt_crdt_merge merged (Object [("y", Null)]) = Some merged ∧
        attempt_crdt_merge (Object [("x", Null)]) merged = Some merged
  | None => False
  end.
Proof.
  apply (automatic_merge_spec (Num:=demo_number) (Object [("x", Null)]) (Object [("y", Null)]));
    repeat (reflexivity || split || constructor).
Defined.
Lemma automatic_merge_swaps_witness :
  apply_resolution (resolve_conflict AutomaticMerge demo_conflict)
    (local_data demo_conflict) (remote_data demo_conflict) = remote_data demo_conflict ∧
  apply_resolution (resolve_conflict AutomaticMerge (mirror demo_conflict))
    (remote_data demo_conflict) (local_data demo_conflict) = local_data demo_conflict.
Proof. apply (automatic_merge_swaps demo_conflict "x" (Bool true) (Bool false)); reflexivity. Defined.

End Conflict.
