(* ===== verification/Transaction.v ===== *)
(** * Transactions and their locks (src/transaction/mod.rs, lock_manager.rs)

    Module [Transaction]: the identifiers, states, operations and the
    transaction record with its updates. Module [LockManager]: the table of
    exclusive locks and the table of the keys each transaction holds, first as
    the two sequential operations, then as a step relation in which the
    critical sections of concurrent transactions interleave.

    The clocks ([SystemTime::now], [Utc::now]) are arguments: nanoseconds as
    [N], [DateTime<Utc>] as milliseconds in [Z]. *)

From S2P Require Import Prelude Text Json.
Import Json.

(** The errors of src/error.rs; the wrapped I/O and JSON errors by their text. *)
Inductive DbError :=
| CollectionNotFound (msg : string)
| DocumentNotFound (msg : string)
| CollectionAlreadyExists (msg : string)
| InvalidDocument (msg : string)
| ConflictError (msg : string)
| ParseError (msg : string)
| ExecutionError (msg : string)
| BadRequest (msg : string)
| OperationNotSupported (msg : string)
| IoError (msg : string)
| JsonError (msg : string)
| InternalError (msg : string)
| NetworkError (msg : string)
| TransactionNotFound (msg : string)
| TransactionConflict (msg : string)
| DeadlockDetected (msg : string)
| TransactionTimeout (msg : string)
| IsolationViolation (msg : string)
| SchemaValidationError (msg : string)
| SchemaCompilationError (msg : string)
| Unauthorized (msg : string)
| Forbidden (msg : string)
| RoleNotFound (msg : string).

Module Transaction.

(** [TransactionId(u64)], its clock-based constructor and its display. *)
Definition TransactionId : Type := N.
Definition id_new (now_nanos : N) : TransactionId := wrap64 now_nanos.
Definition show_id (id : TransactionId) : string := "tx:" +:+ dec id.

Inductive TransactionState := Active | Preparing | Committed | Aborted.
#[global] Instance TransactionState_eq : EqDecision TransactionState.
Proof. solve_decision. Defined.
(** [{:?}] *)
Definition show_state (s : TransactionState) : string :=
  match s with
  | Active => "Active"
  | Preparing => "Preparing"
  | Committed => "Committed"
  | Aborted => "Aborted"
  end.
Inductive IsolationLevel := ReadUncommitted | ReadCommitted | RepeatableRead | Serializable.

Section Transaction.
Context {Num : Type}.
Notation Value := (Value Num).

Inductive Operation :=
| Insert (database collection key : string) (data : Value)
| Update (database collection key : string) (old_data new_data : Value)
| Delete (database collection key : string) (old_data : Value)
| PutBlobChunk (database collection key : string) (chunk_index : N) (data : string)
| DeleteBlob (database collection key : string).

Definition op_database (op : Operation) : string :=
  match op with
  | Insert d _ _ _ | Update d _ _ _ _ | Delete d _ _ _ | PutBlobChunk d _ _ _ _
  | DeleteBlob d _ _ => d
  end.
Definition op_collection (op : Operation) : string :=
  match op with
  | Insert _ c _ _ | Update _ c _ _ _ | Delete _ c _ _ | PutBlobChunk _ c _ _ _
  | DeleteBlob _ c _ => c
  end.
Definition op_key (op : Operation) : string :=
  match op with
  | Insert _ _ k _ | Update _ _ k _ _ | Delete _ _ k _ | PutBlobChunk _ _ k _ _
  | DeleteBlob _ _ k => k
  end.

Record Transaction := mkTx {
  id : TransactionId;
  state : TransactionState;
  isolation_level : IsolationLevel;
  operations : list Operation;
  read_timestamp : N;
  write_timestamp : option N;
  created_at : Z;
  validation_errors : list string;
}.

Definition new (now_nanos : N) (utc : Z) (level : IsolationLevel) : Transaction :=
  let id := id_new now_nanos in mkTx id Active level [] id None utc [].
Definition add_operation (op : Operation) (t : Transaction) : Transaction :=
  mkTx (id t) (state t) (isolation_level t) (operations t ++ [op]) (read_timestamp t)
    (write_timestamp t) (created_at t) (validation_errors t).
Definition is_active (t : Transaction) : bool := bool_decide (state t = Active).
Definition set_errors (errors : list string) (t : Transaction) : Transaction :=
  mkTx (id t) (state t) (isolation_level t) (operations t) (read_timestamp t)
    (write_timestamp t) (created_at t) errors.
Definition add_validation_error (error : string) (t : Transaction) : Transaction :=
  set_errors (validation_errors t ++ [error]) t.
Definition clear_validation_errors (t : Transaction) : Transaction := set_errors [] t.
Definition has_validation_errors (t : Transaction) : bool :=
  negb (bool_decide (validation_errors t = [])).
Definition set_state (s : TransactionState) (t : Transaction) : Transaction :=
  mkTx (id t) s (isolation_level t) (operations t) (read_timestamp t)
    (write_timestamp t) (created_at t) (validation_errors t).
Definition prepare (now_nanos : N) (t : Transaction) : Transaction :=
  mkTx (id t) Preparing (isolation_level t) (operations t) (read_timestamp t)
    (Some (id_new now_nanos)) (created_at t) (validation_errors t).
Definition commit (t : Transaction) : Transaction := set_state Committed t.
Definition abort (t : Transaction) : Transaction := set_state Aborted t.
End Transaction.
Arguments Operation : clear implicits.
Arguments Transaction : clear implicits.
End Transaction.

(** ** The lock manager *)

Module LockManager.
Import Transaction.

Record LockKey := mkKey { database : string; collection : string; key : string }.
#[global] Instance LockKey_eq : EqDecision LockKey.
Proof. solve_decision. Defined.
#[global] Program Instance LockKey_countable : Countable LockKey :=
  inj_countable' (λ k, (database k, collection k, key k))
    (λ '(d, c, k), mkKey d c k) _.
Next Obligation. by intros []. Qed.

Record LockManager := mkLocks {
  exclusive_locks : gmap LockKey TransactionId;
  tx_locks : gmap TransactionId (gset LockKey);
}.
Definition new : LockManager := mkLocks ∅ ∅.

Definition keys_of (m : LockManager) (t : TransactionId) : gset LockKey :=
  default ∅ (tx_locks m !! t).
Definition conflict_error (k : LockKey) (owner : TransactionId) : DbError :=
  TransactionConflict ("Write conflict: Key " +:+ (database k +:+ ("/" +:+ (collection k +:+
    ("/" +:+ (key k +:+ (" is locked by transaction " +:+ show_id owner))))))).

(** The two critical sections of [acquire_exclusive]: take the lock, and
    record it. [None] is the re-entrant return. *)
Definition take_lock (tx_id : TransactionId) (k : LockKey) (m : LockManager)
    : result DbError (option LockManager) :=
  match exclusive_locks m !! k with
  | Some owner => if decide (owner = tx_id) then Ok None else Err (conflict_error k owner)
  | None => Ok (Some (mkLocks (<[k := tx_id]> (exclusive_locks m)) (tx_locks m)))
  end.
Definition record_lock (tx_id : TransactionId) (k : LockKey) (m : LockManager) : LockManager :=
  mkLocks (exclusive_locks m) (<[tx_id := keys_of m tx_id ∪ {[k]}]> (tx_locks m)).
Definition acquire_exclusive (tx_id : TransactionId) (database collection key : string)
    (m : LockManager) : result DbError unit * LockManager :=
  let lock_key := mkKey database collection key in
  match take_lock tx_id lock_key m with
  | Err e => (Err e, m)
  | Ok None => (Ok tt, m)
  | Ok (Some m') => (Ok tt, record_lock tx_id lock_key m')
  end.

(** The two critical sections of [release_locks]: take the key set away, and
    unlock its keys. *)
Definition drop_record (tx_id : TransactionId) (m : LockManager) : LockManager :=
  mkLocks (exclusive_locks m) (delete tx_id (tx_locks m)).
Definition unlock_keys (keys : gset LockKey) (m : LockManager) : LockManager :=
  mkLocks (set_fold (λ k locks, delete k locks) (exclusive_locks m) keys) (tx_locks m).
Definition release_locks (tx_id : TransactionId) (m : LockManager) : LockManager :=
  match tx_locks m !! tx_id with
  | Some keys => unlock_keys keys (drop_record tx_id m)
  | None => m
  end.

(** ** Interleavings

    Each transaction is served by one thread; a step is one critical
    section. *)

Inductive pc :=
| Idle
| Recording (k : LockKey)        (* between the sections of [acquire_exclusive] *)
| Releasing (keys : gset LockKey) (* between the sections of [release_locks] *).
Definition threads : Type := TransactionId → pc.
Definition set_pc (t : TransactionId) (p : pc) (th : threads) : threads :=
  λ t', if decide (t = t') then p else th t'.

Inductive lock_step : threads * LockManager → threads * LockManager → Prop :=
| step_take th m t k m' :
    th t = Idle → take_lock t k m = Ok (Some m') →
    lock_step (th, m) (set_pc t (Recording k) th, m')
| step_reenter th m t k :
    th t = Idle → take_lock t k m = Ok None → lock_step (th, m) (th, m)
| step_refused th m t k e :
    th t = Idle → take_lock t k m = Err e → lock_step (th, m) (th, m)
| step_record th m t k :
    th t = Recording k → lock_step (th, m) (set_pc t Idle th, record_lock t k m)
| step_drop th m t keys :
    th t = Idle → tx_locks m !! t = Some keys →
    lock_step (th, m) (set_pc t (Releasing keys) th, drop_record t m)
| step_unlock th m t keys :
    th t = Releasing keys → lock_step (th, m) (set_pc t Idle th, unlock_keys keys m).

Definition reachable (s : threads * LockManager) : Prop :=
  rtc lock_step (λ _, Idle, new) s.

(** The keys a transaction has locked, counting the section it is in. *)
Definition holding (th : threads) (m : LockManager) (t : TransactionId) (k : LockKey) : Prop :=
  k ∈ keys_of m t ∨ th t = Recording k ∨ ∃ keys, th t = Releasing keys ∧ k ∈ keys.

Definition coherent (s : threads * LockManager) : Prop :=
  ∀ t k, exclusive_locks s.2 !! k = Some t ↔ holding s.1 s.2 t k.
Definition settled (s : threads * LockManager) : Prop :=
  ∀ t, match s.1 t with
       | Idle => True
       | Recording k => k ∉ keys_of s.2 t
       | Releasing _ => keys_of s.2 t = ∅
       end.

Lemma unlock_lookup keys m k :
  exclusive_locks (unlock_keys keys m) !! k =
  if decide (k ∈ keys) then None else exclusive_locks m !! k.
Proof.
  unfold unlock_keys. simpl.
  assert ((k ∈ keys → set_fold (λ k locks, delete k locks) (exclusive_locks m) keys !! k = None) ∧
    (k ∉ keys → set_fold (λ k locks, delete k locks) (exclusive_locks m) keys !! k =
      exclusive_locks m !! k)) as [H1 H2]; [|by case_decide; auto].
  apply (set_fold_ind_L (λ locks X, (k ∈ X → locks !! k = None) ∧
    (k ∉ X → locks !! k = exclusive_locks m !! k))); [set_solver|].
  intros x X r Hx [IH1 IH2]. rewrite lookup_delete.
  case_decide as Hk; [subst x; set_solver|]. set_solver.
Qed.
Lemma set_pc_eq t p th : set_pc t p th t = p.
Proof. unfold set_pc. by rewrite decide_True. Qed.
Lemma set_pc_ne t t' p th : t ≠ t' → set_pc t p th t' = th t'.
Proof. intros H. unfold set_pc. by rewrite decide_False. Qed.
Lemma keys_of_record t k m t' :
  keys_of (record_lock t k m) t' = if decide (t = t') then keys_of m t ∪ {[k]} else keys_of m t'.
Proof. unfold keys_of, record_lock. simpl. rewrite lookup_insert. by case_decide. Qed.
Lemma keys_of_drop t m t' :
  keys_of (drop_record t m) t' = if decide (t = t') then ∅ else keys_of m t'.
Proof. unfold keys_of, drop_record. simpl. rewrite lookup_delete. by case_decide. Qed.

Lemma step_settled s s' : coherent s → settled s → lock_step s s' → settled s'.
Proof.
  intros Hc Hs Hstep. destruct Hstep as [th m t k m' Hi Ht| | |th m t k Hr|th m t keys Hi Hk|th m t keys Hr];
    try done; intros t'; simpl; destruct (decide (t = t')) as [<-|Hne];
    rewrite ?set_pc_eq, ?set_pc_ne by done; try done.
  - unfold take_lock in Ht. destruct (exclusive_locks m !! k) eqn:E; [by case_decide|].
    injection Ht as <-. intros Hin. assert (exclusive_locks m !! k = Some t) as H
      by (apply Hc; by left). by rewrite E in H.
  - specialize (Hs t'). simpl in Hs. unfold take_lock in Ht.
    destruct (exclusive_locks m !! k); [by case_decide|]. by injection Ht as <-.
  - specialize (Hs t'). simpl in Hs. by rewrite keys_of_record, decide_False.
  - rewrite keys_of_drop. by rewrite decide_True.
  - specialize (Hs t'). simpl in Hs. by rewrite keys_of_drop, decide_False.
  - exact (Hs t').
Qed.

Lemma step_coherent s s' : coherent s → settled s → lock_step s s' → coherent s'.
Proof.
  intros Hc Hs Hstep. destruct Hstep as [th m t k m' Hi Ht| | |th m t k Hr|th m t keys Hi Hk|th m t keys Hr];
    try done; intros t' k'; cbn [fst snd]; unfold holding.
  - unfold take_lock in Ht. destruct (exclusive_locks m !! k) eqn:E; [by case_decide|].
    injection Ht as <-. simpl. rewrite lookup_insert.
    destruct (decide (t = t')) as [<-|Hne]; rewrite ?set_pc_eq, ?set_pc_ne by done.
    + case_decide as Hk; [subst k'; split; [by right; left|done]|].
      rewrite (Hc t k'). unfold holding. simpl. rewrite Hi. naive_solver.
    + case_decide as Hk.
      * subst k'. split; [congruence|]. intros H. assert (exclusive_locks m !! k = Some t') as E'
          by by apply Hc. by rewrite E in E'.
      * apply (Hc t' k').
  - change (exclusive_locks (record_lock t k m)) with (exclusive_locks m).
    rewrite (Hc t' k'). unfold holding. cbn [fst snd]. rewrite keys_of_record.
    destruct (decide (t = t')) as [<-|Hne]; rewrite ?set_pc_eq, ?set_pc_ne by done; [|done].
    rewrite Hr. set_solver.
  - change (exclusive_locks (drop_record t m)) with (exclusive_locks m).
    rewrite (Hc t' k'). unfold holding. cbn [fst snd]. rewrite keys_of_drop.
    destruct (decide (t = t')) as [<-|Hne]; rewrite ?set_pc_eq, ?set_pc_ne by done; [|done].
    rewrite Hi. unfold keys_of. rewrite Hk. simpl. set_solver.
  - rewrite unlock_lookup. pose proof (Hs t) as Hst. simpl in Hst. rewrite Hr in Hst.
    change (keys_of (unlock_keys keys m) t') with (keys_of m t').
    destruct (decide (t = t')) as [<-|Hne]; rewrite ?set_pc_eq, ?set_pc_ne by done.
    + case_decide as Hin; [set_solver|]. rewrite (Hc t k'). unfold holding. simpl. rewrite Hr. set_solver.
    + case_decide as Hin; [|apply (Hc t' k')]. split; [done|]. intros H.
      assert (exclusive_locks m !! k' = Some t') as E' by by apply Hc.
      assert (exclusive_locks m !! k' = Some t) as E by (apply Hc; right; right; eauto). congruence.
Qed.

Lemma reachable_inv s : reachable s → coherent s ∧ settled s.
Proof.
  unfold reachable. intros H.
  cut (coherent (λ _, Idle, new) ∧ settled (λ _, Idle, new)).
  { induction H as [|s1 s2 s3 Hstep _ IH]; [done|]. intros []. apply IH.
    eauto using step_coherent, step_settled. }
  split; [|done]. intros t k. unfold holding, keys_of. simpl.
  rewrite !lookup_empty. simpl. set_solver.
Qed.

(** C16: in every interleaving of the critical sections of concurrent
    acquisitions and releases, the lock table and the key sets agree: a key is
    locked by a transaction exactly when the transaction recorded it or is
    between the two sections that move it. So no two transactions ever hold
    one key, and a transaction outside the sections holds exactly what it
    recorded. *)
Theorem lock_table_coherent th m :
  reachable (th, m) →
  (∀ t k, exclusive_locks m !! k = Some t ↔ holding th m t k) ∧
  (∀ t t' k, holding th m t k → holding th m t' k → t = t') ∧
  (∀ t k, th t = Idle → exclusive_locks m !! k = Some t ↔ k ∈ keys_of m t).
Proof.
  intros [Hc _]%reachable_inv. unfold coherent in Hc. simpl in Hc. split; [done|]. split.
  - intros t t' k H%Hc H'%Hc. congruence.
  - intros t k Hi. rewrite Hc. unfold holding. rewrite Hi. naive_solver.
Qed.

(** Releasing, on a manager no thread is inside of. *)
Lemma release_lookup t m k :
  coherent (λ _, Idle, m) →
  exclusive_locks (release_locks t m) !! k =
  if decide (exclusive_locks m !! k = Some t) then None else exclusive_locks m !! k.
Proof.
  intros Hc. assert (exclusive_locks m !! k = Some t ↔ k ∈ keys_of m t) as Hk
    by (rewrite (Hc t k); unfold holding; simpl; naive_solver).
  unfold release_locks, keys_of in *. destruct (tx_locks m !! t) as [keys|] eqn:E.
  - rewrite unlock_lookup. by apply decide_ext.
  - rewrite decide_False; [done|]. rewrite Hk. simpl. set_solver.
Qed.
Lemma release_coherent t m : coherent (λ _, Idle, m) → coherent (λ _, Idle, release_locks t m).
Proof.
  intros Hc t' k. cbn [fst snd]. rewrite release_lookup by done.
  specialize (Hc t' k). unfold holding in *. cbn [fst snd] in *.
  assert (keys_of (release_locks t m) t' = if decide (t = t') then ∅ else keys_of m t') as ->.
  { unfold release_locks, keys_of. destruct (tx_locks m !! t) eqn:E; simpl.
    - rewrite lookup_delete. by case_decide.
    - case_decide; [by subst t'; rewrite E|done]. }
  repeat case_decide; set_solver.
Qed.

(** The two operations, whole. On a coherent manager, acquiring succeeds
    exactly when the key is free or already held by the caller, then the
    caller holds it and every other key is as before; refused, nothing
    changes. Releasing frees every key of the caller and no other. Both keep
    the manager coherent. *)
Theorem lock_operations t d c k m :
  coherent (λ _, Idle, m) →
  let key := mkKey d c k in
  let '(res, m') := acquire_exclusive t d c k m in
  (res = Ok tt ↔ exclusive_locks m !! key = None ∨ exclusive_locks m !! key = Some t) ∧
  (res = Ok tt → exclusive_locks m' = <[key := t]> (exclusive_locks m)) ∧
  (res ≠ Ok tt → m' = m ∧ ∃ owner, exclusive_locks m !! key = Some owner ∧ owner ≠ t ∧
                                    res = Err (conflict_error key owner)) ∧
  coherent (λ _, Idle, m') ∧
  (∀ k', exclusive_locks (release_locks t m) !! k' =
         if decide (exclusive_locks m !! k' = Some t) then None else exclusive_locks m !! k') ∧
  coherent (λ _, Idle, release_locks t m).
Proof.
  intros Hc. cbn zeta. unfold acquire_exclusive.
  pose proof (λ k', release_lookup t m k' Hc) as Hrel. pose proof (release_coherent t m Hc) as Hcr.
  set (key := mkKey d c k). unfold take_lock.
  destruct (exclusive_locks m !! key) as [owner|] eqn:E; [case_decide as Ho|]; simpl.
  - subst owner. split; [naive_solver|]. split; [intros _; by rewrite insert_id|].
    split; [done|]. by split.
  - split_and!; try done; [naive_solver|]. intros _. split; [done|]. by exists owner.
  - split_and!; try done; [naive_solver|]. intros t' k'. simpl. rewrite lookup_insert.
    unfold holding. rewrite keys_of_record. simpl.
    specialize (Hc t' k'). unfold holding, keys_of in *. simpl in *.
    repeat case_decide; subst; set_solver.
Qed.

(** *** A concrete interleaving *)

Lemma lock_table_coherent_witness :
  let m := mkLocks {[mkKey "d" "c" "k" := 1%N]} ∅ in
  let th := set_pc 1%N (Recording (mkKey "d" "c" "k")) (λ _, Idle) in
  (∀ t k, exclusive_locks m !! k = Some t ↔ holding th m t k) ∧
  (∀ t t' k, holding th m t k → holding th m t' k → t = t') ∧
  (∀ t k, th t = Idle → exclusive_locks m !! k = Some t ↔ k ∈ keys_of m t).
Proof.
  apply lock_table_coherent. eapply rtc_l; [|apply rtc_refl].
  apply (step_take _ _ 1%N (mkKey "d" "c" "k")); reflexivity.
Defined.
Lemma lock_operations_witness :
  exclusive_locks (release_locks 1%N (acquire_exclusive 1%N "d" "c" "k" new).2) !! mkKey "d" "c" "k"
  = None.
Proof.
  destruct (lock_operations 1%N "d" "c" "k" new) as (_ & _ & _ & Hc & _).
  { intros t k. unfold holding, keys_of. simpl. rewrite !lookup_empty. simpl. set_solver. }
  destruct (lock_operations 1%N "d" "c" "k" _ Hc) as (_ & _ & _ & _ & Hr & _).
  rewrite Hr. reflexivity.
Defined.

End LockManager.
