(* ===== verification/Wal.v ===== *)
(** * Write-ahead log (src/transaction/wal.rs)

    The log file is a list of lines; a line holds an entry, is blank, or cannot
    be parsed (a write cut short by a crash). Writing an entry has the three
    outcomes the code distinguishes on a file: written and synced, not
    written, written but not synced. Entries stand for their JSON text; the
    texts of the I/O and parser errors are left out of the messages. *)

From S2P Require Import Prelude Text Json Transaction.
Import Transaction.

Module Wal.
Section Wal.
Context {Num : Type}.
Notation Operation := (Operation Num).
Notation Transaction := (Transaction Num).

Inductive WalEntry :=
| WBegin (tx_id : TransactionId) (timestamp : N)
| WOperation (tx_id : TransactionId) (operation : Operation)
| WCommit (tx_id : TransactionId) (timestamp : N)
| WAbort (tx_id : TransactionId) (timestamp : N)
| WCheckpoint (timestamp : N).

Definition tx_id (e : WalEntry) : option TransactionId :=
  match e with
  | WBegin t _ | WOperation t _ | WCommit t _ | WAbort t _ => Some t
  | WCheckpoint _ => None
  end.

(** ** Writing *)

Inductive line := Line (e : WalEntry) | Blank | Garbled.
Definition log : Type := list line.

Inductive io_outcome := Synced | NotWritten | NotSynced.
Definition write (io : io_outcome) (entry : WalEntry) (l : log) : result DbError unit * log :=
  match io with
  | Synced => (Ok tt, l ++ [Line entry])
  | NotWritten => (Err (InternalError "Failed to write WAL entry"), l)
  | NotSynced => (Err (InternalError "Failed to sync WAL"), l ++ [Line entry])
  end.
Definition write_begin (io : io_outcome) (t : TransactionId) : log → result DbError unit * log :=
  write io (WBegin t t).
Definition write_operation (io : io_outcome) (t : TransactionId) (op : Operation)
    : log → result DbError unit * log :=
  write io (WOperation t op).
Definition write_commit (io : io_outcome) (now : N) (t : TransactionId)
    : log → result DbError unit * log :=
  write io (WCommit t (wrap64 now)).
Definition write_abort (io : io_outcome) (now : N) (t : TransactionId)
    : log → result DbError unit * log :=
  write io (WAbort t (wrap64 now)).
Definition write_checkpoint (io : io_outcome) (now : N) : log → result DbError unit * log :=
  write io (WCheckpoint (wrap64 now)).

(** ** Reading *)

Fixpoint read_lines (line_num : N) (l : log) : result DbError (list WalEntry) :=
  match l with
  | [] => Ok []
  | Blank :: l' => read_lines (line_num + 1) l'
  | Garbled :: _ => Err (InternalError ("Failed to parse WAL entry at line " +:+ dec line_num))
  | Line e :: l' =>
      match read_lines (line_num + 1) l' with
      | Ok entries => Ok (e :: entries)
      | Err err => Err err
      end
  end.
(** [None]: there is no file. *)
Definition read_all (file : option log) : result DbError (list WalEntry) :=
  match file with
  | None => Ok []
  | Some l => read_lines 0 l
  end.

(** The loop of [replay]: the open transactions, and the committed ones in
    the order of their commits. [utc] is the clock during recovery. *)
Definition replay_state : Type := gmap TransactionId Transaction * list Transaction.
Definition begun (utc : Z) (t : TransactionId) (timestamp : N) : Transaction :=
  mkTx t Active ReadCommitted [] timestamp None utc [].
Definition replay_entry (utc : Z) (s : replay_state) (e : WalEntry) : replay_state :=
  let '(transactions, committed) := s in
  match e with
  | WBegin t timestamp => (<[t := begun utc t timestamp]> transactions, committed)
  | WOperation t operation =>
      match transactions !! t with
      | Some tx => (<[t := add_operation operation tx]> transactions, committed)
      | None => s
      end
  | WCommit t _ =>
      match transactions !! t with
      | Some tx => (delete t transactions, committed ++ [commit tx])
      | None => s
      end
  | WAbort t _ => (delete t transactions, committed)
  | WCheckpoint _ => s
  end.
Definition replay_entries (utc : Z) (entries : list WalEntry) : replay_state :=
  foldl (replay_entry utc) (∅, []) entries.
Definition replay (utc : Z) (file : option log) : result DbError (list Transaction) :=
  match read_all file with
  | Err e => Err e
  | Ok entries => Ok (replay_entries utc entries).2
  end.

(** ** Truncation *)

Definition is_checkpoint (e : WalEntry) : bool :=
  match e with WCheckpoint _ => true | _ => false end.
(** [iter().enumerate().rev().find(...)] *)
Fixpoint last_checkpoint_idx (entries : list WalEntry) : option nat :=
  match entries with
  | [] => None
  | e :: entries' =>
      match last_checkpoint_idx entries' with
      | Some i => Some (S i)
      | None => if is_checkpoint e then Some 0 else None
      end
  end.
(** [temp_ok]: the new file could be written, synced and renamed; otherwise
    the old one stays. *)
Definition truncate_wal (temp_ok : bool) (file : option log)
    : result DbError unit * option log :=
  match read_all file with
  | Err e => (Err e, file)
  | Ok entries =>
      match last_checkpoint_idx entries with
      | None => (Ok tt, file)
      | Some idx =>
          if temp_ok then (Ok tt, Some (Line <$> drop (S idx) entries))
          else (Err (InternalError "Failed to write temp WAL"), file)
      end
  end.
End Wal.
Arguments WalEntry : clear implicits.
Arguments line : clear implicits.
Arguments log : clear implicits.

(** ** Replaying one transaction *)

Section Replay.
Context {Num : Type} (utc : Z).
Implicit Types (t : TransactionId) (l : list (WalEntry Num)) (tx : Transaction.Transaction Num).

(** The entries of one transaction. *)
Definition tx_log t l : list (WalEntry Num) := filter (λ e, tx_id e = Some t) l.
(** The recovered transactions with one identifier. *)
Definition recovered t l : list (Transaction.Transaction Num) :=
  filter (λ tx, id tx = t) (replay_entries utc l).2.

Lemma replay_snoc l e : replay_entries utc (l ++ [e]) = replay_entry utc (replay_entries utc l) e.
Proof. unfold replay_entries. by rewrite foldl_app. Qed.

Lemma replay_ids l t tx : (replay_entries utc l).1 !! t = Some tx → id tx = t.
Proof.
  revert t tx. induction l as [|e l IH] using rev_ind; intros t tx; [simpl; by rewrite lookup_empty|].
  rewrite replay_snoc. destruct (replay_entries utc l) as [m c]. simpl in IH.
  destruct e as [t' ts|t' op|t' ts|t' ts|ts]; simpl.
  - rewrite lookup_insert. case_decide; [by intros [= <-]|apply IH].
  - destruct (m !! t') as [tx'|] eqn:E; [|apply IH]. simpl. rewrite lookup_insert.
    case_decide; [|apply IH]. intros [= <-]. simpl. subst t'. by apply IH.
  - destruct (m !! t'); [|apply IH]. simpl. rewrite lookup_delete. case_decide; [done|apply IH].
  - rewrite lookup_delete. case_decide; [done|apply IH].
  - apply IH.
Qed.

(** An entry of another transaction changes nothing of this one. *)
Lemma replay_other l e t :
  tx_id e ≠ Some t →
  (replay_entries utc (l ++ [e])).1 !! t = (replay_entries utc l).1 !! t ∧
  recovered t (l ++ [e]) = recovered t l.
Proof.
  intros Hne. unfold recovered. rewrite replay_snoc.
  pose proof (replay_ids l) as Hid. destruct (replay_entries utc l) as [m c]. simpl in Hid.
  destruct e as [t' ts|t' op|t' ts|t' ts|ts]; simpl in *.
  - rewrite lookup_insert_ne by congruence. done.
  - destruct (m !! t'); simpl; [|done]. rewrite lookup_insert_ne by congruence. done.
  - destruct (m !! t') as [tx|] eqn:E; simpl; [|done]. rewrite lookup_delete_ne by congruence.
    rewrite filter_app, filter_cons_False, filter_nil, app_nil_r; [done|].
    simpl. rewrite (Hid _ _ E). congruence.
  - rewrite lookup_delete_ne by congruence. done.
  - done.
Qed.
(** An entry of this transaction acts on what is known of it alone. *)
Lemma replay_own l l' e t :
  tx_id e = Some t →
  (replay_entries utc l).1 !! t = (replay_entries utc l').1 !! t → recovered t l = recovered t l' →
  (replay_entries utc (l ++ [e])).1 !! t = (replay_entries utc (l' ++ [e])).1 !! t ∧
  recovered t (l ++ [e]) = recovered t (l' ++ [e]).
Proof.
  intros He Hm Hc. unfold recovered in *. rewrite !replay_snoc.
  destruct (replay_entries utc l) as [m c], (replay_entries utc l') as [m' c']. simpl in Hm, Hc.
  destruct e as [t' ts|t' op|t' ts|t' ts|ts]; simpl in *; simplify_eq.
  - rewrite !lookup_insert_eq. done.
  - rewrite <-Hm. destruct (m !! t) eqn:E; simpl; [by rewrite !lookup_insert_eq|]. by rewrite E.
  - rewrite <-Hm. destruct (m !! t) eqn:E; simpl; [|by rewrite E].
    rewrite !lookup_delete_eq, !filter_app. by rewrite Hc.
  - by rewrite !lookup_delete_eq.
Qed.

Lemma replay_projection l t :
  (replay_entries utc l).1 !! t = (replay_entries utc (tx_log t l)).1 !! t ∧
  recovered t l = recovered t (tx_log t l).
Proof.
  induction l as [|e l [IHm IHc]] using rev_ind; [done|].
  unfold tx_log in *. rewrite filter_app. destruct (decide (tx_id e = Some t)) as [He|He].
  - rewrite filter_cons_True, filter_nil by done. by apply replay_own.
  - rewrite filter_cons_False, filter_nil, app_nil_r by done.
    destruct (replay_other l e t He) as [-> ->]. done.
Qed.

Lemma replay_ops t ts ops :
  (replay_entries utc (WBegin t ts :: (WOperation t <$> ops))) =
  ({[t := mkTx t Active ReadCommitted ops ts None utc []]}, [] : list (Transaction.Transaction Num)).
Proof.
  induction ops as [|op ops IH] using rev_ind; [done|].
  rewrite fmap_app, app_comm_cons. cbn [fmap list_fmap]. rewrite replay_snoc, IH. simpl.
  rewrite lookup_singleton_eq. by rewrite insert_singleton_eq.
Qed.

(** ** Properties *)

(** C15: recovery is atomic per transaction, whatever else is interleaved in
    the log. When the entries of [t] are a begin, operations and a commit,
    exactly one transaction [t] is recovered, committed, with these operations
    in this order; when they are a begin and operations without a commit, or
    end in an abort, or there are none, no transaction [t] is recovered. *)
Theorem replay_atomic l t ts ts' ops :
  (tx_log t l = (WBegin t ts :: (WOperation t <$> ops)) ++ [WCommit t ts'] →
   recovered t l = [mkTx t Committed ReadCommitted ops ts None utc []]) ∧
  (tx_log t l = WBegin t ts :: (WOperation t <$> ops) → recovered t l = []) ∧
  (tx_log t l = (WBegin t ts :: (WOperation t <$> ops)) ++ [WAbort t ts'] → recovered t l = []) ∧
  (tx_log t l = [] → recovered t l = []).
Proof.
  destruct (replay_projection l t) as [_ ->]. unfold recovered.
  split_and!; intros ->; [|by rewrite replay_ops| |done]; rewrite replay_snoc, replay_ops; simpl.
  - rewrite lookup_singleton_eq. simpl. by rewrite filter_cons_True, filter_nil by done.
  - done.
Qed.

(** Recovery from a log in two parts: the second part starts from the
    transactions the first one left open. *)
Lemma replay_app_empty l1 l2 :
  (replay_entries utc l1).1 = ∅ →
  (replay_entries utc (l1 ++ l2)).2 = (replay_entries utc l1).2 ++ (replay_entries utc l2).2 ∧
  (replay_entries utc (l1 ++ l2)).1 = (replay_entries utc l2).1.
Proof.
  intros H1. induction l2 as [|e l2 [IHc IHm]] using rev_ind; [by rewrite !app_nil_r|].
  rewrite app_assoc, !replay_snoc.
  destruct (replay_entries utc (l1 ++ l2)) as [m c], (replay_entries utc l2) as [m2 c2].
  simpl in IHc, IHm. subst m c.
  destruct e as [t ts|t op|t ts|t ts|ts]; simpl; try done; destruct (m2 !! t); simpl; try done.
  by rewrite app_assoc.
Qed.
(** A transaction the log does not begin is not recovered. *)
Lemma replay_not_begun l t :
  (∀ ts, WBegin t ts ∉ l) → (replay_entries utc l).1 !! t = None ∧ recovered t l = [].
Proof.
  induction l as [|e l IH] using rev_ind; intros Hn; [done|].
  destruct IH as [IHm IHc]; [intros ts H; apply (Hn ts); set_solver|].
  destruct (decide (tx_id e = Some t)) as [He|He].
  2: { by destruct (replay_other l e t He) as [-> ->]. }
  unfold recovered in *. rewrite replay_snoc. destruct (replay_entries utc l) as [m c].
  simpl in *. destruct e as [t' ts|t' op|t' ts|t' ts|ts]; simpl in *; simplify_eq.
  - exfalso. apply (Hn ts). set_solver.
  - by rewrite IHm.
  - by rewrite IHm.
  - by rewrite lookup_delete_eq.
Qed.

Lemma last_checkpoint_app l1 ts l2 :
  Forall (λ e, is_checkpoint e = false) l2 →
  last_checkpoint_idx (l1 ++ WCheckpoint ts :: l2) = Some (length l1).
Proof.
  intros H2. assert (last_checkpoint_idx l2 = None) as E.
  { induction H2 as [|e l2 He _ IH]; simpl; [done|]. by rewrite IH, He. }
  induction l1 as [|e l1 IH]; simpl; [by rewrite E|]. by rewrite IH.
Qed.
Lemma read_lines_written n l : read_lines n (Line <$> l) = Ok l.
Proof. revert n. induction l as [|e l IH]; intros n; simpl; [done|]. by rewrite IH. Qed.

(** what truncation at the last checkpoint does to recovery. The entries
    after the checkpoint stay. If no transaction is open at the checkpoint,
    the full log recovers what the part before it recovers followed by what
    the truncated log recovers, so truncating forgets nothing that was not
    recovered before. But a transaction that is open at the checkpoint and
    commits after it is recovered from the full log and lost by the truncated
    one. *)
Theorem truncate_wal_recovery l1 ts l2 :
  Forall (λ e, is_checkpoint e = false) l2 →
  let file := Some (Line <$> (l1 ++ WCheckpoint ts :: l2)) in
  truncate_wal true file = (Ok tt, Some (Line <$> l2)) ∧
  ((replay_entries utc l1).1 = ∅ →
   ∃ before after, replay utc (Some (Line <$> l1)) = Ok before ∧
     replay utc (Some (Line <$> l2)) = Ok after ∧ replay utc file = Ok (before ++ after)) ∧
  (∀ t tx ts', (replay_entries utc l1).1 !! t = Some tx → tx_log t l2 = [WCommit t ts'] →
   recovered t (l1 ++ WCheckpoint ts :: l2) = recovered t l1 ++ [commit tx] ∧ recovered t l2 = []).
Proof.
  intros H2. cbn zeta. unfold truncate_wal, replay, read_all. rewrite !read_lines_written.
  rewrite last_checkpoint_app by done.
  assert ((replay_entries utc (l1 ++ [WCheckpoint ts])) = replay_entries utc l1) as Hc.
  { rewrite replay_snoc. by destruct (replay_entries utc l1). }
  replace (l1 ++ WCheckpoint ts :: l2) with ((l1 ++ [WCheckpoint ts]) ++ l2) by by rewrite <-app_assoc.
  split_and!.
  - do 3 f_equal. rewrite drop_app_length'; [done|]. rewrite length_app. simpl. lia.
  - intros Hempty. do 2 eexists. split; [done|]. split; [done|]. f_equal.
    rewrite (proj1 (replay_app_empty _ l2 (eq_trans (f_equal fst Hc) Hempty))). by rewrite Hc.
  - intros t tx ts' Htx Hlog. split.
    + rewrite (proj2 (replay_projection _ t)). unfold tx_log in *. rewrite !filter_app, Hlog.
      rewrite filter_cons_False, filter_nil, app_nil_r by done.
      unfold recovered at 1. rewrite replay_snoc.
      pose proof (replay_projection l1 t) as [Hm Hr]. unfold tx_log, recovered in Hm, Hr.
      rewrite Htx in Hm. unfold recovered. rewrite Hr.
      destruct (replay_entries utc (filter _ l1)) as [m c]. simpl in Hm. simpl. rewrite <-Hm. simpl.
      rewrite filter_app, filter_cons_True, filter_nil; [done|]. simpl. by eapply replay_ids.
    + apply replay_not_begun. intros ts'' Hin.
      assert (WBegin t ts'' ∈ tx_log t l2) as H by (apply list_elem_of_filter; done).
      rewrite Hlog in H. by apply list_elem_of_singleton in H.
Qed.

(** Recovery reads the whole log or nothing: it fails exactly when some
    line cannot be parsed, a last line cut short by a crash included. *)
Theorem replay_all_or_nothing (l : log Num) :
  is_ok (replay utc (Some l)) = false ↔ Garbled ∈ l.
Proof.
  unfold replay, read_all.
  assert (∀ n, is_ok (read_lines n l) = false ↔ Garbled ∈ l) as H.
  { induction l as [|x l IH]; intros n; simpl; [split; [done|by intros ?%elem_of_nil]|].
    rewrite elem_of_cons. destruct x as [e| |]; simpl.
    - rewrite <-(IH (n + 1)%N). destruct (read_lines (n + 1) l); simpl; naive_solver.
    - rewrite IH. naive_solver.
    - naive_solver. }
  rewrite <-(H 0%N). by destruct (read_lines 0 l).
Qed.
End Replay.

(** *** Concrete logs *)

Definition demo_op : Operation demo_number := Insert "db" "c" "k" Json.Null.
Lemma replay_atomic_witness :
  let l := [WBegin 1 1; WBegin 2 2; WOperation 1 demo_op; WAbort 2 5; WCommit 1 6]%N in
  recovered 0%Z 1%N l = [mkTx 1%N Committed ReadCommitted [demo_op] 1%N None 0%Z []].
Proof.
  refine (proj1 (replay_atomic 0%Z _ 1%N 1%N 6%N [demo_op]) _). reflexivity.
Defined.
Lemma truncate_wal_recovery_witness :
  let l1 := [WBegin 1 1; WOperation 1 demo_op]%N in
  let l2 := [WCommit 1 6]%N in
  truncate_wal true (Some (Line <$> (l1 ++ WCheckpoint 5%N :: l2))) = (Ok tt, Some (Line <$> l2)) ∧
  recovered 0%Z 1%N (l1 ++ WCheckpoint 5%N :: l2) =
    [mkTx 1%N Committed ReadCommitted [demo_op] 1%N None 0%Z []] ∧
  recovered 0%Z 1%N l2 = [].
Proof.
  destruct (truncate_wal_recovery 0%Z [WBegin 1 1; WOperation 1 demo_op]%N 5%N [WCommit 1 6]%N)
    as (H1 & _ & H3); [repeat constructor|].
  split; [exact H1|].
  refine (H3 1%N (mkTx 1%N Active ReadCommitted [demo_op] 1%N None 0%Z []) 6%N _ _); reflexivity.
Defined.

End Wal.
