(* ===== verification/Codec.v ===== *)
(** * Index keys (src/storage/codec.rs)

    The byte encoding of a value whose byte order is the order of the index.
    Bytes are [string]s; an [f64] is its 64 bits, an [N], and [f64_num] is the
    number those bits stand for in units of [2^-1074], the IEEE 754 reading, in
    which every finite number is an integer. The number conversions and the
    text of compound values belong to serde_json: the class [JsonText]. *)

From S2P Require Import Prelude Json.
Import Json.

(** What the codec uses of serde_json: [as_f64], [from_f64], [to_string] and
    [from_slice]. What its documentation says of them, that numbers are finite
    and that the text of a value parses back, is a hypothesis of the theorems
    that need it. *)
Class JsonText (Num : Type) `{!JsonNumber Num} := {
  num_as_f64 : Num → option N;
  num_of_f64 : N → option Num;
  json_to_string : Value Num → string;
  json_from_slice : string → option (Value Num);
}.

Module Codec.

(** ** Floats *)

Definition sign_bit : N := 2 ^ 63.
Definition is_negative (bits : N) : bool := negb (N.land bits sign_bit =? 0)%N.
Definition f64_finite (bits : N) : bool :=
  (bits <? u64_modulus)%N && ((bits mod sign_bit) / 2 ^ 52 <? 2047)%N.
(** The magnitude of the exponent and fraction bits, and the signed number. *)
Definition f64_mag (rest : N) : N :=
  let e := (rest / 2 ^ 52)%N in
  let f := (rest mod 2 ^ 52)%N in
  if (e =? 0)%N then f else ((2 ^ 52 + f) * 2 ^ (e - 1))%N.
Definition f64_num (bits : N) : Z :=
  let m := Z.of_N (f64_mag (bits mod sign_bit)) in
  if is_negative bits then (- m)%Z else m.

(** [to_be_bytes], [from_be_bytes] *)
Fixpoint be_bytes (k : nat) (n : N) : string :=
  match k with
  | 0 => ""
  | S k' => String (ascii_of_N ((n / 256 ^ N.of_nat k') mod 256)) (be_bytes k' n)
  end.
Fixpoint from_be_bytes (acc : N) (s : string) : N :=
  match s with
  | EmptyString => acc
  | String c s' => from_be_bytes (acc * 256 + N_of_ascii c) s'
  end.

Definition encode_bits (bits : N) : N :=
  if is_negative bits then N.lnot bits 64 else N.lxor bits sign_bit.
Definition encode_f64 (bits : N) : string := be_bytes 8 (encode_bits bits).
Definition decode_bits (bits : N) : N :=
  if is_negative bits then N.lxor bits sign_bit else N.lnot bits 64.
Definition decode_f64 (arr : string) : N := decode_bits (from_be_bytes 0 arr).

(** ** UTF-8

    [String::from_utf8]: the well-formed byte sequences. *)

Definition in_range (lo hi : N) (c : ascii) : bool :=
  (lo <=? N_of_ascii c)%N && (N_of_ascii c <=? hi)%N.
Definition continuation (c : ascii) : bool := in_range 128 191 c.
Fixpoint utf8_valid (s : string) : bool :=
  match s with
  | EmptyString => true
  | String a s1 =>
      if in_range 0 127 a then utf8_valid s1
      else
        match s1 with
        | EmptyString => false
        | String b s2 =>
            if in_range 194 223 a then continuation b && utf8_valid s2
            else
              match s2 with
              | EmptyString => false
              | String c s3 =>
                  if in_range 224 239 a then
                    in_range (if (N_of_ascii a =? 224)%N then 160 else 128)
                             (if (N_of_ascii a =? 237)%N then 159 else 191) b &&
                    continuation c && utf8_valid s3
                  else
                    match s3 with
                    | EmptyString => false
                    | String d s4 =>
                        in_range 240 244 a &&
                        in_range (if (N_of_ascii a =? 240)%N then 144 else 128)
                                 (if (N_of_ascii a =? 244)%N then 143 else 191) b &&
                        continuation c && continuation d && utf8_valid s4
                    end
              end
        end
  end.

(** ** Keys *)

Definition byte (n : N) : ascii := ascii_of_N n.
Definition push (s : string) (n : N) : string := s +:+ String (byte n) "".

Section Keys.
Context {Num : Type} `{!JsonNumber Num} `{!JsonText Num}.

Definition encode_key (value : Value Num) : string :=
  match value with
  | Null => String (byte 1) ""
  | Bool false => String (byte 2) (String (byte 0) "")
  | Bool true => String (byte 2) (String (byte 1) "")
  | Number n => String (byte 3) (encode_f64 (default 0%N (num_as_f64 n)))
  | JString s => String (byte 4) (push s 0)
  | Array _ | Object _ => String (byte 5) (push (json_to_string value) 0)
  end.

(** The bytes after the tag, without a last zero. *)
Definition ends_with_zero (s : string) : bool :=
  match String.length s with
  | 0 => false
  | S n => match String.get n s with Some c => Ascii.eqb c (byte 0) | None => false end
  end.
Definition content (rest : string) : string :=
  if ends_with_zero rest then String.substring 0 (String.length rest - 1) rest else rest.

Definition decode_key (bytes : string) : option (Value Num) :=
  match bytes with
  | EmptyString => None
  | String tag rest =>
      match N_of_ascii tag with
      | 1%N => Some Null
      | 2%N => match rest with
               | EmptyString => None
               | String b _ => Some (Bool (Ascii.eqb b (byte 1)))
               end
      | 3%N =>
          if (String.length rest <? 8)%nat then None
          else
            let f := decode_f64 (String.substring 0 8 rest) in
            Some (match num_of_f64 f with Some n => Number n | None => Null end)
      | 4%N => if utf8_valid (content rest) then Some (JString (content rest)) else None
      | 5%N => json_from_slice (content rest)
      | _ => None
      end
  end.
End Keys.


(** ** Bytes *)

Lemma pow256_succ k : (256 ^ N.of_nat (S k) = 256 * 256 ^ N.of_nat k)%N.
Proof. rewrite Nat2N.inj_succ, N.pow_succ_r'. done. Qed.
Lemma pow256_pos k : (0 < 256 ^ N.of_nat k)%N.
Proof. apply N.neq_0_lt_0, N.pow_nonzero. done. Qed.
Lemma ascii_cmp_N a b :
  (a < 256)%N → (b < 256)%N → Ascii.compare (ascii_of_N a) (ascii_of_N b) = N.compare a b.
Proof. intros Ha Hb. unfold Ascii.compare. by rewrite !N_ascii_embedding. Qed.
Lemma be_bytes_mod k n : be_bytes k (n mod 256 ^ N.of_nat k) = be_bytes k n.
Proof.
  assert (∀ j k n, (j ≤ k)%nat → be_bytes j (n mod 256 ^ N.of_nat k) = be_bytes j n) as H;
    [|by apply H].
  clear. induction j as [|j IH]; intros k n Hj; [done|]. cbn [be_bytes].
  rewrite IH by lia. f_equal. f_equal.
  replace (256 ^ N.of_nat k)%N with (256 ^ N.of_nat j * (256 * 256 ^ N.of_nat (k - S j)))%N.
  2: { rewrite <-pow256_succ, <-N.pow_add_r. f_equal. lia. }
  pose proof (pow256_pos j). pose proof (pow256_pos (k - S j)).
  rewrite N.Div0.mod_mul_r, N.mul_comm, N.div_add by lia.
  rewrite (N.div_small (n mod _)) by (apply N.mod_lt; lia). rewrite N.add_0_l.
  rewrite N.Div0.mod_mul_r, N.mul_comm, N.Div0.mod_add. by rewrite N.Div0.mod_mod.
Qed.
Lemma be_bytes_length k n : String.length (be_bytes k n) = k.
Proof. induction k as [|k IH]; simpl; [done|]. by rewrite IH. Qed.

(** The byte order of big-endian words is the order of the words. *)
Lemma be_bytes_cmp k a b :
  (a < 256 ^ N.of_nat k)%N → (b < 256 ^ N.of_nat k)%N →
  str_cmp (be_bytes k a) (be_bytes k b) = N.compare a b.
Proof.
  revert a b. induction k as [|k IH]; intros a b Ha Hb.
  { simpl in *. assert (a = 0%N) as -> by lia. by assert (b = 0%N) as -> by lia. }
  rewrite pow256_succ in Ha, Hb. pose proof (pow256_pos k) as Hp.
  cbn [be_bytes str_cmp]. rewrite <-(be_bytes_mod k a), <-(be_bytes_mod k b).
  set (P := (256 ^ N.of_nat k)%N) in *.
  assert (a / P < 256)%N by (apply N.Div0.div_lt_upper_bound; lia).
  assert (b / P < 256)%N by (apply N.Div0.div_lt_upper_bound; lia).
  rewrite !(N.mod_small (_ / P)) by done.
  rewrite ascii_cmp_N by done. rewrite IH by (apply N.mod_lt; lia).
  pose proof (N.div_mod' a P) as Ea. pose proof (N.div_mod' b P) as Eb.
  pose proof (N.mod_lt a P ltac:(lia)). pose proof (N.mod_lt b P ltac:(lia)).
  set (qa := (a / P)%N) in *. set (ra := (a mod P)%N) in *. clearbody qa ra.
  set (qb := (b / P)%N) in *. set (rb := (b mod P)%N) in *. clearbody qb rb. subst a b.
  destruct (N.compare_spec qa qb) as [->|E|E]; symmetry.
  - destruct (N.compare_spec ra rb) as [->|E'|E'].
    + apply N.compare_refl.
    + apply N.compare_lt_iff. lia.
    + apply N.compare_gt_iff. lia.
  - apply N.compare_lt_iff. nia.
  - apply N.compare_gt_iff. nia.
Qed.
Lemma from_be_bytes_acc k n acc :
  (n < 256 ^ N.of_nat k)%N →
  from_be_bytes acc (be_bytes k n) = (acc * 256 ^ N.of_nat k + n)%N.
Proof.
  revert n acc. induction k as [|k IH]; intros n acc Hn.
  { simpl in *. lia. }
  rewrite pow256_succ in *. pose proof (pow256_pos k) as Hp. cbn [be_bytes from_be_bytes].
  rewrite <-(be_bytes_mod k n), IH by (apply N.mod_lt; lia).
  set (P := (256 ^ N.of_nat k)%N) in *.
  assert (n / P < 256)%N by (apply N.Div0.div_lt_upper_bound; lia).
  rewrite N.mod_small, N_ascii_embedding by done.
  pose proof (N.div_mod' n P). nia.
Qed.

(** ** The bits of a float *)

Lemma is_negative_spec bits : (bits < u64_modulus)%N → is_negative bits = (sign_bit <=? bits)%N.
Proof.
  intros Hb. unfold is_negative, sign_bit, u64_modulus in *.
  assert (N.land bits (2 ^ 63) = if (2 ^ 63 <=? bits)%N then 2 ^ 63 else 0)%N as E.
  { apply N.bits_inj. intros i. rewrite N.land_spec.
    destruct (N.eq_dec i 63%N) as [->|Hi].
    - rewrite N.pow2_bits_true, andb_true_r. rewrite N.testbit_eqb.
      destruct (N.leb_spec (2 ^ 63) bits) as [H|H].
      + assert (bits / 2 ^ 63 = 1)%N as ->; [|by rewrite N.pow2_bits_true].
        symmetry. apply (N.div_unique _ _ _ (bits - 2 ^ 63)); lia.
      + rewrite (N.div_small bits) by done. done.
    - rewrite N.pow2_bits_false, andb_false_r by done.
      destruct (2 ^ 63 <=? bits)%N; [by rewrite N.pow2_bits_false|done]. }
  rewrite E. by destruct (2 ^ 63 <=? bits)%N.
Qed.

Lemma lnot_64 bits : (bits < u64_modulus)%N → N.lnot bits 64 = (u64_modulus - 1 - bits)%N.
Proof.
  intros Hb. destruct (N.eq_dec bits 0%N) as [->|Hz]; [done|].
  rewrite N.lnot_sub_low; [done|]. apply N.log2_lt_pow2; [lia|done].
Qed.
Lemma lxor_add_cancel x s : N.land x s = 0%N → N.lxor (x + s) s = x.
Proof.
  intros H. rewrite (N.add_nocarry_lxor _ _ H).
  by rewrite N.lxor_assoc, N.lxor_nilpotent, N.lxor_0_r.
Qed.
Lemma land_sign_low x : (x < sign_bit)%N → N.land x sign_bit = 0%N.
Proof.
  intros H. assert (x < u64_modulus)%N as Hx.
  { eapply N.lt_trans; [exact H|]. reflexivity. }
  pose proof (is_negative_spec x Hx) as Hn. unfold is_negative in Hn.
  rewrite (proj2 (N.leb_gt _ _) H) in Hn. by apply negb_false_iff, N.eqb_eq in Hn.
Qed.
Lemma lxor_sign_low x : (x < sign_bit)%N → N.lxor x sign_bit = (x + sign_bit)%N.
Proof. intros H. symmetry. apply N.add_nocarry_lxor. by apply land_sign_low. Qed.
Lemma lxor_sign_high x : (x < sign_bit)%N → N.lxor (x + sign_bit) sign_bit = x.
Proof. intros H. apply lxor_add_cancel. by apply land_sign_low. Qed.
Lemma u64_two_halves : u64_modulus = (sign_bit + sign_bit)%N.
Proof. reflexivity. Qed.
Lemma sign_cases bits :
  (bits < u64_modulus)%N →
  ∃ x, (x < sign_bit)%N ∧
    (bits = x ∧ (sign_bit <=? bits)%N = false ∨
     bits = (x + sign_bit)%N ∧ (sign_bit <=? bits)%N = true).
Proof.
  rewrite u64_two_halves. generalize sign_bit. intros s Hb.
  destruct (N.leb_spec s bits); [exists (bits - s)%N|exists bits]; lia.
Qed.
Lemma lxor_sign bits :
  (bits < u64_modulus)%N →
  N.lxor bits sign_bit =
  if (sign_bit <=? bits)%N then (bits - sign_bit)%N else (bits + sign_bit)%N.
Proof.
  intros Hb. destruct (sign_cases bits Hb) as (x & Hx & [[-> ->]|[-> ->]]).
  - by apply lxor_sign_low.
  - rewrite lxor_sign_high by done. by rewrite N.add_sub.
Qed.

Lemma encode_bits_spec bits :
  (bits < u64_modulus)%N →
  encode_bits bits =
  if (sign_bit <=? bits)%N then (u64_modulus - 1 - bits)%N else (bits + sign_bit)%N.
Proof.
  intros Hb. unfold encode_bits. rewrite is_negative_spec, lnot_64, lxor_sign by done.
  by destruct (sign_bit <=? bits)%N.
Qed.
Lemma encode_bits_lt bits : (bits < u64_modulus)%N → (encode_bits bits < u64_modulus)%N.
Proof.
  intros Hb. rewrite encode_bits_spec by done. rewrite u64_two_halves in *.
  generalize dependent sign_bit. intros s Hb. destruct (N.leb_spec s bits); lia.
Qed.
Lemma decode_encode_bits bits : (bits < u64_modulus)%N → decode_bits (encode_bits bits) = bits.
Proof.
  intros Hb. pose proof (encode_bits_lt bits Hb) as Hlt. unfold decode_bits.
  rewrite is_negative_spec, lnot_64, lxor_sign by done. rewrite encode_bits_spec in * by done.
  rewrite u64_two_halves in *. clear Hlt. generalize dependent sign_bit. intros s Hb.
  destruct (N.leb_spec s bits).
  - rewrite (proj2 (N.leb_gt _ _)) by lia. lia.
  - rewrite (proj2 (N.leb_le _ _)) by lia. lia.
Qed.

(** The magnitude grows with the bits. *)
Lemma f64_mag_lt a b : (a < b)%N → (f64_mag a < f64_mag b)%N.
Proof.
  intros Hab. unfold f64_mag. pose proof (N.div_mod' a (2 ^ 52)) as Ea.
  pose proof (N.div_mod' b (2 ^ 52)) as Eb.
  pose proof (N.mod_lt a (2 ^ 52) ltac:(done)) as Ha. pose proof (N.mod_lt b (2 ^ 52) ltac:(done)) as Hb.
  set (ea := (a / 2 ^ 52)%N) in *. set (eb := (b / 2 ^ 52)%N) in *.
  set (fa := (a mod 2 ^ 52)%N) in *. set (fb := (b mod 2 ^ 52)%N) in *.
  assert (ea < eb ∨ ea = eb ∧ fa < fb)%N as [He|[He Hf]] by lia.
  - assert (eb ≠ 0)%N as Heb by lia. rewrite (proj2 (N.eqb_neq eb 0%N) Heb).
    assert ((if (ea =? 0)%N then fa else (2 ^ 52 + fa) * 2 ^ (ea - 1)) < 2 ^ 52 * 2 ^ ea)%N as Hlt.
    { destruct (N.eqb_spec ea 0%N) as [->|Hea]; [lia|].
      replace (2 ^ ea)%N with (2 * 2 ^ (ea - 1))%N.
      2: { rewrite <-N.pow_succ_r'. f_equal. lia. }
      pose proof (N.pow_nonzero 2 (ea - 1) ltac:(done)). nia. }
    assert (2 ^ ea <= 2 ^ (eb - 1))%N as Hpow by (apply N.pow_le_mono_r; lia). nia.
  - rewrite He. destruct (N.eqb_spec eb 0%N); [done|].
    pose proof (N.pow_nonzero 2 (eb - 1) ltac:(done)). nia.
Qed.
Lemma f64_mag_cmp a b : N.compare (f64_mag a) (f64_mag b) = N.compare a b.
Proof.
  destruct (N.compare_spec a b) as [->|H|H].
  - apply N.compare_refl.
  - apply N.compare_lt_iff. by apply f64_mag_lt.
  - apply N.compare_gt_iff. by apply f64_mag_lt.
Qed.


(** The order of the keys of two floats: the order of the numbers, and minus
    zero before zero. *)
Definition f64_cmp : N → N → comparison :=
  cmp_then (cmp_by f64_num Z.compare) (cmp_by (λ bits, negb (is_negative bits)) bool_cmp).

Lemma f64_num_low x : (x < sign_bit)%N → f64_num x = Z.of_N (f64_mag x) ∧ is_negative x = false.
Proof.
  intros Hx. unfold f64_num. rewrite N.mod_small by done.
  assert (is_negative x = false) as ->; [|done].
  unfold is_negative. by rewrite land_sign_low.
Qed.
Lemma f64_num_high x :
  (x < sign_bit)%N →
  f64_num (x + sign_bit) = (- Z.of_N (f64_mag x))%Z ∧ is_negative (x + sign_bit) = true.
Proof.
  intros Hx. assert (is_negative (x + sign_bit) = true) as Hn.
  { rewrite is_negative_spec by (rewrite u64_two_halves; lia). apply N.leb_le. lia. }
  unfold f64_num. rewrite Hn. split; [|done].
  replace (x + sign_bit)%N with (x + 1 * sign_bit)%N by lia.
  rewrite N.Div0.mod_add, N.mod_small by done. done.
Qed.

Lemma encode_f64_cmp a b :
  (a < u64_modulus)%N → (b < u64_modulus)%N →
  str_cmp (encode_f64 a) (encode_f64 b) = f64_cmp a b.
Proof.
  intros Ha Hb. unfold encode_f64.
  rewrite be_bytes_cmp by (by apply encode_bits_lt). rewrite !encode_bits_spec by done.
  destruct (sign_cases a Ha) as (x & Hx & Ca), (sign_cases b Hb) as (y & Hy & Cb).
  pose proof (f64_mag_cmp x y) as Hm. pose proof (f64_mag_cmp y x) as Hm'.
  unfold f64_cmp, cmp_then, cmp_by.
  destruct (f64_num_low x Hx) as [Lx Nx], (f64_num_low y Hy) as [Ly Ny],
    (f64_num_high x Hx) as [Gx Mx], (f64_num_high y Hy) as [Gy My].
  rewrite u64_two_halves. clear Ha Hb.
  destruct Ca as [[-> ->]|[-> ->]], Cb as [[-> ->]|[-> ->]];
    rewrite ?Lx, ?Ly, ?Gx, ?Gy, ?Nx, ?Ny, ?Mx, ?My; cbn [negb bool_cmp];
    clear Lx Ly Gx Gy Nx Ny Mx My; revert Hx Hy Hm Hm'; generalize (f64_mag x) (f64_mag y) sign_bit;
    intros mx my s Hx Hy Hm Hm'.
  - destruct (Z.compare_spec (Z.of_N mx) (Z.of_N my)); destruct (N.compare_spec mx my);
      destruct (N.compare_spec x y); try lia; try done;
      [apply N.compare_eq_iff|apply N.compare_lt_iff|apply N.compare_gt_iff]; lia.
  - destruct (Z.compare_spec (Z.of_N mx) (- Z.of_N my)); try lia; apply N.compare_gt_iff; lia.
  - destruct (Z.compare_spec (- Z.of_N mx) (Z.of_N my)); try lia; apply N.compare_lt_iff; lia.
  - destruct (Z.compare_spec (- Z.of_N mx) (- Z.of_N my)); destruct (N.compare_spec mx my);
      destruct (N.compare_spec x y); try lia; try done;
      [apply N.compare_eq_iff|apply N.compare_lt_iff|apply N.compare_gt_iff]; lia.
Qed.

(** Appending the terminator keeps the order of strings. *)
Lemma push_cmp s t : str_cmp (push s 0) (push t 0) = str_cmp s t.
Proof.
  unfold push. revert t. induction s as [|a s IH]; intros [|b t].
  - done.
  - change ("" +:+ ?x) with x. change (String b t +:+ ?x) with (String b (t +:+ x)).
    cbn [str_cmp]. unfold byte, Ascii.compare. rewrite N_ascii_embedding by done.
    destruct (N.compare_spec 0 (N_of_ascii b)); [by destruct t|done|lia].
  - change ("" +:+ ?x) with x. change (String a s +:+ ?x) with (String a (s +:+ x)).
    cbn [str_cmp]. unfold byte, Ascii.compare. rewrite N_ascii_embedding by done.
    destruct (N.compare_spec (N_of_ascii a) 0); [by destruct s|lia|done].
  - change (String b t +:+ ?x) with (String b (t +:+ x)).
    change (String a s +:+ ?x) with (String a (s +:+ x)).
    cbn [str_cmp]. by rewrite IH.
Qed.
Lemma push_length s n : String.length (push s n) = S (String.length s).
Proof. unfold push. rewrite str_length_app. simpl. lia. Qed.
Lemma content_push s : content (push s 0) = s.
Proof.
  assert (ends_with_zero (push s 0) = true) as E.
  { unfold ends_with_zero. rewrite push_length.
    assert (String.get (String.length s) (push s 0) = Some (byte 0)) as ->; [|done].
    induction s as [|a s IH]; [done|]. exact IH. }
  unfold content. rewrite E, push_length. simpl. rewrite Nat.sub_0_r. clear E.
  induction s as [|a s IH]; [done|]. simpl. f_equal. exact IH.
Qed.

(** ** Properties *)

Section Props.
Context {Num : Type} `{!JsonNumber Num} `{!JsonText Num}.

(** The order the codec promises: by type, and within a type by value;
    compound values by their text. *)
Definition type_rank (v : Value Num) : N :=
  match v with
  | Null => 1
  | Bool _ => 2
  | Number _ => 3
  | JString _ => 4
  | Array _ | Object _ => 5
  end.
Definition key_cmp (v w : Value Num) : comparison :=
  match v, w with
  | Bool a, Bool b => bool_cmp a b
  | Number a, Number b => f64_cmp (default 0%N (num_as_f64 a)) (default 0%N (num_as_f64 b))
  | JString s, JString t => str_cmp s t
  | _, _ =>
      match N.compare (type_rank v) (type_rank w) with
      | Eq => match v with Null => Eq | _ => str_cmp (json_to_string v) (json_to_string w) end
      | o => o
      end
  end.

(** C30: the byte order of the keys is the order of the values: null, then
    false, true, then the numbers by value (minus zero before zero), then the
    strings in byte order, also when one continues the other or contains zero
    bytes, then arrays and objects by their text. *)
Theorem key_order (v w : Value Num) :
  (∀ n b, num_as_f64 n = Some b → f64_finite b = true) →
  str_cmp (encode_key v) (encode_key w) = key_cmp v w.
Proof.
  intros Hfin.
  assert (∀ n, default 0%N (num_as_f64 n) < u64_modulus)%N as Hlt.
  { intros n. destruct (num_as_f64 n) as [b|] eqn:E; [|done]. apply Hfin in E.
    unfold f64_finite in E. apply andb_true_iff in E as [E _]. by apply N.ltb_lt in E. }
  destruct v as [|[]|n|s|l|m], w as [|[]|n'|s'|l'|m']; try reflexivity; unfold encode_key, key_cmp;
    cbn [str_cmp]; rewrite (cmp_refl Ascii.compare); cbn [type_rank N.compare Pos.compare Pos.compare_cont];
    try apply push_cmp.
  by apply encode_f64_cmp.
Qed.

(** A number's key is its bits: equal keys are equal bits. The two zeros
    are one number with two keys, and the only such pair. *)
Theorem number_keys_distinguish_zeros a b :
  f64_finite a = true → f64_finite b = true →
  (encode_f64 a = encode_f64 b ↔ a = b) ∧
  (f64_num a = f64_num b ↔ a = b ∨ f64_num a = 0%Z ∧ f64_num b = 0%Z) ∧
  f64_num 0 = f64_num sign_bit ∧ encode_f64 0 ≠ encode_f64 sign_bit.
Proof.
  intros Ha Hb. apply andb_true_iff in Ha as [Ha%N.ltb_lt _], Hb as [Hb%N.ltb_lt _].
  split_and!.
  - split; [|by intros ->]. intros E.
    assert (decode_f64 (encode_f64 a) = decode_f64 (encode_f64 b)) as H by by rewrite E.
    unfold decode_f64, encode_f64 in H.
    rewrite !from_be_bytes_acc in H by by apply encode_bits_lt.
    rewrite !N.mul_0_l, !N.add_0_l, !decode_encode_bits in H; done.
  - split; [|by intros [->|[-> ->]]]. intros E.
    destruct (sign_cases a Ha) as (x & Hx & Ca), (sign_cases b Hb) as (y & Hy & Cb).
    pose proof (f64_mag_cmp x y) as Hm.
    destruct (f64_num_low x Hx) as [Lx _], (f64_num_low y Hy) as [Ly _],
      (f64_num_high x Hx) as [Gx _], (f64_num_high y Hy) as [Gy _].
    assert (f64_mag x = f64_mag y → x = y) as Hinj.
    { intros E'. rewrite E', N.compare_refl in Hm. by apply N.compare_eq_iff. }
    destruct Ca as [[-> _]|[-> _]], Cb as [[-> _]|[-> _]]; rewrite ?Lx, ?Ly, ?Gx, ?Gy in *;
      try (left; (rewrite Hinj by lia; done)); right; lia.
  - done.
  - by vm_compute.
Qed.

(** decoding a key gives the value back: null, booleans, strings, and
    compound values when their text parses back; a number comes back as the
    float it was indexed as. *)
Theorem key_roundtrip (v : Value Num) :
  (∀ n b, num_as_f64 n = Some b → f64_finite b = true) →
  match v with
  | JString s => utf8_valid s = true
  | Array _ | Object _ => json_from_slice (json_to_string v) = Some v
  | _ => True
  end →
  decode_key (encode_key v) =
  match v with
  | Number n =>
      Some (match num_of_f64 (default 0%N (num_as_f64 n)) with Some f => Number f | None => Null end)
  | _ => Some v
  end.
Proof.
  intros Hfin. destruct v as [|[]|n|s|l|m]; intros H; try reflexivity; unfold encode_key, decode_key.
  - assert (default 0%N (num_as_f64 n) < u64_modulus)%N as Hlt.
    { destruct (num_as_f64 n) as [b|] eqn:E; [|done]. apply Hfin in E.
      apply andb_true_iff in E as [E _]. by apply N.ltb_lt in E. }
    change (N_of_ascii (byte 3)) with 3%N. cbv iota.
    unfold encode_f64. rewrite be_bytes_length. change (8 <? 8) with false. cbv iota.
    rewrite <-(be_bytes_length 8 (encode_bits (default 0%N (num_as_f64 n)))) at 1.
    rewrite substring_all. unfold decode_f64. rewrite from_be_bytes_acc by by apply encode_bits_lt.
    by rewrite N.mul_0_l, N.add_0_l, decode_encode_bits.
  - change (N_of_ascii (byte 4)) with 4%N. cbv iota. by rewrite content_push, H.
  - change (N_of_ascii (byte 5)) with 5%N. cbv iota. by rewrite content_push.
  - change (N_of_ascii (byte 5)) with 5%N. cbv iota. by rewrite content_push.
Qed.
End Props.

(** *** Concrete keys *)

(** A number type whose values are floats given by their bits. *)
#[export] Instance demo_text : JsonText demo_number := {
  num_as_f64 n := match n with Float b => if f64_finite b then Some b else None | _ => None end;
  num_of_f64 b := if f64_finite b then Some (Float b) else None;
  json_to_string _ := "[]";
  json_from_slice s := if String.eqb s "[]" then Some (Array []) else None;
}.
Lemma demo_finite n b : num_as_f64 n = Some b → f64_finite b = true.
Proof. destruct n; simpl; try done. destruct (f64_finite bits) eqn:E; [|done]. by intros [= <-]. Qed.
Lemma key_order_witness :
  str_cmp (encode_key (Number (Float 4607182418800017408))) (encode_key (JString "a")) = Lt ∧
  str_cmp (encode_key (JString "a")) (encode_key (JString "ab")) = Lt.
Proof. split; rewrite key_order by exact demo_finite; reflexivity. Defined.
Lemma number_keys_distinguish_zeros_witness :
  encode_f64 0 = encode_f64 0 ∧ f64_num 0 = f64_num sign_bit ∧ encode_f64 0 ≠ encode_f64 sign_bit.
Proof.
  destruct (number_keys_distinguish_zeros 0%N sign_bit) as (_ & _ & H1 & H2); [reflexivity..|].
  split; [reflexivity|]. by split.
Defined.
Lemma key_roundtrip_witness :
  decode_key (encode_key (JString "key" : Value demo_number)) = Some (JString "key") ∧
  decode_key (encode_key (Array [] : Value demo_number)) = Some (Array []).
Proof.
  split; [apply (key_roundtrip (JString "key"))|apply (key_roundtrip (Array []))];
    solve [exact demo_finite|reflexivity].
Defined.

End Codec.
