(* ===== verification/Kv.v ===== *)
(** * The ordered key-value store

    RocksDB is a library. What the source uses of it is the class [KvStore]:
    reading a key, an atomic batch of writes, and the iterations from a key in
    both directions, with [KvLaws] stating its documented behaviour through the sorted
    contents of the store ([kv_view]). [map_store] is an instance: a sorted
    association list. *)

From S2P Require Import Prelude Json.

(** The entries of a [WriteBatch]. *)
Inductive write_op := Put (k v : string) | Del (k : string).

Class KvStore (DB : Type) := {
  kv_get : string → DB → option string;
  kv_write : list write_op → DB → option DB;   (* [None]: an I/O error *)
  kv_from : string → DB → list (string * string);    (* forward, from a key *)
  kv_back : string → DB → list (string * string);    (* backward, from a key *)
  kv_view : DB → list (string * string);
}.

(** The contents after a batch of writes. *)
Definition write_one (view : list (string * string)) (op : write_op) : list (string * string) :=
  match op with
  | Put k v => OMap.insert k v view
  | Del k => OMap.remove k view
  end.
Definition write_view (batch : list write_op) (view : list (string * string))
    : list (string * string) := foldl write_one view batch.
(** A batch of puts. *)
Definition puts (l : list (string * string)) : list write_op := (λ p, Put p.1 p.2) <$> l.

Class KvLaws (DB : Type) `{!KvStore DB} : Prop := {
  kv_view_wf db : OMap.wf (kv_view db);
  kv_get_view k db : kv_get k db = OMap.get k (kv_view db);
  kv_write_view batch db db' : kv_write batch db = Some db' →
    kv_view db' = write_view batch (kv_view db);
  kv_from_view k db : kv_from k db = filter (λ p, str_leb k p.1 = true) (kv_view db);
  kv_back_view k db : kv_back k db = reverse (filter (λ p, str_leb p.1 k = true) (kv_view db));
}.
(** A store whose writes succeed. *)
Class KvReliable (DB : Type) `{!KvStore DB} : Prop :=
  kv_write_ok batch db : is_Some (kv_write batch db).

(** ** An instance *)

Definition map_store : Type := { l : list (string * string) | OMap.wf l }.
Lemma write_view_wf batch view : OMap.wf view → OMap.wf (write_view batch view).
Proof.
  unfold write_view. revert view. induction batch as [|op batch IH]; intros view H; [done|].
  apply IH. destruct op; [by apply OMap.wf_insert|by apply OMap.wf_remove].
Qed.
Definition empty_store : map_store := exist _ [] OMap.wf_nil.
#[export] Instance map_store_ops : KvStore map_store := {
  kv_get k db := OMap.get k (proj1_sig db);
  kv_write batch db :=
    Some (exist _ (write_view batch (proj1_sig db)) (write_view_wf batch _ (proj2_sig db)));
  kv_from k db := filter (λ p, str_leb k p.1 = true) (proj1_sig db);
  kv_back k db := reverse (filter (λ p, str_leb p.1 k = true) (proj1_sig db));
  kv_view db := proj1_sig db;
}.
#[export] Instance map_store_laws : KvLaws map_store.
Proof. split; try done; [by intros []|]. by intros batch db db' [= <-]. Qed.
#[export] Instance map_store_reliable : KvReliable map_store.
Proof. intros batch db. by eexists. Qed.

(** ** Writing in key order *)

(** A key that belongs between two parts of the contents. *)
Lemma insert_between {A} k (v : A) l1 l2 :
  (∀ k', k' ∈ l1.*1 → str_cmp k k' = Gt) → (∀ k', k' ∈ l2.*1 → str_cmp k k' = Lt) →
  OMap.insert k v (l1 ++ l2) = l1 ++ (k, v) :: l2.
Proof.
  intros H1 H2. induction l1 as [|[k1 v1] l1 IH]; cbn [app].
  - destruct l2 as [|[k2 v2] l2]; [done|]. cbn [OMap.insert]. by rewrite H2 by (simpl; by left).
  - cbn [OMap.insert]. rewrite H1 by (simpl; by left).
    f_equal. apply IH. intros k' Hk'. apply H1. simpl. by right.
Qed.
(** A key that ends the contents already. *)
Lemma insert_last {A} k (v w : A) l :
  (∀ k', k' ∈ l.*1 → str_cmp k k' = Gt) → OMap.insert k v (l ++ [(k, w)]) = l ++ [(k, v)].
Proof.
  intros H. induction l as [|[k1 v1] l IH]; cbn [app OMap.insert].
  - by rewrite str_cmp_refl.
  - rewrite H by (simpl; by left). f_equal. apply IH. intros k' Hk'. apply H. simpl. by right.
Qed.

(** What a batch does to one key: the last entry for the key decides. *)
Definition write_key (k : string) (o : option string) (op : write_op) : option string :=
  match op with
  | Put k' v => if decide (k' = k) then Some v else o
  | Del k' => if decide (k' = k) then None else o
  end.
Lemma write_view_get batch view k :
  OMap.wf view → OMap.get k (write_view batch view) = foldl (write_key k) (OMap.get k view) batch.
Proof.
  unfold write_view. revert view. induction batch as [|op batch IH]; intros view H; [done|].
  simpl. rewrite IH.
  - f_equal. destruct op as [k' v|k']; simpl; [by rewrite OMap.get_insert|by rewrite OMap.get_remove].
  - destruct op; [by apply OMap.wf_insert|by apply OMap.wf_remove].
Qed.
(** Entries for other keys. *)
Lemma write_key_other batch k o :
  Forall (λ op, match op with Put k' _ | Del k' => k' ≠ k end) batch → foldl (write_key k) o batch = o.
Proof.
  intros H. revert o. induction H as [|op batch Hop _ IH]; intros o; [done|]. simpl. rewrite IH.
  destruct op; simpl; by rewrite decide_False.
Qed.
