(* ===== verification/Document.v ===== *)
(** * Documents and their stored form (src/storage/document.rs, serializer.rs)

    The document record, its creation and update, its JSON form, and the
    versioned byte format. Revisions and generated keys (uuid) and the clock
    are arguments; times are milliseconds in [Z]. What belongs to serde, chrono,
    rmp_serde and bincode is the classes [DocumentJson] and [DocCodec]. *)

From S2P Require Import Prelude Text Json Transaction.
Import Json.

Module Document.
Section Document.
Context {Num : Type}.
Notation Value := (Value Num).

Record Document := mkDocument {
  key : string;
  id : string;
  rev : string;
  created_at : Z;
  updated_at : Z;
  data : Value;
}.

(** "Remove system fields to prevent duplication" *)
Definition system_fields : list string := ["_key"; "_id"; "_rev"; "_created_at"; "_updated_at"].
Definition strip (v : Value) : Value :=
  match v with
  | Object obj => Object (foldl (λ m k, OMap.remove k m) obj system_fields)
  | _ => v
  end.

Definition with_key (generated_rev : string) (now : Z) (collection_name key : string) (data : Value)
    : Document :=
  mkDocument key (collection_name +:+ ("/" +:+ key)) generated_rev now now (strip data).
(** [new]: the key is a fresh uuid. *)
Definition new (generated_key generated_rev : string) (now : Z) (collection_name : string)
    (data : Value) : Document :=
  let key := generated_key in
  mkDocument key (collection_name +:+ ("/" +:+ key)) generated_rev now now (strip data).

Definition starts_with_underscore (k : string) : bool :=
  match k with String c _ => Ascii.eqb c "_" | EmptyString => false end.
Definition update (generated_rev : string) (now : Z) (new_data : Value) (d : Document) : Document :=
  let data' :=
    match data d, new_data with
    | Object existing, Object new =>
        Object (foldl (λ m p, if starts_with_underscore p.1 then m else OMap.insert p.1 p.2 m)
                  existing new)
    | _, _ => strip new_data
    end in
  mkDocument (key d) (id d) generated_rev (created_at d) now data'.

Definition revision (d : Document) : string := rev d.
Definition get (field : string) (d : Document) : option Value :=
  if String.eqb field "_key" then Some (JString (key d))
  else if String.eqb field "_id" then Some (JString (id d))
  else if String.eqb field "_rev" then Some (JString (rev d))
  else value_get field (data d).
End Document.
Arguments Document : clear implicits.

(** [serde_json::to_value] of a document: chrono prints the times, and the
    data is flattened into the object after the fields of the struct. Data
    that cannot be flattened makes the conversion fail. *)
Class DocumentJson (Num : Type) := {
  show_utc : Z → string;
  flatten : Value Num → option (list (string * Value Num));
}.
Class DocumentJsonLaws (Num : Type) `{!DocumentJson Num} : Prop :=
  flatten_object m : flatten (Object m) = Some m.

Section ToValue.
Context {Num : Type} `{!DocumentJson Num}.

Definition header (d : Document Num) : list (string * Value Num) :=
  foldl (λ m p, OMap.insert p.1 p.2 m) []
    [("_key", JString (key d)); ("_id", JString (id d)); ("_rev", JString (rev d));
     ("_created_at", JString (show_utc (created_at d)));
     ("_updated_at", JString (show_utc (updated_at d)))].
Definition to_value (d : Document Num) : Value Num :=
  match flatten (data d) with
  | Some fields => Object (foldl (λ m p, OMap.insert p.1 p.2 m) (header d) fields)
  | None => Null
  end.
End ToValue.

(** ** Metadata is protected *)

Section Metadata.
Context {Num : Type}.
Notation Value := (Value Num).
Implicit Types (d : Document Num) (m : list (string * Value)) (k : string).

(** No field of the data has the name of a metadata field. *)
Definition no_system_field (v : Value) : Prop :=
  ∀ k, k ∈ system_fields → value_get k v = None.

Lemma remove_all_get ks m k :
  OMap.wf m →
  OMap.get k (foldl (λ m k, OMap.remove k m) m ks) =
    (if decide (k ∈ ks) then None else OMap.get k m) ∧
  OMap.wf (foldl (λ m k, OMap.remove k m) m ks).
Proof.
  revert m. induction ks as [|k' ks IH]; intros m Hm; cbn [foldl].
  { split; [|done]. rewrite decide_False; [done|]. by apply not_elem_of_nil. }
  destruct (IH (OMap.remove k' m)) as [Hg Hw]; [by apply OMap.wf_remove|]. split; [|done].
  rewrite Hg, OMap.get_remove by done.
  destruct (decide (k' = k)) as [->|Hne].
  - rewrite (decide_True (P:=k ∈ k :: ks)) by by left. by case_decide.
  - apply decide_ext. rewrite elem_of_cons. naive_solver congruence.
Qed.
Lemma strip_wf (v : Value) : wf_value v → wf_value (strip v).
Proof.
  destruct v as [| | | | |m]; try done. unfold strip. generalize system_fields as ks.
  intros ks. revert m. induction ks as [|k ks IH]; intros m H; simpl; [done|]. apply IH.
  apply wf_Object in H as [Hm Hall]. apply wf_Object. split; [by apply OMap.wf_remove|].
  rewrite Forall_forall in *. intros p Hp%OMap.elem_of_remove. auto.
Qed.
Lemma strip_no_system (v : Value) : wf_value v → no_system_field (strip v).
Proof.
  destruct v as [| | | | |m]; try done. intros [Hm _]%wf_Object k Hk.
  unfold strip. cbn [value_get]. rewrite (proj1 (remove_all_get _ _ _ Hm)). by rewrite decide_True.
Qed.
Lemma strip_get m k :
  OMap.wf m → k ∉ system_fields → value_get k (strip (Object m)) = OMap.get k m.
Proof. intros Hm Hk. unfold strip. cbn [value_get]. rewrite (proj1 (remove_all_get _ _ _ Hm)). by rewrite decide_False. Qed.
Lemma system_underscore k : k ∈ system_fields → starts_with_underscore k = true.
Proof.
  unfold system_fields. intros H.
  repeat (apply elem_of_cons in H as [->|H]; [done|]). by apply elem_of_nil in H.
Qed.

Lemma update_fields_get new m k :
  OMap.wf new → OMap.wf m →
  let f := λ m p, if starts_with_underscore p.1 then m else OMap.insert p.1 p.2 m in
  OMap.wf (foldl f m new) ∧
  OMap.get k (foldl f m new) =
    if starts_with_underscore k then OMap.get k m
    else match OMap.get k new with Some v => Some v | None => OMap.get k m end.
Proof.
  cbn zeta. revert m. induction new as [|[k' v] new IH]; intros m Hn Hm; simpl.
  { split; [done|]. by destruct (starts_with_underscore k). }
  apply OMap.wf_cons in Hn as [Hn Hlt].
  assert (OMap.get k' new = None) as Hk'.
  { destruct (OMap.get k' new) as [w|] eqn:E; [|done]. apply OMap.get_elem in E; [|done].
    apply Hlt in E. by rewrite str_cmp_refl in E. }
  destruct (starts_with_underscore k') eqn:Eu.
  - destruct (IH m Hn Hm) as [Hw Hg]. split; [done|]. rewrite Hg.
    destruct (String.eqb_spec k k') as [->|]; [by rewrite Eu|done].
  - destruct (IH (OMap.insert k' v m) Hn) as [Hw Hg]; [by apply OMap.wf_insert|].
    split; [done|]. rewrite Hg, OMap.get_insert by done.
    destruct (String.eqb_spec k k') as [->|Hne].
    + by rewrite Eu, Hk', decide_True.
    + by rewrite decide_False by congruence.
Qed.

(** C40: Documents never carry metadata in their data. Creation strips it; an
    update keeps it out, keeps every field whose name starts with an
    underscore, takes every other field from the new data or else keeps it,
    and changes neither key, id nor creation time. *)
Theorem update_protects_metadata generated_rev now new_data d :
  wf_value (data d) → wf_value new_data → no_system_field (data d) →
  let d' := update generated_rev now new_data d in
  no_system_field (data d') ∧
  (key d' = key d ∧ id d' = id d ∧ created_at d' = created_at d ∧ rev d' = generated_rev) ∧
  (is_object (data d) = true → is_object new_data = true → ∀ k,
     value_get k (data d') =
     if starts_with_underscore k then value_get k (data d)
     else match value_get k new_data with Some v => Some v | None => value_get k (data d) end) ∧
  ∀ c k, no_system_field (data (with_key generated_rev now c k new_data)) ∧
         no_system_field (data (new k generated_rev now c new_data)).
Proof.
  intros Hw Hn Hs. cbn zeta.
  assert (∀ k, value_get k (data (update generated_rev now new_data d)) =
    match data d, new_data with
    | Object m, Object new => if starts_with_underscore k then OMap.get k m
        else match OMap.get k new with Some v => Some v | None => OMap.get k m end
    | _, _ => value_get k (strip new_data)
    end) as Hget.
  { intros k. unfold update. cbn [data].
    destruct (data d) as [| | | | |m], new_data as [| | | | |new]; try done.
    apply wf_Object in Hw as [Hw _], Hn as [Hn _]. cbn [value_get].
    apply (update_fields_get new m k Hn Hw). }
  split_and!; try done.
  - intros k Hk. rewrite Hget. pose proof (strip_no_system _ Hn k Hk) as Hstr.
    pose proof (Hs k Hk) as Hd. pose proof (system_underscore k Hk) as Hu.
    destruct (data d) as [| | | | |m], new_data as [| | | | |new]; try done.
    by rewrite Hu.
  - intros Ho Hon k. rewrite Hget. by destruct (data d), new_data.
  - intros c k. split; by apply strip_no_system.
Qed.

Context `{!DocumentJson Num} `{!DocumentJsonLaws Num}.

(** The JSON form of a document shows its own metadata, and the data otherwise. *)
Lemma to_value_get d m k :
  data d = Object m → OMap.wf m → no_system_field (Object m) →
  value_get k (to_value d) =
  if String.eqb k "_key" then Some (JString (key d))
  else if String.eqb k "_id" then Some (JString (id d))
  else if String.eqb k "_rev" then Some (JString (rev d))
  else if String.eqb k "_created_at" then Some (JString (show_utc (created_at d)))
  else if String.eqb k "_updated_at" then Some (JString (show_utc (updated_at d)))
  else OMap.get k m.
Proof.
  intros Hd Hm Hs. unfold to_value. rewrite Hd, flatten_object. cbn [value_get].
  assert (OMap.wf (header d)) as Hh by repeat constructor.
  rewrite (proj2 (FieldWrites.write_list m (header d) Hh Hm)).
  assert (∀ k', k' ∈ system_fields → OMap.get k' m = None) as Hnone by apply Hs.
  unfold header. cbn [foldl fst snd]. rewrite !OMap.get_insert by repeat constructor.
  destruct (String.eqb_spec k "_key") as [->|H1]; [by rewrite Hnone by set_solver|].
  destruct (String.eqb_spec k "_id") as [->|H2]; [by rewrite Hnone by set_solver|].
  destruct (String.eqb_spec k "_rev") as [->|H3]; [by rewrite Hnone by set_solver|].
  destruct (String.eqb_spec k "_created_at") as [->|H4]; [by rewrite Hnone by set_solver|].
  destruct (String.eqb_spec k "_updated_at") as [->|H5]; [by rewrite Hnone by set_solver|].
  rewrite !decide_False by congruence. by destruct (OMap.get k m).
Qed.
Lemma to_value_fields d m k :
  data d = Object m → wf_value (Object m) → no_system_field (Object m) →
  value_get k (to_value d) =
  if String.eqb k "_key" then Some (JString (key d))
  else if String.eqb k "_id" then Some (JString (id d))
  else if String.eqb k "_rev" then Some (JString (rev d))
  else if String.eqb k "_created_at" then Some (JString (show_utc (created_at d)))
  else if String.eqb k "_updated_at" then Some (JString (show_utc (updated_at d)))
  else OMap.get k m.
Proof. intros Hd [Hm _]%wf_Object Hs. by apply to_value_get. Qed.
(** It is an object whose fields are in order. *)
Lemma to_value_object d m : data d = Object m → OMap.wf m → ∃ fs, to_value d = Object fs ∧ OMap.wf fs.
Proof.
  intros Hd Hm. unfold to_value. rewrite Hd, flatten_object. eexists. split; [done|].
  assert (OMap.wf (header d)) as Hh by repeat constructor. apply (FieldWrites.write_list m (header d) Hh Hm).
Qed.
End Metadata.

End Document.

(** ** The stored form *)

Module Serializer.
Import Document.

Record DocumentWithVersion := mkVersioned {
  version : N;
  v_key : string;
  v_id : string;
  v_rev : string;
  v_created_at : Z;
  v_updated_at : Z;
  v_data : string;
}.

(** rmp_serde and serde_json on the data, bincode on the versioned record and
    serde_json on a whole document. *)
Class DocCodec (Num : Type) := {
  rmp_to_vec : Value Num → option string;
  rmp_from_slice : string → option (Value Num);
  json_from_bytes : string → option (Value Num);
  bincode_serialize : DocumentWithVersion → option string;
  bincode_deserialize : string → option DocumentWithVersion;
  json_document : string → option (Document Num);
}.
(** What the libraries document: encoding succeeds on these types and decodes
    to what was encoded. *)
Class DocCodecLaws (Num : Type) `{!DocCodec Num} : Prop := {
  rmp_roundtrip v : ∃ b, rmp_to_vec v = Some b ∧ rmp_from_slice b = Some v;
  bincode_roundtrip d : ∃ b, bincode_serialize d = Some b ∧ bincode_deserialize b = Some d;
}.

Section Serializer.
Context {Num : Type} `{!DocCodec Num}.

Definition DOC_FORMAT_VERSION : N := 2.

Definition from_doc (d : Document Num) : DocumentWithVersion :=
  mkVersioned DOC_FORMAT_VERSION (key d) (id d) (rev d) (created_at d) (updated_at d)
    (default "" (rmp_to_vec (data d))).
(** [unwrap_or_default] of a value is null. *)
Definition to_doc (w : DocumentWithVersion) : Document Num :=
  mkDocument (v_key w) (v_id w) (v_rev w) (v_created_at w) (v_updated_at w)
    (match rmp_from_slice (v_data w) with
     | Some v => v
     | None => default Null (json_from_bytes (v_data w))
     end).
Definition to_doc_legacy_v1 (w : DocumentWithVersion) : Document Num :=
  mkDocument (v_key w) (v_id w) (v_rev w) (v_created_at w) (v_updated_at w)
    (default Null (json_from_bytes (v_data w))).

Definition serialize_doc (d : Document Num) : result DbError string :=
  match bincode_serialize (from_doc d) with
  | Some bytes => Ok (String (ascii_of_N DOC_FORMAT_VERSION) bytes)
  | None => Err (InternalError "Serialization failed")
  end.
Definition deserialize_doc (bytes : string) : result DbError (Document Num) :=
  match bytes with
  | EmptyString => Err (DocumentNotFound "empty bytes")
  | String b rest =>
      match N_of_ascii b with
      | 2%N =>
          match bincode_deserialize rest with
          | Some w => Ok (to_doc w)
          | None => Err (InternalError "Deserialization failed")
          end
      | 1%N =>
          match bincode_deserialize rest with
          | Some w => Ok (to_doc_legacy_v1 w)
          | None => Err (InternalError "Legacy v1 deserialization failed")
          end
      | _ =>
          match json_document bytes with
          | Some d => Ok d
          | None => Err (InternalError "Legacy JSON deserialization failed")
          end
      end
  end.
Definition needs_migration (bytes : string) : bool :=
  match bytes with
  | EmptyString => false
  | String b _ => negb (N_of_ascii b =? DOC_FORMAT_VERSION)%N
  end.

Context `{!DocCodecLaws Num}.

Lemma serialize_some (d : Document Num) : ∃ bytes, serialize_doc d = Ok bytes.
Proof. destruct (bincode_roundtrip (from_doc d)) as (b & Hs & _). unfold serialize_doc. rewrite Hs. by eexists. Qed.
Lemma deserialize_serialize (d : Document Num) bytes :
  serialize_doc d = Ok bytes → deserialize_doc bytes = Ok d ∧ needs_migration bytes = false.
Proof.
  destruct (rmp_roundtrip (data d)) as (b & Hb & Hb').
  destruct (bincode_roundtrip (from_doc d)) as (bytes' & Hs & Hd).
  unfold serialize_doc. rewrite Hs. intros [= <-]. split; [|done].
  unfold deserialize_doc. change (N_of_ascii (ascii_of_N DOC_FORMAT_VERSION)) with 2%N. cbv iota.
  rewrite Hd. unfold to_doc, from_doc. cbn. rewrite Hb. cbn. rewrite Hb'. by destruct d.
Qed.

(** a stored document reads back as it was, in the current format; a
    document stored in the first format, with its data as JSON, reads back
    too and is reported as due for migration. *)
Theorem serialize_roundtrip (d : Document Num) :
  (∃ bytes, serialize_doc d = Ok bytes ∧ deserialize_doc bytes = Ok d ∧
            needs_migration bytes = false) ∧
  (∀ text, json_from_bytes text = Some (data d) →
   ∃ bytes, bincode_serialize (mkVersioned 1 (key d) (id d) (rev d) (created_at d)
              (updated_at d) text) = Some bytes ∧
     deserialize_doc (String (ascii_of_N 1) bytes) = Ok d ∧
     needs_migration (String (ascii_of_N 1) bytes) = true).
Proof.
  split.
  - destruct (serialize_some d) as [bytes Hs]. exists bytes. split; [done|]. by apply deserialize_serialize.
  - intros text Ht. edestruct bincode_roundtrip as (bytes & Hs & Hd). exists bytes. split; [exact Hs|].
    split; [|done]. unfold deserialize_doc. change (N_of_ascii (ascii_of_N 1)) with 1%N. cbv iota.
    rewrite Hd. unfold to_doc_legacy_v1. cbn. rewrite Ht. by destruct d.
Qed.
End Serializer.
End Serializer.

(** *** Concrete documents *)

Module DocumentDemo.
Import Document.
#[export] Instance demo_json : DocumentJson demo_number := {
  show_utc _ := "1970-01-01T00:00:00Z";
  flatten v := match v with Object m => Some m | _ => None end;
}.
#[export] Instance demo_json_laws : DocumentJsonLaws demo_number.
Proof. done. Qed.
Definition demo : Document demo_number := with_key "r1" 0 "c" "k" (Object [("_key", Null); ("a", Null)]).

Lemma update_protects_metadata_witness :
  value_get "a" (data (update "r2" 5 (Object [("_key", Bool true); ("a", Bool true)]) demo)) =
    Some (Bool true) ∧
  value_get "_key" (data (update "r2" 5 (Object [("_key", Bool true); ("a", Bool true)]) demo)) = None.
Proof.
  destruct (update_protects_metadata "r2" 5 (Object [("_key", Bool true); ("a", Bool true)]) demo)
    as (Hs & _ & Hg & _).
  - repeat (reflexivity || split || constructor).
  - repeat (reflexivity || split || constructor).
  - apply strip_no_system. repeat (reflexivity || split || constructor).
  - split; [rewrite Hg by reflexivity; reflexivity|]. apply Hs. by left.
Defined.

#[export] Instance versioned_eq : EqDecision Serializer.DocumentWithVersion.
Proof. solve_decision. Defined.
#[export] Program Instance versioned_countable : Countable Serializer.DocumentWithVersion :=
  inj_countable'
    (λ w, (Serializer.version w, Serializer.v_key w, Serializer.v_id w, Serializer.v_rev w,
           Serializer.v_created_at w, Serializer.v_updated_at w, Serializer.v_data w))
    (λ '(a, b, c, d, e, f, g), Serializer.mkVersioned a b c d e f g) _.
Next Obligation. by intros []. Qed.
#[export] Instance demo_doc_codec : Serializer.DocCodec demo_number := {
  Serializer.rmp_to_vec v := Some (to_text v);
  Serializer.rmp_from_slice := of_text;
  Serializer.json_from_bytes := of_text;
  Serializer.bincode_serialize w := Some (to_text w);
  Serializer.bincode_deserialize := of_text;
  Serializer.json_document _ := None;
}.
#[export] Instance demo_doc_codec_laws : Serializer.DocCodecLaws demo_number.
Proof. split; intros x; (eexists; split; [reflexivity|apply of_to_text]). Qed.
Lemma serialize_roundtrip_witness :
  ∃ bytes, Serializer.serialize_doc demo = Ok bytes ∧ Serializer.deserialize_doc bytes = Ok demo ∧
    Serializer.needs_migration bytes = false.
Proof. exact (proj1 (Serializer.serialize_roundtrip demo)). Defined.
End DocumentDemo.
