(* ===== verification/Indexes.v ===== *)
(** * Indexes of a collection (src/storage/index.rs and
      src/storage/collection/core.rs, indexes.rs, geo.rs, fulltext.rs, ttl.rs)

    The keys under which a collection stores its documents, its index
    metadata and its index entries in one column family; the entries that a
    document has in every index; the uniqueness check; and the index lookups.
    Everything here reads the store and computes what to write; the writes are
    in Collection.v.

    serde_json on the metadata, chrono, the hex crate and the Unicode tables
    of the standard library are the classes [MetaJson], [HexCrate] and
    [StdText]. Strings are their UTF-8 bytes. *)

From S2P Require Import Prelude Text Json Transaction Codec Kv Document.
Import Json Codec Document Serializer.

Module Indexes.

(** ** Metadata *)

Inductive IndexType := Hash | Persistent | Fulltext | TTL | Bloom | Cuckoo | Vector.
#[export] Instance IndexType_eq : EqDecision IndexType.
Proof. solve_decision. Defined.
Record Index := mkIndex {
  idx_name : string;
  idx_fields : list string;
  idx_type : IndexType;
  idx_unique : bool;
}.
Record GeoIndex := mkGeo { geo_name : string; geo_field : string }.
Record FulltextIndex := mkFulltext { ft_name : string; ft_fields : list string; ft_min_length : N }.
Record TtlIndex := mkTtl { ttl_name : string; ttl_field : string; expire_after_seconds : N }.

Class MetaJson (Num : Type) := {
  index_from_slice : string → option Index;
  geo_index_from_slice : string → option GeoIndex;
  fulltext_index_from_slice : string → option FulltextIndex;
  ttl_index_from_slice : string → option TtlIndex;
  value_to_vec : Value Num → option string;          (* [serde_json::to_vec] *)
  value_to_string : Value Num → string;              (* [Value::to_string] *)
  rfc3339_timestamp : string → option Z;             (* [parse_from_rfc3339], [timestamp] *)
}.
Class HexCrate := hex_encode : string → string.
Class StdText := {
  to_lowercase : string → string;
  char_alphanumeric : string → bool;                 (* of one character *)
  char_whitespace : string → bool;
  utf8_lossy : string → string;                      (* [from_utf8_lossy] *)
}.

(** The crates fastbloom and cuckoofilter. *)
Class FilterCrates := {
  BloomFilter : Type;
  bloom_new : BloomFilter;
  bloom_add : string → BloomFilter → BloomFilter;
  bloom_contains : string → BloomFilter → bool;
  bloom_from_slice : string → option BloomFilter;    (* [serde_json::from_slice] *)
  CuckooFilter : Type;
  cuckoo_new : CuckooFilter;
  cuckoo_add : string → CuckooFilter → CuckooFilter;
  cuckoo_remove : string → CuckooFilter → CuckooFilter;
  cuckoo_contains : string → CuckooFilter → bool;
}.
(** A Bloom filter never denies what was added to it. *)
Class BloomLaws `{!FilterCrates} : Prop := {
  bloom_added x f : bloom_contains x (bloom_add x f) = true;
  bloom_kept x y f : bloom_contains y f = true → bloom_contains y (bloom_add x f) = true;
}.

Definition no_colon (s : string) : bool := str_all (λ c, negb (Ascii.eqb c ":")) s.
(** The lower-case hexadecimal digits. *)
Definition hex_digit (c : ascii) : bool := in_range 48 57 c || in_range 97 102 c.
Class HexLaws `{!HexCrate} : Prop := {
  hex_alphabet s : str_all hex_digit (hex_encode s) = true;
  hex_inj s t : hex_encode s = hex_encode t → s = t;
}.
Class StdTextLaws `{!StdText} : Prop :=
  utf8_lossy_valid s : utf8_valid s = true → utf8_lossy s = s.

(** ** Keys *)

Definition DOC_PREFIX : string := "doc:".
Definition IDX_PREFIX : string := "idx:".
Definition IDX_META_PREFIX : string := "idx_meta:".
Definition GEO_PREFIX : string := "geo:".
Definition GEO_META_PREFIX : string := "geo_meta:".
Definition FT_PREFIX : string := "ft:".
Definition FT_META_PREFIX : string := "ft_meta:".
Definition FT_TERM_PREFIX : string := "ft_term:".
Definition BLO_PREFIX : string := "blo:".
Definition TTL_META_PREFIX : string := "ttl_meta:".
Definition TTL_EXPIRY_PREFIX : string := "ttl_exp:".
Definition BLO_IDX_PREFIX : string := "blo_idx:".
Definition NGRAM_SIZE : nat := 3.

Definition doc_key (key : string) : string := DOC_PREFIX +:+ key.
Definition idx_meta_key (name : string) : string := IDX_META_PREFIX +:+ name.
Definition geo_entry_key (index_name doc_key : string) : string :=
  GEO_PREFIX +:+ (index_name +:+ (":" +:+ doc_key)).
Definition ft_term_key (index_name term doc_key : string) : string :=
  FT_TERM_PREFIX +:+ (index_name +:+ (":" +:+ (term +:+ (":" +:+ doc_key)))).
Definition ft_ngram_key (index_name ngram doc_key : string) : string :=
  FT_PREFIX +:+ (index_name +:+ (":" +:+ (ngram +:+ (":" +:+ doc_key)))).
Definition blo_chunk_key (key : string) (chunk_index : N) : string :=
  BLO_PREFIX +:+ (key +:+ (":" +:+ dec chunk_index)).
Definition ttl_expiry_key (index_name : string) (expiry_timestamp : N) (doc_key : string) : string :=
  DOC_PREFIX +:+ (TTL_EXPIRY_PREFIX +:+ (":" +:+ (index_name +:+ (":" +:+
    (dec expiry_timestamp +:+ (":" +:+ doc_key)))))).

(** ** Text *)

(** The characters of a UTF-8 text: each continuation byte joins the byte
    before it. *)
Definition head_continuation (s : string) : bool :=
  match s with String c _ => continuation c | EmptyString => false end.
Fixpoint chars (s : string) : list string :=
  match s with
  | EmptyString => []
  | String c s' =>
      match chars s' with
      | [] => [String c ""]
      | p :: ps => if head_continuation p then String c p :: ps else String c "" :: p :: ps
      end
  end.
Definition collect (cs : list string) : string := String.concat "" cs.

Section Text.
Context `{!StdText}.
Fixpoint split_whitespace_go (cs : list string) (word : string) : list string :=
  match cs with
  | [] => if String.eqb word "" then [] else [word]
  | c :: cs' =>
      if char_whitespace c
      then (if String.eqb word "" then [] else [word]) ++ split_whitespace_go cs' ""
      else split_whitespace_go cs' (word +:+ c)
  end.
Definition split_whitespace (s : string) : list string := split_whitespace_go (chars s) "".
Definition normalize_text (text : string) : string :=
  let kept := List.filter (λ c, char_alphanumeric c || char_whitespace c) (chars (to_lowercase text)) in
  String.concat " " (split_whitespace (collect kept)).
Definition tokenize (text : string) : list string := split_whitespace (normalize_text text).
(** [windows(n)]: every run of [n] consecutive elements. *)
Definition windows (n : nat) (cs : list string) : list (list string) :=
  (λ i, take n (drop i cs)) <$> seq 0 (S (length cs) - n).
Definition generate_ngrams (text : string) (n : nat) : list string :=
  let normalized := normalize_text text in
  if (String.length normalized <? n)%nat then [normalized]
  else collect <$> windows n (chars normalized).
End Text.

(** ** The entries of a document *)

Section Entries.
Context {Num : Type} `{!JsonNumber Num} `{!JsonText Num} `{!MetaJson Num}.
Context `{hex_crate : !HexCrate} `{std_text : !StdText}.
Notation Value := (Value Num).

Definition is_null (v : Value) : bool := match v with Null => true | _ => false end.
(** [extract_field_value]: a dotted path through objects. *)
Fixpoint extract_path (doc : Value) (parts : list string) : Value :=
  match parts with
  | [] => doc
  | part :: parts' =>
      match value_get part doc with
      | Some val => extract_path val parts'
      | None => Null
      end
  end.
Definition extract_field_value (doc : Value) (field_path : string) : Value :=
  extract_path doc (split_on "." field_path).

Definition value_part (values : list Value) : string :=
  String.concat "_" ((λ v, hex_encode (encode_key v)) <$> values).
Definition idx_entry_key (index_name : string) (values : list Value) (doc_key : string) : string :=
  IDX_PREFIX +:+ (index_name +:+ (":" +:+ (value_part values +:+ (":" +:+ doc_key)))).

Definition field_values (doc_value : Value) (fields : list string) : list Value :=
  extract_field_value doc_value <$> fields.
Definition all_null (values : list Value) : bool := forallb is_null values.

(** *** Regular indexes *)

Definition entry_key_for (doc_key : string) (doc_value : Value) (index : Index) : option string :=
  let values := field_values doc_value (idx_fields index) in
  if all_null values then None else Some (idx_entry_key (idx_name index) values doc_key).
Definition entry_for (doc_key : string) (doc_value : Value) (index : Index)
    : option (string * string) :=
  (λ e, (e, doc_key)) <$> entry_key_for doc_key doc_value index.

(** *** Geo indexes *)

Fixpoint geo_entries_for (doc_key : string) (doc_value : Value) (geo_indexes : list GeoIndex)
    : result DbError (list (string * string)) :=
  match geo_indexes with
  | [] => Ok []
  | g :: rest =>
      let field_value := extract_field_value doc_value (geo_field g) in
      if is_null field_value then geo_entries_for doc_key doc_value rest
      else
        match value_to_vec field_value with
        | None => Err (JsonError "serde_json::to_vec")
        | Some geo_data =>
            match geo_entries_for doc_key doc_value rest with
            | Ok entries => Ok ((geo_entry_key (geo_name g) doc_key, geo_data) :: entries)
            | Err e => Err e
            end
        end
  end.
Definition geo_keys (doc_key : string) (geo_indexes : list GeoIndex) : list string :=
  (λ g, geo_entry_key (geo_name g) doc_key) <$> geo_indexes.

(** *** Fulltext indexes *)

Definition fulltext_field_keys (doc_key : string) (doc_value : Value) (index : FulltextIndex)
    (field : string) : list string :=
  match as_str (extract_field_value doc_value field) with
  | Some text =>
      let terms := List.filter (λ t, (ft_min_length index <=? N.of_nat (String.length t))%N)
                     (tokenize text) in
      ((λ t, ft_term_key (ft_name index) t doc_key) <$> terms) ++
      ((λ g, ft_ngram_key (ft_name index) g doc_key) <$> generate_ngrams text NGRAM_SIZE)
  | None => []
  end.
Definition fulltext_keys (doc_key : string) (doc_value : Value) (indexes : list FulltextIndex)
    : list string :=
  flat_map (λ index, flat_map (fulltext_field_keys doc_key doc_value index) (ft_fields index)) indexes.

(** *** TTL indexes *)

Definition extract_expiry_time (doc_value : Value) (field : string) : option N :=
  let field_value := extract_field_value doc_value field in
  match as_u64 field_value with
  | Some n => Some n
  | None =>
      match as_str field_value with
      | Some s => (λ t, Z.to_N (t mod 2 ^ 64)) <$> rfc3339_timestamp s
      | None => None
      end
  end.
Definition ttl_key_for (doc_key : string) (doc_value : Value) (ttl_index : TtlIndex) : option string :=
  (λ expiry_time, ttl_expiry_key (ttl_name ttl_index)
     (wrap64 (expiry_time + expire_after_seconds ttl_index)) doc_key)
  <$> extract_expiry_time doc_value (ttl_field ttl_index).

(** ** Reading the metadata and computing the writes *)

Context {DB : Type} `{!KvStore DB}.

(** [prefix_iterator_cf] with [filter_map], and with [take_while]. *)
Definition metadata {A} (from_slice : string → option A) (prefix : string) (db : DB) : list A :=
  omap (λ p, if starts_with prefix p.1 then from_slice p.2 else None) (kv_from prefix db).
Definition scan_prefix (prefix : string) (db : DB) : list (string * string) :=
  take_while (λ p, starts_with prefix p.1) (kv_from prefix db).

Definition get_all_indexes : DB → list Index := metadata index_from_slice IDX_META_PREFIX.
Definition get_all_geo_indexes : DB → list GeoIndex := metadata geo_index_from_slice GEO_META_PREFIX.
Definition get_all_fulltext_indexes : DB → list FulltextIndex :=
  metadata fulltext_index_from_slice FT_META_PREFIX.
Definition get_all_ttl_indexes : DB → list TtlIndex := metadata ttl_index_from_slice TTL_META_PREFIX.

Definition compute_index_entries_for_insert (db : DB) (doc_key : string) (doc_value : Value)
    : result DbError (list (string * string) * list (string * string)) :=
  let regular_entries := omap (entry_for doc_key doc_value) (get_all_indexes db) in
  match geo_entries_for doc_key doc_value (get_all_geo_indexes db) with
  | Ok geo_entries => Ok (regular_entries, geo_entries)
  | Err e => Err e
  end.
Definition compute_index_entries_for_update (db : DB) (doc_key : string) (old_value new_value : Value)
    : result DbError
        (list (string * string) * list string * list (string * string) * list string) :=
  let indexes := get_all_indexes db in
  let keys_to_remove := omap (entry_key_for doc_key old_value) indexes in
  let entries_to_add := omap (entry_for doc_key new_value) indexes in
  let geo_indexes := get_all_geo_indexes db in
  match geo_entries_for doc_key new_value geo_indexes with
  | Ok geo_entries => Ok (entries_to_add, keys_to_remove, geo_entries, geo_keys doc_key geo_indexes)
  | Err e => Err e
  end.
Definition compute_index_entries_for_delete (db : DB) (doc_key : string) (doc_value : Value)
    : result DbError (list string * list string) :=
  Ok (omap (entry_key_for doc_key doc_value) (get_all_indexes db),
      geo_keys doc_key (get_all_geo_indexes db)).

Definition compute_fulltext_entries_for_insert (db : DB) (doc_key : string) (doc_value : Value)
    : list (string * string) :=
  (λ e, (e, doc_key)) <$> fulltext_keys doc_key doc_value (get_all_fulltext_indexes db).
Definition compute_fulltext_entries_for_delete (db : DB) (doc_key : string) (doc_value : Value)
    : list string :=
  fulltext_keys doc_key doc_value (get_all_fulltext_indexes db).

Definition compute_ttl_expiry_entries_for_insert (db : DB) (doc_key : string) (doc_value : Value)
    : list (string * string) :=
  (λ e, (e, "")) <$> omap (ttl_key_for doc_key doc_value) (get_all_ttl_indexes db).
Definition compute_ttl_expiry_entries_for_update (db : DB) (doc_key : string)
    (old_value new_value : Value) : list (string * string) * list string :=
  ((λ e, (e, "")) <$> omap (ttl_key_for doc_key new_value) (get_all_ttl_indexes db),
   omap (ttl_key_for doc_key old_value) (get_all_ttl_indexes db)).
Definition compute_ttl_expiry_entries_for_delete (db : DB) (doc_key : string) (doc_value : Value)
    : list string :=
  omap (ttl_key_for doc_key doc_value) (get_all_ttl_indexes db).

(** ** Uniqueness *)

(** The message prints the fields and the values; its text is left out. *)
Definition unique_error (index : Index) : DbError :=
  InvalidDocument ("Unique constraint violated in index '" +:+ (idx_name index +:+ "'")).
Definition value_prefix (index : Index) (values : list Value) : string :=
  IDX_PREFIX +:+ (idx_name index +:+ (":" +:+ (value_part values +:+ ":"))).
Definition check_unique_index (db : DB) (doc_key : string) (doc_value : Value) (index : Index)
    : result DbError unit :=
  if negb (idx_unique index) then Ok tt
  else
    let values := field_values doc_value (idx_fields index) in
    if all_null values then Ok tt
    else
      let prefix := value_prefix index values in
      match kv_from prefix db with
      | (key, value) :: _ =>
          if starts_with prefix key && negb (String.eqb (utf8_lossy value) doc_key)
          then Err (unique_error index) else Ok tt
      | [] => Ok tt
      end.
Fixpoint check_unique_all (db : DB) (doc_key : string) (doc_value : Value) (indexes : list Index)
    : result DbError unit :=
  match indexes with
  | [] => Ok tt
  | index :: rest =>
      match check_unique_index db doc_key doc_value index with
      | Ok _ => check_unique_all db doc_key doc_value rest
      | Err e => Err e
      end
  end.
Definition check_unique_constraints (db : DB) (doc_key : string) (doc_value : Value)
    : result DbError unit := check_unique_all db doc_key doc_value (get_all_indexes db).

(** ** Lookups *)

Context `{!DocCodec Num}.

(** [get_index_for_field]: the first index whose first field it is. *)
Fixpoint find_index (field : string) (entries : list (string * string)) : option Index :=
  match entries with
  | [] => None
  | (_, value) :: rest =>
      match index_from_slice value with
      | Some index =>
          if bool_decide (head (idx_fields index) = Some field) then Some index
          else find_index field rest
      | None => find_index field rest
      end
  end.
Definition get_index_for_field (field : string) (db : DB) : option Index :=
  find_index field (scan_prefix IDX_META_PREFIX db).

(** [multi_get_cf], keeping what is found and can be read. *)
Definition read_docs (db : DB) (keys : list string) : list (Document Num) :=
  omap (λ k, match kv_get k db with
             | Some bytes => match deserialize_doc bytes with Ok d => Some d | Err _ => None end
             | None => None
             end) keys.

(** *** Filters in memory

    The Bloom and Cuckoo indexes of a collection have a filter in memory, created or loaded when it is
    first used. It is fed when the index is created and by [index_documents], and asked by the
    equality lookup; inserts and updates of documents do not feed it. *)

Context `{filter_crates : !FilterCrates}.
Record Filters := mkFilters { bloom_filters : gmap string BloomFilter; cuckoo_filters : gmap string CuckooFilter }.
Definition no_filters : Filters := mkFilters ∅ ∅.
Definition get_or_create_bloom_filter (index_name : string) (db : DB) (fs : Filters) : BloomFilter * Filters :=
  match bloom_filters fs !! index_name with
  | Some f => (f, fs)
  | None =>
      let f := default bloom_new (kv_get (BLO_IDX_PREFIX +:+ index_name) db ≫= bloom_from_slice) in
      (f, mkFilters (<[index_name := f]> (bloom_filters fs)) (cuckoo_filters fs))
  end.
Definition bloom_insert (index_name item : string) (db : DB) (fs : Filters) : Filters :=
  let '(f, fs1) := get_or_create_bloom_filter index_name db fs in
  mkFilters (<[index_name := bloom_add item f]> (bloom_filters fs1)) (cuckoo_filters fs1).
Definition bloom_check (index_name item : string) (db : DB) (fs : Filters) : bool * Filters :=
  let '(f, fs1) := get_or_create_bloom_filter index_name db fs in (bloom_contains item f, fs1).
(** A stored Cuckoo filter is not read: it starts empty. *)
Definition preload_cuckoo_filter (index_name : string) (fs : Filters) : Filters :=
  match cuckoo_filters fs !! index_name with
  | Some _ => fs
  | None => mkFilters (bloom_filters fs) (<[index_name := cuckoo_new]> (cuckoo_filters fs))
  end.
Definition on_cuckoo (g : CuckooFilter → CuckooFilter) (index_name : string) (fs : Filters) : Filters :=
  let fs1 := preload_cuckoo_filter index_name fs in
  mkFilters (bloom_filters fs1) (alter g index_name (cuckoo_filters fs1)).
Definition cuckoo_insert (index_name item : string) : Filters → Filters := on_cuckoo (cuckoo_add item) index_name.
Definition cuckoo_delete (index_name item : string) : Filters → Filters := on_cuckoo (cuckoo_remove item) index_name.
Definition cuckoo_check (index_name item : string) (fs : Filters) : bool * Filters :=
  let fs1 := preload_cuckoo_filter index_name fs in
  (match cuckoo_filters fs1 !! index_name with Some f => cuckoo_contains item f | None => true end, fs1).

(** What creating an index and [index_documents] put into the filters for a document. *)
Definition feed_filter (index : Index) (doc_value : Value) (db : DB) (fs : Filters) : Filters :=
  let values := field_values doc_value (idx_fields index) in
  if all_null values then fs
  else foldl (λ fs v, match idx_type index with
                      | Bloom => bloom_insert (idx_name index) (value_to_string v) db fs
                      | Cuckoo => cuckoo_insert (idx_name index) (value_to_string v) fs
                      | _ => fs
                      end) fs values.
Definition preload_filter (db : DB) (fs : Filters) (index : Index) : Filters :=
  match idx_type index with
  | Bloom => (get_or_create_bloom_filter (idx_name index) db fs).2
  | Cuckoo => preload_cuckoo_filter (idx_name index) fs
  | _ => fs
  end.
Definition feed_filters (indexes : list Index) (doc_values : list Value) (db : DB) (fs : Filters) : Filters :=
  foldl (λ fs v, foldl (λ fs i, feed_filter i v db fs) fs indexes) (foldl (preload_filter db) fs indexes) doc_values.

(** The test before an equality lookup. *)
Definition filter_admits (index : Index) (item : string) (db : DB) (fs : Filters) : bool * Filters :=
  match idx_type index with
  | Bloom => bloom_check (idx_name index) item db fs
  | Cuckoo => cuckoo_check (idx_name index) item fs
  | _ => (true, fs)
  end.
Definition index_lookup_eq (field : string) (value : Value) (db : DB) (fs : Filters) :
    option (list (Document Num)) * Filters :=
  match get_index_for_field field db with
  | None => (None, fs)
  | Some index =>
      let '(admitted, fs1) := filter_admits index (value_to_string value) db fs in
      if negb admitted then (Some [], fs1)
      else
        let prefix := value_prefix index [value] in
        (Some (read_docs db ((λ p, doc_key (utf8_lossy p.2)) <$> scan_prefix prefix db)), fs1)
  end.
Definition index_lookup_eq_limit (field : string) (value : Value) (limit : nat) (db : DB)
    : option (list (Document Num)) :=
  match get_index_for_field field db with
  | None => None
  | Some index =>
      let prefix := value_prefix index [value] in
      Some (read_docs db ((λ p, doc_key (utf8_lossy p.2)) <$> take limit (scan_prefix prefix db)))
  end.

(** The loop of [index_range_scan]: it stops outside the index and at a
    thousand keys. *)
Fixpoint range_keys (prefix_base seek_key : string) (inclusive : bool) (found : nat)
    (entries : list (string * string)) : list string :=
  match entries with
  | [] => []
  | (k, v) :: rest =>
      if negb (starts_with prefix_base k) then []
      else if negb inclusive && starts_with seek_key k
      then range_keys prefix_base seek_key inclusive found rest
      else doc_key (utf8_lossy v) ::
           (if (1000 <=? S found)%nat then []
            else range_keys prefix_base seek_key inclusive (S found) rest)
  end.
Definition index_range_scan (field : string) (value : Value) (inclusive forward : bool) (db : DB)
    : option (list (Document Num)) :=
  match get_index_for_field field db with
  | None => None
  | Some index =>
      let prefix_base := IDX_PREFIX +:+ (idx_name index +:+ ":") in
      let seek_key := value_prefix index [value] in
      let entries := if forward then kv_from seek_key db else kv_back seek_key db in
      Some (read_docs db (range_keys prefix_base seek_key inclusive 0 entries))
  end.
Definition index_lookup_gt (field : string) (value : Value) := index_range_scan field value false true.
Definition index_lookup_gte (field : string) (value : Value) := index_range_scan field value true true.
Definition index_lookup_lt (field : string) (value : Value) := index_range_scan field value false false.
Definition index_lookup_lte (field : string) (value : Value) := index_range_scan field value true false.

End Entries.

End Indexes.
