(* ===== verification/Collection.v ===== *)
(** * Collections (src/storage/collection/mod.rs, crud.rs, txn.rs, blobs.rs)

    A collection keeps its documents, its index metadata and its index entries
    in one column family, with the document count, the blob chunk count and
    the change events beside it. Each operation returns its result and the
    collection it leaves behind, on errors too. One operation runs at a time:
    the reads of an operation and its write are not interleaved with another.

    Generated keys and revisions (uuid) and the clock are arguments. The
    in-memory vector indexes are another component: the calls made to them are
    recorded in order. The JSON-schema validator is the class [SchemaCheck]. *)

From S2P Require Import Prelude Text Json Transaction Codec Kv Document Indexes.
Import Json Codec Document Serializer Indexes.

Module Collection.

Inductive ChangeType := CInsert | CUpdate | CDelete.

Section Data.
Context {Num DB : Type}.
Notation Value := (Value Num).

Record ChangeEvent := mkEvent {
  type_ : ChangeType;
  ev_key : string;
  ev_data : option Value;
  ev_old_data : option Value;
}.
Inductive vector_call := VectorUpsert (key : string) (doc_value : Value) | VectorDelete (key : string).

Record Collection := mkCollection {
  name : string;
  collection_type : string;
  db : DB;
  doc_count : N;
  chunk_count : N;
  count_dirty : bool;
  change_sender : list ChangeEvent;
  vector_indexes : list vector_call;
}.

Definition set_db (d : DB) (c : Collection) : Collection :=
  mkCollection (name c) (collection_type c) d (doc_count c) (chunk_count c) (count_dirty c)
    (change_sender c) (vector_indexes c).
Definition add_count (n : N) (c : Collection) : Collection :=
  mkCollection (name c) (collection_type c) (db c) (wrap64 (doc_count c + n)) (chunk_count c) true
    (change_sender c) (vector_indexes c).
Definition sub_count (n : N) (c : Collection) : Collection :=
  mkCollection (name c) (collection_type c) (db c) (sub64 (doc_count c) n) (chunk_count c) true
    (change_sender c) (vector_indexes c).
Definition increment_count : Collection → Collection := add_count 1.
Definition decrement_count : Collection → Collection := sub_count 1.
Definition add_chunks (n : N) (c : Collection) : Collection :=
  mkCollection (name c) (collection_type c) (db c) (doc_count c) (wrap64 (chunk_count c + n)) true
    (change_sender c) (vector_indexes c).
Definition sub_chunks (n : N) (c : Collection) : Collection :=
  mkCollection (name c) (collection_type c) (db c) (doc_count c) (sub64 (chunk_count c) n) true
    (change_sender c) (vector_indexes c).
Definition send (e : ChangeEvent) (c : Collection) : Collection :=
  mkCollection (name c) (collection_type c) (db c) (doc_count c) (chunk_count c) (count_dirty c)
    (change_sender c ++ [e]) (vector_indexes c).
Definition vector (v : vector_call) (c : Collection) : Collection :=
  mkCollection (name c) (collection_type c) (db c) (doc_count c) (chunk_count c) (count_dirty c)
    (change_sender c) (vector_indexes c ++ [v]).
End Data.
Arguments ChangeEvent : clear implicits.
Arguments vector_call : clear implicits.
Arguments Collection : clear implicits.

(** [get_cached_schema_validator]: no schema, a schema that does not compile,
    or a validator that returns the text of its error. *)
Class SchemaCheck (Num DB : Type) :=
  get_cached_schema_validator : DB → result DbError (option (Value Num → option string)).

Section Collection.
Context {Num : Type} `{!JsonNumber Num} `{!JsonText Num} `{!MetaJson Num} `{!DocumentJson Num}
  `{!DocCodec Num}.
Context `{hex_crate : !HexCrate} `{std_text : !StdText}.
Context {DB : Type} `{!KvStore DB} `{!SchemaCheck Num DB}.
Notation Value := (Value Num).
Notation Document := (Document Num).
Notation Collection := (Collection Num DB).

(** ** Reading *)

Definition get (c : Collection) (key : string) : result DbError Document :=
  match kv_get (doc_key key) (db c) with
  | None => Err (DocumentNotFound key)
  | Some bytes => deserialize_doc bytes
  end.
Definition get_many (c : Collection) (keys : list string) : list Document :=
  omap (λ k, match get c k with Ok d => Some d | Err _ => None end) keys.
Definition scan (c : Collection) (limit : option nat) : list Document :=
  let docs := omap (λ p, if starts_with DOC_PREFIX p.1
                         then match deserialize_doc p.2 with Ok d => Some d | Err _ => None end
                         else None) (kv_from DOC_PREFIX (db c)) in
  match limit with Some n => take n docs | None => docs end.
Definition all (c : Collection) : list Document := scan c None.
Definition count (c : Collection) : N := doc_count c.
(** [recalculate_count] and [recount_documents] are the same code. *)
Definition recount_documents (c : Collection) : N * Collection :=
  let actual_count := N.of_nat (length (scan_prefix DOC_PREFIX (db c))) in
  (actual_count, mkCollection (name c) (collection_type c) (db c) actual_count (chunk_count c) true
     (change_sender c) (vector_indexes c)).

(** ** Validation *)

Definition validate_edge_field (obj : list (string * Value)) (field : string) : result DbError unit :=
  match OMap.get field obj with
  | Some (JString s) =>
      if negb (String.eqb s "") then Ok tt
      else Err (InvalidDocument ("Edge document " +:+ (field +:+ " field must be a non-empty string")))
  | Some _ => Err (InvalidDocument ("Edge document " +:+ (field +:+ " field must be a string")))
  | None => Err (InvalidDocument ("Edge document must have a " +:+ (field +:+ " field")))
  end.
Definition validate_edge_document (data : Value) : result DbError unit :=
  match as_object data with
  | None => Err (InvalidDocument "Edge document must be a JSON object")
  | Some obj =>
      match validate_edge_field obj "_from" with
      | Err e => Err e
      | Ok _ => validate_edge_field obj "_to"
      end
  end.
Definition validate_edge (c : Collection) (data : Value) : result DbError unit :=
  if String.eqb (collection_type c) "edge" then validate_edge_document data else Ok tt.
Definition validate_schema (c : Collection) (data : Value) : result DbError unit :=
  match get_cached_schema_validator (db c) with
  | Err e => Err e
  | Ok None => Ok tt
  | Ok (Some validate) =>
      match validate data with
      | None => Ok tt
      | Some msg => Err (InvalidDocument ("Schema validation failed: " +:+ msg))
      end
  end.
Definition reject_timeseries (c : Collection) : result DbError unit :=
  if String.eqb (collection_type c) "timeseries"
  then Err (OperationNotSupported "Update operations are not allowed on timeseries collections")
  else Ok tt.

(** The key of a new document: its own ["_key"] or a fresh one. *)
Definition take_key (generated_key : string) (data : Value) : result DbError (string * Value) :=
  match data with
  | Object obj =>
      match OMap.get "_key" obj with
      | Some (JString key) => Ok (key, Object (OMap.remove "_key" obj))
      | Some _ => Err (InvalidDocument "_key must be a string")
      | None => Ok (generated_key, data)
      end
  | _ => Ok (generated_key, data)
  end.

(** ** What an operation writes *)

Definition dels (l : list string) : list write_op := Del <$> l.
(** The TTL entries are written with an empty value whatever they carry. *)
Definition empty_puts (l : list (string * string)) : list write_op := (λ p, Put p.1 "") <$> l.

Definition insert_entries (db : DB) (key : string) (doc_value : Value)
    : result DbError (list write_op) :=
  match compute_index_entries_for_insert db key doc_value with
  | Err e => Err e
  | Ok (regular_entries, geo_entries) =>
      Ok (puts regular_entries ++ puts geo_entries ++
          puts (compute_fulltext_entries_for_insert db key doc_value) ++
          empty_puts (compute_ttl_expiry_entries_for_insert db key doc_value))
  end.
Definition update_entries (db : DB) (key : string) (old_value new_value : Value)
    : result DbError (list write_op) :=
  match compute_index_entries_for_update db key old_value new_value with
  | Err e => Err e
  | Ok (entries_to_add, keys_to_remove, geo_entries_to_add, geo_keys_to_remove) =>
      let '(ttl_entries_to_add, ttl_keys_to_remove) :=
        compute_ttl_expiry_entries_for_update db key old_value new_value in
      Ok (dels keys_to_remove ++ dels geo_keys_to_remove ++
          puts entries_to_add ++ puts geo_entries_to_add ++
          dels (compute_fulltext_entries_for_delete db key old_value) ++
          puts (compute_fulltext_entries_for_insert db key new_value) ++
          dels ttl_keys_to_remove ++ empty_puts ttl_entries_to_add)
  end.
Definition delete_entries (db : DB) (key : string) (doc_value : Value)
    : result DbError (list write_op) :=
  match compute_index_entries_for_delete db key doc_value with
  | Err e => Err e
  | Ok (regular_keys, geo_keys) =>
      Ok (dels regular_keys ++ dels geo_keys ++
          dels (compute_fulltext_entries_for_delete db key doc_value) ++
          dels (compute_ttl_expiry_entries_for_delete db key doc_value))
  end.

(** [db.write(batch)] *)
Definition write (msg : string) (batch : list write_op) (c : Collection) : result DbError Collection :=
  match kv_write batch (db c) with
  | Some db' => Ok (set_db db' c)
  | None => Err (InternalError msg)
  end.

(** ** Insert *)

Definition prepare_insert (generated_key generated_rev : string) (now : Z) (update_indexes : bool)
    (data : Value) (c : Collection) : result DbError (Document * list write_op) :=
  match validate_edge c data with
  | Err e => Err e
  | Ok _ =>
  match validate_schema c data with
  | Err e => Err e
  | Ok _ =>
  match take_key generated_key data with
  | Err e => Err e
  | Ok (key, data') =>
  let doc := with_key generated_rev now (name c) key data' in
  let doc_value := to_value doc in
  match (if update_indexes then check_unique_constraints (db c) key doc_value else Ok tt) with
  | Err e => Err e
  | Ok _ =>
  match serialize_doc doc with
  | Err e => Err e
  | Ok doc_bytes =>
  match (if update_indexes then insert_entries (db c) key doc_value else Ok []) with
  | Err e => Err e
  | Ok entries => Ok (doc, Put (doc_key key) doc_bytes :: entries)
  end end end end end end.
Definition insert_internal (generated_key generated_rev : string) (now : Z) (update_indexes : bool)
    (data : Value) (c : Collection) : result DbError Document * Collection :=
  match prepare_insert generated_key generated_rev now update_indexes data c with
  | Err e => (Err e, c)
  | Ok (doc, batch) =>
      match write "Failed to insert document" batch c with
      | Err e => (Err e, c)
      | Ok c1 =>
          let c2 := if update_indexes then vector (VectorUpsert (key doc) (to_value doc)) c1 else c1 in
          (Ok doc, send (mkEvent CInsert (key doc) (Some (to_value doc)) None) (increment_count c2))
      end
  end.
Definition insert (generated_key generated_rev : string) (now : Z) (data : Value) (c : Collection)
    : result DbError Document * Collection :=
  insert_internal generated_key generated_rev now true data c.
Definition insert_no_index (generated_key generated_rev : string) (now : Z) (data : Value)
    (c : Collection) : result DbError Document * Collection :=
  insert_internal generated_key generated_rev now false data c.

(** ** Update *)

Definition write_update (k : string) (old_value : Value) (doc : Document) (c : Collection)
    : result DbError Document * Collection :=
  let new_value := to_value doc in
  match serialize_doc doc with
  | Err e => (Err e, c)
  | Ok doc_bytes =>
  match update_entries (db c) k old_value new_value with
  | Err e => (Err e, c)
  | Ok entries =>
  match write "Failed to update document" (Put (doc_key k) doc_bytes :: entries) c with
  | Err e => (Err e, c)
  | Ok c1 =>
      (Ok doc, send (mkEvent CUpdate k (Some new_value) (Some old_value))
                 (vector (VectorUpsert k new_value) (vector (VectorDelete k) c1)))
  end end end.
Definition update (generated_rev : string) (now : Z) (k : string) (data : Value) (c : Collection)
    : result DbError Document * Collection :=
  match reject_timeseries c with
  | Err e => (Err e, c)
  | Ok _ =>
  match get c k with
  | Err e => (Err e, c)
  | Ok old_doc =>
  let doc := Document.update generated_rev now data old_doc in
  match validate_edge c (to_value doc) with
  | Err e => (Err e, c)
  | Ok _ =>
  match validate_schema c (to_value doc) with
  | Err e => (Err e, c)
  | Ok _ => write_update k (to_value old_doc) doc c
  end end end end.
Definition revision_error (k expected current : string) : DbError :=
  ConflictError ("Document '" +:+ (k +:+ ("' has been modified. Expected revision '" +:+
    (expected +:+ ("', but current is '" +:+ (current +:+ "'")))))).
Definition update_with_rev (generated_rev : string) (now : Z) (k expected_rev : string) (data : Value)
    (c : Collection) : result DbError Document * Collection :=
  match reject_timeseries c with
  | Err e => (Err e, c)
  | Ok _ =>
  match get c k with
  | Err e => (Err e, c)
  | Ok old_doc =>
      if negb (String.eqb (revision old_doc) expected_rev)
      then (Err (revision_error k expected_rev (revision old_doc)), c)
      else write_update k (to_value old_doc) (Document.update generated_rev now data old_doc) c
  end end.

(** ** Blobs *)

Definition blob_only (c : Collection) : bool := String.eqb (collection_type c) "blob".
Definition put_blob_chunk (k : string) (chunk_index : N) (data : string) (c : Collection)
    : result DbError unit * Collection :=
  if negb (blob_only c)
  then (Err (OperationNotSupported "Blob operations only supported on blob collections"), c)
  else
    let chunk_key := blo_chunk_key k chunk_index in
    let exists_ := match kv_get chunk_key (db c) with Some _ => true | None => false end in
    match write "Failed to store blob chunk" [Put chunk_key data] c with
    | Err e => (Err e, c)
    | Ok c1 => (Ok tt, if exists_ then c1 else add_chunks 1 c1)
    end.
Definition get_blob_chunk (k : string) (chunk_index : N) (c : Collection) : option string :=
  kv_get (blo_chunk_key k chunk_index) (db c).
Definition delete_blob_data (k : string) (c : Collection) : result DbError unit * Collection :=
  let prefix := BLO_PREFIX +:+ (k +:+ ":") in
  let batch := (λ p, Del p.1) <$> scan_prefix prefix (db c) in
  let count := N.of_nat (length batch) in
  if (0 <? count)%N
  then match write "delete_blob_data" batch c with
       | Err e => (Err e, c)
       | Ok c1 => (Ok tt, sub_chunks count c1)
       end
  else (Ok tt, c).

(** ** Delete *)

Definition delete (k : string) (c : Collection) : result DbError unit * Collection :=
  match get c k with
  | Err e => (Err e, c)
  | Ok doc =>
  let doc_value := to_value doc in
  match delete_entries (db c) k doc_value with
  | Err e => (Err e, c)
  | Ok entries =>
  match write "Failed to delete document" (Del (doc_key k) :: entries) c with
  | Err e => (Err e, c)
  | Ok c1 =>
  match (if blob_only c then delete_blob_data k c1 else (Ok tt, c1)) with
  | (Err e, c2) => (Err e, c2)
  | (Ok _, c2) =>
      (Ok tt, send (mkEvent CDelete k None (Some doc_value))
                (decrement_count (vector (VectorDelete k) c2)))
  end end end end.
End Collection.

(** ** The key spaces of a column family *)

Definition op_target (op : write_op) : string := match op with Put k _ | Del k => k end.
(** The spaces of the index entries. The TTL entries are inside the space of
    the documents, under keys that start with ["ttl_exp:"]. *)
Definition other_prefixes : list string :=
  [GEO_PREFIX; FT_TERM_PREFIX; FT_PREFIX; doc_key TTL_EXPIRY_PREFIX].
Definition entry_prefixes : list string := IDX_PREFIX :: other_prefixes.
Definition meta_prefixes : list string :=
  [IDX_META_PREFIX; GEO_META_PREFIX; FT_META_PREFIX; TTL_META_PREFIX].
Definition entry_space (k : string) : Prop := Exists (λ p, starts_with p k = true) entry_prefixes.
Definition other_space (k : string) : Prop := Exists (λ p, starts_with p k = true) other_prefixes.
(** A document key that is not the key of a TTL entry. *)
Definition plain (k : string) : Prop := starts_with TTL_EXPIRY_PREFIX k = false.

(** Two prefixes neither of which starts with the other share no key. *)
Lemma prefixes_disjoint p q k :
  starts_with p q = false → starts_with q p = false →
  starts_with p k = true → starts_with q k = false.
Proof.
  intros Hpq Hqp [r ->]%starts_with_split. destruct (starts_with q (p +:+ r)) eqn:E; [|done].
  apply starts_with_split in E as [r' E]. exfalso. revert q Hpq Hqp E.
  induction p as [|a p IH]; intros [|b q] Hpq Hqp E; try done.
  change (String a (p +:+ r) = String b (q +:+ r')) in E. injection E as -> E.
  rewrite starts_with_cons, Ascii.eqb_refl in Hpq, Hqp. by apply (IH q).
Qed.
Lemma starts_with_under p q k : starts_with (p +:+ q) (p +:+ k) = starts_with q k.
Proof.
  induction p as [|c p IH]; [done|].
  change (starts_with (String c (p +:+ q)) (String c (p +:+ k)) = starts_with q k).
  by rewrite starts_with_cons, Ascii.eqb_refl.
Qed.
Lemma doc_key_not_entry k : plain k → ¬ entry_space (doc_key k).
Proof.
  intros Hk H. unfold entry_space, entry_prefixes, other_prefixes in H. rewrite !Exists_cons, Exists_nil in H.
  destruct H as [H|[H|[H|[H|[H|[]]]]]]; try done.
  unfold doc_key in H. rewrite starts_with_under in H. unfold plain in Hk. congruence.
Qed.
Lemma entry_not_doc k e : plain k → entry_space e → e ≠ doc_key k.
Proof. intros Hk He ->. by apply (doc_key_not_entry k). Qed.
Lemma doc_key_inj k k' : doc_key k = doc_key k' → k = k'.
Proof. apply str_app_inj_l. Qed.
Lemma entry_not_meta p e : p ∈ meta_prefixes → entry_space e → starts_with p e = false.
Proof.
  intros Hp He. unfold entry_space in He. apply Exists_exists in He as (q & Hq & He).
  apply (prefixes_disjoint q); [| |done]; unfold meta_prefixes, entry_prefixes, other_prefixes in *;
    repeat (apply elem_of_cons in Hp as [->|Hp] || apply elem_of_nil in Hp as []);
    repeat (apply elem_of_cons in Hq as [->|Hq] || apply elem_of_nil in Hq as []); reflexivity.
Qed.

Section Spaces.
Context {Num : Type} `{!JsonNumber Num} `{!JsonText Num} `{!MetaJson Num} `{!DocumentJson Num}
  `{!DocCodec Num}.
Context `{hex_crate : !HexCrate} `{std_text : !StdText}.
Context {DB : Type} `{!KvStore DB}.
Notation Value := (Value Num).
Implicit Types (d : DB) (k e : string) (v w : Value).

(** *** Where the entries are *)

Lemma other_entry_space e : other_space e → entry_space e.
Proof. by right. Qed.
Lemma other_not_idx e : other_space e → starts_with IDX_PREFIX e = false.
Proof.
  intros (q & Hq & He)%Exists_exists. apply (prefixes_disjoint q); [| |done];
    unfold other_prefixes in Hq;
    repeat (apply elem_of_cons in Hq as [->|Hq] || apply elem_of_nil in Hq as []); reflexivity.
Qed.
Ltac solve_other :=
  unfold compose, other_space, other_prefixes, geo_entry_key, ft_term_key, ft_ngram_key;
  cbv beta; rewrite !Exists_cons; cbn [fst]; auto with solidb.

Lemma idx_keys_space k v (l : list Index) :
  Forall (λ e, starts_with IDX_PREFIX e = true) (omap (entry_key_for k v) l).
Proof.
  apply Forall_forall. intros x (i & _ & H)%list_elem_of_omap. unfold entry_key_for in H.
  destruct (all_null _); [done|]. injection H as <-. apply starts_with_app.
Qed.
Lemma entry_for_key k v (l : list Index) :
  omap (entry_for k v) l = (λ e, (e, k)) <$> omap (entry_key_for k v) l.
Proof.
  induction l as [|i l IH]; [done|]. cbn [omap list_omap]. unfold entry_for at 1.
  destruct (entry_key_for k v i); cbn; by rewrite IH.
Qed.
Lemma geo_entries_space k v l r : geo_entries_for k v l = Ok r → Forall other_space r.*1.
Proof.
  revert r. induction l as [|g l IH]; intros r H; simpl in H; [by injection H as <-|].
  destruct (is_null _); [by apply IH|]. destruct (value_to_vec _) as [data|]; [|done].
  destruct (geo_entries_for k v l) as [r'|]; [|done]. injection H as <-.
  constructor; [|by apply IH]. solve_other.
Qed.
Lemma geo_keys_space k l : Forall other_space (geo_keys k l).
Proof. apply Forall_fmap, Forall_true. intros g. solve_other. Qed.
Lemma fulltext_keys_space k v l : Forall other_space (fulltext_keys k v l).
Proof.
  apply Forall_forall. intros e (i & _ & H)%list_elem_of_In%in_flat_map.
  apply in_flat_map in H as (f & _ & H). unfold fulltext_field_keys in H.
  destruct (as_str _) as [text|]; [|done].
  apply list_elem_of_In, elem_of_app in H as [H|H];
    apply list_elem_of_fmap in H as (t & -> & _); solve_other.
Qed.
Lemma ttl_keys_space k v (l : list TtlIndex) : Forall other_space (omap (ttl_key_for k v) l).
Proof.
  apply Forall_forall. intros e (i & _ & H)%list_elem_of_omap. unfold ttl_key_for in H.
  destruct (extract_expiry_time v _) as [t|]; [|done]. injection H as <-.
  unfold other_space, other_prefixes. rewrite !Exists_cons. right; right; right; left.
  unfold ttl_expiry_key, doc_key. rewrite starts_with_under. apply starts_with_app.
Qed.

Lemma dels_target (P : string → Prop) l : Forall P l → Forall (P ∘ op_target) (dels l).
Proof. intros H. by apply Forall_fmap. Qed.
Lemma puts_target (P : string → Prop) l : Forall P l.*1 → Forall (P ∘ op_target) (puts l).
Proof. rewrite Forall_fmap. intros H. by apply Forall_fmap. Qed.
Lemma empty_puts_target (P : string → Prop) l : Forall P l.*1 → Forall (P ∘ op_target) (empty_puts l).
Proof. rewrite Forall_fmap. intros H. by apply Forall_fmap. Qed.
Lemma fst_pair_r {A B} (y : B) (l : list A) : ((λ x, (x, y)) <$> l).*1 = l.
Proof. rewrite <-list_fmap_compose. induction l as [|x l IH]; [done|]. simpl. by f_equal. Qed.

(** The writes to other spaces leave the entries of the regular indexes. *)
Lemma other_skip e o batch :
  starts_with IDX_PREFIX e = true → Forall (other_space ∘ op_target) batch →
  foldl (write_key e) o batch = o.
Proof.
  intros He Hb. apply write_key_other. eapply Forall_impl; [exact Hb|].
  intros [k' w'|k'] H%other_not_idx; simpl in *; congruence.
Qed.
#[local] Hint Resolve geo_keys_space fulltext_keys_space ttl_keys_space dels_target : spaces.

Definition idx_reads (b b' : list write_op) : Prop :=
  Forall (entry_space ∘ op_target) b ∧
  ∀ e o, starts_with IDX_PREFIX e = true → foldl (write_key e) o b = foldl (write_key e) o b'.
Lemma idx_reads_other b b' c :
  Forall (other_space ∘ op_target) c → idx_reads b b' → idx_reads (b ++ c) b'.
Proof.
  intros Hc [Hb Hr]. split.
  - apply Forall_app. split; [done|]. eapply Forall_impl; [exact Hc|]. intros ?. apply other_entry_space.
  - intros e o He. rewrite foldl_app, (other_skip _ _ c) by done. auto.
Qed.
Lemma idx_reads_idx b b' c :
  Forall ((λ e, starts_with IDX_PREFIX e = true) ∘ op_target) c → idx_reads b b' →
  idx_reads (b ++ c) (b' ++ c).
Proof.
  intros Hc [Hb Hr]. split.
  - apply Forall_app. split; [done|]. eapply Forall_impl; [exact Hc|]. intros ? H. by left.
  - intros e o He. rewrite !foldl_app. f_equal. auto.
Qed.
Lemma idx_reads_nil : idx_reads [] [].
Proof. by split. Qed.
#[local] Hint Resolve idx_reads_nil idx_reads_other idx_reads_idx : spaces.

(** *** What the writes of an operation do to the regular index entries *)

Definition idx_keys d k v : list string := omap (entry_key_for k v) (get_all_indexes d).

Lemma idx_puts k (l : list string) :
  Forall (λ e, starts_with IDX_PREFIX e = true) l →
  Forall ((λ e, starts_with IDX_PREFIX e = true) ∘ op_target) (puts ((λ e, (e, k)) <$> l)).
Proof. intros H. apply puts_target. by rewrite fst_pair_r. Qed.
Lemma insert_entries_idx d k v b :
  insert_entries d k v = Ok b → idx_reads b (puts ((λ e, (e, k)) <$> idx_keys d k v)).
Proof.
  unfold insert_entries, compute_index_entries_for_insert.
  destruct (geo_entries_for k v _) as [g|] eqn:Hg; [|done]. apply geo_entries_space in Hg.
  intros [= <-]. rewrite entry_for_key, !app_assoc.
  repeat apply idx_reads_other; auto using puts_target, idx_reads_nil.
  - apply empty_puts_target. unfold compute_ttl_expiry_entries_for_insert. rewrite fst_pair_r. auto with spaces.
  - apply puts_target. unfold compute_fulltext_entries_for_insert. rewrite fst_pair_r. auto with spaces.
  - apply (idx_reads_idx [] []); [|auto with spaces]. apply idx_puts, idx_keys_space.
Qed.
Lemma update_entries_idx d k v w b :
  update_entries d k v w = Ok b →
  idx_reads b (dels (idx_keys d k v) ++ puts ((λ e, (e, k)) <$> idx_keys d k w)).
Proof.
  unfold update_entries, compute_index_entries_for_update.
  destruct (geo_entries_for k w _) as [g|] eqn:Hg; [|done]. apply geo_entries_space in Hg.
  cbn. intros [= <-]. unfold compute_fulltext_entries_for_delete. rewrite entry_for_key, !app_assoc.
  apply idx_reads_other; [apply empty_puts_target; rewrite fst_pair_r; auto with spaces|].
  apply idx_reads_other; [auto with spaces|].
  apply idx_reads_other.
  { apply puts_target. unfold compute_fulltext_entries_for_insert. rewrite fst_pair_r. auto with spaces. }
  do 2 (apply idx_reads_other; [auto using puts_target with spaces|]).
  apply idx_reads_idx; [apply idx_puts, idx_keys_space|].
  apply idx_reads_other; [auto with spaces|].
  apply (idx_reads_idx [] []); [|auto with spaces]. apply dels_target, idx_keys_space.
Qed.
Lemma delete_entries_idx d k v b :
  delete_entries d k v = Ok b → idx_reads b (dels (idx_keys d k v)).
Proof.
  unfold delete_entries, compute_index_entries_for_delete, compute_fulltext_entries_for_delete,
    compute_ttl_expiry_entries_for_delete. intros [= <-]. rewrite !app_assoc.
  repeat apply idx_reads_other; auto with spaces.
  apply (idx_reads_idx [] []); [|auto with spaces]. apply dels_target, idx_keys_space.
Qed.
End Spaces.

(** ** Consistency of the regular indexes *)

(** Reading one key through a batch of removals or of entries for one document. *)
Lemma dels_read e o l : foldl (write_key e) o (dels l) = if decide (e ∈ l) then None else o.
Proof.
  revert o. induction l as [|e' l IH]; intros o; [by rewrite decide_False by apply not_elem_of_nil|].
  cbn [dels fmap list_fmap foldl]. unfold dels in IH. rewrite IH. unfold write_key.
  destruct (decide (e' = e)) as [->|Hne].
  - rewrite (decide_True (P:=e ∈ e :: l)) by by left. by case_decide.
  - apply decide_ext. rewrite elem_of_cons. naive_solver.
Qed.
Lemma puts_read e o k l :
  foldl (write_key e) o (puts ((λ e, (e, k)) <$> l)) = if decide (e ∈ l) then Some k else o.
Proof.
  revert o. induction l as [|e' l IH]; intros o; [by rewrite decide_False by apply not_elem_of_nil|].
  unfold puts in *. cbn [fmap list_fmap foldl fst snd]. rewrite IH. unfold write_key.
  destruct (decide (e' = e)) as [->|Hne].
  - rewrite (decide_True (P:=e ∈ e :: l)) by by left. by case_decide.
  - apply decide_ext. rewrite elem_of_cons. naive_solver.
Qed.

(** Entries of other keys are no metadata. *)
Lemma omap_step {A B} (h : A → option B) x (l : list A) :
  omap h (x :: l) = match h x with Some y => y :: omap h l | None => omap h l end.
Proof. done. Qed.
Lemma omap_insert_none {A} (h : string * string → option A) k v l :
  (∀ w, h (k, w) = None) → omap h (OMap.insert k v l) = omap h l.
Proof.
  intros Hk. induction l as [|[k' v'] l IH].
  - cbn [OMap.insert]. by rewrite omap_step, Hk.
  - cbn [OMap.insert]. destruct (str_cmp k k') eqn:E; rewrite !omap_step.
    + apply str_cmp_eq_iff in E as <-. by rewrite !Hk.
    + by rewrite Hk.
    + by rewrite IH.
Qed.
Lemma omap_remove_none {A} (h : string * string → option A) k l :
  (∀ w, h (k, w) = None) → omap h (OMap.remove k l) = omap h l.
Proof.
  intros Hk. induction l as [|[k' v'] l IH]; [done|]. cbn [OMap.remove].
  destruct (String.eqb_spec k k') as [<-|_]; rewrite !omap_step; [by rewrite Hk|by rewrite IH].
Qed.
Lemma omap_filter {A B} (P : A → Prop) `{∀ x, Decision (P x)} (h : A → option B) (l : list A) :
  omap h (filter P l) = omap (λ x, if decide (P x) then h x else None) l.
Proof.
  induction l as [|x l IH]; [done|]. rewrite filter_cons, omap_step.
  destruct (decide (P x)); [rewrite omap_step|]; by rewrite IH.
Qed.

Section Consistency.
Context {Num : Type} `{!JsonNumber Num} `{!JsonText Num} `{!MetaJson Num} `{!DocumentJson Num}
  `{!DocCodec Num}.
Context `{hex_crate : !HexCrate} `{std_text : !StdText} `{hex_laws : !HexLaws}.
Context {DB : Type} `{!KvStore DB} `{!KvLaws DB}.
Notation Value := (Value Num).
Notation Document := (Document Num).
Implicit Types (d : DB) (k e : string).

(** The document of a key. *)
Definition doc_of d k : option Document :=
  match kv_get (doc_key k) d with
  | Some bytes => match deserialize_doc bytes with Ok x => Some x | Err _ => None end
  | None => None
  end.
Definition keys_of d k (o : option Document) : list string :=
  match o with Some x => idx_keys d k (to_value x) | None => [] end.
(** The entries of the regular indexes are those of the documents. *)
Definition consistent d : Prop :=
  ∀ e v, starts_with IDX_PREFIX e = true →
    kv_get e d = Some v ↔ plain v ∧ e ∈ keys_of d v (doc_of d v).
(** The names of the indexes have no colon. *)
Definition names_ok d : Prop := Forall (λ i, no_colon (idx_name i) = true) (get_all_indexes d).

Lemma str_all_impl (P Q : ascii → bool) s :
  (∀ c, P c = true → Q c = true) → str_all P s = true → str_all Q s = true.
Proof.
  intros H. induction s as [|c s IH]; [done|]. cbn [str_all]. rewrite !andb_true_iff.
  intros [? ?]. auto.
Qed.
Lemma hex_avoids (c0 : ascii) s :
  hex_digit c0 = false → str_all (λ c, negb (Ascii.eqb c c0)) (hex_encode s) = true.
Proof.
  intros H0. eapply str_all_impl; [|apply hex_alphabet]. intros c Hc. apply negb_true_iff.
  destruct (Ascii.eqb_spec c c0) as [->|]; congruence.
Qed.
Lemma value_part_cons (v w : Value) vs :
  value_part (v :: w :: vs) = hex_encode (encode_key v) +:+ String "_" (value_part (w :: vs)).
Proof. done. Qed.
Lemma value_part_no_colon (vs : list Value) : no_colon (value_part vs) = true.
Proof.
  unfold no_colon. induction vs as [|v [|w vs] IH]; [done|by apply hex_avoids|].
  rewrite value_part_cons, str_all_app. cbn [str_all]. rewrite IH.
  by rewrite (hex_avoids ":") by done.
Qed.
(** The text of the keys determines how many there are. *)
Lemma value_part_single (v w u : Value) vs : value_part [v] ≠ value_part (w :: u :: vs).
Proof.
  intros H. assert (str_all (λ c, negb (Ascii.eqb c "_")) (value_part (w :: u :: vs)) = true) as Ha.
  { rewrite <-H. by apply (hex_avoids "_"). }
  rewrite value_part_cons, str_all_app in Ha. cbn [str_all] in Ha.
  by rewrite andb_false_r in Ha.
Qed.
Lemma idx_entry_key_inj n n' (vs vs' : list Value) k k' :
  no_colon n = true → no_colon n' = true → idx_entry_key n vs k = idx_entry_key n' vs' k' →
  n = n' ∧ value_part vs = value_part vs' ∧ k = k'.
Proof.
  intros Hn Hn' H%str_app_inj_l. apply separated_inj in H as [-> H]; [|done..].
  apply separated_inj in H as [H ->]; [done|apply value_part_no_colon..].
Qed.
(** An entry belongs to one document. *)
Lemma entry_owner d e k k' (v v' : Value) :
  names_ok d → e ∈ idx_keys d k v → e ∈ idx_keys d k' v' → k = k'.
Proof.
  intros Hn (i & Hi & H)%list_elem_of_omap (i' & Hi' & H')%list_elem_of_omap.
  unfold names_ok in Hn. rewrite Forall_forall in Hn.
  unfold entry_key_for in H, H'. destruct (all_null _); [done|]. destruct (all_null _); [done|].
  rewrite <-H' in H. apply (inj Some), idx_entry_key_inj in H; [tauto|auto..].
Qed.

(** Replacing the document of one key and its entries. *)
Lemma step_consistent d d' k :
  names_ok d → plain k → consistent d → get_all_indexes d' = get_all_indexes d →
  (∀ k', plain k' → k' ≠ k → doc_of d' k' = doc_of d k') →
  (∀ e, starts_with IDX_PREFIX e = true →
     kv_get e d' = if decide (e ∈ keys_of d k (doc_of d' k)) then Some k
                   else if decide (e ∈ keys_of d k (doc_of d k)) then None else kv_get e d) →
  consistent d'.
Proof.
  intros Hn Hk Hc Hi Hdoc Hget e v He. rewrite (Hget e He).
  assert (∀ k' o, keys_of d' k' o = keys_of d k' o) as Hkeys
    by (intros k' [x|]; [|done]; unfold keys_of, idx_keys; by rewrite Hi).
  rewrite Hkeys. assert (∀ o o' k', e ∈ keys_of d k o → e ∈ keys_of d k' o' → k = k') as Hown.
  { intros [x|] [x'|] k'; try (intros []%elem_of_nil || intros _ []%elem_of_nil).
    by apply entry_owner. }
  case_decide as H1; [|case_decide as H2].
  - split; [intros [= <-]; by split|]. intros [_ H]. f_equal. exact (Hown _ _ _ H1 H).
  - split; [done|]. intros [_ H]. pose proof (Hown _ _ _ H2 H) as <-. done.
  - rewrite (Hc e v He). split; intros [Hv H]; (split; [done|]).
    + destruct (decide (v = k)) as [->|Hne]; [done|]. by rewrite Hdoc.
    + destruct (decide (v = k)) as [->|Hne]; [done|]. by rewrite <-Hdoc.
Qed.

(** Metadata is not written by these operations. *)
Lemma metadata_unchanged {A} (f : string → option A) p b d d' :
  kv_write b d = Some d' → Forall (λ op, starts_with p (op_target op) = false) b →
  metadata f p d' = metadata f p d.
Proof.
  intros Hw%kv_write_view Hb. unfold metadata. rewrite !kv_from_view, !omap_filter, Hw.
  unfold write_view. clear Hw. generalize (kv_view d) as l.
  induction Hb as [|op b Hop _ IH]; intros l; [done|]. cbn [foldl]. rewrite IH.
  destruct op as [k w|k]; cbn [op_target write_one] in *;
    [apply omap_insert_none|apply omap_remove_none]; intros w'; cbn [fst]; rewrite Hop;
    by case_decide.
Qed.
Lemma indexes_unchanged b d d' k o :
  kv_write (o :: b) d = Some d' → op_target o = doc_key k → Forall (entry_space ∘ op_target) b →
  get_all_indexes d' = get_all_indexes d.
Proof.
  intros Hw Ho Hb. apply (metadata_unchanged _ _ _ _ _ Hw). constructor; [by rewrite Ho|].
  eapply Forall_impl; [exact Hb|]. intros op. apply entry_not_meta. set_solver.
Qed.
(** The documents after such a batch. *)
Lemma kv_get_write b d d' e :
  kv_write b d = Some d' → kv_get e d' = foldl (write_key e) (kv_get e d) b.
Proof. intros Hw%kv_write_view. rewrite !kv_get_view, Hw. apply write_view_get, kv_view_wf. Qed.
Lemma entries_keep_docs b k o :
  plain k → Forall (entry_space ∘ op_target) b → foldl (write_key (doc_key k)) o b = o.
Proof.
  intros Hk Hb. apply write_key_other. eapply Forall_impl; [exact Hb|].
  intros [e w|e] H; by apply (entry_not_doc k).
Qed.
End Consistency.
End Collection.
