(* ===== verification/CollectionProps.v ===== *)
(** * Properties of collections

    The documents of a collection behave as a finite map, the count as its
    size, and the entries of the regular indexes follow the documents; the
    index lookups return the documents a full scan would select. Against the
    laws of the store, the document codec and the hex encoding. *)

From S2P Require Import Prelude Text Json Transaction Codec Kv Document Indexes Collection.
Import Json Codec Document Serializer Indexes Collection.

Module CollectionProps.

Section Props.
Context {Num : Type} `{!JsonNumber Num} `{!JsonText Num} `{!MetaJson Num} `{!DocumentJson Num}
  `{!DocCodec Num} `{!DocCodecLaws Num}.
Context `{hex_crate : !HexCrate} `{std_text : !StdText} `{hex_laws : !HexLaws}.
Context {DB : Type} `{!KvStore DB} `{!KvLaws DB} `{schema : !SchemaCheck Num DB}.
Notation Value := (Value Num).
Notation Document := (Document Num).
Notation Collection := (Collection Num DB).
Implicit Types (d : DB) (k e : string) (c : Collection) (m : gmap string Document).

(** ** One document and its entries *)

Lemma put_doc_of d d' k (x : Document) bytes entries :
  serialize_doc x = Ok bytes → plain k → Forall (entry_space ∘ op_target) entries →
  kv_write (Put (doc_key k) bytes :: entries) d = Some d' → doc_of d' k = Some x.
Proof.
  intros [Hx _]%deserialize_serialize Hk He Hw. unfold doc_of.
  rewrite (kv_get_write _ _ _ _ Hw). cbn [foldl]. rewrite entries_keep_docs by done.
  unfold write_key. by rewrite decide_True, Hx.
Qed.
Lemma del_doc_of d d' k entries :
  plain k → Forall (entry_space ∘ op_target) entries →
  kv_write (Del (doc_key k) :: entries) d = Some d' → doc_of d' k = None.
Proof.
  intros Hk He Hw. unfold doc_of. rewrite (kv_get_write _ _ _ _ Hw). cbn [foldl].
  rewrite entries_keep_docs by done. unfold write_key. by rewrite decide_True.
Qed.
Lemma other_doc_of d d' k k' o entries :
  op_target o = doc_key k → k' ≠ k → plain k' → Forall (entry_space ∘ op_target) entries →
  kv_write (o :: entries) d = Some d' → doc_of d' k' = doc_of d k'.
Proof.
  intros Ho Hne Hk He Hw. unfold doc_of. rewrite (kv_get_write _ _ _ _ Hw). cbn [foldl].
  rewrite entries_keep_docs by done. f_equal.
  destruct o; cbn [op_target] in Ho; subst; cbn [write_key]; rewrite decide_False; try done;
    by intros ?%doc_key_inj.
Qed.
Lemma write_consistent d d' k o entries :
  kv_write (o :: entries) d = Some d' → op_target o = doc_key k → plain k →
  names_ok d → consistent d →
  idx_reads entries (dels (keys_of d k (doc_of d k)) ++
                     puts ((λ e, (e, k)) <$> keys_of d k (doc_of d' k))) →
  consistent d' ∧ names_ok d'.
Proof.
  intros Hw Ho Hk Hn Hc [He Hr].
  pose proof (indexes_unchanged _ _ _ _ _ Hw Ho He) as Hi.
  split; [|unfold names_ok; by rewrite Hi].
  apply (step_consistent d d' k); try done.
  - intros k' Hk' Hne. by apply (other_doc_of d d' k k' o entries).
  - intros e Hidx. rewrite (kv_get_write _ _ _ _ Hw). cbn [foldl].
    assert (write_key e (kv_get e d) o = kv_get e d) as ->.
    { destruct o; cbn [op_target] in Ho; subst; cbn [write_key]; rewrite decide_False; try done;
        by intros <-. }
    rewrite Hr by done. rewrite foldl_app, dels_read, puts_read. done.
Qed.

(** ** What each operation wrote *)

Lemma insert_wrote gk rev now data c r c' :
  insert gk rev now data c = (r, c') →
  match r with
  | Err _ => c' = c
  | Ok x => ∃ data' bytes entries,
      take_key gk data = Ok (key x, data') ∧ x = with_key rev now (name c) (key x) data' ∧
      check_unique_constraints (db c) (key x) (to_value x) = Ok tt ∧
      serialize_doc x = Ok bytes ∧ insert_entries (db c) (key x) (to_value x) = Ok entries ∧
      kv_write (Put (doc_key (key x)) bytes :: entries) (db c) = Some (db c') ∧
      doc_count c' = wrap64 (doc_count c + 1) ∧ collection_type c' = collection_type c
  end.
Proof.
  unfold insert, insert_internal, prepare_insert.
  passes.
  passes.
  passes as [[k data']|] eqn Hk.
  set (x := with_key rev now (name c) k data').
  passes as [[]|] eqn Hu.
  passes as [bytes|] eqn Hb.
  passes as [entries|] eqn He.
  unfold write. passes as [d'|] eqn Hw.
  intros [= <- <-]. by exists data', bytes, entries.
Qed.
Lemma write_update_wrote k old x c r c' :
  write_update k old x c = (r, c') →
  match r with
  | Err _ => c' = c
  | Ok y => y = x ∧ ∃ bytes entries,
      serialize_doc x = Ok bytes ∧ update_entries (db c) k old (to_value x) = Ok entries ∧
      kv_write (Put (doc_key k) bytes :: entries) (db c) = Some (db c') ∧
      doc_count c' = doc_count c ∧ collection_type c' = collection_type c
  end.
Proof.
  unfold write_update. passes as [bytes|] eqn Hb.
  passes as [entries|] eqn He.
  unfold write. passes as [d'|] eqn Hw.
  intros [= <- <-]. split; [done|]. by exists bytes, entries.
Qed.
Lemma get_doc_of c k x : get c k = Ok x ↔ doc_of (db c) k = Some x.
Proof.
  unfold get, doc_of. destruct (kv_get _ _) as [b|]; [|done].
  destruct (deserialize_doc b); naive_solver.
Qed.
Lemma update_wrote rev now k data c r c' :
  update rev now k data c = (r, c') →
  match r with
  | Err _ => c' = c
  | Ok _ => ∃ x0, doc_of (db c) k = Some x0 ∧
      write_update k (to_value x0) (Document.update rev now data x0) c = (r, c')
  end.
Proof.
  unfold update. passes.
  passes as [x0|] eqn Hg. apply get_doc_of in Hg.
  passes.
  passes.
  intros H. destruct r; [by exists x0|]. by apply write_update_wrote in H.
Qed.
Lemma update_with_rev_wrote rev now k expected data c r c' :
  update_with_rev rev now k expected data c = (r, c') →
  match r with
  | Err _ => c' = c
  | Ok _ => ∃ x0, doc_of (db c) k = Some x0 ∧ revision x0 = expected ∧
      write_update k (to_value x0) (Document.update rev now data x0) c = (r, c')
  end.
Proof.
  unfold update_with_rev. passes.
  passes as [x0|] eqn Hg. apply get_doc_of in Hg.
  destruct (String.eqb_spec (revision x0) expected) as [He|]; cbn [negb]; [|by intros [= <- <-]].
  intros H. destruct r; [by exists x0|]. by apply write_update_wrote in H.
Qed.

(** Deleting blob chunks touches neither documents nor indexes. *)
Definition same_docs d d' : Prop :=
  (∀ e, starts_with BLO_PREFIX e = false → kv_get e d' = kv_get e d) ∧
  get_all_indexes d' = get_all_indexes d.
Lemma same_docs_doc_of d d' k : same_docs d d' → doc_of d' k = doc_of d k.
Proof. intros [Hg _]. unfold doc_of. by rewrite Hg. Qed.
Lemma same_docs_consistent d d' : same_docs d d' → consistent d → consistent d'.
Proof.
  intros Hs Hc e v He. destruct Hs as [Hg Hi] eqn:E. rewrite Hg.
  - rewrite (Hc e v He), (same_docs_doc_of d d' v Hs). unfold keys_of, idx_keys. by rewrite Hi.
  - by apply (prefixes_disjoint IDX_PREFIX).
Qed.
Lemma scan_prefix_all p d : Forall (λ x, starts_with p x.1 = true) (scan_prefix p d).
Proof.
  unfold scan_prefix. induction (kv_from p d) as [|x l IH]; [done|]. cbn [take_while].
  destruct (starts_with p x.1) eqn:E; by constructor.
Qed.
Lemma delete_blob_data_wrote k c r c' :
  delete_blob_data k c = (r, c') →
  same_docs (db c) (db c') ∧ doc_count c' = doc_count c ∧ collection_type c' = collection_type c.
Proof.
  unfold delete_blob_data. set (p := BLO_PREFIX +:+ (k +:+ ":")).
  destruct (0 <? _)%N; [|by intros [= <- <-]].
  unfold write. passes as [d'|] eqn Hw.
  intros [= <- <-]. split; [|done]. cbn [db set_db sub_chunks].
  assert (Forall (λ op, starts_with BLO_PREFIX (op_target op) = true)
            ((λ p, Del p.1) <$> scan_prefix p (db c))) as Hb.
  { apply Forall_fmap. eapply Forall_impl; [apply scan_prefix_all|]. intros x Hx.
    apply starts_with_split in Hx as [r Hx]. cbn. rewrite Hx. unfold p.
    rewrite str_app_assoc. apply starts_with_app. }
  split.
  - intros e He. rewrite (kv_get_write _ _ _ _ Hw). apply write_key_other.
    eapply Forall_impl; [exact Hb|]. intros [e' w|e'] H; cbn [op_target] in H; congruence.
  - apply (metadata_unchanged _ _ _ _ _ Hw). eapply Forall_impl; [exact Hb|].
    intros op. by apply prefixes_disjoint.
Qed.
Lemma delete_wrote k c r c' :
  delete k c = (r, c') →
  (c' = c ∧ is_ok r = false) ∨
  ∃ x entries d1, doc_of (db c) k = Some x ∧
    delete_entries (db c) k (to_value x) = Ok entries ∧
    kv_write (Del (doc_key k) :: entries) (db c) = Some d1 ∧ same_docs d1 (db c') ∧
    collection_type c' = collection_type c ∧
    if is_ok r then doc_count c' = sub64 (doc_count c) 1
    else doc_count c' = doc_count c ∧ collection_type c = "blob".
Proof.
  unfold delete. destruct (get c k) as [x|] eqn:Hg; [|intros [= <- <-]; by left].
  apply get_doc_of in Hg.
  destruct (delete_entries (db c) k _) as [entries|] eqn:He; [|intros [= <- <-]; by left].
  unfold write. destruct (kv_write _ (db c)) as [d1|] eqn:Hw; [|intros [= <- <-]; by left].
  destruct (blob_only c) eqn:Hblob.
  - destruct (delete_blob_data k (set_db d1 c)) as [rb c2] eqn:Hd.
    apply delete_blob_data_wrote in Hd as (Hs & Hcnt & Ht). apply String.eqb_eq in Hblob.
    destruct rb; intros [= <- <-]; right; exists x, entries, d1; cbn in *; by rewrite ?Hcnt.
  - intros [= <- <-]. right. by exists x, entries, d1.
Qed.

(** ** Requests *)

Inductive request :=
| RInsert (generated_key generated_rev : string) (now : Z) (data : Value)
| RUpdate (generated_rev : string) (now : Z) (k : string) (data : Value)
| RUpdateRev (generated_rev : string) (now : Z) (k expected_rev : string) (data : Value)
| RDelete (k : string).
Definition run (r : request) c : result DbError (option Document) * Collection :=
  match r with
  | RInsert gk rev now data =>
      let '(x, c') := insert gk rev now data c in (result_bind x (λ y, Ok (Some y)), c')
  | RUpdate rev now k data =>
      let '(x, c') := update rev now k data c in (result_bind x (λ y, Ok (Some y)), c')
  | RUpdateRev rev now k expected data =>
      let '(x, c') := update_with_rev rev now k expected data c in
      (result_bind x (λ y, Ok (Some y)), c')
  | RDelete k => let '(x, c') := delete k c in (result_bind x (λ _, Ok None), c')
  end.
(** The key a request is about. *)
Definition target (r : request) : string :=
  match r with
  | RInsert gk _ _ data => match take_key gk data with Ok (k, _) => k | Err _ => gk end
  | RUpdate _ _ k _ | RUpdateRev _ _ k _ _ | RDelete k => k
  end.
(** Its key is plain, and new if it is an insert. *)
Definition admissible (r : request) c : Prop :=
  plain (target r) ∧
  match r with RInsert _ _ _ _ => doc_of (db c) (target r) = None | _ => True end.

(** *** Indexes follow the documents *)

Lemma insert_consistent d d' k x bytes entries :
  names_ok d → consistent d → plain k → doc_of d k = None → serialize_doc x = Ok bytes →
  insert_entries d k (to_value x) = Ok entries →
  kv_write (Put (doc_key k) bytes :: entries) d = Some d' → consistent d' ∧ names_ok d'.
Proof.
  intros Hn Hc Hk Hx Hb He Hw. pose proof (insert_entries_idx _ _ _ _ He) as Hr.
  apply (write_consistent d d' k _ _ Hw); try done.
  rewrite Hx, (put_doc_of _ _ _ _ _ _ Hb Hk (proj1 Hr) Hw). exact Hr.
Qed.
Lemma update_consistent d d' k x x' bytes entries :
  names_ok d → consistent d → plain k → doc_of d k = Some x → serialize_doc x' = Ok bytes →
  update_entries d k (to_value x) (to_value x') = Ok entries →
  kv_write (Put (doc_key k) bytes :: entries) d = Some d' → consistent d' ∧ names_ok d'.
Proof.
  intros Hn Hc Hk Hx Hb He Hw. pose proof (update_entries_idx _ _ _ _ _ He) as Hr.
  apply (write_consistent d d' k _ _ Hw); try done.
  rewrite Hx, (put_doc_of _ _ _ _ _ _ Hb Hk (proj1 Hr) Hw). exact Hr.
Qed.
Lemma delete_consistent d d' k x entries :
  names_ok d → consistent d → plain k → doc_of d k = Some x →
  delete_entries d k (to_value x) = Ok entries →
  kv_write (Del (doc_key k) :: entries) d = Some d' → consistent d' ∧ names_ok d'.
Proof.
  intros Hn Hc Hk Hx He Hw. pose proof (delete_entries_idx _ _ _ _ He) as Hr.
  apply (write_consistent d d' k _ _ Hw); try done.
  rewrite Hx, (del_doc_of _ _ _ _ Hk (proj1 Hr) Hw). cbn. by rewrite app_nil_r.
Qed.

Lemma run_consistent r c res c' :
  names_ok (db c) → consistent (db c) → admissible r c → run r c = (res, c') →
  consistent (db c') ∧ names_ok (db c').
Proof.
  intros Hn Hc [Hp Hf] Hrun.
  destruct r as [gk rev now data|rev now k data|rev now k ex data|k]; cbn [run target] in *.
  - destruct (insert gk rev now data c) as [[x|] c1] eqn:Hi; apply insert_wrote in Hi;
      injection Hrun as <- <-; [|by subst].
    destruct Hi as (data' & bytes & entries & Hk & Hx & _ & Hb & He & Hw & _).
    rewrite Hk in Hp, Hf. by eapply insert_consistent.
  - destruct (update rev now k data c) as [[x|] c1] eqn:Hu; apply update_wrote in Hu;
      injection Hrun as <- <-; [|by subst].
    destruct Hu as (x0 & Hx0 & (_ & bytes & entries & Hb & He & Hw & _)%write_update_wrote).
    by eapply update_consistent.
  - destruct (update_with_rev rev now k ex data c) as [[x|] c1] eqn:Hu; apply update_with_rev_wrote in Hu;
      injection Hrun as <- <-; [|by subst].
    destruct Hu as (x0 & Hx0 & _ & (_ & bytes & entries & Hb & He & Hw & _)%write_update_wrote).
    by eapply update_consistent.
  - destruct (delete k c) as [x c1] eqn:Hd. injection Hrun as <- <-.
    apply delete_wrote in Hd as [[-> _]|(x0 & entries & d1 & Hx0 & He & Hw & Hs & _)]; [done|].
    assert (consistent d1 ∧ names_ok d1) as [Hc1 Hn1] by by eapply delete_consistent.
    split; [by apply (same_docs_consistent d1)|]. destruct Hs as [_ Hi]. unfold names_ok. by rewrite Hi.
Qed.

(** What requests one after the other make of a collection. *)
Inductive serves (c0 : Collection) : Collection → Prop :=
| serves_none : serves c0 c0
| serves_one r c res c' :
    serves c0 c → admissible r c → run r c = (res, c') → serves c0 c'.

(** C4: whatever inserts of new keys, updates and deletes a collection serves,
    and whether they succeed or fail, the entries of its regular indexes are
    those of its documents: no document is missing from an index and no entry
    is left behind. *)
Theorem indexes_follow_documents c0 c :
  names_ok (db c0) → consistent (db c0) → serves c0 c → consistent (db c) ∧ names_ok (db c).
Proof.
  intros Hn Hc. induction 1 as [|r c res c' _ [Hc1 Hn1] Hadm Hrun]; [done|].
  by apply (run_consistent r c res c').
Qed.

(** *** The documents are a finite map *)

(** [m] is what the collection holds under plain keys, and the count its size. *)
Definition represents c m : Prop :=
  (∀ k, plain k → m !! k = doc_of (db c) k) ∧ (∀ k, ¬ plain k → m !! k = None) ∧
  doc_count c = wrap64 (N.of_nat (size m)).

Lemma represents_put c c' m k x bytes entries :
  represents c m → plain k → serialize_doc x = Ok bytes →
  Forall (entry_space ∘ op_target) entries → kv_write (Put (doc_key k) bytes :: entries) (db c) = Some (db c') →
  doc_count c' = wrap64 (N.of_nat (size (<[k := x]> m))) → represents c' (<[k := x]> m).
Proof.
  intros (Hm & Hn & _) Hk Hb He Hw Hcnt. split_and!; [| |done].
  - intros k' Hk'. rewrite lookup_insert. case_decide as Hd.
    + subst. symmetry. by apply (put_doc_of _ _ _ _ _ _ Hb Hk He Hw).
    + rewrite Hm by done. symmetry.
      by apply (other_doc_of (db c) (db c') k k' (Put (doc_key k) bytes) entries).
  - intros k' Hk'. rewrite lookup_insert_ne by naive_solver. auto.
Qed.
Lemma represents_delete c c' m k d1 entries :
  represents c m → plain k → Forall (entry_space ∘ op_target) entries →
  kv_write (Del (doc_key k) :: entries) (db c) = Some d1 → same_docs d1 (db c') →
  doc_count c' = wrap64 (N.of_nat (size (base.delete k m))) → represents c' (base.delete k m).
Proof.
  intros (Hm & Hn & _) Hk He Hw Hs Hcnt. split_and!; [| |done].
  - intros k' Hk'. rewrite (same_docs_doc_of _ _ _ Hs), lookup_delete. case_decide as Hd.
    + subst. symmetry. by apply (del_doc_of _ _ _ _ Hk He Hw).
    + rewrite Hm by done. symmetry.
      by apply (other_doc_of (db c) d1 k k' (Del (doc_key k)) entries).
  - intros k' Hk'. rewrite lookup_delete. case_decide; auto.
Qed.

Lemma size_new m k x : m !! k = None →
  wrap64 (wrap64 (N.of_nat (size m)) + 1) = wrap64 (N.of_nat (size (<[k := x]> m))).
Proof.
  intros H. rewrite map_size_insert_None by done. unfold wrap64.
  rewrite N.Div0.add_mod_idemp_l. f_equal. lia.
Qed.
Lemma size_old m k x : is_Some (m !! k) → size (<[k := x]> m) = size m.
Proof. intros H. by rewrite map_size_insert_Some. Qed.
Lemma size_deleted m k : is_Some (m !! k) →
  sub64 (wrap64 (N.of_nat (size m))) 1 = wrap64 (N.of_nat (size (base.delete k m))).
Proof.
  intros H. rewrite map_size_delete_Some by done. destruct H as [y H].
  assert (size m ≠ 0) as Hz by (intros ->%map_size_empty_iff; by rewrite lookup_empty in H).
  unfold sub64, wrap64. destruct (size m) as [|n]; [done|]. cbn [pred].
  replace (N.of_nat (S n)) with (N.of_nat n + 1)%N by lia.
  rewrite <-N.add_sub_assoc by done.
  rewrite N.Div0.add_mod_idemp_l.
  replace (N.of_nat n + 1 + (u64_modulus - 1))%N with (N.of_nat n + 1 * u64_modulus)%N by (change u64_modulus with 18446744073709551616%N; lia).
  by rewrite N.Div0.mod_add.
Qed.

Lemma write_update_represents c c' m k x0 x y :
  represents c m → plain k → doc_of (db c) k = Some x0 →
  write_update k (to_value x0) x c = (Ok y, c') →
  y = x ∧ m !! k = Some x0 ∧ represents c' (<[k := x]> m).
Proof.
  intros Hm Hk Hx (-> & bytes & entries & Hb & He & Hw & Hc & _)%write_update_wrote.
  pose proof Hm as (Hm1 & _ & Hcnt). rewrite <-Hm1 in Hx by done. split_and!; [done..|].
  apply (represents_put c c' m k x bytes entries); try done.
  - by apply (update_entries_idx _ _ _ _ _ He).
  - by rewrite Hc, Hcnt, size_old by by eexists.
Qed.

(** C1: a collection is a finite map from keys to documents. An insert of a
    new key adds the document made of the request's data; an update replaces
    the stored document by its update, which with a revision happens only if
    that is the stored revision; a delete removes it; the count is the number of
    documents; and a request that fails leaves the collection as it was, but
    for the delete of a blob whose chunks cannot be deleted. *)
Theorem collection_refines_map r c m res c' :
  represents c m → admissible r c → run r c = (res, c') →
  match r, res with
  | RInsert gk rev now data, Ok (Some x) =>
      m !! target r = None ∧ represents c' (<[target r := x]> m) ∧
      ∃ data', take_key gk data = Ok (target r, data') ∧
               x = with_key rev now (name c) (target r) data'
  | RUpdate rev now k data, Ok (Some x) =>
      represents c' (<[k := x]> m) ∧ ∃ x0, m !! k = Some x0 ∧ x = Document.update rev now data x0
  | RUpdateRev rev now k expected data, Ok (Some x) =>
      represents c' (<[k := x]> m) ∧
      ∃ x0, m !! k = Some x0 ∧ x = Document.update rev now data x0 ∧ revision x0 = expected
  | RDelete k, Ok None => is_Some (m !! k) ∧ represents c' (base.delete k m)
  | RDelete k, Err _ => c' = c ∨ collection_type c = "blob"
  | _, Err _ => c' = c
  | _, _ => False
  end.
Proof.
  intros Hm [Hp Hf] Hrun. pose proof Hm as (Hm1 & _ & Hcnt).
  destruct r as [gk rev now data|rev now k data|rev now k ex data|k]; cbn [run target] in *.
  - destruct (insert gk rev now data c) as [[x|] c1] eqn:Hi; apply insert_wrote in Hi;
      injection Hrun as <- <-; [|done].
    destruct Hi as (data' & bytes & entries & Hk & Hx & _ & Hb & He & Hw & Hc & _).
    cbn [result_bind]. rewrite Hk in *. rewrite <-Hm1 in Hf by done. split_and!; [done| |by exists data'].
    apply (represents_put c c1 m _ x bytes entries); try done.
    + by apply (insert_entries_idx _ _ _ _ He).
    + rewrite Hc, Hcnt. by apply size_new.
  - destruct (update rev now k data c) as [[x|] c1] eqn:Hu; apply update_wrote in Hu;
      injection Hrun as <- <-; [|done]. destruct Hu as (x0 & Hx0 & Hu).
    apply (write_update_represents _ _ m) in Hu as (-> & ? & ?); [|done..]. cbn [result_bind]. eauto.
  - destruct (update_with_rev rev now k ex data c) as [[x|] c1] eqn:Hu; apply update_with_rev_wrote in Hu;
      injection Hrun as <- <-; [|done]. destruct Hu as (x0 & Hx0 & Hrev & Hu).
    apply (write_update_represents _ _ m) in Hu as (-> & ? & ?); [|done..]. cbn [result_bind]. eauto.
  - destruct (delete k c) as [x c1] eqn:Hd. injection Hrun as <- <-.
    apply delete_wrote in Hd as [[-> Hr]|(x0 & entries & d1 & Hx0 & He & Hw & Hs & _ & Hd)].
    { destruct x; [done|]. by left. }
    destruct x as [u|e0]; cbn [result_bind is_ok] in *; [|right; tauto].
    rewrite <-Hm1 in Hx0 by done. split; [by eexists|].
    apply (represents_delete c c1 m k d1 entries); try done.
    + by apply (delete_entries_idx _ _ _ _ He).
    + rewrite Hd, Hcnt. apply size_deleted. by eexists.
Qed.

(** *** Revisions *)

Lemma geo_entries_total k (v : Value) l :
  (∀ w : Value, is_Some (value_to_vec w)) → ∃ r, geo_entries_for k v l = Ok r.
Proof.
  intros Ht. induction l as [|g l [r IH]]; [by exists []|]. cbn [geo_entries_for].
  destruct (is_null _); [by exists r|]. destruct (Ht (extract_field_value v (geo_field g))) as [b ->].
  rewrite IH. by eexists.
Qed.
Lemma write_update_succeeds `{!KvReliable DB} k old x c :
  (∀ w : Value, is_Some (value_to_vec w)) → ∃ c', write_update k old x c = (Ok x, c').
Proof.
  intros Ht. unfold write_update. destruct (serialize_some x) as [bytes ->].
  unfold update_entries, compute_index_entries_for_update.
  destruct (geo_entries_total k (to_value x) (get_all_geo_indexes (db c)) Ht) as [g ->]. cbn.
  unfold write. edestruct kv_write_ok as [d' ->]. by eexists.
Qed.

(** optimistic concurrency control. On a stored document, an update with
    a revision succeeds exactly when that is the stored revision, and fails
    with a conflict and no effect otherwise; so of two such updates from one
    revision the second fails, whatever the first wrote, as long as the
    generated revision is new. *)
Theorem update_with_rev_checks_revision `{!KvReliable DB} rev now k expected data c x0 :
  (∀ w : Value, is_Some (value_to_vec w)) → collection_type c ≠ "timeseries" → plain k →
  doc_of (db c) k = Some x0 →
  if decide (revision x0 = expected)
  then ∃ c', update_with_rev rev now k expected data c = (Ok (Document.update rev now data x0), c') ∧
    (rev ≠ expected → ∀ rev' now' data',
       update_with_rev rev' now' k expected data' c' = (Err (revision_error k expected rev), c'))
  else update_with_rev rev now k expected data c =
         (Err (revision_error k expected (revision x0)), c).
Proof.
  intros Ht Hts Hk Hx. pose proof Hx as Hg. apply get_doc_of in Hg.
  assert (∀ c, collection_type c ≠ "timeseries" → reject_timeseries c = Ok tt) as Hr.
  { intros c1 H. unfold reject_timeseries. by destruct (String.eqb_spec (collection_type c1) "timeseries"). }
  case_decide as Hrev.
  - set (x := Document.update rev now data x0).
    destruct (write_update_succeeds k (to_value x0) x c Ht) as [c' Hc']. exists c'. split.
    { unfold update_with_rev. rewrite Hr, Hg by done.
      by rewrite (proj2 (String.eqb_eq _ _) Hrev). }
    apply write_update_wrote in Hc' as (_ & bytes & entries & Hb & He & Hw & _ & Hct).
    intros Hne rev' now' data'. unfold update_with_rev. rewrite Hr by congruence.
    assert (get c' k = Ok x) as ->.
    { apply get_doc_of, (put_doc_of (db c) _ _ _ _ entries Hb Hk); [|exact Hw].
      by apply (update_entries_idx _ _ _ _ _ He). }
    change (revision x) with rev. by rewrite (proj2 (String.eqb_neq _ _) Hne).
  - unfold update_with_rev. rewrite Hr, Hg by done. by rewrite (proj2 (String.eqb_neq _ _) Hrev).
Qed.

(** *** Scanning a prefix *)

Lemma prefix_between p e r : str_leb p e = true → str_leb e (p +:+ r) = true → starts_with p e = true.
Proof.
  revert e. induction p as [|a p IH]; intros e H1 H2; [by destruct e|].
  destruct e as [|b e]; [done|]. rewrite starts_with_cons.
  change (String a p +:+ r) with (String a (p +:+ r)) in H2.
  unfold str_leb, str_cmp in H1, H2. cbn [String.compare] in H1, H2.
  rewrite (Ascii.compare_antisym b a) in H2. destruct (Ascii.compare a b) eqn:E; cbn in H2; try done.
  apply Ascii.compare_eq_iff in E as ->. rewrite Ascii.eqb_refl. by apply IH.
Qed.
Lemma prefix_leb p r : str_leb p (p +:+ r) = true.
Proof.
  induction p as [|a p IH]; [by destruct r|].
  change (String a p +:+ r) with (String a (p +:+ r)). unfold str_leb, str_cmp in *. cbn [String.compare].
  by rewrite (cmp_refl Ascii.compare).
Qed.
Lemma take_while_elem {A} (f : A → bool) l x : x ∈ take_while f l → x ∈ l ∧ f x = true.
Proof.
  induction l as [|y l IH]; cbn [take_while]; [by intros ?%elem_of_nil|].
  destruct (f y) eqn:E; [|by intros ?%elem_of_nil]. rewrite !elem_of_cons. intros [->|H]; [by auto|].
  destruct (IH H). auto.
Qed.
(** In a sorted list a prefix is one run. *)
Lemma take_while_prefix p (l : list (string * string)) e v :
  OMap.wf l → Forall (λ x, str_leb p x.1 = true) l → (e, v) ∈ l → starts_with p e = true →
  (e, v) ∈ take_while (λ x, starts_with p x.1) l.
Proof.
  induction l as [|[e' v'] l IH]; intros Hw Hl Hin He; [by apply elem_of_nil in Hin|].
  apply OMap.wf_cons in Hw as [Hw Hlt]. inversion Hl as [|? ? Hl1 Hl2]; subst. cbn [take_while fst] in *.
  apply elem_of_cons in Hin as [[= -> ->]|Hin]; [rewrite He; by left|].
  assert (starts_with p e' = true) as ->.
  { apply starts_with_split in He as [r ->]. apply (prefix_between p e' r); [done|].
    unfold str_leb. by rewrite (Hlt _ _ Hin). }
  right. by apply IH.
Qed.
Lemma wf_filter (P : string * string → Prop) `{∀ x, Decision (P x)} (l : list (string * string)) :
  OMap.wf l → OMap.wf (filter P l).
Proof.
  induction l as [|[e v] l IH]; [done|]. intros [Hw Hlt]%OMap.wf_cons.
  rewrite filter_cons. case_decide; [|by apply IH]. apply OMap.wf_cons. split; [by apply IH|].
  intros e' v' [_ Hin]%list_elem_of_filter. by eapply Hlt.
Qed.
Lemma scan_prefix_elem p d e v :
  (e, v) ∈ scan_prefix p d ↔ starts_with p e = true ∧ kv_get e d = Some v.
Proof.
  unfold scan_prefix. rewrite kv_from_view, kv_get_view, <-OMap.get_elem by apply kv_view_wf. split.
  - intros [[_ Hin]%list_elem_of_filter Hp]%take_while_elem. done.
  - intros [Hp Hin]. apply take_while_prefix; [by apply wf_filter, kv_view_wf| | |done].
    + apply Forall_forall. by intros x [Hx _]%list_elem_of_filter.
    + apply list_elem_of_filter. split; [|done]. apply starts_with_split in Hp as [r ->]. apply prefix_leb.
Qed.

(** *** Lookups through an index *)

Lemma index_for_field_listed f d i :
  get_index_for_field f d = Some i → i ∈ get_all_indexes d ∧ head (idx_fields i) = Some f.
Proof.
  unfold get_index_for_field, get_all_indexes, metadata, scan_prefix.
  generalize (kv_from IDX_META_PREFIX d) as l. intros l.
  induction l as [|[mk val] l IH]; cbn [take_while find_index fst]; [done|].
  destruct (starts_with IDX_META_PREFIX mk) eqn:Hp; [|done]. cbn [find_index].
  rewrite omap_step. cbn [fst snd]. rewrite Hp.
  destruct (index_from_slice val) as [i'|] eqn:Hi; [|apply IH].
  case_bool_decide as Hh; [intros [= ->]; split; [by left|done]|].
  intros [? ?]%IH. split; [by right|done].
Qed.
Lemma encode_key_null (v : Value) : encode_key v = encode_key Null → v = Null.
Proof. by destruct v as [|[]| | | |]. Qed.
(** The entries under the prefix of the values of an index. *)
Definition only_index d i : Prop :=
  i ∈ get_all_indexes d ∧ ∀ j, j ∈ get_all_indexes d → idx_name j = idx_name i → j = i.
Lemma prefix_entries d i (vs : list Value) e k :
  names_ok d → consistent d → only_index d i →
  (e, k) ∈ scan_prefix (value_prefix i vs) d ↔
  ∃ x, plain k ∧ doc_of d k = Some x ∧ entry_key_for k (to_value x) i = Some e ∧
       value_part (field_values (to_value x) (idx_fields i)) = value_part vs.
Proof.
  intros Hn Hc [Hi Huniq]. rewrite scan_prefix_elem.
  unfold names_ok in Hn. rewrite Forall_forall in Hn.
  split.
  - intros [Hp Hg]. assert (starts_with IDX_PREFIX e = true) as He.
    { apply starts_with_split in Hp as [r ->]. unfold value_prefix. rewrite str_app_assoc. apply starts_with_app. }
    apply (Hc e k He) in Hg as [Hk Hin]. destruct (doc_of d k) as [x|] eqn:Hx; [|by apply elem_of_nil in Hin].
    apply list_elem_of_omap in Hin as (j & Hj & Hin). exists x.
    pose proof Hin as Hin'. unfold entry_key_for in Hin'.
    destruct (all_null _) eqn:Hnn; [done|]. apply (inj Some) in Hin'. rewrite <-Hin' in Hp.
    apply starts_with_split in Hp as [r Hp]. unfold value_prefix, idx_entry_key in Hp.
    rewrite !str_app_assoc in Hp. apply str_app_inj_l in Hp.
    apply separated_inj in Hp as [Hname Hp]; [|by apply Hn..]. assert (j = i) as -> by auto.
    split_and!; [done..|].
    change (value_part (field_values (to_value x) (idx_fields i)) +:+ String ":" k =
            value_part vs +:+ String ":" r) in Hp.
    by apply separated_inj in Hp as [Hp _]; [|apply value_part_no_colon..].
  - intros (x & Hk & Hx & He & Hvp).
    assert (starts_with IDX_PREFIX e = true ∧ starts_with (value_prefix i vs) e = true) as [Hidx Hpre].
    { unfold entry_key_for in He. destruct (all_null _); [done|]. apply (inj Some) in He. subst e.
      split; [apply starts_with_app|]. apply starts_with_split. exists k.
      unfold value_prefix, idx_entry_key. rewrite Hvp. by rewrite !str_app_assoc. }
    split; [done|]. apply Hc; [done|]. split; [done|]. rewrite Hx. apply list_elem_of_omap. by exists i.
Qed.
Lemma single_value_part (v w : Value) : value_part [v] = value_part [w] ↔ encode_key v = encode_key w.
Proof. split; [apply (hex_inj (encode_key v) (encode_key w))|]. unfold value_part. cbn. by intros ->. Qed.

(** The documents under the prefix of a value. *)
Lemma lookup_reads `{!StdTextLaws} f i (value : Value) d x :
  names_ok d → consistent d → (∀ k, is_Some (doc_of d k) → utf8_valid k = true) → idx_fields i = [f] →
  only_index d i → value ≠ Null →
  x ∈ read_docs d ((λ p, doc_key (utf8_lossy p.2)) <$> scan_prefix (value_prefix i [value]) d) ↔
  ∃ k, plain k ∧ doc_of d k = Some x ∧ encode_key (extract_field_value (to_value x) f) = encode_key value.
Proof.
  intros Hn Hc Hutf Hf Hone Hnull. unfold read_docs. rewrite list_elem_of_omap. split.
  - intros (key & Hkey & Hread). apply list_elem_of_fmap in Hkey as ([e k] & -> & Hscan).
    apply prefix_entries in Hscan as (x' & Hk & Hx' & _ & He); [|done..].
    cbn [snd] in Hread. rewrite utf8_lossy_valid in Hread by (apply Hutf; by eexists).
    rewrite Hf in He. apply single_value_part in He.
    exists k. unfold doc_of in Hx'. rewrite Hx' in Hread. injection Hread as <-. done.
  - intros (k & Hk & Hx & He). exists (doc_key k). split; [|exact Hx].
    destruct (entry_key_for k (to_value x) i) as [e|] eqn:Hent.
    + apply list_elem_of_fmap. exists (e, k). split.
      { cbn [snd]. by rewrite utf8_lossy_valid by (apply Hutf; by eexists). }
      apply prefix_entries; try done. exists x. split_and!; try done. rewrite Hf. by apply single_value_part.
    + unfold entry_key_for in Hent. rewrite Hf in Hent. unfold field_values, all_null in Hent.
      cbn [fmap list_fmap forallb] in Hent.
      destruct (extract_field_value (to_value x) f) eqn:Ev; try done.
      symmetry in He. by apply encode_key_null in He.
Qed.

(** C22: An equality lookup of a value that is not null through an index over one field, whose name no
    other index has, returns exactly the stored documents under plain keys whose field has the key of
    the value, the documents a full scan would select, when the entries of the indexes are those of
    the documents, the keys are valid UTF-8 and the names of the indexes have no colon; for a Bloom or a Cuckoo index this is so when its filter in
    memory admits the text of the value, and otherwise nothing is returned. The lookup changes
    nothing but the filters loaded. *)
Theorem index_lookup_eq_exact `{!StdTextLaws} `{filter_crates : !FilterCrates} fs f i (value : Value) d :
  names_ok d → consistent d → (∀ k, is_Some (doc_of d k) → utf8_valid k = true) →
  get_index_for_field f d = Some i → idx_fields i = [f] →
  only_index d i → value ≠ Null →
  ∃ docs, (index_lookup_eq f value d fs).1 = Some docs ∧
    (∀ x, x ∈ docs ↔ (filter_admits i (value_to_string value) d fs).1 = true ∧
       ∃ k, plain k ∧ doc_of d k = Some x ∧ encode_key (extract_field_value (to_value x) f) = encode_key value) ∧
    (idx_type i ≠ Bloom → idx_type i ≠ Cuckoo → (filter_admits i (value_to_string value) d fs).1 = true).
Proof.
  intros Hn Hc Hutf Hi Hf Hone Hnull. unfold index_lookup_eq. rewrite Hi.
  assert (idx_type i ≠ Bloom → idx_type i ≠ Cuckoo → (filter_admits i (value_to_string value) d fs).1 = true) as Hplain.
  { unfold filter_admits. by destruct (idx_type i). }
  destruct (filter_admits i (value_to_string value) d fs) as [[] fs1]; cbn [fst negb] in *.
  2: { exists []. split_and!; [done| |done]. intros x. split; [by intros ?%elem_of_nil|by intros [? _]]. }
  eexists. split; [done|]. split; [|done]. intros x. etransitivity; [by apply (lookup_reads f i value d x)|]. naive_solver.
Qed.

(** A Bloom index that has just been fed with the documents admits every value they hold. *)
Section FedFilters.
Context `{filter_crates : !FilterCrates} `{bloom_laws : !BloomLaws}.
Definition bloom_holds (n item : string) (fs : Filters) : Prop :=
  ∃ b, bloom_filters fs !! n = Some b ∧ bloom_contains item b = true.
Lemma bloom_insert_holds n item n' item' d fs :
  (n' = n ∧ item' = item) ∨ bloom_holds n' item' fs → bloom_holds n' item' (bloom_insert n item d fs).
Proof.
  intros H. unfold bloom_insert, get_or_create_bloom_filter. unfold bloom_holds in *.
  destruct (decide (n' = n)) as [->|Hne].
  - destruct (bloom_filters fs !! n) as [b|] eqn:Hb; cbn [bloom_filters]; rewrite lookup_insert_eq; eexists; (split; [done|]).
    + destruct H as [[_ ->]|(b' & Hb' & Hin)]; [apply bloom_added|]. apply bloom_kept. congruence.
    + destruct H as [[_ ->]|(b' & Hb' & _)]; [apply bloom_added|congruence].
  - destruct H as [[? _]|(b' & Hb' & Hin)]; [done|]. exists b'. split; [|done].
    destruct (bloom_filters fs !! n); cbn [bloom_filters]; rewrite !lookup_insert_ne by done; done.
Qed.
Lemma feed_filter_holds i n item v d fs : bloom_holds n item fs → bloom_holds n item (feed_filter i v d fs).
Proof.
  unfold feed_filter. destruct (all_null _); [done|]. generalize (field_values v (idx_fields i)) as vs. intros vs.
  revert fs. induction vs as [|w vs IH]; intros fs H; cbn [foldl]; [done|]. apply IH.
  destruct (idx_type i); try done; [apply bloom_insert_holds; auto|].
  unfold bloom_holds, cuckoo_insert, on_cuckoo, preload_cuckoo_filter in *. by destruct (cuckoo_filters fs !! _).
Qed.
Lemma feed_filter_new i v w d fs : idx_type i = Bloom → w ∈ field_values v (idx_fields i) → w ≠ Null →
  bloom_holds (idx_name i) (value_to_string w) (feed_filter i v d fs).
Proof.
  intros Ht Hw Hn. unfold feed_filter. rewrite Ht.
  assert (all_null (field_values v (idx_fields i)) = false) as ->.
  { apply not_true_iff_false. intros Hall. unfold all_null in Hall. rewrite forallb_forall in Hall.
    apply list_elem_of_In, Hall in Hw. by destruct w. }
  revert fs Hw. generalize (field_values v (idx_fields i)) as vs. intros vs. induction vs as [|u vs IH] using rev_ind; intros fs Hw.
  - by apply elem_of_nil in Hw.
  - rewrite foldl_app. cbn [foldl]. apply bloom_insert_holds. apply elem_of_app in Hw as [Hw|Hw%list_elem_of_singleton]; [right; auto|].
    left. by subst.
Qed.
Lemma fed_documents_admitted i (x : Document) xs w d fs : idx_type i = Bloom → x ∈ xs →
  w ∈ field_values (to_value x) (idx_fields i) → w ≠ Null →
  (filter_admits i (value_to_string w) d (feed_filters [i] (to_value <$> xs) d fs)).1 = true.
Proof.
  intros Ht Hx Hw Hn. assert (bloom_holds (idx_name i) (value_to_string w) (feed_filters [i] (to_value <$> xs) d fs)) as (b & Hb & Hin).
  { unfold feed_filters. generalize (foldl (preload_filter d) fs [i]) as fs0. intros fs0. revert fs0.
    induction xs as [|y xs IH]; intros fs0; [by apply elem_of_nil in Hx|]. cbn [fmap list_fmap foldl].
    apply elem_of_cons in Hx as [<-|Hx]; [|by apply IH]. clear IH. generalize (feed_filter_new i (to_value x) w d fs0 Ht Hw Hn).
    generalize (feed_filter i (to_value x) d fs0) as fs1. induction xs as [|y xs IH]; intros fs1 H; [done|]. cbn [fmap list_fmap foldl].
    apply IH. by apply feed_filter_holds. }
  unfold filter_admits, bloom_check, get_or_create_bloom_filter. by rewrite Ht, Hb.
Qed.
End FedFilters.

(** a lookup on the first field of an index over several fields finds
    nothing, whatever the documents hold: the entries are under the keys of
    all fields. *)
Theorem compound_lookup_empty `{filter_crates : !FilterCrates} fs f i (value : Value) d :
  names_ok d → consistent d → get_index_for_field f d = Some i → only_index d i →
  (1 < length (idx_fields i))%nat → (index_lookup_eq f value d fs).1 = Some [].
Proof.
  intros Hn Hc Hi Hone Hlen. unfold index_lookup_eq. rewrite Hi.
  destruct (filter_admits i (value_to_string value) d fs) as [[] fs1]; [|done]. cbn [negb fst].
  assert (scan_prefix (value_prefix i [value]) d = []) as ->; [|done].
  destruct (scan_prefix _ d) as [|[e k] l] eqn:E; [done|].
  assert ((e, k) ∈ scan_prefix (value_prefix i [value]) d) as Hin by (rewrite E; by left).
  apply prefix_entries in Hin as (x & _ & _ & _ & Hv); [|done..].
  destruct (idx_fields i) as [|f1 [|f2 fs']]; cbn in Hlen; [lia..|].
  symmetry in Hv. by apply value_part_single in Hv.
Qed.

(** *** Ranges *)

Lemma range_keys_inclusive p seek n (l : list (string * string)) :
  Forall (λ x, starts_with seek x.1 = false) l →
  range_keys p seek true n l = range_keys p seek false n l.
Proof.
  intros H. revert n. induction H as [|[k v] l Hk _ IH]; intros n; [done|].
  cbn [range_keys]. cbn [fst] in Hk. rewrite Hk. cbn. by rewrite IH.
Qed.

(** "at most" is "less than": the backward scan starts before the entries
    of the value itself, so that a lookup of the documents whose field is at
    most a value never returns those with that value. *)
Theorem index_lookup_lte_is_lt f (value : Value) d :
  (∀ i, get_index_for_field f d = Some i → kv_get (value_prefix i [value]) d = None) →
  index_lookup_lte f value d = index_lookup_lt f value d.
Proof.
  intros Hnone. unfold index_lookup_lte, index_lookup_lt, index_range_scan.
  destruct (get_index_for_field f d) as [i|] eqn:Hi; [|done]. do 2 f_equal.
  apply range_keys_inclusive. rewrite kv_back_view. apply Forall_reverse, Forall_forall.
  intros [e v] [Hle Hin]%list_elem_of_filter. cbn [fst] in *.
  destruct (starts_with (value_prefix i [value]) e) eqn:Hp; [|done]. exfalso.
  apply starts_with_split in Hp as [r ->].
  assert (str_cmp (value_prefix i [value] +:+ r) (value_prefix i [value]) = Eq) as Heq%str_cmp_eq_iff.
  { pose proof (prefix_leb (value_prefix i [value]) r) as Hge. unfold str_leb in *.
    rewrite (cmp_antisym _ (value_prefix i [value])) in Hge.
    by destruct (str_cmp (value_prefix i [value] +:+ r) (value_prefix i [value])). }
  rewrite Heq in Hin. apply OMap.get_elem in Hin; [|apply kv_view_wf]. rewrite <-kv_get_view in Hin.
  by rewrite (Hnone i) in Hin.
Qed.

(** *** Uniqueness *)

Definition indexed_values i (x : Document) : list Value := field_values (to_value x) (idx_fields i).
(** No two documents have the same keys in a unique index. *)
Definition unique_ok d : Prop :=
  ∀ i k1 k2 x1 x2, i ∈ get_all_indexes d → idx_unique i = true → plain k1 → plain k2 →
    doc_of d k1 = Some x1 → doc_of d k2 = Some x2 →
    all_null (indexed_values i x1) = false → all_null (indexed_values i x2) = false →
    value_part (indexed_values i x1) = value_part (indexed_values i x2) → k1 = k2.

Lemma check_unique_all_ok d k (v : Value) l :
  check_unique_all d k v l = Ok tt → Forall (λ i, check_unique_index d k v i = Ok tt) l.
Proof.
  induction l as [|i l IH]; [done|]. cbn [check_unique_all].
  destruct (check_unique_index d k v i) as [[]|] eqn:E; [|done]. intros H. constructor; auto.
Qed.
(** The check passes only if no other document has the keys. *)
Lemma check_unique_index_ok `{!StdTextLaws} d k (v : Value) i k2 x2 :
  names_ok d → consistent d → only_index d i → (∀ k, is_Some (doc_of d k) → utf8_valid k = true) →
  doc_of d k = None → idx_unique i = true → all_null (field_values v (idx_fields i)) = false →
  plain k2 → doc_of d k2 = Some x2 → all_null (indexed_values i x2) = false →
  value_part (indexed_values i x2) = value_part (field_values v (idx_fields i)) →
  check_unique_index d k v i ≠ Ok tt.
Proof.
  intros Hn Hc Hone Hutf Hk Hu Hnn Hp2 Hx2 Hnn2 Hv. unfold check_unique_index. rewrite Hu, Hnn. cbn [negb].
  set (p := value_prefix i (field_values v (idx_fields i))).
  assert (∃ e, (e, k2) ∈ scan_prefix p d) as [e He].
  { exists (idx_entry_key (idx_name i) (indexed_values i x2) k2). apply prefix_entries; try done.
    exists x2. split_and!; try done. unfold entry_key_for. unfold indexed_values in Hnn2. by rewrite Hnn2. }
  unfold scan_prefix in He. destruct (kv_from p d) as [|[e1 k1] l] eqn:Hl; [by apply elem_of_nil in He|].
  cbn [take_while fst] in He. destruct (starts_with p e1) eqn:Hp; [|by apply elem_of_nil in He].
  assert ((e1, k1) ∈ scan_prefix p d) as Hin.
  { unfold scan_prefix. rewrite Hl. cbn [take_while fst]. rewrite Hp. by left. }
  apply prefix_entries in Hin as (x1 & _ & Hx1 & _); [|done..].
  rewrite utf8_lossy_valid by (apply Hutf; by eexists). cbn [andb].
  destruct (String.eqb_spec k1 k) as [->|]; [congruence|done].
Qed.

(** an accepted insert keeps the unique indexes unique, in collections
    whose indexes follow their documents: the check against the stored entries
    finds every document with the same values. *)
Theorem insert_keeps_unique `{!StdTextLaws} gk rev now data c x c' :
  names_ok (db c) → consistent (db c) → (∀ i, i ∈ get_all_indexes (db c) → only_index (db c) i) →
  (∀ k, is_Some (doc_of (db c) k) → utf8_valid k = true) →
  admissible (RInsert gk rev now data) c → unique_ok (db c) →
  insert gk rev now data c = (Ok x, c') → unique_ok (db c').
Proof.
  intros Hn Hc Hone Hutf [Hp Hf] Huq Hins. apply insert_wrote in Hins
    as (data' & bytes & entries & Hk & Hx & Hu & Hb & He & Hw & _). cbn [target] in *. rewrite Hk in *.
  pose proof (insert_entries_idx _ _ _ _ He) as [Hes _].
  apply check_unique_all_ok in Hu. rewrite Forall_forall in Hu.
  intros i k1 k2 x1 x2. rewrite (indexes_unchanged _ _ _ (key x) _ Hw eq_refl Hes).
  intros Hi Hiu Hp1 Hp2.
  assert (∀ k, plain k → doc_of (db c') k = if decide (k = key x) then Some x else doc_of (db c) k) as Hd.
  { intros k Hpk. case_decide as Hd; [subst; by apply (put_doc_of _ _ _ _ _ _ Hb Hp Hes Hw)|].
    exact (other_doc_of _ _ _ _ (Put _ _) _ eq_refl Hd Hpk Hes Hw). }
  rewrite !Hd by done. do 2 case_decide; subst; try done; intros Hx1 Hx2 Hn1 Hn2 Hv; simplify_eq.
  - destruct (check_unique_index_ok (db c) (key x1) (to_value x1) i k2 x2); auto.
  - destruct (check_unique_index_ok (db c) (key x2) (to_value x2) i k1 x1); auto.
  - by apply (Huq i k1 k2 x1 x2).
Qed.

(** *** Inserting under a used key *)

(** an insert does not look whether its key is in use. The document is
    replaced, the count grows although the number of documents does not, and
    the index entries of the replaced document stay. *)
Theorem insert_used_key gk rev now data c m x0 x c' :
  represents c m → consistent (db c) → names_ok (db c) → plain (key x) → m !! key x = Some x0 →
  insert gk rev now data c = (Ok x, c') →
  doc_of (db c') (key x) = Some x ∧ size (<[key x := x]> m) = size m ∧
  doc_count c' = wrap64 (N.of_nat (size m) + 1) ∧
  ∀ e, e ∈ keys_of (db c) (key x) (Some x0) → kv_get e (db c') = Some (key x).
Proof.
  intros (Hm & _ & Hcnt) Hc Hn Hp Hx0 Hins. apply insert_wrote in Hins
    as (data' & bytes & entries & Hk & Hx & _ & Hb & He & Hw & Hc' & _).
  pose proof (insert_entries_idx _ _ _ _ He) as [Hes Hr]. split_and!.
  - by apply (put_doc_of _ _ _ _ _ _ Hb Hp Hes Hw).
  - apply size_old. by eexists.
  - rewrite Hc', Hcnt. unfold wrap64. by rewrite N.Div0.add_mod_idemp_l.
  - intros e Hin. assert (starts_with IDX_PREFIX e = true) as Hidx.
    { pose proof (idx_keys_space (key x) (to_value x0) (get_all_indexes (db c))) as Hs.
      rewrite Forall_forall in Hs. by apply Hs. }
    rewrite (kv_get_write _ _ _ _ Hw). cbn [foldl]. rewrite Hr by done. rewrite puts_read.
    case_decide; [done|]. cbn [write_key]. rewrite decide_False by by intros <-.
    apply Hc; [done|]. split; [done|]. by rewrite <-Hm, Hx0.
Qed.
End Props.
End CollectionProps.

(** *** A concrete collection *)

Module CollectionDemo.
Import DocumentDemo CollectionProps.

(** hex::encode *)
Fixpoint hex (s : string) : string :=
  match s with
  | EmptyString => ""
  | String c s' => Radix.fixed 16 2 (N_of_ascii c) +:+ hex s'
  end.
#[export] Instance demo_hex : HexCrate := hex.
Lemma hex_cmp s t : hex s = hex t → s = t.
Proof.
  revert t. induction s as [|c s IH]; intros [|c' t] H; try done.
  cbn [hex] in H. apply str_cmp_eq_iff in H. rewrite str_cmp_app in H by by rewrite !Radix.fixed_length.
  rewrite Radix.fixed_compare in H by (done || apply N_ascii_bounded).
  destruct (N.compare _ _) eqn:E; try done. apply N.compare_eq_iff, (f_equal ascii_of_N) in E.
  rewrite !ascii_N_embedding in E. apply str_cmp_eq_iff in H. f_equal; auto.
Qed.
#[export] Instance demo_hex_laws : HexLaws.
Proof.
  split; [|exact hex_cmp]. intros s. unfold hex_encode, demo_hex.
  induction s as [|c s IH]; [done|]. cbn [hex]. rewrite str_all_app, IH, andb_true_r.
  by apply Radix.fixed_all.
Qed.

Definition by_a : Index := mkIndex "by_a" ["a"] Persistent true.
Definition by_bc : Index := mkIndex "by_bc" ["b"; "c"] Persistent false.
Definition bloom_a : Index := mkIndex "bloom_a" ["a"] Bloom false.
#[export] Instance demo_meta : MetaJson demo_number := {
  index_from_slice s :=
    if String.eqb s "A" then Some by_a else if String.eqb s "BC" then Some by_bc
    else if String.eqb s "BL" then Some bloom_a else None;
  geo_index_from_slice _ := None;
  fulltext_index_from_slice _ := None;
  ttl_index_from_slice _ := None;
  value_to_vec v := Some (to_text v);
  value_to_string v := to_text v;
  rfc3339_timestamp _ := None;
}.
(** Filters as the sets of the items added. *)
#[export] Instance demo_filters : FilterCrates := {
  BloomFilter := gset string; bloom_new := ∅; bloom_add x f := {[x]} ∪ f; bloom_contains x f := bool_decide (x ∈ f);
  bloom_from_slice _ := None;
  CuckooFilter := gset string; cuckoo_new := ∅; cuckoo_add x f := {[x]} ∪ f; cuckoo_remove x f := f ∖ {[x]};
  cuckoo_contains x f := bool_decide (x ∈ f);
}.
#[export] Instance demo_bloom_laws : BloomLaws.
Proof.
  split.
  - intros x f. apply bool_decide_eq_true_2. cbn. set_solver.
  - intros x y f. cbn. rewrite !bool_decide_eq_true. set_solver.
Qed.
#[export] Instance demo_std : StdText := {
  to_lowercase s := s;
  char_alphanumeric c := negb (String.eqb c " ");
  char_whitespace c := String.eqb c " ";
  utf8_lossy s := s;
}.
#[export] Instance demo_std_laws : StdTextLaws.
Proof. by intros s _. Qed.
#[export] Instance demo_schema : SchemaCheck demo_number map_store := λ _, Ok None.

Notation DemoCollection := (Collection demo_number map_store).
Definition store0 : map_store :=
  default empty_store (kv_write [Put (idx_meta_key "by_a") "A"; Put (idx_meta_key "by_bc") "BC"] empty_store).
Definition c0 : DemoCollection := mkCollection "db:c" "document" store0 0 0 false [] [].
Definition doc1 : Value demo_number := Object [("_key", JString "k1"); ("a", Bool true)].
Definition doc2 : Value demo_number :=
  Object [("_key", JString "k2"); ("a", Bool false); ("b", Null); ("c", Bool true)].
Definition c1 : DemoCollection := snd (insert "g1" "r1" 1 doc1 c0).
Definition c2 : DemoCollection := snd (insert "g2" "r2" 2 doc2 c1).

Definition after_doc (e : string) : string :=
  match e with String _ (String _ (String _ (String _ k))) => k | _ => "" end.
Lemma doc_of_listed (d : map_store) k : is_Some (doc_of d k) → k ∈ after_doc <$> (kv_view d).*1.
Proof.
  intros [x Hx]. unfold doc_of in Hx. destruct (kv_get (doc_key k) d) as [b|] eqn:E; [|done].
  rewrite kv_get_view in E. apply OMap.get_elem in E; [|apply kv_view_wf].
  apply list_elem_of_fmap. exists (doc_key k). split; [done|]. apply list_elem_of_fmap. by exists (doc_key k, b).
Qed.
Lemma c0_consistent : consistent (db c0) ∧ names_ok (db c0).
Proof.
  split; [|by repeat constructor].
  assert (∀ k, doc_of (db c0) k = None) as Hnone.
  { intros k. destruct (doc_of (db c0) k) eqn:E; [|done]. unfold doc_of in E.
    assert (kv_get (doc_key k) (db c0) = None) as Hk; [|by rewrite Hk in E]. reflexivity. }
  intros e v He. rewrite Hnone. split; [|by intros [_ []%elem_of_nil]].
  apply starts_with_split in He as [r ->]. intros H. discriminate H.
Qed.
Lemma c1_consistent : consistent (db c1) ∧ names_ok (db c1).
Proof.
  eapply (run_consistent (RInsert "g1" "r1" 1 doc1) c0); [apply c0_consistent..|by split|].
  cbn [run]. rewrite (surjective_pairing (insert _ _ _ _ _)). reflexivity.
Qed.
Lemma c2_consistent : consistent (db c2) ∧ names_ok (db c2).
Proof.
  eapply (run_consistent (RInsert "g2" "r2" 2 doc2) c1); [apply c1_consistent..| |].
  - split; [done|]. vm_compute. reflexivity.
  - cbn [run]. rewrite (surjective_pairing (insert _ _ _ _ _)). reflexivity.
Qed.

Definition x1 : Document demo_number := with_key "r1" 1 "db:c" "k1" (Object [("a", Bool true)]).
Definition x2 : Document demo_number :=
  with_key "r2" 2 "db:c" "k2" (Object [("a", Bool false); ("b", Null); ("c", Bool true)]).
Ltac listed H :=
  apply doc_of_listed in H; vm_compute in H;
  repeat (apply elem_of_cons in H as [->|H]; [|]); [..|by apply elem_of_nil in H].
Lemma c1_docs k : doc_of (db c1) k = if decide (k = "k1") then Some x1 else None.
Proof.
  destruct (doc_of (db c1) k) as [x|] eqn:E.
  - assert (is_Some (doc_of (db c1) k)) as H by by eexists.
    listed H; vm_compute in E; try discriminate E. injection E as <-. by vm_compute.
  - case_decide as Hk; [subst|done]. vm_compute in E. discriminate E.
Qed.
Lemma c2_docs k :
  doc_of (db c2) k = if decide (k = "k1") then Some x1 else if decide (k = "k2") then Some x2 else None.
Proof.
  destruct (doc_of (db c2) k) as [x|] eqn:E.
  - assert (is_Some (doc_of (db c2) k)) as H by by eexists.
    listed H; vm_compute in E; try discriminate E; injection E as <-; by vm_compute.
  - do 2 (case_decide; [subst; vm_compute in E; discriminate E|]). done.
Qed.
Lemma c2_unique : unique_ok (db c2).
Proof.
  intros i k1 k2 y1 y2 Hi Hu _ _. rewrite !c2_docs.
  assert (i = by_a) as ->.
  { change (i ∈ [by_a; by_bc]) in Hi. apply elem_of_cons in Hi as [->|Hi]; [done|].
    apply list_elem_of_singleton in Hi as ->. discriminate Hu. }
  repeat case_decide; intros; simplify_eq; done.
Qed.
Lemma c1_unique : unique_ok (db c1).
Proof.
  intros i k1 k2 y1 y2 _ _ _ _. rewrite !c1_docs. repeat case_decide; intros; simplify_eq; done.
Qed.
Lemma demo_only (d : map_store) i :
  get_all_indexes d = [by_a; by_bc] → i ∈ get_all_indexes d → only_index d i.
Proof.
  intros Hd. unfold only_index. rewrite Hd. intros Hi. split; [done|]. intros j Hj.
  repeat (apply elem_of_cons in Hi as [->|Hi] || apply elem_of_nil in Hi as []);
  repeat (apply elem_of_cons in Hj as [->|Hj] || apply elem_of_nil in Hj as []); done.
Qed.
Lemma c2_utf8 k : is_Some (doc_of (db c2) k) → utf8_valid k = true.
Proof. rewrite c2_docs. repeat case_decide; subst; try done; by intros []. Qed.
Lemma c1_utf8 k : is_Some (doc_of (db c1) k) → utf8_valid k = true.
Proof. rewrite c1_docs. repeat case_decide; subst; try done; by intros []. Qed.

Lemma indexes_follow_documents_witness : consistent (db c2) ∧ names_ok (db c2).
Proof.
  apply (indexes_follow_documents c0 c2); [apply c0_consistent..|].
  eapply (serves_one c0 (RInsert "g2" "r2" 2 doc2) c1).
  - eapply (serves_one c0 (RInsert "g1" "r1" 1 doc1) c0); [constructor|by split|].
    cbn [run]. rewrite (surjective_pairing (insert _ _ _ _ _)). reflexivity.
  - split; [done|]. vm_compute. reflexivity.
  - cbn [run]. rewrite (surjective_pairing (insert _ _ _ _ _)). reflexivity.
Defined.
Lemma collection_refines_map_witness :
  represents c1 {["k1" := x1]}.
Proof.
  destruct (collection_refines_map (RInsert "g1" "r1" 1 doc1) c0 ∅ (Ok (Some x1)) c1) as (_ & H & _);
    [|by split|vm_compute; reflexivity|exact H].
  split; [|done]. intros k _. reflexivity.
Defined.
Lemma update_with_rev_checks_revision_witness :
  ∃ c', update_with_rev "r9" 9 "k1" "r1" (Object []) c1 =
    (Ok (Document.update "r9" 9 (Object []) x1), c') ∧
  update_with_rev "r8" 9 "k1" "r1" (Object []) c' = (Err (revision_error "k1" "r1" "r9"), c').
Proof.
  destruct (update_with_rev_checks_revision "r9" 9 "k1" "r1" (Object []) c1 x1) as (c' & H1 & H2);
    [by eexists|done|done|vm_compute; reflexivity|].
  exists c'. split; [exact H1|]. by apply H2.
Defined.
Lemma index_lookup_eq_exact_witness :
  ∃ docs, (index_lookup_eq "a" (Bool true) (db c2) no_filters).1 = Some docs ∧ x1 ∈ docs ∧ x2 ∉ docs.
Proof.
  destruct (index_lookup_eq_exact no_filters "a" by_a (Bool true) (db c2)) as (docs & H & Hd & _);
    [apply c2_consistent..|exact c2_utf8|vm_compute; reflexivity|done|
     apply demo_only; [vm_compute; reflexivity|by left]|done|].
  exists docs. split; [exact H|]. rewrite !Hd. split.
  - split; [done|]. exists "k1". by rewrite c2_docs.
  - intros (_ & k & _ & _ & He). by vm_compute in He.
Defined.
Lemma compound_lookup_empty_witness :
  (index_lookup_eq "b" (Bool true) (db c2) no_filters).1 = Some [].
Proof.
  apply (compound_lookup_empty _ "b" by_bc); [apply c2_consistent..|vm_compute; reflexivity| |simpl; lia].
  apply demo_only; [vm_compute; reflexivity|]. right. by left.
Defined.
Lemma index_lookup_lte_is_lt_witness :
  index_lookup_lte "a" (Bool true) (db c2) = index_lookup_lt "a" (Bool true) (db c2) ∧
  index_lookup_lte "a" (Bool true) (db c2) = Some [x2].
Proof.
  split; [|vm_compute; reflexivity]. apply index_lookup_lte_is_lt.
  intros i H. vm_compute in H. injection H as <-. vm_compute. reflexivity.
Defined.
Lemma insert_keeps_unique_witness : unique_ok (db c2).
Proof.
  apply (insert_keeps_unique "g2" "r2" 2 doc2 c1 x2 c2); [apply c1_consistent..| |exact c1_utf8| |exact c1_unique|].
  - intros i. apply demo_only. vm_compute. reflexivity.
  - split; [done|]. vm_compute. reflexivity.
  - vm_compute. reflexivity.
Defined.
Lemma insert_used_key_witness :
  let c' := snd (insert "g3" "r3" 3 doc1 c1) in
  doc_count c' = 2%N ∧ size ({["k1" := x1]} : gmap string (Document demo_number)) = 1.
Proof.
  destruct (insert_used_key "g3" "r3" 3 doc1 c1 {["k1" := x1]} x1
    (with_key "r3" 3 "db:c" "k1" (Object [("a", Bool true)])) (snd (insert "g3" "r3" 3 doc1 c1)))
    as (_ & _ & H & _); [|apply c1_consistent..|done|done|vm_compute; reflexivity|].
  - split; [|split; [|vm_compute; reflexivity]].
    + intros k _. rewrite c1_docs, lookup_singleton. case_decide as E; case_decide; congruence.
    + intros k Hk. rewrite lookup_singleton_ne; [done|]. intros <-. by apply Hk.
  - split; [exact H|]. by rewrite map_size_singleton.
Defined.

(** an update does not check the unique indexes: it is accepted although
    it gives a document the value another document has in a unique index. *)
Theorem update_breaks_unique :
  unique_ok (db c2) ∧
  ∃ x c', update "r3" 3 "k2" (Object [("a", Bool true)]) c2 = (Ok x, c') ∧ ¬ unique_ok (db c').
Proof.
  split; [exact c2_unique|].
  exists (Document.update "r3" 3 (Object [("a", Bool true)]) x2),
         (snd (update "r3" 3 "k2" (Object [("a", Bool true)]) c2)).
  split; [vm_compute; reflexivity|]. intros H.
  set (y := Document.update "r3" 3 (Object [("a", Bool true)]) x2).
  discriminate (H by_a "k1" "k2" x1 y); vm_compute; solve [done|by left].
Qed.
End CollectionDemo.
