(* ===== verification/TxManager.v ===== *)
(** * Transaction manager (src/transaction/manager.rs) and the transaction
      methods of the storage engine (src/storage/engine.rs)

    The manager keeps the active transactions and appends to the write-ahead
    log; every operation returns its result and the manager it leaves behind,
    on errors too. A transaction is shared behind an [Arc], and the active map
    is its store as long as it is active. Each write to the log takes its I/O
    outcome, each operation the clock it reads.

    Module [Engine] adds the engine's commit, rollback and recovery, against
    an interface for the collections they act on. *)

From S2P Require Import Prelude Text Json Transaction Wal.
Import Transaction Wal.

Module TxManager.
Section TxManager.
Context {Num : Type}.
Notation Operation := (Operation Num).
Notation Transaction := (Transaction Num).

Record TransactionManager := mkMgr {
  active_transactions : gmap TransactionId Transaction;
  wal : log Num;
  timeout : Z;
}.
(** The log is opened for appending; [file] is what it holds. The default
    timeout is five minutes. *)
Definition new (file : log Num) : TransactionManager := mkMgr ∅ file 300000.
Definition set_timeout (timeout : Z) (m : TransactionManager) : TransactionManager :=
  mkMgr (active_transactions m) (wal m) timeout.
Definition set_wal (l : log Num) (m : TransactionManager) : TransactionManager :=
  mkMgr (active_transactions m) l (timeout m).
(** Writing through the shared transaction, and taking it out of the map. *)
Definition put_tx (t : TransactionId) (tx : Transaction) (m : TransactionManager)
    : TransactionManager :=
  mkMgr (<[t := tx]> (active_transactions m)) (wal m) (timeout m).
Definition remove_tx (t : TransactionId) (m : TransactionManager) : TransactionManager :=
  mkMgr (delete t (active_transactions m)) (wal m) (timeout m).

Definition begin (io : io_outcome) (now : N) (utc : Z) (level : IsolationLevel)
    (m : TransactionManager) : result DbError TransactionId * TransactionManager :=
  let tx := Transaction.new now utc level in
  let '(r, l) := write_begin io (id tx) (wal m) in
  match r with
  | Err e => (Err e, set_wal l m)
  | Ok _ => (Ok (id tx), put_tx (id tx) tx (set_wal l m))
  end.

Definition get (t : TransactionId) (m : TransactionManager) : result DbError Transaction :=
  ok_or (active_transactions m !! t) (TransactionNotFound (show_id t)).
Definition tx_is_active (t : TransactionId) (m : TransactionManager) : bool :=
  match active_transactions m !! t with Some tx => Transaction.is_active tx | None => false end.

(** ** Validation *)

Definition doc_key (op : Operation) : string :=
  op_database op +:+ (":" +:+ (op_collection op +:+ (":" +:+ op_key op))).
Definition is_insert (op : Operation) : bool := match op with Insert _ _ _ _ => true | _ => false end.
Definition is_update (op : Operation) : bool := match op with Update _ _ _ _ _ => true | _ => false end.
Definition is_delete (op : Operation) : bool := match op with Delete _ _ _ _ => true | _ => false end.

Definition see_key (seen : gmap string (list Operation)) (op : Operation)
    : gmap string (list Operation) :=
  <[doc_key op := default [] (seen !! doc_key op) ++ [op]]> seen.
Definition seen_keys (ops : list Operation) : gmap string (list Operation) := foldl see_key ∅ ops.

(** [skip_while(|op| !is_delete(op))] *)
Fixpoint from_first_delete (ops : list Operation) : list Operation :=
  match ops with
  | [] => []
  | op :: ops' => if is_delete op then ops else from_first_delete ops'
  end.
Definition key_errors (entry : string * list Operation) : list string :=
  let '(key, ops) := entry in
  let inserts := List.filter is_insert ops in
  let deletes := List.filter is_delete ops in
  let updates_after_delete := List.filter is_update (from_first_delete ops) in
  (if (1 <? length inserts)%nat
   then ["Duplicate insert for key " +:+ (key +:+ " within transaction")] else []) ++
  (if negb (bool_decide (length deletes = 0)) && negb (bool_decide (length updates_after_delete = 0))
   then ["Cannot update deleted document " +:+ (key +:+ " within transaction")] else []).
(** The map is iterated in its own order. *)
Definition find_errors (ops : list Operation) : list string :=
  flat_map key_errors (map_to_list (seen_keys ops)).
Definition join (sep : string) (l : list string) : string :=
  match l with
  | [] => ""
  | x :: l' => foldl (λ acc s, acc +:+ (sep +:+ s)) x l'
  end.

Definition validate (t : TransactionId) (m : TransactionManager)
    : result DbError unit * TransactionManager :=
  match get t m with
  | Err e => (Err e, m)
  | Ok tx =>
      let errors := find_errors (operations tx) in
      let tx' := foldl (λ tx e, add_validation_error e tx) (clear_validation_errors tx) errors in
      let m' := put_tx t tx' m in
      if has_validation_errors tx'
      then (Err (TransactionConflict ("Transaction validation failed: " +:+
                   join "; " (validation_errors tx'))), m')
      else (Ok tt, m')
  end.

(** ** Ending a transaction *)

Definition not_active_error (t : TransactionId) (s : TransactionState) : DbError :=
  TransactionConflict ("Transaction " +:+ (show_id t +:+ (" is not active (state: " +:+
    (show_state s +:+ ")")))).
Definition commit (io : io_outcome) (now : N) (t : TransactionId) (m : TransactionManager)
    : result DbError unit * TransactionManager :=
  match validate t m with
  | (Err e, m') => (Err e, m')
  | (Ok _, m') =>
      match get t m' with
      | Err e => (Err e, m')
      | Ok tx =>
          if negb (Transaction.is_active tx) then (Err (not_active_error t (state tx)), m')
          else
            let tx1 := prepare now tx in
            let m1 := put_tx t tx1 m' in
            let '(r, l) := write_commit io now t (wal m1) in
            match r with
            | Err e => (Err e, set_wal l m1)
            | Ok _ => (Ok tt, remove_tx t (put_tx t (Transaction.commit tx1) (set_wal l m1)))
            end
      end
  end.
Definition rollback (io : io_outcome) (now : N) (t : TransactionId) (m : TransactionManager)
    : result DbError unit * TransactionManager :=
  match get t m with
  | Err e => (Err e, m)
  | Ok tx =>
      let '(r, l) := write_abort io now t (wal m) in
      match r with
      | Err e => (Err e, set_wal l m)
      | Ok _ => (Ok tt, remove_tx t (put_tx t (abort tx) (set_wal l m)))
      end
  end.

Definition active_transaction_ids (m : TransactionManager) : list TransactionId :=
  (map_to_list (active_transactions m)).*1.
Definition transaction_count (m : TransactionManager) : nat := size (active_transactions m).

(** A clock behind [created_at] counts as no time passed. *)
Definition expired (utc : Z) (m : TransactionManager) : list TransactionId :=
  omap (λ '(t, tx), if (timeout m <? Z.max 0 (utc - created_at tx))%Z then Some t else None)
    (map_to_list (active_transactions m)).
Definition cleanup_expired (io : TransactionId → io_outcome) (now : N) (utc : Z)
    (m : TransactionManager) : nat * TransactionManager :=
  (length (expired utc m), foldl (λ m t, (rollback (io t) now t m).2) m (expired utc m)).
Definition checkpoint (io : io_outcome) (now : N) (m : TransactionManager)
    : result DbError unit * TransactionManager :=
  let '(r, l) := write_checkpoint io now (wal m) in (r, set_wal l m).
End TxManager.
Arguments TransactionManager : clear implicits.

(** ** What validation accepts *)

Section Validate.
Context {Num : Type}.
Implicit Types (ops : list (Operation Num)) (op : Operation Num) (k : string).

(** No document is inserted twice, and none is updated after its deletion. *)
Definition valid_for ops k : Prop :=
  let own := filter (λ op, doc_key op = k) ops in
  length (List.filter is_insert own) ≤ 1 ∧
  ∀ i j d u, own !! i = Some d → own !! j = Some u → is_delete d = true → is_update u = true →
    ¬ i < j.

Lemma see_key_lookup seen op k :
  see_key seen op !! k =
  if decide (doc_key op = k) then Some (default [] (seen !! k) ++ [op]) else seen !! k.
Proof. unfold see_key. rewrite lookup_insert. by case_decide; subst. Qed.
Lemma seen_keys_lookup ops k :
  seen_keys ops !! k =
  match filter (λ op, doc_key op = k) ops with [] => None | own => Some own end.
Proof.
  induction ops as [|op ops IH] using rev_ind; [done|].
  unfold seen_keys in *. rewrite foldl_app. cbn [foldl]. rewrite see_key_lookup, filter_app.
  case_decide as Hk.
  - rewrite filter_cons_True, filter_nil, IH by done.
    by destruct (filter _ ops).
  - rewrite filter_cons_False, filter_nil, app_nil_r by done. done.
Qed.

Lemma update_after_delete ops :
  List.filter is_update (from_first_delete ops) = [] ↔
  ∀ i j d u, ops !! i = Some d → ops !! j = Some u → is_delete d = true → is_update u = true →
    ¬ i < j.
Proof.
  assert (∀ l : list (Operation Num), List.filter is_update l = [] ↔
    ∀ j u, l !! j = Some u → is_update u = false) as Hnone.
  { induction l as [|op l IH]; simpl; [done|]. split.
    - destruct (is_update op) eqn:E; [done|]. intros H [|j] u; simpl; [congruence|]. by apply IH.
    - intros H. rewrite (H 0 op) by done. apply IH. intros j u. apply (H (S j)). }
  induction ops as [|op ops IH]; simpl; [done|]. destruct (is_delete op) eqn:Ed.
  - rewrite Hnone. split.
    + intros H i j d u _ Hj _ Hu. rewrite (H j u Hj) in Hu. done.
    + intros H j u Hj. destruct (is_update u) eqn:Eu; [|done]. destruct j as [|j].
      { simpl in Hj. injection Hj as ->. by destruct u. }
      exfalso. apply (H 0 (S j) op u); auto; lia.
  - rewrite IH. split.
    + intros H [|i] [|j] d u; simpl; intros Hi Hj Hd Hu Hlt; try lia; [congruence|].
      apply (H i j d u); auto; lia.
    + intros H i j d u Hi Hj Hd Hu Hlt. apply (H (S i) (S j) d u Hi Hj Hd Hu). lia.
Qed.

Lemma key_errors_nil k (own : list (Operation Num)) :
  key_errors (k, own) = [] ↔
  length (List.filter is_insert own) ≤ 1 ∧ List.filter is_update (from_first_delete own) = [].
Proof.
  unfold key_errors.
  assert (length (List.filter is_delete own) = 0 → from_first_delete own = []) as Hd.
  { clear. induction own as [|op own IH]; simpl; [done|]. by destruct (is_delete op). }
  destruct (Nat.ltb_spec 1 (length (List.filter is_insert own))) as [Hi|Hi]; simpl.
  { split; [done|]. intros [? _]. lia. }
  destruct (List.filter is_delete own) as [|d ds] eqn:Ed; simpl.
  { split; [|done]. by rewrite Hd. }
  destruct (List.filter is_update (from_first_delete own)); simpl; naive_solver.
Qed.

Lemma find_errors_nil ops : find_errors ops = [] ↔ ∀ k, valid_for ops k.
Proof.
  unfold find_errors, valid_for.
  assert (flat_map key_errors (map_to_list (seen_keys ops)) = [] ↔
    ∀ k own, seen_keys ops !! k = Some own → key_errors (k, own) = []) as ->.
  { split.
    - intros H k own Hk%elem_of_map_to_list. apply list_elem_of_In in Hk.
      destruct (key_errors (k, own)) as [|e es] eqn:E; [done|]. exfalso.
      apply (in_nil (a:=e)). rewrite <-H. apply in_flat_map. exists (k, own). by rewrite E; split; [|left].
    - intros H. destruct (flat_map _ _) as [|e es] eqn:E; [done|]. exfalso.
      assert (In e (flat_map key_errors (map_to_list (seen_keys ops)))) as Hin by (rewrite E; by left).
      apply in_flat_map in Hin as ([k own] & Hk & He). apply list_elem_of_In, elem_of_map_to_list in Hk.
      by rewrite (H k own Hk) in He. }
  split.
  - intros H k. rewrite <-update_after_delete, <-(key_errors_nil k).
    destruct (filter (λ op, doc_key op = k) ops) eqn:E; [done|].
    apply H. by rewrite seen_keys_lookup, E.
  - intros H k own Hk. rewrite seen_keys_lookup in Hk.
    rewrite key_errors_nil, update_after_delete. specialize (H k). cbn zeta in H.
    destruct (filter (λ op, doc_key op = k) ops); [done|]. by injection Hk as <-.
Qed.

Lemma add_errors (errors : list string) (tx : Transaction Num) :
  foldl (λ tx e, add_validation_error e tx) tx errors =
  set_errors (validation_errors tx ++ errors) tx.
Proof.
  revert tx. induction errors as [|e errors IH]; intros tx; simpl.
  - rewrite app_nil_r. by destruct tx.
  - rewrite IH. simpl. by rewrite <-app_assoc.
Qed.
Lemma validate_active t (tx : Transaction Num) m :
  active_transactions m !! t = Some tx →
  validate t m =
  ((if bool_decide (find_errors (operations tx) = []) then Ok tt
    else Err (TransactionConflict ("Transaction validation failed: " +:+
           join "; " (find_errors (operations tx))))),
   put_tx t (set_errors (find_errors (operations tx)) tx) m).
Proof.
  intros Ht. unfold validate, get. rewrite Ht. cbn [ok_or]. rewrite add_errors. simpl.
  unfold has_validation_errors. simpl. by case_bool_decide.
Qed.

(** Validation accepts a transaction exactly when no document is inserted
    twice in it and none is updated after being deleted in it, documents
    being told apart by their joined name; it changes the recorded errors of
    the transaction and nothing else, and an unknown transaction is reported
    as such. *)
Theorem validate_spec t (m : TransactionManager Num) :
  match active_transactions m !! t with
  | None => validate t m = (Err (TransactionNotFound (show_id t)), m)
  | Some tx =>
      ((validate t m).1 = Ok tt ↔ ∀ k, valid_for (operations tx) k) ∧
      (validate t m).2 = put_tx t (set_errors (find_errors (operations tx)) tx) m
  end.
Proof.
  destruct (active_transactions m !! t) as [tx|] eqn:Ht.
  - rewrite (validate_active _ tx) by done. simpl. rewrite <-find_errors_nil. split; [|done].
    by case_bool_decide.
  - unfold validate, get. by rewrite Ht.
Qed.
End Validate.


(** ** Commits, branch by branch *)

Section Commit.
Context {Num : Type}.
Implicit Types (m : TransactionManager Num) (tx : Transaction Num) (t : TransactionId).

Lemma put_put t tx tx' m : put_tx t tx (put_tx t tx' m) = put_tx t tx m.
Proof. unfold put_tx. simpl. by rewrite insert_insert_eq. Qed.
Lemma remove_put t tx m : remove_tx t (put_tx t tx m) = remove_tx t m.
Proof. unfold remove_tx, put_tx. simpl. by rewrite delete_insert_eq. Qed.

Lemma commit_active io now t tx m :
  active_transactions m !! t = Some tx →
  let errors := find_errors (operations tx) in
  let tx' := set_errors errors tx in
  commit io now t m =
  if bool_decide (errors = []) then
    if bool_decide (state tx = Active) then
      match io with
      | Synced => (Ok tt, set_wal (wal m ++ [Line (WCommit t (wrap64 now))]) (remove_tx t m))
      | NotWritten => (Err (InternalError "Failed to write WAL entry"), put_tx t (prepare now tx') m)
      | NotSynced => (Err (InternalError "Failed to sync WAL"),
          set_wal (wal m ++ [Line (WCommit t (wrap64 now))]) (put_tx t (prepare now tx') m))
      end
    else (Err (not_active_error t (state tx)), put_tx t tx' m)
  else (Err (TransactionConflict ("Transaction validation failed: " +:+ join "; " errors)),
        put_tx t tx' m).
Proof.
  intros Ht. cbn zeta. unfold commit. rewrite (validate_active _ tx) by done.
  case_bool_decide; [|done]. unfold get. simpl. rewrite lookup_insert_eq. cbn [ok_or].
  unfold is_active. simpl. case_bool_decide; [|done].
  rewrite put_put. unfold write_commit, write.
  destruct io; cbn; unfold set_wal, put_tx, remove_tx; simpl; try done.
  by rewrite !insert_insert_eq, delete_insert_eq.
Qed.

(** the outcomes of a commit. Exactly an active, valid transaction whose
    commit record is written and synced is committed: it leaves the active
    map and the log grows by its commit record. A transaction that fails
    validation, or is not active, stays as it was but for the recorded errors
    and the log is untouched. When the record cannot be written the
    transaction stays in the map in state [Preparing], every further commit
    of it is refused, and a rollback still ends it. *)
Theorem commit_outcomes io now t tx m :
  active_transactions m !! t = Some tx →
  let '(r, m') := commit io now t m in
  (r = Ok tt ↔ (∀ k, valid_for (operations tx) k) ∧ state tx = Active ∧ io = Synced) ∧
  (r = Ok tt → active_transactions m' = delete t (active_transactions m) ∧
               wal m' = wal m ++ [Line (WCommit t (wrap64 now))]) ∧
  (r ≠ Ok tt → is_Some (active_transactions m' !! t) ∧ (io ≠ NotSynced → wal m' = wal m)) ∧
  ((∀ k, valid_for (operations tx) k) → state tx = Active → io = NotWritten →
   (∀ io' now', (commit io' now' t m').1 = Err (not_active_error t Preparing)) ∧
   ∀ now', (rollback Synced now' t m').1 = Ok tt).
Proof.
  intros Ht. pose proof (commit_active io now t tx m Ht) as ->.
  pose proof (find_errors_nil (operations tx)) as Hv.
  case_bool_decide as Ev; [case_bool_decide as Ea; [destruct io|]|]; simpl;
    (split; [naive_solver|]); (split; [done|]).
  - by split.
  - split; [intros _; split; [rewrite lookup_insert_eq; eauto|done]|]. intros _ _ _. split.
    + intros io' now'.
      rewrite (commit_active io' now' t (prepare now (set_errors (find_errors (operations tx)) tx)))
        by (simpl; by rewrite lookup_insert_eq).
      simpl. rewrite Ev. by rewrite bool_decide_eq_true_2.
    + intros now'. unfold rollback, get. simpl. by rewrite lookup_insert_eq.
  - split; [intros _; split; [rewrite lookup_insert_eq; eauto|done]|]. done.
  - split; [intros _; split; [rewrite lookup_insert_eq; eauto|done]|]. naive_solver.
  - split; [intros _; split; [rewrite lookup_insert_eq; eauto|done]|]. naive_solver.
Qed.

Lemma rollback_active now t tx m io :
  active_transactions m !! t = Some tx →
  rollback io now t m =
  match io with
  | Synced => (Ok tt, set_wal (wal m ++ [Line (WAbort t (wrap64 now))]) (remove_tx t m))
  | NotWritten => (Err (InternalError "Failed to write WAL entry"), m)
  | NotSynced => (Err (InternalError "Failed to sync WAL"),
                  set_wal (wal m ++ [Line (WAbort t (wrap64 now))]) m)
  end.
Proof.
  intros Ht. unfold rollback, get. rewrite Ht. cbn. unfold write_abort, write.
  destruct io; cbn; unfold set_wal, put_tx, remove_tx; simpl; [|by destruct m|done].
  by rewrite delete_insert_eq.
Qed.
End Commit.

(** ** The manager and its log

    A step is one call of the manager with any outcome of its write to the log, one operation added
    to a transaction by the collections, which take the log as an unused argument, or a restart,
    which keeps the log. The history lists the transactions whose commit returned [Ok]; the third
    component those the log cannot be trusted on: a record of theirs was written and not synced, so
    that the caller got an error, or they were active at a restart. *)

Section Refinement.
Context {Num : Type}.
Implicit Types (m : TransactionManager Num) (t : TransactionId) (h f : list TransactionId).

Definition unsynced (io : io_outcome) t : list TransactionId := match io with NotSynced => [t] | _ => [] end.
Notation run := (TransactionManager Num * list TransactionId * list TransactionId)%type.
Inductive mgr_step : run → run → Prop :=
| step_begin m h f io now utc level :
    mgr_step (m, h, f) ((begin io now utc level m).2, h, f ++ unsynced io (id_new now))
| step_operation m h f t tx op :
    active_transactions m !! t = Some tx →
    mgr_step (m, h, f) (put_tx t (add_operation op tx) m, h, f)
| step_commit m h f io now t :
    mgr_step (m, h, f) ((commit io now t m).2,
                        if is_ok (commit io now t m).1 then h ++ [t] else h, f ++ unsynced io t)
| step_rollback m h f io now t :
    mgr_step (m, h, f) ((rollback io now t m).2, h, f ++ unsynced io t)
| step_cleanup m h f io now utc :
    mgr_step (m, h, f) ((cleanup_expired io now utc m).2, h, f ++ (expired utc m ≫= λ t, unsynced (io t) t))
| step_checkpoint m h f io now : mgr_step (m, h, f) ((checkpoint io now m).2, h, f)
| step_timeout m h f timeout : mgr_step (m, h, f) (set_timeout timeout m, h, f)
| step_restart m h f : mgr_step (m, h, f) (new (wal m), h, f ++ active_transaction_ids m).

(** What a restart would find in the log of a manager. *)
Definition trusted f (l : list TransactionId) : list TransactionId := filter (.∉ f) l.
Definition log_agrees (utc : Z) (s : run) : Prop :=
  let '(m, h, f) := s in
  ∃ entries, wal m = Line <$> entries ∧
    (∀ t, t ∉ f → is_Some (active_transactions m !! t) ↔ is_Some ((replay_entries utc entries).1 !! t)) ∧
    trusted f (id <$> (replay_entries utc entries).2) = trusted f h ∧
    Forall (λ tx, operations tx = []) (replay_entries utc entries).2 ∧
    (∀ t tx, (replay_entries utc entries).1 !! t = Some tx → operations tx = []).

Lemma trusted_more f f' l l' : f ⊆ f' → trusted f l = trusted f l' → trusted f' l = trusted f' l'.
Proof.
  intros Hf Hl. assert (∀ l, trusted f' l = trusted f' (trusted f l)) as Hsub; [|by rewrite Hsub, Hl, <- Hsub].
  intros k. unfold trusted. rewrite list_filter_filter_l; [done|]. intros x. set_solver.
Qed.
Lemma trusted_snoc_in f l t : t ∈ f → trusted f (l ++ [t]) = trusted f l.
Proof. intros Ht. unfold trusted. rewrite filter_app, filter_cons_False by naive_solver. by rewrite app_nil_r. Qed.
Lemma trusted_snoc_out f l t : t ∉ f → trusted f (l ++ [t]) = trusted f l ++ [t].
Proof. intros Ht. unfold trusted. by rewrite filter_app, filter_cons_True. Qed.
Lemma agrees_more utc m h f f' : log_agrees utc (m, h, f) → f ⊆ f' → log_agrees utc (m, h, f').
Proof.
  intros (es & Hw & Hd & Hh & Hc & Ho) Hf. exists es. split_and!; [done| |by apply (trusted_more f)|done..].
  intros t Ht. apply Hd. set_solver.
Qed.
Lemma agrees_same utc m m' h f : log_agrees utc (m, h, f) → wal m' = wal m →
  (∀ t, is_Some (active_transactions m' !! t) ↔ is_Some (active_transactions m !! t)) → log_agrees utc (m', h, f).
Proof.
  intros (es & Hw & Hd & Hh & Hc & Ho) Hw' Hact. exists es. split_and!; [congruence| |done..]. intros t Ht. rewrite Hact. auto.
Qed.
(** A record of the transaction [t] is appended. *)
Definition record_fits t (e : WalEntry Num) m m' h h' : Prop :=
  match e with
  | WBegin _ _ => is_Some (active_transactions m' !! t) ∧ h' = h
  | WCommit _ _ => is_Some (active_transactions m !! t) ∧ active_transactions m' !! t = None ∧ h' = h ++ [t]
  | WAbort _ _ => active_transactions m' !! t = None ∧ h' = h
  | _ => False
  end.
Lemma agrees_append utc m m' h h' f f' t e :
  log_agrees utc (m, h, f) → wal m' = wal m ++ [Line e] → (∃ ts, e = WBegin t ts ∨ e = WCommit t ts ∨ e = WAbort t ts) →
  f ⊆ f' → (∀ t', t' ≠ t → is_Some (active_transactions m' !! t') ↔ is_Some (active_transactions m !! t')) →
  (t ∉ f' → record_fits t e m m' h h') → (t ∈ f' → h' = h ∨ h' = h ++ [t]) → log_agrees utc (m', h', f').
Proof.
  intros Hag Hw' (ts & He) Hf Hact Hout Hin. apply (agrees_more _ _ _ _ f') in Hag as (es & Hw & Hd & Hh & Hc & Ho); [|done].
  assert (trusted f' h' = trusted f' (if decide (t ∈ f') then h else h')) as Hh'.
  { case_decide as Ht; [|done]. destruct (Hin Ht) as [-> | ->]; [done|by apply trusted_snoc_in]. }
  pose proof (replay_ids utc es t) as Hid.
  exists (es ++ [e]). rewrite fmap_app, Hw', Hw, replay_snoc, Hh'. clear Hh'. destruct (replay_entries utc es) as [o c]. cbn [fst snd] in *.
  destruct He as [-> |[-> | ->]]; cbn [replay_entry record_fits fst snd] in *.
  - split_and!; [done| |case_decide as Ht; [done|by destruct (Hout Ht) as [_ ->]]|done|].
    + intros t' Ht'. rewrite lookup_insert. case_decide as Heq; [subst t'|rewrite Hact by done; by apply Hd].
      destruct (Hout Ht') as [Hs _]. naive_solver.
    + intros t' tx'. rewrite lookup_insert. case_decide; [by intros [= <-]|apply Ho].
  - destruct (o !! t) as [tx|] eqn:Hot; cbn [fst snd].
    + specialize (Hid tx eq_refl). split_and!; [done| | | |].
      * intros t' Ht'. rewrite lookup_delete. case_decide as Heq; [subst t'|rewrite Hact by done; by apply Hd].
        destruct (Hout Ht') as (_ & -> & _). by split; intros [].
      * rewrite fmap_app. cbn [fmap list_fmap]. change (id (Transaction.commit tx)) with (id tx). rewrite Hid.
        case_decide as Ht; [by rewrite trusted_snoc_in|]. destruct (Hout Ht) as (_ & _ & ->).
        by rewrite !trusted_snoc_out, Hh.
      * apply Forall_app. split; [done|]. repeat constructor. exact (Ho _ _ Hot).
      * intros t' tx'. rewrite lookup_delete. case_decide; [done|apply Ho].
    + assert (t ∈ f') as Ht.
      { destruct (decide (t ∈ f')) as [|Ht]; [done|]. destruct (Hout Ht) as (Hs & _). apply Hd in Hs as [? ?]; [congruence|done]. }
      rewrite decide_True by done. split_and!; [done| |done..].
      intros t' Ht'. rewrite Hact by congruence. by apply Hd.
  - split_and!; [done| |case_decide as Ht; [done|by destruct (Hout Ht) as [_ ->]]|done|].
    + intros t' Ht'. rewrite lookup_delete. case_decide as Heq; [subst t'|rewrite Hact by done; by apply Hd].
      destruct (Hout Ht') as [-> _]. by split; intros [].
    + intros t' tx'. rewrite lookup_delete. case_decide; [done|apply Ho].
Qed.
Lemma unsynced_in io t : t ∈ unsynced io t ↔ io = NotSynced.
Proof. destruct io; cbn; set_solver. Qed.

Lemma log_agrees_rollback utc m h f io now t :
  log_agrees utc (m, h, f) → log_agrees utc ((rollback io now t m).2, h, f ++ unsynced io t).
Proof.
  intros H. destruct (active_transactions m !! t) as [tx|] eqn:Ht.
  2: { unfold rollback, get. rewrite Ht. cbn. by apply (agrees_more _ _ _ f); [|set_solver]. }
  rewrite (rollback_active now t tx) by done. destruct io; cbn [snd].
  - apply (agrees_append utc m _ h h f _ t (WAbort t (wrap64 now))); [done|done|eauto|set_solver| | |by left].
    + intros t' Hne. cbn. by rewrite lookup_delete_ne.
    + intros _. cbn. by rewrite lookup_delete_eq.
  - by apply (agrees_more _ _ _ f); [|set_solver].
  - apply (agrees_append utc m _ h h f _ t (WAbort t (wrap64 now))); [done|done|eauto|set_solver|done| |by left].
    intros []. cbn. set_solver.
Qed.
Lemma log_agrees_commit utc m h f io now t :
  log_agrees utc (m, h, f) →
  log_agrees utc ((commit io now t m).2, if is_ok (commit io now t m).1 then h ++ [t] else h, f ++ unsynced io t).
Proof.
  intros H. destruct (active_transactions m !! t) as [tx|] eqn:Ht.
  2: { unfold commit, validate, get. rewrite Ht. cbn. by apply (agrees_more _ _ _ f); [|set_solver]. }
  assert (∀ tx', log_agrees utc (put_tx t tx' m, h, f ++ unsynced io t)) as Hput.
  { intros tx'. apply (agrees_more _ _ _ f); [|set_solver]. apply (agrees_same utc m); [done|done|].
    intros t'. cbn. rewrite lookup_insert. case_decide; subst; naive_solver. }
  pose proof (commit_active io now t tx m Ht) as ->.
  case_bool_decide; [case_bool_decide|]; [destruct io| |]; cbn [fst snd is_ok]; try apply Hput.
  - apply (agrees_append utc m _ h _ f _ t (WCommit t (wrap64 now))); [done|done|eauto|set_solver| | |by right].
    + intros t' Hne. cbn. by rewrite lookup_delete_ne.
    + intros _. cbn. rewrite lookup_delete_eq. eauto.
  - apply (agrees_append utc m _ h _ f _ t (WCommit t (wrap64 now))); [done|done|eauto|set_solver| | |by left].
    + intros t' Hne. cbn. by rewrite lookup_insert_ne.
    + intros []. cbn. set_solver.
Qed.
Lemma log_agrees_begin utc m h f io now created level :
  log_agrees utc (m, h, f) → log_agrees utc ((begin io now created level m).2, h, f ++ unsynced io (id_new now)).
Proof.
  intros H. unfold begin, write_begin, write. destruct io; cbn -[log_agrees id_new].
  - apply (agrees_append utc m _ h h f _ (id_new now) (WBegin (id_new now) (id_new now))); [done|done|eauto|set_solver| | |by left].
    + intros t' Hne. cbn. by rewrite lookup_insert_ne.
    + intros _. cbn. rewrite lookup_insert_eq. eauto.
  - apply (agrees_more _ _ _ f); [|set_solver]. by apply (agrees_same utc m).
  - apply (agrees_append utc m _ h h f _ (id_new now) (WBegin (id_new now) (id_new now))); [done|done|eauto|set_solver|done| |by left].
    intros []. set_solver.
Qed.

Lemma step_log_agrees utc s s' : mgr_step s s' → log_agrees utc s → log_agrees utc s'.
Proof.
  intros [m h f io now created level|m h f t tx op Ht|m h f io now t|m h f io now t
         |m h f io now u|m h f io now|m h f timeout|m h f] H.
  - by apply log_agrees_begin.
  - apply (agrees_same utc m); [done|done|]. intros t'. cbn. rewrite lookup_insert. case_decide; subst; naive_solver.
  - by apply log_agrees_commit.
  - by apply log_agrees_rollback.
  - unfold cleanup_expired. cbn [snd]. generalize (expired u m). intros l. revert m f H.
    induction l as [|t l IH]; intros m f H; cbn [foldl mbind list_bind]; [by rewrite app_nil_r|].
    rewrite app_assoc. apply IH. by apply log_agrees_rollback.
  - destruct H as (es & Hw & Hd & Hh & Hc & Ho). unfold checkpoint, write_checkpoint, write.
    assert (log_agrees utc (set_wal (wal m ++ [Line (WCheckpoint (wrap64 now))]) m, h, f)) as Hcheck.
    { exists (es ++ [WCheckpoint (wrap64 now)]). cbn. rewrite fmap_app, Hw, replay_snoc. by destruct (replay_entries utc es). }
    destruct io; [done|by exists es|done].
  - by apply (agrees_same utc m).
  - apply (agrees_more _ _ _ _ (f ++ active_transaction_ids m)) in H as (es & Hw & Hd & Hh & Hc & Ho); [|set_solver].
    exists es. split_and!; [done| |done..]. intros t Ht. rewrite <- Hd by done. cbn. rewrite lookup_empty.
    split; [by intros []|]. intros [tx Htx]. destruct Ht. apply elem_of_app. right. unfold active_transaction_ids.
    apply list_elem_of_fmap. exists (t, tx). split; [done|]. by apply elem_of_map_to_list.
Qed.

Lemma reachable_log_agrees utc (m : TransactionManager Num) h f :
  rtc mgr_step (new [], [], []) (m, h, f) → log_agrees utc (m, h, f).
Proof.
  intros Hr. cut (log_agrees utc (new (Num:=Num) [], [], [])).
  - induction Hr as [|s1 s2 s3 Hs _ IH]; [done|]. eauto using step_log_agrees.
  - exists []. split_and!; [done| |done..]. done.
Qed.

(** C6: Calls of the manager, one after another, with any outcomes of the writes to the log, and
    restarts, from an empty log: a restart recovers exactly the transactions whose commit had
    returned [Ok], in the order of their commits, and the transactions the log leaves open are
    exactly the active ones; but for the transactions a record of which was written and then not
    synced, so that the caller got an error, and those that were active at an earlier restart. The
    recovered transactions carry no operations: nothing writes them to the log. *)
Theorem recovery_matches_commits utc (m : TransactionManager Num) h f :
  rtc mgr_step (new [], [], []) (m, h, f) →
  ∃ txs, replay utc (Some (wal m)) = Ok txs ∧ trusted f (id <$> txs) = trusted f h ∧
    Forall (λ tx, operations tx = []) txs ∧
    ∃ entries, wal m = Line <$> entries ∧
      ∀ t, t ∉ f → is_Some (active_transactions m !! t) ↔ is_Some ((replay_entries utc entries).1 !! t).
Proof.
  intros (es & Hw & Hd & Hh & Hc & _)%(reachable_log_agrees utc).
  exists (replay_entries utc es).2. unfold replay, read_all. rewrite Hw.
  rewrite read_lines_written. split_and!; try done. by exists es.
Qed.
End Refinement.

End TxManager.

(** ** The engine *)

(** The collections of the engine, as far as its transaction methods use
    them: whether a collection exists, and applying the operations of a
    transaction to it, which is one atomic batch. *)
Class CollectionStore (Num Store : Type) := {
  has_collection : string → Store → bool;
  apply_transaction_operations :
    string → list (Operation Num) → Store → result DbError Store;
}.

Module Engine.
Section Engine.
Context {Num Store : Type} `{!CollectionStore Num Store}.

Definition coll_name (op : Operation Num) : string := op_database op +:+ (":" +:+ op_collection op).
Definition ops_by_collection (ops : list (Operation Num)) : gmap string (list (Operation Num)) :=
  foldl (λ m op, <[coll_name op := default [] (m !! coll_name op) ++ [op]]> m) ∅ ops.

(** [get_collection(name)?] and the application, for each group. An error
    leaves what the groups before it did. *)
Fixpoint apply_groups (groups : list (string * list (Operation Num))) (st : Store)
    : result DbError unit * Store :=
  match groups with
  | [] => (Ok tt, st)
  | (name, ops) :: groups' =>
      if has_collection name st then
        match apply_transaction_operations name ops st with
        | Ok st' => apply_groups groups' st'
        | Err e => (Err e, st)
        end
      else (Err (CollectionNotFound name), st)
  end.
(** The same loop during recovery: a missing collection is skipped. *)
Fixpoint recover_groups (groups : list (string * list (Operation Num))) (st : Store)
    : result DbError unit * Store :=
  match groups with
  | [] => (Ok tt, st)
  | (name, ops) :: groups' =>
      if has_collection name st then
        match apply_transaction_operations name ops st with
        | Ok st' => recover_groups groups' st'
        | Err e => (Err e, st)
        end
      else recover_groups groups' st
  end.
Fixpoint recover_all (txs : list (Transaction Num)) (st : Store) : result DbError unit * Store :=
  match txs with
  | [] => (Ok tt, st)
  | tx :: txs' =>
      match recover_groups (map_to_list (ops_by_collection (operations tx))) st with
      | (Ok _, st') => recover_all txs' st'
      | (Err e, st') => (Err e, st')
      end
  end.
Definition recover_transactions (utc : Z) (file : option (log Num)) (st : Store)
    : result DbError unit * Store :=
  match file with
  | None => (Ok tt, st)
  | Some _ =>
      match replay utc file with
      | Err e => (Err e, st)
      | Ok txs => recover_all txs st
      end
  end.

(** The engine's manager is created on first use. *)
Definition manager_of (mgr : option (TxManager.TransactionManager Num))
    : result DbError (TxManager.TransactionManager Num) :=
  ok_or mgr (InternalError "Transaction manager not initialized").
Definition commit_transaction (io : io_outcome) (now : N) (t : TransactionId)
    (mgr : option (TxManager.TransactionManager Num)) (st : Store)
    : result DbError unit * option (TxManager.TransactionManager Num) * Store :=
  match manager_of mgr with
  | Err e => (Err e, mgr, st)
  | Ok m =>
      match TxManager.get t m with
      | Err e => (Err e, mgr, st)
      | Ok tx =>
          match apply_groups (map_to_list (ops_by_collection (operations tx))) st with
          | (Err e, st') => (Err e, mgr, st')
          | (Ok _, st') =>
              let '(r, m') := TxManager.commit io now t m in (r, Some m', st')
          end
      end
  end.
Definition rollback_transaction (io : io_outcome) (now : N) (t : TransactionId)
    (mgr : option (TxManager.TransactionManager Num))
    : result DbError unit * option (TxManager.TransactionManager Num) :=
  match manager_of mgr with
  | Err e => (Err e, mgr)
  | Ok m => let '(r, m') := TxManager.rollback io now t m in (r, Some m')
  end.

(** the engine applies the operations of a transaction before the manager
    validates it and logs its commit. When the validation refuses the
    transaction, or the commit record cannot be written, the commit returns
    the error, but the operations are in the collections; the transaction is
    still active, and rolling it back succeeds and changes no collection. *)
Theorem failed_commit_is_applied io now t tx m st st' :
  TxManager.active_transactions m !! t = Some tx → state tx = Active → io ≠ NotSynced →
  apply_groups (map_to_list (ops_by_collection (operations tx))) st = (Ok tt, st') →
  (∃ k, ¬ TxManager.valid_for (operations tx) k) ∨ io = NotWritten →
  ∃ e m', commit_transaction io now t (Some m) st = (Err e, Some m', st') ∧
    is_Some (TxManager.active_transactions m' !! t) ∧ TxManager.wal m' = TxManager.wal m ∧
    ∃ m'', rollback_transaction Synced now t (Some m') = (Ok tt, Some m'').
Proof.
  intros Ht Hs Hio Hap Hbad. unfold commit_transaction, manager_of. cbn [ok_or].
  unfold TxManager.get at 1. rewrite Ht. cbn [ok_or]. rewrite Hap.
  pose proof (TxManager.commit_active io now t tx m Ht) as ->.
  pose proof (TxManager.find_errors_nil (operations tx)) as Hv.
  assert (∀ tx' e, ∃ e0 m', (Err e : result DbError unit, Some (TxManager.put_tx t tx' m), st') =
      (Err e0, Some m', st') ∧
    is_Some (TxManager.active_transactions m' !! t) ∧ TxManager.wal m' = TxManager.wal m ∧
    ∃ m'', rollback_transaction Synced now t (Some m') = (Ok tt, Some m'')) as Hdone.
  { intros tx' e. exists e, (TxManager.put_tx t tx' m). simpl. rewrite lookup_insert_eq.
    split_and!; eauto. unfold rollback_transaction. simpl.
    rewrite (TxManager.rollback_active now t tx') by (simpl; by rewrite lookup_insert_eq). eauto. }
  case_bool_decide as Ev; [|apply Hdone]. rewrite bool_decide_eq_true_2 by done.
  destruct io; [|apply Hdone|done]. destruct Hbad as [[k Hk]|]; [|done].
  destruct Hk. by apply Hv.
Qed.

(** After a restart the engine applies nothing from the log of a manager
    that only saw its own calls and the operations the collections added:
    recovery succeeds and leaves the collections as they were. *)
Theorem recovery_applies_nothing utc (m : TxManager.TransactionManager Num) h f st :
  rtc TxManager.mgr_step (TxManager.new [], [], []) (m, h, f) →
  recover_transactions utc (Some (TxManager.wal m)) st = (Ok tt, st).
Proof.
  intros Hr. destruct (TxManager.reachable_log_agrees utc m h f Hr) as (es & Hw & _ & _ & Hc & _).
  unfold recover_transactions, replay, read_all. simpl in Hw.
  rewrite Hw, read_lines_written.
  induction Hc as [|tx txs Htx _ IH]; [done|]. cbn [recover_all]. rewrite Htx.
  unfold ops_by_collection. cbn [foldl]. rewrite map_to_list_empty. exact IH.
Qed.
End Engine.
End Engine.

(** *** A concrete run *)

Module TxDemo.
Definition op : Operation demo_number := Insert "db" "c" "k" Json.Null.
Definition m1 : TxManager.TransactionManager demo_number :=
  (TxManager.begin Synced 7 0 ReadCommitted (TxManager.new [])).2.
(** Transaction 7 inserts one document twice. *)
Definition tx1 : Transaction demo_number := Transaction.new 7 0 ReadCommitted.
Definition tx2 : Transaction demo_number := add_operation op (add_operation op tx1).
Definition m2 : TxManager.TransactionManager demo_number := TxManager.put_tx 7%N tx2 m1.
#[local] Instance log_store : CollectionStore demo_number (list (string * list (Operation demo_number))) := {
  has_collection _ _ := true;
  apply_transaction_operations name ops st := Ok (st ++ [(name, ops)]);
}.

Lemma commit_outcomes_witness :
  (TxManager.commit Synced 9 7%N m1).1 = Ok tt ∧
  TxManager.wal (TxManager.commit Synced 9 7%N m1).2 = [Line (WBegin 7 7); Line (WCommit 7 9)]%N.
Proof.
  pose proof (TxManager.commit_outcomes Synced 9 7%N tx1 m1 ltac:(reflexivity)) as H.
  rewrite (surjective_pairing (TxManager.commit Synced 9 7%N m1)) in H.
  destruct H as (_ & H & _). split; [reflexivity|]. exact (proj2 (H eq_refl)).
Defined.
(** Transaction 7 commits; the commit of transaction 8 is written and not synced. *)
Definition m3 : TxManager.TransactionManager demo_number :=
  (TxManager.begin Synced 8 0 ReadCommitted (TxManager.commit Synced 9 7%N m1).2).2.
Definition m4 : TxManager.TransactionManager demo_number := (TxManager.commit NotSynced 10 8%N m3).2.
Lemma recovery_matches_commits_witness :
  ∃ txs, replay 5%Z (Some (TxManager.wal m4)) = Ok txs ∧
    filter (.∉ [8%N]) (id <$> txs) = [7%N] ∧ Forall (λ tx, operations tx = []) txs.
Proof.
  destruct (TxManager.recovery_matches_commits 5%Z m4 [7%N] [8%N]) as (txs & H1 & H2 & H3 & _).
  - eapply rtc_l; [apply (TxManager.step_begin _ _ _ Synced 7 0 ReadCommitted)|].
    eapply rtc_l; [apply (TxManager.step_commit _ _ _ Synced 9 7%N)|].
    eapply rtc_l; [apply (TxManager.step_begin _ _ _ Synced 8 0 ReadCommitted)|].
    eapply rtc_l; [apply (TxManager.step_commit _ _ _ NotSynced 10 8%N)|]. apply rtc_refl.
  - by exists txs.
Defined.
(** A commit whose record could not be synced returns an error and is recovered all the same; a
    rollback that could not be synced leaves the transaction active, and when it is committed then,
    with success, it is not recovered. *)
Example unsynced_commit_recovered :
  is_ok (TxManager.commit NotSynced 10 8%N m3).1 = false ∧
  match replay 5%Z (Some (TxManager.wal m4)) with Ok txs => id <$> txs | Err _ => [] end = [7; 8]%N.
Proof. split; vm_compute; reflexivity. Qed.
Example unsynced_rollback_loses_commit :
  let m := (TxManager.rollback NotSynced 9 7%N m1).2 in
  (TxManager.commit Synced 10 7%N m).1 = Ok tt ∧
  replay 5%Z (Some (TxManager.wal (TxManager.commit Synced 10 7%N m).2)) = Ok [].
Proof. split; vm_compute; reflexivity. Qed.
Lemma failed_commit_is_applied_witness :
  ∃ e m', Engine.commit_transaction Synced 9 7%N (Some m2) [] =
    (Err e, Some m', [("db:c", [op; op])]) ∧
    is_Some (TxManager.active_transactions m' !! 7%N) ∧ TxManager.wal m' = TxManager.wal m2 ∧
    ∃ m'', Engine.rollback_transaction Synced 9 7%N (Some m') = (Ok tt, Some m'').
Proof.
  apply (Engine.failed_commit_is_applied Synced 9 7%N tx2 m2 []); try reflexivity; [done|].
  left. exists "db:c:k". intros [H _]. vm_compute in H. lia.
Defined.
Lemma recovery_applies_nothing_witness :
  Engine.recover_transactions 5%Z (Some (TxManager.wal (TxManager.commit Synced 9 7%N
    (TxManager.put_tx 7%N (add_operation op tx1) m1)).2)) [] = (Ok tt, []).
Proof.
  apply (Engine.recovery_applies_nothing 5%Z _ [7%N] []).
  eapply rtc_l; [apply (TxManager.step_begin _ _ _ Synced 7 0 ReadCommitted)|].
  eapply rtc_l; [apply (TxManager.step_operation _ _ _ 7%N tx1 op); reflexivity|].
  eapply rtc_l; [apply (TxManager.step_commit _ _ _ Synced 9 7%N)|]. apply rtc_refl.
Defined.
End TxDemo.
