(* ===== verification/CollectionTx.v ===== *)
(** * Transactions on collections (src/storage/collection/txn.rs)

    The transactional insert, update and delete only add an operation to the
    transaction; applying the operations of a committed transaction writes the
    documents and index entries of all of them in one batch. Each operation
    takes the revision and the clock its document is made with. Module
    [EngineStore] gives the engine its collections: an instance of the
    interface [CollectionStore] that its commit and recovery are written for. *)

From S2P Require Import Prelude Text Json Transaction Wal Codec Kv Document Indexes Collection CollectionProps TxManager.
Import Json Codec Document Serializer Indexes Collection CollectionProps.

Module CollectionTx.
Import Transaction.
Section Tx.
Context {Num : Type} `{!JsonNumber Num} `{!JsonText Num} `{!MetaJson Num} `{!DocumentJson Num}
  `{!DocCodec Num}.
Context `{hex_crate : !HexCrate} `{std_text : !StdText}.
Context {DB : Type} `{!KvStore DB}.
Notation Value := (Value Num).
Notation Document := (Document Num).
Notation Collection := (Collection Num DB).
Notation Operation := (Operation Num).
Notation Transaction := (Transaction Num).

(** [self.name.split_once(':').unwrap_or(("", &self.name))] *)
Definition split_name (name : string) : string * string :=
  match split_on ":" name with
  | db_name :: ((_ :: _) as rest) => (db_name, String.concat ":" rest)
  | _ => ("", name)
  end.

Definition insert_tx (generated_key generated_rev : string) (now : Z) (data : Value)
    (c : Collection) (tx : Transaction) : result DbError Document * Transaction :=
  match validate_edge c data with
  | Err e => (Err e, tx)
  | Ok _ =>
  match take_key generated_key data with
  | Err e => (Err e, tx)
  | Ok (key, data') =>
  let doc := with_key generated_rev now (name c) key data' in
  match check_unique_constraints (db c) key (to_value doc) with
  | Err e => (Err e, tx)
  | Ok _ =>
      let '(db_name, coll_name) := split_name (name c) in
      (Ok doc, add_operation (Insert db_name coll_name key (to_value doc)) tx)
  end end end.
Definition update_tx (generated_rev : string) (now : Z) (k : string) (data : Value)
    (c : Collection) (tx : Transaction) : result DbError Document * Transaction :=
  match reject_timeseries c with
  | Err e => (Err e, tx)
  | Ok _ =>
  match get c k with
  | Err e => (Err e, tx)
  | Ok old_doc =>
  let doc := Document.update generated_rev now data old_doc in
  match validate_edge c (to_value doc) with
  | Err e => (Err e, tx)
  | Ok _ =>
      let '(db_name, coll_name) := split_name (name c) in
      (Ok doc, add_operation (Update db_name coll_name k (to_value old_doc) (to_value doc)) tx)
  end end end.
Definition delete_tx (k : string) (c : Collection) (tx : Transaction)
    : result DbError unit * Transaction :=
  match get c k with
  | Err e => (Err e, tx)
  | Ok doc =>
      let '(db_name, coll_name) := split_name (name c) in
      (Ok tt, add_operation (Delete db_name coll_name k (to_value doc)) tx)
  end.

(** ** Applying the operations *)

(** The revision and the time a document is made with. *)
Definition stamp : Type := string * Z.
Definition put_document (s : stamp) (c : Collection) (k : string) (data : Value)
    (entries : result DbError (list write_op)) : result DbError (list write_op) :=
  match serialize_doc (with_key s.1 s.2 (name c) k data) with
  | Err e => Err e
  | Ok doc_bytes =>
      match entries with
      | Err e => Err e
      | Ok b => Ok (Put (doc_key k) doc_bytes :: b)
      end
  end.
(** The part of the batch of one operation, and its change event. *)
Definition op_batch (s : stamp) (c : Collection) (op : Operation) : result DbError (list write_op) :=
  match op with
  | Insert _ _ k data => put_document s c k data (insert_entries (db c) k data)
  | Update _ _ k old_data new_data =>
      put_document s c k new_data (update_entries (db c) k old_data new_data)
  | Delete _ _ k old_data =>
      match delete_entries (db c) k old_data with
      | Err e => Err e
      | Ok b => Ok (Del (doc_key k) :: b)
      end
  | _ => Ok []
  end.
Definition op_events (op : Operation) : list (ChangeEvent Num) :=
  match op with
  | Insert _ _ k data => [mkEvent CInsert k (Some data) None]
  | Update _ _ k old_data new_data => [mkEvent CUpdate k (Some new_data) (Some old_data)]
  | Delete _ _ k old_data => [mkEvent CDelete k None (Some old_data)]
  | _ => []
  end.
Fixpoint ops_batch (c : Collection) (ops : list (stamp * Operation)) : result DbError (list write_op) :=
  match ops with
  | [] => Ok []
  | (s, op) :: ops' =>
      match op_batch s c op with
      | Err e => Err e
      | Ok b => match ops_batch c ops' with Err e => Err e | Ok b' => Ok (b ++ b') end
      end
  end.
(** After the write: the vector indexes and the count. *)
Definition after_commit (c : Collection) (op : Operation) : Collection :=
  match op with
  | Insert _ _ k data => increment_count (vector (VectorUpsert k data) c)
  | Update _ _ k _ new_data => vector (VectorUpsert k new_data) (vector (VectorDelete k) c)
  | Delete _ _ _ _ => decrement_count c
  | _ => c
  end.
Definition apply_transaction_operations (ops : list (stamp * Operation)) (c : Collection)
    : result DbError Collection :=
  match ops_batch c ops with
  | Err e => Err e
  | Ok batch =>
      match write "Failed to commit transaction batch" batch c with
      | Err e => Err e
      | Ok c1 =>
          let c2 := foldl after_commit c1 (snd <$> ops) in
          Ok (foldl (λ c e, send e c) c2 (flat_map op_events (snd <$> ops)))
      end
  end.

(** ** The documents of a committed transaction *)

(** What an operation makes of the document of a key. *)
Definition doc_after (coll : string) (k : string) (o : option Document) (so : stamp * Operation)
    : option Document :=
  match so.2 with
  | Insert _ _ k' data | Update _ _ k' _ data =>
      if decide (k' = k) then Some (with_key so.1.1 so.1.2 coll k data) else o
  | Delete _ _ k' _ => if decide (k' = k) then None else o
  | _ => o
  end.
Definition is_insert (op : Operation) : bool := match op with Insert _ _ _ _ => true | _ => false end.
Definition is_delete (op : Operation) : bool := match op with Delete _ _ _ _ => true | _ => false end.
Definition number (f : Operation → bool) (ops : list (stamp * Operation)) : Z :=
  Z.of_nat (length (List.filter (f ∘ snd) ops)).

Context `{!DocCodecLaws Num} `{!KvLaws DB}.

Lemma op_batch_total s c op :
  (∀ w : Value, is_Some (value_to_vec w)) → ∃ b, op_batch s c op = Ok b.
Proof.
  intros Ht. unfold op_batch, put_document, insert_entries, update_entries, delete_entries,
    compute_index_entries_for_insert, compute_index_entries_for_update, compute_index_entries_for_delete.
  destruct op as [? ? k v|? ? k v w|? ? k v| |]; try by eexists.
  - destruct (serialize_some (with_key s.1 s.2 (name c) k v)) as [bytes ->].
    destruct (geo_entries_total k v (get_all_geo_indexes (db c)) Ht) as [g ->]. by eexists.
  - destruct (serialize_some (with_key s.1 s.2 (name c) k w)) as [bytes ->].
    destruct (geo_entries_total k w (get_all_geo_indexes (db c)) Ht) as [g ->]. by eexists.
Qed.
Lemma ops_batch_total c ops :
  (∀ w : Value, is_Some (value_to_vec w)) → ∃ b, ops_batch c ops = Ok b.
Proof.
  intros Ht. induction ops as [|[s op] ops [b' IH]]; [by exists []|]. cbn [ops_batch].
  destruct (op_batch_total s c op Ht) as [b ->]. rewrite IH. by eexists.
Qed.
(** Reading a document through a stored value. *)
Definition read (o : option string) : option Document :=
  match o with
  | Some bytes => match deserialize_doc bytes with Ok x => Some x | Err _ => None end
  | None => None
  end.
Lemma put_document_reads s c k v entries b k' o :
  put_document s c k v entries = Ok b → plain k' →
  (∀ b', entries = Ok b' → Forall (entry_space ∘ op_target) b') →
  read (foldl (write_key (doc_key k')) o b) =
  if decide (k = k') then Some (with_key s.1 s.2 (name c) k' v) else read o.
Proof.
  unfold put_document. intros H Hk' Hes.
  destruct (serialize_doc _) as [bytes|] eqn:Hb; [|done]. apply deserialize_serialize in Hb as [Hb _].
  destruct entries as [b'|]; [|done]. injection H as <-. cbn [foldl].
  rewrite entries_keep_docs by auto. cbn [write_key]. case_decide as Hd.
  - apply doc_key_inj in Hd as ->. rewrite decide_True by done. cbn [read]. by rewrite Hb.
  - rewrite decide_False; [done|]. by intros ->.
Qed.
Lemma op_batch_reads s c op b k o :
  op_batch s c op = Ok b → plain k →
  read (foldl (write_key (doc_key k)) o b) = doc_after (name c) k (read o) (s, op).
Proof.
  intros H Hk. destruct op as [? ? k' v|? ? k' v w|? ? k' v| |]; cbn [op_batch doc_after snd fst] in *.
  - apply (put_document_reads s c k' v _ b k o H Hk). intros b' Hb'. by apply (insert_entries_idx _ _ _ _ Hb').
  - apply (put_document_reads s c k' w _ b k o H Hk). intros b' Hb'. by apply (update_entries_idx _ _ _ _ _ Hb').
  - destruct (delete_entries _ _ _) as [b'|] eqn:Hb'; [|done]. injection H as <-. cbn [foldl].
    rewrite entries_keep_docs; [|done|by apply (delete_entries_idx _ _ _ _ Hb')]. cbn [write_key].
    case_decide as Hd.
    + apply doc_key_inj in Hd as ->. by rewrite decide_True.
    + rewrite decide_False; [done|]. by intros ->.
  - by injection H as <-.
  - by injection H as <-.
Qed.
Lemma ops_batch_reads c ops b k o :
  ops_batch c ops = Ok b → plain k →
  read (foldl (write_key (doc_key k)) o b) = foldl (doc_after (name c) k) (read o) ops.
Proof.
  revert b o. induction ops as [|[s op] ops IH]; intros b o H Hk; cbn [ops_batch foldl] in *.
  - by injection H as <-.
  - destruct (op_batch s c op) as [b1|] eqn:H1; [|done].
    destruct (ops_batch c ops) as [b2|]; [|done]. injection H as <-.
    rewrite foldl_app, (IH b2) by done. f_equal. by apply op_batch_reads.
Qed.

Lemma after_commits ops (c : Collection) :
  let c' := foldl after_commit c (snd <$> ops) in
  db c' = db c ∧ name c' = name c ∧ collection_type c' = collection_type c ∧
  change_sender c' = change_sender c ∧
  (Z.of_N (doc_count c') mod 2 ^ 64 =
   (Z.of_N (doc_count c) + number is_insert ops - number is_delete ops) mod 2 ^ 64)%Z.
Proof.
  revert c. induction ops as [|[s op] ops IH]; intros c; cbn [fmap list_fmap foldl snd].
  { split_and!; try done. unfold number. cbn. f_equal. lia. }
  destruct (IH (after_commit c op)) as (H1 & H2 & H3 & H4 & H5). rewrite H1, H2, H3, H4, H5.
  unfold number. cbn [List.filter compose snd].
  assert (Z.of_N u64_modulus = 2 ^ 64)%Z as HM by done.
  destruct op; cbn [after_commit is_insert is_delete]; split_and!; try done.
  - cbn. unfold wrap64. rewrite N2Z.inj_mod, HM, <-Z.add_sub_assoc, Zplus_mod_idemp_l. f_equal. lia.
  - cbn. unfold sub64. rewrite N2Z.inj_mod, HM, <-Z.add_sub_assoc, Zplus_mod_idemp_l.
    rewrite N2Z.inj_sub by (change u64_modulus with 18446744073709551616%N; lia).
    rewrite N2Z.inj_add, HM. rewrite <-(Z_mod_plus_full _ (-1)). f_equal. lia.
Qed.
Lemma sends events (c : Collection) :
  let c' := foldl (λ c e, send e c) c events in
  db c' = db c ∧ doc_count c' = doc_count c ∧ collection_type c' = collection_type c ∧
  change_sender c' = change_sender c ++ events.
Proof.
  revert c. induction events as [|e events IH]; intros c; cbn [foldl]; [by rewrite app_nil_r|].
  destruct (IH (send e c)) as (H1 & H2 & H3 & H4). rewrite H1, H2, H3, H4. cbn. by rewrite <-app_assoc.
Qed.
Lemma apply_wrote ops c c' :
  apply_transaction_operations ops c = Ok c' →
  ∃ batch, ops_batch c ops = Ok batch ∧ kv_write batch (db c) = Some (db c') ∧
    collection_type c' = collection_type c ∧
    change_sender c' = change_sender c ++ flat_map op_events (snd <$> ops) ∧
    (Z.of_N (doc_count c') mod 2 ^ 64 =
     (Z.of_N (doc_count c) + number is_insert ops - number is_delete ops) mod 2 ^ 64)%Z.
Proof.
  unfold apply_transaction_operations. destruct (ops_batch c ops) as [batch|]; [|done].
  unfold write. destruct (kv_write batch (db c)) as [d'|] eqn:Hw; [|done]. intros [= <-]. exists batch.
  destruct (sends (flat_map op_events (snd <$> ops)) (foldl after_commit (set_db d' c) (snd <$> ops)))
    as (-> & -> & -> & ->).
  destruct (after_commits ops (set_db d' c)) as (-> & _ & -> & -> & ->). done.
Qed.
Lemma apply_doc_of ops c c' k :
  apply_transaction_operations ops c = Ok c' → plain k →
  doc_of (db c') k = foldl (doc_after (name c) k) (doc_of (db c) k) ops.
Proof.
  intros (batch & Hb & Hw & _)%apply_wrote Hk. unfold doc_of. rewrite (kv_get_write _ _ _ _ Hw).
  by apply (ops_batch_reads c ops batch k (kv_get (doc_key k) (db c))).
Qed.

(** C5: on a store that accepts the write, the operations of a transaction
    are applied, all of them: every document is what the last operation on its
    key made of it, the others are untouched, the count moves by the inserts
    and the deletes, and the subscribers see one event per operation, in
    order. An update makes a new document: its revision and both of its times
    are those of the commit. *)
Theorem transaction_applies_operations `{!KvReliable DB} ops c :
  (∀ w : Value, is_Some (value_to_vec w)) →
  ∃ c', apply_transaction_operations ops c = Ok c' ∧
    (∀ k, plain k → doc_of (db c') k = foldl (doc_after (name c) k) (doc_of (db c) k) ops) ∧
    (Z.of_N (doc_count c') mod 2 ^ 64 =
     (Z.of_N (doc_count c) + number is_insert ops - number is_delete ops) mod 2 ^ 64)%Z ∧
    change_sender c' = change_sender c ++ flat_map op_events (snd <$> ops).
Proof.
  intros Ht. destruct (ops_batch_total c ops Ht) as [batch Hb].
  destruct (kv_write_ok batch (db c)) as [d' Hw].
  assert (∃ c', apply_transaction_operations ops c = Ok c') as [c' Hc'].
  { unfold apply_transaction_operations, write. rewrite Hb, Hw. by eexists. }
  exists c'. split; [done|]. split; [intros k; by apply apply_doc_of|].
  by apply apply_wrote in Hc' as (? & _ & _ & _ & ? & ?).
Qed.

(** the revision a transactional update hands to its caller is never
    stored. After the commit the document has the revision and the creation
    time of the commit, and an update with the handed revision is refused as
    a conflict. *)
Theorem tx_revision_is_stale `{schema : !SchemaCheck Num DB} rev now k data c tx x tx' (s : stamp)
    rev' now' data' :
  update_tx rev now k data c tx = (Ok x, tx') → operations tx = [] → plain k → s.1 ≠ rev →
  ∀ c', apply_transaction_operations ((λ op, (s, op)) <$> operations tx') c = Ok c' →
  revision x = rev ∧
  (∃ y, doc_of (db c') k = Some y ∧ revision y = s.1 ∧ Document.created_at y = s.2 ∧ key y = k) ∧
  update_with_rev rev' now' k (revision x) data' c' = (Err (revision_error k rev s.1), c').
Proof.
  unfold update_tx. destruct (reject_timeseries c) as [u|] eqn:Hts; [|done].
  destruct (get c k) as [x0|] eqn:Hg; [|done]. destruct (validate_edge c _); [|done].
  destruct (split_name (name c)) as [dbn cn]. intros [= <- <-] Hops Hk Hne c' Hap.
  cbn [operations add_operation] in Hap. rewrite Hops in Hap. cbn [app fmap list_fmap] in Hap.
  set (x := Document.update rev now data x0) in *. split; [done|].
  assert (doc_of (db c') k = Some (with_key s.1 s.2 (name c) k (to_value x))) as Hd.
  { rewrite (apply_doc_of _ _ _ _ Hap Hk). cbn [foldl doc_after snd fst]. by rewrite decide_True. }
  split; [by eexists|]. apply get_doc_of in Hd.
  unfold update_with_rev. apply apply_wrote in Hap as (_ & _ & _ & Hct & _).
  unfold reject_timeseries in *. rewrite Hct. destruct (String.eqb _ _); [done|]. rewrite Hd.
  change (revision (with_key s.1 s.2 (name c) k (to_value x))) with s.1. change (revision x) with rev.
  by rewrite (proj2 (String.eqb_neq _ _) Hne).
Qed.

(** ** Indexes after a transaction *)

Context `{hex_laws : !HexLaws} `{!DocumentJsonLaws Num}.
Implicit Types (d : DB).

(** No index is over the metadata of the documents. *)
Definition data_field (f : string) : Prop :=
  match split_on "." f with p :: _ => p ∉ system_fields | [] => False end.
Definition data_indexes d : Prop :=
  Forall (λ i, Forall data_field (idx_fields i)) (get_all_indexes d).
(** Well-formed object data. *)
Definition object_data (v : Value) : Prop := is_object v = true ∧ wf_value v.
(** The operation starts from what the collection holds: an insert is of a
    new key, an update and a delete are of the stored document. *)
Definition starts_from d (op : Operation) : Prop :=
  match op with
  | Insert _ _ k data => plain k ∧ doc_of d k = None ∧ object_data data
  | Update _ _ k old_data new_data =>
      plain k ∧ object_data new_data ∧ ∃ x, doc_of d k = Some x ∧ old_data = to_value x
  | Delete _ _ k old_data => plain k ∧ ∃ x, doc_of d k = Some x ∧ old_data = to_value x
  | _ => True
  end.

Lemma extract_stored rev now coll k f (v : Value) :
  object_data v → data_field f →
  extract_field_value (to_value (with_key rev now coll k v)) f = extract_field_value v f.
Proof.
  intros [Ho Hw] Hf. destruct v as [| | | | |m]; try done. unfold data_field in Hf.
  unfold extract_field_value. destruct (split_on "." f) as [|p parts]; [done|]. cbn [extract_path].
  assert (value_get p (to_value (with_key rev now coll k (Object m))) = value_get p (Object m)) as ->; [|done].
  pose proof (strip_wf _ Hw) as Hs. pose proof (strip_no_system _ Hw) as Hns.
  pose proof (proj1 (proj1 (wf_Object _) Hw)) as Hm.
  rewrite (to_value_fields (with_key rev now coll k (Object m))
    (foldl (λ m k, OMap.remove k m) m system_fields) p); [|done..].
  rewrite !(proj2 (String.eqb_neq _ _)) by (intros ->; apply Hf; set_solver).
  by apply strip_get.
Qed.
Lemma idx_keys_stored d rev now coll k (v : Value) :
  data_indexes d → object_data v →
  idx_keys d k (to_value (with_key rev now coll k v)) = idx_keys d k v.
Proof.
  intros Hd Hv. unfold idx_keys. unfold data_indexes in Hd. induction Hd as [|i l Hi _ IH]; [done|].
  rewrite !omap_step, IH.
  assert (field_values (to_value (with_key rev now coll k v)) (idx_fields i) = field_values v (idx_fields i))
    as Hfv.
  { unfold field_values. induction Hi as [|f fs Hf _ IHf]; [done|]. cbn [fmap list_fmap]. f_equal; [|done].
    by apply extract_stored. }
  unfold entry_key_for. by rewrite Hfv.
Qed.

Lemma view_consistent d d' : kv_view d = kv_view d' → consistent d → consistent d'.
Proof.
  intros Hv Hc e v He. specialize (Hc e v He).
  assert (get_all_indexes d' = get_all_indexes d) as Hi.
  { unfold get_all_indexes, metadata. by rewrite !kv_from_view, Hv. }
  unfold doc_of in *. rewrite kv_get_view, <-Hv, <-kv_get_view.
  replace (kv_get (doc_key v) d') with (kv_get (doc_key v) d) by by rewrite !kv_get_view, Hv.
  unfold keys_of, idx_keys in *. by rewrite Hi.
Qed.
Lemma replace_consistent d d1 k o entries b b' :
  names_ok d → consistent d → kv_write b d = Some d1 →
  plain k → op_target o = doc_key k → b = o :: entries → idx_reads entries b' →
  b' = dels (keys_of d k (doc_of d k)) ++ puts ((λ e, (e, k)) <$> keys_of d k (doc_of d1 k)) →
  consistent d1 ∧ get_all_indexes d1 = get_all_indexes d ∧
  ∀ k', plain k' → k' ≠ k → doc_of d1 k' = doc_of d k'.
Proof.
  intros Hn Hc Hw Hk Ho -> Hr ->. split; [|split].
  - by apply (write_consistent d d1 k o entries Hw Ho Hk Hn Hc Hr).
  - by apply (indexes_unchanged _ _ _ k _ Hw Ho (proj1 Hr)).
  - intros k' Hk' Hne. by apply (other_doc_of d d1 k k' o entries Ho Hne Hk' (proj1 Hr)).
Qed.
Lemma nothing_consistent d d1 (b : list write_op) :
  b = [] → consistent d → kv_write b d = Some d1 →
  consistent d1 ∧ get_all_indexes d1 = get_all_indexes d ∧ ∀ k, doc_of d1 k = doc_of d k.
Proof.
  intros -> Hc Hw%kv_write_view. cbn in Hw. split; [by apply (view_consistent d)|].
  split; [unfold get_all_indexes, metadata; by rewrite !kv_from_view, Hw|].
  intros k. unfold doc_of. by rewrite !kv_get_view, Hw.
Qed.
(** One operation of the batch on its own. *)
Lemma op_consistent s c op b d d1 :
  names_ok d → data_indexes d → consistent d → get_all_indexes d = get_all_indexes (db c) →
  starts_from d op → op_batch s c op = Ok b → kv_write b d = Some d1 →
  consistent d1 ∧ get_all_indexes d1 = get_all_indexes d ∧
  ∀ k, plain k → k ≠ op_key op → doc_of d1 k = doc_of d k.
Proof.
  intros Hn Hdi Hc Hi Hs Hb Hw.
  assert (∀ k (v : Value), idx_keys (db c) k v = idx_keys d k v) as Hik
    by (intros k v; unfold idx_keys; by rewrite Hi).
  assert (Hstep := λ k o entries b', replace_consistent d d1 k o entries b b' Hn Hc Hw).
  destruct op as [? ? k v|? ? k v w|? ? k v|? ? ? ? ?|? ? ?]; cbn [op_batch starts_from op_key] in *.
  - destruct Hs as (Hk & Hnone & Hv). unfold put_document in Hb.
    destruct (serialize_doc _) as [bytes|] eqn:Hser; [|done].
    destruct (insert_entries (db c) k v) as [entries|] eqn:He; [|done]. injection Hb as Hb.
    pose proof (insert_entries_idx _ _ _ _ He) as Hr. rewrite Hik in Hr. subst b.
    apply (Hstep k (Put (doc_key k) bytes) entries _ Hk eq_refl eq_refl Hr).
    rewrite (put_doc_of _ _ _ _ _ _ Hser Hk (proj1 Hr) Hw), Hnone. cbn [keys_of dels app].
    by rewrite idx_keys_stored.
  - destruct Hs as (Hk & Hv & x & Hx & ->). unfold put_document in Hb.
    destruct (serialize_doc _) as [bytes|] eqn:Hser; [|done].
    destruct (update_entries (db c) k _ w) as [entries|] eqn:He; [|done]. injection Hb as Hb.
    pose proof (update_entries_idx _ _ _ _ _ He) as Hr. rewrite !Hik in Hr. subst b.
    apply (Hstep k (Put (doc_key k) bytes) entries _ Hk eq_refl eq_refl Hr).
    rewrite (put_doc_of _ _ _ _ _ _ Hser Hk (proj1 Hr) Hw), Hx. cbn [keys_of].
    by rewrite idx_keys_stored.
  - destruct Hs as (Hk & x & Hx & ->).
    destruct (delete_entries (db c) k _) as [entries|] eqn:He; [|done]. injection Hb as Hb.
    pose proof (delete_entries_idx _ _ _ _ He) as Hr. rewrite Hik in Hr. subst b.
    apply (Hstep k (Del (doc_key k)) entries _ Hk eq_refl eq_refl Hr).
    rewrite (del_doc_of _ _ _ _ Hk (proj1 Hr) Hw), Hx. cbn. by rewrite app_nil_r.
  - injection Hb as <-. destruct (nothing_consistent d d1 []) as (? & ? & ?); auto.
  - injection Hb as <-. destruct (nothing_consistent d d1 []) as (? & ? & ?); auto.
Qed.

Lemma starts_from_docs d d' op :
  (plain (op_key op) → doc_of d' (op_key op) = doc_of d (op_key op)) →
  starts_from d op → starts_from d' op.
Proof.
  destruct op; cbn [starts_from op_key]; try done.
  - intros H (? & ? & ?). by rewrite H.
  - intros H (? & ? & ?). by rewrite H.
  - intros H (? & ?). by rewrite H.
Qed.
Lemma ops_consistent `{!KvReliable DB} c ops b d d' :
  names_ok d → data_indexes d → consistent d → get_all_indexes d = get_all_indexes (db c) →
  NoDup (op_key ∘ snd <$> ops) → Forall (starts_from d ∘ snd) ops →
  ops_batch c ops = Ok b → kv_write b d = Some d' → consistent d'.
Proof.
  revert b d d'. induction ops as [|[s op] ops IH]; intros b d d' Hn Hdi Hc Hi Hnd Hs Hb Hw; cbn [ops_batch] in Hb.
  { injection Hb as <-. by apply (nothing_consistent d d' []). }
  destruct (op_batch s c op) as [b1|] eqn:Hb1; [|done].
  destruct (ops_batch c ops) as [b2|]; [|done]. injection Hb as <-.
  destruct (kv_write_ok b1 d) as [d1 Hw1]. destruct (kv_write_ok b2 d1) as [d2 Hw2].
  inversion Hs as [|? ? Hs1 Hs2]; subst. cbn [fmap list_fmap] in Hnd.
  apply NoDup_cons in Hnd as [Hnin Hnd].
  destruct (op_consistent s c op b1 d d1 Hn Hdi Hc Hi Hs1 Hb1 Hw1) as (Hc1 & Hi1 & Hd1).
  apply (view_consistent d2).
  { apply kv_write_view in Hw, Hw1, Hw2. rewrite Hw, Hw2, Hw1. unfold write_view. by rewrite foldl_app. }
  apply (IH b2 d1 d2); [| |done|by rewrite Hi1|done| |done|done].
  - unfold names_ok. by rewrite Hi1.
  - unfold data_indexes. by rewrite Hi1.
  - rewrite Forall_forall in *. intros [s' op'] Hin. specialize (Hs2 _ Hin).
    apply (starts_from_docs d); [|exact Hs2]. intros Hk. apply Hd1; [done|].
    cbn [snd]. intros Heq. apply Hnin. apply list_elem_of_fmap. by exists (s', op').
Qed.

(** C23: a transaction with one operation per key, each made from the stored
    document, keeps the regular indexes equal to the entries of the documents,
    when no index is over the metadata that the commit makes anew. *)
Theorem transaction_keeps_indexes `{!KvReliable DB} ops c c' :
  names_ok (db c) → data_indexes (db c) → consistent (db c) →
  NoDup (op_key ∘ snd <$> ops) → Forall (starts_from (db c) ∘ snd) ops →
  apply_transaction_operations ops c = Ok c' → consistent (db c').
Proof.
  intros Hn Hdi Hc Hnd Hs (b & Hb & Hw & _)%apply_wrote. by apply (ops_consistent c ops b (db c)).
Qed.
End Tx.
End CollectionTx.

(** ** The engine's collections *)

Module EngineStore.
Import Transaction CollectionTx Engine.
Section EngineStore.
Context {Num : Type} `{!JsonNumber Num} `{!JsonText Num} `{!MetaJson Num} `{!DocumentJson Num}
  `{!DocCodec Num} `{!DocCodecLaws Num}.
Context `{hex_crate : !HexCrate} `{std_text : !StdText}.
Context {DB : Type} `{!KvStore DB} `{!KvLaws DB}.
(** The revision and the time each operation is applied with. *)
Variable stamp_of : Operation Num → stamp.
Notation Collections := (gmap string (Collection Num DB)).

Definition stamp_all (ops : list (Operation Num)) : list (stamp * Operation Num) :=
  (λ op, (stamp_of op, op)) <$> ops.
#[export] Instance collections_store : CollectionStore Num Collections := {
  has_collection name st := match st !! name with Some _ => true | None => false end;
  apply_transaction_operations name ops st :=
    match st !! name with
    | None => Err (CollectionNotFound name)
    | Some c =>
        match CollectionTx.apply_transaction_operations (stamp_all ops) c with
        | Ok c' => Ok (<[name := c']> st)
        | Err e => Err e
        end
    end;
}.

Lemma one_collection nm (ops : list (Operation Num)) :
  ops ≠ [] → Forall (λ op, coll_name op = nm) ops → ops_by_collection ops = {[nm := ops]}.
Proof.
  intros Hne Hall. unfold ops_by_collection.
  induction ops as [|op ops IH] using rev_ind; [done|]. rewrite foldl_app. cbn [foldl].
  apply Forall_app in Hall as [Hall Hop]. apply Forall_singleton in Hop as ->.
  destruct ops as [|op' ops]; [done|]. rewrite IH by done.
  by rewrite lookup_singleton_eq, insert_singleton_eq.
Qed.

(** committing a transaction on one collection through the engine applies
    its operations to that collection and touches no other, whatever the
    manager then says: the result is the manager's, and the documents are
    those of the operations also when the commit is refused. *)
Theorem engine_commit_applies `{!KvReliable DB} io now t tx m nm c (st : Collections) :
  (∀ w : Value Num, is_Some (value_to_vec w)) →
  TxManager.active_transactions m !! t = Some tx → operations tx ≠ [] →
  Forall (λ op, coll_name op = nm) (operations tx) → st !! nm = Some c →
  ∃ c', commit_transaction io now t (Some m) st =
      (fst (TxManager.commit io now t m), Some (snd (TxManager.commit io now t m)), <[nm := c']> st) ∧
    ∀ k, plain k →
      doc_of (db c') k =
      foldl (doc_after (name c) k) (doc_of (db c) k) (stamp_all (operations tx)).
Proof.
  intros Ht Hm Hne Hall Hc. destruct (ops_batch_total c (stamp_all (operations tx)) Ht) as [batch Hb].
  destruct (kv_write_ok batch (db c)) as [d' Hw].
  assert (∃ c', CollectionTx.apply_transaction_operations (stamp_all (operations tx)) c = Ok c') as [c' Hc'].
  { unfold CollectionTx.apply_transaction_operations, write. rewrite Hb, Hw. by eexists. }
  exists c'. split; [|intros k; by apply apply_doc_of].
  unfold commit_transaction, manager_of, TxManager.get at 1. cbn [ok_or]. rewrite Hm. cbn [ok_or].
  rewrite (one_collection nm) by done. rewrite map_to_list_singleton. cbn [apply_groups].
  cbn [has_collection TxManager.apply_transaction_operations collections_store]. rewrite Hc, Hc'.
  by destruct (TxManager.commit io now t m).
Qed.
End EngineStore.
End EngineStore.

(** *** Concrete transactions *)

Module CollectionTxDemo.
Import Transaction Wal.Wal CollectionTx DocumentDemo CollectionDemo.

Definition tx0 : Transaction demo_number := Transaction.new 7 0 ReadCommitted.
(** Two updates of one document in one transaction. *)
Definition tx1 : Transaction demo_number :=
  snd (update_tx "t1" 10 "k1" (Object [("a", Bool false)]) c1 tx0).
Definition tx2 : Transaction demo_number :=
  snd (update_tx "t2" 11 "k1" (Object [("a", JString "z")]) c1 tx1).
Definition stamped (l : list (Operation demo_number)) : list (stamp * Operation demo_number) :=
  (λ op, (("t9", 12%Z), op)) <$> l.

Lemma transaction_applies_operations_witness :
  ∃ c', apply_transaction_operations (stamped (operations tx1)) c1 = Ok c' ∧
    (∃ x, doc_of (db c') "k1" = Some x ∧ revision x = "t9") ∧
    change_sender c' = change_sender c1 ++ flat_map op_events (operations tx1).
Proof.
  destruct (transaction_applies_operations (stamped (operations tx1)) c1) as (c' & H & Hd & _ & He);
    [by eexists|]. exists c'. split; [exact H|]. split; [|exact He].
  rewrite Hd by done. eexists. split; vm_compute; reflexivity.
Defined.
Definition applied (ops : list (Operation demo_number)) : DemoCollection :=
  match apply_transaction_operations (stamped ops) c1 with Ok c => c | Err _ => c1 end.
Lemma applied_tx1 : apply_transaction_operations (stamped (operations tx1)) c1 = Ok (applied (operations tx1)).
Proof. vm_compute. reflexivity. Qed.
Lemma applied_tx2 : apply_transaction_operations (stamped (operations tx2)) c1 = Ok (applied (operations tx2)).
Proof. vm_compute. reflexivity. Qed.
Lemma tx_revision_is_stale_witness :
  update_with_rev "t5" 13 "k1" "t1" (Object []) (applied (operations tx1)) =
  (Err (revision_error "k1" "t1" "t9"), applied (operations tx1)).
Proof.
  destruct (tx_revision_is_stale "t1" 10 "k1" (Object [("a", Bool false)]) c1 tx0
    (Document.update "t1" 10 (Object [("a", Bool false)]) x1) tx1 ("t9", 12%Z) "t5" 13 (Object []))
    with (c' := applied (operations tx1)) as (_ & _ & Hr);
    [vm_compute; reflexivity|done..|exact applied_tx1|exact Hr].
Defined.
Definition y1 : Document demo_number := Document.update "t1" 10 (Object [("a", Bool false)]) x1.
Lemma tx1_operations : operations tx1 = [Update "db" "c" "k1" (to_value x1) (to_value y1)].
Proof. vm_compute. reflexivity. Qed.
Lemma transaction_keeps_indexes_witness : consistent (db (applied (operations tx1))).
Proof.
  apply (transaction_keeps_indexes (stamped (operations tx1)) c1);
    [apply c1_consistent| |apply c1_consistent| | |exact applied_tx1].
  - unfold data_indexes. replace (get_all_indexes (db c1)) with [by_a; by_bc] by (vm_compute; reflexivity).
    repeat constructor; apply (bool_decide_unpack _); vm_compute; exact I.
  - rewrite tx1_operations. apply NoDup_singleton.
  - rewrite tx1_operations. apply Forall_singleton. cbn [compose snd starts_from].
    split; [reflexivity|]. split; [|exists x1; by rewrite c1_docs].
    split; [reflexivity|]. vm_compute. repeat (split || constructor).
Defined.

Definition y2 : Document demo_number :=
  with_key "t9" 12 "db:c" "k1" (Object [("a", JString "z")]).
Definition stale_entry : string := idx_entry_key "by_a" [Bool false : Value demo_number] "k1".

(** two updates of one document in one transaction are both computed from
    the stored document, so that the entries of the first stay in the index:
    after the commit, an index lookup returns the document for a value it does
    not have. *)
Theorem repeated_update_leaves_entries :
  ∃ c', apply_transaction_operations (stamped (operations tx2)) c1 = Ok c' ∧
    ¬ consistent (db c') ∧
    (index_lookup_eq "a" (Bool false) (db c') no_filters).1 = Some [y2] ∧
    extract_field_value (to_value y2) "a" = JString "z".
Proof.
  exists (applied (operations tx2)). split; [exact applied_tx2|]. split; [|split; vm_compute; reflexivity].
  assert (kv_get stale_entry (db (applied (operations tx2))) = Some "k1") as Hg by (vm_compute; reflexivity).
  intros H. apply (H stale_entry "k1" eq_refl) in Hg as [_ Hin]. revert Hin.
  apply (bool_decide_unpack (stale_entry ∉ _)). vm_compute. exact I.
Qed.

(** A transaction that inserts one key twice is refused, and applied. *)
Definition twice : Operation demo_number := Insert "db" "c" "k7" (Object []).
Definition m7 : TxManager.TransactionManager demo_number :=
  TxManager.put_tx 7%N (add_operation twice (add_operation twice tx0)) (TxManager.new []).
Lemma engine_commit_applies_witness :
  ∃ c' e, Engine.commit_transaction (CollectionStore0 := EngineStore.collections_store (λ _, ("s", 1%Z)))
      Synced 9 7%N (Some m7) {["db:c" := c1]} =
    (Err e, Some (snd (TxManager.commit Synced 9 7%N m7)), <["db:c" := c']> {["db:c" := c1]}) ∧
    doc_of (db c') "k7" = Some (with_key "s" 1 "db:c" "k7" (Object [])).
Proof.
  destruct (EngineStore.engine_commit_applies (λ _, ("s", 1%Z)) Synced 9 7%N
    (add_operation twice (add_operation twice tx0)) m7 "db:c" c1 {["db:c" := c1]}) as (c' & H & Hd);
    [by eexists|reflexivity|done|by repeat constructor|by rewrite lookup_singleton_eq|].
  exists c'. destruct (fst (TxManager.commit Synced 9 7%N m7)) as [|e] eqn:E; [vm_compute in E; discriminate E|].
  exists e. split; [exact H|]. rewrite Hd by done. vm_compute. reflexivity.
Defined.
End CollectionTxDemo.
