(* ===== verification/Sharding.v ===== *)
(** * Shard placement (src/sharding/distribution.rs, router.rs, assignment.rs)

    [compute_assignments] places the primary of every shard on the node with
    the fewest primaries and the replicas on the nodes with the least load,
    other criteria breaking ties in favour of the previous placement. The
    comparator closures are the lexicographic chains [primary_cmp] and
    [replica_cmp] ([cmp_then], [cmp_by]); [sort_by] followed by index 0 is the
    selection. Shard numbers and loads are [nat]; a previous placement is an
    optional map. The two hash functions ([seahash], [DefaultHasher]) are
    library code: the class [KeyHash]. *)

From S2P Require Import Prelude.

Module Sharding.

Record ShardAssignment := mkAssignment {
  shard_id : nat;
  primary_node : string;
  replica_nodes : list string;
}.
Notation assignments := (gmap nat ShardAssignment).
Notation loads := (gmap string nat).

Definition load (m : loads) (n : string) : nat := default 0 (m !! n).
(** [*load.entry(n).or_default() += 1] *)
Definition bump (n : string) (m : loads) : loads := <[n := S (load m n)]> m.

(** ** The criteria *)

Section Criteria.
Context (prev : option assignments) (s : nat).

Definition prev_this : option ShardAssignment := p ← prev; p !! s.
Definition mem (n : string) (l : list string) : bool := bool_decide (n ∈ l).
Definition was_primary (n : string) : bool :=
  match prev_this with Some p => String.eqb (primary_node p) n | None => false end.
Definition was_replica (n : string) : bool :=
  match prev_this with Some p => mem n (replica_nodes p) | None => false end.
(** [p.values().any(|v| v.shard_id != shard_id && ...)] *)
Definition any_elsewhere (f : ShardAssignment → bool) : bool :=
  match prev with
  | Some p => existsb (λ v, negb (Nat.eqb (shard_id v) s) && f v) (map_to_list p).*2
  | None => false
  end.
Definition is_primary_elsewhere (n : string) : bool :=
  any_elsewhere (λ v, String.eqb (primary_node v) n).
Definition is_replica_elsewhere (n : string) : bool := any_elsewhere (λ v, mem n (replica_nodes v)).
Definition used_elsewhere (n : string) : bool :=
  any_elsewhere (λ v, String.eqb (primary_node v) n || mem n (replica_nodes v)).

(** Nodes with the property first, or last. *)
Definition first (f : string → bool) : string → string → comparison :=
  cmp_by (λ n, negb (f n)) bool_cmp.
Definition later (f : string → bool) : string → string → comparison := cmp_by f bool_cmp.

Definition primary_cmp (primary_load total_load : loads) : string → string → comparison :=
  cmp_then (cmp_by (load primary_load) Nat.compare)
  (cmp_then (first was_primary)
  (cmp_then (first was_replica)
  (cmp_then (later is_primary_elsewhere)
  (cmp_then (later is_replica_elsewhere)
  (cmp_then (cmp_by (load total_load) Nat.compare) str_cmp))))).
Definition replica_cmp (total_load : loads) : string → string → comparison :=
  cmp_then (cmp_by (load total_load) Nat.compare)
  (cmp_then (first was_replica)
  (cmp_then (later used_elsewhere) str_cmp)).
End Criteria.

(** ** The two passes *)

Record state := mkState { assigned : assignments; primary_load : loads; total_load : loads }.

(** [candidates[0]] exists: there is a node. *)
Definition assign_primary (nodes : list string) (prev : option assignments) (st : state) (s : nat)
    : state :=
  match sort_by (primary_cmp prev s (primary_load st) (total_load st)) nodes with
  | [] => st
  | best :: _ =>
      mkState (<[s := mkAssignment s best []]> (assigned st))
        (bump best (primary_load st)) (bump best (total_load st))
  end.
Definition init_loads (nodes : list string) : loads := foldl (λ m n, <[n := 0]> m) ∅ nodes.
Definition assign_primaries (nodes : list string) (num_shards : nat) (prev : option assignments)
    : state :=
  foldl (assign_primary nodes prev) (mkState ∅ (init_loads nodes) (init_loads nodes))
    (seq 0 num_shards).

(** The candidates for the next replica, and the loop over the replicas,
    which stops when there are none. *)
Definition candidates (nodes : list string) (primary : string) (replicas : list string)
    : list string :=
  filter (λ n, n ≠ primary ∧ n ∉ replicas) nodes.
Fixpoint pick_replicas (nodes : list string) (prev : option assignments) (s : nat)
    (primary : string) (target : nat) (total : loads) (replicas : list string)
    : loads * list string :=
  match target with
  | 0 => (total, replicas)
  | S target' =>
      match sort_by (replica_cmp prev s total) (candidates nodes primary replicas) with
      | [] => (total, replicas)
      | best :: _ =>
          pick_replicas nodes prev s primary target' (bump best total) (replicas ++ [best])
      end
  end.
Definition assign_replicas (nodes : list string) (prev : option assignments) (target : nat)
    (st : state) (s : nat) : state :=
  match assigned st !! s with
  | None => st
  | Some a =>
      let '(total, replicas) :=
        pick_replicas nodes prev s (primary_node a) target (total_load st) (replica_nodes a) in
      mkState (<[s := mkAssignment (shard_id a) (primary_node a) (sort_by str_cmp replicas)]>
                 (assigned st)) (primary_load st) total
  end.

Definition compute_assignments (nodes : list string) (num_shards replication_factor : nat)
    (previous_assignments : option assignments) : result string assignments :=
  match nodes with
  | [] => Err "No nodes available for shard assignment"
  | _ =>
      let sorted_nodes := sort_by str_cmp nodes in
      let st := assign_primaries sorted_nodes num_shards previous_assignments in
      let target_replicas := replication_factor - 1 in
      if (0 <? target_replicas) && negb (length nodes <? 2)
      then Ok (assigned (foldl (assign_replicas sorted_nodes previous_assignments target_replicas)
                           st (seq 0 num_shards)))
      else Ok (assigned st)
  end.

(** ** Routing *)

Class KeyHash := { seahash : string → N; default_hash : string → N }.

(** [ShardRouter::route] *)
Definition route `{!KeyHash} (key : string) (num_shards : N) : N :=
  if (num_shards =? 0)%N then 0%N else (wrap64 (seahash key) mod num_shards)%N.
Definition is_shard_replica (shard_id node_index replication_factor num_nodes : nat) : bool :=
  if (num_nodes =? 0) || (replication_factor =? 0) then false
  else
    let primary_node := Nat.modulo shard_id num_nodes in
    existsb (λ r, Nat.modulo (primary_node + r) num_nodes =? node_index)
      (seq 0 replication_factor).

(** [route_key] of assignment.rs: [None] is the division by zero. *)
Definition route_key `{!KeyHash} (key : string) (num_shards : N) : option N :=
  if (num_shards =? 0)%N then None else Some (wrap64 (default_hash key) mod num_shards)%N.
Definition get_replicas_for_key `{!KeyHash} (key : string) (a : assignments)
    : option (list string) :=
  let num_shards := N.modulo (N.of_nat (size a)) u16_modulus in
  shard_id ← route_key key num_shards;
  Some (match a !! N.to_nat shard_id with
        | Some x => primary_node x :: replica_nodes x
        | None => []
        end).


(** ** Loads *)

Lemma load_bump n m x : load (bump n m) x = if decide (n = x) then S (load m x) else load m x.
Proof. unfold load, bump. rewrite lookup_insert. case_decide; [by subst|done]. Qed.
Lemma bump_comm a b m : bump a (bump b m) = bump b (bump a m).
Proof.
  destruct (decide (a = b)) as [->|Hne]; [done|]. unfold bump at 1 3.
  rewrite !load_bump, !decide_False by done. unfold bump. by rewrite insert_insert_ne.
Qed.
(** The load after a list of picks does not depend on their order. *)
Definition bump_all (picks : list string) (m : loads) : loads := foldl (λ m n, bump n m) m picks.
Lemma bump_all_perm l1 l2 m : l1 ≡ₚ l2 → bump_all l1 m = bump_all l2 m.
Proof.
  intros H. revert m. induction H as [|x l1 l2 _ IH|x y l|l1 l2 l3 _ IH1 _ IH2]; intros m; simpl.
  - done.
  - apply IH.
  - unfold bump_all. simpl. by rewrite bump_comm.
  - by rewrite IH1, IH2.
Qed.

Definition occurrences (n : string) (l : list string) : nat := length (filter (λ x, x = n) l).
Lemma occurrences_snoc n l x :
  occurrences n (l ++ [x]) = if decide (x = n) then S (occurrences n l) else occurrences n l.
Proof.
  unfold occurrences. rewrite filter_app, length_app. case_decide.
  - rewrite filter_cons_True, filter_nil by done. simpl. lia.
  - rewrite filter_cons_False, filter_nil by done. simpl. lia.
Qed.

(** The comparators are total orders, whatever the previous placement. *)
#[export] Instance primary_cmp_total prev s pl tl : TotalCmp (primary_cmp prev s pl tl).
Proof. apply _. Qed.
#[export] Instance replica_cmp_total prev s tl : TotalCmp (replica_cmp prev s tl).
Proof. apply _. Qed.
Lemma primary_cmp_load prev s pl tl x y :
  primary_cmp prev s pl tl x y ≠ Gt → load pl x ≤ load pl y.
Proof.
  unfold primary_cmp, cmp_then at 1, cmp_by at 1.
  destruct (Nat.compare_spec (load pl x) (load pl y)); [lia|lia|done].
Qed.
Lemma replica_cmp_load prev s tl x y :
  replica_cmp prev s tl x y ≠ Gt → load tl x ≤ load tl y.
Proof.
  unfold replica_cmp, cmp_then at 1, cmp_by at 1.
  destruct (Nat.compare_spec (load tl x) (load tl y)); [lia|lia|done].
Qed.
(** At equal load, a node with the preferred role comes before one without. *)
Lemma primary_cmp_role prev s pl tl x y :
  primary_cmp prev s pl tl x y ≠ Gt → load pl y ≤ load pl x →
  was_primary prev s y = true → was_primary prev s x = true.
Proof.
  intros H Hle Hy. pose proof (primary_cmp_load _ _ _ _ _ _ H) as Hle'.
  unfold primary_cmp, cmp_then at 1, cmp_by at 1 in H.
  rewrite (proj2 (Nat.compare_eq_iff _ _)) in H by lia.
  unfold cmp_then at 1, first at 1, cmp_by at 1 in H. rewrite Hy in H.
  by destruct (was_primary prev s x).
Qed.
Lemma replica_cmp_role prev s tl x y :
  replica_cmp prev s tl x y ≠ Gt → load tl y ≤ load tl x →
  was_replica prev s y = true → was_replica prev s x = true.
Proof.
  intros H Hle Hy. pose proof (replica_cmp_load _ _ _ _ _ H) as Hle'.
  unfold replica_cmp, cmp_then at 1, cmp_by at 1 in H.
  rewrite (proj2 (Nat.compare_eq_iff _ _)) in H by lia.
  unfold cmp_then at 1, first at 1, cmp_by at 1 in H. rewrite Hy in H.
  by destruct (was_replica prev s x).
Qed.

(** ** Primaries *)

Section Primaries.
Context (ns : list string) (Hns : ns ≠ []).
Implicit Types (a : assignments) (st : state).

(** The primaries of the first [k] shards. *)
Definition primaries a k : list string := omap (λ s, primary_node <$> a !! s) (seq 0 k).

Lemma primaries_insert a k x : primaries (<[k := x]> a) (S k) = primaries a k ++ [primary_node x].
Proof.
  unfold primaries. rewrite seq_S, omap_app. simpl. rewrite lookup_insert_eq. simpl. f_equal.
  assert (∀ i n, i + n ≤ k →
    omap (λ s, primary_node <$> <[k := x]> a !! s) (seq i n) =
    omap (λ s, primary_node <$> a !! s) (seq i n)) as H; [|apply H; lia].
  intros i n. revert i. induction n as [|n IH]; intros i Hi; [done|]. cbn [seq omap list_omap].
  rewrite lookup_insert_ne by lia. by rewrite IH by lia.
Qed.

Record primaries_inv k st : Prop := {
  inv_dom s : is_Some (assigned st !! s) ↔ s < k;
  inv_fields s x : assigned st !! s = Some x →
    shard_id x = s ∧ primary_node x ∈ ns ∧ replica_nodes x = [];
  inv_count n : load (primary_load st) n = occurrences n (primaries (assigned st) k);
  inv_balance x y : x ∈ ns → y ∈ ns → load (primary_load st) x ≤ S (load (primary_load st) y);
}.

Lemma load_init n : load (init_loads ns) n = 0.
Proof.
  unfold init_loads. assert (∀ l m, load m n = 0 → load (foldl (λ m n, <[n := 0]> m) m l) n = 0) as H.
  { induction l as [|x l IH]; intros m Hm; [done|]. apply IH. unfold load in *.
    rewrite lookup_insert. by case_decide. }
  by apply H.
Qed.

Lemma assign_primary_eq prev st s :
  ∃ best, best ∈ ns ∧
    (∀ y, y ∈ ns → primary_cmp prev s (primary_load st) (total_load st) best y ≠ Gt) ∧
    assign_primary ns prev st s =
    mkState (<[s := mkAssignment s best []]> (assigned st))
      (bump best (primary_load st)) (bump best (total_load st)).
Proof.
  unfold assign_primary.
  destruct (sort_by_nonempty (primary_cmp prev s (primary_load st) (total_load st)) ns Hns)
    as (best & r & E).
  destruct (sort_by_head_min _ _ _ _ E) as [Hin Hmin]. exists best. rewrite E. auto.
Qed.

Lemma assign_primary_inv prev k st :
  primaries_inv k st → primaries_inv (S k) (assign_primary ns prev st k).
Proof.
  intros [Hdom Hf Hc Hb]. destruct (assign_primary_eq prev st k) as (best & Hin & Hmin & ->).
  split; simpl.
  - intros s. rewrite lookup_insert. case_decide; [subst; split; eauto; lia|]. rewrite Hdom. lia.
  - intros s x. rewrite lookup_insert. case_decide; [intros [= <-]; by subst|apply Hf].
  - intros n. rewrite load_bump, primaries_insert, occurrences_snoc. simpl. by rewrite Hc.
  - intros x y Hx Hy. rewrite !load_bump.
    pose proof (Hb x y Hx Hy). pose proof (primary_cmp_load _ _ _ _ _ _ (Hmin x Hx)).
    pose proof (primary_cmp_load _ _ _ _ _ _ (Hmin y Hy)). repeat case_decide; subst; lia.
Qed.
Lemma assign_primaries_snoc k prev :
  assign_primaries ns (S k) prev = assign_primary ns prev (assign_primaries ns k prev) k.
Proof. unfold assign_primaries. by rewrite seq_S, foldl_app. Qed.
Lemma assign_primaries_inv prev k : primaries_inv k (assign_primaries ns k prev).
Proof.
  induction k as [|k IH].
  - split; simpl.
    + intros s. rewrite lookup_empty. split; [by intros [? ?]|lia].
    + intros s x. by rewrite lookup_empty.
    + intros n. apply load_init.
    + intros x y _ _. rewrite !load_init. lia.
  - rewrite assign_primaries_snoc. by apply assign_primary_inv.
Qed.

(** Running again from a placement with these primaries picks them again. *)
Lemma assign_primaries_stable prev r k :
  (∀ s x, assigned (assign_primaries ns k prev) !! s = Some x →
     ∃ y, r !! s = Some y ∧ primary_node y = primary_node x) →
  assign_primaries ns k (Some r) = assign_primaries ns k prev.
Proof.
  induction k as [|k IH]; intros Hr; [done|].
  rewrite !assign_primaries_snoc in *.
  destruct (assign_primary_eq prev (assign_primaries ns k prev) k) as (b1 & Hin1 & Hmin1 & E1).
  rewrite E1 in Hr. simpl in Hr.
  assert (assign_primaries ns k (Some r) = assign_primaries ns k prev) as Hst.
  { apply IH. intros s x Hs. apply Hr. rewrite lookup_insert_ne; [done|].
    intros ->. pose proof (proj1 (inv_dom _ _ (assign_primaries_inv prev s) s) ltac:(eauto)). lia. }
  rewrite Hst. set (st := assign_primaries ns k prev) in *.
  destruct (assign_primary_eq (Some r) st k) as (b2 & Hin2 & Hmin2 & ->). rewrite E1.
  destruct (Hr k _ (lookup_insert_eq _ _ _)) as (y & Hy & Hp). simpl in Hp.
  assert (was_primary (Some r) k b1 = true) as Hw.
  { unfold was_primary, prev_this. simpl. rewrite Hy, Hp. apply String.eqb_refl. }
  assert (was_primary (Some r) k b2 = true) as Hw2.
  { eapply primary_cmp_role; [apply Hmin2, Hin1| |done].
    exact (primary_cmp_load _ _ _ _ _ _ (Hmin1 b2 Hin2)). }
  unfold was_primary, prev_this in Hw2. simpl in Hw2. rewrite Hy in Hw2.
  apply String.eqb_eq in Hw2. by rewrite <-Hw2, Hp.
Qed.
End Primaries.


(** ** Replicas *)

Section Replicas.
Context (ns : list string) (Hnd : NoDup ns).
Implicit Types (a : assignments) (st : state) (picks reps : list string).

Lemma elem_of_candidates n p reps :
  n ∈ candidates ns p reps ↔ n ∈ ns ∧ n ≠ p ∧ n ∉ reps.
Proof. unfold candidates. rewrite list_elem_of_filter. naive_solver. Qed.
Lemma candidates_snoc p reps b :
  b ∈ candidates ns p reps →
  length (candidates ns p reps) = S (length (candidates ns p (reps ++ [b]))).
Proof.
  intros Hb. assert (candidates ns p reps ≡ₚ b :: candidates ns p (reps ++ [b])) as ->; [|done].
  apply NoDup_Permutation.
  - by apply NoDup_filter.
  - apply NoDup_cons. split; [rewrite elem_of_candidates; set_solver|by apply NoDup_filter].
  - intros x. rewrite elem_of_cons, !elem_of_candidates. rewrite elem_of_candidates in Hb.
    rewrite not_elem_of_app. destruct (decide (x = b)) as [->|]; set_solver.
Qed.

(** What the loop picks: as many distinct candidates as it can, and none of
    them has more load than a candidate left over. *)
Record picked p (target : nat) (total : loads) reps picks : Prop := {
  picked_nodup : NoDup picks;
  picked_cand x : x ∈ picks → x ∈ candidates ns p reps;
  picked_length : length picks = Nat.min target (length (candidates ns p reps));
  picked_least x y : x ∈ picks → y ∈ candidates ns p reps → y ∉ picks → load total x ≤ load total y;
}.

Lemma pick_replicas_spec prev s p target total reps :
  ∃ picks, pick_replicas ns prev s p target total reps = (bump_all picks total, reps ++ picks) ∧
    picked p target total reps picks.
Proof.
  revert total reps. induction target as [|target IH]; intros total reps; simpl.
  { exists []. rewrite app_nil_r. split; [done|]. split; [by apply NoDup_nil|set_solver|done|set_solver]. }
  destruct (sort_by (replica_cmp prev s total) (candidates ns p reps)) as [|best r] eqn:E.
  { exists []. rewrite app_nil_r. split; [done|].
    pose proof (sort_by_length (replica_cmp prev s total) (candidates ns p reps)) as Hl.
    rewrite E in Hl. simpl in Hl. split; [by apply NoDup_nil|set_solver|by rewrite <-Hl|set_solver]. }
  destruct (sort_by_head_min _ _ _ _ E) as [Hin Hmin].
  destruct (IH (bump best total) (reps ++ [best])) as (picks & -> & [Hn Hc Hl Hle]).
  exists (best :: picks). rewrite <-app_assoc. split; [done|]. split.
  - apply NoDup_cons. split; [|done]. intros H%Hc. rewrite elem_of_candidates in H. set_solver.
  - intros x [->|Hx%Hc]%elem_of_cons; [done|]. rewrite elem_of_candidates in *. set_solver.
  - rewrite (candidates_snoc p reps best Hin). simpl. by rewrite Hl.
  - intros x y [->|Hx]%elem_of_cons Hy [Hne Hy']%not_elem_of_cons.
    + exact (replica_cmp_load _ _ _ _ _ (Hmin y Hy)).
    + pose proof (Hc x Hx) as Hxc. rewrite elem_of_candidates in Hxc.
      assert (y ∈ candidates ns p (reps ++ [best])) as Hyc by (rewrite elem_of_candidates in *; set_solver).
      specialize (Hle x y Hx Hyc Hy'). rewrite !load_bump, !decide_False in Hle by set_solver. done.
Qed.

(** With the picks of an earlier run as the previous replicas, the loop picks
    them again. *)
Lemma pick_replicas_stable r s p target total reps picks :
  picked p target total reps picks →
  (∀ x, x ∈ candidates ns p reps → was_replica (Some r) s x = true ↔ x ∈ picks) →
  ∃ picks', pick_replicas ns (Some r) s p target total reps =
    (bump_all picks' total, reps ++ picks') ∧ picks' ≡ₚ picks.
Proof.
  revert total reps picks. induction target as [|target IH]; intros total reps picks [Hn Hc Hl Hle] Hw.
  { exists []. simpl. rewrite app_nil_r. split; [done|]. simpl in Hl. by destruct picks. }
  simpl. destruct (sort_by (replica_cmp (Some r) s total) (candidates ns p reps)) as [|best r'] eqn:E.
  { exists []. rewrite app_nil_r. split; [done|].
    pose proof (sort_by_length (replica_cmp (Some r) s total) (candidates ns p reps)) as Hl'.
    rewrite E in Hl'. simpl in Hl'. rewrite <-Hl' in Hl. by destruct picks. }
  destruct (sort_by_head_min _ _ _ _ E) as [Hin Hmin].
  assert (best ∈ picks) as Hbest.
  { destruct (decide (best ∈ picks)) as [|Hnb]; [done|]. exfalso.
    rewrite (candidates_snoc p reps best Hin) in Hl. destruct picks as [|x picks']; [done|].
    assert (x ∈ candidates ns p reps) as Hx by (apply Hc; by left).
    apply Hnb, Hw; [done|]. eapply replica_cmp_role; [exact (Hmin x Hx)| |apply Hw; [done|by left]].
    apply Hle; [by left|done|done]. }
  apply list_elem_of_split in Hbest as (p1 & p2 & ->).
  rewrite <-Permutation_middle in Hn. apply NoDup_cons in Hn as [Hnb Hn].
  destruct (IH (bump best total) (reps ++ [best]) (p1 ++ p2)) as (picks' & -> & Hperm).
  - split; [done| | |].
    + intros x Hx. assert (x ∈ candidates ns p reps) as H by (apply Hc; set_solver).
      rewrite elem_of_candidates in *. set_solver.
    + rewrite (candidates_snoc p reps best Hin), length_app in Hl. simpl in Hl.
      rewrite length_app. lia.
    + intros x y Hx Hy Hny. rewrite elem_of_candidates in Hy.
      rewrite !load_bump, !decide_False by set_solver.
      apply Hle; [set_solver|rewrite elem_of_candidates; set_solver|set_solver].
  - intros x Hx. rewrite elem_of_candidates in Hx. rewrite Hw by (rewrite elem_of_candidates; set_solver).
    set_solver.
  - exists (best :: picks'). rewrite <-app_assoc. split; [done|]. by rewrite Hperm, Permutation_middle.
Qed.

(** The placement of one shard after its replicas are chosen. *)
Definition replicated target x : Prop :=
  NoDup (primary_node x :: replica_nodes x) ∧ (∀ n, n ∈ replica_nodes x → n ∈ ns) ∧
  length (replica_nodes x) = Nat.min target (length ns - 1).

Lemma candidates_start p : p ∈ ns → length (candidates ns p []) = length ns - 1.
Proof.
  intros Hp. assert (ns ≡ₚ p :: candidates ns p []) as H.
  { apply NoDup_Permutation; [done| |].
    - apply NoDup_cons. split; [rewrite elem_of_candidates; set_solver|by apply NoDup_filter].
    - intros x. rewrite elem_of_cons, elem_of_candidates.
      destruct (decide (x = p)) as [->|]; set_solver. }
  rewrite H at 2. simpl. lia.
Qed.

Lemma assign_replicas_eq prev target st s x :
  assigned st !! s = Some x → primary_node x ∈ ns → replica_nodes x = [] →
  ∃ picks, picked (primary_node x) target (total_load st) [] picks ∧
    assign_replicas ns prev target st s =
    mkState (<[s := mkAssignment (shard_id x) (primary_node x) (sort_by str_cmp picks)]> (assigned st))
      (primary_load st) (bump_all picks (total_load st)) ∧
    replicated target (mkAssignment (shard_id x) (primary_node x) (sort_by str_cmp picks)).
Proof.
  intros Hs Hp Hr. unfold assign_replicas. rewrite Hs, Hr.
  destruct (pick_replicas_spec prev s (primary_node x) target (total_load st) []) as (picks & -> & Hpk).
  exists picks. split; [done|]. split; [done|]. destruct Hpk as [Hn Hc Hl _].
  split_and!; simpl.
  - apply NoDup_cons. rewrite elem_of_sort_by, sort_by_perm. split; [|done].
    intros H%Hc. rewrite elem_of_candidates in H. naive_solver.
  - intros n. rewrite elem_of_sort_by. intros H%Hc. rewrite elem_of_candidates in H. naive_solver.
  - by rewrite sort_by_length, Hl, candidates_start.
Qed.
End Replicas.


(** ** The second pass *)

Section Pass.
Context (ns : list string) (Hne : ns ≠ []) (Hnd : NoDup ns) (num target : nat).
Implicit Types (a r : assignments) (st : state).

Definition replica_pass prev st k : state := foldl (assign_replicas ns prev target) st (seq 0 k).

Lemma replica_pass_snoc prev st k :
  replica_pass prev st (S k) = assign_replicas ns prev target (replica_pass prev st k) k.
Proof. unfold replica_pass. by rewrite seq_S, foldl_app. Qed.
Lemma assign_replicas_other prev st s s' :
  s ≠ s' → assigned (assign_replicas ns prev target st s) !! s' = assigned st !! s'.
Proof.
  intros Hs. unfold assign_replicas. destruct (assigned st !! s) as [x|]; [|done].
  destruct (pick_replicas _ _ _ _ _ _ _). simpl. by rewrite lookup_insert_ne.
Qed.
Lemma replica_pass_later prev st s j k :
  s < j → j ≤ k → assigned (replica_pass prev st k) !! s = assigned (replica_pass prev st j) !! s.
Proof.
  intros Hs Hjk. induction Hjk as [|k Hjk IH]; [done|].
  rewrite replica_pass_snoc, assign_replicas_other by lia. done.
Qed.

Section From.
Context (prev : option assignments).
Notation st0 := (assign_primaries ns num prev).

Lemma replica_pass_before prev' k s :
  k ≤ s → assigned (replica_pass prev' st0 k) !! s = assigned st0 !! s.
Proof.
  induction k as [|k IH]; intros Hk; [done|].
  rewrite replica_pass_snoc, assign_replicas_other by lia. apply IH. lia.
Qed.
Lemma primary_at s :
  s < num → ∃ x, assigned st0 !! s = Some x ∧ shard_id x = s ∧ primary_node x ∈ ns ∧
    replica_nodes x = [].
Proof.
  intros Hs. destruct (assign_primaries_inv ns Hne prev num) as [Hdom Hf _ _].
  destruct (proj2 (Hdom s) Hs) as [x Hx]. exists x. destruct (Hf s x Hx) as (? & ? & ?). done.
Qed.

(** One shard, at its turn. *)
Lemma replica_pass_step prev' s x :
  s < num → assigned st0 !! s = Some x →
  let st := replica_pass prev' st0 s in
  ∃ picks, picked ns (primary_node x) target (total_load st) [] picks ∧
    replica_pass prev' st0 (S s) =
    mkState (<[s := mkAssignment s (primary_node x) (sort_by str_cmp picks)]> (assigned st))
      (primary_load st) (bump_all picks (total_load st)) ∧
    replicated ns target (mkAssignment s (primary_node x) (sort_by str_cmp picks)).
Proof.
  intros Hs Hx. simpl. destruct (primary_at s Hs) as (x' & Hx' & Hid & Hp & Hr).
  rewrite Hx in Hx'. injection Hx' as <-. rewrite replica_pass_snoc.
  rewrite <-(replica_pass_before prev' s s) in Hx by lia.
  destruct (assign_replicas_eq ns Hnd prev' target _ s x Hx Hp Hr) as (picks & H1 & H2 & H3).
  rewrite Hid in H2, H3. by exists picks.
Qed.

(** Every shard, when the pass is over. *)
Lemma replica_pass_done prev' s :
  s < num → ∃ x y, assigned st0 !! s = Some x ∧ assigned (replica_pass prev' st0 num) !! s = Some y ∧
    shard_id y = s ∧ primary_node y = primary_node x ∧ primary_node y ∈ ns ∧ replicated ns target y.
Proof.
  intros Hs. destruct (primary_at s Hs) as (x & Hx & _ & Hp & _).
  destruct (replica_pass_step prev' s x Hs Hx) as (picks & _ & E & Hr).
  exists x. eexists. split; [done|]. rewrite (replica_pass_later prev' _ s (S s) num) by lia.
  rewrite E. simpl. rewrite lookup_insert_eq. by split_and!.
Qed.
Lemma replica_pass_dom prev' s : is_Some (assigned (replica_pass prev' st0 num) !! s) ↔ s < num.
Proof.
  split.
  - destruct (decide (s < num)); [done|]. rewrite replica_pass_before by lia.
    intros H. by apply (inv_dom _ _ _ (assign_primaries_inv ns Hne prev num)).
  - intros Hs. destruct (replica_pass_done prev' s Hs) as (x & y & _ & H & _). by rewrite H.
Qed.
Lemma replica_pass_primaries prev' :
  primaries (assigned (replica_pass prev' st0 num)) num = primaries (assigned st0) num.
Proof.
  unfold primaries.
  assert (∀ k i, i + k ≤ num →
    omap (λ s, primary_node <$> assigned (replica_pass prev' st0 num) !! s) (seq i k) =
    omap (λ s, primary_node <$> assigned st0 !! s) (seq i k)) as H; [|apply H; lia].
  induction k as [|k IH]; intros i Hi; [done|]. cbn [seq omap list_omap].
  destruct (replica_pass_done prev' i) as (x & y & -> & -> & _ & E & _); [lia|].
  simpl. by rewrite E, IH by lia.
Qed.

(** The pass is a fixed point: started from its own result it repeats it. *)
Lemma replica_pass_stable k :
  let r := assigned (replica_pass prev st0 num) in
  k ≤ num → replica_pass (Some r) st0 k = replica_pass prev st0 k.
Proof.
  simpl. set (r := assigned (replica_pass prev st0 num)).
  induction k as [|k IH]; intros Hk; [done|]. specialize (IH ltac:(lia)).
  destruct (primary_at k ltac:(lia)) as (x & Hx & Hid & Hp & Hrn).
  destruct (replica_pass_step prev k x ltac:(lia) Hx) as (picks & Hpk & E & _).
  rewrite replica_pass_snoc, IH, E. unfold assign_replicas.
  rewrite (replica_pass_before prev k k), Hx, Hrn by lia.
  assert (r !! k = Some (mkAssignment k (primary_node x) (sort_by str_cmp picks))) as Hrk.
  { unfold r. rewrite (replica_pass_later prev _ k (S k) num) by lia. rewrite E. simpl.
    by rewrite lookup_insert_eq. }
  destruct (pick_replicas_stable ns Hnd r k (primary_node x) target _ [] picks Hpk)
    as (picks' & -> & Hperm).
  { intros n _. unfold was_replica, prev_this. simpl. rewrite Hrk. simpl. unfold mem.
    rewrite bool_decide_eq_true. apply elem_of_sort_by. }
  cbn [app]. rewrite (sort_by_perm_eq str_cmp picks' picks Hperm), (bump_all_perm _ _ _ Hperm).
  by rewrite Hid.
Qed.
End From.
End Pass.

(** ** Properties *)

(** The pieces of [compute_assignments] for a list of nodes that is not
    empty. *)
Lemma compute_eq nodes num rf prev :
  nodes ≠ [] →
  let ns := sort_by str_cmp nodes in
  let st := assign_primaries ns num prev in
  compute_assignments nodes num rf prev =
  Ok (assigned (if (0 <? rf - 1) && negb (length nodes <? 2)
                then replica_pass ns (rf - 1) prev st num else st)).
Proof.
  intros Hn. destruct nodes as [|n nodes]; [done|]. cbn zeta.
  unfold compute_assignments, replica_pass. by destruct (_ && _).
Qed.
Lemma sorted_nodes nodes :
  nodes ≠ [] → NoDup nodes →
  sort_by str_cmp nodes ≠ [] ∧ NoDup (sort_by str_cmp nodes).
Proof.
  intros Hn Hnd. split; [|by rewrite sort_by_perm].
  destruct (sort_by_nonempty str_cmp nodes Hn) as (x & r & ->). done.
Qed.

(** C29: the placement of shards on distinct nodes. It succeeds; it covers
    exactly the shards [0 .. num-1]; every shard has its primary and its
    replicas on nodes of the list, all different, with as many replicas as
    the replication factor asks for and the nodes allow; and the numbers of
    primaries of any two nodes differ by at most one, whatever the previous
    placement. *)
Theorem placement_spec nodes num rf prev :
  nodes ≠ [] → NoDup nodes →
  ∃ a, compute_assignments nodes num rf prev = Ok a ∧
    (∀ s, is_Some (a !! s) ↔ s < num) ∧
    (∀ s x, a !! s = Some x →
       shard_id x = s ∧ primary_node x ∈ nodes ∧ NoDup (primary_node x :: replica_nodes x) ∧
       (∀ n, n ∈ replica_nodes x → n ∈ nodes) ∧
       length (replica_nodes x) = Nat.min (rf - 1) (length nodes - 1)) ∧
    (∀ n n', n ∈ nodes → n' ∈ nodes →
       occurrences n (primaries a num) ≤ S (occurrences n' (primaries a num))).
Proof.
  intros Hn Hnd. rewrite compute_eq by done. cbn zeta. set (ns := sort_by str_cmp nodes).
  destruct (sorted_nodes nodes Hn Hnd) as [Hsn Hsnd]. fold ns in Hsn, Hsnd.
  assert (∀ n, n ∈ ns ↔ n ∈ nodes) as Hin by (intros; apply elem_of_sort_by).
  assert (length ns = length nodes) as Hlen by apply sort_by_length.
  pose proof (assign_primaries_inv ns Hsn prev num) as [Hdom Hf Hc Hb].
  eexists. split; [reflexivity|]. destruct (_ && _) eqn:Econd.
  - split_and!.
    + apply replica_pass_dom; done.
    + intros s x Hx. assert (s < num) as Hs by (eapply replica_pass_dom; [done..|]; eauto).
      destruct (replica_pass_done ns Hsn Hsnd num (rf - 1) prev prev s Hs)
        as (x0 & y & _ & Hy & Hid & _ & Hp & Hnr & Hr & Hl).
      rewrite Hx in Hy. injection Hy as <-. rewrite <-Hlen. naive_solver.
    + intros n n' Hn1 Hn2. rewrite replica_pass_primaries by done. rewrite <-!Hc.
      by apply Hb; apply Hin.
  - split_and!; [done| |].
    + intros s x Hx. destruct (Hf s x Hx) as (Hid & Hp & Hr). rewrite Hr. split_and!; try done.
      * by apply Hin.
      * apply NoDup_singleton.
      * set_solver.
      * simpl. apply andb_false_iff in Econd as [E|E].
        -- apply Nat.ltb_ge in E. lia.
        -- apply negb_false_iff, Nat.ltb_lt in E. lia.
    + intros n n' Hn1 Hn2. rewrite <-!Hc. by apply Hb; apply Hin.
Qed.

(** placing again changes nothing: with a placement as the previous one,
    the same nodes, shards and replication factor give that placement back. *)
Theorem placement_stable nodes num rf prev a :
  NoDup nodes → compute_assignments nodes num rf prev = Ok a →
  compute_assignments nodes num rf (Some a) = Ok a.
Proof.
  intros Hnd. destruct (decide (nodes = [])) as [->|Hn]; [done|].
  rewrite !compute_eq by done. cbn zeta. set (ns := sort_by str_cmp nodes). intros [= <-]. f_equal.
  destruct (sorted_nodes nodes Hn Hnd) as [Hsn Hsnd]. fold ns in Hsn, Hsnd.
  destruct (_ && _).
  - set (r := assigned (replica_pass ns (rf - 1) prev (assign_primaries ns num prev) num)).
    rewrite (assign_primaries_stable ns Hsn prev r).
    + unfold r. by rewrite replica_pass_stable.
    + intros s x Hx. assert (s < num) as Hs
        by (apply (inv_dom _ _ _ (assign_primaries_inv ns Hsn prev num)); eauto).
      destruct (replica_pass_done ns Hsn Hsnd num (rf - 1) prev prev s Hs)
        as (x0 & y & Hx0 & Hy & _ & Hp & _).
      rewrite Hx in Hx0. injection Hx0 as <-. by exists y.
  - rewrite (assign_primaries_stable ns Hsn prev); [done|]. eauto.
Qed.

(** The placement does not depend on the order in which the nodes are
    listed. *)
Theorem placement_order_independent nodes nodes' num rf prev :
  nodes ≡ₚ nodes' →
  compute_assignments nodes num rf prev = compute_assignments nodes' num rf prev.
Proof.
  intros Hp. destruct (decide (nodes = [])) as [->|Hn].
  { by apply Permutation_nil_l in Hp as <-. }
  rewrite !compute_eq; [|by intros ->; apply Permutation_nil_r in Hp|done].
  cbn zeta. by rewrite (sort_by_perm_eq str_cmp _ _ Hp), (Permutation_length Hp).
Qed.

(** The ring rule of the router: with at least one node and one copy, a
    node holds a shard exactly when it is among the first copies counted from
    the primary around the ring. *)
Theorem is_shard_replica_ring s i rf n :
  is_shard_replica s i rf n = true ↔
  i < n ∧ Nat.modulo (i + n - Nat.modulo s n) n < rf.
Proof.
  unfold is_shard_replica. destruct (Nat.eqb_spec n 0) as [->|Hn]; simpl; [split; [done|lia]|].
  destruct (Nat.eqb_spec rf 0) as [->|Hrf]; [split; [done|lia]|].
  pose proof (Nat.mod_upper_bound s n Hn) as Hs. set (p := s mod n) in *.
  rewrite existsb_exists. setoid_rewrite Nat.eqb_eq. setoid_rewrite in_seq. split.
  - intros (r & Hr & <-). split; [by apply Nat.mod_upper_bound|].
    assert (((p + r) mod n + n - p) mod n = r mod n) as ->.
    { pose proof (Nat.div_mod_eq (p + r) n) as E. pose proof (Nat.mod_upper_bound (p + r) n Hn).
      set (q := (p + r) / n) in *. set (m := (p + r) mod n) in *.
      rewrite <-(Nat.Div0.mod_add (m + n - p) q n).
      replace (m + n - p + q * n) with (r + 1 * n) by lia. apply Nat.Div0.mod_add. }
    pose proof (Nat.Div0.mod_le r n). lia.
  - intros [Hi Hr]. exists ((i + n - p) mod n). split; [lia|].
    rewrite Nat.Div0.add_mod_idemp_r. replace (p + (i + n - p)) with (i + 1 * n) by lia.
    rewrite Nat.Div0.mod_add. by apply Nat.mod_small.
Qed.

(** *** A concrete cluster *)

Lemma placement_spec_witness :
  ∃ a, compute_assignments ["n2"; "n1"; "n3"] 4 2 None = Ok a ∧
    (∀ s, is_Some (a !! s) ↔ s < 4) ∧
    (∀ s x, a !! s = Some x →
       shard_id x = s ∧ primary_node x ∈ ["n2"; "n1"; "n3"] ∧
       NoDup (primary_node x :: replica_nodes x) ∧
       (∀ n, n ∈ replica_nodes x → n ∈ ["n2"; "n1"; "n3"]) ∧ length (replica_nodes x) = 1) ∧
    (∀ n n', n ∈ ["n2"; "n1"; "n3"] → n' ∈ ["n2"; "n1"; "n3"] →
       occurrences n (primaries a 4) ≤ S (occurrences n' (primaries a 4))).
Proof.
  apply (placement_spec ["n2"; "n1"; "n3"] 4 2 None); [done|].
  apply (bool_decide_unpack _). vm_compute. exact I.
Defined.
Lemma placement_stable_witness :
  let a := {[0 := mkAssignment 0 "n1" ["n2"]; 1 := mkAssignment 1 "n2" ["n1"]]} in
  compute_assignments ["n1"; "n2"] 2 2 None = Ok a ∧
  compute_assignments ["n1"; "n2"] 2 2 (Some a) = Ok a.
Proof.
  split; [vm_compute; reflexivity|].
  apply (placement_stable ["n1"; "n2"] 2 2 None).
  - apply (bool_decide_unpack _). vm_compute. exact I.
  - vm_compute. reflexivity.
Defined.
Lemma placement_order_independent_witness :
  compute_assignments ["n1"; "n2"] 3 2 None = compute_assignments ["n2"; "n1"] 3 2 None.
Proof. apply placement_order_independent. apply perm_swap. Defined.

End Sharding.
