(* ===== verification/SyncLog.v ===== *)
(** * The replication log (src/sync/log.rs, entries of src/sync/protocol.rs)

    Mutations are numbered and written to an ordered store under zero-padded
    decimal keys, with the last number under a key of its own and the recent
    entries in a cache. The store is any [KvStore]; the JSON encoding of an
    entry is the class [EntryCodec], with the law that it decodes. *)

From S2P Require Import Prelude Text Json Codec Kv VersionVector Hlc.

Module SyncLog.

(** ** Entries *)

Inductive Operation :=
| Insert | Update | Delete | CreateCollection | DeleteCollection | TruncateCollection
| CreateDatabase | DeleteDatabase | PutBlobChunk | DeleteBlob
| ColumnarInsert | ColumnarDelete | ColumnarCreateCollection | ColumnarDropCollection
| ColumnarTruncate.

Record LogEntry := mkEntry {
  sequence : N;
  entry_node : string;
  database : string;
  collection : string;
  operation : Operation;
  key : string;
  data : option string;
  timestamp : N;
  origin_sequence : option N;
}.

Record SyncEntry := mkSyncEntry {
  sync_sequence : N;
  origin_node : string;
  sync_origin_sequence : N;
  hlc_ts : N;
  hlc_count : N;
  sync_database : string;
  sync_collection : string;
  sync_operation : Operation;
  document_key : string;
  document_data : option string;
  shard_id : option N;
  version_vector : option VersionVector.VersionVector;
  parent_vectors : list VersionVector.VersionVector;
  is_delta : bool;
  delta_data : option string;
  session_id : option string;
  device_id : option string;
}.
Definition to_sync_entry (e : LogEntry) (hlc : Hlc.HybridLogicalClock) : SyncEntry :=
  mkSyncEntry (sequence e) (entry_node e) (default (sequence e) (origin_sequence e))
    (Hlc.physical_time hlc) (Hlc.logical_counter hlc) (database e) (collection e)
    (operation e) (key e) (data e) None None [] false None None (Some (entry_node e)).

(** [serde_json::to_vec] and [from_slice] on entries. *)
Class EntryCodec := { encode_entry : LogEntry → string; decode_entry : string → option LogEntry }.
Class EntryCodecLaws `{!EntryCodec} : Prop := decode_encode e : decode_entry (encode_entry e) = Some e.

(** ** The log *)

Definition LOG_PREFIX : string := "sync_log:".
Definition SEQ_KEY : string := "sync_log:_sequence".
Definition entry_key (n : N) : string := LOG_PREFIX +:+ Radix.pad 10 20 n.

Section Log.
Context {DB : Type} `{!KvStore DB} `{!EntryCodec}.

Record SyncLog := mkLog {
  db : DB;
  node_id : string;
  seq : N;
  cache : list LogEntry;
  max_cache_size : nat;
}.

Definition skip_key (k : string) : bool := negb (String.prefix LOG_PREFIX k) || String.eqb k SEQ_KEY.

(** The loop of [load_cache]; [count] entries are in the cache so far. *)
Fixpoint load_loop (max count : nat) (items : list (string * string)) (acc : list LogEntry)
    : list LogEntry :=
  match items with
  | [] => acc
  | (k, v) :: items' =>
      if skip_key k then load_loop max count items' acc
      else match decode_entry v with
           | None => load_loop max count items' acc
           | Some e =>
               if (max <=? S count)%nat then acc ++ [e]
               else load_loop max (S count) items' (acc ++ [e])
           end
  end.
Definition load_cache (l : SyncLog) : SyncLog :=
  mkLog (db l) (node_id l) (seq l)
    (load_loop (max_cache_size l) 0 (kv_from LOG_PREFIX (db l)) []) (max_cache_size l).

(** Opening the log on a store. A stored number that is not eight bytes long
    reads as zero. *)
Definition read_sequence (db : DB) : N :=
  match kv_get SEQ_KEY db with
  | Some bytes => if (String.length bytes =? 8)%nat then Codec.from_be_bytes 0 bytes else 0%N
  | None => 0%N
  end.
Definition new (node_id : string) (db : DB) (max_cache_size : nat) : SyncLog :=
  load_cache (mkLog db node_id (read_sequence db) [] max_cache_size).

Definition stamp (node_id : string) (n : N) (e : LogEntry) : LogEntry :=
  mkEntry n (if String.eqb (entry_node e) "" then node_id else entry_node e) (database e)
    (collection e) (operation e) (key e) (data e) (timestamp e) (origin_sequence e).
Definition push_cache (max : nat) (cache : list LogEntry) (e : LogEntry) : list LogEntry :=
  let cache := cache ++ [e] in if (max <? length cache)%nat then tail cache else cache.
(** A write that fails is logged and ignored. *)
Definition try_write (batch : list (string * string)) (db : DB) : DB :=
  default db (kv_write (puts batch) db).

Definition append (entry : LogEntry) (l : SyncLog) : N * SyncLog :=
  let n := wrap64 (seq l + 1) in
  let entry := stamp (node_id l) n entry in
  let db1 := try_write [(entry_key n, encode_entry entry)] (db l) in
  let db2 := try_write [(SEQ_KEY, Codec.be_bytes 8 n)] db1 in
  (n, mkLog db2 (node_id l) n (push_cache (max_cache_size l) (cache l) entry) (max_cache_size l)).

(** Numbering a batch. *)
Fixpoint stamp_all (node_id : string) (n : N) (entries : list LogEntry) : N * list LogEntry :=
  match entries with
  | [] => (n, [])
  | e :: entries' =>
      let n' := wrap64 (n + 1) in
      let '(last, rest) := stamp_all node_id n' entries' in (last, stamp node_id n' e :: rest)
  end.
Definition append_batch (entries : list LogEntry) (l : SyncLog) : N * SyncLog :=
  match entries with
  | [] => (seq l, l)
  | _ =>
      let '(n, stamped) := stamp_all (node_id l) (seq l) entries in
      let batch := ((λ e, (entry_key (sequence e), encode_entry e)) <$> stamped) ++
                   [(SEQ_KEY, Codec.be_bytes 8 n)] in
      (n, mkLog (try_write batch (db l)) (node_id l) n
            (foldl (push_cache (max_cache_size l)) (cache l) stamped) (max_cache_size l))
  end.

(** The loop over the store; [limit] is tested after a push. *)
Fixpoint disk_loop (after : N) (limit : nat) (items : list (string * string))
    (acc : list LogEntry) : list LogEntry :=
  match items with
  | [] => acc
  | (k, v) :: items' =>
      if skip_key k then disk_loop after limit items' acc
      else match decode_entry v with
           | None => disk_loop after limit items' acc
           | Some e =>
               if (after <? sequence e)%N then
                 let acc' := acc ++ [e] in
                 if (limit <=? length acc')%nat then acc' else disk_loop after limit items' acc'
               else disk_loop after limit items' acc
           end
  end.
Definition get_entries_after (after : N) (limit : nat) (l : SyncLog) : list LogEntry :=
  let cached := take limit (filter (λ e, (after < sequence e)%N) (cache l)) in
  let from_disk := disk_loop after limit (kv_from (entry_key (wrap64 (after + 1))) (db l)) [] in
  match cached with
  | first :: _ => if (sequence first =? wrap64 (after + 1))%N then cached else from_disk
  | [] => from_disk
  end.
Definition current_sequence (l : SyncLog) : N := seq l.

(** [append_columnar] *)
Definition append_columnar (now_millis : N) (database collection : string) (op : Operation)
    (key : string) (data : option string) (l : SyncLog) : N * SyncLog :=
  append (mkEntry 0 "" database collection op key data now_millis None) l.
End Log.
Arguments SyncLog : clear implicits.


(** ** Keys *)

Lemma entry_key_fixed n : (n < u64_modulus)%N → entry_key n = LOG_PREFIX +:+ Radix.fixed 10 20 n.
Proof.
  intros Hn. unfold entry_key. rewrite Radix.pad_fixed; [done|lia|lia|lia|].
  eapply N.lt_trans; [exact Hn|]. reflexivity.
Qed.
Lemma entry_key_cmp a b :
  (a < u64_modulus)%N → (b < u64_modulus)%N →
  str_cmp (entry_key a) (entry_key b) = N.compare a b.
Proof.
  intros Ha Hb. rewrite !entry_key_fixed by done. rewrite str_cmp_app, str_cmp_refl by done.
  apply Radix.fixed_compare; [lia|lia|eapply N.lt_trans; [exact Ha|reflexivity]
                             |eapply N.lt_trans; [exact Hb|reflexivity]].
Qed.
Lemma entry_key_seq n : (n < u64_modulus)%N → str_cmp (entry_key n) SEQ_KEY = Lt.
Proof.
  intros Hn. rewrite entry_key_fixed by done.
  change SEQ_KEY with (LOG_PREFIX +:+ "_sequence"). rewrite str_cmp_app, str_cmp_refl by done.
  destruct (Radix.fixed_head_lt 10 ltac:(lia) ltac:(lia) 20 n ltac:(lia)) as (d & t & -> & Hd).
  cbn [str_cmp]. assert (Ascii.compare (Radix.digit d) "_" = Lt) as ->; [|done].
  unfold Radix.digit, Ascii.compare. rewrite (proj2 (N.ltb_lt _ _) Hd).
  rewrite N_ascii_embedding by lia. apply N.compare_lt_iff. simpl. lia.
Qed.
Lemma prefix_app a b : String.prefix a (a +:+ b) = true.
Proof.
  induction a as [|c a IH]; [by destruct b|]. change (String c a +:+ b) with (String c (a +:+ b)).
  cbn [String.prefix]. destruct (ascii_dec c c) as [_|Hc]; [exact IH|by destruct Hc].
Qed.
Lemma skip_entry_key n : (n < u64_modulus)%N → skip_key (entry_key n) = false.
Proof.
  intros Hn. unfold skip_key.
  assert (String.prefix LOG_PREFIX (entry_key n) = true) as -> by apply prefix_app.
  apply String.eqb_neq. intros E. pose proof (entry_key_seq n Hn) as H.
  by rewrite E, str_cmp_refl in H.
Qed.

(** ** What a log holds *)

Section Represents.
Context {DB : Type} `{!KvStore DB} `{!KvLaws DB} `{!KvReliable DB}.
Context `{!EntryCodec} `{!EntryCodecLaws}.
Implicit Types (l : SyncLog DB) (all es : list LogEntry) (e : LogEntry).

Definition items es : list (string * string) :=
  (λ e, (entry_key (sequence e), encode_entry e)) <$> es.
Definition seq_item (n : nat) : list (string * string) :=
  if decide (n = 0) then [] else [(SEQ_KEY, Codec.be_bytes 8 (N.of_nat n))].

(** Entries with consecutive numbers, the first being [n + 1]. *)
Definition numbered_from (n : nat) es : Prop :=
  ∀ i e, es !! i = Some e → sequence e = N.of_nat (n + i + 1).

(** The log holds the entries [all], numbered from 1. *)
Record represents l all : Prop := {
  rep_numbered : numbered_from 0 all;
  rep_bound : (N.of_nat (length all) < u64_modulus)%N;
  rep_seq : seq l = N.of_nat (length all);
  rep_view : kv_view (db l) = items all ++ seq_item (length all);
}.

Lemma numbered_drop n k es : numbered_from n es → numbered_from (n + k) (drop k es).
Proof. intros Hn i e. rewrite lookup_drop. intros Hi. rewrite (Hn _ _ Hi). f_equal. lia. Qed.
Lemma numbered_cons n e es :
  numbered_from n (e :: es) ↔ sequence e = N.of_nat (n + 1) ∧ numbered_from (S n) es.
Proof.
  split.
  - intros Hn. split; [rewrite (Hn 0 e eq_refl); f_equal; lia|].
    intros i e' Hi. rewrite (Hn (S i) e' Hi). f_equal. lia.
  - intros [He Hn] [|i] e' Hi; simpl in Hi; [injection Hi as <-; rewrite He; f_equal; lia|].
    rewrite (Hn i e' Hi). f_equal. lia.
Qed.
Lemma numbered_app n es es' :
  numbered_from n es → numbered_from (n + length es) es' → numbered_from n (es ++ es').
Proof.
  intros H1 H2 i e. rewrite lookup_app. destruct (es !! i) eqn:E; [intros [= <-]; by apply H1|].
  apply lookup_ge_None in E. intros Hi. rewrite (H2 _ _ Hi). f_equal. lia.
Qed.

Lemma write_item all n e :
  numbered_from 0 all → sequence e = N.of_nat (length all + 1) →
  (N.of_nat (length all + 1) < u64_modulus)%N →
  OMap.insert (entry_key (sequence e)) (encode_entry e) (items all ++ seq_item n) =
  items (all ++ [e]) ++ seq_item n.
Proof.
  intros Hnum He Hb. rewrite insert_between.
  - unfold items. by rewrite fmap_app, <-app_assoc.
  - unfold items. rewrite <-list_fmap_compose. intros k (e' & -> & Hin)%list_elem_of_fmap. cbn [compose fst].
    apply list_elem_of_lookup in Hin as [i Hi]. pose proof (Hnum i e' Hi) as Hs.
    apply lookup_lt_Some in Hi. rewrite entry_key_cmp by lia. apply N.compare_gt_iff. lia.
  - unfold seq_item. case_decide; [by intros k ?%elem_of_nil|].
    intros k ->%list_elem_of_singleton. apply entry_key_seq. lia.
Qed.
Lemma write_seq all n m v :
  numbered_from 0 all → (N.of_nat (length all) < u64_modulus)%N → v = Codec.be_bytes 8 (N.of_nat m) →
  m ≠ 0 → OMap.insert SEQ_KEY v (items all ++ seq_item n) = items all ++ seq_item m.
Proof.
  intros Hnum Hb -> Hm.
  assert (∀ k, k ∈ (items all).*1 → str_cmp SEQ_KEY k = Gt) as Hgt.
  { unfold items. rewrite <-list_fmap_compose. intros k (e' & -> & Hin)%list_elem_of_fmap. cbn [compose fst].
    apply list_elem_of_lookup in Hin as [i Hi]. pose proof (Hnum i e' Hi) as Hs.
    apply lookup_lt_Some in Hi. apply (cmp_gt_lt str_cmp), entry_key_seq. lia. }
  unfold seq_item. rewrite (decide_False (P:=m = 0)) by done. case_decide.
  - apply insert_between; [done|]. by intros k ?%elem_of_nil.
  - by apply insert_last.
Qed.

Definition put_view (batch view : list (string * string)) : list (string * string) :=
  foldl (λ m p, OMap.insert p.1 p.2 m) view batch.
Lemma try_write_view batch d : kv_view (try_write batch d) = put_view batch (kv_view d).
Proof.
  assert (put_view batch (kv_view d) = write_view (puts batch) (kv_view d)) as ->.
  { unfold put_view, write_view, puts. generalize (kv_view d).
    induction batch as [|[k v] batch IH]; intros view; [done|]. apply IH. }
  unfold try_write. destruct (kv_write_ok (puts batch) d) as [d' Hd]. rewrite Hd. simpl.
  by apply kv_write_view.
Qed.

Lemma represents_append l all e :
  represents l all → (N.of_nat (length all + 1) < u64_modulus)%N →
  represents (append e l).2 (all ++ [stamp (node_id l) (N.of_nat (length all + 1)) e]).
Proof.
  intros [Hnum Hb Hseq Hview] Hlt. unfold append. cbn [snd].
  assert (wrap64 (seq l + 1) = N.of_nat (length all + 1)) as ->.
  { rewrite Hseq, wrap64_small; lia. }
  set (e' := stamp _ _ e). assert (sequence e' = N.of_nat (length all + 1)) as He' by done.
  split; cbn [seq db].
  - apply numbered_app; [done|]. intros [|i] x; [|done]. intros [= <-]. rewrite He'. f_equal. simpl. lia.
  - rewrite length_app. simpl. lia.
  - rewrite length_app. simpl. done.
  - rewrite !try_write_view, Hview. unfold put_view. cbn [foldl fst snd].
    pose proof (write_item all (length all) e' Hnum He' Hlt) as Hw. rewrite He' in Hw. rewrite Hw.
    rewrite (write_seq _ _ (length all + 1)); [|..].
    + rewrite length_app. done.
    + apply numbered_app; [done|]. intros [|i] x; [|done]. intros [= <-]. rewrite He'. f_equal. simpl. lia.
    + rewrite length_app. simpl. lia.
    + done.
    + lia.
Qed.

(** ** The batch *)

(** The entries as stored, the first being number [n + 1]. *)
Fixpoint stamp_from (node : string) (n : nat) es : list LogEntry :=
  match es with
  | [] => []
  | e :: es' => stamp node (N.of_nat (n + 1)) e :: stamp_from node (S n) es'
  end.
Lemma stamp_from_length node n es : length (stamp_from node n es) = length es.
Proof. revert n. induction es as [|e es IH]; intros n; simpl; [done|]. by rewrite IH. Qed.
Lemma stamp_from_numbered node n es : numbered_from n (stamp_from node n es).
Proof.
  revert n. induction es as [|e es IH]; intros n; simpl; [by intros i e|].
  apply numbered_cons. by split.
Qed.
Lemma stamp_from_app node n es es' :
  stamp_from node n (es ++ es') = stamp_from node n es ++ stamp_from node (n + length es) es'.
Proof.
  revert n. induction es as [|e es IH]; intros n; simpl; [by rewrite Nat.add_0_r|].
  rewrite IH. do 3 f_equal. lia.
Qed.
Lemma stamp_all_spec node n es :
  (N.of_nat (n + length es) < u64_modulus)%N →
  stamp_all node (N.of_nat n) es = (N.of_nat (n + length es), stamp_from node n es).
Proof.
  revert n. induction es as [|e es IH]; intros n Hb.
  { simpl. by rewrite Nat.add_0_r. }
  cbn [stamp_all stamp_from]. rewrite wrap64_small by (simpl in Hb; lia).
  replace (N.of_nat n + 1)%N with (N.of_nat (S n)) by lia.
  rewrite (IH (S n)) by (simpl in Hb; lia). rewrite Nat.add_1_r. f_equal. f_equal. simpl. lia.
Qed.
Lemma write_items all es n :
  numbered_from 0 all → numbered_from (length all) es →
  (N.of_nat (length all + length es) < u64_modulus)%N →
  put_view (items es) (items all ++ seq_item n) = items (all ++ es) ++ seq_item n.
Proof.
  unfold put_view. revert all. induction es as [|e es IH]; intros all Hn He Hb.
  { by rewrite app_nil_r. }
  apply numbered_cons in He as [He Hes]. simpl in Hb. cbn [items fmap list_fmap foldl fst snd].
  rewrite write_item by (done || lia). fold (items es).
  rewrite IH; [by rewrite <-app_assoc| | |].
  - apply numbered_app; [done|]. intros [|i] x; [|done]. intros [= <-]. rewrite He. f_equal. simpl. lia.
  - rewrite length_app. simpl. by rewrite Nat.add_1_r.
  - rewrite length_app. simpl. lia.
Qed.
Lemma represents_append_batch l all es :
  represents l all → (N.of_nat (length all + length es) < u64_modulus)%N →
  let es' := stamp_from (node_id l) (length all) es in
  represents (append_batch es l).2 (all ++ es') ∧
  cache (append_batch es l).2 = foldl (push_cache (max_cache_size l)) (cache l) es' ∧
  max_cache_size (append_batch es l).2 = max_cache_size l ∧
  node_id (append_batch es l).2 = node_id l.
Proof.
  intros [Hnum Hb Hseq Hview] Hlt. cbn zeta. destruct es as [|e es].
  { simpl. rewrite app_nil_r. by split. }
  unfold append_batch. rewrite Hseq, (stamp_all_spec _ _ _ Hlt).
  pose proof (stamp_from_length (node_id l) (length all) (e :: es)) as Hl.
  pose proof (stamp_from_numbered (node_id l) (length all) (e :: es)) as Hn.
  set (es' := stamp_from _ _ _) in *. split; [|done]. cbn [snd].
  assert (numbered_from 0 (all ++ es')) as Hn' by (by apply numbered_app).
  split; cbn [seq db]; [done|rewrite length_app, Hl; done|by rewrite length_app, Hl|].
  rewrite try_write_view, Hview. unfold put_view. rewrite foldl_app.
  pose proof (write_items all es' (length all) Hnum Hn ltac:(rewrite Hl; done)) as Hw.
  unfold put_view in Hw. fold (items es'). rewrite Hw. cbn [foldl fst snd].
  rewrite (write_seq _ _ (length all + length (e :: es))); try done.
  - by rewrite length_app, Hl.
  - by rewrite length_app, Hl.
  - simpl. lia.
Qed.

(** ** Reading *)

Lemma from_view all (a : nat) n :
  numbered_from 0 all → (N.of_nat (length all) < u64_modulus)%N → (N.of_nat a + 1 < u64_modulus)%N →
  filter (λ p, str_leb (entry_key (N.of_nat a + 1)) p.1 = true) (items all ++ seq_item n) =
  items (drop a all) ++ seq_item n.
Proof.
  intros Hn Hb Ha. rewrite filter_app. f_equal.
  - rewrite <-(take_drop a all) at 1. unfold items. rewrite fmap_app, filter_app.
    rewrite filter_keep_none, filter_keep_all; [done| |].
    + apply Forall_fmap, Forall_forall. intros e (i & Hi)%list_elem_of_lookup. simpl.
      pose proof (numbered_drop 0 a all Hn i e Hi) as Hs. rewrite lookup_drop in Hi.
      apply lookup_lt_Some in Hi. unfold str_leb. rewrite entry_key_cmp by lia.
      rewrite Hs. destruct (N.compare_spec (N.of_nat a + 1) (N.of_nat (0 + a + i + 1))); [done|done|lia].
    + apply Forall_fmap, Forall_forall. intros e (i & Hi)%list_elem_of_lookup. simpl.
      apply lookup_take_Some in Hi as [Hi Hlt]. pose proof (Hn i e Hi) as Hs.
      apply lookup_lt_Some in Hi. unfold str_leb. rewrite entry_key_cmp by lia. rewrite Hs.
      destruct (N.compare_spec (N.of_nat a + 1) (N.of_nat (0 + i + 1))); [lia|lia|done].
  - unfold seq_item. case_decide; [done|]. rewrite filter_cons_True; [done|]. simpl.
    unfold str_leb. by rewrite entry_key_seq.
Qed.

Lemma skip_seq_item n : Forall (λ p, skip_key p.1 = true) (seq_item n).
Proof. unfold seq_item. case_decide; repeat constructor. Qed.
Lemma disk_loop_spec after limit es n k acc :
  numbered_from k es → (N.of_nat (k + length es) < u64_modulus)%N → (after <= N.of_nat k)%N →
  length acc < limit →
  disk_loop after limit (items es ++ seq_item n) acc = acc ++ take (limit - length acc) es.
Proof.
  revert k acc. induction es as [|e es IH]; intros k acc Hn Hb Ha Hl.
  { unfold seq_item. rewrite take_nil, app_nil_r. by case_decide. }
  apply numbered_cons in Hn as [He Hn]. simpl in Hb.
  unfold items. cbn [fmap list_fmap app disk_loop]. fold (items es).
  rewrite skip_entry_key by lia. rewrite decode_encode.
  rewrite (proj2 (N.ltb_lt _ _)) by lia.
  replace (limit - length acc) with (S (limit - length (acc ++ [e]))) by (rewrite length_app; simpl; lia).
  cbn [take]. rewrite length_app. simpl length.
  destruct (Nat.leb_spec limit (length acc + 1)) as [Hle|Hgt].
  - replace (limit - (length acc + 1)) with 0 by lia. done.
  - rewrite (IH (S k)); [|done|lia|lia|rewrite length_app; simpl; lia].
    rewrite length_app. simpl. by rewrite <-app_assoc.
Qed.
Lemma load_loop_spec max es n k count acc :
  numbered_from k es → (N.of_nat (k + length es) < u64_modulus)%N → count < max →
  load_loop max count (items es ++ seq_item n) acc = acc ++ take (max - count) es.
Proof.
  revert k count acc. induction es as [|e es IH]; intros k count acc Hn Hb Hl.
  { unfold seq_item. rewrite take_nil, app_nil_r. by case_decide. }
  apply numbered_cons in Hn as [He Hn]. simpl in Hb.
  unfold items. cbn [fmap list_fmap app load_loop]. fold (items es).
  rewrite skip_entry_key by lia. rewrite decode_encode.
  replace (max - count) with (S (max - S count)) by lia. cbn [take].
  destruct (Nat.leb_spec max (S count)) as [Hle|Hgt].
  - replace (max - S count) with 0 by lia. done.
  - rewrite (IH (S k)); [by rewrite <-app_assoc|done|lia|lia].
Qed.

(** ** Runs

    A run appends entries, one by one or in batches, to a log opened on an
    empty store; the history lists the entries given to it. *)

Inductive log_step : SyncLog DB * list LogEntry → SyncLog DB * list LogEntry → Prop :=
| step_append l h e :
    (seq l + 1 < u64_modulus)%N → log_step (l, h) ((append e l).2, h ++ [e])
| step_append_batch l h es :
    (seq l + N.of_nat (length es) < u64_modulus)%N →
    log_step (l, h) ((append_batch es l).2, h ++ es).

(** The cache holds the last entries. *)
Definition recent (max : nat) all : list LogEntry := drop (length all - max) all.
Lemma push_recent max all e : push_cache max (recent max all) e = recent max (all ++ [e]).
Proof.
  unfold push_cache, recent. rewrite !length_app, length_drop. simpl.
  destruct (Nat.ltb_spec max (length all - (length all - max) + 1)).
  - rewrite <-(drop_app_le all [e]) by lia.
    replace (length all + 1 - max) with (length all - max + 1) by lia.
    rewrite <-drop_drop. by destruct (drop (length all - max) (all ++ [e])).
  - rewrite !drop_app_le by lia. by replace (length all + 1 - max) with (length all - max) by lia.
Qed.
Lemma push_all_recent max all es :
  foldl (push_cache max) (recent max all) es = recent max (all ++ es).
Proof.
  revert all. induction es as [|e es IH]; intros all; simpl; [by rewrite app_nil_r|].
  by rewrite push_recent, IH, <-app_assoc.
Qed.

Record run_inv (node : string) (max : nat) (s : SyncLog DB * list LogEntry) : Prop := {
  run_rep : represents s.1 (stamp_from node 0 s.2);
  run_cache : cache s.1 = recent max (stamp_from node 0 s.2);
  run_max : max_cache_size s.1 = max;
  run_node : node_id s.1 = node;
}.
Lemma run_step node max s s' : log_step s s' → run_inv node max s → run_inv node max s'.
Proof.
  intros [l h e Hb|l h es Hb] [Hrep Hc Hm Hnode]; simpl in *;
    pose proof (rep_seq _ _ Hrep) as Hseq; rewrite stamp_from_length in Hseq; rewrite Hseq in Hb.
  - assert (represents (append e l).2 (stamp_from node 0 (h ++ [e]))) as Hrep'.
    { pose proof (represents_append l _ e Hrep) as H'. rewrite stamp_from_length in H'.
      rewrite stamp_from_app. simpl. rewrite Hnode in H'. apply H'. lia. }
    split; simpl; [done| |done|done]. rewrite Hc, Hm, push_recent, stamp_from_app. simpl.
    rewrite Hseq, Hnode, wrap64_small by lia. do 4 f_equal. lia.
  - destruct (represents_append_batch l _ es Hrep) as (H1 & H2 & H3 & H4).
    { rewrite stamp_from_length. lia. }
    rewrite Hnode, stamp_from_length in H1, H2. split; simpl; [by rewrite stamp_from_app| |congruence|congruence].
    by rewrite H2, Hm, Hc, push_all_recent, stamp_from_app.
Qed.
Lemma run_reachable node max d l h :
  kv_view d = [] → rtc log_step (new node d max, []) (l, h) → run_inv node max (l, h).
Proof.
  intros Hd Hr. cut (run_inv node max (new node d max, [])).
  { induction Hr as [|s1 s2 s3 Hs _ IH]; [done|]. eauto using run_step. }
  unfold new, load_cache, read_sequence. rewrite kv_get_view, kv_from_view. simpl.
  rewrite !Hd. simpl. split; simpl; try done.
Qed.

Lemma filter_after all k (after : nat) :
  numbered_from k all → k ≤ after →
  filter (λ e, (N.of_nat after < sequence e)%N) all = drop (after - k) all.
Proof.
  revert k. induction all as [|e all IH]; intros k Hn Hk; [by rewrite drop_nil|].
  apply numbered_cons in Hn as [He Hn]. destruct (decide (k = after)) as [->|].
  - rewrite Nat.sub_diag. apply filter_keep_all. constructor; [lia|].
    apply Forall_forall. intros x (i & Hi)%list_elem_of_lookup. rewrite (Hn i x Hi). lia.
  - rewrite filter_cons_False by lia. rewrite (IH (S k)) by (done || lia).
    replace (after - k) with (S (after - S k)) by lia. done.
Qed.

(** Reading from a log whose cache is a run of the entries. *)
Lemma get_entries_disk l all (after limit : nat) :
  represents l all → 0 < limit → (N.of_nat after + 1 < u64_modulus)%N →
  disk_loop (N.of_nat after) limit (kv_from (entry_key (wrap64 (N.of_nat after + 1))) (db l)) [] =
  take limit (drop after all).
Proof.
  intros [Hn Hb _ Hv] Hl Ha. rewrite kv_from_view, wrap64_small, Hv, from_view by done.
  destruct (decide (after ≤ length all)).
  - rewrite (disk_loop_spec _ _ _ _ after); [simpl; by rewrite Nat.sub_0_r| | |done|simpl; lia].
    + apply (numbered_drop 0 after all Hn).
    + rewrite length_drop. lia.
  - rewrite drop_ge, take_nil by lia. unfold seq_item. by case_decide.
Qed.

Lemma get_entries_run node max l h (after limit : nat) :
  run_inv node max (l, h) → 0 < limit → (N.of_nat after + 1 < u64_modulus)%N →
  current_sequence l = N.of_nat (length h) ∧
  get_entries_after (N.of_nat after) limit l = take limit (drop after (stamp_from node 0 h)).
Proof.
  intros [Hrep Hc _ _] Hl Ha.
  simpl in Hrep, Hc. split; [rewrite <-(stamp_from_length node 0); apply (rep_seq _ _ Hrep)|].
  unfold get_entries_after. rewrite (get_entries_disk l _ after limit Hrep Hl Ha), Hc.
  set (all := stamp_from node 0 h) in *. pose proof (rep_numbered _ _ Hrep) as Hn.
  unfold recent. set (k := length all - max).
  destruct (decide (k ≤ after)) as [Hk|Hk].
  - rewrite (filter_after _ (0 + k) after (numbered_drop 0 k all Hn) Hk).
    rewrite drop_drop. replace (k + (after - (0 + k))) with after by lia.
    destruct (take limit (drop after all)); [done|]. by destruct (_ =? _)%N.
  - rewrite filter_keep_all.
    2: { apply Forall_forall. intros e (i & Hi)%list_elem_of_lookup.
         pose proof (numbered_drop 0 k all Hn i e Hi) as Hs. lia. }
    destruct (take limit (drop k all)) as [|e es] eqn:E; [done|].
    assert (sequence e = N.of_nat (0 + k + 0 + 1)) as Hs.
    { apply (numbered_drop 0 k all Hn). destruct (drop k all) as [|x xs]; [by rewrite take_nil in E|].
      destruct limit; [lia|]. by injection E as -> _. }
    rewrite (proj2 (N.eqb_neq _ _)); [done|]. rewrite wrap64_small by done. lia.
Qed.

(** a reader never misses an entry. After any run of appends and batches,
    the entries returned after a number are exactly the stored entries with
    larger numbers, in order and without gaps, up to the limit, whether they
    come from the cache or from the store; entries are numbered from 1 as they
    were given. *)
Theorem get_entries_after_complete node max d l h (after limit : nat) :
  kv_view d = [] → rtc log_step (new node d max, []) (l, h) →
  0 < limit → (N.of_nat after + 1 < u64_modulus)%N →
  current_sequence l = N.of_nat (length h) ∧
  get_entries_after (N.of_nat after) limit l = take limit (drop after (stamp_from node 0 h)).
Proof. intros Hd Hr. by apply (get_entries_run node max), (run_reachable node max d). Qed.

(** Opening a log again: the number is read back, the cache gets the first
    entries. *)
Lemma reopen_cache node max l all :
  represents l all → 0 < max → cache (new node (db l) max) = take max all.
Proof.
  intros [Hn Hb _ Hv] Hm. unfold new, load_cache. simpl. rewrite kv_from_view, Hv, filter_keep_all.
  - rewrite (load_loop_spec _ _ _ 0) by (done || lia). cbn [app]. by rewrite Nat.sub_0_r.
  - apply Forall_app. split.
    + apply Forall_fmap, Forall_forall. intros x (i & Hi)%list_elem_of_lookup. simpl.
      unfold str_leb. rewrite <-(str_app_nil_r LOG_PREFIX) at 1. unfold entry_key.
      rewrite str_cmp_app, str_cmp_refl by done. by destruct (Radix.pad _ _ _).
    + unfold seq_item. case_decide; repeat constructor.
Qed.
Lemma reopen_sequence l all :
  represents l all → 0 < length all → read_sequence (db l) = N.of_nat (length all).
Proof.
  intros [Hn Hb _ Hv] Hm. unfold read_sequence. rewrite kv_get_view, Hv.
  assert (OMap.get SEQ_KEY (items all ++ seq_item (length all)) =
    Some (Codec.be_bytes 8 (N.of_nat (length all)))) as ->.
  { unfold seq_item. rewrite decide_False by lia. apply OMap.get_elem; [|set_solver].
    pose proof (kv_view_wf (db l)) as Hw. rewrite Hv in Hw. unfold seq_item in Hw.
    by rewrite decide_False in Hw by lia. }
  rewrite Codec.be_bytes_length. simpl Nat.eqb. cbv iota.
  rewrite Codec.from_be_bytes_acc by exact Hb. by rewrite N.mul_0_l, N.add_0_l.
Qed.

(** but not after a restart. Opening the log again fills the cache with
    the oldest entries, and the next append puts the newest entry behind
    them; a reader that has entry 1 then receives the rest of the old part of
    the cache followed by the new entry, and skips everything in between. *)
Theorem restart_skips_entries node max d l h e limit :
  kv_view d = [] → rtc log_step (new node d max, []) (l, h) →
  2 ≤ max → max < length h → max ≤ limit → (N.of_nat (length h) + 1 < u64_modulus)%N →
  let l' := (append e (new node (db l) max)).2 in
  (sequence <$> get_entries_after 1 limit l') =
    (N.of_nat <$> List.seq 2 (max - 1)) ++ [N.of_nat (length h + 1)].
Proof.
  intros Hd Hr H2 Hlong Hlim Hb. destruct (run_reachable node max d l h Hd Hr) as [Hrep _ _ _].
  simpl in Hrep. set (all := stamp_from node 0 h) in *.
  assert (length all = length h) as Hlen by apply stamp_from_length.
  pose proof Hrep as [Hn Hbd _ Hv].
  pose proof (reopen_cache node max l all Hrep ltac:(lia)) as Hcache.
  pose proof (reopen_sequence l all Hrep ltac:(lia)) as Hseq. rewrite Hlen in Hseq.
  cbn zeta. unfold append. cbn [snd]. unfold get_entries_after. cbn [cache db].
  change (max_cache_size (new node (db l) max)) with max. rewrite Hcache.
  change (seq (new node (db l) max)) with (read_sequence (db l)). rewrite Hseq.
  rewrite wrap64_small by lia. unfold push_cache. rewrite length_app, length_take. simpl length.
  rewrite (proj2 (Nat.ltb_lt _ _)) by lia.
  set (e' := stamp _ _ e). assert (sequence e' = N.of_nat (length h + 1)) as He' by (simpl; lia).
  assert (numbered_from 0 (take max all)) as Htn.
  { intros i x Hi. apply lookup_take_Some in Hi as [Hi _]. by apply Hn. }
  destruct (take max all) as [|e1 rest] eqn:Erest.
  { apply (f_equal length) in Erest. rewrite length_take in Erest. simpl in Erest. lia. }
  assert (length rest = max - 1) as Hrest.
  { apply (f_equal length) in Erest. rewrite length_take in Erest. simpl in Erest. lia. }
  apply numbered_cons in Htn as [He1 Htn]. cbn [app tail].
  rewrite filter_keep_all.
  2: { apply Forall_app. split; [|repeat constructor; simpl; lia].
       apply Forall_forall. intros x (i & Hi)%list_elem_of_lookup. rewrite (Htn i x Hi). lia. }
  rewrite take_ge by (rewrite length_app; simpl; lia).
  destruct rest as [|e2 rest]; [simpl in Hrest; lia|]. cbn [app].
  pose proof Htn as [He2 _]%numbered_cons.
  rewrite He2. change (N.of_nat (1 + 1) =? wrap64 (1 + 1))%N with true. cbv iota.
  change (e2 :: rest ++ [e']) with ((e2 :: rest) ++ [e']).
  rewrite fmap_app. f_equal; [|cbn [fmap list_fmap]; by rewrite He'].
  apply list_eq. intros i. rewrite !list_lookup_fmap.
  destruct ((e2 :: rest) !! i) as [x|] eqn:Ei.
  - rewrite lookup_seq_lt by (apply lookup_lt_Some in Ei; lia). simpl.
    rewrite (Htn i x Ei). do 2 f_equal. lia.
  - rewrite lookup_seq_ge by (apply lookup_ge_None in Ei; lia). done.
Qed.
End Represents.

(** *** A concrete log *)

#[global] Instance Operation_eq : EqDecision Operation.
Proof. solve_decision. Defined.
Definition operations : list Operation :=
  [Insert; Update; Delete; CreateCollection; DeleteCollection; TruncateCollection; CreateDatabase;
   DeleteDatabase; PutBlobChunk; DeleteBlob; ColumnarInsert; ColumnarDelete;
   ColumnarCreateCollection; ColumnarDropCollection; ColumnarTruncate].
Definition operation_index (o : Operation) : nat :=
  default 0 (fst <$> list_find (λ x, x = o) operations).
#[global] Program Instance Operation_countable : Countable Operation :=
  inj_countable' operation_index (λ n, default Insert (operations !! n)) _.
Next Obligation. by intros []. Qed.
#[global] Instance LogEntry_eq : EqDecision LogEntry.
Proof. solve_decision. Defined.
#[global] Program Instance LogEntry_countable : Countable LogEntry :=
  inj_countable'
    (λ e, (sequence e, entry_node e, database e, collection e, operation e, key e, data e,
           timestamp e, origin_sequence e))
    (λ '(a, b, c, d, e, f, g, h, i), mkEntry a b c d e f g h i) _.
Next Obligation. by intros []. Qed.

#[local] Instance demo_codec : EntryCodec :=
  { encode_entry := to_text; decode_entry := of_text }.
#[local] Instance demo_codec_laws : EntryCodecLaws.
Proof. intros e. apply of_to_text. Qed.

Definition demo_entry (k : string) : LogEntry := mkEntry 0 "" "db" "c" Insert k None 0 None.
Definition demo_log : SyncLog map_store :=
  (append_batch [demo_entry "a"; demo_entry "b"; demo_entry "c"] (new "n1" empty_store 2)).2.
Lemma demo_run :
  rtc log_step (new "n1" empty_store 2, [])
    (demo_log, [demo_entry "a"; demo_entry "b"; demo_entry "c"]).
Proof. eapply rtc_l; [|apply rtc_refl]. by apply (step_append_batch _ [] _). Qed.
Lemma get_entries_after_complete_witness :
  current_sequence demo_log = 3%N ∧
  get_entries_after 0 5 demo_log =
    take 5 (drop 0 (stamp_from "n1" 0 [demo_entry "a"; demo_entry "b"; demo_entry "c"])).
Proof.
  apply (get_entries_after_complete "n1" 2 empty_store demo_log
    [demo_entry "a"; demo_entry "b"; demo_entry "c"] 0 5);
    [reflexivity|apply demo_run|lia|reflexivity].
Defined.
Lemma restart_skips_entries_witness :
  (sequence <$> get_entries_after 1 5 (append (demo_entry "d") (new "n1" (db demo_log) 2)).2) =
  [2; 4]%N.
Proof.
  etransitivity;
    [apply (restart_skips_entries "n1" 2 empty_store demo_log
       [demo_entry "a"; demo_entry "b"; demo_entry "c"] (demo_entry "d") 5);
       [reflexivity|apply demo_run|lia|simpl; lia|lia|reflexivity]
    |reflexivity].
Defined.

End SyncLog.
