(* ===== verification/SdbqlLexer.v ===== *)
(** * SDBQL: the lexer (src/sdbql/lexer.rs)

    The tokens and the lexer of the query language. The lexer keeps a vector of
    characters and a position; every access is at the position or after it, so
    its state here is the rest of the input: [current_char] is the head, and
    [advance] past the end changes nothing, as in the source. A [char] is the
    string of its UTF-8 bytes. The Unicode tables and the parsing of floats are
    classes. A function that is not structurally recursive takes fuel, and
    [OutOfFuel] is an outcome of its own: [tokenize_weight] shows that [tokenize]
    never has it. *)

From S2P Require Import Prelude Text Json Transaction.

(** ** Outcomes

    What running a piece of the query front end gives: a value, an error, a
    panic of the program, or not enough fuel to tell. *)

Inductive outcome (A : Type) : Type :=
| Done (a : A)
| Fails (e : DbError)
| Panics
| OutOfFuel.
Arguments Done {A} a.
Arguments Fails {A} e.
Arguments Panics {A}.
Arguments OutOfFuel {A}.

Definition outcome_bind {A B} (m : outcome A) (k : A → outcome B) : outcome B :=
  match m with Done a => k a | Fails e => Fails e | Panics => Panics | OutOfFuel => OutOfFuel end.
#[export] Instance outcome_ret : MRet outcome := λ A a, Done a.
#[export] Instance outcome_mbind : MBind outcome := λ A B k m, outcome_bind m k.

Definition is_parse_error (e : DbError) : Prop := match e with ParseError _ => True | _ => False end.

(** [map_err]: what parsing a number gives, as an outcome. *)
Definition or_fails {A} (o : option A) (e : DbError) : outcome A :=
  match o with Some a => Done a | None => Fails e end.

(** ** Characters *)

Definition char : Type := string.

(** A byte that continues a character: 10xxxxxx. *)
Definition continuation (b : ascii) : bool :=
  (128 <=? N_of_ascii b)%N && (N_of_ascii b <? 192)%N.
Definition continues (s : string) : bool :=
  match s with String b _ => continuation b | EmptyString => false end.
(** [str::chars]. *)
Fixpoint chars (s : string) : list char :=
  match s with
  | EmptyString => []
  | String b s' =>
      match chars s' with
      | c :: cs => if continues s' then String b c :: cs else String b "" :: c :: cs
      | [] => [String b ""]
      end
  end.
(** A string from its characters: repeated [String::push]. *)
Fixpoint of_chars (cs : list char) : string :=
  match cs with [] => "" | c :: cs' => c +:+ of_chars cs' end.

Class CharTables := {
  is_whitespace : char → bool;
  is_numeric : char → bool;
  is_alphabetic : char → bool;
  is_alphanumeric : char → bool;
  to_uppercase : string → string;
}.
Class FloatText := parse_f64 : string → option N.

Definition in_byte_range (lo hi : N) (c : char) : bool :=
  match c with String b "" => (lo <=? N_of_ascii b)%N && (N_of_ascii b <=? hi)%N | _ => false end.
Definition ascii_digit : char → bool := in_byte_range 48 57.
Definition ascii_letter (c : char) : bool := in_byte_range 65 90 c || in_byte_range 97 122 c.
Definition ascii_space (c : char) : bool := in_byte_range 9 13 c || in_byte_range 32 32 c.
Definition upper_byte (b : ascii) : ascii :=
  if (97 <=? N_of_ascii b)%N && (N_of_ascii b <=? 122)%N then ascii_of_N (N_of_ascii b - 32) else b.
Definition ascii_upper (s : string) : string :=
  string_of_list_ascii (upper_byte <$> list_ascii_of_string s).
Definition is_ascii (s : string) : bool := str_all (λ b, (N_of_ascii b <? 128)%N) s.
(** The documented values of the tables on ASCII characters. *)
Class CharTablesLaws `{!CharTables} : Prop := {
  whitespace_ascii c : is_ascii c = true → is_whitespace c = ascii_space c;
  numeric_ascii c : is_ascii c = true → is_numeric c = ascii_digit c;
  alphabetic_ascii c : is_ascii c = true → is_alphabetic c = ascii_letter c;
  alphanumeric_or c : is_alphanumeric c = is_alphabetic c || is_numeric c;
  uppercase_ascii s : is_ascii s = true → to_uppercase s = ascii_upper s;
}.
(** Tables that know the ASCII characters only. *)
#[local] Instance ascii_tables : CharTables := {|
  is_whitespace := ascii_space;
  is_numeric := ascii_digit;
  is_alphabetic := ascii_letter;
  is_alphanumeric := λ c, ascii_letter c || ascii_digit c;
  to_uppercase := ascii_upper;
|}.
Lemma ascii_tables_laws : CharTablesLaws.
Proof. by split. Qed.

(** [parse::<i64>]: an optional sign and decimal digits in range. *)
Definition i64_min : Z := (- 2 ^ 63)%Z.
Definition i64_max : Z := (2 ^ 63 - 1)%Z.
Definition parse_i64 (s : string) : option Z :=
  match s with
  | EmptyString => None
  | String c s' =>
      if Ascii.eqb c "-" then
        match s' with
        | EmptyString => None
        | _ => n ← Radix.parse_digits 10 (2 ^ 63 + 1) 0 s'; Some (- Z.of_N n)%Z
        end
      else n ← Radix.from_str_radix 10 (2 ^ 63) s; Some (Z.of_N n)
  end.

(** ** Tokens *)

Inductive TemplatePart :=
| TLiteral (s : string)
| TExpression (s : string).
#[export] Instance TemplatePart_eq : EqDecision TemplatePart.
Proof. solve_decision. Defined.

Module Token.
Inductive Token :=
| For | In | Filter | Sort | Limit | Return | Let | Asc | Desc | And | Or | Not
| TTrue | TFalse | Null | Insert | Into | Update | Upsert | With | Remove | Replace
| Collect | Aggregate | Count | Satisfies
| Outbound | Inbound | Any | ShortestPath | Graph | To
| Over | Partition
| Create | Stream | As | Window | Tumbling | Sliding | Size
| Materialized | View | Refresh
| Case | When | Then | Else | End
| Join | Left | Right | Full | Outer | On
| Identifier (s : string)
| BindVar (s : string)
| Integer (n : Z)
| Float (bits : N)
| TString (s : string)
| TemplateString (parts : list TemplatePart)
| Equal | Assign | NotEqual | LessThan | LessThanEq | GreaterThan | GreaterThanEq
| Plus | Minus | Star | Slash | Percent | Like | RegEx | NotRegEx
| Ampersand | Pipe | Caret | Tilde | FuzzyEqual | LeftShift | RightShift
| PipeRight | Arrow | NullCoalesce | DoublePipe
| Dot | DotDot | Comma | LeftBrace | RightBrace | LeftBracket | RightBracket
| LeftParen | RightParen | Colon | Question | QuestionDot
| Eof.
#[export] Instance Token_eq : EqDecision Token.
Proof. solve_decision. Defined.
End Token.
Import Token.
Notation Token := Token.Token.

Module Lexer.
Section Lexer.
Context `{char_tables : !CharTables} `{float_text : !FloatText}.

Definition Lexer : Type := list char.
Definition new (input : string) : Lexer := chars input.
Definition current_char (l : Lexer) : option char := head l.
Definition advance (l : Lexer) : Lexer := tail l.
Definition peek_char (l : Lexer) : option char := head (tail l).
Definition is_char (o : option char) (c : char) : bool :=
  match o with Some c' => String.eqb c' c | None => false end.

Fixpoint skip_whitespace (l : Lexer) : Lexer :=
  match l with
  | ch :: l' => if is_whitespace ch then skip_whitespace l' else l
  | [] => l
  end.

(** The loop of [read_number]: the text read, whether it has a point, the rest. *)
Fixpoint number_text (num_str : string) (has_dot : bool) (l : Lexer) : string * bool * Lexer :=
  match l with
  | ch :: l' =>
      if is_numeric ch then number_text (num_str +:+ ch) has_dot l'
      else if String.eqb ch "." && negb has_dot then
        if is_char (head l') "." then (num_str, has_dot, l)
        else number_text (num_str +:+ ch) true l'
      else (num_str, has_dot, l)
  | [] => (num_str, has_dot, l)
  end.
Definition read_number (l : Lexer) : outcome (Token * Lexer) :=
  let '(num_str, has_dot, l') := number_text "" false l in
  t ← (if has_dot
       then or_fails (Float <$> parse_f64 num_str) (ParseError ("Invalid float number: " +:+ num_str))
       else or_fails (Integer <$> parse_i64 num_str) (ParseError ("Invalid integer number: " +:+ num_str)));
  Done (t, l').

Definition quote_mark : char := String "034" "".
Definition apostrophe : char := "'".
Definition backslash : char := "\".
Definition newline : char := String "010" "".
(** The character an escape stands for. *)
Definition unescape (escaped : char) : char :=
  if String.eqb escaped "n" then newline
  else if String.eqb escaped "t" then String "009" ""
  else if String.eqb escaped "r" then String "013" ""
  else escaped.

Fixpoint string_text (quote : char) (string : string) (l : Lexer) : outcome (Token * Lexer) :=
  match l with
  | ch :: l' =>
      if String.eqb ch quote then Done (TString string, l')
      else if String.eqb ch backslash then
        match l' with
        | escaped :: l'' => string_text quote (string +:+ unescape escaped) l''
        | [] => Fails (ParseError "Unterminated string")
        end
      else string_text quote (string +:+ ch) l'
  | [] => Fails (ParseError "Unterminated string")
  end.
Definition read_string (l : Lexer) : outcome (Token * Lexer) :=
  match current_char l with
  | None => Panics
  | Some quote => string_text quote "" (advance l)
  end.

(** The text of an interpolation, up to the matching brace. *)
Fixpoint closing_brace (brace_depth : nat) (expr : string) (l : Lexer) : outcome (string * Lexer) :=
  match l with
  | ch :: l' =>
      if String.eqb ch "{" then closing_brace (S brace_depth) (expr +:+ ch) l'
      else if String.eqb ch "}" then
        if Nat.eqb (brace_depth - 1) 0 then Done (expr, l')
        else closing_brace (brace_depth - 1) (expr +:+ ch) l'
      else closing_brace brace_depth (expr +:+ ch) l'
  | [] => Fails (ParseError "Unterminated interpolation ${}")
  end.
Definition read_until_closing_brace (l : Lexer) : outcome (string * Lexer) := closing_brace 1 "" l.

Definition push_literal (parts : list TemplatePart) (current_literal : string) : list TemplatePart :=
  if String.eqb current_literal "" then parts else parts ++ [TLiteral current_literal].
Fixpoint template_text (fuel : nat) (quote : char) (parts : list TemplatePart)
    (current_literal : string) (l : Lexer) : outcome (Token * Lexer) :=
  match fuel with
  | O => OutOfFuel
  | S fuel' =>
      match l with
      | ch :: l' =>
          if String.eqb ch quote then Done (TemplateString (push_literal parts current_literal), l')
          else if String.eqb ch "$" && is_char (peek_char l) "{" then
            '(expr, l'') ← read_until_closing_brace (advance l');
            template_text fuel' quote (push_literal parts current_literal ++ [TExpression expr]) "" l''
          else if String.eqb ch "$" && is_char (peek_char l) "$" then
            template_text fuel' quote parts (current_literal +:+ "$") (advance l')
          else if String.eqb ch backslash then
            match l' with
            | escaped :: l'' =>
                template_text fuel' quote parts (current_literal +:+ unescape escaped) l''
            | [] => template_text fuel' quote parts current_literal l'
            end
          else template_text fuel' quote parts (current_literal +:+ ch) l'
      | [] => Fails (ParseError "Unterminated template string")
      end
  end.
Definition read_template_string (fuel : nat) (l : Lexer) : outcome (Token * Lexer) :=
  match current_char (advance l) with
  | None => Panics
  | Some quote => template_text fuel quote [] "" (advance (advance l))
  end.

Fixpoint quoted_text (ident : string) (l : Lexer) : outcome (Token * Lexer) :=
  match l with
  | ch :: l' =>
      if String.eqb ch "`" then Done (Identifier ident, l') else quoted_text (ident +:+ ch) l'
  | [] => Fails (ParseError "Unterminated quoted identifier")
  end.
Definition read_quoted_identifier (l : Lexer) : outcome (Token * Lexer) := quoted_text "" (advance l).

(** The word at the start of the input, and the rest. *)
Definition word_char (ch : char) : bool := is_alphanumeric ch || String.eqb ch "_".
Fixpoint word_text (ident : string) (l : Lexer) : string * Lexer :=
  match l with
  | ch :: l' => if word_char ch then word_text (ident +:+ ch) l' else (ident, l)
  | [] => (ident, l)
  end.

Definition keywords : list (string * Token) :=
  [("FOR", For); ("IN", In); ("FILTER", Filter); ("SORT", Sort); ("ORDER", Sort);
   ("LIMIT", Limit); ("RETURN", Return); ("LET", Let); ("ASC", Asc); ("DESC", Desc);
   ("AND", And); ("OR", Or); ("NOT", Not); ("LIKE", Like); ("TRUE", TTrue); ("FALSE", TFalse);
   ("NULL", Null); ("INSERT", Insert); ("INTO", Into); ("UPDATE", Update); ("UPSERT", Upsert);
   ("WITH", With); ("REMOVE", Remove); ("REPLACE", Replace);
   ("OUTBOUND", Outbound); ("INBOUND", Inbound); ("ANY", Any);
   ("SHORTEST_PATH", ShortestPath); ("GRAPH", Graph); ("TO", To);
   ("OVER", Over); ("PARTITION", Partition);
   ("CASE", Case); ("WHEN", When); ("THEN", Then); ("ELSE", Else); ("END", End);
   ("COLLECT", Collect); ("AGGREGATE", Aggregate); ("COUNT", Count); ("SATISFIES", Satisfies);
   ("CREATE", Create); ("STREAM", Stream); ("AS", As); ("WINDOW", Window);
   ("TUMBLING", Tumbling); ("SLIDING", Sliding); ("SIZE", Size);
   ("MATERIALIZED", Materialized); ("VIEW", View); ("REFRESH", Refresh);
   ("JOIN", Join); ("LEFT", Left); ("RIGHT", Right); ("FULL", Full); ("OUTER", Outer); ("ON", On)].
Fixpoint assoc {A} (k : string) (l : list (string * A)) : option A :=
  match l with
  | [] => None
  | (k', a) :: l' => if String.eqb k k' then Some a else assoc k l'
  end.
Definition keyword_or_identifier (ident : string) : Token :=
  match assoc (to_uppercase ident) keywords with Some t => t | None => Identifier ident end.
Definition read_identifier (l : Lexer) : Token * Lexer :=
  let '(ident, l') := word_text "" l in (keyword_or_identifier ident, l').

Definition read_bind_var (l : Lexer) : outcome (Token * Lexer) :=
  let '(name, l') := word_text "" (advance l) in
  if String.eqb name "" then Fails (ParseError "Expected bind variable name after '@'")
  else Done (BindVar name, l').

(** The operators: a first character, the tokens for a second one, and the
    token without it. *)
Definition operators : list (char * (list (char * Token) * Token)) :=
  [("=", ([("=", Equal); ("~", RegEx)], Assign));
   ("!", ([("=", NotEqual); ("~", NotRegEx)], Not));
   ("<", ([("=", LessThanEq); ("<", LeftShift)], LessThan));
   (">", ([("=", GreaterThanEq); (">", RightShift)], GreaterThan));
   ("+", ([], Plus));
   ("-", ([(">", Arrow)], Minus));
   ("*", ([], Star)); ("/", ([], Slash)); ("%", ([], Percent)); ("&", ([], Ampersand));
   ("|", ([(">", PipeRight); ("|", DoublePipe)], Pipe));
   ("^", ([], Caret));
   ("~", ([("=", FuzzyEqual)], Tilde));
   (".", ([(".", DotDot)], Dot));
   (",", ([], Comma)); ("{", ([], LeftBrace)); ("}", ([], RightBrace));
   ("[", ([], LeftBracket)); ("]", ([], RightBracket));
   ("(", ([], LeftParen)); (")", ([], RightParen)); (":", ([], Colon));
   ("?", ([("?", NullCoalesce); (".", QuestionDot)], Question))].
Definition read_operator (entry : list (char * Token) * Token) (l : Lexer) : Token * Lexer :=
  match current_char l ≫= λ c, assoc c entry.1 with
  | Some t => (t, advance l)
  | None => (entry.2, l)
  end.

(** The rest of a comment, with its line end. *)
Fixpoint skip_comment (l : Lexer) : Lexer :=
  match l with
  | ch :: l' => if String.eqb ch newline then l' else skip_comment l'
  | [] => l
  end.

Fixpoint next_token (fuel : nat) (l : Lexer) : outcome (Token * Lexer) :=
  match fuel with
  | O => OutOfFuel
  | S fuel' =>
      let l := skip_whitespace l in
      match l with
      | [] => Done (Eof, l)
      | ch :: l' =>
          if is_numeric ch then read_number l
          else if String.eqb ch "$" &&
                  (is_char (peek_char l) quote_mark || is_char (peek_char l) apostrophe)
          then read_template_string fuel l
          else if String.eqb ch quote_mark || String.eqb ch apostrophe then read_string l
          else if String.eqb ch "`" then read_quoted_identifier l
          else if is_alphabetic ch || String.eqb ch "_" then Done (read_identifier l)
          else if String.eqb ch "@" then read_bind_var l
          else if String.eqb ch "-" && is_char (current_char l') "-"
          then next_token fuel' (skip_comment (advance l'))
          else match assoc ch operators with
               | Some entry => Done (read_operator entry l')
               | None => Fails (ParseError ("Unexpected character: " +:+ ch))
               end
      end
  end.

Fixpoint tokens_of (fuel : nat) (tokens : list Token) (l : Lexer) : outcome (list Token) :=
  match fuel with
  | O => OutOfFuel
  | S fuel' =>
      '(token, l') ← next_token (S (length l)) l;
      if decide (token = Eof) then Done (tokens ++ [token])
      else tokens_of fuel' (tokens ++ [token]) l'
  end.
(** Every token but the last takes a character. *)
Definition tokenize (input : string) : outcome (list Token) :=
  tokens_of (S (String.length input)) [] (new input).

End Lexer.

(** ** Consumption

    Every function of the lexer returns a suffix of its input, and the tokens it
    reads weigh no more than the bytes they take: a token weighs one, a template
    string also the text of its interpolations, which the parser reads later. *)

Fixpoint bytes (l : Lexer) : nat := match l with [] => 0 | c :: l' => String.length c + bytes l' end.
Definition nonempty (l : Lexer) : Prop := Forall (λ c, c ≠ "") l.
Definition part_weight (p : TemplatePart) : nat :=
  match p with TLiteral _ => 0 | TExpression s => String.length s + 2 end.
Definition parts_weight (parts : list TemplatePart) : nat := sum_list_with part_weight parts.
Definition token_weight (t : Token) : nat :=
  match t with TemplateString parts => 1 + parts_weight parts | _ => 1 end.
Definition weight (ts : list Token) : nat := sum_list_with token_weight ts.

Lemma token_weight_pos t : 1 ≤ token_weight t.
Proof. destruct t; simpl; lia. Qed.
Lemma bytes_suffix l l' : l' `suffix_of` l → bytes l' ≤ bytes l.
Proof.
  intros [k ->]. induction k as [|c k IH]; [done|]. cbn [app bytes]. lia.
Qed.
Lemma nonempty_suffix l l' : l' `suffix_of` l → nonempty l → nonempty l'.
Proof. intros [k ->]. unfold nonempty. rewrite Forall_app. by intros [_ ?]. Qed.
Lemma bytes_cons c l : nonempty (c :: l) → 1 + bytes l ≤ bytes (c :: l).
Proof.
  unfold nonempty. rewrite Forall_cons. intros [Hc _]. destruct c as [|b c]; [done|]. cbn. lia.
Qed.
Lemma bytes_length l : nonempty l → length l ≤ bytes l.
Proof.
  induction l as [|c l IH]; intros H; [done|]. pose proof (bytes_cons c l H).
  apply Forall_cons in H as [_ H]. specialize (IH H). simpl in *. lia.
Qed.
Lemma chars_nonempty s : nonempty (chars s).
Proof.
  induction s as [|b s IH]; [constructor|]. simpl. destruct (chars s) as [|c cs].
  { by repeat constructor. }
  apply Forall_cons in IH as [Hc IH]. destruct (continues s); by repeat constructor.
Qed.
Lemma of_chars_chars s : of_chars (chars s) = s.
Proof.
  induction s as [|b s IH]; [done|]. simpl. destruct (chars s) as [|c cs].
  { simpl in *. by rewrite <-IH. }
  destruct (continues s); simpl in *; by rewrite <-IH.
Qed.
Lemma bytes_of_chars l : bytes l = String.length (of_chars l).
Proof. induction l as [|c l IH]; [done|]. cbn [bytes of_chars]. by rewrite str_length_app, IH. Qed.
Lemma bytes_chars s : bytes (chars s) = String.length s.
Proof. by rewrite bytes_of_chars, of_chars_chars. Qed.

Section Consumption.
Context `{char_tables : !CharTables} `{float_text : !FloatText}.

(** The texts the loop of [read_number] collects. *)
Definition decimal_char (c : char) : bool := is_numeric c || String.eqb c ".".
Definition decimal_text (s : string) : Prop :=
  ∃ cs, s = of_chars cs ∧ Forall (λ c, decimal_char c = true) cs.
(** A float comes from such a text of at most [n] bytes. *)
Definition float_from (n : nat) (t : Token) : Prop :=
  match t with
  | Float f =>
      ∃ num_str, String.length num_str ≤ n ∧ decimal_text num_str ∧ parse_f64 num_str = Some f
  | _ => True
  end.
(** What a step of the lexer on [l] may give: no panic, no lack of fuel, no error
    but parse errors, and a token that was paid for. *)
Definition paid (l : Lexer) (o : outcome (Token * Lexer)) : Prop :=
  match o with
  | Done (t, l') =>
      l' `suffix_of` l ∧ token_weight t + bytes l' ≤ bytes l ∧ float_from (bytes l) t
  | Fails e => is_parse_error e
  | Panics | OutOfFuel => False
  end.
(** Tokens without a text that is read again. *)
Definition plain_token (t : Token) : bool :=
  match t with TemplateString _ | Float _ => false | _ => true end.
(** A token other than a template that leaves a suffix of the tail. *)
Lemma paid_tail ch l t l' :
  nonempty (ch :: l) → plain_token t = true → l' `suffix_of` l → paid (ch :: l) (Done (t, l')).
Proof.
  intros Hn Ht Hl. split; [by apply suffix_cons_r|].
  pose proof (bytes_suffix _ _ Hl). pose proof (bytes_cons _ _ Hn).
  assert (token_weight t = 1) by (by destruct t). split; [lia|by destruct t].
Qed.
Lemma float_from_le n m t : n ≤ m → float_from n t → float_from m t.
Proof. intros Hle. destruct t; try done. intros (s & Hs & H). exists s. split; [lia|done]. Qed.
Lemma paid_suffix l l1 o : l1 `suffix_of` l → paid l1 o → paid l o.
Proof.
  intros Hl. destruct o as [[t l']| | |]; simpl; try done. intros (Hs & Hw & Hf).
  pose proof (bytes_suffix _ _ Hl). split; [by etrans|]. split; [lia|by eapply float_from_le].
Qed.

Lemma skip_whitespace_suffix l : skip_whitespace l `suffix_of` l.
Proof.
  induction l as [|c l IH]; simpl; [done|]. destruct (is_whitespace c); [by apply suffix_cons_r|done].
Qed.
Lemma skip_comment_suffix l : skip_comment l `suffix_of` l.
Proof.
  induction l as [|c l IH]; simpl; [done|].
  destruct (String.eqb c newline); by apply suffix_cons_r.
Qed.
Lemma number_text_suffix n d l : (number_text n d l).2 `suffix_of` l.
Proof.
  revert n d. induction l as [|c l IH]; intros n d; simpl; [done|].
  destruct (is_numeric c); [by apply suffix_cons_r|].
  destruct (String.eqb c "." && negb d); [|done].
  destruct (is_char (head l) "."); [done|by apply suffix_cons_r].
Qed.
Lemma number_text_length n d l :
  String.length (number_text n d l).1.1 + bytes (number_text n d l).2 = String.length n + bytes l.
Proof.
  revert n d. induction l as [|c l IH]; intros n d; cbn [number_text]; [done|].
  destruct (is_numeric c); [rewrite IH, str_length_app; cbn [bytes]; lia|].
  destruct (String.eqb c "." && negb d); [|done].
  destruct (is_char (head l) "."); [done|]. rewrite IH, str_length_app. cbn [bytes]. lia.
Qed.
Lemma of_chars_snoc cs c : of_chars (cs ++ [c]) = of_chars cs +:+ c.
Proof. induction cs as [|c' cs IH]; cbn [app of_chars]; [by rewrite str_app_nil_r|]. by rewrite IH, str_app_assoc. Qed.
Lemma decimal_text_snoc s c : decimal_text s → decimal_char c = true → decimal_text (s +:+ c).
Proof.
  intros (cs & -> & Hcs) Hc. exists (cs ++ [c]). split; [by rewrite of_chars_snoc|].
  apply Forall_app. split; [done|by constructor].
Qed.
Lemma number_text_decimal n d l : decimal_text n → decimal_text (number_text n d l).1.1.
Proof.
  revert n d. induction l as [|c l IH]; intros n d Hn; cbn [number_text]; [done|].
  destruct (is_numeric c) eqn:Hc; [apply IH, decimal_text_snoc; [done|by unfold decimal_char; rewrite Hc]|].
  destruct (String.eqb c "." && negb d) eqn:Hd; [|done]. apply andb_true_iff in Hd as [Hd _].
  destruct (is_char (head l) "."); [done|]. apply IH, decimal_text_snoc; [done|].
  unfold decimal_char. by rewrite Hd, orb_true_r.
Qed.
Lemma word_text_suffix w l : (word_text w l).2 `suffix_of` l.
Proof.
  revert w. induction l as [|c l IH]; intros w; simpl; [done|].
  destruct (word_char c); [by apply suffix_cons_r|done].
Qed.
Lemma quoted_text_paid ch w l : nonempty (ch :: l) → paid (ch :: l) (quoted_text w l).
Proof.
  intros Hn. assert (∀ w l1, l1 `suffix_of` l → paid (ch :: l) (quoted_text w l1)) as H;
    [|by apply H].
  clear w. intros w l1. revert w. induction l1 as [|c l1 IH]; intros w Hs; simpl; [done|].
  apply suffix_cons_l in Hs. destruct (String.eqb c "`"); [by apply paid_tail|by apply IH].
Qed.
Lemma string_text_paid ch q w l : nonempty (ch :: l) → paid (ch :: l) (string_text q w l).
Proof.
  intros Hn. assert (∀ n w l1, length l1 ≤ n → l1 `suffix_of` l →
    paid (ch :: l) (string_text q w l1)) as H; [|by apply (H (length l))].
  clear w. intros n w l1. revert w l1.
  induction n as [|n IH]; intros w [|c l1] Hlen Hs; simpl in *; try done; [lia|].
  apply suffix_cons_l in Hs. destruct (String.eqb c q); [by apply paid_tail|].
  destruct (String.eqb c backslash); [|by apply IH; [lia|]].
  destruct l1 as [|e l1]; [done|]. simpl in *. apply IH; [lia|by eapply suffix_cons_l].
Qed.
Lemma closing_brace_paid d e l :
  nonempty l →
  match closing_brace d e l with
  | Done (e', l') => l' `suffix_of` l ∧ String.length e' + 1 + bytes l' ≤ String.length e + bytes l
  | Fails e => is_parse_error e
  | Panics | OutOfFuel => False
  end.
Proof.
  revert d e. induction l as [|c l IH]; intros d e Hn; cbn [closing_brace]; [done|].
  pose proof (bytes_cons _ _ Hn) as Hb. apply Forall_cons in Hn as [_ Hn].
  assert (∀ d, match closing_brace d (e +:+ c) l with
    | Done (e', l') => l' `suffix_of` c :: l ∧
        String.length e' + 1 + bytes l' ≤ String.length e + bytes (c :: l)
    | Fails e => is_parse_error e | Panics | OutOfFuel => False end) as Hrec.
  { intros d'. specialize (IH d' (e +:+ c) Hn).
    destruct (closing_brace d' (e +:+ c) l) as [[e' l']| | |]; try done.
    destruct IH as [Hs Hw]. split; [by apply suffix_cons_r|].
    rewrite str_length_app in Hw. cbn [bytes]. lia. }
  destruct (String.eqb c "{"); [apply Hrec|]. destruct (String.eqb c "}"); [|apply Hrec].
  destruct (Nat.eqb (d - 1) 0); [|apply Hrec]. split; [by apply suffix_cons_r|lia].
Qed.

Lemma parts_weight_app ps qs : parts_weight (ps ++ qs) = parts_weight ps + parts_weight qs.
Proof. apply sum_list_with_app. Qed.
Lemma push_literal_weight parts lit : parts_weight (push_literal parts lit) = parts_weight parts.
Proof.
  unfold push_literal. destruct (String.eqb lit ""); [done|]. rewrite parts_weight_app. cbn. lia.
Qed.
Lemma template_text_paid fuel q parts lit l :
  nonempty l → length l < fuel →
  match template_text fuel q parts lit l with
  | Done (t, l') => l' `suffix_of` l ∧ token_weight t + bytes l' ≤ parts_weight parts + bytes l ∧
      ∀ f, t ≠ Float f
  | Fails e => is_parse_error e
  | Panics | OutOfFuel => False
  end.
Proof.
  revert parts lit l. induction fuel as [|fuel IH]; intros parts lit l Hn Hlen; [lia|].
  destruct l as [|c l]; cbn [template_text]; [done|]. simpl in Hlen.
  pose proof (bytes_cons _ _ Hn) as Hb. apply Forall_cons in Hn as [_ Hn].
  (* a turn that goes on with a suffix of [l] and parts as heavy *)
  assert (∀ parts' lit' l1, l1 `suffix_of` l → parts_weight parts' + bytes l1 ≤ parts_weight parts + bytes (c :: l) →
    match template_text fuel q parts' lit' l1 with
    | Done (t, l') => l' `suffix_of` c :: l ∧
        token_weight t + bytes l' ≤ parts_weight parts + bytes (c :: l) ∧ ∀ f, t ≠ Float f
    | Fails e => is_parse_error e | Panics | OutOfFuel => False end) as Hgo.
  { intros parts' lit' l1 Hs Hw. pose proof (suffix_length _ _ Hs).
    specialize (IH parts' lit' l1 (nonempty_suffix _ _ Hs Hn) ltac:(lia)).
    destruct (template_text fuel q parts' lit' l1) as [[t l']| | |]; try done.
    destruct IH as (Hs' & Hw' & Hf). split; [apply suffix_cons_r; by etrans|]. split; [lia|done]. }
  destruct (String.eqb c q).
  { split; [by apply suffix_cons_r|]. cbn [token_weight]. rewrite push_literal_weight. split; [lia|done]. }
  destruct (String.eqb c "$" && is_char (peek_char (c :: l)) "{").
  { destruct l as [|c2 l]; [by destruct fuel|]. cbn [advance tail].
    pose proof (bytes_cons _ _ Hn) as Hb2. apply Forall_cons in Hn as [_ Hn].
    pose proof (closing_brace_paid 1 "" l Hn) as Hc. unfold read_until_closing_brace.
    destruct (closing_brace 1 "" l) as [[e l1]| | |]; try done. destruct Hc as [Hs Hc].
    cbn [mbind outcome_mbind outcome_bind]. apply Hgo; [by apply suffix_cons_r|].
    rewrite parts_weight_app, push_literal_weight. cbn in *. lia. }
  destruct (String.eqb c "$" && is_char (peek_char (c :: l)) "$").
  { destruct l as [|c2 l]; cbn [advance tail].
    - apply Hgo; [done|lia].
    - pose proof (bytes_cons _ _ Hn). apply Hgo; [by apply suffix_cons_r|lia]. }
  destruct (String.eqb c backslash); [|apply Hgo; [done|lia]].
  destruct l as [|e l]; [apply Hgo; [done|lia]|].
  pose proof (bytes_cons _ _ Hn). apply Hgo; [by apply suffix_cons_r|lia].
Qed.

Lemma read_operator_paid entry ch l :
  nonempty (ch :: l) → plain_token entry.2 = true → Forall (λ p, plain_token p.2 = true) entry.1 →
  paid (ch :: l) (Done (read_operator entry l)).
Proof.
  intros Hn He Hall. unfold read_operator, current_char, advance.
  destruct l as [|c l]; cbn; [by apply paid_tail|].
  destruct (assoc c entry.1) as [t|] eqn:E; [|by apply paid_tail].
  apply paid_tail; [done| |by apply suffix_cons_r].
  clear -E Hall. induction Hall as [|[k u] m Hu _ IH]; [done|]. simpl in E.
  destruct (String.eqb c k); [by injection E as <-|by apply IH].
Qed.
Lemma keywords_plain w t : assoc w keywords = Some t → plain_token t = true.
Proof.
  assert (Forall (λ p, plain_token p.2 = true) keywords) as Hall by (by repeat constructor).
  intros E. induction Hall as [|[k u] m Hu _ IH]; [done|]. simpl in E.
  destruct (String.eqb w k); [by injection E as <-|by apply IH].
Qed.
Lemma operators_plain w e :
  assoc w operators = Some e → plain_token e.2 = true ∧ Forall (λ p, plain_token p.2 = true) e.1.
Proof.
  assert (Forall (λ p, plain_token p.2.2 = true ∧ Forall (λ p, plain_token p.2 = true) p.2.1) operators)
    as Hall by (by repeat constructor).
  intros E. induction Hall as [|[k u] m Hu _ IH]; [done|]. simpl in E.
  destruct (String.eqb w k); [by injection E as <-|by apply IH].
Qed.
(** A number is at least one character long. *)
Lemma read_number_paid ch l :
  nonempty (ch :: l) → is_numeric ch = true → paid (ch :: l) (read_number (ch :: l)).
Proof.
  intros Hn Hch. unfold read_number. cbn [number_text]. rewrite Hch.
  pose proof (number_text_suffix ("" +:+ ch) false l) as Hs.
  pose proof (number_text_length ("" +:+ ch) false l) as Hl. rewrite str_length_app in Hl.
  assert (decimal_text (number_text ("" +:+ ch) false l).1.1) as Hd.
  { apply number_text_decimal. exists [ch]. split; [by cbn [of_chars]; rewrite str_app_nil_r|].
    constructor; [by unfold decimal_char; rewrite Hch|done]. }
  destruct (number_text ("" +:+ ch) false l) as [[n d] l']. simpl in Hs, Hl, Hd.
  destruct d; [|destruct (parse_i64 n); [by apply (paid_tail ch l)|done]].
  destruct (parse_f64 n) as [f|] eqn:Hf; [|done]. cbn [mbind outcome_mbind outcome_bind or_fails].
  destruct (paid_tail ch l TTrue l' Hn eq_refl Hs) as (Hs' & Hw & _).
  split; [done|]. split; [exact Hw|]. exists n. split; [cbn [bytes]; lia|done].
Qed.
Lemma read_identifier_paid ch l :
  nonempty (ch :: l) → is_alphabetic ch || String.eqb ch "_" = true →
  (is_alphabetic ch = true → is_alphanumeric ch = true) →
  paid (ch :: l) (Done (read_identifier (ch :: l))).
Proof.
  intros Hn Hch Hal. unfold read_identifier. cbn [word_text].
  assert (word_char ch = true) as ->.
  { unfold word_char. destruct (is_alphabetic ch); [by rewrite Hal|]. simpl in Hch. rewrite Hch.
    by rewrite orb_true_r. }
  pose proof (word_text_suffix ("" +:+ ch) l) as Hs. destruct (word_text ("" +:+ ch) l) as [w l'].
  apply paid_tail; [done| |done]. unfold keyword_or_identifier.
  destruct (assoc (to_uppercase w) keywords) eqn:E; [by apply (keywords_plain _ _ E)|done].
Qed.

(** The end of the input is the one token that takes nothing. *)
Lemma next_token_paid fuel l :
  (∀ c, is_alphabetic c = true → is_alphanumeric c = true) →
  nonempty l → length l < fuel →
  (∃ l', next_token fuel l = Done (Eof, l')) ∨ paid l (next_token fuel l).
Proof.
  intros Hal. revert l. induction fuel as [|fuel IH]; intros l Hn Hlen; [lia|]. cbn [next_token].
  pose proof (skip_whitespace_suffix l) as Hs. set (l1 := skip_whitespace l) in *.
  pose proof (suffix_length _ _ Hs). pose proof (nonempty_suffix _ _ Hs Hn) as Hn1. clearbody l1.
  assert (∀ o, paid l1 o → (∃ l', o = Done (Eof, l')) ∨ paid l o) as Hpaid.
  { intros o Ho. right. by apply (paid_suffix l) in Ho. }
  destruct l1 as [|ch l1]; [left; by eexists|].
  destruct (is_numeric ch) eqn:Hnum; [by apply Hpaid, read_number_paid|].
  destruct (_ && _) eqn:Hq.
  { apply Hpaid. unfold read_template_string. apply andb_true_iff in Hq as [_ Hq].
    unfold peek_char in Hq. destruct l1 as [|c2 l1]; [done|]. cbn [advance tail current_char head].
    pose proof Hn1 as [Hc1 Hn2]%Forall_cons. pose proof (bytes_cons _ _ Hn2) as Hb.
    apply Forall_cons in Hn2 as [Hc2 Hn2].
    pose proof (template_text_paid (S fuel) c2 [] "" l1 Hn2 ltac:(simpl in *; lia)) as Ht.
    destruct (template_text (S fuel) c2 [] "" l1) as [[t l2]| | |]; try done.
    destruct Ht as (Hs2 & Ht & Hf). unfold parts_weight in Ht. split; [by do 2 apply suffix_cons_r|].
    destruct ch; [done|]. split; [simpl in *; lia|].
    destruct t; try done. by destruct (Hf bits). }
  clear Hq. destruct (String.eqb ch quote_mark || _); [by apply Hpaid, string_text_paid|].
  destruct (String.eqb ch "`"); [by apply Hpaid, quoted_text_paid|].
  destruct (is_alphabetic ch || _) eqn:Hid; [by apply Hpaid, read_identifier_paid; auto|].
  destruct (String.eqb ch "@").
  { apply Hpaid. unfold read_bind_var. cbn [advance tail].
    pose proof (word_text_suffix "" l1) as Hw. destruct (word_text "" l1) as [w l2].
    destruct (String.eqb w ""); [done|by apply paid_tail]. }
  destruct (_ && _) eqn:Hc.
  { apply andb_true_iff in Hc as [_ Hc]. destruct l1 as [|c2 l1]; [done|]. cbn [advance tail].
    assert (skip_comment l1 `suffix_of` ch :: c2 :: l1) as Hsc.
    { do 2 apply suffix_cons_r. apply skip_comment_suffix. }
    pose proof (suffix_length _ _ (skip_comment_suffix l1)). simpl in *.
    specialize (IH (skip_comment l1) (nonempty_suffix _ _ Hsc Hn1) ltac:(lia)).
    destruct IH as [IH|IH]; [by left|]. by apply Hpaid, (paid_suffix _ _ _ Hsc). }
  destruct (assoc ch operators) as [entry|] eqn:He; [|by right].
  apply operators_plain in He as [??]. by apply Hpaid, read_operator_paid.
Qed.

(** Tokens of a run: they end with [Eof], which is nowhere else. *)
Lemma tokens_of_weight fuel ts l :
  (∀ c, is_alphabetic c = true → is_alphanumeric c = true) →
  nonempty l → bytes l < fuel →
  match tokens_of fuel ts l with
  | Done r => ∃ ts', r = ts ++ ts' ++ [Eof] ∧ Eof ∉ ts' ∧ weight ts' ≤ bytes l ∧
      Forall (float_from (bytes l)) ts'
  | Fails e => is_parse_error e
  | Panics | OutOfFuel => False
  end.
Proof.
  intros Hal. revert ts l. induction fuel as [|fuel IH]; intros ts l Hn Hf; [lia|].
  cbn [tokens_of]. pose proof (next_token_paid (S (length l)) l Hal Hn ltac:(lia)) as Hnt.
  destruct (next_token (S (length l)) l) as [[t l']| | |]; [|by destruct Hnt as [[??]|]..].
  cbn [mbind outcome_mbind outcome_bind]. case_decide as He; [subst t|].
  { exists []. simpl. split; [done|]. split; [by apply not_elem_of_nil|]. split; [lia|constructor]. }
  destruct Hnt as [[l2 [= -> _]]|(Hs & Hw & Hf1)]; [done|].
  pose proof (token_weight_pos t).
  specialize (IH (ts ++ [t]) l' (nonempty_suffix _ _ Hs Hn) ltac:(lia)).
  destruct (tokens_of fuel (ts ++ [t]) l') as [r| | |]; try done.
  destruct IH as (ts' & -> & Hin & Hw' & Hf'). exists (t :: ts'). rewrite <-app_assoc. split; [done|].
  split; [apply not_elem_of_cons; by split|]. unfold weight in *. simpl. split; [lia|].
  constructor; [done|]. eapply Forall_impl; [exact Hf'|]. intros u. apply float_from_le. lia.
Qed.

Lemma tokenize_weight `{!CharTablesLaws} input :
  match tokenize input with
  | Done r => ∃ ts, r = ts ++ [Eof] ∧ Eof ∉ ts ∧ weight ts ≤ String.length input ∧
      Forall (float_from (String.length input)) ts
  | Fails e => is_parse_error e
  | Panics | OutOfFuel => False
  end.
Proof.
  unfold tokenize, new. rewrite <-(bytes_chars input).
  apply (tokens_of_weight (S (bytes (chars input))) []); [|apply chars_nonempty|lia].
  intros c Hc. by rewrite alphanumeric_or, Hc.
Qed.
End Consumption.
End Lexer.
