(* ===== verification/SdbqlAst.v ===== *)
(** * SDBQL: the abstract syntax (src/sdbql/ast.rs)

    The enums and structs of the query language. Expressions contain queries and
    queries contain expressions: the clauses and [Query] take the type of the
    expressions as a parameter, and [Expression] ties the knot. The enums are
    modules, so that their constructors read as in the source. *)

From S2P Require Import Prelude Json.

Module EdgeDirection.
Inductive EdgeDirection := Outbound | Inbound | Any.
End EdgeDirection.
Notation EdgeDirection := EdgeDirection.EdgeDirection.

Module WindowType.
Inductive WindowType := Tumbling | Sliding.
End WindowType.
Notation WindowType := WindowType.WindowType.

Module JoinType.
Inductive JoinType := Inner | Left | Right | FullOuter.
End JoinType.
Notation JoinType := JoinType.JoinType.

Module BinaryOperator.
Inductive BinaryOperator :=
| Equal | NotEqual | LessThan | LessThanOrEqual | GreaterThan | GreaterThanOrEqual
| In | NotIn
| And | Or
| Add | Subtract | Multiply | Divide | Modulus | Exponent
| Like | NotLike | RegEx | NotRegEx | FuzzyEqual
| BitwiseAnd | BitwiseOr | BitwiseXor | LeftShift | RightShift
| NullCoalesce
| LogicalOr.
#[export] Instance BinaryOperator_eq : EqDecision BinaryOperator.
Proof. solve_decision. Defined.
End BinaryOperator.
Notation BinaryOperator := BinaryOperator.BinaryOperator.

Module UnaryOperator.
Inductive UnaryOperator := Not | Negate | BitwiseNot.
#[export] Instance UnaryOperator_eq : EqDecision UnaryOperator.
Proof. solve_decision. Defined.
End UnaryOperator.
Notation UnaryOperator := UnaryOperator.UnaryOperator.

(** ** Clauses, over the type [E] of the expressions *)

Record LetClause (E : Type) := mkLet { let_variable : string; let_expression : E }.
Record ForClause (E : Type) := mkFor {
  for_variable : string;
  for_collection : string;
  source_variable : option string;
  source_expression : option E;
}.
Record FilterClause (E : Type) := mkFilter { filter_expression : E }.
Record InsertClause (E : Type) := mkInsert { insert_document : E; insert_collection : string }.
Record UpdateClause (E : Type) := mkUpdate {
  update_selector : E;
  update_changes : E;
  update_collection : string;
}.
Record UpsertClause (E : Type) := mkUpsert {
  upsert_search : E;
  upsert_insert : E;
  upsert_update : E;
  upsert_collection : string;
  upsert_replace : bool;
}.
Record RemoveClause (E : Type) := mkRemove { remove_selector : E; remove_collection : string }.
Record JoinClause (E : Type) := mkJoin {
  join_type : JoinType;
  join_variable : string;
  join_collection : string;
  join_condition : E;
}.
Record AggregateExpr (E : Type) := mkAggregate {
  agg_variable : string;
  agg_function : string;
  agg_argument : option E;
}.
Record CollectClause (E : Type) := mkCollect {
  group_vars : list (string * E);
  into_var : option string;
  count_var : option string;
  aggregates : list (AggregateExpr E);
}.
Record GraphTraversalClause (E : Type) := mkTraversal {
  gt_vertex_var : string;
  gt_edge_var : option string;
  gt_direction : EdgeDirection;
  gt_start_vertex : E;
  gt_edge_collection : string;
  gt_min_depth : N;
  gt_max_depth : N;
}.
Record ShortestPathClause (E : Type) := mkShortest {
  sp_vertex_var : string;
  sp_edge_var : option string;
  sp_start_vertex : E;
  sp_end_vertex : E;
  sp_direction : EdgeDirection;
  sp_edge_collection : string;
}.
Record SortClause (E : Type) := mkSort { sort_fields : list (E * bool) }.
Record LimitClause (E : Type) := mkLimit { limit_offset : E; limit_count : E }.
Record ReturnClause (E : Type) := mkReturn { return_expression : E }.
Record WindowClause := mkWindow { window_type : WindowType; window_duration : string }.
Record CreateStreamClause := mkStream { stream_name : string; stream_if_not_exists : bool }.
Record CreateMaterializedViewClause (Q : Type) := mkView {
  view_name : string;
  view_if_not_exists : bool;
  view_query : Q;
}.
Record RefreshMaterializedViewClause := mkRefresh { refresh_name : string }.
Record WindowSpec (E : Type) := mkSpec {
  partition_by : list E;
  order_by : list (E * bool);
}.
Arguments mkLet {E} _ _. Arguments mkFor {E} _ _ _ _. Arguments mkFilter {E} _.
Arguments mkInsert {E} _ _. Arguments mkUpdate {E} _ _ _. Arguments mkUpsert {E} _ _ _ _ _.
Arguments mkRemove {E} _ _. Arguments mkJoin {E} _ _ _ _. Arguments mkAggregate {E} _ _ _.
Arguments mkCollect {E} _ _ _ _. Arguments mkTraversal {E} _ _ _ _ _ _ _.
Arguments mkShortest {E} _ _ _ _ _ _. Arguments mkSort {E} _. Arguments mkLimit {E} _ _.
Arguments mkReturn {E} _. Arguments mkView {Q} _ _ _. Arguments mkSpec {E} _ _.
Arguments let_variable {E} _. Arguments let_expression {E} _.
Arguments for_variable {E} _. Arguments for_collection {E} _.
Arguments source_variable {E} _. Arguments source_expression {E} _.
Arguments filter_expression {E} _. Arguments return_expression {E} _.
Arguments sort_fields {E} _. Arguments limit_offset {E} _. Arguments limit_count {E} _.
Arguments partition_by {E} _. Arguments order_by {E} _.

Module BodyClause.
Inductive BodyClause (E : Type) :=
| For (c : ForClause E)
| Let (c : LetClause E)
| Filter (c : FilterClause E)
| Insert (c : InsertClause E)
| Update (c : UpdateClause E)
| Upsert (c : UpsertClause E)
| Remove (c : RemoveClause E)
| Join (c : JoinClause E)
| GraphTraversal (c : GraphTraversalClause E)
| ShortestPath (c : ShortestPathClause E)
| Collect (c : CollectClause E)
| Window (c : WindowClause).
Arguments For {E} c. Arguments Let {E} c. Arguments Filter {E} c. Arguments Insert {E} c.
Arguments Update {E} c. Arguments Upsert {E} c. Arguments Remove {E} c. Arguments Join {E} c.
Arguments GraphTraversal {E} c. Arguments ShortestPath {E} c. Arguments Collect {E} c.
Arguments Window {E} c.
End BodyClause.
Notation BodyClause := BodyClause.BodyClause.

Inductive Query (E : Type) := mkQuery {
  let_clauses : list (LetClause E);
  for_clauses : list (ForClause E);
  join_clauses : list (JoinClause E);
  filter_clauses : list (FilterClause E);
  sort_clause : option (SortClause E);
  limit_clause : option (LimitClause E);
  return_clause : option (ReturnClause E);
  create_stream_clause : option CreateStreamClause;
  create_materialized_view_clause : option (CreateMaterializedViewClause (Query E));
  refresh_materialized_view_clause : option RefreshMaterializedViewClause;
  window_clause : option WindowClause;
  body_clauses : list (BodyClause E);
}.
Arguments mkQuery {E} _ _ _ _ _ _ _ _ _ _ _ _.
Arguments let_clauses {E} _. Arguments for_clauses {E} _. Arguments join_clauses {E} _.
Arguments filter_clauses {E} _. Arguments sort_clause {E} _. Arguments limit_clause {E} _.
Arguments return_clause {E} _. Arguments create_stream_clause {E} _.
Arguments create_materialized_view_clause {E} _. Arguments refresh_materialized_view_clause {E} _.
Arguments window_clause {E} _. Arguments body_clauses {E} _.

(** ** Expressions *)

Module TemplateStringPart.
Inductive TemplateStringPart (E : Type) :=
| Literal (s : string)
| Expression (e : E).
Arguments Literal {E} s. Arguments Expression {E} e.
End TemplateStringPart.
Notation TemplateStringPart := TemplateStringPart.TemplateStringPart.

Module Expression.
Section Expression.
Context {Num : Type}.
#[local] Set Warnings "-register-all".
Inductive Expression :=
| Var (name : string)
| BindVariable (name : string)
| FieldAccess (base : Expression) (field : string)
| OptionalFieldAccess (base : Expression) (field : string)
| DynamicFieldAccess (base : Expression) (field : Expression)
| ArrayAccess (base : Expression) (index : Expression)
| ArraySpreadAccess (base : Expression) (path : option string)
| Literal (v : Json.Value Num)
| BinaryOp (left : Expression) (op : BinaryOperator) (right : Expression)
| UnaryOp (op : UnaryOperator) (operand : Expression)
| Object (fields : list (string * Expression))
| Array (elements : list Expression)
| Range (start stop : Expression)
| FunctionCall (name : string) (args : list Expression)
| Subquery (q : Query Expression)
| Ternary (condition true_expr false_expr : Expression)
| Case (operand : option Expression) (when_clauses : list (Expression * Expression))
    (else_clause : option Expression)
| Pipeline (left right : Expression)
| Lambda (params : list string) (body : Expression)
| WindowFunctionCall (function : string) (arguments : list Expression)
    (over_clause : WindowSpec Expression)
| TemplateString (parts : list (TemplateStringPart Expression)).
End Expression.
Arguments Expression : clear implicits.
End Expression.
Notation Expression := Expression.Expression.
