(* ===== verification/SdbqlParser.v ===== *)
(** * SDBQL: the parser (src/sdbql/parser)

    The recursive-descent parser, in the state of its token position and of the
    flag [allow_in_operator]. As in the lexer the position is the rest of the
    tokens: every access of the source is at the position or after it. An error
    drops the state, which no caller looks at after one. The functions are
    mutually recursive through [parse_expression] and [parse_query]: the sections
    take these two as [rec] and [recq], and [parse_expression] and [parse_query]
    tie the knot with fuel. A loop runs on the weight of the tokens left, which
    every turn reduces. [token_debug] is the output of [#[derive(Debug)]]. *)

From S2P Require Import Prelude Text Json Transaction Codec SdbqlLexer SdbqlAst.
Import Token.

(** ** The monad of the parser *)

Record Parser := mkParser { rest : list Token; allow_in_operator : bool }.
Definition P (A : Type) : Type := Parser → outcome (A * Parser).
#[export] Instance P_ret : MRet P := λ A a s, Done (a, s).
#[export] Instance P_bind : MBind P := λ A B k m s,
  match m s with
  | Done (a, s') => k a s'
  | Fails e => Fails e
  | Panics => Panics
  | OutOfFuel => OutOfFuel
  end.

Class TokenDebug := token_debug : Token → string.

Module Cursor.

Definition parse_error {A} (msg : string) : P A := λ s, Fails (ParseError msg).
Definition panic {A} : P A := λ s, Panics.
Definition out_of_fuel {A} : P A := λ s, OutOfFuel.

Definition token_at (offset : nat) (s : Parser) : Token := default Eof (rest s !! offset).
Definition current_token : P Token := λ s, Done (token_at 0 s, s).
Definition peek_token (offset : nat) : P Token := λ s, Done (token_at offset s, s).
Definition advance : P () := λ s, Done ((), mkParser (tail (rest s)) (allow_in_operator s)).
Definition expect `{!TokenDebug} (expected : Token) : P () :=
  t ← current_token;
  if decide (t = expected) then advance
  else parse_error ("Expected " +:+ token_debug expected +:+ ", got " +:+ token_debug t).
Definition set_allow_in (b : bool) : P () := λ s, Done ((), mkParser (rest s) b).
Definition allow_in : P bool := λ s, Done (allow_in_operator s, s).

(** [if let Token::Identifier(name) = token], and the same for strings. *)
Definition as_identifier (t : Token) : option string :=
  match t with Identifier name => Some name | _ => None end.
Definition as_string (t : Token) : option string :=
  match t with TString s => Some s | _ => None end.
(** [if let Token::Identifier(name) = ... { advance; name } else { error }] *)
Definition expect_identifier (msg : string) : P string :=
  t ← current_token;
  match as_identifier t with
  | Some name => advance;; mret name
  | None => parse_error msg
  end.
Definition expect_string (msg : string) : P string :=
  t ← current_token;
  match as_string t with
  | Some s => advance;; mret s
  | None => parse_error msg
  end.

(** ** Loops *)

(** A loop over the tokens left: one turn more than their weight, which every
    turn reduces. *)
Definition looping {A} (body : nat → P A) : P A := λ s, body (S (Lexer.weight (rest s))) s.

(** [while let Some(x) = step(x)]. *)
Fixpoint iterate {A} (step : A → P (option A)) (fuel : nat) (x : A) : P A :=
  match fuel with
  | O => out_of_fuel
  | S fuel' =>
      o ← step x;
      match o with
      | None => mret x
      | Some x' => iterate step fuel' x'
      end
  end.
Definition iterate_from {A} (step : A → P (option A)) (x : A) : P A :=
  looping (λ fuel, iterate step fuel x).

(** [loop { items.push(item); if Comma { advance } else { break } }] *)
Fixpoint comma_loop {A} (item : P A) (fuel : nat) (items : list A) : P (list A) :=
  match fuel with
  | O => out_of_fuel
  | S fuel' =>
      x ← item;
      t ← current_token;
      if decide (t = Comma) then advance;; comma_loop item fuel' (items ++ [x])
      else mret (items ++ [x])
  end.
Definition comma_separated {A} (item : P A) : P (list A) := looping (λ fuel, comma_loop item fuel []).

(** [while !matches!(current, closer | Eof) { items.push(item); if Comma
    { advance } else { break } }; expect(closer)] *)
Fixpoint until_loop {A} (closer : Token) (item : P A) (fuel : nat) (items : list A) : P (list A) :=
  match fuel with
  | O => out_of_fuel
  | S fuel' =>
      t ← current_token;
      if decide (t = closer ∨ t = Eof) then mret items
      else
        x ← item;
        t ← current_token;
        if decide (t = Comma) then advance;; until_loop closer item fuel' (items ++ [x])
        else mret (items ++ [x])
  end.
Definition items_until `{!TokenDebug} {A} (closer : Token) (item : P A) : P (list A) :=
  items ← looping (λ fuel, until_loop closer item fuel []);
  expect closer;;
  mret items.

End Cursor.
Import Cursor.

Module Parse.
Section Parse.
Context {Num : Type} `{json_number : !JsonNumber Num} `{json_text : !JsonText Num}.
Context `{char_tables : !CharTables} `{float_text : !FloatText} `{token_show : !TokenDebug}.
Notation Expression := (Expression Num).
Notation Query := (Query Expression).

(** ** Field names *)

Definition token_to_field_name (token : Token) : option string :=
  match token with
  | Identifier name => Some name
  | Sort => Some "sort" | Count => Some "count" | Filter => Some "filter"
  | Return => Some "return" | In => Some "in" | For => Some "for" | Let => Some "let"
  | Limit => Some "limit" | Partition => Some "partition" | Over => Some "over"
  | Case => Some "case" | When => Some "when" | Then => Some "then" | Else => Some "else"
  | End => Some "end" | TTrue => Some "true" | TFalse => Some "false" | Null => Some "null"
  | And => Some "and" | Or => Some "or" | Not => Some "not" | Like => Some "like"
  | Insert => Some "insert" | Update => Some "update" | Remove => Some "remove"
  | Upsert => Some "upsert" | Into => Some "into" | With => Some "with"
  | Collect => Some "collect" | Aggregate => Some "aggregate"
  | Asc => Some "asc" | Desc => Some "desc"
  | _ => None
  end.
Definition get_field_name : P (option string) :=
  t ← current_token; mret (token_to_field_name t).

Definition keyword_key (token : Token) : option string :=
  match token with
  | Sort => Some "order" | Count => Some "count" | Filter => Some "filter"
  | Return => Some "return" | In => Some "in" | For => Some "for" | Let => Some "let"
  | Limit => Some "limit" | Partition => Some "partition" | Over => Some "over"
  | Case => Some "case" | When => Some "when" | Then => Some "then" | Else => Some "else"
  | End => Some "end"
  | _ => None
  end.
Definition object_key (token : Token) : option string :=
  match token with
  | Identifier name => Some name
  | TString s => Some s
  | _ => keyword_key token
  end.
Definition parse_object_key : P string :=
  t ← current_token;
  match object_key t with
  | Some name => advance;; mret name
  | None => parse_error "Expected field name in object"
  end.

(** ** Operators *)

Definition parse_negated_operator : P (option BinaryOperator) :=
  t ← peek_token 1;
  match t with
  | Like => advance;; advance;; mret (Some BinaryOperator.NotLike)
  | RegEx => advance;; advance;; mret (Some BinaryOperator.NotRegEx)
  | In =>
      b ← allow_in;
      if (b : bool) then advance;; advance;; mret (Some BinaryOperator.NotIn) else mret None
  | _ => mret None
  end.
Definition parse_comparison_operator : P (option BinaryOperator) :=
  t ← current_token;
  match t with
  | Equal => advance;; mret (Some BinaryOperator.Equal)
  | NotEqual => advance;; mret (Some BinaryOperator.NotEqual)
  | LessThan => advance;; mret (Some BinaryOperator.LessThan)
  | LessThanEq => advance;; mret (Some BinaryOperator.LessThanOrEqual)
  | GreaterThan => advance;; mret (Some BinaryOperator.GreaterThan)
  | GreaterThanEq => advance;; mret (Some BinaryOperator.GreaterThanOrEqual)
  | In => b ← allow_in; if (b : bool) then advance;; mret (Some BinaryOperator.In) else mret None
  | Like => advance;; mret (Some BinaryOperator.Like)
  | RegEx => advance;; mret (Some BinaryOperator.RegEx)
  | NotRegEx => advance;; mret (Some BinaryOperator.NotRegEx)
  | FuzzyEqual => advance;; mret (Some BinaryOperator.FuzzyEqual)
  | Not => parse_negated_operator
  | _ => mret None
  end.

(** An operator of one level: [matches!(self.current_token(), ...)], [advance]. *)
Definition parse_operator (operator_of : Token → option BinaryOperator) : P (option BinaryOperator) :=
  t ← current_token;
  match operator_of t with
  | Some op => advance;; mret (Some op)
  | None => mret None
  end.

(** ** Expressions *)

Section Expressions.
Context (rec : P Expression) (recq : bool → P Query).

Definition parse_function_call_args : P (list Expression) := items_until RightParen rec.

(** Lambdas *)

Fixpoint lambda_scan (depth : nat) (tokens : list Token) : bool :=
  match tokens with
  | [] => false
  | LeftParen :: tokens' => lambda_scan (S depth) tokens'
  | RightParen :: tokens' =>
      if Nat.eqb (depth - 1) 0 then match tokens' with Arrow :: _ => true | _ => false end
      else lambda_scan (depth - 1) tokens'
  | Comma :: tokens' => lambda_scan depth tokens'
  | Identifier _ :: tokens' => lambda_scan depth tokens'
  | _ => false
  end.
Definition is_lambda_params : P bool := λ s, Done (lambda_scan 1 (tail (rest s)), s).
Definition parse_lambda_params : P (list string) :=
  t ← current_token;
  if decide (t = LeftParen) then
    advance;; items_until RightParen (expect_identifier "Expected parameter name in lambda")
  else match as_identifier t with
       | Some name => advance;; mret [name]
       | None => mret []
       end.
Definition parse_lambda_expression : P Expression :=
  params ← parse_lambda_params;
  expect Arrow;;
  body ← rec;
  mret (Expression.Lambda params body).

(** CASE *)

Definition parse_when_clause : P (option (Expression * Expression)) :=
  t ← current_token;
  if decide (t = When) then
    advance;;
    condition ← rec;
    t ← current_token;
    if decide (t = Then) then advance;; result ← rec; mret (Some (condition, result))
    else parse_error "Expected THEN after WHEN condition"
  else mret None.
Definition push_when (clauses : list (Expression * Expression)) :
    P (option (list (Expression * Expression))) :=
  o ← parse_when_clause;
  mret (match o with Some c => Some (clauses ++ [c]) | None => None end).
Definition parse_case_expression : P Expression :=
  advance;;
  t ← current_token;
  operand ← (if decide (t = When) then mret None else e ← rec; mret (Some e));
  when_clauses ← iterate_from push_when [];
  match when_clauses with
  | [] => parse_error "CASE expression requires at least one WHEN clause"
  | _ =>
      t ← current_token;
      else_clause ← (if decide (t = Else) then advance;; e ← rec; mret (Some e) else mret None);
      t ← current_token;
      if decide (t = End) then advance;; mret (Expression.Case operand when_clauses else_clause)
      else parse_error "Expected END to close CASE expression"
  end.

(** Window functions *)

Definition expect_by (msg : string) : P () :=
  t ← current_token;
  match as_identifier t with
  | Some s => if String.eqb (to_uppercase s) "BY" then advance else parse_error msg
  | None => parse_error msg
  end.
Definition before_order (t : Token) : bool :=
  bool_decide (t = Sort) ||
  match as_identifier t with Some s => String.eqb (to_uppercase s) "ORDER" | None => false end.
(** The loop of PARTITION BY, which stops before a comma in front of ORDER. *)
Fixpoint partition_loop (fuel : nat) (items : list Expression) : P (list Expression) :=
  match fuel with
  | O => out_of_fuel
  | S fuel' =>
      x ← rec;
      t ← current_token;
      if decide (t = Comma) then
        t1 ← peek_token 1;
        if before_order t1 then mret (items ++ [x])
        else advance;; partition_loop fuel' (items ++ [x])
      else mret (items ++ [x])
  end.
Definition parse_partition_by : P (list Expression) :=
  t ← current_token;
  if decide (t = Partition) then
    advance;;
    expect_by "Expected BY after PARTITION";;
    looping (λ fuel, partition_loop fuel [])
  else mret [].
(** An expression with ASC or DESC. *)
Definition parse_sort_field : P (Expression * bool) :=
  e ← rec;
  t ← current_token;
  if decide (t = Desc) then advance;; mret (e, false)
  else if decide (t = Asc) then advance;; mret (e, true)
  else mret (e, true).
Definition parse_order_by : P (list (Expression * bool)) :=
  t ← current_token;
  if decide (t = Sort) then
    advance;; expect_by "Expected BY after ORDER";; comma_separated parse_sort_field
  else mret [].
Definition parse_window_spec : P (WindowSpec Expression) :=
  partition_by ← parse_partition_by;
  order_by ← parse_order_by;
  mret (mkSpec partition_by order_by).
Definition parse_window_function (function : string) (arguments : list Expression) : P Expression :=
  expect Over;;
  expect LeftParen;;
  over_clause ← parse_window_spec;
  expect RightParen;;
  mret (Expression.WindowFunctionCall (to_uppercase function) arguments over_clause).

(** The call after a function name: with OVER it is a window function. *)
Definition parse_call (name : string) : P Expression :=
  args ← parse_function_call_args;
  t ← current_token;
  if decide (t = Over) then parse_window_function name args
  else mret (Expression.FunctionCall name args).
Definition parse_keyword_as_function (name : string) : P Expression :=
  advance;;
  t ← current_token;
  if decide (t = LeftParen) then advance;; parse_call name
  else parse_error ("Expected '(' after " +:+ name).
Definition parse_keyword_as_function_no_window (name error_msg : string) : P Expression :=
  advance;;
  t ← current_token;
  if decide (t = LeftParen) then
    advance;;
    args ← parse_function_call_args;
    mret (Expression.FunctionCall name args)
  else parse_error error_msg.

(** Quantifiers: ANY x IN array SATISFIES condition is ANY(array, x -> condition). *)
Definition parse_quantifier_expression (name : string) : P Expression :=
  advance;;
  variable ← expect_identifier "Expected variable name after quantifier";
  expect In;;
  array_expr ← rec;
  t ← current_token;
  condition ← (if decide (t = Satisfies) then advance;; rec
               else mret (Expression.Literal (Json.Bool true)));
  mret (Expression.FunctionCall name [array_expr; Expression.Lambda [variable] condition]).

(** Template strings: a parser of its own for each interpolation. *)
Definition parse_template_part (part : TemplatePart) : P (TemplateStringPart Expression) :=
  match part with
  | TLiteral s => mret (TemplateStringPart.Literal s)
  | TExpression expr_str => λ s,
      tokens ← Lexer.tokenize expr_str;
      '(expr, _) ← rec (mkParser tokens true);
      Done (TemplateStringPart.Expression expr, s)
  end.
Fixpoint parse_template_parts (parts : list TemplatePart)
    (parsed_parts : list (TemplateStringPart Expression)) : P (list (TemplateStringPart Expression)) :=
  match parts with
  | [] => mret parsed_parts
  | part :: parts' =>
      x ← parse_template_part part;
      parse_template_parts parts' (parsed_parts ++ [x])
  end.
Definition parse_template_string (parts : list TemplatePart) : P Expression :=
  parsed_parts ← parse_template_parts parts [];
  mret (Expression.TemplateString parsed_parts).

(** Objects and arrays *)

Definition parse_object_field : P (string * Expression) :=
  key ← parse_object_key;
  t ← current_token;
  if decide (t = Colon) then advance;; value ← rec; mret (key, value)
  else mret (key, Expression.Var key).
Definition parse_object_expression : P Expression :=
  expect LeftBrace;;
  fields ← items_until RightBrace parse_object_field;
  mret (Expression.Object fields).
Definition parse_array_expression : P Expression :=
  expect LeftBracket;;
  elements ← items_until RightBracket rec;
  mret (Expression.Array elements).

(** Primary expressions *)

Definition parse_identifier_expression (name : string) : P Expression :=
  t1 ← peek_token 1;
  if decide (t1 = Arrow) then parse_lambda_expression
  else
    advance;;
    t ← current_token;
    if decide (t = LeftParen) then advance;; parse_call name
    else mret (Expression.Var name).
Definition literal (v : Json.Value Num) : P Expression := advance;; mret (Expression.Literal v).
Definition parse_float (f : N) : P Expression :=
  advance;;
  match num_of_f64 f with
  | Some n => mret (Expression.Literal (Json.Number n))
  | None => panic
  end.
Definition parse_unparenthesized_subquery : P Expression :=
  subquery ← recq false;
  mret (Expression.Subquery subquery).
Definition parse_parenthesized_expression : P Expression :=
  b ← is_lambda_params;
  if (b : bool) then parse_lambda_expression
  else
    advance;;
    t ← current_token;
    if decide (t = For ∨ t = Let) then
      subquery ← recq false;
      expect RightParen;;
      mret (Expression.Subquery subquery)
    else
      expr ← rec;
      expect RightParen;;
      mret expr.
Definition parse_primary_expression : P Expression :=
  t ← current_token;
  match t with
  | Identifier name => parse_identifier_expression name
  | Any => parse_quantifier_expression "ANY"
  | Count => parse_keyword_as_function "COUNT"
  | Left => parse_keyword_as_function_no_window "LEFT" "Unexpected token in expression: Left"
  | Right => parse_keyword_as_function_no_window "RIGHT" "Unexpected token in expression: Right"
  | Integer n => literal (Json.Number (num_of_i64 n))
  | Float f => parse_float f
  | TString s => literal (Json.JString s)
  | TTrue => literal (Json.Bool true)
  | TFalse => literal (Json.Bool false)
  | Null => literal Json.Null
  | BindVar name => advance;; mret (Expression.BindVariable name)
  | LeftBrace => parse_object_expression
  | LeftBracket => parse_array_expression
  | LeftParen => parse_parenthesized_expression
  | For | Let => parse_unparenthesized_subquery
  | Case => parse_case_expression
  | TemplateString parts => advance;; parse_template_string parts
  | _ => parse_error ("Unexpected token in expression: " +:+ token_debug t)
  end.

(** Postfix operations *)

Definition parse_field_access (base : Expression) : P Expression :=
  advance;;
  o ← get_field_name;
  match o with
  | Some field_name => advance;; mret (Expression.FieldAccess base field_name)
  | None => parse_error "Expected field name after '.'"
  end.
Definition parse_optional_field_access (base : Expression) : P Expression :=
  advance;;
  o ← get_field_name;
  match o with
  | Some field_name => advance;; mret (Expression.OptionalFieldAccess base field_name)
  | None => parse_error "Expected field name after '?.'"
  end.
(** One more name of a path; a point without a name is consumed and ends it. *)
Fixpoint path_loop (fuel : nat) (path : string) : P string :=
  match fuel with
  | O => out_of_fuel
  | S fuel' =>
      t ← current_token;
      if decide (t = Dot) then
        advance;;
        t ← current_token;
        match as_identifier t with
        | Some name =>
            advance;;
            path_loop fuel' ((if String.eqb path "" then path else path +:+ ".") +:+ name)
        | None => mret path
        end
      else mret path
  end.
Definition parse_array_spread_access (base : Expression) : P Expression :=
  advance;;
  expect RightBracket;;
  path ← looping (λ fuel, path_loop fuel "");
  mret (Expression.ArraySpreadAccess base (if String.eqb path "" then None else Some path)).
Definition bracket_access (base index_expr : Expression) : Expression :=
  match index_expr with
  | Expression.Literal (Json.Number _) => Expression.ArrayAccess base index_expr
  | Expression.Literal (Json.JString s) => Expression.FieldAccess base s
  | _ => Expression.DynamicFieldAccess base index_expr
  end.
Definition parse_bracket_access (base : Expression) : P Expression :=
  advance;;
  t ← current_token;
  if decide (t = Star) then parse_array_spread_access base
  else
    index_expr ← rec;
    expect RightBracket;;
    mret (bracket_access base index_expr).
Definition postfix_step (expr : Expression) : P (option Expression) :=
  t ← current_token;
  if decide (t = Dot) then e ← parse_field_access expr; mret (Some e)
  else if decide (t = QuestionDot) then e ← parse_optional_field_access expr; mret (Some e)
  else if decide (t = LeftBracket) then e ← parse_bracket_access expr; mret (Some e)
  else mret None.
Definition parse_postfix_expression : P Expression :=
  expr ← parse_primary_expression;
  iterate_from postfix_step expr.

(** The precedence chain *)

Definition unary_of (t : Token) : option UnaryOperator :=
  match t with
  | Not => Some UnaryOperator.Not
  | Minus => Some UnaryOperator.Negate
  | Tilde => Some UnaryOperator.BitwiseNot
  | _ => None
  end.
Fixpoint unary_loop (fuel : nat) : P Expression :=
  match fuel with
  | O => out_of_fuel
  | S fuel' =>
      t ← current_token;
      match unary_of t with
      | Some op =>
          advance;;
          operand ← unary_loop fuel';
          mret (Expression.UnaryOp op operand)
      | None => parse_postfix_expression
      end
  end.
Definition parse_unary_expression : P Expression := looping unary_loop.

(** [while operator { right = operand; left = left op right }] *)
Definition binary_step (operator : P (option BinaryOperator)) (operand : P Expression)
    (left : Expression) : P (option Expression) :=
  o ← operator;
  match o with
  | Some op => right ← operand; mret (Some (Expression.BinaryOp left op right))
  | None => mret None
  end.
Definition left_associative (operator : P (option BinaryOperator)) (operand : P Expression) :
    P Expression :=
  left ← operand;
  iterate_from (binary_step operator operand) left.

Definition multiplicative_of (t : Token) : option BinaryOperator :=
  match t with
  | Star => Some BinaryOperator.Multiply
  | Slash => Some BinaryOperator.Divide
  | Percent => Some BinaryOperator.Modulus
  | _ => None
  end.
Definition parse_multiplicative_expression : P Expression :=
  left_associative (parse_operator multiplicative_of) parse_unary_expression.
Definition additive_of (t : Token) : option BinaryOperator :=
  match t with
  | Plus => Some BinaryOperator.Add
  | Minus => Some BinaryOperator.Subtract
  | _ => None
  end.
Definition parse_additive_expression : P Expression :=
  left_associative (parse_operator additive_of) parse_multiplicative_expression.
Definition shift_of (t : Token) : option BinaryOperator :=
  match t with
  | LeftShift => Some BinaryOperator.LeftShift
  | RightShift => Some BinaryOperator.RightShift
  | _ => None
  end.
Definition parse_shift_expression : P Expression :=
  left_associative (parse_operator shift_of) parse_additive_expression.
Definition parse_range_expression : P Expression :=
  left ← parse_shift_expression;
  t ← current_token;
  if decide (t = DotDot) then advance;; right ← parse_shift_expression; mret (Expression.Range left right)
  else mret left.
Definition parse_comparison_expression : P Expression :=
  left_associative parse_comparison_operator parse_range_expression.
Definition one_operator (token : Token) (op : BinaryOperator) (t : Token) : option BinaryOperator :=
  if decide (t = token) then Some op else None.
Definition parse_bitwise_and_expression : P Expression :=
  left_associative (parse_operator (one_operator Ampersand BinaryOperator.BitwiseAnd))
    parse_comparison_expression.
Definition parse_bitwise_xor_expression : P Expression :=
  left_associative (parse_operator (one_operator Caret BinaryOperator.BitwiseXor))
    parse_bitwise_and_expression.
Definition parse_bitwise_or_expression : P Expression :=
  left_associative (parse_operator (one_operator Pipe BinaryOperator.BitwiseOr))
    parse_bitwise_xor_expression.
Definition parse_and_expression : P Expression :=
  left_associative (parse_operator (one_operator And BinaryOperator.And)) parse_bitwise_or_expression.
Definition parse_or_expression : P Expression :=
  left_associative (parse_operator (one_operator Or BinaryOperator.Or)) parse_and_expression.

Definition pipeline_name (t : Token) : option string :=
  match t with
  | Identifier name => Some name
  | Filter => Some "FILTER"
  | Sort => Some "SORT"
  | Count => Some "COUNT"
  | Any => Some "ANY"
  | Return => Some "RETURN"
  | In => Some "IN"
  | _ => None
  end.
Definition parse_pipeline_function_name : P string :=
  t ← current_token;
  match pipeline_name t with
  | Some name => advance;; mret name
  | None => parse_error ("Expected function name after |>, got " +:+ token_debug t)
  end.
Definition pipeline_step (left : Expression) : P (option Expression) :=
  t ← current_token;
  if decide (t = PipeRight) then
    advance;;
    func_name ← parse_pipeline_function_name;
    expect LeftParen;;
    args ← parse_function_call_args;
    mret (Some (Expression.Pipeline left (Expression.FunctionCall func_name args)))
  else mret None.
Definition parse_pipeline_expression : P Expression :=
  left ← parse_or_expression;
  iterate_from pipeline_step left.
Definition parse_logical_or_expression : P Expression :=
  left_associative (parse_operator (one_operator DoublePipe BinaryOperator.LogicalOr))
    parse_pipeline_expression.
Definition parse_null_coalesce_expression : P Expression :=
  left_associative (parse_operator (one_operator NullCoalesce BinaryOperator.NullCoalesce))
    parse_logical_or_expression.
(** The recursive calls are [rec]: [parse_expression] is this function. *)
Definition parse_ternary_expression : P Expression :=
  condition ← parse_null_coalesce_expression;
  t ← current_token;
  if decide (t = Question) then
    advance;;
    true_expr ← rec;
    expect Colon;;
    false_expr ← rec;
    mret (Expression.Ternary condition true_expr false_expr)
  else mret condition.

End Expressions.

(** ** Clauses *)

Section Clauses.
Context (rec : P Expression) (recq : bool → P Query).

Definition let_binding : P (LetClause Expression) :=
  variable ← expect_identifier "Expected variable name after LET";
  expect Assign;;
  expression ← rec;
  mret (mkLet variable expression).
Definition parse_let_clause : P (list (LetClause Expression)) :=
  expect Let;;
  comma_separated let_binding.

Definition parse_create_stream_clause : P CreateStreamClause :=
  expect Create;;
  expect Stream;;
  name ← expect_identifier "Expected stream name";
  expect As;;
  mret (mkStream name false).
Definition parse_create_materialized_view_clause : P (CreateMaterializedViewClause Query) :=
  expect Create;;
  expect Materialized;;
  expect View;;
  name ← expect_identifier "Expected view name";
  expect As;;
  query ← recq false;
  mret (mkView name false query).
Definition parse_refresh_materialized_view_clause : P RefreshMaterializedViewClause :=
  expect Refresh;;
  expect Materialized;;
  expect View;;
  name ← expect_identifier "Expected view name";
  mret (mkRefresh name).

Definition parse_window_clause : P WindowClause :=
  expect Window;;
  t ← current_token;
  window_type ← (if decide (t = Tumbling) then advance;; mret WindowType.Tumbling
                 else if decide (t = Sliding) then advance;; mret WindowType.Sliding
                 else parse_error "Expected TUMBLING or SLIDING");
  expect LeftParen;;
  expect Size;;
  duration ← expect_string "Expected duration string";
  expect RightParen;;
  mret (mkWindow window_type duration).

Definition parse_filter_clause : P (FilterClause Expression) :=
  expect Filter;;
  expression ← rec;
  mret (mkFilter expression).

Definition parse_join_type : P JoinType :=
  t ← current_token;
  if decide (t = Left) then advance;; mret JoinType.Left
  else if decide (t = Right) then advance;; mret JoinType.Right
  else if decide (t = Full) then
    advance;;
    t ← current_token;
    (if decide (t = Outer) then advance else mret ());;
    mret JoinType.FullOuter
  else mret JoinType.Inner.
Definition parse_join_clause : P (JoinClause Expression) :=
  join_type ← parse_join_type;
  expect Join;;
  collection ← expect_identifier "Expected collection name after JOIN";
  expect On;;
  condition ← rec;
  mret (mkJoin join_type collection collection condition).

Definition parse_insert_clause : P (InsertClause Expression) :=
  expect Insert;;
  document ← rec;
  expect Into;;
  collection ← expect_identifier "Expected collection name after INTO";
  mret (mkInsert document collection).

(** An expression read with the operator IN switched off; the flag is set to
    true afterwards, whatever it was. *)
Definition without_in : P Expression :=
  set_allow_in false;;
  e ← rec;
  set_allow_in true;;
  mret e.
Definition parse_update_clause : P (UpdateClause Expression) :=
  expect Update;;
  selector ← rec;
  expect With;;
  changes ← without_in;
  expect In;;
  collection ← expect_identifier "Expected collection name after IN";
  mret (mkUpdate selector changes collection).
Definition parse_remove_clause : P (RemoveClause Expression) :=
  expect Remove;;
  selector ← without_in;
  expect In;;
  collection ← expect_identifier "Expected collection name after IN";
  mret (mkRemove selector collection).
Definition parse_upsert_clause : P (UpsertClause Expression) :=
  expect Upsert;;
  search ← without_in;
  expect Insert;;
  insert ← without_in;
  t ← current_token;
  replace ← (if decide (t = Replace) then advance;; mret true else expect Update;; mret false);
  update ← without_in;
  expect In;;
  collection ← expect_identifier "Expected collection name after IN";
  mret (mkUpsert search insert update collection replace).

(** COLLECT: group variables, as long as a name and [=] follow. *)
Fixpoint group_loop (fuel : nat) (vars : list (string * Expression)) : P (list (string * Expression)) :=
  match fuel with
  | O => out_of_fuel
  | S fuel' =>
      t ← current_token;
      t1 ← peek_token 1;
      match as_identifier t with
      | Some name =>
          if decide (t1 = Assign) then
            advance;;
            advance;;
            expr ← rec;
            t ← current_token;
            if decide (t = Comma) then advance;; group_loop fuel' (vars ++ [(name, expr)])
            else mret (vars ++ [(name, expr)])
          else mret vars
      | None => mret vars
      end
  end.
Definition parse_into_var : P (option string) :=
  t ← current_token;
  if decide (t = Into) then
    advance;; v ← expect_identifier "Expected variable name after INTO"; mret (Some v)
  else mret None.
Definition parse_count_var : P (option string) :=
  t ← current_token;
  if decide (t = With) then
    advance;;
    t ← current_token;
    (if decide (t = Count) then advance else parse_error "Expected COUNT after WITH in COLLECT");;
    t ← current_token;
    (if decide (t = Into) then advance else parse_error "Expected INTO after WITH COUNT");;
    v ← expect_identifier "Expected variable name after WITH COUNT INTO";
    mret (Some v)
  else mret None.
Definition parse_aggregate (var : string) : P (AggregateExpr Expression) :=
  advance;;
  expect Assign;;
  func ← expect_identifier "Expected aggregate function name";
  expect LeftParen;;
  t ← current_token;
  arg ← (if decide (t = RightParen) then mret None else e ← rec; mret (Some e));
  expect RightParen;;
  mret (mkAggregate var (to_uppercase func) arg).
Fixpoint aggregate_loop (fuel : nat) (aggs : list (AggregateExpr Expression)) :
    P (list (AggregateExpr Expression)) :=
  match fuel with
  | O => out_of_fuel
  | S fuel' =>
      t ← current_token;
      match as_identifier t with
      | Some var =>
          agg ← parse_aggregate var;
          t ← current_token;
          if decide (t = Comma) then advance;; aggregate_loop fuel' (aggs ++ [agg])
          else mret (aggs ++ [agg])
      | None => mret aggs
      end
  end.
Definition parse_aggregates : P (list (AggregateExpr Expression)) :=
  t ← current_token;
  if decide (t = Aggregate) then advance;; looping (λ fuel, aggregate_loop fuel []) else mret [].
Definition parse_collect_clause : P (CollectClause Expression) :=
  expect Collect;;
  group_vars ← looping (λ fuel, group_loop fuel []);
  into_var ← parse_into_var;
  count_var ← parse_count_var;
  aggregates ← parse_aggregates;
  mret (mkCollect group_vars into_var count_var aggregates).

(** Graphs *)

Definition direction_of (t : Token) : option EdgeDirection :=
  match t with
  | Outbound => Some EdgeDirection.Outbound
  | Inbound => Some EdgeDirection.Inbound
  | Any => Some EdgeDirection.Any
  | _ => None
  end.
Definition parse_direction (msg : string) : P EdgeDirection :=
  t ← current_token;
  match direction_of t with
  | Some d => advance;; mret d
  | None => parse_error msg
  end.
Definition as_integer (t : Token) : option Z := match t with Integer n => Some n | _ => None end.
(** [n as usize] *)
Definition as_usize (n : Z) : N := Z.to_N (n mod 2 ^ 64).
Definition parse_depth : P (N * N) :=
  t ← current_token;
  match as_integer t with
  | Some n =>
      advance;;
      t ← current_token;
      if decide (t = DotDot) then
        advance;;
        t ← current_token;
        match as_integer t with
        | Some m => advance;; mret (as_usize n, as_usize m)
        | None => parse_error "Expected integer after '..' in depth range"
        end
      else mret (as_usize n, as_usize n)
  | None => mret (1, 1)%N
  end.
Definition parse_graph_traversal_clause (vertex_var : string) (edge_var : option string) :
    P (GraphTraversalClause Expression) :=
  '(min_depth, max_depth) ← parse_depth;
  direction ← parse_direction "Expected OUTBOUND, INBOUND, or ANY after depth range";
  start_vertex ← rec;
  edge_collection ← expect_identifier "Expected edge collection name";
  mret (mkTraversal vertex_var edge_var direction start_vertex edge_collection min_depth max_depth).
Definition parse_shortest_path_clause (vertex_var : string) (edge_var : option string) :
    P (ShortestPathClause Expression) :=
  expect ShortestPath;;
  start_vertex ← rec;
  expect To;;
  end_vertex ← rec;
  direction ← parse_direction "Expected OUTBOUND, INBOUND, or ANY after target vertex";
  edge_collection ← expect_identifier "Expected edge collection name";
  mret (mkShortest vertex_var edge_var start_vertex end_vertex direction edge_collection).

Definition parse_sort_clause : P (SortClause Expression) :=
  expect Sort;;
  fields ← comma_separated (parse_sort_field rec);
  mret (mkSort fields).
Definition parse_limit_clause : P (LimitClause Expression) :=
  expect Limit;;
  first ← rec;
  t ← current_token;
  if decide (t = Comma) then advance;; count ← rec; mret (mkLimit first count)
  else mret (mkLimit (Expression.Literal (Json.Number (num_of_i64 0))) first).
Definition parse_return_clause : P (ReturnClause Expression) :=
  expect Return;;
  expression ← rec;
  mret (mkReturn expression).

(** ** Queries *)

Inductive ForOrGraph :=
| OfFor (c : ForClause Expression)
| OfTraversal (c : GraphTraversalClause Expression)
| OfShortest (c : ShortestPathClause Expression).

Definition is_direction (t : Token) : bool :=
  match direction_of t with Some _ => true | None => false end.
Definition is_number (t : Token) : bool :=
  match t with Integer _ | Float _ => true | _ => false end.
(** The look-ahead that tells a traversal from an expression. *)
Definition is_graph (s : Parser) : bool :=
  is_direction (token_at 0 s) ||
  is_number (token_at 0 s) &&
    (is_direction (token_at 1 s) ||
     bool_decide (token_at 1 s = DotDot) && is_number (token_at 2 s) && is_direction (token_at 3 s)).
Definition parse_second_var : P (option string) :=
  t ← current_token;
  if decide (t = Comma) then
    advance;; v ← expect_identifier "Expected variable name after comma"; mret (Some v)
  else mret None.
Definition parse_for_source (first_var : string) : P ForOrGraph :=
  t ← current_token;
  match as_identifier t with
  | Some n => advance;; mret (OfFor (mkFor first_var n (Some n) None))
  | None => expr ← rec; mret (OfFor (mkFor first_var "" None (Some expr)))
  end.
Definition try_parse_for_or_graph : P ForOrGraph :=
  expect For;;
  first_var ← expect_identifier "Expected variable name after FOR";
  second_var ← parse_second_var;
  expect In;;
  t ← current_token;
  if decide (t = ShortestPath) then
    c ← parse_shortest_path_clause first_var second_var;
    mret (OfShortest c)
  else
    graph ← (λ s, Done (is_graph s, s));
    if (graph : bool) then
      c ← parse_graph_traversal_clause first_var second_var;
      mret (OfTraversal c)
    else match second_var with
         | Some _ => parse_error "Second variable only allowed in graph traversals"
         | None => parse_for_source first_var
         end.

(** The start of a JOIN clause. *)
Definition is_join (t t1 : Token) : bool :=
  bool_decide (t = Join) || (bool_decide (t = Left) && bool_decide (t1 = Join)) ||
  (bool_decide (t = Right) && bool_decide (t1 = Join)) ||
  (bool_decide (t = Full) && (bool_decide (t1 = Join) || bool_decide (t1 = Outer))).

(** What one turn of the body loop adds: the clauses of the body, and those that
    are also kept apart. *)
Record Body := mkBody {
  b_for : list (ForClause Expression);
  b_filter : list (FilterClause Expression);
  b_body : list (BodyClause Expression);
}.
Definition push_body (b : Body) (cs : list (BodyClause Expression)) : Body :=
  mkBody (b_for b) (b_filter b) (b_body b ++ cs).
Definition push_for (b : Body) (c : ForOrGraph) : Body :=
  match c with
  | OfFor f => mkBody (b_for b ++ [f]) (b_filter b) (b_body b ++ [BodyClause.For f])
  | OfTraversal g => push_body b [BodyClause.GraphTraversal g]
  | OfShortest p => push_body b [BodyClause.ShortestPath p]
  end.
Definition body_step (b : Body) : P (option Body) :=
  t ← current_token;
  t1 ← peek_token 1;
  if decide (t = For) then c ← try_parse_for_or_graph; mret (Some (push_for b c))
  else if decide (t = Filter) then
    c ← parse_filter_clause;
    mret (Some (mkBody (b_for b) (b_filter b ++ [c]) (b_body b ++ [BodyClause.Filter c])))
  else if decide (t = Insert) then
    c ← parse_insert_clause; mret (Some (push_body b [BodyClause.Insert c]))
  else if decide (t = Update) then
    c ← parse_update_clause; mret (Some (push_body b [BodyClause.Update c]))
  else if decide (t = Remove) then
    c ← parse_remove_clause; mret (Some (push_body b [BodyClause.Remove c]))
  else if decide (t = Upsert) then
    c ← parse_upsert_clause; mret (Some (push_body b [BodyClause.Upsert c]))
  else if decide (t = Let) then
    cs ← parse_let_clause; mret (Some (push_body b (BodyClause.Let <$> cs)))
  else if decide (t = Collect) then
    c ← parse_collect_clause; mret (Some (push_body b [BodyClause.Collect c]))
  else if is_join t t1 then
    c ← parse_join_clause; mret (Some (push_body b [BodyClause.Join c]))
  else if decide (t = Window) then
    c ← parse_window_clause; mret (Some (push_body b [BodyClause.Window c]))
  else mret None.

Definition let_step (cs : list (LetClause Expression)) : P (option (list (LetClause Expression))) :=
  t ← current_token;
  if decide (t = Let) then more ← parse_let_clause; mret (Some (cs ++ more)) else mret None.

(** An optional clause, announced by its keyword. *)
Definition optional_clause {A} (keyword : Token) (clause : P A) : P (option A) :=
  t ← current_token;
  if decide (t = keyword) then c ← clause; mret (Some c) else mret None.

Definition parse_create : P (option CreateStreamClause * option (CreateMaterializedViewClause Query)) :=
  t ← current_token;
  if decide (t = Create) then
    t1 ← peek_token 1;
    if decide (t1 = Stream) then c ← parse_create_stream_clause; mret (Some c, None)
    else if decide (t1 = Materialized) then
      c ← parse_create_materialized_view_clause; mret (None, Some c)
    else parse_error "Expected STREAM or MATERIALIZED VIEW after CREATE"
  else mret (None, None).

Definition is_mutation (c : BodyClause Expression) : bool :=
  match c with
  | BodyClause.Insert _ | BodyClause.Update _ | BodyClause.Remove _ => true
  | _ => false
  end.
Definition window_of (cs : list (BodyClause Expression)) : option WindowClause :=
  head (omap (λ c, match c with BodyClause.Window w => Some w | _ => None end) cs).
Definition joins_of (cs : list (BodyClause Expression)) : list (JoinClause Expression) :=
  omap (λ c, match c with BodyClause.Join j => Some j | _ => None end) cs.

(** The validation of a top-level query. *)
Definition check_query (q : Query) : P () :=
  t ← current_token;
  if bool_decide (return_clause q = None) && negb (existsb is_mutation (body_clauses q)) &&
     bool_decide (create_stream_clause q = None) &&
     bool_decide (create_materialized_view_clause q = None) &&
     bool_decide (refresh_materialized_view_clause q = None)
  then
    if decide (t = Eof)
    then parse_error "Invalid query: missing RETURN clause or mutation (INSERT/UPDATE/REMOVE)"
    else parse_error ("Unexpected token: " +:+ token_debug t +:+
                      ". Expected FOR, LET, RETURN, INSERT, UPDATE, or REMOVE")
  else if decide (t = Eof) then mret ()
  else parse_error ("Unexpected token after query: " +:+ token_debug t).

(** What follows the body: SORT, LIMIT, RETURN and the checks. *)
Definition query_end (check_trailing : bool) (create_stream : option CreateStreamClause)
    (create_mv : option (CreateMaterializedViewClause Query))
    (refresh_mv : option RefreshMaterializedViewClause) (lets : list (LetClause Expression))
    (body : Body) : P Query :=
  sort ← optional_clause Sort parse_sort_clause;
  limit ← optional_clause Limit parse_limit_clause;
  return_ ← optional_clause Return parse_return_clause;
  let q := mkQuery lets (b_for body) (joins_of (b_body body)) (b_filter body) sort limit return_
             create_stream create_mv refresh_mv (window_of (b_body body)) (b_body body) in
  (if check_trailing then check_query q else mret ());;
  mret q.
Definition query_clauses (check_trailing : bool) : P Query :=
  '(create_stream, create_mv) ← parse_create;
  refresh_mv ← optional_clause Refresh parse_refresh_materialized_view_clause;
  lets ← iterate_from let_step [];
  body ← iterate_from body_step (mkBody [] [] []);
  query_end check_trailing create_stream create_mv refresh_mv lets body.

End Clauses.

(** ** The knot *)

Fixpoint parse_expression (fuel : nat) : P Expression :=
  match fuel with
  | O => out_of_fuel
  | S fuel' => parse_ternary_expression (parse_expression fuel') (parse_query fuel')
  end
with parse_query (fuel : nat) (check_trailing : bool) : P Query :=
  match fuel with
  | O => out_of_fuel
  | S fuel' => query_clauses (parse_expression fuel') (parse_query fuel') check_trailing
  end.

(** The fuel for an input: twice its length and some, see [parse_terminates]. *)
Definition parse_fuel (input : string) : nat := 2 * String.length input + 4.
Definition new (input : string) : outcome Parser :=
  tokens ← Lexer.tokenize input; Done (mkParser tokens true).
Definition parse (input : string) : outcome Query :=
  s ← new input;
  '(q, _) ← parse_query (parse_fuel input) true s;
  Done q.

End Parse.
End Parse.
