(* ===== verification/SdbqlTotal.v ===== *)
(** * SDBQL: parsing terminates

    The parser consumes its tokens: every function leaves a suffix of the tokens
    it was given, and a recursive call is made on fewer of them or on the text of
    a template string, which is shorter than the string. [halts] states that for a
    piece of the parser, its rules follow the structure of the code, and [halting]
    applies them. The second part shows that more fuel never changes an outcome
    that was reached. *)

From S2P Require Import Prelude Text Json Transaction Codec SdbqlLexer SdbqlAst SdbqlParser.
Import Token Cursor Parse.

(** ** Rules *)

Notation pweight s := (Lexer.weight (rest s)).

Definition knows (o : option Token) (s : Parser) : Prop :=
  match o with Some t => token_at 0 s = t | None => True end.
(** The one panic is a float token that is not a JSON number: [calm] parsers have
    none, and no template string with a text of [float_limit] bytes, long enough
    for one. *)
Class FloatOk := { float_ok : N → bool; float_limit : nat }.
Definition part_ok `{!FloatOk} (p : TemplatePart) : bool :=
  match p with TExpression e => String.length e <? float_limit | TLiteral _ => true end.
Definition token_ok `{!FloatOk} (t : Token) : bool :=
  match t with
  | Float f => float_ok f
  | TemplateString parts => forallb part_ok parts
  | _ => true
  end.
Definition calm `{!FloatOk} (s : Parser) : Prop := Forall (λ t, token_ok t = true) (rest s).
(** [r] is what running on [s] gave: the tokens left are a suffix, and of the
    tail if the result is one of those in [strict]; an error is a parse error. *)
Definition consumed `{!FloatOk} {A} (strict : A → bool) (s : Parser) (r : outcome (A * Parser)) : Prop :=
  match r with
  | Done (a, s') =>
      rest s' `suffix_of` rest s ∧
      (strict a = true → rest s ≠ [] ∧ rest s' `suffix_of` tail (rest s))
  | Fails e => is_parse_error e
  | Panics => ¬ calm s
  | OutOfFuel => False
  end.
(** [m] halts on parsers of weight below [n] whose current token is [o]. *)
Definition halts `{!FloatOk} {A} (n : nat) (o : option Token) (strict : A → bool) (m : P A) : Prop :=
  ∀ s, knows o s → pweight s < n → consumed strict s (m s).
Definition any {A} : A → bool := λ _, false.
Definition all {A} : A → bool := λ _, true.
Definition some {A} : option A → bool := λ o, match o with Some _ => true | None => false end.

Lemma weight_suffix l l' : l' `suffix_of` l → Lexer.weight l' ≤ Lexer.weight l.
Proof. intros [k ->]. unfold Lexer.weight. rewrite sum_list_with_app. lia. Qed.
Lemma weight_tail l l' : l ≠ [] → l' `suffix_of` tail l → Lexer.weight l' < Lexer.weight l.
Proof.
  destruct l as [|t l]; [done|]. intros _ H. apply weight_suffix in H. simpl in H.
  unfold Lexer.weight in *. simpl. pose proof (Lexer.token_weight_pos t). lia.
Qed.
Lemma suffix_tail {A} (l' l : list A) : l' `suffix_of` tail l → l' `suffix_of` l.
Proof. destruct l; [done|]. apply suffix_cons_r. Qed.
Lemma weight_pos l : l ≠ [] → 1 ≤ Lexer.weight l.
Proof.
  destruct l as [|t l]; [done|]. intros _. unfold Lexer.weight. simpl.
  pose proof (Lexer.token_weight_pos t). lia.
Qed.

Lemma calm_suffix `{!FloatOk} s s' : rest s' `suffix_of` rest s → calm s → calm s'.
Proof. intros [k Hk]. unfold calm. rewrite Hk, Forall_app. by intros [_ ?]. Qed.
Lemma not_calm_suffix `{!FloatOk} s s' : rest s' `suffix_of` rest s → ¬ calm s' → ¬ calm s.
Proof. intros Hs Hn Hc. by apply Hn, (calm_suffix s). Qed.

Section Rules.
Context `{float_ok_class : !FloatOk} {A B : Type}.
Implicit Types (m : P A) (k : A → P B) (n : nat) (o : option Token).

Lemma halts_le n n' o st m : halts n None st m → n' ≤ n → halts n' o st m.
Proof. intros H Hn s _ Hs. apply H; [done|lia]. Qed.
Lemma halts_forget n o st m : halts n None st m → halts n o st m.
Proof. intros H s _ Hs. by apply H. Qed.
Lemma halts_weaken n o st m : halts n o all m → halts n o st m.
Proof.
  intros H s Ho Hs. specialize (H s Ho Hs). unfold consumed in *.
  destruct (m s) as [[a s']| | |]; try done. destruct H as [? H]. split; [done|].
  intros _. by apply H.
Qed.
Lemma halts_any n o st m : halts n o st m → halts n o any m.
Proof.
  intros H s Ho Hs. specialize (H s Ho Hs). unfold consumed in *.
  destruct (m s) as [[a s']| | |]; try done. by destruct H.
Qed.
Lemma halts_ret n o (st : A → bool) a : st a = false → halts n o st (mret a).
Proof. intros Ha s _ _. split; [done|]. by rewrite Ha. Qed.
Lemma halts_error n o (st : A → bool) msg : halts n o st (parse_error msg).
Proof. by intros s _ _. Qed.

(** A part that may leave the tokens as they are. *)
Lemma halts_bind n o (st : B → bool) m k :
  halts n o any m → (∀ a, halts n None st (k a)) → halts n o st (m ≫= k).
Proof.
  intros Hm Hk s Ho Hs. specialize (Hm s Ho Hs). unfold mbind, P_bind, consumed in *.
  destruct (m s) as [[a s']| | |]; try done. destruct Hm as [Hs' _].
  pose proof (weight_suffix _ _ Hs'). specialize (Hk a s' I ltac:(lia)). unfold consumed in Hk.
  destruct (k a s') as [[b s'']| | |]; try done; [|by apply (not_calm_suffix s s')].
  destruct Hk as [Hk1 Hk2].
  split; [by etrans|]. intros Hb. destruct (Hk2 Hb) as [Hne Hk3].
  destruct Hs' as [l Hl]. rewrite Hl. destruct l as [|t l]; [by rewrite app_nil_l|].
  split; [done|]. cbn. apply suffix_app_r. by apply suffix_tail.
Qed.
(** A part that consumes a token. *)
Lemma halts_bind_strict n o (st : B → bool) m k :
  halts n o all m → (∀ a, halts (n - 1) None any (k a)) → halts n o st (m ≫= k).
Proof.
  intros Hm Hk s Ho Hs. specialize (Hm s Ho Hs). unfold mbind, P_bind, consumed in *.
  destruct (m s) as [[a s']| | |]; try done. destruct Hm as [_ Hm].
  destruct (Hm eq_refl) as [Hne Hs']. pose proof (weight_tail _ _ Hne Hs').
  specialize (Hk a s' I ltac:(lia)). unfold consumed in Hk.
  destruct (k a s') as [[b s'']| | |]; try done; [|by apply (not_calm_suffix s s'), Hk; apply suffix_tail].
  destruct Hk as [Hk _].
  assert (rest s'' `suffix_of` tail (rest s)) as Ht by (by etrans).
  split; [by apply suffix_tail|done].
Qed.
Lemma halts_current n o (st : A → bool) (k : Token → P A) :
  (∀ t, halts n (Some t) st (k t)) → halts n o st (current_token ≫= k).
Proof. intros H s _ Hs. by apply H. Qed.
Lemma halts_peek n o i (st : A → bool) (k : Token → P A) :
  (∀ t, halts n o st (k t)) → halts n o st (peek_token i ≫= k).
Proof. intros H s Ho Hs. by apply H. Qed.
Lemma halts_allow_in n o (st : A → bool) (k : bool → P A) :
  (∀ b, halts n o st (k b)) → halts n o st (allow_in ≫= k).
Proof. intros H s Ho Hs. by apply H. Qed.
End Rules.

Lemma not_eof_nonempty s t : knows (Some t) s → t ≠ Eof → rest s ≠ [].
Proof. unfold knows, token_at. intros <-. by destruct (rest s). Qed.
Section Primitives.
Context `{float_ok_class : !FloatOk}.
Lemma halts_advance n t : t ≠ Eof → halts n (Some t) all advance.
Proof.
  intros Ht s Ho Hs. unfold consumed, advance. cbn. split; [by apply suffix_tail|]. intros _.
  split; [by eapply not_eof_nonempty|done].
Qed.
Lemma halts_advance_any n o : halts n o any advance.
Proof. intros s _ _. split; [by apply suffix_tail|done]. Qed.
Lemma halts_set_allow n o b : halts n o any (set_allow_in b).
Proof. by intros s _ _. Qed.
Lemma halts_expect `{!TokenDebug} n o t : t ≠ Eof → halts n o all (expect t).
Proof.
  intros Ht. unfold expect. apply halts_current. intros t'. case_decide; [subst|apply halts_error].
  by apply halts_advance.
Qed.
Lemma as_identifier_not_eof t name : as_identifier t = Some name → t ≠ Eof.
Proof. by intros H ->. Qed.
Lemma halts_expect_identifier n o msg : halts n o all (expect_identifier msg).
Proof.
  apply halts_current. intros t. destruct (as_identifier t) eqn:E; [|apply halts_error].
  eapply halts_bind_strict; [by eapply halts_advance, as_identifier_not_eof|]. intros _. by apply halts_ret.
Qed.
Lemma halts_expect_string n o msg : halts n o all (expect_string msg).
Proof.
  apply halts_current. intros t. destruct (as_string t) eqn:E; [|apply halts_error].
  eapply halts_bind_strict; [apply halts_advance; by intros ->|]. intros _. by apply halts_ret.
Qed.

Lemma halts_looping {A} n o (st : A → bool) (body : nat → P A) :
  (∀ fuel, halts (min fuel n) None st (body fuel)) → halts n o st (looping body).
Proof. intros H s _ Hs. unfold looping. apply H; [done|lia]. Qed.
(** The lower bound of a loop that has taken a turn. *)
Lemma halts_turn {A} fuel n n' o (st : A → bool) m :
  halts (min fuel n) None st m → n' ≤ min (S fuel) n - 1 → halts n' o st m.
Proof. intros H Hn. eapply halts_le; [exact H|lia]. Qed.
Lemma halts_out {A} o (st : A → bool) n : halts (min 0 n) o st out_of_fuel.
Proof. intros s _ Hs. lia. Qed.

Lemma halts_iterate_fuel {A} n (step : A → P (option A)) :
  (∀ x, halts n None some (step x)) → ∀ fuel x, halts (min fuel n) None any (iterate step fuel x).
Proof.
  intros Hstep fuel. induction fuel as [|fuel IH]; intros x; [apply halts_out|]. cbn [iterate].
  intros s Hk Hs. specialize (Hstep x s I ltac:(lia)). unfold mbind, P_bind, consumed in *.
  destruct (step x s) as [[[x'|] s']| | |]; try done. destruct Hstep as [Hs' Hstrict].
  destruct (Hstrict eq_refl) as [Hne Ht]. pose proof (weight_tail _ _ Hne Ht).
  specialize (IH x' s' I ltac:(lia)). unfold consumed in IH.
  destruct (iterate step fuel x' s') as [[r s'']| | |]; try done; [|by apply (not_calm_suffix s s')].
  destruct IH as [IH _]. split; [by etrans|done].
Qed.
Lemma halts_iterate {A} n (step : A → P (option A)) :
  (∀ x, halts n None some (step x)) → ∀ x o, halts n o any (iterate_from step x).
Proof. intros Hstep x o. apply halts_looping. intros fuel. by apply halts_iterate_fuel. Qed.
End Primitives.

(** ** The rules as a tactic *)

Create HintDb halting.
#[export] Hint Constants Opaque : halting.
#[export] Hint Resolve halts_advance_any halts_set_allow halts_expect_identifier
  halts_expect_string : halting.
#[export] Hint Extern 0 (_ ≤ _) => lia : halting.
#[export] Hint Extern 1 (halts _ _ all (expect _)) => apply halts_expect; discriminate : halting.
#[export] Hint Extern 3 (halts _ _ any _) => apply halts_weaken : halting.
#[export] Hint Extern 3 (halts _ _ some _) => apply halts_weaken : halting.
#[export] Hint Extern 2 (halts _ (Some _) all advance) =>
  apply halts_advance; let H := fresh in (intros H; subst; simpl in *; discriminate) : halting.

Ltac halting_leaf :=
  first [ solve [eauto 4 with halting nocore]
        | eapply halts_turn; [solve [eauto 2]|lia]
        | eapply halts_le; [solve [eauto 2]|lia] ].
Ltac halting_step :=
  lazymatch goal with
  | |- ∀ _, _ => intros ?
  | |- halts _ _ _ (mret _) => apply halts_ret; reflexivity
  | |- halts _ _ _ (parse_error _) => apply halts_error
  | |- halts _ _ _ (current_token ≫= _) => apply halts_current; intros ?
  | |- halts _ _ _ (peek_token _ ≫= _) => apply halts_peek; intros ?
  | |- halts _ _ _ (allow_in ≫= _) => apply halts_allow_in; intros ?
  | |- halts _ _ _ (if decide _ then _ else _) => case_decide; subst
  | |- halts _ _ _ (match ?x with _ => _ end) => destruct x eqn:?
  | |- halts _ _ _ (_ ≫= _) =>
      first [ eapply halts_bind_strict; [solve [halting_all]|intros ?]
            | eapply halts_bind; [solve [halting_all]|intros ?] ]
  | |- halts _ _ _ _ => halting_leaf
  end
with halting_all := repeat halting_step.
Tactic Notation "halting" := halting_all.

(** ** Loops over items *)

Section ItemLoops.
Context `{float_ok_class : !FloatOk}.
Lemma halts_comma_separated {A} n o (item : P A) :
  halts n None any item → halts n o any (comma_separated item).
Proof.
  intros Hitem. apply halts_looping. intros fuel. generalize (@nil A).
  induction fuel as [|fuel IH]; intros items; [apply halts_out|]. cbn [comma_loop].
  halting.
Qed.
Lemma halts_until `{!TokenDebug} {A} n o closer (item : P A) :
  closer ≠ Eof → halts n None any item → halts n o all (items_until closer item).
Proof.
  intros Hc Hitem. unfold items_until.
  assert (halts n o any (looping (λ fuel, until_loop closer item fuel []))) as Hloop.
  { apply halts_looping. intros fuel. generalize (@nil A).
    induction fuel as [|fuel IH]; intros items; [apply halts_out|]. cbn [until_loop]. halting. }
  eapply halts_bind; [exact Hloop|]. intros items.
  eapply halts_bind_strict; [by apply halts_expect|]. intros _. by apply halts_ret.
Qed.
End ItemLoops.
#[export] Hint Extern 1 (halts _ _ all (items_until _ _)) => apply halts_until; [discriminate|] : halting.
#[export] Hint Resolve halts_comma_separated : halting.

(** ** Expressions *)

Section Halting.
Context {Num : Type} `{json_number : !JsonNumber Num} `{json_text : !JsonText Num}.
Context `{char_tables : !CharTables} `{float_text : !FloatText} `{token_show : !TokenDebug}.
Context `{char_laws : !CharTablesLaws} `{float_ok_class : !FloatOk}.
Context (Hfloat : ∀ f, num_of_f64 (Num:=Num) f = None → float_ok f = false).
Context (Htext : ∀ s f, Lexer.decimal_text s → String.length s < float_limit → parse_f64 s = Some f → float_ok f = true).
Notation Expression := (Expression Num).
Notation Query := (Query Expression).
Context (rec : P Expression) (recq : bool → P Query) (N : nat).
Context (Hrec : halts N None any rec) (Hrecq : ∀ b, halts (S N) None any (recq b)).
Implicit Types (n : nat) (o : option Token).

Lemma halts_rec n o : n ≤ N → halts n o any rec.
Proof. intros. by eapply halts_le. Qed.
#[local] Hint Resolve halts_rec : halting.

Lemma halts_args n o : n ≤ N → halts n o all (parse_function_call_args rec).
Proof. intros. unfold parse_function_call_args. halting. Qed.
Lemma halts_object_key n o : halts n o all parse_object_key.
Proof. unfold parse_object_key. halting. Qed.
#[local] Hint Resolve halts_args halts_object_key : halting.

Lemma halts_lambda_params n o : halts n o any parse_lambda_params.
Proof. unfold parse_lambda_params. halting. Qed.
#[local] Hint Resolve halts_lambda_params : halting.
Lemma halts_lambda n o : n ≤ S N → halts n o all (parse_lambda_expression rec).
Proof. intros. unfold parse_lambda_expression. halting. Qed.
Lemma halts_when n o : n ≤ S N → halts n o some (parse_when_clause rec).
Proof. intros. unfold parse_when_clause. halting. Qed.
Lemma halts_push_when n o cs : n ≤ S N → halts n o some (push_when rec cs).
Proof.
  intros Hn s Ho Hs. pose proof (halts_when n o Hn s Ho Hs) as H.
  unfold push_when, mbind, P_bind, consumed in *.
  destruct (parse_when_clause rec s) as [[[c|] s']| | |]; done.
Qed.
Lemma halts_case n : n ≤ S N → halts n (Some Case) all (parse_case_expression rec).
Proof.
  intros. unfold parse_case_expression. eapply halts_bind_strict; [halting|]. intros _.
  apply halts_current. intros t. eapply halts_bind; [halting|]. intros operand.
  eapply halts_bind; [apply halts_iterate; intros; apply halts_push_when; lia|]. intros cs.
  halting.
Qed.
Lemma halts_expect_by n o msg : halts n o all (expect_by msg).
Proof. unfold expect_by. halting. Qed.
#[local] Hint Resolve halts_lambda halts_expect_by : halting.
Lemma halts_partition n o : n ≤ S N → halts n o any (parse_partition_by rec).
Proof.
  intros. unfold parse_partition_by. apply halts_current. intros t. case_decide; [subst|halting].
  eapply halts_bind_strict; [halting|]. intros _. eapply halts_bind; [halting|]. intros _.
  apply halts_looping. intros fuel. generalize (@nil Expression).
  induction fuel as [|fuel IH]; intros items; [apply halts_out|]. cbn [partition_loop]. halting.
Qed.
Lemma halts_sort_field n o : n ≤ N → halts n o any (parse_sort_field rec).
Proof. intros. unfold parse_sort_field. halting. Qed.
#[local] Hint Resolve halts_sort_field : halting.
Lemma halts_order n o : n ≤ S N → halts n o any (parse_order_by rec).
Proof. intros. unfold parse_order_by. halting. Qed.
#[local] Hint Resolve halts_partition halts_order : halting.
Lemma halts_window_function n o f args : n ≤ S N → halts n o all (parse_window_function rec f args).
Proof. intros. unfold parse_window_function, parse_window_spec. halting. Qed.
#[local] Hint Resolve halts_window_function : halting.
Lemma halts_call n o name : n ≤ N → halts n o all (parse_call rec name).
Proof. intros. unfold parse_call. halting. Qed.
#[local] Hint Resolve halts_call : halting.
Lemma halts_keyword n t name : t ≠ Eof → n ≤ S N → halts n (Some t) all (parse_keyword_as_function rec name).
Proof.
  intros. unfold parse_keyword_as_function. eapply halts_bind_strict; [by apply halts_advance|].
  halting.
Qed.
Lemma halts_keyword_no_window n t name msg :
  t ≠ Eof → n ≤ S N → halts n (Some t) all (parse_keyword_as_function_no_window rec name msg).
Proof.
  intros. unfold parse_keyword_as_function_no_window.
  eapply halts_bind_strict; [by apply halts_advance|]. halting.
Qed.
Lemma halts_quantifier n name : n ≤ S N → halts n (Some Any) all (parse_quantifier_expression rec name).
Proof. intros. unfold parse_quantifier_expression. halting. Qed.
Lemma halts_object n o : n ≤ S N → halts n o all (parse_object_expression rec).
Proof.
  intros. unfold parse_object_expression.
  assert (halts (n - 1) None any (parse_object_field rec)) by (unfold parse_object_field; halting).
  halting.
Qed.
Lemma halts_array n o : n ≤ S N → halts n o all (parse_array_expression rec).
Proof. intros. unfold parse_array_expression. halting. Qed.

(** A text without room for a float that is too large. *)
Lemma token_ok_short ts n :
  n < float_limit → Forall (Lexer.float_from n) ts → Lexer.weight ts ≤ n →
  Forall (λ t, token_ok t = true) ts.
Proof.
  intros Hn Hf. induction Hf as [|t ts Ht _ IH]; intros Hw; [constructor|].
  unfold Lexer.weight in Hw. simpl in Hw. fold (Lexer.weight ts) in Hw.
  constructor; [|apply IH; lia]. destruct t; try done.
  - cbn in Ht. destruct Ht as (num & Hl & Hd & Hp). eapply Htext; [exact Hd| |exact Hp]. lia.
  - cbn in *. assert (Lexer.parts_weight parts ≤ n) as Hp by lia. clear -Hn Hp.
    induction parts as [|p parts IH]; [done|]. unfold Lexer.parts_weight in *. simpl in *.
    apply andb_true_iff. split; [|apply IH; lia]. destruct p; [done|]. cbn in *.
    apply Nat.ltb_lt. lia.
Qed.
(** The text of an interpolation weighs less than its template string. *)
Lemma template_parts_run parts acc s :
  Lexer.parts_weight parts < N →
  match parse_template_parts rec parts acc s with
  | Done (_, s') => s' = s
  | Fails e => is_parse_error e
  | Panics => forallb part_ok parts = false
  | OutOfFuel => False
  end.
Proof.
  revert acc. induction parts as [|p parts IH]; intros acc Hw; cbn [parse_template_parts]; [done|].
  unfold Lexer.parts_weight in *. simpl in Hw. unfold mbind, P_bind.
  destruct p as [l|e]; cbn [parse_template_part forallb part_ok]; [apply IH; lia|].
  pose proof (Lexer.tokenize_weight e) as Ht. cbn in Hw.
  destruct (Lexer.tokenize e) as [r| | |]; try done. destruct Ht as (ts & -> & _ & Hts & Hf).
  cbn [mbind outcome_mbind outcome_bind].
  assert (pweight (mkParser (ts ++ [Eof]) true) < N) as Hs.
  { cbn. unfold Lexer.weight in *. rewrite sum_list_with_app. simpl. lia. }
  specialize (Hrec _ I Hs). unfold consumed in Hrec.
  destruct (rec (mkParser (ts ++ [Eof]) true)) as [[x s']| | |]; try done.
  - specialize (IH (acc ++ [TemplateStringPart.Expression x]) ltac:(lia)).
    cbn. destruct (parse_template_parts rec parts (acc ++ [TemplateStringPart.Expression x]) s)
      as [[??]| | |]; [done|done| |done]. by rewrite IH, andb_false_r.
  - destruct (Nat.ltb_spec (String.length e) float_limit); [|done]. exfalso. apply Hrec.
    unfold calm. cbn. apply Forall_app. split; [|by repeat constructor].
    by apply (token_ok_short ts (String.length e)).
Qed.
Lemma halts_template n parts :
  n ≤ S N → halts n (Some (TemplateString parts)) all (advance;; parse_template_string rec parts).
Proof.
  intros Hn s Ho Hs. unfold knows, token_at in Ho. unfold mbind, P_bind, advance, consumed, calm.
  destruct (rest s) as [|t ts] eqn:Hrest; [done|]. simpl in Ho. subst t.
  unfold Lexer.weight in Hs. simpl in Hs. unfold parse_template_string, mbind, P_bind.
  pose proof (template_parts_run parts [] (mkParser ts (allow_in_operator s)) ltac:(lia)) as Hrun.
  cbn [tail rest]. destruct (parse_template_parts rec parts [] _) as [[ps s']| | |]; try done.
  - subst s'. cbn. split; [by apply suffix_cons_r|done].
  - intros Hc. apply Forall_cons in Hc as [Hc _]. cbn in Hc. congruence.
Qed.
Lemma halts_parenthesized n : n ≤ S N → halts n (Some LeftParen) all (parse_parenthesized_expression rec recq).
Proof.
  intros Hn s Ho Hs. unfold parse_parenthesized_expression, is_lambda_params.
  unfold mbind at 1, P_bind at 1. destruct (lambda_scan 1 (tail (rest s))).
  { by apply (halts_lambda n (Some LeftParen)). }
  revert s Ho Hs. change (halts n (Some LeftParen) all
    (advance;; t ← current_token;
     if decide (t = For ∨ t = Let)
     then subquery ← recq false; expect RightParen;; mret (Expression.Subquery subquery)
     else expr ← rec; expect RightParen;; mret expr)).
  assert (∀ m o b, m ≤ S N → halts m o any (recq b)) by (intros; by eapply halts_le).
  halting.
Qed.
(** An unparenthesised subquery is read at the same position. *)
Context (Hrecq_strict : ∀ b n t, n ≤ S N → t = For ∨ t = Let → halts n (Some t) all (recq b)).
Lemma halts_identifier n name : n ≤ S N →
  halts n (Some (Identifier name)) all (parse_identifier_expression rec name).
Proof. intros. unfold parse_identifier_expression. halting. Qed.
Lemma halts_float n f : halts n (Some (Float f)) all (parse_float (Num:=Num) f).
Proof.
  intros s Ho Hs. unfold parse_float, mbind, P_bind, advance. unfold knows, token_at in Ho.
  destruct (rest s) as [|t ts] eqn:Hrest; [done|]. simpl in Ho. subst t. unfold consumed, calm.
  rewrite Hrest. destruct (num_of_f64 f) eqn:Hn; cbn.
  - split; [by apply suffix_cons_r|done].
  - intros Hc. apply Forall_cons in Hc as [Hc _]. cbn in Hc. apply Hfloat in Hn. congruence.
Qed.
Lemma halts_primary n o : n ≤ S N → halts n o all (parse_primary_expression rec recq).
Proof.
  intros Hn. apply halts_current. intros t. unfold literal, parse_unparenthesized_subquery.
  destruct t; try apply halts_error; try solve [halting].
  1,2: eapply halts_bind_strict; [apply Hrecq_strict; auto|]; halting.
  - by apply halts_keyword.
  - by apply halts_quantifier.
  - by apply halts_case.
  - by apply halts_keyword_no_window.
  - by apply halts_keyword_no_window.
  - by apply halts_identifier.
  - by apply halts_float.
  - by apply halts_template.
  - by apply halts_object.
  - by apply halts_array.
  - by apply halts_parenthesized.
Qed.
#[local] Hint Resolve halts_primary : halting.

Lemma halts_bracket n base : n ≤ S N → halts n (Some LeftBracket) all (parse_bracket_access rec base).
Proof.
  intros. unfold parse_bracket_access, parse_array_spread_access.
  assert (∀ m o, halts m o any (looping (λ fuel, path_loop fuel ""))).
  { intros m o. apply halts_looping. intros fuel. generalize "".
    induction fuel as [|fuel IH]; intros path; [apply halts_out|]. cbn [path_loop]. halting. }
  halting.
Qed.
Lemma halts_postfix_step n o e : n ≤ S N → halts n o some (postfix_step rec e).
Proof.
  intros. unfold postfix_step. pose proof (halts_bracket n e).
  unfold parse_field_access, parse_optional_field_access, get_field_name. halting.
Qed.
Lemma halts_postfix n o : n ≤ S N → halts n o all (parse_postfix_expression rec recq).
Proof.
  intros. unfold parse_postfix_expression. eapply halts_bind_strict; [halting|]. intros e.
  apply halts_iterate. intros x. apply halts_postfix_step. lia.
Qed.
#[local] Hint Resolve halts_postfix : halting.

(** The precedence chain. *)
Lemma halts_unary n o : n ≤ S N → halts n o all (parse_unary_expression rec recq).
Proof.
  intros Hn. apply halts_looping. intros fuel.
  induction fuel as [|fuel IH]; [apply halts_out|]. cbn [unary_loop].
  apply halts_any in IH. halting.
Qed.
Lemma halts_left_associative n o (operator : P (option BinaryOperator)) (operand : P Expression) :
  halts n None some operator → halts n None all operand → halts n o all (left_associative operator operand).
Proof.
  intros Hop He. unfold left_associative. eapply halts_bind_strict; [by apply halts_forget|].
  intros left. apply halts_iterate. intros x s _ Hs. unfold binary_step.
  specialize (Hop s I ltac:(lia)). unfold mbind, P_bind, consumed in *.
  destruct (operator s) as [[[op|] s1]| | |]; try done.
  destruct Hop as [Hs1 Hop]. destruct (Hop eq_refl) as [Hne Ht].
  pose proof (weight_tail _ _ Hne Ht). specialize (He s1 I ltac:(lia)). unfold consumed in He.
  destruct (operand s1) as [[e s2]| | |]; try done; [|by apply (not_calm_suffix s s1)]. destruct He as [He _].
  split; [by etrans|]. intros _. split; [done|by etrans].
Qed.
Lemma halts_operator n o f : f Eof = None → halts n o some (parse_operator f).
Proof.
  intros Hf. unfold parse_operator. apply halts_current. intros t. destruct (f t) eqn:E; [|halting].
  eapply halts_bind_strict; [apply halts_advance; congruence|]. halting.
Qed.
Lemma halts_comparison_operator n o : halts n o some parse_comparison_operator.
Proof.
  apply halts_current. intros t. destruct t; try solve [halting].
  unfold parse_negated_operator. apply halts_peek. intros t'. destruct t'; solve [halting].
Qed.
#[local] Hint Resolve halts_unary halts_operator halts_comparison_operator : halting.
Ltac level := apply halts_left_associative; [by auto with halting|auto with halting].
Lemma halts_multiplicative n o : n ≤ S N → halts n o all (parse_multiplicative_expression rec recq).
Proof. intros. level. Qed.
#[local] Hint Resolve halts_multiplicative : halting.
Lemma halts_additive n o : n ≤ S N → halts n o all (parse_additive_expression rec recq).
Proof. intros. level. Qed.
#[local] Hint Resolve halts_additive : halting.
Lemma halts_shift n o : n ≤ S N → halts n o all (parse_shift_expression rec recq).
Proof. intros. level. Qed.
#[local] Hint Resolve halts_shift : halting.
Lemma halts_range n o : n ≤ S N → halts n o all (parse_range_expression rec recq).
Proof. intros. unfold parse_range_expression. halting. Qed.
#[local] Hint Resolve halts_range : halting.
Lemma halts_comparison n o : n ≤ S N → halts n o all (parse_comparison_expression rec recq).
Proof. intros. level. Qed.
#[local] Hint Resolve halts_comparison : halting.
Lemma halts_bitwise_and n o : n ≤ S N → halts n o all (parse_bitwise_and_expression rec recq).
Proof. intros. level. Qed.
#[local] Hint Resolve halts_bitwise_and : halting.
Lemma halts_bitwise_xor n o : n ≤ S N → halts n o all (parse_bitwise_xor_expression rec recq).
Proof. intros. level. Qed.
#[local] Hint Resolve halts_bitwise_xor : halting.
Lemma halts_bitwise_or n o : n ≤ S N → halts n o all (parse_bitwise_or_expression rec recq).
Proof. intros. level. Qed.
#[local] Hint Resolve halts_bitwise_or : halting.
Lemma halts_and n o : n ≤ S N → halts n o all (parse_and_expression rec recq).
Proof. intros. level. Qed.
#[local] Hint Resolve halts_and : halting.
Lemma halts_or n o : n ≤ S N → halts n o all (parse_or_expression rec recq).
Proof. intros. level. Qed.
#[local] Hint Resolve halts_or : halting.
Lemma halts_pipeline_step n o e : n ≤ S N → halts n o some (pipeline_step rec e).
Proof. intros. unfold pipeline_step, parse_pipeline_function_name. halting. Qed.
Lemma halts_pipeline n o : n ≤ S N → halts n o all (parse_pipeline_expression rec recq).
Proof.
  intros. unfold parse_pipeline_expression. eapply halts_bind_strict; [halting|]. intros e.
  apply halts_iterate. intros x. apply halts_pipeline_step. lia.
Qed.
#[local] Hint Resolve halts_pipeline : halting.
Lemma halts_logical_or n o : n ≤ S N → halts n o all (parse_logical_or_expression rec recq).
Proof. intros. level. Qed.
#[local] Hint Resolve halts_logical_or : halting.
Lemma halts_null_coalesce n o : n ≤ S N → halts n o all (parse_null_coalesce_expression rec recq).
Proof. intros. level. Qed.
#[local] Hint Resolve halts_null_coalesce : halting.
Lemma halts_ternary n o : n ≤ S N → halts n o all (parse_ternary_expression rec recq).
Proof. intros. unfold parse_ternary_expression. halting. Qed.

(** Clauses. *)
#[local] Hint Extern 1 (halts _ _ some _) => apply halts_weaken : halting.
Lemma halts_let n o : n ≤ S N → halts n o all (parse_let_clause rec).
Proof.
  intros. unfold parse_let_clause.
  assert (halts (n - 1) None any (let_binding rec)) by (unfold let_binding; halting). halting.
Qed.
Lemma halts_window_clause n o : halts n o all parse_window_clause.
Proof. unfold parse_window_clause. halting. Qed.
Lemma halts_join n o : n ≤ S N → halts n o all (parse_join_clause rec).
Proof. intros. unfold parse_join_clause, parse_join_type. halting. Qed.
Lemma halts_without_in n o : n ≤ N → halts n o any (without_in rec).
Proof. intros. unfold without_in. halting. Qed.
#[local] Hint Resolve halts_let halts_window_clause halts_join halts_without_in : halting.
Lemma halts_collect n o : n ≤ S N → halts n o all (parse_collect_clause rec).
Proof.
  intros. unfold parse_collect_clause, parse_into_var, parse_count_var, parse_aggregates.
  assert (∀ m o, m ≤ N → halts m o any (looping (λ fuel, group_loop rec fuel []))) as Hgroup.
  { intros m o' Hm. apply halts_looping. intros fuel. generalize (@nil (string * Expression)).
    induction fuel as [|fuel IH]; intros vs; [apply halts_out|]. cbn [group_loop]. halting. }
  assert (∀ m o, m ≤ N → halts m o any (looping (λ fuel, aggregate_loop rec fuel []))) as Hagg.
  { intros m o' Hm. apply halts_looping. intros fuel. generalize (@nil (AggregateExpr Expression)).
    induction fuel as [|fuel IH]; intros vs; [apply halts_out|]. cbn [aggregate_loop].
    unfold parse_aggregate. halting. }
  halting.
Qed.
Lemma halts_for n o : n ≤ S N → halts n o all (try_parse_for_or_graph rec).
Proof.
  intros. unfold try_parse_for_or_graph, parse_shortest_path_clause, parse_graph_traversal_clause,
    parse_depth, parse_direction, parse_second_var, parse_for_source.
  assert (∀ m o, halts m o any (λ s, Done (is_graph s, s))) by (by intros m o' s _ _).
  halting.
Qed.
#[local] Hint Resolve halts_collect halts_for : halting.
Lemma halts_body_step n o b : n ≤ S N → halts n o some (body_step rec b).
Proof.
  intros. unfold body_step, parse_filter_clause, parse_insert_clause, parse_update_clause,
    parse_remove_clause, parse_upsert_clause. halting.
Qed.
End Halting.

(** ** Queries *)

Section Skipping.
Context `{float_ok_class : !FloatOk}.
(** A part that does nothing in front of the token [t]. *)
Definition skips {A} (t : Token) (m : P A) (a : A) : Prop :=
  ∀ s, knows (Some t) s → m s = Done (a, s).
Lemma halts_bind_skip {A B} n t (st : B → bool) (m : P A) a (k : A → P B) :
  skips t m a → halts n (Some t) st (k a) → halts n (Some t) st (m ≫= k).
Proof. intros Hm Hk s Ho Hs. unfold mbind, P_bind. rewrite (Hm s Ho). by apply Hk. Qed.
Lemma halts_current_known {A} n t (st : A → bool) (k : Token → P A) :
  halts n (Some t) st (k t) → halts n (Some t) st (current_token ≫= k).
Proof. intros H s Ho Hs. unfold mbind, P_bind, current_token. rewrite Ho. by apply H. Qed.
Lemma skips_iterate {A} t (step : A → P (option A)) x :
  skips t (step x) None → skips t (iterate_from step x) x.
Proof.
  intros H s Hs. unfold iterate_from, looping. cbn [iterate]. unfold mbind, P_bind. by rewrite (H s Hs).
Qed.
Lemma skips_optional {A} t keyword (clause : P A) : t ≠ keyword → skips t (optional_clause keyword clause) None.
Proof.
  intros Ht s Hs. unfold optional_clause, mbind, P_bind, current_token.
  rewrite Hs. by rewrite decide_False.
Qed.
(** A loop whose first turn consumes. *)
Lemma halts_iterate_first {A} n t (step : A → P (option A)) x :
  (∀ x, halts n None some (step x)) → halts n (Some t) all (step x) →
  halts n (Some t) all (iterate_from step x).
Proof.
  intros Hstep Hx s Ho Hs. unfold iterate_from, looping. cbn [iterate].
  specialize (Hx s Ho Hs). unfold mbind, P_bind, consumed in *.
  destruct (step x s) as [[[x'|] s']| | |]; try done. destruct Hx as [Hs' Hx].
  destruct (Hx eq_refl) as [Hne Ht]. pose proof (weight_tail _ _ Hne Ht).
  pose proof (halts_iterate_fuel n step Hstep (pweight s) x' s' I ltac:(lia)) as Hit.
  unfold consumed in Hit. destruct (iterate step (pweight s) x' s') as [[r s'']| | |]; try done;
    [|by apply (not_calm_suffix s s')].
  destruct Hit as [Hit _]. assert (rest s'' `suffix_of` tail (rest s)) by (by etrans).
  split; [by apply suffix_tail|done].
Qed.
End Skipping.

Section Queries.
Context {Num : Type} `{json_number : !JsonNumber Num} `{json_text : !JsonText Num}.
Context `{char_tables : !CharTables} `{float_text : !FloatText} `{token_show : !TokenDebug}.
Context `{float_ok_class : !FloatOk}.
Notation Expression := (Expression Num).
Notation Query := (Query Expression).
Context (rec : P Expression) (recq : bool → P Query) (N : nat).
Context (Hrec : halts N None any rec) (Hrecq : ∀ b, halts N None any (recq b)).

Lemma halts_create n o : n ≤ S N → halts n o any (parse_create recq).
Proof.
  intros. unfold parse_create, parse_create_stream_clause, parse_create_materialized_view_clause.
  assert (∀ m o b, m ≤ N → halts m o any (recq b)) by (intros; by eapply halts_le). halting.
Qed.
Lemma halts_optional {A} n o keyword (clause : P A) :
  halts n None any clause → halts n o any (optional_clause keyword clause).
Proof. intros. unfold optional_clause. halting. Qed.
Lemma halts_let_step n o cs : n ≤ S N → halts n o some (let_step rec cs).
Proof. intros. unfold let_step. pose proof (halts_let rec N Hrec). halting. Qed.
Lemma halts_check n o (q : Query) : halts n o any (check_query q).
Proof. unfold check_query. halting. Qed.

Lemma halts_query_end n o b cs cv r lets body :
  n ≤ S N → halts n o any (query_end rec b cs cv r lets body).
Proof.
  intros Hn. pose proof (halts_sort_field rec N Hrec) as Hsort. unfold query_end.
  assert (∀ m o, m ≤ N → halts m o any rec) as Hr by (intros; by eapply halts_le).
  eapply halts_bind; [apply halts_optional; unfold parse_sort_clause; halting|intros sort].
  eapply halts_bind; [apply halts_optional; unfold parse_limit_clause; halting|intros limit].
  eapply halts_bind; [apply halts_optional; unfold parse_return_clause; halting|intros ret].
  pose proof halts_check. halting.
Qed.
Lemma halts_body n o b : n ≤ S N → halts n o any (iterate_from (body_step rec) b).
Proof. intros Hn. apply halts_iterate. intros. by apply (halts_body_step rec N Hrec). Qed.
Lemma halts_query n o b : n ≤ S N → halts n o any (query_clauses rec recq b).
Proof.
  intros Hn. unfold query_clauses.
  eapply halts_bind; [by apply halts_create|intros [cs cv]].
  eapply halts_bind; [apply halts_optional; unfold parse_refresh_materialized_view_clause; halting|intros r].
  eapply halts_bind; [apply halts_iterate; intros; by apply halts_let_step|intros lets].
  eapply halts_bind; [by apply halts_body|intros body]. by apply halts_query_end.
Qed.
(** In front of FOR or LET a query consumes. *)
Lemma halts_query_strict n t b :
  n ≤ S N → t = For ∨ t = Let → halts n (Some t) all (query_clauses rec recq b).
Proof.
  intros Hn Ht. unfold query_clauses.
  eapply (halts_bind_skip _ _ _ _ (None, None)).
  { intros s Hs. unfold parse_create, mbind, P_bind, current_token. rewrite Hs.
    rewrite decide_False; [done|]. by destruct Ht as [-> | ->]. }
  eapply halts_bind_skip; [apply skips_optional; by destruct Ht as [-> | ->]|].
  destruct Ht as [-> | ->].
  - eapply halts_bind_skip.
    { apply skips_iterate. intros s Hs. unfold let_step, mbind, P_bind, current_token. by rewrite Hs. }
    eapply halts_bind_strict; [|intros body; apply halts_query_end; lia].
    apply halts_iterate_first; [intros; by apply (halts_body_step rec N Hrec)|].
    unfold body_step. apply halts_current_known, halts_peek. intros t1. rewrite decide_True by done.
    pose proof (halts_for rec N Hrec). halting.
  - eapply halts_bind_strict.
    + apply halts_iterate_first; [intros; by apply halts_let_step|].
      unfold let_step. apply halts_current_known. rewrite decide_True by done.
      pose proof (halts_let rec N Hrec). halting.
    + intros lets. eapply halts_bind; [apply halts_body; lia|intros body]. apply halts_query_end. lia.
Qed.
End Queries.

(** ** The knot *)

Section Total.
Context {Num : Type} `{json_number : !JsonNumber Num} `{json_text : !JsonText Num}.
Context `{char_tables : !CharTables} `{float_text : !FloatText} `{token_show : !TokenDebug}.
Context `{char_laws : !CharTablesLaws}.

(** The floats that are JSON numbers, and how long a text is too long. *)
Definition json_float (limit : nat) : FloatOk := {|
  float_ok f := match num_of_f64 (Num:=Num) f with Some _ => true | None => false end;
  float_limit := limit;
|}.
Lemma json_float_none limit f : num_of_f64 (Num:=Num) f = None → @float_ok (json_float limit) f = false.
Proof. simpl. by intros ->. Qed.

(** An expression of weight [w] takes fuel [2w + 2], a query [2w + 1]. *)
Lemma parser_halts limit (ok := json_float limit) fuel :
  (∀ s f, Lexer.decimal_text s → String.length s < float_limit → parse_f64 s = Some f → float_ok f = true) →
  (∀ n o, 2 * n ≤ fuel → halts n o all (parse_expression (Num:=Num) fuel)) ∧
  (∀ n o b, 2 * n ≤ S fuel → halts n o any (parse_query (Num:=Num) fuel b)) ∧
  (∀ n t b, 2 * n ≤ S fuel → t = For ∨ t = Let → halts n (Some t) all (parse_query (Num:=Num) fuel b)).
Proof.
  intros Htext. induction fuel as [|fuel (IHe & IHq & IHs)].
  { assert (∀ {A} o (st : A → bool) n m, 2 * n ≤ 1 → halts n o st m) as H0
      by (intros A o st n m Hn s _ Hs; lia).
    repeat split; intros; apply H0; lia. }
  repeat split; cbn [parse_expression parse_query].
  - intros n o Hn. destruct n as [|n]; [intros s _ Hs; lia|].
    apply (halts_ternary (json_float_none limit) Htext _ _ n);
      [apply halts_weaken, IHe; lia|intros; apply IHq; lia| |lia].
    intros b m t Hm Ht. apply IHs; [lia|done].
  - intros n o b Hn. destruct n as [|n]; [intros s _ Hs; lia|].
    apply (halts_query _ _ n); [apply halts_weaken, IHe; lia|intros; apply IHq; lia|lia].
  - intros n t b Hn Ht. destruct n as [|n]; [intros s _ Hs; lia|].
    apply (halts_query_strict _ _ n); [apply halts_weaken, IHe; lia|lia|done].
Qed.

(** Running the parser on an input with enough fuel. *)
Definition parse_with (fuel : nat) (input : string) : outcome (Query (Expression Num)) :=
  s ← new input; '(q, _) ← parse_query fuel true s; Done q.
Lemma parse_outcome limit input (ok := json_float limit) :
  (∀ s f, Lexer.decimal_text s → String.length s < limit → parse_f64 s = Some f → float_ok f = true) →
  match parse (Num:=Num) input with
  | Done _ => True
  | Fails e => is_parse_error e
  | Panics => limit ≤ String.length input
  | OutOfFuel => False
  end.
Proof.
  intros Htext. unfold parse, new. pose proof (Lexer.tokenize_weight input) as Ht.
  destruct (Lexer.tokenize input) as [r| | |]; try done. destruct Ht as (ts & -> & _ & Hts & Hf).
  cbn [mbind outcome_mbind outcome_bind].
  destruct (parser_halts limit (parse_fuel input) Htext) as (_ & Hq & _).
  assert (pweight (mkParser (ts ++ [Eof]) true) < String.length input + 2) as Hw.
  { cbn. unfold Lexer.weight in *. rewrite sum_list_with_app. simpl. lia. }
  specialize (Hq (String.length input + 2) None true ltac:(unfold parse_fuel; lia) _ I Hw).
  unfold consumed in Hq.
  destruct (parse_query (parse_fuel input) true (mkParser (ts ++ [Eof]) true)) as [[? ?]| | |]; try done.
  destruct (Nat.le_gt_cases limit (String.length input)); [done|]. exfalso. apply Hq.
  unfold calm. cbn. apply Forall_app. split; [|by repeat constructor].
  by apply (token_ok_short (float_ok_class:=ok) Htext ts (String.length input)).
Qed.
End Total.
