(* ===== verification/SdbqlFuel.v ===== *)
(** * SDBQL: fuel only decides whether the parser answers

    [below m1 m2]: wherever [m1] has an outcome other than lack of fuel, [m2] has
    the same one. Every function of the parser is monotone in the functions it
    calls, so an outcome of the parser is its outcome with any larger fuel. *)

From S2P Require Import Prelude Text Json Transaction Codec SdbqlLexer SdbqlAst SdbqlParser.
Import Token Cursor Parse.

Definition below {A} (m1 m2 : P A) : Prop := ∀ s, m1 s = OutOfFuel ∨ m1 s = m2 s.

#[export] Instance below_preorder A : PreOrder (@below A).
Proof.
  split; [by right|]. intros m1 m2 m3 H1 H2 s.
  destruct (H1 s) as [-> | ->]; [by left|]. apply H2.
Qed.
#[export] Instance below_bind_proper A B :
  Proper (pointwise_relation A (@below B) ==> @below A ==> @below B) (mbind (M:=P)).
Proof.
  intros k1 k2 Hk m1 m2 Hm s. unfold mbind, P_bind. destruct (Hm s) as [-> | ->]; [by left|].
  destruct (m2 s) as [[a s']| | |]; auto. apply Hk.
Qed.
Lemma below_bind {A B} (m1 m2 : P A) (k1 k2 : A → P B) :
  below m1 m2 → (∀ a, below (k1 a) (k2 a)) → below (m1 ≫= k1) (m2 ≫= k2).
Proof. intros Hm Hk. by apply below_bind_proper. Qed.
Lemma below_looping {A} (b1 b2 : nat → P A) : (∀ n, below (b1 n) (b2 n)) → below (looping b1) (looping b2).
Proof. intros H s. apply H. Qed.

Create HintDb below.
#[export] Hint Constants Opaque : below.
Ltac below_step :=
  lazymatch goal with
  | |- ∀ _, _ => intros ?
  | |- below ?m ?m => reflexivity
  | |- below (_ ≫= _) (_ ≫= _) => apply below_bind
  | |- below (if decide _ then _ else _) _ => case_decide
  | |- below (match ?x with _ => _ end) _ => destruct x
  | |- below _ _ => solve [eauto 3 with below nocore]
  end.
Ltac below_all := repeat below_step.

Lemma below_iterate {A} (step1 step2 : A → P (option A)) x :
  (∀ x, below (step1 x) (step2 x)) → below (iterate_from step1 x) (iterate_from step2 x).
Proof.
  intros H. apply below_looping. intros n. revert x.
  induction n as [|n IH]; intros x; cbn [iterate]; below_all.
Qed.
Lemma below_comma {A} (i1 i2 : P A) : below i1 i2 → below (comma_separated i1) (comma_separated i2).
Proof.
  intros H. apply below_looping. intros n. generalize (@nil A).
  induction n as [|n IH]; intros l; cbn [comma_loop]; below_all.
Qed.
Lemma below_until `{token_show : !TokenDebug} {A} c (i1 i2 : P A) : below i1 i2 → below (items_until c i1) (items_until c i2).
Proof.
  intros H. unfold items_until. apply below_bind; [|reflexivity]. apply below_looping. intros n.
  generalize (@nil A). induction n as [|n IH]; intros l; cbn [until_loop]; below_all.
Qed.
#[export] Hint Resolve below_comma below_until : below.

Section Below.
Context {Num : Type} `{json_number : !JsonNumber Num} `{json_text : !JsonText Num}.
Context `{char_tables : !CharTables} `{float_text : !FloatText} `{token_show : !TokenDebug}.
Notation Expression := (Expression Num).
Notation Query := (Query Expression).
Context (r1 r2 : P Expression) (q1 q2 : bool → P Query).
Context (Hr : below r1 r2) (Hq : ∀ b, below (q1 b) (q2 b)).

Lemma below_args : below (parse_function_call_args r1) (parse_function_call_args r2).
Proof. by apply below_until. Qed.
#[local] Hint Resolve below_args : below.
Lemma below_lambda : below (parse_lambda_expression r1) (parse_lambda_expression r2).
Proof. unfold parse_lambda_expression. below_all. Qed.
Lemma below_case : below (parse_case_expression r1) (parse_case_expression r2).
Proof.
  unfold parse_case_expression.
  assert (∀ cs, below (iterate_from (push_when r1) cs) (iterate_from (push_when r2) cs)).
  { intros cs. apply below_iterate. intros x. unfold push_when, parse_when_clause. below_all. }
  below_all.
Qed.
Lemma below_sort_field : below (parse_sort_field r1) (parse_sort_field r2).
Proof. unfold parse_sort_field. below_all. Qed.
#[local] Hint Resolve below_sort_field : below.
Lemma below_window f args : below (parse_window_function r1 f args) (parse_window_function r2 f args).
Proof.
  unfold parse_window_function, parse_window_spec, parse_partition_by, parse_order_by.
  assert (below (looping (λ n, partition_loop r1 n [])) (looping (λ n, partition_loop r2 n []))).
  { apply below_looping. intros n. generalize (@nil Expression).
    induction n as [|n IH]; intros l; cbn [partition_loop]; below_all. }
  below_all.
Qed.
#[local] Hint Resolve below_window below_lambda below_case : below.
Lemma below_call name : below (parse_call r1 name) (parse_call r2 name).
Proof. unfold parse_call. below_all. Qed.
#[local] Hint Resolve below_call : below.
Lemma below_template parts : below (parse_template_string r1 parts) (parse_template_string r2 parts).
Proof.
  unfold parse_template_string. apply below_bind; [|reflexivity].
  generalize (@nil (TemplateStringPart Expression)).
  induction parts as [|p parts IH]; intros l; cbn [parse_template_parts]; [reflexivity|].
  apply below_bind; [|intros; apply IH]. destruct p as [s|e]; cbn [parse_template_part]; [reflexivity|].
  intros s. destruct (Lexer.tokenize e) as [ts| | |]; try by right.
  cbn [mbind outcome_mbind outcome_bind]. destruct (Hr (mkParser ts true)) as [-> | ->]; [by left|by right].
Qed.
Lemma below_object : below (parse_object_expression r1) (parse_object_expression r2).
Proof.
  unfold parse_object_expression.
  assert (below (parse_object_field r1) (parse_object_field r2)) by (unfold parse_object_field; below_all).
  below_all.
Qed.
#[local] Hint Resolve below_template below_object : below.
Lemma below_primary : below (parse_primary_expression r1 q1) (parse_primary_expression r2 q2).
Proof.
  unfold parse_primary_expression. apply below_bind; [reflexivity|]. intros t.
  destruct t; try reflexivity; try solve [eauto 3 with below nocore];
    unfold parse_identifier_expression, parse_quantifier_expression, parse_keyword_as_function,
      parse_keyword_as_function_no_window, parse_array_expression, parse_parenthesized_expression,
      parse_unparenthesized_subquery; below_all.
Qed.
#[local] Hint Resolve below_primary : below.
Lemma below_postfix : below (parse_postfix_expression r1 q1) (parse_postfix_expression r2 q2).
Proof.
  unfold parse_postfix_expression. apply below_bind; [apply below_primary|]. intros e.
  apply below_iterate. intros x. unfold postfix_step, parse_bracket_access. below_all.
Qed.
#[local] Hint Resolve below_postfix : below.
Lemma below_unary : below (parse_unary_expression r1 q1) (parse_unary_expression r2 q2).
Proof. apply below_looping. intros n. induction n as [|n IH]; cbn [unary_loop]; below_all. Qed.
Lemma below_left_associative op (m1 m2 : P Expression) :
  below m1 m2 → below (left_associative op m1) (left_associative op m2).
Proof.
  intros H. unfold left_associative. apply below_bind; [done|]. intros e. apply below_iterate.
  intros x. unfold binary_step. below_all.
Qed.
(** The chain above the range level and below it. *)
Lemma below_shift : below (parse_shift_expression r1 q1) (parse_shift_expression r2 q2).
Proof. do 3 apply below_left_associative. apply below_unary. Qed.
#[local] Hint Resolve below_shift : below.
Lemma below_or : below (parse_or_expression r1 q1) (parse_or_expression r2 q2).
Proof. do 6 apply below_left_associative. unfold parse_range_expression. below_all. Qed.
#[local] Hint Resolve below_or : below.
Lemma below_ternary : below (parse_ternary_expression r1 q1) (parse_ternary_expression r2 q2).
Proof.
  unfold parse_ternary_expression. apply below_bind; [|below_all].
  do 2 apply below_left_associative. unfold parse_pipeline_expression.
  apply below_bind; [apply below_or|]. intros e. apply below_iterate. intros x.
  unfold pipeline_step. below_all.
Qed.

Lemma below_let : below (parse_let_clause r1) (parse_let_clause r2).
Proof.
  unfold parse_let_clause. assert (below (let_binding r1) (let_binding r2)) by (unfold let_binding; below_all).
  below_all.
Qed.
Lemma below_collect : below (parse_collect_clause r1) (parse_collect_clause r2).
Proof.
  unfold parse_collect_clause, parse_aggregates.
  assert (below (looping (λ n, group_loop r1 n [])) (looping (λ n, group_loop r2 n []))).
  { apply below_looping. intros n. generalize (@nil (string * Expression)).
    induction n as [|n IH]; intros l; cbn [group_loop]; below_all. }
  assert (below (looping (λ n, aggregate_loop r1 n [])) (looping (λ n, aggregate_loop r2 n []))).
  { apply below_looping. intros n. generalize (@nil (AggregateExpr Expression)).
    induction n as [|n IH]; intros l; cbn [aggregate_loop]; unfold parse_aggregate; below_all. }
  below_all.
Qed.
Lemma below_for : below (try_parse_for_or_graph r1) (try_parse_for_or_graph r2).
Proof.
  unfold try_parse_for_or_graph, parse_shortest_path_clause, parse_graph_traversal_clause,
    parse_for_source. below_all.
Qed.
#[local] Hint Resolve below_let below_collect below_for : below.
Lemma below_body b : below (body_step r1 b) (body_step r2 b).
Proof.
  unfold body_step, parse_filter_clause, parse_insert_clause, parse_update_clause,
    parse_remove_clause, parse_upsert_clause, parse_join_clause, without_in. below_all.
Qed.
Lemma below_query b : below (query_clauses r1 q1 b) (query_clauses r2 q2 b).
Proof.
  unfold query_clauses, query_end, parse_create, parse_create_materialized_view_clause,
    optional_clause, parse_sort_clause, parse_limit_clause, parse_return_clause.
  assert (∀ cs, below (iterate_from (let_step r1) cs) (iterate_from (let_step r2) cs)).
  { intros cs. apply below_iterate. intros x. unfold let_step. below_all. }
  assert (∀ b, below (iterate_from (body_step r1) b) (iterate_from (body_step r2) b)).
  { intros b'. apply below_iterate, below_body. }
  below_all.
Qed.
End Below.

Section Fuel.
Context {Num : Type} `{json_number : !JsonNumber Num} `{json_text : !JsonText Num}.
Context `{char_tables : !CharTables} `{float_text : !FloatText} `{token_show : !TokenDebug}.

Lemma fuel_below n m :
  n ≤ m → below (parse_expression (Num:=Num) n) (parse_expression m) ∧
          ∀ b, below (parse_query (Num:=Num) n b) (parse_query m b).
Proof.
  revert m. induction n as [|n IH]; intros m Hm; [split; intros; by left|].
  destruct m as [|m]; [lia|]. destruct (IH m) as [IHe IHq]; [lia|].
  split; cbn [parse_expression parse_query]; intros; [by apply below_ternary|by apply below_query].
Qed.
End Fuel.
