(* ===== verification/SdbqlParsed.v ===== *)
(** * SDBQL: the parser reads every phrase

    One lemma for each rule of the grammar of SdbqlGrammar.v, and the theorem by
    induction on the derivation of a phrase. *)

From S2P Require Import Prelude Text Json Transaction Codec SdbqlLexer SdbqlAst SdbqlParser SdbqlGrammar.
Import Token Cursor Parse.

Section Rules.
Context {Num : Type} `{json_number : !JsonNumber Num} `{json_text : !JsonText Num}.
Context `{char_tables : !CharTables} `{float_text : !FloatText} `{token_show : !TokenDebug}.
Context `{char_laws : !CharTablesLaws}.
Notation Expression := (Expression Num).
Implicit Types (n l : nat) (b : bool) (e : Expression) (ts r : list Token).

(** One turn of the loop of a level behind a phrase. *)
Lemma climbs_turn b l ts e ts' e' :
  l ≤ 15 → climbs b l ts e →
  (∀ r, follow b (S l) (ts' ++ r) ∧ (l = 15 → is_spread e = true → cur (ts' ++ r) ≠ Dot)) →
  1 ≤ Lexer.weight ts' →
  (∀ n step r, step_of n l = Some step → Lexer.weight (ts ++ ts') ≤ n → follow b (S l) r →
     (l = 15 → is_spread e' = true → cur r ≠ Dot) →
     step e (mkParser (ts' ++ r) b) = Done (Some e', mkParser r b)) →
  climbs b l (ts ++ ts') e'.
Proof.
  intros Hl Hc Hf' Hw Hstep n step r Hst Hn Hf Hsp. destruct (Hf' r) as [Hf1 Hsp1].
  rewrite <-app_assoc. rewrite weight_app in Hn.
  destruct (Hc n step (ts' ++ r) Hst ltac:(lia) Hf1 Hsp1) as (k & Hk & ->).
  rewrite weight_app in Hk. destruct k as [|k]; [lia|]. exists k. split; [lia|]. cbn [iterate].
  by erewrite run_bind by (eapply Hstep; [done|rewrite weight_app; lia|done|done]).
Qed.

Lemma claim_binary b l ops op ts1 e1 ts2 e2 :
  (l, ops, op) ∈ binary_table b → claim b l ts1 e1 → claim b (S l) ts2 e2 →
  claim b l (ts1 ++ ops ++ ts2) (Expression.BinaryOp e1 op e2).
Proof.
  intros Hop H1 H2. destruct (operator_head b l ops op [] Hop) as (_ & Hl & Hl1).
  assert (ops ≠ [] ∧ forallb no_paren ops = true ∧ has_loop l = true) as (Hne & Hnp & Hloop).
  { clear -Hop. unfold binary_table in Hop. apply elem_of_app in Hop as [H|H].
    - repeat (apply elem_of_cons in H as [[= -> -> ->]|H]; [done|]). by apply elem_of_nil in H.
    - destruct b; [|by apply elem_of_nil in H].
      repeat (apply elem_of_cons in H as [[= -> -> ->]|H]; [done|]). by apply elem_of_nil in H. }
  apply claim_loop; [lia|done|apply starts_app, H1| |].
  { apply scan_app; [apply H1|]. apply scan_app; [by apply scan_tokens|apply H2]. }
  apply (climbs_turn b l ts1 e1); [lia|apply H1| | |].
  - intros r. rewrite <-app_assoc. split; [apply (operator_head b l ops op (ts2 ++ r) Hop)|lia].
  - rewrite weight_app. destruct ops as [|t ops]; [done|]. rewrite weight_cons.
    pose proof (Lexer.token_weight_pos t). lia.
  - intros n step r Hst Hn Hf _. unfold step_of in Hst.
    destruct (operator_read b l ops op (ts2 ++ r) Hop) as (operator & Hat & Hread).
    rewrite Hat in Hst. injection Hst as <-. unfold binary_step. rewrite <-app_assoc.
    erewrite run_bind by exact Hread. cbv beta iota. erewrite run_bind; [done|].
    apply (cl_reads _ _ _ _ H2); [rewrite !weight_app in Hn; lia|done].
Qed.

Lemma claim_range b ts1 e1 ts2 e2 :
  claim b 11 ts1 e1 → claim b 11 ts2 e2 → claim b 10 (ts1 ++ DotDot :: ts2) (Expression.Range e1 e2).
Proof.
  intros H1 H2. apply claim_plain; [lia|done| | |].
  - apply starts_app. eapply starts_le; [|apply H1]. lia.
  - apply scan_app; [apply H1|]. apply scan_cons; [done|apply H2].
  - intros n r Hn Hf. rewrite weight_app, weight_cons in Hn. cbn [parser_of].
    unfold parse_range_expression. rewrite <-app_assoc. cbn [app].
    erewrite run_bind by (apply (cl_reads _ _ _ _ H1); [lia|cbn; lia]).
    rewrite run_current. change (cur (DotDot :: ts2 ++ r)) with DotDot. rewrite decide_True by done.
    rewrite run_advance. erewrite run_bind; [done|]. apply (cl_reads _ _ _ _ H2); [simpl in Hn; lia|].
    apply (follow_le b 10); [lia|done].
Qed.

Lemma unary_loop_mono rec recq k k' s x :
  k ≤ k' → unary_loop (Num:=Num) rec recq k s = Done x → unary_loop rec recq k' s = Done x.
Proof.
  revert k' s x. induction k as [|k IH]; intros k' s x Hk; [done|]. destruct k' as [|k']; [lia|].
  destruct s as [r b]. cbn [unary_loop]. rewrite !run_current. destruct (unary_of (cur r)); [|done].
  unfold mbind, P_bind, advance. cbn.
  destruct (unary_loop rec recq k _) as [[e s]| | |] eqn:E; try done.
  by rewrite (IH k' _ _ ltac:(lia) E).
Qed.
Lemma claim_unary b t op ts e :
  unary_of t = Some op → claim b 14 ts e → claim b 14 (t :: ts) (Expression.UnaryOp op e).
Proof.
  intros Hop H. apply claim_plain; [lia|done| | |].
  - exists t, ts. split_and!; [done|by destruct t|lia].
  - apply scan_cons; [by destruct t|apply H].
  - intros n r Hn Hf. rewrite weight_cons in Hn. cbn [parser_of]. unfold parse_unary_expression.
    rewrite run_looping. cbn [app unary_loop rest]. rewrite run_current.
    change (cur (t :: ts ++ r)) with t. rewrite Hop, run_advance.
    pose proof (cl_reads _ _ _ _ H n r ltac:(lia) Hf) as Hr. cbn [parser_of] in Hr.
    unfold parse_unary_expression in Hr. rewrite run_looping in Hr.
    erewrite run_bind; [done|]. eapply unary_loop_mono; [|exact Hr]. cbn [rest].
    rewrite weight_cons. pose proof (Lexer.token_weight_pos t). lia.
Qed.

Lemma claim_ternary b tc c tt t tf f :
  claim b 1 tc c → claim b 0 tt t → claim b 0 tf f →
  claim b 0 (tc ++ Question :: tt ++ Colon :: tf) (Expression.Ternary c t f).
Proof.
  intros Hc Ht Hf. apply claim_plain; [lia|done| | |].
  - apply starts_app. eapply starts_le; [|apply Hc]. lia.
  - apply scan_app; [apply Hc|]. apply scan_cons; [done|]. apply scan_app; [apply Ht|].
    apply scan_cons; [done|apply Hf].
  - intros n r Hn Hfo. rewrite weight_app, weight_cons, weight_app, weight_cons in Hn. cbn in Hn.
    cbn [parser_of]. unfold parse_ternary_expression. rewrite <-app_assoc. cbn [app].
    erewrite run_bind by (apply (cl_reads _ _ _ _ Hc); [lia|cbn; lia]).
    rewrite run_current. change (cur (Question :: _)) with Question. rewrite decide_True by done.
    rewrite run_advance, <-app_assoc. cbn [app].
    erewrite run_bind by (apply (run_rec b tt); [done|lia|done]). rewrite run_expect.
    by erewrite run_bind by (apply (run_rec b tf); [done|lia|done]).
Qed.

(** *** Postfix operations *)

Lemma claim_postfix b ts e t ts' e' :
  claim b 15 ts e → cont_level b t = Some 15 → no_paren t = true → scan_ok ts' →
  (t = Dot → is_spread e = false) →
  (∀ n r, Lexer.weight ts' < n → follow b 16 r → (is_spread e' = true → cur r ≠ Dot) →
     postfix_step (parse_expression n) e (mkParser (t :: ts' ++ r) b) = Done (Some e', mkParser r b)) →
  claim b 15 (ts ++ t :: ts') e'.
Proof.
  intros H Ht Hnp Hsc Hdot Hstep.
  apply claim_loop; [lia|done|apply starts_app, H| |].
  { apply scan_app; [apply H|]. by apply scan_cons. }
  apply (climbs_turn b 15 ts e); [lia|apply H| | |].
  - intros r. unfold follow. cbn [app]. change (cur (t :: _)) with t. rewrite Ht. split; [lia|].
    intros _ Hsp ->. rewrite Hdot in Hsp by done. done.
  - rewrite weight_cons. pose proof (Lexer.token_weight_pos t). lia.
  - intros n step r Hst Hn Hf Hsp. injection Hst as <-. rewrite weight_app, weight_cons in Hn.
    pose proof (Lexer.token_weight_pos t). apply Hstep; [lia|done|]. by apply Hsp.
Qed.
Lemma claim_field b ts e t name :
  token_to_field_name t = Some name → is_spread e = false → claim b 15 ts e →
  claim b 15 (ts ++ [Dot; t]) (Expression.FieldAccess e name).
Proof.
  intros Ht Hsp H. apply (claim_postfix b ts e Dot [t]); try done.
  - apply scan_token. by destruct t.
  - intros n r Hn Hf _. unfold postfix_step. rewrite run_current. change (cur (Dot :: _)) with Dot.
    rewrite decide_True by done. unfold parse_field_access. erewrite run_bind; [done|].
    rewrite run_advance. unfold get_field_name. erewrite run_bind by (rewrite run_current; done).
    change (cur ([t] ++ r)) with t. rewrite Ht. done.
Qed.
Lemma claim_optional b ts e t name :
  token_to_field_name t = Some name → claim b 15 ts e →
  claim b 15 (ts ++ [QuestionDot; t]) (Expression.OptionalFieldAccess e name).
Proof.
  intros Ht H. apply (claim_postfix b ts e QuestionDot [t]); try done.
  - apply scan_token. by destruct t.
  - intros n r Hn Hf _. unfold postfix_step. rewrite run_current.
    change (cur (QuestionDot :: _)) with QuestionDot.
    rewrite decide_False, decide_True by done. unfold parse_optional_field_access.
    erewrite run_bind; [done|]. rewrite run_advance. unfold get_field_name.
    erewrite run_bind by (rewrite run_current; done).
    change (cur ([t] ++ r)) with t. rewrite Ht. done.
Qed.
Lemma bracket_not_spread e i : is_spread (bracket_access e i) = false.
Proof. destruct i; try done. by destruct v. Qed.
Lemma claim_bracket b ts e ti i :
  claim b 15 ts e → claim b 0 ti i →
  claim b 15 (ts ++ LeftBracket :: ti ++ [RightBracket]) (bracket_access e i).
Proof.
  intros H Hi. apply (claim_postfix b ts e LeftBracket); try done.
  - apply scan_app; [apply Hi|by apply scan_token].
  - intros n r Hn Hf _. rewrite weight_app in Hn. unfold postfix_step. rewrite run_current.
    change (cur (LeftBracket :: _)) with LeftBracket.
    rewrite decide_False, decide_False, decide_True by done. erewrite run_bind; [done|].
    unfold parse_bracket_access. rewrite run_advance, run_current, decide_False.
    + rewrite <-app_assoc. cbn [app].
      erewrite run_bind by (apply (run_rec b ti); [done|lia|done]). by rewrite run_expect.
    + rewrite <-app_assoc. apply starter_not; [|done]. eapply cur_app, Hi.
Qed.
Lemma path_run names path r b k :
  Lexer.weight (path_tokens names) < k → cur r ≠ Dot →
  path_loop k path (mkParser (path_tokens names ++ r) b) = Done (foldl join_path path names, mkParser r b).
Proof.
  revert path k. induction names as [|x names IH]; intros path k Hk Hr; destruct k as [|k]; try lia;
    cbn [path_loop].
  - change (path_tokens [] ++ r) with r. rewrite run_current. by rewrite decide_False.
  - change (path_tokens (x :: names) ++ r) with (Dot :: Identifier x :: path_tokens names ++ r).
    change (path_tokens (x :: names)) with (Dot :: Identifier x :: path_tokens names) in Hk.
    rewrite !weight_cons in Hk. cbn in Hk.
    rewrite run_current, decide_True by done. rewrite run_advance, run_current.
    change (cur (Identifier x :: _)) with (Identifier x). cbn [as_identifier]. rewrite run_advance.
    apply IH; [lia|done].
Qed.
Lemma claim_spread b ts e names :
  claim b 15 ts e →
  claim b 15 (ts ++ LeftBracket :: Star :: RightBracket :: path_tokens names)
    (Expression.ArraySpreadAccess e (path_of names)).
Proof.
  intros H. apply (claim_postfix b ts e LeftBracket); try done.
  - do 2 (apply scan_cons; [done|]). apply scan_tokens.
    induction names as [|x names IH]; [done|]. exact IH.
  - intros n r Hn Hf Hsp. unfold postfix_step. rewrite run_current.
    change (cur (LeftBracket :: _)) with LeftBracket.
    rewrite decide_False, decide_False, decide_True by done. erewrite run_bind; [done|].
    unfold parse_bracket_access. rewrite run_advance, run_current.
    change (cur ((Star :: _) ++ _)) with Star. rewrite decide_True by done.
    unfold parse_array_spread_access. cbn [app]. rewrite run_advance, run_expect.
    erewrite run_bind; [done|]. rewrite run_looping. apply path_run; [|by apply Hsp].
    cbn [rest]. rewrite weight_app. lia.
Qed.

(** *** Lists of items *)

Definition items_read b ts (es : list Expression) : Prop :=
  scan_ok ts ∧ ∀ n closer r k acc,
    closer = RightParen ∨ closer = RightBracket → Lexer.weight ts < n → Lexer.weight ts < k →
    until_loop closer (parse_expression n) k acc (mkParser (ts ++ closer :: r) b) =
    Done (acc ++ es, mkParser (closer :: r) b).
Lemma closer_follow b l closer r :
  closer = RightParen ∨ closer = RightBracket → follow b l (closer :: r).
Proof. by intros [-> | ->]. Qed.
Lemma items_read_nil b : items_read b [] [].
Proof.
  split; [apply scan_nil|]. intros n closer r k acc Hc Hn Hk. destruct k as [|k]; [lia|].
  cbn [until_loop app]. rewrite run_current. change (cur (closer :: r)) with closer.
  rewrite decide_True by (by left). by rewrite app_nil_r.
Qed.
(** The start of a turn: an item is there. *)
Lemma until_item b ts e n closer r k acc :
  claim b 0 ts e → closer = RightParen ∨ closer = RightBracket → Lexer.weight ts < n → follow b 0 r →
  until_loop closer (parse_expression n) (S k) acc (mkParser (ts ++ r) b) =
  (t ← current_token;
   if decide (t = Comma) then advance;; until_loop closer (parse_expression n) k (acc ++ [e])
   else mret (acc ++ [e])) (mkParser r b).
Proof.
  intros H Hc Hn Hf. cbn [until_loop]. rewrite run_current. rewrite decide_False.
  - by erewrite run_bind by (apply (run_rec b ts); [done|lia|done]).
  - pose proof (cur_app 0 ts r (cl_starts _ _ _ _ H)) as Hs.
    intros [Ht|Ht]; rewrite Ht in Hs; [|done]. by destruct Hc as [-> | ->].
Qed.
Lemma items_read_last b ts e : claim b 0 ts e → items_read b ts [e].
Proof.
  intros H. split; [apply H|]. intros n closer r k acc Hc Hn Hk. destruct k as [|k]; [lia|].
  rewrite (until_item b ts e) by (done || by apply closer_follow).
  rewrite run_current. change (cur (closer :: r)) with closer.
  rewrite decide_False; [done|]. by destruct Hc as [-> | ->].
Qed.
Lemma items_read_cons b ts e ts' es :
  claim b 0 ts e → items_read b ts' es → items_read b (ts ++ Comma :: ts') (e :: es).
Proof.
  intros H [Hsc Hr]. split; [apply scan_app; [apply H|]; by apply scan_cons|].
  intros n closer r k acc Hc Hn Hk. rewrite weight_app, weight_cons in Hn, Hk. cbn in Hn, Hk.
  destruct k as [|k]; [lia|]. rewrite <-app_assoc. cbn [app].
  rewrite (until_item b ts e) by (done || lia). rewrite run_current.
  change (cur (Comma :: _)) with Comma. rewrite decide_True by done. rewrite run_advance.
  rewrite Hr by (done || lia). by rewrite <-app_assoc.
Qed.
(** The arguments of a call, behind the parenthesis that opens them. *)
Lemma run_args b args es n r :
  items_read b args es → Lexer.weight args < n →
  parse_function_call_args (parse_expression n) (mkParser (args ++ RightParen :: r) b) =
  Done (es, mkParser r b).
Proof.
  intros [_ H] Hn. unfold parse_function_call_args, items_until.
  erewrite run_bind; [|rewrite run_looping; apply H; [by left|done|]].
  - by rewrite run_expect.
  - cbn [rest]. rewrite weight_app. lia.
Qed.
Lemma claim_pipeline b t name ts e args es :
  pipeline_name t = Some name → claim b 3 ts e → items_read b args es →
  claim b 3 (ts ++ PipeRight :: t :: LeftParen :: args ++ [RightParen])
    (Expression.Pipeline e (Expression.FunctionCall name es)).
Proof.
  intros Ht H Ha. apply claim_loop; [lia|done|apply starts_app, H| |].
  { apply scan_app; [apply H|]. apply scan_cons; [done|]. apply scan_cons; [by destruct t|].
    apply scan_paren, Ha. }
  apply (climbs_turn b 3 ts e); [lia|apply H|intros r; split; [cbn; lia|lia]|cbn; lia|].
  intros n step r Hst Hn Hf _. injection Hst as <-. unfold pipeline_step.
  rewrite weight_app, !weight_cons, weight_app in Hn. cbn in Hn. cbn [app].
  rewrite run_current. change (cur (PipeRight :: _)) with PipeRight. rewrite decide_True by done.
  rewrite run_advance. unfold parse_pipeline_function_name.
  erewrite run_bind by (rewrite run_current; change (cur (t :: _)) with t; rewrite Ht;
    rewrite run_advance; reflexivity).
  rewrite run_expect, <-app_assoc. cbn [app].
  by erewrite run_bind by (apply run_args; [done|lia]).
Qed.

(** *** Primary expressions *)

Lemma claim_primary b t ts e :
  starter t = true → unary_of t = None → scan_ok (t :: ts) →
  (∀ n r, Lexer.weight (t :: ts) ≤ n → follow b 16 r →
     parse_primary_expression (parse_expression n) (parse_query n) (mkParser (t :: ts ++ r) b) =
     Done (e, mkParser r b)) →
  claim b 16 (t :: ts) e.
Proof.
  intros Ht Hu Hsc Hr. apply claim_plain; [lia|done|by exists t, ts|done|]. exact Hr.
Qed.
Lemma claim_atom b t e : atom t = Some e → claim b 16 [t] e.
Proof.
  intros Ha. apply claim_primary; [by destruct t|by destruct t|apply scan_token; by destruct t|].
  intros n r Hn Hf. unfold parse_primary_expression. rewrite run_current.
  change (cur (t :: [] ++ r)) with t. destruct t; try done; cbn in Ha; try (by injection Ha as <-).
  - injection Ha as <-. unfold parse_identifier_expression. cbn [app].
    rewrite run_peek, decide_False, run_advance, run_current, decide_False; [done|..];
      apply (follow_not b 16); try done; cbn; lia.
  - unfold parse_float. cbn [app]. rewrite run_advance. destruct (num_of_f64 bits); [|done].
    by injection Ha as <-.
Qed.
Lemma claim_paren b ts e : claim b 0 ts e → claim b 16 (LeftParen :: ts ++ [RightParen]) e.
Proof.
  intros H. apply claim_primary; [done|done|apply scan_paren, H|]. intros n r Hn Hf.
  rewrite weight_cons, weight_app in Hn. cbn in Hn.
  unfold parse_primary_expression. rewrite run_current. change (cur (LeftParen :: _)) with LeftParen.
  cbv beta iota. unfold parse_parenthesized_expression. rewrite <-app_assoc. cbn [app].
  assert (lambda_scan 1 (ts ++ RightParen :: r) = false) as Hl.
  { destruct (cl_scan _ _ _ _ H 0 (RightParen :: r)) as [-> | ->]; [done|]. cbn.
    pose proof (follow_not b 16 r Arrow Hf ltac:(cbn; lia)). by destruct r as [|[] r]. }
  erewrite run_bind by (unfold is_lambda_params; cbn [rest tail]; by rewrite Hl).
  cbv beta iota. rewrite run_advance, run_current, decide_False.
  - erewrite run_bind by (apply (run_rec b ts); [done|lia|done]). by rewrite run_expect.
  - pose proof (cur_app 0 ts (RightParen :: r) (cl_starts _ _ _ _ H)) as Hs.
    by intros [Ht|Ht]; rewrite Ht in Hs.
Qed.
Lemma run_call b name args es n r :
  items_read b args es → Lexer.weight args < n → follow b 16 r →
  parse_call (parse_expression n) name (mkParser (args ++ RightParen :: r) b) =
  Done (Expression.FunctionCall name es, mkParser r b).
Proof.
  intros Ha Hn Hf. unfold parse_call. erewrite run_bind by by apply run_args.
  rewrite run_current, decide_False; [done|]. apply (follow_not b 16); [done|cbn; lia].
Qed.
Lemma claim_call b name args es :
  items_read b args es →
  claim b 16 (Identifier name :: LeftParen :: args ++ [RightParen]) (Expression.FunctionCall name es).
Proof.
  intros Ha. apply claim_primary; [done|done|apply scan_cons, scan_paren, Ha; done|]. intros n r Hn Hf.
  rewrite !weight_cons, weight_app in Hn. cbn in Hn.
  unfold parse_primary_expression. rewrite run_current.
  change (cur (Identifier name :: _)) with (Identifier name). cbv beta iota.
  unfold parse_identifier_expression. cbn [app]. rewrite run_peek.
  change (cur (LeftParen :: _)) with LeftParen. rewrite decide_False by done.
  rewrite run_advance, run_current. change (cur (LeftParen :: _)) with LeftParen.
  rewrite decide_True by done. rewrite run_advance, <-app_assoc. apply run_call; [done|lia|done].
Qed.
Lemma claim_keyword_call b t name args es :
  (t, name) ∈ keyword_calls → items_read b args es →
  claim b 16 (t :: LeftParen :: args ++ [RightParen]) (Expression.FunctionCall name es).
Proof.
  intros Hk Ha. unfold keyword_calls in Hk.
  assert (starter t = true ∧ unary_of t = None ∧ no_paren t = true) as (Hs & Hu & Hp).
  { repeat (apply elem_of_cons in Hk as [[= -> ->]|Hk]; [done|]). by apply elem_of_nil in Hk. }
  apply claim_primary; [done|done|apply scan_cons, scan_paren, Ha; done|]. intros n r Hn Hf.
  rewrite !weight_cons, weight_app in Hn. cbn in Hn.
  unfold parse_primary_expression. rewrite run_current. change (cur (t :: _)) with t. cbn [app].
  repeat (apply elem_of_cons in Hk as [[= -> ->]|Hk]; [cbv beta iota|]); [| | |by apply elem_of_nil in Hk];
    unfold parse_keyword_as_function, parse_keyword_as_function_no_window;
    rewrite run_advance, run_current; change (cur (LeftParen :: _)) with LeftParen;
    rewrite decide_True by done; rewrite run_advance, <-app_assoc; cbn [app].
  - apply run_call; [done|lia|done].
  - by erewrite run_bind by (apply run_args; [done|lia]).
  - by erewrite run_bind by (apply run_args; [done|lia]).
Qed.
Lemma claim_array b args es :
  items_read b args es → claim b 16 (LeftBracket :: args ++ [RightBracket]) (Expression.Array es).
Proof.
  intros [Hsc H]. apply claim_primary; [done|done| |].
  { apply scan_cons; [done|]. apply scan_app; [done|by apply scan_token]. }
  intros n r Hn Hf. rewrite weight_cons, weight_app in Hn. cbn in Hn.
  unfold parse_primary_expression. rewrite run_current. change (cur (LeftBracket :: _)) with LeftBracket.
  cbv beta iota. unfold parse_array_expression. rewrite run_expect, <-app_assoc. cbn [app].
  unfold items_until. erewrite run_bind; [done|].
  erewrite run_bind; [|rewrite run_looping; apply H; [by right|lia|cbn [rest]; rewrite weight_app; lia]].
  by rewrite run_expect.
Qed.

(** *** Lambdas and quantifiers, which extend to the end of the expression *)

Lemma claim_greedy b t ts e :
  starter t = true → unary_of t = None → scan_ok (t :: ts) →
  (∀ n r, Lexer.weight (t :: ts) ≤ n → follow b 0 r →
     parse_primary_expression (parse_expression n) (parse_query n) (mkParser (t :: ts ++ r) b) =
     Done (e, mkParser r b)) →
  claim b 0 (t :: ts) e.
Proof.
  intros Ht Hu Hsc Hr. apply claim_plain; [lia|done|by exists t, ts|done|].
  apply reads_greedy; [by exists t, ts|]. exact Hr.
Qed.
Lemma claim_lambda1 b x ts e :
  claim b 0 ts e → claim b 0 (Identifier x :: Arrow :: ts) (Expression.Lambda [x] e).
Proof.
  intros H. apply claim_greedy; [done|done|do 2 (apply scan_cons; [done|]); apply H|]. intros n r Hn Hf.
  rewrite !weight_cons in Hn. cbn in Hn. unfold parse_primary_expression. rewrite run_current.
  change (cur (Identifier x :: _)) with (Identifier x). cbv beta iota.
  unfold parse_identifier_expression. cbn [app]. rewrite run_peek.
  change (cur (Arrow :: _)) with Arrow. rewrite decide_True by done.
  unfold parse_lambda_expression.
  rewrite (run_bind _ _ _ [x] (mkParser (Arrow :: ts ++ r) b)) by done.
  rewrite run_expect. by erewrite run_bind by (apply (run_rec b ts); [done|lia|done]).
Qed.

Lemma lambda_list_scan xs d r : lambda_scan d (lambda_list xs ++ r) = lambda_scan d r.
Proof.
  destruct xs as [|x xs]; [done|]. cbn [lambda_list app lambda_scan].
  induction xs as [|y xs IH]; [done|]. exact IH.
Qed.
Lemma lambda_names_run xs acc k r b :
  length xs < k →
  until_loop RightParen (expect_identifier "Expected parameter name in lambda") k acc
    (mkParser (lambda_list xs ++ RightParen :: r) b) = Done (acc ++ xs, mkParser (RightParen :: r) b).
Proof.
  revert acc k. induction xs as [|x xs IH]; intros acc k Hk; (destruct k as [|k]; [simpl in Hk; lia|]);
    cbn [until_loop].
  - rewrite run_current. change (cur ([] ++ RightParen :: r)) with RightParen.
    rewrite decide_True by (by left). by rewrite app_nil_r.
  - rewrite run_current. change (cur (lambda_list (x :: xs) ++ _)) with (Identifier x).
    rewrite decide_False by (by intros [?|?]). cbn [lambda_list app].
    rewrite run_identifier, run_current. destruct xs as [|y xs]; [done|].
    change (cur _) with Comma. rewrite decide_True by done.
    specialize (IH (acc ++ [x]) k ltac:(simpl in *; lia)). rewrite <-app_assoc in IH. exact IH.
Qed.
Lemma lambda_list_length xs : length xs ≤ Lexer.weight (lambda_list xs).
Proof.
  destruct xs as [|x xs]; [done|]. cbn [lambda_list length]. rewrite weight_cons.
  apply le_n_S. cbn [Nat.add]. induction xs as [|y xs IH]; [done|].
  change (mbind _ (y :: xs)) with (Comma :: Identifier y :: (n ← xs; [Comma; Identifier n])).
  rewrite !weight_cons. cbn [length Lexer.token_weight]. lia.
Qed.
Lemma claim_lambda b xs ts e :
  claim b 0 ts e →
  claim b 0 (LeftParen :: lambda_list xs ++ RightParen :: Arrow :: ts) (Expression.Lambda xs e).
Proof.
  intros H. apply claim_greedy; [done|done| |].
  { replace (LeftParen :: lambda_list xs ++ RightParen :: Arrow :: ts)
      with ((LeftParen :: lambda_list xs ++ [RightParen]) ++ Arrow :: ts) by (simpl; by rewrite <-app_assoc).
    apply scan_app; [|apply scan_cons; [done|apply H]]. apply scan_paren. intros d r. right.
    apply lambda_list_scan. }
  intros n r Hn Hf. rewrite weight_cons, weight_app, !weight_cons in Hn. cbn in Hn.
  unfold parse_primary_expression. rewrite run_current. change (cur (LeftParen :: _)) with LeftParen.
  cbv beta iota. unfold parse_parenthesized_expression. rewrite <-app_assoc. cbn [app].
  rewrite (run_bind _ _ _ true (mkParser (LeftParen :: lambda_list xs ++ RightParen :: Arrow :: ts ++ r) b))
    by (unfold is_lambda_params; cbn [rest tail]; by rewrite lambda_list_scan).
  cbv beta iota. unfold parse_lambda_expression, parse_lambda_params.
  erewrite run_bind; [|rewrite run_current; change (cur (LeftParen :: _)) with LeftParen;
    rewrite decide_True by done; rewrite run_advance; unfold items_until;
    erewrite run_bind; [rewrite run_expect; reflexivity|rewrite run_looping; apply lambda_names_run;
      cbn [rest]; rewrite weight_app; pose proof (lambda_list_length xs); lia]].
  rewrite run_expect. by erewrite run_bind by (apply (run_rec b ts); [done|lia|done]).
Qed.
Lemma claim_any b x ta a tc c :
  claim b 0 ta a → claim b 0 tc c →
  claim b 0 (Any :: Identifier x :: In :: ta ++ Satisfies :: tc)
    (Expression.FunctionCall "ANY" [a; Expression.Lambda [x] c]).
Proof.
  intros Ha Hc. apply claim_greedy; [done|done| |].
  { do 3 (apply scan_cons; [done|]). apply scan_app; [apply Ha|]. apply scan_cons; [done|apply Hc]. }
  intros n r Hn Hf. rewrite !weight_cons, weight_app, weight_cons in Hn. cbn in Hn.
  unfold parse_primary_expression. rewrite run_current. change (cur (Any :: _)) with Any.
  cbv beta iota. unfold parse_quantifier_expression. cbn [app].
  rewrite run_advance, run_identifier, run_expect, <-app_assoc. cbn [app].
  erewrite run_bind by (apply (run_rec b ta); [done|lia|done]). rewrite run_current.
  change (cur (Satisfies :: _)) with Satisfies. rewrite decide_True by done.
  erewrite run_bind; [done|]. rewrite run_advance. apply (run_rec b tc); [done|lia|done].
Qed.

(** *** Objects, CASE and template strings *)

Definition field_read b ts (f : string * Expression) : Prop :=
  scan_ok ts ∧ (∃ t ts', ts = t :: ts' ∧ is_Some (object_key t)) ∧
  ∀ n r, Lexer.weight ts ≤ n → cur r = Comma ∨ cur r = RightBrace →
    parse_object_field (parse_expression n) (mkParser (ts ++ r) b) = Done (f, mkParser r b).
Lemma run_key {A} (k : string → P A) t x r b :
  object_key t = Some x → (parse_object_key ≫= k) (mkParser (t :: r) b) = k x (mkParser r b).
Proof.
  intros Ht. erewrite run_bind; [done|]. unfold parse_object_key. rewrite run_current.
  change (cur (t :: r)) with t. by rewrite Ht.
Qed.
Lemma key_no_paren t x : object_key t = Some x → no_paren t = true.
Proof. by destruct t. Qed.
Lemma field_read_value b t k ts e :
  object_key t = Some k → claim b 0 ts e → field_read b (t :: Colon :: ts) (k, e).
Proof.
  intros Ht H. split_and!; [|by exists t, (Colon :: ts)|].
  { apply scan_cons; [by eapply key_no_paren|]. apply scan_cons; [done|apply H]. }
  intros n r Hn Hr. rewrite !weight_cons in Hn. cbn in Hn. unfold parse_object_field. cbn [app].
  erewrite run_key by done. rewrite run_current. change (cur (Colon :: _)) with Colon.
  rewrite decide_True by done. rewrite run_advance.
  pose proof (Lexer.token_weight_pos t).
  erewrite run_bind; [done|]. apply (run_rec b ts); [done|lia|]. unfold follow.
  by destruct Hr as [-> | ->].
Qed.
Lemma field_read_short b t k : object_key t = Some k → field_read b [t] (k, Expression.Var k).
Proof.
  intros Ht. split_and!; [by apply scan_token; eapply key_no_paren|by exists t, []|].
  intros n r Hn Hr. unfold parse_object_field. cbn [app]. erewrite run_key by done.
  rewrite run_current, decide_False; [done|]. by destruct Hr as [-> | ->].
Qed.
Definition fields_read b ts (fs : list (string * Expression)) : Prop :=
  scan_ok ts ∧ ∀ n r k acc, Lexer.weight ts ≤ n → Lexer.weight ts < k →
    until_loop RightBrace (parse_object_field (parse_expression n)) k acc
      (mkParser (ts ++ RightBrace :: r) b) = Done (acc ++ fs, mkParser (RightBrace :: r) b).
Lemma fields_item b ts f n r k acc :
  field_read b ts f → Lexer.weight ts ≤ n → cur r = Comma ∨ cur r = RightBrace →
  until_loop RightBrace (parse_object_field (parse_expression n)) (S k) acc (mkParser (ts ++ r) b) =
  (t ← current_token;
   if decide (t = Comma)
   then advance;; until_loop RightBrace (parse_object_field (parse_expression n)) k (acc ++ [f])
   else mret (acc ++ [f])) (mkParser r b).
Proof.
  intros (_ & (t & ts' & -> & Hk) & H) Hn Hr. cbn [until_loop]. rewrite run_current.
  change (cur ((t :: ts') ++ r)) with t. rewrite decide_False.
  - by erewrite run_bind by by apply H.
  - intros [-> | ->]; by destruct Hk.
Qed.
Lemma fields_read_nil b : fields_read b [] [].
Proof.
  split; [apply scan_nil|]. intros n r k acc _ Hk. destruct k as [|k]; [lia|]. cbn [until_loop app].
  rewrite run_current, decide_True by (by left). by rewrite app_nil_r.
Qed.
Lemma fields_read_last b ts f : field_read b ts f → fields_read b ts [f].
Proof.
  intros H. split; [apply H|]. intros n r k acc Hn Hk. destruct k as [|k]; [lia|].
  rewrite (fields_item b ts f) by (done || by right). rewrite run_current. by rewrite decide_False.
Qed.
Lemma fields_read_cons b ts f ts' fs :
  field_read b ts f → fields_read b ts' fs → fields_read b (ts ++ Comma :: ts') (f :: fs).
Proof.
  intros H [Hsc Hr]. split; [apply scan_app; [apply H|]; by apply scan_cons|].
  intros n r k acc Hn Hk. rewrite weight_app, weight_cons in Hn, Hk. cbn in Hn, Hk.
  destruct k as [|k]; [lia|]. rewrite <-app_assoc. cbn [app].
  rewrite (fields_item b ts f) by (done || lia || by left). rewrite run_current.
  rewrite decide_True by done. rewrite run_advance, Hr by lia. by rewrite <-app_assoc.
Qed.
Lemma claim_object b ts fs :
  fields_read b ts fs → claim b 16 (LeftBrace :: ts ++ [RightBrace]) (Expression.Object fs).
Proof.
  intros [Hsc H]. apply claim_primary; [done|done| |].
  { apply scan_cons; [done|]. apply scan_app; [done|by apply scan_token]. }
  intros n r Hn Hf. rewrite weight_cons, weight_app in Hn. cbn in Hn.
  unfold parse_primary_expression. rewrite run_current. change (cur (LeftBrace :: _)) with LeftBrace.
  cbv beta iota. unfold parse_object_expression. rewrite run_expect, <-app_assoc. cbn [app].
  unfold items_until. erewrite run_bind; [done|].
  erewrite run_bind; [|rewrite run_looping; apply H; [lia|cbn [rest]; rewrite weight_app; lia]].
  by rewrite run_expect.
Qed.

(** CASE: the operand, the turns of the WHEN loop, the ELSE branch. *)
Definition operand_read b ts (o : option Expression) : Prop :=
  scan_ok ts ∧ ∀ n r, Lexer.weight ts < n → cur r = When →
    (t ← current_token; if decide (t = When) then mret None else e ← parse_expression n; mret (Some e))
      (mkParser (ts ++ r) b) = Done (o, mkParser r b).
Definition else_read b ts (o : option Expression) : Prop :=
  scan_ok ts ∧ ∀ n r, Lexer.weight ts ≤ n → cur r = End →
    (t ← current_token;
     if decide (t = Else) then advance;; e ← parse_expression n; mret (Some e) else mret None)
      (mkParser (ts ++ r) b) = Done (o, mkParser r b) ∧
    (cur (ts ++ r) = Else ∨ cur (ts ++ r) = End).
Definition whens_read b ts (ws : list (Expression * Expression)) : Prop :=
  scan_ok ts ∧ (match ws with [] => ts = [] | _ => ∀ r, cur (ts ++ r) = When end) ∧
  ∀ n r k acc, Lexer.weight ts ≤ n → Lexer.weight ts < k → cur r = Else ∨ cur r = End →
    iterate (push_when (parse_expression n)) k acc (mkParser (ts ++ r) b) =
    Done (acc ++ ws, mkParser r b).
Lemma operand_none b : operand_read b [] None.
Proof.
  split; [apply scan_nil|]. intros n r _ Hr. cbn [app]. rewrite run_current, Hr. by rewrite decide_True.
Qed.
Lemma operand_some b ts e : claim b 0 ts e → operand_read b ts (Some e).
Proof.
  intros H. split; [apply H|]. intros n r Hn Hr. rewrite run_current, decide_False.
  - erewrite run_bind; [done|]. apply (run_rec b ts); [done|done|]. unfold follow. by rewrite Hr.
  - apply starter_not; [|done]. eapply cur_app, H.
Qed.
Lemma else_none b : else_read b [] None.
Proof.
  split; [apply scan_nil|]. intros n r _ Hr. cbn [app]. rewrite run_current, Hr.
  split; [by rewrite decide_False|by right].
Qed.
Lemma else_some b ts e : claim b 0 ts e → else_read b (Else :: ts) (Some e).
Proof.
  intros H. split; [apply scan_cons; [done|apply H]|]. intros n r Hn Hr. rewrite weight_cons in Hn. cbn in Hn.
  split; [|by left]. rewrite run_current, decide_True by done. cbn [app]. rewrite run_advance.
  erewrite run_bind; [done|]. apply (run_rec b ts); [done|lia|]. unfold follow. by rewrite Hr.
Qed.
Lemma whens_nil b : whens_read b [] [].
Proof.
  split; [apply scan_nil|]. split; [done|]. intros n r k acc _ Hk Hr. destruct k as [|k]; [lia|].
  cbn [iterate app]. unfold push_when, parse_when_clause.
  rewrite (run_bind _ _ _ None (mkParser r b)); [by rewrite app_nil_r|].
  rewrite (run_bind _ _ _ None (mkParser r b)); [done|]. rewrite run_current, decide_False; [done|].
  by destruct Hr as [-> | ->].
Qed.
Lemma whens_cons b tc c tr x ts ws :
  claim b 0 tc c → claim b 0 tr x → whens_read b ts ws →
  whens_read b (When :: tc ++ Then :: tr ++ ts) ((c, x) :: ws).
Proof.
  intros Hc Hx (Hsc & Hwh & Hr). split_and!; [|done|].
  { apply scan_cons; [done|]. apply scan_app; [apply Hc|]. apply scan_cons; [done|].
    apply scan_app; [apply Hx|done]. }
  intros n r k acc Hn Hk Hend. rewrite weight_cons, weight_app, weight_cons, weight_app in Hn, Hk.
  cbn in Hn, Hk. destruct k as [|k]; [lia|]. cbn [iterate].
  assert (follow b 0 (ts ++ r)) as Hf.
  { unfold follow. destruct ws as [|w ws]; [|by rewrite Hwh]. subst ts. cbn [app]. by destruct Hend as [-> | ->]. }
  rewrite (run_bind _ _ _ (Some (acc ++ [(c, x)])) (mkParser (ts ++ r) b)).
  { rewrite Hr by (done || lia). by rewrite <-app_assoc. }
  unfold push_when, parse_when_clause. rewrite (run_bind _ _ _ (Some (c, x)) (mkParser (ts ++ r) b)); [done|].
  rewrite run_current, decide_True by done. cbn [app]. rewrite run_advance, <-app_assoc. cbn [app].
  erewrite run_bind by (apply (run_rec b tc); [done|lia|done]). rewrite run_current, decide_True by done.
  rewrite run_advance, <-app_assoc. by erewrite run_bind by (apply (run_rec b tr); [done|lia|done]).
Qed.
Lemma claim_case b to operand tw ws te el :
  operand_read b to operand → whens_read b tw ws → ws ≠ [] → else_read b te el →
  claim b 16 (Case :: to ++ tw ++ te ++ [End]) (Expression.Case operand ws el).
Proof.
  intros [Hso Ho] (Hsw & Hwh & Hw) Hne [Hse He]. apply claim_primary; [done|done| |].
  { apply scan_cons; [done|]. apply scan_app; [done|]. apply scan_app; [done|].
    apply scan_app; [done|by apply scan_token]. }
  intros n r Hn Hf. rewrite weight_cons, !weight_app in Hn. cbn in Hn.
  unfold parse_primary_expression. rewrite run_current. cbv beta iota.
  change (cur (Case :: _)) with Case. cbv beta iota. unfold parse_case_expression.
  rewrite run_advance, <-!app_assoc. cbn [app].
  specialize (Ho n (tw ++ te ++ End :: r) ltac:(lia)).
  assert (cur (tw ++ te ++ End :: r) = When) as Hcw by (destruct ws; [done|apply Hwh]).
  specialize (Ho Hcw). destruct (He n (End :: r) ltac:(lia) eq_refl) as [Hel Hcur].
  rewrite run_current. rewrite run_current in Ho. rewrite (run_bind _ _ _ _ _ Ho).
  unfold iterate_from. erewrite run_bind;
    [|rewrite run_looping; apply Hw; [lia|cbn [rest]; rewrite weight_app; lia|done]].
  cbn [app]. destruct ws as [|w ws]; [done|]. rewrite run_current. rewrite run_current in Hel.
  rewrite (run_bind _ _ _ _ _ Hel). by rewrite run_current, decide_True.
Qed.

Definition template_read (ps : list TemplatePart) (es : list (TemplateStringPart Expression)) : Prop :=
  ∀ n s acc, Lexer.parts_weight ps < n →
    parse_template_parts (parse_expression n) ps acc s = Done (acc ++ es, s).
Lemma template_nil : template_read [] [].
Proof. intros n s acc _. cbn. by rewrite app_nil_r. Qed.
Lemma template_literal t ps es :
  template_read ps es → template_read (TLiteral t :: ps) (TemplateStringPart.Literal t :: es).
Proof.
  intros H n s acc Hn. cbn [parse_template_parts parse_template_part].
  rewrite (run_bind _ _ _ (TemplateStringPart.Literal t) s) by done.
  rewrite H; [by rewrite <-app_assoc|]. exact Hn.
Qed.
Lemma template_expression t ts e ps es :
  Lexer.tokenize t = Done (ts ++ [Eof]) → claim true 0 ts e → template_read ps es →
  template_read (TExpression t :: ps) (TemplateStringPart.Expression e :: es).
Proof.
  intros Ht H Hps n s acc Hn. unfold Lexer.parts_weight in Hn. simpl in Hn.
  pose proof (Lexer.tokenize_weight t) as Hw. rewrite Ht in Hw.
  destruct Hw as (ts' & [-> _]%app_inj_2 & _ & Hw & _); [|done].
  cbn [parse_template_parts parse_template_part].
  rewrite (run_bind _ _ _ (TemplateStringPart.Expression e) s).
  - rewrite Hps; [by rewrite <-app_assoc|]. unfold Lexer.parts_weight. lia.
  - rewrite Ht. cbn [mbind outcome_mbind outcome_bind].
    by rewrite (run_rec true ts' e n [Eof] H ltac:(lia) I).
Qed.
Lemma claim_template b ps es :
  template_read ps es → claim b 16 [TemplateString ps] (Expression.TemplateString es).
Proof.
  intros H. apply claim_primary; [done|done|by apply scan_token|]. intros n r Hn Hf.
  unfold Lexer.weight in Hn. simpl in Hn.
  unfold parse_primary_expression. rewrite run_current. change (cur (TemplateString ps :: _)) with (TemplateString ps).
  cbv beta iota. cbn [app]. rewrite run_advance. unfold parse_template_string.
  by erewrite run_bind by (apply H; lia).
Qed.

(** *** Every phrase *)

Lemma phrase_claim b l ts e : phrase b l ts e → claim b l ts e.
Proof.
  revert b l ts e.
  apply (phrase_mut Num _ _ _ _ (λ b l ts e _, claim b l ts e) (λ b ts es _, items_read b ts es)
    (λ b ts f _, field_read b ts f) (λ b ts fs _, fields_read b ts fs)
    (λ b ts o _, operand_read b ts o) (λ b ts ws _, whens_read b ts ws)
    (λ b ts o _, else_read b ts o) (λ b ps es _, template_read ps es)); intros.
  - by apply claim_lift.
  - by apply claim_ternary.
  - by apply claim_lambda1.
  - by apply claim_lambda.
  - by apply claim_any.
  - by apply claim_binary.
  - by apply claim_pipeline.
  - by apply claim_range.
  - by apply claim_unary.
  - by apply claim_field.
  - by apply claim_optional.
  - by apply claim_bracket.
  - by apply claim_spread.
  - by apply claim_atom.
  - by apply claim_paren.
  - by apply claim_call.
  - by eapply claim_keyword_call.
  - by apply claim_array.
  - by apply claim_object.
  - by apply claim_case.
  - by apply claim_template.
  - apply items_read_nil.
  - by apply items_read_last.
  - by apply items_read_cons.
  - by apply field_read_value.
  - by apply field_read_short.
  - apply fields_read_nil.
  - by apply fields_read_last.
  - by apply fields_read_cons.
  - apply operand_none.
  - by apply operand_some.
  - apply whens_nil.
  - by apply whens_cons.
  - apply else_none.
  - by apply else_some.
  - apply template_nil.
  - by apply template_literal.
  - by eapply template_expression.
Qed.
End Rules.
