(* ===== verification/SdbqlPrint.v ===== *)
(** * SDBQL: writing tokens as text, and reading them back

    [spell] is a text for a token: keywords in capitals, identifiers between
    backticks, strings with their quotes and backslashes escaped. [render] puts a
    space behind each. [tokenize_render] shows that the lexer reads the tokens
    back, whatever the identifiers and the strings contain. *)

From S2P Require Import Prelude Text Json Transaction SdbqlLexer.
Import Token.

(** ** Characters *)

Definition wf_char (c : char) : bool :=
  match c with
  | String b c' => negb (continuation b) && str_all continuation c'
  | EmptyString => false
  end.
Lemma chars_char b c s :
  str_all continuation c = true → continues s = false → chars (String b c +:+ s) = String b c :: chars s.
Proof.
  revert b. induction c as [|b' c IH]; intros b Hc Hs.
  - change (String b "" +:+ s) with (String b s). cbn [chars]. rewrite Hs. by destruct (chars s).
  - cbn [str_all] in Hc. apply andb_true_iff in Hc as [Hb' Hc].
    change (String b (String b' c) +:+ s) with (String b (String b' c +:+ s)). cbn [chars].
    rewrite (IH b' Hc Hs). change (continues (String b' c +:+ s)) with (continuation b').
    by rewrite Hb'.
Qed.
Lemma continues_of_chars cs : Forall (λ c, wf_char c = true) cs → continues (of_chars cs) = false.
Proof.
  destruct 1 as [|c cs Hc _]; [done|]. destruct c as [|b c]; [done|]. cbn in *.
  apply andb_true_iff in Hc as [Hb _]. by apply negb_true_iff in Hb.
Qed.
Lemma chars_of_chars cs : Forall (λ c, wf_char c = true) cs → chars (of_chars cs) = cs.
Proof.
  induction 1 as [|c cs Hc Hcs IH]; [done|]. cbn [of_chars]. destruct c as [|b c]; [done|].
  apply andb_true_iff in Hc as [_ Hc]. by rewrite chars_char, IH; [|done|apply continues_of_chars].
Qed.
Lemma chars_shape s :
  match chars s with
  | [] => s = ""
  | c :: cs => (∃ b s' c', s = String b s' ∧ c = String b c' ∧ str_all continuation c' = true) ∧
               Forall (λ c, wf_char c = true) cs
  end.
Proof.
  induction s as [|b s IH]; [done|]. cbn [chars]. destruct (chars s) as [|c cs].
  { subst s. split; [by exists b, "", ""|constructor]. }
  destruct IH as [(b' & s' & c' & -> & -> & Hc') Hcs]. cbn [continues].
  destruct (continuation b') eqn:Hb'.
  - split; [|done]. eexists b, _, _. split_and!; [done|done|]. cbn. by rewrite Hb', Hc'.
  - split; [by eexists b, _, ""|]. constructor; [|done]. cbn. by rewrite Hb', Hc'.
Qed.
Lemma chars_wf s : continues s = false → Forall (λ c, wf_char c = true) (chars s).
Proof.
  intros Hs. pose proof (chars_shape s) as H. destruct (chars s) as [|c cs]; [constructor|].
  destruct H as [(b & s' & c' & -> & -> & Hc') Hcs]. constructor; [|done]. cbn in *. by rewrite Hs, Hc'.
Qed.

(** ** Spelling *)

Definition keyword_text (t : Token) : option (list char) :=
  (λ p, chars p.2.1) <$> list_find (λ p, p.2 = t) Lexer.keywords.
Definition operator_texts : list (Token * list char) :=
  '(c, (seconds, t)) ← Lexer.operators;
  (t, [c]) :: ((λ p : char * Token, (p.2, [c; p.1])) <$> seconds).
Definition operator_text (t : Token) : option (list char) :=
  (λ p, p.2.2) <$> list_find (λ p, p.1 = t) operator_texts.

Definition escape (c : char) : list char :=
  if String.eqb c Lexer.quote_mark || String.eqb c Lexer.backslash then [Lexer.backslash; c] else [c].

Section Spell.
Context `{char_tables : !CharTables}.
Definition spell (t : Token) : option (list char) :=
  match t with
  | Identifier x =>
      if continues x || existsb (String.eqb "`") (chars x) then None
      else Some ("`" :: chars x ++ ["`"])
  | BindVar x =>
      if String.eqb x "" || continues x || negb (forallb Lexer.word_char (chars x)) then None
      else Some ("@" :: chars x)
  | Integer n =>
      if (0 <=? n)%Z && (n <=? i64_max)%Z then Some (chars (dec (Z.to_N n))) else None
  | TString s =>
      if continues s then None
      else Some (Lexer.quote_mark :: (c ← chars s; escape c) ++ [Lexer.quote_mark])
  | Float _ | TemplateString _ | Eof => None
  | t => match keyword_text t with Some cs => Some cs | None => operator_text t end
  end.
Fixpoint spell_all (ts : list Token) : option (list char) :=
  match ts with
  | [] => Some []
  | t :: ts' => cs ← spell t; cs' ← spell_all ts'; Some (cs ++ " " :: cs')
  end.
Definition render (ts : list Token) : option string := of_chars <$> spell_all ts.

(** ** Reading back *)

Context `{float_text : !FloatText} `{char_laws : !CharTablesLaws}.
Implicit Types (l : list char) (c : char).

(** The tables on an ASCII character, as one value. *)
Definition class_of c : bool * bool * bool := (ascii_space c, ascii_digit c, ascii_letter c).
Lemma ascii_class c sp di le :
  is_ascii c = true → class_of c = (sp, di, le) →
  is_whitespace c = sp ∧ is_numeric c = di ∧ is_alphabetic c = le ∧
  Lexer.word_char c = le || di || String.eqb c "_".
Proof.
  intros Ha [= <- <- <-]. unfold Lexer.word_char.
  by rewrite alphanumeric_or, whitespace_ascii, numeric_ascii, alphabetic_ascii.
Qed.
(** The special first characters. *)
Definition special c : bool :=
  existsb (String.eqb c) ["$"; Lexer.quote_mark; Lexer.apostrophe; "`"; "@"; "-"; "_"].
Lemma letter_facts c :
  ascii_letter c = true → is_ascii c = true ∧ class_of c = (false, false, true) ∧ special c = false ∧
  wf_char c = true.
Proof.
  destruct c as [|b [|]]; try done. by destruct b as [[] [] [] [] [] [] [] []]; vm_compute.
Qed.
Lemma digit_facts c :
  ascii_digit c = true → is_ascii c = true ∧ class_of c = (false, true, false) ∧ special c = false ∧
  wf_char c = true.
Proof.
  destruct c as [|b [|]]; try done. by destruct b as [[] [] [] [] [] [] [] []]; vm_compute.
Qed.
Lemma space_word : Lexer.word_char " " = false.
Proof. by destruct (ascii_class " " true false false eq_refl eq_refl) as (_ & _ & _ & ->). Qed.
Lemma space_numeric : is_numeric " " = false.
Proof. by destruct (ascii_class " " true false false eq_refl eq_refl) as (_ & -> & _). Qed.

Lemma word_text_read cs acc l :
  forallb Lexer.word_char cs = true →
  Lexer.word_text acc (cs ++ " " :: l) = (acc +:+ of_chars cs, " " :: l).
Proof.
  revert acc. induction cs as [|c cs IH]; intros acc H; cbn [app Lexer.word_text].
  - by rewrite space_word, str_app_nil_r.
  - cbn in H. apply andb_true_iff in H as [-> H]. rewrite (IH _ H). cbn [of_chars].
    by rewrite str_app_assoc.
Qed.
Lemma next_word f c cs l :
  ascii_letter c = true → forallb Lexer.word_char cs = true →
  Lexer.next_token (S f) (c :: cs ++ " " :: l) =
  Done (Lexer.keyword_or_identifier (c +:+ of_chars cs), " " :: l).
Proof.
  intros Hc Hcs. destruct (letter_facts c Hc) as (Ha & Hcl & Hsp & _).
  destruct (ascii_class c _ _ _ Ha Hcl) as (Hw & Hn & Hal & Hwc). cbn in Hsp.
  repeat (apply orb_false_iff in Hsp as [? Hsp]).
  cbn [Lexer.next_token Lexer.skip_whitespace]. rewrite Hw, Hn.
  repeat match goal with H : String.eqb c _ = false |- _ => rewrite H; clear H end. cbn [andb orb].
  rewrite Hal. cbn [orb]. unfold Lexer.read_identifier. cbn [Lexer.word_text]. rewrite Hwc.
  cbn [orb]. by rewrite (word_text_read cs _ l Hcs).
Qed.

Definition keyword_ok (p : string * Token) : bool :=
  match chars p.1 with
  | c :: cs => ascii_letter c && forallb (λ c, ascii_letter c || String.eqb c "_") cs &&
               bool_decide (Lexer.assoc (ascii_upper p.1) Lexer.keywords = Some p.2) && is_ascii p.1 &&
               forallb wf_char (c :: cs)
  | [] => false
  end.
Lemma keywords_ok : forallb keyword_ok Lexer.keywords = true.
Proof. by vm_compute. Qed.
Lemma keyword_read f p l :
  p ∈ Lexer.keywords →
  Lexer.next_token (S f) (chars p.1 ++ " " :: l) = Done (p.2, " " :: l) ∧
  Forall (λ c, wf_char c = true) (chars p.1).
Proof.
  intros Hp. pose proof keywords_ok as Hok. rewrite forallb_forall in Hok.
  specialize (Hok p (proj1 (list_elem_of_In _ _) Hp)). unfold keyword_ok in Hok.
  pose proof (Lexer.of_chars_chars p.1) as Hk. destruct (chars p.1) as [|c cs]; [done|].
  apply andb_true_iff in Hok as [Hok Hwf]. apply andb_true_iff in Hok as [Hok Hasc].
  apply andb_true_iff in Hok as [Hok Hassoc]. apply andb_true_iff in Hok as [Hc Hcs].
  apply bool_decide_eq_true in Hassoc. rewrite forallb_forall in Hcs, Hwf.
  assert (forallb Lexer.word_char cs = true) as Hword.
  { apply forallb_forall. intros x Hx. specialize (Hcs x Hx). apply orb_true_iff in Hcs as [Hl|Hu].
    - destruct (letter_facts x Hl) as (Ha & Hcl & _).
      by destruct (ascii_class x _ _ _ Ha Hcl) as (_ & _ & _ & ->).
    - unfold Lexer.word_char. by rewrite Hu, orb_true_r. }
  split.
  - cbn [app]. rewrite next_word by done. cbn [of_chars] in Hk. rewrite Hk.
    unfold Lexer.keyword_or_identifier. by rewrite uppercase_ascii, Hassoc by done.
  - apply Forall_forall. intros x Hx. apply Hwf. by apply list_elem_of_In.
Qed.

(** Operators. *)
Definition operator_ok (p : char * (list (char * Token) * Token)) : bool :=
  let c := p.1 in
  is_ascii c && bool_decide (class_of c = (false, false, false)) && negb (String.eqb c "_") &&
  negb (String.eqb c "$") && negb (String.eqb c Lexer.quote_mark) && negb (String.eqb c Lexer.apostrophe) &&
  negb (String.eqb c "`") && negb (String.eqb c "@") &&
  bool_decide (Lexer.assoc c Lexer.operators = Some p.2) && bool_decide (Lexer.assoc " " p.2.1 = None) &&
  forallb (λ q, bool_decide (Lexer.assoc q.1 p.2.1 = Some q.2) && negb (String.eqb q.1 "-") && wf_char q.1) p.2.1 &&
  wf_char c.
Lemma operators_ok : forallb operator_ok Lexer.operators = true.
Proof. by vm_compute. Qed.
Lemma next_operator f p c2 l :
  p ∈ Lexer.operators → String.eqb c2 "-" = false →
  Lexer.next_token (S f) (p.1 :: c2 :: l) = Done (Lexer.read_operator p.2 (c2 :: l)).
Proof.
  intros Hp Hc2. pose proof operators_ok as Hok. rewrite forallb_forall in Hok.
  specialize (Hok p (proj1 (list_elem_of_In _ _) Hp)). unfold operator_ok in Hok.
  destruct p as [c entry]. cbn [fst snd] in *.
  repeat (apply andb_true_iff in Hok as [Hok ?]).
  repeat match goal with H : negb _ = true |- _ => apply negb_true_iff in H end.
  repeat match goal with H : bool_decide _ = true |- _ => apply bool_decide_eq_true in H end.
  destruct (ascii_class c false false false) as (Hw & Hn & Hal & _); [done..|].
  cbn [Lexer.next_token Lexer.skip_whitespace]. rewrite Hw, Hn.
  repeat match goal with H : String.eqb c _ = false |- _ => rewrite H; clear H end. cbn [andb orb].
  rewrite Hal. cbn [orb]. cbn [Lexer.current_char head Lexer.is_char]. rewrite Hc2, andb_false_r.
  by match goal with H : Lexer.assoc c _ = _ |- _ => rewrite H end.
Qed.
Lemma operator_text_read f t cs l :
  (t, cs) ∈ operator_texts →
  Lexer.next_token (S f) (cs ++ " " :: l) = Done (t, " " :: l) ∧ Forall (λ c, wf_char c = true) cs.
Proof.
  unfold operator_texts. intros ([c [seconds t0]] & Hin & Hp)%list_elem_of_bind.
  pose proof operators_ok as Hok. rewrite forallb_forall in Hok.
  specialize (Hok _ (proj1 (list_elem_of_In _ _) Hp)). unfold operator_ok in Hok. cbn [fst snd] in Hok.
  apply andb_true_iff in Hok as [Hok Hwf]. apply andb_true_iff in Hok as [Hok Hsec].
  apply andb_true_iff in Hok as [_ Hsp]. apply bool_decide_eq_true in Hsp.
  apply elem_of_cons in Hin as [[= -> ->]|Hin].
  - split; [|by repeat constructor]. cbn [app].
    rewrite (next_operator f (c, (seconds, t0)) " ") by done.
    unfold Lexer.read_operator. cbn. by rewrite Hsp.
  - apply list_elem_of_fmap in Hin as ([c2 t2] & [= -> ->] & Hq).
    rewrite forallb_forall in Hsec. specialize (Hsec _ (proj1 (list_elem_of_In _ _) Hq)). cbn in Hsec.
    apply andb_true_iff in Hsec as [Hsec Hwf2]. apply andb_true_iff in Hsec as [Hassoc Hne].
    apply bool_decide_eq_true in Hassoc. apply negb_true_iff in Hne.
    split; [|by repeat constructor]. cbn [app].
    rewrite (next_operator f (c, (seconds, t0)) c2) by done.
    unfold Lexer.read_operator. cbn. by rewrite Hassoc.
Qed.

(** A first character that is special: neither space, digit nor letter. *)
Lemma next_special c :
  is_ascii c = true → class_of c = (false, false, false) →
  is_whitespace c = false ∧ is_numeric c = false ∧ is_alphabetic c = false.
Proof. intros Ha Hcl. by destruct (ascii_class c _ _ _ Ha Hcl) as (Hw & Hn & Hal & _). Qed.
Lemma quoted_read cs acc l :
  existsb (String.eqb "`") cs = false →
  Lexer.quoted_text acc (cs ++ "`" :: l) = Done (Identifier (acc +:+ of_chars cs), l).
Proof.
  revert acc. induction cs as [|c cs IH]; intros acc H; cbn [app Lexer.quoted_text].
  - cbn. by rewrite str_app_nil_r.
  - cbn [existsb] in H. apply orb_false_iff in H as [Hc H]. rewrite String.eqb_sym, Hc, (IH _ H). cbn [of_chars].
    by rewrite str_app_assoc.
Qed.
Lemma string_read cs acc l :
  Lexer.string_text Lexer.quote_mark acc ((c ← cs; escape c) ++ Lexer.quote_mark :: l) =
  Done (TString (acc +:+ of_chars cs), l).
Proof.
  revert acc. induction cs as [|c cs IH]; intros acc; [cbn; by rewrite str_app_nil_r|].
  rewrite bind_cons, <-app_assoc.
  cbn [of_chars]. rewrite <-str_app_assoc. unfold escape at 1.
  destruct (String.eqb c Lexer.quote_mark || String.eqb c Lexer.backslash) eqn:Hc.
  - cbn [app Lexer.string_text].
    change (String.eqb Lexer.backslash Lexer.quote_mark) with false.
    change (String.eqb Lexer.backslash Lexer.backslash) with true. cbv iota.
    assert (Lexer.unescape c = c) as ->.
    { apply orb_true_iff in Hc as [->%String.eqb_eq| ->%String.eqb_eq]; done. }
    apply IH.
  - apply orb_false_iff in Hc as [Hq Hb]. cbn [app Lexer.string_text]. rewrite Hq, Hb. apply IH.
Qed.
Lemma number_read cs acc l :
  forallb ascii_digit cs = true →
  Lexer.number_text acc false (cs ++ " " :: l) = (acc +:+ of_chars cs, false, " " :: l).
Proof.
  revert acc. induction cs as [|c cs IH]; intros acc H; cbn [app Lexer.number_text].
  - rewrite space_numeric. cbn. by rewrite str_app_nil_r.
  - cbn in H. apply andb_true_iff in H as [Hc H]. destruct (digit_facts c Hc) as (Ha & Hcl & _).
    destruct (ascii_class c _ _ _ Ha Hcl) as (_ & -> & _). rewrite (IH _ H). cbn [of_chars].
    by rewrite str_app_assoc.
Qed.

Lemma dec_digits n : forallb ascii_digit (chars (dec n)) = true ∧ chars (dec n) ≠ [].
Proof.
  assert (∀ s, str_all (λ b, ascii_digit (String b "")) s = true →
    forallb ascii_digit (chars s) = true ∧ continues s = false) as H.
  { induction s as [|b s IH]; [done|]. cbn [str_all]. intros [Hb Hs]%andb_true_iff.
    destruct (IH Hs) as [IH1 IH2]. cbn [chars continues]. rewrite IH2.
    split; [destruct (chars s); cbn in *; by rewrite Hb|].
    destruct (digit_facts (String b "") Hb) as (_ & _ & _ & Hw). cbn in Hw.
    apply andb_true_iff in Hw as [Hw _]. by apply negb_true_iff. }
  split.
  - apply H. unfold dec, Radix.pad. generalize (Nat.max 1 (Radix.width 10 n)) as w. intros w. revert n.
    induction w as [|w IH]; intros n; [done|]. cbn [Radix.fixed]. rewrite str_all_app, IH. cbn [str_all andb].
    rewrite andb_true_r. assert (n mod 10 < 10)%N as Hd by (by apply N.mod_lt). revert Hd.
    generalize (n mod 10)%N. intros d Hd.
    assert (d ∈ (N.of_nat <$> seq 0 10)) as Hin.
    { apply list_elem_of_fmap. exists (N.to_nat d). rewrite elem_of_seq. lia. }
    cbn in Hin. repeat (apply elem_of_cons in Hin as [->|Hin]; [done|]). by apply elem_of_nil in Hin.
  - intros Hc. apply (dec_nonempty n). by rewrite <-(Lexer.of_chars_chars (dec n)), Hc.
Qed.
Lemma parse_i64_dec n : (n < 2 ^ 63)%N → parse_i64 (dec n) = Some (Z.of_N n).
Proof.
  intros Hn. unfold parse_i64. destruct (dec n) as [|c s] eqn:Hd; [by apply dec_nonempty in Hd|].
  destruct (Ascii.eqb_spec c "-") as [->|_].
  { destruct (dec_digits n) as [Hall _]. rewrite Hd in Hall. cbn [chars] in Hall.
    destruct (chars s) as [|c' cs]; [done|]. by destruct (continues s), c'. }
  rewrite <-Hd. unfold dec. by rewrite Radix.from_str_radix_pad.
Qed.

(** A spelled token followed by a space is read back. *)
Definition spelled f t cs l : Prop :=
  Lexer.next_token (S f) (cs ++ " " :: l) = Done (t, " " :: l) ∧ Forall (λ c, wf_char c = true) cs.
Lemma spelled_fixed f t cs l :
  match keyword_text t with Some cs => Some cs | None => operator_text t end = Some cs → spelled f t cs l.
Proof.
  destruct (keyword_text t) as [k|] eqn:Hk.
  - intros [= <-]. unfold keyword_text in Hk. apply fmap_Some in Hk as ([i p] & Hp & ->).
    apply list_find_Some in Hp as (Hp%list_elem_of_lookup_2 & <- & _). by apply keyword_read.
  - intros Ho. unfold operator_text in Ho. apply fmap_Some in Ho as ([i [t' cs']] & Hp & ->).
    apply list_find_Some in Hp as (Hp%list_elem_of_lookup_2 & <- & _). by apply operator_text_read.
Qed.
Lemma spelled_read f t cs l : spell t = Some cs → spelled f t cs l.
Proof.
  destruct t; cbn [spell]; try (apply spelled_fixed); try (by intros [=]).
  - destruct (continues s || _) eqn:Hs; [done|]. intros [= <-]. apply orb_false_iff in Hs as [Hs Hq].
    split; [|constructor; [done|]; apply Forall_app; split; [by apply chars_wf|by repeat constructor]].
    cbn [app Lexer.next_token Lexer.skip_whitespace].
    destruct (next_special "`") as (-> & -> & _); [done..|]. cbn. unfold Lexer.read_quoted_identifier. cbn [Lexer.advance tail].
    rewrite <-app_assoc. cbn [app]. rewrite quoted_read by done. by rewrite Lexer.of_chars_chars.
  - destruct (String.eqb s "" || _ || _) eqn:Hs; [done|]. intros [= <-].
    apply orb_false_iff in Hs as [Hs Hw]. apply orb_false_iff in Hs as [He Hs]. apply negb_false_iff in Hw.
    split; [|constructor; [done|by apply chars_wf]]. cbn [app Lexer.next_token Lexer.skip_whitespace].
    destruct (next_special "@") as (-> & -> & ->); [done..|]. cbn.
    unfold Lexer.read_bind_var. cbn [Lexer.advance tail]. rewrite word_text_read by done.
    rewrite Lexer.of_chars_chars. cbn [append]. change ("" +:+ s) with s. by rewrite He.
  - destruct ((0 <=? n)%Z && (n <=? i64_max)%Z) eqn:Hn; [|done]. intros [= <-].
    apply andb_true_iff in Hn as [H0%Z.leb_le H1%Z.leb_le].
    destruct (dec_digits (Z.to_N n)) as [Hall Hne].
    pose proof (Lexer.of_chars_chars (dec (Z.to_N n))) as Hoc.
    destruct (chars (dec (Z.to_N n))) as [|c cs]; [done|]. pose proof Hall as Hall'. cbn in Hall.
    apply andb_true_iff in Hall as [Hc Hall]. destruct (digit_facts c Hc) as (Ha & Hcl & _ & _).
    destruct (ascii_class c _ _ _ Ha Hcl) as (Hw & Hnu & _). split.
    + cbn [app Lexer.next_token Lexer.skip_whitespace]. rewrite Hw, Hnu. unfold Lexer.read_number.
      change (c :: cs ++ " " :: l) with ((c :: cs) ++ " " :: l). rewrite number_read by done.
      rewrite Hoc. change ("" +:+ dec (Z.to_N n)) with (dec (Z.to_N n)).
      rewrite parse_i64_dec by (unfold i64_max in H1; lia). cbn. by rewrite Z2N.id.
    + apply Forall_forall. intros x Hx%list_elem_of_In. rewrite forallb_forall in Hall'.
      apply Hall' in Hx. by apply digit_facts in Hx as (_ & _ & _ & ?).
  - destruct (continues s) eqn:Hs; [done|]. intros [= <-]. split.
    + cbn [app Lexer.next_token Lexer.skip_whitespace].
      destruct (next_special Lexer.quote_mark) as (-> & -> & _); [done..|]. cbn. unfold Lexer.read_string. cbn [Lexer.current_char head Lexer.advance tail].
      rewrite <-app_assoc. cbn [app]. rewrite string_read. by rewrite Lexer.of_chars_chars.
    + constructor; [done|]. apply Forall_app. split; [|by repeat constructor].
      apply Forall_forall. intros x (c & Hx & Hc)%list_elem_of_bind.
      pose proof (chars_wf s Hs) as Hwf. rewrite Forall_forall in Hwf. specialize (Hwf c Hc).
      unfold escape in Hx. destruct (_ || _).
      * repeat (apply elem_of_cons in Hx as [->|Hx]; [done|]). by apply elem_of_nil in Hx.
      * apply elem_of_cons in Hx as [->|Hx]; [done|]. by apply elem_of_nil in Hx.
Qed.

Lemma next_space f l : Lexer.next_token (S f) (" " :: l) = Lexer.next_token (S f) l.
Proof.
  cbn [Lexer.next_token Lexer.skip_whitespace].
  by destruct (ascii_class " " true false false eq_refl eq_refl) as (-> & _).
Qed.
Lemma spell_not_eof t cs : spell t = Some cs → t ≠ Eof.
Proof. by intros H ->. Qed.
Lemma tokens_of_spelled ts cs n acc (space : bool) :
  spell_all ts = Some cs → length ts < n →
  Lexer.tokens_of n acc ((if space then [" "] else []) ++ cs) = Done (acc ++ ts ++ [Eof]) ∧
  Forall (λ c, wf_char c = true) cs ∧ length ts ≤ length cs.
Proof.
  revert cs n acc space. induction ts as [|t ts IH]; intros cs n acc space Hcs Hn.
  - injection Hcs as <-. destruct n as [|n]; [lia|]. split; [|by split; [constructor|]].
    cbn [Lexer.tokens_of]. by destruct space; cbn [app]; rewrite ?next_space.
  - cbn [spell_all] in Hcs. destruct (spell t) as [c1|] eqn:Ht; [|done]. cbn in Hcs.
    destruct (spell_all ts) as [c2|] eqn:Hts; [|done]. cbn in Hcs. injection Hcs as <-.
    destruct n as [|n]; [simpl in Hn; lia|].
    destruct (IH c2 n (acc ++ [t]) true eq_refl ltac:(simpl in Hn; lia)) as (Hrun & Hwf & Hlen).
    split_and!.
    + cbn [Lexer.tokens_of]. assert (∀ f, Lexer.next_token (S f)
        ((if space then [" "] else []) ++ c1 ++ " " :: c2) = Done (t, " " :: c2)) as ->.
      { intros f. destruct space; cbn [app]; rewrite ?next_space; by apply spelled_read. }
      cbn [mbind outcome_mbind outcome_bind]. rewrite decide_False by by eapply spell_not_eof.
      rewrite <-app_assoc in Hrun. exact Hrun.
    + apply Forall_app. split; [by apply (spelled_read 0 t c1 [])|]. by constructor.
    + rewrite length_app. simpl. eapply Nat.le_trans; [apply le_n_S, Hlen|apply Nat.le_add_l].
Qed.
Lemma tokenize_spelled ts s : render ts = Some s → Lexer.tokenize s = Done (ts ++ [Eof]).
Proof.
  unfold render. intros (cs & Hcs & ->)%fmap_Some.
  destruct (tokens_of_spelled ts cs (S (length ts)) [] false Hcs ltac:(lia)) as (_ & Hwf & Hlen).
  unfold Lexer.tokenize, Lexer.new. rewrite chars_of_chars by done.
  apply (tokens_of_spelled ts cs _ [] false Hcs).
  rewrite <-Lexer.bytes_of_chars.
  assert (length cs ≤ Lexer.bytes cs); [|lia]. apply Lexer.bytes_length.
  eapply Forall_impl; [exact Hwf|]. by intros [|] ?.
Qed.
End Spell.
