(* ===== verification/SdbqlProps.v ===== *)
(** * SDBQL: what the lexer and the parser guarantee

    Termination and safety on every input, the expression grammar, the round trip
    through text and what a query that is accepted has. *)

From S2P Require Import Prelude Text Json Transaction Codec SdbqlLexer SdbqlAst SdbqlParser SdbqlTotal SdbqlFuel SdbqlGrammar SdbqlParsed SdbqlPrint.
Import Token Cursor Parse.

Section Props.
Context {Num : Type} `{json_number : !JsonNumber Num} `{json_text : !JsonText Num}.
Context `{char_tables : !CharTables} `{float_text : !FloatText} `{token_show : !TokenDebug}.
Notation Expression := (Expression Num).
Notation Query := (Query Expression).

(** ** Helpers *)

(** The query that only returns an expression. *)
Definition return_query (e : Expression) : Query :=
  mkQuery [] [] [] [] None None (Some (mkReturn e)) None None None None [].
(** A query that does something, in the terms of the validation. *)
Definition effective (q : Query) : bool :=
  negb (bool_decide (return_clause q = None)) || existsb is_mutation (body_clauses q) ||
  negb (bool_decide (create_stream_clause q = None)) ||
  negb (bool_decide (create_materialized_view_clause q = None)) ||
  negb (bool_decide (refresh_materialized_view_clause q = None)).

Lemma iterate_stop {A} (step : A → P (option A)) x s :
  step x s = Done (None, s) → iterate_from step x s = Done (x, s).
Proof.
  intros H. unfold iterate_from. rewrite run_looping. cbn [iterate]. by erewrite run_bind by exact H.
Qed.
Lemma optional_skip {A} k (c : P A) r b :
  cur r ≠ k → optional_clause k c (mkParser r b) = Done (None, mkParser r b).
Proof. intros H. unfold optional_clause. rewrite run_current. by rewrite decide_False. Qed.

(** The clauses in front of a RETURN are all skipped. *)
Lemma run_return n r b :
  query_clauses (parse_expression (Num:=Num) n) (parse_query n) true (mkParser (Return :: r) b) =
  query_end (parse_expression n) true None None None [] (mkBody [] [] []) (mkParser (Return :: r) b).
Proof.
  unfold query_clauses. erewrite run_bind; [|done]. cbv beta iota.
  erewrite run_bind by by apply optional_skip.
  erewrite run_bind by by apply iterate_stop.
  by erewrite run_bind by by apply iterate_stop.
Qed.
Lemma run_return_end n r b (o : outcome (Expression * Parser)) :
  parse_expression (Num:=Num) n (mkParser r b) = o →
  query_end (parse_expression n) true None None None [] (mkBody [] [] []) (mkParser (Return :: r) b) =
  ('(e, s) ← o; '(_, s') ← check_query (return_query e) s; Done (return_query e, s')).
Proof.
  intros Ho. unfold query_end.
  erewrite run_bind by by apply optional_skip.
  erewrite run_bind by by apply optional_skip.
  unfold optional_clause at 1, parse_return_clause. unfold mbind at 1, P_bind at 1.
  rewrite run_current. cbn [cur]. rewrite decide_True by done.
  unfold mbind at 1, P_bind at 1. rewrite run_expect. unfold mbind at 1, P_bind at 1. rewrite Ho.
  destruct o as [[e s]| | |]; done.
Qed.
Lemma run_return_query n ts e b :
  claim b 0 ts e → Lexer.weight ts < n →
  parse_query (Num:=Num) (S n) true (mkParser (Return :: ts ++ [Eof]) b) =
  Done (return_query e, mkParser [Eof] b).
Proof using Type.
  intros Hc Hn. cbn [parse_query]. rewrite run_return.
  erewrite run_return_end by (apply run_rec; [exact Hc|done|done]). done.
Qed.

(** The validation of a query at the end. *)
Lemma check_query_done (q : Query) s s' :
  check_query q s = Done ((), s') → effective q = true ∧ s' = s ∧ cur (rest s) = Eof.
Proof.
  unfold check_query, effective. destruct s as [r b]. rewrite run_current.
  destruct (bool_decide (return_clause q = None)), (existsb is_mutation (body_clauses q)),
    (bool_decide (create_stream_clause q = None)),
    (bool_decide (create_materialized_view_clause q = None)),
    (bool_decide (refresh_materialized_view_clause q = None)); cbn [andb negb orb];
    destruct (decide (cur r = Eof)); try done; by intros [= <-].
Qed.
Lemma bind_done {A B} (m : P A) (k : A → P B) s r :
  (m ≫= k) s = Done r → ∃ x s1, m s = Done (x, s1) ∧ k x s1 = Done r.
Proof. unfold mbind, P_bind. destruct (m s) as [[x s1]| | |]; [by eauto|done..]. Qed.
Lemma query_done n s q s' :
  parse_query (Num:=Num) n true s = Done (q, s') → effective q = true ∧ cur (rest s') = Eof.
Proof.
  destruct n as [|n]; [done|]. cbn [parse_query]. unfold query_clauses.
  intros ([cs cv] & s1 & _ & H)%bind_done. cbv beta iota in H.
  apply bind_done in H as (r & s2 & _ & H). apply bind_done in H as (ls & s3 & _ & H).
  apply bind_done in H as (body & s4 & _ & H). unfold query_end in H.
  apply bind_done in H as (so & s5 & _ & H). apply bind_done in H as (li & s6 & _ & H).
  apply bind_done in H as (re & s7 & _ & H). cbv zeta in H.
  apply bind_done in H as ([] & s8 & Hc & [= <- <-]).
  by apply check_query_done in Hc as (Hq & -> & Hr).
Qed.

(** A primary expression that panics makes every level panic. *)
Lemma bind_panics {A B} (m : P A) (k : A → P B) s : m s = Panics → (m ≫= k) s = Panics.
Proof. intros H. unfold mbind, P_bind. by rewrite H. Qed.
Lemma panics_down n l t r b :
  unary_of t = None → l < 16 → parser_of (Num:=Num) n (S l) (mkParser (t :: r) b) = Panics →
  parser_of (Num:=Num) n l (mkParser (t :: r) b) = Panics.
Proof.
  intros Hu Hl Hp. pose proof (step_of_loop (Num:=Num) n l) as Hst. destruct (has_loop l) eqn:Hloop.
  { destruct Hst as [step Hstep]. rewrite (parser_of_loop n l step Hstep). by apply bind_panics. }
  assert (l = 0 ∨ l = 10 ∨ l = 14) as [->|[->| ->]].
  { do 16 (destruct l as [|l]; [first [discriminate Hloop|lia]|]). lia. }
  - by apply bind_panics.
  - by apply bind_panics.
  - cbn [parser_of]. unfold parse_unary_expression. rewrite run_looping. cbn [unary_loop].
    rewrite run_current. change (cur (t :: r)) with t. rewrite Hu. exact Hp.
Qed.
Lemma float_panics n f r b :
  num_of_f64 (Num:=Num) f = None →
  parse_expression (Num:=Num) (S n) (mkParser (Float f :: r) b) = Panics.
Proof.
  intros Hf. change (parser_of n 0 (mkParser (Float f :: r) b) = Panics).
  assert (∀ d, d ≤ 16 → parser_of (Num:=Num) n (16 - d) (mkParser (Float f :: r) b) = Panics) as H;
    [|exact (H 16 (le_n 16))].
  induction d as [|d IH]; intros Hd.
  - cbn [parser_of Nat.sub]. unfold parse_primary_expression. rewrite run_current.
    change (cur (Float f :: r)) with (Float f). cbv beta iota. unfold parse_float.
    rewrite run_advance. by rewrite Hf.
  - apply panics_down; [done|lia|]. replace (S (16 - S d)) with (16 - d) by lia. apply IH. lia.
Qed.
Lemma parse_query_S n b :
  parse_query (Num:=Num) (S n) b = query_clauses (parse_expression n) (parse_query n) b.
Proof. done. Qed.

(** ** The properties *)

Context `{char_laws : !CharTablesLaws}.

(** C21: Parsing terminates. On every input the parser answers with the fuel the
    model gives it, twice the length of the input and four, and more fuel never
    changes the answer: the recursion of the Rust parser, which has no fuel, ends
    with that result. *)
Theorem parse_terminates input fuel :
  parse_fuel input ≤ fuel →
  parse (Num:=Num) input ≠ OutOfFuel ∧ parse_with (Num:=Num) fuel input = parse input.
Proof.
  intros Hn. pose proof (parse_outcome (Num:=Num) 0 input) as Ho.
  assert (parse (Num:=Num) input ≠ OutOfFuel) as Hp.
  { intros E. rewrite E in Ho. apply Ho. intros; lia. }
  split; [done|]. destruct (fuel_below (Num:=Num) _ _ Hn) as [_ Hb]. revert Hp.
  unfold parse, parse_with. destruct (new input) as [s| | |]; [|done..]. simpl.
  by destruct (Hb true s) as [-> | ->].
Qed.

(** Parsing is safe. Under what the documentation of [f64::from_str] and of
    [serde_json::Number::from_f64] says (a decimal text of fewer than 309 bytes is
    a finite float; a finite float is a JSON number) the parser answers with a
    query or a parse error on every input of fewer than 309 bytes; on a longer
    one it may panic but still does not loop or fail in another way. *)
Theorem parse_safe input :
  (∀ s f, Lexer.decimal_text s → String.length s < 309 → parse_f64 s = Some f →
          Codec.f64_finite f = true) →
  (∀ f, Codec.f64_finite f = true → is_Some (num_of_f64 (Num:=Num) f)) →
  match parse (Num:=Num) input with
  | Done _ => True
  | Fails e => is_parse_error e
  | Panics => 309 ≤ String.length input
  | OutOfFuel => False
  end.
Proof.
  intros Hparse Hfinite. apply (parse_outcome 309). intros s f Hd Hs Hf.
  destruct (Hfinite f (Hparse s f Hd Hs Hf)) as [n Hnum]. simpl. by rewrite Hnum.
Qed.

(** A float literal that is no JSON number makes the parser panic: for the
    tokens of [RETURN f] it has no error value, the [unwrap] of [parse_float] is
    reached. A literal of 309 nines and a point parses to infinity, which
    [serde_json::Number::from_f64] does not take. *)
Theorem huge_float_panics input f rest :
  Lexer.tokenize input = Done (Return :: Float f :: rest) → num_of_f64 (Num:=Num) f = None →
  parse (Num:=Num) input = Panics.
Proof.
  intros Ht Hf. unfold parse, new. rewrite Ht. cbn [mbind outcome_mbind outcome_bind].
  unfold parse_fuel. replace (2 * String.length input + 4) with (S (S (2 * String.length input + 2))) by lia.
  rewrite parse_query_S, run_return.
  erewrite run_return_end; [|reflexivity]. by rewrite float_panics.
Qed.

(** C11: The parser reads the expression grammar. Whatever phrase of the grammar
    (sixteen precedence levels, left-associative operators, lambdas, calls,
    pipelines, ranges, postfix accesses, arrays, objects, CASE, templates) stands
    in front of tokens that cannot continue it, [parse_expression] returns the
    expression the phrase spells and stops exactly behind it. *)
Theorem expression_parsed b ts (e : Expression) r fuel :
  phrase b 0 ts e → follow b 0 r → Lexer.weight ts < fuel →
  parse_expression fuel (mkParser (ts ++ r) b) = Done (e, mkParser r b).
Proof. intros Hp Hf Hn. apply run_rec; [by apply phrase_claim|done|done]. Qed.

(** The grammar is unambiguous therefore. *)
Lemma phrase_unique b ts (e e' : Expression) : phrase b 0 ts e → phrase b 0 ts e' → e = e'.
Proof.
  intros H H'. pose proof (run_rec b ts e (S (Lexer.weight ts)) [] (phrase_claim _ _ _ _ H)) as E.
  rewrite (run_rec b ts e' (S (Lexer.weight ts)) [] (phrase_claim _ _ _ _ H')) in E by (done || lia).
  injection (E ltac:(lia) I). congruence.
Qed.

(** Tokens round-trip through text. Identifiers (between backticks), bind
    variables, integers, strings (with quotes and backslashes escaped), keywords
    and operators written one behind the other are read back by the lexer as the
    same tokens and the end of the input. *)
Theorem tokenize_render ts text :
  render ts = Some text → Lexer.tokenize text = Done (ts ++ [Eof]).
Proof. apply tokenize_spelled. Qed.

(** Expressions round-trip through text. The text of [RETURN] and a phrase of
    the grammar parses to the query that returns the expression of the phrase and
    nothing else. *)
Theorem return_roundtrip ts (e : Expression) text :
  phrase true 0 ts e → render (Return :: ts) = Some text → parse text = Done (return_query e).
Proof.
  intros Hp Hr. pose proof (tokenize_spelled _ _ Hr) as Ht. pose proof (Lexer.tokenize_weight text) as Hw.
  rewrite Ht in Hw. destruct Hw as (ts' & Hts & _ & Hw & _).
  apply (inj (.++ [Eof])) in Hts as <-. unfold Lexer.weight in Hw. simpl in Hw.
  unfold parse, new. rewrite Ht. cbn [mbind outcome_mbind outcome_bind app].
  unfold parse_fuel. replace (2 * String.length text + 4) with (S (2 * String.length text + 3)) by lia.
  rewrite (run_return_query _ ts e); [done|by apply phrase_claim|]. unfold Lexer.weight. lia.
Qed.

(** What a query that is accepted has. The parser only accepts a query that
    returns something or has an INSERT, UPDATE or REMOVE clause (UPSERT does not
    count) or defines or refreshes a stream or view, and no token is left behind
    it. *)
Theorem accepted_query input q :
  parse (Num:=Num) input = Done q →
  effective q = true ∧
  ∃ s s', new input = Done s ∧ parse_query (parse_fuel input) true s = Done (q, s') ∧ cur (rest s') = Eof.
Proof.
  unfold parse. destruct (new input) as [s| | |]; [|done..]. simpl.
  destruct (parse_query (parse_fuel input) true s) as [[q' s']| | |] eqn:E; [|done..].
  intros [= <-]. destruct (query_done _ _ _ _ E) as [? ?]. split; [done|]. by exists s, s'.
Qed.
End Props.

(** ** Concrete inputs *)

#[local] Existing Instances demo_number_ops Codec.demo_text.
#[local] Existing Instance ascii_tables.
#[local] Existing Instance ascii_tables_laws.
(** A float parser that only knows zero and, for long texts, infinity. *)
Definition demo_infinity : N := 9218868437227405312.
#[local] Instance demo_float : FloatText := λ s,
  Some (if String.length s <? 309 then 0%N else demo_infinity).
#[local] Instance demo_debug : TokenDebug := λ _, "token".
Definition nines (n : nat) : string := of_chars (replicate n "9").

Lemma parse_terminates_witness :
  parse_with (Num:=demo_number) 100 "FOR d IN docs FILTER d.age > 18 RETURN d" =
  parse "FOR d IN docs FILTER d.age > 18 RETURN d".
Proof. apply parse_terminates. vm_compute. lia. Defined.
Lemma parse_safe_witness :
  match parse (Num:=demo_number) "RETURN 1.5 +" with
  | Done _ => True
  | Fails e => is_parse_error e
  | Panics => 309 ≤ 12
  | OutOfFuel => False
  end.
Proof.
  apply (parse_safe "RETURN 1.5 +").
  - intros s f _ Hs [= <-]. by apply Nat.ltb_lt in Hs as ->.
  - intros f Hf. simpl. rewrite Hf. eauto.
Defined.
Lemma huge_float_panics_witness :
  parse (Num:=demo_number) ("RETURN " +:+ nines 309 +:+ ".0") = Panics.
Proof. apply (huge_float_panics _ demo_infinity [Eof]); [vm_compute; reflexivity|reflexivity]. Defined.

(** [a + 2 * @b]. *)
Definition demo_tokens : list Token := [Identifier "a"; Plus; Integer 2; Star; BindVar "b"].
Definition demo_expression : Expression demo_number :=
  Expression.BinaryOp (Expression.Var "a") BinaryOperator.Add
    (Expression.BinaryOp (Expression.Literal (Json.Number (PosInt 2))) BinaryOperator.Multiply
       (Expression.BindVariable "b")).
Lemma phrase_down b l k ts (e : Expression demo_number) :
  l ≤ k → k ≤ 16 → phrase b k ts e → phrase b l ts e.
Proof.
  intros Hl Hk. induction Hl as [|k Hl IH]; [done|]. intros H. apply IH; [lia|].
  by apply ph_lift; [lia|].
Qed.
Lemma demo_phrase : phrase true 0 demo_tokens demo_expression.
Proof.
  apply (phrase_down _ _ 12); [lia..|].
  apply (ph_binary _ 12 [Plus] BinaryOperator.Add [Identifier "a"] _ [Integer 2; Star; BindVar "b"]).
  - unfold binary_table. set_solver.
  - apply (phrase_down _ _ 16); [lia..|]. by apply ph_atom.
  - apply (ph_binary _ 13 [Star] BinaryOperator.Multiply [Integer 2] _ [BindVar "b"]).
    + unfold binary_table. set_solver.
    + apply (phrase_down _ _ 16); [lia..|]. by apply ph_atom.
    + apply (phrase_down _ _ 16); [lia..|]. by apply ph_atom.
Qed.
Lemma expression_parsed_witness :
  parse_expression 6 (mkParser (demo_tokens ++ [RightParen; Eof]) true) =
  Done (demo_expression, mkParser [RightParen; Eof] true).
Proof. apply expression_parsed; [exact demo_phrase|done|vm_compute; lia]. Defined.
Definition demo_text_tokens : list Token :=
  [For; Identifier "the x"; In; BindVar "rows"; Return; TString "it's \ ok"; NullCoalesce; Integer 7].
Lemma tokenize_render_witness :
  Lexer.tokenize ("FOR `the x` IN @rows RETURN " +:+ Lexer.quote_mark +:+ "it's \\ ok" +:+ Lexer.quote_mark +:+ " ?? 7 ") = Done (demo_text_tokens ++ [Eof]).
Proof. apply tokenize_render. vm_compute. reflexivity. Defined.
Lemma return_roundtrip_witness : parse "RETURN `a` + 2 * @b " = Done (return_query demo_expression).
Proof. apply (return_roundtrip demo_tokens); [exact demo_phrase|vm_compute; reflexivity]. Defined.
Lemma accepted_query_witness : effective (return_query demo_expression) = true.
Proof. apply (accepted_query "RETURN a + 2 * @b"). vm_compute. reflexivity. Defined.

(** UPSERT alone is refused, where INSERT alone is not. *)
Example upsert_needs_return :
  parse (Num:=demo_number) "UPSERT {a: 1} INSERT {a: 1} UPDATE {a: 2} IN c" =
    Fails (ParseError "Invalid query: missing RETURN clause or mutation (INSERT/UPDATE/REMOVE)") ∧
  match parse (Num:=demo_number) "INSERT {a: 1} INTO c" with Done _ => True | _ => False end.
Proof. by vm_compute. Qed.
(** IN between parentheses is refused in the document of an UPDATE. *)
Example in_refused_in_update :
  match parse (Num:=demo_number) "FOR d IN c UPDATE d WITH {a: (d.x IN [1])} IN c" with
  | Fails _ => True | _ => False end ∧
  match parse (Num:=demo_number) "FOR d IN c RETURN {a: (d.x IN [1])}" with
  | Done _ => True | _ => False end.
Proof. by vm_compute. Qed.
(** What follows the expression of an interpolation is dropped. *)
Example interpolation_tail_dropped :
  parse (Num:=demo_number) ("RETURN $" +:+ Lexer.quote_mark +:+ "${a b c}" +:+ Lexer.quote_mark) =
  parse ("RETURN $" +:+ Lexer.quote_mark +:+ "${a}" +:+ Lexer.quote_mark).
Proof. by vm_compute. Qed.
