(* ===== verification/F64.v ===== *)
(** * Floating-point numbers

    An [f64] is its 64 bits. Every finite one is a whole number of units of
    2^-1074, [Codec.f64_num], so that sums, products, quotients and remainders are
    computed exactly and rounded once, to the nearest float and to the even one in
    the middle, as IEEE 754 and Rust prescribe. [round_exact] and [round_error]
    say that the rounding keeps the floats and is never further than half a unit in
    the last place. [powf] has no exact definition and is a parameter of its
    users. *)

From S2P Require Import Prelude Text Json Codec.

Module F64.
Import Codec.

Definition infinity : N := 2047 * 2 ^ 52.
Definition nan : N := infinity + 2 ^ 51.
Definition magnitude (b : N) : N := b mod sign_bit.
Definition is_nan (b : N) : bool := (infinity <? magnitude b)%N.
Definition is_infinite (b : N) : bool := (magnitude b =? infinity)%N.
Definition is_zero (b : N) : bool := (magnitude b =? 0)%N.
Definition with_sign (negative : bool) (m : N) : N := if negative then (m + sign_bit)%N else m.

(** The units in 1. *)
Definition one : N := 2 ^ 1074.

(** The float nearest to [a / d] units. *)
Definition quantum (a d : N) : N := N.log2 (a / d) - 52.
Definition half_even (a d : N) : N :=
  let q := (a / d)%N in
  let r := (a mod d)%N in
  match (2 * r ?= d)%N with
  | Lt => q
  | Gt => q + 1
  | Eq => if N.even q then q else q + 1
  end.
Definition round (a d : N) : N :=
  let k := quantum a d in
  N.min infinity (k * 2 ^ 52 + half_even a (d * 2 ^ k)).

(** [==], [partial_cmp] *)
Definition partial_cmp (a b : N) : option comparison :=
  if is_nan a || is_nan b then None else Some (Z.compare (f64_num a) (f64_num b)).
Definition eqb (a b : N) : bool :=
  match partial_cmp a b with Some Eq => true | _ => false end.
Definition ltb (a b : N) : bool :=
  match partial_cmp a b with Some Lt => true | _ => false end.

Definition neg (a : N) : N := N.lxor a sign_bit.
Definition of_units (z : Z) : N := with_sign (z <? 0)%Z (round (Z.abs_N z) 1).
Definition add (a b : N) : N :=
  if is_nan a || is_nan b then nan
  else if is_infinite a then
    if is_infinite b && negb (Bool.eqb (is_negative a) (is_negative b)) then nan else a
  else if is_infinite b then b
  else
    let s := (f64_num a + f64_num b)%Z in
    if (s =? 0)%Z then with_sign (is_negative a && is_negative b) 0 else of_units s.
Definition sub (a b : N) : N := add a (neg b).
Definition mul (a b : N) : N :=
  let negative := xorb (is_negative a) (is_negative b) in
  if is_nan a || is_nan b then nan
  else if is_infinite a || is_infinite b then
    if is_zero a || is_zero b then nan else with_sign negative infinity
  else with_sign negative (round (f64_mag (magnitude a) * f64_mag (magnitude b)) one).
Definition div (a b : N) : N :=
  let negative := xorb (is_negative a) (is_negative b) in
  if is_nan a || is_nan b then nan
  else if is_infinite a then if is_infinite b then nan else with_sign negative infinity
  else if is_infinite b then with_sign negative 0
  else if is_zero b then if is_zero a then nan else with_sign negative infinity
  else with_sign negative (round (f64_mag (magnitude a) * one) (f64_mag (magnitude b))).
(** [%], the remainder of the division towards zero *)
Definition rem (a b : N) : N :=
  if is_nan a || is_nan b || is_infinite a || is_zero b then nan
  else if is_infinite b then a
  else with_sign (is_negative a) (round (f64_mag (magnitude a) mod f64_mag (magnitude b)) 1).

(** [as i64]: towards zero, saturating, and 0 for NaN *)
Definition i64_low : Z := (- 2 ^ 63)%Z.
Definition i64_high : Z := (2 ^ 63 - 1)%Z.
Definition clamp (z : Z) : Z := Z.max i64_low (Z.min i64_high z).
Definition as_i64 (a : N) : Z :=
  if is_nan a then 0 else clamp (Z.quot (f64_num a) (Z.of_N one)).
(** [as usize] *)
Definition as_usize (a : N) : N :=
  if is_nan a then 0
  else Z.to_N (Z.max 0 (Z.min (2 ^ 64 - 1) (Z.quot (f64_num a) (Z.of_N one)))).
(** [i64 as f64] *)
Definition of_int (z : Z) : N := of_units (z * Z.of_N one).
(** [fract() == 0.0] *)
Definition is_whole (a : N) : bool :=
  negb (is_nan a) && negb (is_infinite a) && (f64_mag (magnitude a) mod one =? 0)%N.

(** ** The rounding *)

Lemma half_even_exact q d : (d ≠ 0)%N → half_even (q * d) d = q.
Proof.
  intros Hd. unfold half_even. rewrite N.div_mul, N.Div0.mod_mul by done.
  replace (2 * 0)%N with 0%N by done. by destruct d.
Qed.
Lemma quantum_mag m : (m < infinity)%N → quantum (f64_mag m) 1 = (m / 2 ^ 52 - 1)%N.
Proof.
  intros Hm. unfold quantum, f64_mag. rewrite N.div_1_r.
  pose proof (N.mod_lt m (2 ^ 52) ltac:(done)) as Hf. set (f := (m mod 2 ^ 52)%N) in *.
  destruct (N.eqb_spec (m / 2 ^ 52) 0) as [He|He].
  - rewrite He. destruct (N.eq_dec f 0%N) as [->|Hz]; [done|].
    assert (N.log2 f < 52)%N by (apply N.log2_lt_pow2; lia). lia.
  - set (e := (m / 2 ^ 52)%N) in *.
    rewrite N.log2_mul_pow2 by (try lia; apply N.neq_0_lt_0; lia).
    assert (N.log2 (2 ^ 52 + f) = 52)%N as ->; [|lia].
    apply N.log2_unique; [lia|]. split; [lia|].
    replace (2 ^ N.succ 52)%N with (2 ^ 52 + 2 ^ 52)%N by done. lia.
Qed.
Lemma round_exact m : (m < infinity)%N → round (f64_mag m) 1 = m.
Proof.
  intros Hm. unfold round. rewrite quantum_mag by done. unfold f64_mag.
  pose proof (N.div_mod m (2 ^ 52) ltac:(done)) as Hdm.
  destruct (N.eqb_spec (m / 2 ^ 52) 0) as [He|He].
  - rewrite He. change (2 ^ (0 - 1))%N with 1%N. rewrite N.mul_1_l.
    rewrite He, N.mul_0_r, N.add_0_l in Hdm. rewrite <-Hdm.
    rewrite <-(N.mul_1_r m) at 1. rewrite half_even_exact by done. simpl. lia.
  - rewrite N.mul_1_l, half_even_exact by (apply N.pow_nonzero; done).
    set (e := (m / 2 ^ 52)%N) in *. set (f := (m mod 2 ^ 52)%N) in *. clearbody e f.
    assert ((e - 1) * 2 ^ 52 + (2 ^ 52 + f) = m)%N as ->; [|lia].
    rewrite Hdm. destruct e as [|p]; [done|]. lia.
Qed.
(** A carry of the rounding moves to the next exponent. *)
Lemma mag_scaled k m :
  (m <= 2 ^ 53)%N → (k = 0 ∨ 2 ^ 52 <= m)%N → f64_mag (k * 2 ^ 52 + m) = (m * 2 ^ k)%N.
Proof.
  intros Hm Hk. unfold f64_mag.
  assert (m < 2 ^ 52 ∨ 2 ^ 52 <= m < 2 ^ 53 ∨ m = 2 ^ 53)%N as [H|[H| ->]] by lia.
  - assert (k = 0%N) as -> by lia. rewrite N.mul_0_l, N.add_0_l.
    rewrite N.div_small, N.mod_small by done. simpl. lia.
  - replace (k * 2 ^ 52 + m)%N with ((m - 2 ^ 52) + (k + 1) * 2 ^ 52)%N by lia.
    rewrite N.div_add, N.Div0.mod_add by done. rewrite N.div_small, N.mod_small by lia.
    rewrite N.add_0_l. destruct (N.eqb_spec (k + 1) 0); [lia|].
    replace (k + 1 - 1)%N with k by lia. f_equal. lia.
  - replace (k * 2 ^ 52 + 2 ^ 53)%N with (0 + (k + 2) * 2 ^ 52)%N by lia.
    rewrite N.div_add, N.Div0.mod_add by done. rewrite N.div_small, N.mod_small by done.
    rewrite N.add_0_l. destruct (N.eqb_spec (k + 2) 0); [lia|].
    replace (k + 2 - 1)%N with (k + 1)%N by lia. rewrite N.add_0_r, N.pow_add_r. lia.
Qed.
Lemma half_even_bounds a d :
  (d ≠ 0)%N → (2 * (half_even a d * d) <= 2 * a + d)%N ∧ (2 * a <= 2 * (half_even a d * d) + d)%N.
Proof.
  intros Hd. unfold half_even. pose proof (N.div_mod a d Hd). pose proof (N.mod_lt a d Hd).
  set (q := (a / d)%N) in *. set (r := (a mod d)%N) in *. clearbody q r. subst a.
  destruct (N.compare_spec (2 * r) d); [destruct (N.even q)|..]; split; lia.
Qed.
Lemma half_even_le a d m : (d ≠ 0)%N → (m <= a / d)%N → (m <= half_even a d)%N.
Proof. intros Hd Hm. unfold half_even. destruct (_ ?= _)%N; [destruct (N.even _)|..]; lia. Qed.
Lemma half_even_lt a d m : (d ≠ 0)%N → (a / d < m)%N → (half_even a d <= m)%N.
Proof. intros Hd Hm. unfold half_even. destruct (_ ?= _)%N; [destruct (N.even _)|..]; lia. Qed.

(** The result is within half a quantum of the exact number, unless it is
    infinite. *)
Lemma round_error a d :
  (d ≠ 0)%N → (round a d < infinity)%N →
  (2 * (f64_mag (round a d) * d) <= 2 * a + d * 2 ^ quantum a d)%N ∧
  (2 * a <= 2 * (f64_mag (round a d) * d) + d * 2 ^ quantum a d)%N.
Proof.
  intros Hd Hr. unfold round in *. set (k := quantum a d) in *.
  assert (d * 2 ^ k ≠ 0)%N as Hdk by (apply N.neq_mul_0; split; [done|by apply N.pow_nonzero]).
  rewrite N.min_r in * by lia. assert (a / (d * 2 ^ k) = a / d / 2 ^ k)%N as Hdiv.
  { rewrite N.Div0.div_div; [done|..]. }
  assert (a / d / 2 ^ k < 2 ^ 53)%N as Hq.
  { apply N.Div0.div_lt_upper_bound. rewrite <-N.pow_add_r.
    destruct (N.eq_dec (a / d)%N 0%N) as [->|Hz]; [apply N.neq_0_lt_0; by apply N.pow_nonzero|].
    eapply N.lt_le_trans; [apply N.log2_spec, N.neq_0_lt_0, Hz|]. apply N.pow_le_mono_r; [done|].
    unfold k, quantum. lia. }
  rewrite mag_scaled.
  - pose proof (half_even_bounds a (d * 2 ^ k) Hdk). nia.
  - apply half_even_lt; [done|]. by rewrite Hdiv.
  - destruct (N.eq_dec k 0%N); [by left|]. right. apply half_even_le; [done|]. rewrite Hdiv.
    apply N.div_le_lower_bound; [by apply N.pow_nonzero|]. rewrite <-N.pow_add_r.
    assert (a / d ≠ 0)%N as Hz by (intros Hz; unfold k, quantum in *; by rewrite Hz in *).
    eapply N.le_trans; [|apply N.log2_spec, N.neq_0_lt_0, Hz]. apply N.pow_le_mono_r; [done|].
    unfold k, quantum in *. lia.
Qed.
End F64.
