(* ===== verification/Levenshtein.v ===== *)
(** * Edit distance

    [levenshtein_distance] of src/storage/index.rs, which decides [~=] in queries
    and the fuzzy matches of the fulltext index. The code fills a matrix row by
    row; a row only needs the one before it, which is what the model keeps.
    [levenshtein_minimal] says that the result is the least number of insertions,
    deletions and replacements of characters that turns one text into the other. *)

From S2P Require Import Prelude Text Json Transaction SdbqlLexer.

Module Levenshtein.

(** The cells of row [i] behind the first one: [above] is the rest of the row
    before, [diagonal] its cell to the left, [left] the cell to the left. *)
Fixpoint row_cells (ca : char) (bs : list char) (above : list nat) (diagonal left : nat) : list nat :=
  match bs, above with
  | cb :: bs', up :: above' =>
      let cost := if String.eqb ca cb then 0 else 1 in
      let cell := Nat.min (Nat.min (up + 1) (left + 1)) (diagonal + cost) in
      cell :: row_cells ca bs' above' up cell
  | _, _ => []
  end.
Definition next_row (i : nat) (ca : char) (bs : list char) (previous : list nat) : list nat :=
  match previous with
  | diagonal :: above => i :: row_cells ca bs above diagonal i
  | [] => []
  end.
Fixpoint rows (i : nat) (as_ bs : list char) (previous : list nat) : list nat :=
  match as_ with
  | [] => previous
  | ca :: as' => rows (S i) as' bs (next_row i ca bs previous)
  end.
Definition levenshtein_distance (a b : string) : nat :=
  let a_chars := chars a in
  let b_chars := chars b in
  let a_len := length a_chars in
  let b_len := length b_chars in
  if Nat.eqb a_len 0 then b_len
  else if Nat.eqb b_len 0 then a_len
  else default 0 (rows 1 a_chars b_chars (seq 0 (S b_len)) !! b_len).

(** ** The specification *)

(** [edits n xs ys]: [n] insertions, deletions and replacements turn [xs] into
    [ys]. *)
Inductive edits : nat → list char → list char → Prop :=
| ed_nil : edits 0 [] []
| ed_keep n c xs ys : edits n xs ys → edits n (c :: xs) (c :: ys)
| ed_replace n c d xs ys : edits n xs ys → edits (S n) (c :: xs) (d :: ys)
| ed_delete n c xs ys : edits n xs ys → edits (S n) (c :: xs) ys
| ed_insert n d xs ys : edits n xs ys → edits (S n) xs (d :: ys).
Definition distance (xs ys : list char) (n : nat) : Prop :=
  edits n xs ys ∧ ∀ m, edits m xs ys → n ≤ m.
#[local] Hint Constructors edits : edits.

Lemma edits_app n m xs ys xs' ys' : edits n xs ys → edits m xs' ys' → edits (n + m) (xs ++ xs') (ys ++ ys').
Proof. intros H1 H2. induction H1; simpl; eauto with edits. Qed.
Lemma edits_rev n xs ys : edits n xs ys → edits n (rev xs) (rev ys).
Proof.
  induction 1 as [|n c xs ys H IH|n c d xs ys H IH|n c xs ys H IH|n d xs ys H IH]; simpl; [constructor|..].
  - rewrite <-(Nat.add_0_r n). apply edits_app; eauto with edits.
  - rewrite <-Nat.add_1_r. apply edits_app; eauto with edits.
  - rewrite <-Nat.add_1_r, <-(app_nil_r (rev ys)). apply edits_app; eauto with edits.
  - rewrite <-Nat.add_1_r, <-(app_nil_r (rev xs)). apply edits_app; eauto with edits.
Qed.
Lemma distance_rev xs ys n : distance (rev xs) (rev ys) n → distance xs ys n.
Proof.
  intros [H1 H2]. split.
  - apply edits_rev in H1. by rewrite !rev_involutive in H1.
  - intros m Hm. by apply H2, edits_rev.
Qed.
Lemma edits_nil_l n ys : edits n [] ys → length ys ≤ n.
Proof. remember [] as xs eqn:E. induction 1; simplify_eq; simpl; try lia. specialize (IHedits eq_refl). lia. Qed.
Lemma edits_nil_r n xs : edits n xs [] → length xs ≤ n.
Proof. remember [] as ys eqn:E. induction 1; simplify_eq; simpl; try lia. specialize (IHedits eq_refl). lia. Qed.
Lemma distance_nil_l ys : distance [] ys (length ys).
Proof. split; [induction ys; simpl; eauto with edits|intros m; apply edits_nil_l]. Qed.
Lemma distance_nil_r xs : distance xs [] (length xs).
Proof. split; [induction xs; simpl; eauto with edits|intros m; apply edits_nil_r]. Qed.

(** The recurrence of the matrix, at the heads of the lists. *)
Lemma distance_cons c d xs ys up left diagonal :
  distance xs (d :: ys) up → distance (c :: xs) ys left → distance xs ys diagonal →
  distance (c :: xs) (d :: ys)
    (Nat.min (Nat.min (up + 1) (left + 1)) (diagonal + (if String.eqb c d then 0 else 1))).
Proof.
  intros [U1 U2] [L1 L2] [D1 D2]. split.
  - destruct (String.eqb_spec c d) as [->|_].
    + destruct (Nat.min_dec (Nat.min (up + 1) (left + 1)) (diagonal + 0)) as [-> | ->];
        [destruct (Nat.min_dec (up + 1) (left + 1)) as [-> | ->]|];
        rewrite ?Nat.add_1_r, ?Nat.add_0_r; eauto with edits.
    + destruct (Nat.min_dec (Nat.min (up + 1) (left + 1)) (diagonal + 1)) as [-> | ->];
        [destruct (Nat.min_dec (up + 1) (left + 1)) as [-> | ->]|];
        rewrite ?Nat.add_1_r; eauto with edits.
  - intros m Hm. inversion Hm as [|? ? ? ? H|? ? ? ? ? H|? ? ? ? H|? ? ? ? H]; subst.
    + rewrite String.eqb_refl. specialize (D2 _ H). lia.
    + specialize (D2 _ H). destruct (String.eqb c d); lia.
    + specialize (U2 _ H). lia.
    + specialize (L2 _ H). lia.
Qed.

(** ** The rows of the matrix *)

(** [row pre done bs cells]: the distances of [pre] to the prefixes of the second
    text that go beyond [done]. *)
Inductive row (pre : list char) : list char → list char → list nat → Prop :=
| row_nil used : row pre used [] []
| row_cons used b bs n cells :
    distance (rev pre) (b :: used) n → row pre (b :: used) bs cells →
    row pre used (b :: bs) (n :: cells).
Lemma row_cells_ok ca pre used bs above diagonal left :
  distance (rev pre) used diagonal → distance (ca :: rev pre) used left → row pre used bs above →
  row (pre ++ [ca]) used bs (row_cells ca bs above diagonal left).
Proof.
  intros Hd Hl Hrow. revert diagonal left Hd Hl.
  induction Hrow as [used|used b bs n cells Hn Hrow IH]; intros diagonal left Hd Hl; cbn [row_cells]; [constructor|].
  assert (distance (ca :: rev pre) (b :: used)
    (Nat.min (Nat.min (n + 1) (left + 1)) (diagonal + (if String.eqb ca b then 0 else 1)))) as Hc
    by by apply distance_cons.
  constructor; [by rewrite rev_unit|]. by apply IH.
Qed.
Definition full_row (pre bs : list char) (cells : list nat) : Prop :=
  ∃ rest, cells = length pre :: rest ∧ row pre [] bs rest.
Lemma next_row_ok pre ca bs previous :
  full_row pre bs previous → full_row (pre ++ [ca]) bs (next_row (S (length pre)) ca bs previous).
Proof.
  intros (rest & -> & Hrow). cbn [next_row]. eexists. split; [by rewrite length_app, Nat.add_1_r|].
  apply row_cells_ok; [| |done].
  - rewrite <-length_rev. apply distance_nil_r.
  - rewrite <-(length_rev pre). apply (distance_nil_r (ca :: rev pre)).
Qed.
Lemma rows_ok pre as_ bs previous :
  full_row pre bs previous → full_row (pre ++ as_) bs (rows (S (length pre)) as_ bs previous).
Proof.
  revert pre previous. induction as_ as [|ca as_ IH]; intros pre previous H; cbn [rows].
  - by rewrite app_nil_r.
  - apply next_row_ok with (ca := ca) in H. apply IH in H. rewrite <-app_assoc in H.
    by rewrite length_app, Nat.add_1_r in H.
Qed.
Lemma first_row bs used : row [] used bs (seq (S (length used)) (length bs)).
Proof.
  revert used. induction bs as [|b bs IH]; intros used; simpl; constructor.
  - apply (distance_nil_l (b :: used)).
  - apply (IH (b :: used)).
Qed.
Lemma row_last pre used b bs cells :
  row pre used (b :: bs) cells →
  ∃ n, cells !! length bs = Some n ∧ distance (rev pre) (rev (b :: bs) ++ used) n.
Proof.
  revert used b cells. induction bs as [|b' bs IH]; intros used b cells Hrow;
    inversion Hrow as [|? ? ? n cells' Hn Hrow']; subst.
  - exists n. by split.
  - destruct (IH _ _ _ Hrow') as (m & Hm & Hd). exists m. split; [done|].
    simpl in *. by rewrite <-!app_assoc in *.
Qed.

(** C28: the distance computed is the least number of insertions, deletions and
    substitutions of characters that turn one text into the other. *)
Lemma levenshtein_minimal a b : distance (chars a) (chars b) (levenshtein_distance a b).
Proof.
  unfold levenshtein_distance. destruct (Nat.eqb_spec (length (chars a)) 0) as [Ha|Ha].
  { apply length_zero_iff_nil in Ha as ->. apply distance_nil_l. }
  destruct (Nat.eqb_spec (length (chars b)) 0) as [Hb|Hb].
  { apply length_zero_iff_nil in Hb as ->. apply distance_nil_r. }
  destruct (chars b) as [|c bs] eqn:Eb; [done|].
  assert (full_row [] (c :: bs) (seq 0 (S (length (c :: bs))))) as H0.
  { eexists. split; [done|]. apply (first_row (c :: bs) []). }
  apply (rows_ok [] (chars a)) in H0. destruct H0 as (rest & Hr & Hrow). simpl length in *.
  rewrite Hr. apply row_last in Hrow as (n & Hn & Hd). simpl lookup. rewrite Hn.
  rewrite app_nil_r in Hd. by apply distance_rev.
Qed.
End Levenshtein.
