(* ===== verification/SdbqlValue.v ===== *)
(** * SDBQL: operators on values

    src/sdbql/executor/helpers.rs and the helpers of utils.rs it uses: field paths,
    equality, truth, comparison, and the binary and unary operators with their
    errors. A release build is modelled: shifts use the low six bits of their
    amount. The regular-expression engine, [powf] and the texts of numbers are
    parameters. *)

From S2P Require Import Prelude Text Json Transaction Codec F64 SdbqlLexer SdbqlAst Levenshtein.

(** What the executor uses of serde_json, of regex and of [f64::powf]. *)
Class ValueText (Num : Type) := {
  num_as_i64 : Num → option Z;
  num_to_string : Num → string;
  f64_to_string : N → string;
  value_debug : Json.Value Num → string;
  powf : N → N → N;
  (** Where [Iterator::sum] of floats starts: 0.0 or -0.0, by the version. *)
  sum_start : N;
  (** [RegexBuilder::new(pattern).build()] and then [is_match(text)] *)
  regex_build : string → option (string → bool);
}.

Module Values.
Section Values.
Context {Num : Type} `{json_number : !JsonNumber Num} `{json_text : !JsonText Num}.
Context `{value_text : !ValueText Num}.
Notation Value := (Json.Value Num).

Definition as_f64 (v : Value) : option N := match v with Json.Number n => num_as_f64 n | _ => None end.
Definition as_bool (v : Value) : option bool := match v with Json.Bool b => Some b | _ => None end.
Definition is_null (v : Value) : bool := match v with Json.Null => true | _ => false end.
Definition is_object (v : Value) : bool := match v with Json.Object _ => true | _ => false end.

Fixpoint field_path_value (current : Value) (parts : list string) : Value :=
  match parts with
  | [] => current
  | part :: parts' =>
      match Json.value_get part current with
      | Some val => field_path_value val parts'
      | None => Json.Null
      end
  end.
Definition get_field_value (value : Value) (field_path : string) : Value :=
  field_path_value value (split_on "." field_path).

Definition values_equal (left right : Value) : bool :=
  match left, right with
  | Json.Number a, Json.Number b =>
      match num_as_f64 a, num_as_f64 b with
      | Some x, Some y => F64.eqb x y
      | None, None => true
      | _, _ => false
      end
  | _, _ => Json.value_eqb left right
  end.

Definition to_bool (value : Value) : bool :=
  match value with
  | Json.Bool b => b
  | Json.Null => false
  | Json.Number n => negb (F64.eqb (default 0%N (num_as_f64 n)) 0)
  | Json.JString s => negb (String.eqb s "")
  | Json.Array a => negb (Nat.eqb (length a) 0)
  | Json.Object o => negb (Nat.eqb (length o) 0)
  end.

Definition bool_cmp (a b : bool) : comparison :=
  match a, b with false, true => Lt | true, false => Gt | _, _ => Eq end.
Definition compare_values (a b : Value) : comparison :=
  match a, b with
  | Json.Null, Json.Null => Eq
  | Json.Null, _ => Lt
  | _, Json.Null => Gt
  | Json.Bool a, Json.Bool b => bool_cmp a b
  | Json.Number a, Json.Number b =>
      default Eq (F64.partial_cmp (default 0%N (num_as_f64 a)) (default 0%N (num_as_f64 b)))
  | Json.JString a, Json.JString b => str_cmp a b
  | _, _ => Eq
  end.

(** ** Regular expressions *)

Definition max_regex_pattern_len : nat := 1024.
Definition safe_regex (pattern : string) : option (string → bool) :=
  if max_regex_pattern_len <? String.length pattern then None else regex_build pattern.
Definition regex_special (c : char) : bool :=
  existsb (String.eqb c) ["^"; "$"; "."; "*"; "+"; "?"; "("; ")"; "["; "]"; "{"; "}"; "|"; "\"].
Definition like_char (c : char) : string :=
  if String.eqb c "%" then ".*"
  else if String.eqb c "_" then "."
  else if regex_special c then "\" +:+ c
  else c.
Definition like_pattern (pattern : string) : string :=
  "^" +:+ of_chars (like_char <$> chars pattern) +:+ "$".
(** A pattern that cannot be built makes the result false, negated or not. *)
Definition matches (negated : bool) (pattern s : string) : bool :=
  match safe_regex pattern with
  | Some re => xorb negated (re s)
  | None => false
  end.

(** ** Operators *)

Definition number_from_f64 (f : N) : Num := default (num_of_i64 0) (num_of_f64 f).
Definition execution_error {A} (msg : string) : outcome A := Fails (ExecutionError msg).
Definition with_numbers (left right : Value) (msg : string) (f : N → N → outcome Value) : outcome Value :=
  match as_f64 left, as_f64 right with
  | Some a, Some b => f a b
  | _, _ => execution_error msg
  end.
Definition float_result (f : N) : outcome Value := Done (Json.Number (number_from_f64 f)).
Definition int_result (z : Z) : outcome Value := Done (Json.Number (num_of_i64 z)).
(** [i64 << i64] and [i64 >> i64] without overflow checks *)
Definition wrap_i64 (z : Z) : Z := ((z + 2 ^ 63) mod 2 ^ 64 - 2 ^ 63)%Z.
Definition shift_left (a b : Z) : Z := wrap_i64 (Z.shiftl a (b mod 64)).
Definition shift_right (a b : Z) : Z := Z.shiftr a (b mod 64).

Definition contains (left right : Value) : bool :=
  match right with
  | Json.Array arr => existsb (values_equal left) arr
  | Json.Object obj =>
      match Json.as_str left with Some s => OMap.contains_key s obj | None => false end
  | _ => false
  end.
Definition text_of (v : Value) : string := default "" (Json.as_str v).

Definition evaluate_binary_op (left : Value) (op : BinaryOperator) (right : Value) : outcome Value :=
  match op with
  | BinaryOperator.Equal => Done (Json.Bool (values_equal left right))
  | BinaryOperator.NotEqual => Done (Json.Bool (negb (values_equal left right)))
  | BinaryOperator.LessThan => Done (Json.Bool (bool_decide (compare_values left right = Lt)))
  | BinaryOperator.LessThanOrEqual => Done (Json.Bool (negb (bool_decide (compare_values left right = Gt))))
  | BinaryOperator.GreaterThan => Done (Json.Bool (bool_decide (compare_values left right = Gt)))
  | BinaryOperator.GreaterThanOrEqual => Done (Json.Bool (negb (bool_decide (compare_values left right = Lt))))
  | BinaryOperator.In => Done (Json.Bool (contains left right))
  | BinaryOperator.NotIn => Done (Json.Bool (negb (contains left right)))
  | BinaryOperator.Like => Done (Json.Bool (matches false (like_pattern (text_of right)) (text_of left)))
  | BinaryOperator.NotLike => Done (Json.Bool (matches true (like_pattern (text_of right)) (text_of left)))
  | BinaryOperator.RegEx => Done (Json.Bool (matches false (text_of right) (text_of left)))
  | BinaryOperator.NotRegEx => Done (Json.Bool (matches true (text_of right) (text_of left)))
  | BinaryOperator.FuzzyEqual =>
      Done (Json.Bool (Nat.leb (Levenshtein.levenshtein_distance (text_of left) (text_of right)) 2))
  | BinaryOperator.And => Done (Json.Bool (to_bool left && to_bool right))
  | BinaryOperator.Or => Done (Json.Bool (to_bool left || to_bool right))
  | BinaryOperator.Add =>
      match as_f64 left, as_f64 right with
      | Some a, Some b => float_result (F64.add a b)
      | _, _ =>
          match Json.as_str left, Json.as_str right with
          | Some a, Some b => Done (Json.JString (a +:+ b))
          | _, _ => execution_error "Cannot add these types"
          end
      end
  | BinaryOperator.Subtract =>
      with_numbers left right "Cannot subtract non-numbers" (λ a b, float_result (F64.sub a b))
  | BinaryOperator.Multiply =>
      with_numbers left right "Cannot multiply non-numbers" (λ a b, float_result (F64.mul a b))
  | BinaryOperator.Divide =>
      with_numbers left right "Cannot divide non-numbers" (λ a b,
        if F64.eqb b 0 then execution_error "Division by zero" else float_result (F64.div a b))
  | BinaryOperator.Modulus =>
      with_numbers left right "Cannot modulus non-numbers" (λ a b,
        if F64.eqb b 0 then execution_error "Division by zero" else float_result (F64.rem a b))
  | BinaryOperator.BitwiseAnd =>
      with_numbers left right "Cannot bitwise AND non-numbers" (λ a b,
        int_result (Z.land (F64.as_i64 a) (F64.as_i64 b)))
  | BinaryOperator.BitwiseOr =>
      with_numbers left right "Cannot bitwise OR non-numbers" (λ a b,
        int_result (Z.lor (F64.as_i64 a) (F64.as_i64 b)))
  | BinaryOperator.BitwiseXor =>
      with_numbers left right "Cannot bitwise XOR non-numbers" (λ a b,
        int_result (Z.lxor (F64.as_i64 a) (F64.as_i64 b)))
  | BinaryOperator.LeftShift =>
      with_numbers left right "Cannot left shift non-numbers" (λ a b,
        int_result (shift_left (F64.as_i64 a) (F64.as_i64 b)))
  | BinaryOperator.RightShift =>
      with_numbers left right "Cannot right shift non-numbers" (λ a b,
        int_result (shift_right (F64.as_i64 a) (F64.as_i64 b)))
  | BinaryOperator.Exponent =>
      with_numbers left right "Cannot exponentiate non-numbers" (λ a b, float_result (powf a b))
  | BinaryOperator.NullCoalesce => Done (if is_null left then right else left)
  | BinaryOperator.LogicalOr => Done (if to_bool left then left else right)
  end.
Definition evaluate_unary_op (op : UnaryOperator) (operand : Value) : outcome Value :=
  match op with
  | UnaryOperator.Not => Done (Json.Bool (negb (to_bool operand)))
  | UnaryOperator.Negate =>
      match as_f64 operand with
      | Some n => float_result (F64.neg n)
      | None => execution_error "Cannot negate non-number"
      end
  | UnaryOperator.BitwiseNot =>
      match as_f64 operand with
      | Some n => int_result (Z.lnot (F64.as_i64 n))
      | None => execution_error "Cannot bitwise NOT non-number"
      end
  end.
End Values.
End Values.
