(* ===== verification/SdbqlExec.v ===== *)
(** * SDBQL: the executor, expressions

    src/sdbql/executor/expression.rs and the functions of evaluate.rs that need the
    executor. An execution takes the state of the database along: mutations inside
    subqueries happen while expressions are evaluated, and stay when a later step
    fails. What the executor needs of the storage, of the shard coordinator and of
    the function library is the interface [DataStore] and [Functions]; SdbqlStore has
    the instance of [DataStore] over the collections, indexes and the log.

    [eval] and [run_query], the evaluation of the expressions and of the subqueries
    inside an expression, are parameters of the definitions here; SdbqlQuery ties
    the knot. *)

From S2P Require Import Prelude Text Json Transaction Codec F64 SdbqlLexer SdbqlAst SdbqlValue.
Import Values.

(** ** Executions *)

Definition Exec (S A : Type) : Type := S → S * outcome A.
#[export] Instance exec_ret S : MRet (Exec S) := λ A a s, (s, Done a).
#[export] Instance exec_bind S : MBind (Exec S) := λ A B k m s,
  match m s with
  | (s', Done a) => k a s'
  | (s', Fails e) => (s', Fails e)
  | (s', Panics) => (s', Panics)
  | (s', OutOfFuel) => (s', OutOfFuel)
  end.
Section Exec.
Context {S : Type}.
Definition lift {A} (o : outcome A) : Exec S A := λ s, (s, o).
Definition fail_with {A} (msg : string) : Exec S A := lift (Fails (ExecutionError msg)).
Definition reads {A} (f : S → A) : Exec S A := λ s, (s, Done (f s)).
Definition modify (f : S → S) : Exec S () := λ s, (f s, Done ()).
(** [.ok()]: an error becomes [None], a panic stays one. *)
Definition attempt {A} (m : Exec S A) : Exec S (option A) := λ s,
  match m s with
  | (s', Done a) => (s', Done (Some a))
  | (s', Fails _) => (s', Done None)
  | (s', Panics) => (s', Panics)
  | (s', OutOfFuel) => (s', OutOfFuel)
  end.
Fixpoint map_exec {A B} (f : A → Exec S B) (l : list A) : Exec S (list B) :=
  match l with
  | [] => mret []
  | x :: l' => y ← f x; ys ← map_exec f l'; mret (y :: ys)
  end.
Fixpoint filter_exec {A} (f : A → Exec S bool) (l : list A) : Exec S (list A) :=
  match l with
  | [] => mret []
  | x :: l' => b ← f x; xs ← filter_exec f l'; mret (if b : bool then x :: xs else xs)
  end.
(** [for x in l { acc = f(acc, x)? }] *)
Fixpoint fold_exec {A B} (f : B → A → Exec S B) (acc : B) (l : list A) : Exec S B :=
  match l with
  | [] => mret acc
  | x :: l' => acc' ← f acc x; fold_exec f acc' l'
  end.
(** The first element the test holds of. *)
Fixpoint find_exec {A} (f : A → Exec S bool) (l : list A) : Exec S (option A) :=
  match l with
  | [] => mret None
  | x :: l' => b ← f x; if b : bool then mret (Some x) else find_exec f l'
  end.
End Exec.

(** ** What the executor is given *)

Inductive LogOp := LogInsert | LogUpdate | LogDelete.
(** A document: its key and [to_value()]. *)
Definition Doc (Num : Type) : Type := string * Json.Value Num.

Class DataStore (Num S Coll : Type) := {
  (** [self.get_collection], and [self.storage.get_collection] for names with a database *)
  open_collection : string → S → outcome Coll;
  open_absolute : string → S → outcome Coll;
  coll_scan : Coll → option N → S → list (Doc Num);
  coll_all : Coll → S → list (Doc Num);
  coll_get : Coll → string → S → option (Doc Num);
  coll_count : Coll → S → N;
  index_lookup_eq : Coll → string → Json.Value Num → S → option (list (Doc Num));
  index_lookup_gt : Coll → string → Json.Value Num → S → option (list (Doc Num));
  index_lookup_gte : Coll → string → Json.Value Num → S → option (list (Doc Num));
  index_lookup_lt : Coll → string → Json.Value Num → S → option (list (Doc Num));
  index_lookup_lte : Coll → string → Json.Value Num → S → option (list (Doc Num));
  index_sorted : Coll → string → bool → option N → S → option (list (Doc Num));
  has_indexes : Coll → S → bool;
  coll_insert : Coll → Json.Value Num → Exec S (Doc Num);
  coll_insert_batch : Coll → list (Json.Value Num) → Exec S (list (Doc Num));
  index_documents : Coll → list (Doc Num) → Exec S ();
  coll_update : Coll → string → Json.Value Num → Exec S (Doc Num);
  coll_update_batch : Coll → list (string * Json.Value Num) → Exec S (list (Doc Num));
  coll_delete : Coll → string → Exec S ();
  coll_delete_batch : Coll → list string → Exec S N;
  log_mutation : string → LogOp → string → option (Json.Value Num) → S → S;
  (** A shard configuration with shards and a coordinator to use. *)
  sharded : Coll → S → bool;
  coord_insert_batch : string → list (Json.Value Num) → Exec S (N * N);
  coord_update : string → string → Json.Value Num → Exec S (Json.Value Num);
  coord_delete : string → string → Exec S ();
  scatter_gather_docs : string → option N → Exec S (list (Json.Value Num));
}.
(** The function library: the phonetic and the simple builtin functions, and the
    functions of evaluate.rs on vectors, texts and samples. *)
Class Functions (Num S : Type) := {
  phonetic_evaluate : string → list (Json.Value Num) → Exec S (option (Json.Value Num));
  builtins_evaluate : string → list (Json.Value Num) → Exec S (option (Json.Value Num));
  search_evaluate : string → list (Json.Value Num) → Exec S (option (Json.Value Num));
}.
(** [{:?}] of expressions and of parameter names *)
Class QueryText (Num : Type) := {
  expression_debug : Expression Num → string;
  names_debug : list string → string;
}.

Definition show_i64 (z : Z) : string :=
  if (z <? 0)%Z then "-" +:+ dec (Z.abs_N z) else dec (Z.to_N z).
Definition bool_text (b : bool) : string := if b then "true" else "false".
Definition has_colon (s : string) : bool := negb (str_all (λ c, negb (Ascii.eqb c ":")) s).

Module Eval.
Section Eval.
Context {Num S Coll : Type} `{json_number : !JsonNumber Num} `{json_text : !JsonText Num}.
Context `{value_text : !ValueText Num} `{char_tables : !CharTables} `{query_text : !QueryText Num}.
Context `{store : !DataStore Num S Coll} `{functions : !Functions Num S}.
Notation Value := (Json.Value Num).
Notation Expression := (Expression Num).
Notation Query := (Query Expression).
Notation Context := (gmap string Value).
Context (bind_vars : Context).
Context (eval : Expression → Context → Exec S Value).
Context (run_query : Query → Context → Exec S (list Value)).

Definition opened (name : string) : Exec S Coll := λ s, (s, open_collection name s).
Definition opened_absolute (name : string) : Exec S Coll := λ s, (s, open_absolute name s).
(** [if collection_name.contains(':') ...] *)
Definition opened_id (name : string) : Exec S Coll :=
  if has_colon name then opened_absolute name else opened name.
Definition document_value (o : option (Doc Num)) : Value :=
  match o with Some d => d.2 | None => Json.Null end.

(** ** Functions that need the executor *)

Definition usize_number (n : N) : Num := num_of_u64 n.
Definition length_function (args : list Value) : Exec S Value :=
  match args with
  | [Json.Array arr] => mret (Json.Number (usize_number (N.of_nat (length arr))))
  | [Json.JString s] =>
      o ← attempt (opened s);
      n ← match o with
          | Some c => reads (coll_count c)
          | None => mret (N.of_nat (String.length s))
          end;
      mret (Json.Number (usize_number n))
  | [Json.Object obj] => mret (Json.Number (usize_number (N.of_nat (length obj))))
  | [_] => fail_with "LENGTH: argument must be array, string, object, or collection name"
  | _ => fail_with "LENGTH requires 1 argument"
  end.
(** A document by its id; nothing where it cannot be found. *)
Definition document_by_id (id : Value) : Exec S (option Value) :=
  match Json.as_str id ≫= split_once "/" with
  | Some (collection_name, key) =>
      o ← attempt (opened_id collection_name);
      match o with
      | Some c => reads (λ s, snd <$> coll_get c key s)
      | None => mret None
      end
  | None => mret None
  end.
Definition document_by_key (c : Coll) (key : Value) : Exec S (option Value) :=
  match Json.as_str key with
  | Some key => reads (λ s, snd <$> coll_get c key s)
  | None => mret None
  end.
Definition document_function (args : list Value) : Exec S Value :=
  match args with
  | [Json.JString id] =>
      match split_once "/" id with
      | Some (collection_name, key) =>
          c ← opened_id collection_name;
          reads (λ s, document_value (coll_get c key s))
      | None => fail_with "DOCUMENT: id must be in format 'collection/key'"
      end
  | [Json.Array ids] => rs ← map_exec document_by_id ids; mret (Json.Array (omap id rs))
  | [Json.Null] => mret Json.Null
  | [_] => fail_with "DOCUMENT: first argument must be a string or array"
  | [coll; key] =>
      match Json.as_str coll with
      | None => fail_with "DOCUMENT: collection must be a string"
      | Some collection_name =>
          c ← opened_id collection_name;
          match key with
          | Json.JString key => reads (λ s, document_value (coll_get c key s))
          | Json.Array keys =>
              rs ← map_exec (document_by_key c) keys; mret (Json.Array (omap id rs))
          | Json.Null => mret Json.Null
          | _ => fail_with "DOCUMENT: key must be a string or array"
          end
      end
  | _ => fail_with "DOCUMENT requires 1 or 2 arguments: (id) or (collection, key)"
  end.
Fixpoint merge_objects (result : list (string * Value)) (args : list Value) : outcome Value :=
  match args with
  | [] => Done (Json.Object result)
  | Json.Object obj :: args' => merge_objects (foldl (λ r p, OMap.insert p.1 p.2 r) result obj) args'
  | Json.Null :: args' => merge_objects result args'
  | arg :: _ => execution_error ("MERGE: all arguments must be objects, got: " +:+ value_debug arg)
  end.
Definition merge_function (args : list Value) : outcome Value :=
  match args with
  | [] => execution_error "MERGE requires at least 1 argument"
  | _ => merge_objects [] args
  end.
Definition collection_count_function (args : list Value) : Exec S Value :=
  match args with
  | [v] =>
      match Json.as_str v with
      | Some name => c ← opened name; reads (λ s, Json.Number (usize_number (coll_count c s)))
      | None => fail_with "COLLECTION_COUNT: argument must be a string (collection name)"
      end
  | _ => fail_with "COLLECTION_COUNT requires 1 argument: collection name"
  end.
Definition context_function (name : string) (args : list Value) : Exec S Value :=
  let upper := to_uppercase name in
  if String.eqb upper "LENGTH" then length_function args
  else if String.eqb upper "DOCUMENT" then document_function args
  else if String.eqb upper "MERGE" then lift (merge_function args)
  else if String.eqb upper "COLLECTION_COUNT" then collection_count_function args
  else
    o ← search_evaluate upper args;
    match o with
    | Some v => mret v
    | None => fail_with ("Unknown function: " +:+ name)
    end.
(** The library first, then the rest. *)
Definition library_function (name : string) (args : list Value) : Exec S (option Value) :=
  o ← phonetic_evaluate name args;
  match o with Some v => mret (Some v) | None => builtins_evaluate name args end.
Definition evaluate_function (name : string) (args : list Expression) (ctx : Context) : Exec S Value :=
  evaluated_args ← map_exec (λ arg, eval arg ctx) args;
  o ← library_function name evaluated_args;
  match o with Some v => mret v | None => context_function name evaluated_args end.

(** ** Higher-order functions *)

Definition is_lambda (e : Expression) : bool := match e with Expression.Lambda _ _ => true | _ => false end.
Definition find_lambda (args : list Expression) : option (list string * Expression) :=
  head (omap (λ a, match a with Expression.Lambda ps body => Some (ps, body) | _ => None end) args).
Definition bind_first (params : list string) (item : Value) (ctx : Context) : Context :=
  match params with p :: _ => <[p := item]> ctx | [] => ctx end.
Definition bind_reduce (params : list string) (acc item : Value) (ctx : Context) : Context :=
  match params with
  | p :: q :: _ => <[q := item]> (<[p := acc]> ctx)
  | [p] => <[p := item]> ctx
  | [] => ctx
  end.
(** The test of a lambda; an error is a no. *)
Definition lambda_holds (params : list string) (body : Expression) (ctx : Context) (item : Value) : Exec S bool :=
  o ← attempt (eval body (bind_first params item ctx));
  mret (match o with Some v => to_bool v | None => false end).
Definition evaluate_hof_with_lambda (name : string) (evaluated_args : list Value)
    (original_args : list Expression) (ctx : Context) : Exec S Value :=
  match evaluated_args with
  | [] => fail_with (name +:+ " requires arguments")
  | Json.Array arr :: _ =>
      match find_lambda original_args with
      | None => fail_with (name +:+ " requires a lambda argument")
      | Some (params, body) =>
          let holds := lambda_holds params body ctx in
          if String.eqb name "FILTER" then
            l ← filter_exec holds arr; mret (Json.Array l)
          else if String.eqb name "MAP" then
            l ← map_exec (λ item, eval body (bind_first params item ctx)) arr; mret (Json.Array l)
          else if String.eqb name "FIND" || String.eqb name "FIND_FIRST" then
            o ← find_exec holds arr; mret (default Json.Null o)
          else if String.eqb name "ALL" || String.eqb name "EVERY" then
            o ← find_exec (λ item, b ← holds item; mret (negb b)) arr;
            mret (Json.Bool (bool_decide (o = None)))
          else if String.eqb name "ANY" || String.eqb name "SOME" then
            o ← find_exec holds arr; mret (Json.Bool (bool_decide (o ≠ None)))
          else if String.eqb name "REDUCE" then
            initial ← match List.find (λ a, negb (is_lambda a)) original_args with
                      | Some arg => eval arg ctx
                      | None => mret Json.Null
                      end;
            fold_exec (λ acc item, eval body (bind_reduce params acc item ctx)) initial arr
          else fail_with ("Function " +:+ name +:+ " does not support lambda arguments")
      end
  | other :: _ =>
      fail_with (name +:+ " expects an array as first argument, got " +:+ value_debug other)
  end.
Definition evaluate_pipeline (left_val : Value) (right : Expression) (ctx : Context) : Exec S Value :=
  match right with
  | Expression.FunctionCall name args =>
      if existsb is_lambda args
      then evaluate_hof_with_lambda (to_uppercase name) [left_val] args ctx
      else
        rest ← map_exec (λ arg, eval arg ctx) args;
        let name_upper := to_uppercase name in
        o ← library_function name_upper (left_val :: rest);
        match o with
        | Some v => mret v
        | None => fail_with ("Unknown function: " +:+ name_upper)
        end
  | _ => fail_with "Pipeline operator |> requires a function call on the right side"
  end.

(** ** Parts of expressions *)

Definition array_index (index_value : Value) : outcome N :=
  match index_value with
  | Json.Number n =>
      match num_as_u64 n with
      | Some i => Done i
      | None =>
          match num_as_f64 n with
          | Some f =>
              if F64.ltb f 0 then
                execution_error ("Array index must be non-negative, got: " +:+ f64_to_string f)
              else Done (F64.as_usize f)
          | None => execution_error ("Invalid array index: " +:+ num_to_string n)
          end
      end
  | _ => execution_error ("Array index must be a number, got: " +:+ value_debug index_value)
  end.
(** [arr.get(index)] *)
Definition nth_value (arr : list Value) (index : N) : Value :=
  if (index <? N.of_nat (length arr))%N then default Json.Null (arr !! N.to_nat index) else Json.Null.
Definition spread (path : option string) (elem : Value) : list Value :=
  match path with
  | Some path => [get_field_value elem path]
  | None => match elem with Json.Array inner => inner | other => [other] end
  end.
Definition range_bound (what : string) (v : Value) : outcome Z :=
  match v with
  | Json.Number n =>
      match num_as_i64 n with
      | Some i => Done i
      | None =>
          match num_as_f64 n with
          | Some f => Done (F64.as_i64 f)
          | None => execution_error ("Range " +:+ what +:+ " must be a number")
          end
      end
  | _ => execution_error ("Range " +:+ what +:+ " must be a number, got: " +:+ value_debug v)
  end.
(** [start..=end] *)
Definition range_values (start stop : Z) : list Value :=
  (λ i, Json.Number (num_of_i64 i)) <$> seqZ start (stop - start + 1).
Definition field_name (field_value : Value) : outcome string :=
  match field_value with
  | Json.JString s => Done s
  | Json.Number n => Done (num_to_string n)
  | _ => execution_error ("Dynamic field access requires a string or number, got: " +:+ value_debug field_value)
  end.
Definition i64_max_float : N := F64.of_int (2 ^ 63 - 1).
Definition template_text (value : Value) : string :=
  match value with
  | Json.JString s => s
  | Json.Number n =>
      match num_as_i64 n with
      | Some i => show_i64 i
      | None =>
          match num_as_f64 n with
          | Some f =>
              if F64.is_whole f && F64.ltb (F64.magnitude f) i64_max_float
              then show_i64 (F64.as_i64 f) else f64_to_string f
          | None => num_to_string n
          end
      end
  | Json.Bool b => bool_text b
  | Json.Null => "null"
  | _ => json_to_string value
  end.
Definition template_part (ctx : Context) (part : TemplateStringPart Expression) : Exec S string :=
  match part with
  | TemplateStringPart.Literal s => mret s
  | TemplateStringPart.Expression e => v ← eval e ctx; mret (template_text v)
  end.

Definition byte_sum (s : string) : N :=
  foldl (λ acc b, ((acc + N_of_ascii b) mod 2 ^ 32)%N) 0%N (list_ascii_of_string s).
(** The sum of three [u32] without overflow checks. *)
Definition window_hash (args partition order : string) : N :=
  ((byte_sum args + byte_sum partition) mod 2 ^ 32 + byte_sum order) mod 2 ^ 32.
Definition join_with (sep : string) (l : list string) : string := String.concat sep l.
Definition generate_window_key (function : string) (arguments : list Expression)
    (over_clause : WindowSpec Expression) : string :=
  let args_str := join_with "," (expression_debug <$> arguments) in
  let partition_str := join_with "," (expression_debug <$> partition_by over_clause) in
  let order_str := join_with "," ((λ p, expression_debug p.1 +:+ ":" +:+ bool_text p.2) <$> order_by over_clause) in
  "__window_" +:+ to_uppercase function +:+ "_" +:+ dec (N.of_nat (String.length args_str)) +:+ "_" +:+
  dec (N.of_nat (String.length partition_str + String.length order_str)) +:+ "_" +:+
  Radix.pad 16 1 (window_hash args_str partition_str order_str).
Definition fallback_keys : list string := (λ i, "__window_" +:+ dec (N.of_nat i)) <$> seq 0 100.
Definition window_value (function : string) (key : string) (ctx : Context) : outcome Value :=
  match head (omap (λ k, ctx !! k) (key :: fallback_keys)) with
  | Some v => Done v
  | None => execution_error ("Window function " +:+ function +:+
      " must be used in RETURN clause. Window functions are computed after all rows are collected.")
  end.

(** [for (condition, result) in when_clauses] *)
Fixpoint case_clauses (operand_val : option Value) (clauses : list (Expression * Expression))
    (else_clause : option Expression) (ctx : Context) : Exec S Value :=
  match clauses with
  | [] => match else_clause with Some e => eval e ctx | None => mret Json.Null end
  | (condition, result) :: clauses' =>
      v ← eval condition ctx;
      let hit := match operand_val with Some op_val => values_equal op_val v | None => to_bool v end in
      if hit : bool then eval result ctx else case_clauses operand_val clauses' else_clause ctx
  end.

(** ** Expressions *)

Definition evaluate_binary (left : Expression) (op : BinaryOperator) (right : Expression) (ctx : Context) :
    Exec S Value :=
  left_val ← eval left ctx;
  match op with
  | BinaryOperator.And =>
      if to_bool left_val then right_val ← eval right ctx; mret (Json.Bool (to_bool right_val))
      else mret (Json.Bool false)
  | BinaryOperator.Or =>
      if to_bool left_val then mret (Json.Bool true)
      else right_val ← eval right ctx; mret (Json.Bool (to_bool right_val))
  | BinaryOperator.NullCoalesce => if is_null left_val then eval right ctx else mret left_val
  | BinaryOperator.LogicalOr => if to_bool left_val then mret left_val else eval right ctx
  | _ => right_val ← eval right ctx; lift (evaluate_binary_op left_val op right_val)
  end.
Definition evaluate_expr (expr : Expression) (ctx : Context) : Exec S Value :=
  match expr with
  | Expression.Var name =>
      lift (or_fails (ctx !! name) (ExecutionError ("Variable '" +:+ name +:+ "' not found")))
  | Expression.BindVariable name =>
      match ctx !! ("@" +:+ name) with
      | Some v => mret v
      | None =>
          lift (or_fails (bind_vars !! name) (ExecutionError ("Bind variable '@" +:+ name +:+
            "' not found. Did you forget to pass it in bindVars?")))
      end
  | Expression.FieldAccess base field =>
      base_value ← eval base ctx; mret (get_field_value base_value field)
  | Expression.OptionalFieldAccess base field =>
      base_value ← eval base ctx;
      mret (if Json.is_object base_value then get_field_value base_value field else Json.Null)
  | Expression.DynamicFieldAccess base field_expr =>
      base_value ← eval base ctx;
      field_value ← eval field_expr ctx;
      name ← lift (field_name field_value);
      mret (get_field_value base_value name)
  | Expression.ArrayAccess base index_expr =>
      base_value ← eval base ctx;
      index_value ← eval index_expr ctx;
      index ← lift (array_index index_value);
      mret (match base_value with Json.Array arr => nth_value arr index | _ => Json.Null end)
  | Expression.ArraySpreadAccess base path =>
      base_value ← eval base ctx;
      mret (match base_value with
            | Json.Array arr => Json.Array (arr ≫= spread path)
            | _ => Json.Array []
            end)
  | Expression.Literal value => mret value
  | Expression.BinaryOp e1 op e2 => evaluate_binary e1 op e2 ctx
  | Expression.UnaryOp op operand => v ← eval operand ctx; lift (evaluate_unary_op op v)
  | Expression.Object fields =>
      obj ← fold_exec (λ obj p, v ← eval p.2 ctx; mret (OMap.insert p.1 v obj)) [] fields;
      mret (Json.Object obj)
  | Expression.Array elements => arr ← map_exec (λ e, eval e ctx) elements; mret (Json.Array arr)
  | Expression.Range start_expr end_expr =>
      start_val ← eval start_expr ctx;
      end_val ← eval end_expr ctx;
      start ← lift (range_bound "start" start_val);
      stop ← lift (range_bound "end" end_val);
      mret (Json.Array (range_values start stop))
  | Expression.FunctionCall name args => evaluate_function name args ctx
  | Expression.Subquery q => results ← run_query q ctx; mret (Json.Array results)
  | Expression.Ternary condition true_expr false_expr =>
      c ← eval condition ctx; if to_bool c then eval true_expr ctx else eval false_expr ctx
  | Expression.Case operand when_clauses else_clause =>
      operand_val ← match operand with
                    | Some op => v ← eval op ctx; mret (Some v)
                    | None => mret None
                    end;
      case_clauses operand_val when_clauses else_clause ctx
  | Expression.Pipeline e1 e2 => left_val ← eval e1 ctx; evaluate_pipeline left_val e2 ctx
  | Expression.Lambda params _ =>
      fail_with ("Lambda expression with params " +:+ names_debug params +:+
        " cannot be evaluated directly. Use it with higher-order functions like FILTER, MAP, etc.")
  | Expression.WindowFunctionCall function arguments over_clause =>
      lift (window_value function (generate_window_key function arguments over_clause) ctx)
  | Expression.TemplateString parts =>
      texts ← map_exec (template_part ctx) parts; mret (Json.JString (join_with "" texts))
  end.
(** A filter only accepts the value true. *)
Definition evaluate_filter (expr : Expression) (ctx : Context) : Exec S bool :=
  v ← eval expr ctx; mret (match v with Json.Bool b => b | _ => false end).
(** [.unwrap_or(false)] *)
Definition filter_holds (expr : Expression) (ctx : Context) : Exec S bool :=
  o ← attempt (evaluate_filter expr ctx); mret (default false o).
End Eval.
End Eval.
