(* ===== verification/SdbqlQuery.v ===== *)
(** * SDBQL: the executor, clauses and queries

    src/sdbql/executor/execution/ (entry.rs, clauses.rs, subquery.rs and
    streaming.rs), index_opt.rs, data_source.rs, aggregation.rs and window.rs: the
    rows a query goes through, with the index, limit and bulk optimisations, the
    mutations and what they log, graph traversals, joins and groups.

    Sort keys are computed once per row; the source computes them at every
    comparison, which only differs when they contain mutations. The tables that
    hash by key are in the order [hash_order] gives. *)

From S2P Require Import Prelude Text Json Transaction Codec F64 SdbqlLexer SdbqlAst SdbqlValue SdbqlExec.
Import Values Eval.

Record MutationStats := mkStats {
  documents_inserted : N;
  documents_updated : N;
  documents_removed : N;
}.
Definition no_stats : MutationStats := mkStats 0 0 0.
Definition inserted (n : N) (s : MutationStats) : MutationStats :=
  mkStats (documents_inserted s + n) (documents_updated s) (documents_removed s).
Definition updated (n : N) (s : MutationStats) : MutationStats :=
  mkStats (documents_inserted s) (documents_updated s + n) (documents_removed s).
Definition removed (n : N) (s : MutationStats) : MutationStats :=
  mkStats (documents_inserted s) (documents_updated s) (documents_removed s + n).

Module IndexOpt.
Section IndexOpt.
Context {Num : Type} `{json_number : !JsonNumber Num} `{json_text : !JsonText Num}.
Notation Value := (Json.Value Num).
Notation Expression := (Expression Num).
Context (bind_vars : gmap string Value).

Record IndexableCondition := mkCondition { cond_field : string; cond_op : BinaryOperator; cond_value : Value }.
Fixpoint extract_field_path (expr : Expression) (var_name : string) : option string :=
  match expr with
  | Expression.FieldAccess base field =>
      match base with
      | Expression.Var name =>
          if String.eqb name var_name then Some field else None
      | _ => base_path ← extract_field_path base var_name; Some (base_path +:+ "." +:+ field)
      end
  | _ => None
  end.
(** A literal or a bind variable. *)
Definition constant_of (expr : Expression) : option Value :=
  match expr with
  | Expression.Literal v => Some v
  | Expression.BindVariable name => bind_vars !! name
  | _ => None
  end.
Definition reversed_op (op : BinaryOperator) : BinaryOperator :=
  match op with
  | BinaryOperator.LessThan => BinaryOperator.GreaterThan
  | BinaryOperator.LessThanOrEqual => BinaryOperator.GreaterThanOrEqual
  | BinaryOperator.GreaterThan => BinaryOperator.LessThan
  | BinaryOperator.GreaterThanOrEqual => BinaryOperator.LessThanOrEqual
  | other => other
  end.
Definition indexable_op (op : BinaryOperator) : bool :=
  match op with
  | BinaryOperator.Equal | BinaryOperator.LessThan | BinaryOperator.LessThanOrEqual
  | BinaryOperator.GreaterThan | BinaryOperator.GreaterThanOrEqual => true
  | _ => false
  end.
Definition comparison_condition (e1 : Expression) (op : BinaryOperator) (e2 : Expression) (var_name : string) :
    option IndexableCondition :=
  match extract_field_path e1 var_name, constant_of e2 with
  | Some field, Some value => Some (mkCondition field op value)
  | _, _ =>
      match extract_field_path e2 var_name, constant_of e1 with
      | Some field, Some value => Some (mkCondition field (reversed_op op) value)
      | _, _ => None
      end
  end.
Fixpoint extract_indexable_condition (expr : Expression) (var_name : string) : option IndexableCondition :=
  match expr with
  | Expression.BinaryOp e1 op e2 =>
      if indexable_op op then comparison_condition e1 op e2 var_name
      else
        match op with
        | BinaryOperator.And =>
            match extract_indexable_condition e1 var_name with
            | Some cond => Some cond
            | None => extract_indexable_condition e2 var_name
            end
        | _ => None
        end
  | _ => None
  end.
(** A whole float becomes an integer. *)
Definition normalized (value : Value) : Value :=
  match value with
  | Json.Number n =>
      match num_as_f64 n with
      | Some f => if F64.is_whole f then Json.Number (num_of_i64 (F64.as_i64 f)) else value
      | None => value
      end
  | _ => value
  end.
Context {S Coll : Type} `{store : !DataStore Num S Coll}.
Definition use_index_for_condition (c : Coll) (cond : IndexableCondition) (s : S) : option (list (Doc Num)) :=
  let v := normalized (cond_value cond) in
  match cond_op cond with
  | BinaryOperator.Equal =>
      match index_lookup_eq c (cond_field cond) v s with
      | Some (d :: docs) => Some (d :: docs)
      | _ => index_lookup_eq c (cond_field cond) (cond_value cond) s
      end
  | BinaryOperator.GreaterThan => index_lookup_gt c (cond_field cond) v s
  | BinaryOperator.GreaterThanOrEqual => index_lookup_gte c (cond_field cond) v s
  | BinaryOperator.LessThan => index_lookup_lt c (cond_field cond) v s
  | BinaryOperator.LessThanOrEqual => index_lookup_lte c (cond_field cond) v s
  | _ => None
  end.
End IndexOpt.
Arguments mkCondition {Num} _ _ _. Arguments IndexableCondition : clear implicits.
End IndexOpt.
Import IndexOpt.

(** ** Graphs *)

Module Graph.
Section Graph.
Context {Num : Type}.
Notation Value := (Json.Value Num).

Definition edge_end (name : string) (edge : Value) : option string :=
  Json.value_get name edge ≫= Json.as_str.
Definition next_id (direction : EdgeDirection) (current : string) (edge : Value) : option string :=
  let from := edge_end "_from" edge in
  let to := edge_end "_to" edge in
  match direction with
  | EdgeDirection.Outbound => if decide (from = Some current) then to else None
  | EdgeDirection.Inbound => if decide (to = Some current) then from else None
  | EdgeDirection.Any =>
      if decide (from = Some current) then to
      else if decide (to = Some current) then from else None
  end.
(** What the traversals of a graph visit is bounded by the ends of its edges. *)
Definition bfs_fuel (edges : list Value) : nat := S (S (2 * length edges)).

(** *** Traversal *)

Definition Visit : Type := string * N * option Value.
Definition visit_edge (direction : EdgeDirection) (current : string) (depth : N)
    (st : gset string * list Visit) (edge : Value) : gset string * list Visit :=
  match next_id direction current edge with
  | Some next =>
      if decide (next ∈ st.1) then st
      else ({[next]} ∪ st.1, st.2 ++ [(next, (depth + 1)%N, Some edge)])
  | None => st
  end.
(** What is taken from the queue, in order. *)
Fixpoint bfs (fuel : nat) (direction : EdgeDirection) (max_depth : N) (edges : list Value)
    (visited : gset string) (queue : list Visit) : outcome (list Visit) :=
  match fuel with
  | O => OutOfFuel
  | S fuel' =>
      match queue with
      | [] => Done []
      | (current, depth, edge) :: queue' =>
          let '(visited', queue'') :=
            if (max_depth <=? depth)%N then (visited, queue')
            else foldl (visit_edge direction current depth) (visited, queue') edges in
          rest ← bfs fuel' direction max_depth edges visited' queue'';
          Done ((current, depth, edge) :: rest)
      end
  end.
Definition traverse (direction : EdgeDirection) (max_depth : N) (edges : list Value) (start : string) :
    outcome (list Visit) :=
  bfs (bfs_fuel edges) direction max_depth edges {[start]} [(start, 0%N, None)].

(** *** Shortest path *)

Notation Parents := (gmap string (option string * option Value)).
Definition relax_edge (direction : EdgeDirection) (current : string)
    (st : Parents * list string) (edge : Value) : Parents * list string :=
  match next_id direction current edge with
  | Some next =>
      match st.1 !! next with
      | Some _ => st
      | None => (<[next := (Some current, Some edge)]> st.1, st.2 ++ [next])
      end
  | None => st
  end.
Fixpoint search (fuel : nat) (direction : EdgeDirection) (edges : list Value) (end_id : string)
    (visited : Parents) (queue : list string) : outcome (option Parents) :=
  match fuel with
  | O => OutOfFuel
  | S fuel' =>
      match queue with
      | [] => Done None
      | current :: queue' =>
          if String.eqb current end_id then Done (Some visited)
          else
            let '(visited', queue'') := foldl (relax_edge direction current) (visited, queue') edges in
            search fuel' direction edges end_id visited' queue''
      end
  end.
(** The way back over the parents, end first. *)
Fixpoint walk_back (fuel : nat) (visited : Parents) (current : string) : outcome (list (string * option Value)) :=
  match fuel with
  | O => OutOfFuel
  | S fuel' =>
      match visited !! current with
      | None => Done []
      | Some (Some parent, edge) =>
          rest ← walk_back fuel' visited parent; Done ((current, edge) :: rest)
      | Some (None, edge) => Done [(current, edge)]
      end
  end.
Definition shortest_path (direction : EdgeDirection) (edges : list Value) (start_id end_id : string) :
    outcome (option (list (string * option Value))) :=
  o ← search (bfs_fuel edges) direction edges end_id {[start_id := (None, None)]} [start_id];
  match o with
  | None => Done None
  | Some visited => path ← walk_back (S (size visited)) visited end_id; Done (Some (reverse path))
  end.
End Graph.
End Graph.

Module Clauses.
Section Clauses.
Context {Num S Coll : Type} `{json_number : !JsonNumber Num} `{json_text : !JsonText Num}.
Context `{value_text : !ValueText Num} `{char_tables : !CharTables} `{query_text : !QueryText Num}.
Context `{store : !DataStore Num S Coll} `{order : !HashOrder}.
Notation Value := (Json.Value Num).
Notation Expression := (Expression Num).
Notation Query := (Query Expression).
Notation Context := (gmap string Value).
Context (bind_vars : Context).
Context (eval : Expression → Context → Exec S Value).

Definition Rows : Type := list Context * MutationStats.

(** [.take(n)] *)
Definition take_limit {A} (limit : option N) (l : list A) : list A :=
  match limit with
  | Some n => if (n <? N.of_nat (length l))%N then take (N.to_nat n) l else l
  | None => l
  end.

(** ** FOR *)

Definition as_source (limit : option N) (v : Value) : list Value :=
  match v with Json.Array arr => take_limit limit arr | other => [other] end.
Definition source_name (c : ForClause Expression) : string :=
  default (for_collection c) (source_variable c).
Definition get_for_source_docs (c : ForClause Expression) (ctx : Context) (limit : option N) :
    Exec S (list Value) :=
  match source_expression c with
  | Some e => v ← eval e ctx; mret (as_source limit v)
  | None =>
      match ctx !! source_name c with
      | Some v => mret (as_source limit v)
      | None =>
          coll ← opened (for_collection c);
          is_sharded ← reads (sharded coll);
          if is_sharded : bool then scatter_gather_docs (for_collection c) limit
          else reads (λ s, (coll_scan coll limit s).*2)
      end
  end.
Definition for_rows (c : ForClause Expression) (limit : option N) (ctx : Context) : Exec S (list Context) :=
  docs ← get_for_source_docs c ctx limit;
  mret ((λ doc, <[for_variable c := doc]> ctx) <$> docs).
Definition execute_for (c : ForClause Expression) (limit : option N) (rows : list Context) :
    Exec S (list Context) :=
  rss ← map_exec (for_rows c limit) rows; mret (concat rss).

Definition is_collection (c : ForClause Expression) : bool :=
  match source_variable c with Some src => String.eqb src (for_collection c) | None => true end.
(** FOR and the FILTER behind it through an index, where one can be used. *)
Definition index_rows (c : ForClause Expression) (cond : IndexableCondition Num) (limit : option N) (s : S)
    (ctx : Context) : option (list Context) :=
  match open_collection (for_collection c) s with
  | Done coll =>
      docs ← use_index_for_condition coll cond s;
      Some ((λ d : Doc Num, <[for_variable c := d.2]> ctx) <$> take_limit limit docs)
  | _ => None
  end.
Definition execute_for_index (c : ForClause Expression) (f : FilterClause Expression) (limit : option N)
    (rows : list Context) (s : S) : option (list Context) :=
  if is_collection c then
    cond ← extract_indexable_condition bind_vars (filter_expression f) (for_variable c);
    let results := index_rows c cond limit s <$> rows in
    if existsb (λ o, match o with Some _ => true | None => false end) results
    then Some (concat (omap id results)) else None
  else None.

(** ** LET, FILTER *)

Definition execute_let (c : LetClause Expression) (rows : list Context) : Exec S (list Context) :=
  map_exec (λ ctx, v ← eval (let_expression c) ctx; mret (<[let_variable c := v]> ctx)) rows.
Definition execute_filter (c : FilterClause Expression) (rows : list Context) : Exec S (list Context) :=
  filter_exec (filter_holds eval (filter_expression c)) rows.

(** ** Mutations *)

Definition bulk_threshold : nat := 100.
Definition log_docs (collection : string) (op : LogOp) (docs : list (Doc Num)) : Exec S () :=
  modify (λ s, foldl (λ s (d : Doc Num), log_mutation collection op d.1 (Some d.2) s) s docs).
Definition log_doc (collection : string) (op : LogOp) (key : string) (d : option Value) : Exec S () :=
  modify (log_mutation collection op key d).
Definition count_of {A} (l : list A) : N := N.of_nat (length l).

Definition insert_row (c : InsertClause Expression) (coll : Coll) (ctx : Context) : Exec S () :=
  doc_value ← eval (insert_document _ c) ctx;
  doc ← coll_insert coll doc_value;
  log_doc (insert_collection _ c) LogInsert doc.1 (Some doc.2).
Definition execute_insert (c : InsertClause Expression) (rows : list Context) (stats : MutationStats) :
    Exec S MutationStats :=
  coll ← opened (insert_collection _ c);
  is_sharded ← reads (sharded coll);
  if is_sharded : bool then
    documents ← map_exec (eval (insert_document _ c)) rows;
    result ← coord_insert_batch (insert_collection _ c) documents;
    mret (inserted result.1 stats)
  else
    indexed ← reads (has_indexes coll);
    if bulk_threshold <? length rows then
      documents ← map_exec (eval (insert_document _ c)) rows;
      docs ← coll_insert_batch coll documents;
      log_docs (insert_collection _ c) LogInsert docs;;
      (if indexed : bool then attempt (index_documents coll docs);; mret () else mret ());;
      mret (inserted (count_of docs) stats)
    else
      map_exec (insert_row c coll) rows;;
      mret (inserted (count_of rows) stats).

(** The key a selector stands for. *)
Definition selector_key (no_key no_selector : string) (v : Value) : outcome string :=
  match v with
  | Json.JString s => Done s
  | Json.Object obj => or_fails (OMap.get "_key" obj ≫= Json.as_str) (ExecutionError no_key)
  | _ => execution_error no_selector
  end.
Definition update_key : Value → outcome string :=
  selector_key "UPDATE: selector object must have a _key field"
    "UPDATE: selector must be a string key or an object with _key field".
Definition update_of (key_of : Value → outcome string) (msg : string) (c : UpdateClause Expression)
    (ctx : Context) : Exec S (string * Value) :=
  selector_value ← eval (update_selector _ c) ctx;
  key ← lift (key_of selector_value);
  changes_value ← eval (update_changes _ c) ctx;
  if Json.is_object changes_value then mret (key, changes_value) else fail_with msg.
Definition local_update : UpdateClause Expression → Context → Exec S (string * Value) :=
  update_of update_key "UPDATE: changes must be an object".
Definition update_row (c : UpdateClause Expression) (coll : Coll) (ctx : Context) : Exec S Context :=
  u ← local_update c ctx;
  doc ← coll_update coll u.1 u.2;
  log_doc (update_collection _ c) LogUpdate u.1 (Some doc.2);;
  mret (<["NEW" := doc.2]> ctx).
Definition update_row_sharded (c : UpdateClause Expression) (ctx : Context) : Exec S Context :=
  u ← update_of (selector_key "UPDATE: missing _key" "UPDATE: invalid selector")
        "UPDATE: changes must be object" c ctx;
  doc ← coord_update (update_collection _ c) u.1 u.2;
  mret (<["NEW" := doc]> ctx).
Definition execute_update (c : UpdateClause Expression) (rows : list Context) (stats : MutationStats) :
    Exec S Rows :=
  coll ← opened (update_collection _ c);
  is_sharded ← reads (sharded coll);
  if is_sharded : bool then
    rows' ← map_exec (update_row_sharded c) rows; mret (rows', updated (count_of rows) stats)
  else if bulk_threshold <? length rows then
    updates ← map_exec (local_update c) rows;
    docs ← coll_update_batch coll updates;
    log_docs (update_collection _ c) LogUpdate docs;;
    mret (rows, updated (count_of docs) stats)
  else rows' ← map_exec (update_row c coll) rows; mret (rows', updated (count_of rows) stats).

Definition remove_key : Value → outcome string :=
  selector_key "REMOVE: selector object must have a _key field"
    "REMOVE: selector must be a string key or an object with _key field".
Definition key_of (key : Value → outcome string) (c : RemoveClause Expression) (ctx : Context) : Exec S string :=
  v ← eval (remove_selector _ c) ctx; lift (key v).
Definition remove_row (c : RemoveClause Expression) (coll : Coll) (ctx : Context) : Exec S () :=
  key ← key_of remove_key c ctx;
  coll_delete coll key;;
  log_doc (remove_collection _ c) LogDelete key None.
Definition remove_row_sharded (c : RemoveClause Expression) (ctx : Context) : Exec S () :=
  key ← key_of (selector_key "REMOVE: missing _key" "REMOVE: invalid selector") c ctx;
  coord_delete (remove_collection _ c) key.
Definition execute_remove (c : RemoveClause Expression) (rows : list Context) (stats : MutationStats) :
    Exec S MutationStats :=
  coll ← opened (remove_collection _ c);
  is_sharded ← reads (sharded coll);
  if is_sharded : bool then
    map_exec (remove_row_sharded c) rows;; mret (removed (count_of rows) stats)
  else if bulk_threshold <? length rows then
    keys ← map_exec (key_of remove_key c) rows;
    n ← coll_delete_batch coll keys;
    modify (λ s, foldl (λ s key, log_mutation (remove_collection _ c) LogDelete key None s) s keys);;
    mret (removed n stats)
  else map_exec (remove_row c coll) rows;; mret (removed (count_of rows) stats).

(** The document an UPSERT finds. *)
Definition search_key (v : Value) : option string :=
  match v with
  | Json.JString s => Some s
  | Json.Object obj =>
      k ← match OMap.get "_key" obj with Some k => Some k | None => OMap.get "_id" obj end;
      Json.as_str k
  | _ => None
  end.
Definition found_key (coll : Coll) (v : Value) (s : S) : option string :=
  k ← search_key v;
  match coll_get coll k s with Some _ => Some k | None => None end.
Definition upsert_row (c : UpsertClause Expression) (coll : Coll) (st : Rows) (ctx : Context) : Exec S Rows :=
  search_value ← eval (upsert_search _ c) ctx;
  found ← reads (found_key coll search_value);
  match found with
  | Some key =>
      update_value ← eval (upsert_update _ c) ctx;
      if Json.is_object update_value then
        doc ← coll_update coll key update_value;
        log_doc (upsert_collection _ c) LogUpdate key (Some doc.2);;
        mret (st.1 ++ [<["NEW" := doc.2]> ctx], updated 1 st.2)
      else fail_with "UPSERT: update expression must be an object"
  | None =>
      insert_value ← eval (upsert_insert _ c) ctx;
      doc ← coll_insert coll insert_value;
      log_doc (upsert_collection _ c) LogInsert doc.1 (Some doc.2);;
      mret (st.1 ++ [<["NEW" := doc.2]> ctx], inserted 1 st.2)
  end.
Definition execute_upsert (c : UpsertClause Expression) (rows : list Context) (stats : MutationStats) :
    Exec S Rows :=
  coll ← opened (upsert_collection _ c);
  fold_exec (upsert_row c coll) ([], stats) rows.

(** ** Graphs *)

Definition vertex_id (msg : string) (v : Value) : outcome string :=
  match v with Json.JString s => Done s | _ => execution_error msg end.
(** The row of a vertex; none if there is no such document. *)
Definition vertex_row (vertex_var : string) (edge_var : option string) (ctx : Context) (id : string)
    (edge : option Value) (s : S) : option Context :=
  p ← split_once "/" id;
  match open_collection p.1 s with
  | Done coll =>
      doc ← coll_get coll p.2 s;
      let row := <[vertex_var := doc.2]> ctx in
      Some (match edge_var with Some v => <[v := default Json.Null edge]> row | None => row end)
  | _ => None
  end.
Definition traversal_rows (c : GraphTraversalClause Expression) (ctx : Context) : Exec S (list Context) :=
  start_value ← eval (gt_start_vertex _ c) ctx;
  start_id ← lift (vertex_id "Start vertex must be a string (e.g., 'users/alice')" start_value);
  coll ← opened (gt_edge_collection _ c);
  edges ← reads (λ s, (coll_scan coll None s).*2);
  visits ← lift (Graph.traverse (gt_direction _ c) (gt_max_depth _ c) edges start_id);
  reads (λ s, omap (λ v : Graph.Visit,
    if (gt_min_depth _ c <=? v.1.2)%N && (v.1.2 <=? gt_max_depth _ c)%N
    then vertex_row (gt_vertex_var _ c) (gt_edge_var _ c) ctx v.1.1 v.2 s else None) visits).
Definition execute_traversal (c : GraphTraversalClause Expression) (rows : list Context) : Exec S (list Context) :=
  rss ← map_exec (traversal_rows c) rows; mret (concat rss).
Definition path_rows (c : ShortestPathClause Expression) (ctx : Context) : Exec S (list Context) :=
  start_value ← eval (sp_start_vertex _ c) ctx;
  start_id ← lift (vertex_id "Start vertex must be a string" start_value);
  end_value ← eval (sp_end_vertex _ c) ctx;
  end_id ← lift (vertex_id "End vertex must be a string" end_value);
  coll ← opened (sp_edge_collection _ c);
  edges ← reads (λ s, (coll_scan coll None s).*2);
  o ← lift (Graph.shortest_path (sp_direction _ c) edges start_id end_id);
  reads (λ s, omap (λ p, vertex_row (sp_vertex_var _ c) (sp_edge_var _ c) ctx p.1 p.2 s) (default [] o)).
Definition execute_shortest_path (c : ShortestPathClause Expression) (rows : list Context) : Exec S (list Context) :=
  rss ← map_exec (path_rows c) rows; mret (concat rss).

(** ** COLLECT *)

(** The values of the argument over the rows of a group. *)
Definition argument_values (argument : option Expression) (group_docs : list Context) : Exec S (list Value) :=
  match argument with Some e => map_exec (eval e) group_docs | None => mret [] end.
Definition sum_number (f : N) : Num := default (num_of_i64 (F64.as_i64 f)) (num_of_f64 f).
(** The best of the values so far: numbers and texts are only compared with their
    like. *)
Definition better (lt : N → N → bool) (str_better : comparison) (best : option Value) (v : Value) : option Value :=
  if is_null v then best
  else
    match best with
    | None => Some v
    | Some cur =>
        match as_f64 cur, as_f64 v with
        | Some c, Some n => if lt n c then Some v else best
        | _, _ =>
            match Json.as_str cur, Json.as_str v with
            | Some c, Some n => if decide (str_cmp n c = str_better) then Some v else best
            | _, _ => best
            end
        end
    end.
Definition distinct (texts : list string) : list string := remove_dups texts.
Definition i64_of {A} (l : list A) : Num := num_of_i64 (Z.of_nat (length l)).
Definition compute_aggregate (function : string) (argument : option Expression) (group_docs : list Context) :
    Exec S Value :=
  let values := argument_values argument group_docs in
  if String.eqb function "COUNT" then
    match argument with
    | None => mret (Json.Number (i64_of group_docs))
    | Some _ => vs ← values; mret (Json.Number (i64_of (filter (λ v, is_null v = false) vs)))
    end
  else if String.eqb function "SUM" then
    vs ← values; mret (Json.Number (sum_number (foldl F64.add 0%N (omap as_f64 vs))))
  else if String.eqb function "AVG" then
    vs ← values;
    let ns := omap as_f64 vs in
    mret (if Nat.eqb (length ns) 0 then Json.Null
          else Json.Number (sum_number
                 (F64.div (foldl F64.add 0%N ns) (F64.of_int (Z.of_nat (length ns))))))
  else if String.eqb function "MIN" then
    vs ← values; mret (default Json.Null (foldl (better F64.ltb Lt) None vs))
  else if String.eqb function "MAX" then
    vs ← values; mret (default Json.Null (foldl (better (λ a b, F64.ltb b a) Gt) None vs))
  else if String.eqb function "LENGTH" || String.eqb function "COUNT_DISTINCT" then
    vs ← values; mret (Json.Number (i64_of (distinct (json_to_string <$> vs))))
  else if String.eqb function "COLLECT_LIST" || String.eqb function "COLLECT" then
    vs ← values; mret (Json.Array vs)
  else fail_with ("Unknown aggregate function: " +:+ function).

(** A group: its variables and its rows. *)
Definition Group : Type := Context * list Context.
Definition group_key (c : CollectClause Expression) (ctx : Context) : Exec S (string * Context) :=
  vs ← map_exec (λ p, v ← eval p.2 ctx; mret (p.1, v)) (group_vars _ c);
  mret (join_with "|" (json_to_string <$> vs.*2), foldl (λ g p, <[p.1 := p.2]> g) ∅ vs).
Fixpoint add_to_group (key : string) (group_ctx ctx : Context) (groups : list (string * Group)) :
    list (string * Group) :=
  match groups with
  | [] => [(key, (group_ctx, [ctx]))]
  | (k, (g, docs)) :: groups' =>
      if String.eqb k key then (k, (g, docs ++ [ctx])) :: groups'
      else (k, (g, docs)) :: add_to_group key group_ctx ctx groups'
  end.
Definition add_row (c : CollectClause Expression) (groups : list (string * Group)) (ctx : Context) :
    Exec S (list (string * Group)) :=
  p ← group_key c ctx; mret (add_to_group p.1 p.2 ctx groups).
Definition context_object (ctx : Context) : list (string * Value) :=
  foldr (λ p m, OMap.insert p.1 p.2 m) [] (map_to_list ctx).
Definition group_row (c : CollectClause Expression) (g : Group) : Exec S Context :=
  let with_into := match into_var _ c with
                   | Some v => <[v := Json.Array ((λ ctx, Json.Object (context_object ctx)) <$> g.2)]> g.1
                   | None => g.1
                   end in
  let with_count := match count_var _ c with
                    | Some v => <[v := Json.Number (i64_of g.2)]> with_into
                    | None => with_into
                    end in
  fold_exec (λ ctx a,
    v ← compute_aggregate (agg_function _ a) (agg_argument _ a) g.2;
    mret (<[agg_variable _ a := v]> ctx)) with_count (aggregates _ c).
Definition groups_of (c : CollectClause Expression) (rows : list Context) : Exec S (list (string * Group)) :=
  fold_exec (add_row c) [] rows.
Definition ordered_groups (groups : list (string * Group)) : list Group :=
  omap (λ k, OMap.get k groups) (hash_order groups.*1).
Definition execute_collect (c : CollectClause Expression) (rows : list Context) : Exec S (list Context) :=
  groups ← groups_of c rows;
  map_exec (group_row c) (ordered_groups groups).

(** ** JOIN *)

Definition join_matches (c : JoinClause Expression) (ctx : Context) (doc : Value) : Exec S bool :=
  o ← attempt (eval (join_condition _ c) (<[join_variable _ c := doc]> ctx));
  mret (default false (o ≫= as_bool)).
Definition all_docs (coll : Coll) : Exec S (list Value) := reads (λ s, (coll_scan coll None s).*2).
Definition join_row (c : JoinClause Expression) (coll : Coll) (keep_empty : bool) (ctx : Context) :
    Exec S (list Context) :=
  docs ← all_docs coll;
  hits ← filter_exec (join_matches c ctx) docs;
  mret (if keep_empty || negb (Nat.eqb (length hits) 0)
        then [<[join_variable _ c := Json.Array hits]> ctx] else []).
Definition right_row (c : JoinClause Expression) (rows : list Context) (right_doc : Value) : Exec S Context :=
  hits ← filter_exec (λ left_ctx, join_matches c left_ctx right_doc) rows;
  let new_ctx := {[join_variable _ c := right_doc]} in
  mret (match hits with
        | left_ctx :: _ => foldl (λ ctx p, <[p.1 := p.2]> ctx) new_ctx (context_object left_ctx)
        | [] => new_ctx
        end).
(** The documents that match a row, with their positions. *)
Definition outer_row (c : JoinClause Expression) (docs : list Value) (st : list Context * gset nat)
    (ctx : Context) : Exec S (list Context * gset nat) :=
  hits ← filter_exec (λ p : nat * Value, join_matches c ctx p.2) (imap pair docs);
  mret (st.1 ++ [<[join_variable _ c := Json.Array hits.*2]> ctx], list_to_set hits.*1 ∪ st.2).
Definition left_variable_name (clauses : list (BodyClause Expression)) : string :=
  default "left" (head (omap (λ c, match c with BodyClause.For f => Some (for_variable f) | _ => None end) clauses)).
Definition execute_join (clauses : list (BodyClause Expression)) (c : JoinClause Expression)
    (rows : list Context) : Exec S (list Context) :=
  coll ← opened (join_collection _ c);
  match join_type _ c with
  | JoinType.Inner => rss ← map_exec (join_row c coll false) rows; mret (concat rss)
  | JoinType.Left => rss ← map_exec (join_row c coll true) rows; mret (concat rss)
  | JoinType.Right => docs ← all_docs coll; map_exec (right_row c rows) docs
  | JoinType.FullOuter =>
      docs ← all_docs coll;
      st ← fold_exec (outer_row c docs) ([], ∅) rows;
      let unmatched := omap (λ p : nat * Value, if decide (p.1 ∈ st.2) then None else Some p.2) (imap pair docs) in
      mret (st.1 ++ ((λ doc, <[join_variable _ c := Json.Array [doc]]>
                       {[left_variable_name clauses := Json.Null]}) <$> unmatched))
  end.

(** ** The body *)

Definition keeping (stats : MutationStats) (m : Exec S (list Context)) : Exec S Rows :=
  rows ← m; mret (rows, stats).
Definition keeping_rows (rows : list Context) (m : Exec S MutationStats) : Exec S Rows :=
  stats ← m; mret (rows, stats).
(** One clause; FOR without an index. *)
Definition execute_clause (clauses : list (BodyClause Expression)) (limit : option N)
    (c : BodyClause Expression) (st : Rows) : Exec S Rows :=
  let '(rows, stats) := st in
  match c with
  | BodyClause.For c => keeping stats (execute_for c limit rows)
  | BodyClause.Let c => keeping stats (execute_let c rows)
  | BodyClause.Filter c => keeping stats (execute_filter c rows)
  | BodyClause.Insert c => keeping_rows rows (execute_insert c rows stats)
  | BodyClause.Update c => execute_update c rows stats
  | BodyClause.Upsert c => execute_upsert c rows stats
  | BodyClause.Remove c => keeping_rows rows (execute_remove c rows stats)
  | BodyClause.Join c => keeping stats (execute_join clauses c rows)
  | BodyClause.GraphTraversal c => keeping stats (execute_traversal c rows)
  | BodyClause.ShortestPath c => keeping stats (execute_shortest_path c rows)
  | BodyClause.Collect c => keeping stats (execute_collect c rows)
  | BodyClause.Window _ => fail_with "Window operations are only supported in STREAM definitions"
  end.
Fixpoint body_loop (clauses : list (BodyClause Expression)) (limit : option N)
    (todo : list (BodyClause Expression)) (st : Rows) : Exec S Rows :=
  match todo with
  | [] => mret st
  | (BodyClause.For c as clause) :: ((BodyClause.Filter f :: todo'') as todo') =>
      o ← reads (execute_for_index c f limit st.1);
      match o with
      | Some rows => body_loop clauses limit todo'' (rows, st.2)
      | None => st' ← execute_clause clauses limit clause st; body_loop clauses limit todo' st'
      end
  | clause :: todo' => st' ← execute_clause clauses limit clause st; body_loop clauses limit todo' st'
  end.
Definition execute_body_clauses (clauses : list (BodyClause Expression)) (ctx : Context) (limit : option N) :
    Exec S Rows := body_loop clauses limit clauses ([ctx], no_stats).

(** The path without a body. *)
Definition legacy_source (c : ForClause Expression) (bindings : Context) : Exec S (list Value) :=
  match bindings !! source_name c with
  | Some (Json.Array arr) => mret arr
  | Some other => mret [other]
  | None => coll ← opened (for_collection c); reads (λ s, (coll_all coll s).*2)
  end.
Definition legacy_for (bindings : Context) (rows : list Context) (c : ForClause Expression) :
    Exec S (list Context) :=
  docs ← legacy_source c bindings;
  mret (rows ≫= λ ctx, (λ doc, <[for_variable c := doc]> ctx) <$> docs).
Definition build_row_combinations (cs : list (ForClause Expression)) (bindings : Context) : Exec S (list Context) :=
  fold_exec (legacy_for bindings) [bindings] cs.
Definition query_rows (q : Query) (bindings : Context) (limit : option N) : Exec S Rows :=
  match body_clauses q with
  | [] =>
      rows ← build_row_combinations (for_clauses q) bindings;
      rows' ← fold_exec (λ rows c, execute_filter c rows) rows (filter_clauses q);
      mret (rows', no_stats)
  | _ => execute_body_clauses (body_clauses q) bindings limit
  end.

(** ** SORT, LIMIT, RETURN *)

Definition sort_keys (fields : list (Expression * bool)) (ctx : Context) : Exec S (list Value * Context) :=
  ks ← map_exec (λ f : Expression * bool, o ← attempt (eval f.1 ctx); mret (default Json.Null o)) fields;
  mret (ks, ctx).
Fixpoint compare_keys (ascending : list bool) (a b : list Value) : comparison :=
  match ascending, a, b with
  | asc :: ascending', x :: a', y :: b' =>
      match compare_values x y with
      | Eq => compare_keys ascending' a' b'
      | c => if asc then c else CompOpp c
      end
  | _, _, _ => Eq
  end.
Definition sort_rows (fields : list (Expression * bool)) (rows : list Context) : Exec S (list Context) :=
  if length rows <=? 1 then mret rows
  else
    keyed ← map_exec (sort_keys fields) rows;
    mret (sort_by (λ a b, compare_keys fields.*2 a.1 b.1) keyed).*2.
Definition execute_sort (c : option (SortClause Expression)) (rows : list Context) : Exec S (list Context) :=
  match c with Some c => sort_rows (sort_fields c) rows | None => mret rows end.
(** [.ok().and_then(as_u64).unwrap_or(0)] *)
Definition limit_number (e : Expression) (bindings : Context) : Exec S N :=
  o ← attempt (eval e bindings); mret (default 0%N (o ≫= Json.as_u64)).
(** [l[start..end]] with [start + count] in 64 bits *)
Definition slice {A} (offset count : N) (l : list A) : outcome (list A) :=
  let len := N.of_nat (length l) in
  let start := N.min offset len in
  let stop := N.min (wrap64 (start + count)) len in
  if (stop <? start)%N then Panics
  else Done (take (N.to_nat (stop - start)) (drop (N.to_nat start) l)).
Definition limit_slice {A} (c : LimitClause Expression) (bindings : Context) (l : list A) : Exec S (list A) :=
  offset ← limit_number (limit_offset c) bindings;
  count ← limit_number (limit_count c) bindings;
  lift (slice offset count l).
Definition execute_limit (c : option (LimitClause Expression)) (bindings : Context) (rows : list Context) :
    Exec S (list Context) :=
  match c with Some c => limit_slice c bindings rows | None => mret rows end.
Definition execute_return (c : option (ReturnClause Expression)) (rows : list Context) : Exec S (list Value) :=
  match c with Some c => map_exec (eval (return_expression c)) rows | None => mret [] end.
(** Bind variables and the LET clauses in front of the body. *)
Definition initial_bindings (q : Query) (ctx : Context) : Exec S Context :=
  fold_exec (λ ctx c, v ← eval (let_expression c) ctx; mret (<[let_variable c := v]> ctx))
    (map_fold (λ k v ctx, <["@" +:+ k := v]> ctx) ctx bind_vars) (let_clauses q).

Definition execute_with_parent_context (q : Query) (parent_ctx : Context) : Exec S (list Value) :=
  bindings ← initial_bindings q parent_ctx;
  r ← query_rows q bindings None;
  sorted ← execute_sort (sort_clause q) r.1;
  rows ← execute_limit (limit_clause q) bindings sorted;
  execute_return (return_clause q) rows.

(** ** Window functions *)

Definition WindowCall : Type := string * string * list Expression * WindowSpec Expression.
Fixpoint extract_window_functions (expr : Expression) : list WindowCall :=
  match expr with
  | Expression.WindowFunctionCall function arguments over_clause =>
      [(generate_window_key function arguments over_clause, function, arguments, over_clause)]
  | Expression.Object fields => flat_map (λ p, extract_window_functions p.2) fields
  | Expression.Array elements => flat_map extract_window_functions elements
  | Expression.BinaryOp e1 _ e2 => extract_window_functions e1 ++ extract_window_functions e2
  | Expression.UnaryOp _ operand => extract_window_functions operand
  | Expression.Ternary condition true_expr false_expr =>
      extract_window_functions condition ++ extract_window_functions true_expr ++
      extract_window_functions false_expr
  | Expression.Case operand when_clauses else_clause =>
      match operand with Some e => extract_window_functions e | None => [] end ++
      flat_map (λ p, extract_window_functions p.1 ++ extract_window_functions p.2) when_clauses ++
      match else_clause with Some e => extract_window_functions e | None => [] end
  | Expression.FunctionCall _ args => flat_map extract_window_functions args
  | Expression.FieldAccess base _ | Expression.OptionalFieldAccess base _ => extract_window_functions base
  | Expression.ArrayAccess base idx => extract_window_functions base ++ extract_window_functions idx
  | Expression.Pipeline e1 e2 => extract_window_functions e1 ++ extract_window_functions e2
  | Expression.TemplateString parts =>
      flat_map (λ p, match p with
                     | TemplateStringPart.Expression e => extract_window_functions e
                     | TemplateStringPart.Literal _ => []
                     end) parts
  | _ => []
  end.
(** [contains_window_functions] walks the same cases. *)
Definition contains_window_functions (expr : Expression) : bool :=
  negb (Nat.eqb (length (extract_window_functions expr)) 0).

(** [eval(..).unwrap_or(Null)] *)
Definition value_or_null (e : Expression) (ctx : Context) : Exec S Value :=
  o ← attempt (eval e ctx); mret (default Json.Null o).
Definition partition_key (partition : list Expression) (row : Context) : Exec S string :=
  texts ← map_exec (λ e, o ← attempt (eval e row);
                         mret (match o with Some v => json_to_string v | None => "" end)) partition;
  mret (join_with "|" texts).
Fixpoint add_to_partition (key : string) (row : nat) (parts : list (string * list nat)) : list (string * list nat) :=
  match parts with
  | [] => [(key, [row])]
  | (k, rows) :: parts' =>
      if String.eqb k key then (k, rows ++ [row]) :: parts' else (k, rows) :: add_to_partition key row parts'
  end.
Definition partition_rows (rows : list Context) (partition : list Expression) : Exec S (list (string * list nat)) :=
  keys ← map_exec (partition_key partition) rows;
  mret (foldl (λ parts p, add_to_partition p.2 p.1 parts) [] (imap pair keys)).
Definition row_at (rows : list Context) (i : nat) : Context := default ∅ (rows !! i).
Definition sort_partition_indices (rows : list Context) (indices : list nat) (order_by : list (Expression * bool)) :
    Exec S (list nat) :=
  match order_by with
  | [] => mret indices
  | _ =>
      keyed ← map_exec (λ i, p ← sort_keys order_by (row_at rows i); mret (p.1, i)) indices;
      mret (sort_by (λ a b : list Value * nat, compare_keys order_by.*2 a.1 b.1) keyed).*2
  end.
Definition order_values (order_by : list (Expression * bool)) (row : Context) : Exec S (list Value) :=
  map_exec (λ f : Expression * bool, value_or_null f.1 row) order_by.
(** RANK and DENSE_RANK: a new rank where the ordering values change. *)
Fixpoint ranks (dense : bool) (i rank : nat) (previous : option (list Value)) (l : list (list Value)) : list nat :=
  match l with
  | [] => []
  | vs :: l' =>
      let rank' := match previous with
                   | Some prev =>
                       if Json.list_eqb Json.value_eqb vs prev then rank
                       else if dense then rank + 1 else i + 1
                   | None => rank
                   end in
      rank' :: ranks dense (i + 1) rank' (Some vs) l'
  end.
Definition usize_value (n : nat) : Value := Json.Number (usize_number (N.of_nat n)).
(** The arguments of LAG and LEAD: an offset and a default, on the first row. *)
Definition window_offset (arguments : list Expression) (rows : list Context) : Exec S N :=
  match arguments !! 1 with
  | Some arg => o ← attempt (eval arg (row_at rows 0)); mret (default 1%N (o ≫= Json.as_u64))
  | None => mret 1%N
  end.
Definition window_default (arguments : list Expression) (rows : list Context) : Exec S Value :=
  match arguments !! 2 with Some arg => value_or_null arg (row_at rows 0) | None => mret Json.Null end.
Definition first_argument (arguments : list Expression) (row : Context) : Exec S Value :=
  match arguments with arg :: _ => value_or_null arg row | [] => mret Json.Null end.
Definition shifted (arguments : list Expression) (rows : list Context) (sorted : list nat) (default_val : Value)
    (target : nat → option N) (i : nat) : Exec S Value :=
  match target i ≫= λ j, sorted !! N.to_nat j with
  | Some idx => first_argument arguments (row_at rows idx)
  | None => mret default_val
  end.
Definition lag_target (offset : N) (i : nat) : option N :=
  if (offset <=? N.of_nat i)%N then Some (N.of_nat i - offset)%N else None.
Definition lead_target (offset : N) (size i : nat) : option N :=
  let j := wrap64 (N.of_nat i + offset) in if (j <? N.of_nat size)%N then Some j else None.
Definition float_or_null (f : N) : Value :=
  match num_of_f64 f with Some n => Json.Number n | None => Json.Null end.
Definition min_by (l : list Value) : option Value :=
  foldl (λ best v, match best with
                   | Some b => if decide (compare_values b v = Gt) then Some v else best
                   | None => Some v
                   end) None l.
Definition max_by (l : list Value) : option Value :=
  foldl (λ best v, match best with
                   | Some b => if decide (compare_values b v = Gt) then best else Some v
                   | None => Some v
                   end) None l.
Definition frame_value (function : string) (frame : list Value) : Value :=
  let nums := omap as_f64 frame in
  let values := filter (λ v, is_null v = false) frame in
  if String.eqb function "SUM" then float_or_null (foldl F64.add sum_start nums)
  else if String.eqb function "AVG" then
    if Nat.eqb (length nums) 0 then Json.Null
    else float_or_null (F64.div (foldl F64.add sum_start nums) (F64.of_int (Z.of_nat (length nums))))
  else if String.eqb function "COUNT" then usize_value (length values)
  else if String.eqb function "MIN" then default Json.Null (min_by values)
  else default Json.Null (max_by values).
Definition running_functions : list string := ["SUM"; "AVG"; "COUNT"; "MIN"; "MAX"].
Definition compute_window_in_partition (rows : list Context) (sorted : list nat) (function : string)
    (arguments : list Expression) (order_by : list (Expression * bool)) : Exec S (list Value) :=
  let upper := to_uppercase function in
  let positions := seq 0 (length sorted) in
  if String.eqb upper "ROW_NUMBER" then mret ((λ i, usize_value (i + 1)) <$> positions)
  else if String.eqb upper "RANK" || String.eqb upper "DENSE_RANK" then
    vs ← map_exec (λ idx, order_values order_by (row_at rows idx)) sorted;
    mret (usize_value <$> ranks (String.eqb upper "DENSE_RANK") 0 1 None vs)
  else if String.eqb upper "LAG" then
    offset ← window_offset arguments rows;
    default_val ← window_default arguments rows;
    map_exec (shifted arguments rows sorted default_val (lag_target offset)) positions
  else if String.eqb upper "LEAD" then
    offset ← window_offset arguments rows;
    default_val ← window_default arguments rows;
    map_exec (shifted arguments rows sorted default_val (lead_target offset (length sorted))) positions
  else if String.eqb upper "FIRST_VALUE" then
    v ← first_argument arguments (row_at rows (default 0 (head sorted)));
    mret (replicate (length sorted) v)
  else if String.eqb upper "LAST_VALUE" then
    v ← first_argument arguments (row_at rows (default 0 (last sorted)));
    mret (replicate (length sorted) v)
  else if existsb (String.eqb upper) running_functions then
    map_exec (λ i, frame ← map_exec (λ idx, first_argument arguments (row_at rows idx)) (take (i + 1) sorted);
                   mret (frame_value upper frame)) positions
  else fail_with ("Unknown window function: " +:+ function).
Definition place (results : list Value) (sorted : list nat) (values : list Value) : list Value :=
  foldl (λ results (p : nat * Value), <[p.1 := p.2]> results) results (zip sorted values).
Definition window_partition (rows : list Context) (function : string) (arguments : list Expression)
    (spec : WindowSpec Expression) (results : list Value) (part : string * list nat) : Exec S (list Value) :=
  sorted ← sort_partition_indices rows part.2 (order_by spec);
  values ← compute_window_in_partition rows sorted function arguments (order_by spec);
  mret (place results sorted values).
Definition compute_window_function (rows : list Context) (function : string) (arguments : list Expression)
    (spec : WindowSpec Expression) : Exec S (list Value) :=
  match rows with
  | [] => mret []
  | _ =>
      partitions ← partition_rows rows (partition_by spec);
      fold_exec (window_partition rows function arguments spec) (replicate (length rows) Json.Null) partitions
  end.
Definition apply_window_function (rows : list Context) (w : WindowCall) : Exec S (list Context) :=
  let '(var_name, function, arguments, spec) := w in
  values ← compute_window_function rows function arguments spec;
  mret (zip_with (λ row v, <[var_name := v]> row) rows values).
Definition execute_window (c : option (ReturnClause Expression)) (rows : list Context) : Exec S (list Context) :=
  match c with
  | Some c => fold_exec apply_window_function rows (extract_window_functions (return_expression c))
  | None => mret rows
  end.

(** ** Optimisations of a whole query *)

(** Bulk insertion over a range. *)
Definition streaming_threshold : Z := 5000.
Definition batch_size : Z := 5000.
Definition range_number (v : Value) : option Z :=
  match v with
  | Json.Number n =>
      match num_as_i64 n with Some i => Some i | None => F64.as_i64 <$> num_as_f64 n end
  | _ => None
  end.
Definition streaming_pattern (q : Query) :
    option (ForClause Expression * (Expression * Expression) * InsertClause Expression) :=
  match body_clauses q, sort_clause q, limit_clause q with
  | [BodyClause.For f; BodyClause.Insert i], None, None =>
      match source_expression f with
      | Some (Expression.Range start stop) => Some (f, (start, stop), i)
      | _ => None
      end
  | _, _, _ => None
  end.
Definition batch_documents (f : ForClause Expression) (i : InsertClause Expression) (bindings : Context)
    (from to : Z) : Exec S (list Value) :=
  map_exec (λ n, eval (insert_document _ i) (<[for_variable f := Json.Number (num_of_i64 n)]> bindings))
    (seqZ from (to - from + 1)).
Fixpoint streaming_loop (fuel : nat) (f : ForClause Expression) (i : InsertClause Expression) (coll : Coll)
    (returns indexed : bool) (bindings : Context) (current stop : Z) (results : list Value) : Exec S (list Value) :=
  match fuel with
  | O => lift OutOfFuel
  | Datatypes.S fuel' =>
      if (stop <? current)%Z then mret results
      else
        let batch_end := Z.min (wrap_i64 (current + batch_size - 1)) stop in
        documents ← batch_documents f i bindings current batch_end;
        docs ← coll_insert_batch coll documents;
        log_docs (insert_collection _ i) LogInsert docs;;
        (if indexed && negb (Nat.eqb (length docs) 0) then attempt (index_documents coll docs);; mret ()
         else mret ());;
        streaming_loop fuel' f i coll returns indexed bindings (wrap_i64 (batch_end + 1)) stop
          (if returns then results ++ range_values current batch_end else results)
  end.
Definition try_streaming_bulk_insert (q : Query) (bindings : Context) : Exec S (option (list Value * N)) :=
  match streaming_pattern q with
  | None => mret None
  | Some (f, (start_expr, end_expr), i) =>
      start_val ← eval start_expr bindings;
      end_val ← eval end_expr bindings;
      match range_number start_val, range_number end_val with
      | Some start, Some stop =>
          let total := Z.max (wrap_i64 (stop - start + 1)) 0 in
          if (total <? streaming_threshold)%Z then mret None
          else
            coll ← opened (insert_collection _ i);
            is_sharded ← reads (sharded coll);
            if is_sharded : bool then mret None
            else
              indexed ← reads (has_indexes coll);
              results ← streaming_loop (Z.to_nat (total / batch_size) + 2) f i coll
                (bool_decide (return_clause q ≠ None)) indexed bindings start stop [];
              mret (Some (results, Z.to_N total))
      | _, _ => mret None
      end
  end.

(** SORT and LIMIT of one collection through an index. *)
Definition sorted_pattern (q : Query) : option (ForClause Expression * (Expression * bool) * LimitClause Expression) :=
  match body_clauses q, sort_clause q, limit_clause q with
  | [BodyClause.For f], Some sort, Some limit =>
      match sort_fields sort with [field] => Some (f, field, limit) | _ => None end
  | _, _, _ => None
  end.
Definition loop_field (var_name : string) (e : Expression) : option string :=
  match e with
  | Expression.FieldAccess (Expression.Var var) field => if String.eqb var var_name then Some field else None
  | _ => None
  end.
Definition sorted_docs (f : ForClause Expression) (field : string) (asc : bool) (n : N) (s : S) :
    option (list (Doc Num)) :=
  match open_collection (for_collection f) s with
  | Done coll => index_sorted coll field asc (Some n) s
  | _ => None
  end.
Definition try_index_sorted (q : Query) (bindings : Context) : Exec S (option (list Value)) :=
  match sorted_pattern q with
  | None => mret None
  | Some (f, (sort_expr, asc), limit) =>
      offset ← limit_number (limit_offset limit) bindings;
      count ← limit_number (limit_count limit) bindings;
      o ← match loop_field (for_variable f) sort_expr with
          | Some field => reads (sorted_docs f field asc (wrap64 (offset + count)))
          | None => mret None
          end;
      match o with
      | None => mret None
      | Some docs =>
          docs' ← lift (slice offset count docs);
          results ← execute_return (return_clause q) ((λ d : Doc Num, <[for_variable f := d.2]> bindings) <$> docs');
          mret (Some results)
      end
  end.

(** LIMIT handed down to the scan. *)
Definition is_for (c : BodyClause Expression) : bool := match c with BodyClause.For _ => true | _ => false end.
Definition is_filter (c : BodyClause Expression) : bool := match c with BodyClause.Filter _ => true | _ => false end.
Definition scan_limit (q : Query) (bindings : Context) : Exec S (option N) :=
  match sort_clause q, limit_clause q with
  | None, Some l =>
      if Nat.eqb (length (List.filter is_for (body_clauses q))) 1 &&
         Nat.eqb (length (List.filter is_filter (body_clauses q))) 0
      then
        offset ← limit_number (limit_offset l) bindings;
        count ← limit_number (limit_count l) bindings;
        mret (Some (wrap64 (offset + count)))
      else mret None
  | _, _ => mret None
  end.

(** ** The query *)

(** The columnar shortcut and the materialized views are given. *)
Context (columnar : Query → Exec S (option (list Value))).
Context (create_view : CreateMaterializedViewClause Query → Exec S (list Value * MutationStats)).
Context (refresh_view : RefreshMaterializedViewClause → Exec S (list Value * MutationStats)).

Definition execute_rows (q : Query) (bindings : Context) : Exec S (list Value * MutationStats) :=
  limit ← scan_limit q bindings;
  r ← query_rows q bindings limit;
  sorted ← execute_sort (sort_clause q) r.1;
  windowed ← execute_window (return_clause q) sorted;
  rows ← execute_limit (limit_clause q) bindings windowed;
  results ← execute_return (return_clause q) rows;
  mret (results, r.2).
Definition execute_plain (q : Query) : Exec S (list Value * MutationStats) :=
  bindings ← initial_bindings q ∅;
  streamed ← try_streaming_bulk_insert q bindings;
  match streamed with
  | Some (results, n) => mret (results, inserted n no_stats)
  | None =>
      o ← columnar q;
      match o with
      | Some results => mret (results, no_stats)
      | None =>
          o ← try_index_sorted q bindings;
          match o with
          | Some results => mret (results, no_stats)
          | None => execute_rows q bindings
          end
      end
  end.
Definition execute_with_stats (q : Query) : Exec S (list Value * MutationStats) :=
  match create_materialized_view_clause q, refresh_materialized_view_clause q with
  | Some clause, _ => create_view clause
  | None, Some clause => refresh_view clause
  | None, None => execute_plain q
  end.
End Clauses.
End Clauses.

(** ** The knot *)

Module Executor.
Import Clauses.
Section Executor.
Context {Num S Coll : Type} `{json_number : !JsonNumber Num} `{json_text : !JsonText Num}.
Context `{value_text : !ValueText Num} `{char_tables : !CharTables} `{query_text : !QueryText Num}.
Context `{store : !DataStore Num S Coll} `{functions : !Functions Num S} `{order : !HashOrder}.
Notation Value := (Json.Value Num).
Notation Expression := (Expression Num).
Context (bind_vars : gmap string Value).

(** The nesting of an expression bounds the fuel. *)
Fixpoint evaluate_expr_with_context (fuel : nat) (expr : Expression) (ctx : gmap string Value) : Exec S Value :=
  match fuel with
  | O => lift OutOfFuel
  | Datatypes.S fuel' =>
      evaluate_expr bind_vars (evaluate_expr_with_context fuel') (run_subquery fuel') expr ctx
  end
with run_subquery (fuel : nat) (q : Query Expression) (ctx : gmap string Value) : Exec S (list Value) :=
  match fuel with
  | O => lift OutOfFuel
  | Datatypes.S fuel' => execute_with_parent_context bind_vars (evaluate_expr_with_context fuel') q ctx
  end.
Definition execute (columnar : Query Expression → Exec S (option (list Value)))
    (create_view : CreateMaterializedViewClause (Query Expression) → Exec S (list Value * MutationStats))
    (refresh_view : RefreshMaterializedViewClause → Exec S (list Value * MutationStats))
    (fuel : nat) (q : Query Expression) : Exec S (list Value * MutationStats) :=
  execute_with_stats bind_vars (evaluate_expr_with_context fuel) columnar create_view refresh_view q.
End Executor.
End Executor.
