(* ===== verification/GraphProps.v ===== *)
(** * SDBQL: what the graph traversals compute

    The breadth-first searches of FOR ... IN min..max and of SHORTEST_PATH against
    the walks of the graph: what is visited, at which depth, and that the path
    found is a shortest one. Both keep the invariant [searching]. *)

From S2P Require Import Prelude Text Json Codec SdbqlLexer SdbqlAst SdbqlExec SdbqlQuery.
Import Graph.

Section Graph.
Context {Num : Type}.
Notation Value := (Json.Value Num).
Context (direction : EdgeDirection) (edges : list Value) (start : string).

(** ** Walks *)

Definition step (a b : string) : Prop := ∃ e, e ∈ edges ∧ next_id direction a e = Some b.
Inductive walk : nat → string → Prop :=
| walk_start : walk 0 start
| walk_step n a b : walk n a → step a b → walk (S n) b.
Definition distance (id : string) (n : nat) : Prop := walk n id ∧ ∀ m, walk m id → n ≤ m.
Lemma distance_unique id n m : distance id n → distance id m → n = m.
Proof. intros [H1 H2] [H3 H4]. apply H2 in H3. apply H4 in H1. lia. Qed.

(** ** The search *)

Notation Visit := (@Visit Num).
Notation Parents := (gmap string (option string * option Value)).
Definition id_of (v : Visit) : string := v.1.1.
Definition depth_of (v : Visit) : nat := N.to_nat v.1.2.
Implicit Types (done queue : list Visit) (visited : gset string).

(** Where a visit comes from. *)
Definition found_by done (v : Visit) : Prop :=
  (v = (start, 0%N, None)) ∨
  ∃ u e, u ∈ done ∧ e ∈ edges ∧ next_id direction (id_of u) e = Some (id_of v) ∧
         v.2 = Some e ∧ depth_of v = S (depth_of u).
(** [done] has been taken from the queue, [d] the depth of the last of it;
    [opens] are the depths from which the search goes on. *)
Record searching (opens : nat → bool) (d : nat) visited done queue : Prop := {
  se_visited : visited = list_to_set (id_of <$> done ++ queue);
  se_nodup : NoDup (id_of <$> done ++ queue);
  se_distance v : v ∈ done ++ queue → distance (id_of v) (depth_of v);
  se_found v : v ∈ done ++ queue → found_by done v;
  se_opened v : v ∈ done ++ queue → depth_of v = 0 ∨ opens (pred (depth_of v)) = true;
  se_seen m id : walk m id → m ≤ d → id ∈ visited;
  se_sorted : StronglySorted le (depth_of <$> done ++ queue);
  se_done v : v ∈ done → depth_of v ≤ d;
  se_queue v : v ∈ queue → d ≤ depth_of v ≤ S d;
  se_position i v : (done ++ queue) !! i = Some v → depth_of v ≤ i;
}.
Definition closed (opens : nat → bool) visited done : Prop :=
  ∀ v b, v ∈ done → opens (depth_of v) = true → step (id_of v) b → b ∈ visited.
Definition downward (opens : nat → bool) : Prop := ∀ n m, m ≤ n → opens n = true → opens m = true.

Lemma found_by_mono done v u : found_by done v → found_by (done ++ [u]) v.
Proof.
  intros [?|(w & e & ? & ?)]; [by left|right]. exists w, e. rewrite elem_of_app. naive_solver.
Qed.

(** *** One visit is taken from the queue *)

Lemma searching_pop opens d visited done u queue :
  downward opens → searching opens d visited done (u :: queue) → closed opens visited done →
  searching opens (depth_of u) visited (done ++ [u]) queue.
Proof.
  intros Hdown [Hvis Hnd Hdist Hfound Hopened Hseen Hsort Hdone Hqueue Hpos] Hclosed.
  assert ((done ++ [u]) ++ queue = done ++ u :: queue) as Eapp by by rewrite <- app_assoc.
  assert (∀ w, w ∈ queue → depth_of u ≤ depth_of w) as Hmin.
  { intros w Hw. rewrite fmap_app in Hsort. apply StronglySorted_app in Hsort as (_ & _ & Hs).
    simpl in Hs. apply StronglySorted_inv in Hs as [_ Hall]. rewrite List.Forall_forall in Hall.
    apply Hall, list_elem_of_In, list_elem_of_fmap. eauto. }
  assert (d ≤ depth_of u ≤ S d) as Hu by (apply Hqueue; left).
  constructor; rewrite ?Eapp; auto.
  - intros v Hv. apply found_by_mono; auto.
  - intros m id Hw Hm. destruct (decide (m ≤ d)); [eauto|].
    inversion Hw as [|k a b Hwa Hstep]; subst; [lia|].
    assert (a ∈ id_of <$> done ++ u :: queue) as (v & -> & Hv)%list_elem_of_fmap.
    { rewrite <- (elem_of_list_to_set (C := gset string)). apply (Hseen k); [done|lia]. }
    destruct (Hdist v Hv) as [_ Hshort]. specialize (Hshort _ Hwa).
    assert (opens d = true) as Hod.
    { destruct (Hopened u) as [|H]; [set_solver|lia|]. by replace d with (pred (depth_of u)) by lia. }
    apply elem_of_app in Hv as [Hv|Hv].
    + apply (Hclosed v); [done| |done]. apply (Hdown d); [lia|done].
    + exfalso. apply elem_of_cons in Hv as [->|Hv]; [lia|]. apply Hmin in Hv. lia.
  - intros v [Hv|Hv%list_elem_of_singleton]%elem_of_app; [|by subst]. etrans; [by apply Hdone|lia].
  - intros v Hv. split; [auto|]. assert (depth_of v ≤ S d) by (apply Hqueue; by right). lia.
Qed.

(** *** An edge at the visit taken *)

Lemma searching_edge opens d visited done u queue e :
  searching opens d visited (done ++ [u]) queue → depth_of u = d → opens d = true → e ∈ edges →
  let st := visit_edge direction (id_of u) (u.1.2) (visited, queue) e in
  searching opens d st.1 (done ++ [u]) st.2 ∧ visited ⊆ st.1 ∧
  ∀ b, next_id direction (id_of u) e = Some b → b ∈ st.1.
Proof.
  intros Hs Hu Hopen He st. subst st. unfold visit_edge.
  destruct (next_id direction (id_of u) e) as [b|] eqn:Eb; [|done].
  simpl. case_decide as Hb; simpl; [naive_solver|]. split; [|set_solver].
  set (v := (b, (u.1.2 + 1)%N, Some e) : Visit).
  assert (depth_of v = S d) as Hv by (unfold depth_of, v in *; simpl; lia).
  destruct Hs as [Hvis Hnd Hdist Hfound Hopened Hseen Hsort Hdone Hqueue Hpos].
  assert (u ∈ (done ++ [u]) ++ queue) as Hin by set_solver.
  assert (∀ w, w ∈ (done ++ [u]) ++ queue ++ [v] ↔ w ∈ (done ++ [u]) ++ queue ∨ w = v) as Eelem.
  { intros w. rewrite (app_assoc (done ++ [u])), elem_of_app, list_elem_of_singleton. done. }
  assert (∀ {B} (f : Visit → B), f <$> (done ++ [u]) ++ queue ++ [v] = (f <$> (done ++ [u]) ++ queue) ++ [f v]) as Efmap.
  { intros B f. by rewrite (app_assoc (done ++ [u])), fmap_app. }
  constructor.
  - rewrite Efmap, list_to_set_app_L, <- Hvis. simpl. set_solver.
  - rewrite Efmap. apply NoDup_app. split; [done|]. split; [|apply NoDup_singleton].
    intros x Hx ->%list_elem_of_singleton. apply Hb. rewrite Hvis. by apply elem_of_list_to_set.
  - intros w [Hw| ->]%Eelem; [auto|]. rewrite Hv. split.
    + apply walk_step with (id_of u); [|by exists e]. rewrite <- Hu. by apply Hdist.
    + intros m Hm. destruct (decide (m ≤ d)); [|lia]. by destruct Hb; apply (Hseen m).
  - intros w [Hw| ->]%Eelem; [auto|]. right. exists u, e. split_and!; [set_solver|done..|lia].
  - intros w [Hw| ->]%Eelem; [auto|]. right. by rewrite Hv.
  - intros m id Hw Hm. apply elem_of_union_r. by eapply Hseen.
  - rewrite Efmap. apply StronglySorted_app_2; [|done|repeat constructor].
    intros x y (w & -> & Hw)%list_elem_of_fmap ->%list_elem_of_singleton. rewrite Hv.
    apply elem_of_app in Hw as [Hw|Hw]; [apply Hdone in Hw|apply Hqueue in Hw]; lia.
  - done.
  - intros w [Hw|Hw%list_elem_of_singleton]%elem_of_app; [auto|]. subst w. lia.
  - intros i w. rewrite (app_assoc (done ++ [u])). intros [Hi|[Hi Hw]]%lookup_app_Some; [eauto|].
    apply list_lookup_singleton_Some in Hw as [_ <-]. rewrite Hv.
    assert ((done ++ [u]) !! length done = Some u) as Hl by (by apply list_lookup_middle).
    rewrite length_app, length_app in Hi. simpl in Hi.
    assert (depth_of u ≤ length done) by (apply Hpos; by apply lookup_app_l_Some). lia.
Qed.

Lemma searching_edges opens d done u es : depth_of u = d → opens d = true → es ⊆ edges →
  ∀ visited queue, searching opens d visited (done ++ [u]) queue →
  let st := foldl (visit_edge direction (id_of u) (u.1.2)) (visited, queue) es in
  searching opens d st.1 (done ++ [u]) st.2 ∧ visited ⊆ st.1 ∧
  ∀ e b, e ∈ es → next_id direction (id_of u) e = Some b → b ∈ st.1.
Proof.
  intros Hu Hopen. induction es as [|e es IH]; intros Hes visited queue Hs; [set_solver|].
  destruct (searching_edge opens d visited done u queue e) as (Hs1 & Hsub1 & Hin1); [set_solver..|].
  simpl. destruct (visit_edge _ _ _ _ e) as [visited1 queue1].
  destruct (IH ltac:(set_solver) visited1 queue1 Hs1) as (Hs2 & Hsub2 & Hin2). set_solver.
Qed.

(** *** The round of the loop *)

Definition round (opens : nat → bool) (u : Visit) visited queue : gset string * list Visit :=
  if opens (depth_of u) then foldl (visit_edge direction (id_of u) (u.1.2)) (visited, queue) edges
  else (visited, queue).
Lemma searching_round opens d visited done u queue :
  downward opens → searching opens d visited done (u :: queue) → closed opens visited done →
  let st := round opens u visited queue in
  searching opens (depth_of u) st.1 (done ++ [u]) st.2 ∧ closed opens st.1 (done ++ [u]).
Proof.
  intros Hdown Hs Hclosed. apply searching_pop in Hs; [|done..].
  unfold round. destruct (opens (depth_of u)) eqn:Hopen; simpl.
  - destruct (searching_edges opens (depth_of u) done u edges eq_refl Hopen ltac:(done) visited queue Hs)
      as (Hs' & Hsub & Hall).
    split; [done|]. intros v b [Hv| ->%list_elem_of_singleton]%elem_of_app Hov Hstep.
    + apply Hsub. by apply (Hclosed v).
    + destruct Hstep as (e & He & Hn). eauto.
  - split; [done|]. intros v b [Hv| ->%list_elem_of_singleton]%elem_of_app Hov Hstep; [|congruence].
    by apply (Hclosed v).
Qed.

(** *** How far it can go *)

Definition ends : list string :=
  start :: concat ((λ e : Value, option_list (edge_end "_from" e) ++ option_list (edge_end "_to" e)) <$> edges).
Lemma length_ends : length ends < bfs_fuel edges.
Proof.
  unfold ends, bfs_fuel. simpl. induction edges as [|e es IH]; [simpl; lia|].
  cbn. rewrite !length_app. destruct (edge_end "_from" e), (edge_end "_to" e); simpl in *; lia.
Qed.
Lemma next_id_end a (e : Value) b : next_id direction a e = Some b →
  b ∈ option_list (edge_end "_from" e) ++ option_list (edge_end "_to" e).
Proof.
  unfold next_id. destruct direction; repeat case_decide; try done; intros ->; set_solver.
Qed.
Lemma searching_bound opens d visited done queue : searching opens d visited done queue →
  length done + length queue ≤ length ends.
Proof.
  intros Hs. rewrite <- length_app, <- (length_fmap id_of). apply submseteq_length.
  apply NoDup_submseteq; [apply Hs|]. intros x (v & -> & Hv)%list_elem_of_fmap.
  destruct (se_found _ _ _ _ _ Hs v Hv) as [->|(u & e & _ & He & Hn & _)]; [left|].
  right. apply list_elem_of_In, in_concat. apply next_id_end in Hn.
  eexists. rewrite <- !list_elem_of_In. split; [|exact Hn]. apply list_elem_of_fmap. eauto.
Qed.
Lemma searching_start opens : searching opens 0 {[start]} [] [(start, 0%N, None)].
Proof.
  constructor; simpl.
  - set_solver.
  - apply NoDup_singleton.
  - intros v ->%list_elem_of_singleton. split; [constructor|intros; unfold depth_of; simpl; lia].
  - intros v ->%list_elem_of_singleton. by left.
  - intros v ->%list_elem_of_singleton. by left.
  - intros m id Hw Hm. inversion Hw; subst; [set_solver|lia].
  - repeat constructor.
  - set_solver.
  - intros v ->%list_elem_of_singleton. unfold depth_of. simpl. lia.
  - intros i v [_ <-]%list_lookup_singleton_Some. unfold depth_of. simpl. lia.
Qed.
Lemma closed_start opens : closed opens {[start]} [].
Proof. intros v b Hv. set_solver. Qed.

(** ** Traversal *)

Definition within (max_depth : N) (n : nat) : bool := (N.of_nat n <? max_depth)%N.
Lemma within_downward max_depth : downward (within max_depth).
Proof. unfold downward, within. intros n m Hm. rewrite !N.ltb_lt. lia. Qed.

Lemma bfs_searches fuel max_depth d visited done queue :
  searching (within max_depth) d visited done queue → closed (within max_depth) visited done →
  length ends < fuel + length done →
  ∃ rest d' visited', bfs fuel direction max_depth edges visited queue = Done rest ∧
    searching (within max_depth) d' visited' (done ++ rest) [] ∧ closed (within max_depth) visited' (done ++ rest).
Proof.
  revert d visited done queue. induction fuel as [|fuel IH]; intros d visited done queue Hs Hc Hfuel.
  { apply searching_bound in Hs. lia. }
  destruct queue as [|[[current depth] edge] queue].
  { exists [], d, visited. rewrite app_nil_r. done. }
  set (u := (current, depth, edge)) in *.
  destruct (searching_round _ d visited done u queue (within_downward _) Hs Hc) as [Hs' Hc'].
  assert ((if (max_depth <=? depth)%N then (visited, queue)
          else foldl (visit_edge direction current depth) (visited, queue) edges)
         = round (within max_depth) u visited queue) as E.
  { unfold round, within, u, depth_of. simpl. rewrite N2Nat.id.
    destruct (N.leb_spec max_depth depth), (N.ltb_spec depth max_depth); try lia; done. }
  subst u. cbn [bfs]. rewrite E. destruct (round _ _ visited queue) as [visited1 queue1]. cbn [fst snd] in *.
  destruct (IH _ _ _ _ Hs' Hc') as (rest & d' & visited' & Er & Hs'' & Hc'').
  { rewrite length_app. cbn [length]. lia. }
  exists ((current, depth, edge) :: rest), d', visited'. rewrite Er. rewrite <- app_assoc in Hs'', Hc''. done.
Qed.
(** When the queue is empty, everything in reach has been visited. *)
Lemma searching_complete opens d visited done m id :
  downward opens → searching opens d visited done [] → closed opens visited done →
  walk m id → m = 0 ∨ opens (pred m) = true → ∃ v, v ∈ done ∧ id_of v = id ∧ depth_of v ≤ m.
Proof.
  intros Hdown Hs Hc Hw Hm.
  assert (∀ x, x ∈ visited → walk m x → ∃ v, v ∈ done ∧ id_of v = x ∧ depth_of v ≤ m) as Hfin.
  { intros x. rewrite (se_visited _ _ _ _ _ Hs), app_nil_r, elem_of_list_to_set.
    intros (v & -> & Hv)%list_elem_of_fmap Hwx. exists v. split_and!; [done..|].
    apply (se_distance _ _ _ _ _ Hs); [by rewrite app_nil_r|done]. }
  apply Hfin; [|done]. clear Hfin. induction Hw as [|m a b Hw IH Hstep].
  { by apply (se_seen _ _ _ _ _ Hs 0); [constructor|lia]. }
  destruct Hm as [|Hm]; [done|]. simpl in Hm.
  assert (a ∈ visited) as Ha.
  { apply IH. destruct m; [by left|right]. apply (Hdown (Datatypes.S m)); [simpl; lia|done]. }
  rewrite (se_visited _ _ _ _ _ Hs), app_nil_r in Ha.
  apply elem_of_list_to_set, list_elem_of_fmap in Ha as (v & -> & Hv).
  apply (Hc v); [done| |done]. apply (Hdown m); [|done].
  apply (se_distance _ _ _ _ _ Hs); [by rewrite app_nil_r|done].
Qed.

(** ** Shortest path *)

Inductive path_to : list (string * option Value) → string → Prop :=
| path_start : path_to [(start, None)] start
| path_edge p a b e : path_to p a → e ∈ edges → next_id direction a e = Some b →
    path_to (p ++ [(b, Some e)]) b.
(** The parents are those the visits come from. *)
Record linked (parents : Parents) visited (visits : list Visit) : Prop := {
  ln_dom : dom parents = visited;
  ln_parent v : v ∈ visits →
    (v = (start, 0%N, None) ∧ parents !! start = Some (None, None)) ∨
    ∃ u e, u ∈ visits ∧ parents !! id_of v = Some (Some (id_of u), Some e) ∧ e ∈ edges ∧
      next_id direction (id_of u) e = Some (id_of v) ∧ depth_of v = Datatypes.S (depth_of u);
}.
Lemma walk_back_path parents visited visits fuel v :
  linked parents visited visits → v ∈ visits → depth_of v < fuel →
  ∃ p, walk_back fuel parents (id_of v) = Done p ∧ path_to (reverse p) (id_of v) ∧
       length p = Datatypes.S (depth_of v).
Proof.
  intros Hl. revert v. induction fuel as [|fuel IH]; intros v Hv Hf; [lia|].
  destruct (ln_parent _ _ _ Hl v Hv) as [[-> E]|(u & e & Hu & E & He & Hn & Hd)]; cbn [walk_back].
  - unfold id_of at 1. simpl. rewrite E. eexists. split_and!; [done|constructor|done].
  - rewrite E. destruct (IH u Hu ltac:(lia)) as (p & Ep & Hp & Hlen). rewrite Ep.
    exists ((id_of v, Some e) :: p). split_and!; [done| |simpl; lia].
    rewrite reverse_cons. by apply path_edge with (id_of u).
Qed.
Lemma relax_visit u done e parents visited queue : u ∈ done → e ∈ edges →
  linked parents visited (done ++ queue) →
  ∃ parents' visited' queue',
    relax_edge direction (id_of u) (parents, id_of <$> queue) e = (parents', id_of <$> queue') ∧
    visit_edge direction (id_of u) (u.1.2) (visited, queue) e = (visited', queue') ∧
    linked parents' visited' (done ++ queue').
Proof.
  intros Hu He Hl. unfold relax_edge, visit_edge. simpl.
  destruct (next_id direction (id_of u) e) as [b|] eqn:Eb; [|by exists parents, visited, queue].
  pose proof Hl as [Hd Hp]. destruct (parents !! b) as [old|] eqn:Eold.
  { rewrite decide_True; [by exists parents, visited, queue|]. rewrite <- Hd. by eapply elem_of_dom_2. }
  rewrite decide_False; [|rewrite <- Hd; by apply not_elem_of_dom_2].
  set (v := (b, (u.1.2 + 1)%N, Some e) : Visit).
  exists (<[b := (Some (id_of u), Some e)]> parents), ({[b]} ∪ visited), (queue ++ [v]).
  split_and!; [by rewrite fmap_app|done|]. constructor; [rewrite dom_insert_L; set_solver|].
  intros w. rewrite app_assoc, elem_of_app, list_elem_of_singleton. intros [Hw| ->].
  - destruct (Hp w Hw) as [[-> Es]|(x & e' & Hx & Ex & ?)]; [left|right].
    + split; [done|]. rewrite lookup_insert_ne; [done|congruence].
    + exists x, e'. split; [set_solver|]. rewrite lookup_insert_ne; [done|congruence].
  - right. exists u, e. split; [set_solver|]. unfold v, id_of at 1. simpl.
    rewrite lookup_insert_eq. split_and!; [done..|]. unfold depth_of. simpl. lia.
Qed.
Lemma relax_visits u done es : u ∈ done → es ⊆ edges →
  ∀ parents visited queue, linked parents visited (done ++ queue) →
  let st := foldl (relax_edge direction (id_of u)) (parents, id_of <$> queue) es in
  let st' := foldl (visit_edge direction (id_of u) (u.1.2)) (visited, queue) es in
  st.2 = id_of <$> st'.2 ∧ linked st.1 st'.1 (done ++ st'.2).
Proof.
  intros Hu. induction es as [|e es IH]; intros Hes parents visited queue Hl; [done|].
  destruct (relax_visit u done e parents visited queue) as (? & ? & ? & E1 & E2 & Hl'); [set_solver..|].
  cbn [foldl]. rewrite E1, E2. apply IH; [set_solver|done].
Qed.

Definition always (n : nat) : bool := true.
Lemma search_finds fuel end_id d visited done queue parents :
  searching always d visited done queue → closed always visited done →
  linked parents visited (done ++ queue) → (∀ v, v ∈ done → id_of v ≠ end_id) →
  length ends < fuel + length done →
  (search fuel direction edges end_id parents (id_of <$> queue) = Done None ∧ ∀ n, ¬ walk n end_id) ∨
  ∃ parents' visits v, search fuel direction edges end_id parents (id_of <$> queue) = Done (Some parents') ∧
    linked parents' (dom parents') visits ∧ v ∈ visits ∧ id_of v = end_id ∧
    distance end_id (depth_of v) ∧ depth_of v < size parents'.
Proof.
  revert d visited done queue parents.
  induction fuel as [|fuel IH]; intros d visited done queue parents Hs Hc Hl Hne Hfuel.
  { apply searching_bound in Hs. lia. }
  destruct queue as [|u queue].
  { left. split; [done|]. intros n Hw.
    destruct (searching_complete always d visited done n end_id) as (v & Hv & Ev & _); auto; [by intros ?|].
    by apply (Hne v). }
  simpl. destruct (String.eqb_spec (id_of u) end_id) as [Eu|Eu].
  { right. exists parents, (done ++ u :: queue), u.
    assert (u ∈ done ++ u :: queue) as Hin by set_solver.
    split; [done|]. split; [by rewrite (ln_dom _ _ _ Hl)|].
    split; [done|]. split; [done|]. split.
    - rewrite <- Eu. by apply (se_distance _ _ _ _ _ Hs).
    - rewrite <- size_dom, (ln_dom _ _ _ Hl), (se_visited _ _ _ _ _ Hs), size_list_to_set; [|apply Hs].
      rewrite length_fmap, length_app. simpl.
      pose proof (se_position _ _ _ _ _ Hs (length done) u ltac:(by apply list_lookup_middle)). lia. }
  destruct (searching_round always d visited done u queue ltac:(done) Hs Hc) as [Hs' Hc'].
  unfold round, always in Hs', Hc'. cbn iota in Hs', Hc'.
  destruct (relax_visits u (done ++ [u]) edges ltac:(set_solver) ltac:(done) parents visited queue)
    as [Eq Hl']; [by rewrite <- app_assoc|].
  destruct (foldl (relax_edge _ _) _ _) as [parents1 ids1]. simpl in Eq. subst ids1.
  eapply IH; [exact Hs'|exact Hc'|exact Hl'| |rewrite length_app; cbn [length]; lia].
  intros v [Hv| ->%list_elem_of_singleton]%elem_of_app; auto.
Qed.
End Graph.

(** ** The theorems *)

(** C25: a traversal to depth [max_depth] ends, visits no vertex twice and in the order
    of their distance from the start, and visits exactly the vertices whose distance is at
    most [max_depth], each at its distance; and each but the start comes with an edge of
    the graph to it from a vertex visited one step nearer. *)
Theorem traversal_visits {Num} direction max_depth (edges : list (Json.Value Num)) start :
  ∃ visits, traverse direction max_depth edges start = Done visits ∧
    NoDup (id_of <$> visits) ∧ StronglySorted le (depth_of <$> visits) ∧
    (∀ id n, (∃ v, v ∈ visits ∧ id_of v = id ∧ depth_of v = n) ↔
             distance direction edges start id n ∧ n ≤ N.to_nat max_depth) ∧
    ∀ v, v ∈ visits → found_by direction edges start visits v.
Proof.
  destruct (bfs_searches direction edges start (bfs_fuel edges) max_depth 0 {[start]} []
    [(start, 0%N, None)]) as (visits & d & visited & E & Hs & Hc).
  { apply searching_start. } { apply closed_start. } { rewrite Nat.add_0_r. apply length_ends. }
  exists visits. simpl in Hs, Hc. pose proof Hs as [_ Hnd Hdist Hfound Hopened _ Hsort _ _ _].
  rewrite app_nil_r in *. split_and!; [done..| |done].
  intros id n. split.
  - intros (v & Hv & <- & <-). split; [by apply Hdist|].
    destruct (Hopened v Hv) as [|Hw]; [lia|]. apply N.ltb_lt in Hw. lia.
  - intros [Hd Hn].
    destruct (searching_complete direction edges start (within max_depth) d visited visits n id)
      as (v & Hv & Ev & _); [apply within_downward|done|done|by destruct Hd| |].
    { destruct n as [|n]; [by left|right]. apply N.ltb_lt. simpl. lia. }
    exists v. split_and!; [done..|]. eapply distance_unique; [by apply Hdist|by rewrite Ev].
Qed.

(** C26: SHORTEST_PATH ends. It finds no path exactly when there is no walk from the start
    to the end at all; the path it finds goes over edges of the graph, in the direction
    asked for, from the start to the end, and no walk between them is shorter. *)
Theorem shortest_path_minimal {Num} direction (edges : list (Json.Value Num)) start end_id :
  match shortest_path direction edges start end_id with
  | Done None => ∀ n, ¬ walk direction edges start n end_id
  | Done (Some path) => path_to direction edges start path end_id ∧
      ∃ n, length path = Datatypes.S n ∧ distance direction edges start end_id n
  | _ => False
  end.
Proof.
  unfold shortest_path. destruct (search_finds direction edges start (bfs_fuel edges) end_id 0 {[start]} []
    [(start, 0%N, None)] {[start := (None, None)]}) as [[E Hno]|(parents & visits & v & E & Hl & Hv & Ev & Hd & Hsize)].
  { apply searching_start. } { apply closed_start. }
  { constructor; [apply dom_singleton_L|]. intros v ->%list_elem_of_singleton. left.
    by rewrite lookup_singleton_eq. }
  { set_solver. } { rewrite Nat.add_0_r. apply length_ends. }
  - change (id_of <$> _) with [start] in E. by rewrite E.
  - change (id_of <$> _) with [start] in E. rewrite E. cbn [mbind outcome_bind].
    destruct (walk_back_path direction edges start parents _ visits (Datatypes.S (size parents)) v Hl Hv)
      as (p & Ep & Hp & Hlen); [lia|].
    rewrite Ev in *. unfold mbind, outcome_mbind, outcome_bind. rewrite Ep. simpl. split; [done|].
    exists (depth_of v). by rewrite length_reverse.
Qed.
