(* ===== verification/SdbqlQueryProps.v ===== *)
(** * SDBQL: what the clauses of a query compute

    Theorems on COLLECT, LIMIT, FOR with FILTER and the index path, and on the
    evaluator. *)

From S2P Require Import Prelude Text Json Transaction Codec F64 SdbqlLexer SdbqlAst SdbqlValue SdbqlExec SdbqlQuery.
Import Values Eval IndexOpt Clauses.

(** ** Executions *)

Section Exec.
Context {S : Type}.
Lemma exec_bind_done {A B} (m : Exec S A) (k : A → Exec S B) s s' b :
  (m ≫= k) s = (s', Done b) → ∃ s1 a, m s = (s1, Done a) ∧ k a s1 = (s', Done b).
Proof. unfold mbind, exec_bind. destruct (m s) as [s1 [a| | |]]; intros; simplify_eq. eauto. Qed.
Lemma exec_bind_run {A B} (m : Exec S A) (k : A → Exec S B) s s1 a : m s = (s1, Done a) → (m ≫= k) s = k a s1.
Proof. unfold mbind, exec_bind. by intros ->. Qed.
(** An invariant of the accumulator and the elements taken so far. *)
Lemma fold_exec_inv {A B} (P : list A → B → Prop) (f : B → A → Exec S B) l acc s s' b pre :
  P pre acc →
  (∀ pre x acc acc' s s', P pre acc → f acc x s = (s', Done acc') → P (pre ++ [x]) acc') →
  fold_exec f acc l s = (s', Done b) → P (pre ++ l) b.
Proof.
  intros HP Hstep. revert acc s pre HP. induction l as [|x l IH]; intros acc s pre HP; simpl.
  { intros [= _ <-]. by rewrite app_nil_r. }
  intros (s1 & acc1 & H1 & H2)%exec_bind_done. rewrite (cons_middle x pre l), app_assoc. eauto.
Qed.
End Exec.

Lemma map_exec_rows {S A B} (f : A → Exec S B) l s s' out : map_exec f l s = (s', Done out) →
  Forall2 (λ x y, ∃ s1 s2, f x s1 = (s2, Done y)) l out.
Proof.
  revert s s' out. induction l as [|x l IH]; simpl; intros s s' out.
  { intros [= _ <-]. constructor. }
  intros (s1 & y & H1 & (s2 & ys & H2 & [= _ <-])%exec_bind_done)%exec_bind_done.
  constructor; [by exists s, s1|by eapply IH].
Qed.

Lemma Forall2_join {A B C} (P : A → B → Prop) (Q : B → C → Prop) (R : A → C → Prop) l1 l2 l3 :
  (∀ x y z, P x y → Q y z → R x z) → Forall2 P l1 l2 → Forall2 Q l2 l3 → Forall2 R l1 l3.
Proof.
  intros HR H. revert l3. induction H as [|x y l1 l2 Hxy _ IH]; intros l3 H3; inversion H3; subst; constructor; eauto.
Qed.

Section Clauses.
Context {Num S Coll : Type} `{json_number : !JsonNumber Num} `{json_text : !JsonText Num}.
Context `{value_text : !ValueText Num} `{char_tables : !CharTables} `{query_text : !QueryText Num}.
Context `{store : !DataStore Num S Coll} `{order : !HashOrder}.
Notation Value := (Json.Value Num).
Notation Expression := (Expression Num).
Notation Query := (Query Expression).
Notation Context := (gmap string Value).
Context (bind_vars : Context).
Context (eval : Expression → Context → Exec S Value).

(** ** COLLECT *)

(** The values of the group expressions on a row, the text they make, and the variables of
    the group. *)
Definition row_values (c : CollectClause Expression) (ctx : Context) : Exec S (list Value) :=
  map_exec (λ p, eval p.2 ctx) (group_vars _ c).
Definition key_text (vs : list Value) : string := join_with "|" (json_to_string <$> vs).
Definition vars_of (c : CollectClause Expression) (vs : list Value) : Context :=
  list_to_map (reverse (zip (group_vars _ c).*1 vs)).
(** The rows whose values have the text [k], in their order. *)
Definition members (k : string) (l : list (list Value * Context)) : list (list Value * Context) :=
  filter (λ p, key_text p.1 = k) l.
Notation Group := (@Group Num).
Implicit Types (ctx g : Context) (docs rows : list Context) (groups : list (string * Group)) (vs : list Value).

Lemma group_key_values c ctx s s' k g : group_key eval c ctx s = (s', Done (k, g)) →
  ∃ vs, row_values c ctx s = (s', Done vs) ∧ k = key_text vs ∧ g = vars_of c vs.
Proof.
  unfold group_key. intros (s1 & ps & Hps & [= <- <- <-])%exec_bind_done. unfold row_values, vars_of.
  assert (∃ vs, map_exec (λ p, eval p.2 ctx) (group_vars _ c) s = (s1, Done vs) ∧ ps = zip (group_vars _ c).*1 vs ∧
    length vs = length (group_vars _ c)) as (vs & Hvs & -> & Hlen).
  { revert s ps Hps. induction (group_vars _ c) as [|p l IH]; intros s ps; cbn [map_exec].
    - intros [= <- <-]. by exists [].
    - intros (s2 & v & (s3 & x & Hx & [= -> <-])%exec_bind_done & (s4 & ys & Hys & [= -> <-])%exec_bind_done)%exec_bind_done.
      apply IH in Hys as (vs & Hvs & -> & Hlen). exists (x :: vs). split_and!; [|done|by cbn; rewrite Hlen].
      rewrite (exec_bind_run _ _ _ _ _ Hx), (exec_bind_run _ _ _ _ _ Hvs). done. }
  exists vs. split_and!; [done| |].
  - unfold key_text. by rewrite snd_zip by (rewrite length_fmap; lia).
  - generalize (zip (group_vars _ c).*1 vs) as l. intros l. induction l as [|p l IH] using rev_ind; [done|].
    rewrite foldl_app, reverse_app, reverse_singleton, IH. by destruct p.
Qed.

(** The groups of the rows taken so far. *)
Record grouped (c : CollectClause Expression) (l : list (list Value * Context)) groups : Prop := {
  gr_keys : NoDup groups.*1;
  gr_group k g docs : (k, (g, docs)) ∈ groups ↔
    ∃ vs ctx rest, members k l = (vs, ctx) :: rest ∧ g = vars_of c vs ∧ docs = ctx :: rest.*2;
}.
Lemma add_to_group_new k g ctx groups : k ∉ groups.*1 →
  add_to_group k g ctx groups = groups ++ [(k, (g, [ctx]))].
Proof.
  induction groups as [|[k' [g' docs]] groups IH]; [done|]. rewrite fmap_cons, not_elem_of_cons. intros [Hk Hn].
  simpl. destruct (String.eqb_spec k' k); [done|]. by rewrite IH.
Qed.
Lemma add_to_group_old k g ctx groups1 g' docs groups2 : k ∉ groups1.*1 →
  add_to_group k g ctx (groups1 ++ (k, (g', docs)) :: groups2) = groups1 ++ (k, (g', docs ++ [ctx])) :: groups2.
Proof.
  induction groups1 as [|[k' [g1 docs1]] groups1 IH]; simpl.
  { by rewrite String.eqb_refl. }
  rewrite not_elem_of_cons. intros [Hk Hn]. destruct (String.eqb_spec k' k); [done|]. by rewrite IH.
Qed.
Lemma members_snoc k l vs ctx : members k (l ++ [(vs, ctx)]) =
  members k l ++ (if decide (key_text vs = k) then [(vs, ctx)] else []).
Proof. unfold members. rewrite filter_app. by f_equal. Qed.
Lemma grouped_keys c l groups k : grouped c l groups → k ∈ groups.*1 ↔ members k l ≠ [].
Proof.
  intros Hg. rewrite list_elem_of_fmap. split.
  - intros ([k' [g docs]] & -> & (vs & ctx & rest & H & _)%(gr_group _ _ _ Hg)). cbn. by rewrite H.
  - intros Hm. destruct (members k l) as [|[vs ctx] rest] eqn:E; [done|]. exists (k, (vars_of c vs, ctx :: rest.*2)).
    split; [done|]. apply (gr_group _ _ _ Hg). eauto 6.
Qed.
Lemma grouped_add c l groups vs ctx : grouped c l groups →
  grouped c (l ++ [(vs, ctx)]) (add_to_group (key_text vs) (vars_of c vs) ctx groups).
Proof.
  intros Hg. pose proof (gr_keys _ _ _ Hg) as Hkeys. pose proof (grouped_keys c l groups (key_text vs) Hg) as Hin.
  destruct (decide (key_text vs ∈ groups.*1)) as [Hk|Hk].
  - apply list_elem_of_fmap in Hk as ([k' [g' docs]] & Hk' & Hel). cbn in Hk'. rewrite Hk' in Hin |- *.
    pose proof Hel as (vs0 & ctx0 & rest & Hm & -> & ->)%(gr_group _ _ _ Hg).
    apply list_elem_of_split in Hel as (groups1 & groups2 & ->).
    pose proof Hkeys as Hk1. rewrite fmap_app, fmap_cons in Hk1. cbn [fst] in Hk1.
    assert (k' ∉ groups1.*1 ∧ k' ∉ groups2.*1) as [Hn1 Hn2].
    { apply NoDup_app in Hk1 as (_ & H & [? _]%NoDup_cons). split; [|done]. intros ?. eapply H; [done|left]. }
    rewrite add_to_group_old by done. constructor; [by rewrite fmap_app, fmap_cons in *|].
    intros k g docs. rewrite members_snoc. destruct (decide (k = k')) as [->|Hne].
    + rewrite decide_True, Hm by done. rewrite elem_of_app, elem_of_cons. split.
      * intros [H|[[= -> ->]|H]]; [by destruct Hn1; apply list_elem_of_fmap; exists (k', (g, docs))| |
          by destruct Hn2; apply list_elem_of_fmap; exists (k', (g, docs))].
        exists vs0, ctx0, (rest ++ [(vs, ctx)]). split_and!; [done|done|]. by rewrite fmap_app.
      * intros (vs1 & ctx1 & rest1 & [= <- <- <-] & -> & ->). right; left. by rewrite fmap_app.
    + rewrite decide_False by congruence. rewrite app_nil_r, <- (gr_group _ _ _ Hg k g docs), !elem_of_app, !elem_of_cons. naive_solver.
  - rewrite add_to_group_new by done. constructor.
    + rewrite fmap_app. apply NoDup_app. split; [done|]. split; [set_solver|apply NoDup_singleton].
    + intros k g docs. rewrite members_snoc, elem_of_app, list_elem_of_singleton. destruct (decide (k = key_text vs)) as [->|Hne].
      * rewrite decide_True by done. assert (members (key_text vs) l = []) as Hnil by (destruct (members (key_text vs) l); naive_solver).
        rewrite Hnil, (gr_group _ _ _ Hg), Hnil. cbn [app]. naive_solver.
      * rewrite decide_False by congruence. rewrite app_nil_r, <- (gr_group _ _ _ Hg k g docs). naive_solver.
Qed.
Lemma groups_of_grouped c rows l groups0 s s' groups : grouped c l groups0 →
  fold_exec (add_row eval c) groups0 rows s = (s', Done groups) →
  ∃ values, map_exec (row_values c) rows s = (s', Done values) ∧ length values = length rows ∧ grouped c (l ++ zip values rows) groups.
Proof.
  revert l groups0 s. induction rows as [|ctx rows IH]; intros l groups0 s Hg; cbn [fold_exec map_exec].
  - intros [= <- <-]. exists []. cbn. by rewrite app_nil_r.
  - intros (s1 & groups1 & (s2 & [k g] & (vs & Hvs & -> & ->)%group_key_values & [= -> <-])%exec_bind_done & Hrest)%exec_bind_done.
    apply (IH (l ++ [(vs, ctx)])) in Hrest as (values & Hvals & Hlen & Hgr); [|by apply grouped_add].
    exists (vs :: values). split_and!.
    + rewrite (exec_bind_run _ _ _ _ _ Hvs), (exec_bind_run _ _ _ _ _ Hvals). done.
    + cbn. by rewrite Hlen.
    + by rewrite <- app_assoc in Hgr.
Qed.
Lemma get_group k groups (g : Group) : NoDup groups.*1 → (k, g) ∈ groups → OMap.get k groups = Some g.
Proof.
  induction groups as [|[k0 g0] groups IH]; [by intros _ ?%elem_of_nil|]. rewrite fmap_cons, NoDup_cons, elem_of_cons. cbn.
  intros [Hk Hnd] [[= -> ->]|Hin]; [by rewrite String.eqb_refl|]. destruct (String.eqb_spec k k0) as [->|]; [|by apply IH].
  destruct Hk. apply list_elem_of_fmap. by exists (k0, g).
Qed.
Lemma ordered_groups_keys groups (ks : list string) : NoDup groups.*1 → (∀ k, k ∈ ks → k ∈ groups.*1) →
  Forall2 (λ k (gr : Group), (k, gr) ∈ groups) ks (omap (λ k, OMap.get k groups) ks).
Proof.
  intros Hnd. induction ks as [|k ks IH]; intros Hks; [constructor|].
  destruct (proj1 (list_elem_of_fmap fst groups k) (Hks k (list_elem_of_here _ _))) as ([k' g] & -> & Hin).
  cbn [omap list_omap fst]. rewrite (get_group k' groups g) by done. constructor; [done|]. apply IH. intros k Hk. apply Hks. by right.
Qed.

(** The variables a group adds to its row. *)
Definition agg_vars (c : CollectClause Expression) : list string := agg_variable _ <$> aggregates _ c.
Definition added_vars (c : CollectClause Expression) : list string :=
  option_list (into_var _ c) ++ option_list (count_var _ c) ++ agg_vars c.
(** The row of a group with the values [vs] and the rows [docs]: the group's variables, the rows
    as objects, their number, and the aggregates over them. *)
Record group_result (c : CollectClause Expression) vs docs (row : Context) : Prop := {
  gs_vars x : x ∉ added_vars c → row !! x = vars_of c vs !! x;
  gs_into v : into_var _ c = Some v → count_var _ c ≠ Some v → v ∉ agg_vars c →
    row !! v = Some (Json.Array ((λ ctx, Json.Object (context_object ctx)) <$> docs));
  gs_count v : count_var _ c = Some v → v ∉ agg_vars c → row !! v = Some (Json.Number (i64_of docs));
  gs_aggregate pre a post : aggregates _ c = pre ++ a :: post → agg_variable _ a ∉ (agg_variable _ <$> post) →
    ∃ v s s', compute_aggregate eval (agg_function _ a) (agg_argument _ a) docs s = (s', Done v) ∧
              row !! agg_variable _ a = Some v;
}.
Lemma aggregates_run docs (l : list (AggregateExpr Expression)) (start row : Context) s s' :
  fold_exec (λ ctx a, v ← compute_aggregate eval (agg_function _ a) (agg_argument _ a) docs; mret (<[agg_variable _ a := v]> ctx))
    start l s = (s', Done row) →
  (∀ x, x ∉ (agg_variable _ <$> l) → row !! x = start !! x) ∧
  ∀ pre a post, l = pre ++ a :: post → agg_variable _ a ∉ (agg_variable _ <$> post) →
    ∃ v s s', compute_aggregate eval (agg_function _ a) (agg_argument _ a) docs s = (s', Done v) ∧ row !! agg_variable _ a = Some v.
Proof.
  revert start s. induction l as [|a l IH]; intros start s; cbn [fold_exec].
  { intros [= _ <-]. split; [done|]. by intros [|] ? ?. }
  intros (s1 & ctx1 & (s2 & v & Hv & [= <- <-])%exec_bind_done & [Hrow Hagg]%IH)%exec_bind_done. split.
  - intros x. rewrite fmap_cons, not_elem_of_cons. intros [Hx Hl]. rewrite Hrow, lookup_insert_ne; done.
  - intros [|a' pre] b post; cbn [app]; intros [= -> ->]; [|by apply (Hagg pre)]. intros Hb. exists v, s, s2. split; [done|].
    by rewrite Hrow, lookup_insert_eq.
Qed.
Lemma group_row_result c vs docs s s' row : group_row eval c (vars_of c vs, docs) s = (s', Done row) → group_result c vs docs row.
Proof.
  unfold group_row. cbn [fst snd]. intros [Hrow Hagg]%aggregates_run. constructor; [| | |done].
  - intros x Hx. unfold added_vars in Hx. rewrite Hrow by (unfold agg_vars in Hx; set_solver).
    destruct (count_var _ c), (into_var _ c); simpl in *; rewrite ?lookup_insert_ne; set_solver.
  - intros v Hv Hc Hx. rewrite Hrow by done. rewrite Hv.
    destruct (count_var _ c) as [v'|]; [rewrite lookup_insert_ne by congruence|]; apply lookup_insert_eq.
  - intros v Hv Hx. rewrite Hrow by done. rewrite Hv. apply lookup_insert_eq.
Qed.

(** C27: COLLECT groups its rows. When it succeeds, the group expressions have been evaluated on
    every row in order, and the output has one row for each text these values make (in an order
    that is that of a hash map). The row for a text holds the group variables with the values of
    the first row of that text, under INTO the objects of all the rows of that text in their
    order, under the count variable their number, and under each aggregate its value over them. *)
Theorem collect_partitions `{!HashOrderLaws} c rows s s' out :
  execute_collect eval c rows s = (s', Done out) →
  ∃ values s1 ks, map_exec (row_values c) rows s = (s1, Done values) ∧ length values = length rows ∧
    ks ≡ₚ remove_dups (key_text <$> values) ∧
    Forall2 (λ k row, ∃ vs ctx rest, members k (zip values rows) = (vs, ctx) :: rest ∧
                                     group_result c vs (ctx :: rest.*2) row) ks out.
Proof.
  intros (s1 & groups & (values & Hvals & Hlen & Hg)%(groups_of_grouped c rows [] []) & Hmap%map_exec_rows)%exec_bind_done.
  2: { constructor; [constructor|]. intros k g docs. split; [by intros ?%elem_of_nil|]. by intros (? & ? & ? & ? & _). }
  cbn [app] in Hg. exists values, s1, (hash_order groups.*1). split_and!; [done|done| |].
  - rewrite hash_order_perm. apply NoDup_Permutation; [apply Hg|apply NoDup_remove_dups|].
    intros k. rewrite elem_of_remove_dups, (grouped_keys c _ groups k Hg), list_elem_of_fmap. unfold members. split.
    + intros Hm. destruct (filter _ (zip values rows)) as [|[vs ctx] rest] eqn:E; [done|].
      assert ((vs, ctx) ∈ filter (λ p, key_text p.1 = k) (zip values rows)) as [Hk Hin]%list_elem_of_filter by (rewrite E; left).
      exists vs. split; [done|]. by apply elem_of_zip_l in Hin.
    + intros (vs & -> & [i Hi]%list_elem_of_lookup) Hnil.
      destruct (lookup_lt_is_Some_2 rows i) as [ctx Hctx]; [rewrite <- Hlen; by eapply lookup_lt_Some|].
      assert ((vs, ctx) ∈ zip values rows) as Hin by (apply list_elem_of_lookup; exists i; apply lookup_zip_with_Some; eauto).
      assert ((vs, ctx) ∈ filter (λ p, key_text p.1 = key_text vs) (zip values rows)) as Hf by by apply list_elem_of_filter.
      rewrite Hnil in Hf. by apply elem_of_nil in Hf.
  - unfold ordered_groups in Hmap.
    assert (Forall2 (λ k (gr : Group), (k, gr) ∈ groups) (hash_order groups.*1) (omap (λ k, OMap.get k groups) (hash_order groups.*1))) as Hks.
    { apply ordered_groups_keys; [apply Hg|]. intros k. by rewrite hash_order_perm. }
    eapply Forall2_join; [|exact Hks|exact Hmap]. intros k [g docs] row Hin (s2 & s3 & Hrow). cbn beta in *.
    apply (gr_group _ _ _ Hg) in Hin as (vs & ctx & rest & Hm & -> & ->). exists vs, ctx, rest. split; [done|].
    by apply group_row_result in Hrow.
Qed.

(** ** LIMIT *)

(** A scan with a limit is the front of the scan without. *)
Class ScanLaws : Prop := {
  scan_limited coll n s : coll_scan coll (Some n) s = take_limit (Some n) (coll_scan coll None s);
  scatter_limited name n s :
    scatter_gather_docs name (Some n) s =
    (docs ← scatter_gather_docs name None; mret (take_limit (Some n) docs)) s;
}.
Lemma take_limit_take {A} n (l : list A) : take_limit (Some n) l = take (N.to_nat n) l.
Proof. unfold take_limit. destruct (N.ltb_spec n (N.of_nat (length l))); [done|]. rewrite take_ge; [done|lia]. Qed.
Lemma slice_take {A} offset count n (l : list A) : (offset + count ≤ n)%N → (offset + count < 2 ^ 64)%N →
  slice offset count (take (N.to_nat n) l) = slice offset count l.
Proof.
  intros Hn Hw. unfold slice. rewrite length_take.
  assert (∀ m, m ≤ offset → wrap64 (m + count) = m + count)%N as Hwrap.
  { intros m Hm. unfold wrap64. rewrite N.mod_small; [done|]. eapply N.le_lt_trans; [|exact Hw]. lia. }
  rewrite !Hwrap by lia.
  destruct (N.ltb_spec (N.min (N.min offset (N.of_nat (N.to_nat n `min` length l)) + count)
    (N.of_nat (N.to_nat n `min` length l))) (N.min offset (N.of_nat (N.to_nat n `min` length l)))); [lia|].
  destruct (N.ltb_spec (N.min (N.min offset (N.of_nat (length l)) + count) (N.of_nat (length l)))
    (N.min offset (N.of_nat (length l)))); [lia|].
  f_equal. apply list_eq. intros i.
  rewrite !lookup_take, !lookup_drop, !lookup_take. repeat case_decide; try lia; try done.
  f_equal. lia.
Qed.
(** What only looks at the first [n] documents sees no difference. *)
Lemma source_limited `{!ScanLaws} {B} c ctx n (k : list Value → Exec S B) s :
  (∀ l s, k l s = k (take (N.to_nat n) l) s) →
  (get_for_source_docs eval c ctx (Some n) ≫= k) s = (get_for_source_docs eval c ctx None ≫= k) s.
Proof.
  intros Hk. unfold get_for_source_docs, mbind, exec_bind, mret, exec_ret.
  assert (∀ v s, k (as_source (Some n) v) s = k (as_source None v) s) as Has.
  { intros [] ?; try done. unfold as_source. by rewrite take_limit_take, <- Hk. }
  destruct (source_expression c) as [e|].
  { destruct (eval e ctx s) as [s1 [v| | |]]; [by rewrite Has|done..]. }
  destruct (ctx !! source_name c) as [v|]; [by rewrite Has|].
  destruct (opened (for_collection c) s) as [s1 [coll| | |]]; [|done..]. simpl.
  destruct (sharded coll s1).
  - rewrite scatter_limited. unfold mbind, exec_bind, mret, exec_ret.
    destruct (scatter_gather_docs (for_collection c) None s1) as [s2 [docs| | |]]; [|done..].
    by rewrite take_limit_take, <- Hk.
  - unfold reads. rewrite scan_limited, take_limit_take, fmap_take, <- Hk. done.
Qed.

(** The query without the limit on its scan. *)
Definition execute_unlimited (q : Query) (bindings : Context) : Exec S (list Value * MutationStats) :=
  r ← query_rows bind_vars eval q bindings None;
  sorted ← execute_sort eval (sort_clause q) r.1;
  windowed ← execute_window eval (return_clause q) sorted;
  rows ← execute_limit eval (limit_clause q) bindings windowed;
  results ← execute_return eval (return_clause q) rows;
  mret (results, r.2).
Definition no_windows (q : Query) : Prop :=
  ∀ r, return_clause q = Some r → extract_window_functions (return_expression r) = [].
(** What follows the scan of a query that is one FOR. *)
Definition after_scan (q : Query) (c : ForClause Expression) (l : LimitClause Expression) (bindings : Context)
    (docs : list Value) : Exec S (list Value * MutationStats) :=
  rows ← limit_slice eval l bindings ((λ doc, <[for_variable c := doc]> bindings) <$> docs);
  results ← execute_return eval (return_clause q) rows;
  mret (results, no_stats).
Lemma scan_query q c l bindings limit s :
  body_clauses q = [BodyClause.For c] → sort_clause q = None → limit_clause q = Some l → no_windows q →
  (r ← query_rows bind_vars eval q bindings limit;
   sorted ← execute_sort eval (sort_clause q) r.1;
   windowed ← execute_window eval (return_clause q) sorted;
   rows ← execute_limit eval (limit_clause q) bindings windowed;
   results ← execute_return eval (return_clause q) rows;
   mret (results, r.2)) s = (get_for_source_docs eval c bindings limit ≫= after_scan q c l bindings) s.
Proof.
  intros Hb Hs Hl Hw. unfold query_rows, after_scan. rewrite Hb, Hs, Hl.
  unfold execute_body_clauses. cbn. unfold for_rows, mbind, exec_bind, mret, exec_ret.
  destruct (get_for_source_docs eval c bindings limit s) as [s1 [docs| | |]]; [|done..].
  cbn. rewrite app_nil_r. unfold execute_window. destruct (return_clause q) as [r|] eqn:Hr; cbn.
  - rewrite (Hw r Hr). done.
  - done.
Qed.

(** handing LIMIT down to the scan of a query that is one FOR without SORT or window
    functions changes nothing: the results, the errors and the state are those of the
    query that scans everything and takes the slice afterwards. *)
Theorem limit_pushdown `{!ScanLaws} q c l bindings offset count s :
  body_clauses q = [BodyClause.For c] → sort_clause q = None → limit_clause q = Some l → no_windows q →
  (∀ s, limit_number eval (limit_offset l) bindings s = (s, Done offset)) →
  (∀ s, limit_number eval (limit_count l) bindings s = (s, Done count)) →
  (offset + count < 2 ^ 64)%N →
  execute_rows bind_vars eval q bindings s = execute_unlimited q bindings s.
Proof.
  intros Hb Hs Hl Hw Ho Hc Hn. unfold execute_rows, execute_unlimited.
  assert (scan_limit eval q bindings s = (s, Done (Some (offset + count)%N))) as Hscan.
  { unfold scan_limit. rewrite Hb, Hs, Hl. cbn. rewrite (exec_bind_run _ _ _ _ _ (Ho s)), (exec_bind_run _ _ _ _ _ (Hc s)).
    unfold wrap64. rewrite N.mod_small; done. }
  rewrite (exec_bind_run _ _ _ _ _ Hscan), !(scan_query q c l) by done. apply source_limited.
  intros docs s1. unfold after_scan, limit_slice, mbind, exec_bind. rewrite Ho, Hc. unfold lift.
  rewrite fmap_take, slice_take by lia. done.
Qed.
End Clauses.

(** ** FOR with FILTER *)

Section Filter.
Context {Num S Coll : Type} `{json_number : !JsonNumber Num} `{json_text : !JsonText Num}.
Context `{value_text : !ValueText Num} `{char_tables : !CharTables} `{query_text : !QueryText Num}.
Context `{store : !DataStore Num S Coll} `{functions : !Functions Num S} `{order : !HashOrder}.
Notation Value := (Json.Value Num).
Notation Expression := (Expression Num).
Notation Context := (gmap string Value).
Context (bind_vars : Context).
Notation eval fuel := (Executor.evaluate_expr_with_context bind_vars fuel).

(** [FOR var IN name], over a collection that is not sharded. *)
Definition over_collection (c : ForClause Expression) (ctx : Context) (coll : Coll) (s : S) : Prop :=
  source_expression c = None ∧ is_collection c = true ∧
  ctx !! for_collection c = None ∧
  open_collection (for_collection c) s = Done coll ∧ sharded coll s = false.
Definition field_is (var field t : string) : Expression :=
  Expression.BinaryOp (Expression.FieldAccess (Expression.Var var) field) BinaryOperator.Equal
    (Expression.Literal (Json.JString t)).
Definition rows_of (c : ForClause Expression) (ctx : Context) (docs : list (Doc Num)) : list Context :=
  (λ d : Doc Num, <[for_variable c := d.2]> ctx) <$> docs.

Lemma values_equal_string v t : values_equal v (Json.JString t) = true ↔ v = Json.JString t.
Proof.
  unfold values_equal. destruct v; simpl; try (split; discriminate || done).
  rewrite String.eqb_eq. split; [by intros ->|congruence].
Qed.
Lemma eval_field_is fuel var field t (row : Context) d s : row !! var = Some d →
  eval (3 + fuel) (field_is var field t) row s =
  (s, Done (Json.Bool (values_equal (get_field_value d field) (Json.JString t)))).
Proof. intros Hrow. simpl. unfold evaluate_binary, evaluate_expr at 1, lift, mbind, exec_bind, or_fails. simpl. by rewrite Hrow. Qed.
Definition selects (field t : string) (d : Doc Num) : Prop := get_field_value d.2 field = Json.JString t.
#[export] Instance selects_dec field t d : Decision (selects field t d).
Proof.
  refine (cast_if (decide (values_equal (get_field_value d.2 field) (Json.JString t) = true)));
    unfold selects; by rewrite <- values_equal_string.
Defined.
Lemma filter_field_is fuel c ctx field t docs s :
  execute_filter (eval (3 + fuel)) (mkFilter (field_is (for_variable c) field t)) (rows_of c ctx docs) s =
  (s, Done (rows_of c ctx (filter (selects field t) docs))).
Proof.
  unfold execute_filter, rows_of. induction docs as [|d docs IH]; [done|].
  cbn [fmap list_fmap filter_exec]. unfold filter_holds, evaluate_filter, attempt, mbind, exec_bind in *.
  cbn [filter_expression]. rewrite (eval_field_is fuel _ _ _ _ d.2) by apply lookup_insert_eq. simpl.
  simpl in IH. rewrite IH. simpl. rewrite filter_cons.
  destruct (values_equal _ _) eqn:E; case_decide as Hs; try done; unfold selects in Hs.
  - by destruct Hs; apply values_equal_string.
  - apply values_equal_string in Hs. congruence.
Qed.
Lemma execute_for_scan fuel c ctx coll s : over_collection c ctx coll s →
  execute_for (eval fuel) c None [ctx] s = (s, Done (rows_of c ctx (coll_scan coll None s))).
Proof.
  intros (Hsrc & Hcoll & Hctx & Hopen & Hsh).
  assert (source_name c = for_collection c) as Hname.
  { unfold source_name, is_collection in *. destruct (source_variable c); [|done]. by apply String.eqb_eq. }
  unfold execute_for, for_rows, get_for_source_docs, mbind, exec_bind, opened, rows_of. simpl.
  unfold for_rows, get_for_source_docs, opened, mbind, exec_bind.
  rewrite Hsrc, Hname, Hctx, Hopen. unfold reads, rows_of. simpl. rewrite Hsh. simpl.
  by rewrite app_nil_r, <- list_fmap_compose.
Qed.
Lemma use_index_text coll field t s :
  use_index_for_condition coll (mkCondition field BinaryOperator.Equal (Json.JString t)) s =
  index_lookup_eq coll field (Json.JString t) s.
Proof. unfold use_index_for_condition. simpl. by destruct (index_lookup_eq _ _ _ _) as [[|]|]. Qed.
(** The rows the index path gives for a filter it takes the comparison from. *)
Lemma execute_for_index_text c ctx coll field t e s : over_collection c ctx coll s →
  extract_indexable_condition bind_vars e (for_variable c) =
    Some (mkCondition field BinaryOperator.Equal (Json.JString t)) →
  execute_for_index bind_vars c (mkFilter e) None [ctx] s =
  rows_of c ctx <$> index_lookup_eq coll field (Json.JString t) s.
Proof.
  intros (_ & Hcoll & _ & Hopen & _) He. unfold execute_for_index. rewrite Hcoll. cbn [filter_expression].
  rewrite He. cbn. unfold index_rows. rewrite Hopen, use_index_text.
  destruct (index_lookup_eq coll field (Json.JString t) s); [|done]. cbn. by rewrite app_nil_r.
Qed.
Lemma extract_field_is var field t :
  extract_indexable_condition bind_vars (field_is var field t) var =
  Some (mkCondition field BinaryOperator.Equal (Json.JString t)).
Proof. cbn. unfold comparison_condition. simpl. by rewrite String.eqb_refl. Qed.

(** FOR var IN collection FILTER var.field == text gives the rows of the documents the filter
    selects and changes nothing, through an index or without one, when the equality lookup of the
    collection gives the documents whose field is that text. *)
Lemma for_filter_rows fuel c ctx coll field t s : over_collection c ctx coll s →
  (∀ docs, index_lookup_eq coll field (Json.JString t) s = Some docs →
     docs ≡ₚ filter (selects field t) (coll_scan coll None s)) →
  ∃ rows, execute_body_clauses bind_vars (eval (3 + fuel))
      [BodyClause.For c; BodyClause.Filter (mkFilter (field_is (for_variable c) field t))] ctx None s =
      (s, Done (rows, no_stats)) ∧
    rows ≡ₚ rows_of c ctx (filter (selects field t) (coll_scan coll None s)).
Proof.
  intros Hc Hlookup. unfold execute_body_clauses. cbn [body_loop fst snd].
  unfold reads at 1, mbind at 1, exec_bind at 1.
  rewrite (execute_for_index_text _ _ _ _ _ _ _ Hc (extract_field_is _ _ _)).
  destruct (index_lookup_eq coll field (Json.JString t) s) as [docs|] eqn:Hi; cbn [fmap option_fmap option_map].
  - eexists. split; [done|]. unfold rows_of. by rewrite (Hlookup docs eq_refl).
  - eexists. split; [|done]. unfold execute_clause, keeping, mbind, exec_bind.
    rewrite (execute_for_scan _ _ _ _ _ Hc). cbn [body_loop mret exec_ret].
    unfold mbind, exec_bind. by rewrite filter_field_is.
Qed.

(** where an index serves a comparison, the rest of a conjunction is not tested: the
    rows are those of the index, whatever the other condition says. *)
Theorem index_drops_conjunct fuel c ctx coll field t e docs s : over_collection c ctx coll s →
  index_lookup_eq coll field (Json.JString t) s = Some docs →
  execute_body_clauses bind_vars (eval fuel)
    [BodyClause.For c;
     BodyClause.Filter (mkFilter (Expression.BinaryOp (field_is (for_variable c) field t) BinaryOperator.And e))]
    ctx None s = (s, Done (rows_of c ctx docs, no_stats)).
Proof.
  intros Hc Hi. unfold execute_body_clauses. cbn [body_loop fst snd].
  unfold reads at 1, mbind at 1, exec_bind at 1.
  rewrite (execute_for_index_text c ctx coll field t _ _ Hc).
  - rewrite Hi. done.
  - cbn -[field_is]. by rewrite extract_field_is.
Qed.

(** a call with a lambda among its arguments always fails when it is evaluated as a
    function: the arguments are evaluated first, and a lambda has no value. Only the
    pipeline operator reaches the higher-order functions. *)
Theorem lambda_argument_fails fuel name args1 vs params body args2 ctx s s' :
  map_exec (λ e, eval (1 + fuel) e ctx) args1 s = (s', Done vs) →
  ∃ msg, eval (2 + fuel) (Expression.FunctionCall name (args1 ++ Expression.Lambda params body :: args2)) ctx s =
         (s', Fails (ExecutionError msg)).
Proof.
  intros H. cbn [evaluate_expr Executor.evaluate_expr_with_context Nat.add].
  enough (∃ msg, map_exec (λ e, eval (1 + fuel) e ctx) (args1 ++ Expression.Lambda params body :: args2) s =
    (s', Fails (ExecutionError msg))) as [msg Hmsg].
  { exists msg. unfold evaluate_function, mbind at 1, exec_bind at 1.
    cbn [Executor.evaluate_expr_with_context Nat.add] in Hmsg. by rewrite Hmsg. }
  revert s vs H. induction args1 as [|e args1 IH]; intros s vs; cbn [map_exec app].
  { intros [= -> _]. eexists. reflexivity. }
  intros (s1 & v & H1 & (s2 & vs' & H2 & [= -> _])%exec_bind_done)%exec_bind_done.
  destruct (IH _ _ H2) as [msg Hmsg]. exists msg. rewrite (exec_bind_run _ _ _ _ _ H1).
  unfold mbind, exec_bind in *. by rewrite Hmsg.
Qed.
End Filter.

(** ** Concrete queries *)

Module QueryDemo.
#[local] Existing Instances demo_number_ops ascii_tables.
Notation Value := (Json.Value demo_number).
Notation Expression := (Expression demo_number).
(** Texts that tell strings from each other. *)
#[export] Instance demo_json_text : JsonText demo_number := {
  num_as_f64 n := match n with Float b => Some b | _ => None end;
  num_of_f64 b := Some (Float b);
  json_to_string v := match v with Json.JString s => s | _ => "?" end;
  json_from_slice _ := None;
}.
#[export] Instance demo_value_text : ValueText demo_number := {
  num_as_i64 n := match n with PosInt n => Some (Z.of_N n) | NegInt z => Some z | Float _ => None end;
  num_to_string _ := "";
  f64_to_string _ := "";
  value_debug _ := "";
  powf _ _ := 0%N;
  sum_start := 0%N;
  regex_build _ := None;
}.
#[export] Instance demo_query_text : QueryText demo_number := {| expression_debug _ := ""; names_debug _ := "" |}.
#[export] Instance demo_order : HashOrder := λ l, l.
#[export] Instance demo_order_laws : HashOrderLaws.
Proof. by intros l. Qed.
#[export] Instance demo_functions {S} : Functions demo_number S := {|
  phonetic_evaluate _ _ := mret None;
  builtins_evaluate _ _ := mret None;
  search_evaluate _ _ := mret None;
|}.
(** One collection, "c", with an index on the field "f". *)
Definition DemoState : Type := list (Doc demo_number).
Definition demo_lookup (field : string) (v : Value) (s : DemoState) : list (Doc demo_number) :=
  List.filter (λ d, values_equal (get_field_value d.2 field) v) s.
#[export] Instance demo_store : DataStore demo_number DemoState unit := {|
  open_collection name s := if String.eqb name "c" then Done () else Fails (ExecutionError "not found");
  open_absolute _ _ := Fails (ExecutionError "not found");
  coll_scan _ limit s := take_limit limit s;
  coll_all _ s := s;
  coll_get _ key s := head (List.filter (λ d, String.eqb d.1 key) s);
  coll_count _ s := N.of_nat (length s);
  index_lookup_eq _ field v s := if String.eqb field "f" then Some (demo_lookup field v s) else None;
  index_lookup_gt _ _ _ _ := None;
  index_lookup_gte _ _ _ _ := None;
  index_lookup_lt _ _ _ _ := None;
  index_lookup_lte _ _ _ _ := None;
  index_sorted _ _ _ _ _ := None;
  has_indexes _ _ := true;
  coll_insert _ v := λ s, (s ++ [("new", v)], Done ("new", v));
  coll_insert_batch _ vs := λ s, (s ++ (pair "new" <$> vs), Done (pair "new" <$> vs));
  index_documents _ _ := mret ();
  coll_update _ key v := λ s, (s, Done (key, v));
  coll_update_batch _ us := mret us;
  coll_delete _ key := λ s, (List.filter (λ d, negb (String.eqb d.1 key)) s, Done ());
  coll_delete_batch _ keys := mret (N.of_nat (length keys));
  log_mutation _ _ _ _ s := s;
  sharded _ _ := false;
  coord_insert_batch _ _ := mret (0%N, 0%N);
  coord_update _ _ v := mret v;
  coord_delete _ _ := mret ();
  scatter_gather_docs _ _ := mret [];
|}.
#[export] Instance demo_scans : ScanLaws.
Proof. split; [done|]. intros name [|n] s; done. Qed.

Definition doc (key f g : string) : Doc demo_number :=
  (key, Json.Object [("f", Json.JString f); ("g", Json.JString g)]).
Definition docs : DemoState := [doc "1" "a" "x"; doc "2" "b" "x"; doc "3" "a" "y"].
Definition for_d : ForClause Expression := mkFor "d" "c" (Some "c") None.
Definition eval (fuel : nat) := Executor.evaluate_expr_with_context (Num:=demo_number) (S:=DemoState) ∅ fuel.
Definition var_f : Expression := Expression.FieldAccess (Expression.Var "d") "f".
Definition number (n : N) : Expression := Expression.Literal (Json.Number (PosInt n)).
Definition rows : list (gmap string Value) := (λ d : Doc demo_number, {["d" := d.2]}) <$> docs.
Definition by_f : CollectClause Expression := mkCollect [("k", var_f)] (Some "rows") (Some "n") [].
Definition limited (body : list (BodyClause Expression)) (e : Expression) : Query Expression :=
  mkQuery [] [] [] [] None (Some (mkLimit (number 0) (number 1))) (Some (mkReturn e)) None None None None body.

Lemma collect_partitions_witness :
  match execute_collect (eval 5) by_f rows docs with
  | (_, Done out) => ∃ values s1 ks, map_exec (row_values (eval 5) by_f) rows docs = (s1, Done values) ∧
      ks ≡ₚ remove_dups (key_text <$> values) ∧
      Forall2 (λ k row, ∃ vs ctx rest, members k (zip values rows) = (vs, ctx) :: rest ∧
                                       group_result (eval 5) by_f vs (ctx :: rest.*2) row) ks out
  | _ => False
  end.
Proof.
  destruct (execute_collect (eval 5) by_f rows docs) as [s [out| | |]] eqn:E.
  1: { destruct (collect_partitions (eval 5) by_f rows docs s out E) as (values & s1 & ks & Hv & _ & Hks & Hout).
       exists values, s1, ks. split; [exact Hv|]. split; [exact Hks|exact Hout]. }
  all: vm_compute in E; discriminate E.
Defined.
Lemma limit_pushdown_witness :
  execute_rows ∅ (eval 5) (limited [BodyClause.For for_d] var_f) ∅ docs =
    execute_unlimited ∅ (eval 5) (limited [BodyClause.For for_d] var_f) ∅ docs ∧
  execute_rows ∅ (eval 5) (limited [BodyClause.For for_d] var_f) ∅ docs =
    (docs, Done ([Json.JString "a"], no_stats)).
Proof.
  split; [|vm_compute; reflexivity].
  apply (limit_pushdown ∅ (eval 5) _ for_d (mkLimit (number 0) (number 1)) ∅ 0 1); try reflexivity.
  intros r [= <-]. reflexivity.
Defined.
(** LIMIT is handed down to the scan of a query that groups, too: it then groups only
    the first documents. FOR d IN c COLLECT k = d.f WITH COUNT INTO n LIMIT 1 RETURN n
    counts one document of a group that has two. *)
Theorem limit_before_collect :
  let q := limited [BodyClause.For for_d; BodyClause.Collect by_f] (Expression.Var "n") in
  (execute_rows ∅ (eval 5) q ∅ docs).2 = Done ([Json.Number (PosInt 1)], no_stats) ∧
  (execute_unlimited ∅ (eval 5) q ∅ docs).2 = Done ([Json.Number (PosInt 2)], no_stats).
Proof. vm_compute. done. Qed.
Lemma index_drops_conjunct_witness :
  execute_body_clauses ∅ (eval 3)
    [BodyClause.For for_d; BodyClause.Filter (mkFilter (Expression.BinaryOp (field_is "d" "f" "a")
       BinaryOperator.And (field_is "d" "g" "y")))] ∅ None docs =
  (docs, Done (rows_of for_d ∅ [doc "1" "a" "x"; doc "3" "a" "y"], no_stats)).
Proof.
  apply (index_drops_conjunct ∅ 3 for_d ∅ () "f" "a"); [repeat split; reflexivity|reflexivity].
Defined.
Lemma lambda_argument_fails_witness :
  ∃ msg, eval 4 (Expression.FunctionCall "ANY" [Expression.Array []; Expression.Lambda ["x"] (Expression.Var "x")]) ∅ docs =
         (docs, Fails (ExecutionError msg)).
Proof. apply (lambda_argument_fails ∅ 2 "ANY" [Expression.Array []] [Json.Array []] ["x"] (Expression.Var "x") []). reflexivity. Defined.
End QueryDemo.
