(* ===== verification/CollectionBatch.v ===== *)
(** * Collections: batches, maintenance and the life of indexes

    The rest of src/storage/collection/crud.rs (insert_batch, update_batch,
    delete_batch, upsert_batch, truncate, prune_older_than), the creation, removal
    and rebuilding of indexes and the sorted scan of indexes.rs, and ttl.rs.

    The Bloom and Cuckoo filters in memory are a state of their own, which
    [index_documents] feeds; the one that creating an index builds and stores is
    left out. The vector indexes are not part of the state; what they are told is
    recorded as before. *)

From S2P Require Import Prelude Text Json Transaction Codec Kv Document Indexes Collection.
Import Json Codec Document Serializer Indexes Collection.

(** [Uuid::parse_str(key)] as a number. *)
Class UuidText := uuid_parse : string → option N.

Module CollectionBatch.
Section Batch.
Context {Num : Type} `{json_number : !JsonNumber Num} `{json_text : !JsonText Num} `{meta_json : !MetaJson Num}
  `{document_json : !DocumentJson Num} `{doc_codec : !DocCodec Num}.
Context `{hex_crate : !HexCrate} `{std_text : !StdText} `{uuid_text : !UuidText}.
Context {DB : Type} `{kv_store : !KvStore DB} `{schema : !SchemaCheck Num DB} `{filter_crates : !FilterCrates}.
Notation Value := (Value Num).
Notation Document := (Document Num).
Notation Collection := (Collection Num DB).

Definition send_all (events : list (ChangeEvent Num)) (c : Collection) : Collection :=
  foldl (λ c e, send e c) c events.
Definition vector_all (calls : list (vector_call Num)) (c : Collection) : Collection :=
  foldl (λ c v, vector v c) c calls.

(** ** insert_batch *)

(** What each document draws: a key, a revision and the time. *)
Definition fresh : Type := string * string * Z.
Definition duplicate_key (key : string) : DbError :=
  InvalidDocument ("Duplicate _key '" +:+ (key +:+ "' within batch")).
Definition existing_key (key : string) : DbError :=
  InvalidDocument ("Document with _key '" +:+ (key +:+ "' already exists")).
Definition prepare_one (validator : option (Value → option string)) (seen : list string) (f : fresh)
    (data : Value) (c : Collection) : result DbError (Document * list write_op) :=
  match validate_edge c data with
  | Err e => Err e
  | Ok _ =>
  match match validator with Some validate => validate data | None => None end with
  | Some msg => Err (InvalidDocument ("Schema validation failed: " +:+ msg))
  | None =>
  match take_key f.1.1 data with
  | Err e => Err e
  | Ok (key, data') =>
  if bool_decide (key ∈ seen) then Err (duplicate_key key)
  else
  match kv_get (doc_key key) (db c) with
  | Some _ => Err (existing_key key)
  | None =>
  let doc := with_key f.1.2 f.2 (name c) key data' in
  match check_unique_constraints (db c) key (to_value doc) with
  | Err e => Err e
  | Ok _ =>
  match serialize_doc doc with
  | Err e => Err e
  | Ok doc_bytes =>
  match insert_entries (db c) key (to_value doc) with
  | Err e => Err e
  | Ok entries => Ok (doc, Put (doc_key key) doc_bytes :: entries)
  end end end end end end end.
Fixpoint prepare_batch (validator : option (Value → option string)) (seen : list string)
    (documents : list (fresh * Value)) (c : Collection) : result DbError (list (Document * list write_op)) :=
  match documents with
  | [] => Ok []
  | (f, data) :: documents' =>
      match prepare_one validator seen f data c with
      | Err e => Err e
      | Ok (doc, ops) =>
          match prepare_batch validator (seen ++ [key doc]) documents' c with
          | Err e => Err e
          | Ok l => Ok ((doc, ops) :: l)
          end
      end
  end.
Definition insert_batch (documents : list (fresh * Value)) (c : Collection) :
    result DbError (list Document) * Collection :=
  match documents with
  | [] => (Ok [], c)
  | _ =>
      match get_cached_schema_validator (db c) with
      | Err e => (Err e, c)
      | Ok validator =>
      match prepare_batch validator [] documents c with
      | Err e => (Err e, c)
      | Ok l =>
      match write "Failed to batch insert" (concat l.*2) c with
      | Err e => (Err e, c)
      | Ok c1 =>
          let docs := l.*1 in
          let c2 := vector_all ((λ d, VectorUpsert (key d) (to_value d)) <$> docs) c1 in
          let c3 := add_count (N.of_nat (length docs)) c2 in
          (Ok docs, send_all ((λ d, mkEvent CInsert (key d) (Some (to_value d)) None) <$> docs) c3)
      end end end
  end.

(** ** delete_batch *)

(** The documents found so far, newest last, and what is written for them. *)
Record deletion := mkDeletion { del_batch : list write_op; del_docs : list (string * Value) }.
Definition delete_one (st : Collection * deletion) (k : string) : Collection * deletion :=
  let '(c, del) := st in
  match get c k with
  | Err _ => st
  | Ok doc =>
      let doc_value := to_value doc in
      let entries := match delete_entries (db c) k doc_value with Ok l => l | Err _ => [] end in
      let c1 := if blob_only c then (delete_blob_data k c).2 else c in
      (vector (VectorDelete k) c1,
       mkDeletion (del_batch del ++ Del (doc_key k) :: entries) (del_docs del ++ [(k, doc_value)]))
  end.
Definition delete_batch (keys : list string) (c : Collection) : result DbError N * Collection :=
  let '(c1, del) := foldl delete_one (c, mkDeletion [] []) keys in
  match del_docs del with
  | [] => (Ok 0%N, c1)
  | docs =>
      match write "Failed to batch delete" (del_batch del) c1 with
      | Err e => (Err e, c1)
      | Ok c2 =>
          let n := N.of_nat (length docs) in
          (Ok n, send_all ((λ p, mkEvent CDelete p.1 None (Some p.2)) <$> docs) (sub_count n c2))
      end
  end.
Definition truncate (c : Collection) : result DbError N * Collection :=
  match all c with
  | [] => (Ok 0%N, c)
  | docs => delete_batch (key <$> docs) c
  end.
Definition older_than (timestamp_ms : N) (k : string) : bool :=
  match uuid_parse k with
  | Some n => ((N.shiftr n 80) mod 2 ^ 64 <? timestamp_ms)%N
  | None => false
  end.
Definition prune_older_than (timestamp_ms : N) (c : Collection) : result DbError N * Collection :=
  let keys := (λ p, utf8_lossy (String.substring (String.length DOC_PREFIX) (String.length p.1) p.1))
              <$> scan_prefix DOC_PREFIX (db c) in
  match List.filter (older_than timestamp_ms) keys with
  | [] => (Ok 0%N, c)
  | keys => delete_batch keys c
  end.

(** ** update_batch *)

Record updating := mkUpdating {
  up_batch : list write_op;
  up_docs : list (string * (Value * Document));
}.
(** One update; [None] where it is skipped. *)
Definition prepare_update (rev : string) (now : Z) (k : string) (changes : Value) (c : Collection) :
    result DbError (option (Value * Document * list write_op)) :=
  match get c k with
  | Err _ => Ok None
  | Ok old_doc =>
      let doc := Document.update rev now changes old_doc in
      match validate_edge c (to_value doc) with
      | Err _ => Ok None
      | Ok _ =>
      match get_cached_schema_validator (db c) with
      | Err e => Err e
      | Ok validator =>
      match match validator with Some validate => validate (to_value doc) | None => None end with
      | Some _ => Ok None
      | None =>
      match serialize_doc doc with
      | Err _ => Ok None
      | Ok doc_bytes =>
          let old_value := to_value old_doc in
          let entries := match update_entries (db c) k old_value (to_value doc) with
                         | Ok l => l
                         | Err _ => (* the regular and geo entries are left alone *)
                             dels (compute_fulltext_entries_for_delete (db c) k old_value) ++
                             puts (compute_fulltext_entries_for_insert (db c) k (to_value doc)) ++
                             (let '(add, remove) :=
                                compute_ttl_expiry_entries_for_update (db c) k old_value (to_value doc) in
                              dels remove ++ empty_puts add)
                         end in
          Ok (Some (old_value, doc, Put (doc_key k) doc_bytes :: entries))
      end end end end
  end.
Fixpoint update_loop (updates : list (string * Z * (string * Value))) (st : Collection * updating) :
    result DbError updating * Collection :=
  match updates with
  | [] => (Ok st.2, st.1)
  | (rev, now, (k, changes)) :: updates' =>
      let '(c, up) := st in
      match prepare_update rev now k changes c with
      | Err e => (Err e, c)
      | Ok None => update_loop updates' st
      | Ok (Some (old_value, doc, ops)) =>
          update_loop updates'
            (vector (VectorUpsert k (to_value doc)) (vector (VectorDelete k) c),
             mkUpdating (up_batch up ++ ops) (up_docs up ++ [(k, (old_value, doc))]))
      end
  end.
Definition update_batch (updates : list (string * Z * (string * Value))) (c : Collection) :
    result DbError (list Document) * Collection :=
  match updates with
  | [] => (Ok [], c)
  | _ =>
      match reject_timeseries c with
      | Err e => (Err e, c)
      | Ok _ =>
      match update_loop updates (c, mkUpdating [] []) with
      | (Err e, c1) => (Err e, c1)
      | (Ok up, c1) =>
      match up_docs up with
      | [] => (Ok [], c1)
      | docs =>
      match write "Failed to batch update" (up_batch up) c1 with
      | Err e => (Err e, c1)
      | Ok c2 =>
          (Ok (snd <$> docs.*2),
           send_all ((λ p, mkEvent CUpdate p.1 (Some (to_value p.2.2)) (Some p.2.1)) <$> docs) c2)
      end end end end
  end.

(** ** upsert_batch *)

Definition upserted (rev : string) (now : Z) (k : string) (data : Value) (c : Collection) : Document * bool :=
  let data' := match data with
               | Object obj => Object (OMap.insert "_key" (JString k) obj)
               | other => other
               end in
  match kv_get (doc_key k) (db c) with
  | Some bytes =>
      (match deserialize_doc bytes with
       | Ok existing => Document.update rev now data' existing
       | Err _ => with_key rev now (name c) k data'
       end, true)
  | None => (with_key rev now (name c) k data', false)
  end.
(** What is written, the documents written, and whether they are new. *)
Definition upsert_one (c : Collection) (p : string * Z * (string * Value)) :
    option (write_op * (string * Value) * bool) :=
  let '(rev, now, (k, data)) := p in
  let '(doc, exists_) := upserted rev now k data c in
  match serialize_doc doc with
  | Ok bytes => Some (Put (doc_key k) bytes, (k, to_value doc), negb exists_)
  | Err _ => None
  end.
Definition upsert_batch (documents : list (string * Z * (string * Value))) (c : Collection) :
    result DbError N * Collection :=
  match documents with
  | [] => (Ok 0%N, c)
  | _ =>
      if String.eqb (collection_type c) "timeseries"
      then (Err (OperationNotSupported "Upsert (update) operations are not allowed on timeseries collections. Use insert_batch instead."), c)
      else
        let l := omap (upsert_one c) documents in
        match write "Failed to batch upsert" l.*1.*1 c with
        | Err e => (Err e, c)
        | Ok c1 =>
            let n := N.of_nat (length (List.filter snd l)) in
            let c2 := if (0 <? n)%N then add_count n c1 else c1 in
            (Ok (N.of_nat (length l)), vector_all ((λ p, VectorUpsert p.1 p.2) <$> l.*1.*2) c2)
        end
  end.

(** ** Indexes *)

Definition BATCH_SIZE_LIMIT : nat := 10000.
(** [for op in ops { batch.add(op); count += 1; if count % LIMIT == 0 { db.write(batch)? } }] *)
Fixpoint flush_loop (msg : string) (batch : list write_op) (count : nat) (ops : list write_op) (c : Collection) :
    result DbError (list write_op * nat) * Collection :=
  match ops with
  | [] => (Ok (batch, count), c)
  | op :: ops' =>
      let count' := S count in
      if Nat.eqb (count' mod BATCH_SIZE_LIMIT) 0
      then match write msg (batch ++ [op]) c with
           | Err e => (Err e, c)
           | Ok c1 => flush_loop msg [] count' ops' c1
           end
      else flush_loop msg (batch ++ [op]) count' ops' c
  end.
Definition get_index (n : string) (c : Collection) : option Index :=
  kv_get (idx_meta_key n) (db c) ≫= index_from_slice.
Definition index_puts (n : string) (fields : list string) (docs : list Document) : list write_op :=
  omap (λ doc, let values := field_values (to_value doc) fields in
               if all_null values then None else Some (Put (idx_entry_key n values (key doc)) (key doc))) docs.

(** The bytes of a new index are those serde_json gives. *)
Definition create_index (index_bytes : string) (n : string) (fields : list string) (c : Collection) :
    result DbError () * Collection :=
  match get_index n c with
  | Some _ => (Err (InvalidDocument ("Index '" +:+ (n +:+ "' already exists"))), c)
  | None =>
      match write "Failed to create index" [Put (idx_meta_key n) index_bytes] c with
      | Err e => (Err e, c)
      | Ok c1 =>
          match flush_loop "Failed to write index batch" [] 0 (index_puts n fields (all c1)) c1 with
          | (Err e, c2) => (Err e, c2)
          | (Ok (batch, count), c2) =>
              if Nat.ltb 0 count && negb (Nat.eqb (count mod BATCH_SIZE_LIMIT) 0)
              then match write "Failed to write final index batch" batch c2 with
                   | Err e => (Err e, c2)
                   | Ok c3 => (Ok tt, c3)
                   end
              else (Ok tt, c2)
          end
      end
  end.
Definition index_prefix (n : string) : string := IDX_PREFIX +:+ (n +:+ ":").
Definition drop_index (n : string) (c : Collection) : result DbError () * Collection :=
  match get_index n c with
  | None => (Err (InvalidDocument ("Index '" +:+ (n +:+ "' not found"))), c)
  | Some _ =>
      let ops := dels (scan_prefix (index_prefix n) (db c)).*1 in
      match flush_loop "Failed to write drop batch" [Del (idx_meta_key n)] 0 ops c with
      | (Err e, c1) => (Err e, c1)
      | (Ok (batch, count), c1) =>
          if Nat.ltb 0 count || negb (Nat.eqb (length batch) 0)
          then match write "Failed to write final drop batch" batch c1 with
               | Err e => (Err e, c1)
               | Ok c2 => (Ok tt, c2)
               end
          else (Ok tt, c1)
      end
  end.

(** [let _ = db.write(batch)] *)
Definition try_write (batch : list write_op) (c : Collection) : Collection :=
  match write "" batch c with Ok c1 => c1 | Err _ => c end.
(** The entries of a document, from its key and [to_value()]. *)
Definition index_puts_of (indexes : list Index) (doc : string * Value) : list write_op :=
  omap (λ i, match entry_key_for doc.1 doc.2 i with
             | Some e => Some (Put e doc.1)
             | None => None
             end) indexes.
Definition geo_puts_of (geo_indexes : list GeoIndex) (doc : string * Value) : list write_op :=
  omap (λ i, let v := extract_field_value doc.2 (geo_field i) in
             if is_null v then None
             else (λ bytes, Put (geo_entry_key (geo_name i) doc.1) bytes) <$> value_to_vec v) geo_indexes.
Definition fulltext_puts_of (ft_indexes : list FulltextIndex) (doc : string * Value) : list write_op :=
  (λ e, Put e doc.1) <$> fulltext_keys doc.1 doc.2 ft_indexes.
Definition doc_index_puts (indexes : list Index) (doc : Document) : list write_op :=
  index_puts_of indexes (key doc, to_value doc).
Definition doc_geo_puts (geo_indexes : list GeoIndex) (doc : Document) : list write_op :=
  geo_puts_of geo_indexes (key doc, to_value doc).
(** The documents are given by their keys and [to_value()]; the filters of the Bloom and Cuckoo
    indexes are fed with their values. *)
Definition index_documents (docs : list (string * Value)) (fs : Filters) (c : Collection) : N * (Filters * Collection) :=
  let indexes := get_all_indexes (db c) in
  let geo_indexes := get_all_geo_indexes (db c) in
  let ft_indexes := get_all_fulltext_indexes (db c) in
  if Nat.eqb (length indexes) 0 && Nat.eqb (length geo_indexes) 0 && Nat.eqb (length ft_indexes) 0
  then (0%N, (fs, c))
  else
    let c1 := if Nat.eqb (length indexes) 0 then c else try_write (docs ≫= index_puts_of indexes) c in
    let c2 := if Nat.eqb (length geo_indexes) 0 then c1 else try_write (docs ≫= geo_puts_of geo_indexes) c1 in
    let c3 := if Nat.eqb (length ft_indexes) 0 then c2 else try_write (docs ≫= fulltext_puts_of ft_indexes) c2 in
    (N.of_nat (length docs), (feed_filters indexes docs.*2 (db c) fs, c3)).

(** ** Sorted scans *)

Definition limited {A} (limit : option nat) (l : list A) : list A :=
  match limit with Some n => take n l | None => l end.
Definition byte_ff : string := String (ascii_of_N 255) "".
Definition prefix_entries_of (prefix : string) (ascending : bool) (d : DB) : list (string * string) :=
  take_while (λ p, starts_with prefix p.1)
    (if ascending then kv_from prefix d else kv_back (prefix +:+ byte_ff) d).
(** [document_from_slice] is serde_json's reading of a document. *)
Definition index_sorted (document_from_slice : string → option Document) (field : string) (ascending : bool)
    (limit : option nat) (c : Collection) : option (list Document) :=
  if String.eqb field "_id" || String.eqb field "_key"
  then Some (limited limit (omap (λ p, document_from_slice p.2) (prefix_entries_of DOC_PREFIX ascending (db c))))
  else
    index ← get_index_for_field field (db c);
    let keys := limited limit ((λ p, utf8_lossy p.2) <$>
                  prefix_entries_of (index_prefix (idx_name index)) ascending (db c)) in
    let docs := get_many c keys in
    Some (omap (λ k, last (filter (λ d, key d = k) docs)) keys).

(** ** TTL *)

Definition ttl_meta_key (n : string) : string := TTL_META_PREFIX +:+ n.
Definition ttl_expiry_prefix (n : string) : string :=
  DOC_PREFIX +:+ (TTL_EXPIRY_PREFIX +:+ (":" +:+ (n +:+ ":"))).
Definition get_ttl_index (n : string) (c : Collection) : option TtlIndex :=
  kv_get (ttl_meta_key n) (db c) ≫= ttl_index_from_slice.
Definition create_ttl_index (index_bytes n : string) (c : Collection) : result DbError () * Collection :=
  match get_ttl_index n c with
  | Some _ => (Err (InvalidDocument ("TTL Index '" +:+ (n +:+ "' already exists"))), c)
  | None =>
      match write "Failed to create TTL index" [Put (ttl_meta_key n) index_bytes] c with
      | Err e => (Err e, c)
      | Ok c1 => (Ok tt, c1)
      end
  end.
Definition drop_ttl_index (n : string) (c : Collection) : result DbError () * Collection :=
  match get_ttl_index n c with
  | None => (Err (InvalidDocument ("TTL Index '" +:+ (n +:+ "' not found"))), c)
  | Some _ =>
      match write "Failed to drop TTL index" [Del (ttl_meta_key n)] c with
      | Err e => (Err e, c)
      | Ok c1 => (Ok tt, c1)
      end
  end.

(** The entries that have expired, with the keys of their documents. *)
Fixpoint expired_entries (prefix_len : nat) (now : N) (entries : list (string * string)) :
    list (string * string) :=
  match entries with
  | [] => []
  | (key_bytes, _) :: entries' =>
      let after_prefix := String.substring prefix_len (String.length key_bytes - prefix_len) key_bytes in
      match split_once ":" after_prefix with
      | Some (ts, k) =>
          if String.eqb ts "" then expired_entries prefix_len now entries'
          else
            match parse_usize (utf8_lossy ts) with
            | Some expiry_ts =>
                if (expiry_ts <=? now)%N
                then (utf8_lossy k, key_bytes) :: expired_entries prefix_len now entries'
                else []
            | None => expired_entries prefix_len now entries'
            end
      | None => expired_entries prefix_len now entries'
      end
  end.
Definition TTL_BATCH_SIZE : nat := 1000.
(** [for chunk in keys.chunks(BATCH_SIZE)]; the fuel is the number of keys. *)
Fixpoint expire_chunks (fuel : nat) (expired : list (string * string)) (deleted : N) (c : Collection) :
    result DbError N * Collection :=
  match fuel, expired with
  | S fuel', _ :: _ =>
      let chunk := take TTL_BATCH_SIZE expired in
      match write "" (flat_map (λ p, [Del (doc_key p.1); Del p.2]) chunk) c with
      | Err e => (Err e, c)
      | Ok c1 => expire_chunks fuel' (drop TTL_BATCH_SIZE expired) (deleted + N.of_nat (length chunk)) c1
      end
  | _, _ => (Ok deleted, c)
  end.
Definition cleanup_expired_documents_for_ttl_index (now : N) (index : TtlIndex) (c : Collection) :
    result DbError N * Collection :=
  let prefix := ttl_expiry_prefix (ttl_name index) in
  let expired := expired_entries (String.length prefix) now (scan_prefix prefix (db c)) in
  expire_chunks (length expired) expired 0 c.
Fixpoint cleanup_indexes (now : N) (indexes : list TtlIndex) (total : N) (c : Collection) :
    result DbError N * Collection :=
  match indexes with
  | [] => (Ok total, c)
  | index :: indexes' =>
      match cleanup_expired_documents_for_ttl_index now index c with
      | (Err e, c1) => (Err e, c1)
      | (Ok n, c1) => cleanup_indexes now indexes' (total + n) c1
      end
  end.
Definition cleanup_all_expired_documents (now : N) (c : Collection) : result DbError N * Collection :=
  cleanup_indexes now (get_all_ttl_indexes (db c)) 0 c.

(** ** Rebuilding *)

Definition clear_ops (c : Collection) : list write_op :=
  flat_map (λ i, dels (scan_prefix (index_prefix (idx_name i)) (db c)).*1) (get_all_indexes (db c)) ++
  flat_map (λ i, dels (scan_prefix (GEO_PREFIX +:+ (geo_name i +:+ ":")) (db c)).*1) (get_all_geo_indexes (db c)) ++
  flat_map (λ i, dels (scan_prefix (FT_PREFIX +:+ (ft_name i +:+ ":")) (db c)).*1 ++
                 dels (scan_prefix (FT_TERM_PREFIX +:+ (ft_name i +:+ ":")) (db c)).*1)
    (get_all_fulltext_indexes (db c)).
(** [if count % LIMIT == 0 { let _ = db.write(batch) }], then the rest *)
Fixpoint try_flush_loop (batch : list write_op) (count : nat) (ops : list write_op) (c : Collection) : Collection :=
  match ops with
  | [] => if Nat.ltb 0 count && negb (Nat.eqb (count mod BATCH_SIZE_LIMIT) 0) then try_write batch c else c
  | op :: ops' =>
      if Nat.eqb (S count mod BATCH_SIZE_LIMIT) 0 then try_flush_loop [] (S count) ops' (try_write (batch ++ [op]) c)
      else try_flush_loop (batch ++ [op]) (S count) ops' c
  end.
(** The full-text entries, flushed after a field. *)
Fixpoint try_flush_fields (batch : list write_op) (count : nat) (fields : list (list write_op)) (c : Collection) :
    Collection :=
  match fields with
  | [] => if Nat.ltb 0 count then try_write batch c else c
  | ops :: fields' =>
      let count' := count + length ops in
      if BATCH_SIZE_LIMIT <=? count' then try_flush_fields [] 0 fields' (try_write (batch ++ ops) c)
      else try_flush_fields (batch ++ ops) count' fields' c
  end.
Definition doc_fulltext_fields (ft_indexes : list FulltextIndex) (doc : Document) : list (list write_op) :=
  flat_map (λ i, (λ f, (λ e, Put e (key doc)) <$> fulltext_field_keys (key doc) (to_value doc) i f) <$> ft_fields i)
    ft_indexes.
(** The three kinds of entries are written one kind after the other: their keys are
    apart. The in-memory vector indexes are left out. *)
Definition rebuild_all_indexes (c : Collection) : N * Collection :=
  let indexes := get_all_indexes (db c) in
  let geo_indexes := get_all_geo_indexes (db c) in
  let ft_indexes := get_all_fulltext_indexes (db c) in
  if Nat.eqb (length indexes) 0 && Nat.eqb (length geo_indexes) 0 && Nat.eqb (length ft_indexes) 0
  then (0%N, c)
  else
    let c1 := try_write (clear_ops c) c in
    let docs := omap (λ p, match deserialize_doc p.2 with Ok d => Some d | Err _ => None end)
                  (scan_prefix DOC_PREFIX (db c1)) in
    let c2 := try_flush_loop [] 0 (docs ≫= doc_index_puts indexes) c1 in
    let c3 := try_flush_loop [] 0 (docs ≫= doc_geo_puts geo_indexes) c2 in
    let c4 := try_flush_fields [] 0 (docs ≫= doc_fulltext_fields ft_indexes) c3 in
    (N.of_nat (length docs), c4).
End Batch.
End CollectionBatch.
