(* ===== verification/CollectionBatchProps.v ===== *)
(** * Properties of batches and of the life of indexes

    A batch of writes for different documents is the documents replaced one after
    the other, in one atomic write: the documents, the count and the regular indexes
    follow. Creating, dropping and rebuilding indexes keep or restore the agreement
    of indexes and documents. *)

From S2P Require Import Prelude Text Json Transaction Codec Kv Document Indexes Collection CollectionProps CollectionBatch.
Import Json Codec Document Serializer Indexes Collection CollectionProps CollectionBatch.

Module BatchProps.

(** ** What only depends on the contents of a store *)

Section View.
Context {Num : Type} `{!JsonNumber Num} `{!JsonText Num} `{!MetaJson Num} `{!DocumentJson Num}
  `{!DocCodec Num}.
Context `{hex_crate : !HexCrate} `{std_text : !StdText}.
Context {DB1 : Type} `{!KvStore DB1} `{!KvLaws DB1} {DB2 : Type} `{!KvStore DB2} `{!KvLaws DB2}.
Context (d1 : DB1) (d2 : DB2) (same : kv_view d1 = kv_view d2).

Lemma get_view k : kv_get k d1 = kv_get k d2.
Proof using All. by rewrite !kv_get_view, same. Qed.
Lemma doc_of_view k : doc_of d1 k = doc_of d2 k.
Proof using All. unfold doc_of. by rewrite get_view. Qed.
Lemma indexes_view : get_all_indexes d1 = get_all_indexes d2.
Proof using All. unfold get_all_indexes, metadata. by rewrite !kv_from_view, same. Qed.
Lemma names_view : names_ok d1 ↔ names_ok d2.
Proof using All. unfold names_ok. by rewrite indexes_view. Qed.
Lemma keys_view k (o : option (Document Num)) : keys_of d1 k o = keys_of d2 k o.
Proof using All. unfold keys_of, idx_keys. by rewrite indexes_view. Qed.
Lemma consistent_view : consistent d1 ↔ consistent d2.
Proof using All.
  unfold consistent. setoid_rewrite get_view. setoid_rewrite doc_of_view. setoid_rewrite keys_view. done.
Qed.
End View.

(** ** Blocks of writes *)

Section Props.
Context {Num : Type} `{!JsonNumber Num} `{!JsonText Num} `{!MetaJson Num} `{!DocumentJson Num}
  `{!DocCodec Num} `{!DocCodecLaws Num}.
Context `{hex_crate : !HexCrate} `{std_text : !StdText} `{hex_laws : !HexLaws}.
Notation Value := (Value Num).
Notation Document := (Document Num).

(** The document of one key replaced, with its entries. *)
Record block := mkBlock {
  b_key : string;
  b_new : option Document;
  b_op : write_op;
  b_entries : list write_op;
}.
Definition block_ops (b : block) : list write_op := b_op b :: b_entries b.
Definition stored_as (k : string) (new : option Document) (o : write_op) : Prop :=
  match new with
  | Some x => ∃ bytes, o = Put (doc_key k) bytes ∧ serialize_doc x = Ok bytes
  | None => o = Del (doc_key k)
  end.
Definition after (k : string) (o : option Document) (b : block) : option Document :=
  if decide (b_key b = k) then b_new b else o.

Section Blocks.
Context {DB : Type} `{!KvStore DB} `{!KvLaws DB}.
Implicit Types (d : DB) (b : block).
Definition block_for d b : Prop :=
  plain (b_key b) ∧ stored_as (b_key b) (b_new b) (b_op b) ∧
  idx_reads (b_entries b) (dels (keys_of d (b_key b) (doc_of d (b_key b))) ++
    puts ((λ e, (e, b_key b)) <$> keys_of d (b_key b) (b_new b))).
Lemma stored_target k new o : stored_as k new o → op_target o = doc_key k.
Proof. destruct new; [by intros (bytes & -> & _)|by intros ->]. Qed.
Lemma block_write d d1 b :
  names_ok d → consistent d → block_for d b → kv_write (block_ops b) d = Some d1 →
  consistent d1 ∧ get_all_indexes d1 = get_all_indexes d ∧
  ∀ k, plain k → doc_of d1 k = after k (doc_of d k) b.
Proof.
  intros Hn Hc (Hk & Hst & Hr) Hw. pose proof (stored_target _ _ _ Hst) as Ho.
  assert (doc_of d1 (b_key b) = b_new b) as Hnew.
  { destruct b as [k [x|] o es]; cbn in *.
    - destruct Hst as (bytes & -> & Hb). by apply (put_doc_of d d1 k x bytes es Hb Hk (proj1 Hr) Hw).
    - subst o. by apply (del_doc_of d d1 k es Hk (proj1 Hr) Hw). }
  split; [|split].
  - apply (write_consistent d d1 (b_key b) (b_op b) (b_entries b) Hw Ho Hk Hn Hc). by rewrite Hnew.
  - by apply (indexes_unchanged _ _ _ (b_key b) _ Hw Ho (proj1 Hr)).
  - intros k Hpk. unfold after. case_decide as Hd; [by subst|].
    by apply (other_doc_of d d1 (b_key b) k (b_op b) (b_entries b) Ho (not_eq_sym Hd) Hpk (proj1 Hr)).
Qed.
Lemma block_for_same d d1 b :
  get_all_indexes d1 = get_all_indexes d → (plain (b_key b) → doc_of d1 (b_key b) = doc_of d (b_key b)) →
  block_for d b → block_for d1 b.
Proof.
  intros Hi Hd (Hk & Hst & Hr). split_and!; [done..|]. rewrite Hd by done.
  unfold keys_of, idx_keys in *. by rewrite Hi.
Qed.
End Blocks.

(** All of them at once, in a store that takes every write. *)
Lemma blocks_write_map (bs : list block) (d d' : map_store) :
  names_ok d → consistent d → NoDup (b_key <$> bs) → Forall (block_for d) bs →
  kv_view d' = write_view (concat (block_ops <$> bs)) (kv_view d) →
  consistent d' ∧ get_all_indexes d' = get_all_indexes d ∧
  ∀ k, plain k → doc_of d' k = foldl (after k) (doc_of d k) bs.
Proof.
  revert d. induction bs as [|b bs IH]; intros d Hn Hc Hnd Hall Hv.
  { cbn in Hv. split; [by apply (consistent_view d' d)|]. split; [by apply indexes_view|].
    intros k _. by apply doc_of_view. }
  inversion Hall as [|? ? Hb Hbs]; subst. rewrite fmap_cons in Hnd. apply NoDup_cons in Hnd as [Hnin Hnd].
  destruct (kv_write_ok (block_ops b) d) as [d1 Hw].
  destruct (block_write d d1 b Hn Hc Hb Hw) as (Hc1 & Hi1 & Hd1).
  destruct (IH d1) as (Hc' & Hi' & Hd'); [| done|done| | |].
  - unfold names_ok. by rewrite Hi1.
  - rewrite Forall_forall in *. intros b' Hin. apply (block_for_same d); [done| |by apply Hbs].
    intros Hk. rewrite Hd1 by done. unfold after. rewrite decide_False; [done|].
    intros Heq. apply Hnin. rewrite Heq. apply list_elem_of_fmap. eauto.
  - apply kv_write_view in Hw. rewrite Hv, Hw. unfold write_view. cbn [fmap list_fmap concat].
    by rewrite foldl_app.
  - split; [done|]. split; [congruence|]. intros k Hk. rewrite Hd', Hd1 by done. done.
Qed.

Context {DB : Type} `{!KvStore DB} `{!KvLaws DB} `{schema : !SchemaCheck Num DB}.
Notation Collection := (Collection Num DB).
Implicit Types (d : DB) (b : block) (c : Collection) (m : gmap string Document).

Lemma blocks_write bs d d' :
  names_ok d → consistent d → NoDup (b_key <$> bs) → Forall (block_for d) bs →
  kv_write (concat (block_ops <$> bs)) d = Some d' →
  consistent d' ∧ get_all_indexes d' = get_all_indexes d ∧
  ∀ k, plain k → doc_of d' k = foldl (after k) (doc_of d k) bs.
Proof.
  intros Hn Hc Hnd Hall Hw%kv_write_view.
  set (s := exist _ (kv_view d) (kv_view_wf d) : map_store).
  set (s' := exist _ (kv_view d') (kv_view_wf d') : map_store).
  assert (kv_view s = kv_view d) as Hs by done. assert (kv_view s' = kv_view d') as Hs' by done.
  destruct (blocks_write_map bs s s') as (H1 & H2 & H3).
  - by apply (names_view s d).
  - by apply (consistent_view s d).
  - done.
  - eapply Forall_impl; [exact Hall|]. intros b (Hk & Hst & Hr). split_and!; [done..|].
    by rewrite !(keys_view s d Hs), (doc_of_view s d Hs).
  - by rewrite Hs', Hs.
  - split_and!.
    + by apply (consistent_view s' d').
    + by rewrite <-(indexes_view s d Hs), <-(indexes_view s' d' Hs').
    + intros k Hk. rewrite <-(doc_of_view s d Hs), <-(doc_of_view s' d' Hs'). auto.
Qed.

(** *** The documents as a map *)

Definition put_block m b : gmap string Document :=
  match b_new b with Some x => <[b_key b := x]> m | None => base.delete (b_key b) m end.
Lemma put_block_lookup m b k : put_block m b !! k = after k (m !! k) b.
Proof.
  unfold put_block, after. destruct (b_new b); [apply lookup_insert|]. rewrite lookup_delete. done.
Qed.
Lemma put_blocks_lookup m bs k : foldl put_block m bs !! k = foldl (after k) (m !! k) bs.
Proof.
  revert m. induction bs as [|b bs IH]; intros m; [done|]. cbn [foldl]. by rewrite IH, put_block_lookup.
Qed.
Lemma after_other k o bs : k ∉ b_key <$> bs → foldl (after k) o bs = o.
Proof.
  revert o. induction bs as [|b bs IH]; intros o Hk; [done|]. rewrite fmap_cons in Hk.
  apply not_elem_of_cons in Hk as [Hne Hk]. cbn [foldl]. rewrite IH by done. unfold after.
  by rewrite decide_False.
Qed.
(** What a batch of blocks makes of a collection. *)
Lemma blocks_represent bs c c' m :
  represents c m → names_ok (db c) → consistent (db c) → NoDup (b_key <$> bs) → Forall (block_for (db c)) bs →
  kv_write (concat (block_ops <$> bs)) (db c) = Some (db c') →
  doc_count c' = wrap64 (N.of_nat (size (foldl put_block m bs))) →
  represents c' (foldl put_block m bs) ∧ consistent (db c') ∧ names_ok (db c').
Proof.
  intros (Hm & Hnp & _) Hn Hc Hnd Hall Hw Hcnt.
  destruct (blocks_write bs (db c) (db c') Hn Hc Hnd Hall Hw) as (Hc' & Hi & Hd).
  split; [|split; [done|unfold names_ok; by rewrite Hi]]. split_and!; [| |done].
  - intros k Hk. by rewrite put_blocks_lookup, Hd, Hm.
  - intros k Hk. rewrite put_blocks_lookup, after_other; [auto|].
    intros (b & -> & Hin)%list_elem_of_fmap. rewrite Forall_forall in Hall. by apply Hk, Hall.
Qed.

Lemma send_all_keeps events c :
  db (send_all events c) = db c ∧ doc_count (send_all events c) = doc_count c ∧
  change_sender (send_all events c) = change_sender c ++ events.
Proof.
  unfold send_all. revert c. induction events as [|e events IH]; intros c; cbn [foldl]; [by rewrite app_nil_r|].
  destruct (IH (send e c)) as (H1 & H2 & H3). rewrite H1, H2, H3. cbn. by rewrite <-app_assoc.
Qed.
Lemma vector_all_keeps calls c :
  db (vector_all calls c) = db c ∧ doc_count (vector_all calls c) = doc_count c ∧
  change_sender (vector_all calls c) = change_sender c.
Proof.
  unfold vector_all. revert c. induction calls as [|v calls IH]; intros c; [done|]. apply (IH (vector v c)).
Qed.
Lemma wrap_add n k : wrap64 (wrap64 n + k) = wrap64 (n + k).
Proof. unfold wrap64. by rewrite N.Div0.add_mod_idemp_l. Qed.

(** ** insert_batch *)

Definition insert_prepared c (x : Document) (ops : list write_op) : Prop :=
  ∃ bytes entries, ops = Put (doc_key (key x)) bytes :: entries ∧ serialize_doc x = Ok bytes ∧
    insert_entries (db c) (key x) (to_value x) = Ok entries ∧ kv_get (doc_key (key x)) (db c) = None ∧
    check_unique_constraints (db c) (key x) (to_value x) = Ok tt.
Lemma prepare_one_prepared validator seen f data c x ops :
  prepare_one validator seen f data c = Ok (x, ops) → insert_prepared c x ops ∧ key x ∉ seen.
Proof.
  unfold prepare_one. destruct (validate_edge c data); [|done].
  destruct (match validator with Some _ => _ | None => _ end); [done|].
  destruct (take_key f.1.1 data) as [[k data']|]; [|done].
  case_bool_decide as Hs; [done|]. destruct (kv_get (doc_key k) (db c)) eqn:Hg; [done|].
  set (y := with_key f.1.2 f.2 (name c) k data').
  destruct (check_unique_constraints _ _ _) as [[]|] eqn:Hu; [|done].
  destruct (serialize_doc y) as [bytes|] eqn:Hb; [|done].
  destruct (insert_entries _ _ _) as [entries|] eqn:He; [|done].
  intros [= <- <-]. split; [by exists bytes, entries|done].
Qed.
Lemma prepare_batch_prepared validator documents c seen l :
  prepare_batch validator seen documents c = Ok l →
  length l = length documents ∧ Forall (λ p, insert_prepared c p.1 p.2) l ∧
  NoDup (key <$> l.*1) ∧ ∀ k, k ∈ key <$> l.*1 → k ∉ seen.
Proof.
  revert seen l. induction documents as [|[f data] documents IH]; intros seen l; cbn [prepare_batch].
  { intros [= <-]. split_and!; [done|done|constructor|set_solver]. }
  destruct (prepare_one _ _ _ _ _) as [[x ops]|] eqn:H1; [|done].
  apply prepare_one_prepared in H1 as [H1 Hx].
  destruct (prepare_batch _ _ _ _) as [l'|] eqn:H2; [|done]. intros [= <-].
  apply IH in H2 as (Hlen & Hall & Hnd & Hseen). cbn [fmap list_fmap length].
  split_and!; [by rewrite Hlen|by constructor| |].
  - apply NoDup_cons. split; [|done]. intros Hin. apply (Hseen _ Hin). set_solver.
  - intros k [->|Hin]%elem_of_cons; [done|]. specialize (Hseen _ Hin). set_solver.
Qed.
Definition insert_block (p : Document * list write_op) : block :=
  match p.2 with
  | o :: es => mkBlock (key p.1) (Some p.1) o es
  | [] => mkBlock (key p.1) (Some p.1) (Del "") []
  end.
Lemma insert_block_for c x ops : plain (key x) → insert_prepared c x ops →
  block_for (db c) (insert_block (x, ops)) ∧ block_ops (insert_block (x, ops)) = ops.
Proof.
  intros Hk (bytes & entries & -> & Hb & He & Hg & _). split; [|done]. split_and!; [done|by exists bytes|].
  cbn [b_key b_new b_entries insert_block fst snd]. unfold doc_of. rewrite Hg. cbn [keys_of dels fmap list_fmap app].
  by apply insert_entries_idx.
Qed.
Lemma insert_blocks_map l m : Forall (λ p, ∃ c, insert_prepared c p.1 p.2) l →
  b_key <$> (insert_block <$> l) = key <$> l.*1 ∧
  foldl put_block m (insert_block <$> l) = foldl (λ m x, <[key x := x]> m) m l.*1.
Proof.
  intros Hall. revert m. induction Hall as [|[x ops] l (c & bytes & es & E & _) _ IH]; intros m; [done|].
  cbn [fst snd] in E. subst ops. destruct (IH (<[key x := x]> m)) as [H1 H2].
  split; [cbn; by f_equal|exact H2].
Qed.
Lemma insert_blocks_size (xs : list Document) m :
  NoDup (key <$> xs) → (∀ x, x ∈ xs → m !! key x = None) →
  size (foldl (λ m x, <[key x := x]> m) m xs) = size m + length xs.
Proof.
  revert m. induction xs as [|x xs IH]; intros m Hnd Hm; cbn [foldl length]; [lia|].
  rewrite fmap_cons in Hnd. apply NoDup_cons in Hnd as [Hx Hnd]. rewrite IH; [|done|].
  - rewrite map_size_insert_None by (apply Hm; left). lia.
  - intros y Hy. rewrite lookup_insert_ne; [apply Hm; by right|].
    intros Heq. apply Hx. rewrite Heq. apply list_elem_of_fmap. eauto.
Qed.

(** C32: a batch of inserts happens as a whole or not at all. When it fails nothing has
    changed. When it succeeds there is one new document per value, under different keys
    that were not in use; the collection is the map with them added and counts them, the
    regular indexes are those of the documents, and each insert is announced, in order. *)
Theorem insert_batch_atomic documents c m r c' :
  represents c m → names_ok (db c) → consistent (db c) → insert_batch documents c = (r, c') →
  match r with
  | Err _ => c' = c
  | Ok docs => Forall (plain ∘ key) docs →
      length docs = length documents ∧ NoDup (key <$> docs) ∧ (∀ x, x ∈ docs → m !! key x = None) ∧
      represents c' (foldl (λ m x, <[key x := x]> m) m docs) ∧ consistent (db c') ∧
      change_sender c' = change_sender c ++ ((λ x, mkEvent CInsert (key x) (Some (to_value x)) None) <$> docs)
  end.
Proof.
  intros Hm Hn Hc. unfold insert_batch. destruct documents as [|p documents].
  { intros [= <- <-] _. split_and!; try done; [constructor|set_solver|by rewrite app_nil_r]. }
  destruct (get_cached_schema_validator _) as [validator|]; [|by intros [= <- <-]].
  destruct (prepare_batch _ _ _ _) as [l|] eqn:Hl; [|by intros [= <- <-]].
  unfold write. destruct (kv_write _ _) as [d'|] eqn:Hw; [|by intros [= <- <-]]. intros [= <- <-] Hplain.
  apply prepare_batch_prepared in Hl as (Hlen & Hall & Hnd & _).
  assert (∀ x, x ∈ l.*1 → m !! key x = None) as Hfresh.
  { intros x ([x' ops] & -> & Hin)%list_elem_of_fmap. rewrite Forall_forall in Hall.
    destruct (Hall _ Hin) as (bytes & es & _ & _ & _ & Hg & _).
    assert (plain (key x')) by (by apply (proj1 (Forall_forall _ _) Hplain x'), (list_elem_of_fmap_2 fst _ _ Hin)).
    rewrite (proj1 Hm) by done. unfold doc_of. by rewrite Hg. }
  destruct (insert_blocks_map l m) as [Hkeys Hfold].
  { eapply Forall_impl; [exact Hall|]. intros q Hq. by exists c. }
  rewrite <- Hfold, <- Hkeys in *. set (bs := insert_block <$> l) in *.
  assert (Forall (block_for (db c)) bs ∧ concat (block_ops <$> bs) = concat l.*2) as [Hfor Hops].
  { subst bs. clear -Hall Hplain. induction Hall as [|[x ops] l Hx _ IH]; [done|].
    apply Forall_cons in Hplain as [Hp Hplain]. destruct (IH Hplain) as [IH1 IH2].
    destruct (insert_block_for c x ops Hp Hx) as [H1 H2]. cbn [fmap list_fmap concat].
    split; [by constructor|]. by rewrite H2, <- IH2. }
  rewrite <- Hops in Hw. set (events := _ <$> l.*1). set (ups := _ <$> l.*1).
  set (c1 := add_count _ (vector_all ups (set_db d' c))).
  destruct (send_all_keeps events c1) as (Hd & Hn' & Hs').
  destruct (vector_all_keeps ups (set_db d' c)) as (Hvd & Hvn & Hvs).
  assert (db (send_all events c1) = d') as Hdb by (rewrite Hd; subst c1; cbn; by rewrite Hvd).
  destruct (blocks_represent bs c (send_all events c1) m Hm Hn Hc Hnd Hfor) as (Hrep & Hcon & _).
  { by rewrite Hdb. }
  { rewrite Hn'. subst c1. cbn [doc_count add_count]. rewrite Hvn, Hfold. cbn [doc_count set_db].
    rewrite (proj2 (proj2 Hm)), wrap_add, insert_blocks_size by (rewrite <- ?Hkeys; done).
    f_equal. lia. }
  split_and!; [by rewrite length_fmap|done..|]. rewrite Hs'. subst c1. cbn. by rewrite Hvs.
Qed.

(** ** delete_batch *)

(** Where the documents and the indexes are the same. *)
Lemma same_docs_refl d : same_docs d d.
Proof. by split. Qed.
Lemma same_docs_trans d1 d2 d3 : same_docs d1 d2 → same_docs d2 d3 → same_docs d1 d3.
Proof. intros [H1 H2] [H3 H4]. split; [|congruence]. intros e He. rewrite H3, H1; done. Qed.
Lemma same_docs_represents c c' m :
  same_docs (db c) (db c') → doc_count c' = doc_count c → represents c m → represents c' m.
Proof.
  intros Hs Hn (H1 & H2 & H3). split_and!; [|done|congruence].
  intros k Hk. by rewrite (same_docs_doc_of _ _ _ Hs), H1.
Qed.
Lemma same_docs_names d d' : same_docs d d' → names_ok d → names_ok d'.
Proof. intros [_ Hi]. unfold names_ok. by rewrite Hi. Qed.

(** The loop has collected [bs]; [keys] are the keys it has seen. *)
Record deleting c (keys : list string) (st : Collection * deletion) (bs : list block) : Prop := {
  dg_same : same_docs (db c) (db st.1);
  dg_count : doc_count st.1 = doc_count c;
  dg_sender : change_sender st.1 = change_sender c;
  dg_batch : del_batch st.2 = concat (block_ops <$> bs);
  dg_docs : Forall2 (λ b p, b_new b = None ∧ b_key b = p.1 ∧ ∃ x, doc_of (db c) (b_key b) = Some x ∧ p.2 = to_value x)
              bs (del_docs st.2);
  dg_keys : b_key <$> bs = filter (λ k, is_Some (doc_of (db c) k)) keys;
  dg_blocks : Forall (λ b, plain (b_key b) → block_for (db c) b) bs;
}.
Lemma deleting_one c keys st bs k : deleting c keys st bs →
  ∃ bs', deleting c (keys ++ [k]) (delete_one st k) bs'.
Proof.
  destruct st as [ci del]. intros [Hs Hn Hse Hb Hd Hk Hbl]. cbn [fst snd] in *. unfold delete_one.
  assert (doc_of (db ci) k = doc_of (db c) k) as Hdoc by by apply same_docs_doc_of.
  destruct (get ci k) as [x|e] eqn:Hg.
  - apply get_doc_of in Hg. rewrite Hdoc in Hg.
    set (c1 := if blob_only ci then _ else ci).
    assert (same_docs (db ci) (db c1) ∧ doc_count c1 = doc_count ci ∧ change_sender c1 = change_sender ci)
      as (H1 & H2 & H3).
    { subst c1. destruct (blob_only ci); [|by split; [apply same_docs_refl|]].
      destruct (delete_blob_data k ci) as [rb c2] eqn:Hdb. cbn [snd].
      pose proof (delete_blob_data_wrote _ _ _ _ Hdb) as (? & ? & _). split_and!; [done..|].
      unfold delete_blob_data, write in Hdb. destruct (0 <? _)%N; [|by injection Hdb as _ <-].
      destruct (kv_write _ _); by injection Hdb as _ <-. }
    destruct (delete_entries (db ci) k (to_value x)) as [entries|e] eqn:He; [|done].
    exists (bs ++ [mkBlock k None (Del (doc_key k)) entries]). constructor; cbn [fst snd].
    + by apply (same_docs_trans _ (db ci)).
    + cbn. congruence.
    + cbn. congruence.
    + cbn [del_batch]. rewrite Hb, fmap_app, concat_app. cbn. by rewrite app_nil_r.
    + cbn [del_docs]. apply Forall2_app; [done|]. constructor; [|constructor]. cbn. eauto.
    + rewrite fmap_app, Hk, filter_app. f_equal. cbn. rewrite decide_True by by eexists. done.
    + apply Forall_app. split; [done|]. constructor; [|done]. intros Hp. split_and!; [done..|].
      cbn [b_key b_new b_entries]. rewrite Hg. cbn [keys_of]. pose proof (delete_entries_idx _ _ _ _ He) as Hr.
      unfold idx_keys in *. rewrite (proj2 Hs) in Hr. cbn. by rewrite app_nil_r.
  - exists bs. constructor; try done. cbn [fst snd]. rewrite filter_app, Hk. cbn.
    rewrite decide_False; [by rewrite app_nil_r|].
    intros [x Hx]. rewrite <- Hdoc in Hx. apply get_doc_of in Hx. congruence.
Qed.
Lemma deleting_all c keys keys' st bs : deleting c keys st bs →
  ∃ bs', deleting c (keys ++ keys') (foldl delete_one st keys') bs'.
Proof.
  revert keys st bs. induction keys' as [|k keys' IH]; intros keys st bs Hd; [rewrite app_nil_r; eauto|].
  destruct (deleting_one _ _ _ _ k Hd) as [bs1 Hd1]. destruct (IH _ _ _ Hd1) as [bs2 Hd2].
  exists bs2. by rewrite <- app_assoc in Hd2.
Qed.
Lemma sub_wrap a n : (N.of_nat n < 2 ^ 64)%N → n ≤ a →
  sub64 (wrap64 (N.of_nat a)) (N.of_nat n) = wrap64 (N.of_nat (a - n)).
Proof.
  intros Hn Ha. unfold sub64, wrap64. change (2 ^ 64)%N with u64_modulus in Hn.
  rewrite <-N.add_sub_assoc by lia. rewrite N.Div0.add_mod_idemp_l.
  replace (N.of_nat a + (u64_modulus - N.of_nat n))%N with (N.of_nat (a - n) + 1 * u64_modulus)%N by lia.
  by rewrite N.Div0.mod_add.
Qed.
Lemma deletions_map bs m : Forall (λ b, b_new b = None) bs →
  foldl put_block m bs = foldl (λ m k, base.delete k m) m (b_key <$> bs).
Proof.
  intros H. revert m. induction H as [|b bs Hb _ IH]; intros m; [done|]. cbn [foldl fmap list_fmap].
  rewrite <- IH. unfold put_block at 2. by rewrite Hb.
Qed.
(** Keys without a document do not matter. *)
Lemma deletions_filter (P : string → Prop) `{!∀ k, Decision (P k)} m keys :
  (∀ k, k ∈ keys → ¬ P k → m !! k = None) →
  foldl (λ m k, base.delete k m) m (filter P keys) = foldl (λ m k, base.delete k m) m keys.
Proof.
  revert m. induction keys as [|k keys IH]; intros m Hm; [done|]. rewrite filter_cons. case_decide as Hk; cbn [foldl].
  - apply IH. intros k' Hk' Hp. rewrite lookup_delete. case_decide; [done|]. apply Hm; [by right|done].
  - rewrite IH by (intros; apply Hm; [by right|done]). f_equal. symmetry. apply delete_id, Hm; [left|done].
Qed.
Lemma deletions_size m keys : NoDup keys → (∀ k, k ∈ keys → is_Some (m !! k)) →
  size (foldl (λ m k, base.delete k m) m keys) = size m - length keys ∧ length keys ≤ size m.
Proof.
  intros Hnd. revert m. induction Hnd as [|k keys Hk Hnd IH]; intros m Hm; cbn [foldl length]; [lia|].
  destruct (IH (base.delete k m)) as [H1 H2].
  { intros k' Hk'. rewrite lookup_delete_ne; [apply Hm; by right|]. intros ->. done. }
  assert (is_Some (m !! k)) as Hs by (apply Hm; left). rewrite map_size_delete_Some in H1, H2 by done.
  assert (size m ≠ 0). { intros ->%map_size_empty_iff. destruct Hs as [x Hs]. by rewrite lookup_empty in Hs. }
  lia.
Qed.

(** deleting a batch of different keys deletes the documents among them, all in one
    write: the collection is the map without them, the count follows, the answer is how
    many there were, the regular indexes are those of the documents that remain, and each
    deletion is announced. When the write fails no document is gone. *)
Theorem delete_batch_atomic keys c m r c' :
  represents c m → names_ok (db c) → consistent (db c) → NoDup keys → Forall plain keys →
  (N.of_nat (length keys) < 2 ^ 64)%N → delete_batch keys c = (r, c') →
  consistent (db c') ∧
  match r with
  | Err _ => represents c' m
  | Ok n => represents c' (foldl (λ m k, base.delete k m) m keys) ∧
      n = N.of_nat (length (filter (λ k, is_Some (m !! k)) keys)) ∧
      ev_key <$> change_sender c' = (ev_key <$> change_sender c) ++ filter (λ k, is_Some (m !! k)) keys
  end.
Proof.
  intros Hm Hn Hc Hnd Hp Hlen. unfold delete_batch.
  destruct (deleting_all c [] keys (c, mkDeletion [] []) []) as [bs Hd].
  { by constructor. }
  destruct (foldl delete_one _ keys) as [c1 del]. destruct Hd as [Hs Hcn Hse Hb Hdocs Hk Hbl]. cbn [fst snd app] in *.
  assert (b_key <$> bs = filter (λ k, is_Some (m !! k)) keys) as Hkeys.
  { rewrite Hk. clear -Hp Hm. induction Hp as [|k keys Hpk _ IH]; [done|].
    pose proof (proj1 Hm k Hpk). rewrite !filter_cons, IH. repeat case_decide; congruence. }
  assert (represents c1 m) as Hm1 by by apply (same_docs_represents c).
  assert (consistent (db c1)) as Hc1 by by apply (same_docs_consistent (db c)).
  assert (names_ok (db c1)) as Hn1 by by apply (same_docs_names (db c)).
  assert (length (del_docs del) = length bs) as Hl by (symmetry; by eapply Forall2_length).
  destruct (del_docs del) as [|p docs] eqn:Edocs.
  { intros [= <- <-]. destruct bs; [|done]. cbn in Hkeys. split; [done|]. rewrite <- Hkeys, Hse, app_nil_r.
    split; [|done]. rewrite <- (deletions_filter (λ k, is_Some (m !! k))), <- Hkeys; [done|].
    intros k _ Hno. by apply eq_None_not_Some. }
  rewrite <- Edocs in *. clear p docs Edocs.
  unfold write. destruct (kv_write _ _) as [d'|] eqn:Hw; [|by intros [= <- <-]].
  assert (Forall (λ b, b_new b = None) bs) as Hnone.
  { clear -Hdocs. induction Hdocs as [|b p bs ps (H & _) _ IH]; by constructor. }
  set (events := _ <$> del_docs del). intros [= <- <-].
  set (c2 := sub_count _ (set_db d' c1)). destruct (send_all_keeps events c2) as (Hsd & Hsn & Hss).
  assert (foldl put_block m bs = foldl (λ m k, base.delete k m) m keys) as Hfold.
  { rewrite deletions_map, Hkeys by done. apply deletions_filter. intros k _ Hno. by apply eq_None_not_Some. }
  destruct (deletions_size m (b_key <$> bs)) as [Hsize Hle].
  { rewrite Hkeys. by apply NoDup_filter. }
  { rewrite Hkeys. intros k Hin. by apply list_elem_of_filter in Hin as [? _]. }
  rewrite length_fmap in Hsize, Hle.
  destruct (blocks_represent bs c1 (send_all events c2) m) as (Hrep & Hcon & _); try done.
  { rewrite Hkeys. by apply NoDup_filter. }
  { rewrite Forall_forall in *. intros b Hin. apply (block_for_same (db c)); [apply Hs|by intros _; apply same_docs_doc_of|].
    apply Hbl; [done|]. apply (proj1 (Forall_forall _ _) Hp). assert (b_key b ∈ b_key <$> bs) as Hin' by (apply list_elem_of_fmap; eauto).
    rewrite Hkeys in Hin'. by apply list_elem_of_filter in Hin' as [_ ?]. }
  { rewrite Hsd. subst c2. cbn [db sub_count set_db]. by rewrite <- Hb. }
  { rewrite Hsn. subst c2. cbn [doc_count sub_count set_db]. rewrite Hl, (proj2 (proj2 Hm1)), sub_wrap; [|..|done].
    - by rewrite deletions_map, Hsize by done.
    - rewrite <- (length_fmap b_key bs), Hkeys. eapply N.le_lt_trans; [|exact Hlen].
      pose proof (length_filter (λ k, is_Some (m !! k)) keys). lia. }
  split; [done|]. rewrite <- Hfold. split_and!; [done| |].
  - by rewrite Hl, <- (length_fmap b_key bs), Hkeys.
  - rewrite Hss, fmap_app. subst c2. cbn [change_sender sub_count set_db]. rewrite Hse. f_equal.
    rewrite <- Hkeys. subst events. rewrite <- list_fmap_compose. clear -Hdocs.
    induction Hdocs as [|b p bs ps (_ & H & _) _ IH]; [done|]. cbn [fmap list_fmap]. by rewrite H, IH.
Qed.

(** ** update_batch *)

Notation update_input := (string * Z * (string * Value))%type.
(** [x] is what the update [u] makes of the stored document. *)
Definition made_by c (u : update_input) (k : string) (x : Document) : Prop :=
  u.2.1 = k ∧ ∃ x0, doc_of (db c) k = Some x0 ∧ x = Document.update u.1.1 u.1.2 u.2.2 x0.
Record updates_done c (seen : list update_input) (st : Collection * updating) (bs : list block) : Prop := {
  ud_db : db st.1 = db c;
  ud_count : doc_count st.1 = doc_count c;
  ud_sender : change_sender st.1 = change_sender c;
  ud_batch : up_batch st.2 = concat (block_ops <$> bs);
  ud_docs : Forall2 (λ b p, b_key b = p.1 ∧ b_new b = Some p.2.2 ∧ ∃ u, u ∈ seen ∧ made_by c u p.1 p.2.2)
              bs (up_docs st.2);
  ud_keys : b_key <$> bs `sublist_of` (λ u : update_input, u.2.1) <$> seen;
  ud_blocks : Forall (λ b, plain (b_key b) → block_for (db c) b) bs;
}.
Lemma update_entries_total d k (v w : Value) :
  (∀ w : Value, is_Some (value_to_vec w)) → ∃ entries, update_entries d k v w = Ok entries.
Proof.
  intros Ht. unfold update_entries, compute_index_entries_for_update.
  destruct (geo_entries_total k w (get_all_geo_indexes d) Ht) as [g ->]. by eexists.
Qed.
Lemma prepare_update_prepared rev now k changes c old x ops :
  (∀ w : Value, is_Some (value_to_vec w)) → prepare_update rev now k changes c = Ok (Some (old, x, ops)) →
  made_by c (rev, now, (k, changes)) k x ∧
  ∃ o entries, ops = o :: entries ∧ (plain k → block_for (db c) (mkBlock k (Some x) o entries)).
Proof.
  intros Ht. unfold prepare_update. destruct (get c k) as [x0|] eqn:Hg; [|done]. apply get_doc_of in Hg.
  destruct (validate_edge _ _); [|done]. destruct (get_cached_schema_validator _) as [validator|]; [|done].
  destruct (match validator with Some _ => _ | None => _ end); [done|].
  set (y := Document.update rev now changes x0). destruct (serialize_doc y) as [bytes|] eqn:Hb; [|done].
  destruct (update_entries_total (db c) k (to_value x0) (to_value y) Ht) as [entries He]. rewrite He.
  intros [= <- <- <-]. split; [split; [done|by exists x0]|]. eexists _, entries. split; [done|].
  intros Hk. split_and!; [done|by exists bytes|]. cbn [b_key b_new b_entries]. rewrite Hg.
  by apply update_entries_idx.
Qed.
Lemma updates_done_weaken c seen st bs u : updates_done c seen st bs → updates_done c (seen ++ [u]) st bs.
Proof.
  intros [H1 H2 H3 H4 H5 H6 H7]. constructor; try done.
  - eapply Forall2_impl; [exact H5|]. intros b p (? & ? & v & Hv & ?). split_and!; [done..|]. exists v. set_solver.
  - rewrite fmap_app. by apply sublist_inserts_r.
Qed.
Lemma update_loop_done c updates : (∀ w : Value, is_Some (value_to_vec w)) →
  ∀ seen st bs r c', updates_done c seen st bs → update_loop updates st = (r, c') →
  match r with
  | Err _ => db c' = db c ∧ doc_count c' = doc_count c
  | Ok up => ∃ bs', updates_done c (seen ++ updates) (c', up) bs'
  end.
Proof.
  intros Ht. induction updates as [|[[rev now] [k changes]] updates IH]; intros seen [ci up] bs r c' Hd; cbn [update_loop].
  { intros [= <- <-]. rewrite app_nil_r. eauto. }
  rewrite (cons_middle _ seen updates), app_assoc.
  assert (db ci = db c) as Hdb by apply (ud_db _ _ _ _ Hd).
  destruct (prepare_update rev now k changes ci) as [[[[old x] ops]|]|] eqn:Hp.
  - apply prepare_update_prepared in Hp as [Hmade (o & entries & -> & Hblock)]; [|done].
    unfold made_by in Hmade. cbn [fst snd] in Hmade. rewrite Hdb in Hmade, Hblock.
    intros Hr. eapply IH; [|exact Hr]. clear IH Hr. destruct Hd as [H1 H2 H3 H4 H5 H6 H7].
    cbn [fst snd] in *. constructor; cbn [fst snd].
    + done.
    + done.
    + done.
    + instantiate (1 := bs ++ [mkBlock k (Some x) o entries]).
      cbn [up_batch]. rewrite H4, fmap_app, concat_app. cbn. by rewrite app_nil_r.
    + cbn [up_docs]. apply Forall2_app.
      * eapply Forall2_impl; [exact H5|]. intros b p (? & ? & v & Hv & ?). split_and!; [done..|]. exists v. set_solver.
      * constructor; [|constructor]. cbn [fst snd b_key b_new]. split_and!; [done..|].
        exists (rev, now, (k, changes)). split; [set_solver|done].
    + rewrite !fmap_app. by apply sublist_app.
    + apply Forall_app. split; [done|]. by constructor.
  - intros Hr. eapply IH; [|exact Hr]. by apply updates_done_weaken.
  - intros [= <- <-]. destruct Hd as [H1 H2 _ _ _ _ _]. done.
Qed.
Lemma puts_map bs (docs : list (string * (Value * Document))) m :
  Forall2 (λ b p, b_key b = p.1 ∧ b_new b = Some p.2.2) bs docs →
  b_key <$> bs = docs.*1 ∧
  foldl put_block m bs = foldl (λ m p, <[p.1 := p.2.2]> m) m docs.
Proof.
  intros H. revert m. induction H as [|b p bs docs [H1 H2] _ IH]; intros m; [done|].
  cbn [fmap list_fmap foldl]. destruct (IH (put_block m b)) as [Hk Hf]. split; [by f_equal|]. rewrite Hf. f_equal.
  unfold put_block. by rewrite H2, H1.
Qed.
Lemma replaced_size (docs : list (string * (Value * Document))) m :
  (∀ p, p ∈ docs → is_Some (m !! p.1)) → size (foldl (λ m p, <[p.1 := p.2.2]> m) m docs) = size m.
Proof.
  revert m. induction docs as [|p docs IH]; intros m Hm; [done|]. cbn [foldl].
  assert (is_Some (m !! p.1)) as Hp by (apply Hm; left).
  rewrite IH; [by rewrite map_size_insert_Some|].
  intros q Hq. rewrite lookup_insert. case_decide; [by eexists|]. apply Hm. by right.
Qed.

(** a batch of updates of different documents is applied in one write, for the
    updates that find their document and whose result is valid: the collection is the
    map with these documents replaced, each by what the update makes of the stored one,
    its count unchanged and its regular indexes those of the new documents. When the
    batch fails nothing is stored. *)
Theorem update_batch_atomic updates c m r c' :
  (∀ w : Value, is_Some (value_to_vec w)) →
  represents c m → names_ok (db c) → consistent (db c) →
  NoDup ((λ u : update_input, u.2.1) <$> updates) → Forall (λ u : update_input, plain u.2.1) updates →
  update_batch updates c = (r, c') →
  consistent (db c') ∧
  match r with
  | Err _ => represents c' m
  | Ok docs => ∃ changed : list (string * (Value * Document)), docs = changed.*2.*2 ∧
      represents c' (foldl (λ m p, <[p.1 := p.2.2]> m) m changed) ∧
      (∀ p, p ∈ changed → ∃ u x0, u ∈ updates ∧ u.2.1 = p.1 ∧ m !! p.1 = Some x0 ∧
         p.2.2 = Document.update u.1.1 u.1.2 u.2.2 x0) ∧
      ev_key <$> change_sender c' = (ev_key <$> change_sender c) ++ changed.*1
  end.
Proof.
  intros Ht Hm Hn Hc Hnd Hp. unfold update_batch. destruct updates as [|u updates].
  { intros [= <- <-]. split; [done|]. exists []. split_and!; [done|done|by intros p ?%elem_of_nil|by rewrite app_nil_r]. }
  set (us := u :: updates) in *. destruct (reject_timeseries c); [|by intros [= <- <-]].
  destruct (update_loop us (c, mkUpdating [] [])) as [lr c1] eqn:Hl.
  apply (update_loop_done c us Ht [] _ []) in Hl; [|by constructor]. cbn [app] in Hl.
  destruct lr as [up|e].
  2: { intros [= <- <-]. destruct Hl as [Hdb Hcn]. rewrite Hdb. split; [done|].
       apply (same_docs_represents c); [rewrite Hdb; apply same_docs_refl|done..]. }
  destruct Hl as [bs [Hdb Hcn Hse Hb Hdocs Hk Hbl]]. cbn [fst snd] in *.
  assert (∀ p, p ∈ up_docs up → ∃ u x0, u ∈ us ∧ u.2.1 = p.1 ∧ m !! p.1 = Some x0 ∧
         p.2.2 = Document.update u.1.1 u.1.2 u.2.2 x0) as Hmade.
  { intros p Hin. apply list_elem_of_lookup in Hin as [i Hi].
    destruct (Forall2_lookup_r _ _ _ _ _ Hdocs Hi) as (b & _ & _ & _ & v & Hv & Ev & x0 & Hx0 & Ex).
    exists v, x0. split_and!; [done..| |done]. rewrite (proj1 Hm); [done|]. rewrite <- Ev.
    by apply (proj1 (Forall_forall _ _) Hp). }
  assert (Forall2 (λ b p, b_key b = p.1 ∧ b_new b = Some p.2.2) bs (up_docs up)) as Hpairs.
  { eapply Forall2_impl; [exact Hdocs|]. intros b p (? & ? & _). done. }
  destruct (puts_map bs (up_docs up) m Hpairs) as [Hkeys Hfold].
  destruct (up_docs up) as [|p0 docs0] eqn:Edocs.
  { intros [= <- <-]. rewrite Hdb, Hse. split; [done|]. exists []. split_and!; [done| |done|by rewrite app_nil_r].
    apply (same_docs_represents c); [rewrite Hdb; apply same_docs_refl|done..]. }
  rewrite <- Edocs in *. clear p0 docs0 Edocs. unfold write. destruct (kv_write _ _) as [d'|] eqn:Hw.
  2: { intros [= <- <-]. rewrite Hdb. split; [done|].
       apply (same_docs_represents c); [rewrite Hdb; apply same_docs_refl|done..]. }
  set (events := (λ p : string * (Value * Document), mkEvent CUpdate p.1 (Some (to_value p.2.2)) (Some p.2.1))
    <$> up_docs up). intros [= <- <-].
  destruct (send_all_keeps events (set_db d' c1)) as (Hsd & Hsn & Hss).
  destruct (blocks_represent bs c (send_all events (set_db d' c1)) m) as (Hrep & Hcon & _); try done.
  { by eapply sublist_NoDup. }
  { rewrite Forall_forall in *. intros b Hin. apply Hbl; [done|].
    assert (b_key b ∈ (λ u : update_input, u.2.1) <$> us) as (v & -> & Hv)%list_elem_of_fmap.
    { eapply elem_of_submseteq; [|by apply sublist_submseteq, Hk]. apply list_elem_of_fmap. eauto. }
    by apply (proj1 (Forall_forall _ _) Hp). }
  { rewrite Hsd. cbn. by rewrite <- Hb, <- Hdb. }
  { rewrite Hsn. cbn. rewrite Hcn, Hfold, replaced_size; [by apply Hm|].
    intros p Hin. destruct (Hmade p Hin) as (v & x0 & _ & _ & Hx & _). eauto. }
  split; [done|]. exists (up_docs up). rewrite <- Hfold. split_and!; [done..|].
  rewrite Hss, fmap_app. cbn. rewrite Hse. f_equal. subst events. rewrite <- list_fmap_compose. done.
Qed.
End Props.
End BatchProps.

(** ** On a concrete collection *)

Module BatchDemo.
Import BatchProps DocumentDemo CollectionDemo.

Definition doc3 : Value demo_number := Object [("_key", JString "k3"); ("b", Bool true)].
Definition inserts : list (fresh * Value demo_number) :=
  [("g3", "r3", 3%Z, doc3); ("g4", "r4", 4%Z, Object [("_key", JString "k4"); ("a", Null)])].
Definition m2 : gmap string (Document demo_number) := {[ "k1" := x1; "k2" := x2 ]}.
Lemma c2_represents : represents c2 m2.
Proof.
  unfold m2. split_and!; [|intros k Hk|vm_compute; reflexivity].
  - intros k _. rewrite c2_docs. repeat case_decide; subst; by simplify_map_eq.
  - rewrite lookup_insert_ne, lookup_singleton_ne; [done|intros <-; by apply Hk..].
Qed.

Lemma insert_batch_atomic_witness :
  change_sender (insert_batch inserts c2).2 =
  change_sender c2 ++ [mkEvent CInsert "k3" (Some (to_value (with_key "r3" 3 "db:c" "k3" (Object [("b", Bool true)])))) None;
                       mkEvent CInsert "k4" (Some (to_value (with_key "r4" 4 "db:c" "k4" (Object [("a", Null)])))) None].
Proof.
  pose proof (insert_batch_atomic inserts c2 m2 (insert_batch inserts c2).1 (insert_batch inserts c2).2
    c2_represents (proj2 c2_consistent) (proj1 c2_consistent) ltac:(apply surjective_pairing)) as H.
  assert ((insert_batch inserts c2).1 =
    Ok [with_key "r3" 3 "db:c" "k3" (Object [("b", Bool true)]); with_key "r4" 4 "db:c" "k4" (Object [("a", Null)])]) as E
    by (vm_compute; reflexivity).
  rewrite E in H. apply H. repeat constructor.
Defined.

Lemma delete_batch_atomic_witness : (delete_batch ["k2"; "k9"] c2).1 = Ok 1%N ∧
  consistent (db (delete_batch ["k2"; "k9"] c2).2).
Proof.
  split; [vm_compute; reflexivity|].
  apply (delete_batch_atomic ["k2"; "k9"] c2 m2 (delete_batch ["k2"; "k9"] c2).1 (delete_batch ["k2"; "k9"] c2).2
    c2_represents (proj2 c2_consistent) (proj1 c2_consistent)).
  - apply (bool_decide_unpack _). vm_compute. exact I.
  - repeat constructor.
  - vm_compute. reflexivity.
  - apply surjective_pairing.
Defined.

Definition changes : list (string * Z * (string * Value demo_number)) :=
  [("r5", 5%Z, ("k1", Object [("a", Null)])); ("r6", 6%Z, ("k9", Object [("a", Null)]))].
Lemma update_batch_atomic_witness : length <$> (match (update_batch changes c2).1 with Ok l => Some l | Err _ => None end) = Some 1 ∧
  consistent (db (update_batch changes c2).2).
Proof.
  split; [vm_compute; reflexivity|].
  eapply proj1, (update_batch_atomic changes c2 m2 (update_batch changes c2).1 (update_batch changes c2).2).
  - intros w. by eexists.
  - apply c2_represents.
  - apply c2_consistent.
  - apply c2_consistent.
  - apply (bool_decide_unpack _). vm_compute. exact I.
  - repeat constructor.
  - apply surjective_pairing.
Defined.

(** Two documents with the same value for a unique index are accepted together. *)
Definition twins : list (fresh * Value demo_number) :=
  [("g5", "r5", 5%Z, Object [("_key", JString "k5"); ("a", JString "same")]);
   ("g6", "r6", 6%Z, Object [("_key", JString "k6"); ("a", JString "same")])].
Theorem insert_batch_breaks_unique : unique_ok (db c2) ∧ ¬ unique_ok (db (insert_batch twins c2).2).
Proof.
  split; [exact c2_unique|]. intros H.
  set (y k r n := with_key r n "db:c" k (Object [("a", JString "same")]) : Document demo_number).
  assert ("k5" = "k6") as E; [|discriminate E].
  eapply (H by_a "k5" "k6" (y "k5" "r5" 5%Z) (y "k6" "r6" 6%Z)); try (vm_compute; reflexivity).
  change (by_a ∈ [by_a; by_bc]). by left.
Qed.
End BatchDemo.
