(* ===== verification/IndexLife.v ===== *)
(** * The life of an index

    Creating an index enters every document, dropping one takes its entries away,
    and rebuilding makes the entries those of the documents whatever they were. *)

From S2P Require Import Prelude Text Json Transaction Codec Kv Document Indexes Collection CollectionProps CollectionBatch CollectionBatchProps.
Import Json Codec Document Serializer Indexes Collection CollectionProps CollectionBatch BatchProps.

Module IndexLife.
Section Props.
Context {Num : Type} `{!JsonNumber Num} `{!JsonText Num} `{!MetaJson Num} `{!DocumentJson Num}
  `{!DocCodec Num}.
Context `{hex_crate : !HexCrate} `{std_text : !StdText} `{hex_laws : !HexLaws}.
Context {DB : Type} `{!KvStore DB} `{!KvLaws DB}.
Notation Value := (Value Num).
Notation Document := (Document Num).
Notation Collection := (Collection Num DB).
Implicit Types (d : DB) (k e : string) (c : Collection) (i : Index).

(** ** Reading *)

(** The documents are stored under their keys, and nothing else can be read as one. *)
Definition stored_keys d : Prop := ∀ k (x : Document), doc_of d k = Some x → plain k ∧ key x = k.
(** The records of the indexes are stored under their names. *)
Definition meta_named d : Prop :=
  ∀ n bytes i, kv_get (idx_meta_key n) d = Some bytes → index_from_slice bytes = Some i → idx_name i = n.

Lemma view_elem d e v : (e, v) ∈ kv_view d ↔ kv_get e d = Some v.
Proof. rewrite kv_get_view. apply OMap.get_elem, kv_view_wf. Qed.
Lemma from_elem p d e v : starts_with p e = true → (e, v) ∈ kv_from p d ↔ kv_get e d = Some v.
Proof.
  intros [r ->]%starts_with_split. rewrite kv_from_view, list_elem_of_filter, view_elem. cbn [fst].
  rewrite prefix_leb. naive_solver.
Qed.
Lemma metadata_elem {A} (f : string → option A) p d a :
  a ∈ metadata f p d ↔ ∃ r bytes, kv_get (p +:+ r) d = Some bytes ∧ f bytes = Some a.
Proof.
  unfold metadata. rewrite list_elem_of_omap. split.
  - intros ([e bytes] & Hin & H). cbn [fst snd] in H. destruct (starts_with p e) eqn:Hp; [|done].
    apply from_elem in Hin; [|done]. apply starts_with_split in Hp as [r ->]. eauto.
  - intros (r & bytes & Hg & Hf). exists (p +:+ r, bytes). rewrite from_elem by apply starts_with_app.
    split; [done|]. cbn [fst snd]. by rewrite starts_with_app.
Qed.
Lemma all_elem c x : x ∈ all c ↔ ∃ k, doc_of (db c) k = Some x.
Proof.
  unfold all, scan. rewrite list_elem_of_omap. unfold doc_of. split.
  - intros ([e bytes] & Hin & H). cbn [fst snd] in H. destruct (starts_with DOC_PREFIX e) eqn:Hp; [|done].
    apply from_elem in Hin; [|done]. apply starts_with_split in Hp as [k ->]. exists k.
    change (kv_get (doc_key k) (db c) = Some bytes) in Hin. rewrite Hin. by destruct (deserialize_doc bytes).
  - intros (k & H). destruct (kv_get (doc_key k) (db c)) as [bytes|] eqn:Hg; [|done].
    exists (doc_key k, bytes). unfold doc_key in *. rewrite from_elem by apply starts_with_app. split; [done|].
    cbn [fst snd]. rewrite starts_with_app. by destruct (deserialize_doc bytes).
Qed.

(** ** Writing entries *)

Definition in_index (op : write_op) : Prop := starts_with IDX_PREFIX (op_target op) = true.
Lemma in_index_other ops e o : Forall in_index ops → starts_with IDX_PREFIX e = false →
  foldl (write_key e) o ops = o.
Proof.
  intros H He. apply write_key_other. eapply Forall_impl; [exact H|].
  unfold in_index. intros [e' w|e'] Hop; cbn [op_target] in Hop; congruence.
Qed.
(** Entries are put; the last one for a key counts. *)
Lemma puts_decide ops e o : Forall (λ op, ∃ e' v, op = Put e' v) ops →
  (∃ v, Put e v ∈ ops ∧ foldl (write_key e) o ops = Some v) ∨
  ((∀ v, Put e v ∉ ops) ∧ foldl (write_key e) o ops = o).
Proof.
  induction ops as [|op ops IH] using rev_ind; intros Hall; [right; split; [set_solver|done]|].
  apply Forall_app in Hall as [Hall (e' & v & ->)%Forall_singleton]. rewrite foldl_app. cbn [foldl write_key].
  case_decide as Hd.
  - subst. left. exists v. set_solver.
  - destruct (IH Hall) as [(w & Hin & H)|[Hno H]]; [left; exists w; set_solver|right].
    split; [|done]. intros w. rewrite elem_of_app, list_elem_of_singleton. intros [Hin|[= -> _]]; [by eapply Hno|done].
Qed.
(** The entry [e] of the document of [k] in one of the indexes. *)
Definition entry_of (indexes : list Index) d e k : Prop :=
  ∃ x i, doc_of d k = Some x ∧ i ∈ indexes ∧ entry_key_for k (to_value x) i = Some e.
Lemma entry_of_keys d e k :
  entry_of (get_all_indexes d) d e k ↔ e ∈ keys_of d k (doc_of d k).
Proof.
  unfold entry_of, keys_of, idx_keys. destruct (doc_of d k) as [x|]; [|set_solver].
  rewrite list_elem_of_omap. naive_solver.
Qed.
Lemma consistent_entries d : consistent d ↔
  ∀ e v, starts_with IDX_PREFIX e = true → kv_get e d = Some v ↔ plain v ∧ entry_of (get_all_indexes d) d e v.
Proof. unfold consistent. by setoid_rewrite entry_of_keys. Qed.
Lemma entry_of_in_index indexes d e k : entry_of indexes d e k → starts_with IDX_PREFIX e = true.
Proof.
  intros (x & i & _ & _ & H). unfold entry_key_for in H. destruct (all_null _); [done|].
  injection H as <-. apply starts_with_app.
Qed.
Lemma entry_of_owner indexes d e k k' :
  Forall (λ i, no_colon (idx_name i) = true) indexes → entry_of indexes d e k → entry_of indexes d e k' → k = k'.
Proof.
  intros Hn (x & i & _ & Hi & H) (x' & i' & _ & Hi' & H'). rewrite Forall_forall in Hn.
  unfold entry_key_for in H, H'. destruct (all_null _); [done|]. destruct (all_null _); [done|].
  rewrite <- H' in H. apply (inj Some), idx_entry_key_inj in H as (_ & _ & ->); auto.
Qed.

(** Entries for the indexes [new] put where there are those of [old]. *)
Lemma puts_consistent old new ops d0 d' :
  names_ok d' → (∀ i, i ∈ get_all_indexes d' ↔ i ∈ old ∨ i ∈ new) →
  Forall (λ op, ∃ e v, op = Put e v) ops → (∀ e v, Put e v ∈ ops ↔ plain v ∧ entry_of new d' e v) →
  (∀ e, starts_with IDX_PREFIX e = true → kv_get e d' = foldl (write_key e) (kv_get e d0) ops) →
  (∀ e v, starts_with IDX_PREFIX e = true → kv_get e d0 = Some v ↔ plain v ∧ entry_of old d' e v) →
  consistent d'.
Proof.
  intros Hn Hi Hputs Hops Hget Hold. apply consistent_entries. intros e v He. rewrite Hget by done.
  assert (∀ l k, (∀ i, i ∈ l → i ∈ get_all_indexes d') → entry_of l d' e k → entry_of (get_all_indexes d') d' e k)
    as Hmono by (intros l k Hl (x & i & ? & ? & ?); exists x, i; auto).
  assert (∀ k, entry_of (get_all_indexes d') d' e k ↔ entry_of old d' e k ∨ entry_of new d' e k) as Hsplit.
  { intros k. split; [|intros [H|H]; (eapply Hmono; [|exact H]); intros i ?; apply Hi; auto].
    intros (x & i & Hx & [H|H]%Hi & Hk); [left|right]; by exists x, i. }
  destruct (puts_decide ops e (kv_get e d0) Hputs) as [(w & Hw & ->)|[Hno ->]].
  - apply Hops in Hw as [Hpw Hw]. split.
    + intros [= <-]. split; [done|]. apply Hsplit. by right.
    + intros [_ H]. f_equal. eapply (entry_of_owner (get_all_indexes d')); [exact Hn| |exact H].
      apply Hsplit. by right.
  - rewrite Hold, Hsplit by done. split; [naive_solver|]. intros [Hp [H|H]]; [done|].
    exfalso. by apply (Hno v), Hops.
Qed.

(** ** The flushing loop *)

Lemma flush_loop_view msg ops batch count c batch' count' c' :
  (count mod BATCH_SIZE_LIMIT = 0 → batch = [] ∨ count = 0) →
  flush_loop msg batch count ops c = (Ok (batch', count'), c') →
  write_view batch' (kv_view (db c')) = write_view (batch ++ ops) (kv_view (db c)) ∧
  count' = count + length ops ∧ (count' mod BATCH_SIZE_LIMIT = 0 → batch' = [] ∨ count' = 0).
Proof.
  revert batch count c. induction ops as [|op ops IH]; intros batch count c Hb; cbn [flush_loop].
  { intros [= <- <- <-]. rewrite app_nil_r. split_and!; [done|simpl; lia|done]. }
  destruct (Nat.eqb_spec (S count mod BATCH_SIZE_LIMIT) 0) as [E|E].
  - unfold write. destruct (kv_write (batch ++ [op]) (db c)) as [d1|] eqn:Hw; [|done].
    intros H. apply IH in H as (H1 & H2 & H3); [|by left]. apply kv_write_view in Hw.
    rewrite H1. cbn [db set_db app]. rewrite Hw. split_and!; [|simpl; lia|done].
    unfold write_view. rewrite <- foldl_app, <- app_assoc. done.
  - intros H. apply IH in H as (H1 & H2 & H3); [|done].
    rewrite H1, <- app_assoc. split_and!; [done|simpl; lia|done].
Qed.
Lemma view_get ops d d' e : kv_view d' = write_view ops (kv_view d) →
  kv_get e d' = foldl (write_key e) (kv_get e d) ops.
Proof. intros Hv. rewrite !kv_get_view, Hv. apply write_view_get, kv_view_wf. Qed.
(** Writing entries only. *)
Lemma view_in_index ops d d' : Forall in_index ops → kv_view d' = write_view ops (kv_view d) →
  (∀ k, doc_of d' k = doc_of d k) ∧ (∀ i, i ∈ get_all_indexes d' ↔ i ∈ get_all_indexes d).
Proof.
  intros Hops Hv.
  assert (∀ e, starts_with IDX_PREFIX e = false → kv_get e d' = kv_get e d) as Hget.
  { intros e He. rewrite (view_get ops d d' e Hv). by apply in_index_other. }
  split; [intros k; unfold doc_of; by rewrite Hget|].
  intros i. unfold get_all_indexes. rewrite !metadata_elem. by setoid_rewrite Hget.
Qed.
(** ** Creating, dropping and rebuilding *)

Section Reliable.
Context `{!KvReliable DB}.

Lemma write_ok msg ops c : ∃ d', write msg ops c = Ok (set_db d' c) ∧ kv_view d' = write_view ops (kv_view (db c)).
Proof.
  unfold write. destruct (kv_write_ok ops (db c)) as [d' Hd]. exists d'. rewrite Hd. split; [done|].
  by apply kv_write_view.
Qed.
Lemma attempt_write_view ops c : kv_view (db (try_write ops c)) = write_view ops (kv_view (db c)).
Proof. unfold try_write. destruct (write_ok "" ops c) as (d' & -> & H). exact H. Qed.
Lemma flush_loop_ok msg batch count ops c : ∃ b n c', flush_loop msg batch count ops c = (Ok (b, n), c').
Proof.
  revert batch count c. induction ops as [|op ops IH]; intros batch count c; cbn [flush_loop]; [by eexists _, _, _|].
  case_match; [|apply IH]. destruct (write_ok msg (batch ++ [op]) c) as (d' & -> & _). apply IH.
Qed.
Lemma write_view_app a b v : write_view (a ++ b) v = write_view b (write_view a v).
Proof. apply foldl_app. Qed.

(** *** Entries read and written *)

(** The operations that leave the documents and the records of the indexes alone. *)
Definition entries_only (op : write_op) : Prop :=
  starts_with DOC_PREFIX (op_target op) = false ∧ starts_with IDX_META_PREFIX (op_target op) = false.
Lemma entries_only_get ops e o :
  Forall entries_only ops → starts_with DOC_PREFIX e = true ∨ starts_with IDX_META_PREFIX e = true →
  foldl (write_key e) o ops = o.
Proof.
  intros H He. apply write_key_other. eapply Forall_impl; [exact H|].
  intros [e' w|e'] [Hd Hm]; cbn [op_target] in Hd, Hm; intros ->; destruct He; congruence.
Qed.
Lemma entries_only_view ops d d' : Forall entries_only ops → kv_view d' = write_view ops (kv_view d) →
  (∀ k, doc_of d' k = doc_of d k) ∧ (∀ i, i ∈ get_all_indexes d' ↔ i ∈ get_all_indexes d).
Proof.
  intros Hops Hv.
  assert (∀ e, starts_with DOC_PREFIX e = true ∨ starts_with IDX_META_PREFIX e = true → kv_get e d' = kv_get e d)
    as Hget by (intros e He; rewrite (view_get ops d d' e Hv); by apply entries_only_get).
  split.
  - intros k. unfold doc_of. rewrite Hget; [done|]. left. apply starts_with_app.
  - intros i. unfold get_all_indexes. rewrite !metadata_elem. split; intros (r & bytes & H & Hi); exists r, bytes;
      (rewrite Hget in * by (right; apply starts_with_app)); done.
Qed.
Lemma in_index_entries op : in_index op → entries_only op.
Proof. unfold in_index, entries_only. intros H. split; by apply (prefixes_disjoint IDX_PREFIX). Qed.

(** *** create_index *)

Lemma index_puts_elem i docs e v : Put e v ∈ index_puts (idx_name i) (idx_fields i) docs ↔
  ∃ x, x ∈ docs ∧ key x = v ∧ entry_key_for v (to_value x) i = Some e.
Proof.
  unfold index_puts, entry_key_for. rewrite list_elem_of_omap. split.
  - intros (x & Hx & H). destruct (all_null _) eqn:E; [done|]. injection H as <- <-. exists x. by rewrite E.
  - intros (x & Hx & <- & H). exists x. split; [done|]. destruct (all_null _); [done|]. by injection H as ->.
Qed.
Lemma index_puts_form n fields docs :
  Forall (λ op, in_index op ∧ ∃ e v, op = Put e v) (index_puts n fields docs).
Proof.
  apply Forall_forall. intros op (x & _ & H)%list_elem_of_omap. cbn beta zeta in H.
  destruct (all_null _); [done|]. injection H as <-. split; [apply starts_with_app|by eexists _, _].
Qed.
Lemma meta_put_get n bytes d d' : kv_view d' = write_view [Put (idx_meta_key n) bytes] (kv_view d) →
  ∀ e, kv_get e d' = if decide (idx_meta_key n = e) then Some bytes else kv_get e d.
Proof. intros Hv e. by rewrite (view_get _ _ _ e Hv). Qed.
Lemma meta_key_not_idx n e : starts_with IDX_PREFIX e = true → idx_meta_key n ≠ e.
Proof. intros H <-. done. Qed.

(** All the entries of a collection of which the documents can be read. *)
Lemma stored_elem c x k : stored_keys (db c) → x ∈ all c ∧ key x = k ↔ doc_of (db c) k = Some x.
Proof.
  intros Hs. rewrite all_elem. split; [|intros H; split; [by exists k|by apply (Hs k x H)]].
  intros [[k' H] <-]. by destruct (Hs k' x H) as [_ ->].
Qed.

Lemma create_index_view c bytes n fields : get_index n c = None → ∃ d1 c',
  create_index bytes n fields c = (Ok tt, c') ∧
  kv_view d1 = write_view [Put (idx_meta_key n) bytes] (kv_view (db c)) ∧
  kv_view (db c') = write_view (index_puts n fields (all (set_db d1 c))) (kv_view d1).
Proof.
  intros Hnone. unfold create_index. rewrite Hnone.
  destruct (write_ok "Failed to create index" [Put (idx_meta_key n) bytes] c) as (d1 & -> & Hd1).
  set (ops := index_puts _ _ _). exists d1.
  destruct (flush_loop_ok "Failed to write index batch" [] 0 ops (set_db d1 c)) as (b & m & c2 & Hfl). rewrite Hfl.
  pose proof (flush_loop_view _ _ _ _ _ _ _ _ ltac:(by left) Hfl) as (Hv & Hm & Hb). cbn [app] in Hv.
  destruct (Nat.ltb 0 m && negb (Nat.eqb (m mod BATCH_SIZE_LIMIT) 0)) eqn:E.
  - destruct (write_ok "Failed to write final index batch" b c2) as (d3 & -> & Hd3).
    eexists. split_and!; [done..|]. cbn [db set_db]. by rewrite Hd3, Hv.
  - eexists. split_and!; [done..|]. enough (b = []) as -> by exact Hv.
    destruct ops as [|op ops'] eqn:Hops; [by injection Hfl as <- <- <-|]. simpl in Hm.
    apply andb_false_iff in E as [E%Nat.ltb_ge|E]; [lia|].
    apply negb_false_iff, Nat.eqb_eq in E. destruct (Hb E); [done|lia].
Qed.
Lemma meta_put_indexes i bytes d d' :
  kv_view d' = write_view [Put (idx_meta_key (idx_name i)) bytes] (kv_view d) →
  index_from_slice bytes = Some i → kv_get (idx_meta_key (idx_name i)) d ≫= index_from_slice = None →
  (∀ k, doc_of d' k = doc_of d k) ∧ (∀ j, j ∈ get_all_indexes d' ↔ j ∈ get_all_indexes d ∨ j = i).
Proof.
  intros Hv Hbytes Hnone. pose proof (meta_put_get _ _ _ _ Hv) as Hg.
  split; [intros k; unfold doc_of; rewrite Hg; by rewrite decide_False|].
  intros j. unfold get_all_indexes. rewrite !metadata_elem. split.
  - intros (r & b & Hr & Hj). rewrite Hg in Hr. case_decide as Hd; [|left; eauto]. right. simplify_eq. congruence.
  - intros [(r & b & Hr & Hj)| ->].
    + exists r, b. rewrite Hg, decide_False; [done|]. intros Heq. rewrite Heq in Hnone.
      unfold idx_meta_key in *. rewrite Hr in Hnone. simpl in Hnone. congruence.
    + exists (idx_name i), bytes. rewrite Hg. by rewrite decide_True.
Qed.
Lemma entry_of_same indexes d d' e k : (∀ k', doc_of d' k' = doc_of d k') →
  entry_of indexes d' e k ↔ entry_of indexes d e k.
Proof. intros H. unfold entry_of. by setoid_rewrite H. Qed.

(** an index created on a collection of which the documents are stored under their
    keys enters exactly the documents that have a value for its fields: the entries stay
    those of the documents, now for the indexes there were and the new one, and no document
    changes. A store whose writes succeed is enough for the operation to succeed. *)
Theorem create_index_enters_documents c bytes i :
  consistent (db c) → names_ok (db c) → stored_keys (db c) → no_colon (idx_name i) = true →
  index_from_slice bytes = Some i → get_index (idx_name i) c = None →
  ∃ c', create_index bytes (idx_name i) (idx_fields i) c = (Ok tt, c') ∧ consistent (db c') ∧ names_ok (db c') ∧
    (∀ k, doc_of (db c') k = doc_of (db c) k) ∧
    (∀ j, j ∈ get_all_indexes (db c') ↔ j ∈ get_all_indexes (db c) ∨ j = i).
Proof.
  intros Hc Hn Hs Hcol Hbytes Hnone.
  destruct (create_index_view c bytes (idx_name i) (idx_fields i) Hnone) as (d1 & c' & Hrun & Hd1 & Hv).
  exists c'. split; [exact Hrun|]. set (ops := index_puts _ _ _) in Hv.
  pose proof (index_puts_form (idx_name i) (idx_fields i) (all (set_db d1 c))) as [Hin Hputs]%Forall_and.
  destruct (view_in_index ops d1 (db c') Hin Hv) as [Hdoc2 Hidx2].
  destruct (meta_put_indexes i bytes (db c) d1 Hd1 Hbytes Hnone) as [Hdoc1 Hidx1].
  assert (∀ k, doc_of (db c') k = doc_of (db c) k) as Hdoc by (intros k; by rewrite Hdoc2, Hdoc1).
  setoid_rewrite Hidx1 in Hidx2.
  assert (names_ok (db c')) as Hn'.
  { apply Forall_forall. intros j [Hj| ->]%Hidx2; [|done]. by apply (proj1 (Forall_forall _ _) Hn). }
  split_and!; [|done..].
  assert (stored_keys (db (set_db d1 c))) as Hs1 by (intros k x; cbn [db set_db]; rewrite Hdoc1; apply Hs).
  apply (puts_consistent (get_all_indexes (db c)) [i] ops d1 (db c') Hn'); [|exact Hputs| | |].
  - intros j. by rewrite Hidx2, list_elem_of_singleton.
  - intros e v. unfold ops. rewrite index_puts_elem, (entry_of_same [i] d1) by done. unfold entry_of.
    setoid_rewrite list_elem_of_singleton. split.
    + intros (x & Hx & Hk & He). assert (doc_of d1 v = Some x) as Hdv by (by apply (stored_elem (set_db d1 c))).
      destruct (Hs1 v x Hdv) as [Hp _]. split; [done|]. by exists x, i.
    + intros (Hp & x & j & Hx & -> & He). exists x.
      apply (stored_elem (set_db d1 c)) in Hx as [? ?]; done.
  - intros e _. by apply view_get.
  - intros e v He. rewrite (meta_put_get _ _ _ _ Hd1), decide_False by by apply meta_key_not_idx.
    rewrite entry_of_same by done. exact (proj1 (consistent_entries (db c)) Hc e v He).
Qed.
(** *** drop_index *)

Lemma drop_index_view c n i : get_index n c = Some i → ∃ c', drop_index n c = (Ok tt, c') ∧
  kv_view (db c') = write_view (Del (idx_meta_key n) :: dels (scan_prefix (index_prefix n) (db c)).*1) (kv_view (db c)).
Proof.
  intros Hi. unfold drop_index. rewrite Hi. set (ops := dels _).
  destruct (flush_loop_ok "Failed to write drop batch" [Del (idx_meta_key n)] 0 ops c) as (b & m & c1 & Hfl). rewrite Hfl.
  pose proof (flush_loop_view _ _ _ _ _ _ _ _ ltac:(by right) Hfl) as (Hv & _ & _). cbn [app] in Hv.
  destruct (Nat.ltb 0 m || negb (Nat.eqb (length b) 0)) eqn:E.
  - destruct (write_ok "Failed to write final drop batch" b c1) as (d3 & -> & Hd3).
    eexists. split; [done|]. cbn [db set_db]. by rewrite Hd3, Hv.
  - eexists. split; [done|]. apply orb_false_iff in E as [_ E%negb_false_iff%Nat.eqb_eq].
    destruct b; [exact Hv|done].
Qed.
Lemma entry_key_prefix k (v : Value) i e : entry_key_for k v i = Some e →
  starts_with (index_prefix (idx_name i)) e = true.
Proof.
  unfold entry_key_for. destruct (all_null _); [done|]. intros [= <-].
  assert (∀ n a b t : string, IDX_PREFIX +:+ (n +:+ (a +:+ (b +:+ t))) = (IDX_PREFIX +:+ (n +:+ a)) +:+ (b +:+ t))
    as Hs by (intros; by rewrite !str_app_assoc).
  unfold idx_entry_key, index_prefix. rewrite Hs. apply starts_with_app.
Qed.
Lemma index_prefix_inj n m e : no_colon n = true → no_colon m = true →
  starts_with (index_prefix n) e = true → starts_with (index_prefix m) e = true → n = m.
Proof.
  intros Hn Hm [r ->]%starts_with_split [r' H]%starts_with_split. unfold index_prefix in H.
  rewrite !str_app_assoc in H. apply str_app_inj_l in H. by apply separated_inj in H as [-> _].
Qed.

Lemma drop_get c c' n :
  kv_view (db c') = write_view (Del (idx_meta_key n) :: dels (scan_prefix (index_prefix n) (db c)).*1) (kv_view (db c)) →
  ∀ e, kv_get e (db c') = if decide (idx_meta_key n = e) then None
    else if starts_with (index_prefix n) e then None else kv_get e (db c).
Proof.
  intros Hv e. rewrite (view_get _ _ _ e Hv). cbn [foldl write_key]. rewrite dels_read.
  case_decide as He; case_decide as Hm; [done| |done|].
  - apply list_elem_of_fmap in He as ([e' w] & He' & [Hp _]%scan_prefix_elem). cbn [fst] in He'. subst e'. by rewrite Hp.
  - destruct (starts_with (index_prefix n) e) eqn:Hp; [|done].
    destruct (kv_get e (db c)) as [w|] eqn:Hw; [|done]. exfalso. apply He.
    apply list_elem_of_fmap. exists (e, w). split; [done|]. by apply scan_prefix_elem.
Qed.
Lemma get_index_listed n c i : get_index n c = Some i → meta_named (db c) →
  i ∈ get_all_indexes (db c) ∧ idx_name i = n.
Proof.
  unfold get_index. destruct (kv_get _ _) as [b|] eqn:Hb; [|done]. cbn. intros Hi Hmeta.
  split; [|by apply (Hmeta n b)]. unfold get_all_indexes. apply metadata_elem. by exists n, b.
Qed.

(** dropping an index takes away its record and exactly its entries: the entries left
    are those of the documents for the other indexes, and the documents are the same. *)
Theorem drop_index_leaves_others c n i :
  consistent (db c) → names_ok (db c) → meta_named (db c) → get_index n c = Some i →
  ∃ c', drop_index n c = (Ok tt, c') ∧ consistent (db c') ∧ names_ok (db c') ∧
    (∀ k, doc_of (db c') k = doc_of (db c) k) ∧
    (∀ j, j ∈ get_all_indexes (db c') ↔ j ∈ get_all_indexes (db c) ∧ idx_name j ≠ n).
Proof.
  intros Hc Hn Hmeta Hi. destruct (drop_index_view c n i Hi) as (c' & Hrun & Hv). exists c'. split; [exact Hrun|].
  pose proof (drop_get _ _ _ Hv) as Hg. destruct (get_index_listed _ _ _ Hi Hmeta) as [Hin Hname].
  pose proof (proj1 (Forall_forall _ _) Hn) as Hnames.
  assert (∀ k, doc_of (db c') k = doc_of (db c) k) as Hdoc by (intros k; unfold doc_of; rewrite Hg; by rewrite decide_False).
  assert (∀ j, j ∈ get_all_indexes (db c') ↔ j ∈ get_all_indexes (db c) ∧ idx_name j ≠ n) as Hall.
  { intros j. unfold get_all_indexes. rewrite !metadata_elem. split.
    - intros (r & b & Hr & Hj). rewrite Hg in Hr. case_decide as Hd; [done|].
      assert (starts_with (index_prefix n) (IDX_META_PREFIX +:+ r) = false) as Hp by done. rewrite Hp in Hr.
      split; [eauto|]. rewrite (Hmeta r b j Hr Hj). intros ->. by apply Hd.
    - intros [(r & b & Hr & Hj) Hne]. exists r, b. rewrite Hg, decide_False; [done|].
      intros Heq%str_app_inj_l. subst r. apply Hne, (Hmeta n b j Hr Hj). }
  split_and!; [| |done..].
  - apply consistent_entries. intros e v He. rewrite Hg, decide_False by by apply meta_key_not_idx.
    rewrite entry_of_same by done. pose proof (proj1 (consistent_entries (db c)) Hc e v He) as Hold.
    destruct (starts_with (index_prefix n) e) eqn:Hp.
    + split; [done|]. intros (_ & x & j & _ & [Hj Hne]%Hall & Hk%entry_key_prefix). exfalso. apply Hne.
      apply (index_prefix_inj _ _ e); [by apply Hnames| |done..]. rewrite <- Hname. by apply Hnames.
    + rewrite Hold. split; intros (Hpl & x & j & Hx & Hj & Hk); (split; [done|]); exists x, j;
        (split; [done|]); rewrite Hall in *; [|naive_solver].
      repeat split; [done| |done]. intros Hnj. apply entry_key_prefix in Hk. rewrite Hnj in Hk. congruence.
  - apply Forall_forall. intros j [Hj _]%Hall. by apply Hnames.
Qed.

(** *** rebuild_all_indexes *)

(** Every entry is under the name of an index there is. *)
Definition entries_named d : Prop := ∀ e v, starts_with IDX_PREFIX e = true → kv_get e d = Some v →
  ∃ i, i ∈ get_all_indexes d ∧ starts_with (index_prefix (idx_name i)) e = true.

Lemma try_flush_loop_view batch count ops c :
  (count mod BATCH_SIZE_LIMIT = 0 → batch = []) →
  kv_view (db (try_flush_loop batch count ops c)) = write_view (batch ++ ops) (kv_view (db c)).
Proof.
  revert batch count c. induction ops as [|op ops IH]; intros batch count c Hb; cbn [try_flush_loop].
  - rewrite app_nil_r. destruct (Nat.ltb_spec 0 count) as [Hlt|Hge]; cbn [andb].
    + destruct (Nat.eqb_spec (count mod BATCH_SIZE_LIMIT) 0) as [E|E]; cbn [negb]; [by rewrite Hb|apply attempt_write_view].
    + assert (count = 0) as -> by lia. by rewrite Hb.
  - destruct (Nat.eqb_spec (S count mod BATCH_SIZE_LIMIT) 0) as [E|E]; rewrite IH by done.
    + by rewrite attempt_write_view, <- write_view_app, <- app_assoc.
    + by rewrite <- app_assoc.
Qed.
Lemma try_flush_fields_view batch fields c :
  kv_view (db (try_flush_fields batch (length batch) fields c)) = write_view (batch ++ concat fields) (kv_view (db c)).
Proof.
  revert batch c. induction fields as [|ops fields IH]; intros batch c; cbn [try_flush_fields concat].
  - rewrite app_nil_r. destruct batch; [done|]. cbn [length Nat.ltb Nat.leb]. apply attempt_write_view.
  - rewrite app_assoc. destruct (BATCH_SIZE_LIMIT <=? _).
    + change 0 with (length (@nil write_op)). by rewrite IH, attempt_write_view, <- write_view_app.
    + rewrite <- length_app. apply IH.
Qed.
(** The operations on the geo and full-text entries. *)
Definition side_prefixes : list string := [GEO_PREFIX; FT_PREFIX; FT_TERM_PREFIX].
Definition side (op : write_op) : Prop := Exists (λ p, starts_with p (op_target op) = true) side_prefixes.
Lemma side_entries op : side op → entries_only op ∧ starts_with IDX_PREFIX (op_target op) = false.
Proof.
  intros (p & Hp & H)%Exists_exists. unfold side_prefixes in Hp.
  repeat (apply elem_of_cons in Hp as [->|Hp] || apply elem_of_nil in Hp as []);
    (split; [split|]); (eapply prefixes_disjoint; [| |exact H]); done.
Qed.
Lemma side_view ops d d' : Forall side ops → kv_view d' = write_view ops (kv_view d) →
  (∀ k, doc_of d' k = doc_of d k) ∧ (∀ i, i ∈ get_all_indexes d' ↔ i ∈ get_all_indexes d) ∧
  (∀ e, starts_with IDX_PREFIX e = true → kv_get e d' = kv_get e d).
Proof.
  intros H Hv. assert (Forall entries_only ops) as He.
  { eapply Forall_impl; [exact H|]. intros op. apply side_entries. }
  destruct (entries_only_view ops d d' He Hv). split_and!; [done..|].
  intros e Hidx. rewrite (view_get _ _ _ e Hv). apply write_key_other. eapply Forall_impl; [exact H|].
  intros [e' w|e'] [_ Hs]%side_entries; cbn [op_target] in Hs; congruence.
Qed.
Lemma doc_geo_side l (x : Document) : Forall side (doc_geo_puts l x).
Proof.
  apply Forall_forall. intros op (i & _ & H)%list_elem_of_omap. cbn beta zeta in H. destruct (is_null _); [done|].
  destruct (value_to_vec _); [|done]. injection H as <-. left. apply starts_with_app.
Qed.
Lemma doc_fulltext_side l (x : Document) : Forall side (concat (doc_fulltext_fields l x)).
Proof.
  apply Forall_concat, Forall_forall. intros ops H%list_elem_of_In.
  apply in_flat_map in H as (i & _ & H). apply list_elem_of_In, list_elem_of_fmap in H as (f & -> & _).
  apply Forall_fmap, Forall_forall. intros e H. unfold fulltext_field_keys in H.
  destruct (as_str _) as [text|]; [|by apply elem_of_nil in H].
  apply elem_of_app in H as [H|H]; apply list_elem_of_fmap in H as (t & -> & _);
    unfold compose, side, side_prefixes, ft_term_key, ft_ngram_key; cbn [op_target]; rewrite !Exists_cons;
    auto using starts_with_app.
Qed.
Lemma Forall_bind {A B} (P : B → Prop) (f : A → list B) l : (∀ x, Forall P (f x)) → Forall P (l ≫= f).
Proof. intros H. induction l as [|x l IH]; [constructor|]. cbn. apply Forall_app. auto. Qed.
Lemma concat_bind {A B} (f : A → list (list B)) l : concat (l ≫= f) = l ≫= (λ x, concat (f x)).
Proof. induction l as [|x l IH]; [done|]. cbn. rewrite concat_app. by f_equal. Qed.

(** Clearing leaves no entry of a regular index. *)
Lemma only_dels_get ops e o : Forall (λ op, ∃ e', op = Del e') ops → (o ≠ None → Del e ∈ ops) →
  foldl (write_key e) o ops = None.
Proof.
  revert o. induction ops as [|op ops IH]; intros o Hall Ho; cbn [foldl].
  - destruct o; [|done]. by destruct (not_elem_of_nil _ (Ho ltac:(done))).
  - apply Forall_cons in Hall as [[e' ->] Hall]. apply IH; [done|]. cbn [write_key]. case_decide as Hd; [done|].
    intros Hne. destruct (proj1 (elem_of_cons _ _ _) (Ho Hne)); [congruence|done].
Qed.
Lemma dels_form l : Forall (λ op, ∃ e', op = Del e') (dels l).
Proof. apply Forall_fmap, Forall_true. by intros e; exists e. Qed.
Lemma Forall_flat_map {A B} (P : B → Prop) (f : A → list B) l : (∀ x, x ∈ l → Forall P (f x)) → Forall P (flat_map f l).
Proof.
  intros H. apply Forall_forall. intros y (x & Hx & Hy)%list_elem_of_In%in_flat_map.
  apply (proj1 (Forall_forall _ _) (H x ltac:(by apply list_elem_of_In))). by apply list_elem_of_In.
Qed.
Lemma clear_dels c : Forall (λ op, ∃ e', op = Del e') (clear_ops c).
Proof. unfold clear_ops. repeat (apply Forall_app; split); apply Forall_flat_map; intros; rewrite ?Forall_app; auto using dels_form. Qed.
Lemma scan_dels (P : write_op → Prop) p d : (∀ r, P (Del (p +:+ r))) → Forall P (dels (scan_prefix p d).*1).
Proof.
  intros H. apply Forall_fmap, Forall_fmap, Forall_forall. intros [e v] [Hp _]%scan_prefix_elem.
  apply starts_with_split in Hp as [r ->]. apply H.
Qed.
Lemma clear_entries c : Forall entries_only (clear_ops c).
Proof.
  unfold clear_ops. repeat (apply Forall_app; split); apply Forall_flat_map; intros; rewrite ?Forall_app;
    repeat split; apply scan_dels; done.
Qed.
Lemma clear_all c e v : entries_named (db c) → starts_with IDX_PREFIX e = true → kv_get e (db c) = Some v →
  Del e ∈ clear_ops c.
Proof.
  intros Hn He Hv. destruct (Hn e v He Hv) as (i & Hi & Hp). unfold clear_ops. apply elem_of_app. left.
  apply list_elem_of_In, in_flat_map. exists i. split; [by apply list_elem_of_In|].
  apply list_elem_of_In. unfold dels. apply list_elem_of_fmap. exists e. split; [done|].
  apply list_elem_of_fmap. exists (e, v). split; [done|]. by apply scan_prefix_elem.
Qed.
Lemma doc_index_puts_elem indexes docs e v : Put e v ∈ docs ≫= doc_index_puts indexes ↔
  ∃ x i, x ∈ docs ∧ key x = v ∧ i ∈ indexes ∧ entry_key_for v (to_value x) i = Some e.
Proof.
  rewrite list_elem_of_bind. unfold doc_index_puts, index_puts_of. cbn [fst snd]. split.
  - intros (x & (i & Hi & H)%list_elem_of_omap & Hx). destruct (entry_key_for _ _ _) eqn:E; [|done].
    injection H as <- <-. by exists x, i.
  - intros (x & i & Hx & <- & Hi & H). exists x. split; [|done]. apply list_elem_of_omap. exists i. by rewrite H.
Qed.
Lemma doc_index_puts_form indexes (x : Document) :
  Forall (λ op, in_index op ∧ ∃ e v, op = Put e v) (doc_index_puts indexes x).
Proof.
  apply Forall_forall. intros op (i & _ & H)%list_elem_of_omap. destruct (entry_key_for _ _ _) eqn:E; [|done].
  injection H as <-. split; [|by eexists _, _]. unfold entry_key_for in E. destruct (all_null _); [done|].
  injection E as <-. apply starts_with_app.
Qed.
(** Rebuilding reads the documents [all] reads. *)
Lemma scanned_docs d x : x ∈ omap (λ p : string * string, match deserialize_doc p.2 with Ok y => Some y | Err _ => None end)
    (scan_prefix DOC_PREFIX d) ↔ ∃ k, doc_of d k = Some x.
Proof.
  rewrite list_elem_of_omap. unfold doc_of. split.
  - intros ([e b] & [Hp Hg]%scan_prefix_elem & H). apply starts_with_split in Hp as [k ->]. exists k.
    change (kv_get (doc_key k) d = Some b) in Hg. rewrite Hg. done.
  - intros (k & H). destruct (kv_get (doc_key k) d) as [b|] eqn:Hg; [|done].
    exists (doc_key k, b). split; [|done]. apply scan_prefix_elem. split; [apply starts_with_app|done].
Qed.
Lemma rebuild_view c : entries_named (db c) → ∃ d1,
  (∀ k, doc_of d1 k = doc_of (db c) k) ∧ (∀ i, i ∈ get_all_indexes d1 ↔ i ∈ get_all_indexes (db c)) ∧
  (∀ e, starts_with IDX_PREFIX e = true → kv_get e d1 = None) ∧
  let docs := omap (λ p : string * string, match deserialize_doc p.2 with Ok y => Some y | Err _ => None end)
                (scan_prefix DOC_PREFIX d1) in
  ∃ d2, kv_view d2 = write_view (docs ≫= doc_index_puts (get_all_indexes (db c))) (kv_view d1) ∧
    let d' := db (rebuild_all_indexes c).2 in
    (∀ k, doc_of d' k = doc_of d2 k) ∧ (∀ i, i ∈ get_all_indexes d' ↔ i ∈ get_all_indexes d2) ∧
    (∀ e, starts_with IDX_PREFIX e = true → kv_get e d' = kv_get e d2).
Proof.
  intros Hnamed. unfold rebuild_all_indexes. destruct (_ && _ && _) eqn:Hempty.
  - apply andb_true_iff in Hempty as [[Hi _]%andb_true_iff _]. apply Nat.eqb_eq, nil_length_inv in Hi.
    exists (db c). rewrite Hi. split_and!; try done.
    + intros e He. destruct (kv_get e (db c)) as [v|] eqn:Hv; [|done].
      destruct (Hnamed e v He Hv) as (i & Hin & _). rewrite Hi in Hin. by apply elem_of_nil in Hin.
    + exists (db c). split; [|done]. cbn zeta. induction (omap _ _) as [|x l IH]; [done|exact IH].
  - pose proof (attempt_write_view (clear_ops c) c) as Hv1. set (c1 := try_write (clear_ops c) c) in *.
    destruct (entries_only_view _ _ _ (clear_entries c) Hv1) as [Hdoc1 Hidx1]. exists (db c1).
    split_and!; [done..| |].
    + intros e He. rewrite (view_get _ _ _ e Hv1). apply only_dels_get; [apply clear_dels|].
      destruct (kv_get e (db c)) eqn:Hv; [|done]. intros _. by eapply clear_all.
    + cbn zeta. set (docs := omap _ _). cbn [snd].
      set (c2 := try_flush_loop [] 0 (docs ≫= doc_index_puts _) c1). exists (db c2).
      split; [by apply (try_flush_loop_view [])|].
      set (c3 := try_flush_loop _ _ _ c2).
      assert (kv_view (db c3) = write_view (docs ≫= doc_geo_puts _) (kv_view (db c2))) as Hv3
        by by apply (try_flush_loop_view []).
      pose proof (try_flush_fields_view [] (docs ≫= doc_fulltext_fields (get_all_fulltext_indexes (db c))) c3) as Hv4.
      apply side_view in Hv3 as (Hd3 & Hi3 & He3); [|apply Forall_bind, doc_geo_side].
      apply side_view in Hv4 as (Hd4 & Hi4 & He4).
      2: { cbn [app]. rewrite concat_bind. apply Forall_bind, doc_fulltext_side. }
      cbn [length] in *. split_and!; [intros k; by rewrite Hd4, Hd3|intros i; by rewrite Hi4, Hi3|].
      intros e He. by rewrite He4, He3.
Qed.

(** whatever the entries of the indexes were, rebuilding makes them exactly those of
    the documents, and leaves the documents and the indexes. *)
Theorem rebuild_restores_indexes c :
  names_ok (db c) → stored_keys (db c) → entries_named (db c) →
  let c' := (rebuild_all_indexes c).2 in
  consistent (db c') ∧ (∀ k, doc_of (db c') k = doc_of (db c) k) ∧
  (∀ i, i ∈ get_all_indexes (db c') ↔ i ∈ get_all_indexes (db c)).
Proof.
  intros Hn Hs Hnamed c'.
  destruct (rebuild_view c Hnamed) as (d1 & Hd1 & Hi1 & He1 & d2 & Hv2 & Hd' & Hi' & He'). fold c' in Hd', Hi', He'.
  set (docs := omap _ _) in Hv2. set (ops := docs ≫= _) in Hv2.
  assert (Forall (λ op, in_index op ∧ ∃ e v, op = Put e v) ops) as [Hin Hputs]%Forall_and
    by apply Forall_bind, doc_index_puts_form.
  destruct (view_in_index ops d1 d2 Hin Hv2) as [Hd2 Hi2].
  assert (∀ k, doc_of (db c') k = doc_of (db c) k) as Hdoc by (intros k; by rewrite Hd', Hd2, Hd1).
  assert (∀ i, i ∈ get_all_indexes (db c') ↔ i ∈ get_all_indexes (db c)) as Hidx by (intros i; by rewrite Hi', Hi2, Hi1).
  split_and!; [|done..].
  assert (names_ok (db c')) as Hn'.
  { apply Forall_forall. intros j Hj%Hidx. by apply (proj1 (Forall_forall _ _) Hn). }
  apply (puts_consistent [] (get_all_indexes (db c)) ops d1 (db c') Hn'); [|exact Hputs| | |].
  - intros i. rewrite Hidx. set_solver.
  - intros e v. unfold ops. rewrite doc_index_puts_elem, (entry_of_same _ (db c)) by done. unfold entry_of.
    unfold docs. setoid_rewrite scanned_docs. setoid_rewrite Hd1. split.
    + intros (x & i & [k Hx] & <- & Hi & He). destruct (Hs k x Hx) as [Hp Hk]. subst k. split; [done|]. by exists x, i.
    + intros (Hp & x & i & Hx & Hi & He). exists x, i. destruct (Hs v x Hx). eauto 10.
  - intros e He. rewrite He' by done. by apply view_get.
  - intros e v He. rewrite He1 by done. split; [done|]. intros (_ & x & i & _ & []%elem_of_nil & _).
Qed.
End Reliable.
End Props.
End IndexLife.

(** ** On a concrete collection *)

Module IndexDemo.
Import IndexLife DocumentDemo CollectionDemo.

Lemma c2_stored : stored_keys (db c2).
Proof.
  intros k x. rewrite c2_docs. intros H. repeat case_decide; simplify_eq; (split; vm_compute; reflexivity).
Qed.
Lemma c2_meta : meta_named (db c2).
Proof.
  intros n bytes i Hg Hi.
  assert ((idx_meta_key n, bytes) ∈ kv_view (db c2)) as H by by apply view_elem.
  vm_compute in H. repeat (apply elem_of_cons in H as [[= Hn Hb]|H]); [..|by apply elem_of_nil in H];
    subst; vm_compute in Hi; try discriminate Hi; by injection Hi as <-.
Qed.

(** A collection with one index and a document, and the index [by_a] to be created. *)
Definition store_bc : map_store :=
  default empty_store (kv_write [Put (idx_meta_key "by_bc") "BC"] empty_store).
Definition cb0 : DemoCollection := mkCollection "db:c" "document" store_bc 0 0 false [] [].
Definition cb1 : DemoCollection := snd (insert "g1" "r1" 1 doc1 cb0).
Lemma cb0_consistent : consistent (db cb0) ∧ names_ok (db cb0).
Proof.
  split; [|by repeat constructor].
  intros e v He. assert (doc_of (db cb0) v = None) as -> by reflexivity.
  split; [|by intros [_ []%elem_of_nil]].
  apply starts_with_split in He as [r ->]. intros H. discriminate H.
Qed.
Lemma cb1_consistent : consistent (db cb1) ∧ names_ok (db cb1).
Proof.
  eapply (run_consistent (RInsert "g1" "r1" 1 doc1) cb0); [apply cb0_consistent..|by split|].
  cbn [run]. rewrite (surjective_pairing (insert _ _ _ _ _)). reflexivity.
Qed.
Lemma cb1_stored : stored_keys (db cb1).
Proof.
  intros k x E. assert (is_Some (doc_of (db cb1) k)) as H by by eexists.
  listed H; vm_compute in E; try discriminate E. injection E as <-. split; vm_compute; reflexivity.
Qed.
Lemma create_index_enters_documents_witness :
  ∃ c', create_index "A" "by_a" ["a"] cb1 = (Ok tt, c') ∧ kv_get (idx_entry_key "by_a" [Bool true : Value demo_number] "k1") (db c') = Some "k1".
Proof.
  destruct (create_index_enters_documents cb1 "A" by_a) as (c' & Hrun & Hc & _ & Hdoc & Hidx).
  - apply cb1_consistent.
  - apply cb1_consistent.
  - exact cb1_stored.
  - done.
  - done.
  - vm_compute. reflexivity.
  - exists c'. split; [exact Hrun|].
    apply (proj1 (consistent_entries (db c')) Hc); [apply starts_with_app|]. split; [done|].
    exists x1, by_a. rewrite Hdoc, Hidx. split_and!; [vm_compute; reflexivity|by right|vm_compute; reflexivity].
Defined.
Lemma drop_index_leaves_others_witness :
  ∃ c', drop_index "by_a" c2 = (Ok tt, c') ∧ consistent (db c') ∧ by_a ∉ get_all_indexes (db c').
Proof.
  destruct (drop_index_leaves_others c2 "by_a" by_a) as (c' & Hrun & Hc & _ & _ & Hidx);
    [apply c2_consistent..|exact c2_meta|vm_compute; reflexivity|].
  exists c'. split_and!; [exact Hrun|exact Hc|]. rewrite Hidx. by intros [_ H].
Defined.

(** An entry that belongs to no document. *)
Definition broken : DemoCollection :=
  try_write [Put (idx_entry_key "by_a" [JString "gone" : Value demo_number] "k9") "k9"] c2.
Lemma broken_docs k : doc_of (db broken) k = doc_of (db c2) k.
Proof.
  unfold doc_of. rewrite (view_get [Put (idx_entry_key "by_a" [JString "gone" : Value demo_number] "k9") "k9"] (db c2)).
  - cbn [foldl write_key]. by rewrite decide_False.
  - vm_compute. reflexivity.
Qed.
Lemma rebuild_restores_indexes_witness :
  ¬ consistent (db broken) ∧ consistent (db (rebuild_all_indexes broken).2).
Proof.
  split.
  - intros Hc. destruct (proj1 (Hc (idx_entry_key "by_a" [JString "gone" : Value demo_number] "k9") "k9" ltac:(apply starts_with_app)))
      as [_ H]; [vm_compute; reflexivity|]. rewrite broken_docs, c2_docs in H. by apply elem_of_nil in H.
  - apply rebuild_restores_indexes.
    + by repeat constructor.
    + intros k x. rewrite broken_docs. apply c2_stored.
    + intros e v He Hg. assert ((e, v) ∈ kv_view (db broken)) as H by by apply view_elem.
      change (get_all_indexes (db broken)) with [by_a; by_bc].
      vm_compute in H. repeat (apply elem_of_cons in H as [[= -> ->]|H]); [..|by apply elem_of_nil in H];
        try discriminate He; ((exists by_a; split; [by left|reflexivity]) || (exists by_bc; split; [by right; left|reflexivity])).
Defined.
End IndexDemo.
