(* ===== verification/SqlLexer.v ===== *)
(** * SQL: the lexer (src/sql/lexer.rs)

    The state is the rest of the characters, as in the lexer of SDBQL, whose
    characters, Unicode tables and number parsers are used. [tokenize_ends] shows
    that the fuel given is enough. *)

From S2P Require Import Prelude Text Json Transaction SdbqlLexer.

Module SqlToken.
Inductive Token :=
| Select | From | Where | Insert | Into | Values | Update | Set_ | Delete | Create | Drop | Table
| OrderBy | Order | By | GroupBy | Group | Having | Limit | Offset | As
| Join | Left | Right | Inner | Outer | On
| And | Or | Not
| Is | Null | Between | Like | In
| Count | Sum | Avg | Min | Max
| TTrue | TFalse
| Asc | Desc
| Identifier (s : string)
| Integer (n : Z)
| Float (bits : N)
| TString (s : string)
| Placeholder (s : string)
| Equal | NotEqual | LessThan | LessThanEq | GreaterThan | GreaterThanEq
| Plus | Minus | Star | Slash | Percent
| Comma | Dot | LeftParen | RightParen | Semicolon
| Eof.
#[export] Instance Token_eq : EqDecision Token.
Proof. solve_decision. Defined.
End SqlToken.

Module SqlLexer.
Import SqlToken.
Notation Token := SqlToken.Token.
Section SqlLexer.
Context `{char_tables : !CharTables} `{float_text : !FloatText}.
Implicit Types (l : list char).

Definition advance (l : list char) : list char := tail l.
Definition current_char (l : list char) : option char := head l.
Definition peek (l : list char) : option char := head (tail l).
Definition is_char (o : option char) (c : char) : bool :=
  match o with Some c' => String.eqb c' c | None => false end.

Fixpoint skip_whitespace (l : list char) : list char :=
  match l with
  | ch :: l' => if is_whitespace ch then skip_whitespace l' else l
  | [] => l
  end.
Fixpoint skip_line_comment (l : list char) : list char :=
  match l with
  | ch :: l' => if String.eqb ch Lexer.newline then l' else skip_line_comment l'
  | [] => l
  end.
(** The loop of [skip_block_comment]. *)
Fixpoint comment_end (l : list char) : list char :=
  match l with
  | ch :: l' => if String.eqb ch "*" && is_char (head l') "/" then tail l' else comment_end l'
  | [] => l
  end.
Definition skip_block_comment (l : list char) : list char := comment_end (advance (advance l)).

(** The loop of [read_number]: the text read, whether it has a point, the rest. *)
Fixpoint number_text (num_str : string) (has_dot : bool) (l : list char) : string * bool * list char :=
  match l with
  | ch :: l' =>
      if is_numeric ch then number_text (num_str +:+ ch) has_dot l'
      else if String.eqb ch "." && negb has_dot then
        match head l' with
        | Some next => if is_numeric next then number_text (num_str +:+ ch) true l' else (num_str, has_dot, l)
        | None => (num_str, has_dot, l)
        end
      else (num_str, has_dot, l)
  | [] => (num_str, has_dot, l)
  end.
Definition read_number (l : list char) : outcome (Token * list char) :=
  let '(num_str, has_dot, l') := number_text "" false l in
  t ← (if has_dot
       then or_fails (Float <$> parse_f64 num_str) (ParseError ("Invalid float number: " +:+ num_str))
       else or_fails (Integer <$> parse_i64 num_str) (ParseError ("Invalid integer number: " +:+ num_str)));
  Done (t, l').

(** The loop of [read_string]. *)
Fixpoint string_text (quote : char) (string : string) (l : list char) : outcome (Token * list char) :=
  match l with
  | [] => Fails (ParseError "Unterminated string")
  | ch :: l' =>
      if String.eqb ch quote then
        match l' with
        | ch2 :: l'' => if String.eqb ch2 quote then string_text quote (string +:+ quote) l''
                        else Done (TString string, l')
        | [] => Done (TString string, l')
        end
      else if String.eqb ch Lexer.backslash then
        match l' with
        | escaped :: l'' => string_text quote (string +:+ Lexer.unescape escaped) l''
        | [] => Fails (ParseError "Unterminated string")
        end
      else string_text quote (string +:+ ch) l'
  end.
Definition read_string (l : list char) : outcome (Token * list char) :=
  match current_char l with
  | None => Panics
  | Some quote => string_text quote "" (advance l)
  end.

Definition keywords : list (string * Token) :=
  [("SELECT", Select); ("FROM", From); ("WHERE", Where); ("INSERT", Insert); ("INTO", Into);
   ("VALUES", Values); ("UPDATE", Update); ("SET", Set_); ("DELETE", Delete); ("CREATE", Create);
   ("DROP", Drop); ("TABLE", Table); ("ORDER", Order); ("BY", By); ("GROUP", Group);
   ("HAVING", Having); ("LIMIT", Limit); ("OFFSET", Offset); ("AS", As); ("JOIN", Join);
   ("LEFT", Left); ("RIGHT", Right); ("INNER", Inner); ("OUTER", Outer); ("ON", On);
   ("AND", And); ("OR", Or); ("NOT", Not); ("IS", Is); ("NULL", Null); ("BETWEEN", Between);
   ("LIKE", Like); ("IN", In); ("COUNT", Count); ("SUM", Sum); ("AVG", Avg); ("MIN", Min);
   ("MAX", Max); ("TRUE", TTrue); ("FALSE", TFalse); ("ASC", Asc); ("DESC", Desc)].
Definition keyword_or_identifier (ident : string) : Token :=
  match Lexer.assoc (to_uppercase ident) keywords with Some t => t | None => Identifier ident end.
Definition read_identifier (l : list char) : Token * list char :=
  let '(ident, l') := Lexer.word_text "" l in (keyword_or_identifier ident, l').

Fixpoint quoted_text (closing : char) (ident : string) (l : list char) : outcome (Token * list char) :=
  match l with
  | ch :: l' =>
      if String.eqb ch closing then Done (Identifier ident, l') else quoted_text closing (ident +:+ ch) l'
  | [] => Fails (ParseError "Unterminated quoted identifier")
  end.
Definition read_quoted_identifier (l : list char) : outcome (Token * list char) :=
  match current_char l with
  | None => Panics
  | Some quote => quoted_text (if String.eqb quote "[" then "]" else quote) "" (advance l)
  end.

Definition read_placeholder (l : list char) : outcome (Token * list char) :=
  if is_char (current_char l) "?" then Done (Placeholder "?", advance l)
  else
    let '(name, l') := Lexer.word_text "" (advance l) in
    if String.eqb name "" then Fails (ParseError "Expected placeholder name after ':'")
    else Done (Placeholder name, l').

(** The operators: a first character, the tokens for a second one, and the token
    without it. *)
Definition operators : list (char * (list (char * Token) * Token)) :=
  [("=", ([], Equal));
   ("!", ([("=", NotEqual)], Not));
   ("<", ([("=", LessThanEq); (">", NotEqual)], LessThan));
   (">", ([("=", GreaterThanEq)], GreaterThan));
   ("+", ([], Plus)); ("-", ([], Minus)); ("*", ([], Star)); ("/", ([], Slash)); ("%", ([], Percent));
   (",", ([], Comma)); (".", ([], Dot)); ("(", ([], LeftParen)); (")", ([], RightParen));
   (";", ([], Semicolon))].
Definition read_operator (entry : list (char * Token) * Token) (l : list char) : Token * list char :=
  match current_char l ≫= λ c, Lexer.assoc c entry.1 with
  | Some t => (t, advance l)
  | None => (entry.2, l)
  end.

Fixpoint next_token (fuel : nat) (l : list char) : outcome (Token * list char) :=
  match fuel with
  | O => OutOfFuel
  | S fuel' =>
      let l := skip_whitespace l in
      match l with
      | [] => Done (Eof, l)
      | ch :: l' =>
          if String.eqb ch "-" && is_char (peek l) "-" then next_token fuel' (skip_line_comment l)
          else if String.eqb ch "/" && is_char (peek l) "*" then next_token fuel' (skip_block_comment l)
          else if is_numeric ch then read_number l
          else if String.eqb ch Lexer.apostrophe || String.eqb ch Lexer.quote_mark then read_string l
          else if String.eqb ch "`" || String.eqb ch "[" then read_quoted_identifier l
          else if is_alphabetic ch || String.eqb ch "_" then Done (read_identifier l)
          else if String.eqb ch "?" || String.eqb ch ":" then read_placeholder l
          else match Lexer.assoc ch operators with
               | Some entry => Done (read_operator entry l')
               | None => Fails (ParseError ("Unexpected character: " +:+ ch))
               end
      end
  end.
Fixpoint tokens_of (fuel : nat) (tokens : list Token) (l : list char) : outcome (list Token) :=
  match fuel with
  | O => OutOfFuel
  | S fuel' =>
      '(token, l') ← next_token (S (length l)) l;
      if decide (token = Eof) then Done (tokens ++ [token]) else tokens_of fuel' (tokens ++ [token]) l'
  end.
(** Every token but the last takes a character. *)
Definition tokenize (input : string) : outcome (list Token) :=
  tokens_of (S (length (chars input))) [] (chars input).

(** ** Consumption *)

Context `{char_laws : !CharTablesLaws}.

Lemma sql_skip_whitespace_suffix l : skip_whitespace l `suffix_of` l.
Proof.
  induction l as [|c l IH]; [done|]. cbn [skip_whitespace]. destruct (is_whitespace c); [|done].
  by apply suffix_cons_r.
Qed.
Lemma sql_line_comment_suffix l : skip_line_comment l `suffix_of` l.
Proof.
  induction l as [|c l IH]; [done|]. cbn [skip_line_comment].
  destruct (String.eqb c _); [by apply suffix_cons_r|by apply suffix_cons_r].
Qed.
Lemma sql_tail_suffix {A} (l : list A) : tail l `suffix_of` l.
Proof. destruct l; [done|by apply suffix_cons_r]. Qed.
Lemma sql_comment_end_suffix l : comment_end l `suffix_of` l.
Proof.
  induction l as [|c l IH]; [done|]. cbn [comment_end].
  destruct (_ && _); [|by apply suffix_cons_r]. apply suffix_cons_r, sql_tail_suffix.
Qed.
Lemma sql_number_text_suffix s d l : (number_text s d l).2 `suffix_of` l.
Proof.
  revert s d. induction l as [|c l IH]; intros s d; [done|]. cbn [number_text].
  destruct (is_numeric c); [by apply suffix_cons_r, IH|].
  destruct (_ && _); [|done]. destruct (head l) as [next|]; [|done].
  destruct (is_numeric next); [by apply suffix_cons_r, IH|done].
Qed.
Lemma sql_word_text_suffix s l : (Lexer.word_text s l).2 `suffix_of` l.
Proof.
  revert s. induction l as [|c l IH]; intros s; [done|]. cbn [Lexer.word_text].
  destruct (Lexer.word_char c); [by apply suffix_cons_r, IH|done].
Qed.

(** An outcome that is an error or leaves a suffix of [l]. *)
Definition leaves l (o : outcome (Token * list char)) : Prop :=
  match o with
  | Done (t, l') => t ≠ Eof ∧ l' `suffix_of` l
  | Fails e => is_parse_error e
  | Panics | OutOfFuel => False
  end.
Lemma sql_leaves_suffix l l' o : l' `suffix_of` l → leaves l' o → leaves l o.
Proof. intros Hl. destruct o as [[t l'']| | |]; [|done..]. intros [? ?]. split; [done|by etrans]. Qed.
Lemma sql_string_text_leaves q s l : leaves l (string_text q s l).
Proof.
  revert s. induction l as [l IH] using (induction_ltof1 _ length); unfold ltof in IH.
  destruct l as [|c l]; intros s; [done|]. cbn [string_text].
  destruct (String.eqb c q); [|destruct (String.eqb c Lexer.backslash)].
  - destruct l as [|c2 l]; [by split; [|apply suffix_cons_r]|]. destruct (String.eqb c2 q).
    + eapply sql_leaves_suffix; [|apply IH; simpl; lia]. by do 2 apply suffix_cons_r.
    + split; [done|by apply suffix_cons_r].
  - destruct l as [|c2 l]; [done|]. eapply sql_leaves_suffix; [|apply IH; simpl; lia]. by do 2 apply suffix_cons_r.
  - eapply sql_leaves_suffix; [|apply IH; simpl; lia]. by apply suffix_cons_r.
Qed.
Lemma sql_quoted_text_leaves q s l : leaves l (quoted_text q s l).
Proof.
  revert s. induction l as [|c l IH]; intros s; [done|]. cbn [quoted_text].
  destruct (String.eqb c q); [by split; [|apply suffix_cons_r]|].
  eapply sql_leaves_suffix; [|apply IH]. by apply suffix_cons_r.
Qed.
Lemma sql_assoc_elem {A} k (l : list (string * A)) a : Lexer.assoc k l = Some a → (k, a) ∈ l.
Proof.
  induction l as [|[k' a'] l IH]; [done|]. cbn [Lexer.assoc]. destruct (String.eqb_spec k k') as [->|_].
  - intros [= ->]. by left.
  - intros H. right. auto.
Qed.
Definition no_eof (t : Token) : bool := negb (bool_decide (t = Eof)).
Lemma sql_keyword_not_eof s : keyword_or_identifier s ≠ Eof.
Proof.
  unfold keyword_or_identifier. destruct (Lexer.assoc _ _) as [t|] eqn:H; [|done].
  apply sql_assoc_elem in H. assert (forallb (λ p, no_eof p.2) keywords = true) as Hall by by vm_compute.
  rewrite forallb_forall in Hall. specialize (Hall _ (proj1 (list_elem_of_In _ _) H)). unfold no_eof in Hall.
  cbn [snd] in Hall. apply negb_true_iff, bool_decide_eq_false in Hall. done.
Qed.
Lemma sql_operator_not_eof c entry l : Lexer.assoc c operators = Some entry →
  (read_operator entry l).1 ≠ Eof ∧ (read_operator entry l).2 `suffix_of` l.
Proof.
  intros H%sql_assoc_elem.
  assert (forallb (λ p, no_eof p.2.2 && forallb (λ q, no_eof q.2) p.2.1) operators = true) as Hall by by vm_compute.
  rewrite forallb_forall in Hall. specialize (Hall _ (proj1 (list_elem_of_In _ _) H)). cbn [snd] in Hall.
  apply andb_true_iff in Hall as [He Hs]. unfold read_operator, current_char.
  destruct (head l ≫= λ c, Lexer.assoc c entry.1) as [t|] eqn:E; cbn [fst snd].
  - split; [|apply sql_tail_suffix]. destruct (head l) as [c'|]; [|done]. cbn in E. apply sql_assoc_elem in E.
    rewrite forallb_forall in Hs. specialize (Hs _ (proj1 (list_elem_of_In _ _) E)).
    apply negb_true_iff, bool_decide_eq_false in Hs. done.
  - split; [|done]. apply negb_true_iff, bool_decide_eq_false in He. done.
Qed.
(** What reading one token gives: it takes at least a character. *)
Definition takes l (o : outcome (Token * list char)) : Prop :=
  match o with
  | Done (t, l') => t = Eof ∨ t ≠ Eof ∧ length l' < length l
  | Fails e => is_parse_error e
  | Panics | OutOfFuel => False
  end.
Lemma leaves_takes c l o : leaves l o → takes (c :: l) o.
Proof.
  destruct o as [[t l']| | |]; [|done..]. intros [Ht Hl]. right. split; [done|].
  apply suffix_length in Hl. simpl. lia.
Qed.
Lemma takes_le l l' o : length l' ≤ length l → takes l' o → takes l o.
Proof. destruct o as [[t l'']| | |]; [|done..]. simpl. naive_solver lia. Qed.
Lemma read_number_takes c l : is_numeric c = true → takes (c :: l) (read_number (c :: l)).
Proof.
  intros Hc. unfold read_number. cbn [number_text]. rewrite Hc.
  pose proof (sql_number_text_suffix ("" +:+ c) false l) as Hs.
  destruct (number_text _ _ l) as [[num d] l']. apply leaves_takes. cbn [snd] in Hs.
  destruct d; [destruct (parse_f64 num)|destruct (parse_i64 num)]; done.
Qed.
Lemma next_token_takes f l : length l < f → takes l (next_token f l).
Proof.
  revert l. induction f as [|f IH]; intros l Hf; [lia|]. cbn [next_token].
  pose proof (suffix_length _ _ (sql_skip_whitespace_suffix l)) as Hw.
  destruct (skip_whitespace l) as [|c l'] eqn:El; [by left|]. apply (takes_le l (c :: l')); [done|].
  clear El. destruct (String.eqb c "-" && _) eqn:E1; [|destruct (String.eqb c "/" && _) eqn:E2].
  - apply andb_true_iff in E1 as [->%String.eqb_eq _]. cbn [skip_line_comment String.eqb].
    pose proof (suffix_length _ _ (sql_line_comment_suffix l')) as Hl.
    eapply takes_le; [|apply IH]; simpl in *; lia.
  - unfold skip_block_comment, advance. cbn [tail].
    pose proof (suffix_length _ _ (sql_comment_end_suffix (tail l'))) as Hl.
    pose proof (suffix_length _ _ (sql_tail_suffix l')). eapply takes_le; [|apply IH]; simpl in *; lia.
  - destruct (is_numeric c) eqn:En; [by apply read_number_takes|].
    destruct (String.eqb c Lexer.apostrophe || _); [apply leaves_takes, sql_string_text_leaves|].
    destruct (String.eqb c "`" || _); [apply leaves_takes, sql_quoted_text_leaves|].
    destruct (is_alphabetic c || String.eqb c "_") eqn:Ea.
    { unfold read_identifier. cbn [Lexer.word_text]. unfold Lexer.word_char at 1.
      assert (is_alphanumeric c || String.eqb c "_" = true) as ->.
      { rewrite alphanumeric_or. apply orb_true_iff in Ea as [-> | ->]; by rewrite ?orb_true_r. }
      pose proof (sql_word_text_suffix ("" +:+ c) l') as Hs. destruct (Lexer.word_text _ l') as [w l''].
      apply leaves_takes. split; [apply sql_keyword_not_eof|done]. }
    destruct (String.eqb c "?" || _).
    { apply leaves_takes. unfold read_placeholder. cbn [current_char head is_char]. destruct (String.eqb c "?"); [by split|].
      unfold advance. cbn [tail]. pose proof (sql_word_text_suffix "" l') as Hs. destruct (Lexer.word_text "" l') as [w l''].
      destruct (String.eqb w ""); [done|by split]. }
    destruct (Lexer.assoc c operators) as [entry|] eqn:Eo; [|done].
    apply leaves_takes. pose proof (sql_operator_not_eof c entry l' Eo). by destruct (read_operator entry l').
Qed.
Lemma tokens_of_ends f acc l : length l < f →
  match tokens_of f acc l with
  | Done ts => ∃ ts', ts = acc ++ ts' ++ [Eof] ∧ Eof ∉ ts' ∧ length ts' ≤ length l
  | Fails e => is_parse_error e
  | Panics | OutOfFuel => False
  end.
Proof.
  revert acc l. induction f as [|f IH]; intros acc l Hf; [lia|]. cbn [tokens_of].
  pose proof (next_token_takes (S (length l)) l ltac:(lia)) as Ht.
  destruct (next_token _ l) as [[t l']|e| |]; [|done..]. cbn [mbind outcome_mbind outcome_bind].
  destruct (decide (t = Eof)) as [->|Hne]; [by exists []; split_and!; [|set_solver|simpl; lia]|].
  destruct Ht as [?|[_ Hl]]; [done|]. specialize (IH (acc ++ [t]) l' ltac:(lia)).
  destruct (tokens_of f _ l') as [ts|e| |]; [|done..]. destruct IH as (ts' & -> & Hnot & Hlen).
  exists (t :: ts'). split_and!; [by rewrite <- app_assoc|set_solver|simpl; lia].
Qed.
(** The lexer answers every input: with an error, or with tokens that end with the
    only [Eof] among them. *)
Lemma tokenize_ends input :
  match tokenize input with
  | Done ts => ∃ ts', ts = ts' ++ [Eof] ∧ Eof ∉ ts' ∧ length ts' ≤ String.length input
  | Fails e => is_parse_error e
  | Panics | OutOfFuel => False
  end.
Proof.
  unfold tokenize. pose proof (tokens_of_ends (S (length (chars input))) [] (chars input) ltac:(lia)) as H.
  destruct (tokens_of _ _ _) as [ts|e| |]; [|done..]. destruct H as (ts' & -> & Hn & Hl). exists ts'.
  split_and!; [done|done|]. etrans; [exact Hl|]. rewrite <- Lexer.bytes_chars.
  apply Lexer.bytes_length, Lexer.chars_nonempty.
Qed.
End SqlLexer.
End SqlLexer.
