(* ===== verification/SqlParser.v ===== *)
(** * SQL: syntax and parser (src/sql/parser.rs)

    The parser keeps the tokens and a position; every access is at the position, so
    its state here is the rest of the tokens, and [advance] at the end changes
    nothing. [parse_expression] ties the recursion of the expression levels with
    fuel, a loop runs on the number of the tokens left; [parse_sql_ends] shows that
    both are enough. [token_debug] is the output of [#[derive(Debug)]]. *)

From S2P Require Import Prelude Text Json Transaction SdbqlLexer SqlLexer.

(** ** Syntax *)

Module SqlAst.
Inductive BinaryOp :=
| Eq | NotEq | Lt | LtEq | Gt | GtEq | And | Or | Plus | Minus | Multiply | Divide | Modulo | Like.
Inductive SqlExpr :=
| Column (name : string)
| QualifiedColumn (table column : string)
| Integer (n : Z)
| Float (bits : N)
| EString (s : string)
| Boolean (b : bool)
| Null
| Placeholder (name : string)
| Binary (left : SqlExpr) (op : BinaryOp) (right : SqlExpr)
| Not (e : SqlExpr)
| IsNull (e : SqlExpr)
| IsNotNull (e : SqlExpr)
| Between (e low high : SqlExpr)
| InList (e : SqlExpr) (list : list SqlExpr)
| Function (name : string) (args : list SqlExpr).
Inductive SelectColumn :=
| Star
| SColumn (name : string) (alias : option string)
| SFunction (name : string) (args : list SqlExpr) (alias : option string)
| SExpression (expr : SqlExpr) (alias : option string).
Inductive JoinType := Inner | Left | Right.
Record JoinClause := mkJoin {
  join_type : JoinType; join_table : string; join_alias : option string; on_condition : SqlExpr }.
Record OrderByItem := mkOrderBy { order_column : string; descending : bool }.
Record SelectStatement := mkSelect {
  columns : list SelectColumn;
  from : string;
  from_alias : option string;
  joins : list JoinClause;
  where_clause : option SqlExpr;
  group_by : list string;
  having : option SqlExpr;
  order_by : list OrderByItem;
  limit : option Z;
  offset : option Z;
}.
Record InsertStatement := mkInsert {
  insert_table : string; insert_columns : option (list string); values : list (list SqlExpr) }.
Record UpdateStatement := mkUpdate {
  update_table : string; assignments : list (string * SqlExpr); update_where : option SqlExpr }.
Record DeleteStatement := mkDelete { delete_table : string; delete_where : option SqlExpr }.
Inductive SqlStatement :=
| Select (s : SelectStatement)
| Insert (s : InsertStatement)
| Update (s : UpdateStatement)
| Delete (s : DeleteStatement).
End SqlAst.

(** ** The monad of the parser *)

Notation SqlTok := SqlToken.Token.
Definition SP (A : Type) : Type := list SqlTok → outcome (A * list SqlTok).
#[export] Instance SP_ret : MRet SP := λ A a s, Done (a, s).
#[export] Instance SP_bind : MBind SP := λ A B k m s,
  match m s with
  | Done (a, s') => k a s'
  | Fails e => Fails e
  | Panics => Panics
  | OutOfFuel => OutOfFuel
  end.
Class SqlTokenDebug := token_debug : SqlTok → string.

Module SqlParse.
Import SqlToken.
Import SqlAst (SqlExpr, SelectColumn, JoinClause, OrderByItem, SqlStatement).
Section SqlParse.
Context `{char_tables : !CharTables} `{float_text : !FloatText} `{sql_debug : !SqlTokenDebug}.

Definition parse_error {A} (msg : string) : SP A := λ s, Fails (ParseError msg).
Definition current_token : SP SqlTok := λ s, Done (default Eof (head s), s).
Definition advance : SP () := λ s, Done ((), tail s).
Definition expect (expected : SqlTok) : SP () :=
  t ← current_token;
  if decide (t = expected) then advance
  else parse_error ("Expected " +:+ token_debug expected +:+ ", found " +:+ token_debug t).
Definition expect_identifier : SP string :=
  t ← current_token;
  match t with
  | Identifier name | TString name => advance;; mret name
  | other => parse_error ("Expected identifier, found " +:+ token_debug other)
  end.

(** One turn more than the tokens left. *)
Definition looping {A} (body : nat → SP A) : SP A := λ s, body (S (length s)) s.
Fixpoint iterate {A} (step : A → SP (option A)) (fuel : nat) (x : A) : SP A :=
  match fuel with
  | O => λ s, OutOfFuel
  | S fuel' =>
      o ← step x;
      match o with
      | None => mret x
      | Some x' => iterate step fuel' x'
      end
  end.
Definition iterate_from {A} (step : A → SP (option A)) (x : A) : SP A :=
  looping (λ fuel, iterate step fuel x).
(** [loop { items.push(item); if Comma { advance } else { break } }] *)
Fixpoint comma_loop {A} (item : SP A) (fuel : nat) (items : list A) : SP (list A) :=
  match fuel with
  | O => λ s, OutOfFuel
  | S fuel' =>
      x ← item;
      t ← current_token;
      if decide (t = Comma) then advance;; comma_loop item fuel' (items ++ [x]) else mret (items ++ [x])
  end.
Definition comma_separated {A} (item : SP A) : SP (list A) := looping (λ fuel, comma_loop item fuel []).

(** ** Expressions *)

Section Levels.
Context (rec : SP SqlExpr).

Definition parse_expression_list : SP (list SqlExpr) := comma_separated rec.
Definition aggregate_name (t : SqlTok) : option string :=
  match t with
  | Count => Some "COUNT" | Sum => Some "SUM" | Avg => Some "AVG" | Min => Some "MIN" | Max => Some "MAX"
  | _ => None
  end.
(** The arguments of an aggregate inside an expression. *)
Definition aggregate_args : SP (list SqlExpr) :=
  t ← current_token;
  match t with
  | Star => advance;; mret [SqlAst.Column "*"]
  | RightParen => mret []
  | _ => parse_expression_list
  end.
Definition parse_named (name : string) : SP SqlExpr :=
  t ← current_token;
  match t with
  | LeftParen =>
      advance;;
      t ← current_token;
      args ← (if decide (t = RightParen) then mret [] else parse_expression_list);
      expect RightParen;;
      mret (SqlAst.Function name args)
  | Dot => advance;; column ← expect_identifier; mret (SqlAst.QualifiedColumn name column)
  | _ => mret (SqlAst.Column name)
  end.
Definition parse_primary_expression : SP SqlExpr :=
  t ← current_token;
  match t with
  | Integer n => advance;; mret (SqlAst.Integer n)
  | Float n => advance;; mret (SqlAst.Float n)
  | TString s => advance;; mret (SqlAst.EString s)
  | TTrue => advance;; mret (SqlAst.Boolean true)
  | TFalse => advance;; mret (SqlAst.Boolean false)
  | Null => advance;; mret SqlAst.Null
  | Placeholder name => advance;; mret (SqlAst.Placeholder name)
  | LeftParen => advance;; e ← rec; expect RightParen;; mret e
  | Identifier name => advance;; parse_named name
  | t =>
      match aggregate_name t with
      | Some name =>
          advance;; expect LeftParen;;
          args ← aggregate_args;
          expect RightParen;;
          mret (SqlAst.Function name args)
      | None => parse_error ("Unexpected token in expression: " +:+ token_debug t)
      end
  end.
(** [loop { match op { Some(op) => { advance; left = left op next } None => break } }] *)
Definition binary_step (op_of : SqlTok → option SqlAst.BinaryOp) (next : SP SqlExpr) (left : SqlExpr) : SP (option SqlExpr) :=
  t ← current_token;
  match op_of t with
  | Some op => advance;; right ← next; mret (Some (SqlAst.Binary left op right))
  | None => mret None
  end.
Definition binary_level (op_of : SqlTok → option SqlAst.BinaryOp) (next : SP SqlExpr) : SP SqlExpr :=
  left ← next; iterate_from (binary_step op_of next) left.
Definition multiplicative_op (t : SqlTok) : option SqlAst.BinaryOp :=
  match t with
  | Star => Some SqlAst.Multiply | Slash => Some SqlAst.Divide | Percent => Some SqlAst.Modulo | _ => None
  end.
Definition additive_op (t : SqlTok) : option SqlAst.BinaryOp :=
  match t with Plus => Some SqlAst.Plus | Minus => Some SqlAst.Minus | _ => None end.
Definition parse_multiplicative_expression : SP SqlExpr := binary_level multiplicative_op parse_primary_expression.
Definition parse_additive_expression : SP SqlExpr := binary_level additive_op parse_multiplicative_expression.

Definition comparison_op (t : SqlTok) : option SqlAst.BinaryOp :=
  match t with
  | Equal => Some SqlAst.Eq | NotEqual => Some SqlAst.NotEq | LessThan => Some SqlAst.Lt
  | LessThanEq => Some SqlAst.LtEq | GreaterThan => Some SqlAst.Gt | GreaterThanEq => Some SqlAst.GtEq
  | _ => None
  end.
Definition parse_is (left : SqlExpr) : SP SqlExpr :=
  t ← current_token;
  if decide (t = Not) then advance;; expect Null;; mret (SqlAst.IsNotNull left)
  else expect Null;; mret (SqlAst.IsNull left).
Definition parse_comparison_expression : SP SqlExpr :=
  left ← parse_additive_expression;
  t ← current_token;
  match t with
  | Is => advance;; parse_is left
  | Between =>
      advance;; low ← parse_additive_expression; expect And;; high ← parse_additive_expression;
      mret (SqlAst.Between left low high)
  | In =>
      advance;; expect LeftParen;; list ← parse_expression_list; expect RightParen;;
      mret (SqlAst.InList left list)
  | Like => advance;; right ← parse_additive_expression; mret (SqlAst.Binary left SqlAst.Like right)
  | t =>
      match comparison_op t with
      | Some op => advance;; right ← parse_additive_expression; mret (SqlAst.Binary left op right)
      | None => mret left
      end
  end.
(** [parse_not_expression] calls itself behind a NOT. *)
Fixpoint not_loop (fuel : nat) : SP SqlExpr :=
  match fuel with
  | O => λ s, OutOfFuel
  | S fuel' =>
      t ← current_token;
      if decide (t = Not) then advance;; e ← not_loop fuel'; mret (SqlAst.Not e)
      else parse_comparison_expression
  end.
Definition parse_not_expression : SP SqlExpr := looping not_loop.
Definition and_op (t : SqlTok) : option SqlAst.BinaryOp := match t with And => Some SqlAst.And | _ => None end.
Definition or_op (t : SqlTok) : option SqlAst.BinaryOp := match t with Or => Some SqlAst.Or | _ => None end.
Definition parse_and_expression : SP SqlExpr := binary_level and_op parse_not_expression.
Definition parse_or_expression : SP SqlExpr := binary_level or_op parse_and_expression.
End Levels.

Fixpoint parse_expression (fuel : nat) : SP SqlExpr :=
  match fuel with
  | O => λ s, OutOfFuel
  | S fuel' => parse_or_expression (parse_expression fuel')
  end.

(** ** Statements *)

Section Statements.
Context (rec : SP SqlExpr).

Definition qualified (name : string) : SP string :=
  t ← current_token;
  if decide (t = Dot) then advance;; col ← expect_identifier; mret (name +:+ "." +:+ col) else mret name.
Definition parse_optional_alias : SP (option string) :=
  t ← current_token;
  match t with
  | As => advance;; name ← expect_identifier; mret (Some name)
  | Identifier name => advance;; mret (Some name)
  | _ => mret None
  end.
Definition parse_select_column : SP SelectColumn :=
  t ← current_token;
  if decide (t = Star) then advance;; mret SqlAst.Star
  else
    match aggregate_name t with
    | Some name =>
        advance;; expect LeftParen;;
        t ← current_token;
        args ← (if decide (t = Star) then advance;; mret [SqlAst.Column "*"] else parse_expression_list rec);
        expect RightParen;;
        alias ← parse_optional_alias;
        mret (SqlAst.SFunction name args alias)
    | None =>
        name ← expect_identifier;
        column_name ← qualified name;
        alias ← parse_optional_alias;
        mret (SqlAst.SColumn column_name alias)
    end.
Definition parse_select_columns : SP (list SelectColumn) := comma_separated parse_select_column.
Definition parse_identifier_list : SP (list string) :=
  comma_separated (name ← expect_identifier; qualified name).
Definition parse_order_by_list : SP (list OrderByItem) :=
  comma_separated (
    column ← expect_identifier;
    t ← current_token;
    descending ← (if decide (t = Desc) then advance;; mret true
                  else if decide (t = Asc) then advance;; mret false else mret false);
    mret (SqlAst.mkOrderBy column descending)).

(** The keyword that starts a join. *)
Definition outer_join (ty : SqlAst.JoinType) : SP (option SqlAst.JoinType) :=
  advance;;
  t ← current_token;
  (if decide (t = Outer) then advance else mret ());;
  expect Join;;
  mret (Some ty).
Definition parse_join_type : SP (option SqlAst.JoinType) :=
  t ← current_token;
  match t with
  | Join => advance;; mret (Some SqlAst.Inner)
  | Inner => advance;; expect Join;; mret (Some SqlAst.Inner)
  | Left => outer_join SqlAst.Left
  | Right => outer_join SqlAst.Right
  | _ => mret None
  end.
Definition parse_join : SP (option JoinClause) :=
  ty ← parse_join_type;
  match ty with
  | None => mret None
  | Some ty =>
      table ← expect_identifier;
      alias ← parse_optional_alias;
      expect On;;
      on_condition ← rec;
      mret (Some (SqlAst.mkJoin ty table alias on_condition))
  end.
Definition parse_join_clauses : SP (list JoinClause) :=
  iterate_from (λ joins, o ← parse_join; mret ((λ j, joins ++ [j]) <$> o)) [].

(** [if current == keyword { advance; Some(parse) } else { None }] *)
Definition optional {A} (keyword : SqlTok) (parse : SP A) : SP (option A) :=
  t ← current_token;
  if decide (t = keyword) then advance;; x ← parse; mret (Some x) else mret None.
Definition by_list {A} (parse : SP (list A)) : SP (list A) := expect By;; parse.
Definition integer_after (keyword : string) : SP Z :=
  t ← current_token;
  match t with
  | Integer n => advance;; mret n
  | _ => parse_error ("Expected integer after " +:+ keyword)
  end.

Definition parse_select : SP SqlStatement :=
  expect Select;;
  columns ← parse_select_columns;
  expect From;;
  from ← expect_identifier;
  from_alias ← parse_optional_alias;
  joins ← parse_join_clauses;
  where_clause ← optional Where rec;
  group_by ← optional Group (by_list parse_identifier_list);
  having ← optional Having rec;
  order_by ← optional Order (by_list parse_order_by_list);
  limit ← optional Limit (integer_after "LIMIT");
  offset ← optional Offset (integer_after "OFFSET");
  mret (SqlAst.Select (SqlAst.mkSelect columns from from_alias joins where_clause (default [] group_by)
          having (default [] order_by) limit offset)).

Definition parse_row : SP (list SqlExpr) :=
  expect LeftParen;; row ← parse_expression_list rec; expect RightParen;; mret row.
Definition parse_insert : SP SqlStatement :=
  expect Insert;; expect Into;;
  table ← expect_identifier;
  columns ← optional LeftParen (cols ← parse_identifier_list; expect RightParen;; mret cols);
  expect Values;;
  values ← comma_separated parse_row;
  mret (SqlAst.Insert (SqlAst.mkInsert table columns values)).
Definition parse_assignment : SP (string * SqlExpr) :=
  column ← expect_identifier; expect Equal;; value ← rec; mret (column, value).
Definition parse_update : SP SqlStatement :=
  expect Update;;
  table ← expect_identifier;
  expect Set_;;
  assignments ← comma_separated parse_assignment;
  where_clause ← optional Where rec;
  mret (SqlAst.Update (SqlAst.mkUpdate table assignments where_clause)).
Definition parse_delete : SP SqlStatement :=
  expect Delete;; expect From;;
  table ← expect_identifier;
  where_clause ← optional Where rec;
  mret (SqlAst.Delete (SqlAst.mkDelete table where_clause)).

Definition parse_statement : SP SqlStatement :=
  t ← current_token;
  stmt ← match t with
         | Select => parse_select
         | Insert => parse_insert
         | Update => parse_update
         | Delete => parse_delete
         | other => parse_error ("Unexpected token at start of statement: " +:+ token_debug other)
         end;
  t ← current_token;
  (if decide (t = Semicolon) then advance else mret ());;
  mret stmt.
End Statements.

(** [SqlParser::new(input)?.parse()] *)
Definition parse_with (fuel : nat) (tokens : list SqlTok) : outcome (SqlStatement) :=
  '(stmt, _) ← parse_statement (parse_expression fuel) tokens; Done stmt.
Definition parse (input : string) : outcome SqlStatement :=
  tokens ← SqlLexer.tokenize input; parse_with (S (length tokens)) tokens.
End SqlParse.
End SqlParse.
