(* ===== verification/SqlTranslator.v ===== *)
(** * SQL: the translation to SDBQL (src/sql/translator.rs)

    Every function writes text, as in the source. The map of the aliases is an
    association list; where the source walks the hash map its order is [hash_order].
    [f64_display] is the output of [f64]'s [Display]. *)

From S2P Require Import Prelude Text Json Transaction Indexes SdbqlLexer SqlLexer SqlParser.
Import Indexes SqlAst.

Class F64Display := f64_display : N → string.

Module Translator.
Section Translator.
Context `{char_tables : !CharTables} `{float_text : !FloatText} `{sql_debug : !SqlTokenDebug}.
Context `{std_text : !StdText} `{order : !HashOrder} `{f64_text : !F64Display}.

Definition show_i64 (z : Z) : string :=
  if (z <? 0)%Z then "-" +:+ dec (Z.abs_N z) else dec (Z.to_N z).
Definition join (sep : string) (l : list string) : string := String.concat sep l.
Definition newline : string := String "010" "".
Definition quote_mark : string := String "034" "".
(** [col.contains('.')] and [col.split('.').next_back()] *)
Definition contains_dot (s : string) : bool := negb (str_all (λ c, negb (Ascii.eqb c ".")) s).
Definition last_part (s : string) : string := default s (last (split_on "." s)).
Definition braces (fields : list string) : string := "{ " +:+ join ", " fields +:+ " }".

(** ** Expressions *)

Definition op_text (op : BinaryOp) : string :=
  match op with
  | Eq => "==" | NotEq => "!=" | Lt => "<" | LtEq => "<=" | Gt => ">" | GtEq => ">="
  | And => "AND" | Or => "OR" | Plus => "+" | Minus => "-" | Multiply => "*" | Divide => "/"
  | Modulo => "%" | Like => "LIKE"
  end.
Fixpoint translate_expr (doc_var : string) (expr : SqlExpr) : string :=
  match expr with
  | Column name => if String.eqb name "*" then doc_var else doc_var +:+ "." +:+ name
  | QualifiedColumn table column => table +:+ "." +:+ column
  | Integer n => show_i64 n
  | Float n => f64_display n
  | EString s => quote_mark +:+ replace_char "034" ("\" +:+ quote_mark) s +:+ quote_mark
  | Boolean b => if b then "true" else "false"
  | Null => "null"
  | Placeholder name => "@" +:+ name
  | Binary l op r => translate_expr doc_var l +:+ " " +:+ op_text op +:+ " " +:+ translate_expr doc_var r
  | Not inner => "NOT (" +:+ translate_expr doc_var inner +:+ ")"
  | IsNull inner => translate_expr doc_var inner +:+ " == null"
  | IsNotNull inner => translate_expr doc_var inner +:+ " != null"
  | Between expr low high =>
      let e := translate_expr doc_var expr in
      "(" +:+ e +:+ " >= " +:+ translate_expr doc_var low +:+ " AND " +:+ e +:+ " <= " +:+ translate_expr doc_var high +:+ ")"
  | InList expr list => translate_expr doc_var expr +:+ " IN [" +:+ join ", " (translate_expr doc_var <$> list) +:+ "]"
  | Function name args => to_uppercase name +:+ "(" +:+ join ", " (translate_expr doc_var <$> args) +:+ ")"
  end.
Fixpoint translate_join_expr (doc_var : string) (expr : SqlExpr) : string :=
  match expr with
  | QualifiedColumn table column => table +:+ "." +:+ column
  | Column name => name
  | Binary l op r =>
      translate_join_expr doc_var l +:+ " " +:+ op_text op +:+ " " +:+ translate_join_expr doc_var r
  | other => translate_expr doc_var other
  end.

(** ** Columns *)

Definition translate_aggregate_function (name : string) (args : list SqlExpr) (doc_var : string) (is_grouped : bool) : string :=
  let arg_str :=
    match args with
    | [] => ""
    | [Column col] =>
        if String.eqb col "*" then if is_grouped then "group" else doc_var
        else if is_grouped then "group[*]." +:+ col else doc_var +:+ "." +:+ col
    | _ => join ", " (translate_expr doc_var <$> args)
    end in
  let upper := to_uppercase name in
  if String.eqb upper "COUNT" && is_grouped then "LENGTH(group)"
  else if String.eqb upper "COUNT" then "LENGTH(" +:+ arg_str +:+ ")"
  else upper +:+ "(" +:+ arg_str +:+ ")".
Definition translate_select_column (doc_var : string) (is_grouped : bool) (col : SelectColumn) : string :=
  match col with
  | Star => doc_var
  | SColumn name alias =>
      if contains_dot name then default (last_part name) alias +:+ ": " +:+ name
      else default name alias +:+ ": " +:+ doc_var +:+ "." +:+ name
  | SFunction name args alias =>
      to_lowercase (default name alias) +:+ ": " +:+ translate_aggregate_function name args doc_var is_grouped
  | SExpression expr alias =>
      match alias with
      | Some a => a +:+ ": " +:+ translate_expr doc_var expr
      | None => translate_expr doc_var expr
      end
  end.
Definition translate_select_column_with_let (doc_var : string) (is_grouped : bool) (col : SelectColumn) : string :=
  match col with
  | SFunction _ _ (Some alias_name) =>
      if is_grouped then alias_name +:+ ": " +:+ alias_name else translate_select_column doc_var is_grouped col
  | _ => translate_select_column doc_var is_grouped col
  end.
Definition simple_columns (columns : list SelectColumn) : list string :=
  omap (λ c, match c with SColumn name None => Some name | _ => None end) columns.
Definition all_simple (columns : list SelectColumn) : bool :=
  Nat.eqb (length (simple_columns columns)) (length columns) && negb (Nat.eqb (length (simple_columns columns)) 0).
(** The variable of the join at a position. *)
Definition join_var (i : nat) (j : JoinClause) : string :=
  let v := default "" (join_alias j) in
  if String.eqb v "" then "j" +:+ dec (N.of_nat i) else v.
Definition simple_field (doc_var col : string) : string :=
  if contains_dot col then last_part col +:+ ": " +:+ col else col +:+ ": " +:+ doc_var +:+ "." +:+ col.
Definition one_or_object (fields : list string) : string :=
  match fields with [field] => field | _ => braces fields end.
Definition translate_columns (columns : list SelectColumn) (doc_var : string) (is_grouped : bool)
    (joins : list JoinClause) : string :=
  match columns with
  | [Star] =>
      match joins with
      | [] => doc_var
      | _ => "MERGE(" +:+ join ", " (doc_var :: imap join_var joins) +:+ ")"
      end
  | _ =>
      if all_simple columns then braces (simple_field doc_var <$> simple_columns columns)
      else one_or_object (translate_select_column doc_var is_grouped <$> columns)
  end.
Definition translate_columns_with_let (columns : list SelectColumn) (doc_var : string) (is_grouped : bool)
    (joins : list JoinClause) : string :=
  match columns with
  | [Star] => translate_columns columns doc_var is_grouped joins
  | _ =>
      if all_simple columns then translate_columns columns doc_var is_grouped joins
      else one_or_object (translate_select_column_with_let doc_var is_grouped <$> columns)
  end.

(** ** Aliases, HAVING and ORDER BY *)

Notation alias_map := (list (string * string)).
Definition add_alias (k v : string) (m : alias_map) : alias_map :=
  (k, v) :: List.filter (λ p, negb (String.eqb p.1 k)) m.
Definition alias_of (doc_var : string) (is_grouped : bool) (m : alias_map) (col : SelectColumn) : alias_map :=
  match col with
  | SFunction name args (Some alias_name) =>
      add_alias alias_name (translate_aggregate_function name args doc_var is_grouped) m
  | SColumn name (Some alias_name) =>
      add_alias alias_name (if contains_dot name then name else doc_var +:+ "." +:+ name) m
  | SExpression expr (Some alias_name) => add_alias alias_name (translate_expr doc_var expr) m
  | _ => m
  end.
Definition build_alias_map (columns : list SelectColumn) (doc_var : string) (is_grouped : bool) : alias_map :=
  foldl (alias_of doc_var is_grouped) [] columns.

Definition group_arg (arg : SqlExpr) : string :=
  match arg with
  | QualifiedColumn _ column => "group[*]." +:+ column
  | Column col => "group[*]." +:+ col
  | _ => "group"
  end.
Definition translate_having_expr_to_string (name : string) (args : list SqlExpr) : string :=
  let upper := to_uppercase name in
  if String.eqb upper "COUNT" then "LENGTH(group)"
  else if String.eqb upper "SUM" || String.eqb upper "AVG" || String.eqb upper "MIN" || String.eqb upper "MAX"
  then match args with
       | arg :: _ => upper +:+ "(" +:+ group_arg arg +:+ ")"
       | [] => upper +:+ "(group)"
       end
  else upper +:+ "(group)".
(** The operators of HAVING; the arithmetic ones become [>]. *)
Definition having_op (op : BinaryOp) : string :=
  match op with
  | Eq => "==" | NotEq => "!=" | Lt => "<" | LtEq => "<=" | Gt => ">" | GtEq => ">="
  | And => "AND" | Or => "OR"
  | _ => ">"
  end.
Fixpoint translate_having_with_let (aliases : alias_map) (expr : SqlExpr) : string :=
  match expr with
  | Function name args =>
      let agg_expr := translate_having_expr_to_string name args in
      match List.find (λ a, match Lexer.assoc a aliases with Some e => String.eqb e agg_expr | None => false end)
              (hash_order aliases.*1) with
      | Some alias_name => alias_name
      | None => agg_expr
      end
  | Binary l op r =>
      translate_having_with_let aliases l +:+ " " +:+ having_op op +:+ " " +:+ translate_having_with_let aliases r
  | Integer n => show_i64 n
  | Float n => f64_display n
  | _ => "true"
  end.
Definition direction (item : OrderByItem) : string := if descending item then "DESC" else "ASC".
Definition translate_order_by_with_aliases (doc_var : string) (aliases : alias_map) (item : OrderByItem) : string :=
  match Lexer.assoc (order_column item) aliases with
  | Some expr => expr +:+ " " +:+ direction item
  | None =>
      if contains_dot (order_column item) then order_column item +:+ " " +:+ direction item
      else doc_var +:+ "." +:+ order_column item +:+ " " +:+ direction item
  end.

(** ** Statements *)

Definition repeat_text (n : nat) (s : string) : string := String.concat "" (replicate n s).
Definition join_parts (doc_var : string) (i : nat) (j : JoinClause) : list string :=
  ["  FOR " +:+ join_var i j +:+ " IN " +:+ join_table j;
   "    FILTER " +:+ translate_join_expr doc_var (on_condition j)].
Definition collect_var (doc_var col : string) : string :=
  if contains_dot col then last_part col +:+ " = " +:+ col else col +:+ " = " +:+ doc_var +:+ "." +:+ col.
Definition let_part (indent : string) (aliases : alias_map) (col : SelectColumn) : option string :=
  match col with
  | SFunction _ _ (Some alias_name) =>
      (λ expr, indent +:+ "LET " +:+ alias_name +:+ " = " +:+ expr) <$> Lexer.assoc alias_name aliases
  | _ => None
  end.
Definition sort_item (doc_var : string) (is_grouped : bool) (aliases : alias_map) (item : OrderByItem) : string :=
  if is_grouped && bool_decide (is_Some (Lexer.assoc (order_column item) aliases))
  then order_column item +:+ " " +:+ direction item
  else translate_order_by_with_aliases doc_var aliases item.
Definition limit_part (indent : string) (limit offset : option Z) : list string :=
  match limit with
  | Some limit =>
      [match offset with
       | Some offset => indent +:+ "LIMIT " +:+ show_i64 offset +:+ ", " +:+ show_i64 limit
       | None => indent +:+ "LIMIT " +:+ show_i64 limit
       end]
  | None => []
  end.
Definition filter_part (indent : string) (doc_var : string) (where_clause : option SqlExpr) : list string :=
  match where_clause with
  | Some e => [indent +:+ "FILTER " +:+ translate_expr doc_var e]
  | None => []
  end.
Definition select_parts (stmt : SelectStatement) : list string :=
  let doc_var := default "doc" (from_alias stmt) in
  let indent := repeat_text (S (length (joins stmt))) "  " in
  let is_grouped := negb (Nat.eqb (length (group_by stmt)) 0) in
  let aliases := build_alias_map (columns stmt) doc_var is_grouped in
  ["FOR " +:+ doc_var +:+ " IN " +:+ from stmt] ++
  concat (imap (join_parts doc_var) (joins stmt)) ++
  filter_part indent doc_var (where_clause stmt) ++
  (if is_grouped
   then [indent +:+ "COLLECT " +:+ join ", " (collect_var doc_var <$> group_by stmt) +:+ " INTO group"] ++
        omap (let_part indent aliases) (columns stmt) ++
        match having stmt with
        | Some e => [indent +:+ "FILTER " +:+ translate_having_with_let aliases e]
        | None => []
        end
   else []) ++
  (if Nat.eqb (length (order_by stmt)) 0 then []
   else [indent +:+ "SORT " +:+ join ", " (sort_item doc_var is_grouped aliases <$> order_by stmt)]) ++
  limit_part indent (limit stmt) (offset stmt) ++
  [indent +:+ "RETURN " +:+ translate_columns_with_let (columns stmt) doc_var is_grouped (joins stmt)].
Definition translate_select (stmt : SelectStatement) : string := join newline (select_parts stmt).

Definition column_fields (columns : list string) (row : list SqlExpr) : string :=
  braces (zip_with (λ col val, col +:+ ": " +:+ translate_expr "doc" val) columns row).
Definition insert_text (stmt : InsertStatement) (row : list SqlExpr) : string :=
  "INSERT " +:+
  match insert_columns stmt with
  | Some columns => column_fields columns row
  | None => "{ values: [" +:+ join ", " (translate_expr "doc" <$> row) +:+ "] }"
  end +:+ " INTO " +:+ insert_table stmt.
Definition row_doc (stmt : InsertStatement) (i : nat) (row : list SqlExpr) : string :=
  match insert_columns stmt with
  | Some columns => column_fields columns row
  | None => "{ row: " +:+ dec (N.of_nat i) +:+ " }"
  end.
Definition translate_insert (stmt : InsertStatement) : string :=
  match values stmt with
  | [row] => insert_text stmt row +:+ newline +:+ "RETURN NEW"
  | rows => "FOR doc IN [" +:+ join ", " (imap (row_doc stmt) rows) +:+ "]" +:+ newline +:+
            "  INSERT doc INTO " +:+ insert_table stmt +:+ newline +:+ "  RETURN NEW"
  end.
Definition translate_update (stmt : UpdateStatement) : string :=
  join newline (["FOR doc IN " +:+ update_table stmt] ++ filter_part "  " "doc" (update_where stmt) ++
    ["  UPDATE doc WITH " +:+
       braces ((λ p, p.1 +:+ ": " +:+ translate_expr "doc" p.2) <$> assignments stmt) +:+ " IN " +:+ update_table stmt;
     "  RETURN NEW"]).
Definition translate_delete (stmt : DeleteStatement) : string :=
  join newline (["FOR doc IN " +:+ delete_table stmt] ++ filter_part "  " "doc" (delete_where stmt) ++
    ["  REMOVE doc IN " +:+ delete_table stmt; "  RETURN OLD"]).
Definition translate_statement (stmt : SqlStatement) : string :=
  match stmt with
  | Select s => translate_select s
  | Insert s => translate_insert s
  | Update s => translate_update s
  | Delete s => translate_delete s
  end.
Definition translate_sql_to_sdbql (sql : string) : outcome string :=
  stmt ← SqlParse.parse sql; Done (translate_statement stmt).
End Translator.
End Translator.
