(* ===== verification/SqlTotal.v ===== *)
(** * SQL: the parser ends

    [runs n k m]: on at most [n] tokens [m] answers with a parse error or with a
    result for which at least [k] tokens have been read. *)

From S2P Require Import Prelude Text Json Transaction SdbqlLexer SqlLexer SqlParser.
Import SqlToken SqlParse.

Section Total.
Context `{char_tables : !CharTables} `{float_text : !FloatText} `{sql_debug : !SqlTokenDebug}.
Implicit Types (n k : nat) (s : list SqlTok) (t : SqlTok).

Definition answers {A} k s (o : outcome (A * list SqlTok)) : Prop :=
  match o with
  | Done (_, s') => length s' + k ≤ length s
  | Fails e => is_parse_error e
  | Panics | OutOfFuel => False
  end.
Definition runs {A} n k (m : SP A) : Prop := ∀ s, length s ≤ n → answers k s (m s).
(** The same where the current token is [t]. *)
Definition runs_at {A} t n k (m : SP A) : Prop :=
  ∀ s, length s ≤ n → default Eof (head s) = t → answers k s (m s).
Lemma runs_le {A} n n' k k' (m : SP A) : n' ≤ n → k' ≤ k → runs n k m → runs n' k' m.
Proof.
  intros Hn Hk H s Hs. specialize (H s ltac:(lia)). destruct (m s) as [[a s']| | |]; [|done..].
  simpl in *. lia.
Qed.
Lemma runs_at_runs {A} t n k (m : SP A) : runs n k m → runs_at t n k m.
Proof. intros H s Hs _. by apply H. Qed.
Lemma runs_ret {A} n (a : A) : runs n 0 (mret a).
Proof. intros s _. simpl. lia. Qed.
Lemma runs_error {A} n k msg : runs n k (parse_error (A:=A) msg).
Proof. by intros s _. Qed.
Lemma runs_bind {A B} n k j (m : SP A) (f : A → SP B) :
  runs n k m → (∀ a, runs (n - k) j (f a)) → runs n (k + j) (m ≫= f).
Proof.
  intros Hm Hf s Hs. specialize (Hm s Hs). unfold mbind, SP_bind.
  destruct (m s) as [[a s']| | |]; [|done..]. simpl in Hm. specialize (Hf a s' ltac:(lia)).
  destruct (f a s') as [[b s'']| | |]; [|done..]. simpl in *. lia.
Qed.
Lemma runs_current {A} n k (f : SqlTok → SP A) :
  (∀ t, runs_at t n k (f t)) → runs n k (current_token ≫= f).
Proof. intros H s Hs. exact (H _ s Hs eq_refl). Qed.
Lemma runs_at_current {A} t n k (f : SqlTok → SP A) :
  runs_at t n k (f t) → runs_at t n k (current_token ≫= f).
Proof. intros H s Hs Ht. unfold mbind, SP_bind, current_token. rewrite Ht. by apply H. Qed.
Lemma runs_at_advance {A} t n k (f : () → SP A) :
  t ≠ Eof → runs (n - 1) k (f ()) → runs_at t n (S k) (advance ≫= f).
Proof.
  intros Ht H s Hs Hh. destruct s as [|t' s]; [done|]. unfold mbind, SP_bind, advance. cbn [tail].
  simpl in Hs. specialize (H s ltac:(lia)). destruct (f () s) as [[b s'']| | |]; [|done..]. simpl in *. lia.
Qed.
Lemma runs_at_ret {A} t n (a : A) : runs_at t n 0 (mret a).
Proof. apply runs_at_runs, runs_ret. Qed.
Lemma runs_at_le {A} t n n' k k' (m : SP A) : n' ≤ n → k' ≤ k → runs_at t n k m → runs_at t n' k' m.
Proof.
  intros Hn Hk H s Hs Ht. specialize (H s ltac:(lia) Ht). destruct (m s) as [[a s']| | |]; [|done..].
  simpl in *. lia.
Qed.
Lemma runs_expect n t : t ≠ Eof → runs n 1 (expect t).
Proof.
  intros Ht. apply runs_current. intros t'. destruct (decide (t' = t)) as [->|]; [|apply runs_at_runs, runs_error].
  intros s Hs Hh. destruct s; [done|]. simpl. lia.
Qed.
Lemma runs_expect_bind {A} n k t (f : () → SP A) :
  t ≠ Eof → runs (n - 1) k (f ()) → runs n (S k) (expect t ≫= f).
Proof. intros Ht H. apply (runs_bind _ 1); [by apply runs_expect|by intros []]. Qed.
Lemma runs_identifier n : runs n 1 expect_identifier.
Proof.
  apply runs_current. intros t. destruct t; try (apply runs_at_runs, runs_error);
    (apply runs_at_advance; [done|apply runs_ret]).
Qed.
Lemma runs_identifier_bind {A} n k (f : string → SP A) :
  (∀ x, runs (n - 1) k (f x)) → runs n (S k) (expect_identifier ≫= f).
Proof. intros H. apply (runs_bind _ 1); [apply runs_identifier|done]. Qed.
(** A part that reads nothing or something, before the rest. *)
Lemma runs_seq {A B} n j (m : SP A) (f : A → SP B) :
  runs n 0 m → (∀ a, runs n j (f a)) → runs n j (m ≫= f).
Proof. intros Hm Hf. apply (runs_bind n 0); [done|]. intros a. by rewrite Nat.sub_0_r. Qed.
(** A part that reads a token makes the whole read one. *)
Lemma runs_first {A B} n (m : SP A) (f : A → SP B) :
  runs n 1 m → (∀ a, runs (n - 1) 0 (f a)) → runs n 1 (m ≫= f).
Proof. intros Hm Hf. by apply (runs_bind n 1 0). Qed.

(** ** Loops *)

Lemma runs_looping {A} n k (body : nat → SP A) :
  (∀ s, length s ≤ n → answers k s (body (S (length s)) s)) → runs n k (looping body).
Proof. intros H s Hs. by apply H. Qed.
Definition steps {A} n (step : A → SP (option A)) : Prop := ∀ x s, length s ≤ n →
  match step x s with
  | Done (Some _, s') => length s' < length s
  | Done (None, s') => length s' ≤ length s
  | Fails e => is_parse_error e
  | Panics | OutOfFuel => False
  end.
Lemma iterate_runs {A} n (step : A → SP (option A)) f x s :
  steps n step → length s ≤ n → length s < f → answers 0 s (iterate step f x s).
Proof.
  intros Hst. revert x s. induction f as [|f IH]; intros x s Hn Hf; [lia|]. cbn [iterate].
  unfold mbind, SP_bind. specialize (Hst x s Hn). destruct (step x s) as [[[x'|] s']| | |]; [|simpl; lia|done..].
  specialize (IH x' s' ltac:(lia) ltac:(lia)). destruct (iterate step f x' s') as [[a s'']| | |]; [|done..].
  simpl in *. lia.
Qed.
Lemma runs_iterate {A} n (step : A → SP (option A)) x : steps n step → runs n 0 (iterate_from step x).
Proof. intros H. apply runs_looping. intros s Hs. apply (iterate_runs n); [done|done|lia]. Qed.
Lemma comma_loop_runs {A} n (item : SP A) f l s :
  runs n 1 item → length s ≤ n → length s < f → answers 1 s (comma_loop item f l s).
Proof.
  intros Hi. revert l s. induction f as [|f IH]; intros l s Hn Hf; [lia|]. cbn [comma_loop].
  unfold mbind, SP_bind at 1. specialize (Hi s Hn). destruct (item s) as [[x s']| | |]; [|done..]. simpl in Hi.
  unfold SP_bind, current_token. destruct (decide _) as [Hc|]; [|simpl; lia]. unfold advance.
  destruct s' as [|t s']; [done|]. cbn [tail]. simpl in Hi.
  specialize (IH (l ++ [x]) s' ltac:(lia) ltac:(lia)). destruct (comma_loop item f _ s') as [[a s'']| | |]; [|done..].
  simpl in *. lia.
Qed.
Lemma runs_comma {A} n (item : SP A) : runs n 1 item → runs n 1 (comma_separated item).
Proof. intros H. apply runs_looping. intros s Hs. apply (comma_loop_runs n); [done|done|lia]. Qed.

(** ** Expressions *)

Section Levels.
Context (n : nat) (rec : SP SqlAst.SqlExpr).
(** The recursion reads what is left behind at least one token. *)
Context (Hrec : runs (n - 1) 1 rec).

(** [m] behind the current token, which is read first. *)
Lemma runs_at_read {A} t k (f : () → SP A) :
  t ≠ Eof → runs (n - 1) 0 (f ()) → k ≤ 1 → runs_at t n k (advance ≫= f).
Proof using Type. intros Ht H Hk. apply (runs_at_le _ n _ 1); [lia|lia|]. by apply runs_at_advance. Qed.
Lemma runs_weak {A} m k (p : SP A) : m ≤ n - 1 → k ≤ 1 → runs (n - 1) 1 p → runs m k p.
Proof using Type. intros. by apply (runs_le (n - 1) _ 1). Qed.
Lemma runs_list m k : m ≤ n - 1 → k ≤ 1 → runs m k (parse_expression_list rec).
Proof using Hrec. intros. apply runs_weak; [done|done|]. by apply runs_comma. Qed.
Lemma runs_then {A} m (p : SP A) (f : A → SP SqlAst.SqlExpr) :
  runs m 0 p → (∀ a, runs m 0 (f a)) → runs m 0 (p ≫= f).
Proof using Type. intros. by apply runs_seq. Qed.
Lemma runs_close {A} m t (a : A) : t ≠ Eof → runs m 0 (expect t;; mret a).
Proof using Type. intros Ht. apply (runs_le m _ 1); [lia..|]. apply runs_expect_bind; [done|apply runs_ret]. Qed.
Lemma runs_aggregate_args m : m ≤ n - 1 → runs m 0 (aggregate_args rec).
Proof using Hrec.
  intros Hm. apply runs_current. intros t. destruct t; try (apply runs_at_runs, runs_list; lia).
  - apply (runs_at_le _ m _ 1); [lia..|]. apply runs_at_advance; [done|apply runs_ret].
  - apply runs_at_ret.
Qed.
Lemma runs_named name m : m ≤ n - 1 → runs m 0 (parse_named rec name).
Proof using Hrec.
  intros Hm. apply runs_current. intros t. destruct t; try apply runs_at_ret;
    (apply (runs_at_le _ m _ 1); [lia..|]; apply runs_at_advance; [done|]).
  - apply (runs_le (m - 1) _ 1); [lia..|]. apply runs_identifier_bind. intros x. apply runs_ret.
  - apply runs_current. intros t. apply runs_at_runs. apply runs_then; [|intros; by apply runs_close].
    destruct (decide _); [apply runs_ret|apply runs_list; lia].
Qed.
Lemma runs_primary : runs n 1 (parse_primary_expression rec).
Proof using Hrec.
  apply runs_current. intros t.
  destruct t; try (apply runs_at_runs, runs_error); (apply runs_at_advance; [done|]);
    try apply runs_ret.
  all: try (apply (runs_le (n - 1) _ 1); [lia..|]; apply runs_expect_bind; [done|];
            apply runs_then; [apply runs_aggregate_args; lia|intros; by apply runs_close]).
  - by apply runs_named.
  - apply runs_then; [apply runs_weak; [lia..|done]|]. intros; by apply runs_close.
Qed.
Lemma runs_binary op_of next :
  op_of Eof = None → runs n 1 next → runs n 1 (binary_level op_of next).
Proof using Type.
  intros He Hnext. apply runs_first; [done|]. intros l. apply runs_iterate. intros x s Hs.
  unfold binary_step. unfold mbind, SP_bind, current_token. destruct (op_of (default Eof (head s))) as [op|] eqn:Ho; [|apply Nat.le_refl].
  destruct s as [|t s]; [simpl in Ho; congruence|]. unfold advance. cbn [tail]. simpl in Hs.
  specialize (Hnext s ltac:(lia)). destruct (next s) as [[a s']| | |]; [|done..]. simpl in *. lia.
Qed.
Lemma runs_additive : runs n 1 (parse_additive_expression rec).
Proof using Hrec. do 2 (apply runs_binary; [done|]). apply runs_primary. Qed.
Lemma runs_is m l : runs m 0 (parse_is l).
Proof using Type.
  apply runs_current. intros t. destruct (decide _) as [->|]; [|apply runs_at_runs; by apply runs_close].
  apply (runs_at_le _ m _ 1); [lia..|]. apply runs_at_advance; [done|]. by apply runs_close.
Qed.
Lemma runs_additive_then {A} m (f : SqlAst.SqlExpr → SP A) :
  m ≤ n → (∀ e, runs m 0 (f e)) → runs m 0 (parse_additive_expression rec ≫= f).
Proof using Hrec.
  intros Hm Hf. apply runs_seq; [|done]. apply (runs_le n _ 1); [done|lia|apply runs_additive].
Qed.
Lemma runs_comparison : runs n 1 (parse_comparison_expression rec).
Proof using Hrec.
  apply runs_first; [apply runs_additive|]. intros l. apply runs_current. intros t.
  destruct t; try apply runs_at_ret; (apply (runs_at_le _ (n - 1) _ 1); [lia..|]); (apply runs_at_advance; [done|]);
    try (apply runs_additive_then; [lia|]; intros; apply runs_ret).
  - apply runs_is.
  - apply runs_additive_then; [lia|]. intros low. apply (runs_le (n - 1 - 1) _ 1); [lia..|].
    apply runs_expect_bind; [done|]. apply runs_additive_then; [lia|]. intros; apply runs_ret.
  - apply (runs_le (n - 1 - 1) _ 1); [lia..|]. apply runs_expect_bind; [done|].
    apply runs_seq; [apply runs_list; lia|]. intros; by apply runs_close.
Qed.
Lemma not_loop_runs f s : length s ≤ n → length s < f → answers 1 s (not_loop rec f s).
Proof using Hrec.
  revert s. induction f as [|f IH]; intros s Hn Hf; [lia|]. cbn [not_loop].
  unfold mbind, SP_bind at 1, current_token. destruct (decide _) as [Ht|]; [|by apply runs_comparison].
  destruct s as [|t s]; [done|]. unfold advance, SP_bind. cbn [tail]. simpl in Hn, Hf.
  specialize (IH s ltac:(lia) ltac:(lia)). destruct (not_loop rec f s) as [[a s']| | |]; [|done..]. simpl in *. lia.
Qed.
Lemma runs_not : runs n 1 (parse_not_expression rec).
Proof using Hrec. apply runs_looping. intros s Hs. apply not_loop_runs; [done|lia]. Qed.
Lemma runs_or : runs n 1 (parse_or_expression rec).
Proof using Hrec. do 2 (apply runs_binary; [done|]). apply runs_not. Qed.
End Levels.
Lemma runs_expression f : runs f 1 (parse_expression (S f)).
Proof.
  induction f as [|f IH].
  - intros s Hs. destruct s; [|simpl in Hs; lia]. done.
  - cbn [parse_expression]. apply runs_or. by rewrite Nat.sub_succ, Nat.sub_0_r.
Qed.

(** ** Statements *)

Section Statements.
Context (n : nat) (rec : SP SqlAst.SqlExpr) (Hrec : runs n 1 rec).

Lemma runs_rec m k : m ≤ n → k ≤ 1 → runs m k rec.
Proof using Hrec. intros. by apply (runs_le n _ 1). Qed.
Lemma runs_at_skip {A} t m (f : () → SP A) : t ≠ Eof → runs m 0 (f ()) → runs_at t m 0 (advance ≫= f).
Proof using Type.
  intros Ht H. apply (runs_at_le _ m _ 1); [lia..|]. apply runs_at_advance; [done|].
  apply (runs_le m _ 0); [lia..|done].
Qed.
Lemma runs_word {A} m (f : string → SP A) : (∀ x, runs m 0 (f x)) → runs m 0 (expect_identifier ≫= f).
Proof using Type.
  intros H. apply runs_seq; [|done]. apply (runs_le m _ 1); [lia..|apply runs_identifier].
Qed.
Lemma runs_token {A} m t (f : () → SP A) : t ≠ Eof → runs m 0 (f ()) → runs m 0 (expect t ≫= f).
Proof using Type.
  intros Ht H. apply runs_seq; [|by intros []]. apply (runs_le m _ 1); [lia..|by apply runs_expect].
Qed.
Lemma runs_qualified m name : runs m 0 (qualified name).
Proof using Type.
  apply runs_current. intros t. destruct (decide _) as [->|]; [|apply runs_at_ret].
  apply runs_at_skip; [done|]. apply runs_word. intros; apply runs_ret.
Qed.
Lemma runs_alias m : runs m 0 parse_optional_alias.
Proof using Type.
  apply runs_current. intros t. destruct t; try apply runs_at_ret; (apply runs_at_skip; [done|]); [|apply runs_ret].
  apply runs_word. intros; apply runs_ret.
Qed.
Lemma runs_optional {A} m t (p : SP A) : t ≠ Eof → runs m 0 p → runs m 0 (optional t p).
Proof using Type.
  intros Ht Hp. apply runs_current. intros t'. destruct (decide _) as [->|]; [|apply runs_at_ret].
  apply runs_at_skip; [done|]. apply runs_seq; [done|]. intros; apply runs_ret.
Qed.
Lemma runs_integer m w : runs m 0 (integer_after w).
Proof using Type.
  apply runs_current. intros t. destruct t; try (apply runs_at_runs, runs_error).
  apply runs_at_skip; [done|apply runs_ret].
Qed.
Lemma runs_commas {A} m (p : SP A) : runs m 1 p → runs m 0 (comma_separated p).
Proof using Type. intros. apply (runs_le m _ 1); [lia..|]. by apply runs_comma. Qed.
Lemma runs_names m : runs m 0 parse_identifier_list.
Proof using Type.
  apply runs_commas. apply runs_first; [apply runs_identifier|]. intros. apply runs_qualified.
Qed.
Lemma runs_order m : runs m 0 parse_order_by_list.
Proof using Type.
  apply runs_commas. apply runs_first; [apply runs_identifier|]. intros c. apply runs_current. intros t.
  apply runs_at_runs. apply runs_seq; [|intros; apply runs_ret].
  intros s Hs. destruct (decide _) as [|]; [|destruct (decide _)]; destruct s; simpl; lia.
Qed.
Lemma runs_column : runs n 1 (parse_select_column rec).
Proof using Hrec.
  apply runs_current. intros t. destruct (decide _) as [->|].
  { apply runs_at_advance; [done|apply runs_ret]. }
  destruct (aggregate_name t) as [name|] eqn:Ha.
  - apply runs_at_advance; [by intros ->|]. apply runs_token; [done|]. apply runs_current. intros t'.
    apply runs_at_runs. apply runs_seq.
    + destruct (decide _) as [->|]; [|apply runs_commas; by apply runs_rec; [lia|]].
      intros s Hs. destruct s; simpl; lia.
    + intros args. apply runs_token; [done|]. apply runs_seq; [apply runs_alias|]. intros; apply runs_ret.
  - apply runs_at_runs. apply runs_identifier_bind. intros name. apply runs_seq; [apply runs_qualified|].
    intros c. apply runs_seq; [apply runs_alias|]. intros; apply runs_ret.
Qed.
Lemma runs_columns : runs n 0 (parse_select_columns rec).
Proof using Hrec. apply runs_commas, runs_column. Qed.
Lemma runs_at_outer t m j : t ≠ Eof → runs_at t m 1 (outer_join j).
Proof using Type.
  intros Ht. apply runs_at_advance; [done|]. apply runs_current. intros t'. apply runs_at_runs.
  apply runs_seq; [|intros []; by apply runs_token; [|apply runs_ret]].
  destruct (decide _); [|apply runs_ret]. intros s Hs. destruct s; simpl; lia.
Qed.
(** The step of the joins: nothing is read when there is none. *)
Definition reads_some {A} s (o : outcome (option A * list SqlTok)) : Prop :=
  match o with
  | Done (Some _, s') => length s' < length s
  | Done (None, s') => length s' ≤ length s
  | Fails e => is_parse_error e
  | Panics | OutOfFuel => False
  end.
Lemma answers_some {A} s (o : outcome (option A * list SqlTok)) : answers 1 s o → reads_some s o.
Proof using Type. destruct o as [[[x|] s']| | |]; simpl; try done; lia. Qed.
Lemma join_type_reads s : length s ≤ n → reads_some s (parse_join_type s).
Proof using Type.
  intros Hs. unfold parse_join_type. unfold mbind at 1, SP_bind at 1, current_token.
  destruct (default Eof (head s)) eqn:Ht; try apply Nat.le_refl; apply answers_some.
  - eapply runs_at_advance; [| |exact Hs|exact Ht]; [done|apply runs_ret].
  - apply (runs_at_outer SqlToken.Left n); done.
  - apply (runs_at_outer SqlToken.Right n); done.
  - eapply runs_at_advance; [| |exact Hs|exact Ht]; [done|]. by apply runs_token; [|apply runs_ret].
Qed.
Lemma join_steps : steps n (λ joins, o ← parse_join rec; mret ((λ j, joins ++ [j]) <$> o)).
Proof using Hrec.
  intros x s Hs. unfold parse_join. unfold mbind, SP_bind at 1 2. pose proof (join_type_reads s Hs) as Ht.
  destruct (parse_join_type s) as [[[ty|] s']| | |]; [|exact Ht|done..]. simpl in Ht.
  assert (runs n 0 (table ← expect_identifier; alias ← parse_optional_alias; expect On;;
    on_condition ← rec; mret (Some (SqlAst.mkJoin ty table alias on_condition)))) as Hrest.
  { apply runs_word. intros table. apply runs_seq; [apply runs_alias|]. intros alias. apply runs_token; [done|].
    apply runs_seq; [by apply runs_rec; [|lia]|]. intros; apply runs_ret. }
  specialize (Hrest s' ltac:(lia)). revert Hrest. unfold mbind, SP_bind, answers.
  destruct (expect_identifier s') as [[? ?]| | |]; [|done..].
  destruct (parse_optional_alias _) as [[? ?]| | |]; [|done..].
  destruct (expect On _) as [[? ?]| | |]; [|done..].
  destruct (rec _) as [[? ?]| | |]; [|done..]. simpl. lia.
Qed.
Lemma runs_by {A} m (p : SP (list A)) : runs m 0 p → runs m 0 (by_list p).
Proof using Type. intros. by apply runs_token. Qed.
Lemma runs_select : runs n 0 (parse_select rec).
Proof using Hrec.
  apply runs_token; [done|]. apply runs_seq; [apply runs_columns|]. intros cols. apply runs_token; [done|].
  apply runs_word. intros table. apply runs_seq; [apply runs_alias|]. intros alias.
  apply runs_seq; [apply runs_iterate, join_steps|]. intros js.
  apply runs_seq; [apply runs_optional; [done|apply runs_rec; lia]|]. intros w.
  apply runs_seq; [apply runs_optional, runs_by, runs_names; done|]. intros g.
  apply runs_seq; [apply runs_optional; [done|apply runs_rec; lia]|]. intros h.
  apply runs_seq; [apply runs_optional, runs_by, runs_order; done|]. intros o.
  do 2 (apply runs_seq; [apply runs_optional; [done|apply runs_integer]|]; intros ?). apply runs_ret.
Qed.
Lemma runs_row : runs n 1 (parse_row rec).
Proof using Hrec.
  apply runs_expect_bind; [done|]. apply runs_seq; [apply runs_commas, runs_rec; lia|].
  intros row. by apply runs_token; [|apply runs_ret].
Qed.
Lemma runs_insert : runs n 0 (parse_insert rec).
Proof using Hrec.
  do 2 (apply runs_token; [done|]). apply runs_word. intros table. apply runs_seq.
  { apply runs_optional; [done|]. apply runs_seq; [apply runs_names|]. intros c. by apply runs_token; [|apply runs_ret]. }
  intros cols. apply runs_token; [done|]. apply runs_seq; [apply runs_commas, runs_row|]. intros; apply runs_ret.
Qed.
Lemma runs_assignment : runs n 1 (parse_assignment rec).
Proof using Hrec.
  apply runs_identifier_bind. intros c. apply runs_token; [done|].
  apply runs_seq; [apply runs_rec; lia|]. intros; apply runs_ret.
Qed.
Lemma runs_where : runs n 0 (optional Where rec).
Proof using Hrec. apply runs_optional; [done|apply runs_rec; lia]. Qed.
Lemma runs_update : runs n 0 (parse_update rec).
Proof using Hrec.
  apply runs_token; [done|]. apply runs_word. intros table. apply runs_token; [done|].
  apply runs_seq; [apply runs_commas, runs_assignment|]. intros l.
  apply runs_seq; [apply runs_where|]. intros; apply runs_ret.
Qed.
Lemma runs_delete : runs n 0 (parse_delete rec).
Proof using Hrec.
  do 2 (apply runs_token; [done|]). apply runs_word. intros table.
  apply runs_seq; [apply runs_where|]. intros; apply runs_ret.
Qed.
Lemma runs_statement : runs n 0 (parse_statement rec).
Proof using Hrec.
  apply runs_current. intros t. apply runs_at_runs. apply runs_seq.
  - destruct t; try apply runs_error; auto using runs_select, runs_insert, runs_update, runs_delete.
  - intros stmt. apply runs_current. intros t'. apply runs_at_runs. apply runs_seq; [|intros; apply runs_ret].
    destruct (decide _); [|apply runs_ret]. intros s Hs. destruct s; simpl; lia.
Qed.
End Statements.

(** the SQL parser answers every input with a statement or a parse error: it never
    panics, and its fuel, the number of tokens, is always enough. *)
Theorem parse_sql_ends `{!CharTablesLaws} input :
  match parse input with
  | Done _ => True
  | Fails e => is_parse_error e
  | Panics | OutOfFuel => False
  end.
Proof.
  unfold parse. pose proof (SqlLexer.tokenize_ends input) as Ht.
  destruct (SqlLexer.tokenize input) as [ts|e| |]; [|done..]. cbn [mbind outcome_mbind outcome_bind].
  unfold parse_with. pose proof (runs_statement _ _ (runs_expression (length ts)) ts (le_n _)) as Hr.
  destruct (parse_statement _ ts) as [[stmt s']|e| |]; done.
Qed.
End Total.
