(* ===== verification/SqlText.v ===== *)
(** * SQL: how the text of the translation is read

    [reads_text text ts]: the lexer of SDBQL reads [text], whatever follows it, as the
    tokens [ts]; [stop_text text ts]: where what follows is the end of the input or
    one of the characters the translation puts behind an expression. *)

From S2P Require Import Prelude Text Json Transaction Codec SdbqlLexer SdbqlPrint SqlLexer.
Import Token.

Section Texts.
Context `{char_tables : !CharTables} `{float_text : !FloatText} `{char_laws : !CharTablesLaws}.
Implicit Types (cs l : list char) (ts : list Token) (c : char).

(** ** Tokens in front of the rest *)

Inductive lexes : list char → list Token → Prop :=
| lexes_end l l' : (∀ f, Lexer.next_token (S f) l = Done (Eof, l')) → lexes l []
| lexes_cons t l l' ts :
    t ≠ Eof → (∀ f, Lexer.next_token (S f) l = Done (t, l')) → lexes l' ts → lexes l (t :: ts).
Lemma lexes_tokens l ts n acc :
  lexes l ts → length ts < n → Lexer.tokens_of n acc l = Done (acc ++ ts ++ [Eof]).
Proof.
  intros H. revert n acc. induction H as [l l' H|t l l' ts Ht H _ IH]; intros n acc Hn;
    (destruct n as [|n]; [simpl in Hn; lia|]); cbn [Lexer.tokens_of]; rewrite H; cbn [mbind outcome_mbind outcome_bind].
  - done.
  - rewrite decide_False by done. simpl in Hn. rewrite IH by lia. by rewrite <- app_assoc.
Qed.
Lemma lexes_nil : lexes [] [].
Proof. by apply (lexes_end _ []). Qed.

(** White space is skipped before a token. *)
Definition space_char c : bool := String.eqb c " " || String.eqb c Lexer.newline.
Lemma space_is_space c : space_char c = true → is_whitespace c = true.
Proof.
  intros [->%String.eqb_eq| ->%String.eqb_eq]%orb_true_iff;
    [by destruct (ascii_class " " true false false eq_refl eq_refl)|].
  by destruct (ascii_class Lexer.newline true false false eq_refl eq_refl).
Qed.
Lemma next_skip f c l : space_char c = true → Lexer.next_token (S f) (c :: l) = Lexer.next_token (S f) l.
Proof. intros Hc. cbn [Lexer.next_token Lexer.skip_whitespace]. by rewrite space_is_space. Qed.
Lemma lexes_space c l ts : space_char c = true → lexes l ts → lexes (c :: l) ts.
Proof.
  intros Hc. destruct 1 as [l l' H|t l l' ts Ht H Hl].
  - apply (lexes_end _ l'). intros f. by rewrite next_skip.
  - apply (lexes_cons _ _ l'); [done| |done]. intros f. by rewrite next_skip.
Qed.

(** ** Pieces of text *)

(** The characters that the translation puts behind an expression or a name. *)
Definition stop_chars : list char := [" "; Lexer.newline; ","; ")"; "]"; "}"; ":"].
Definition stop_char c : bool := existsb (String.eqb c) stop_chars.
Definition stops l : Prop := match l with [] => True | c :: _ => stop_char c = true end.
(** [text] is read as [ts]. [opens]: it starts with a stop character itself;
    [strict]: it is read so only where a stop character or nothing follows. *)
Definition piece (opens strict : bool) (text : string) ts : Prop :=
  ∃ cs, text = of_chars cs ∧ Forall (λ c, wf_char c = true) cs ∧ length ts ≤ length cs ∧
    (opens = true → ∃ c cs', cs = c :: cs' ∧ stop_char c = true) ∧
    ∀ l ts', (strict = true → stops l) → lexes l ts' → lexes (cs ++ l) (ts ++ ts').

Lemma of_chars_app cs cs' : of_chars (cs ++ cs') = of_chars cs +:+ of_chars cs'.
Proof. induction cs as [|c cs IH]; [done|]. cbn [app of_chars]. by rewrite IH, str_app_assoc. Qed.
Lemma piece_app o1 s1 o2 s2 a b ts1 ts2 :
  (s1 = true → o2 = true) → piece o1 s1 a ts1 → piece o2 s2 b ts2 → piece o1 s2 (a +:+ b) (ts1 ++ ts2).
Proof.
  intros Hso (cs1 & -> & Hwf1 & Hl1 & Ho1 & H1) (cs2 & -> & Hwf2 & Hl2 & Ho2 & H2). exists (cs1 ++ cs2).
  split_and!; [by rewrite of_chars_app|by apply Forall_app|rewrite !length_app; lia| |].
  - intros E. destruct (Ho1 E) as (c & cs' & -> & Hc). by exists c, (cs' ++ cs2).
  - intros l ts' Hl Hlex. rewrite <- !app_assoc. apply H1; [|by apply H2].
    intros E. destruct (Ho2 (Hso E)) as (c & cs' & -> & Hc). exact Hc.
Qed.
(** A piece read wherever it stands, or where something may follow, is a strict one. *)
Lemma piece_strict o s text ts : piece o s text ts → piece o true text ts.
Proof.
  intros (cs & -> & Hwf & Hlen & Ho & H). exists cs. split_and!; [done..|]. intros l ts' Hl. apply H. auto.
Qed.
Lemma piece_opens o s text ts : piece o s text ts → piece false s text ts.
Proof. intros (cs & -> & Hwf & Hlen & Ho & H). by exists cs. Qed.
Lemma piece_tokenize o s text ts : piece o s text ts → Lexer.tokenize text = Done (ts ++ [Eof]).
Proof.
  intros (cs & -> & Hwf & Hlen & _ & H). unfold Lexer.tokenize, Lexer.new. rewrite chars_of_chars by done.
  specialize (H [] [] ltac:(done) lexes_nil). rewrite !app_nil_r in H.
  apply (lexes_tokens cs ts); [done|]. rewrite <- Lexer.bytes_of_chars.
  enough (length cs ≤ Lexer.bytes cs) by lia. apply Lexer.bytes_length.
  eapply Forall_impl; [exact Hwf|]. by intros [|] ?.
Qed.

(** ** Single tokens *)

Lemma piece_token o s cs t :
  t ≠ Eof → Forall (λ c, wf_char c = true) cs → (o = true → ∃ c cs', cs = c :: cs' ∧ stop_char c = true) →
  (∀ f l, (s = true → stops l) → Lexer.next_token (S f) (cs ++ l) = Done (t, l)) → piece o s (of_chars cs) [t].
Proof.
  intros Ht Hwf Ho H. exists cs. split_and!; [done..| |done|].
  { destruct cs as [|c cs]; [|simpl; lia]. exfalso. specialize (H 0 [] ltac:(done)). cbn in H. congruence. }
  intros l ts' Hl Hlex. cbn [app].
  apply (lexes_cons _ _ l); [done| |done]. intros f. by apply H.
Qed.
Lemma piece_space c : space_char c = true → piece true false c [].
Proof.
  intros Hc. exists [c]. split_and!; [cbn; by rewrite str_app_nil_r| |simpl; lia| |].
  - apply orb_true_iff in Hc as [->%String.eqb_eq| ->%String.eqb_eq]; by repeat constructor.
  - intros _. exists c, []. split; [done|].
    apply orb_true_iff in Hc as [->%String.eqb_eq| ->%String.eqb_eq]; done.
  - intros l ts' _. by apply lexes_space.
Qed.

(** *** Operators *)

(** The operators that are read the same whatever follows, and those that need a stop. *)
Definition plain_operators : list (string * Token) :=
  [(",", Comma); ("{", LeftBrace); ("}", RightBrace); ("[", LeftBracket); ("]", RightBracket);
   ("(", LeftParen); (")", RightParen); (":", Colon); ("*", Star); ("+", Plus); ("/", Slash); ("%", Percent);
   ("==", Equal); ("!=", NotEqual); ("<=", LessThanEq); (">=", GreaterThanEq)].
Definition stop_operators : list (string * Token) := [("<", LessThan); (">", GreaterThan); ("-", Minus); ("=", Assign)].
Definition starts_stop (text : string) : bool := match chars text with c :: _ => stop_char c | [] => false end.
Lemma not_minus_next f p l :
  p ∈ Lexer.operators → String.eqb p.1 "-" = false →
  Lexer.next_token (S f) (p.1 :: l) = Done (Lexer.read_operator p.2 l).
Proof.
  intros Hp Hm. pose proof operators_ok as Hok. rewrite forallb_forall in Hok.
  specialize (Hok p (proj1 (list_elem_of_In _ _) Hp)). unfold operator_ok in Hok.
  destruct p as [c entry]. cbn [fst snd] in *.
  repeat (apply andb_true_iff in Hok as [Hok ?]).
  repeat match goal with H : negb _ = true |- _ => apply negb_true_iff in H end.
  repeat match goal with H : bool_decide _ = true |- _ => apply bool_decide_eq_true in H end.
  destruct (ascii_class c false false false) as (Hw & Hn & Hal & _); [done..|].
  cbn [Lexer.next_token Lexer.skip_whitespace]. rewrite Hw, Hn.
  repeat match goal with H : String.eqb c _ = false |- _ => rewrite H; clear H end. cbn [andb orb].
  rewrite Hal. cbn [orb]. by match goal with H : Lexer.assoc c _ = _ |- _ => rewrite H end.
Qed.
Lemma operator_next f c entry l :
  Lexer.assoc c Lexer.operators = Some entry → String.eqb c "-" = false →
  Lexer.next_token (S f) (c :: l) = Done (Lexer.read_operator entry l).
Proof. intros H%SqlLexer.sql_assoc_elem Hm. by apply (not_minus_next f (c, entry)). Qed.
Ltac chars_now :=
  repeat match goal with
  | |- context [chars ?x] => let y := eval vm_compute in (chars x) in progress change (chars x) with y
  end; cbn [app].
Lemma plain_operator text t : (text, t) ∈ plain_operators → piece (starts_stop text) false text [t].
Proof.
  intros H. rewrite <- (Lexer.of_chars_chars text) at 2.
  assert (forallb (λ p, forallb wf_char (chars p.1)) plain_operators = true) as Hwf by by vm_compute.
  rewrite forallb_forall in Hwf. specialize (Hwf _ (proj1 (list_elem_of_In _ _) H)). cbn [fst] in Hwf.
  apply piece_token.
  - unfold plain_operators in H. repeat (apply elem_of_cons in H as [[= -> ->]|H]; [done|]). by apply elem_of_nil in H.
  - apply Forall_forall. intros c Hc. rewrite forallb_forall in Hwf. apply Hwf. by apply list_elem_of_In.
  - unfold starts_stop. destruct (chars text) as [|c cs]; [done|]. intros E. by exists c, cs.
  - intros f l _. clear Hwf. unfold plain_operators in H.
    repeat (apply elem_of_cons in H as [[= -> ->]|H]; [chars_now; erewrite operator_next by reflexivity; by destruct l|]).
    by apply elem_of_nil in H.
Qed.
Lemma stop_second c2 (seconds : list (char * Token)) :
  forallb (λ c, bool_decide (Lexer.assoc c seconds = None)) stop_chars = true →
  stop_char c2 = true → Lexer.assoc c2 seconds = None.
Proof.
  intros Hall Hc. unfold stop_char in Hc. apply existsb_exists in Hc as (c & Hin & ->%String.eqb_eq).
  rewrite forallb_forall in Hall. specialize (Hall c Hin). by apply bool_decide_eq_true in Hall.
Qed.
Lemma read_operator_stop seconds t l :
  forallb (λ c, bool_decide (Lexer.assoc c seconds = None)) stop_chars = true →
  stops l → Lexer.read_operator (seconds, t) l = (t, l).
Proof.
  intros Hs Hl. unfold Lexer.read_operator. destruct l as [|c l]; [done|]. cbn. by rewrite stop_second.
Qed.
Lemma stop_operator text t : (text, t) ∈ stop_operators → piece false true text [t].
Proof.
  intros H. rewrite <- (Lexer.of_chars_chars text). apply piece_token; [| |done|].
  - unfold stop_operators in H. repeat (apply elem_of_cons in H as [[= -> ->]|H]; [done|]). by apply elem_of_nil in H.
  - unfold stop_operators in H.
    repeat (apply elem_of_cons in H as [[= -> ->]|H]; [by repeat constructor|]). by apply elem_of_nil in H.
  - intros f l Hl. specialize (Hl eq_refl). unfold stop_operators in H.
    apply elem_of_cons in H as [[= -> ->]|H]; [|apply elem_of_cons in H as [[= -> ->]|H];
      [|apply elem_of_cons in H as [[= -> ->]|H]; [|apply elem_of_cons in H as [[= -> ->]|[]%elem_of_nil]]]]; chars_now.
    + erewrite operator_next by reflexivity. by rewrite read_operator_stop.
    + erewrite operator_next by reflexivity. by rewrite read_operator_stop.
    + destruct l as [|c l].
      * cbn [Lexer.next_token Lexer.skip_whitespace]. destruct (next_special "-") as (-> & -> & ->); done.
      * pose proof (next_operator f ("-", ([(">", Arrow)], Minus)) c l) as Hn. cbn [fst snd] in Hn. rewrite Hn.
        -- by rewrite read_operator_stop.
        -- unfold Lexer.operators. set_solver.
        -- unfold stops, stop_char in Hl. apply existsb_exists in Hl as (c' & Hin & ->%String.eqb_eq).
           unfold stop_chars in Hin. repeat (destruct Hin as [<-|Hin]; [done|]). done.
    + erewrite operator_next by reflexivity. by rewrite read_operator_stop.
Qed.

(** *** Words *)

Definition word_start c : bool := ascii_letter c || String.eqb c "_".
Definition word_rest c : bool := word_start c || ascii_digit c.
(** A word of ASCII letters, digits and underscores. *)
Definition is_word (x : string) : bool :=
  match chars x with c :: cs => word_start c && forallb word_rest cs | [] => false end.
Lemma word_start_facts c : word_start c = true →
  is_ascii c = true ∧ (∃ le, class_of c = (false, false, le)) ∧ wf_char c = true ∧
  existsb (String.eqb c) ["$"; Lexer.quote_mark; Lexer.apostrophe; "`"; "@"; "-"] = false.
Proof.
  destruct c as [|b [|b' c]]; [done| |].
  - destruct b as [[] [] [] [] [] [] [] []]; vm_compute; try discriminate; intros _;
      (split_and!; [done|eexists; done|done|done]).
  - intros H. exfalso. unfold word_start in H. cbn in H. by destruct (Ascii.eqb b "_").
Qed.
Lemma word_rest_facts c : word_rest c = true → is_ascii c = true ∧ wf_char c = true.
Proof.
  destruct c as [|b [|b' c]]; [done| |].
  - by destruct b as [[] [] [] [] [] [] [] []]; vm_compute.
  - intros H. exfalso. unfold word_rest, word_start in H. cbn in H. by destruct (Ascii.eqb b "_").
Qed.
Lemma word_rest_word c : word_rest c = true → Lexer.word_char c = true.
Proof.
  intros H. destruct (word_rest_facts c H) as [Ha _]. unfold Lexer.word_char.
  rewrite alphanumeric_or, numeric_ascii, alphabetic_ascii by done. unfold word_rest, word_start in H.
  by destruct (ascii_letter c), (ascii_digit c), (String.eqb c "_").
Qed.
Lemma stop_not_word c : stop_char c = true → Lexer.word_char c = false ∧ is_numeric c = false.
Proof.
  intros H. unfold stop_char in H. apply existsb_exists in H as (c' & Hin & ->%String.eqb_eq).
  unfold stop_chars in Hin. unfold Lexer.word_char. rewrite alphanumeric_or.
  repeat (destruct Hin as [<-|Hin]; [by rewrite alphabetic_ascii, numeric_ascii by reflexivity|]). done.
Qed.
(** The characters behind which a word ends. *)
Definition not_word l : Prop := match l with [] => True | c :: _ => Lexer.word_char c = false end.
Lemma stops_not_word l : stops l → not_word l.
Proof. destruct l as [|c l]; [done|]. intros H. by apply stop_not_word. Qed.
Lemma word_text_all cs acc l :
  forallb word_rest cs = true → not_word l → Lexer.word_text acc (cs ++ l) = (acc +:+ of_chars cs, l).
Proof.
  intros H Hl. revert acc H. induction cs as [|c cs IH]; intros acc H; cbn [app].
  - cbn [of_chars]. rewrite str_app_nil_r. destruct l as [|c l]; [done|]. cbn [Lexer.word_text]. by rewrite Hl.
  - cbn [forallb] in H. apply andb_true_iff in H as [Hc H]. cbn [Lexer.word_text of_chars].
    rewrite word_rest_word by done. rewrite IH by done. by rewrite str_app_assoc.
Qed.
Lemma word_next f x l : is_word x = true → not_word l →
  Lexer.next_token (S f) (chars x ++ l) = Done (Lexer.keyword_or_identifier x, l).
Proof.
  intros Hx Hl. unfold is_word in Hx. pose proof (Lexer.of_chars_chars x) as Hxc.
  destruct (chars x) as [|c cs]; [done|]. apply andb_true_iff in Hx as [Hc Hcs].
  destruct (word_start_facts c Hc) as (Ha & [le Hcl] & _ & Hsp).
  destruct (ascii_class c _ _ _ Ha Hcl) as (Hw & Hn & Hal & Hwc). cbn [existsb] in Hsp.
  repeat (apply orb_false_iff in Hsp as [? Hsp]).
  cbn [app Lexer.next_token Lexer.skip_whitespace]. rewrite Hw, Hn.
  repeat match goal with H : String.eqb c _ = false |- _ => rewrite H; clear H end. cbn [andb orb].
  assert (is_alphabetic c || String.eqb c "_" = true) as ->.
  { rewrite alphabetic_ascii by done. exact Hc. }
  unfold Lexer.read_identifier. change (c :: cs ++ l) with ((c :: cs) ++ l).
  rewrite word_text_all; [|cbn; unfold word_rest at 1; by rewrite Hc, Hcs|done]. by rewrite Hxc.
Qed.
Lemma word_wf x : is_word x = true → Forall (λ c, wf_char c = true) (chars x).
Proof.
  unfold is_word. destruct (chars x) as [|c cs]; [done|]. intros [Hc Hcs]%andb_true_iff.
  constructor; [by apply word_start_facts|]. apply Forall_forall. intros c' Hc'. rewrite forallb_forall in Hcs.
  apply word_rest_facts, Hcs. by apply list_elem_of_In.
Qed.
(** A name that is no keyword. *)
Definition is_name (x : string) : bool :=
  is_word x && bool_decide (Lexer.assoc (ascii_upper x) Lexer.keywords = None).
Lemma word_ascii x : is_word x = true → is_ascii x = true.
Proof.
  intros Hx. rewrite <- (Lexer.of_chars_chars x). unfold is_word in Hx. destruct (chars x) as [|c cs]; [done|].
  apply andb_true_iff in Hx as [Hc Hcs]. cbn [of_chars]. unfold is_ascii. rewrite str_all_app.
  apply andb_true_iff. split; [by apply word_start_facts|]. clear Hc.
  induction cs as [|c' cs IH]; [done|]. cbn [forallb] in Hcs. apply andb_true_iff in Hcs as [Hc' Hcs].
  cbn [of_chars]. rewrite str_all_app. apply andb_true_iff. split; [by apply word_rest_facts|auto].
Qed.
Lemma name_token x : is_name x = true → Lexer.keyword_or_identifier x = Identifier x.
Proof.
  intros [Hx Hk]%andb_true_iff. apply bool_decide_eq_true in Hk. unfold Lexer.keyword_or_identifier.
  rewrite uppercase_ascii by by apply word_ascii. by rewrite Hk.
Qed.
Lemma piece_name x : is_name x = true → piece false true x [Identifier x].
Proof.
  intros Hx. pose proof (name_token x Hx) as Ht. apply andb_true_iff in Hx as [Hx _].
  rewrite <- (Lexer.of_chars_chars x) at 1. apply piece_token; [done|by apply word_wf|done|].
  intros f l Hl. rewrite word_next by (try done; by apply stops_not_word, Hl). by rewrite Ht.
Qed.
Lemma piece_keyword x t : (x, t) ∈ Lexer.keywords → piece false true x [t].
Proof.
  intros Hx. rewrite <- (Lexer.of_chars_chars x).
  assert (forallb (λ p, is_word p.1 && bool_decide (Lexer.assoc (ascii_upper p.1) Lexer.keywords = Some p.2) &&
                        bool_decide (p.2 ≠ Eof)) Lexer.keywords = true) as Hall by by vm_compute.
  rewrite forallb_forall in Hall. specialize (Hall _ (proj1 (list_elem_of_In _ _) Hx)). cbn [fst snd] in Hall.
  apply andb_true_iff in Hall as [Hall Heof]. apply andb_true_iff in Hall as [Hw Hk].
  apply bool_decide_eq_true in Hk, Heof. apply piece_token; [done|by apply word_wf|done|].
  intros f l Hl. rewrite word_next by (try done; by apply stops_not_word, Hl).
  unfold Lexer.keyword_or_identifier. rewrite uppercase_ascii by by apply word_ascii. by rewrite Hk.
Qed.
(** A word in lower case is a keyword as well. *)
Lemma piece_lower x t :
  is_word x = true → Lexer.assoc (ascii_upper x) Lexer.keywords = Some t → t ≠ Eof → piece false true x [t].
Proof.
  intros Hw Hk Ht. rewrite <- (Lexer.of_chars_chars x). apply piece_token; [done|by apply word_wf|done|].
  intros f l Hl. rewrite word_next by (try done; by apply stops_not_word, Hl).
  unfold Lexer.keyword_or_identifier. rewrite uppercase_ascii by by apply word_ascii. by rewrite Hk.
Qed.

(** *** Names with a point or a parenthesis *)

Lemma not_word_char c : is_ascii c = true → class_of c = (false, false, false) → String.eqb c "_" = false →
  Lexer.word_char c = false.
Proof. intros Ha Hcl Hu. destruct (ascii_class c _ _ _ Ha Hcl) as (_ & _ & _ & ->). by rewrite Hu. Qed.
Lemma dot_next f c l : word_start c = true → Lexer.next_token (S f) ("." :: c :: l) = Done (Dot, c :: l).
Proof.
  intros Hc. erewrite operator_next by reflexivity. unfold Lexer.read_operator. cbn [Lexer.current_char head mbind option_bind fst].
  cbn [Lexer.assoc]. destruct (String.eqb_spec c ".") as [->|_]; [done|]. done.
Qed.
Lemma name_head x : is_word x = true → ∃ c cs, chars x = c :: cs ∧ word_start c = true.
Proof. unfold is_word. destruct (chars x) as [|c cs]; [done|]. intros [Hc _]%andb_true_iff. eauto. Qed.
Lemma piece_field x y : is_name x = true → is_name y = true →
  piece false true (x +:+ "." +:+ y) [Identifier x; Dot; Identifier y].
Proof.
  intros Hx Hy. pose proof (name_token x Hx) as Hxt. pose proof (name_token y Hy) as Hyt.
  apply andb_true_iff in Hx as [Hx _], Hy as [Hy _].
  exists (chars x ++ "." :: chars y). split_and!.
  - rewrite of_chars_app. cbn [of_chars]. by rewrite !Lexer.of_chars_chars.
  - apply Forall_app. split; [by apply word_wf|]. constructor; [done|by apply word_wf].
  - destruct (name_head x Hx) as (? & ? & -> & _), (name_head y Hy) as (? & ? & -> & _).
    rewrite length_app. simpl. lia.
  - done.
  - intros l ts' Hl Hlex. rewrite <- app_assoc. cbn [app].
    destruct (name_head y Hy) as (c & cs & Hcs & Hc).
    apply (lexes_cons _ _ ("." :: chars y ++ l)); [done| |].
    { intros f. rewrite word_next; [by rewrite Hxt|done|]. by apply not_word_char. }
    apply (lexes_cons _ _ (chars y ++ l)); [done| |].
    { intros f. rewrite Hcs. by apply dot_next. }
    apply (lexes_cons _ _ l); [done| |done]. intros f.
    rewrite word_next; [by rewrite Hyt|done|by apply stops_not_word, Hl].
Qed.
Lemma piece_call x : is_name x = true → piece false false (x +:+ "(") [Identifier x; LeftParen].
Proof.
  intros Hx. pose proof (name_token x Hx) as Hxt. apply andb_true_iff in Hx as [Hx _].
  exists (chars x ++ ["("]). split_and!.
  - rewrite of_chars_app. by rewrite Lexer.of_chars_chars.
  - apply Forall_app. split; [by apply word_wf|by repeat constructor].
  - destruct (name_head x Hx) as (? & ? & -> & _). rewrite length_app. simpl. lia.
  - done.
  - intros l ts' _ Hlex. rewrite <- app_assoc. cbn [app].
    apply (lexes_cons _ _ ("(" :: l)); [done| |].
    { intros f. rewrite word_next; [by rewrite Hxt|done|]. by apply not_word_char. }
    apply (lexes_cons _ _ l); [done| |done]. intros f. erewrite operator_next by reflexivity. by destruct l.
Qed.

(** *** Literals *)

Lemma piece_bind_var x : is_word x = true → piece false true ("@" +:+ x) [BindVar x].
Proof.
  intros Hx. rewrite <- (Lexer.of_chars_chars x) at 1. apply (piece_token _ _ ("@" :: chars x)); [done| |done|].
  - constructor; [done|by apply word_wf].
  - intros f l Hl. cbn [app Lexer.next_token Lexer.skip_whitespace].
    destruct (next_special "@") as (-> & -> & ->); [done..|]. cbn.
    unfold Lexer.read_bind_var. cbn [Lexer.advance tail].
    unfold is_word in Hx. pose proof (Lexer.of_chars_chars x) as Hxc. destruct (chars x) as [|c cs]; [done|].
    apply andb_true_iff in Hx as [Hc Hcs].
    rewrite word_text_all; [|cbn; unfold word_rest at 1; by rewrite Hc, Hcs|by apply stops_not_word, Hl].
    change ("" +:+ of_chars (c :: cs)) with (of_chars (c :: cs)). rewrite Hxc.
    destruct (String.eqb_spec x "") as [->|_]; [|done]. cbn in Hxc. by destruct c.
Qed.
Lemma number_text_stop cs acc l :
  forallb ascii_digit cs = true → stops l →
  Lexer.number_text acc false (cs ++ l) = (acc +:+ of_chars cs, false, l).
Proof.
  intros H Hl. revert acc H. induction cs as [|c cs IH]; intros acc H; cbn [app].
  - cbn [of_chars]. rewrite str_app_nil_r. destruct l as [|c l]; [done|]. cbn [Lexer.number_text].
    destruct (stop_not_word c Hl) as [_ ->]. unfold stops, stop_char in Hl.
    apply existsb_exists in Hl as (c' & Hin & ->%String.eqb_eq).
    unfold stop_chars in Hin. repeat (destruct Hin as [<-|Hin]; [done|]). done.
  - cbn [forallb] in H. apply andb_true_iff in H as [Hc H]. destruct (digit_facts c Hc) as (Ha & Hcl & _).
    cbn [Lexer.number_text of_chars]. destruct (ascii_class c _ _ _ Ha Hcl) as (_ & -> & _).
    rewrite (IH _ H). by rewrite str_app_assoc.
Qed.
Lemma piece_integer n : (n < 2 ^ 63)%N → piece false true (dec n) [Integer (Z.of_N n)].
Proof.
  intros Hn. destruct (dec_digits n) as [Hall Hne]. rewrite <- (Lexer.of_chars_chars (dec n)).
  apply piece_token; [done| |done|].
  - apply Forall_forall. intros c Hc. rewrite forallb_forall in Hall.
    apply digit_facts, Hall. by apply list_elem_of_In.
  - intros f l Hl. pose proof (Lexer.of_chars_chars (dec n)) as Hoc. destruct (chars (dec n)) as [|c cs] eqn:Hcs; [done|].
    pose proof Hall as Hall'. cbn [forallb] in Hall. apply andb_true_iff in Hall as [Hc _].
    destruct (digit_facts c Hc) as (Ha & Hcl & _). destruct (ascii_class c _ _ _ Ha Hcl) as (Hw & Hnu & _).
    cbn [app Lexer.next_token Lexer.skip_whitespace]. rewrite Hw, Hnu. unfold Lexer.read_number.
    change (c :: cs ++ l) with ((c :: cs) ++ l). rewrite number_text_stop by auto. rewrite Hoc.
    change ("" +:+ dec n) with (dec n). by rewrite parse_i64_dec by done.
Qed.

(** A string as the bytes of characters: an ASCII byte is a character of its own. *)
Definition encoded (cs : list char) : bool :=
  forallb (λ c, match c with String b (String _ _) => (128 <=? N_of_ascii b)%N | _ => true end) cs.
Definition text_ok (s : string) : bool :=
  negb (continues s) && encoded (chars s) && forallb (λ c, negb (String.eqb c Lexer.backslash)) (chars s).
Lemma replace_char_app (q : ascii) r a b : replace_char q r (a +:+ b) = replace_char q r a +:+ replace_char q r b.
Proof.
  induction a as [|x a IH]; [done|]. change (String x a +:+ b) with (String x (a +:+ b)). cbn [replace_char].
  rewrite IH. destruct (Ascii.eqb x q); [by rewrite str_app_assoc|done].
Qed.
Lemma continuation_not_quote b : continuation b = true → Ascii.eqb b "034" = false.
Proof. by destruct b as [[] [] [] [] [] [] [] []]; vm_compute. Qed.
Lemma replace_continuation r c : str_all continuation c = true → replace_char "034" r c = c.
Proof.
  induction c as [|b c IH]; [done|]. cbn [str_all replace_char]. intros [Hb Hc]%andb_true_iff.
  rewrite continuation_not_quote by done. by rewrite IH.
Qed.
Lemma replace_quotes cs :
  Forall (λ c, wf_char c = true) cs → encoded cs = true →
  forallb (λ c, negb (String.eqb c Lexer.backslash)) cs = true →
  replace_char "034" ("\" +:+ Lexer.quote_mark) (of_chars cs) = of_chars (c ← cs; escape c).
Proof.
  induction 1 as [|c cs Hc _ IH]; [done|]. cbn [encoded forallb].
  intros [He Hes]%andb_true_iff [Hb Hbs]%andb_true_iff.
  cbn [of_chars]. rewrite bind_cons, of_chars_app, replace_char_app, IH by done. f_equal.
  apply negb_true_iff in Hb. unfold escape. rewrite Hb, orb_false_r.
  destruct c as [|b c]; [done|]. cbn in Hc. apply andb_true_iff in Hc as [_ Hc]. cbn [replace_char].
  destruct (Ascii.eqb_spec b "034") as [->|Hne].
  - destruct c as [|b' c]; [done|]. by vm_compute in He.
  - rewrite (replace_continuation _ c Hc). assert (String.eqb (String b c) Lexer.quote_mark = false) as ->.
    { apply String.eqb_neq. intros [= -> _]. done. }
    cbn [of_chars]. by rewrite str_app_nil_r.
Qed.
Lemma piece_string s : text_ok s = true →
  piece false false (Lexer.quote_mark +:+ replace_char "034" ("\" +:+ Lexer.quote_mark) s +:+ Lexer.quote_mark) [TString s].
Proof.
  intros [[Hc He]%andb_true_iff Hb]%andb_true_iff. apply negb_true_iff in Hc. pose proof (chars_wf s Hc) as Hwf.
  rewrite <- (Lexer.of_chars_chars s) at 1. rewrite replace_quotes by done.
  replace (Lexer.quote_mark +:+ of_chars (c ← chars s; escape c) +:+ Lexer.quote_mark)
    with (of_chars (Lexer.quote_mark :: (c ← chars s; escape c) ++ [Lexer.quote_mark])).
  2: { cbn [of_chars]. rewrite of_chars_app. cbn [of_chars]. by rewrite str_app_nil_r. }
  apply piece_token; [done| |done|].
  - apply (spelled_read 0 (TString s) _ []). cbn [spell]. by rewrite Hc.
  - intros f l _. cbn [app Lexer.next_token Lexer.skip_whitespace].
    destruct (next_special Lexer.quote_mark) as (-> & -> & _); [done..|]. cbn.
    unfold Lexer.read_string. cbn [Lexer.current_char head Lexer.advance tail].
    rewrite <-app_assoc. cbn [app]. rewrite string_read. by rewrite Lexer.of_chars_chars.
Qed.

(** *** Sequences *)

Lemma piece_empty : piece false false "" [].
Proof. by exists []. Qed.
Lemma piece_comma : piece true false ", " [Comma].
Proof.
  apply (piece_app true false true false "," " " [Comma] []); [done| |by apply piece_space].
  apply (plain_operator "," Comma). by left.
Qed.
(** Parts separated by commas. *)
Fixpoint comma_tokens (tss : list (list Token)) : list Token :=
  match tss with
  | [] => []
  | [ts] => ts
  | ts :: tss' => ts ++ Comma :: comma_tokens tss'
  end.
Lemma piece_commas texts tss :
  Forall2 (λ text ts, piece false true text ts) texts tss →
  piece false true (String.concat ", " texts) (comma_tokens tss).
Proof.
  induction 1 as [|text ts texts tss Ht Hts IH]; [apply (piece_strict _ false), piece_empty|].
  destruct Hts as [|text' ts' texts tss Ht' Hts]; [exact Ht|].
  change (String.concat ", " (text :: text' :: texts)) with (text +:+ ", " +:+ String.concat ", " (text' :: texts)).
  change (comma_tokens (ts :: ts' :: tss)) with (ts ++ [Comma] ++ comma_tokens (ts' :: tss)).
  apply (piece_app false true true true); [done|exact Ht|].
  by apply (piece_app true false false true ); [|exact piece_comma|].
Qed.
End Texts.
