(* ===== verification/SqlProps.v ===== *)
(** * SQL: what the translation means

    [sdbql_of]: the SDBQL expression a SQL expression stands for. [level_of]: the
    level of the SDBQL grammar at which its text is read, where the text is read as
    that expression at all: operands bind tighter than their operator without
    parentheses, which the translation does not write. *)

From S2P Require Import Prelude Text Json Transaction Codec Indexes SdbqlLexer SdbqlAst SdbqlParser SdbqlGrammar SdbqlParsed SdbqlPrint SdbqlProps SqlLexer SqlParser SqlTotal SqlTranslator SqlText.
Import Indexes.
Import Token Cursor Parse Translator.

Section SqlExpr_induction.
Import SqlAst.
Variable P : SqlExpr → Prop.
Hypothesis H_column : ∀ n, P (Column n).
Hypothesis H_qualified : ∀ t c, P (QualifiedColumn t c).
Hypothesis H_integer : ∀ n, P (Integer n).
Hypothesis H_float : ∀ n, P (Float n).
Hypothesis H_string : ∀ s, P (EString s).
Hypothesis H_boolean : ∀ b, P (Boolean b).
Hypothesis H_null : P Null.
Hypothesis H_placeholder : ∀ n, P (Placeholder n).
Hypothesis H_binary : ∀ l op r, P l → P r → P (Binary l op r).
Hypothesis H_not : ∀ e, P e → P (Not e).
Hypothesis H_is_null : ∀ e, P e → P (IsNull e).
Hypothesis H_is_not_null : ∀ e, P e → P (IsNotNull e).
Hypothesis H_between : ∀ e low high, P e → P low → P high → P (Between e low high).
Hypothesis H_in_list : ∀ e l, P e → Forall P l → P (InList e l).
Hypothesis H_function : ∀ n args, Forall P args → P (Function n args).
Fixpoint SqlExpr_nested_ind (e : SqlExpr) : P e :=
  let fix all (l : list SqlExpr) : Forall P l :=
    match l with [] => Forall_nil_2 P | x :: l' => Forall_cons_2 P x l' (SqlExpr_nested_ind x) (all l') end in
  match e with
  | Column n => H_column n
  | QualifiedColumn t c => H_qualified t c
  | Integer n => H_integer n
  | Float n => H_float n
  | EString s => H_string s
  | Boolean b => H_boolean b
  | Null => H_null
  | Placeholder n => H_placeholder n
  | Binary l op r => H_binary l op r (SqlExpr_nested_ind l) (SqlExpr_nested_ind r)
  | Not e => H_not e (SqlExpr_nested_ind e)
  | IsNull e => H_is_null e (SqlExpr_nested_ind e)
  | IsNotNull e => H_is_not_null e (SqlExpr_nested_ind e)
  | Between e low high =>
      H_between e low high (SqlExpr_nested_ind e) (SqlExpr_nested_ind low) (SqlExpr_nested_ind high)
  | InList e l => H_in_list e l (SqlExpr_nested_ind e) (all l)
  | Function n args => H_function n args (all args)
  end.
End SqlExpr_induction.

(** Membership in a list of constants. *)
Ltac listed_now := apply (bool_decide_unpack _); vm_compute; exact I.

Section Props.
Context {Num : Type} `{json_number : !JsonNumber Num} `{json_text : !JsonText Num}.
Context `{char_tables : !CharTables} `{float_text : !FloatText} `{char_laws : !CharTablesLaws}.
Context `{token_show : !TokenDebug} `{sql_debug : !SqlTokenDebug}.
Context `{std_text : !StdText} `{order : !HashOrder} `{f64_text : !F64Display}.
Notation Expression := (Expression Num).
Notation Query := (Query Expression).

(** ** The expression that is meant *)

Definition number (n : Z) : Expression := Expression.Literal (Json.Number (num_of_i64 n)).
Definition null : Expression := Expression.Literal Json.Null.
Definition op_of (op : SqlAst.BinaryOp) : BinaryOperator :=
  match op with
  | SqlAst.Eq => BinaryOperator.Equal | SqlAst.NotEq => BinaryOperator.NotEqual
  | SqlAst.Lt => BinaryOperator.LessThan | SqlAst.LtEq => BinaryOperator.LessThanOrEqual
  | SqlAst.Gt => BinaryOperator.GreaterThan | SqlAst.GtEq => BinaryOperator.GreaterThanOrEqual
  | SqlAst.And => BinaryOperator.And | SqlAst.Or => BinaryOperator.Or
  | SqlAst.Plus => BinaryOperator.Add | SqlAst.Minus => BinaryOperator.Subtract
  | SqlAst.Multiply => BinaryOperator.Multiply | SqlAst.Divide => BinaryOperator.Divide
  | SqlAst.Modulo => BinaryOperator.Modulus | SqlAst.Like => BinaryOperator.Like
  end.
Fixpoint sdbql_of (doc : string) (e : SqlAst.SqlExpr) : Expression :=
  match e with
  | SqlAst.Column name =>
      if String.eqb name "*" then Expression.Var doc else Expression.FieldAccess (Expression.Var doc) name
  | SqlAst.QualifiedColumn table column => Expression.FieldAccess (Expression.Var table) column
  | SqlAst.Integer n => number n
  | SqlAst.Float n => null
  | SqlAst.EString s => Expression.Literal (Json.JString s)
  | SqlAst.Boolean b => Expression.Literal (Json.Bool b)
  | SqlAst.Null => null
  | SqlAst.Placeholder name => Expression.BindVariable name
  | SqlAst.Binary l op r => Expression.BinaryOp (sdbql_of doc l) (op_of op) (sdbql_of doc r)
  | SqlAst.Not e => Expression.UnaryOp UnaryOperator.Not (sdbql_of doc e)
  | SqlAst.IsNull e => Expression.BinaryOp (sdbql_of doc e) BinaryOperator.Equal null
  | SqlAst.IsNotNull e => Expression.BinaryOp (sdbql_of doc e) BinaryOperator.NotEqual null
  | SqlAst.Between e low high =>
      Expression.BinaryOp
        (Expression.BinaryOp (sdbql_of doc e) BinaryOperator.GreaterThanOrEqual (sdbql_of doc low)) BinaryOperator.And
        (Expression.BinaryOp (sdbql_of doc e) BinaryOperator.LessThanOrEqual (sdbql_of doc high))
  | SqlAst.InList e l => Expression.BinaryOp (sdbql_of doc e) BinaryOperator.In (Expression.Array (sdbql_of doc <$> l))
  | SqlAst.Function name args => Expression.FunctionCall (to_uppercase name) (sdbql_of doc <$> args)
  end.

Definition op_level (op : SqlAst.BinaryOp) : nat :=
  match op with
  | SqlAst.Or => 4
  | SqlAst.And => 5
  | SqlAst.Plus | SqlAst.Minus => 12
  | SqlAst.Multiply | SqlAst.Divide | SqlAst.Modulo => 13
  | _ => 9
  end.
Definition op_token (op : SqlAst.BinaryOp) : Token :=
  match op with
  | SqlAst.Eq => Equal | SqlAst.NotEq => NotEqual | SqlAst.Lt => LessThan | SqlAst.LtEq => LessThanEq
  | SqlAst.Gt => GreaterThan | SqlAst.GtEq => GreaterThanEq | SqlAst.And => And | SqlAst.Or => Or
  | SqlAst.Plus => Plus | SqlAst.Minus => Minus | SqlAst.Multiply => Star | SqlAst.Divide => Slash
  | SqlAst.Modulo => Percent | SqlAst.Like => Like
  end.
Definition at_least (k : nat) (o : option nat) : bool := match o with Some l => k <=? l | None => false end.
(** [b]: whether the operator IN is switched on where the text is read. *)
Fixpoint level_of (b : bool) (e : SqlAst.SqlExpr) : option nat :=
  match e with
  | SqlAst.Column name => if String.eqb name "*" then Some 16 else if is_name name then Some 15 else None
  | SqlAst.QualifiedColumn table column => if is_name table && is_name column then Some 15 else None
  | SqlAst.Integer n => if (0 <=? n)%Z && (n <=? i64_max)%Z then Some 16 else None
  | SqlAst.Float n => None
  | SqlAst.EString s => if text_ok s then Some 16 else None
  | SqlAst.Boolean _ | SqlAst.Null => Some 16
  | SqlAst.Placeholder name => if is_word name then Some 16 else None
  | SqlAst.Binary l op r =>
      if at_least (op_level op) (level_of b l) && at_least (S (op_level op)) (level_of b r)
      then Some (op_level op) else None
  | SqlAst.Not e => if at_least 0 (level_of b e) then Some 14 else None
  | SqlAst.IsNull e | SqlAst.IsNotNull e => if at_least 9 (level_of b e) then Some 9 else None
  | SqlAst.Between e low high =>
      if at_least 9 (level_of b e) && at_least 10 (level_of b low) && at_least 10 (level_of b high)
      then Some 16 else None
  | SqlAst.InList e l =>
      if b && at_least 9 (level_of b e) && forallb (λ x, at_least 0 (level_of b x)) l then Some 9 else None
  | SqlAst.Function name args =>
      if is_name (to_uppercase name) && forallb (λ x, at_least 0 (level_of b x)) args then Some 16 else None
  end.

(** ** The text of an expression *)

Lemma phrase_lower b l k ts (e : Expression) : l ≤ k → k ≤ 16 → phrase b k ts e → phrase b l ts e.
Proof.
  intros Hl Hk. induction Hl as [|k Hl IH]; [done|]. intros H. apply IH; [lia|].
  by apply ph_lift; [lia|].
Qed.
Definition spelled_at (b : bool) (doc : string) (e : SqlAst.SqlExpr) (l : nat) : Prop :=
  ∃ ts, piece false true (translate_expr doc e) ts ∧ phrase b l ts (sdbql_of doc e).
(** An expression of a level stands where one of a lower level is expected. *)
Definition fits (b : bool) (doc : string) (k : nat) (e : SqlAst.SqlExpr) : Prop :=
  at_least k (level_of b e) = true → spelled_at b doc e k.
Lemma spelled_fits b doc e :
  (∀ l, level_of b e = Some l → l ≤ 16 ∧ spelled_at b doc e l) → ∀ k, fits b doc k e.
Proof.
  intros H k Hk. unfold at_least in Hk. destruct (level_of b e) as [l|]; [|done].
  destruct (H l eq_refl) as (Hl & ts & Hp & Hph). apply Nat.leb_le in Hk.
  exists ts. split; [done|]. by apply (phrase_lower b k l).
Qed.
Lemma piece_fixed_op op : piece true false (" " +:+ op_text op +:+ " ") [op_token op].
Proof.
  apply (piece_app true false false false " " _ [] [op_token op]); [done|by apply piece_space|].
  apply (piece_app false true true false _ " " [op_token op] []); [done| |by apply piece_space].
  destruct op; cbn [op_text op_token];
    first [eapply piece_opens, piece_strict, plain_operator; listed_now
          |apply stop_operator; listed_now
          |apply piece_keyword; listed_now].
Qed.
Lemma op_in_table b op : (op_level op, [op_token op], op_of op) ∈ binary_table b.
Proof. unfold binary_table. apply elem_of_app. left. destruct op; cbn [op_level op_token op_of]; set_solver. Qed.
Lemma op_level_bound op : op_level op ≤ 13.
Proof. destruct op; simpl; lia. Qed.

(** *** The fixed texts *)

Lemma piece_infix s a mid c ts1 tm ts2 :
  piece false true a ts1 → piece true false mid tm → piece false s c ts2 →
  piece false s (a +:+ mid +:+ c) (ts1 ++ tm ++ ts2).
Proof.
  intros Ha Hm Hc. apply (piece_app false true true s); [done|done|]. by apply (piece_app true false false s).
Qed.
Lemma piece_around s o c text to ts tc :
  piece false false o to → piece false true text ts → piece true s c tc →
  piece false s (o +:+ text +:+ c) (to ++ ts ++ tc).
Proof.
  intros Ho Ht Hc. apply (piece_app false false false s); [done|done|]. by apply (piece_app false true true s).
Qed.
Lemma piece_symbol text t : (text, t) ∈ plain_operators → piece false false text [t].
Proof. intros H. by eapply piece_opens, plain_operator. Qed.
Lemma piece_close text t : (text, t) ∈ plain_operators → starts_stop text = true → piece true false text [t].
Proof. intros H Hs. rewrite <- Hs. by apply plain_operator. Qed.
Lemma piece_word_space x t : (x, t) ∈ Lexer.keywords → piece false false (x +:+ " ") [t].
Proof.
  intros H. apply (piece_app false true true false x " " [t] []); [done|by apply piece_keyword|by apply piece_space].
Qed.
Lemma piece_null_of op : piece true true (" " +:+ op_text op +:+ " null") [op_token op; Null].
Proof.
  replace (" " +:+ op_text op +:+ " null") with ((" " +:+ op_text op +:+ " ") +:+ "null") by by rewrite !str_app_assoc.
  apply (piece_app true false false true _ _ [op_token op] [Null]); [done|apply piece_fixed_op|by apply piece_lower].
Qed.
Lemma piece_not_open : piece false false "NOT (" [Not; LeftParen].
Proof.
  apply (piece_app false false false false "NOT " "(" [Not] [LeftParen]); [done| |apply piece_symbol; listed_now].
  apply (piece_word_space "NOT"). listed_now.
Qed.
Lemma piece_in_open : piece true false " IN [" [In; LeftBracket].
Proof.
  apply (piece_app true false false false " " "IN [" [] [In; LeftBracket]); [done|by apply piece_space|].
  apply (piece_app false false false false "IN " "[" [In] [LeftBracket]); [done| |apply piece_symbol; listed_now].
  apply (piece_word_space "IN"). listed_now.
Qed.

(** *** Lists *)

Lemma items_of_phrases b tss (es : list Expression) :
  Forall2 (λ ts e, phrase b 0 ts e) tss es → items b (comma_tokens tss) es.
Proof.
  induction 1 as [|ts e tss es Hp Hps IH]; [constructor|].
  destruct Hps as [|ts' e' tss es Hp' Hps]; [by apply it_last|]. by apply it_cons.
Qed.
Lemma list_spelled b doc l :
  Forall (λ e, ∀ k, fits b doc k e) l → forallb (λ x, at_least 0 (level_of b x)) l = true →
  ∃ ts, piece false true (String.concat ", " (translate_expr doc <$> l)) ts ∧ items b ts (sdbql_of doc <$> l).
Proof.
  intros Hl Hat. rewrite forallb_forall in Hat.
  assert (∃ tss, Forall2 (λ text ts, piece false true text ts) (translate_expr doc <$> l) tss ∧
                 Forall2 (λ ts e, phrase b 0 ts e) tss (sdbql_of doc <$> l)) as (tss & H1 & H2).
  { induction Hl as [|e l He _ IH]; [by exists []|].
    destruct IH as (tss & H1 & H2); [intros x Hx; apply Hat; by right|].
    destruct (He 0 (Hat e ltac:(by left))) as (ts & Hp & Hph).
    exists (ts :: tss). split; by constructor. }
  exists (comma_tokens tss). split; [by apply piece_commas|by apply items_of_phrases].
Qed.

(** *** The cases *)

Lemma atom_spelled b doc e t : piece false true (translate_expr doc e) [t] → atom t = Some (sdbql_of doc e) →
  16 ≤ 16 ∧ spelled_at b doc e 16.
Proof. intros Hp Ha. split; [done|]. exists [t]. split; [done|]. by apply ph_atom. Qed.
Lemma field_spelled b x y : is_name x = true → is_name y = true →
  ∃ ts, piece false true (x +:+ "." +:+ y) ts ∧
    phrase b 15 ts (Expression.FieldAccess (Expression.Var x) y : Expression).
Proof.
  intros Hx Hy. exists [Identifier x; Dot; Identifier y]. split; [by apply piece_field|].
  apply (ph_field b [Identifier x] (Expression.Var x) (Identifier y) y); [done|done|].
  apply ph_lift; [lia|]. by apply ph_atom.
Qed.
Lemma binary_spelled b doc l op r :
  (∀ k, fits b doc k l) → (∀ k, fits b doc k r) → ∀ k, level_of b (SqlAst.Binary l op r) = Some k →
  k ≤ 16 ∧ spelled_at b doc (SqlAst.Binary l op r) k.
Proof.
  intros Hl Hr k. cbn [level_of]. destruct (at_least (op_level op) (level_of b l)) eqn:El; [|done].
  destruct (at_least (S (op_level op)) _) eqn:Er; [|done]. intros [= <-].
  pose proof (op_level_bound op). split; [lia|].
  destruct (Hl _ El) as (ts1 & Hp1 & Hph1), (Hr _ Er) as (ts2 & Hp2 & Hph2).
  exists (ts1 ++ [op_token op] ++ ts2). split.
  - cbn [translate_expr].
    replace (_ +:+ " " +:+ _ +:+ " " +:+ _) with
      (translate_expr doc l +:+ (" " +:+ op_text op +:+ " ") +:+ translate_expr doc r) by by rewrite !str_app_assoc.
    apply piece_infix; [done|apply piece_fixed_op|done].
  - cbn [sdbql_of]. apply ph_binary; [apply op_in_table|done|done].
Qed.
Lemma not_spelled b doc e : (∀ k, fits b doc k e) → ∀ k, level_of b (SqlAst.Not e) = Some k →
  k ≤ 16 ∧ spelled_at b doc (SqlAst.Not e) k.
Proof.
  intros He k. cbn [level_of]. destruct (at_least 0 _) eqn:E; [|done]. intros [= <-]. split; [lia|].
  destruct (He _ E) as (ts & Hp & Hph). exists ([Not; LeftParen] ++ ts ++ [RightParen]). split.
  - apply piece_around; [apply piece_not_open|done|]. eapply piece_strict, piece_close; [listed_now|done].
  - apply (ph_unary b Not UnaryOperator.Not (LeftParen :: ts ++ [RightParen])); [done|].
    apply (phrase_lower b 14 16); [lia..|]. by apply ph_paren.
Qed.
Lemma null_spelled b doc e op : op_level op = 9 → (∀ k, fits b doc k e) → at_least 9 (level_of b e) = true →
  ∃ ts, piece false true (translate_expr doc e +:+ " " +:+ op_text op +:+ " null") ts ∧
    phrase b 9 ts (Expression.BinaryOp (sdbql_of doc e) (op_of op) null).
Proof.
  intros Hop He E. destruct (He _ E) as (ts & Hp & Hph). exists (ts ++ [op_token op; Null]). split.
  - apply (piece_app false true true true); [done|done|]. apply piece_null_of.
  - apply (ph_binary b 9 [op_token op] (op_of op) ts _ [Null]); [rewrite <- Hop; apply op_in_table|done|].
    apply (phrase_lower b 10 16); [lia..|]. by apply ph_atom.
Qed.
Lemma between_spelled b doc e low high :
  (∀ k, fits b doc k e) → (∀ k, fits b doc k low) → (∀ k, fits b doc k high) → ∀ k,
  level_of b (SqlAst.Between e low high) = Some k → k ≤ 16 ∧ spelled_at b doc (SqlAst.Between e low high) k.
Proof.
  intros He Hl Hh k. cbn [level_of].
  destruct (at_least 9 (level_of b e)) eqn:E1; [|done]. destruct (at_least 10 (level_of b low)) eqn:E2; [|done].
  destruct (at_least 10 (level_of b high)) eqn:E3; [|done]. intros [= <-]. split; [lia|].
  destruct (He _ E1) as (ts & Hp & Hph), (Hl _ E2) as (tl & Hpl & Hphl), (Hh _ E3) as (th & Hph' & Hphh).
  exists ([LeftParen] ++ ((ts ++ [GreaterThanEq] ++ tl) ++ [And] ++ (ts ++ [LessThanEq] ++ th)) ++ [RightParen]). split.
  - cbn [translate_expr].
    replace ("(" +:+ _ +:+ " >= " +:+ _ +:+ " AND " +:+ _ +:+ " <= " +:+ _ +:+ ")") with
      ("(" +:+ ((translate_expr doc e +:+ " >= " +:+ translate_expr doc low) +:+ " AND " +:+
                (translate_expr doc e +:+ " <= " +:+ translate_expr doc high)) +:+ ")") by by rewrite !str_app_assoc.
    apply piece_around; [apply piece_symbol; listed_now| |eapply piece_strict, piece_close; [listed_now|done]].
    apply piece_infix; [|apply (piece_fixed_op SqlAst.And)|].
    + apply piece_infix; [done|apply (piece_fixed_op SqlAst.GtEq)|done].
    + apply piece_infix; [done|apply (piece_fixed_op SqlAst.LtEq)|done].
  - apply ph_paren. apply (phrase_lower b 0 5); [lia..|]. cbn [sdbql_of].
    apply (ph_binary b 5 [And] BinaryOperator.And); [apply (op_in_table b SqlAst.And)| |].
    + apply (phrase_lower b 5 9); [lia..|]. apply (ph_binary b 9 [GreaterThanEq]); [apply (op_in_table b SqlAst.GtEq)|done..].
    + apply (phrase_lower b 6 9); [lia..|]. apply (ph_binary b 9 [LessThanEq]); [apply (op_in_table b SqlAst.LtEq)|done..].
Qed.
Lemma in_spelled b doc e l :
  (∀ k, fits b doc k e) → Forall (λ e, ∀ k, fits b doc k e) l → ∀ k,
  level_of b (SqlAst.InList e l) = Some k → k ≤ 16 ∧ spelled_at b doc (SqlAst.InList e l) k.
Proof.
  intros He Hl k. cbn [level_of]. destruct b; [|done]. cbn [andb].
  destruct (at_least 9 (level_of true e)) eqn:E1; [|done]. destruct (forallb _ l) eqn:E2; [|done].
  intros [= <-]. split; [lia|]. destruct (He _ E1) as (ts & Hp & Hph), (list_spelled _ _ _ Hl E2) as (tl & Hpl & Hil).
  exists (ts ++ [In; LeftBracket] ++ tl ++ [RightBracket]). split.
  - cbn [translate_expr]. apply piece_infix; [done|apply piece_in_open|].
    apply (piece_app false true true true); [done|done|]. eapply piece_strict, piece_close; [listed_now|done].
  - cbn [sdbql_of]. apply (ph_binary true 9 [In] BinaryOperator.In); [unfold binary_table; set_solver|done|].
    apply (phrase_lower true 10 16); [lia..|]. by apply ph_array.
Qed.
Lemma function_spelled b doc name args :
  Forall (λ e, ∀ k, fits b doc k e) args → ∀ k,
  level_of b (SqlAst.Function name args) = Some k → k ≤ 16 ∧ spelled_at b doc (SqlAst.Function name args) k.
Proof.
  intros Hl k. cbn [level_of]. destruct (is_name (to_uppercase name)) eqn:En; [|done]. cbn [andb].
  destruct (forallb _ args) eqn:E2; [|done]. intros [= <-]. split; [lia|].
  destruct (list_spelled _ _ _ Hl E2) as (tl & Hpl & Hil).
  exists ([Identifier (to_uppercase name); LeftParen] ++ tl ++ [RightParen]). split.
  - cbn [translate_expr]. rewrite <- str_app_assoc.
    apply piece_around; [by apply piece_call|done|eapply piece_strict, piece_close; [listed_now|done]].
  - by apply ph_call.
Qed.
Lemma expr_spelled b doc e l : is_name doc = true → level_of b e = Some l → l ≤ 16 ∧ spelled_at b doc e l.
Proof.
  intros Hdoc. revert l.
  induction e as [n|t c|n|n|s|v| |n|e1 op e2 IH1 IH2|e IH|e IH|e IH|e1 e2 e3 IH1 IH2 IH3|e l' IH IHl|n args IHl]
    using SqlExpr_nested_ind; intros l.
  - cbn [level_of]. destruct (String.eqb n "*") eqn:E.
    + intros [= <-]. apply (atom_spelled _ _ _ (Identifier doc)); cbn [translate_expr sdbql_of]; rewrite E; [by apply piece_name|done].
    + destruct (is_name n) eqn:En; [|done]. intros [= <-]. split; [lia|].
      destruct (field_spelled b doc n Hdoc En) as (ts & Hp & Hph). exists ts.
      cbn [translate_expr sdbql_of]. by rewrite E.
  - cbn [level_of]. destruct (is_name t) eqn:Et; [|done]. destruct (is_name c) eqn:Ec; [|done]. intros [= <-].
    split; [lia|]. by apply field_spelled.
  - cbn [level_of]. destruct ((0 <=? n)%Z && (n <=? i64_max)%Z) eqn:E; [|done]. intros [= <-].
    apply andb_true_iff in E as [E0%Z.leb_le E1%Z.leb_le]. apply (atom_spelled _ _ _ (Integer n)); [|done].
    cbn [translate_expr]. unfold show_i64. assert ((n <? 0)%Z = false) as -> by by apply Z.ltb_ge.
    rewrite <- (Z2N.id n E0) at 2. apply piece_integer. unfold i64_max in E1. lia.
  - done.
  - cbn [level_of]. destruct (text_ok s) eqn:E; [|done]. intros [= <-].
    apply (atom_spelled _ _ _ (TString s)); [|done]. by apply (piece_strict _ false), piece_string.
  - intros [= <-]. apply (atom_spelled _ _ _ (if v then TTrue else TFalse)); [|by destruct v].
    destruct v; by apply piece_lower.
  - intros [= <-]. apply (atom_spelled _ _ _ Null); [by apply piece_lower|done].
  - cbn [level_of]. destruct (is_word n) eqn:E; [|done]. intros [= <-].
    apply (atom_spelled _ _ _ (BindVar n)); [by apply piece_bind_var|done].
  - apply binary_spelled; by apply spelled_fits.
  - apply not_spelled; by apply spelled_fits.
  - cbn [level_of]. destruct (at_least 9 _) eqn:E; [|done]. intros [= <-]. split; [lia|].
    by apply (null_spelled b doc e SqlAst.Eq); [|apply spelled_fits|].
  - cbn [level_of]. destruct (at_least 9 _) eqn:E; [|done]. intros [= <-]. split; [lia|].
    by apply (null_spelled b doc e SqlAst.NotEq); [|apply spelled_fits|].
  - apply between_spelled; by apply spelled_fits.
  - apply in_spelled; [by apply spelled_fits|]. eapply Forall_impl; [exact IHl|]. intros x Hx. by apply spelled_fits.
  - apply function_spelled. eapply Forall_impl; [exact IHl|]. intros x Hx. by apply spelled_fits.
Qed.
End Props.
