(* ===== verification/SqlQueries.v ===== *)
(** * SQL: the queries the statements are translated to

    [select_query], [delete_query] and [update_query] are the SDBQL queries SELECT,
    DELETE and UPDATE stand for; the theorems show that the text of the translation
    is read by the SDBQL parser as these queries, and where it is not. *)

From S2P Require Import Prelude Text Json Transaction Codec Indexes SdbqlLexer SdbqlAst SdbqlParser SdbqlGrammar SdbqlParsed SdbqlPrint SdbqlProps SqlLexer SqlParser SqlTotal SqlTranslator SqlText SqlProps.
Import Indexes.
Import Token Cursor Parse Translator.

Section Queries.
Context {Num : Type} `{json_number : !JsonNumber Num} `{json_text : !JsonText Num}.
Context `{char_tables : !CharTables} `{float_text : !FloatText} `{char_laws : !CharTablesLaws}.
Context `{token_show : !TokenDebug} `{sql_debug : !SqlTokenDebug}.
Context `{std_text : !StdText} `{order : !HashOrder} `{f64_text : !F64Display}.
Notation Expression := (Expression Num).
Notation Query := (Query Expression).
Notation Body := (Body (Num := Num)).
Implicit Types (n : nat) (ts r : list Token).

(** ** Reading the clauses of a body *)

Definition step_reads ts (f : Body → Body) : Prop := ∀ n b r,
  Lexer.weight ts < n → follow true 0 r →
  body_step (parse_expression (Num:=Num) n) b (mkParser (ts ++ r) true) = Done (Some (f b), mkParser r true).
(** The tokens that end a body. *)
Definition ends_body r : Prop := cur r ∈ [Sort; Limit; Return; Eof].
Lemma ends_follow r : ends_body r → follow true 0 r.
Proof.
  unfold ends_body, follow. intros H. destruct (cur r); try done;
    repeat (apply elem_of_cons in H as [H|H]; [discriminate H|]); by apply elem_of_nil in H.
Qed.
Lemma body_stop n b r : ends_body r →
  body_step (parse_expression (Num:=Num) n) b (mkParser r true) = Done (None, mkParser r true).
Proof.
  intros H. unfold body_step. rewrite run_current. unfold ends_body in H.
  unfold mbind, P_bind, peek_token.
  repeat (apply elem_of_cons in H as [->|H]; [done|]). by apply elem_of_nil in H.
Qed.
(** The first token of a clause does not continue an expression. *)
Definition clause_start ts : Prop := ts ≠ [] ∧ ∀ r, follow true 0 (ts ++ r).
Lemma body_run n clauses b r fuel :
  Forall (λ c : list Token * (Body → Body), clause_start c.1 ∧ step_reads c.1 c.2 ∧ Lexer.weight c.1 < n) clauses →
  ends_body r → length clauses < fuel →
  iterate (body_step (parse_expression (Num:=Num) n)) fuel b (mkParser (concat clauses.*1 ++ r) true) =
  Done (foldl (λ b c, c.2 b) b clauses, mkParser r true).
Proof.
  intros H Hr. revert b fuel. induction H as [|[ts f] clauses (Hs & Hst & Hw) Hcs IH]; intros b fuel Hf.
  - destruct fuel as [|fuel]; [lia|]. cbn [concat fmap list_fmap app iterate].
    by erewrite run_bind by by apply body_stop.
  - destruct fuel as [|fuel]; [lia|]. cbn [iterate fst snd] in *.
    change (concat ((ts, f) :: clauses).*1) with (ts ++ concat clauses.*1). rewrite <- app_assoc.
    erewrite run_bind; [|apply Hst; [done|]].
    + apply IH. simpl in Hf. lia.
    + destruct Hcs as [|[ts' f'] clauses ([_ Hs'] & _) _]; [by apply ends_follow|].
      change (concat ((ts', f') :: clauses).*1) with (ts' ++ concat clauses.*1). rewrite <- app_assoc. apply Hs'.
Qed.
Lemma run_clauses n clauses (o : outcome (Query * Parser)) r :
  clauses ≠ [] → (∀ c, head clauses = Some c → cur (c.1 ++ r) ∉ [Create; Refresh; Let]) →
  Forall (λ c : list Token * (Body → Body), clause_start c.1 ∧ step_reads c.1 c.2 ∧ Lexer.weight c.1 < n) clauses →
  ends_body r →
  query_end (parse_expression n) true None None None [] (foldl (λ b c, c.2 b) (mkBody [] [] []) clauses)
    (mkParser r true) = o →
  parse_query (Num:=Num) (S n) true (mkParser (concat clauses.*1 ++ r) true) = o.
Proof.
  intros Hne Hhd Hall Hr <-. cbn [parse_query]. unfold query_clauses.
  assert (cur (concat clauses.*1 ++ r) ∉ [Create; Refresh; Let]) as Hcur.
  { destruct clauses as [|[ts f] clauses]; [done|]. specialize (Hhd _ eq_refl). cbn [fst] in Hhd.
    apply Forall_cons in Hall as [[[Hts _] _] _]. cbn [fst] in Hts.
    change (concat ((ts, f) :: clauses).*1) with (ts ++ concat clauses.*1). by destruct ts. }
  rewrite !not_elem_of_cons in Hcur. destruct Hcur as (H1 & H2 & H3 & _).
  erewrite run_bind.
  2: { unfold parse_create. rewrite run_current. by rewrite decide_False by exact H1. }
  cbv beta iota. erewrite run_bind by by apply optional_skip.
  erewrite run_bind.
  2: { apply iterate_stop. unfold let_step. rewrite run_current. by rewrite decide_False by exact H3. }
  unfold iterate_from. unfold mbind at 1, P_bind at 1. rewrite run_looping.
  rewrite (body_run n clauses); [done|done|done|]. cbn [rest].
  assert (length clauses ≤ Lexer.weight (concat clauses.*1)) as Hlen.
  { clear -Hall. induction Hall as [|[ts f] clauses ([Hts _] & _) _ IH]; [done|]. cbn [fst] in Hts.
    change (concat ((ts, f) :: clauses).*1) with (ts ++ concat clauses.*1). rewrite weight_app.
    destruct ts as [|t ts]; [done|]. rewrite weight_cons. pose proof (Lexer.token_weight_pos t). simpl. lia. }
  rewrite weight_app. lia.
Qed.

(** ** The clauses of the translations *)

Definition add_for (d t : string) (b : Body) : Body := push_for b (OfFor (mkFor d t (Some t) None)).
Lemma for_reads d t : step_reads [For; Identifier d; In; Identifier t] (add_for d t).
Proof. intros n b r _ _. reflexivity. Qed.
Definition add_filter (e : Expression) (b : Body) : Body :=
  mkBody (b_for b) (b_filter b ++ [mkFilter e]) (b_body b ++ [BodyClause.Filter (mkFilter e)]).
Lemma filter_reads ts e : phrase true 0 ts e → step_reads (Filter :: ts) (add_filter e).
Proof.
  intros Hp n b r Hw Hf. rewrite weight_cons in Hw. simpl in Hw. unfold body_step.
  rewrite run_current. unfold mbind at 1, P_bind at 1, peek_token. cbn [app cur]. cbv iota.
  change (cur (Filter :: ts ++ r)) with Filter. rewrite decide_False by done. rewrite decide_True by done.
  unfold parse_filter_clause. unfold mbind at 1, P_bind at 1. rewrite run_expect.
  erewrite run_bind by (apply run_rec; [by apply phrase_claim|lia|done]). done.
Qed.
Definition add_remove (d t : string) (b : Body) : Body :=
  push_body b [BodyClause.Remove (mkRemove (Expression.Var d) t)].
Lemma remove_reads d t : step_reads [Remove; Identifier d; In; Identifier t] (add_remove d t).
Proof.
  intros n b r Hw Hf. unfold body_step. rewrite run_current. unfold mbind at 1, P_bind at 1, peek_token. cbn [app].
  change (cur (Remove :: _)) with Remove. repeat (rewrite decide_False by done). rewrite decide_True by done.
  unfold parse_remove_clause. unfold mbind at 1, P_bind at 1. rewrite run_expect.
  unfold without_in. unfold mbind at 1, P_bind at 1. unfold mbind at 1, P_bind at 1, set_allow_in. cbn [rest].
  unfold mbind at 1, P_bind at 1.
  rewrite (run_rec false [Identifier d] (Expression.Var d) n (In :: Identifier t :: r)); [done| |simpl in Hw |-*; lia|done].
  apply phrase_claim. apply (phrase_lower false 0 16); [lia..|]. by apply ph_atom.
Qed.
Definition add_update (d t : string) (fs : list (string * Expression)) (b : Body) : Body :=
  push_body b [BodyClause.Update (mkUpdate (Expression.Var d) (Expression.Object fs) t)].
Lemma update_reads d t ts fs : fields false ts fs →
  step_reads ([Update; Identifier d; With; LeftBrace] ++ ts ++ [RightBrace; In; Identifier t]) (add_update d t fs).
Proof.
  intros Hfs n b r Hw Hf. rewrite !weight_app in Hw. simpl in Hw.
  unfold body_step. rewrite run_current. unfold mbind at 1, P_bind at 1, peek_token. cbn [app].
  change (cur (Update :: _)) with Update. repeat (rewrite decide_False by done). rewrite decide_True by done.
  unfold parse_update_clause. unfold mbind at 1, P_bind at 1. rewrite run_expect.
  rewrite <- app_assoc. cbn [app]. unfold mbind at 1, P_bind at 1.
  rewrite (run_rec true [Identifier d] (Expression.Var d) n (With :: LeftBrace :: ts ++ RightBrace :: In :: Identifier t :: r));
    [|apply phrase_claim, (phrase_lower true 0 16); [lia..|by apply ph_atom]|simpl; lia|done].
  rewrite run_expect. unfold without_in.
  unfold mbind at 1, P_bind at 1. unfold mbind at 1, P_bind at 1, set_allow_in. cbn [rest].
  unfold mbind at 1, P_bind at 1.
  replace (LeftBrace :: ts ++ RightBrace :: In :: Identifier t :: r)
    with ((LeftBrace :: ts ++ [RightBrace]) ++ In :: Identifier t :: r) by (cbn [app]; by rewrite <- app_assoc).
  rewrite (run_rec false (LeftBrace :: ts ++ [RightBrace]) (Expression.Object fs)); [done| | |done].
  - apply phrase_claim, (phrase_lower false 0 16); [lia..|]. by apply ph_object.
  - rewrite weight_cons, weight_app. simpl. lia.
Qed.

(** ** SORT, LIMIT and RETURN *)

Lemma comma_loop_run {A} (item : P A) tss xs acc fuel r :
  Forall2 (λ ts x, ∀ r, item (mkParser (ts ++ r) true) = Done (x, mkParser r true)) tss xs →
  tss ≠ [] → cur r ≠ Comma → length tss ≤ fuel →
  comma_loop item fuel acc (mkParser (comma_tokens tss ++ r) true) = Done (acc ++ xs, mkParser r true).
Proof.
  intros H Hne Hr. revert acc fuel. induction H as [|ts x tss xs Hx Hxs IH]; intros acc fuel Hf; [done|].
  destruct fuel as [|fuel]; [simpl in Hf; lia|]. cbn [comma_loop].
  destruct Hxs as [|ts' x' tss xs Hx' Hxs].
  - cbn [comma_tokens]. erewrite run_bind by apply Hx. rewrite run_current. by rewrite decide_False.
  - change (comma_tokens (ts :: ts' :: tss)) with (ts ++ Comma :: comma_tokens (ts' :: tss)). rewrite <- app_assoc.
    erewrite run_bind by apply Hx. rewrite run_current. cbn [app]. change (cur (Comma :: _)) with Comma.
    rewrite decide_True by done. rewrite run_advance.
    rewrite IH; [by rewrite <- app_assoc|done|simpl in *; lia].
Qed.
Lemma comma_tokens_weight tss : Forall (λ ts, ts ≠ []) tss → length tss ≤ Lexer.weight (comma_tokens tss).
Proof.
  induction 1 as [|ts tss Hts Htss IH]; [simpl; lia|].
  assert (1 ≤ Lexer.weight ts). { destruct ts as [|t ts]; [done|]. rewrite weight_cons. pose proof (Lexer.token_weight_pos t). lia. }
  destruct tss as [|ts' tss]; [simpl; lia|].
  change (comma_tokens (ts :: ts' :: tss)) with (ts ++ Comma :: comma_tokens (ts' :: tss)).
  rewrite weight_app, weight_cons. simpl length in *. lia.
Qed.
Definition direction_token (item : SqlAst.OrderByItem) : Token := if SqlAst.descending item then Desc else Asc.
Definition sort_tokens (doc : string) (item : SqlAst.OrderByItem) : list Token :=
  [Identifier doc; Dot; Identifier (SqlAst.order_column item); direction_token item].
Definition sort_field (doc : string) (item : SqlAst.OrderByItem) : Expression * bool :=
  (Expression.FieldAccess (Expression.Var doc) (SqlAst.order_column item), negb (SqlAst.descending item)).
Lemma sort_field_run n doc item r : 3 < n →
  parse_sort_field (parse_expression (Num:=Num) n) (mkParser (sort_tokens doc item ++ r) true) =
  Done (sort_field doc item, mkParser r true).
Proof.
  intros Hn. unfold parse_sort_field, sort_tokens. cbn [app].
  erewrite run_bind.
  2: { apply (run_rec true [Identifier doc; Dot; Identifier (SqlAst.order_column item)]
         (Expression.FieldAccess (Expression.Var doc) (SqlAst.order_column item)) n (direction_token item :: r)).
       - apply phrase_claim, (phrase_lower true 0 15); [lia..|].
         apply (ph_field true [Identifier doc] (Expression.Var doc) (Identifier _)); [done|done|].
         apply ph_lift; [lia|]. by apply ph_atom.
       - simpl. lia.
       - unfold direction_token. by destruct (SqlAst.descending item). }
  rewrite run_current. unfold sort_field, direction_token. by destruct (SqlAst.descending item).
Qed.
Definition sort_part (doc : string) (items : list SqlAst.OrderByItem) : list Token :=
  match items with [] => [] | _ => Sort :: comma_tokens (sort_tokens doc <$> items) end.
Definition sort_clause (doc : string) (items : list SqlAst.OrderByItem) : option (SortClause Expression) :=
  match items with [] => None | _ => Some (mkSort (sort_field doc <$> items)) end.
Lemma sort_run n doc items r :
  3 < n → cur r ∈ [Limit; Return] →
  optional_clause Sort (parse_sort_clause (parse_expression (Num:=Num) n)) (mkParser (sort_part doc items ++ r) true) =
  Done (sort_clause doc items, mkParser r true).
Proof.
  intros Hn Hr. assert (cur r ≠ Sort ∧ cur r ≠ Comma) as [Hs Hc].
  { repeat (apply elem_of_cons in Hr as [->|Hr]; [done|]). by apply elem_of_nil in Hr. }
  destruct items as [|item items]; [by apply optional_skip|]. cbn [sort_part sort_clause app].
  unfold optional_clause. rewrite run_current. change (cur (Sort :: _)) with Sort. rewrite decide_True by done.
  unfold parse_sort_clause. unfold mbind at 1, P_bind at 1. rewrite run_expect.
  unfold comma_separated. unfold mbind at 1, P_bind at 1. rewrite run_looping.
  rewrite (comma_loop_run _ (sort_tokens doc <$> item :: items) (sort_field doc <$> item :: items)); [done| |done|done|].
  - induction (item :: items) as [|x l IH]; [constructor|]. cbn. constructor; [|done]. intros r'. by apply sort_field_run.
  - cbn [rest]. rewrite weight_app.
    pose proof (comma_tokens_weight (sort_tokens doc <$> item :: items)) as Hw.
    assert (Forall (λ ts, ts ≠ []) (sort_tokens doc <$> item :: items)) as Hall by (apply Forall_fmap, Forall_true; done).
    specialize (Hw Hall). rewrite length_fmap in *. lia.
Qed.
Lemma atom_run n t e r : 1 < n → atom t = Some e → follow true 0 r →
  parse_expression (Num:=Num) n (mkParser (t :: r) true) = Done (e, mkParser r true).
Proof.
  intros Hn Ha Hf. apply (run_rec true [t] e n r); [|simpl; destruct t; simpl in *; try lia; done|done].
  apply phrase_claim, (phrase_lower true 0 16); [lia..|]. by apply ph_atom.
Qed.
Definition limit_tokens (limit offset : option Z) : list Token :=
  match limit with
  | Some l => match offset with Some o => [Limit; Integer o; Comma; Integer l] | None => [Limit; Integer l] end
  | None => []
  end.
Definition limit_clause (limit offset : option Z) : option (LimitClause Expression) :=
  (λ l, mkLimit (number (default 0%Z offset)) (number l)) <$> limit.
Lemma limit_run n limit offset r :
  1 < n → cur r = Return →
  optional_clause Limit (parse_limit_clause (parse_expression (Num:=Num) n)) (mkParser (limit_tokens limit offset ++ r) true) =
  Done (limit_clause limit offset, mkParser r true).
Proof.
  intros Hn Hr. destruct limit as [l|]; [|apply optional_skip; by rewrite Hr].
  assert (follow true 0 r) as Hf by (unfold follow; by rewrite Hr).
  unfold optional_clause. rewrite run_current. unfold parse_limit_clause.
  destruct offset as [o|]; cbn [limit_tokens app]; change (cur (Limit :: _)) with Limit; rewrite decide_True by done;
    unfold mbind at 1, P_bind at 1; rewrite run_expect; unfold mbind at 1, P_bind at 1.
  - rewrite (atom_run n (Integer o) (number o)); [|done|done|done]. rewrite run_current.
    change (cur (Comma :: _)) with Comma. rewrite decide_True by done. rewrite run_advance.
    unfold mbind at 1, P_bind at 1. by rewrite (atom_run n (Integer l) (number l)).
  - rewrite (atom_run n (Integer l) (number l)); [|done|done|done]. rewrite run_current. by rewrite decide_False by by rewrite Hr.
Qed.
(** The end of a query that sorts, limits and returns. *)
Definition end_query (b : Body) sort limit (e : Expression) : Query :=
  mkQuery [] (b_for b) (joins_of (b_body b)) (b_filter b) sort limit (Some (mkReturn e)) None None None
    (window_of (b_body b)) (b_body b).
Lemma query_end_run n b doc items limit offset ts e :
  phrase true 0 ts e → 3 < n → Lexer.weight ts < n →
  query_end (parse_expression (Num:=Num) n) true None None None [] b
    (mkParser (sort_part doc items ++ limit_tokens limit offset ++ Return :: ts ++ [Eof]) true) =
  Done (end_query b (sort_clause doc items) (limit_clause limit offset) e, mkParser [Eof] true).
Proof.
  intros Hp Hn Hw. unfold query_end.
  erewrite run_bind; [|apply sort_run; [done|destruct limit as [l|]; [destruct offset|]; by (left || right; left)]].
  erewrite run_bind by (apply limit_run; [lia|done]).
  unfold optional_clause at 1, parse_return_clause. unfold mbind at 1, P_bind at 1. rewrite run_current.
  change (cur (Return :: _)) with Return. rewrite decide_True by done.
  unfold mbind at 1, P_bind at 1. rewrite run_expect. unfold mbind at 1, P_bind at 1.
  rewrite (run_rec true ts e n [Eof]); [done|by apply phrase_claim|done|done].
Qed.

(** ** The text of the statements *)

Lemma parse_pieces text clauses ending b sort limit doc items lim off ts e :
  piece false true text (concat clauses.*1 ++ ending ++ Return :: ts) →
  ending = sort_part doc items ++ limit_tokens lim off →
  clauses ≠ [] → (∀ c, head clauses = Some c → ∀ r, cur (c.1 ++ r) ∉ [Create; Refresh; Let]) →
  Forall (λ c : list Token * (Body → Body), clause_start c.1 ∧ step_reads c.1 c.2) clauses →
  phrase true 0 ts e →
  b = foldl (λ b c, c.2 b) (mkBody [] [] []) clauses → sort = sort_clause doc items → limit = limit_clause lim off →
  parse text = Done (end_query b sort limit e).
Proof.
  intros Hp -> Hne Hhd Hall Hph -> -> ->. pose proof (piece_tokenize _ _ _ _ Hp) as Ht.
  pose proof (Lexer.tokenize_weight text) as Hw. rewrite Ht in Hw. destruct Hw as (ts' & Hts & _ & Hw & _).
  apply (inj (.++ [Eof])) in Hts as <-. rewrite !weight_app, weight_cons in Hw. simpl in Hw.
  unfold parse, new. rewrite Ht. cbn [mbind outcome_mbind outcome_bind].
  unfold parse_fuel. replace (2 * String.length text + 4) with (S (2 * String.length text + 3)) by lia.
  rewrite <- !app_assoc. cbn [app].
  assert (Forall (λ c, Lexer.weight c.1 ≤ Lexer.weight (concat clauses.*1)) clauses) as Hcw.
  { clear. induction clauses as [|c clauses IH]; [constructor|].
    change (concat (c :: clauses).*1) with (c.1 ++ concat clauses.*1). rewrite weight_app.
    constructor; [lia|]. eapply Forall_impl; [exact IH|]. cbn beta. intros c'. lia. }
  assert (1 ≤ Lexer.weight (concat clauses.*1)) as Hcl.
  { destruct clauses as [|c clauses]; [done|]. apply Forall_cons in Hall as [[[Hc _] _] _].
    change (concat (c :: clauses).*1) with (c.1 ++ concat clauses.*1). rewrite weight_app.
    destruct (c.1) as [|t l]; [done|]. rewrite weight_cons. pose proof (Lexer.token_weight_pos t). lia. }
  rewrite (run_clauses _ clauses (Done (end_query (foldl (λ b c, c.2 b) (mkBody [] [] []) clauses)
      (sort_clause doc items) (limit_clause lim off) e, mkParser [Eof] true)));
    [done|done|intros c Hc; by apply Hhd| | |].
  - apply Forall_forall. intros c Hc. rewrite Forall_forall in Hall. rewrite Forall_forall in Hcw.
    destruct (Hall c Hc). specialize (Hcw c Hc). split_and!; [done|done|lia].
  - unfold ends_body. destruct items as [|]; [destruct lim as [l|]; [destruct off|]|]; cbn [sort_part limit_tokens app];
      [change (Limit ∈ [Sort; Limit; Return; Eof])..|change (Return ∈ [Sort; Limit; Return; Eof])|change (Sort ∈ [Sort; Limit; Return; Eof])]; set_solver.
  - apply query_end_run; [done|lia|lia].
Qed.

(** *** Lines *)

Lemma piece_line : piece true false newline [].
Proof. by apply piece_space. Qed.
Lemma piece_lines texts tss :
  Forall2 (λ text ts, piece false true text ts) texts tss →
  piece false true (String.concat newline texts) (concat tss).
Proof.
  induction 1 as [|text ts texts tss Ht Hts IH]; [apply (piece_strict _ false), piece_empty|].
  destruct Hts as [|text' ts' texts tss Ht' Hts]; [cbn; by rewrite app_nil_r|].
  change (String.concat newline (text :: text' :: texts))
    with (text +:+ newline +:+ String.concat newline (text' :: texts)).
  change (concat (ts :: ts' :: tss)) with (ts ++ [] ++ concat (ts' :: tss)).
  by apply piece_infix; [|exact piece_line|].
Qed.
Lemma piece_indent x t : (x, t) ∈ Lexer.keywords → piece true false ("  " +:+ x +:+ " ") [t].
Proof.
  intros H. apply (piece_app true false true false " " (" " +:+ x +:+ " ") [] [t]); [done|by apply piece_space|].
  apply (piece_app true false false false " " (x +:+ " ") [] [t]); [done|by apply piece_space|].
  by apply piece_word_space.
Qed.
(** A line of a keyword and an expression. *)
Lemma piece_clause x t text ts : (x, t) ∈ Lexer.keywords → piece false true text ts →
  piece false true ("  " +:+ (x +:+ " ") +:+ text) (t :: ts).
Proof.
  intros Hx Ht. rewrite <- str_app_assoc. eapply piece_opens.
  by apply (piece_app true false false true _ _ [t] ts); [|apply piece_indent|].
Qed.
Lemma piece_for d t : is_name d = true → is_name t = true →
  piece false true ("FOR " +:+ d +:+ " IN " +:+ t) [For; Identifier d; In; Identifier t].
Proof.
  intros Hd Ht. apply (piece_app false false false true "FOR " _ [For] [Identifier d; In; Identifier t]); [done| |].
  { apply (piece_word_space "FOR"). listed_now. }
  apply (piece_infix true d " IN " t [Identifier d] [In] [Identifier t]); [by apply piece_name| |by apply piece_name].
  apply (piece_app true false false false " " "IN " [] [In]); [done|by apply piece_space|].
  apply (piece_word_space "IN"). listed_now.
Qed.
(** An object: names and expressions. *)
Lemma piece_pair k text ts : is_name k = true → piece false true text ts →
  piece false true (k +:+ ": " +:+ text) (Identifier k :: Colon :: ts).
Proof.
  intros Hk Ht. apply (piece_infix true k ": " text [Identifier k] [Colon] ts); [by apply piece_name| |done].
  apply (piece_app true false true false ":" " " [Colon] []); [done| |by apply piece_space].
  apply (piece_close ":" Colon); [listed_now|done].
Qed.
Lemma piece_braces texts tss : Forall2 (λ text ts, piece false true text ts) texts tss →
  piece false false (braces texts) ([LeftBrace] ++ comma_tokens tss ++ [RightBrace]).
Proof.
  intros H%piece_commas. apply piece_around; [|exact H|].
  - apply (piece_app false false true false "{" " " [LeftBrace] []); [done|apply piece_symbol; listed_now|by apply piece_space].
  - apply (piece_app true false true false " " "}" [] [RightBrace]); [done|by apply piece_space|].
    apply (piece_close "}" RightBrace); [listed_now|done].
Qed.
Lemma fields_of_pairs b tss (fs : list (string * Expression)) :
  Forall2 (λ ts f, field b ts f) tss fs → fields b (comma_tokens tss) fs.
Proof.
  induction 1 as [|ts f tss fs Hf Hfs IH]; [constructor|].
  destruct Hfs as [|ts' f' tss fs Hf' Hfs]; [by apply fs_last|]. by apply fs_cons.
Qed.
Lemma name_no_dot x : is_name x = true → contains_dot x = false.
Proof.
  intros [Hx _]%andb_true_iff. unfold contains_dot. apply negb_false_iff. rewrite <- (Lexer.of_chars_chars x).
  unfold is_word in Hx. destruct (SdbqlLexer.chars x) as [|c cs]; [done|]. apply andb_true_iff in Hx as [Hc Hcs].
  assert (∀ c, word_rest c = true → str_all (λ a, negb (Ascii.eqb a ".")) c = true) as Hone.
  { intros c'. destruct c' as [|b [|b' c']]; [done| |].
    - by destruct b as [[] [] [] [] [] [] [] []]; vm_compute.
    - intros H. exfalso. unfold word_rest, word_start in H. cbn in H. by destruct (Ascii.eqb b "_"). }
  cbn [of_chars]. rewrite str_all_app, Hone by (unfold word_rest; by rewrite Hc). cbn [andb].
  clear -Hcs Hone. induction cs as [|c' cs IH]; [done|]. cbn [forallb] in Hcs. apply andb_true_iff in Hcs as [Hc' Hcs].
  cbn [of_chars]. by rewrite str_all_app, Hone, IH.
Qed.

(** ** SELECT *)

Definition in_i64 (o : option Z) : bool := match o with Some n => (0 <=? n)%Z && (n <=? i64_max)%Z | None => true end.
Definition plain_where (w : option SqlAst.SqlExpr) : bool :=
  match w with Some e => at_least 0 (level_of true e) | None => true end.
Definition plain_column (c : SqlAst.SelectColumn) : bool :=
  match c with SqlAst.SColumn name None => is_name name | _ => false end.
Definition plain_columns (columns : list SqlAst.SelectColumn) : bool :=
  match columns with [] => false | [SqlAst.Star] => true | _ => forallb plain_column columns end.
(** A statement on one table: columns by name, or all; names that are no keywords; a
    condition that needs no parentheses. *)
Definition plain_select (s : SqlAst.SelectStatement) : bool :=
  plain_columns (SqlAst.columns s) && is_name (default "doc" (SqlAst.from_alias s)) && is_name (SqlAst.from s) &&
  Nat.eqb (length (SqlAst.joins s)) 0 && plain_where (SqlAst.where_clause s) &&
  Nat.eqb (length (SqlAst.group_by s)) 0 && match SqlAst.having s with None => true | Some _ => false end &&
  forallb (λ i, is_name (SqlAst.order_column i)) (SqlAst.order_by s) &&
  in_i64 (SqlAst.limit s) && in_i64 (SqlAst.offset s) &&
  (bool_decide (SqlAst.offset s = None) || bool_decide (SqlAst.limit s ≠ None)).
Definition where_clauses (doc : string) (w : option SqlAst.SqlExpr) : list (Body → Body) :=
  match w with Some e => [add_filter (sdbql_of doc e)] | None => [] end.
Definition body_of (clauses : list (Body → Body)) : Body := foldl (λ b f, f b) (mkBody [] [] []) clauses.
Definition column_field (doc : string) (c : SqlAst.SelectColumn) : option (string * Expression) :=
  match c with
  | SqlAst.SColumn name None => Some (name, Expression.FieldAccess (Expression.Var doc) name)
  | _ => None
  end.
Definition return_of (doc : string) (columns : list SqlAst.SelectColumn) : Expression :=
  match columns with
  | [SqlAst.Star] => Expression.Var doc
  | _ => Expression.Object (omap (column_field doc) columns)
  end.
(** FOR d IN t, FILTER, SORT, LIMIT, RETURN. *)
Definition select_query (s : SqlAst.SelectStatement) : Query :=
  let doc := default "doc" (SqlAst.from_alias s) in
  end_query (body_of (add_for doc (SqlAst.from s) :: where_clauses doc (SqlAst.where_clause s)))
    (sort_clause doc (SqlAst.order_by s)) (limit_clause (SqlAst.limit s) (SqlAst.offset s))
    (return_of doc (SqlAst.columns s)).

(** The lines of a statement: the clauses of the body, the sorting and limiting lines,
    and RETURN. *)
Definition clause_ok (c : list Token * (Body → Body)) : Prop := clause_start c.1 ∧ step_reads c.1 c.2.
Lemma read_lines lines clauses lines' tss' ret ts e doc items lim off :
  Forall2 (λ text c, piece false true text c.1) lines clauses → Forall clause_ok clauses →
  clauses ≠ [] → (∀ c, head clauses = Some c → ∀ r, cur (c.1 ++ r) ∉ [Create; Refresh; Let]) →
  Forall2 (λ text ts, piece false true text ts) lines' tss' →
  concat tss' = sort_part doc items ++ limit_tokens lim off →
  piece false true ret (Return :: ts) → phrase true 0 ts e →
  parse (join newline (lines ++ lines' ++ [ret])) =
  Done (end_query (body_of clauses.*2) (sort_clause doc items) (limit_clause lim off) e).
Proof.
  intros Hl Hall Hne Hhd Hl' Hcat Hret Hph.
  apply (parse_pieces _ clauses (sort_part doc items ++ limit_tokens lim off) _ _ _ doc items lim off ts);
    [|done|done|done|done|done| |done|done].
  - rewrite <- Hcat. replace (concat clauses.*1 ++ concat tss' ++ Return :: ts) with (concat (clauses.*1 ++ tss' ++ [Return :: ts])).
    2: { rewrite !concat_app. cbn [concat]. by rewrite app_nil_r. }
    apply piece_lines. apply Forall2_app; [by apply Forall2_fmap_r|]. apply Forall2_app; [done|]. by constructor.
  - unfold body_of. clear. generalize (mkBody (Num:=Num) [] [] []). induction clauses as [|c l IH]; intros b; [done|]. apply IH.
Qed.
Lemma where_lines doc w : is_name doc = true → plain_where w = true →
  ∃ clauses, Forall2 (λ text c, piece false true text c.1) (filter_part "  " doc w) clauses ∧
    Forall clause_ok clauses ∧ clauses.*2 = where_clauses doc w.
Proof.
  intros Hdoc Hw. destruct w as [e|]; [|by exists []]. cbn [plain_where] in Hw.
  destruct (spelled_fits true doc e (λ l, expr_spelled true doc e l Hdoc) 0 Hw) as (ts & Hp & Hph).
  exists [(Filter :: ts, add_filter (sdbql_of doc e))]. split_and!.
  - repeat constructor. cbn [fst]. rewrite <- str_app_assoc. rewrite str_app_assoc.
    apply (piece_clause "FILTER"); [listed_now|done].
  - constructor; [|constructor]. split; [split; [done|by intros r]|by apply filter_reads].
  - done.
Qed.
Lemma for_line doc t : is_name doc = true → is_name t = true →
  piece false true ("FOR " +:+ doc +:+ " IN " +:+ t) [For; Identifier doc; In; Identifier t] ∧
  clause_ok ([For; Identifier doc; In; Identifier t], add_for doc t).
Proof. intros Hd Ht. split; [by apply piece_for|]. split; [by split|apply for_reads]. Qed.
Lemma read_statement doc t lines clauses lines' tss' ret ts e items lim off :
  is_name doc = true → is_name t = true →
  Forall2 (λ text c, piece false true text c.1) lines clauses → Forall clause_ok clauses →
  Forall2 (λ text ts, piece false true text ts) lines' tss' →
  concat tss' = sort_part doc items ++ limit_tokens lim off →
  piece false true ret (Return :: ts) → phrase true 0 ts e →
  parse (join newline (("FOR " +:+ doc +:+ " IN " +:+ t) :: lines ++ lines' ++ [ret])) =
  Done (end_query (body_of (add_for doc t :: clauses.*2)) (sort_clause doc items) (limit_clause lim off) e).
Proof.
  intros Hd Ht Hl Hok Hl' Hcat Hret Hph. destruct (for_line doc t Hd Ht) as [Hf Hfok].
  apply (read_lines (_ :: lines) (([For; Identifier doc; In; Identifier t], add_for doc t) :: clauses) lines' tss' ret ts);
    [by constructor|by constructor|done| |done|done|done|done].
  intros c [= <-] r. rewrite !not_elem_of_cons. cbn. split_and!; try done. apply not_elem_of_nil.
Qed.

(** *** The lines of SELECT *)

Lemma sort_item_text doc item : is_name doc = true → is_name (SqlAst.order_column item) = true →
  piece false true (sort_item doc false [] item) (sort_tokens doc item).
Proof.
  intros Hd Hc. unfold sort_item, translate_order_by_with_aliases. cbn [andb Lexer.assoc].
  rewrite name_no_dot by done. unfold sort_tokens.
  replace (doc +:+ "." +:+ SqlAst.order_column item +:+ " " +:+ direction item)
    with ((doc +:+ "." +:+ SqlAst.order_column item) +:+ " " +:+ direction item) by by rewrite !str_app_assoc.
  apply (piece_infix true _ " " _ [Identifier doc; Dot; Identifier (SqlAst.order_column item)] [] [direction_token item]).
  - by apply piece_field.
  - by apply piece_space.
  - unfold direction, direction_token. destruct (SqlAst.descending item); apply piece_keyword; listed_now.
Qed.
Lemma sort_lines doc items : is_name doc = true → forallb (λ i, is_name (SqlAst.order_column i)) items = true →
  ∃ tss, Forall2 (λ text ts, piece false true text ts)
      (if Nat.eqb (length items) 0 then []
       else ["  " +:+ "SORT " +:+ join ", " (sort_item doc false [] <$> items)]) tss ∧
    concat tss = sort_part doc items.
Proof.
  intros Hd Hi. destruct items as [|item items]; [by exists []|].
  exists [Sort :: comma_tokens (sort_tokens doc <$> item :: items)]. split; [|cbn [concat sort_part]; by rewrite app_nil_r].
  constructor; [|constructor]. apply (piece_clause "SORT"); [listed_now|]. apply piece_commas.
  apply Forall2_fmap_l, Forall2_fmap_r, Forall_Forall2_diag, Forall_forall. intros i Hin. apply sort_item_text; [done|].
  rewrite forallb_forall in Hi. by apply Hi, list_elem_of_In.
Qed.
Lemma i64_text (n : Z) : in_i64 (Some n) = true → piece false true (show_i64 n) [Integer n].
Proof.
  cbn [in_i64]. intros [H0%Z.leb_le H1%Z.leb_le]%andb_true_iff. unfold show_i64.
  assert ((n <? 0)%Z = false) as -> by by apply Z.ltb_ge.
  rewrite <- (Z2N.id n H0) at 2. apply piece_integer. unfold i64_max in H1. lia.
Qed.
Lemma limit_lines limit offset : in_i64 limit = true → in_i64 offset = true →
  ∃ tss, Forall2 (λ text ts, piece false true text ts) (limit_part "  " limit offset) tss ∧
    concat tss = limit_tokens limit offset.
Proof.
  intros Hl Ho. destruct limit as [l|]; [|by exists []]. exists [limit_tokens (Some l) offset].
  split; [|cbn [concat]; by rewrite app_nil_r]. constructor; [|constructor].
  destruct offset as [o|]; cbn [limit_tokens].
  - apply (piece_clause "LIMIT" Limit _ [Integer o; Comma; Integer l]); [listed_now|].
    apply (piece_infix true _ ", " _ [Integer o] [Comma] [Integer l]); [by apply i64_text|apply piece_comma|by apply i64_text].
  - apply (piece_clause "LIMIT" Limit _ [Integer l]); [listed_now|]. by apply i64_text.
Qed.
Lemma plain_columns_simple columns : forallb plain_column columns = true → columns ≠ [] →
  all_simple columns = true ∧
  ∃ names, columns = (λ x, SqlAst.SColumn x None) <$> names ∧ simple_columns columns = names ∧
    Forall (λ x, is_name x = true) names.
Proof.
  intros H Hne. assert (∃ names, columns = (λ x, SqlAst.SColumn x None) <$> names ∧ simple_columns columns = names ∧
    Forall (λ x, is_name x = true) names) as (names & Hc & Hs & Hn).
  { clear Hne. induction columns as [|c columns IH]; [by exists []|]. cbn [forallb] in H.
    apply andb_true_iff in H as [Hc Hcs]. destruct (IH Hcs) as (names & -> & Hs & Hn). destruct c as [|x [a|]| |]; try done.
    exists (x :: names). split_and!; [done| |by constructor]. unfold simple_columns in Hs |- *. cbn [omap list_omap fmap list_fmap] in *. by rewrite Hs. }
  split; [|by exists names]. unfold all_simple. rewrite Hs, Hc, length_fmap, Nat.eqb_refl.
  destruct names; [by subst|done].
Qed.
Lemma plain_columns_cases columns : plain_columns columns = true →
  columns = [SqlAst.Star] ∨ columns ≠ [SqlAst.Star] ∧ columns ≠ [] ∧ forallb plain_column columns = true.
Proof. destruct columns as [|[] []]; intros H; try done; auto. Qed.
Lemma return_text doc columns : is_name doc = true → plain_columns columns = true →
  ∃ ts, piece false true (translate_columns_with_let columns doc false []) ts ∧ phrase true 0 ts (return_of doc columns).
Proof.
  intros Hd [->|(Hns & Hne & Hall)]%plain_columns_cases.
  - exists [Identifier doc]. split; [by apply piece_name|].
    apply (phrase_lower true 0 16); [lia..|]. by apply ph_atom.
  - destruct (plain_columns_simple _ Hall Hne) as (Hsim & names & Hnames & Hsimple & Hn).
    assert (translate_columns_with_let columns doc false [] = braces (simple_field doc <$> names)) as ->.
    { unfold translate_columns_with_let, translate_columns. rewrite Hsim, Hsimple. by destruct columns as [|[] []]. }
    assert (return_of doc columns =
      Expression.Object ((λ x, (x, Expression.FieldAccess (Expression.Var doc) x)) <$> names)) as ->.
    { unfold return_of. assert (omap (column_field doc) columns =
        (λ x, (x, Expression.FieldAccess (Expression.Var doc) x)) <$> names) as E.
      { rewrite Hnames. clear. induction names as [|x l IH]; [done|]. cbn. by f_equal. }
      rewrite E. by destruct columns as [|[] []]. }
    exists (LeftBrace :: comma_tokens ((λ x, [Identifier x; Colon; Identifier doc; Dot; Identifier x]) <$> names) ++ [RightBrace]).
    split.
    + apply (piece_strict _ false), piece_braces. apply Forall2_fmap_l, Forall2_fmap_r, Forall_Forall2_diag, Forall_forall.
      intros x Hx. rewrite Forall_forall in Hn. unfold compose, simple_field. rewrite name_no_dot by by apply Hn.
      apply (piece_pair x _ [Identifier doc; Dot; Identifier x]); [by apply Hn|]. apply piece_field; [done|by apply Hn].
    + apply (phrase_lower true 0 16); [lia..|]. apply ph_object. apply fields_of_pairs.
      apply Forall2_fmap_l, Forall2_fmap_r, Forall_Forall2_diag, Forall_forall. intros x Hx.
      apply (fd_value true (Identifier x) x [Identifier doc; Dot; Identifier x]); [done|].
      apply (phrase_lower true 0 15); [lia..|].
      apply (ph_field true [Identifier doc] (Expression.Var doc) (Identifier x)); [done|done|].
      apply ph_lift; [lia|]. by apply ph_atom.
Qed.

Lemma plain_aliases doc columns : plain_columns columns = true → build_alias_map columns doc false = [].
Proof.
  intros [->|(_ & _ & Hall)]%plain_columns_cases; [done|]. unfold build_alias_map. induction columns as [|c columns IH]; [done|]. cbn [forallb] in Hall.
  apply andb_true_iff in Hall as [Hc Hall]. destruct c as [|x [a|]| |]; try done. by apply IH.
Qed.
(** The text a plain SELECT is translated to is read by the SDBQL parser as the query
    it stands for: one FOR over the table, the WHERE condition as a FILTER, the ORDER
    BY columns as SORT, LIMIT with its offset, and the columns as the object (or the
    document) returned. *)
Lemma select_translated s : plain_select s = true → parse (translate_select s) = Done (select_query s).
Proof.
  unfold plain_select. rewrite !andb_true_iff. intros ((((((((((Hcols & Hdoc) & Hfrom) & Hj) & Hw) & Hg) & Hh) & Ho) & Hl) & Hoff) & _).
  apply Nat.eqb_eq in Hj, Hg. apply nil_length_inv in Hj, Hg.
  unfold translate_select, select_parts. rewrite Hj, Hg. cbn [length Nat.eqb negb imap concat app].
  change (repeat_text 1 "  ") with "  ". rewrite plain_aliases by done.
  set (doc := default "doc" (SqlAst.from_alias s)) in *.
  destruct (where_lines doc (SqlAst.where_clause s)) as (clauses & Hwl & Hwok & Hwc); [done|done|].
  destruct (sort_lines doc (SqlAst.order_by s)) as (tss & Hsl & Hst); [done|done|].
  destruct (limit_lines (SqlAst.limit s) (SqlAst.offset s)) as (tsl & Hll & Hlt); [done|done|].
  destruct (return_text doc (SqlAst.columns s)) as (ts & Hr & Hph); [done|done|].
  unfold select_query. fold doc. rewrite <- Hwc.
  rewrite <- (read_statement doc (SqlAst.from s) (filter_part "  " doc (SqlAst.where_clause s)) clauses
    ((if Nat.eqb (length (SqlAst.order_by s)) 0 then []
      else ["  " +:+ "SORT " +:+ join ", " (sort_item doc false [] <$> SqlAst.order_by s)]) ++
      limit_part "  " (SqlAst.limit s) (SqlAst.offset s)) (tss ++ tsl)
    ("  " +:+ "RETURN " +:+ translate_columns_with_let (SqlAst.columns s) doc false []) ts);
    [|done|done|done|done|by apply Forall2_app|by rewrite concat_app, Hst, Hlt|apply (piece_clause "RETURN"); [listed_now|done]|done].
  by rewrite <- !app_assoc.
Qed.

(** ** DELETE and UPDATE *)

Definition plain_delete (s : SqlAst.DeleteStatement) : bool :=
  is_name (SqlAst.delete_table s) && plain_where (SqlAst.delete_where s).
(** FOR doc IN t, FILTER, REMOVE doc IN t, RETURN OLD. *)
Definition delete_query (s : SqlAst.DeleteStatement) : Query :=
  let t := SqlAst.delete_table s in
  end_query (body_of (add_for "doc" t :: where_clauses "doc" (SqlAst.delete_where s) ++ [add_remove "doc" t]))
    None None (Expression.Var "OLD").
Lemma doc_name : is_name "doc" = true.
Proof. by vm_compute. Qed.
Lemma return_var x : is_name x = true →
  piece false true ("  " +:+ "RETURN " +:+ x) [Return; Identifier x] ∧
  phrase true 0 [Identifier x] (Expression.Var x : Expression).
Proof.
  intros Hx. split; [apply (piece_clause "RETURN" Return x [Identifier x]); [listed_now|by apply piece_name]|].
  apply (phrase_lower true 0 16); [lia..|]. by apply ph_atom.
Qed.
Lemma in_table text ts t : piece false true text ts → is_name t = true →
  piece false true (text +:+ " IN " +:+ t) (ts ++ [In; Identifier t]).
Proof.
  intros Hp Ht. apply (piece_infix true text " IN " t ts [In] [Identifier t]); [done| |by apply piece_name].
  apply (piece_app true false false false " " "IN " [] [In]); [done|by apply piece_space|].
  apply (piece_word_space "IN"). listed_now.
Qed.
(** A statement that filters and writes: its text is read as the query it stands for. *)
Lemma read_write t w line ts f x : is_name t = true → plain_where w = true → is_name x = true →
  piece false true line ts → clause_ok (ts, f) →
  parse (join newline (["FOR doc IN " +:+ t] ++ filter_part "  " "doc" w ++ [line; "  RETURN " +:+ x])) =
  Done (end_query (body_of (add_for "doc" t :: where_clauses "doc" w ++ [f])) None None (Expression.Var x)).
Proof.
  intros Ht Hw Hx Hp Hok. destruct (where_lines "doc" w doc_name Hw) as (clauses & Hwl & Hwok & Hwc).
  destruct (return_var x Hx) as [Hr Hph].
  replace (where_clauses "doc" w ++ [f]) with (clauses ++ [(ts, f)]).*2 by (rewrite fmap_app, Hwc; done).
  refine (eq_trans _ (read_statement "doc" t (filter_part "  " "doc" w ++ [line]) (clauses ++ [(ts, f)]) [] []
    ("  " +:+ "RETURN " +:+ x) [Identifier x] (Expression.Var x) [] None None doc_name Ht _ _ _ _ Hr Hph)); try done.
  - by rewrite <- app_assoc.
  - apply Forall2_app; [done|by repeat constructor].
  - apply Forall_app. split; [done|by constructor].
Qed.
(** The text a DELETE is translated to is read as the query that filters the table by
    the condition and removes each document found, and nothing else. *)
Lemma delete_translated s : plain_delete s = true → parse (translate_delete s) = Done (delete_query s).
Proof.
  intros [Ht Hw]%andb_true_iff. unfold translate_delete, delete_query.
  apply (read_write (SqlAst.delete_table s) _ _ [Remove; Identifier "doc"; In; Identifier (SqlAst.delete_table s)]
    (add_remove "doc" (SqlAst.delete_table s)) "OLD"); [done|done|by vm_compute| |].
  - apply (piece_clause "REMOVE" Remove ("doc" +:+ " IN " +:+ SqlAst.delete_table s) [Identifier "doc"; In; _]); [listed_now|].
    apply (in_table "doc" [Identifier "doc"]); [apply piece_name, doc_name|done].
  - split; [by split|apply remove_reads].
Qed.

Definition plain_update (s : SqlAst.UpdateStatement) : bool :=
  is_name (SqlAst.update_table s) && plain_where (SqlAst.update_where s) &&
  forallb (λ a, is_name a.1 && at_least 0 (level_of false a.2)) (SqlAst.assignments s).
Definition assigned (s : SqlAst.UpdateStatement) : list (string * Expression) :=
  (λ a, (a.1, sdbql_of "doc" a.2)) <$> SqlAst.assignments s.
(** FOR doc IN t, FILTER, UPDATE doc WITH the assignments IN t, RETURN NEW. *)
Definition update_query (s : SqlAst.UpdateStatement) : Query :=
  let t := SqlAst.update_table s in
  end_query (body_of (add_for "doc" t :: where_clauses "doc" (SqlAst.update_where s) ++ [add_update "doc" t (assigned s)]))
    None None (Expression.Var "NEW").
Lemma assignments_text b (l : list (string * SqlAst.SqlExpr)) :
  forallb (λ a, is_name a.1 && at_least 0 (level_of b a.2)) l = true →
  ∃ tss, Forall2 (λ text ts, piece false true text ts) ((λ p, p.1 +:+ ": " +:+ translate_expr "doc" p.2) <$> l) tss ∧
    Forall2 (λ ts f, field b ts f) tss ((λ a, (a.1, sdbql_of "doc" a.2)) <$> l : list (string * Expression)).
Proof.
  induction l as [|[x e] l IH]; [by exists []|]. cbn [forallb fst snd].
  intros [[Hx He]%andb_true_iff (tss & Hp & Hf)%IH]%andb_true_iff.
  destruct (spelled_fits b "doc" e (λ k, expr_spelled b "doc" e k doc_name) 0 He) as (ts & Hts & Hph).
  exists ((Identifier x :: Colon :: ts) :: tss). split; constructor; [by apply piece_pair|done| |done].
  by apply fd_value.
Qed.
(** The text an UPDATE is translated to is read as the query that filters the table by
    the condition and updates each document found with the assignments, in order. *)
Lemma update_translated s : plain_update s = true → parse (translate_update s) = Done (update_query s).
Proof.
  intros [[Ht Hw]%andb_true_iff Ha]%andb_true_iff. unfold translate_update, update_query.
  destruct (assignments_text false _ Ha) as (tss & Hp & Hf).
  apply (read_write (SqlAst.update_table s) _ _
    ([Update; Identifier "doc"; With; LeftBrace] ++ comma_tokens tss ++ [RightBrace; In; Identifier (SqlAst.update_table s)])
    (add_update "doc" (SqlAst.update_table s) (assigned s)) "NEW"); [done|done|by vm_compute| |].
  - apply piece_braces in Hp.
    replace ("  UPDATE doc WITH " +:+ braces ((λ p, p.1 +:+ ": " +:+ translate_expr "doc" p.2) <$> SqlAst.assignments s) +:+
        " IN " +:+ SqlAst.update_table s)
      with (("  " +:+ ("UPDATE" +:+ " ") +:+ "doc" +:+ (" " +:+ "WITH" +:+ " ") +:+
        braces ((λ p, p.1 +:+ ": " +:+ translate_expr "doc" p.2) <$> SqlAst.assignments s)) +:+
        " IN " +:+ SqlAst.update_table s) by by rewrite !str_app_assoc.
    replace ([Update; Identifier "doc"; With; LeftBrace] ++ comma_tokens tss ++ [RightBrace; In; Identifier (SqlAst.update_table s)])
      with ((Update :: [Identifier "doc"] ++ [With] ++ [LeftBrace] ++ comma_tokens tss ++ [RightBrace]) ++
        [In; Identifier (SqlAst.update_table s)]) by (cbn [app]; by rewrite <- app_assoc).
    apply in_table; [|done]. apply (piece_clause "UPDATE"); [listed_now|].
    apply (piece_infix true "doc" _ _ [Identifier "doc"] [With]); [apply piece_name, doc_name| |by eapply piece_strict].
    apply (piece_app true false false false " " ("WITH" +:+ " ") [] [With]); [done|by apply piece_space|].
    apply (piece_word_space "WITH"). listed_now.
  - split; [by split|]. apply update_reads. by apply fields_of_pairs.
Qed.

(** ** INSERT *)

Definition inserted (s : SqlAst.InsertStatement) : list (string * SqlAst.SqlExpr) :=
  match SqlAst.insert_columns s, SqlAst.values s with
  | Some columns, [row] => zip columns row
  | _, _ => []
  end.
(** One row with its columns named. *)
Definition plain_insert (s : SqlAst.InsertStatement) : bool :=
  is_name (SqlAst.insert_table s) && bool_decide (is_Some (SqlAst.insert_columns s)) &&
  Nat.eqb (length (SqlAst.values s)) 1 && forallb (λ a, is_name a.1 && at_least 0 (level_of true a.2)) (inserted s).
Definition add_insert (t : string) (fs : list (string * Expression)) (b : Body) : Body :=
  push_body b [BodyClause.Insert (mkInsert (Expression.Object fs) t)].
(** INSERT the document of the columns INTO t, RETURN NEW. *)
Definition insert_query (s : SqlAst.InsertStatement) : Query :=
  end_query (body_of [add_insert (SqlAst.insert_table s) ((λ a, (a.1, sdbql_of "doc" a.2)) <$> inserted s)])
    None None (Expression.Var "NEW").
Lemma insert_reads t ts fs : fields true ts fs →
  step_reads (([Insert; LeftBrace] ++ ts) ++ [RightBrace; Into; Identifier t]) (add_insert t fs).
Proof.
  intros Hfs n b r Hw Hf. rewrite !weight_app in Hw. simpl in Hw.
  unfold body_step. rewrite run_current. unfold mbind at 1, P_bind at 1, peek_token. rewrite <- !app_assoc. cbn [app].
  change (cur (Insert :: _)) with Insert. repeat (rewrite decide_False by done). rewrite decide_True by done.
  unfold parse_insert_clause. unfold mbind at 1, P_bind at 1. rewrite run_expect.
  unfold mbind at 1, P_bind at 1.
  replace (LeftBrace :: ts ++ RightBrace :: Into :: Identifier t :: r)
    with ((LeftBrace :: ts ++ [RightBrace]) ++ Into :: Identifier t :: r) by (cbn [app]; by rewrite <- app_assoc).
  rewrite (run_rec true (LeftBrace :: ts ++ [RightBrace]) (Expression.Object fs)); [done| | |done].
  - apply phrase_claim, (phrase_lower true 0 16); [lia..|]. by apply ph_object.
  - rewrite weight_cons, weight_app. simpl. lia.
Qed.
(** The text an INSERT of one row is translated to is read as the query that inserts the
    document of the named columns. *)
Lemma insert_translated s : plain_insert s = true → parse (translate_insert s) = Done (insert_query s).
Proof.
  unfold plain_insert. rewrite !andb_true_iff. intros [[[Ht Hc%bool_decide_eq_true] Hv%Nat.eqb_eq] Ha].
  unfold translate_insert, insert_text, insert_query, inserted in *.
  destruct Hc as [columns Hc]. destruct (SqlAst.values s) as [|row [|]]; try done. rewrite Hc in *.
  destruct (assignments_text true _ Ha) as (tss & Hp & Hf). destruct (return_var "NEW" eq_refl) as [Hr Hph].
  set (t := SqlAst.insert_table s) in *. set (l := zip columns row) in *.
  assert (column_fields columns row = braces ((λ p, p.1 +:+ ": " +:+ translate_expr "doc" p.2) <$> l)) as ->.
  { unfold column_fields, l. f_equal. clear. revert row. induction columns as [|c columns IH]; intros [|v row]; try done.
    cbn. f_equal. apply IH. }
  refine (eq_trans _ (read_lines [_] [(([Insert; LeftBrace] ++ comma_tokens tss) ++ [RightBrace; Into; Identifier t], add_insert t _)]
    [] [] ("RETURN " +:+ "NEW") [Identifier "NEW"] (Expression.Var "NEW") "doc" [] None None _ _ _ _ _ _ _ Hph)).
  - cbn [app join String.concat]. reflexivity.
  - constructor; [|constructor]. cbn [fst]. apply piece_braces in Hp.
    replace (([Insert; LeftBrace] ++ comma_tokens tss) ++ [RightBrace; Into; Identifier t])
      with ([Insert] ++ ([LeftBrace] ++ comma_tokens tss ++ [RightBrace]) ++ [Into; Identifier t])
      by (cbn [app]; by rewrite <- !app_assoc).
    apply (piece_app false false false true "INSERT "); [done|apply (piece_word_space "INSERT"); listed_now|].
    apply (piece_infix true _ " INTO " t _ [Into] [Identifier t]); [by eapply piece_strict| |by apply piece_name].
    apply (piece_app true false false false " " "INTO " [] [Into]); [done|by apply piece_space|].
    apply (piece_word_space "INTO"). listed_now.
  - constructor; [|constructor]. split; [by split|]. apply insert_reads. by apply fields_of_pairs.
  - done.
  - intros c [= <-] r. rewrite !not_elem_of_cons. cbn. split_and!; try done. apply not_elem_of_nil.
  - constructor.
  - done.
  - apply (piece_app false false false true "RETURN " "NEW" [Return] [Identifier "NEW"]); [done| |by apply piece_name].
    apply (piece_word_space "RETURN"). listed_now.
Qed.

(** ** Statements *)

Definition plain_statement (stmt : SqlAst.SqlStatement) : bool :=
  match stmt with
  | SqlAst.Select s => plain_select s
  | SqlAst.Insert s => plain_insert s
  | SqlAst.Update s => plain_update s
  | SqlAst.Delete s => plain_delete s
  end.
Definition query_of (stmt : SqlAst.SqlStatement) : Query :=
  match stmt with
  | SqlAst.Select s => select_query s
  | SqlAst.Insert s => insert_query s
  | SqlAst.Update s => update_query s
  | SqlAst.Delete s => delete_query s
  end.
End Queries.

(** ** Where the translation changes the meaning *)

Section Lost.
Context `{char_tables : !CharTables} `{std_text : !StdText} `{f64_text : !F64Display}.
(** the translation writes no parentheses: an expression grouped to the left and the
    same operators grouped to the right have the same text, so [(a OR b) AND c] is
    executed as [a OR (b AND c)]. *)
Theorem parentheses_lost doc a op1 b op2 c :
  translate_expr doc (SqlAst.Binary (SqlAst.Binary a op1 b) op2 c) =
  translate_expr doc (SqlAst.Binary a op1 (SqlAst.Binary b op2 c)).
Proof. cbn [translate_expr]. by rewrite !str_app_assoc. Qed.
End Lost.

(** ** Concrete statements *)

Module SqlDemo.
#[local] Existing Instances demo_number_ops Codec.demo_text ascii_tables ascii_tables_laws.
#[local] Instance sql_float : FloatText := λ _, Some 0%N.
#[local] Instance sql_token : TokenDebug := λ _, "token".
#[local] Instance sql_tok : SqlTokenDebug := λ _, "token".
#[local] Instance sql_order : HashOrder := λ l, l.
#[local] Instance sql_f64 : F64Display := λ _, "0.0".
#[local] Instance sql_std : StdText := {
  to_lowercase s := s;
  char_alphanumeric c := negb (String.eqb c " ");
  char_whitespace c := String.eqb c " ";
  utf8_lossy s := s;
}.
Definition users_sql : string :=
  "SELECT name, age FROM users u WHERE u.age >= 18 AND name != 'root' ORDER BY age DESC LIMIT 10 OFFSET 5".
Definition statement_of (sql : string) : option SqlAst.SqlStatement :=
  match SqlParse.parse sql with Done s => Some s | _ => None end.
Definition users_statement : SqlAst.SqlStatement :=
  default (SqlAst.Delete (SqlAst.mkDelete "" None)) (statement_of users_sql).

Lemma parse_sql_ends_witness :
  match SqlParse.parse "SELECT FROM WHERE" with
  | Done _ => True | Fails e => is_parse_error e | Panics | OutOfFuel => False
  end.
Proof. apply parse_sql_ends. Defined.
(** SELECT with one aggregate is translated to text the SDBQL parser refuses. *)
Lemma single_aggregate_refused :
  match translate_sql_to_sdbql "SELECT COUNT(*) FROM users" with
  | Done text => match parse (Num:=demo_number) text with Fails _ => True | _ => False end
  | _ => False
  end.
Proof. vm_compute. exact I. Qed.
(** what follows a statement is ignored: a DELETE whose table has an alias parses
    without its WHERE clause, and its translation removes every document. *)
Theorem delete_forgets_where :
  translate_sql_to_sdbql "DELETE FROM users u WHERE u.id = 1" = translate_sql_to_sdbql "DELETE FROM users" ∧
  statement_of "DELETE FROM users u WHERE u.id = 1" = Some (SqlAst.Delete (SqlAst.mkDelete "users" None)).
Proof. vm_compute. done. Qed.
(** The condition of the query the translation of some SQL text is read as. *)
Definition filters_of (sql : string) : option (list (Expression demo_number)) :=
  match translate_sql_to_sdbql sql with
  | Done text => match parse (Num:=demo_number) text with Done q => Some (filter_expression <$> filter_clauses q) | _ => None end
  | _ => None
  end.
Definition injected_sql : string := "DELETE FROM users WHERE name = 'x\\" +:+ quote_mark +:+ " OR 1 == 1 -- '".
(** string literals are escaped for quotes but not for backslashes: a string that ends
    in a backslash and a quote closes the literal of the SDBQL text, and what follows
    in the string is executed as SDBQL. *)
Theorem string_injected :
  statement_of injected_sql = Some (SqlAst.Delete (SqlAst.mkDelete "users" (Some (SqlAst.Binary (SqlAst.Column "name")
    SqlAst.Eq (SqlAst.EString ("x\" +:+ quote_mark +:+ " OR 1 == 1 -- ")))))) ∧
  filters_of injected_sql = Some [Expression.BinaryOp
    (Expression.BinaryOp (Expression.FieldAccess (Expression.Var "doc") "name") BinaryOperator.Equal
      (Expression.Literal (Json.JString "x\")))
    BinaryOperator.Or (Expression.BinaryOp (number 1) BinaryOperator.Equal (number 1))].
Proof. vm_compute. done. Qed.
End SqlDemo.
