(* ===== verification/DocStore.v ===== *)
(** * What the server modules use of a collection

    [DocStore]: the operations of a collection the handlers call (src/storage/collection/crud.rs),
    with generated keys, revisions and the clock as arguments. [DocStoreLaws]: what they rely on:
    stored data never holds a metadata field, and the documents of a scan after a write are
    those before it with the written one changed. [Serde]: the derived JSON conversions of a
    struct; the laws are those of a derived implementation, which reads the fields by name,
    ignores others, and fails when a required one is missing. *)

From S2P Require Import Prelude Text Json Transaction Document.
Import Json Document.

Class DocStore (Num C : Type) := {
  ds_new : string → result DbError C;                      (* [create_collection(name, None)] *)
  ds_get : C → string → result DbError (Document Num);
  ds_scan : C → list (Document Num);
  ds_count : C → N;
  ds_insert : string → string → Z → Value Num → C → result DbError (Document Num) * C;
  ds_update : string → Z → string → Value Num → C → result DbError (Document Num) * C;
  ds_delete : string → C → result DbError () * C;
}.

(** A document of a system collection: an object without metadata fields in its data. *)
Definition clean {Num} (d : Document Num) : Prop := is_object (data d) = true ∧ no_system_field (data d).

Class DocStoreLaws (Num C : Type) `{!DocStore Num C} := {
  store_ok : C → Prop;
  (** Keys that are not reserved by the store. *)
  key_ok : string → Prop;
  get_clean c k (d : Document Num) : store_ok c → key_ok k → ds_get c k = Ok d → clean d ∧ key d = k;
  scan_clean c (d : Document Num) : store_ok c → d ∈ ds_scan c → key_ok (key d) → clean d;
  get_scan c k (d : Document Num) : store_ok c → key_ok k → ds_get c k = Ok d ↔ d ∈ ds_scan c ∧ key d = k;
  insert_store gk gr now (v : Value Num) c d c' :
    store_ok c → is_object v = true → wf_value v → ds_insert gk gr now v c = (Ok d, c') → key_ok (key d) →
    store_ok c' ∧ data d = strip v ∧
    ∀ d', key_ok (key d') → d' ∈ ds_scan c' ↔ d' = d ∨ d' ∈ ds_scan c ∧ key d' ≠ key d;
  insert_key gk gr now (v : Value Num) c d c' : is_object v = true → ds_insert gk gr now v c = (Ok d, c') →
    match value_get "_key" v with Some k => k = JString (key d) | None => key d = gk end;
  insert_fails gk gr now (v : Value Num) c e c' : ds_insert gk gr now v c = (Err e, c') → c' = c;
  delete_store k c r c' : store_ok c → key_ok k → ds_delete k c = (r, c') →
    store_ok c' ∧
    match r with
    | Ok _ => ∀ d : Document Num, key_ok (key d) → d ∈ ds_scan c' ↔ d ∈ ds_scan c ∧ key d ≠ k
    | Err _ => ∀ d : Document Num, key_ok (key d) → d ∈ ds_scan c' ↔ d ∈ ds_scan c
    end;
}.

(** A new collection is empty; an update replaces the fields it names, and keeps the document's
    key; no write brings a document besides the one it names. *)
Class DocStoreUpdates (Num C : Type) `{!DocStore Num C} `{!DocStoreLaws Num C} : Prop := {
  new_store n c : ds_new n = Ok c → store_ok c ∧ ds_scan c = [];
  scan_wf c (d : Document Num) : store_ok c → d ∈ ds_scan c → key_ok (key d) → wf_value (data d);
  update_store gr now k (v : Value Num) c d c' :
    store_ok c → key_ok k → is_object v = true → wf_value v → ds_update gr now k v c = (Ok d, c') →
    store_ok c' ∧ key d = k ∧
    (∃ d0, ds_get c k = Ok d0 ∧ ∀ f, starts_with_underscore f = false →
       value_get f (data d) = match value_get f v with Some x => Some x | None => value_get f (data d0) end) ∧
    ∀ d', key_ok (key d') → d' ∈ ds_scan c' ↔ d' = d ∨ d' ∈ ds_scan c ∧ key d' ≠ k;
  update_fails gr now k (v : Value Num) c e c' : ds_update gr now k v c = (Err e, c') → c' = c;
  insert_brings gk gr now (v : Value Num) c d c' d' :
    store_ok c → is_object v = true → wf_value v → ds_insert gk gr now v c = (Ok d, c') → key_ok (key d) →
    d' ∈ ds_scan c' → d' = d ∨ d' ∈ ds_scan c;
  update_brings gr now k (v : Value Num) c d c' d' :
    store_ok c → key_ok k → is_object v = true → wf_value v → ds_update gr now k v c = (Ok d, c') →
    d' ∈ ds_scan c' → d' = d ∨ d' ∈ ds_scan c;
  delete_brings k c r c' (d' : Document Num) : store_ok c → key_ok k → ds_delete k c = (r, c') →
    d' ∈ ds_scan c' → d' ∈ ds_scan c;
}.

Class Serde (Num A : Type) := {
  to_json : A → Value Num;
  from_json : Value Num → result string A;
  json_fields : list string;
}.
(** The struct [A] names its key ["_key"]. *)
Class SerdeLaws (Num A : Type) `{!Serde Num A} (key_of : A → string) : Prop := {
  to_json_object a : is_object (to_json a) = true;
  to_json_wf a : wf_value (to_json a);
  to_json_key a : value_get "_key" (to_json a) = Some (JString (key_of a));
  to_json_fields a k : k ∈ system_fields → k ≠ "_key" → value_get k (to_json a) = None;
  from_json_fields (v : Value Num) a : is_object v = true →
    (∀ k, k ∈ json_fields → value_get k v = value_get k (to_json a)) → from_json v = Ok a;
  from_json_key (v : Value Num) : is_object v = true → value_get "_key" v = None → ∃ e, from_json v = Err e;
  key_field : "_key" ∈ json_fields;
  plain_fields k : k ∈ json_fields → k = "_key" ∨ k ∉ system_fields;
}.

(** The struct [A] always writes all its fields, which are not named like metadata. *)
Class SerdeFull (Num A : Type) `{!Serde Num A} : Prop := {
  to_json_full (a : A) k : k ∈ json_fields (Num:=Num) (A:=A) → is_Some (value_get k (to_json a));
  named_fields k : k ∈ json_fields (Num:=Num) (A:=A) → k = "_key" ∨ starts_with_underscore k = false;
}.

Section Stored.
Context {Num : Type} `{!DocumentJson Num} `{!DocumentJsonLaws Num}.
Context {A : Type} `{!Serde Num A} {key_of : A → string} `{!SerdeLaws Num A key_of}.

(** The data of a stored struct has lost its key: reading the struct back from the data alone
    fails, *)
Lemma stored_data_unreadable (d : Document Num) : clean d → ∃ e, from_json (A:=A) (data d) = Err e.
Proof. intros [Ho Hs]. apply from_json_key; [done|]. apply Hs. unfold system_fields. set_solver. Qed.
(** but the document as a whole can be read as the struct. *)
Lemma stored_readable (d : Document Num) a :
  data d = strip (to_json a) → key d = key_of a → from_json (to_value d) = Ok a.
Proof.
  intros Hd Hk. pose proof (to_json_wf a) as Hwf. pose proof (to_json_object a) as Ho.
  pose proof (to_json_key a) as Hka.
  destruct (to_json a) as [| | | | |m] eqn:Em; try done. clear Ho.
  assert (is_object (strip (Object m)) = true) as Hob by done.
  pose proof (strip_wf _ Hwf) as Hw. pose proof (strip_no_system _ Hwf) as Hs.
  rewrite <- Hd in Hob, Hw, Hs. destruct (data d) as [| | | | |m'] eqn:Em'; try done.
  apply from_json_fields; [unfold to_value; by rewrite Em', flatten_object|].
  intros k Hkf. rewrite (to_value_fields d m' k), Em by done.
  destruct (plain_fields k Hkf) as [->|Hn]; [rewrite Hka, Hk; done|].
  rewrite !(proj2 (String.eqb_neq _ _)) by (intros ->; apply Hn; unfold system_fields; set_solver).
  apply wf_Object in Hwf as [Hm _]. pose proof (strip_get m k Hm Hn) as Hg. by rewrite <- Hd in Hg.
Qed.
(** After an update with a struct the document reads as the struct. *)
Lemma updated_readable `{!SerdeFull Num A} (d d0 : Document Num) a : clean d → wf_value (data d) → key d = key_of a →
  (∀ f, starts_with_underscore f = false →
     value_get f (data d) = match value_get f (to_json a) with Some x => Some x | None => value_get f (data d0) end) →
  from_json (to_value d) = Ok a.
Proof.
  intros [Ho Hs] Hw Hk Hf. destruct (data d) as [| | | | |m] eqn:Em; try done.
  apply from_json_fields; [unfold to_value; by rewrite Em, flatten_object|].
  intros k Hkf. rewrite (to_value_fields d m k) by done. destruct (named_fields k Hkf) as [->|Hn].
  { rewrite (to_json_key a), Hk. done. }
  rewrite !(proj2 (String.eqb_neq _ _)) by (intros ->; done). change (value_get k (Object m) = value_get k (to_json a)).
  rewrite Hf by done. by destruct (to_json_full a k Hkf) as [x ->].
Qed.
End Stored.
