(* ===== verification/StoreInstance.v ===== *)
(** * A collection as the document store of the server modules

    The operations of [Collection] are an instance of the interface [DocStore], and keep its
    laws: the data of the stored documents never holds a metadata field, each document is stored
    under its own key, and a write changes the document it names. *)

From S2P Require Import Prelude Text Json Transaction Codec Kv Document Indexes Collection CollectionProps DocStore.
Import Json Codec Document Serializer Indexes Collection CollectionProps.

Section Instance_.
Context {Num : Type} `{!JsonNumber Num} `{!JsonText Num} `{!MetaJson Num} `{!DocumentJson Num}
  `{!DocCodec Num}.
Context `{hex_crate : !HexCrate} `{std_text : !StdText}.
Context {DB : Type} `{!KvStore DB} `{schema : !SchemaCheck Num DB}.
Notation Collection := (Collection Num DB).
(** A column family created empty. *)
Variable new_family : string → option DB.

#[export] Instance collection_store : DocStore Num Collection := {
  ds_new n := match new_family n with
              | Some d => Ok (mkCollection n "document" d 0 0 false [] [])
              | None => Err (InternalError "Failed to create collection")
              end;
  ds_get := get;
  ds_scan c := scan c None;
  ds_count := count;
  ds_insert := insert;
  ds_update := Collection.update;
  ds_delete := Collection.delete;
}.

Context `{!DocCodecLaws Num} `{hex_laws : !HexLaws} `{!KvLaws DB}.
Implicit Types (d : DB) (k e : string) (c : Collection) (x : Document Num).

(** ** Scanning *)

Lemma scan_docs c x : x ∈ scan c None ↔ ∃ k, doc_of (db c) k = Some x.
Proof.
  unfold scan, doc_of. rewrite list_elem_of_omap, kv_from_view. split.
  - intros ([e v] & [_ Hin]%list_elem_of_filter & Hx). cbn [fst snd] in Hx.
    destruct (starts_with DOC_PREFIX e) eqn:Hp; [|done]. apply starts_with_split in Hp as [k ->]. exists k.
    rewrite kv_get_view. apply OMap.get_elem in Hin; [|apply kv_view_wf]. unfold doc_key. by rewrite Hin.
  - intros [k Hk]. rewrite kv_get_view in Hk. destruct (OMap.get (doc_key k) (kv_view (db c))) as [v|] eqn:Hv; [|done].
    exists (doc_key k, v). split.
    + apply list_elem_of_filter. split; [apply prefix_leb|]. apply OMap.get_elem; [apply kv_view_wf|done].
    + cbn [fst snd]. unfold doc_key. by rewrite starts_with_app.
Qed.

(** ** Writes beside the documents *)

(** Nothing but an empty value is written into the space of the documents. *)
Definition quiet (op : write_op) : Prop :=
  match op with Put e v => starts_with DOC_PREFIX e = false ∨ v = "" | Del _ => True end.
Lemma quiet_dels l : Forall quiet (dels l).
Proof. by apply Forall_fmap, Forall_true. Qed.
Lemma quiet_outside p l : starts_with p DOC_PREFIX = false → starts_with DOC_PREFIX p = false →
  Forall (λ e, starts_with p e = true) l.*1 → Forall quiet (puts l).
Proof.
  intros H1 H2 Hl. unfold puts. apply Forall_fmap. rewrite Forall_fmap in Hl. eapply Forall_impl; [exact Hl|].
  intros [e v] He. left. cbn in *. by apply (prefixes_disjoint p).
Qed.
Lemma geo_entries_prefix k v l r : geo_entries_for k v l = Ok r → Forall (λ e, starts_with GEO_PREFIX e = true) r.*1.
Proof.
  revert r. induction l as [|g l IH]; intros r Hr; simpl in Hr; [by injection Hr as <-|].
  destruct (is_null _); [by apply IH|]. destruct (value_to_vec _) as [b|]; [|done].
  destruct (geo_entries_for k v l) as [r'|]; [|done]. injection Hr as <-.
  constructor; [apply starts_with_app|by apply IH].
Qed.
Lemma quiet_fulltext d k v : Forall quiet (puts (compute_fulltext_entries_for_insert d k v)).
Proof.
  unfold puts. apply Forall_fmap. unfold compute_fulltext_entries_for_insert. apply Forall_fmap, Forall_forall.
  intros e (i & _ & He)%list_elem_of_In%in_flat_map. apply in_flat_map in He as (fld & _ & He).
  unfold fulltext_field_keys in He. destruct (as_str _) as [text|]; [|done].
  left. cbn. apply list_elem_of_In, elem_of_app in He as [He|He]; apply list_elem_of_fmap in He as (t & -> & _).
  - apply (prefixes_disjoint FT_TERM_PREFIX); [done|done|apply starts_with_app].
  - apply (prefixes_disjoint FT_PREFIX); [done|done|apply starts_with_app].
Qed.
Lemma insert_entries_quiet d k v b : insert_entries d k v = Ok b → Forall quiet b.
Proof.
  unfold insert_entries, compute_index_entries_for_insert.
  destruct (geo_entries_for k v _) as [g|] eqn:Hg; [|done]. intros [= <-]. rewrite !Forall_app. split_and!.
  - apply (quiet_outside IDX_PREFIX); [done|done|]. rewrite entry_for_key, fst_pair_r. apply idx_keys_space.
  - apply (quiet_outside GEO_PREFIX); [done|done|]. by eapply geo_entries_prefix.
  - apply quiet_fulltext.
  - unfold empty_puts. apply Forall_fmap, Forall_true. by right.
Qed.
Lemma delete_entries_quiet d k v b : delete_entries d k v = Ok b → Forall quiet b.
Proof. unfold delete_entries. cbn. intros [= <-]. rewrite !Forall_app. split_and!; apply quiet_dels. Qed.

(** A write of one document and quiet entries brings no other document. *)
Lemma quiet_keeps d d' o entries k k0 x :
  kv_write (o :: entries) d = Some d' → op_target o = doc_key k0 → Forall quiet entries → k ≠ k0 →
  doc_of d' k = Some x → doc_of d k = Some x.
Proof.
  intros Hw Ho Hq Hk. unfold doc_of. rewrite (kv_get_write _ _ _ _ Hw). cbn [foldl].
  assert (write_key (doc_key k) (kv_get (doc_key k) d) o = kv_get (doc_key k) d) as ->.
  { destruct o; cbn [op_target] in Ho; subst; cbn [write_key]; rewrite decide_False; try done; by intros ?%doc_key_inj. }
  assert (∀ r, foldl (write_key (doc_key k)) r entries = r ∨ foldl (write_key (doc_key k)) r entries = None ∨
    foldl (write_key (doc_key k)) r entries = Some "") as Hcase.
  { clear -Hq. induction Hq as [|op entries Hop Hq IH]; intros r; [by left|]. cbn [foldl].
    assert (write_key (doc_key k) r op = r ∨ write_key (doc_key k) r op = None ∨ write_key (doc_key k) r op = Some "") as [->|H1].
    - destruct op as [e v|e]; cbn [write_key]; case_decide as Hd; auto. cbn in Hop. destruct Hop as [Hop| ->]; [|auto].
      subst. unfold doc_key in Hop. by rewrite starts_with_app in Hop.
    - apply IH.
    - destruct (IH (write_key (doc_key k) r op)) as [->|H2]; auto. }
  destruct (Hcase (kv_get (doc_key k) d)) as [->|[->| ->]]; done.
Qed.

(** ** The laws *)

Definition docs_in_order c : Prop :=
  collection_type c ≠ "blob" ∧ ∀ k x, doc_of (db c) k = Some x → key x = k ∧ (plain k → clean x ∧ wf_value (data x)).
Lemma scan_key c x : docs_in_order c → x ∈ scan c None ↔ doc_of (db c) (key x) = Some x.
Proof.
  intros [_ Hd]. rewrite scan_docs. split; [|intros Hx; by exists (key x)].
  intros [k Hk]. by destruct (Hd _ _ Hk) as [-> _].
Qed.
Lemma insert_in_order gk gr now v c x c' :
  docs_in_order c → is_object v = true → wf_value v → insert gk gr now v c = (Ok x, c') → plain (key x) →
  docs_in_order c' ∧ data x = strip v ∧
  (∀ x', plain (key x') → x' ∈ scan c' None ↔ x' = x ∨ x' ∈ scan c None ∧ key x' ≠ key x) ∧
  ∀ x', x' ∈ scan c' None → x' = x ∨ x' ∈ scan c None.
Proof.
  intros Hc Ho Hv Hi Hk. pose proof (insert_wrote _ _ _ _ _ _ _ Hi) as (v' & bytes & entries & Htk & Hx & _ & Hs & He & Hw & _ & Ht).
  destruct Hc as [Hblob Hd].
  assert (data x = strip v) as Hdata.
  { rewrite Hx. cbn [data with_key]. unfold take_key in Htk. destruct v as [| | | | |m]; try done.
    destruct (OMap.get "_key" m) as [w|] eqn:Hw'; [destruct w; try done|by injection Htk as _ <-].
    injection Htk as _ <-. unfold strip, system_fields. cbn [foldl]. do 2 f_equal.
    apply wf_Object in Hv as [Hm _]. f_equal. f_equal. f_equal.
    apply OMap.ext; [by repeat apply OMap.wf_remove..|]. intros k'. rewrite !OMap.get_remove by (done || by apply OMap.wf_remove).
    by case_decide. }
  assert (clean x ∧ wf_value (data x)) as Hcl.
  { unfold clean. rewrite Hdata. split_and!; [by destruct v|by apply strip_no_system|by apply strip_wf]. }
  assert (Forall (entry_space ∘ op_target) entries) as Hes by by apply insert_entries_idx in He as [? _].
  assert (doc_of (db c') (key x) = Some x) as Hput by by apply (put_doc_of (db c) _ _ _ bytes entries).
  assert (docs_in_order c') as Hc'.
  { split; [congruence|]. intros k y Hy. destruct (decide (k = key x)) as [->|Hne]; [rewrite Hput in Hy; by injection Hy as <-|].
    apply Hd. by apply (quiet_keeps (db c) (db c') _ _ k (key x) y Hw); [|apply insert_entries_quiet in He| |]. }
  split_and!; [done|done| |]; intros x'; [intros Hk'|]; rewrite !scan_key by done;
    (destruct (decide (key x' = key x)) as [Heq|Hne]; [rewrite Heq, Hput; naive_solver|]).
  - rewrite (other_doc_of (db c) (db c') (key x) (key x') (Put _ bytes) entries) by done. naive_solver.
  - intros Hx'. right. by apply (quiet_keeps (db c) (db c') _ _ (key x') (key x) x' Hw); [|apply insert_entries_quiet in He| |].
Qed.
Lemma insert_doc_key gk gr now v c x c' : is_object v = true → insert gk gr now v c = (Ok x, c') →
  match value_get "_key" v with Some k => k = JString (key x) | None => key x = gk end.
Proof.
  intros Ho Hi. pose proof (insert_wrote _ _ _ _ _ _ _ Hi) as (v' & _ & _ & Htk & _). unfold take_key in Htk.
  destruct v as [| | | | |m]; try done. cbn [value_get]. destruct (OMap.get "_key" m) as [w|]; [|by injection Htk as ->].
  destruct w; try done. by injection Htk as ->.
Qed.
Lemma delete_in_order k c r c' : docs_in_order c → plain k → Collection.delete k c = (r, c') →
  docs_in_order c' ∧
  match r with
  | Ok _ => ∀ x, plain (key x) → x ∈ scan c' None ↔ x ∈ scan c None ∧ key x ≠ k
  | Err _ => ∀ x, plain (key x) → x ∈ scan c' None ↔ x ∈ scan c None
  end ∧ ∀ x, x ∈ scan c' None → x ∈ scan c None.
Proof.
  intros Hc Hk [[-> Hr]|(x & entries & d1 & Hx & He & Hw & Hs & Ht & Hcnt)]%delete_wrote; [split; [done|by destruct r]|].
  destruct r as [[]|]; cbn [is_ok] in Hcnt; [|by destruct Hcnt as [_ ?], Hc].
  assert (Forall (entry_space ∘ op_target) entries) as Hes by by apply delete_entries_idx in He as [? _].
  assert (doc_of (db c') k = None) as Hgone.
  { rewrite (same_docs_doc_of _ _ _ Hs). by apply (del_doc_of (db c) d1 k entries). }
  destruct Hc as [Hb Hd]. assert (docs_in_order c') as Hc'.
  { split; [congruence|]. intros k' y Hy. destruct (decide (k' = k)) as [->|Hne]; [congruence|].
    rewrite (same_docs_doc_of _ _ _ Hs) in Hy. apply Hd.
    by apply (quiet_keeps (db c) d1 _ _ k' k y Hw); [|apply delete_entries_quiet in He| |]. }
  split_and!; [done| |]; intros y; [intros Hy|]; rewrite !scan_key by done;
    (destruct (decide (key y = k)) as [Heq|Hne]; [rewrite Heq, Hgone; naive_solver|]).
  - rewrite (same_docs_doc_of _ _ _ Hs), (other_doc_of (db c) d1 k (key y) (Del _) entries) by done. naive_solver.
  - rewrite (same_docs_doc_of _ _ _ Hs). intros Hy.
    by apply (quiet_keeps (db c) d1 _ _ (key y) k y Hw); [|apply delete_entries_quiet in He| |].
Qed.
#[export] Instance collection_store_laws : DocStoreLaws Num Collection.
Proof.
  refine {| store_ok := docs_in_order; key_ok := plain |}.
  - intros c k x Hc Hk Hx%get_doc_of. destruct (proj2 Hc _ _ Hx) as [? []]; auto.
  - intros c x Hc Hx Hk. apply scan_key in Hx; [|done]. by apply (proj2 Hc) in Hx as [_ []]; auto.
  - intros c k x Hc Hk. cbn [ds_get ds_scan collection_store]. rewrite get_doc_of, scan_key by done. split.
    + intros Hx. destruct (proj2 Hc _ _ Hx) as [<- _]. done.
    + by intros [Hx <-].
  - intros gk gr now v c x c' Hc Ho Hv Hi Hk. by destruct (insert_in_order gk gr now v c x c') as (? & ? & ? & ?).
  - intros gk gr now v c x c' Ho Hi. by apply (insert_doc_key gk gr now v c x c').
  - intros gk gr now v c e c' Hi. by apply insert_wrote in Hi.
  - intros k c r c' Hc Hk Hd. by destruct (delete_in_order k c r c') as (? & ? & ?).
Defined.

(** ** Updates *)

Lemma update_fields_wf (new m : list (string * Value Num)) : Forall (λ p, wf_value p.2) new → wf_value (Object m) →
  wf_value (Object (foldl (λ m p, if starts_with_underscore p.1 then m else OMap.insert p.1 p.2 m) m new)).
Proof.
  intros Hn. revert m. induction Hn as [|[f v] new Hv _ IH]; intros m Hm; cbn [foldl fst snd]; [done|].
  apply IH. destruct (starts_with_underscore f); [done|]. apply wf_Object in Hm as [Hw Ha]. apply wf_Object.
  split; [by apply OMap.wf_insert|]. rewrite Forall_forall in *.
  intros [f' v'] [[= -> ->]|Hin]%OMap.elem_of_insert; [done|by apply (Ha (f', v'))].
Qed.
(** An update keeps the form of a document, and takes the plain fields of the new data. *)
Lemma update_clean gr now v x0 : clean x0 → wf_value (data x0) → is_object v = true → wf_value v →
  let x := Document.update gr now v x0 in
  clean x ∧ wf_value (data x) ∧ ∀ f, starts_with_underscore f = false →
    value_get f (data x) = match value_get f v with Some y => Some y | None => value_get f (data x0) end.
Proof.
  intros [Ho Hs] Hw Hv Hwv. unfold clean, Document.update. cbn [data].
  destruct (data x0) as [| | | | |m], v as [| | | | |new]; try done.
  pose proof (proj1 (wf_Object _) Hw) as [Hm _]. pose proof (proj1 (wf_Object _) Hwv) as [Hn Hall].
  split_and!; [done| |by apply update_fields_wf|].
  - intros f Hf. cbn [value_get]. rewrite (proj2 (update_fields_get new m f Hn Hm)), (system_underscore f Hf). by apply Hs.
  - intros f Hf. cbn [value_get]. by rewrite (proj2 (update_fields_get new m f Hn Hm)), Hf.
Qed.
Lemma update_entries_quiet d k v w b : update_entries d k v w = Ok b → Forall quiet b.
Proof.
  unfold update_entries, compute_index_entries_for_update.
  destruct (geo_entries_for k w _) as [g|] eqn:Hg; [|done]. cbn. intros [= <-]. rewrite !Forall_app. split_and!; try apply quiet_dels.
  - apply (quiet_outside IDX_PREFIX); [done|done|]. rewrite entry_for_key, fst_pair_r. apply idx_keys_space.
  - apply (quiet_outside GEO_PREFIX); [done|done|]. by eapply geo_entries_prefix.
  - apply quiet_fulltext.
  - unfold empty_puts. apply Forall_fmap, Forall_true. by right.
Qed.
Lemma update_in_order gr now k v c x c' : docs_in_order c → plain k → is_object v = true → wf_value v →
  Collection.update gr now k v c = (Ok x, c') →
  docs_in_order c' ∧ key x = k ∧
  (∃ x0, get c k = Ok x0 ∧ ∀ f, starts_with_underscore f = false →
     value_get f (data x) = match value_get f v with Some y => Some y | None => value_get f (data x0) end) ∧
  (∀ x', plain (key x') → x' ∈ scan c' None ↔ x' = x ∨ x' ∈ scan c None ∧ key x' ≠ k) ∧
  ∀ x', x' ∈ scan c' None → x' = x ∨ x' ∈ scan c None.
Proof.
  intros Hc Hk Ho Hv (x0 & Hx0 & (Hx & bytes & entries & Hb & He & Hw & _ & Ht)%write_update_wrote)%update_wrote.
  destruct Hc as [Hblob Hd]. destruct (Hd _ _ Hx0) as [Hk0 [Hcl Hwf]]; [done|].
  destruct (update_clean gr now v x0) as (Hcl' & Hwf' & Hf); [done..|]. rewrite <- Hx in Hb, He, Hcl', Hwf', Hf.
  assert (key x = k) as Hkx by by rewrite Hx.
  assert (Forall (entry_space ∘ op_target) entries) as Hes by by apply update_entries_idx in He as [? _].
  assert (doc_of (db c') k = Some x) as Hput by by apply (put_doc_of (db c) _ _ _ bytes entries).
  assert (docs_in_order c') as Hc'.
  { split; [congruence|]. intros k' y Hy. destruct (decide (k' = k)) as [->|Hne]; [rewrite Hput in Hy; by injection Hy as <-|].
    apply Hd. by apply (quiet_keeps (db c) (db c') _ _ k' k y Hw); [|apply update_entries_quiet in He| |]. }
  split_and!; [done|done| | |].
  { exists x0. split; [by apply get_doc_of|done]. }
  1: intros x' Hk'. 2: intros x'.
  all: rewrite !scan_key by done;
    (destruct (decide (key x' = k)) as [Heq|Hne]; [rewrite Heq, Hput; naive_solver|]).
  - rewrite (other_doc_of (db c) (db c') k (key x') (Put _ bytes) entries) by done. naive_solver.
  - intros Hx'. right. by apply (quiet_keeps (db c) (db c') _ _ (key x') k x' Hw); [|apply update_entries_quiet in He| |].
Qed.
(** A column family is created without keys. *)
Lemma collection_store_updates : (∀ n d, new_family n = Some d → ∀ k, kv_get k d = None) → DocStoreUpdates Num Collection.
Proof.
  intros Hnew. split.
  - intros n c. cbn [ds_new collection_store]. destruct (new_family n) as [d|] eqn:E; [|done]. intros [= <-].
    assert (∀ k, doc_of d k = None) as Hd by (intros k; unfold doc_of; by rewrite (Hnew _ _ E)).
    split; [split; [done|]; intros k x; cbn [db]; by rewrite Hd|].
    apply elem_of_nil_inv. intros x [k Hk]%scan_docs. cbn [db] in Hk. by rewrite Hd in Hk.
  - intros c x Hc Hx Hk. apply scan_key in Hx; [|done]. by apply (proj2 Hc) in Hx as [_ []]; auto.
  - intros gr now k v c x c' Hc Hk Ho Hv Hu. by destruct (update_in_order gr now k v c x c') as (? & ? & ? & ? & ?).
  - intros gr now k v c e c' Hu. by apply update_wrote in Hu.
  - intros gk gr now v c x c' x' Hc Ho Hv Hi Hk. by apply (insert_in_order gk gr now v c x c').
  - intros gr now k v c x c' x' Hc Hk Ho Hv Hu. by apply (update_in_order gr now k v c x c').
  - intros k c r c' x' Hc Hk Hd. by apply (delete_in_order k c r c').
Qed.
End Instance_.
