(* ===== verification/Authorization.v ===== *)
(** * Roles, permissions and their cache
    (src/server/authorization.rs, src/server/permission_cache.rs)

    A set of permissions is a [gset], the maps of the cache are [gmap]s; time is the
    number of milliseconds of a monotonic clock, handed to the operations that read it.
    Locks that are poisoned by a panic are not modelled. *)

From S2P Require Import Prelude Text Json Transaction.

(** ** Permissions *)

Module Authorization.

Inductive PermissionAction := Admin | Write | Read.
#[global] Instance PermissionAction_eq : EqDecision PermissionAction.
Proof. solve_decision. Defined.
#[global] Instance PermissionAction_countable : Countable PermissionAction.
Proof.
  refine (inj_countable' (λ a, match a with Admin => 0 | Write => 1 | Read => 2 end)
    (λ n, match n with 0 => Admin | 1 => Write | _ => Read end) _).
  by intros [].
Defined.
(** Admin > Write > Read *)
Definition implies (self other : PermissionAction) : bool :=
  match self with
  | Admin => true
  | Write => match other with Write | Read => true | Admin => false end
  | Read => match other with Read => true | _ => false end
  end.
(** [{:?}] *)
Definition show_action (a : PermissionAction) : string :=
  match a with Admin => "Admin" | Write => "Write" | Read => "Read" end.

Inductive PermissionScope := Global | Database.
#[global] Instance PermissionScope_eq : EqDecision PermissionScope.
Proof. solve_decision. Defined.
#[global] Instance PermissionScope_countable : Countable PermissionScope.
Proof.
  refine (inj_countable' (λ s, match s with Global => true | Database => false end)
    (λ b, if b : bool then Global else Database) _).
  by intros [].
Defined.

Record Permission := mkPermission {
  action : PermissionAction;
  scope : PermissionScope;
  database : option string;
}.
#[global] Instance Permission_eq : EqDecision Permission.
Proof. solve_decision. Defined.
#[global] Instance Permission_countable : Countable Permission.
Proof.
  refine (inj_countable' (λ p, (action p, scope p, database p)) (λ t, mkPermission t.1.1 t.1.2 t.2) _).
  by intros [].
Defined.

Definition global_admin : Permission := mkPermission Admin Global None.
Definition global_write : Permission := mkPermission Write Global None.
Definition global_read : Permission := mkPermission Read Global None.
Definition database_permission (a : PermissionAction) (db : string) : Permission :=
  mkPermission a Database (Some db).

Record Role := mkRole {
  name : string;
  description : option string;
  permissions : list Permission;
  is_builtin : bool;
  created_at : string;
  updated_at : option string;
}.
Definition builtin_admin (now : string) : Role :=
  mkRole "admin" (Some "Full system access") [global_admin] true now None.
Definition builtin_editor (now : string) : Role :=
  mkRole "editor" (Some "Read and write access to all databases") [global_write; global_read] true now None.
Definition builtin_viewer (now : string) : Role :=
  mkRole "viewer" (Some "Read-only access to all databases") [global_read] true now None.
Definition builtin_roles (now : string) : list Role :=
  [builtin_admin now; builtin_editor now; builtin_viewer now].

Record UserRole := mkUserRole {
  ur_id : string;
  ur_username : string;
  ur_role : string;
  ur_database : option string;
  assigned_at : string;
  assigned_by : string;
}.
#[global] Instance UserRole_eq : EqDecision UserRole.
Proof. solve_decision. Defined.
(** The identifier is a fresh uuid. *)
Definition new_global (id now username role assigned_by : string) : UserRole :=
  mkUserRole id username role None now assigned_by.
Definition new_database_scoped (id now username role db assigned_by : string) : UserRole :=
  mkUserRole id username role (Some db) now assigned_by.
Definition ROLES_COLLECTION : string := "_roles".
Definition USER_ROLES_COLLECTION : string := "_user_roles".

(** ** Checks *)

Definition satisfies (required perm : Permission) : bool :=
  bool_decide (perm = required) ||
  implies (action perm) (action required) &&
  (bool_decide (scope perm = Global) ||
   bool_decide (scope perm = Database) && bool_decide (scope required = Database) &&
   bool_decide (database perm = database required)).
Definition has_permission (perms : gset Permission) (required : Permission) : bool :=
  existsb (satisfies required) (elements perms).
Definition resolve_permissions (roles : list Role) : gset Permission :=
  foldl (λ s role, foldl (λ s perm, {[perm]} ∪ s) s (permissions role)) ∅ roles.

Definition outside (db : string) : DbError :=
  Forbidden ("Access denied: API key not authorized for database '" +:+ db +:+ "'").
Definition insufficient (required_action : PermissionAction) (db : option string) : DbError :=
  Forbidden ("Access denied: insufficient permissions for " +:+ show_action required_action +:+ " on " +:+
    default "global" db).
Definition required_permission (required_action : PermissionAction) (db : option string) : Permission :=
  mkPermission required_action (match db with Some _ => Database | None => Global end) db.
Definition out_of_scope (scoped_databases : option (list string)) (db : option string) : option string :=
  match scoped_databases, db with
  | Some scoped_dbs, Some db => if existsb (String.eqb db) scoped_dbs then None else Some db
  | _, _ => None
  end.
Definition check_permission_raw (perms : gset Permission) (required_action : PermissionAction)
    (db : option string) (scoped_databases : option (list string)) : result DbError () :=
  match out_of_scope scoped_databases db with
  | Some db => Err (outside db)
  | None =>
      if bool_decide (global_admin ∈ perms) then Ok tt
      else if has_permission perms (required_permission required_action db) then Ok tt
      else Err (insufficient required_action db)
  end.

(** *** What a check decides *)

(** A permission covers a request on all databases, or on its own one. *)
Definition covers (p : Permission) (db : option string) : Prop :=
  scope p = Global ∨ ∃ d, db = Some d ∧ database p = Some d.
Definition in_scope (scoped : option (list string)) (db : option string) : Prop :=
  ∀ l d, scoped = Some l → db = Some d → d ∈ l.
Lemma out_of_scope_none scoped db : out_of_scope scoped db = None ↔ in_scope scoped db.
Proof.
  unfold out_of_scope, in_scope. destruct scoped as [l|], db as [d|]; [|naive_solver..].
  destruct (existsb (String.eqb d) l) eqn:E.
  - apply existsb_exists in E as (x & Hx & ->%String.eqb_eq). split; [|done].
    intros _ l' d' [= <-] [= <-]. by apply list_elem_of_In.
  - split; [done|]. intros H. exfalso. specialize (H l d eq_refl eq_refl). apply list_elem_of_In in H.
    assert (existsb (String.eqb d) l = true) by (apply existsb_exists; exists d; by rewrite String.eqb_refl).
    congruence.
Qed.
Lemma implies_refl a : implies a a = true.
Proof. by destruct a. Qed.
Lemma satisfies_spec a db p :
  satisfies (required_permission a db) p = true ↔ implies (action p) a = true ∧ covers p db.
Proof.
  unfold satisfies, covers, required_permission. cbn [action scope database].
  rewrite orb_true_iff, !andb_true_iff, orb_true_iff, !andb_true_iff, !bool_decide_eq_true. split.
  - intros [->|(Hi & [Hs|((_ & Hd) & Hdb)])]; [|by split; [|left]|].
    + cbn [action scope database]. split; [apply implies_refl|]. destruct db; [right; naive_solver|by left].
    + split; [done|]. right. destruct db as [d|]; [|done]. naive_solver.
  - intros (Hi & [Hs|(d & -> & Hd)]); [by right; split; [|left]|]. right. split; [done|].
    destruct (scope p); [by left|]. right. split_and!; done.
Qed.
Lemma has_permission_spec perms a db :
  has_permission perms (required_permission a db) = true ↔
  ∃ p, p ∈ perms ∧ implies (action p) a = true ∧ covers p db.
Proof.
  unfold has_permission. rewrite existsb_exists. split.
  - intros (p & Hp%list_elem_of_In%elem_of_elements & H%satisfies_spec). naive_solver.
  - intros (p & Hp & H). exists p. by rewrite <-list_elem_of_In, elem_of_elements, satisfies_spec.
Qed.
Lemma check_empty a db scoped : ∃ e, check_permission_raw ∅ a db scoped = Err e.
Proof.
  unfold check_permission_raw. destruct (out_of_scope scoped db); [by eexists|].
  rewrite bool_decide_false by set_solver. destruct (has_permission ∅ _) eqn:E; [|by eexists].
  apply has_permission_spec in E as (p & Hp & _). set_solver.
Qed.
(** C33: a request is allowed exactly when the database is among those the subject is
    restricted to, if it is restricted, and the subject has a permission whose action
    implies the one required (admin all, write also reading) and that is global or for
    the database of the request; every refusal is an error of access. *)
Theorem check_permission_spec perms a db scoped :
  (check_permission_raw perms a db scoped = Ok tt ↔
   in_scope scoped db ∧ ∃ p, p ∈ perms ∧ implies (action p) a = true ∧ covers p db) ∧
  match check_permission_raw perms a db scoped with Ok _ => True | Err e => ∃ msg, e = Forbidden msg end.
Proof.
  unfold check_permission_raw. rewrite <- out_of_scope_none, <- has_permission_spec.
  destruct (out_of_scope scoped db); [split; [naive_solver|by eexists]|].
  case_bool_decide as Ha.
  - split; [|done]. split; [|done]. intros _. split; [done|]. apply has_permission_spec.
    exists global_admin. split_and!; [done|done|by left].
  - destruct (has_permission _ _) eqn:E; (split; [naive_solver|]); [done|by eexists].
Qed.
Lemma elem_of_resolve roles p :
  p ∈ resolve_permissions roles ↔ ∃ r, r ∈ roles ∧ p ∈ permissions r.
Proof.
  unfold resolve_permissions.
  assert (∀ l (s : gset Permission), p ∈ foldl (λ s perm, {[perm]} ∪ s) s l ↔ p ∈ l ∨ p ∈ s) as Hl.
  { induction l as [|x l IH]; intros s; cbn [foldl]; [set_solver|]. rewrite IH. set_solver. }
  assert (∀ s : gset Permission, p ∈ foldl (λ s role, foldl (λ s perm, {[perm]} ∪ s) s (permissions role)) s roles ↔
    (∃ r, r ∈ roles ∧ p ∈ permissions r) ∨ p ∈ s) as H.
  { induction roles as [|r roles IH]; intros s; cbn [foldl]; [set_solver|]. rewrite IH, Hl. set_solver. }
  rewrite H. set_solver.
Qed.
End Authorization.

(** ** The cache *)

Module PermissionCache.
Import Authorization.

Record CachedPermissions := mkCached {
  cached_permissions : gset Permission;
  cached_roles : list string;
  cached_databases : option (list string);
  cached_at : N;
}.
(** [CachedPermissions::new] *)
Definition cached_new (now : N) (perms : gset Permission) (roles : list string)
    (scoped_databases : option (list string)) : CachedPermissions :=
  mkCached perms roles scoped_databases now.
Definition is_expired (now : N) (e : CachedPermissions) (ttl : N) : bool := (ttl <? now - cached_at e)%N.

Record Cache := mkCache {
  entries : gmap string CachedPermissions;
  roles : gmap string Role;
  ttl : N;
}.
Definition DEFAULT_CACHE_TTL : N := 60000.
Definition with_ttl (ttl : N) : Cache := mkCache ∅ ∅ ttl.
Definition new : Cache := with_ttl DEFAULT_CACHE_TTL.
Definition set_entries (e : gmap string CachedPermissions) (c : Cache) : Cache := mkCache e (roles c) (ttl c).
Definition set_roles (r : gmap string Role) (c : Cache) : Cache := mkCache (entries c) r (ttl c).

Definition get (now : N) (subject : string) (c : Cache) : option CachedPermissions :=
  match entries c !! subject with
  | Some entry => if is_expired now entry (ttl c) then None else Some entry
  | None => None
  end.
Definition cleanup_expired_internal (now ttl : N) (m : gmap string CachedPermissions) : gmap string CachedPermissions :=
  filter (λ p, is_expired now p.2 ttl = false) m.
Definition set (now : N) (subject : string) (perms : CachedPermissions) (c : Cache) : Cache :=
  let m := <[subject := perms]> (entries c) in
  set_entries (if (size m mod 100 =? 0)%nat then cleanup_expired_internal now (ttl c) m else m) c.
Definition invalidate (subject : string) (c : Cache) : Cache := set_entries (delete subject (entries c)) c.
Definition invalidate_role (role_name : string) (c : Cache) : Cache :=
  set_entries (filter (λ p, existsb (String.eqb role_name) (cached_roles p.2) = false) (entries c)) c.
Definition clear (c : Cache) : Cache := set_entries ∅ c.
Definition cleanup_expired (now : N) (c : Cache) : Cache :=
  set_entries (cleanup_expired_internal now (ttl c) (entries c)) c.
Definition get_role (n : string) (c : Cache) : option Role := roles c !! n.
Definition set_role (role : Role) (c : Cache) : Cache := set_roles (<[name role := role]> (roles c)) c.
Definition remove_role (n : string) (c : Cache) : Cache := set_roles (delete n (roles c)) c.
Definition get_all_roles (c : Cache) : list Role := (map_to_list (roles c)).*2.
Definition initialize_builtin_roles (now : string) (c : Cache) : Cache :=
  set_roles (foldl (λ m role, <[name role := role]> m) (roles c) (builtin_roles now)) c.
Definition entry_count (c : Cache) : nat := size (entries c).
Definition role_count (c : Cache) : nat := size (roles c).

(** *** Lookups after operations *)

Lemma get_cleaned now n m ttl s :
  (now ≤ n)%N →
  match cleanup_expired_internal now ttl m !! s with
  | Some e => if is_expired n e ttl then None else Some e | None => None end =
  match m !! s with Some e => if is_expired n e ttl then None else Some e | None => None end.
Proof.
  intros Hn. unfold cleanup_expired_internal. rewrite map_lookup_filter. destruct (m !! s) as [e|]; [|done]. cbn.
  unfold guard. case_decide as Hd; [done|]. cbn in Hd. cbn.
  assert (is_expired n e ttl = true) as ->; [|done]. unfold is_expired in *.
  apply not_false_iff_true, N.ltb_lt in Hd. apply N.ltb_lt. lia.
Qed.
Lemma get_set now n s s' e c : (now ≤ n)%N →
  get n s (set now s' e c) =
  if decide (s = s') then if is_expired n e (ttl c) then None else Some e else get n s c.
Proof.
  intros Hn. unfold get, set, set_entries. cbn [entries ttl].
  assert (∀ m : gmap string CachedPermissions, m = <[s' := e]> (entries c) →
    match m !! s with Some e => if is_expired n e (ttl c) then None else Some e | None => None end =
    if decide (s = s') then if is_expired n e (ttl c) then None else Some e
    else match entries c !! s with Some e => if is_expired n e (ttl c) then None else Some e | None => None end) as H.
  { intros m ->. rewrite lookup_insert. by repeat case_decide; simplify_eq. }
  destruct (_ =? 0)%nat; [rewrite get_cleaned by done|]; by apply H.
Qed.
Lemma get_invalidate n s s' c : get n s (invalidate s' c) = if decide (s = s') then None else get n s c.
Proof.
  unfold get, invalidate. cbn [entries ttl set_entries]. rewrite lookup_delete.
  by repeat case_decide; simplify_eq.
Qed.
(** What is served was stored at most [ttl] ago. *)
Lemma get_fresh n s c e : get n s c = Some e → entries c !! s = Some e ∧ (n - cached_at e ≤ ttl c)%N.
Proof.
  unfold get. destruct (entries c !! s) as [e'|]; [|done]. destruct (is_expired n e' (ttl c)) eqn:E; [done|].
  intros [= ->]. split; [done|]. apply N.ltb_ge in E. lia.
Qed.
Lemma get_invalidate_role n s r c e : get n s (invalidate_role r c) = Some e →
  get n s c = Some e ∧ r ∉ cached_roles e.
Proof.
  unfold get, invalidate_role. cbn [entries ttl set_entries]. rewrite map_lookup_filter.
  destruct (entries c !! s) as [e'|]; [|done]. cbn. unfold guard. case_decide as Hd; [|done]. cbn.
  destruct (is_expired n e' (ttl c)); [done|]. intros [= ->]. split; [done|]. intros Hr. cbn in Hd.
  apply not_true_iff_false in Hd. apply Hd, existsb_exists. exists r. rewrite String.eqb_refl.
  split; [by apply list_elem_of_In|done].
Qed.
End PermissionCache.
