(* ===== verification/Auth.v ===== *)
(** * Authentication (src/server/auth.rs, src/server/handlers/auth.rs, and the lookup of
    effective permissions of src/server/authorization.rs)

    The state of the server the handlers share is [AppState]: the collections of the
    database _system, the permission cache, the entries handed to the replication log and
    the content of the cluster keyfile. A handler runs in the monad [M] of that state; what
    it writes before an error stays written. The JWT, password, hash, base64 and URL-encoding
    crates are the class [AuthCrates]. What a call gets from the clock and the random
    source is a [Fresh]. *)

From S2P Require Import Prelude Text Json Transaction Document Indexes SyncLog DocStore Authorization.
Import Indexes Json Document Authorization.

(** ** Rate limiting of logins *)

Module RateLimit.
Definition MAX_LOGIN_ATTEMPTS : nat := 20.
Definition RATE_LIMIT_WINDOW_SECS : N := 60.
(** Instants in milliseconds. *)
Definition window : N := RATE_LIMIT_WINDOW_SECS * 1000.
Notation Limiter := (gmap string (list N)).
Definition recent (now : N) (attempts : list N) : list N := List.filter (λ t, (now - t <? window)%N) attempts.
Definition check_rate_limit (now : N) (ip : string) (limiter : Limiter) : result DbError () * Limiter :=
  let attempts := recent now (default [] (limiter !! ip)) in
  if (MAX_LOGIN_ATTEMPTS <=? length attempts)%nat
  then (Err (BadRequest ("Too many login attempts. Please wait " +:+ dec RATE_LIMIT_WINDOW_SECS +:+
          " seconds before trying again.")), <[ip := attempts]> limiter)
  else (Ok tt, <[ip := attempts ++ [now]]> limiter).
End RateLimit.

(** ** Data *)

Record Claims := mkClaims {
  sub : string;
  exp : N;
  livequery : option bool;
  roles : option (list string);
  scoped_databases : option (list string);
}.
Record User := mkUser { username : string; password_hash : string }.
Record ApiKey := mkApiKey {
  ak_id : string;
  ak_name : string;
  key_hash : string;
  ak_created_at : string;
  ak_roles : list string;
  ak_scoped : option (list string);
  expires_at : option string;
}.
Definition ADMIN_DB : string := "_system".
Definition ADMIN_COLL : string := "_admins".
Definition API_KEYS_COLL : string := "_api_keys".
Definition ROLES_COLL : string := "_roles".
Definition USER_ROLES_COLL : string := "_user_roles".
Definition CONFIG_COLL : string := "_config".
Definition DEFAULT_USER : string := "admin".
Definition RBAC_CONFIG_KEY : string := "rbac_migrated".
Definition usize_max : N := u64_modulus - 1.

(** argon2, jsonwebtoken with the secret of the server, sha2 and hex, chrono, base64 with
    [String::from_utf8], and serde_urlencoded. *)
Class AuthCrates := {
  argon2_hash : string → string → result string string;    (* salt, password *)
  argon2_verify : string → string → bool;                  (* password, text of the hash *)
  jwt_encode : Claims → result string string;
  jwt_decode : N → string → option Claims;                 (* seconds since the epoch *)
  sha256_hex : string → string;
  rfc3339_before : string → Z → option bool;               (* the time, if it parses, is before now *)
  base64_text : string → option string;
  urlencoded : string → option (gmap string string);
}.

(** What one call of a handler gets from the clock and the random source. *)
Record Fresh := mkFresh {
  f_uuid : string; f_text : string; f_millis : N; f_mono : N; f_secs : N; f_time : Z;
  f_key : string; f_rev : string; f_salt : string; f_secret : string }.

(** The fold with which the source compares bytes in constant time. *)
Definition constant_time_eq (a b : string) : bool :=
  if negb (String.length a =? String.length b)%nat then false
  else (foldl (λ acc p, N.lor acc (N.lxor (N_of_ascii p.1) (N_of_ascii p.2))) 0
          (zip (list_ascii_of_string a) (list_ascii_of_string b)) =? 0)%N.

Section State.
Context {Num C : Type}.
Record AppState := mkState {
  system : option (gmap string C);
  permission_cache : PermissionCache.Cache;
  replication_log : option (list SyncLog.LogEntry);
  keyfile : option string;
  limiter : RateLimit.Limiter;
}.
Definition M (A : Type) : Type := AppState → result DbError A * AppState.
#[export] Instance M_ret : MRet M := λ _ x s, (Ok x, s).
#[export] Instance M_bind : MBind M := λ _ _ f m s,
  match m s with (Ok x, s') => f x s' | (Err e, s') => (Err e, s') end.
Definition throw {A} (e : DbError) : M A := λ s, (Err e, s).
Definition lift {A} (r : result DbError A) : M A := λ s, (r, s).
(** [r.is_ok()], with the state the call leaves *)
Definition try {A} (m : M A) : M (result DbError A) := λ s, let '(r, s') := m s in (Ok r, s').

Definition set_system (d : option (gmap string C)) (s : AppState) : AppState :=
  mkState d (permission_cache s) (replication_log s) (keyfile s) (limiter s).
Definition set_cache (c : PermissionCache.Cache) (s : AppState) : AppState :=
  mkState (system s) c (replication_log s) (keyfile s) (limiter s).
Definition set_log (l : option (list SyncLog.LogEntry)) (s : AppState) : AppState :=
  mkState (system s) (permission_cache s) l (keyfile s) (limiter s).
Definition set_limiter (l : RateLimit.Limiter) (s : AppState) : AppState :=
  mkState (system s) (permission_cache s) (replication_log s) (keyfile s) l.

(** [storage.get_database("_system")?.get_collection(name)?] *)
Definition get_collection (n : string) : M C := λ s,
  match system s with
  | None => (Err (CollectionNotFound "Database '_system' not found"), s)
  | Some m => match m !! n with Some c => (Ok c, s) | None => (Err (CollectionNotFound n), s) end
  end.
(** A call of a collection, which is shared: what it leaves is what the next call sees. *)
Definition on {A} (n : string) (op : C → result DbError A * C) : M A := λ s,
  match get_collection n s with
  | (Err e, s') => (Err e, s')
  | (Ok c, _) =>
      let '(r, c') := op c in (r, set_system ((λ m, <[n := c']> m) <$> system s) s)
  end.
Definition cached (f : PermissionCache.Cache → PermissionCache.Cache) : M () :=
  λ s, (Ok tt, set_cache (f (permission_cache s)) s).
Definition append (e : SyncLog.LogEntry) : M () :=
  λ s, (Ok tt, set_log ((λ l, l ++ [e]) <$> replication_log s) s).
End State.
Arguments AppState : clear implicits.

Module AuthService.
Section AuthService.
Context {Num C : Type} `{!DocStore Num C} `{!MetaJson Num} `{!DocumentJson Num} `{std_text : !StdText} `{crates : !AuthCrates}.
Context `{!Serde Num Role} `{!Serde Num UserRole} `{!Serde Num User} `{!Serde Num ApiKey}.
Notation AppState := (AppState C).
Notation M := (M (C:=C)).
Notation Value := (Value Num).
Notation Document := (Document Num).

(** [get_database("_system")?] *)
Definition get_database : M () := λ s,
  (match system s with Some _ => Ok tt | None => Err (CollectionNotFound "Database '_system' not found") end, s).
Definition create_collection (n : string) : M () := λ s,
  match system s, ds_new n with
  | Some m, Ok c => (Ok tt, set_system (Some (<[n := c]> m)) s)
  | Some _, Err e => (Err e, s)
  | None, _ => (Err (CollectionNotFound "Database '_system' not found"), s)
  end.
(** The entry of a write for the replication log. *)
Definition record (f : Fresh) (coll : string) (op : SyncLog.Operation) (k : string) (v : option Value) : M () :=
  append (SyncLog.mkEntry 0 "" ADMIN_DB coll op k (v ≫= value_to_vec) (f_millis f) None).
Definition insert_into (f : Fresh) (coll : string) (v : Value) : M Document :=
  on coll (ds_insert (f_key f) (f_rev f) (f_time f) v).
Definition insert_recorded (f : Fresh) (coll : string) (k : string) (v : Value) : M () :=
  insert_into f coll v;; record f coll SyncLog.Insert k (Some v).
Definition json_error {A} (r : result string A) : M A :=
  match r with Ok x => mret x | Err e => throw (JsonError e) end.
Definition with_error {A} (e : string → DbError) (r : result string A) : M A :=
  match r with Ok x => mret x | Err t => throw (e t) end.

(** ** Passwords and tokens *)

Definition verify_password (password hash : string) : bool := argon2_verify password hash.
Definition hash_password (salt password : string) : result DbError string :=
  match argon2_hash salt password with
  | Ok h => Ok h
  | Err e => Err (InternalError ("Hashing error: " +:+ e))
  end.
Definition encode (claims : Claims) : result DbError string :=
  match jwt_encode claims with
  | Ok t => Ok t
  | Err e => Err (InternalError ("Token creation failed: " +:+ e))
  end.
Definition create_jwt_with_roles (secs : N) (username : string) (roles scoped_databases : option (list string))
    : result DbError string :=
  encode (mkClaims username (secs + 24 * 3600) None roles scoped_databases).
Definition create_jwt (secs : N) (username : string) : result DbError string :=
  create_jwt_with_roles secs username None None.
Definition create_livequery_jwt (secs : N) : result DbError string :=
  encode (mkClaims "livequery" (secs + 2) (Some true) None None).
Definition validate_token (secs : N) (token : string) : result DbError Claims :=
  match jwt_decode secs token with
  | Some claims => Ok claims
  | None => Err (BadRequest "Invalid token")
  end.

(** ** API keys *)

Definition hash_api_key (key : string) : string := sha256_hex key.
(** The secret is the hexadecimal text of 32 random bytes. *)
Definition generate_api_key (secret : string) : string * string :=
  let raw_key := "sk_" +:+ secret in (raw_key, hash_api_key raw_key).
Definition key_claims (k : ApiKey) : Claims :=
  mkClaims ("api-key:" +:+ ak_name k) usize_max None
    (match ak_roles k with [] => None | _ => Some (ak_roles k) end) (ak_scoped k).
Definition key_expired (now : Z) (k : ApiKey) : bool :=
  match expires_at k with
  | Some t => match rfc3339_before t now with Some b => b | None => false end
  | None => false
  end.
Fixpoint find_api_key (now : Z) (incoming_hash : string) (docs : list Document) : M Claims :=
  match docs with
  | [] => throw (BadRequest "Invalid API key")
  | doc :: docs =>
      match from_json (A:=ApiKey) (to_value doc) with
      | Err _ => throw (InternalError "Corrupted API key data")
      | Ok k =>
          if constant_time_eq incoming_hash (key_hash k)
          then if key_expired now k then throw (BadRequest "API key has expired") else mret (key_claims k)
          else find_api_key now incoming_hash docs
      end
  end.
Definition validate_api_key (now : Z) (raw_key : string) : M Claims :=
  c ← get_collection API_KEYS_COLL;
  find_api_key now (hash_api_key raw_key) (ds_scan c).

(** ** Roles of a user *)

Definition user_role_docs (docs : list Document) : list UserRole :=
  omap (λ d, match from_json (A:=UserRole) (to_value d) with Ok u => Some u | Err _ => None end) docs.
Definition get_user_roles (user : string) : M (option (list string)) := λ s,
  match get_collection USER_ROLES_COLL s with
  | (Err _, _) => (Ok None, s)
  | (Ok c, _) =>
      match ur_role <$> List.filter (λ u, String.eqb (ur_username u) user) (user_role_docs (ds_scan c)) with
      | [] =>
          match get_collection ADMIN_COLL s with
          | (Ok admins, _) => (Ok (if (ds_count admins =? 1)%N then Some ["admin"] else None), s)
          | (Err _, _) => (Ok None, s)
          end
      | roles => (Ok (Some roles), s)
      end
  end.

(** ** Effective permissions (AuthorizationService) *)

(** The role of a name: from the cache, or else from the data of its document. *)
Definition load_role (c : C) (role_name : string) : M (option Role) := λ s,
  match PermissionCache.get_role role_name (permission_cache s) with
  | Some role => (Ok (Some role), s)
  | None =>
      match ds_get c role_name with
      | Ok doc =>
          match from_json (A:=Role) (data doc) with
          | Ok role => (Ok (Some role), set_cache (PermissionCache.set_role role (permission_cache s)) s)
          | Err _ => (Ok None, s)
          end
      | Err _ => (Ok None, s)
      end
  end.
Fixpoint load_roles (c : C) (role_names : list string) : M (list Role) :=
  match role_names with
  | [] => mret []
  | n :: ns => r ← load_role c n; rs ← load_roles c ns; mret (option_list r ++ rs)
  end.
Definition get_effective_permissions (now : N) (claims : Claims) : M (gset Permission) := λ s,
  match PermissionCache.get now (sub claims) (permission_cache s) with
  | Some e => (Ok (PermissionCache.cached_permissions e), s)
  | None =>
      match default [] (roles claims) with
      | [] => (Ok {[global_admin]}, s)
      | role_names =>
          (c ← get_collection ROLES_COLLECTION;
           rs ← load_roles c role_names;
           let perms := resolve_permissions rs in
           cached (PermissionCache.set now (sub claims)
             (PermissionCache.cached_new now perms role_names (scoped_databases claims)));;
           mret perms) s
      end
  end.
Definition check_permission (now : N) (claims : Claims) (required_action : PermissionAction)
    (db : option string) : M () :=
  perms ← get_effective_permissions now claims;
  lift (check_permission_raw perms required_action db (scoped_databases claims)).

(** ** Initialization *)

(** The environment of the start: the node joins a cluster, the password of
    SOLIDB_ADMIN_PASSWORD. *)
Record Env := mkEnv { joining : bool; admin_password : option string }.
Definition override (env : Env) : option string :=
  match admin_password env with Some p => if String.eqb p "" then None else Some p | None => None end.
Definition should_skip_defaults (env : Env) : bool :=
  joining env && match override env with Some _ => false | None => true end.
Definition ensure_collection (skip : bool) (n : string) : M () :=
  r ← try (get_collection n);
  match r with
  | Err (CollectionNotFound _) => if skip then mret tt else create_collection n
  | _ => mret tt
  end.
Definition create_default_admin (f : Fresh) (env : Env) : M () :=
  hash ← lift (hash_password (f_salt f) (default (f_secret f) (override env)));
  insert_recorded f ADMIN_COLL DEFAULT_USER (to_json (mkUser DEFAULT_USER hash)).

Fixpoint insert_builtin (fs : nat → Fresh) (rs : list Role) : M () :=
  match rs with
  | [] => mret tt
  | role :: rs =>
      c ← get_collection ROLES_COLL;
      (match ds_get c (name role) with
       | Ok _ => mret tt
       | Err _ => insert_recorded (fs 0%nat) ROLES_COLL (name role) (to_json role)
       end);;
      insert_builtin (λ i, fs (Datatypes.S i)) rs
  end.
Fixpoint migrate_users (fs : nat → Fresh) (docs : list Document) : M () :=
  match docs with
  | [] => mret tt
  | doc :: docs =>
      match from_json (A:=User) (to_value doc) with
      | Err e => throw (InternalError ("Invalid user data: " +:+ e))
      | Ok user =>
          c ← get_collection USER_ROLES_COLL;
          (if existsb (λ u, String.eqb (ur_username u) (username user)) (user_role_docs (ds_scan c)) then mret tt
           else let u := new_global (f_uuid (fs 0%nat)) (f_text (fs 0%nat)) (username user) "admin" "migration" in
                insert_recorded (fs 0%nat) USER_ROLES_COLL (ur_id u) (to_json u));;
          migrate_users (λ i, fs (Datatypes.S i)) docs
      end
  end.
Definition migrate_existing_users_to_admin (fs : nat → Fresh) : M () :=
  admins ← get_collection ADMIN_COLL;
  get_collection USER_ROLES_COLL;;
  migrate_users fs (ds_scan admins).
Definition with_admin (k : ApiKey) : ApiKey :=
  mkApiKey (ak_id k) (ak_name k) (key_hash k) (ak_created_at k) ["admin"] (ak_scoped k) (expires_at k).
Definition update_recorded (f : Fresh) (coll : string) (k : string) (v : Value) : M () :=
  on coll (ds_update (f_rev f) (f_time f) k v);; record f coll SyncLog.Update k (Some v).
Fixpoint migrate_keys (fs : nat → Fresh) (docs : list Document) : M () :=
  match docs with
  | [] => mret tt
  | doc :: docs =>
      match from_json (A:=ApiKey) (to_value doc) with
      | Err e => throw (InternalError ("Invalid API key data: " +:+ e))
      | Ok k =>
          (match ak_roles k with
           | [] => update_recorded (fs 0%nat) API_KEYS_COLL (ak_id k) (to_json (with_admin k))
           | _ => mret tt
           end);;
          migrate_keys (λ i, fs (Datatypes.S i)) docs
      end
  end.
Definition migrate_existing_api_keys_to_admin (fs : nat → Fresh) : M () :=
  c ← get_collection API_KEYS_COLL; migrate_keys fs (ds_scan c).
Definition migration_record (f : Fresh) : Value :=
  Object (OMap.insert "version" (JString "1.0") (OMap.insert "migrated_at" (JString (f_text f))
    (OMap.insert "_key" (JString RBAC_CONFIG_KEY) []))).
Definition is_migrated : M bool := λ s,
  match get_collection CONFIG_COLL s with
  | (Ok c, _) => (Ok (match ds_get c RBAC_CONFIG_KEY with Ok _ => true | Err _ => false end), s)
  | (Err _, _) => (Ok false, s)
  end.
(** The supplies are those of the builtin roles, of the users and of the API keys. *)
Definition init_rbac (f : Fresh) (f_roles f_users f_keys : nat → Fresh) (skip : bool) : M () :=
  get_database;;
  ensure_collection skip ROLES_COLL;;
  ensure_collection skip USER_ROLES_COLL;;
  ensure_collection skip CONFIG_COLL;;
  if skip then mret tt else
  migrated ← is_migrated;
  if migrated : bool then mret tt else
  (r ← try (get_collection ROLES_COLL);
   match r with Ok _ => insert_builtin f_roles (builtin_roles (f_text f)) | Err _ => mret tt end);;
  migrate_existing_users_to_admin f_users;;
  migrate_existing_api_keys_to_admin f_keys;;
  r ← try (get_collection CONFIG_COLL);
  match r with Ok _ => insert_into f CONFIG_COLL (migration_record f);; mret tt | Err _ => mret tt end.
Definition init (f : Fresh) (f_roles f_users f_keys : nat → Fresh) (env : Env) : M () :=
  get_database;;
  let skip := should_skip_defaults env in
  ensure_collection skip ADMIN_COLL;;
  ensure_collection skip API_KEYS_COLL;;
  (r ← try (get_collection ADMIN_COLL);
   match r with
   | Ok c => if (ds_count c =? 0)%N then if skip then mret tt else create_default_admin f env else mret tt
   | Err _ => mret tt
   end);;
  init_rbac f f_roles f_users f_keys skip.

(** ** The middleware *)

(** The headers and the query of a request, as far as they are read. *)
Record Request := mkRequest {
  x_shard_direct : bool;
  x_scatter_gather : bool;
  x_cluster_secret : option string;
  x_api_key : option string;
  authorization : option string;
  query : option string;
}.
Fixpoint strip_prefix (p h : string) : option string :=
  match p, h with
  | EmptyString, _ => Some h
  | String a p', String b h' => if Ascii.eqb a b then strip_prefix p' h' else None
  | String _ _, EmptyString => None
  end.
Definition basic_claims (credentials : string) : M (option Claims) :=
  match split_once ":" credentials with
  | None => mret None
  | Some (user, password) =>
      r ← try (get_collection ADMIN_COLL);
      match r with
      | Err _ => mret None
      | Ok c =>
          match ds_get c user with
          | Err _ => mret None
          | Ok doc =>
              match from_json (A:=User) (to_value doc) with
              | Err _ => mret None
              | Ok u =>
                  if verify_password password (password_hash u)
                  then roles ← get_user_roles user; mret (Some (mkClaims user usize_max None roles None))
                  else mret None
              end
          end
      end
  end.
Definition ok_claims (m : M Claims) : M (option Claims) :=
  r ← try m; mret (match r with Ok c => Some c | Err _ => None end).
Definition internal_claims (req : Request) : M (option Claims) := λ s,
  let cluster_secret := default "" (keyfile s) in
  (Ok (if (x_shard_direct req || x_scatter_gather req) && negb (String.eqb cluster_secret "") &&
          constant_time_eq cluster_secret (default "" (x_cluster_secret req))
       then Some (mkClaims "cluster-internal" usize_max None (Some ["admin"]) None) else None), s).
(** The credentials of the headers: none, refused, or those of a subject. *)
Definition header_claims (f : Fresh) (req : Request) : M (option (option Claims)) :=
  match x_api_key req with
  | Some k => c ← ok_claims (validate_api_key (f_time f) k); mret (Some c)
  | None =>
      match authorization req with
      | None => mret None
      | Some h =>
          match strip_prefix "ApiKey " h with
          | Some k => c ← ok_claims (validate_api_key (f_time f) k); mret (Some c)
          | None =>
          match strip_prefix "Bearer " h with
          | Some t => c ← ok_claims (lift (validate_token (f_secs f) t)); mret (Some c)
          | None =>
          match strip_prefix "Basic " h with
          | Some e =>
              match base64_text e with
              | Some credentials => c ← basic_claims credentials; mret (Some c)
              | None => mret (Some None)
              end
          | None => mret None
          end end end
      end
  end.
Definition query_claims (f : Fresh) (req : Request) : option Claims :=
  match query req with
  | None => None
  | Some q =>
      match urlencoded q ≫= lookup "token" with
      | None => None
      | Some token => match validate_token (f_secs f) token with Ok c => Some c | Err _ => None end
      end
  end.
(** The claims with which the request goes on, or UNAUTHORIZED. *)
Definition auth_middleware (f : Fresh) (req : Request) : M (option Claims) :=
  i ← internal_claims req;
  match i with
  | Some c => mret (Some c)
  | None =>
      h ← header_claims f req;
      match h with Some c => mret c | None => mret (query_claims f req) end
  end.
(** [None]: UNAUTHORIZED; [Some None]: anonymous. *)
Definition permissive_auth_middleware (f : Fresh) (req : Request) : M (option (option Claims)) :=
  h ← header_claims f req;
  mret (match h with Some (Some c) => Some (Some c) | Some None => None | None => Some None end).

(** ** The handlers of sessions and API keys (src/server/handlers/auth.rs) *)

Definition change_password_handler (f : Fresh) (claims : Claims) (current_password new_password : string) : M () :=
  c ← get_collection ADMIN_COLL;
  match ds_get c (sub claims) with
  | Err (DocumentNotFound _) => throw (BadRequest "User not found")
  | Err e => throw e
  | Ok doc =>
      match from_json (A:=User) (to_value doc) with
      | Err _ => throw (InternalError "Corrupted user data")
      | Ok user =>
          if negb (verify_password current_password (password_hash user))
          then throw (BadRequest "Current password is incorrect")
          else hash ← lift (hash_password (f_salt f) new_password);
               update_recorded f ADMIN_COLL (sub claims) (to_json (mkUser (username user) hash))
      end
  end.
Definition new_api_key (f : Fresh) (n : string) (rs : list string) (scoped : option (list string)) : ApiKey :=
  mkApiKey (f_uuid f) n (generate_api_key (f_secret f)).2 (f_text f)
    (match rs with [] => ["admin"] | _ => rs end) scoped None.
(** Returns the key and the record stored for it. *)
Definition create_api_key_handler (f : Fresh) (n : string) (rs : list string) (scoped : option (list string))
    : M (string * ApiKey) :=
  get_database;;
  ensure_collection false API_KEYS_COLL;;
  get_collection API_KEYS_COLL;;
  let k := new_api_key f n rs scoped in
  insert_recorded f API_KEYS_COLL (ak_id k) (to_json k);;
  mret ((generate_api_key (f_secret f)).1, k).
Fixpoint read_keys (docs : list Document) : M (list ApiKey) :=
  match docs with
  | [] => mret []
  | doc :: docs =>
      match from_json (A:=ApiKey) (to_value doc) with
      | Err _ => throw (InternalError "Corrupted API key data")
      | Ok k => ks ← read_keys docs; mret (k :: ks)
      end
  end.
Definition list_api_keys_handler : M (list ApiKey) :=
  get_database;;
  r ← try (get_collection API_KEYS_COLL);
  match r with
  | Ok c => read_keys (ds_scan c)
  | Err (CollectionNotFound _) => mret []
  | Err e => throw e
  end.
Definition delete_api_key_handler (f : Fresh) (key_id : string) : M () :=
  on API_KEYS_COLL (ds_delete key_id);;
  record f API_KEYS_COLL SyncLog.Delete key_id None.
(** The address of the client: the first one of X-Forwarded-For, X-Real-IP, or "unknown". *)
Definition client_ip (trim : string → string) (x_forwarded_for x_real_ip : option string) : string :=
  match x_forwarded_for with
  | Some h => trim (default h (head (split_on "," h)))
  | None => default "unknown" x_real_ip
  end.
Definition rate_limited (f : Fresh) (ip : string) : M () := λ s,
  let '(r, l) := RateLimit.check_rate_limit (f_mono f) ip (limiter s) in (r, set_limiter l s).
Definition login_handler (f : Fresh) (f_roles f_users f_keys : nat → Fresh) (env : Env) (ip user password : string)
    : M string :=
  rate_limited f ip;;
  get_database;;
  r ← try (get_collection ADMIN_COLL);
  (match r with
   | Ok c => mret tt
   | Err (CollectionNotFound _) => init f f_roles f_users f_keys env;; get_collection ADMIN_COLL;; mret tt
   | Err e => throw e
   end);;
  c ← get_collection ADMIN_COLL;
  (if (ds_count c =? 0)%N then init f f_roles f_users f_keys env else mret tt);;
  c ← get_collection ADMIN_COLL;
  match ds_get c user with
  | Err (DocumentNotFound _) => throw (BadRequest "Invalid credentials")
  | Err e => throw e
  | Ok doc =>
      match from_json (A:=User) (to_value doc) with
      | Err _ => throw (InternalError "Corrupted user data")
      | Ok u =>
          if negb (verify_password password (password_hash u)) then throw (BadRequest "Invalid credentials")
          else lift (create_jwt (f_secs f) (username u))
      end
  end.
Definition livequery_token_handler (f : Fresh) : M (string * N) :=
  token ← lift (create_livequery_jwt (f_secs f)); mret (token, 2%N).
End AuthService.
End AuthService.
