(* ===== verification/RoleHandlers.v ===== *)
(** * Roles and users (src/server/role_handlers.rs)

    The handlers in the monad of [Auth]; a response is the record it is made from. *)

From S2P Require Import Prelude Text Json Transaction Document Indexes SyncLog DocStore Authorization Auth.
Import Indexes Json Document Authorization AuthService.

Module RoleHandlers.
Section RoleHandlers.
Context {Num C : Type} `{!DocStore Num C} `{!MetaJson Num} `{!DocumentJson Num} `{std_text : !StdText} `{crates : !AuthCrates}.
Context `{!Serde Num Role} `{!Serde Num UserRole} `{!Serde Num User}.
Notation M := (M (C:=C)).
Notation Value := (Value Num).
Notation Document := (Document Num).

(** ** Requests and responses *)

Record PermissionInput := mkInput { in_action : string; in_scope_ : string; in_database : option string }.
Definition to_permission (p : PermissionInput) : result DbError Permission :=
  let a := to_lowercase (in_action p) in
  let s := to_lowercase (in_scope_ p) in
  match (if String.eqb a "admin" then Ok Admin else if String.eqb a "write" then Ok Write
         else if String.eqb a "read" then Ok Read else Err (BadRequest ("Invalid action: " +:+ a))) with
  | Err e => Err e
  | Ok action =>
  match (if String.eqb s "global" then Ok Global else if String.eqb s "database" then Ok Database
         else Err (BadRequest ("Invalid scope: " +:+ s))) with
  | Err e => Err e
  | Ok scope =>
      if bool_decide (scope = Database) && match in_database p with None => true | Some _ => false end
      then Err (BadRequest "database field is required for database-scoped permissions")
      else Ok (mkPermission action scope (in_database p))
  end end.
Fixpoint to_permissions (l : list PermissionInput) : result DbError (list Permission) :=
  match l with
  | [] => Ok []
  | p :: l =>
      match to_permission p with
      | Err e => Err e
      | Ok perm => match to_permissions l with Err e => Err e | Ok perms => Ok (perm :: perms) end
      end
  end.
Definition permission_output (p : Permission) : PermissionInput :=
  mkInput (match action p with Admin => "admin" | Write => "write" | Read => "read" end)
    (match scope p with Global => "global" | Database => "database" end) (database p).
Record RoleResponse := mkRoleResponse {
  rr_name : string; rr_description : string; rr_permissions : list PermissionInput; rr_is_builtin : bool;
  rr_created_at : string; rr_updated_at : string }.
Definition role_response (r : Role) : RoleResponse :=
  mkRoleResponse (name r) (default "" (description r)) (permission_output <$> permissions r) (is_builtin r)
    (created_at r) (default (created_at r) (updated_at r)).
Record UserResponse := mkUserResponse { u_username : string; u_created_at : option string; u_roles : list string }.

(** The data of a document with its key entered. *)
Definition with_key_field (d : Document) : Value :=
  match data d with Object m => Object (OMap.insert "_key" (JString (key d)) m) | v => v end.
Definition read_all {A} `{!Serde Num A} (docs : list Document) : list A :=
  omap (λ d, match from_json (with_key_field d) with Ok x => Some x | Err _ => None end) docs.
Definition admin_only (f : Fresh) (claims : Claims) : M () := check_permission (f_mono f) claims Admin None.

(** ** Roles *)

Definition list_roles (f : Fresh) (claims : Claims) : M (list RoleResponse) :=
  admin_only f claims;;
  c ← get_collection ROLES_COLLECTION;
  mret (role_response <$> read_all (A:=Role) (ds_scan c)).
Definition reserved (n : string) : bool :=
  starts_with "admin" n || starts_with "editor" n || starts_with "viewer" n.
Definition create_role (f : Fresh) (claims : Claims) (n : string) (descr : option string)
    (perms : list PermissionInput) : M RoleResponse :=
  admin_only f claims;;
  if reserved n
  then throw (BadRequest "Cannot create role with reserved name prefix (admin, editor, viewer)")
  else
  permissions ← lift (to_permissions perms);
  let role := mkRole n descr permissions false (f_text f) (Some (f_text f)) in
  c ← get_collection ROLES_COLLECTION;
  match ds_get c n with
  | Ok _ => throw (ConflictError ("Role '" +:+ n +:+ "' already exists"))
  | Err _ =>
      insert_recorded f ROLES_COLLECTION n (to_json role);;
      cached PermissionCache.clear;;
      mret (role_response role)
  end.
(** The role of a document, read from its data alone. *)
Definition stored_role (n : string) : M Role :=
  c ← get_collection ROLES_COLLECTION;
  match ds_get c n with
  | Err _ => throw (RoleNotFound n)
  | Ok doc => json_error (from_json (A:=Role) (data doc))
  end.
Definition get_role (f : Fresh) (claims : Claims) (n : string) : M RoleResponse :=
  admin_only f claims;;
  role ← stored_role n;
  mret (role_response role).
Definition update_role (f : Fresh) (claims : Claims) (n : string) (descr : option string)
    (perms : option (list PermissionInput)) : M RoleResponse :=
  admin_only f claims;;
  role ← stored_role n;
  if is_builtin role then throw (Forbidden "Cannot modify builtin roles") else
  permissions' ← match perms with Some l => lift (to_permissions l) | None => mret (permissions role) end;
  let role' := mkRole (name role) (match descr with Some _ => descr | None => description role end) permissions'
    (is_builtin role) (created_at role) (Some (f_text f)) in
  update_recorded f ROLES_COLLECTION n (to_json role');;
  cached (PermissionCache.invalidate_role n);;
  mret (role_response role').
Definition delete_role (f : Fresh) (claims : Claims) (n : string) : M () :=
  admin_only f claims;;
  role ← stored_role n;
  if is_builtin role then throw (Forbidden "Cannot delete builtin roles") else
  on ROLES_COLLECTION (ds_delete n);;
  record f ROLES_COLLECTION SyncLog.Delete n None;;
  cached (PermissionCache.invalidate_role n).

(** ** Assignments *)

Definition assignments : M (list UserRole) :=
  c ← get_collection USER_ROLES_COLLECTION;
  mret (read_all (A:=UserRole) (ds_scan c)).
Definition get_user_roles_handler (f : Fresh) (claims : Claims) (user : string) : M (list UserRole) :=
  admin_only f claims;;
  l ← assignments;
  mret (List.filter (λ u, String.eqb (ur_username u) user) l).
Definition is_assignment (user role : string) (db : option string) (u : UserRole) : bool :=
  String.eqb (ur_username u) user && String.eqb (ur_role u) role && bool_decide (ur_database u = db).
Definition assign_role (f : Fresh) (claims : Claims) (user role : string) (db : option string) : M UserRole :=
  admin_only f claims;;
  rc ← get_collection ROLES_COLLECTION;
  match ds_get rc role with
  | Err _ => throw (RoleNotFound role)
  | Ok _ =>
  ac ← get_collection ADMIN_COLL;
  match ds_get ac user with
  | Err _ => throw (DocumentNotFound ("User '" +:+ user +:+ "' not found"))
  | Ok _ =>
  l ← assignments;
  match List.filter (is_assignment user role db) l with
  | _ :: _ => throw (ConflictError ("Role '" +:+ role +:+ "' already assigned to user '" +:+ user +:+ "'"))
  | [] =>
      let u := mkUserRole (f_uuid f) user role db (f_text f) (sub claims) in
      insert_recorded f USER_ROLES_COLLECTION (f_uuid f) (to_json u);;
      cached (PermissionCache.invalidate user);;
      mret u
  end end end.
Definition revoke_role (f : Fresh) (claims : Claims) (user role : string) (db : option string) : M () :=
  admin_only f claims;;
  l ← assignments;
  match List.find (is_assignment user role db) l with
  | None => throw (DocumentNotFound ("Role '" +:+ role +:+ "' not assigned to user '" +:+ user +:+ "'"))
  | Some u =>
      on USER_ROLES_COLLECTION (ds_delete (ur_id u));;
      record f USER_ROLES_COLLECTION SyncLog.Delete (ur_id u) None;;
      cached (PermissionCache.invalidate user)
  end.

(** ** Self-service; the permissions come in the order of the hash set *)

Definition get_my_permissions (f : Fresh) (claims : Claims) : M (list PermissionInput) :=
  perms ← get_effective_permissions (f_mono f) claims;
  mret (permission_output <$> elements perms).
Definition get_current_user (f : Fresh) (claims : Claims) : M (string * list string * list PermissionInput) :=
  perms ← get_effective_permissions (f_mono f) claims;
  mret (sub claims, default [] (roles claims), permission_output <$> elements perms).

(** ** Users *)

Definition list_users (f : Fresh) (claims : Claims) : M (list UserResponse) :=
  admin_only f claims;;
  c ← get_collection ADMIN_COLL;
  let users := omap (λ d, match from_json (A:=User) (with_key_field d) with
                          | Ok u => Some (u, show_utc (Document.created_at d)) | Err _ => None end) (ds_scan c) in
  l ← assignments;
  mret ((λ p, mkUserResponse (username p.1) (Some p.2)
                (ur_role <$> List.filter (λ u, String.eqb (ur_username u) (username p.1)) l)) <$> users).
Definition create_user (f f' : Fresh) (claims : Claims) (user password : string) (initial_role : option string)
    : M UserResponse :=
  admin_only f claims;;
  if String.eqb user "" || (64 <? String.length user)%nat
  then throw (BadRequest "Username must be 1-64 characters") else
  if (String.length password <? 6)%nat
  then throw (BadRequest "Password must be at least 6 characters") else
  c ← get_collection ADMIN_COLL;
  match ds_get c user with
  | Ok _ => throw (ConflictError ("User '" +:+ user +:+ "' already exists"))
  | Err _ =>
      hash ← lift (hash_password (f_salt f) password);
      insert_recorded f ADMIN_COLL user (to_json (mkUser user hash));;
      rs ← match initial_role with
           | None => mret []
           | Some role =>
               rc ← get_collection ROLES_COLLECTION;
               match ds_get rc role with
               | Err _ => mret []
               | Ok _ =>
                   let u := mkUserRole (f_uuid f) user role None (f_text f) (sub claims) in
                   insert_recorded f' USER_ROLES_COLLECTION (f_uuid f) (to_json u);;
                   mret [role]
               end
           end;
      mret (mkUserResponse user (Some (f_text f)) rs)
  end.
(** The assignments of a user, each read from the data of its document alone. *)
Definition data_assignments (user : string) (docs : list Document) : list UserRole :=
  List.filter (λ u, String.eqb (ur_username u) user)
    (omap (λ d, match from_json (A:=UserRole) (data d) with Ok u => Some u | Err _ => None end) docs).
Fixpoint delete_assignments (f : Fresh) (l : list UserRole) : M () :=
  match l with
  | [] => mret tt
  | u :: l =>
      on USER_ROLES_COLLECTION (ds_delete (ur_id u));;
      record f USER_ROLES_COLLECTION SyncLog.Delete (ur_id u) None;;
      delete_assignments f l
  end.
Definition delete_user (f : Fresh) (claims : Claims) (user : string) : M () :=
  admin_only f claims;;
  if String.eqb (sub claims) user then throw (BadRequest "Cannot delete your own account") else
  if String.eqb user "admin" then throw (BadRequest "Cannot delete the default admin user") else
  c ← get_collection ADMIN_COLL;
  match ds_get c user with
  | Err _ => throw (DocumentNotFound ("User '" +:+ user +:+ "' not found"))
  | Ok _ =>
      on ADMIN_COLL (ds_delete user);;
      record f ADMIN_COLL SyncLog.Delete user None;;
      uc ← get_collection USER_ROLES_COLLECTION;
      delete_assignments f (data_assignments user (ds_scan uc));;
      cached (PermissionCache.invalidate user)
  end.
End RoleHandlers.
End RoleHandlers.
