(* ===== verification/AuthProps.v ===== *)
(** * Properties of authentication and authorization

    The rate limiter admits at most twenty logins of an address in any minute and lets it in
    again after a minute; the middleware only lets requests in that carry valid credentials;
    the handlers of roles and users change nothing without the permission of an administrator;
    and what the loss of the key of a stored struct leads to. *)

From S2P Require Import Prelude Text Json Transaction Document Indexes SyncLog DocStore Authorization Auth RoleHandlers.
Import Indexes Json Document Authorization AuthService RoleHandlers.

(** ** The rate limiter *)

Module RateLimitProps.
Import RateLimit.

(** The calls that were accepted, oldest first, and the limiter they leave. *)
Definition attempt (st : Limiter * list (N * string)) (call : N * string) : Limiter * list (N * string) :=
  let '(r, l) := check_rate_limit call.1 call.2 st.1 in
  (l, match r with Ok _ => st.2 ++ [call] | Err _ => st.2 end).
Definition attempts (calls : list (N * string)) : Limiter * list (N * string) := foldl attempt (∅, []) calls.
(** The times of the accepted calls of an address. *)
Definition times (ip : string) (log : list (N * string)) : list N :=
  (List.filter (λ c, String.eqb c.2 ip) log).*1.
Definition in_window (t : N) (x : N) : bool := (t <=? x)%N && (x <? t + window)%N.

Lemma times_app ip l l' : times ip (l ++ l') = times ip l ++ times ip l'.
Proof. unfold times. by rewrite List.filter_app, fmap_app. Qed.
Lemma recent_recent now now' l : (now ≤ now')%N → recent now' (recent now l) = recent now' l.
Proof.
  intros Hn. unfold recent. induction l as [|x l IH]; [done|]. cbn [List.filter].
  destruct (now - x <? window)%N eqn:E; cbn [List.filter]; rewrite IH; [done|].
  apply N.ltb_ge in E. assert ((now' - x <? window)%N = false) as ->; [|done]. apply N.ltb_ge. lia.
Qed.
Lemma recent_app now l l' : recent now (l ++ l') = recent now l ++ recent now l'.
Proof. apply List.filter_app. Qed.
Lemma filter_le {A} (p q : A → bool) l : (∀ x, x ∈ l → p x = true → q x = true) →
  length (List.filter p l) ≤ length (List.filter q l).
Proof.
  induction l as [|x l IH]; intros H; [done|]. cbn [List.filter].
  specialize (IH ltac:(intros y Hy; apply H; by right)). pose proof (H x ltac:(by left)) as Hx.
  destruct (p x); [rewrite Hx by done|destruct (q x)]; simpl; lia.
Qed.
(** At time [now] the limiter knows the accepted calls of the last minute, and no minute has seen
    more than twenty. *)
Record limiter_inv (now : N) (st : Limiter * list (N * string)) : Prop := {
  known ip : recent now (default [] (st.1 !! ip)) = recent now (times ip st.2);
  past ip x : x ∈ times ip st.2 → (x ≤ now)%N;
  bounded ip t : length (List.filter (in_window t) (times ip st.2)) ≤ MAX_LOGIN_ATTEMPTS;
}.
Lemma inv_later now now' st : (now ≤ now')%N → limiter_inv now st → limiter_inv now' st.
Proof.
  intros Hn [Hk Hp Hb]. split; [|intros ip x Hx; specialize (Hp ip x Hx); lia|done].
  intros ip. rewrite <- (recent_recent now), Hk, recent_recent by done. done.
Qed.
Lemma times_one ip (c : N * string) : times ip [c] = if String.eqb c.2 ip then [c.1] else [].
Proof. unfold times. cbn. by destruct (String.eqb c.2 ip). Qed.
Lemma recent_now now : recent now [now] = [now].
Proof. unfold recent. cbn [List.filter]. by rewrite (proj2 (N.ltb_lt (now - now) window)) by (unfold window, RATE_LIMIT_WINDOW_SECS; lia). Qed.
Lemma inv_attempt now call st : (call.1 = now)%N → limiter_inv now st → limiter_inv now (attempt st call).
Proof.
  destruct call as [now' ip]. cbn [fst]. intros -> [Hk Hp Hb]. unfold attempt, check_rate_limit. cbn [fst snd].
  pose proof (Hk ip) as Hki. set (a := recent now (default [] (st.1 !! ip))) in *.
  assert (recent now a = a) as Haa by (unfold a; apply recent_recent; lia).
  destruct (MAX_LOGIN_ATTEMPTS <=? length a) eqn:E; (split; cbn [fst snd]; [|try done|try done]).
  - intros ip'. rewrite lookup_insert. case_decide as Hd; [subst|done]. change (default [] (Some a)) with a. by rewrite Haa, Hki.
  - intros ip'. rewrite lookup_insert, times_app, times_one, recent_app. cbn [fst snd]. case_decide as Hd.
    + subst. rewrite String.eqb_refl. change (default [] (Some (a ++ [now]))) with (a ++ [now]). by rewrite recent_app, Haa, Hki.
    + assert (String.eqb ip ip' = false) as -> by by apply String.eqb_neq. by rewrite app_nil_r.
  - intros ip' x. rewrite times_app, times_one, elem_of_app. cbn [fst snd].
    intros [Hx|Hx]; [by apply (Hp ip')|]. destruct (String.eqb ip ip'); set_solver by lia.
  - intros ip' t. rewrite times_app, times_one, List.filter_app, length_app. cbn [fst snd].
    destruct (String.eqb_spec ip ip') as [<-|]; [|rewrite Nat.add_0_r; apply Hb].
    cbn [List.filter]. destruct (in_window t now) eqn:Ew; [|simpl; rewrite Nat.add_0_r; apply Hb].
    apply Nat.leb_gt in E. rewrite Hki in E. unfold recent in E.
    assert (length (List.filter (in_window t) (times ip st.2)) ≤ length (List.filter (λ x, (now - x <? window)%N) (times ip st.2))) as Hle.
    { apply filter_le. intros x Hx Hw. unfold in_window in *. apply andb_true_iff in Ew as [E1 E2], Hw as [E3 E4].
      apply N.leb_le in E1, E3. apply N.ltb_lt in E2, E4. apply N.ltb_lt. specialize (Hp _ _ Hx). lia. }
    simpl length. lia.
Qed.
Lemma inv_attempts calls now : StronglySorted N.le calls.*1 → Forall (λ x, (x ≤ now)%N) calls.*1 →
  limiter_inv now (attempts calls).
Proof.
  revert now. induction calls as [|c calls IH] using rev_ind; intros now Hs Hn.
  { split; intros; cbn; try done; try lia. set_solver. }
  unfold attempts. rewrite foldl_app. cbn [foldl]. rewrite fmap_app in Hs, Hn. apply Forall_app in Hn as [Hn Hc].
  apply Forall_cons in Hc as [Hc _]. apply (inv_later c.1); [done|]. apply inv_attempt; [done|]. apply IH.
  - clear -Hs. induction calls.*1 as [|x l IH]; [constructor|]. apply StronglySorted_inv in Hs as [Hs Hx].
    constructor; [by apply IH|]. by apply Forall_app in Hx as [].
  - clear -Hs. induction calls.*1 as [|x l IH]; [constructor|]. apply StronglySorted_inv in Hs as [Hs Hx].
    apply Forall_app in Hx as [_ Hx]. apply Forall_cons in Hx as [Hx _]. constructor; [done|by apply IH].
Qed.
(** C35: whatever the calls of the clients, in the order of the clock, no address logs in more
    than twenty times within any minute. *)
Theorem rate_limit_bounded calls ip t : StronglySorted N.le calls.*1 →
  length (List.filter (in_window t) (times ip (attempts calls).2)) ≤ MAX_LOGIN_ATTEMPTS.
Proof.
  intros Hs. apply (bounded (foldr N.max 0%N calls.*1)). apply inv_attempts; [done|].
  clear. induction calls.*1 as [|x l IH]; [constructor|]. constructor; [simpl; lia|].
  eapply Forall_impl; [exact IH|]. cbn. intros. lia.
Qed.
(** an address that is refused is not locked out: a call is accepted exactly when fewer
    than twenty of its calls were accepted in the last minute, so a minute after the last
    call it is accepted again, whatever was attempted before. *)
Theorem rate_limit_releases calls ip now :
  StronglySorted N.le calls.*1 → Forall (λ x, (x ≤ now)%N) calls.*1 →
  ((check_rate_limit now ip (attempts calls).1).1 = Ok tt ↔
   length (recent now (times ip (attempts calls).2)) < MAX_LOGIN_ATTEMPTS) ∧
  (check_rate_limit (now + window) ip (attempts calls).1).1 = Ok tt.
Proof.
  intros Hs Hn. pose proof (inv_attempts calls now Hs Hn) as Hinv.
  assert (∀ n, limiter_inv n (attempts calls) → (check_rate_limit n ip (attempts calls).1).1 = Ok tt ↔
    length (recent n (times ip (attempts calls).2)) < MAX_LOGIN_ATTEMPTS) as Hone.
  { intros n H. unfold check_rate_limit. rewrite (known _ _ H ip).
    destruct (MAX_LOGIN_ATTEMPTS <=? _) eqn:E; [apply Nat.leb_le in E|apply Nat.leb_gt in E]; cbn; split; [done|lia|done|done]. }
  split; [by apply Hone|]. apply Hone; [apply (inv_later now); [lia|done]|].
  assert (recent (now + window) (times ip (attempts calls).2) = []) as ->; [|cbn; unfold MAX_LOGIN_ATTEMPTS; lia].
  pose proof (past _ _ Hinv ip) as Hp. clear Hone. unfold recent. induction (times _ _) as [|x l IH]; [done|]. cbn [List.filter].
  rewrite IH by (intros y Hy; apply Hp; by right). pose proof (Hp x ltac:(by left)).
  assert ((now + window - x <? window)%N = false) as ->; [|done]. apply N.ltb_ge. lia.
Qed.
End RateLimitProps.

(** ** Comparing secrets *)

(** The constant-time comparison is equality. *)
Lemma constant_time_eq_spec a b : constant_time_eq a b = true ↔ a = b.
Proof.
  assert (∀ l l' acc, length l = length l' →
    foldl (λ acc p, N.lor acc (N.lxor (N_of_ascii p.1) (N_of_ascii p.2))) acc (zip l l') = 0%N ↔ acc = 0%N ∧ l = l') as H.
  { induction l as [|x l IH]; intros [|y l'] acc Hl; try done; [naive_solver|]. cbn [zip zip_with foldl fst snd].
    change (zip_with pair l l') with (zip l l'). rewrite IH by (simpl in Hl; lia).
    rewrite N.lor_eq_0_iff, N.lxor_eq_0_iff. split; [|naive_solver].
    intros [[-> Hxy] ->]. apply (f_equal ascii_of_N) in Hxy. rewrite !ascii_N_embedding in Hxy. by rewrite Hxy. }
  assert (∀ s, length (list_ascii_of_string s) = String.length s) as Hlen by (induction s; simpl; congruence).
  unfold constant_time_eq. destruct (String.length a =? String.length b) eqn:E; cbn [negb].
  - apply Nat.eqb_eq in E. rewrite N.eqb_eq, H by by rewrite !Hlen. split; [|by intros ->].
    intros [_ Hab]. rewrite <- (string_of_list_ascii_of_string a), <- (string_of_list_ascii_of_string b). by rewrite Hab.
  - split; [done|]. intros ->. by rewrite Nat.eqb_refl in E.
Qed.

(** ** Handlers *)

Module AuthProps.
Section AuthProps.
Context {Num C : Type} `{!DocStore Num C} `{!MetaJson Num} `{!DocumentJson Num} `{std_text : !StdText} `{crates : !AuthCrates}.
Context `{!Serde Num Role} `{!Serde Num UserRole} `{!Serde Num User} `{!Serde Num ApiKey}.
Notation AppState := (AppState C).
Notation M := (M (C:=C)).
Implicit Types (s : AppState) (claims : Claims) (f : Fresh).

(** *** Running the monad *)

Lemma run_m {A B} (m : M A) (k : A → M B) s r s' :
  (x ← m; k x) s = (r, s') →
  (∃ e, m s = (Err e, s') ∧ r = Err e) ∨ (∃ x s1, m s = (Ok x, s1) ∧ k x s1 = (r, s')).
Proof.
  unfold mbind, M_bind. destruct (m s) as [[x|e] s1]; [intros Hk; right; by eexists _, _|].
  intros [= <- <-]. left. by eexists.
Qed.
(** What a check of permissions leaves: the collections and the log as they are. *)
Definition same_data s s' : Prop :=
  system s' = system s ∧ replication_log s' = replication_log s ∧ keyfile s' = keyfile s.
Lemma same_data_refl s : same_data s s.
Proof. done. Qed.
Lemma same_data_trans s1 s2 s3 : same_data s1 s2 → same_data s2 s3 → same_data s1 s3.
Proof. unfold same_data. naive_solver congruence. Qed.
Lemma get_collection_same n s r s' : get_collection n s = (r, s') → s' = s.
Proof. unfold get_collection. destruct (system s) as [m|]; [destruct (m !! n)|]; naive_solver. Qed.
Lemma load_roles_same c ns s r s' : load_roles c ns s = (r, s') → same_data s s' ∧ ∃ rs, r = Ok rs.
Proof.
  revert s r s'. induction ns as [|n ns IH]; intros s r s'; cbn [load_roles]; [intros [= <- <-]; by split; [|eexists]|].
  assert (∀ r s1, load_role c n s = (r, s1) → same_data s s1 ∧ ∃ o, r = Ok o) as Hone.
  { unfold load_role. destruct (PermissionCache.get_role _ _); [|destruct (ds_get c n) as [d|]; [destruct (from_json (data d))|]];
      intros ?? [= <- <-]; by split; [|eexists]. }
  intros [(e & Hm & ->)|(o & s1 & H1 & H2)]%run_m; [apply Hone in Hm as [_ [? ?]]; done|].
  apply Hone in H1 as [H1 _].
  apply run_m in H2 as [(e & Hm & ->)|(rs & s2 & H2 & H3)]; [apply IH in Hm as [_ [? ?]]; done|].
  apply IH in H2 as [H2 _]. injection H3 as <- <-. split; [by eapply same_data_trans|by eexists].
Qed.
Lemma effective_same now claims s r s' : get_effective_permissions now claims s = (r, s') → same_data s s'.
Proof.
  unfold get_effective_permissions. destruct (PermissionCache.get _ _ _); [by intros [= <- <-]|].
  destruct (default [] (roles claims)) as [|n ns]; [by intros [= <- <-]|].
  intros [(e & ->%get_collection_same & ->)|(c & s1 & Hc & H)]%run_m; [done|].
  apply get_collection_same in Hc as ->.
  apply run_m in H as [(e & [? _]%load_roles_same & ->)|(rs & s1 & [? _]%load_roles_same & H2)]; [done|].
  by injection H2 as <- <-.
Qed.
Lemma check_same now claims a db s r s' : check_permission now claims a db s = (r, s') → same_data s s'.
Proof.
  intros [(e & ?%effective_same & ->)|(p & s1 & ?%effective_same & H)]%run_m; [done|]. by injection H as <- <-.
Qed.

(** *** Administrators only *)

(** A handler that starts with the check of an administrator. *)
Lemma admin_first {A} f claims (m : M A) s r s' :
  (admin_only f claims;; m) s = (r, s') →
  (∃ s1, admin_only f claims s = (Ok tt, s1)) ∨ (∃ e, r = Err e) ∧ same_data s s'.
Proof.
  intros [(e & Hm & ->)|([] & s1 & H & _)]%run_m; [|left; by eexists].
  right. split; [by eexists|]. by eapply check_same.
Qed.
(** C34: creating, changing and deleting roles, assigning and revoking them, creating and
    deleting users and reading any of it is refused to a subject that does not pass the check
    for global administration, and then changes neither a collection nor the replication log. *)
Theorem management_needs_admin f f' claims s :
  (∀ s1, admin_only f claims s ≠ (Ok tt, s1)) →
  let refused {A} (m : M A) := ∀ r s', m s = (r, s') → (∃ e, r = Err e) ∧ same_data s s' in
  (∀ n descr perms, refused (create_role f claims n descr perms)) ∧
  (∀ n descr perms, refused (update_role f claims n descr perms)) ∧
  (∀ n, refused (delete_role f claims n)) ∧
  (∀ user role db, refused (assign_role f claims user role db)) ∧
  (∀ user role db, refused (revoke_role f claims user role db)) ∧
  (∀ user password role, refused (create_user f f' claims user password role)) ∧
  (∀ user, refused (delete_user f claims user)) ∧
  refused (list_roles f claims) ∧ refused (list_users f claims) ∧
  (∀ n, refused (get_role f claims n)) ∧ (∀ user, refused (get_user_roles_handler f claims user)).
Proof.
  intros Hno refused. split_and!; intros; subst refused; intros r s' [[s1 H]|H]%admin_first; try done; by apply Hno in H.
Qed.

(** *** Credentials *)

(** Where the claims of a request may come from. *)
Inductive credentials f (req : Request) s : Claims → Prop :=
| of_cluster secret : keyfile s = Some secret → secret ≠ "" → x_cluster_secret req = Some secret →
    x_shard_direct req || x_scatter_gather req = true →
    credentials f req s (mkClaims "cluster-internal" usize_max None (Some ["admin"]) None)
| of_api_key raw c doc k : get_collection API_KEYS_COLL s = (Ok c, s) → doc ∈ ds_scan c →
    from_json (A:=ApiKey) (to_value doc) = Ok k → key_hash k = sha256_hex raw → key_expired (f_time f) k = false →
    (x_api_key req = Some raw ∨ ∃ h, authorization req = Some h ∧ strip_prefix "ApiKey " h = Some raw) →
    credentials f req s (key_claims k)
| of_token token claims : jwt_decode (f_secs f) token = Some claims →
    (∃ h, authorization req = Some h ∧ strip_prefix "Bearer " h = Some token) ∨
    (∃ q, query req = Some q ∧ urlencoded q ≫= lookup "token" = Some token) →
    credentials f req s claims
| of_password h text b user password c doc u rs : authorization req = Some h → strip_prefix "Basic " h = Some b →
    base64_text b = Some text → split_once ":" text = Some (user, password) →
    get_collection ADMIN_COLL s = (Ok c, s) → ds_get c user = Ok doc → from_json (A:=User) (to_value doc) = Ok u →
    argon2_verify password (password_hash u) = true → get_user_roles user s = (Ok rs, s) →
    credentials f req s (mkClaims user usize_max None rs None).

Lemma find_api_key_sound now hash docs s claims s' : find_api_key now hash docs s = (Ok claims, s') →
  s' = s ∧ ∃ doc k, doc ∈ docs ∧ from_json (A:=ApiKey) (to_value doc) = Ok k ∧ key_hash k = hash ∧
    key_expired now k = false ∧ claims = key_claims k.
Proof.
  induction docs as [|doc docs IH]; cbn [find_api_key]; [done|].
  destruct (from_json (to_value doc)) as [k|] eqn:Ek; [|done].
  destruct (constant_time_eq hash (key_hash k)) eqn:Eh.
  - apply constant_time_eq_spec in Eh. destruct (key_expired now k) eqn:Ex; [done|]. intros [= <- <-].
    split; [done|]. exists doc, k. split_and!; [by left|done..].
  - intros (-> & d & k' & Hd & H1)%IH. split; [done|]. exists d, k'. split; [by right|done].
Qed.
Lemma ok_claims_sound (m : M Claims) s r s' : ok_claims m s = (r, s') →
  ∃ o s1, m s = (o, s1) ∧ s' = s1 ∧ r = Ok (match o with Ok c => Some c | Err _ => None end).
Proof. unfold ok_claims, try, mbind, M_bind. destruct (m s) as [o s1]. intros [= <- <-]. by eexists _, _. Qed.
Lemma api_key_sound f raw s r s' : ok_claims (validate_api_key (f_time f) raw) s = (r, s') →
  ∃ o, r = Ok o ∧ ∀ claims, o = Some claims → s' = s ∧ ∃ c doc k, get_collection API_KEYS_COLL s = (Ok c, s) ∧
    doc ∈ ds_scan c ∧ from_json (A:=ApiKey) (to_value doc) = Ok k ∧ key_hash k = sha256_hex raw ∧
    key_expired (f_time f) k = false ∧ claims = key_claims k.
Proof.
  intros (o & s1 & Hv & -> & ->)%ok_claims_sound. eexists. split; [done|]. intros claims Ho.
  destruct o as [claims'|]; [|done]. injection Ho as ->.
  apply run_m in Hv as [(e & _ & ?)|(c & s2 & Hc & Hf)]; [done|].
  pose proof (get_collection_same _ _ _ _ Hc) as ->. apply find_api_key_sound in Hf as (-> & doc & k & H1).
  split; [done|]. exists c, doc, k. by destruct_and!.
Qed.
Lemma basic_sound text s r s' : basic_claims text s = (r, s') →
  ∃ o, r = Ok o ∧ ∀ claims, o = Some claims → s' = s ∧ ∃ user password c doc u rs,
    split_once ":" text = Some (user, password) ∧ get_collection ADMIN_COLL s = (Ok c, s) ∧ ds_get c user = Ok doc ∧
    from_json (A:=User) (to_value doc) = Ok u ∧ argon2_verify password (password_hash u) = true ∧
    get_user_roles user s = (Ok rs, s) ∧ claims = mkClaims user usize_max None rs None.
Proof.
  unfold basic_claims. destruct (split_once ":" text) as [[user password]|]; [|intros [= <- <-]; by eexists].
  unfold try, mbind, M_bind. destruct (get_collection ADMIN_COLL s) as [o s1] eqn:Ec.
  pose proof (get_collection_same _ _ _ _ Ec) as ->. destruct o as [c|]; [|intros [= <- <-]; by eexists].
  destruct (ds_get c user) as [doc|] eqn:Ed; [|intros [= <- <-]; by eexists].
  destruct (from_json (to_value doc)) as [u|] eqn:Eu; [|intros [= <- <-]; by eexists].
  unfold verify_password. destruct (argon2_verify password (password_hash u)) eqn:Ev; [|intros [= <- <-]; by eexists].
  assert (∃ rs, get_user_roles user s = (Ok rs, s)) as [rs Hrs].
  { unfold get_user_roles. destruct (get_collection USER_ROLES_COLL s) as [[c'|] ?]; [|by eexists].
    destruct (ur_role <$> _); [|by eexists]. destruct (get_collection ADMIN_COLL s) as [[]]; by eexists. }
  rewrite Hrs. intros [= <- <-]. eexists. split; [done|]. intros claims [= <-]. split; [done|].
  by exists user, password, c, doc, u, rs.
Qed.
Lemma header_sound f req s r s' : header_claims f req s = (r, s') →
  ∃ o, r = Ok o ∧ ∀ claims, o = Some (Some claims) → s' = s ∧ credentials f req s claims.
Proof.
  unfold header_claims. destruct (x_api_key req) as [raw|] eqn:Ex.
  { intros [(e & (o & ? & _)%api_key_sound & ->)|(o & s1 & (o' & [= ->] & Ho)%api_key_sound & [= <- <-])]%run_m; [done|].
    eexists. split; [done|]. intros claims [= ->]. destruct (Ho _ eq_refl) as (-> & c & doc & k & H1). destruct_and! H1. subst.
    split; [done|]. eapply of_api_key; naive_solver. }
  destruct (authorization req) as [h|] eqn:Ea; [|intros [= <- <-]; by eexists].
  destruct (strip_prefix "ApiKey " h) as [raw|] eqn:Ek.
  { intros [(e & (o & ? & _)%api_key_sound & ->)|(o & s1 & (o' & [= ->] & Ho)%api_key_sound & [= <- <-])]%run_m; [done|].
    eexists. split; [done|]. intros claims [= ->]. destruct (Ho _ eq_refl) as (-> & c & doc & k & H1). destruct_and! H1. subst.
    split; [done|]. eapply of_api_key; naive_solver. }
  destruct (strip_prefix "Bearer " h) as [token|] eqn:Eb.
  { unfold validate_token, ok_claims, try, lift, mbind, M_bind. intros [= <- <-]. eexists. split; [done|].
    intros claims [= H1]. split; [done|]. destruct (jwt_decode (f_secs f) token) as [cl|] eqn:Et; [|done].
    injection H1 as ->. eapply of_token; [done|]. naive_solver. }
  destruct (strip_prefix "Basic " h) as [b|] eqn:Eb'; [|intros [= <- <-]; by eexists].
  destruct (base64_text b) as [text|] eqn:Et; [|intros [= <- <-]; by eexists].
  intros [(e & (o & ? & _)%basic_sound & ->)|(o & s1 & (o' & [= ->] & Ho)%basic_sound & [= <- <-])]%run_m; [done|].
  eexists. split; [done|]. intros claims [= ->]. destruct (Ho _ eq_refl) as (-> & user & pw & c & doc & u & rs & H1).
  destruct_and! H1. subst. split; [done|]. by eapply of_password.
Qed.
(** C17: a request passes the middleware only with credentials: the secret of the cluster keyfile,
    which is not empty, on a request marked as internal; an API key whose hash is stored and that
    has not expired; a token that verifies; or the name of a stored user with its password; and
    it goes on with the claims that belong to them. *)
Theorem middleware_sound f req s claims s' :
  auth_middleware f req s = (Ok (Some claims), s') → credentials f req s claims.
Proof.
  intros [(e & _ & ?)|(i & s1 & Hi & H1)]%run_m; [done|]. unfold internal_claims in Hi. injection Hi as <- <-.
  destruct ((x_shard_direct req || x_scatter_gather req) && _ && _) eqn:E.
  - injection H1 as <- <-. apply andb_true_iff in E as [[Hx Hne]%andb_true_iff Heq%constant_time_eq_spec].
    apply negb_true_iff, String.eqb_neq in Hne. destruct (keyfile s) as [secret|] eqn:Ek; [|done]. cbn in *.
    destruct (x_cluster_secret req) as [p|] eqn:Ep; cbn in Heq; [subst p|done]. by apply (of_cluster f req s secret).
  - apply run_m in H1 as [(e & _ & ?)|(o & s2 & (o' & [= ->] & Ho)%header_sound & H2)]; [done|].
    unfold mret, M_ret in H2. destruct o' as [[cl|]|]; [injection H2 as -> <-; by apply Ho|done|].
    injection H2 as H2 <-.
    unfold query_claims in H2. destruct (query req) as [q|] eqn:Eq; [|done].
    destruct (urlencoded q ≫= lookup "token") as [token|] eqn:Et; [|done].
    unfold validate_token in H2. destruct (jwt_decode (f_secs f) token) as [cl|] eqn:Ej; [|done]. injection H2 as ->.
    eapply of_token; [done|]. right. naive_solver.
Qed.

(** *** Effective permissions *)

Lemma check_effective now claims a db s perms s' :
  get_effective_permissions now claims s = (Ok perms, s') →
  check_permission now claims a db s = (check_permission_raw perms a db (scoped_databases claims), s').
Proof. unfold check_permission, lift, mbind, M_bind. by intros ->. Qed.
(** A subject without roles has every permission. *)
Lemma no_roles_admin now claims s :
  PermissionCache.get now (sub claims) (permission_cache s) = None → default [] (roles claims) = [] →
  get_effective_permissions now claims s = (Ok {[global_admin]}, s).
Proof. intros Hc Hr. unfold get_effective_permissions. by rewrite Hc, Hr. Qed.
Lemma admin_check a db scoped : in_scope scoped db → check_permission_raw {[global_admin]} a db scoped = Ok tt.
Proof.
  intros Hs. apply out_of_scope_none in Hs. unfold check_permission_raw. rewrite Hs. by rewrite bool_decide_true by set_solver.
Qed.
(** a token from the login names no roles, and a subject without roles counts as an
    administrator: whatever roles the user has been assigned, the token passes the check for every
    action on every database for as long as it is valid and nothing is cached for the user. *)
Theorem login_grants_admin f f_roles f_users f_keys env ip user password s token s' :
  (∀ c t secs, jwt_encode c = Ok t → (secs ≤ exp c)%N → jwt_decode secs t = Some c) →
  login_handler f f_roles f_users f_keys env ip user password s = (Ok token, s') →
  ∃ claims, (∀ secs, (secs ≤ f_secs f + 86400)%N → validate_token secs token = Ok claims) ∧
    ∀ now s1 a db, PermissionCache.get now (sub claims) (permission_cache s1) = None →
      check_permission now claims a db s1 = (Ok tt, s1).
Proof.
  intros Hjwt Hlogin.
  assert (∃ u, create_jwt (f_secs f) u = Ok token) as [u Hu].
  { unfold login_handler in Hlogin.
    repeat (apply run_m in Hlogin as [(? & _ & ?)|(? & ? & _ & Hlogin)]; [done|]).
    destruct (ds_get _ user) as [doc|[]]; try done. destruct (from_json _) as [u|]; [|done].
    destruct (negb _); [done|]. injection Hlogin as Hu <-. by eexists. }
  unfold create_jwt, create_jwt_with_roles, encode in Hu.
  destruct (jwt_encode _) as [t|] eqn:Ej in Hu; [|done]. injection Hu as ->. eexists. split.
  - intros secs Hs. unfold validate_token. by rewrite (Hjwt _ _ secs Ej).
  - intros now s1 a db Hc. erewrite check_effective by by apply no_roles_admin. by rewrite admin_check.
Qed.

Context `{!DocStoreLaws Num C} `{!DocumentJsonLaws Num}.
Context `{!SerdeLaws Num Role name} `{!SerdeLaws Num UserRole ur_id}.

(** A system whose collections are in order. *)
Definition system_ok s : Prop := ∀ m n c, system s = Some m → m !! n = Some c → store_ok c.
Lemma get_collection_ok n s c s' : system_ok s → get_collection n s = (Ok c, s') → store_ok c.
Proof.
  unfold get_collection. destruct (system s) as [m|] eqn:E; [|done]. destruct (m !! n) eqn:E2; [|done].
  intros Hok [= <- <-]. by eapply Hok.
Qed.
(** The roles that are not in the cache are not found. *)
Lemma load_roles_uncached c ns s : store_ok c → Forall key_ok ns →
  (∀ n, n ∈ ns → PermissionCache.get_role n (permission_cache s) = None) → load_roles c ns s = (Ok [], s).
Proof.
  intros Hok. induction ns as [|n ns IH]; intros Hk Hn; [done|]. cbn [load_roles]. apply Forall_cons in Hk as [Hk Hks].
  unfold mbind at 1, M_bind at 1. unfold load_role. rewrite Hn by by left.
  assert ((match ds_get c n with
           | Ok doc => match from_json (A:=Role) (data doc) with
                       | Ok role => (Ok (Some role), set_cache (PermissionCache.set_role role (permission_cache s)) s)
                       | Err _ => (Ok None, s) end
           | Err _ => (Ok None, s) end) = (Ok None, s) :> result DbError (option Role) * AppState) as ->.
  { destruct (ds_get c n) as [doc|] eqn:Ed; [|done]. destruct (get_clean c n doc Hok Hk Ed) as [Hd _].
    destruct (stored_data_unreadable (A:=Role) doc Hd) as [e He]. by rewrite He. }
  unfold mbind, M_bind. rewrite IH by (done || (intros m Hm; apply Hn; by right)). done.
Qed.
(** the roles that administrators create grant nothing: the document of a role is stored
    without its key and read back without it, which fails, so a subject all of whose roles are
    created ones (not the builtin ones, which are in the cache) is refused every action. *)
Theorem created_roles_grant_nothing now claims a db s ns :
  system_ok s → roles claims = Some ns → ns ≠ [] → Forall key_ok ns →
  PermissionCache.get now (sub claims) (permission_cache s) = None →
  (∀ n, n ∈ ns → PermissionCache.get_role n (permission_cache s) = None) →
  ∃ e s', check_permission now claims a db s = (Err e, s').
Proof.
  intros Hok Hr Hne Hk Hc Hn.
  destruct (get_effective_permissions now claims s) as [[perms|e] s'] eqn:E.
  2: { exists e, s'. unfold check_permission, mbind, M_bind. by rewrite E. }
  erewrite check_effective by exact E.
  assert (perms = ∅) as ->.
  { unfold get_effective_permissions in E. rewrite Hc, Hr in E. destruct ns as [|n ns]; [done|]. cbn [default from_option] in E.
    unfold id in E. apply run_m in E as [(e & _ & ?)|(c & s1 & Hg & E)]; [done|].
    pose proof (get_collection_ok _ _ _ _ Hok Hg) as Hco. apply get_collection_same in Hg as ->.
    unfold mbind at 1, M_bind at 1 in E. rewrite load_roles_uncached in E by done. by injection E as <- <-. }
  destruct (check_empty a db (scoped_databases claims)) as [e He]. rewrite He. by eexists _, _.
Qed.

(** The handlers that read a role from the data of its document always fail. *)
Lemma stored_role_fails n s r s' : system_ok s → key_ok n → stored_role n s = (r, s') → ∃ e, r = Err e.
Proof.
  intros Hok Hk [(e & _ & ->)|(c & s1 & Hg & Hd)]%run_m; [by eexists|].
  pose proof (get_collection_ok _ _ _ _ Hok Hg) as Hc. destruct (ds_get c n) as [doc|] eqn:Ed; [|injection Hd as <- <-; by eexists].
  destruct (get_clean c n doc Hc Hk Ed) as [Hcl _]. destruct (stored_data_unreadable (A:=Role) doc Hcl) as [e He].
  rewrite He in Hd. injection Hd as <- <-. by eexists.
Qed.
Lemma system_ok_same s s' : same_data s s' → system_ok s → system_ok s'.
Proof. intros [Hs _] Hok m n c. rewrite Hs. apply Hok. Qed.
(** no stored role can be read, changed or deleted through its handler, not even by an
    administrator: each of them reads the role from the data of its document and fails. *)
Theorem roles_are_immutable f claims n descr perms s :
  system_ok s → key_ok n →
  (∀ r s', get_role f claims n s = (r, s') → ∃ e, r = Err e) ∧
  (∀ r s', update_role f claims n descr perms s = (r, s') → ∃ e, r = Err e) ∧
  (∀ r s', delete_role f claims n s = (r, s') → ∃ e, r = Err e).
Proof.
  intros Hok Hk. split_and!; intros r s' [(e & _ & ->)|([] & s1 & H1%check_same & H2)]%run_m; try (by eexists);
    apply run_m in H2 as [(e & _ & ->)|(role & s2 & Hr & _)]; try (by eexists);
    by destruct (stored_role_fails _ _ _ _ (system_ok_same _ _ H1 Hok) Hk Hr).
Qed.

(** *** Users and their assignments *)

Lemma on_other {A} n n' (op : C → result DbError A * C) s r s' m :
  on n op s = (r, s') → n' ≠ n → system s = Some m →
  ∃ m', system s' = Some m' ∧ m' !! n' = m !! n'.
Proof.
  unfold on, get_collection. intros Ho Hn Hm. rewrite Hm in Ho. destruct (m !! n) as [c|] eqn:Ec.
  - destruct (op c) as [r1 c']. injection Ho as <- <-. eexists. split; [done|].
    by rewrite lookup_insert_ne by congruence.
  - injection Ho as <- <-. by eexists.
Qed.
Lemma data_assignments_none user docs : Forall clean docs → data_assignments user docs = [].
Proof.
  unfold data_assignments. intros Hc.
  assert (omap (λ d, match from_json (A:=UserRole) (data d) with Ok u => Some u | Err _ => None end) docs = []) as ->; [|done].
  induction Hc as [|d docs Hd Hds IH]; [done|]. cbn [omap list_omap].
  destruct (stored_data_unreadable (A:=UserRole) d Hd) as [e He]. by rewrite He.
Qed.
Lemma user_roles_of s m m' s' user : system s = Some m → system s' = Some m' →
  m' !! USER_ROLES_COLL = m !! USER_ROLES_COLL →
  ∀ rs, (get_user_roles user s).1 = Ok (Some rs) → rs ≠ ["admin"] → (get_user_roles user s').1 = Ok (Some rs).
Proof.
  intros Hs Hs' Hm rs. unfold get_user_roles, get_collection. rewrite Hs, Hs', Hm.
  destruct (m !! USER_ROLES_COLL) as [c|]; [|done]. destruct (ur_role <$> _) as [|r l]; [|done].
  destruct (m !! ADMIN_COLL) as [a|]; [|done]. destruct (ds_count a =? 1)%N; [|done]. cbn. intros [= <-]. done.
Qed.
(** deleting a user leaves its role assignments behind: they too are read from the data of
    their documents, which fails. A user created again under the name has the roles of the
    deleted one. *)
Theorem deleted_user_keeps_roles f claims user s s' :
  system_ok s → (∀ m c d, system s = Some m → m !! USER_ROLES_COLLECTION = Some c → d ∈ ds_scan c → key_ok (key d)) →
  delete_user f claims user s = (Ok tt, s') →
  (∃ m m', system s = Some m ∧ system s' = Some m' ∧ m' !! USER_ROLES_COLLECTION = m !! USER_ROLES_COLLECTION) ∧
  ∀ rs, (get_user_roles user s).1 = Ok (Some rs) → rs ≠ ["admin"] → (get_user_roles user s').1 = Ok (Some rs).
Proof.
  intros Hok Hkeys Hdel.
  assert (∃ m m', system s = Some m ∧ system s' = Some m' ∧ m' !! USER_ROLES_COLLECTION = m !! USER_ROLES_COLLECTION)
    as (m & m' & Hs & Hs' & Hmm).
  { unfold delete_user in Hdel. apply run_m in Hdel as [(? & _ & ?)|([] & s1 & Hadm & Hdel)]; [done|].
    apply check_same in Hadm as Hsame. destruct Hsame as (Hsys & _ & _).
    destruct (String.eqb (sub claims) user); [done|]. destruct (String.eqb user "admin"); [done|].
    apply run_m in Hdel as [(? & _ & ?)|(c & s2 & Hg & Hdel)]; [done|].
    pose proof (get_collection_same _ _ _ _ Hg) as ->. destruct (ds_get c user) as [doc|]; [|done].
    apply run_m in Hdel as [(? & _ & ?)|([] & s2 & Hon & Hdel)]; [done|].
    apply run_m in Hdel as [(? & _ & ?)|([] & s3 & Hrec & Hdel)]; [done|].
    destruct (system s1) as [m|] eqn:Hm1; [|unfold get_collection in Hg; by rewrite Hm1 in Hg].
    destruct (on_other _ USER_ROLES_COLLECTION _ _ _ _ m Hon ltac:(done) Hm1) as (m2 & Hm2 & Hm2').
    injection Hrec as <-. apply run_m in Hdel as [(? & _ & ?)|(uc & s4 & Huc & Hdel)]; [done|].
    pose proof (get_collection_same _ _ _ _ Huc) as ->. unfold get_collection in Huc. cbn [system set_log] in Huc.
    rewrite Hm2, Hm2' in Huc. destruct (m !! USER_ROLES_COLLECTION) as [uc'|] eqn:Hu; [|done]. injection Huc as <-.
    rewrite data_assignments_none in Hdel.
    - injection Hdel as <-. exists m, m2. rewrite <- Hsys, Hu. split_and!; [done|exact Hm2|done].
    - apply Forall_forall. intros d Hd. symmetry in Hsys.
      eapply scan_clean; [by eapply Hok|done|by eapply Hkeys]. }
  split; [by exists m, m'|]. by apply (user_roles_of s m m').
Qed.

Lemma system_ok_set s n c m : system s = Some m → store_ok c → system_ok s →
  system_ok (set_system (Some (<[n := c]> m)) s).
Proof.
  intros Hm Hc Hok m' n' c' [= <-]. rewrite lookup_insert. case_decide; [by intros [= <-]|by apply Hok].
Qed.
(** A recorded insert of a struct: its document is among those of the collection, and the
    collections stay in order. *)
Lemma insert_recorded_ok {A} `{!Serde Num A} {key_of} `{!SerdeLaws Num A key_of} f n (a : A) s s' :
  system_ok s → key_ok (key_of a) → insert_recorded f n (key_of a) (to_json a) s = (Ok tt, s') →
  system_ok s' ∧ permission_cache s' = permission_cache s ∧
  ∃ m m' c d, system s = Some m ∧ system s' = Some m' ∧ m' !! n = Some c ∧ d ∈ ds_scan c ∧
    from_json (to_value d) = Ok a ∧ ∀ n', n' ≠ n → m' !! n' = m !! n'.
Proof.
  intros Hok Hk [(? & _ & ?)|(d & s1 & Hi & Hr)]%run_m; [done|].
  unfold insert_into, on, get_collection in Hi. destruct (system s) as [m|] eqn:Hm; [|done].
  destruct (m !! n) as [c|] eqn:Hc; [|done].
  destruct (ds_insert (f_key f) (f_rev f) (f_time f) (to_json a) c) as [r c'] eqn:Ei. injection Hi as -> <-.
  assert (key d = key_of a ∧ store_ok c' ∧ data d = strip (to_json a) ∧ d ∈ ds_scan c') as (Hkd & Hsc & Hdd & Hin).
  { pose proof (λ H, insert_store _ _ _ _ _ _ _ (Hok m n c Hm Hc) (to_json_object a) (to_json_wf a) Ei H) as Hins.
    pose proof (insert_key _ _ _ _ _ _ _ (to_json_object a) Ei) as Hkd. rewrite (to_json_key a) in Hkd. injection Hkd as Hkd.
    rewrite Hkd in Hk. destruct (Hins Hk) as (H1 & H2 & H4). split_and!; [done|done|done|]. by apply H4; [|left]. }
  injection Hr as <-. split_and!; [|done|].
  - by apply (system_ok_set s n c' m).
  - exists m, (<[n := c']> m), c', d. split_and!; [done|done|by rewrite lookup_insert_eq|done|by apply (stored_readable (key_of:=key_of))|].
    intros n' Hn. by rewrite lookup_insert_ne.
Qed.
Lemma assign_role_stored f claims user role db s u s' :
  system_ok s → key_ok (f_uuid f) → assign_role f claims user role db s = (Ok u, s') →
  u = mkUserRole (f_uuid f) user role db (f_text f) (sub claims) ∧ system_ok s' ∧
  ∃ rs, get_user_roles user s' = (Ok (Some rs), s') ∧ role ∈ rs.
Proof.
  intros Hok Hk Ha. unfold assign_role in Ha.
  apply run_m in Ha as [(? & _ & ?)|([] & s1 & Hadm & Ha)]; [done|].
  apply check_same in Hadm as Hsame. apply (system_ok_same _ _ Hsame) in Hok.
  apply run_m in Ha as [(? & _ & ?)|(rc & s2 & Hg & Ha)]; [done|]. pose proof (get_collection_same _ _ _ _ Hg) as ->.
  destruct (ds_get rc role); [|done].
  apply run_m in Ha as [(? & _ & ?)|(ac & s2 & Hg2 & Ha)]; [done|]. pose proof (get_collection_same _ _ _ _ Hg2) as ->.
  destruct (ds_get ac user); [|done].
  apply run_m in Ha as [(? & _ & ?)|(l & s2 & Hl & Ha)]; [done|].
  apply run_m in Hl as [(? & _ & ?)|(uc & s3 & Hg3 & Hl)]; [done|]. pose proof (get_collection_same _ _ _ _ Hg3) as ->.
  injection Hl as <- <-. destruct (List.filter _ _); [|done].
  set (u0 := mkUserRole (f_uuid f) user role db (f_text f) (sub claims)) in *.
  apply run_m in Ha as [(? & _ & ?)|([] & s2 & Hi & Ha)]; [done|].
  injection Ha as <- <-. split; [done|].
  apply (insert_recorded_ok (key_of:=ur_id)) in Hi as (Hok2 & _ & m & m' & c & d & _ & Hm' & Hc & Hd & Hread & _); [|done|done].
  split; [by apply (system_ok_same s2)|].
  unfold get_user_roles, get_collection. cbn [system set_cache]. rewrite Hm'.
  change USER_ROLES_COLL with USER_ROLES_COLLECTION. rewrite Hc.
  assert (role ∈ ur_role <$> List.filter (λ u, String.eqb (ur_username u) user) (user_role_docs (ds_scan c))) as Hin.
  { apply list_elem_of_fmap. exists u0. split; [done|]. apply list_elem_of_In, filter_In. split; [|by apply String.eqb_refl].
    apply list_elem_of_In. unfold user_role_docs. apply list_elem_of_omap. exists d. by rewrite Hread. }
  destruct (ur_role <$> _) as [|r0 rs]; [by apply elem_of_nil in Hin|]. by exists (r0 :: rs).
Qed.
(** a role assigned to a user is among the roles the user has from then on: the next
    session of the user carries it. *)
Theorem assigned_role_is_listed f claims user role db s u s' :
  system_ok s → key_ok (f_uuid f) → assign_role f claims user role db s = (Ok u, s') →
  u = mkUserRole (f_uuid f) user role db (f_text f) (sub claims) ∧ system_ok s' ∧
  ∃ rs, get_user_roles user s' = (Ok (Some rs), s') ∧ role ∈ rs.
Proof. apply assign_role_stored. Qed.
End AuthProps.
End AuthProps.
