(* ===== verification/AuthDemo.v ===== *)
(** * Concrete inputs of the properties of authentication

    The crates and the derived conversions are instantiated by concrete functions, the
    collections are those of [Collection] over the map store. *)

From S2P Require Import Prelude Text Json Transaction Codec Kv Document Indexes Collection CollectionProps SyncLog DocStore StoreInstance Authorization Auth RoleHandlers AuthProps.
Import Indexes Json Document DocumentDemo Collection CollectionProps CollectionDemo.
Import Authorization AuthService RoleHandlers AuthProps.

Module AuthDemo.
#[local] Existing Instances demo_number_ops Codec.demo_text.

Definition role_parts (r : Role) := (name r, description r, permissions r, is_builtin r, Authorization.created_at r, Authorization.updated_at r).
#[local] Instance Role_eq : EqDecision Role.
Proof. solve_decision. Defined.
#[local] Instance Role_countable : Countable Role.
Proof. refine (inj_countable' role_parts (λ '(a, b, c, d, e, f), mkRole a b c d e f) _). by intros []. Defined.
#[local] Instance UserRole_countable : Countable UserRole.
Proof.
  refine (inj_countable' (λ u, (ur_id u, ur_username u, ur_role u, ur_database u, assigned_at u, assigned_by u))
    (λ '(a, b, c, d, e, f), mkUserRole a b c d e f) _). by intros [].
Defined.
#[local] Instance User_eq : EqDecision User.
Proof. solve_decision. Defined.
#[local] Instance User_countable : Countable User.
Proof. refine (inj_countable' (λ u, (username u, password_hash u)) (λ '(a, b), mkUser a b) _). by intros []. Defined.
#[local] Instance ApiKey_eq : EqDecision ApiKey.
Proof. solve_decision. Defined.
#[local] Instance ApiKey_countable : Countable ApiKey.
Proof.
  refine (inj_countable' (λ k, (ak_id k, ak_name k, key_hash k, ak_created_at k, ak_roles k, ak_scoped k, expires_at k))
    (λ '(a, b, c, d, e, f, g), mkApiKey a b c d e f g) _). by intros [].
Defined.
#[local] Instance Claims_eq : EqDecision Claims.
Proof. solve_decision. Defined.
#[local] Instance Claims_countable : Countable Claims.
Proof.
  refine (inj_countable' (λ c, (sub c, exp c, livequery c, roles c, scoped_databases c))
    (λ '(a, b, c, d, e), mkClaims a b c d e) _). by intros [].
Defined.

(** A struct as an object of its key and the rest of it as text. *)
Definition keyed_serde (A : Type) `{Countable A} (key_of : A → string) : Serde demo_number A := {|
  to_json a := Object [("_key", JString (key_of a)); ("body", JString (to_text a))];
  from_json v :=
    match value_get "_key" v, value_get "body" v with
    | Some (JString k), Some (JString b) =>
        match of_text b with
        | Some a => if String.eqb (key_of a) k then Ok a else Err "invalid key"
        | None => Err "invalid body"
        end
    | _, _ => Err "missing field"
    end;
  json_fields := ["_key"; "body"];
|}.
#[local] Instance demo_role : Serde demo_number Role := keyed_serde Role name.
#[local] Instance demo_user_role : Serde demo_number UserRole := keyed_serde UserRole ur_id.
#[local] Instance demo_user : Serde demo_number User := keyed_serde User username.
#[local] Instance demo_api_key : Serde demo_number ApiKey := keyed_serde ApiKey ak_id.
Lemma keyed_laws A `{Countable A} key_of : @SerdeLaws demo_number A (keyed_serde A key_of) key_of.
Proof.
  split.
  - done.
  - intros a. apply wf_Object. split; [|by repeat constructor]. apply OMap.wf_cons. split; [by apply OMap.wf_cons; split; [apply OMap.wf_nil|set_solver]|].
    intros k v [[= -> ->]|?]%elem_of_cons; [done|set_solver].
  - done.
  - intros a k Hk Hne. unfold system_fields in Hk. cbn.
    repeat (apply elem_of_cons in Hk as [->|Hk]; [done|]). by apply elem_of_nil in Hk.
  - intros v a Ho Hf. cbn [from_json keyed_serde]. cbn [json_fields keyed_serde] in Hf.
    rewrite (Hf "_key" ltac:(set_solver)), (Hf "body" ltac:(set_solver)). cbn.
    by rewrite of_to_text, String.eqb_refl.
  - intros v Ho Hk. cbn [from_json keyed_serde]. rewrite Hk. by eexists.
  - by left.
  - intros k Hk. cbn [json_fields keyed_serde] in Hk. apply elem_of_cons in Hk as [->|Hk]; [by left|].
    apply list_elem_of_singleton in Hk as ->. right. vm_compute. intros Hin.
    repeat (apply elem_of_cons in Hin as [?|Hin]; [done|]). by apply elem_of_nil in Hin.
Qed.
#[local] Instance demo_role_laws : SerdeLaws demo_number Role name := keyed_laws Role name.
#[local] Instance demo_user_role_laws : SerdeLaws demo_number UserRole ur_id := keyed_laws UserRole ur_id.
#[local] Instance demo_crates : AuthCrates := {
  argon2_hash salt p := Ok (salt +:+ p);
  argon2_verify p h := String.eqb ("salt" +:+ p) h;
  jwt_encode c := Ok (to_text c);
  jwt_decode secs t := match of_text t with Some c => if (secs <=? exp c)%N then Some c else None | None => None end;
  sha256_hex k := k;
  rfc3339_before t now := None;
  base64_text s := Some s;
  urlencoded q := None;
}.
Definition families (n : string) : option map_store := Some empty_store.
#[local] Instance demo_store : DocStore demo_number DemoCollection := collection_store families.
#[local] Instance demo_store_laws : DocStoreLaws demo_number DemoCollection := collection_store_laws families.

(** *** States *)

Definition empty_collection : DemoCollection := mkCollection "c" "document" empty_store 0 0 false [] [].
Definition start : AppState DemoCollection :=
  mkState (Some {[ADMIN_COLL := empty_collection; ROLES_COLLECTION := empty_collection;
                  USER_ROLES_COLLECTION := empty_collection; API_KEYS_COLL := empty_collection]})
    (PermissionCache.initialize_builtin_roles "now" PermissionCache.new) (Some []) None ∅.
Definition fresh (n : N) : Fresh :=
  mkFresh ("uuid" +:+ dec n) "now" n n n 0 ("key" +:+ dec n) ("rev" +:+ dec n) "salt" "secret".
Definition fresh_of (i : nat) : Fresh := fresh (100 + N.of_nat i).
Definition admin : Claims := mkClaims "root" 1000 None None None.
Definition auditor : Role := mkRole "auditor" None [global_read] false "now" (Some "now").
Definition with_role : AppState DemoCollection :=
  snd (insert_recorded (fresh 1) ROLES_COLLECTION "auditor" (to_json auditor) start).
Definition with_bob : AppState DemoCollection :=
  snd (insert_recorded (fresh 2) ADMIN_COLL "bob" (to_json (mkUser "bob" "saltpassword")) with_role).
Definition with_assignment : AppState DemoCollection := snd (assign_role (fresh 3) admin "bob" "auditor" None with_bob).
Lemma start_ok : system_ok start.
Proof.
  intros m n c [= <-]. rewrite !lookup_insert, lookup_singleton.
  repeat (case_decide; [intros [= <-]; split; [done|]; intros k x Hk; by vm_compute in Hk|]). done.
Qed.
Lemma inserted_ok A `{!Serde demo_number A} key_of `{!SerdeLaws demo_number A key_of} f n (a : A) s :
  system_ok s → key_ok (key_of a) → fst (insert_recorded f n (key_of a) (to_json a) s) = Ok tt →
  system_ok (snd (insert_recorded f n (key_of a) (to_json a) s)).
Proof.
  intros Hs Hk Hf. destruct (insert_recorded f n (key_of a) (to_json a) s) as [r s'] eqn:E. cbn in Hf |- *. subst r.
  by apply (insert_recorded_ok (key_of:=key_of)) in E as [? _].
Qed.
Lemma with_role_ok : system_ok with_role.
Proof. apply (inserted_ok Role name (fresh 1) ROLES_COLLECTION auditor start start_ok); vm_compute; reflexivity. Qed.
#[local] Instance demo_user_laws : SerdeLaws demo_number User username := keyed_laws User username.
Lemma with_bob_ok : system_ok with_bob.
Proof.
  apply (inserted_ok User username (fresh 2) ADMIN_COLL (mkUser "bob" "saltpassword") with_role with_role_ok);
    vm_compute; reflexivity.
Qed.

(** *** Witnesses *)

Definition ten_calls : list (N * string) := (λ i, (N.of_nat i, "1.2.3.4")) <$> seq 0 30.
Lemma calls_sorted : StronglySorted N.le ten_calls.*1.
Proof. unfold ten_calls. repeat (constructor; [|by repeat constructor]). constructor. Qed.
Lemma rate_limit_bounded_witness :
  length (List.filter (RateLimitProps.in_window 0) (RateLimitProps.times "1.2.3.4" (RateLimitProps.attempts ten_calls).2)) ≤ 20.
Proof. apply (RateLimitProps.rate_limit_bounded ten_calls "1.2.3.4" 0 calls_sorted). Defined.
Lemma rate_limit_releases_witness :
  (RateLimit.check_rate_limit (29 + RateLimit.window) "1.2.3.4" (RateLimitProps.attempts ten_calls).1).1 = Ok tt.
Proof.
  apply (RateLimitProps.rate_limit_releases ten_calls "1.2.3.4" 29 calls_sorted).
  repeat (constructor; [vm_compute; discriminate|]). constructor.
Defined.

Lemma ran {A B} (p : A * B) x : p.1 = x → p = (x, p.2).
Proof. by destruct p as [a b]; intros <-. Qed.
Definition viewer_claims : Claims := mkClaims "eve" 1000 None (Some ["viewer"]) None.
Lemma management_needs_admin_witness :
  ∃ e, (create_role (fresh 5) viewer_claims "r" None [] with_bob).1 = Err e.
Proof.
  destruct (create_role (fresh 5) viewer_claims "r" None [] with_bob) as [r s'] eqn:E.
  assert (∀ s1, admin_only (fresh 5) viewer_claims with_bob ≠ (Ok tt, s1)) as Hno.
  { intros s1 Ha. apply (f_equal fst) in Ha. vm_compute in Ha. discriminate Ha. }
  pose proof (management_needs_admin (fresh 5) (fresh 6) viewer_claims with_bob Hno) as Hall.
  apply (proj1 Hall) in E as [He _]. exact He.
Defined.
Definition bob_token : string := default "" (match create_jwt 0 "bob" with Ok t => Some t | Err _ => None end).
Definition bearer : Request := mkRequest false false None None (Some ("Bearer " +:+ bob_token)) None.
Definition bob_claims : Claims := mkClaims "bob" 86400 None None None.
Lemma middleware_sound_witness : credentials (fresh 5) bearer with_bob bob_claims.
Proof.
  apply (middleware_sound (fresh 5) bearer with_bob bob_claims (snd (auth_middleware (fresh 5) bearer with_bob))).
  apply ran. vm_compute. reflexivity.
Defined.
Definition no_env : Env := mkEnv false None.
Lemma login_grants_admin_witness : ∃ token claims, (∀ secs, (secs ≤ 4 + 86400)%N → validate_token secs token = Ok claims) ∧
  ∀ now (s1 : AppState DemoCollection) a db, PermissionCache.get now (sub claims) (permission_cache s1) = None →
    check_permission now claims a db s1 = (Ok tt, s1).
Proof.
  pose (run := login_handler (fresh 4) fresh_of fresh_of fresh_of no_env "1.2.3.4" "bob" "password" with_bob).
  exists (match run.1 with Ok t => t | Err _ => "" end).
  apply (login_grants_admin (fresh 4) fresh_of fresh_of fresh_of no_env "1.2.3.4" "bob" "password" with_bob _ run.2).
  - intros c t secs [= <-] Hs. cbn. rewrite of_to_text. by apply N.leb_le in Hs as ->.
  - change (run = (Ok (match run.1 with Ok t => t | Err _ => "" end), run.2)).
    apply ran. vm_compute. reflexivity.
Defined.
Definition auditor_claims : Claims := mkClaims "bob" 1000 None (Some ["auditor"]) None.
Lemma created_roles_grant_nothing_witness :
  ∃ e s', check_permission 9 auditor_claims Read (Some "shop") with_bob = (Err e, s').
Proof.
  apply (created_roles_grant_nothing 9 auditor_claims Read (Some "shop") with_bob ["auditor"] with_bob_ok); try done.
  - by repeat constructor.
  - intros n ->%list_elem_of_singleton. vm_compute. reflexivity.
Defined.
Lemma roles_are_immutable_witness : ∃ e, (update_role (fresh 5) admin "auditor" (Some "d") None with_bob).1 = Err e.
Proof.
  destruct (update_role (fresh 5) admin "auditor" (Some "d") None with_bob) as [r s'] eqn:E.
  destruct (roles_are_immutable (fresh 5) admin "auditor" (Some "d") None with_bob with_bob_ok eq_refl) as (_ & Hu & _).
  exact (Hu _ _ E).
Defined.
Lemma assigned_role_is_listed_witness :
  ∃ rs, get_user_roles "bob" with_assignment = (Ok (Some rs), with_assignment) ∧ "auditor" ∈ rs.
Proof.
  apply (assigned_role_is_listed (fresh 3) admin "bob" "auditor" None with_bob
    (mkUserRole "uuid3" "bob" "auditor" None "now" "root") with_assignment with_bob_ok); [vm_compute; reflexivity|].
  apply ran. vm_compute. reflexivity.
Defined.
Lemma assigned_keys m (c : DemoCollection) (d : Document demo_number) :
  system with_assignment = Some m → m !! USER_ROLES_COLLECTION = Some c → d ∈ ds_scan c → key_ok (key d).
Proof.
  intros Hm Hc. assert (ds_scan <$> (system with_assignment ≫= lookup USER_ROLES_COLLECTION) = Some (ds_scan c)) as Hs
    by (rewrite Hm; cbn; by rewrite Hc).
  revert Hs. generalize (ds_scan c) as l. intros l Hs. vm_compute in Hs. injection Hs as <-.
  intros ->%list_elem_of_singleton. vm_compute. reflexivity.
Qed.
Lemma with_assignment_ok : system_ok with_assignment.
Proof.
  apply (assign_role_stored (fresh 3) admin "bob" "auditor" None with_bob
    (mkUserRole "uuid3" "bob" "auditor" None "now" "root") with_assignment with_bob_ok); [vm_compute; reflexivity|].
  apply ran. vm_compute. reflexivity.
Qed.
Lemma deleted_user_keeps_roles_witness :
  (get_user_roles "bob" (delete_user (fresh 6) admin "bob" with_assignment).2).1 = Ok (Some ["auditor"]).
Proof.
  apply (deleted_user_keeps_roles (fresh 6) admin "bob" with_assignment); [exact with_assignment_ok|exact assigned_keys| | |done].
  - apply ran. vm_compute. reflexivity.
  - vm_compute. reflexivity.
Defined.
End AuthDemo.
