(* ===== verification/QueryServer.v ===== *)
(** * Cursors, caches and the query handler
    (src/server/cursor_store.rs, src/storage/query_cache.rs, src/storage/document_cache.rs,
    src/server/handlers/query.rs)

    Maps are [gmap]s; where the source walks a hash map the order is [hash_order]. Instants and
    durations are in milliseconds. Each operation holds its locks to its end, so an operation is
    a function of the state. *)

From S2P Require Import Prelude Text Json Transaction Codec SdbqlLexer SdbqlAst SdbqlParser.
Import Json Parse.

(** ** Cursors *)

Module CursorStore.
Section CursorStore.
Context {V : Type}.
Record StoredCursor := mkCursor { results : list V; position : nat; created_at : N; batch_size : nat }.
Record Store := mkStore { cursors : gmap string StoredCursor; ttl : N }.
Definition new (ttl : N) : Store := mkStore ∅ ttl.
Definition set_cursors (m : gmap string StoredCursor) (st : Store) : Store := mkStore m (ttl st).

(** The identifier is a fresh uuid. *)
Definition store (id : string) (now : N) (rs : list V) (batch : nat) (st : Store) : string * Store :=
  (id, set_cursors (<[id := mkCursor rs 0 now batch]> (cursors st)) st).
Definition store_and_get_first_batch (id : string) (now : N) (rs : list V) (batch : nat) (st : Store)
    : (option string * list V * bool) * Store :=
  let total := length rs in
  let stop := Nat.min batch total in
  if (stop <? total)%nat
  then ((Some id, take stop rs, true), set_cursors (<[id := mkCursor rs stop now batch]> (cursors st)) st)
  else ((None, rs, false), st).
Definition remove (id : string) (st : Store) : Store := set_cursors (base.delete id (cursors st)) st.
Definition get_next_batch (now : N) (id : string) (st : Store) : option (list V * bool) * Store :=
  match cursors st !! id with
  | None => (None, st)
  | Some c =>
      if (ttl st <? now - created_at c)%N then (None, remove id st)
      else
        let start := position c in
        let stop := Nat.min (start + batch_size c) (length (results c)) in
        if (length (results c) <=? start)%nat then (Some ([], false), remove id st)
        else
          let batch := take (stop - start) (drop start (results c)) in
          if (stop <? length (results c))%nat
          then (Some (batch, true),
                set_cursors (<[id := mkCursor (results c) stop (created_at c) (batch_size c)]> (cursors st)) st)
          else (Some (batch, false), remove id st)
  end.
Definition delete (id : string) (st : Store) : bool * Store :=
  (match cursors st !! id with Some _ => true | None => false end, remove id st).
(** A round of the task of [spawn_cleanup_task]. *)
Definition cleanup (now : N) (st : Store) : Store :=
  set_cursors (filter (λ p, (now - created_at p.2 <=? ttl st)%N = true) (cursors st)) st.
Definition count (st : Store) : nat := size (cursors st).
End CursorStore.
Arguments StoredCursor : clear implicits.
Arguments Store : clear implicits.
End CursorStore.

(** ** The cache of query results *)

Module QueryCache.
Section QueryCache.
Context {V : Type} `{order : !HashOrder}.
Record CachedQueryResult := mkCached { result : list V; cached_at : N }.
Record Cache := mkCache { cache : gmap string CachedQueryResult; max_entries : nat; ttl : N }.
Definition new (max : nat) (ttl_secs : N) : Cache := mkCache ∅ max (ttl_secs * 1000).
Definition default_cache : Cache := new 1000 60.
Definition get (now : N) (query_hash : string) (c : Cache) : option (list V) :=
  match cache c !! query_hash with
  | Some e => if (now - cached_at e <? ttl c)%N then Some (result e) else None
  | None => None
  end.
Definition keys (m : gmap string CachedQueryResult) : list string := hash_order (map_to_list m).*1.
Definition remove_all (ks : list string) (m : gmap string CachedQueryResult) : gmap string CachedQueryResult :=
  foldl (λ m k, base.delete k m) m ks.
Definition set_cache (m : gmap string CachedQueryResult) (c : Cache) : Cache := mkCache m (max_entries c) (ttl c).
Definition put (now : N) (query_hash : string) (rs : list V) (c : Cache) : Cache :=
  let m := if (max_entries c <=? size (cache c))%nat
           then remove_all (take (max_entries c / 2) (keys (cache c))) (cache c) else cache c in
  set_cache (<[query_hash := mkCached rs now]> m) c.
Definition invalidate_all (c : Cache) : Cache := set_cache ∅ c.
(** [str::contains] *)
Fixpoint str_contains (p s : string) : bool :=
  starts_with p s || match s with String _ s' => str_contains p s' | EmptyString => false end.
Definition invalidate_collection (collection_name : string) (c : Cache) : Cache :=
  set_cache (remove_all (List.filter (str_contains collection_name) (keys (cache c))) (cache c)) c.
End QueryCache.
Arguments CachedQueryResult : clear implicits.
Arguments Cache : clear implicits.
End QueryCache.

(** ** The cache of documents *)

Module DocumentCache.
Section DocumentCache.
Context {V : Type} `{order : !HashOrder}.
Record Cache := mkCache { cache : gmap string V; access_order : list string; max_entries : nat }.
Definition new (max : nat) : Cache := mkCache ∅ [] max.
(** [position] and [remove]: the first occurrence is taken out. *)
Fixpoint remove_first (k : string) (l : list string) : list string :=
  match l with [] => [] | x :: l => if String.eqb x k then l else x :: remove_first k l end.
Definition listed (k : string) (l : list string) : bool := existsb (String.eqb k) l.
Definition touch (k : string) (l : list string) : list string :=
  if listed k l then remove_first k l ++ [k] else l.
Definition get (k : string) (c : Cache) : option V * Cache :=
  (cache c !! k, mkCache (cache c) (touch k (access_order c)) (max_entries c)).
Fixpoint evict (max : nat) (m : gmap string V) (order : list string) : gmap string V * list string :=
  if (size m <=? max)%nat then (m, order)
  else match order with [] => (m, []) | oldest :: rest => evict max (base.delete oldest m) rest end.
Definition put (k : string) (v : V) (c : Cache) : Cache :=
  let o := match cache c !! k with Some _ => remove_first k (access_order c) | None => access_order c end in
  let '(m, o') := evict (max_entries c) (<[k := v]> (cache c)) (o ++ [k]) in
  mkCache m o' (max_entries c).
Definition invalidate (k : string) (c : Cache) : Cache :=
  mkCache (base.delete k (cache c)) (remove_first k (access_order c)) (max_entries c).
Definition invalidate_collection (prefix : string) (c : Cache) : Cache :=
  foldl (λ c k, invalidate k c) c (List.filter (starts_with prefix) (hash_order (map_to_list (cache c)).*1)).
Definition clear (c : Cache) : Cache := mkCache ∅ [] (max_entries c).
End DocumentCache.
Arguments Cache : clear implicits.
End DocumentCache.

(** ** The query handler *)

Module QueryHandler.
Section QueryHandler.
Context {Num : Type} `{json_number : !JsonNumber Num} `{json_text : !JsonText Num}.
Context `{char_tables : !CharTables} `{float_text : !FloatText} `{token_show : !TokenDebug}.
Context `{order : !HashOrder}.
Notation Value := (Value Num).
Notation Query := (Query (Expression Num)).
Notation Binds := (list (string * Value)).

Record Mutations := mkMutations { inserted : N; updated : N; removed : N }.
(** The executor and the stream manager over the storage [S]; [DefaultHasher] on the text of a
    query and its bind variables in the order of their names. *)
Class QueryEngine (S : Type) := {
  execute_with_stats : string → Query → Binds → S → result DbError (list Value * Mutations) * S;
  create_stream : option (string → Query → S → result DbError string * S);
  hash_query : string → Binds → string;
}.
Context {S : Type} `{engine : !QueryEngine S}.

Record State := mkState {
  storage : S;
  query_cache : QueryCache.Cache Value;
  cursor_store : CursorStore.Store Value;
}.
Record Response := mkResponse {
  r_result : list Value; r_count : nat; r_has_more : bool; r_id : option string; r_cached : bool;
  r_mutations : Mutations }.
Record Request := mkRequest { rq_query : string; rq_binds : Binds; rq_batch_size : nat }.
Definition QUERY_TIMEOUT_SECS : N := 30.
Definition none_mutated : Mutations := mkMutations 0 0 0.

Definition is_mutation_clause (c : BodyClause (Expression Num)) : bool :=
  match c with BodyClause.Insert _ | BodyClause.Update _ | BodyClause.Remove _ => true | _ => false end.
Definition is_read_only (q : Query) : bool := negb (existsb is_mutation_clause (body_clauses q)).
Definition is_long_running_query (q : Query) : bool :=
  existsb (λ c, is_mutation_clause c || match c with BodyClause.For _ => true | _ => false end) (body_clauses q).
(** A panic of the parser ends the request without an answer; it counts as an internal error. *)
Definition parse_query_text (text : string) : result DbError Query :=
  match parse text with
  | Done q => Ok q
  | Fails e => Err e
  | Panics | OutOfFuel => Err (InternalError "")
  end.
(** Outside of a transaction. [timed_out]: a long-running query took longer than the timeout; what
    it writes is written nevertheless. The result is cached by a task of its own, here at once. *)
Definition execute_query (id : string) (now : N) (timed_out : bool) (db : string) (req : Request) (s : State)
    : result DbError Response * State :=
  match parse_query_text (rq_query req) with
  | Err e => (Err e, s)
  | Ok q =>
      let cache_key := if is_read_only q then Some (hash_query (rq_query req) (rq_binds req)) else None in
      match cache_key ≫= (λ k, QueryCache.get now k (query_cache s)) with
      | Some rs => (Ok (mkResponse rs (length rs) false None true none_mutated), s)
      | None =>
      match create_stream_clause q with
      | Some _ =>
          match create_stream with
          | None => (Err (OperationNotSupported "Stream processing not enabled"), s)
          | Some create =>
              let '(r, st) := create db q (storage s) in
              let s' := mkState st (query_cache s) (cursor_store s) in
              match r with
              | Ok _ => (Ok (mkResponse [] 0 false None false none_mutated), s')
              | Err e => (Err e, s')
              end
          end
      | None =>
          let '(r, st) := execute_with_stats db q (rq_binds req) (storage s) in
          let s' := mkState st (query_cache s) (cursor_store s) in
          if is_long_running_query q && timed_out
          then (Err (BadRequest ("Query execution timeout: exceeded " +:+ dec QUERY_TIMEOUT_SECS +:+ " seconds")), s')
          else
          match r with
          | Err e => (Err e, s')
          | Ok (rs, mutations) =>
              let cache := match cache_key with Some k => QueryCache.put now k rs (query_cache s) | None => query_cache s end in
              let '((cursor_id, batch, has_more), cs) :=
                CursorStore.store_and_get_first_batch id now rs (rq_batch_size req) (cursor_store s) in
              (Ok (mkResponse batch (length rs) has_more cursor_id false mutations), mkState st cache cs)
          end
      end end
  end.
Definition get_next_batch (now : N) (cursor_id : string) (s : State) : result DbError Response * State :=
  let '(r, cs) := CursorStore.get_next_batch now cursor_id (cursor_store s) in
  (match r with
   | Some (batch, has_more) =>
       Ok (mkResponse batch (length batch) has_more (if has_more then Some cursor_id else None) true none_mutated)
   | None => Err (DocumentNotFound ("Cursor not found or expired: " +:+ cursor_id))
   end, mkState (storage s) (query_cache s) cs).
Definition delete_cursor (cursor_id : string) (s : State) : result DbError () * State :=
  let '(found, cs) := CursorStore.delete cursor_id (cursor_store s) in
  (if found then Ok tt else Err (DocumentNotFound ("Cursor not found: " +:+ cursor_id)),
   mkState (storage s) (query_cache s) cs).
End QueryHandler.
End QueryHandler.
