(* ===== verification/QueryServerProps.v ===== *)
(** * Properties of cursors, caches and the query handler

    A cursor hands out the results of a query completely, in order and to an end; the document
    cache is an LRU list; the cache of results stays within its size, and answers with results
    of other databases and of the past. *)

From S2P Require Import Prelude Text Json Transaction Codec SdbqlLexer SdbqlAst SdbqlParser QueryServer.
Import Json Parse.

(** ** Cursors *)

Module CursorProps.
Import CursorStore.
Section CursorProps.
Context {V : Type}.
Implicit Types (st : Store V) (rs : list V) (id : string).

(** Asking for the next batch until there is none: the batches, one per call; [now i] is the time
    of the i-th call. *)
Fixpoint drain (fuel : nat) (now : nat → N) id st : option (list (list V)) * Store V :=
  match fuel with
  | 0 => (None, st)
  | S fuel =>
      match get_next_batch (now 0) id st with
      | (None, st') => (None, st')
      | (Some (batch, false), st') => (Some [batch], st')
      | (Some (batch, true), st') =>
          let '(r, st'') := drain fuel (λ i, now (S i)) id st' in ((λ l, batch :: l) <$> r, st'')
      end
  end.
Definition in_time (now : nat → N) st (c : StoredCursor V) : Prop := ∀ i, (now i - created_at c ≤ ttl st)%N.

Lemma remove_absent id st : cursors (remove id st) !! id = None.
Proof. unfold remove, set_cursors. cbn. apply lookup_delete_eq. Qed.
Lemma remove_other id id' st : id ≠ id' → cursors (remove id st) !! id' = cursors st !! id'.
Proof. intros H. unfold remove, set_cursors. cbn. by rewrite lookup_delete_ne. Qed.
(** The calls it takes for [n] results. *)
Definition calls_for (n batch : nat) : nat := S ((n - 1) / batch).
Lemma calls_for_more n batch : 0 < batch → batch < n → calls_for n batch = S (calls_for (n - batch) batch).
Proof.
  intros Hb Hn. unfold calls_for. f_equal. replace (n - 1) with (n - batch - 1 + 1 * batch) by lia.
  rewrite Nat.div_add by lia. lia.
Qed.
Lemma calls_for_last n batch : n ≤ batch → calls_for n batch = 1.
Proof.
  intros Hn. unfold calls_for. f_equal. destruct (decide (batch = 0)) as [->|]; [by replace (n - 1) with 0 by lia|].
  apply Nat.div_small. lia.
Qed.
Lemma drain_rest fuel now id st c :
  cursors st !! id = Some c → (0 < batch_size c) → position c < length (results c) → in_time now st c →
  calls_for (length (results c) - position c) (batch_size c) ≤ fuel →
  ∃ batches st', drain fuel now id st = (Some batches, st') ∧ concat batches = drop (position c) (results c) ∧
    length batches = calls_for (length (results c) - position c) (batch_size c) ∧
    (∀ i b, batches !! i = Some b → length b = Nat.min (batch_size c) (length (results c) - position c - i * batch_size c)) ∧
    cursors st' !! id = None ∧ ∀ id', id' ≠ id → cursors st' !! id' = cursors st !! id'.
Proof.
  revert now st c. induction fuel as [|fuel IH]; intros now st c Hc Hb Hp Ht Hf; [unfold calls_for in Hf; lia|].
  cbn [drain]. unfold get_next_batch. rewrite Hc.
  assert ((ttl st <? now 0%nat - created_at c)%N = false) as -> by (apply N.ltb_ge, Ht).
  rewrite (proj2 (Nat.leb_gt _ _) Hp). set (stop := Nat.min (position c + batch_size c) (length (results c))).
  assert (length (take (stop - position c) (drop (position c) (results c))) = stop - position c) as Hlen
    by (rewrite length_take, length_drop; lia).
  destruct (stop <? length (results c)) eqn:E.
  - apply Nat.ltb_lt in E. set (c' := mkCursor (results c) stop (created_at c) (batch_size c)).
    assert (stop = position c + batch_size c) as Hstop by lia.
    assert (length (results c) - stop = length (results c) - position c - batch_size c) as Hleft by lia.
    pose proof (calls_for_more (length (results c) - position c) (batch_size c) Hb ltac:(lia)) as Hmore. rewrite <- Hleft in Hmore.
    rewrite Hmore in Hf |- *.
    destruct (IH (λ i, now (S i)) (set_cursors (<[id := c']> (cursors st)) st) c') as (batches & st' & Hd & Hcat & Hn & Hs & Hg & Ho);
      [cbn; by rewrite lookup_insert_eq|done|done|intros i; apply Ht|cbn; lia|].
    rewrite Hd. cbn [fmap option_fmap option_map results position batch_size c'] in *. eexists _, st'. split; [done|]. split_and!; [| | |done|].
    + cbn [concat]. rewrite Hcat. rewrite <- (take_drop (stop - position c) (drop (position c) (results c))) at 2.
      rewrite drop_drop. do 2 f_equal. lia.
    + cbn [length]. by rewrite Hn.
    + intros [|i] b; cbn; [intros [= <-]; rewrite Hlen; lia|]. intros Hi. rewrite (Hs i b Hi). lia.
    + intros id' Hne. rewrite Ho by done. cbn. by rewrite lookup_insert_ne by congruence.
  - apply Nat.ltb_ge in E. eexists _, (remove id st). split; [done|]. rewrite (calls_for_last (_ - _)) by lia.
    split_and!; [|done| |apply remove_absent|].
    + cbn [concat]. rewrite app_nil_r, take_ge; [done|]. rewrite length_drop. lia.
    + intros [|i] b; cbn; [intros [= <-]; rewrite Hlen; lia|done].
    + intros id' Hne. by apply remove_other.
Qed.
(** C36: A cursor whose batches are not empty and that is asked within its lifetime is read to its
    end: the first answer and the batches that follow are the results of the query, each once and
    in order; every batch but the last has the size asked for; it takes exactly one call for each
    batch that is left, the last of them says so, and the cursor is gone then. Other cursors are
    as they were. *)
Theorem cursor_drains id now rs batch st first st' calls fuel :
  0 < batch → store_and_get_first_batch id now rs batch st = ((Some id, first, true), st') →
  (∀ i, (calls i - now ≤ ttl st)%N) → (length rs - 1) / batch ≤ fuel →
  ∃ batches st'', drain fuel calls id st' = (Some batches, st'') ∧ first ++ concat batches = rs ∧
    length batches = (length rs - 1) / batch ∧ length first = batch ∧
    (∀ i b, batches !! i = Some b → length b = Nat.min batch (length rs - S i * batch)) ∧
    cursors st'' !! id = None ∧ ∀ id', id' ≠ id → cursors st'' !! id' = cursors st !! id'.
Proof.
  intros Hb Hs Ht Hf. unfold store_and_get_first_batch in Hs. set (stop := Nat.min batch (length rs)) in Hs.
  destruct (stop <? length rs) eqn:E; [|done]. apply Nat.ltb_lt in E. injection Hs as <- <-.
  assert (stop = batch) as Hstop by lia. rewrite Hstop in *.
  pose proof (calls_for_more (length rs) batch Hb ltac:(lia)) as Hcalls. unfold calls_for at 1 in Hcalls. injection Hcalls as Hcalls.
  rewrite Hcalls in Hf |- *. set (c := mkCursor rs batch now batch).
  destruct (drain_rest fuel calls id (set_cursors (<[id := c]> (cursors st)) st) c) as (batches & st'' & Hd & Hcat & Hn & Hsz & Hg & Ho);
    [cbn; by rewrite lookup_insert_eq|done|cbn; lia|exact Ht|done|].
  cbn [results position batch_size c] in *. exists batches, st''. split_and!; [done| |done| | |done|].
  - rewrite Hcat. apply take_drop.
  - rewrite length_take. lia.
  - intros i b Hi. rewrite (Hsz i b Hi). lia.
  - intros id' Hne. rewrite Ho by done. cbn. by rewrite lookup_insert_ne by congruence.
Qed.
(** A cursor with empty batches never ends. *)
Lemma cursor_zero_batch id now st c : cursors st !! id = Some c → batch_size c = 0 → position c < length (results c) →
  (now - created_at c ≤ ttl st)%N → get_next_batch now id st = (Some ([], true), st).
Proof.
  intros Hc Hb Hp Ht. unfold get_next_batch. rewrite Hc.
  assert ((ttl st <? now - created_at c)%N = false) as -> by by apply N.ltb_ge.
  rewrite (proj2 (Nat.leb_gt _ _) Hp), Hb, Nat.add_0_r, Nat.min_l by lia. rewrite (proj2 (Nat.ltb_lt _ _) Hp), Nat.sub_diag.
  destruct st as [m t], c as [r p a b]. cbn in *. subst b. unfold set_cursors. cbn. by rewrite insert_id.
Qed.
End CursorProps.
End CursorProps.

(** ** The document cache is an LRU list *)

Module LruProps.
Import DocumentCache.
Section LruProps.
Context {V : Type} `{order : !HashOrder}.

(** The reference: keys and values, the least recently used first. *)
Notation lru := (list (string * V)).
Implicit Types (l : lru).
Definition without (k : string) (l : lru) : lru := List.filter (λ p, negb (String.eqb p.1 k)) l.
Definition find_key (k : string) (l : lru) : option V := snd <$> List.find (λ p, String.eqb p.1 k) l.
Definition lru_get (k : string) (l : lru) : option V * lru :=
  match find_key k l with Some v => (Some v, without k l ++ [(k, v)]) | None => (None, l) end.
Definition lru_put (max : nat) (k : string) (v : V) (l : lru) : lru :=
  let l' := without k l ++ [(k, v)] in drop (length l' - max) l'.
Record represents (c : Cache V) (l : lru) : Prop := {
  order_of : access_order c = l.*1;
  nodup_of : NoDup l.*1;
  cache_of : cache c = list_to_map l;
  size_of : length l ≤ max_entries c;
}.

Lemma without_fst k l : NoDup l.*1 → remove_first k l.*1 = (without k l).*1.
Proof.
  induction l as [|[x v] l IH]; [done|]. cbn [fmap list_fmap fst]. intros [Hx Hn]%NoDup_cons.
  cbn [remove_first without List.filter fst]. destruct (String.eqb_spec x k) as [->|Hne]; cbn [negb].
  - symmetry. fold (without k l). clear -Hx. induction l as [|[y w] l IH]; [done|]. cbn [without List.filter fst].
    rewrite fmap_cons, not_elem_of_cons in Hx. destruct Hx as [Hy Hx]. cbn in Hy.
    rewrite (proj2 (String.eqb_neq y k)) by congruence. cbn. f_equal. by apply IH.
  - cbn. f_equal. by apply IH.
Qed.
Lemma elem_without k l x : x ∈ (without k l).*1 → x ∈ l.*1 ∧ x ≠ k.
Proof.
  intros (p & -> & Hp)%list_elem_of_fmap. apply list_elem_of_In, filter_In in Hp as [Hp Hk].
  apply negb_true_iff, String.eqb_neq in Hk. split; [|done]. apply list_elem_of_fmap. exists p.
  split; [done|by apply list_elem_of_In].
Qed.
Lemma nodup_without k l : NoDup l.*1 → NoDup (without k l).*1.
Proof.
  induction l as [|[x v] l IH]; [done|]. cbn [fmap list_fmap fst]. intros [Hx Hn]%NoDup_cons.
  cbn [without List.filter fst]. destruct (String.eqb x k); cbn [negb]; [by apply IH|]. cbn. apply NoDup_cons.
  split; [|by apply IH]. intros Hin%elem_without. naive_solver.
Qed.
Lemma nodup_moved k v l : NoDup l.*1 → NoDup (without k l ++ [(k, v)]).*1.
Proof.
  intros Hn. rewrite fmap_app. apply NoDup_app. split_and!; [by apply nodup_without| |apply NoDup_singleton].
  intros x [_ Hx]%elem_without. cbn. set_solver.
Qed.
Lemma map_without k l : NoDup l.*1 → list_to_map (without k l) = base.delete k (list_to_map l : gmap string V).
Proof.
  induction l as [|[x v] l IH]; intros Hn; [cbn; by rewrite delete_empty|].
  cbn [fmap list_fmap fst] in Hn. apply NoDup_cons in Hn as [Hx Hn]. cbn [without List.filter fst list_to_map].
  destruct (String.eqb_spec x k) as [->|Hne]; cbn [negb list_to_map].
  - change (foldr _ _ l) with (list_to_map l : gmap string V). cbn. rewrite delete_insert_eq. by apply IH.
  - cbn. rewrite delete_insert_ne by done. f_equal. by apply IH.
Qed.
Lemma map_moved k v l : NoDup l.*1 → list_to_map (without k l ++ [(k, v)]) = <[k := v]> (list_to_map l : gmap string V).
Proof.
  intros Hn. rewrite list_to_map_snoc, map_without by (done || intros [_ ?]%elem_without; done).
  apply insert_delete_eq.
Qed.
Lemma find_key_map k l : NoDup l.*1 → find_key k l = (list_to_map l : gmap string V) !! k.
Proof.
  induction l as [|[x v] l IH]; [done|]. cbn [fmap list_fmap fst]. intros [Hx Hn]%NoDup_cons.
  unfold find_key. cbn [List.find fst list_to_map]. cbn. destruct (String.eqb_spec x k) as [->|Hne].
  - by rewrite lookup_insert_eq.
  - rewrite lookup_insert_ne by done. by apply IH.
Qed.
Lemma size_map l : NoDup l.*1 → size (list_to_map l : gmap string V) = length l.
Proof.
  induction l as [|[x v] l IH]; [done|]. cbn [fmap list_fmap fst]. intros [Hx Hn]%NoDup_cons. cbn.
  rewrite map_size_insert_None by by apply not_elem_of_list_to_map. by rewrite IH.
Qed.
Lemma evict_drop max l : NoDup l.*1 →
  evict max (list_to_map l) l.*1 = (list_to_map (drop (length l - max) l), (drop (length l - max) l).*1).
Proof.
  induction l as [|[x v] l IH]; intros Hn; [by destruct max|].
  cbn [fmap list_fmap fst evict]. rewrite size_map by done. destruct (length ((x, v) :: l) <=? max) eqn:E.
  - apply Nat.leb_le in E. rewrite (proj2 (Nat.sub_0_le _ _) E). done.
  - apply Nat.leb_gt in E. cbn [fmap list_fmap fst] in Hn. apply NoDup_cons in Hn as [Hx Hn].
    replace (length ((x, v) :: l) - max) with (S (length l - max)) by (simpl in *; lia). cbn [drop].
    rewrite <- IH by done. f_equal. cbn. rewrite delete_insert_id; [done|by apply not_elem_of_list_to_map].
Qed.
Lemma listed_spec k (l : list string) : listed k l = true ↔ k ∈ l.
Proof.
  unfold listed. rewrite existsb_exists. split.
  - intros (x & Hx & ->%String.eqb_eq). by apply list_elem_of_In.
  - intros Hk. exists k. rewrite String.eqb_refl. by split; [apply list_elem_of_In|].
Qed.
Lemma find_listed k l : NoDup l.*1 → is_Some (find_key k l) ↔ k ∈ l.*1.
Proof.
  intros Hn. rewrite find_key_map by done. split.
  - intros [v Hv]. apply elem_of_list_to_map in Hv; [|done]. apply list_elem_of_fmap. by exists (k, v).
  - intros ([x v] & -> & Hx)%list_elem_of_fmap. exists v. by apply elem_of_list_to_map.
Qed.
Lemma put_is_lru c l k v : access_order c = l.*1 → NoDup l.*1 → cache c = list_to_map l →
  put k v c = mkCache (list_to_map (lru_put (max_entries c) k v l)) (lru_put (max_entries c) k v l).*1 (max_entries c).
Proof.
  intros Ho Hn Hc. unfold put, lru_put. rewrite Ho, Hc.
  assert ((match (list_to_map l : gmap string V) !! k with Some _ => remove_first k l.*1 | None => l.*1 end) ++ [k]
    = (without k l ++ [(k, v)]).*1) as ->.
  { rewrite fmap_app, <- without_fst by done. f_equal. destruct (_ !! k) eqn:Ek; [done|].
    apply not_elem_of_list_to_map in Ek. clear -Ek. induction l as [|[x w] l IH]; [done|]. cbn in *.
    rewrite not_elem_of_cons in Ek. destruct Ek as [Hx Ek]. rewrite (proj2 (String.eqb_neq x k)) by congruence. f_equal. by apply IH. }
  rewrite <- map_moved by done. by rewrite evict_drop by by apply nodup_moved.
Qed.
(** C37: the document cache, a map beside a list of keys, behaves as the list of its entries in the
    order of their last use: a lookup returns the value and makes its entry the most recent, a
    put does the same with the new value and drops the least recently used entries beyond the
    capacity, an invalidation removes its entry. *)
Theorem document_cache_is_lru c l : represents c l → 0 < max_entries c →
  (∀ k, (get k c).1 = (lru_get k l).1 ∧ represents (get k c).2 (lru_get k l).2) ∧
  (∀ k v, represents (put k v c) (lru_put (max_entries c) k v l) ∧ cache (put k v c) !! k = Some v) ∧
  (∀ k, represents (invalidate k c) (without k l)) ∧
  represents (clear c) [].
Proof.
  intros [Ho Hn Hc Hs] Hmax. split_and!.
  - intros k. unfold get, lru_get. cbn [fst snd]. rewrite Hc, <- find_key_map by done.
    pose proof (find_listed k l Hn) as Hl. destruct (find_key k l) as [v|] eqn:Ef; (split; [done|]); cbn [snd].
    + assert (k ∈ l.*1) as Hk by naive_solver. split; cbn [access_order cache max_entries].
      * unfold touch. rewrite Ho, (proj2 (listed_spec _ _) Hk), without_fst, fmap_app by done. done.
      * by apply nodup_moved.
      * rewrite map_moved by done. symmetry. apply insert_id. by rewrite <- find_key_map.
      * rewrite length_app. cbn. rewrite find_key_map in Ef by done.
        assert (length (without k l) < length l) as Hlt; [|lia].
        rewrite <- (size_map (without k l)), <- (size_map l), map_without by (done || by apply nodup_without).
        rewrite map_size_delete, Ef. rewrite size_map by done. destruct l; [done|simpl; lia].
    + split; cbn [access_order cache max_entries]; try done. unfold touch. rewrite Ho.
      destruct (listed k l.*1) eqn:El; [|done]. apply listed_spec, Hl in El as [? ?]. done.
  - intros k v. pose proof (put_is_lru c l k v Ho Hn Hc) as Hput.
    rewrite Hput. set (l' := without k l ++ [(k, v)]). assert (NoDup l'.*1) as Hn' by by apply nodup_moved.
    assert (NoDup (drop (length l' - max_entries c) l').*1) as Hnd.
    { rewrite fmap_drop. eapply sublist_NoDup; [done|apply sublist_drop]. }
    split; [split; cbn [access_order cache max_entries]|].
    + done.
    + done.
    + done.
    + unfold lru_put. fold l'. rewrite length_drop. lia.
    + cbn [cache]. apply elem_of_list_to_map; [done|]. unfold lru_put. fold l'.
      unfold l'. rewrite drop_app_le by (rewrite length_app; cbn; lia). apply elem_of_app. right. by left.
  - intros k. split; cbn [access_order cache max_entries invalidate].
    + by rewrite Ho, without_fst.
    + by apply nodup_without.
    + by rewrite map_without, Hc.
    + etrans; [|exact Hs]. apply filter_length_le.
  - by split; cbn; [|constructor| |lia].
Qed.
End LruProps.
End LruProps.

(** ** The cache of results *)

Module QueryCacheProps.
Import QueryCache.
Section QueryCacheProps.
Context {V : Type} `{order : !HashOrder} `{order_laws : !HashOrderLaws}.
Implicit Types (c : Cache V).

Lemma remove_all_size ks (m : gmap string (CachedQueryResult V)) :
  NoDup ks → (∀ k, k ∈ ks → is_Some (m !! k)) → size (remove_all ks m) = size m - length ks.
Proof.
  revert m. induction ks as [|k ks IH]; intros m Hn Hin; [simpl; lia|]. apply NoDup_cons in Hn as [Hk Hn].
  unfold remove_all. cbn [foldl]. fold (remove_all ks (base.delete k m)). rewrite IH; [|done|].
  - rewrite map_size_delete. destruct (Hin k ltac:(by left)) as [v Hv]. rewrite Hv. simpl. lia.
  - intros k' Hk'. rewrite lookup_delete_ne by (intros ->; done). apply Hin. by right.
Qed.
Lemma keys_nodup (m : gmap string (CachedQueryResult V)) : NoDup (keys m) ∧ ∀ k, k ∈ keys m ↔ is_Some (m !! k).
Proof.
  unfold keys. rewrite hash_order_perm. split; [apply NoDup_fst_map_to_list|]. intros k. rewrite hash_order_perm. split.
  - intros ([k' v] & -> & Hk)%list_elem_of_fmap. exists v. by apply elem_of_map_to_list.
  - intros [v Hv]. apply list_elem_of_fmap. exists (k, v). split; [done|by apply elem_of_map_to_list].
Qed.
(** the cache of results never holds more entries than its capacity, when that is at least
    two, and what it returns for a query is what was last stored for it, less than the lifetime
    ago. *)
Theorem query_cache_bounded c now k rs :
  2 ≤ max_entries c → size (cache c) ≤ max_entries c →
  size (cache (put now k rs c)) ≤ max_entries c ∧
  (∀ now', (now' - now < ttl c)%N → get now' k (put now k rs c) = Some rs) ∧
  (∀ now' k' rs', k' ≠ k → get now' k' (put now k rs c) = Some rs' → get now' k' c = Some rs').
Proof.
  intros Hmax Hsize. destruct (keys_nodup (cache c)) as [Hn Hk].
  set (old := take (max_entries c / 2) (keys (cache c))).
  assert (length (keys (cache c)) = size (cache c)) as Hlen.
  { unfold keys. rewrite hash_order_perm, length_fmap. apply length_map_to_list. }
  split_and!.
  - unfold put. fold old. cbn [cache set_cache].
    assert (∀ m : gmap string (CachedQueryResult V), size (<[k := mkCached rs now]> m) ≤ Datatypes.S (size m)) as Hins.
    { intros m. rewrite map_size_insert. destruct (m !! k); unfold id; lia. }
    destruct (max_entries c <=? size (cache c)) eqn:E; [|apply Nat.leb_gt in E; specialize (Hins (cache c)); lia].
    apply Nat.leb_le in E. etrans; [apply Hins|]. rewrite remove_all_size.
    + unfold old. rewrite length_take, Hlen. pose proof (Nat.div_le_lower_bound (max_entries c) 2 1 ltac:(lia) ltac:(lia)).
      pose proof (Nat.div_le_upper_bound (max_entries c) 2 (max_entries c) ltac:(lia) ltac:(lia)). lia.
    + eapply sublist_NoDup; [exact Hn|apply sublist_take].
    + intros x Hx. apply Hk. by eapply elem_of_take in Hx as (? & ?%list_elem_of_lookup_2 & _).
  - intros now' Ht. unfold get, put. cbn [cache set_cache ttl]. rewrite lookup_insert_eq. cbn. by apply N.ltb_lt in Ht as ->.
  - intros now' k' rs' Hne. unfold get, put. fold old. cbn [cache set_cache ttl]. rewrite lookup_insert_ne by done.
    destruct (max_entries c <=? size (cache c)); [|done].
    assert (∀ m : gmap string (CachedQueryResult V), remove_all old m !! k' = None ∨ remove_all old m !! k' = m !! k') as Hr.
    { clear. induction old as [|x l IH]; intros m; [by right|]. unfold remove_all. cbn [foldl].
      destruct (IH (base.delete x m)) as [E|E]; unfold remove_all in E; rewrite E; [by left|].
      destruct (decide (x = k')) as [->|]; [left; apply lookup_delete_eq|right; by apply lookup_delete_ne]. }
    destruct (Hr (cache c)) as [-> | ->]; done.
Qed.
End QueryCacheProps.
End QueryCacheProps.

(** ** Queries that are answered from the cache *)

Module QueryHandlerProps.
Import QueryHandler.
Section QueryHandlerProps.
Context {Num : Type} `{json_number : !JsonNumber Num} `{json_text : !JsonText Num}.
Context `{char_tables : !CharTables} `{float_text : !FloatText} `{token_show : !TokenDebug}.
Context `{order : !HashOrder}.
Context {S : Type} `{engine : !QueryEngine (Num:=Num) S}.

(** the cache knows neither databases nor writes: once a query without INSERT, UPDATE and
    REMOVE has been executed, the same text and bind variables are answered with its results for
    the lifetime of the entry, on whatever database they are sent to and whatever has been written
    since, and are not executed again. *)
Theorem cached_across_databases id now timed_out db req s r s1 q :
  parse_query_text (rq_query req) = Ok q → is_read_only q = true → create_stream_clause q = None →
  execute_query id now timed_out db req s = (Ok r, s1) → r_cached r = false →
  ∃ rs mutations st, execute_with_stats db q (rq_binds req) (storage s) = (Ok (rs, mutations), st) ∧
    ∀ id' now' timed_out' db' (s2 : State), query_cache s2 = query_cache s1 →
      (now' - now < QueryCache.ttl (query_cache s))%N →
      execute_query id' now' timed_out' db' req s2 = (Ok (mkResponse rs (length rs) false None true none_mutated), s2).
Proof.
  intros Hq Hro Hns Hex Hnc. unfold execute_query in Hex. rewrite Hq, Hro in Hex. cbn [mbind option_bind] in Hex.
  destruct (QueryCache.get now _ (query_cache s)) as [rs0|]; [injection Hex as <- _; by cbn in Hnc|]. rewrite Hns in Hex.
  destruct (execute_with_stats db q (rq_binds req) (storage s)) as [[[rs mutations]|e] st] eqn:Ee.
  2: { by destruct (is_long_running_query q && timed_out). }
  exists rs, mutations, st. split; [done|]. destruct (is_long_running_query q && timed_out); [done|].
  destruct (CursorStore.store_and_get_first_batch _ _ _ _ _) as [[[cid batch] more] cs]. injection Hex as _ <-.
  intros id' now' timed_out' db' s2 Hc Ht. unfold execute_query. rewrite Hq, Hro, Hc. cbn [mbind option_bind query_cache].
  assert (QueryCache.get now' (hash_query (rq_query req) (rq_binds req))
    (QueryCache.put now (hash_query (rq_query req) (rq_binds req)) rs (query_cache s)) = Some rs) as ->; [|done].
  unfold QueryCache.get, QueryCache.put. cbn. rewrite lookup_insert_eq. cbn. by apply N.ltb_lt in Ht as ->.
Qed.
End QueryHandlerProps.
End QueryHandlerProps.

(** ** Concrete inputs *)

Module QueryServerDemo.
#[local] Existing Instances demo_number_ops Codec.demo_text ascii_tables.
#[local] Instance srv_float : FloatText := λ _, Some 0%N.
#[local] Instance srv_debug : TokenDebug := λ _, "token".
#[local] Instance srv_order : HashOrder := λ l, l.
#[local] Instance srv_order_laws : HashOrderLaws.
Proof. by intros l. Qed.
(** A storage that counts what was executed, and answers with the name of the database. *)
#[local] Instance srv_engine : QueryHandler.QueryEngine (Num:=demo_number) N := {|
  QueryHandler.execute_with_stats db _ _ n := (Ok ([JString db], QueryHandler.mkMutations 0 0 0), (n + 1)%N);
  QueryHandler.create_stream := None;
  QueryHandler.hash_query q _ := q;
|}.
Definition srv_state : QueryHandler.State (Num:=demo_number) (S:=N) :=
  QueryHandler.mkState 0%N QueryCache.default_cache (CursorStore.new 1000).
(** An UPSERT is not a mutation for the cache. *)
Definition upsert_request : QueryHandler.Request (Num:=demo_number) :=
  QueryHandler.mkRequest "UPSERT {a: 1} INSERT {a: 1} UPDATE {a: 2} IN c RETURN 1" [] 10.
Definition upsert_query : Query (Expression demo_number) :=
  match QueryHandler.parse_query_text (QueryHandler.rq_query upsert_request) with
  | Ok q => q
  | Err _ => mkQuery [] [] [] [] None None None None None None None []
  end.
Lemma cached_across_databases_witness :
  ∃ s1, QueryHandler.execute_query "id" 0 false "sales" upsert_request srv_state =
    (Ok (QueryHandler.mkResponse [JString "sales"] 1 false None false QueryHandler.none_mutated), s1) ∧
  (QueryHandler.execute_query "id2" 30000 false "hr" upsert_request s1) =
    (Ok (QueryHandler.mkResponse [JString "sales"] 1 false None true QueryHandler.none_mutated), s1).
Proof.
  eexists. split; [vm_compute; reflexivity|].
  destruct (QueryHandlerProps.cached_across_databases "id" 0 false "sales" upsert_request srv_state
    (QueryHandler.mkResponse [JString "sales"] 1 false None false QueryHandler.none_mutated)
    (QueryHandler.mkState 1%N (QueryCache.put 0 (QueryHandler.rq_query upsert_request) [JString "sales"] QueryCache.default_cache)
       (CursorStore.new 1000)) upsert_query)
    as (rs & mutations & st & He & Hc); [vm_compute; reflexivity..|].
  injection He as <- _ _. apply Hc; vm_compute; reflexivity.
Defined.
Lemma cursor_drains_witness : ∃ batches st'',
  CursorProps.drain 2 (λ _, 10%N) "id"
    (CursorStore.store_and_get_first_batch "id" 0 [1; 2; 3; 4; 5] 2 (CursorStore.new 1000)).2 = (Some batches, st'') ∧
  [1; 2] ++ concat batches = [1; 2; 3; 4; 5] ∧ length batches = 2.
Proof.
  destruct (CursorProps.cursor_drains "id" 0 [1; 2; 3; 4; 5] 2 (CursorStore.new 1000) [1; 2]
    (CursorStore.store_and_get_first_batch "id" 0 [1; 2; 3; 4; 5] 2 (CursorStore.new 1000)).2 (λ _, 10%N) 2)
    as (batches & st'' & Hd & Ha & Hl & _); [lia|vm_compute; reflexivity|intros i; vm_compute; discriminate|cbn; lia|].
  exists batches, st''. split; [exact Hd|]. split; [exact Ha|exact Hl].
Defined.
Lemma document_cache_is_lru_witness :
  LruProps.represents (DocumentCache.put "b" 2 (DocumentCache.put "a" 1 (DocumentCache.new 1))) [("b", 2)].
Proof.
  assert (LruProps.represents (DocumentCache.put "a" 1 (DocumentCache.new 1)) [("a", 1)]) as H1
    by (split; [done|apply NoDup_singleton|done|vm_compute; lia]).
  destruct (LruProps.document_cache_is_lru (DocumentCache.put "a" 1 (DocumentCache.new 1)) [("a", 1)] H1 ltac:(vm_compute; lia))
    as (_ & Hput & _). exact (proj1 (Hput "b" 2)).
Defined.
Lemma query_cache_bounded_witness :
  size (QueryCache.cache (QueryCache.put 0 "q" [1] (QueryCache.new 2 60))) ≤ 2.
Proof. apply (QueryCacheProps.query_cache_bounded (QueryCache.new 2 60) 0 "q" [1]); apply (bool_decide_unpack _); vm_compute; exact I. Defined.
End QueryServerDemo.
