(* ===== verification/Databases.v ===== *)
(** * The storage engine: databases and collections (src/storage/engine.rs, database.rs, collection/core.rs)

    Every collection is a column family of the store, named after its database and itself; the
    databases are entries of a column family of their own. What the program works with are
    handles: objects with the counters, the change events and the type of a collection in memory.
    The engine caches the handles it opens under the names it was asked for, and every database
    caches its own, so that one column family can have two handles at a time. The model keeps the
    handles in an arena and the caches as maps to places in it.

    An operation is a function of the engine that may panic ([None]): the methods of a handle
    expect its column family to exist. Creating, dropping and listing column families are RocksDB's
    ([Families]). *)

From S2P Require Import Prelude Text Json Transaction Codec Kv Document Indexes Collection CollectionBatch.
Import Json Codec Document Serializer Indexes Collection CollectionBatch.

(** [create_cf], which can fail; [drop_cf], whether it succeeds; [list_cf], the order of the names. *)
Class Families (DB : Type) := {
  cf_create : string → option DB;
  cf_drop : string → bool;
  list_cf : gset string → list string;
}.
Class FamiliesLaws (DB : Type) `{!KvStore DB} `{!Families DB} : Prop := {
  cf_create_empty n d : cf_create n = Some d → kv_view d = [];
  list_cf_perm s : list_cf s ≡ₚ elements s;
}.

Module Databases.

(** ** Handles and the engine *)

Section Data.
Context {Num DB : Type}.

Record Handle := mkHandle {
  h_name : string;
  h_type : string;
  h_docs : N;
  h_chunks : N;
  h_dirty : bool;
  h_events : list (ChangeEvent Num);
  h_vectors : list (vector_call Num);
}.
(** A handle on its column family, and back. *)
Definition attach (d : DB) (h : Handle) : Collection Num DB :=
  mkCollection (h_name h) (h_type h) d (h_docs h) (h_chunks h) (h_dirty h) (h_events h) (h_vectors h).
Definition detach (c : Collection Num DB) : Handle :=
  mkHandle (name c) (collection_type c) (doc_count c) (chunk_count c) (count_dirty c) (change_sender c)
    (vector_indexes c).

Record Engine := mkEngine {
  families : gmap string DB;
  arena : list Handle;
  collections : gmap string nat;
  databases : gmap string (gmap string nat);
}.
Definition set_families (f : gmap string DB) (e : Engine) : Engine := mkEngine f (arena e) (collections e) (databases e).
Definition set_arena (a : list Handle) (e : Engine) : Engine := mkEngine (families e) a (collections e) (databases e).
Definition set_collections (m : gmap string nat) (e : Engine) : Engine := mkEngine (families e) (arena e) m (databases e).
Definition set_databases (m : gmap string (gmap string nat)) (e : Engine) : Engine :=
  mkEngine (families e) (arena e) (collections e) m.
End Data.
Arguments Handle : clear implicits.
Arguments Engine : clear implicits.

(** ** Operations that may panic *)

Definition M (Num DB A : Type) : Type := Engine Num DB → option (A * Engine Num DB).
#[export] Instance M_ret Num DB : MRet (M Num DB) := λ A a e, Some (a, e).
#[export] Instance M_bind Num DB : MBind (M Num DB) := λ A B k m e,
  match m e with Some (a, e') => k a e' | None => None end.
#[export] Typeclasses Opaque M.

Section Engine.
Context {Num : Type} `{!JsonNumber Num} `{!JsonText Num} `{!MetaJson Num} `{!DocumentJson Num}
  `{!DocCodec Num}.
Context `{hex_crate : !HexCrate} `{std_text : !StdText}.
Context {DB : Type} `{!KvStore DB} `{!Families DB} `{schema : !SchemaCheck Num DB}.
Notation Collection := (Collection Num DB).
Notation Engine := (Engine Num DB).
Notation M := (M Num DB).

Definition gets {A} (f : Engine → A) : M A := λ e, Some (f e, e).
Definition modify (f : Engine → Engine) : M unit := λ e, Some (tt, f e).
Definition panic {A} : M A := λ _, None.
Definition when (b : bool) (m : M unit) : M unit := if b then m else mret tt.
Fixpoint each {A} (f : A → M unit) (l : list A) : M unit :=
  match l with [] => mret tt | x :: l' => f x ≫= λ _, each f l' end.

Definition META_CF : string := "_meta".
Definition STATS_COUNT_KEY : string := "_stats:count".
Definition SHARD_CONFIG_KEY : string := "_stats:shard_config".
Definition COLLECTION_TYPE_KEY : string := "_stats:type".

Definition cf_handle (n : string) : M (option DB) := gets (λ e, families e !! n).
Definition has_cf (n : string) (e : Engine) : bool := match families e !! n with Some _ => true | None => false end.

(** [Collection::new]: the count as it was last written, or else counted. *)
Definition new_handle (n : string) (cf : option DB) : Handle Num :=
  match cf with
  | None => mkHandle n "document" 0 0 false [] []
  | Some d =>
      mkHandle n
        (match kv_get COLLECTION_TYPE_KEY d with Some bytes => utf8_lossy bytes | None => "document" end)
        (match kv_get STATS_COUNT_KEY d with
         | Some bytes => default 0%N (parse_usize (utf8_lossy bytes))
         | None => N.of_nat (length (scan_prefix DOC_PREFIX d))
         end)
        (N.of_nat (length (scan_prefix BLO_PREFIX d))) false [] []
  end.
Definition open_handle (n : string) : M nat := λ e,
  Some (length (arena e), set_arena (arena e ++ [new_handle n (families e !! n)]) e).

(** A method of the handle: it expects its column family. *)
Definition on_handle {A} (id : nat) (f : Collection → A * Collection) : M A := λ e,
  match arena e !! id with
  | None => None
  | Some h =>
      match families e !! h_name h with
      | None => None
      | Some d =>
          let '(a, c') := f (attach d h) in
          Some (a, set_families (<[h_name h := db c']> (families e)) (set_arena (<[id := detach c']> (arena e)) e))
      end
  end.
(** A method that only touches the memory of the handle, and one that does nothing without a
    column family. *)
Definition handle_count (id : nat) : M N := λ e,
  match arena e !! id with Some h => Some (h_docs h, e) | None => None end.
Definition try_handle {A} (none : A) (id : nat) (f : Collection → A * Collection) : M A := λ e,
  match arena e !! id with
  | None => None
  | Some h => if has_cf (h_name h) e then on_handle id f e else Some (none, e)
  end.

(** ** Databases (src/storage/database.rs) *)

Definition collection_cf_name (db coll : string) : string := db +:+ (":" +:+ coll).

(** [create_cf] and the write of the type; without the second the family is there, without a type. *)
Definition create_family (n type_ : string) : M (result DbError unit) := λ e,
  match cf_create n with
  | None => Some (Err (InternalError "Failed to create collection"), e)
  | Some d =>
      match kv_write [Put COLLECTION_TYPE_KEY type_] d with
      | None => Some (Err (InternalError "Failed to set collection type"), set_families (<[n := d]> (families e)) e)
      | Some d' => Some (Ok tt, set_families (<[n := d']> (families e)) e)
      end
  end.
Definition db_create_collection (db coll : string) (collection_type : option string) : M (result DbError unit) :=
  let cf_name := collection_cf_name db coll in
  let type_ := default "document" collection_type in
  cf ← cf_handle cf_name;
  match cf with
  | Some _ => mret (Err (CollectionAlreadyExists coll))
  | None => create_family cf_name type_
  end.

Definition cache_of (db : string) (e : Engine) : gmap string nat := default ∅ (databases e !! db).
Definition set_cache (db : string) (m : gmap string nat) (e : Engine) : Engine :=
  set_databases (<[db := m]> (databases e)) e.
Definition drop_family (n : string) : M (result DbError unit) := λ e,
  if cf_drop n then Some (Ok tt, set_families (base.delete n (families e)) e)
  else Some (Err (InternalError "Failed to delete collection"), e).
Definition db_delete_collection (db coll : string) : M (result DbError unit) :=
  let cf_name := collection_cf_name db coll in
  cf ← cf_handle cf_name;
  match cf with
  | None => mret (Err (CollectionNotFound coll))
  | Some _ =>
      r ← drop_family cf_name;
      match r with
      | Err e => mret (Err e)
      | Ok _ => modify (λ e, set_cache db (base.delete coll (cache_of db e)) e) ≫= λ _, mret (Ok tt)
      end
  end.

Definition strip_prefix (p s : string) : option string :=
  if starts_with p s then Some (String.substring (String.length p) (String.length s - String.length p) s) else None.
Definition db_list_collections (db : string) : M (list string) :=
  gets (λ e, omap (strip_prefix (db +:+ ":")) (list_cf (dom (families e)))).

Definition db_get_collection (db coll : string) : M (result DbError nat) :=
  cache ← gets (cache_of db);
  match cache !! coll with
  | Some id => mret (Ok id)
  | None =>
      let cf_name := collection_cf_name db coll in
      cf ← cf_handle cf_name;
      match cf with
      | None => mret (Err (CollectionNotFound coll))
      | Some _ =>
          id ← open_handle cf_name;
          modify (λ e, set_cache db (<[coll := id]> (cache_of db e)) e) ≫= λ _, mret (Ok id)
      end
  end.
Definition db_get_or_create_collection (db coll : string) : M (result DbError nat) :=
  r ← db_get_collection db coll;
  match r with
  | Ok id => mret (Ok id)
  | Err (CollectionNotFound _) =>
      c ← db_create_collection db coll None;
      match c with Ok _ => db_get_collection db coll | Err e => mret (Err e) end
  | Err e => mret (Err e)
  end.

(** ** The engine (src/storage/engine.rs) *)

Definition DB_KEY : string := "db:".
Definition listed (e : Engine) : list string :=
  match families e !! META_CF with
  | None => []
  | Some d => omap (λ p, strip_prefix DB_KEY p.1) (kv_from DB_KEY d)
  end.
Definition list_databases : M (list string) := gets listed.
Definition contains_colon (s : string) : bool := negb (no_colon s).

(** A write to the column family of the databases, which is expected to exist. *)
Definition meta_write (msg : string) (op : write_op) : M (result DbError unit) := λ e,
  match families e !! META_CF with
  | None => None
  | Some d =>
      match kv_write [op] d with
      | None => Some (Err (InternalError msg), e)
      | Some d' => Some (Ok tt, set_families (<[META_CF := d']> (families e)) e)
      end
  end.
Definition create_database (n : string) : M (result DbError unit) :=
  if String.eqb n "" || contains_colon n then mret (Err (InvalidDocument "Invalid database name"))
  else
    existing_dbs ← list_databases;
    if bool_decide (n ∈ existing_dbs)
    then mret (Err (CollectionAlreadyExists ("Database '" +:+ (n +:+ "' already exists"))))
    else meta_write "Failed to create database" (Put (DB_KEY +:+ n) "1").
Definition get_database (n : string) : M (result DbError unit) :=
  cached ← gets (λ e, databases e !! n);
  match cached with
  | Some _ => mret (Ok tt)
  | None =>
      dbs ← list_databases;
      if bool_decide (n ∈ dbs)
      then modify (λ e, set_databases (<[n := ∅]> (databases e)) e) ≫= λ _, mret (Ok tt)
      else mret (Err (CollectionNotFound ("Database '" +:+ (n +:+ "' not found"))))
  end.
Fixpoint delete_collections (db : string) (names : list string) : M (result DbError unit) :=
  match names with
  | [] => mret (Ok tt)
  | coll :: names' =>
      r ← db_delete_collection db coll;
      match r with Err e => mret (Err e) | Ok _ => delete_collections db names' end
  end.
Definition delete_database (n : string) : M (result DbError unit) :=
  if String.eqb n "_system" then mret (Err (InvalidDocument "Cannot delete _system database"))
  else
    d ← get_database n;
    match d with
    | Err e => mret (Err e)
    | Ok _ =>
        names ← db_list_collections n;
        r ← delete_collections n names;
        match r with
        | Err e => mret (Err e)
        | Ok _ =>
            w ← meta_write "Failed to delete database" (Del (DB_KEY +:+ n));
            match w with
            | Err e => mret (Err e)
            | Ok _ => modify (λ e, set_databases (base.delete n (databases e)) e) ≫= λ _, mret (Ok tt)
            end
        end
    end.

(** The collections of all databases, in the order they are visited. *)
Definition for_each_collection (f : nat → M unit) : M unit :=
  dbs ← list_databases;
  each (λ db,
    d ← get_database db;
    match d with
    | Err _ => mret tt
    | Ok _ =>
        colls ← db_list_collections db;
        each (λ coll,
          c ← db_get_collection db coll;
          match c with Err _ => mret tt | Ok id => f id end) colls
    end) dbs.
Definition recalculate_all_counts : M unit :=
  for_each_collection (λ id, try_handle 0%N id recount_documents ≫= λ _, mret tt).
Definition flush_stats (c : Collection) : unit * Collection :=
  if count_dirty c then
    let c' := mkCollection (name c) (collection_type c) (db c) (doc_count c) (chunk_count c) false
                (change_sender c) (vector_indexes c) in
    (tt, match kv_write [Put STATS_COUNT_KEY (dec (doc_count c))] (db c) with Some d => set_db d c' | None => c' end)
  else (tt, c).
Definition flush_all_stats : M unit := for_each_collection (λ id, try_handle tt id flush_stats).

Definition initialize : M (result DbError unit) :=
  dbs ← list_databases;
  r ← (if bool_decide ("_system" ∈ dbs) then mret (Ok tt) else create_database "_system");
  match r with
  | Err e => mret (Err e)
  | Ok _ =>
      s ← get_database "_system";
      match s with
      | Err _ => mret tt
      | Ok _ =>
          c ← db_get_collection "_system" "_config";
          match c with
          | Ok _ => mret tt
          | Err _ => db_create_collection "_system" "_config" None ≫= λ _, mret tt
          end
      end ≫= λ _,
      recalculate_all_counts ≫= λ _, mret (Ok tt)
  end.

(** The collections by the name of their column family, without a database. *)
Definition create_collection (n : string) (collection_type : option string) : M (result DbError unit) :=
  cf ← cf_handle n;
  match cf with
  | Some _ => mret (Err (CollectionAlreadyExists n))
  | None => create_family n (default "document" collection_type)
  end.
Definition get_collection (n : string) : M (result DbError nat) :=
  cached ← gets (λ e, collections e !! n);
  match cached with
  | Some id => mret (Ok id)
  | None =>
      exact ← gets (has_cf n);
      system ← gets (has_cf ("_system:" +:+ n));
      let found := if exact : bool then Some n else if system : bool then Some ("_system:" +:+ n) else None in
      match found with
      | None => mret (Err (CollectionNotFound n))
      | Some actual_name =>
          id ← open_handle actual_name;
          modify (λ e, set_collections (<[n := id]> (collections e)) e) ≫= λ _,
          (if String.eqb actual_name n then mret tt
           else modify (λ e, set_collections (<[actual_name := id]> (collections e)) e)) ≫= λ _,
          mret (Ok id)
      end
  end.
Definition delete_collection (n : string) : M (result DbError unit) :=
  cf ← cf_handle n;
  match cf with
  | None => mret (Err (CollectionNotFound n))
  | Some _ => drop_family n
  end.
Definition list_collections : M (list string) :=
  gets (λ e, List.filter (λ n, negb (String.eqb n "default") && negb (String.eqb n META_CF))
               (list_cf (dom (families e)))).

(** Opening the store: the families that are there, with the default one and the one of the
    databases created when they are missing. *)
Definition open_family (n : string) (fs : gmap string DB) : option (gmap string DB) :=
  match fs !! n with Some _ => Some fs | None => (λ d, <[n := d]> fs) <$> cf_create n end.
Definition open_engine (fs : gmap string DB) : result DbError Engine :=
  match open_family "default" fs ≫= open_family META_CF with
  | Some fs' => Ok (mkEngine fs' [] ∅ ∅)
  | None => Err (InternalError "Failed to open RocksDB")
  end.
End Engine.
End Databases.
