(* ===== verification/DatabasesProps.v ===== *)
(** * Properties of the storage engine

    What the databases and their collections keep through the operations of the engine: a cached
    handle always has its column family, so that no operation panics; and what each operation does
    to the documents of the collections. *)

From S2P Require Import Prelude Text Json Transaction Codec Kv Document Indexes Collection CollectionProps CollectionTx CollectionBatch CollectionBatchProps Databases.
Import Json Codec Document Serializer Indexes Collection CollectionProps CollectionBatch.
Import CollectionBatchProps.BatchProps Databases.

(** A store in which column families can be created and dropped. *)
Class FamiliesReliable (DB : Type) `{!KvStore DB} `{!Families DB} : Prop := {
  cf_create_ok n : is_Some (cf_create n);
  cf_drop_ok n : cf_drop n = true;
}.

Module DatabasesProps.

Section Props.
Context {Num : Type} `{!JsonNumber Num} `{!JsonText Num} `{!MetaJson Num} `{!DocumentJson Num}
  `{!DocCodec Num}.
Context `{hex_crate : !HexCrate} `{std_text : !StdText}.
Context {DB : Type} `{!KvStore DB} `{!KvLaws DB} `{!Families DB} `{!FamiliesLaws DB}.
Notation Engine := (Engine Num DB).
Notation M := (M Num DB).
Implicit Types (e : Engine) (n db coll k : string) (id : nat).

(** ** Names *)

Lemma strip_prefix_app p s : strip_prefix p (p +:+ s) = Some s.
Proof.
  unfold strip_prefix. rewrite starts_with_app, str_length_app.
  replace (String.length p + String.length s - String.length p) with (String.length s) by lia.
  by rewrite substring_app_r.
Qed.
Lemma strip_prefix_some p s r : strip_prefix p s = Some r ↔ s = p +:+ r.
Proof.
  split; [|intros ->; apply strip_prefix_app]. intros H. pose proof H as H'. unfold strip_prefix in H'.
  destruct (starts_with p s) eqn:E; [|done]. apply starts_with_split in E as [t ->].
  rewrite strip_prefix_app in H. by injection H as ->.
Qed.
Lemma listed_stored e n : n ∈ listed e ↔ ∃ d, families e !! META_CF = Some d ∧ is_Some (kv_get (DB_KEY +:+ n) d).
Proof.
  unfold listed. destruct (families e !! META_CF) as [d|]; [|split; [by intros ?%elem_of_nil|naive_solver]].
  rewrite list_elem_of_omap. split.
  - intros ([x v] & Hin & Hx). cbn [fst] in Hx. apply strip_prefix_some in Hx as ->.
    rewrite kv_from_view in Hin. apply list_elem_of_filter in Hin as [_ Hin].
    apply OMap.get_elem in Hin; [|apply kv_view_wf]. exists d. split; [done|]. rewrite kv_get_view. by eexists.
  - intros (d' & [= <-] & v & Hv). exists (DB_KEY +:+ n, v). split; [|apply strip_prefix_app].
    rewrite kv_from_view. apply list_elem_of_filter. split; [apply prefix_leb|].
    apply OMap.get_elem; [apply kv_view_wf|]. by rewrite <- kv_get_view.
Qed.
Lemma cf_name_inj db db' coll coll' : no_colon db = true → no_colon db' = true →
  collection_cf_name db coll = collection_cf_name db' coll' → db = db' ∧ coll = coll'.
Proof.
  intros H H' E. unfold collection_cf_name in E. change (":" +:+ coll) with (String ":" coll) in E.
  change (":" +:+ coll') with (String ":" coll') in E. by apply (separated_inj ":").
Qed.
Lemma cf_name_not_meta db coll : collection_cf_name db coll ≠ META_CF.
Proof.
  unfold collection_cf_name. intros E.
  assert (no_colon (db +:+ (":" +:+ coll)) = true) as H by by rewrite E.
  unfold no_colon in H. rewrite !str_all_app in H. apply andb_true_iff in H as [_ H]. by cbn in H.
Qed.

(** ** What the engine keeps *)

Definition type_of (d : DB) : string :=
  match kv_get COLLECTION_TYPE_KEY d with Some bytes => utf8_lossy bytes | None => "document" end.
(** Every cached handle of a database is on a column family that exists, its own, and the types of
    the collections, in the handle or, where there is none, in the store, satisfy [P]. *)
Record wf (P : string → Prop) e : Prop := {
  wf_meta : is_Some (families e !! META_CF);
  wf_names n : n ∈ listed e → no_colon n = true;
  wf_listed n : is_Some (databases e !! n) → n ∈ listed e;
  wf_cache db coll id : cache_of db e !! coll = Some id →
    is_Some (families e !! collection_cf_name db coll) ∧
    ∃ h, arena e !! id = Some h ∧ h_name h = collection_cf_name db coll ∧ P (h_type h);
  wf_fresh db coll d : no_colon db = true → families e !! collection_cf_name db coll = Some d →
    cache_of db e !! coll = None → P (type_of d);
}.
(** [T] are the databases with the names of their collections. *)
Record tree e (T : gmap string (gset string)) : Prop := {
  tr_dbs n : n ∈ listed e ↔ is_Some (T !! n);
  tr_colls db coll : no_colon db = true →
    is_Some (families e !! collection_cf_name db coll) ↔ ∃ s, T !! db = Some s ∧ coll ∈ s;
}.
Lemma cached_listed P e db coll id : wf P e → cache_of db e !! coll = Some id → db ∈ listed e.
Proof.
  intros Hw H. apply (wf_listed P e Hw). unfold cache_of in H. destruct (databases e !! db) as [m|]; [by eexists|].
  cbn in H. by rewrite lookup_empty in H.
Qed.

(** Where only the caches of the databases differ. *)
Lemma listed_families e e' : families e' = families e → listed e' = listed e.
Proof. intros H. unfold listed. by rewrite H. Qed.
Lemma tree_families e e' T : families e' = families e → tree e T → tree e' T.
Proof. intros H [H1 H2]. split; [by rewrite (listed_families _ _ H)|]. by rewrite H. Qed.

(** ** Reading *)

Lemma get_database_spec P n e : wf P e → ∃ r e', get_database n e = Some (r, e') ∧ wf P e' ∧
  families e' = families e ∧ arena e' = arena e ∧ (∀ db, cache_of db e' = cache_of db e) ∧
  match r with Ok _ => n ∈ listed e | Err _ => n ∉ listed e end.
Proof.
  intros Hw. unfold get_database, mbind, M_bind, gets, modify, mret, M_ret. cbn.
  destruct (databases e !! n) as [m|] eqn:Em.
  { exists (Ok tt), e. split_and!; try done. apply (wf_listed P e Hw). by eexists. }
  case_bool_decide as Hl; [|by eexists _, e].
  assert (∀ db, cache_of db (set_databases (<[n:=∅]> (databases e)) e) = cache_of db e) as Hc.
  { intros db. unfold cache_of. cbn. rewrite lookup_insert. case_decide; [subst; by rewrite Em|done]. }
  eexists _, _. split; [done|]. split_and!; try done. destruct Hw as [H1 H2 H3 H4 H5]. split; try done.
  - intros n'. cbn. rewrite lookup_insert. change (listed (set_databases _ e)) with (listed e).
    case_decide; [by subst|apply H3].
  - intros db coll id. rewrite Hc. apply H4.
  - intros db coll d. rewrite Hc. apply H5.
Qed.
Lemma db_get_collection_spec P db coll e : wf P e → db ∈ listed e → ∃ r e', db_get_collection db coll e = Some (r, e') ∧
  wf P e' ∧ families e' = families e ∧
  match r with
  | Ok id => is_Some (families e !! collection_cf_name db coll) ∧ cache_of db e' !! coll = Some id
  | Err _ => families e !! collection_cf_name db coll = None
  end.
Proof.
  intros Hw Hl. unfold db_get_collection, mbind, M_bind, gets, modify, mret, M_ret, cf_handle, open_handle. cbn.
  destruct (cache_of db e !! coll) as [id|] eqn:Ec.
  { exists (Ok id), e. split_and!; try done. by apply (wf_cache P e Hw) in Ec as [? _]. }
  pose proof (wf_names P e Hw _ Hl) as Hnc.
  destruct (families e !! collection_cf_name db coll) as [d|] eqn:Ed; [|by eexists _, e].
  set (e1 := set_arena _ e). set (e2 := set_cache _ _ e1).
  assert (∀ db', cache_of db' e2 = if decide (db' = db) then <[coll := length (arena e)]> (cache_of db e) else cache_of db' e) as Hc.
  { intros db'. unfold e2, cache_of, set_cache. cbn. rewrite lookup_insert. by repeat case_decide; subst. }
  assert (h_type (Num:=Num) (new_handle (collection_cf_name db coll) (Some d)) = type_of d) as Ht by done.
  eexists _, e2. split; [done|]. split_and!; try done.
  - destruct Hw as [H1 H2 H3 H4 H5]. split; try done.
    + intros n. unfold e2. cbn. rewrite lookup_insert. case_decide; [subst; by intros _|apply H3].
    + intros db' coll' id. rewrite Hc.
      assert (∀ i h, arena e !! i = Some h → arena e2 !! i = Some h) as Ha.
      { intros i h Hi. cbn. rewrite lookup_app_l; [done|by eapply lookup_lt_Some]. }
      case_decide as Hd; [subst db'; rewrite lookup_insert; case_decide as Hd'; [subst coll'|]|].
      * intros [= <-]. split; [cbn; by rewrite Ed|]. eexists. split_and!.
        -- cbn. by rewrite lookup_app_r, Nat.sub_diag by lia.
        -- by rewrite Ed.
        -- rewrite Ed, Ht. by apply (H5 db coll).
      * intros (Hf & h & Hh & ?)%H4. split; [done|]. exists h. split; [by apply Ha|done].
      * intros (Hf & h & Hh & ?)%H4. split; [done|]. exists h. split; [by apply Ha|done].
    + intros db' coll' d' Hn' Hf'. rewrite Hc. case_decide; [subst db'; rewrite lookup_insert; case_decide; [done|]|]; by apply H5.
  - rewrite Hc, decide_True by done. by rewrite lookup_insert_eq.
Qed.

(** ** Writing *)

Context `{!KvReliable DB} `{!FamiliesReliable DB}.

(** One column family of a collection replaced by another that [wf] and [tree] can tell apart only
    by its type. *)
Lemma listed_insert e n d : n ≠ META_CF → listed (set_families (<[n := d]> (families e)) e) = listed e.
Proof. intros Hn. unfold listed. cbn. by rewrite lookup_insert_ne by congruence. Qed.

(** The entry of a database written or deleted. *)
Lemma meta_write_spec msg n op e : is_Some (families e !! META_CF) → op = Put (DB_KEY +:+ n) "1" ∨ op = Del (DB_KEY +:+ n) →
  ∃ d, meta_write msg op e = Some (Ok tt, set_families (<[META_CF := d]> (families e)) e) ∧
    ∀ x, x ∈ listed (set_families (<[META_CF := d]> (families e)) e) ↔
         if decide (x = n) then op = Put (DB_KEY +:+ n) "1" else x ∈ listed e.
Proof.
  intros [d Hd] Hop. unfold meta_write. rewrite Hd. destruct (kv_write_ok [op] d) as [d' Hd']. rewrite Hd'.
  exists d'. split; [done|]. intros x. rewrite listed_stored. cbn [families set_families]. rewrite lookup_insert_eq.
  assert (kv_get (DB_KEY +:+ x) d' = if decide (x = n) then match op with Put _ _ => Some "1" | Del _ => None end
                                     else kv_get (DB_KEY +:+ x) d) as Hg.
  { rewrite (kv_get_write _ _ _ _ Hd'). cbn [foldl]. destruct Hop as [-> | ->]; cbn [write_key];
      (destruct (decide (x = n)) as [->|Hx]; [by rewrite decide_True|]);
      by rewrite decide_False by (intros ?%str_app_inj_l; congruence). }
  case_decide.
  - split; [intros (d1 & [= <-] & [v Hv])|intros ->; exists d'; rewrite Hg; split; [done|by eexists]].
    rewrite Hg in Hv. by destruct Hop as [-> | ->].
  - rewrite listed_stored, Hd. split; intros (d1 & [= <-] & Hs); eexists; (split; [done|]); [by rewrite Hg in Hs|by rewrite Hg].
Qed.
Lemma create_database_spec P n e T : wf P e → tree e T →
  ∃ r e', create_database n e = Some (r, e') ∧ wf P e' ∧
    (∀ db coll, families e' !! collection_cf_name db coll = families e !! collection_cf_name db coll) ∧
    (is_ok r = true ↔ n ≠ "" ∧ no_colon n = true ∧ T !! n = None) ∧
    tree e' (if is_ok r then <[n := default ∅ (T !! n)]> T else T) ∧
    (no_colon n = true → n ≠ "" → n ∈ listed e') ∧ arena e' = arena e ∧ databases e' = databases e.
Proof.
  intros Hw Ht. unfold create_database, mbind, M_bind, gets, mret, M_ret, contains_colon.
  destruct (String.eqb_spec n "") as [->|Hne]; cbn [orb].
  { eexists _, e. split; [done|]. split_and!; try done; naive_solver. }
  destruct (no_colon n) eqn:Hnc; cbn [negb].
  2: { eexists _, e. split; [done|]. split_and!; try done; naive_solver. }
  unfold list_databases, gets. case_bool_decide as Hl.
  { eexists _, e. split; [done|]. split_and!; try done. cbn [is_ok]. apply (tr_dbs e T Ht) in Hl as [s Hs]. naive_solver. }
  destruct (meta_write_spec "Failed to create database" n (Put (DB_KEY +:+ n) "1") e (wf_meta P e Hw)) as (d' & -> & Hlist); [by left|].
  set (e' := set_families _ e) in *.
  assert (∀ db coll, families e' !! collection_cf_name db coll = families e !! collection_cf_name db coll) as Hf.
  { intros db coll. cbn. rewrite lookup_insert_ne; [done|]. intros E. by apply (cf_name_not_meta db coll). }
  assert (T !! n = None) as HT.
  { destruct (T !! n) as [s|] eqn:E; [|done]. destruct Hl. apply (tr_dbs e T Ht). by eexists. }
  eexists _, e'. split; [done|]. split_and!; try done; cbn [is_ok].
  - destruct Hw as [H1 H2 H3 H4 H5]. split.
    + cbn. rewrite lookup_insert_eq. by eexists.
    + intros x. rewrite Hlist. case_decide; [by subst|apply H2].
    + intros x Hx. apply Hlist. case_decide; [done|by apply H3].
    + intros db coll id Hc. rewrite Hf. by apply H4.
    + intros db coll d1 Hn1. rewrite Hf. by apply H5.
  - destruct Ht as [H1 H2]. split.
    + intros x. rewrite Hlist, lookup_insert. repeat case_decide; subst; try done.
    + intros db coll Hdb. rewrite Hf, H2, lookup_insert, HT by done. cbn [default]. case_decide as E; [|done]. subst.
      rewrite HT. set_solver.
  - intros _ _. apply Hlist. by rewrite decide_True.
Qed.
Lemma db_create_collection_spec P db coll t e T : wf P e → tree e T → db ∈ listed e →
  P (utf8_lossy (default "document" t)) →
  ∃ r e', db_create_collection db coll t e = Some (r, e') ∧ wf P e' ∧
    (is_ok r = true ↔ families e !! collection_cf_name db coll = None) ∧
    tree e' (if is_ok r then <[db := {[coll]} ∪ default ∅ (T !! db)]> T else T) ∧
    arena e' = arena e ∧ databases e' = databases e ∧
    if is_ok r then ∃ d, families e' = <[collection_cf_name db coll := d]> (families e) ∧
                         ∀ k, kv_get k d = if decide (k = COLLECTION_TYPE_KEY) then Some (default "document" t) else None
    else e' = e.
Proof.
  intros Hw Ht Hl HP. pose proof (wf_names P e Hw _ Hl) as Hnc.
  unfold db_create_collection, mbind, M_bind, cf_handle, gets, mret, M_ret. cbn zeta.
  destruct (families e !! collection_cf_name db coll) as [d0|] eqn:Ed.
  { eexists _, e. split; [done|]. by split_and!. }
  unfold create_family. destruct (cf_create_ok (collection_cf_name db coll)) as [d Hd]. rewrite Hd.
  destruct (kv_write_ok [Put COLLECTION_TYPE_KEY (default "document" t)] d) as [d' Hd']. rewrite Hd'.
  assert (∀ k, kv_get k d' = if decide (k = COLLECTION_TYPE_KEY) then Some (default "document" t) else None) as Hg.
  { intros k. rewrite (kv_get_write _ _ _ _ Hd'). cbn [foldl write_key].
    rewrite kv_get_view, (cf_create_empty _ _ Hd). cbn [OMap.get]. by repeat case_decide. }
  set (e' := set_families _ e). assert (listed e' = listed e) as Hli.
  { apply listed_insert. apply cf_name_not_meta. }
  eexists _, e'. split; [done|]. split_and!; try done; cbn [is_ok].
  - destruct Hw as [H1 H2 H3 H4 H5]. split; try (rewrite Hli; done).
    + cbn. rewrite lookup_insert_ne; [done|]. apply cf_name_not_meta.
    + intros db' coll' id Hc. destruct (H4 _ _ _ Hc) as [Hf Hh]. split; [|done].
      cbn. rewrite lookup_insert. by case_decide.
    + intros db' coll' d1 Hn'. cbn. rewrite lookup_insert. case_decide as E; [|by apply H5].
      intros [= <-] _. unfold type_of. by rewrite Hg, decide_True.
  - destruct Ht as [H1 H2]. split.
    + intros x. rewrite Hli, H1, lookup_insert. case_decide; [|done]. subst. split; [by eexists|intros _; by apply H1].
    + intros db' coll' Hn'. cbn. rewrite !lookup_insert. apply H1 in Hl as [s Hs]. rewrite Hs. cbn [default].
      case_decide as E.
      * destruct (cf_name_inj _ _ _ _ Hnc Hn' E) as [-> ->]. rewrite decide_True by done. split; [|by eexists].
        intros _. eexists. split; [done|]. set_solver.
      * rewrite H2 by done. case_decide as E'; [|done]. subst. rewrite Hs. split; intros (s' & [= <-] & Hin); eexists; (split; [done|]).
        -- set_solver.
        -- apply elem_of_union in Hin as [->%elem_of_singleton|?]; [by destruct E|done].
  - exists d'. by split.
Qed.
(** A method of a collection that keeps its name and type, on the handle of the database. *)
Definition keeps_name {A} (f : Collection Num DB → A * Collection Num DB) : Prop :=
  ∀ c, name (f c).2 = name c ∧ collection_type (f c).2 = collection_type c.
Lemma on_handle_spec {A} P db coll id (f : Collection Num DB → A * Collection Num DB) e T :
  wf P e → tree e T → cache_of db e !! coll = Some id → keeps_name f →
  ∃ d h e', families e !! collection_cf_name db coll = Some d ∧ arena e !! id = Some h ∧ P (h_type h) ∧
    h_name h = collection_cf_name db coll ∧
    on_handle id f e = Some ((f (attach d h)).1, e') ∧ wf P e' ∧ tree e' T ∧ databases e' = databases e ∧
    arena e' = <[id := detach (f (attach d h)).2]> (arena e) ∧
    families e' = <[collection_cf_name db coll := Collection.db (f (attach d h)).2]> (families e).
Proof.
  intros Hw Ht Hc Hf. pose proof (wf_names P e Hw _ (cached_listed _ _ _ _ _ Hw Hc)) as Hnc.
  destruct (wf_cache P e Hw _ _ _ Hc) as ([d Hd] & h & Hh & Hn & HP). exists d, h.
  unfold on_handle. rewrite Hh, Hn, Hd. destruct (Hf (attach d h)) as [Hn' Ht'].
  destruct (f (attach d h)) as [a c'] eqn:Ef. cbn [fst snd] in *.
  set (e' := set_families _ _). exists e'. assert (listed e' = listed e) as Hli.
  { unfold listed. cbn. by rewrite lookup_insert_ne by apply cf_name_not_meta. }
  split_and!; try done.
  - destruct Hw as [H1 H2 H3 H4 H5]. split; try (rewrite Hli; done).
    + cbn. rewrite lookup_insert_ne; [done|]. apply cf_name_not_meta.
    + intros db' coll' id' Hc'. destruct (H4 _ _ _ Hc') as ([d1 Hd1] & h' & Hh' & Hn1 & HP1). split.
      { cbn. rewrite lookup_insert. case_decide; by eexists. }
      destruct (decide (id' = id)) as [->|Hne].
      * rewrite Hh in Hh'. injection Hh' as <-. exists (detach c'). split_and!.
        -- cbn. rewrite list_lookup_insert_eq; [done|]. by eapply lookup_lt_Some.
        -- cbn. by rewrite Hn'.
        -- cbn. by rewrite Ht'.
      * exists h'. split_and!; try done. cbn. by rewrite list_lookup_insert_ne by done.
    + intros db' coll' d1 Hn1. cbn. rewrite lookup_insert. case_decide as E; [|by apply H5].
      destruct (cf_name_inj _ _ _ _ Hnc Hn1 E) as [<- <-]. intros _ Hc'. change (cache_of db e' !! coll) with (cache_of db e !! coll) in Hc'.
      congruence.
  - destruct Ht as [H1 H2]. split; [by rewrite Hli|]. intros db' coll' Hn1. rewrite <- H2 by done.
    cbn. rewrite lookup_insert. case_decide as E; [|done]. rewrite <- E, Hd. split; by eexists.
Qed.

(** Databases with collections removed. *)
Definition without (db coll : string) (T : gmap string (gset string)) : gmap string (gset string) :=
  <[db := default ∅ (T !! db) ∖ {[coll]}]> T.
Lemma listed_delete e n : n ≠ META_CF → listed (set_families (base.delete n (families e)) e) = listed e.
Proof. intros Hn. unfold listed. cbn. by rewrite lookup_delete_ne by congruence. Qed.
Lemma db_delete_collection_spec P db coll e T : wf P e → tree e T → db ∈ listed e →
  ∃ r e', db_delete_collection db coll e = Some (r, e') ∧ wf P e' ∧ listed e' = listed e ∧
    (is_ok r = true ↔ is_Some (families e !! collection_cf_name db coll)) ∧
    families e' = base.delete (collection_cf_name db coll) (families e) ∧
    (is_Some (databases e !! db) → is_Some (databases e' !! db)) ∧ tree e' (without db coll T).
Proof.
  intros Hw Ht Hl. pose proof (wf_names P e Hw _ Hl) as Hnc.
  unfold db_delete_collection, mbind, M_bind, cf_handle, gets, modify, mret, M_ret. cbn zeta.
  assert (∀ e', families e' = base.delete (collection_cf_name db coll) (families e) → tree e' (without db coll T)) as Htree.
  { intros e' He'. assert (listed e' = listed e) as Hli.
    { unfold listed. rewrite He'. by rewrite lookup_delete_ne by apply cf_name_not_meta. }
    destruct Ht as [H1 H2]. apply H1 in Hl as [s Hs]. unfold without. rewrite Hs. cbn [default]. split.
    - intros n. rewrite Hli, H1, lookup_insert. case_decide; [subst; rewrite Hs; split; by eexists|done].
    - intros db' coll' Hn'. rewrite He', lookup_delete, lookup_insert. case_decide as E.
      + destruct (cf_name_inj _ _ _ _ Hnc Hn' E) as [-> ->]. rewrite decide_True by done.
        split; [intros [? ?]; done|intros (s' & [= <-] & ?); set_solver].
      + rewrite H2 by done. case_decide as E'; [|done]. subst. rewrite Hs.
        assert (coll' ≠ coll) by congruence. split; intros (s' & [= <-] & ?); eexists; (split; [done|]); set_solver. }
  destruct (families e !! collection_cf_name db coll) as [d|] eqn:Ed.
  2: { assert (families e = base.delete (collection_cf_name db coll) (families e)) as Hdel by by rewrite delete_id.
       eexists _, e. split; [done|]. split_and!; try done. by apply Htree. }
  unfold drop_family. rewrite cf_drop_ok. set (e' := set_cache _ _ _).
  assert (listed e' = listed e) as Hli by (apply listed_delete, cf_name_not_meta).
  assert (∀ db', cache_of db' e' = if decide (db' = db) then base.delete coll (cache_of db e) else cache_of db' e) as Hc.
  { intros db'. unfold e', cache_of, set_cache. cbn. rewrite lookup_insert. by repeat case_decide; subst. }
  eexists _, e'. split; [done|]. split_and!; try done.
  - destruct Hw as [H1 H2 H3 H4 H5]. split; try (rewrite Hli; done).
    + cbn. by rewrite lookup_delete_ne by apply cf_name_not_meta.
    + intros n. rewrite Hli. cbn. rewrite lookup_insert. case_decide; [subst; by intros _|apply H3].
    + intros db' coll' id Hcc. rewrite Hc in Hcc.
      assert (cache_of db' e !! coll' = Some id ∧ (db', coll') ≠ (db, coll)) as [Hcc' Hne].
      { case_decide; [subst|split; [done|congruence]]. apply lookup_delete_Some in Hcc as [? ?]. split; [done|congruence]. }
      destruct (H4 _ _ _ Hcc') as [Hf Hh]. split; [|done].
      assert (no_colon db' = true) by by eapply H2, cached_listed.
      cbn. rewrite lookup_delete_ne; [done|]. intros E. destruct (cf_name_inj _ _ _ _ Hnc ltac:(done) E). congruence.
    + intros db' coll' d1 Hn1. cbn. rewrite lookup_delete. case_decide as E; [done|]. intros Hd1. rewrite Hc.
      case_decide; [subst; rewrite lookup_delete_ne by congruence|]; by apply H5.
  - intros _. cbn. rewrite lookup_insert_eq. by eexists.
  - by apply Htree.
Qed.
Lemma delete_collections_spec P db names e T : wf P e → tree e T → db ∈ listed e → NoDup names →
  (∀ coll, coll ∈ names → is_Some (families e !! collection_cf_name db coll)) →
  ∃ e', delete_collections db names e = Some (Ok tt, e') ∧ wf P e' ∧ listed e' = listed e ∧
    tree e' (foldl (λ T coll, without db coll T) T names) ∧
    families e' = foldl (λ m coll, base.delete (collection_cf_name db coll) m) (families e) names.
Proof.
  intros Hw Ht Hl Hnd Hf. pose proof (wf_names P e Hw _ Hl) as Hnc. revert e T Hw Ht Hl Hf.
  induction Hnd as [|coll names Hnin _ IH]; intros e T Hw Ht Hl Hf; [by exists e|]. cbn.
  destruct (db_delete_collection_spec P db coll e T Hw Ht Hl) as (r & e1 & Hr & Hw1 & Hli & Hok & Hfam & _ & Ht1).
  assert (r = Ok tt) as ->.
  { destruct r as [[]|err]; [done|]. assert (is_ok (Err (A:=unit) err) = true) by (apply Hok, Hf; left). done. }
  destruct (IH e1 (without db coll T)) as (e2 & H2 & Hw2 & Hl2 & Ht2 & Hf2); try done.
  - by rewrite Hli.
  - intros coll' Hin. rewrite Hfam, lookup_delete_ne; [apply Hf; by right|].
    intros E. destruct (cf_name_inj _ _ _ _ Hnc Hnc E) as [_ <-]. done.
  - exists e2. unfold mbind, M_bind. rewrite Hr. split_and!; [done..|congruence|done|]. by rewrite Hf2, Hfam.
Qed.
Lemma list_collections_spec db e : ∃ l, db_list_collections db e = Some (l, e) ∧ NoDup l ∧
  ∀ coll, coll ∈ l ↔ is_Some (families e !! collection_cf_name db coll).
Proof.
  eexists. split; [done|]. assert (∀ p s r, strip_prefix p s = Some r → s = p +:+ r) as Hs by (intros; by apply strip_prefix_some).
  split.
  - rewrite list_cf_perm. pose proof (NoDup_elements (dom (families e))) as Hnd.
    induction Hnd as [|x l Hx _ IH]; [constructor|]. cbn.
    destruct (strip_prefix (db +:+ ":") x) as [r|] eqn:E; [|done]. constructor; [|done].
    rewrite list_elem_of_omap. intros (y & Hy & Hr). apply Hs in E, Hr. congruence.
  - intros coll. rewrite list_elem_of_omap. unfold collection_cf_name. split.
    + intros (x & Hx & Hr). apply Hs in Hr as ->. rewrite list_cf_perm, elem_of_elements, elem_of_dom in Hx.
      by rewrite <- str_app_assoc.
    + intros H. exists ((db +:+ ":") +:+ coll). split; [|apply strip_prefix_app].
      rewrite list_cf_perm, elem_of_elements, elem_of_dom. by rewrite str_app_assoc.
Qed.
Lemma without_all db names T : is_Some (T !! db) →
  foldl (λ T coll, without db coll T) T names = <[db := default ∅ (T !! db) ∖ list_to_set names]> T.
Proof.
  revert T. induction names as [|coll names IH]; intros T [s Hs]; cbn [foldl list_to_set list_fmap].
  - rewrite Hs. cbn. rewrite difference_empty_L. by rewrite insert_id.
  - unfold without at 2. rewrite IH by (rewrite lookup_insert_eq; by eexists). rewrite lookup_insert_eq, Hs. cbn.
    rewrite insert_insert_eq. f_equal. set_solver.
Qed.
Lemma deleted_families db names (m : gmap string DB) n :
  foldl (λ m coll, base.delete (collection_cf_name db coll) m) m names !! n =
  if decide (n ∈ collection_cf_name db <$> names) then None else m !! n.
Proof.
  revert m. induction names as [|coll names IH]; intros m; cbn [foldl].
  { rewrite decide_False; [done|]. by intros ?%elem_of_nil. }
  rewrite IH, lookup_delete. cbn [fmap list_fmap]. repeat case_decide; set_solver.
Qed.
(** The database itself removed, after its collections. *)
Lemma drop_database_wf P n d e s T : wf P e →
  let e1 := set_families (<[META_CF := d]> (families e)) e in
  let e' := set_databases (base.delete n (databases e1)) e1 in
  (∀ x, x ∈ listed e1 ↔ if decide (x = n) then Del (DB_KEY +:+ n) = Put (DB_KEY +:+ n) "1" else x ∈ listed e) →
  (∀ coll, families e !! collection_cf_name n coll = None) →
  tree e (<[n := s]> T) → wf P e' ∧ tree e' (base.delete n T).
Proof.
  intros [H1 H2 H3 H4 H5] e1 e' Hlist Hgone [T1 T2].
  assert (∀ db coll, families e' !! collection_cf_name db coll = families e !! collection_cf_name db coll) as Hf.
  { intros db coll. cbn. rewrite lookup_insert_ne; [done|]. intros E. by apply (cf_name_not_meta db coll). }
  assert (∀ db, cache_of db e' = if decide (db = n) then ∅ else cache_of db e) as Hc.
  { intros db. unfold cache_of, e'. cbn. rewrite lookup_delete. by repeat case_decide. }
  change (listed e1) with (listed e') in Hlist. split; split.
  - cbn. rewrite lookup_insert_eq. by eexists.
  - intros x. rewrite Hlist. case_decide; [done|apply H2].
  - intros x. cbn. rewrite lookup_delete_is_Some. intros [Hx Hx2]. apply Hlist. rewrite decide_False by done. by apply H3.
  - intros db coll id. rewrite Hc. case_decide; [by rewrite lookup_empty|]. rewrite Hf. apply H4.
  - intros db coll d1 Hn1. rewrite Hc, Hf. case_decide; [subst; by rewrite Hgone|]. by apply H5.
  - intros x. rewrite Hlist, lookup_delete. case_decide; subst.
    + rewrite decide_True by done. split; [done|by intros [? ?]].
    + rewrite decide_False by done. rewrite T1. by rewrite lookup_insert_ne.
  - intros db coll Hn1. rewrite Hf, lookup_delete. case_decide.
    { subst. rewrite Hgone. split; [by intros [? ?]|naive_solver]. }
    rewrite T2 by done. by rewrite lookup_insert_ne.
Qed.
Lemma delete_database_spec P n e T : wf P e → tree e T →
  ∃ r e', delete_database n e = Some (r, e') ∧ wf P e' ∧
    (is_ok r = true ↔ n ≠ "_system" ∧ is_Some (T !! n)) ∧ tree e' (if is_ok r then base.delete n T else T) ∧
    ∀ cf, cf ≠ META_CF → (∀ coll, is_ok r = true → cf ≠ collection_cf_name n coll) → families e' !! cf = families e !! cf.
Proof.
  intros Hw Ht. unfold delete_database.
  destruct (String.eqb_spec n "_system") as [->|Hsys]; [eexists _, e; split; [done|]; split_and!; naive_solver|].
  unfold mbind, M_bind at 1. destruct (get_database_spec P n e Hw) as (r & e1 & -> & Hw1 & Hf1 & _ & _ & Hr).
  pose proof (tree_families _ _ _ Hf1 Ht) as Ht1.
  assert (is_ok r = true ↔ is_Some (T !! n)) as Hok.
  { rewrite <- (tr_dbs e T Ht). destruct r; cbn; naive_solver. }
  destruct r as [[]|err].
  2: { eexists _, e1. split; [done|]. rewrite Hf1. cbn [is_ok] in *. split_and!; try done. naive_solver. }
  assert (n ∈ listed e1) as Hl by by rewrite (listed_families _ _ Hf1).
  pose proof (wf_names P e1 Hw1 _ Hl) as Hnc.
  unfold M_bind at 1. destruct (list_collections_spec n e1) as (names & -> & Hnd & Hnames).
  destruct (delete_collections_spec P n names e1 T) as (e2 & He2 & Hw2 & Hl2 & Ht2 & Hf2); try done.
  { intros coll. apply Hnames. }
  unfold M_bind at 1. rewrite He2. unfold M_bind at 1.
  destruct (meta_write_spec "Failed to delete database" n (Del (DB_KEY +:+ n)) e2 (wf_meta P e2 Hw2)) as (d' & -> & Hlist); [by right|].
  destruct (proj1 Hok eq_refl) as [s Hs].
  assert (∀ coll, families e2 !! collection_cf_name n coll = None) as Hgone.
  { intros coll. rewrite Hf2, deleted_families. case_decide as Hin; [done|].
    destruct (families e1 !! collection_cf_name n coll) eqn:E; [|done]. destruct Hin.
    apply list_elem_of_fmap. exists coll. split; [done|]. apply Hnames. rewrite E. by eexists. }
  rewrite without_all, Hs in Ht2 by by eexists.
  destruct (drop_database_wf P n d' e2 _ T Hw2 Hlist Hgone Ht2) as [Hw3 Ht3].
  eexists _, _. split; [done|]. split_and!; [done|cbn; naive_solver|done|].
  intros cf Hcf Hne. cbn. rewrite lookup_insert_ne, Hf2, deleted_families, Hf1 by congruence. rewrite decide_False; [done|].
  intros (coll & -> & _)%list_elem_of_fmap. by apply (Hne coll).
Qed.

(** ** The engine as a tree of names *)

Inductive Request :=
| CreateDatabase (n : string)
| DeleteDatabase (n : string)
| CreateCollection (db coll : string) (collection_type : option string)
| DeleteCollection (db coll : string)
| OnCollection (db coll : string) (f : Collection Num DB → unit * Collection Num DB).
Definition in_database {A} (db : string) (m : M (result DbError A)) : M (result DbError A) :=
  d ← get_database db;
  match d with Ok _ => m | Err err => mret (Err err) end.
Definition serve (r : Request) : M (result DbError unit) :=
  match r with
  | CreateDatabase n => create_database n
  | DeleteDatabase n => delete_database n
  | CreateCollection db coll t => in_database db (db_create_collection db coll t)
  | DeleteCollection db coll => in_database db (db_delete_collection db coll)
  | OnCollection db coll f =>
      in_database db (
        c ← db_get_collection db coll;
        match c with
        | Ok id => on_handle id f ≫= λ _, mret (Ok tt)
        | Err err => mret (Err err)
        end)
  end.
Definition in_tree (T : gmap string (gset string)) (db coll : string) : Prop := ∃ s, T !! db = Some s ∧ coll ∈ s.
(** When a request is served, the names after it, and the column families it may change. *)
Definition accepts (T : gmap string (gset string)) (r : Request) : Prop :=
  match r with
  | CreateDatabase n => n ≠ "" ∧ no_colon n = true ∧ T !! n = None
  | DeleteDatabase n => n ≠ "_system" ∧ is_Some (T !! n)
  | CreateCollection db coll _ => is_Some (T !! db) ∧ ¬ in_tree T db coll
  | DeleteCollection db coll => in_tree T db coll
  | OnCollection db coll _ => in_tree T db coll
  end.
Definition served (T : gmap string (gset string)) (r : Request) : gmap string (gset string) :=
  match r with
  | CreateDatabase n => <[n := ∅]> T
  | DeleteDatabase n => base.delete n T
  | CreateCollection db coll _ => <[db := {[coll]} ∪ default ∅ (T !! db)]> T
  | DeleteCollection db coll => without db coll T
  | OnCollection _ _ _ => T
  end.
Definition touches (r : Request) (cf : string) : Prop :=
  match r with
  | CreateDatabase _ => False
  | DeleteDatabase n => ∃ coll, cf = collection_cf_name n coll
  | CreateCollection db coll _ | DeleteCollection db coll | OnCollection db coll _ => cf = collection_cf_name db coll
  end.
Definition admissible (P : string → Prop) (r : Request) : Prop :=
  match r with
  | CreateCollection _ _ t => P (utf8_lossy (default "document" t))
  | OnCollection _ _ f => keeps_name f
  | _ => True
  end.
Lemma in_database_spec P db e T {A} (m : M (result DbError A)) : wf P e → tree e T →
  ∃ e1, wf P e1 ∧ tree e1 T ∧ families e1 = families e ∧
    match T !! db with
    | Some _ => db ∈ listed e1 ∧ no_colon db = true ∧ in_database db m e = m e1
    | None => ∃ err, in_database db m e = Some (Err err, e1)
    end.
Proof.
  intros Hw Ht. unfold in_database, mbind, M_bind.
  destruct (get_database_spec P db e Hw) as (r & e1 & -> & Hw1 & Hf1 & _ & _ & Hr). exists e1.
  pose proof (tr_dbs e T Ht db) as Hdb. split_and!; [done|by eapply tree_families|done|].
  destruct (T !! db) as [s|], r as [[]|err].
  - split_and!; [by rewrite (listed_families _ _ Hf1)|exact (wf_names P e Hw _ Hr)|done].
  - destruct Hr. apply Hdb. by eexists.
  - apply Hdb in Hr as [? ?]. done.
  - by exists err.
Qed.
(** The request is served as the tree says. *)
Definition serves_tree P r e T : Prop :=
  ∃ res e', serve r e = Some (res, e') ∧ wf P e' ∧ (is_ok res = true ↔ accepts T r) ∧
    tree e' (if is_ok res then served T r else T) ∧
    ∀ cf, cf ≠ META_CF → ¬ (accepts T r ∧ touches r cf) → families e' !! cf = families e !! cf.
Lemma missing_database P r e e1 T err : wf P e1 → tree e1 T → families e1 = families e → ¬ accepts T r →
  serve r e = Some (Err err, e1) → serves_tree P r e T.
Proof. intros Hw Ht Hf Hn Hs. eexists _, e1. split_and!; [done..| |done|by rewrite Hf]. cbn. by split. Qed.
Lemma serve_create_database P n e T : wf P e → tree e T → serves_tree P (CreateDatabase n) e T.
Proof.
  intros Hw Ht. destruct (create_database_spec P n e T Hw Ht) as (r & e' & Hr & Hw' & Hf & Hok & Ht' & _).
  exists r, e'. split_and!; [done..| |]; cbn [served].
  - destruct (is_ok r); [|done]. destruct (proj1 Hok eq_refl) as (_ & _ & E). by rewrite E in Ht'.
  - intros cf Hcf _. unfold create_database, mbind, M_bind in Hr.
    destruct (_ || _); [by injection Hr as _ <-|]. cbn in Hr. case_bool_decide; [by injection Hr as _ <-|].
    unfold meta_write in Hr. destruct (families e !! META_CF) as [d|]; [|done].
    destruct (kv_write _ d); injection Hr as _ <-; [|done]. cbn. by rewrite lookup_insert_ne by congruence.
Qed.
Lemma serve_create_collection P db coll t e T : wf P e → tree e T → P (utf8_lossy (default "document" t)) →
  serves_tree P (CreateCollection db coll t) e T.
Proof.
  intros Hw Ht Ha. destruct (in_database_spec P db e T (db_create_collection db coll t) Hw Ht) as (e1 & Hw1 & Ht1 & Hf1 & Hdb).
  destruct (T !! db) as [s|] eqn:Es.
  2: { destruct Hdb as [err Herr]. eapply missing_database; [done..| |done]. intros [[? ?] _]. congruence. }
  destruct Hdb as (Hl & Hnc & Hs).
  destruct (db_create_collection_spec P db coll t e1 T Hw1 Ht1 Hl Ha) as (r & e' & Hr & Hw' & Hok & Ht' & _ & _ & Hf').
  exists r, e'. pose proof (tr_colls e T Ht db coll Hnc) as Hc. rewrite Hf1 in Hok.
  assert (is_ok r = true ↔ accepts T (CreateCollection db coll t)) as Hacc.
  { rewrite Hok. cbn. unfold in_tree. rewrite <- Hc, eq_None_not_Some, Es. split; [intros ?; split; [by eexists|done]|by intros [_ ?]]. }
  split_and!; [cbn; by rewrite Hs|done..|]. intros cf Hcf Hn. rewrite <- Hf1. destruct (is_ok r); [|by rewrite Hf'].
  destruct Hf' as (d & -> & _). rewrite lookup_insert_ne; [done|]. intros <-. apply Hn. split; [by apply Hacc|done].
Qed.
Lemma serve_delete_collection P db coll e T : wf P e → tree e T → serves_tree P (DeleteCollection db coll) e T.
Proof.
  intros Hw Ht. destruct (in_database_spec P db e T (db_delete_collection db coll) Hw Ht) as (e1 & Hw1 & Ht1 & Hf1 & Hdb).
  destruct (T !! db) as [s|] eqn:Es.
  2: { destruct Hdb as [err Herr]. eapply missing_database; [done..| |done]. cbn. unfold in_tree. naive_solver. }
  destruct Hdb as (Hl & Hnc & Hs).
  destruct (db_delete_collection_spec P db coll e1 T Hw1 Ht1 Hl) as (r & e' & Hr & Hw' & _ & Hok & Hf' & _ & Ht').
  exists r, e'. pose proof (tr_colls e T Ht db coll Hnc) as Hc. rewrite Hf1 in Hok, Hf'.
  split_and!; [cbn; by rewrite Hs|done|by rewrite Hok, Hc| |].
  - destruct (is_ok r) eqn:Er; [done|]. replace T with (without db coll T); [done|].
    unfold without. rewrite Es. cbn. rewrite difference_disjoint_L; [by rewrite insert_id|].
    assert (coll ∉ s); [|set_solver]. intros Hin. assert (false = true); [|done]. apply Hok, Hc. eauto.
  - intros cf Hcf Hn. rewrite Hf', lookup_delete. case_decide as E; [|done]. subst.
    destruct (families e !! collection_cf_name db coll) eqn:E; [|done]. destruct Hn. split; [|done]. apply Hc. by eexists.
Qed.
Lemma serve_on_collection P db coll f e T : wf P e → tree e T → keeps_name f → serves_tree P (OnCollection db coll f) e T.
Proof.
  intros Hw Ht Ha. set (m := c ← db_get_collection db coll;
    match c with Ok id => on_handle id f ≫= λ _, mret (Ok tt) | Err err => mret (Err err) end).
  destruct (in_database_spec P db e T m Hw Ht) as (e1 & Hw1 & Ht1 & Hf1 & Hdb).
  destruct (T !! db) as [s|] eqn:Es.
  2: { destruct Hdb as [err Herr]. eapply missing_database; [done..| |done]. cbn. unfold in_tree. naive_solver. }
  destruct Hdb as (Hl & Hnc & Hs). pose proof (tr_colls e T Ht db coll Hnc) as Hc.
  destruct (db_get_collection_spec P db coll e1 Hw1 Hl) as (r & e2 & Hg & Hw2 & Hf2 & Hr).
  pose proof (tree_families _ _ _ Hf2 Ht1) as Ht2. rewrite Hf1 in Hf2, Hr.
  assert (serve (OnCollection db coll f) e = m e1) as Hs' by done. unfold m, mbind, M_bind in Hs'. rewrite Hg in Hs'. destruct r as [id|err].
  - destruct Hr as [Hsome Hcache].
    destruct (on_handle_spec P db coll id f e2 T Hw2 Ht2 Hcache Ha) as (d & h & e' & _ & _ & _ & _ & Ho & Hw' & Ht' & _ & _ & Hf').
    rewrite Ho in Hs'. eexists _, e'. split_and!; [done..| |done|].
    + cbn. split; [by intros _; apply Hc|done].
    + intros cf Hcf Hn. rewrite Hf', lookup_insert_ne; [by rewrite Hf2|]. intros <-. apply Hn. split; [by apply Hc|done].
  - eapply missing_database; [exact Hw2|done..| |done]. intros Hin%Hc. rewrite Hr in Hin. by destruct Hin.
Qed.
(** C18: The databases and collections are a tree of names: no request panics, whatever was cached, and
    each is served exactly when the tree allows it; it changes the tree as it says, and no other
    collection. *)
Theorem engine_refines_tree P r e T : wf P e → tree e T → admissible P r →
  ∃ res e', serve r e = Some (res, e') ∧ wf P e' ∧ (is_ok res = true ↔ accepts T r) ∧
    tree e' (if is_ok res then served T r else T) ∧
    ∀ cf, cf ≠ META_CF → ¬ (accepts T r ∧ touches r cf) → families e' !! cf = families e !! cf.
Proof.
  intros Hw Ht Ha. destruct r as [n|n|db coll t|db coll|db coll f].
  - by apply serve_create_database.
  - destruct (delete_database_spec P n e T Hw Ht) as (r & e' & Hr & Hw' & Hok & Ht' & Hf).
    exists r, e'. split_and!; [done..|]. intros cf Hcf Hn. apply Hf; [done|]. cbn in Hn. naive_solver.
  - by apply serve_create_collection.
  - by apply serve_delete_collection.
  - by apply serve_on_collection.
Qed.
End Props.
End DatabasesProps.

(** ** On a concrete store *)

Module DatabasesDemo.
Import DocumentDemo CollectionDemo DatabasesProps.

#[export] Instance demo_families : Families map_store := {
  cf_create _ := Some empty_store;
  cf_drop _ := true;
  list_cf := elements;
}.
#[export] Instance demo_families_laws : FamiliesLaws map_store.
Proof. split; [by intros n d [= <-]|done]. Qed.
#[export] Instance demo_families_reliable : FamiliesReliable map_store.
Proof. split; [by eexists|done]. Qed.

Notation DemoEngine := (Engine demo_number map_store).
(** A new engine, with the database and collection [db:c]. *)
Definition engine0 : DemoEngine := match open_engine ∅ with Ok e => e | Err _ => mkEngine ∅ [] ∅ ∅ end.
Definition opened : M demo_number map_store (result DbError nat) :=
  create_database "db" ≫= λ _, get_database "db" ≫= λ _, db_create_collection "db" "c" None ≫= λ _,
  db_get_collection "db" "c".

Lemma listed0 : listed engine0 = [].
Proof. vm_compute. reflexivity. Qed.
Lemma family0 db coll : families engine0 !! collection_cf_name db coll = None.
Proof.
  change (families engine0) with (<[META_CF := empty_store]> ({["default" := empty_store]} : gmap string map_store)).
  rewrite lookup_insert_ne, lookup_singleton_ne; [done| |apply not_eq_sym, cf_name_not_meta].
  intros E. assert (no_colon (collection_cf_name db coll) = true) as H by by rewrite <- E.
  unfold no_colon, collection_cf_name in H. rewrite !str_all_app in H. apply andb_true_iff in H as [_ H]. by cbn in H.
Qed.
Lemma engine0_wf P : wf P engine0.
Proof.
  split.
  - by eexists.
  - intros n. rewrite listed0. by intros ?%elem_of_nil.
  - by intros n [? ?].
  - intros db coll id. unfold cache_of. change (databases engine0) with (∅ : gmap string (gmap string nat)).
    rewrite lookup_empty. cbn. by rewrite lookup_empty.
  - intros db coll d _. by rewrite family0.
Qed.
Lemma engine0_tree : tree engine0 ∅.
Proof.
  split.
  - intros n. rewrite listed0, lookup_empty. split; [by intros ?%elem_of_nil|by intros [? ?]].
  - intros db coll _. rewrite family0. split; [by intros [? ?]|by intros (s & Hs & _)].
Qed.
Lemma engine_refines_tree_witness :
  ∃ res e', serve (CreateDatabase "db") engine0 = Some (res, e') ∧ res = Ok tt ∧ tree e' {["db" := ∅]}.
Proof.
  destruct (engine_refines_tree (λ _, True) (CreateDatabase "db") engine0 ∅ (engine0_wf _) engine0_tree I)
    as (res & e' & Hs & _ & Hok & Ht & _).
  assert (is_ok res = true) as E by (apply Hok; done).
  exists res, e'. destruct res as [[]|]; [|done]. split_and!; [exact Hs|done|exact Ht].
Defined.

(** A transaction is committed through a handle of the engine, which is another object than the
    one the database hands out: the document is stored, and the collection of the database still
    counts none. *)
Definition committed (ops : list (Transaction.Operation demo_number)) (c : Collection demo_number map_store) :
    bool * Collection demo_number map_store :=
  match CollectionTx.apply_transaction_operations ((λ op, (("r1", 1%Z), op)) <$> ops) c with
  | Ok c' => (true, c')
  | Err _ => (false, c)
  end.
Definition second_handle : M demo_number map_store (option (N * nat)) :=
  opened ≫= λ r1, get_collection "db:c" ≫= λ r2,
  match r1, r2 with
  | Ok id1, Ok id2 =>
      on_handle id2 (committed [Transaction.Insert "db" "c" "k1" (Object [("a", Null)])]) ≫= λ _,
      handle_count id1 ≫= λ n,
      on_handle id1 (λ c, (length (scan c None), c)) ≫= λ docs, mret (Some (n, docs))
  | _, _ => mret None
  end.
Example commit_not_counted : fst <$> second_handle engine0 = Some (Some (0%N, 1)).
Proof. vm_compute. reflexivity. Qed.
(** The engine keeps the handle of a collection that the database has dropped: the next use of it
    panics. *)
Definition stale_handle : M demo_number map_store N :=
  opened ≫= λ _, get_collection "db:c" ≫= λ _, db_delete_collection "db" "c" ≫= λ _,
  get_collection "db:c" ≫= λ r,
  match r with
  | Ok id => on_handle id (insert "g1" "r1" 1 doc1) ≫= λ _, mret 0%N
  | Err _ => mret 1%N
  end.
Example dropped_collection_panics : stale_handle engine0 = None.
Proof. vm_compute. reflexivity. Qed.
End DatabasesDemo.
