(* ===== verification/SyncState.v ===== *)
(** * The state of the replication (src/sync/state.rs, tombstone.rs)

    [SyncState]: the numbers of the entries a node has written, applied and sent, the heartbeats and
    the peers it knows, kept in two documents of the system database, whose collections are a
    [DocStore]. [Tombstones]: the deletions a node remembers, by collection, and their cleanup.
    Times are milliseconds; instants of the monotonic clock are arguments. *)

From S2P Require Import Prelude Text Json Transaction Document DocStore.
Import Json Document.

(** An ordered JSON object of a hash map. *)
Section JsonMap.
Context {Num A : Type} (f : A → Value Num).
Definition json_map (m : gmap string A) : list (string * Value Num) :=
  foldr (λ p acc, OMap.insert p.1 (f p.2) acc) [] (map_to_list m).
Lemma json_map_get m k : OMap.wf (json_map m) ∧ OMap.get k (json_map m) = f <$> m !! k.
Proof.
  unfold json_map. assert (∀ l, NoDup l.*1 → OMap.wf (foldr (λ p acc, OMap.insert p.1 (f p.2) acc) [] l) ∧
    OMap.get k (foldr (λ p acc, OMap.insert p.1 (f p.2) acc) [] l) = f <$> (list_to_map l : gmap string A) !! k) as H.
  { induction l as [|[k' x] l IH]; intros Hnd; [split; [apply OMap.wf_nil|done]|].
    cbn [foldr fst snd fmap list_fmap] in *. apply NoDup_cons in Hnd as [Hn Hnd]. destruct (IH Hnd) as [Hw Hg].
    split; [by apply OMap.wf_insert|]. rewrite OMap.get_insert, Hg by done. cbn [list_to_map foldr fst snd].
    rewrite lookup_insert. by case_decide. }
  rewrite <- (list_to_map_to_list m) at 3. apply H, NoDup_fst_map_to_list.
Qed.
End JsonMap.

Module SyncState.

(** [NodeStats]: the share of the processor as the bits of a float. *)
Record NodeStats := mkStats {
  cpu_usage : N; memory_used : N; disk_used : N; document_count : N; collections_count : N }.
Record PeerInfo := mkPeer {
  peer_id : string; sync_address : string; http_address : string; last_seen : N; is_connected : bool }.
Record SyncState := mkSync {
  node_id : string;
  local_sequence : N;
  origin_sequences : gmap string N;
  sent_sequences : gmap string N;
  last_heartbeat : gmap string N;
  node_stats : gmap string NodeStats;
  peers : gmap string PeerInfo;
}.
Definition set_local (n : N) (s : SyncState) : SyncState :=
  mkSync (node_id s) n (origin_sequences s) (sent_sequences s) (last_heartbeat s) (node_stats s) (peers s).
Definition set_origins (m : gmap string N) (s : SyncState) : SyncState :=
  mkSync (node_id s) (local_sequence s) m (sent_sequences s) (last_heartbeat s) (node_stats s) (peers s).
Definition set_sent (m : gmap string N) (s : SyncState) : SyncState :=
  mkSync (node_id s) (local_sequence s) (origin_sequences s) m (last_heartbeat s) (node_stats s) (peers s).
Definition set_peers (m : gmap string PeerInfo) (s : SyncState) : SyncState :=
  mkSync (node_id s) (local_sequence s) (origin_sequences s) (sent_sequences s) (last_heartbeat s) (node_stats s) m.

(** ** Sequences *)

Definition next_sequence (s : SyncState) : N * SyncState :=
  let seq := wrap64 (local_sequence s + 1) in (seq, set_local seq s).
Definition current_sequence (s : SyncState) : N := local_sequence s.
Definition get_origin_sequence (origin : string) (s : SyncState) : N := default 0%N (origin_sequences s !! origin).
Definition update_origin_sequence (origin : string) (seq : N) (s : SyncState) : SyncState :=
  let current := default 0%N (origin_sequences s !! origin) in
  if (current <? seq)%N then set_origins (<[origin := seq]> (origin_sequences s)) s else s.
Definition is_duplicate (origin : string) (origin_seq : N) (s : SyncState) : bool :=
  (origin_seq <=? default 0%N (origin_sequences s !! origin))%N.
Definition update_sent_sequence (peer : string) (seq : N) (s : SyncState) : SyncState :=
  set_sent (<[peer := seq]> (sent_sequences s)) s.
Definition get_sent_sequence (peer : string) (s : SyncState) : N := default 0%N (sent_sequences s !! peer).

(** ** Peers and heartbeats *)

Definition update_heartbeat (now : N) (node : string) (stats : NodeStats) (s : SyncState) : SyncState :=
  mkSync (node_id s) (local_sequence s) (origin_sequences s) (sent_sequences s)
    (<[node := now]> (last_heartbeat s)) (<[node := stats]> (node_stats s)) (peers s).
(** In the order of the hash map. *)
Definition dead_nodes `{!HashOrder} (now timeout : N) (s : SyncState) : list string :=
  List.filter (λ node, match last_heartbeat s !! node with Some last => (timeout <? now - last)%N | None => false end)
    (hash_order (elements (dom (last_heartbeat s)))).
Definition get_peers `{!HashOrder} (s : SyncState) : list PeerInfo :=
  omap (λ node, peers s !! node) (hash_order (elements (dom (peers s)))).
Definition add_peer (now : N) (node sync_address http_address : string) (s : SyncState) : SyncState :=
  set_peers (<[node := mkPeer node sync_address http_address now false]> (peers s)) s.
Definition remove_peer (node : string) (s : SyncState) : SyncState :=
  mkSync (node_id s) (local_sequence s) (origin_sequences s) (base.delete node (sent_sequences s))
    (base.delete node (last_heartbeat s)) (base.delete node (node_stats s)) (base.delete node (peers s)).
Definition set_peer_connected (now : N) (node : string) (connected : bool) (s : SyncState) : SyncState :=
  match peers s !! node with
  | Some p =>
      set_peers (<[node := mkPeer (peer_id p) (sync_address p) (http_address p)
                             (if connected then now else last_seen p) connected]> (peers s)) s
  | None => s
  end.

(** ** The stored state *)

Definition SYNC_COLLECTION : string := "_sync".
Definition STATE_KEY : string := "sync_state".
Definition PEERS_KEY : string := "peers".

Section Stored.
Context {Num : Type} `{!JsonNumber Num} {C : Type} `{store : !DocStore Num C}.
Notation Value := (Value Num).
(** The collections of [_system], when it exists. *)
Notation System := (option (gmap string C)).

Definition empty_state (node : string) : SyncState := mkSync node 0 ∅ ∅ ∅ ∅ ∅.
Definition load_origins (origins : list (string * Value)) (m : gmap string N) : gmap string N :=
  foldl (λ m p, match as_u64 p.2 with Some seq => <[p.1 := seq]> m | None => m end) m origins.
Definition load_sequences (data : Value) (s : SyncState) : SyncState :=
  match data with
  | Object _ =>
      let s1 := match value_get "sequence" data ≫= as_u64 with Some seq => set_local seq s | None => s end in
      match value_get "origin_sequences" data ≫= as_object with
      | Some origins => set_origins (load_origins origins (origin_sequences s1)) s1
      | None => s1
      end
  | _ => s
  end.
Definition text_field (k : string) (v : Value) : string := default "" (value_get k v ≫= as_str).
Definition load_peers (now : N) (data : Value) (s : SyncState) : SyncState :=
  match data with
  | Object ps =>
      set_peers (foldl (λ m p, match p.2 with
                               | Object _ => <[p.1 := mkPeer p.1 (text_field "sync_address" p.2)
                                                        (text_field "http_address" p.2) now false]> m
                               | _ => m
                               end) (peers s) ps) s
  | _ => s
  end.
Definition load (now : N) (system : System) (s : SyncState) : SyncState :=
  match system ≫= lookup SYNC_COLLECTION with
  | None => s
  | Some c =>
      let s1 := match ds_get c STATE_KEY with Ok doc => load_sequences (data doc) s | Err _ => s end in
      match ds_get c PEERS_KEY with Ok doc => load_peers now (data doc) s1 | Err _ => s1 end
  end.
Definition new (now : N) (system : System) (node : string) : SyncState := load now system (empty_state node).

(** The documents written. *)
Definition state_doc (s : SyncState) : Value :=
  Object (OMap.insert "_key" (JString STATE_KEY)
    (OMap.insert "sequence" (Number (num_of_u64 (local_sequence s)))
      (OMap.insert "origin_sequences" (Object (json_map (λ n, Number (num_of_u64 n)) (origin_sequences s))) []))).
Definition peer_json (p : PeerInfo) : Value :=
  Object (OMap.insert "sync_address" (JString (sync_address p))
    (OMap.insert "http_address" (JString (http_address p)) [])).
Definition peers_doc (s : SyncState) : Value :=
  Object (OMap.insert "_key" (JString PEERS_KEY)
    (OMap.insert "peers" (Object (json_map peer_json (peers s))) [])).
(** "Delete and insert to upsert"; the results are ignored. *)
Definition replace (gk rev : string) (now : Z) (k : string) (v : Value) (c : C) : C :=
  (ds_insert gk rev now v (ds_delete k c).2).2.
Definition persist_in (gk rev : string) (now : Z) (s : SyncState) (c : C) : C :=
  replace gk rev now PEERS_KEY (peers_doc s) (replace gk rev now STATE_KEY (state_doc s) c).
Definition persist (gk rev : string) (now : Z) (s : SyncState) (system : System) : System :=
  match system with
  | None => None
  | Some m =>
      match m !! SYNC_COLLECTION with
      | Some c => Some (<[SYNC_COLLECTION := persist_in gk rev now s c]> m)
      | None =>
          match ds_new SYNC_COLLECTION with
          | Ok c => Some (<[SYNC_COLLECTION := persist_in gk rev now s c]> m)
          | Err _ => Some m
          end
      end
  end.

(** ** What a restart reads *)

Context `{laws : !DocStoreLaws Num C} `{num_laws : !JsonNumberLaws Num}.

Lemma load_origins_get (l : list (string * Value)) m k : OMap.wf l →
  load_origins l m !! k = match OMap.get k l ≫= as_u64 with Some n => Some n | None => m !! k end.
Proof.
  unfold load_origins. revert m. induction l as [|[k' v] l IH]; intros m Hw; [done|].
  apply OMap.wf_cons in Hw as [Hw Hlt]. cbn [foldl fst snd OMap.get]. rewrite IH by done.
  assert (OMap.get k' l = None) as Hk'.
  { destruct (OMap.get k' l) eqn:E; [|done]. apply OMap.get_elem, Hlt in E; [|done]. by rewrite str_cmp_refl in E. }
  destruct (String.eqb_spec k k') as [->|Hne].
  - rewrite Hk'. cbn. destruct (as_u64 v); [by rewrite lookup_insert_eq|done].
  - destruct (OMap.get k l ≫= as_u64); [done|]. destruct (as_u64 v); [|done]. by rewrite lookup_insert_ne by congruence.
Qed.
Lemma stored_origins m : (∀ k n, m !! k = Some n → (n < u64_modulus)%N) →
  load_origins (json_map (λ n, Number (num_of_u64 n)) m) ∅ = m.
Proof.
  intros Hb. apply map_eq. intros k. destruct (json_map_get (λ n, Number (Num:=Num) (num_of_u64 n)) m k) as [Hw Hg].
  rewrite load_origins_get, Hg by done. destruct (m !! k) as [n|] eqn:E; cbn; [|by rewrite lookup_empty].
  by rewrite num_u64_roundtrip by by eapply Hb.
Qed.
(** A document stored beside another. *)
Lemma replaced_get gk rev now k v c d c' : store_ok c → key_ok k → is_object v = true → wf_value v →
  value_get "_key" v = Some (JString k) → ds_insert gk rev now v (ds_delete k c).2 = (Ok d, c') →
  store_ok c' ∧ ds_get c' k = Ok d ∧ data d = strip v ∧
  ∀ k' d', k' ≠ k → key_ok k' → ds_get c k' = Ok d' → ds_get c' k' = Ok d'.
Proof.
  intros Hs Hk Ho Hw Hv Hi. destruct (ds_delete k c) as [r c0] eqn:Hd. cbn [snd] in Hi.
  destruct (delete_store k c r c0 Hs Hk Hd) as [Hs0 Hscan].
  pose proof (insert_key _ _ _ _ _ _ _ Ho Hi) as Hkey. rewrite Hv in Hkey. injection Hkey as Hkey.
  destruct (insert_store gk rev now v c0 d c' Hs0 Ho Hw Hi ltac:(by rewrite <- Hkey)) as (Hs' & Hdata & Hin).
  split_and!; [done| |done|].
  - apply get_scan; [done..|]. split; [|done]. apply Hin; [by rewrite <- Hkey|]. by left.
  - intros k' d' Hne Hk' Hget. apply get_scan in Hget as [Hin' Hkd]; [|done..]. apply get_scan; [done..|]. split; [|done].
    apply Hin; [by rewrite Hkd|]. right. split; [|congruence].
    assert (key_ok (key d')) as Hkd' by by rewrite Hkd.
    destruct r; apply (Hscan d' Hkd'); [split; [done|congruence]|done].
Qed.
Lemma doc_values_wf s : wf_value (state_doc s) ∧ wf_value (peers_doc s).
Proof.
  assert (∀ A (f : A → Value) m, (∀ x, wf_value (f x)) → wf_value (Object (json_map f m))) as Hmap.
  { intros A f m Hf. apply wf_Object. split; [apply (json_map_get f m "")|]. apply Forall_forall. intros [k v] Hin. cbn [snd].
    apply OMap.get_elem in Hin; [|apply (json_map_get f m "")]. rewrite (proj2 (json_map_get f m k)) in Hin.
    apply fmap_Some in Hin as (x & _ & ->). apply Hf. }
  assert (∀ k (v : Value) l, wf_value v → wf_value (Object l) → wf_value (Object (OMap.insert k v l))) as Hins.
  { intros k v l Hv [Hl Hall]%wf_Object. apply wf_Object. split; [by apply OMap.wf_insert|].
    rewrite Forall_forall in *. intros [k' v'] [[= -> ->]|Hin]%OMap.elem_of_insert; [done|by apply (Hall (k', v'))]. }
  assert (wf_value (Object (Num:=Num) [])) as Hnil.
  { apply wf_Object. split; [apply OMap.wf_nil|constructor]. }
  split; unfold state_doc, peers_doc, peer_json; repeat (apply Hins || apply Hmap || intros); done.
Qed.
(** What is written at a shutdown is read at the next start as far as the sequences go: the local
    sequence and the highest sequences applied of each origin. The peers are lost: they are
    written under the field [peers] and read from the document itself, so that the node starts
    with one peer of that name, without addresses. *)
Theorem persist_load gk rev now now' s c d1 c1 d2 c2 m :
  store_ok c → key_ok STATE_KEY → key_ok PEERS_KEY →
  (local_sequence s < u64_modulus)%N → (∀ k n, origin_sequences s !! k = Some n → (n < u64_modulus)%N) →
  m !! SYNC_COLLECTION = Some c →
  ds_insert gk rev now (state_doc s) (ds_delete STATE_KEY c).2 = (Ok d1, c1) →
  ds_insert gk rev now (peers_doc s) (ds_delete PEERS_KEY c1).2 = (Ok d2, c2) →
  let s' := new now' (persist gk rev now s (Some m)) (node_id s) in
  local_sequence s' = local_sequence s ∧ origin_sequences s' = origin_sequences s ∧
  peers s' = {[ PEERS_KEY := mkPeer PEERS_KEY "" "" now' false ]}.
Proof.
  intros Hs Hk1 Hk2 Hl Ho Hc Hi1 Hi2. destruct (doc_values_wf s) as [Hw1 Hw2].
  destruct (replaced_get gk rev now STATE_KEY (state_doc s) c d1 c1) as (Hs1 & Hg1 & Hd1 & _); try done.
  destruct (replaced_get gk rev now PEERS_KEY (peers_doc s) c1 d2 c2) as (Hs2 & Hg2 & Hd2 & Hkeep); try done.
  assert (ds_get c2 STATE_KEY = Ok d1) as Hg1' by by apply Hkeep.
  unfold new, persist, load. rewrite Hc. unfold persist_in, replace. rewrite Hi1. cbn [snd]. rewrite Hi2. cbn [snd mbind option_bind].
  rewrite lookup_insert_eq, Hg1', Hg2, Hd1, Hd2.
  assert (strip (state_doc s) = Object [("origin_sequences", Object (json_map (λ n, Number (num_of_u64 n)) (origin_sequences s)));
    ("sequence", Number (num_of_u64 (local_sequence s)))]) as -> by reflexivity.
  assert (strip (peers_doc s) = Object [("peers", Object (json_map peer_json (peers s)))]) as -> by reflexivity.
  assert (∀ k, text_field k (Object (json_map peer_json (peers s))) = "") as Htext.
  { intros k. unfold text_field. cbn [value_get]. rewrite (proj2 (json_map_get peer_json (peers s) k)).
    by destruct (peers s !! k). }
  unfold load_peers, load_sequences. cbn [foldl fst snd]. rewrite !Htext. cbn. rewrite num_u64_roundtrip by done.
  split_and!; [done| |done]. cbn. by apply stored_origins.
Qed.
End Stored.
End SyncState.

(** ** Tombstones (src/sync/tombstone.rs) *)

Module Tombstones.

Record TombstoneConfig := mkConfig {
  retention_period : N;        (* milliseconds *)
  cleanup_interval : N;
  batch_size : nat;
  enabled : bool;
}.
Definition default_config : TombstoneConfig :=
  mkConfig (30 * 24 * 60 * 60 * 1000) (24 * 60 * 60 * 1000) 10000 true.
Record Tombstone := mkTombstone {
  t_key : string; t_collection : string; t_database : string; deleted_at : N;
  t_version_vector : string; t_sequence : N }.
Record Manager := mkManager {
  config : TombstoneConfig;
  tombstones : gmap string (list Tombstone);
  last_cleanup : N;
}.
Definition new (config : TombstoneConfig) : Manager := mkManager config ∅ 0.
Definition coll_key (database collection : string) : string := database +:+ ("." +:+ collection).
Definition set_tombstones (m : gmap string (list Tombstone)) (s : Manager) : Manager :=
  mkManager (config s) m (last_cleanup s).
Definition add_tombstone (t : Tombstone) (s : Manager) : Manager :=
  let key := coll_key (t_database t) (t_collection t) in
  set_tombstones (<[key := default [] (tombstones s !! key) ++ [t]]> (tombstones s)) s.
Definition has_tombstone (database collection key : string) (s : Manager) : option Tombstone :=
  match tombstones s !! coll_key database collection with
  | Some docs => List.find (λ t, String.eqb (t_key t) key) docs
  | None => None
  end.
Definition get_tombstones (database collection : string) (s : Manager) : list Tombstone :=
  default [] (tombstones s !! coll_key database collection).

(** The loop over the collections, in the order of the hash map, until as many are removed as
    the size of a batch. *)
Definition kept (cutoff : N) (t : Tombstone) : bool := (cutoff <? deleted_at t)%N.
Fixpoint cleanup_loop (cutoff : N) (batch : nat) (names : list string) (removed : nat)
    (m : gmap string (list Tombstone)) : nat * gmap string (list Tombstone) :=
  match names with
  | [] => (removed, m)
  | n :: names' =>
      let docs := default [] (m !! n) in
      let docs' := List.filter (kept cutoff) docs in
      let removed' := removed + (length docs - length docs') in
      let m' := <[n := docs']> m in
      if batch <=? removed' then (removed', m') else cleanup_loop cutoff batch names' removed' m'
  end.
Definition cleanup `{!HashOrder} (now : N) (s : Manager) : nat * Manager :=
  let cutoff := sub64 now (retention_period (config s)) in
  let '(removed, m) := cleanup_loop cutoff (batch_size (config s)) (hash_order (elements (dom (tombstones s)))) 0 (tombstones s) in
  (removed, set_tombstones (filter (λ p, p.2 ≠ []) m) s).
Definition force_cleanup `{!HashOrder} (now now' : N) (s : Manager) : nat * Manager :=
  let '(count, s') := cleanup now s in (count, mkManager (config s') (tombstones s') now').
(** One tick of the cleanup task; [now - last] wraps when the clock was set back. *)
Definition cleanup_tick `{!HashOrder} (now now' : N) (s : Manager) : Manager :=
  if (cleanup_interval (config s) <=? sub64 now (last_cleanup s))%N
  then let '(_, s') := cleanup now' s in mkManager (config s') (tombstones s') now
  else s.
Definition update_config (c : TombstoneConfig) (s : Manager) : Manager := mkManager c (tombstones s) (last_cleanup s).

Record TombstoneStats := mkTStats {
  total_collections : nat; total_tombstones : nat; oldest_tombstone : option N; newest_tombstone : option N;
  retention_period_days : N }.
Definition min_max (l : list Tombstone) : option (N * N) :=
  foldr (λ t acc, match acc with
                  | None => Some (deleted_at t, deleted_at t)
                  | Some (lo, hi) => Some (N.min (deleted_at t) lo, N.max (deleted_at t) hi)
                  end) None l.
Definition get_stats (s : Manager) : TombstoneStats :=
  let all := concat (map_to_list (tombstones s)).*2 in
  mkTStats (size (tombstones s)) (length all) (fst <$> min_max all) (snd <$> min_max all)
    (retention_period (config s) / 1000 / (24 * 60 * 60)).

(** ** What the cleanup removes *)

Section Props.
Context `{order : !HashOrder} `{order_laws : !HashOrderLaws}.
Implicit Types (m : gmap string (list Tombstone)) (s : Manager).

Definition in_manager (t : Tombstone) m : Prop := ∃ n docs, m !! n = Some docs ∧ t ∈ docs.
Lemma filter_mem {A} (f : A → bool) (l : list A) x : x ∈ List.filter f l ↔ x ∈ l ∧ f x = true.
Proof. rewrite !list_elem_of_In. apply filter_In. Qed.
(** Each list is as it was or without its expired tombstones, and all are cleaned when the batch is
    not reached. *)
Lemma cleanup_loop_spec cutoff batch names : ∀ removed m r m', NoDup names → cleanup_loop cutoff batch names removed m = (r, m') →
  removed ≤ r ∧ (∀ n, n ∉ names → m' !! n = m !! n) ∧
  (∀ n, n ∈ names → is_Some (m !! n) → m' !! n = m !! n ∨ m' !! n = Some (List.filter (kept cutoff) (default [] (m !! n)))) ∧
  (r < batch → ∀ n, n ∈ names → m' !! n = Some (List.filter (kept cutoff) (default [] (m !! n)))).
Proof.
  induction names as [|n names IH]; intros removed m r m' Hnd H; cbn [cleanup_loop] in H.
  { injection H as <- <-. split_and!; [done|done|by intros n ?%elem_of_nil|by intros _ n ?%elem_of_nil]. }
  apply NoDup_cons in Hnd as [Hn Hnd]. set (removed' := removed + _) in H. set (m1 := <[n := _]> m) in H.
  assert (∀ x, x ≠ n → m1 !! x = m !! x) as Hm1 by (intros; unfold m1; by rewrite lookup_insert_ne by congruence).
  assert (m1 !! n = Some (List.filter (kept cutoff) (default [] (m !! n)))) as Hmn by apply lookup_insert_eq.
  destruct (batch <=? removed') eqn:E.
  - injection H as <- <-. apply Nat.leb_le in E. split_and!; [lia| | |lia].
    + intros x Hx. apply Hm1. set_solver.
    + intros x Hx _. destruct (decide (x = n)) as [->|]; [by right|left; by apply Hm1].
  - destruct (IH removed' m1 r m' Hnd H) as (Hle & Hout & Hin & Hall). split_and!; [lia| | |].
    + intros x Hx. rewrite Hout, Hm1 by set_solver. done.
    + intros x Hx Hs. destruct (decide (x = n)) as [->|Hne]; [right; by rewrite Hout|].
      rewrite <- (Hm1 x Hne) in *. apply Hin; [set_solver|done].
    + intros Hr x Hx. destruct (decide (x = n)) as [->|Hne]; [by rewrite Hout|].
      rewrite <- (Hm1 x Hne). apply Hall; [done|set_solver].
Qed.
(** The cleanup forgets no deletion younger than the retention period; it adds none, and it forgets
    all the older ones unless it stops at the size of a batch. *)
Theorem cleanup_retains now s r s' : (retention_period (config s) ≤ now < u64_modulus)%N → cleanup now s = (r, s') →
  (∀ t, in_manager t (tombstones s') → in_manager t (tombstones s)) ∧
  (∀ t, in_manager t (tombstones s) → (now - retention_period (config s) < deleted_at t)%N → in_manager t (tombstones s')) ∧
  (r < batch_size (config s) → ∀ t, in_manager t (tombstones s') → (now - retention_period (config s) < deleted_at t)%N).
Proof.
  intros [Hle Hlt]. unfold cleanup. rewrite sub64_le by done. set (cutoff := (now - _)%N).
  destruct (cleanup_loop _ _ _ _ _) as [r0 m] eqn:E. intros [= <- <-]. cbn [tombstones set_tombstones].
  assert (∀ n, n ∈ hash_order (elements (dom (tombstones s))) ↔ is_Some (tombstones s !! n)) as Hdom.
  { intros n. by rewrite hash_order_perm, elem_of_elements, elem_of_dom. }
  assert (NoDup (hash_order (elements (dom (tombstones s))))) as Hnd by (rewrite hash_order_perm; apply NoDup_elements).
  destruct (cleanup_loop_spec _ _ _ _ _ _ _ Hnd E) as (_ & Hout & Hin & Hall).
  assert (∀ t, in_manager t (filter (λ p, p.2 ≠ []) m) ↔ in_manager t m) as Hf.
  { intros t. split; intros (n & docs & Hn & Ht); exists n, docs; (split; [|done]).
    - by apply map_lookup_filter_Some in Hn as [? _].
    - apply map_lookup_filter_Some. split; [done|]. cbn. intros ->. by apply elem_of_nil in Ht. }
  assert (∀ n docs, m !! n = Some docs → is_Some (tombstones s !! n)) as Hsome.
  { intros n docs Hn. destruct (decide (n ∈ hash_order (elements (dom (tombstones s))))) as [Hi|Hi]; [by apply Hdom|].
    rewrite <- (Hout n Hi). by eexists. }
  split_and!.
  - intros t (n & docs & Hn & Ht)%Hf. pose proof (Hsome _ _ Hn) as Hs. exists n.
    destruct (Hin n (proj2 (Hdom n) Hs) Hs) as [Hm|Hm]; rewrite Hm in Hn; [by exists docs|]. injection Hn as <-.
    destruct (tombstones s !! n) as [docs|]; [|by destruct Hs]. exists docs. split; [done|]. by apply filter_mem in Ht as [? _].
  - intros t (n & docs & Hn & Ht) Hd. apply Hf. exists n. assert (is_Some (tombstones s !! n)) as Hs by by eexists.
    destruct (Hin n (proj2 (Hdom n) Hs) Hs) as [Hm|Hm]; rewrite Hm, Hn; [by exists docs|]. eexists. split; [done|].
    apply filter_mem. split; [done|]. by apply N.ltb_lt.
  - intros Hr t (n & docs & Hn & Ht)%Hf. pose proof (Hsome _ _ Hn) as Hs. rewrite (Hall Hr n (proj2 (Hdom n) Hs)) in Hn.
    injection Hn as <-. apply filter_mem in Ht as [_ Ht]. by apply N.ltb_lt.
Qed.
End Props.
End Tombstones.
