(* ===== verification/SyncTransport.v ===== *)
(** * Messages between the nodes and their framing (src/sync/protocol.rs, transport.rs)

    The messages of the replication protocol, how they are written to a stream and read from it.
    bincode and lz4_flex are the class [MessageCodec]. A stream is the bytes that arrive on it. *)

From S2P Require Import Prelude Text Json Codec VersionVector SyncLog SyncState.

Module SyncTransport.

Record ShardConfig := mkShardConfig { num_shards : N; replication_factor : N; shard_key : string }.
Record ShardAssignment := mkAssignment { assigned_shard : N; owner : string; replicas : list string }.
Record ConflictEntry := mkConflict {
  c_document_key : string; c_collection : string;
  local_vector : VersionVector.VersionVector; remote_vector : VersionVector.VersionVector;
  local_data : option string; remote_data : option string; detected_at : N }.

Inductive SyncMessage :=
| AuthChallenge (challenge : string)
| AuthResponse (hmac : string)
| AuthResult (success : bool) (message : string)
| IncrementalSyncRequest (from_node : string) (after_sequence max_batch_bytes : N)
| FullSyncRequest (from_node : string)
| FullSyncStart (total_databases total_collections total_documents : N)
| FullSyncDatabase (name : string)
| FullSyncCollection (database name : string) (shard_config : option ShardConfig)
| FullSyncDocuments (database collection data : string) (compressed : bool) (doc_count : N)
| FullSyncComplete (final_sequence : N)
| SyncBatch (entries : list SyncLog.SyncEntry) (has_more : bool) (current_sequence : N) (compressed : bool)
| Heartbeat (node_id : string) (sequence : N) (stats : SyncState.NodeStats)
| HeartbeatAck (node_id : string)
| NodeJoin (node_id address http_address : string)
| NodeLeave (node_id : string)
| NodeDead (node_id : string)
| ShardRebalance (database collection : string) (assignments : list ShardAssignment)
| ClientRegisterSession (device_id api_key : string) (filter_query : option string) (subscriptions : list string)
| ClientSessionRegistered (session_id : string) (server_vector : VersionVector.VersionVector)
    (supports_delta_sync supports_crdt : bool)
| ClientPullRequest (session_id : string) (client_vector : VersionVector.VersionVector) (limit : option N)
| ClientPullResponse (changes : list SyncLog.SyncEntry) (server_vector : VersionVector.VersionVector) (has_more : bool)
    (conflicts : list ConflictEntry)
| ClientPushRequest (session_id : string) (changes : list SyncLog.SyncEntry) (client_vector : VersionVector.VersionVector)
| ClientPushResponse (server_vector : VersionVector.VersionVector) (conflicts : list ConflictEntry) (accepted rejected : N)
| ClientSyncAck (session_id : string) (applied_vector : VersionVector.VersionVector)
| ClientSubscribe (session_id : string) (collections : list string)
| ClientUnsubscribe (session_id : string) (collections : list string)
| ClientNotifyChanges (session_id : string) (has_changes : bool) (collections : list string).

(** Texts of errors of the libraries are not kept. *)
Inductive TransportError :=
| ConnectionFailed (msg : string)
| AuthFailed (msg : string)
| IoError
| EncodeError
| DecodeError (msg : string)
| MessageTooLarge (size : N)
| Disconnected.

Class MessageCodec := {
  bincode_message : SyncMessage → option string;
  message_bincode : string → option SyncMessage;
  lz4_compress : string → string;                 (* [compress_prepend_size] *)
  lz4_decompress : string → option string;
}.
Class MessageCodecLaws `{!MessageCodec} : Prop := {
  message_roundtrip m b : bincode_message m = Some b → message_bincode b = Some m;
  lz4_roundtrip s : lz4_decompress (lz4_compress s) = Some s;
}.

Definition MAX_MESSAGE_SIZE : N := 10 * 1024 * 1024.
Definition COMPRESSION_THRESHOLD : N := 64 * 1024.
Definition byte (n : N) : string := String (ascii_of_N n) "".

Section Framing.
Context `{codec : !MessageCodec}.

(** A flag, the length in four bytes and the payload. *)
Definition write_message (m : SyncMessage) : result TransportError string :=
  match bincode_message m with
  | None => Err EncodeError
  | Some payload =>
      let compress := (COMPRESSION_THRESHOLD <? N.of_nat (String.length payload))%N in
      let data := if compress then lz4_compress payload else payload in
      let len := wrap32 (N.of_nat (String.length data)) in
      if (MAX_MESSAGE_SIZE <? len)%N then Err (MessageTooLarge len)
      else Ok (byte (if compress then 1 else 0) +:+ (Codec.be_bytes 4 len +:+ data))
  end.
(** [read_exact]: the bytes read and those left. *)
Definition read_exact (n : nat) (stream : string) : result TransportError (string * string) :=
  if (String.length stream <? n)%nat then Err IoError
  else Ok (String.substring 0 n stream, String.substring n (String.length stream - n) stream).
Definition read_message (stream : string) : result TransportError (SyncMessage * string) :=
  match read_exact 5 stream with
  | Err e => Err e
  | Ok (header, rest) =>
      let compressed := String.eqb (String.substring 0 1 header) (byte 1) in
      let len := Codec.from_be_bytes 0 (String.substring 1 4 header) in
      if (MAX_MESSAGE_SIZE <? len)%N then Err (MessageTooLarge len)
      else
        match read_exact (N.to_nat len) rest with
        | Err e => Err e
        | Ok (data, rest') =>
            let payload := if compressed then lz4_decompress data else Some data in
            match payload with
            | None => Err (DecodeError "Decompression failed")
            | Some payload =>
                match message_bincode payload with
                | None => Err (DecodeError "")
                | Some m => Ok (m, rest')
                end
            end
        end
  end.
(** [SyncMessage::encode], with a length but no flag; it panics when bincode fails. *)
Definition encode (m : SyncMessage) : option string :=
  (λ payload, Codec.be_bytes 4 (wrap32 (N.of_nat (String.length payload))) +:+ payload) <$> bincode_message m.
Definition decode (bytes : string) : option SyncMessage := message_bincode bytes.

(** ** What is read *)

Context `{codec_laws : !MessageCodecLaws}.

Lemma read_exact_app a b : read_exact (String.length a) (a +:+ b) = Ok (a, b).
Proof.
  unfold read_exact. rewrite str_length_app. rewrite (proj2 (Nat.ltb_ge _ _)) by lia.
  replace (String.length a + String.length b - String.length a) with (String.length b) by lia.
  by rewrite substring_app_l, substring_app_r.
Qed.
(** Reading behind a header of a flag and a length. *)
Lemma read_header c n data rest : (n < 2 ^ 32)%N →
  read_message ((String c (Codec.be_bytes 4 n)) +:+ (data +:+ rest)) =
  if (MAX_MESSAGE_SIZE <? n)%N then Err (MessageTooLarge n)
  else match read_exact (N.to_nat n) (data +:+ rest) with
       | Err e => Err e
       | Ok (data, rest') =>
           match (if Ascii.eqb c (ascii_of_N 1) then lz4_decompress data else Some data) with
           | None => Err (DecodeError "Decompression failed")
           | Some payload => match message_bincode payload with None => Err (DecodeError "") | Some m => Ok (m, rest') end
           end
       end.
Proof.
  intros Hn. unfold read_message. pose proof (Codec.be_bytes_length 4 n) as Hlen.
  assert (5 = String.length (String c (Codec.be_bytes 4 n))) as E5 by (cbn [String.length]; lia).
  rewrite E5, read_exact_app. cbn [String.substring].
  assert (String.substring 0 4 (Codec.be_bytes 4 n) = Codec.be_bytes 4 n) as ->.
  { rewrite <- Hlen at 1. apply substring_all. }
  rewrite Codec.from_be_bytes_acc by exact Hn. rewrite N.mul_0_l, N.add_0_l.
  assert (String.substring 0 0 (Codec.be_bytes 4 n) = "") as -> by by destruct (Codec.be_bytes 4 n).
  unfold byte. cbn [String.eqb]. by destruct (Ascii.eqb c (ascii_of_N 1)).
Qed.
Lemma byte_app c x y : byte c +:+ (x +:+ y) = String (ascii_of_N c) x +:+ y.
Proof. reflexivity. Qed.
(** What [write_message] writes, [read_message] reads, and leaves the bytes behind it. *)
Theorem frame_roundtrip m bytes rest : write_message m = Ok bytes → (N.of_nat (String.length bytes) < 2 ^ 32)%N →
  read_message (bytes +:+ rest) = Ok (m, rest).
Proof.
  unfold write_message. destruct (bincode_message m) as [payload|] eqn:Em; [|done].
  cbn zeta. set (compress := (COMPRESSION_THRESHOLD <? _)%N). set (data := if compress then lz4_compress payload else payload).
  destruct (MAX_MESSAGE_SIZE <? _)%N eqn:Es; [done|]. intros Hb Hlen.
  assert (bytes = byte (if compress then 1 else 0) +:+ (Codec.be_bytes 4 (wrap32 (N.of_nat (String.length data))) +:+ data)) as ->
    by congruence.
  rewrite !str_length_app, Codec.be_bytes_length in Hlen.
  assert (wrap32 (N.of_nat (String.length data)) = N.of_nat (String.length data)) as Ew.
  { apply wrap32_small. unfold u32_modulus. lia. }
  rewrite Ew in *. rewrite !str_app_assoc, byte_app, read_header by lia. rewrite Es, Nat2N.id, read_exact_app.
  assert ((if Ascii.eqb (ascii_of_N (if compress then 1 else 0)) (ascii_of_N 1) then lz4_decompress data else Some data) = Some payload) as ->.
  { unfold data. destruct compress; [apply lz4_roundtrip|done]. }
  by rewrite (message_roundtrip m payload).
Qed.
(** A byte behind a number makes it a number of one byte more. *)
Lemma be_bytes_snoc k n p : Codec.be_bytes (S k) (n * 256 + N_of_ascii p) = Codec.be_bytes k n +:+ String p "".
Proof.
  pose proof (N_ascii_bounded p) as Hp. revert n. induction k as [|k IH]; intros n.
  - cbn [Codec.be_bytes N.of_nat]. rewrite N.pow_0_r, N.div_1_r, N.add_comm, N.Div0.mod_add, N.mod_small by done.
    by rewrite ascii_N_embedding.
  - assert ((n * 256 + N_of_ascii p) / 256 ^ N.of_nat (S k) = n / 256 ^ N.of_nat k)%N as E.
    { rewrite Nat2N.inj_succ, N.pow_succ_r', <- N.Div0.div_div. f_equal.
      by rewrite N.add_comm, N.div_add, N.div_small by done. }
    change (Codec.be_bytes (S (S k)) ?x) with (String (ascii_of_N ((x / 256 ^ N.of_nat (S k)) mod 256)) (Codec.be_bytes (S k) x)).
    rewrite IH, E. reflexivity.
Qed.
(** The messages of a full synchronisation are written with [encode], without the flag the reader
    expects: alone on the stream, none of them is ever read. *)
Theorem encoded_unreadable m bytes payload : bincode_message m = Some payload →
  (N.of_nat (String.length payload) < 2 ^ 24)%N → encode m = Some bytes → ∃ err, read_message bytes = Err err.
Proof.
  intros Hp Hlen He. unfold encode in He. rewrite Hp in He. cbn [fmap option_fmap option_map] in He.
  rewrite wrap32_small in He by (unfold u32_modulus; lia). set (n := N.of_nat (String.length payload)) in *.
  assert (bytes = Codec.be_bytes 4 n +:+ payload) as -> by congruence. clear He.
  destruct payload as [|p0 payload].
  { eexists. unfold read_message, read_exact. rewrite str_length_app, Codec.be_bytes_length. done. }
  assert (Codec.be_bytes 4 n = String (ascii_of_N 0) (Codec.be_bytes 3 n)) as Hz.
  { change (Codec.be_bytes 4 n) with (String (ascii_of_N ((n / 2 ^ 24) mod 256)) (Codec.be_bytes 3 n)).
    by rewrite N.div_small by exact Hlen. }
  assert (Codec.be_bytes 4 n +:+ String p0 payload =
    String (ascii_of_N 0) (Codec.be_bytes 4 (n * 256 + N_of_ascii p0)) +:+ (payload +:+ "")) as ->.
  { rewrite Hz, be_bytes_snoc, str_app_nil_r. change (String p0 payload) with (String p0 "" +:+ payload).
    change (String ?c ?a +:+ ?b) with (String c (a +:+ b)). by rewrite str_app_assoc. }
  pose proof (N_ascii_bounded p0). rewrite read_header by lia.
  destruct (MAX_MESSAGE_SIZE <? _)%N; [by eexists|]. unfold read_exact.
  rewrite (proj2 (Nat.ltb_lt _ _)); [by eexists|]. rewrite str_app_nil_r. subst n. cbn [String.length] in *. lia.
Qed.
End Framing.
End SyncTransport.

Module SyncTransportDemo.
Import SyncTransport.
(** A codec of one kind of message. *)
#[local] Instance demo_codec : MessageCodec := {
  bincode_message m := match m with NodeLeave n => Some n | _ => None end;
  message_bincode b := Some (NodeLeave b);
  lz4_compress s := s;
  lz4_decompress := Some;
}.
#[local] Instance demo_codec_laws : MessageCodecLaws.
Proof. split; [|done]. intros m b. destruct m; try done. by intros [= <-]. Qed.
Lemma frame_roundtrip_witness : read_message ((byte 0 +:+ (Codec.be_bytes 4 2 +:+ "n1")) +:+ "rest") = Ok (NodeLeave "n1", "rest").
Proof. apply frame_roundtrip; reflexivity. Defined.
Lemma encoded_unreadable_witness : ∃ err, read_message (Codec.be_bytes 4 2 +:+ "n1") = Err err.
Proof. apply (encoded_unreadable (NodeLeave "n1") _ "n1"); reflexivity. Defined.
End SyncTransportDemo.
