(* ===== verification/Cluster.v ===== *)
(** * Cluster membership and health (src/cluster/state.rs, health.rs, node.rs)

    The members of the cluster with their status and last heartbeat, and the monitor that turns
    the age of the heartbeats into a status. Times are milliseconds; the statistics a member sends
    along are of any type. *)

From S2P Require Import Prelude Text.

Module Cluster.

Inductive NodeStatus := Joining | Syncing | Active | Suspected | Dead | Leaving.
#[export] Instance NodeStatus_eq : EqDecision NodeStatus.
Proof. solve_decision. Defined.

Record Node := mkNode { id : string; address : string; api_address : string; started_at : N }.

Section State.
Context {Stats : Type}.

Record ClusterMember := mkMember {
  node : Node;
  status : NodeStatus;
  last_heartbeat : N;
  last_sequence : N;
  stats : option Stats;
}.
Record ClusterState := mkCluster {
  members : gmap string ClusterMember;
  local_node_id : string;
  max_origin_sequences : gmap string N;
  sent_to_peers : gmap string N;
}.
Definition set_members (m : gmap string ClusterMember) (s : ClusterState) : ClusterState :=
  mkCluster m (local_node_id s) (max_origin_sequences s) (sent_to_peers s).
Definition set_status (st : NodeStatus) (m : ClusterMember) : ClusterMember :=
  mkMember (node m) st (last_heartbeat m) (last_sequence m) (stats m).

Definition new_node (now : N) (i address api_address : string) : Node := mkNode i address api_address now.
Definition new (local : string) : ClusterState := mkCluster ∅ local ∅ ∅.
Definition check_and_update_origin_sequence (n : string) (sequence : N) (s : ClusterState) : bool * ClusterState :=
  let current := default 0%N (max_origin_sequences s !! n) in
  let '(newer, m) := if (current <? sequence)%N then (true, sequence) else (false, current) in
  (newer, mkCluster (members s) (local_node_id s) (<[n := m]> (max_origin_sequences s)) (sent_to_peers s)).
Definition add_member (now : N) (nd : Node) (st : NodeStatus) (s : ClusterState) : bool * ClusterState :=
  let exists_ := bool_decide (is_Some (members s !! id nd)) in
  (negb exists_, set_members (<[id nd := mkMember nd st now 0 None]> (members s)) s).
Definition remove_member (n : string) (s : ClusterState) : ClusterState := set_members (base.delete n (members s)) s.
Definition get_member (n : string) (s : ClusterState) : option ClusterMember := members s !! n.
(** In the order of the hash map. *)
Definition get_all_members `{!HashOrder} (s : ClusterState) : list ClusterMember :=
  omap (λ n, members s !! n) (hash_order (elements (dom (members s)))).
Definition beat (now sequence : N) (st : option Stats) (m : ClusterMember) : ClusterMember :=
  mkMember (node m) (if decide (status m = Suspected) then Active else status m) now sequence
    (match st with Some x => Some x | None => stats m end).
Definition update_heartbeat (now : N) (n : string) (sequence : N) (st : option Stats) (s : ClusterState) : ClusterState :=
  set_members (alter (beat now sequence st) n (members s)) s.
Definition mark_status (n : string) (st : NodeStatus) (s : ClusterState) : ClusterState :=
  set_members (alter (set_status st) n (members s)) s.
Definition active_nodes `{!HashOrder} (s : ClusterState) : list Node :=
  node <$> filter (λ m, status m = Active) (get_all_members s).
Definition get_sent_to_peer (n : string) (s : ClusterState) : N := default 0%N (sent_to_peers s !! n).
Definition update_sent_to_peer (n : string) (sequence : N) (s : ClusterState) : ClusterState :=
  mkCluster (members s) (local_node_id s) (max_origin_sequences s) (<[n := sequence]> (sent_to_peers s)).

(** ** The monitor *)

Record HealthConfig := mkHealth { heartbeat_interval : N; failure_threshold : N; suspicion_threshold : N }.
Definition default_health : HealthConfig := mkHealth 5000 15000 10000.

(** One member of the list the monitor has read: the status tested is the one it read. *)
Definition check_member (c : HealthConfig) (now : N) (s : ClusterState) (m : ClusterMember) : ClusterState :=
  if String.eqb (id (node m)) (local_node_id s) then s
  else
    let elapsed := (now - last_heartbeat m)%N in
    if (failure_threshold c <? elapsed)%N then
      if decide (status m = Dead) then s else mark_status (id (node m)) Dead s
    else if (suspicion_threshold c <? elapsed)%N && bool_decide (status m = Active)
    then mark_status (id (node m)) Suspected s
    else s.
Definition check_nodes `{!HashOrder} (c : HealthConfig) (now : N) (s : ClusterState) : ClusterState :=
  foldl (check_member c now) s (get_all_members s).
End State.
Arguments ClusterMember : clear implicits.
Arguments ClusterState : clear implicits.

(** ** What the monitor decides *)

Section Props.
Context {Stats : Type} `{order : !HashOrder} `{order_laws : !HashOrderLaws}.
Notation ClusterState := (ClusterState Stats).
Notation ClusterMember := (ClusterMember Stats).
Implicit Types (s : ClusterState) (m : ClusterMember) (c : HealthConfig).

(** Members are kept under their own names. *)
Definition keyed s : Prop := ∀ n m, members s !! n = Some m → id (node m) = n.
Lemma get_all_members_spec s m : keyed s → m ∈ get_all_members s ↔ members s !! id (node m) = Some m.
Proof.
  intros Hk. unfold get_all_members. rewrite list_elem_of_omap. split.
  - intros (n & _ & Hn). by rewrite (Hk n m Hn).
  - intros Hm. exists (id (node m)). split; [|done]. rewrite hash_order_perm, elem_of_elements, elem_of_dom. by eexists.
Qed.
(** The status a check gives a member. *)
Definition verdict c (now : N) (local : string) (n : string) m : NodeStatus :=
  if String.eqb n local then status m
  else if (failure_threshold c <? now - last_heartbeat m)%N then Dead
  else if (suspicion_threshold c <? now - last_heartbeat m)%N && bool_decide (status m = Active) then Suspected
  else status m.
Lemma check_member_alter c now s m : keyed s → members s !! id (node m) = Some m →
  check_member c now s m = set_members (<[id (node m) := set_status (verdict c now (local_node_id s) (id (node m)) m) m]> (members s)) s.
Proof.
  intros Hk Hm. unfold check_member, verdict.
  assert (∀ st, status m = st → set_members (<[id (node m) := set_status st m]> (members s)) s = s) as Hsame.
  { intros st <-. rewrite insert_id; [by destruct s|]. rewrite Hm. by destruct m. }
  assert (∀ st, mark_status (id (node m)) st s = set_members (<[id (node m) := set_status st m]> (members s)) s) as Hmark.
  { intros st. unfold mark_status. f_equal. apply map_eq. intros n.
    rewrite lookup_alter, lookup_insert. case_decide; [subst; by rewrite Hm|done]. }
  destruct (String.eqb _ _); [by rewrite Hsame|].
  destruct (failure_threshold c <? _)%N; [case_decide; [by rewrite Hsame|by rewrite Hmark]|].
  destruct (_ && _); [by rewrite Hmark|by rewrite Hsame].
Qed.
Lemma get_all_members_nodup s : keyed s → NoDup ((λ m, id (node m)) <$> get_all_members s).
Proof.
  intros Hk. unfold get_all_members.
  assert (NoDup (hash_order (elements (dom (members s))))) as Hnd by (rewrite hash_order_perm; apply NoDup_elements).
  induction Hnd as [|n l Hn _ IH]; [constructor|]. cbn. destruct (members s !! n) as [m|] eqn:E; [|done].
  cbn. constructor; [|done]. rewrite (Hk n m E). intros (m' & Hid & (n' & Hn' & Hm')%list_elem_of_omap)%list_elem_of_fmap.
  rewrite (Hk n' m' Hm') in Hid. by subst.
Qed.
Lemma check_nodes_members c now s n : keyed s →
  members (check_nodes c now s) !! n = (λ m, set_status (verdict c now (local_node_id s) n m) m) <$> members s !! n.
Proof.
  intros Hk. unfold check_nodes.
  assert (∀ l s', keyed s' → local_node_id s' = local_node_id s → NoDup ((λ m, id (node m)) <$> l) →
    (∀ m, m ∈ l → members s' !! id (node m) = Some m) →
    members (foldl (check_member c now) s' l) !! n =
      if decide (n ∈ (λ m, id (node m)) <$> l)
      then (λ m, set_status (verdict c now (local_node_id s) n m) m) <$> members s' !! n else members s' !! n) as H.
  { induction l as [|m l IH]; intros s' Hk' Hlo Hnd Hin; [by rewrite decide_False by apply not_elem_of_nil|].
    cbn [foldl fmap list_fmap] in *. apply NoDup_cons in Hnd as [Hm Hnd].
    rewrite check_member_alter by (done || apply Hin; left). rewrite IH; clear IH.
    - cbn [members set_members]. rewrite lookup_insert, Hlo.
      destruct (decide (id (node m) = n)) as [Hn|Hn].
      + subst n. rewrite decide_False by done. rewrite decide_True by left. by rewrite (Hin m) by left.
      + repeat case_decide; try done; set_solver.
    - intros n' m'. cbn. rewrite lookup_insert. case_decide; [intros [= <-]; by subst|apply Hk'].
    - done.
    - done.
    - intros m' Hm'. cbn. rewrite lookup_insert_ne; [apply Hin; by right|]. intros E. apply Hm.
      apply list_elem_of_fmap. eauto. }
  rewrite H; try done.
  - destruct (members s !! n) as [m|] eqn:E; [|by case_decide].
    rewrite decide_True; [done|]. apply list_elem_of_fmap. exists m. split; [by rewrite (Hk n m E)|].
    apply get_all_members_spec; [done|]. by rewrite (Hk n m E).
  - by apply get_all_members_nodup.
  - intros m. by apply get_all_members_spec.
Qed.

(** Heartbeats, statistics and checks, each with its time, as they come in. *)
Inductive Event :=
| Heartbeat (now : N) (n : string) (sequence : N) (st : option Stats)
| Check (now : N).
Definition handle c s (e : Event) : ClusterState :=
  match e with
  | Heartbeat now n sequence st => update_heartbeat now n sequence st s
  | Check now => check_nodes c now s
  end.
Lemma handle_keyed c s e : keyed s → keyed (handle c s e) ∧ local_node_id (handle c s e) = local_node_id s.
Proof.
  intros Hk. destruct e as [now n sequence st|now]; cbn [handle].
  - split; [|done]. intros n' m'. cbn. rewrite lookup_alter. case_decide; [subst n'|apply Hk].
    destruct (members s !! n) as [m|] eqn:E; [|done]. intros [= <-]. exact (Hk n m E).
  - split.
    + intros n' m'. rewrite check_nodes_members by done. intros (m & Hm & ->)%fmap_Some. exact (Hk n' m Hm).
    + unfold check_nodes.
      assert (∀ l s, local_node_id (foldl (check_member c now) s l) = local_node_id s) as H; [|apply H].
      clear. induction l as [|m l IH]; intros s; [done|]. cbn. rewrite IH. unfold check_member, mark_status.
      by repeat case_match.
Qed.
(** A check declares dead exactly the other members without a heartbeat for longer than the failure
    threshold, and suspects an active one after the suspicion threshold; a heartbeat takes a
    suspicion back. But nothing brings a dead member back: once it is declared dead, no sequence
    of heartbeats and checks changes that. *)
Theorem health_decides c s n m : keyed s → members s !! n = Some m → n ≠ local_node_id s →
  (∀ now, ∃ m', members (check_nodes c now s) !! n = Some m' ∧
     (status m' = Dead ↔ status m = Dead ∨ (failure_threshold c < now - last_heartbeat m)%N) ∧
     (status m = Active → (now - last_heartbeat m ≤ failure_threshold c)%N →
      status m' = if (suspicion_threshold c <? now - last_heartbeat m)%N then Suspected else Active)) ∧
  (∀ now sequence st, status m = Suspected →
     ∃ m', members (update_heartbeat now n sequence st s) !! n = Some m' ∧ status m' = Active) ∧
  (status m = Dead → ∀ events, ∃ m', members (foldl (handle c) s events) !! n = Some m' ∧ status m' = Dead).
Proof.
  intros Hk Hm Hn. split_and!.
  - intros now. rewrite check_nodes_members, Hm by done. eexists. split; [done|]. cbn [status set_status]. unfold verdict.
    rewrite (proj2 (String.eqb_neq _ _) Hn). destruct (failure_threshold c <? now - last_heartbeat m)%N eqn:Ef.
    + apply N.ltb_lt in Ef. split; [naive_solver|lia].
    + apply N.ltb_ge in Ef. destruct (suspicion_threshold c <? now - last_heartbeat m)%N; cbn [andb].
      * case_bool_decide; split; [split; [done|intros [?|?]; [congruence|lia]]|done|split; [tauto|intros [?|?]; [done|lia]]|done].
      * split; [split; [tauto|intros [?|?]; [done|lia]]|done].
  - intros now sequence st Hs. cbn. rewrite lookup_alter, decide_True, Hm by done. eexists. split; [done|]. cbn. by rewrite decide_True.
  - intros Hd events. revert s m Hk Hm Hn Hd. induction events as [|e events IH]; intros s m Hk Hm Hn Hd; [by exists m|].
    cbn [foldl]. destruct (handle_keyed c s e Hk) as [Hk' Hlo].
    assert (∃ m', members (handle c s e) !! n = Some m' ∧ status m' = Dead) as (m' & Hm' & Hd').
    { destruct e as [now n' sequence st|now]; cbn [handle].
      - cbn. rewrite lookup_alter. case_decide; [subst|by exists m]. rewrite Hm. eexists. split; [done|]. cbn. by rewrite Hd.
      - rewrite check_nodes_members, Hm by done. eexists. split; [done|]. cbn. unfold verdict.
        rewrite (proj2 (String.eqb_neq _ _) Hn), Hd. destruct (failure_threshold c <? _)%N; [done|].
        by rewrite bool_decide_false, andb_false_r by done. }
    apply (IH _ m'); [done..|by rewrite Hlo|done].
Qed.
End Props.
End Cluster.

Module ClusterDemo.
Import Cluster.
#[local] Instance demo_order : HashOrder := λ l, l.
#[local] Instance demo_order_laws : HashOrderLaws.
Proof. by intros l. Qed.
(** A node that misses fifteen seconds and comes back. *)
Definition s0 : ClusterState () := (add_member 0 (new_node 0 "b" "b:1" "b:2") Active (new "a")).2.
Lemma s0_keyed : keyed s0.
Proof. intros n m. cbn. rewrite lookup_insert. case_decide; [intros [= <-]; by subst|by rewrite lookup_empty]. Qed.
Lemma health_decides_witness :
  ∃ m, members (check_nodes default_health 16000 s0) !! "b" = Some m ∧ status m = Dead ∧
  ∃ m', members (foldl (handle default_health) (check_nodes default_health 16000 s0)
                   [Heartbeat 17000 "b" 1 None; Check 18000; Heartbeat 19000 "b" 2 None]) !! "b" = Some m' ∧ status m' = Dead.
Proof.
  destruct (health_decides default_health s0 "b" (mkMember (new_node 0 "b" "b:1" "b:2") Active 0 0 None)) as (H & _);
    [exact s0_keyed|reflexivity|discriminate|].
  destruct (H 16000%N) as (m & Hm & Hdead & _). exists m. split; [exact Hm|].
  assert (status m = Dead) as Hd by (apply Hdead; right; reflexivity). split; [exact Hd|].
  apply (health_decides default_health (check_nodes default_health 16000 s0) "b" m); [|exact Hm|discriminate|exact Hd].
  apply (handle_keyed default_health s0 (Check 16000) s0_keyed).
Defined.
End ClusterDemo.
