(* ===== verification/SyncWorker.v ===== *)
(** * The replication worker (src/sync/worker.rs)

    A node pulls the entries its peers have written to their logs, page by page, and applies them to
    its own databases: consecutive entries of one collection and kind as a batch, others one by
    one. Entries are skipped when the node has applied their number of their origin before.

    [W]: the operations of the worker, over the storage engine, the state of the replication and
    the cluster; they fail with a [TransportError] or panic ([None]) where the storage does. What
    a peer answers is an argument of the operations that ask it, and so are the outcomes of the
    connections. The revision and the time the entry number [n] is stored with are [fresh n].
    Columnar collections ([ColumnarOps]) are another component. *)

From S2P Require Import Prelude Text Json Transaction Codec Kv Hlc Document DocStore Indexes Collection CollectionBatch Databases SyncLog SyncState SyncTransport Cluster.
Import SyncLog.SyncLog.
Import Json Codec Document Serializer Indexes Collection CollectionBatch Databases SyncTransport.

(** The operations on columnar collections, with their failures, which are only logged:
    [insert_row_with_id], [delete_row], [new] on the text of the column definitions, [drop] and
    [truncate], by database and collection. *)
Class ColumnarOps (Num E : Type) := {
  columnar_insert : string → string → string → Value Num → E → E;
  columnar_delete : string → string → string → E → E;
  columnar_create : string → string → string → E → E;
  columnar_drop : string → string → E → E;
  columnar_truncate : string → string → E → E;
}.
(** Configuration of a sharded collection (src/sharding/coordinator.rs) and its JSON conversions. *)
Record CollectionShardConfig := mkCollectionShards { cs_num_shards : N; cs_shard_key : string; cs_replication_factor : N }.
Class ShardConfigJson := {
  shard_config_to_vec : CollectionShardConfig → option string;
  shard_config_from_slice : string → option CollectionShardConfig;
}.
(** bincode and lz4 on the documents of a full synchronisation. *)
Class BatchCodec (Num : Type) := {
  bincode_values : list (Value Num) → option string;
  values_bincode : string → option (list (Value Num));
}.

Module SyncWorker.

Record SyncConfig := mkConfig {
  heartbeat_interval : N; dead_node_timeout : N; max_batch_bytes : N; sync_interval : N }.
Definition default_config : SyncConfig := mkConfig 5000 15000 (1024 * 1024) 1000.

Section Worker.
Context {Num : Type} `{!JsonNumber Num} `{!JsonText Num} `{!MetaJson Num} `{!DocumentJson Num}
  `{!DocCodec Num}.
Context `{hex_crate : !HexCrate} `{std_text : !StdText}.
Context {DB : Type} `{!KvStore DB} `{!Families DB} `{schema : !SchemaCheck Num DB}.
Context `{columnar : !ColumnarOps Num (Engine Num DB)} `{shard_json : !ShardConfigJson} `{order : !HashOrder}.
Context {Stats : Type}.
Notation Value := (Value Num).
Notation Engine := (Engine Num DB).
Notation Cluster := (Cluster.ClusterState Stats).

Record Worker := mkWorker {
  storage : Engine;
  state : SyncState.SyncState;
  cluster : option Cluster;
}.
Definition W (A : Type) : Type := Worker → option (result TransportError A * Worker).
#[export] Instance W_ret : MRet W := λ A a w, Some (Ok a, w).
#[export] Instance W_bind : MBind W := λ A B k m w,
  match m w with
  | Some (Ok a, w') => k a w'
  | Some (Err e, w') => Some (Err e, w')
  | None => None
  end.
Definition fail {A} (e : TransportError) : W A := λ w, Some (Err e, w).
Definition engine {A} (m : Databases.M Num DB A) : W A := λ w,
  match m (storage w) with
  | Some (a, e) => Some (Ok a, mkWorker e (state w) (cluster w))
  | None => None
  end.
Definition ask {A} (f : SyncState.SyncState → A) : W A := λ w, Some (Ok (f (state w)), w).
Definition sync (f : SyncState.SyncState → SyncState.SyncState) : W unit := λ w,
  Some (Ok tt, mkWorker (storage w) (f (state w)) (cluster w)).
Definition in_cluster (f : Cluster → Cluster) : W unit := λ w,
  Some (Ok tt, mkWorker (storage w) (state w) (f <$> cluster w)).
Fixpoint for_each {A} (f : A → W unit) (l : list A) : W unit :=
  match l with [] => mret tt | x :: l' => f x ≫= λ _, for_each f l' end.
(** [if let Ok(db) = storage.get_database(..)], [if let Ok(coll) = db.get_collection(..)] *)
Definition with_database (db : string) (k : W unit) : W unit :=
  r ← engine (get_database db);
  match r with Ok _ => k | Err _ => mret tt end.
Definition with_collection (db coll : string) (k : nat → W unit) : W unit :=
  r ← engine (db_get_collection db coll);
  match r with Ok id => k id | Err _ => mret tt end.
(** A call of a collection whose result is ignored. *)
Definition call {A} (id : nat) (f : Collection Num DB → A * Collection Num DB) : W unit :=
  engine (on_handle id f) ≫= λ _, mret tt.
Definition ensure_database (db : string) : W unit :=
  r ← engine (get_database db);
  match r with Ok _ => mret tt | Err _ => engine (create_database db) ≫= λ _, mret tt end.
Definition ensure_collection (db coll : string) : W unit :=
  r ← engine (db_get_collection db coll);
  match r with Ok _ => mret tt | Err _ => engine (db_create_collection db coll None) ≫= λ _, mret tt end.

(** ** Applying entries *)

Variable fresh : N → string * Z.

(** "Physical shards have names like users_s0": contains [_s] and ends in a digit. *)
Fixpoint contains_s (s : string) : bool :=
  match s with
  | EmptyString => false
  | String c s' => (Ascii.eqb c "_" && starts_with "s" s') || contains_s s'
  end.
Fixpoint ends_in_digit (s : string) : bool :=
  match s with
  | EmptyString => false
  | String c EmptyString => Codec.in_range 48 57 c
  | String _ s' => ends_in_digit s'
  end.
Definition is_physical_shard (collection : string) : bool := contains_s collection && ends_in_digit collection.

Definition duplicate (e : SyncEntry) : W bool := ask (SyncState.is_duplicate (origin_node e) (sync_origin_sequence e)).
Definition applied (e : SyncEntry) : W unit := sync (SyncState.update_origin_sequence (origin_node e) (sync_origin_sequence e)).

(** The metadata of a created collection; the casts to [u16] wrap. *)
Definition shard_config_of (v : Value) : CollectionShardConfig :=
  mkCollectionShards (default 1%N (value_get "num_shards" v ≫= as_u64) mod u16_modulus)
    (default "_key" (value_get "shard_key" v ≫= as_str))
    (default 1%N (value_get "replication_factor" v ≫= as_u64) mod u16_modulus).
Definition set_shard_config (config : CollectionShardConfig) (c : Collection Num DB) : result DbError unit * Collection Num DB :=
  match shard_config_to_vec config with
  | None => (Err (JsonError ""), c)
  | Some bytes =>
      match kv_write [Put SHARD_CONFIG_KEY bytes] (db c) with
      | Some d => (Ok tt, set_db d c)
      | None => (Err (InternalError "Failed to store shard config"), c)
      end
  end.
Definition get_shard_config (c : Collection Num DB) : option CollectionShardConfig * Collection Num DB :=
  (kv_get SHARD_CONFIG_KEY (db c) ≫= shard_config_from_slice, c).
Definition entry_metadata (e : SyncEntry) : option Value :=
  match document_data e with Some bytes => json_from_slice bytes | None => None end.
Definition set_replicated_shards (e : SyncEntry) (v : Value) : W unit :=
  match v with
  | Null => mret tt
  | _ => with_collection (sync_database e) (sync_collection e) (λ id, call id (set_shard_config (shard_config_of v)))
  end.
Definition create_replicated (e : SyncEntry) : W unit :=
  let metadata := entry_metadata e in
  let collection_type := (metadata ≫= value_get "type") ≫= as_str in
  r ← engine (db_create_collection (sync_database e) (sync_collection e) collection_type);
  match r with
  | Ok _ => match metadata ≫= value_get "shardConfig" with Some v => set_replicated_shards e v | None => mret tt end
  | Err _ => mret tt
  end.
Definition truncate_shards (e : SyncEntry) (n : N) : W unit :=
  for_each (λ i, with_collection (sync_database e) (sync_collection e +:+ ("_s" +:+ dec (N.of_nat i)))
                   (λ id, call id truncate)) (List.seq 0 (N.to_nat n)).
Definition truncate_replicated (e : SyncEntry) : W unit :=
  with_collection (sync_database e) (sync_collection e) (λ id,
    shards ← engine (try_handle None id get_shard_config);
    match shards with
    | Some config => if (0 <? cs_num_shards config)%N then truncate_shards e (cs_num_shards config) else mret tt
    | None => mret tt
    end ≫= λ _, call id truncate).
Definition on_columnar (f : Engine → Engine) : W unit := engine (modify f).

Definition apply_entry (e : SyncEntry) : W unit :=
  dup ← duplicate e;
  if dup : bool then mret tt
  else if is_physical_shard (sync_collection e) then mret tt
  else
    match sync_operation e with
    | Insert | Update =>
        match document_data e with
        | None => mret tt
        | Some bytes =>
            match json_from_slice bytes with
            | None => fail (DecodeError "Invalid document")
            | Some doc =>
                ensure_database (sync_database e) ≫= λ _,
                with_database (sync_database e) (
                  ensure_collection (sync_database e) (sync_collection e) ≫= λ _,
                  with_collection (sync_database e) (sync_collection e) (λ id,
                    call id (upsert_batch [(fresh (sync_sequence e), (document_key e, doc))])))
            end
        end
    | Delete =>
        with_database (sync_database e) (
          with_collection (sync_database e) (sync_collection e) (λ id,
            call id (Collection.delete (document_key e))))
    | CreateDatabase => engine (create_database (sync_database e)) ≫= λ _, mret tt
    | DeleteDatabase => engine (delete_database (sync_database e)) ≫= λ _, mret tt
    | CreateCollection => with_database (sync_database e) (create_replicated e)
    | DeleteCollection =>
        with_database (sync_database e) (engine (db_delete_collection (sync_database e) (sync_collection e)) ≫= λ _, mret tt)
    | TruncateCollection => with_database (sync_database e) (truncate_replicated e)
    | PutBlobChunk | DeleteBlob => mret tt
    | ColumnarInsert =>
        match document_data e with
        | None => mret tt
        | Some bytes =>
            match json_from_slice bytes with
            | None => fail (DecodeError "Invalid columnar row")
            | Some row =>
                ensure_database (sync_database e) ≫= λ _,
                with_database (sync_database e)
                  (on_columnar (columnar_insert (sync_database e) (sync_collection e) (document_key e) row))
            end
        end
    | ColumnarDelete =>
        with_database (sync_database e) (on_columnar (columnar_delete (sync_database e) (sync_collection e) (document_key e)))
    | ColumnarCreateCollection =>
        ensure_database (sync_database e) ≫= λ _,
        with_database (sync_database e)
          (match document_data e with
           | Some columns => on_columnar (columnar_create (sync_database e) (sync_collection e) columns)
           | None => mret tt
           end)
    | ColumnarDropCollection => with_database (sync_database e) (on_columnar (columnar_drop (sync_database e) (sync_collection e)))
    | ColumnarTruncate => with_database (sync_database e) (on_columnar (columnar_truncate (sync_database e) (sync_collection e)))
    end ≫= λ _, applied e.

(** The documents of the entries of a batch that are no duplicates. *)
Fixpoint batch_documents (entries : list SyncEntry) : W (list (string * Z * (string * Value))) :=
  match entries with
  | [] => mret []
  | e :: entries' =>
      dup ← duplicate e;
      match (if dup : bool then None else document_data e) with
      | None => batch_documents entries'
      | Some bytes =>
          match json_from_slice bytes with
          | None => fail (DecodeError "Invalid document")
          | Some doc => rest ← batch_documents entries'; mret ((fresh (sync_sequence e), (document_key e, doc)) :: rest)
          end
      end
  end.
Fixpoint batch_keys (entries : list SyncEntry) : W (list string) :=
  match entries with
  | [] => mret []
  | e :: entries' =>
      dup ← duplicate e;
      rest ← batch_keys entries';
      mret (if dup : bool then rest else document_key e :: rest)
  end.
Definition apply_batch (entries : list SyncEntry) : W unit :=
  match entries with
  | [] => mret tt
  | first :: _ =>
      let database := sync_database first in
      let collection := sync_collection first in
      let operation := sync_operation first in
      if is_physical_shard collection then mret tt
      else
        (match operation with
         | Insert | Update =>
             ensure_database database ≫= λ _, with_database database (ensure_collection database collection)
         | _ => mret tt
         end) ≫= λ _,
        match operation with
        | Insert | Update =>
            with_database database (with_collection database collection (λ id,
              batch_data ← batch_documents entries;
              match batch_data with [] => mret tt | _ => call id (upsert_batch batch_data) end))
        | Delete =>
            with_database database (with_collection database collection (λ id,
              keys_to_delete ← batch_keys entries;
              match keys_to_delete with [] => mret tt | _ => call id (delete_batch keys_to_delete) end))
        | _ => for_each apply_entry entries
        end ≫= λ _,
        for_each applied entries
  end.

(** ** Incremental synchronisation *)

Definition data_operation (o : Operation) : bool := match o with Insert | Update | Delete => true | _ => false end.
Definition same_batch (first next : SyncEntry) : bool :=
  String.eqb (sync_database next) (sync_database first) && String.eqb (sync_collection next) (sync_collection first) &&
  bool_decide (sync_operation next = sync_operation first).
(** The loop over the entries; each round takes at least one, so that [fuel] rounds are enough for
    as many entries. *)
Fixpoint apply_entries (fuel : nat) (entries : list SyncEntry) : W unit :=
  match fuel, entries with
  | S fuel', first :: rest =>
      if data_operation (sync_operation first) then
        let batch := take_while (same_batch first) rest in
        apply_batch (first :: batch) ≫= λ _, apply_entries fuel' (drop (length batch) rest)
      else apply_entry first ≫= λ _, apply_entries fuel' rest
  | _, _ => mret tt
  end.
Definition max_sequence (entries : list SyncEntry) : option N :=
  foldr (λ e acc, Some (match acc with Some n => N.max (sync_sequence e) n | None => sync_sequence e end)) None entries.
(** [reply]: what the peer answers to a request for the entries after a number. *)
Definition incremental_sync (peer_addr : string) (reply : N → result TransportError SyncMessage) : W bool :=
  after_seq ← ask (SyncState.get_origin_sequence peer_addr);
  match reply after_seq with
  | Err e => fail e
  | Ok (SyncBatch entries _ current_sequence _) =>
      apply_entries (length entries) entries ≫= λ _,
      match max_sequence entries with
      | Some max_seq =>
          if (after_seq <? max_seq)%N then sync (SyncState.update_origin_sequence peer_addr max_seq) else mret tt
      | None => mret tt
      end ≫= λ _,
      let latest_we_have := default after_seq (max_sequence entries) in
      mret (latest_we_have <? current_sequence)%N
  | Ok _ => mret false
  end.
(** "Sync loop - keep fetching while there's more data": whether it came to an end within [fuel]
    pages. An error ends the loop and disconnects the peer. *)
Fixpoint sync_pages (fuel : nat) (now : N) (peer : SyncState.PeerInfo) (reply : N → result TransportError SyncMessage) : W bool :=
  match fuel with
  | O => mret false
  | S fuel' => λ w,
      match incremental_sync (SyncState.sync_address peer) reply w with
      | None => None
      | Some (Ok true, w') => sync_pages fuel' now peer reply w'
      | Some (Ok false, w') => Some (Ok true, w')
      | Some (Err _, w') => (sync (SyncState.set_peer_connected now (SyncState.peer_id peer) false) ≫= λ _, mret true) w'
      end
  end.

(** One peer of the round: [connect] are the outcomes of the two attempts to connect. *)
Definition mark_local (st : Cluster.NodeStatus) : W unit := λ w,
  in_cluster (Cluster.mark_status (SyncState.node_id (state w)) st) w.
Definition sync_with_peer (fuel : nat) (now : N) (connect : string → bool * bool)
    (reply : string → N → result TransportError SyncMessage) (peer : SyncState.PeerInfo) : W unit :=
  let '(first, second) := connect (SyncState.sync_address peer) in
  (if negb (SyncState.is_connected peer) && first
   then sync (SyncState.set_peer_connected now (SyncState.peer_id peer) true) else mret tt) ≫= λ _,
  if SyncState.is_connected peer || second then
    sync (SyncState.set_peer_connected now (SyncState.peer_id peer) true) ≫= λ _,
    mark_local Cluster.Syncing ≫= λ _,
    sync_pages fuel now peer (reply (SyncState.sync_address peer)) ≫= λ _,
    mark_local Cluster.Active
  else mret tt.
(** The members of the cluster that are no peers yet become peers. *)
Definition discover (now : N) (peers : list SyncState.PeerInfo) (m : Cluster.ClusterMember Stats) : W (list SyncState.PeerInfo) := λ w,
  let nd := Cluster.node m in
  if String.eqb (Cluster.id nd) (SyncState.node_id (state w)) then Some (Ok peers, w)
  else if existsb (λ p, String.eqb (SyncState.peer_id p) (Cluster.id nd)) peers then Some (Ok peers, w)
  else (sync (SyncState.add_peer now (Cluster.id nd) (Cluster.address nd) (Cluster.api_address nd)) ≫= λ _,
        mret (peers ++ [SyncState.mkPeer (Cluster.id nd) (Cluster.address nd) (Cluster.api_address nd) now false])) w.
Fixpoint discover_all (now : N) (peers : list SyncState.PeerInfo) (ms : list (Cluster.ClusterMember Stats)) : W (list SyncState.PeerInfo) :=
  match ms with
  | [] => mret peers
  | m :: ms' => peers' ← discover now peers m; discover_all now peers' ms'
  end.
Definition sync_with_peers (fuel : nat) (now : N) (connect : string → bool * bool)
    (reply : string → N → result TransportError SyncMessage) : W unit :=
  known ← ask SyncState.get_peers;
  members ← (λ w, Some (Ok (match cluster w with Some c => Cluster.get_all_members c | None => [] end), w));
  peers ← discover_all now known members;
  for_each (sync_with_peer fuel now connect reply) peers.

(** ** Answering *)

(** The answer to a request for entries. *)
Definition answer_incremental `{!EntryCodec} {LDB : Type} `{!KvStore LDB} (hlc : Hlc.HybridLogicalClock)
    (after max_bytes : N) (log : SyncLog LDB) : SyncMessage :=
  let limit := N.to_nat (N.max (max_bytes / 1024) 100) in
  let log_entries := get_entries_after after limit log in
  let current_seq := current_sequence log in
  let entries := (λ e, to_sync_entry e hlc) <$> log_entries in
  let has_more := match last entries with Some e => (sync_sequence e <? current_seq)%N | None => false end in
  SyncBatch entries has_more current_seq false.
Definition receive_heartbeat (mono now : N) (node : string) (sequence : N) (stats : SyncState.NodeStats) : W unit :=
  sync (SyncState.update_heartbeat mono node stats) ≫= λ _,
  in_cluster (Cluster.update_heartbeat now node sequence None).

(** ** Dead nodes *)

(** The peers that sent no heartbeat for too long are removed, also from the cluster; whether the
    shards are to be rebalanced is the result, and the state is stored unless no peer is left. *)
Definition check_dead_nodes (now : N) (config : SyncConfig) : W (bool * bool) :=
  dead ← ask (SyncState.dead_nodes now (dead_node_timeout config));
  match dead with
  | [] => mret (false, false)
  | _ =>
      for_each (λ node, sync (SyncState.remove_peer node) ≫= λ _, in_cluster (Cluster.remove_member node)) dead ≫= λ _,
      peers ← ask SyncState.get_peers;
      mret (match peers with [] => false | _ => true end, true)
  end.

(** ** Full synchronisation *)

Context `{batch_codec : !BatchCodec Num} `{codec : !MessageCodec}.

(** One message of the peer: [true] when it was the last one. *)
Definition full_sync_message (m : SyncMessage) : W bool :=
  match m with
  | FullSyncDatabase n => engine (create_database n) ≫= λ _, mret false
  | FullSyncCollection database n _ =>
      with_database database (engine (db_create_collection database n None) ≫= λ _, mret tt) ≫= λ _, mret false
  | FullSyncDocuments database collection data compressed _ =>
      match (if compressed : bool then lz4_decompress data else Some data) with
      | None => fail (DecodeError "Decompression failed")
      | Some docs_data =>
          match values_bincode docs_data with
          | None => fail (DecodeError "")
          | Some docs =>
              for_each (λ doc : Value,
                match value_get "_key" doc ≫= as_str with
                | Some k =>
                    with_database database (with_collection database collection (λ id,
                      call id (upsert_batch [(fresh 0, (k, doc))])))
                | None => mret tt
                end) docs ≫= λ _, mret false
          end
      end
  | FullSyncComplete _ => mret true
  | _ => mret false
  end.
(** The messages as they arrive, up to the last one; the stream ending before is an error. *)
Fixpoint request_full_sync (messages : list (result TransportError SyncMessage)) : W unit :=
  match messages with
  | [] => fail Disconnected
  | Err e :: _ => fail e
  | Ok m :: messages' => done_ ← full_sync_message m; if done_ : bool then mret tt else request_full_sync messages'
  end.

(** The answer to a request for everything: the messages written, in order. *)
Fixpoint collect {A B} (f : A → W (list B)) (l : list A) : W (list B) :=
  match l with [] => mret [] | x :: l' => ys ← f x; rest ← collect f l'; mret (ys ++ rest) end.
Definition in_database {A} (db : string) (k : W (list A)) : W (list A) :=
  r ← engine (get_database db);
  match r with Ok _ => k | Err _ => mret [] end.
Definition in_collection {A} (db coll : string) (k : nat → W (list A)) : W (list A) :=
  r ← engine (db_get_collection db coll);
  match r with Ok id => k id | Err _ => mret [] end.
(** The loop over the documents: full batches as they fill up, then the rest. *)
Fixpoint document_batches (batch : list Value) (docs : list Value) : list (list Value) :=
  match docs with
  | [] => match batch with [] => [] | _ => [batch] end
  | d :: docs' =>
      let batch' := batch ++ [d] in
      if (1000 <=? length batch')%nat then batch' :: document_batches [] docs' else document_batches batch' docs'
  end.
Definition documents_message (database collection : string) (batch : list Value) : SyncMessage :=
  let data := default "" (bincode_values batch) in
  let compress := (10 * 1024 <? N.of_nat (String.length data))%N in
  FullSyncDocuments database collection (if compress then lz4_compress data else data) compress
    (wrap32 (N.of_nat (length batch))).
(** The numbers of collections and of documents, as their handles count them. *)
Definition count_all (databases : list string) : W (N * N) :=
  counts ← collect (λ db, in_database db (
    colls ← engine (db_list_collections db);
    docs ← collect (λ coll, in_collection db coll (λ id, n ← engine (handle_count id); mret [n])) colls;
    mret [(N.of_nat (length colls), foldr N.add 0%N docs)])) databases;
  mret (wrap32 (foldr N.add 0%N counts.*1), wrap64 (foldr N.add 0%N counts.*2)).
Definition answer_full_sync (final_sequence : N) : W (list SyncMessage) :=
  databases ← engine list_databases;
  totals ← count_all databases;
  body ← collect (λ db,
    inner ← in_database db (
      colls ← engine (db_list_collections db);
      collect (λ coll,
        docs ← in_collection db coll (λ id, engine (on_handle id (λ c, (to_value <$> scan c None, c))));
        mret (FullSyncCollection db coll None :: (documents_message db coll <$> document_batches [] docs))) colls);
    mret (FullSyncDatabase db :: inner)) databases;
  mret (FullSyncStart (wrap32 (N.of_nat (length databases))) (totals.1) (totals.2) :: body ++ [FullSyncComplete final_sequence]).
End Worker.
End SyncWorker.
