(* ===== verification/SyncWorkerProps.v ===== *)
(** * Properties of the replication worker

    A node that starts empty and pulls the log of a peer page by page comes to hold the documents
    the peer wrote. The theorem composes the parts: the log of the peer answers without gaps
    ([SyncLog]), the messages arrive as they are, the worker groups the entries into batches, the
    storage engine opens or creates the collections ([Databases]), and the collections take the
    batches. *)

From S2P Require Import Prelude Text Json Transaction Codec Kv Hlc Document DocStore Indexes Collection CollectionProps CollectionBatch CollectionBatchProps Databases DatabasesProps SyncLog SyncState SyncTransport Cluster SyncWorker.
Import SyncLog.SyncLog.
Import Json Codec Document Serializer Indexes Collection CollectionProps CollectionBatch CollectionBatchProps.BatchProps.
Import Databases DatabasesProps SyncTransport SyncWorker.

(** ** Batches on a collection *)

Module BatchDocs.
Section BatchDocs.
Context {Num : Type} `{!JsonNumber Num} `{!JsonText Num} `{!MetaJson Num} `{!DocumentJson Num}
  `{!DocCodec Num} `{!DocCodecLaws Num}.
Context `{hex_crate : !HexCrate} `{std_text : !StdText} `{hex_laws : !HexLaws}.
Context {DB : Type} `{!KvStore DB} `{!KvLaws DB} `{!KvReliable DB}.
Notation Value := (Value Num).
Notation Collection := (Collection Num DB).
Notation upsert := (string * Z * (string * Value))%type.
Implicit Types (c : Collection) (k : string) (l : list upsert).

Definition last_for k l : option upsert := last (filter (λ p, p.2.1 = k) l).
Lemma last_for_cons k p l : last_for k (p :: l) =
  match last_for k l with Some q => Some q | None => if decide (p.2.1 = k) then Some p else None end.
Proof.
  unfold last_for. rewrite filter_cons. case_decide; [|by destruct (last (filter _ l))].
  rewrite last_cons. by destruct (last (filter _ l)).
Qed.
Lemma upsert_ops_last c k l o :
  (match foldl (write_key (doc_key k)) o (omap (upsert_one c) l).*1.*1 with
   | Some bytes => match deserialize_doc bytes with Ok x => Some x | Err _ => None end
   | None => None
   end) =
  match last_for k l with
  | Some (rev, now, (k', v)) => Some (upserted rev now k' v c).1
  | None => match o with
            | Some bytes => match deserialize_doc bytes with Ok x => Some x | Err _ => None end
            | None => None
            end
  end.
Proof.
  revert o. induction l as [|[[rev now] [k' v]] l IH]; intros o; [done|]. rewrite last_for_cons.
  destruct (upserted rev now k' v c) as [doc ex] eqn:Eu. destruct (serialize_some doc) as [bytes Hs].
  assert (upsert_one c (rev, now, (k', v)) = Some (Put (doc_key k') bytes, (k', to_value doc), negb ex)) as Ho.
  { unfold upsert_one. by rewrite Eu, Hs. }
  cbn [omap list_omap]. rewrite Ho. cbn [fmap list_fmap fst foldl]. rewrite IH. cbn [snd fst write_key].
  destruct (last_for k l) as [[[rev' now'] [k'' v']]|]; [done|]. destruct (decide (k' = k)) as [->|Hne].
  - rewrite decide_True, Eu by done. by rewrite (proj1 (deserialize_serialize _ _ Hs)).
  - by rewrite decide_False by by intros ?%doc_key_inj.
Qed.
(** After a batch of upserts each document is what the last of them on its key makes of the
    document stored before the batch. *)
Lemma upsert_batch_docs c l : collection_type c ≠ "timeseries" →
  let c' := (upsert_batch l c).2 in
  name c' = name c ∧ collection_type c' = collection_type c ∧
  ∀ k, doc_of (db c') k = match last_for k l with
                          | Some (rev, now, (k', v)) => Some (upserted rev now k' v c).1
                          | None => doc_of (db c) k
                          end.
Proof.
  intros Ht. unfold upsert_batch. destruct l as [|p l']; [done|].
  generalize (p :: l') as l. clear p l'. intros l.
  rewrite (proj2 (String.eqb_neq _ _) Ht). unfold write.
  destruct (kv_write_ok (omap (upsert_one c) l).*1.*1 (db c)) as [d' Hd']. rewrite Hd'. cbn zeta. cbn [snd].
  set (c1 := if (_ <? _)%N then _ else _). set (calls := _ <$> _).
  assert (∀ calls c, name (vector_all calls c) = name c ∧ collection_type (vector_all calls c) = collection_type c ∧
    db (vector_all (Num:=Num) (DB:=DB) calls c) = db c) as Hv.
  { clear. intros calls. unfold vector_all. induction calls as [|v calls IH]; intros c; [done|]. cbn.
    destruct (IH (vector v c)) as (H1 & H2 & H3). done. }
  destruct (Hv calls c1) as (H1 & H2 & H3).
  assert (name c1 = name c ∧ collection_type c1 = collection_type c ∧ db c1 = d') as (H4 & H5 & H6).
  { unfold c1. by destruct (0 <? _)%N. }
  split_and!; [congruence..|]. intros k. unfold doc_of at 1. rewrite H3, H6, (kv_get_write _ _ _ _ Hd').
  rewrite upsert_ops_last. by destruct (last_for k l) as [[[? ?] [? ?]]|].
Qed.

(** What an upsert leaves of a document: the fields of the new data that are no metadata, and the
    stored ones. *)
Lemma upserted_fields rev now k (fs : list (string * Value)) c :
  OMap.wf fs → (∀ x, doc_of (db c) k = Some x → ∃ m, data x = Object m ∧ OMap.wf m) →
  ∃ m, data (upserted rev now k (Object fs) c).1 = Object m ∧ OMap.wf m ∧
    ∀ f, starts_with_underscore f = false →
      OMap.get f m = match OMap.get f fs with
                     | Some v => Some v
                     | None => doc_of (db c) k ≫= λ x, value_get f (data x)
                     end.
Proof.
  intros Hw Hx. set (new := OMap.insert "_key" (JString k) fs).
  assert (OMap.wf new) as Hnew by by apply OMap.wf_insert.
  assert (∀ f, starts_with_underscore f = false → OMap.get f new = OMap.get f fs) as Hnf.
  { intros f Hf. unfold new. rewrite OMap.get_insert by done. rewrite decide_False; [done|]. by intros <-. }
  assert (∃ m, strip (Object new) = Object m ∧ OMap.wf m ∧
    ∀ f, starts_with_underscore f = false → OMap.get f m = OMap.get f fs) as (m0 & Em & Hm0 & Hg0).
  { eexists. split; [reflexivity|]. destruct (remove_all_get system_fields new "" Hnew) as [_ Hwf]. split; [done|].
    intros f Hf. destruct (remove_all_get system_fields new f Hnew) as [Hg _]. rewrite Hg, decide_False; [by apply Hnf|].
    intros Hs%system_underscore. congruence. }
  unfold upserted. unfold doc_of in *. destruct (kv_get (doc_key k) (db c)) as [bytes|].
  2: { exists m0. split_and!; [done..|]. intros f Hf. rewrite Hg0 by done. by destruct (OMap.get f fs). }
  destruct (deserialize_doc bytes) as [x|err].
  2: { exists m0. split_and!; [done..|]. intros f Hf. rewrite Hg0 by done. by destruct (OMap.get f fs). }
  destruct (Hx x eq_refl) as (m & Ed & Hm). cbn [fst]. unfold Document.update. cbn [data]. rewrite Ed.
  eexists. split; [reflexivity|]. destruct (update_fields_get new m "" Hnew Hm) as [Hwf _]. split; [exact Hwf|].
  intros f Hf. destruct (update_fields_get new m f Hnew Hm) as [_ Hg]. etransitivity; [exact Hg|]. rewrite Hf, Hnf by done.
  cbn [mbind option_bind]. rewrite Ed. by destruct (OMap.get f fs).
Qed.

(** After a batch of deletions the documents named are gone and the others are as they were. *)
Lemma delete_ops_docs (bs : list (block (Num:=Num))) k o : plain k →
  Forall (λ b, b_op b = Del (doc_key (b_key b)) ∧ Forall (entry_space ∘ op_target) (b_entries b)) bs →
  foldl (write_key (doc_key k)) o (concat (block_ops <$> bs)) = if decide (k ∈ b_key <$> bs) then None else o.
Proof.
  intros Hk Hbs. revert o. induction Hbs as [|b bs [Hop He] _ IH]; intros o; [by rewrite decide_False by apply not_elem_of_nil|].
  cbn [fmap list_fmap concat]. rewrite foldl_app, IH. unfold block_ops. cbn [foldl]. rewrite Hop, entries_keep_docs by done.
  cbn [write_key]. destruct (decide (b_key b = k)) as [->|Hne].
  - rewrite (decide_True (P:=doc_key k = doc_key k)) by done. rewrite (decide_True (P:=k ∈ k :: _)) by left. by case_decide.
  - rewrite (decide_False (P:=doc_key (b_key b) = doc_key k)) by by intros ?%doc_key_inj. repeat case_decide; try done; set_solver.
Qed.
Lemma delete_batch_docs c keys : Forall plain keys →
  let c' := (delete_batch keys c).2 in
  name c' = name c ∧ collection_type c' = collection_type c ∧
  ∀ k, plain k → doc_of (db c') k = if decide (k ∈ keys) then None else doc_of (db c) k.
Proof.
  intros Hp. unfold delete_batch.
  destruct (deleting_all c [] keys (c, mkDeletion [] []) []) as [bs Hd]; [by constructor|].
  assert (name (foldl delete_one (c, mkDeletion [] []) keys).1 = name c ∧
    collection_type (foldl delete_one (c, mkDeletion [] []) keys).1 = collection_type c) as Hname.
  { clear. generalize (mkDeletion (Num:=Num) [] []) as del. revert c. induction keys as [|k keys IH]; intros c del; [done|].
    cbn [foldl]. unfold delete_one at 2 4. destruct (get c k) as [x|]; [|apply IH].
    set (c1 := if blob_only c then _ else c).
    assert (name c1 = name c ∧ collection_type c1 = collection_type c) as [H1 H2].
    { unfold c1. destruct (blob_only c); [|done]. unfold delete_blob_data, write. destruct (0 <? _)%N; [|done].
      by destruct (kv_write _ _). }
    destruct (IH (vector (VectorDelete k) c1) (mkDeletion (del_batch del ++ Del (doc_key k) ::
      match delete_entries (db c) k (to_value x) with Ok l => l | Err _ => [] end) (del_docs del ++ [(k, to_value x)]))) as [H3 H4].
    split; [rewrite H3|rewrite H4]; done. }
  destruct (foldl delete_one _ keys) as [c1 del]. destruct Hd as [Hs _ _ Hb Hdocs Hk Hbl]. cbn [fst snd app] in *.
  assert (∀ k, plain k → doc_of (db c1) k = doc_of (db c) k) as Hsame by (intros; by apply same_docs_doc_of).
  assert (Forall (λ b, b_op b = Del (doc_key (b_key b)) ∧ Forall (entry_space ∘ op_target) (b_entries b)) bs) as Hops.
  { apply Forall_forall. intros b Hin. rewrite Forall_forall in Hbl.
    assert (b_key b ∈ b_key <$> bs) as Hkb by (apply list_elem_of_fmap; eauto).
    rewrite Hk in Hkb. apply list_elem_of_filter in Hkb as [_ Hkb].
    destruct (Hbl b Hin) as (_ & Hst & Hr); [by apply (proj1 (Forall_forall _ _) Hp)|].
    apply list_elem_of_lookup in Hin as [i Hi].
    destruct (Forall2_lookup_l _ _ _ _ _ Hdocs Hi) as (p & _ & Hn & _).
    rewrite Hn in Hst. by split; [|apply Hr]. }
  assert (∀ k, plain k → (if decide (k ∈ b_key <$> bs) then None else doc_of (db c) k) =
    (if decide (k ∈ keys) then None else doc_of (db c) k)) as Hin.
  { intros k _. rewrite Hk. destruct (doc_of (db c) k) eqn:E; [|by repeat case_decide].
    apply decide_ext. rewrite list_elem_of_filter, E. split; [by intros [_ ?]|intros ?; split; [by eexists|done]]. }
  destruct (del_docs del) as [|p docs] eqn:Edocs.
  { cbn [snd]. split_and!; [apply Hname..|]. intros k Hpk. rewrite Hsame, <- Hin by done.
    assert (bs = []) as -> by by inversion Hdocs. by rewrite decide_False by by intros ?%elem_of_nil. }
  unfold write. destruct (kv_write_ok (del_batch del) (db c1)) as [d' Hd']. rewrite Hd'. cbn [snd].
  set (events := _ <$> p :: docs). set (c2 := sub_count _ _). destruct (send_all_keeps events c2) as (Hsd & _ & _).
  assert (∀ c, name (send_all (Num:=Num) (DB:=DB) events c) = name c ∧ collection_type (send_all events c) = collection_type c) as Hsn.
  { clear. unfold send_all. induction events as [|v events IH]; intros c; [done|]. cbn. destruct (IH (send v c)). done. }
  split_and!; [rewrite (proj1 (Hsn c2)); apply Hname|rewrite (proj2 (Hsn c2)); apply Hname|].
  intros k Hpk. rewrite <- Hin, <- Hsame by done. unfold doc_of. rewrite Hsd. cbn [db sub_count set_db c2].
  change (db c2) with d'. rewrite (kv_get_write _ _ _ _ Hd'), Hb, delete_ops_docs by done. by case_decide.
Qed.
End BatchDocs.
End BatchDocs.

(** ** The worker on the engine *)

Module SyncWorkerProps.
Import BatchDocs.
Section Props.
Context {Num : Type} `{!JsonNumber Num} `{!JsonText Num} `{!MetaJson Num} `{!DocumentJson Num}
  `{!DocCodec Num} `{!DocCodecLaws Num}.
Context `{hex_crate : !HexCrate} `{std_text : !StdText} `{hex_laws : !HexLaws} `{std_laws : !StdTextLaws}.
Context {DB : Type} `{!KvStore DB} `{!KvLaws DB} `{!KvReliable DB} `{!Families DB} `{!FamiliesLaws DB} `{!FamiliesReliable DB}.
Context `{schema : !SchemaCheck Num DB} `{columnar : !ColumnarOps Num (Engine Num DB)} `{shard_json : !ShardConfigJson}.
Context `{order : !HashOrder} {Stats : Type}.
Variable fresh : N → string * Z.
Notation Value := (Value Num).
Notation Engine := (Engine Num DB).
Notation Worker := (Worker (Num:=Num) (DB:=DB) (Stats:=Stats)).
Notation W := (W (Num:=Num) (DB:=DB) (Stats:=Stats)).
Notation fields := (list (string * Value)).
Implicit Types (e : Engine) (w : Worker) (db coll k : string).

(** No collection is a time series, which refuses upserts. *)
Definition accepts_upserts (t : string) : Prop := t ≠ "timeseries".
Definition ready e : Prop := wf accepts_upserts e ∧ ∃ T, tree e T.
Definition stored e db coll k : option (Document Num) :=
  match families e !! collection_cf_name db coll with Some d => doc_of d k | None => None end.
Definition at_engine w e : Worker := mkWorker e (state w) (cluster w).
Definition valid_db db : Prop := db ≠ "" ∧ no_colon db = true.

Lemma document_type : accepts_upserts (utf8_lossy "document").
Proof. by rewrite utf8_lossy_valid. Qed.
Lemma ensure_database_ok db w : ready (storage w) → valid_db db →
  ∃ e, ensure_database db w = Some (Ok tt, at_engine w e) ∧ ready e ∧ db ∈ listed e ∧
    ∀ db' coll k, stored e db' coll k = stored (storage w) db' coll k.
Proof.
  intros [Hw [T Ht]] [Hne Hnc]. unfold ensure_database, mbind, W_bind, engine.
  destruct (get_database_spec _ db _ Hw) as (r & e1 & -> & Hw1 & Hf1 & _ & _ & Hr).
  pose proof (tree_families _ _ _ Hf1 Ht) as Ht1. destruct r as [[]|err].
  - exists e1. split_and!; [done|by split; [|exists T]|by rewrite (listed_families _ _ Hf1)|].
    intros. unfold stored. by rewrite Hf1.
  - cbn [storage state cluster]. destruct (create_database_spec _ db e1 T Hw1 Ht1) as (r & e2 & -> & Hw2 & Hf2 & _ & Ht2 & Hl & _).
    exists e2. split_and!; [done|split; [done|by eexists]|by apply Hl|]. intros. unfold stored. by rewrite Hf2, Hf1.
Qed.
Lemma with_database_ok db (m : W unit) w : ready (storage w) → db ∈ listed (storage w) →
  ∃ e, with_database db m w = m (at_engine w e) ∧ ready e ∧ families e = families (storage w) ∧ db ∈ listed e.
Proof.
  intros [Hw [T Ht]] Hl. unfold with_database, mbind, W_bind, engine.
  destruct (get_database_spec _ db _ Hw) as (r & e1 & -> & Hw1 & Hf1 & _ & _ & Hr).
  destruct r as [[]|err]; [|done]. exists e1. split_and!; [done| |done|by rewrite (listed_families _ _ Hf1)].
  split; [done|]. exists T. by eapply tree_families.
Qed.
Lemma ensure_collection_ok db coll w : ready (storage w) → db ∈ listed (storage w) →
  ∃ e, ensure_collection db coll w = Some (Ok tt, at_engine w e) ∧ ready e ∧ db ∈ listed e ∧
    is_Some (families e !! collection_cf_name db coll) ∧
    ∀ db' coll' k, no_colon db' = true → stored e db' coll' k = stored (storage w) db' coll' k.
Proof.
  intros [Hw [T Ht]] Hl. unfold ensure_collection, mbind, W_bind, engine.
  destruct (db_get_collection_spec _ db coll _ Hw Hl) as (r & e1 & -> & Hw1 & Hf1 & Hr).
  pose proof (tree_families _ _ _ Hf1 Ht) as Ht1. pose proof (listed_families _ _ Hf1) as Hl1. destruct r as [id|err].
  - destruct Hr as [Hs _]. exists e1. split_and!; [done|by split; [|exists T]|by rewrite Hl1|by rewrite Hf1|].
    intros. unfold stored. by rewrite Hf1.
  - cbn [storage state cluster].
    destruct (db_create_collection_spec _ db coll None e1 T Hw1 Ht1) as (r & e2 & -> & Hw2 & Hok & Ht2 & _ & _ & Hf2);
      [by rewrite Hl1|apply document_type|].
    assert (is_ok r = true) as Er by (apply Hok; by rewrite Hf1). rewrite Er in *. destruct Hf2 as (d & Hf2 & Hd).
    exists e2. split_and!; [done|split; [done|by eexists]| | |].
    + assert (listed e2 = listed e1) as ->; [|by rewrite Hl1]. unfold listed. rewrite Hf2.
      by rewrite lookup_insert_ne by apply cf_name_not_meta.
    + rewrite Hf2, lookup_insert_eq. by eexists.
    + intros db' coll' k Hdb'. unfold stored. rewrite Hf2, Hf1, lookup_insert. case_decide as E; [|done]. rewrite <- E, Hr.
      unfold doc_of. rewrite Hd, decide_False; [done|]. intros Hk. pose proof (starts_with_app DOC_PREFIX k) as Hp.
      change (DOC_PREFIX +:+ k) with (doc_key k) in Hp. by rewrite Hk in Hp.
Qed.
Lemma with_collection_ok db coll (m : nat → W unit) w : ready (storage w) → db ∈ listed (storage w) →
  is_Some (families (storage w) !! collection_cf_name db coll) →
  ∃ id e, with_collection db coll m w = m id (at_engine w e) ∧ ready e ∧ families e = families (storage w) ∧
    cache_of db e !! coll = Some id.
Proof.
  intros [Hw [T Ht]] Hl [d Hd]. unfold with_collection, mbind, W_bind, engine.
  destruct (db_get_collection_spec _ db coll _ Hw Hl) as (r & e1 & -> & Hw1 & Hf1 & Hr).
  destruct r as [id|err]; [|congruence]. exists id, e1. split_and!; [done| |done|by destruct Hr].
  split; [done|]. exists T. by eapply tree_families.
Qed.
Lemma call_ok {A} db coll id (f : Collection Num DB → A * Collection Num DB) w :
  ready (storage w) → cache_of db (storage w) !! coll = Some id → keeps_name f →
  ∃ c e, call id f w = Some (Ok tt, at_engine w e) ∧ ready e ∧ accepts_upserts (collection_type c) ∧
    families (storage w) !! collection_cf_name db coll = Some (Collection.db c) ∧
    families e = <[collection_cf_name db coll := Collection.db (f c).2]> (families (storage w)).
Proof.
  intros [Hw [T Ht]] Hc Hf. unfold call, mbind, W_bind, engine.
  destruct (on_handle_spec _ db coll id f _ T Hw Ht Hc Hf) as (d & h & e' & Hd & Hh & HP & Hn & -> & Hw' & Ht' & _ & _ & Hfam).
  exists (attach d h), e'. split_and!; [done|split; [done|by eexists]|done..].
Qed.

(** ** Entries *)

(** The fields of the document of an entry. *)
Definition entry_fields (x : SyncEntry) : option fields := entry_metadata x ≫= as_object.
(** An entry that the theorem is about: a write of an object or a deletion, of a plain key in an
    ordinary collection. *)
Record replicable (x : SyncEntry) : Prop := {
  rp_db : valid_db (sync_database x);
  rp_coll : is_physical_shard (sync_collection x) = false;
  rp_key : plain (document_key x);
  rp_op : sync_operation x = Delete ∨
    (sync_operation x = Insert ∨ sync_operation x = Update) ∧ ∃ fs, entry_metadata x = Some (Object fs) ∧ OMap.wf fs;
}.
Definition not_applied (st : SyncState.SyncState) (x : SyncEntry) : Prop :=
  SyncState.is_duplicate (origin_node x) (sync_origin_sequence x) st = false.
Definition all_applied (st : SyncState.SyncState) (xs : list SyncEntry) : SyncState.SyncState :=
  foldl (λ st x, SyncState.update_origin_sequence (origin_node x) (sync_origin_sequence x) st) st xs.

Lemma for_each_applied xs w : for_each applied xs w = Some (Ok tt, mkWorker (storage w) (all_applied (state w) xs) (cluster w)).
Proof.
  revert w. induction xs as [|x xs IH]; intros w; [by destruct w|]. cbn [for_each]. unfold mbind, W_bind, applied, sync.
  by rewrite IH.
Qed.
Definition upsert_of (x : SyncEntry) : option (string * Z * (string * Value)) :=
  (λ v, (fresh (sync_sequence x), (document_key x, v))) <$> entry_metadata x.
Lemma batch_documents_ok xs w : Forall (not_applied (state w)) xs →
  Forall (λ x, is_Some (entry_metadata x)) xs → batch_documents fresh xs w = Some (Ok (omap upsert_of xs), w).
Proof.
  intros Hn Hd. induction xs as [|x xs IH]; [done|]. apply Forall_cons in Hn as [Hx Hn], Hd as [[v Hv] Hd].
  cbn [batch_documents omap list_omap]. unfold mbind, W_bind, duplicate, ask. rewrite Hx.
  assert (upsert_of x = Some (fresh (sync_sequence x), (document_key x, v))) as -> by by unfold upsert_of; rewrite Hv.
  unfold entry_metadata in Hv. destruct (document_data x) as [bytes|]; [|done]. rewrite Hv.
  rewrite (IH Hn Hd). done.
Qed.
Lemma batch_keys_ok xs w : Forall (not_applied (state w)) xs → batch_keys xs w = Some (Ok (document_key <$> xs), w).
Proof.
  intros Hn. induction xs as [|x xs IH]; [done|]. apply Forall_cons in Hn as [Hx Hn].
  cbn [batch_keys]. unfold mbind, W_bind, duplicate, ask. rewrite Hx, (IH Hn). done.
Qed.
Lemma upsert_keeps l : keeps_name (upsert_batch (Num:=Num) (DB:=DB) l).
Proof.
  intros c. destruct (decide (collection_type c = "timeseries")) as [E|E].
  - unfold upsert_batch. destruct l; [done|]. by rewrite E.
  - by destruct (upsert_batch_docs c l E) as (? & ? & _).
Qed.

(** What a batch of writes on one collection does. *)
Lemma apply_writes_ok x xs w : ready (storage w) → valid_db (sync_database x) →
  is_physical_shard (sync_collection x) = false → sync_operation x = Insert ∨ sync_operation x = Update →
  Forall (not_applied (state w)) (x :: xs) → Forall (λ x, is_Some (entry_metadata x)) (x :: xs) →
  ∃ e, apply_batch fresh (x :: xs) w = Some (Ok tt, mkWorker e (all_applied (state w) (x :: xs)) (cluster w)) ∧ ready e ∧
    ∃ c, accepts_upserts (collection_type c) ∧
      (∀ k, doc_of (Collection.db c) k = stored (storage w) (sync_database x) (sync_collection x) k) ∧
      (∀ k, stored e (sync_database x) (sync_collection x) k =
            doc_of (Collection.db (upsert_batch (omap upsert_of (x :: xs)) c).2) k) ∧
      ∀ db coll k, no_colon db = true → (db, coll) ≠ (sync_database x, sync_collection x) →
        stored e db coll k = stored (storage w) db coll k.
Proof.
  intros Hr [Hne Hnc] Hsh Hop Hna Hmeta. unfold apply_batch. cbn [app]. rewrite Hsh.
  set (db := sync_database x) in *. set (coll := sync_collection x) in *.
  set (m1 := with_database db (ensure_collection db coll)).
  set (l := omap upsert_of (x :: xs)).
  set (body := λ id, batch_data ← batch_documents fresh (x :: xs);
    match batch_data with [] => mret tt | _ => call id (upsert_batch batch_data) end).
  set (m2 := with_database db (with_collection db coll body)).
  match goal with |- ∃ e, ?lhs = _ ∧ _ =>
    assert (lhs = (ensure_database db ≫= λ _, m1 ≫= λ _, m2 ≫= λ _, for_each applied (x :: xs)) w) as ->
  end.
  { unfold mbind, W_bind. destruct Hop as [-> | ->]; destruct (ensure_database db w) as [[[[]|] w1]|]; try done;
      by destruct (m1 w1) as [[[[]|] w2]|]. }
  unfold mbind, W_bind.
  destruct (ensure_database_ok db w Hr (conj Hne Hnc)) as (e1 & -> & Hr1 & Hl1 & Hs1).
  destruct (with_database_ok db (ensure_collection db coll) (at_engine w e1) Hr1 Hl1) as (e2 & E2 & Hr2 & Hf2 & Hl2).
  unfold m1. rewrite E2. change (at_engine (at_engine w e1) e2) with (at_engine w e2).
  destruct (ensure_collection_ok db coll (at_engine w e2) Hr2 Hl2) as (e3 & -> & Hr3 & Hl3 & Hex & Hs3).
  destruct (with_database_ok db (with_collection db coll body) (at_engine w e3) Hr3 Hl3) as (e4 & E4 & Hr4 & Hf4 & Hl4).
  unfold m2. change (at_engine (at_engine w e2) e3) with (at_engine w e3). rewrite E4.
  destruct (with_collection_ok db coll body (at_engine w e4) Hr4 Hl4) as (id & e5 & E5 & Hr5 & Hf5 & Hc5).
  { cbn [at_engine storage]. rewrite Hf4. exact Hex. }
  change (at_engine (at_engine w e3) e4) with (at_engine w e4). rewrite E5.
  change (at_engine (at_engine w e4) e5) with (at_engine w e5).
  assert (body id (at_engine w e5) = call id (upsert_batch l) (at_engine w e5)) as ->.
  { unfold body, mbind, W_bind. rewrite (batch_documents_ok (x :: xs) (at_engine w e5)) by done. fold l.
    assert (l ≠ []) as Hl. { apply Forall_cons in Hmeta as [[v Hv] _]. unfold l. cbn [omap list_omap]. unfold upsert_of at 1. by rewrite Hv. }
    by destruct l. }
  destruct (call_ok db coll id (upsert_batch l) (at_engine w e5) Hr5 Hc5 (upsert_keeps l)) as (c & e6 & -> & Hr6 & Hty & Hfc & Hf6).
  rewrite for_each_applied. exists e6. split; [done|]. split; [done|]. exists c. cbn [at_engine storage] in *.
  assert (∀ db' coll' k, no_colon db' = true → stored e5 db' coll' k = stored (storage w) db' coll' k) as Hsame.
  { intros db' coll' k Hdb'. rewrite <- Hs1. unfold stored. rewrite Hf5, Hf4. rewrite <- Hf2. apply (Hs3 db' coll' k Hdb'). }
  split_and!; [done| | |].
  - intros k. rewrite <- Hsame by done. unfold stored. by rewrite Hfc.
  - intros k. unfold stored. by rewrite Hf6, lookup_insert_eq.
  - intros db' coll' k Hdb' Hneq. rewrite <- Hsame by done. unfold stored. rewrite Hf6, lookup_insert_ne; [done|].
    intros E. destruct (cf_name_inj _ _ _ _ Hnc Hdb' E). congruence.
Qed.

Lemma missing_stored e T db coll k : tree e T → no_colon db = true → db ∉ listed e → stored e db coll k = None.
Proof.
  intros [H1 H2] Hnc Hl. unfold stored. destruct (families e !! collection_cf_name db coll) eqn:E; [|done].
  destruct Hl. apply H1. destruct (proj1 (H2 db coll Hnc)) as (s & Hs & _); [by eexists|]. by eexists.
Qed.
(** What a batch of deletions on one collection does. *)
Lemma apply_deletes_ok x xs w : ready (storage w) → valid_db (sync_database x) →
  is_physical_shard (sync_collection x) = false → sync_operation x = Delete →
  Forall (not_applied (state w)) (x :: xs) → Forall plain (document_key <$> x :: xs) →
  ∃ e, apply_batch fresh (x :: xs) w = Some (Ok tt, mkWorker e (all_applied (state w) (x :: xs)) (cluster w)) ∧ ready e ∧
    (∀ k, plain k → stored e (sync_database x) (sync_collection x) k =
       if decide (k ∈ document_key <$> x :: xs) then None else stored (storage w) (sync_database x) (sync_collection x) k) ∧
    ∀ db coll k, no_colon db = true → (db, coll) ≠ (sync_database x, sync_collection x) →
      stored e db coll k = stored (storage w) db coll k.
Proof.
  intros Hr [Hne Hnc] Hsh Hop Hna Hp. unfold apply_batch. rewrite Hsh, Hop.
  set (db := sync_database x) in *. set (coll := sync_collection x) in *. set (keys := document_key <$> x :: xs).
  set (body := λ id, keys_to_delete ← batch_keys (x :: xs);
    match keys_to_delete with [] => mret tt | _ => call id (delete_batch keys_to_delete) end).
  assert (∃ e, with_database db (with_collection db coll body) w = Some (Ok tt, at_engine w e) ∧ ready e ∧
    (∀ k, plain k → stored e db coll k = if decide (k ∈ keys) then None else stored (storage w) db coll k) ∧
    ∀ db' coll' k, no_colon db' = true → (db', coll') ≠ (db, coll) → stored e db' coll' k = stored (storage w) db' coll' k)
    as (e & He & Hrest).
  2: { exists e. split; [|exact Hrest]. unfold mbind at 1, W_bind at 1. unfold mret at 1, W_ret at 1. unfold mbind, W_bind.
       fold body. rewrite He. by rewrite for_each_applied. }
  destruct Hr as [Hw [T Ht]]. destruct (decide (db ∈ listed (storage w))) as [Hl|Hl].
  2: { destruct (get_database_spec _ db _ Hw) as (r & e1 & E1 & Hw1 & Hf1 & _ & _ & Hr).
       exists e1. unfold with_database, mbind, W_bind, engine. rewrite E1. destruct r as [[]|err]; [done|].
       split_and!; [done|split; [done|exists T; by eapply tree_families]| |intros; unfold stored; by rewrite Hf1].
       intros k _. assert (∀ e, families e = families (storage w) → stored e db coll k = None) as Hno.
       { intros e Hf. unfold stored. rewrite Hf. by apply (missing_stored _ T). }
       rewrite !Hno by done. by case_decide. }
  destruct (with_database_ok db (with_collection db coll body) w (conj Hw (ex_intro _ T Ht)) Hl) as (e1 & -> & Hr1 & Hf1 & Hl1).
  destruct (families (storage w) !! collection_cf_name db coll) as [d|] eqn:Ed.
  - destruct (with_collection_ok db coll body (at_engine w e1) Hr1 Hl1) as (id & e2 & -> & Hr2 & Hf2 & Hc2).
    { cbn. rewrite Hf1, Ed. by eexists. }
    change (at_engine (at_engine w e1) e2) with (at_engine w e2). unfold body, mbind, W_bind. rewrite (batch_keys_ok (x :: xs) (at_engine w e2)) by done.
    fold keys. assert (∀ c : Collection Num DB, let c' := (delete_batch keys c).2 in name c' = name c ∧ collection_type c' = collection_type c ∧
      ∀ k, plain k → doc_of (Collection.db c') k = if decide (k ∈ keys) then None else doc_of (Collection.db c) k) as Hdel
      by (intros c; by apply delete_batch_docs).
    destruct (call_ok db coll id (delete_batch keys) (at_engine w e2) Hr2 Hc2) as (c & e3 & Ecall & Hr3 & _ & Hfc & Hf3).
    { intros c. by destruct (Hdel c) as (? & ? & _). }
    exists e3. split; [exact Ecall|]. split; [done|]. cbn [at_engine storage] in *. rewrite Hf2, Hf1 in Hf3, Hfc.
    assert (Collection.db c = d) as Hcd by congruence. split.
    + intros k Hk. unfold stored. rewrite Hf3, lookup_insert_eq, Ed, <- Hcd. by apply Hdel.
    + intros db' coll' k Hdb' Hneq. unfold stored. rewrite Hf3, lookup_insert_ne; [done|].
      intros E. destruct (cf_name_inj _ _ _ _ Hnc Hdb' E). congruence.
  - destruct Hr1 as [Hw1 [T1 Ht1]].
    destruct (db_get_collection_spec _ db coll e1 Hw1 Hl1) as (r & e2 & E2 & Hw2 & Hf2 & Hr).
    unfold with_collection, mbind, W_bind, engine. cbn [at_engine storage]. rewrite E2. rewrite Hf1, Ed in Hr.
    destruct r as [id|err]; [by destruct Hr as [[? ?] _]|]. exists e2. split_and!; [done|split; [done|exists T1; by eapply tree_families]| |].
    + intros k _. unfold stored. rewrite Hf2, Hf1, Ed. by case_decide.
    + intros. unfold stored. by rewrite Hf2, Hf1.
Qed.

(** ** What a log asks for *)

Definition hits (x : SyncEntry) db coll k : Prop := sync_database x = db ∧ sync_collection x = coll ∧ document_key x = k.
Definition outcome (x : SyncEntry) : option fields :=
  if decide (sync_operation x = Delete) then None else entry_fields x.
(** The document after the entries: that of the last one on the key. *)
Definition want (xs : list SyncEntry) db coll k : option fields :=
  foldl (λ o x, if decide (hits x db coll k) then outcome x else o) None xs.
(** Entries carry whole documents: a write names all the fields, metadata aside, that the document
    had. *)
Definition covers (fs0 fs : fields) : Prop :=
  ∀ f, starts_with_underscore f = false → is_Some (OMap.get f fs0) → is_Some (OMap.get f fs).
Definition whole_documents (xs : list SyncEntry) : Prop := ∀ pre x post fs0 fs, xs = pre ++ x :: post →
  want pre (sync_database x) (sync_collection x) (document_key x) = Some fs0 → outcome x = Some fs → covers fs0 fs.
(** A stored document and the one asked for agree but for the metadata. *)
Definition shows (o : option (Document Num)) (fs : option fields) : Prop :=
  match fs with
  | None => o = None
  | Some fs => ∃ x m, o = Some x ∧ data x = Object m ∧ OMap.wf m ∧
      ∀ f, starts_with_underscore f = false → OMap.get f m = OMap.get f fs
  end.
Definition holds e (xs : list SyncEntry) : Prop :=
  ∀ db coll k, no_colon db = true → plain k → shows (stored e db coll k) (want xs db coll k).

Lemma want_snoc xs x db coll k :
  want (xs ++ [x]) db coll k = if decide (hits x db coll k) then outcome x else want xs db coll k.
Proof. unfold want. by rewrite foldl_app. Qed.
Lemma want_other xs ys db coll k : Forall (λ y, ¬ hits y db coll k) ys → want (xs ++ ys) db coll k = want xs db coll k.
Proof.
  revert xs. induction ys as [|y ys IH]; intros xs H; [by rewrite app_nil_r|]. apply Forall_cons in H as [Hy H].
  rewrite cons_middle, app_assoc, IH, want_snoc by done. by rewrite decide_False.
Qed.
Lemma want_covers pre xs post db coll k fs0 : whole_documents (pre ++ xs ++ post) → Forall (λ x, is_Some (outcome x)) xs →
  want pre db coll k = Some fs0 → ∃ fs, want (pre ++ xs) db coll k = Some fs ∧ covers fs0 fs.
Proof.
  intros Hw Hs H0. revert post Hw Hs. induction xs as [|x xs IH] using rev_ind; intros post Hw Hs.
  { exists fs0. rewrite app_nil_r. split; [done|]. by intros f. }
  apply Forall_app in Hs as [Hs [[fx Hfx] _]%Forall_cons].
  destruct (IH ([x] ++ post)) as (fs & Hfs & Hc); [by rewrite <- app_assoc in Hw|done|].
  rewrite app_assoc, want_snoc. destruct (decide (hits x db coll k)) as [(<- & <- & <-)|]; [|by exists fs].
  exists fx. split; [done|]. intros f Hf H. apply (Hw (pre ++ xs) x post fs fx); [by rewrite <- !app_assoc|done..|].
  by apply Hc.
Qed.
Lemma last_for_snoc (l : list (string * Z * (string * Value))) p k :
  last_for k (l ++ [p]) = if decide (p.2.1 = k) then Some p else last_for k l.
Proof. unfold last_for. rewrite filter_app, filter_cons, filter_nil. case_decide; [by rewrite last_snoc|by rewrite app_nil_r]. Qed.
(** The last upsert of a batch on a key is the last entry of the batch on it. *)
Lemma last_upsert pre xs db coll k :
  Forall (λ x, sync_database x = db ∧ sync_collection x = coll ∧ sync_operation x ≠ Delete ∧
               ∃ fs, entry_metadata x = Some (Object fs) ∧ OMap.wf fs) xs →
  match last_for k (omap upsert_of xs) with
  | Some (_, (k', v)) => k' = k ∧ ∃ fs, v = Object fs ∧ OMap.wf fs ∧ want (pre ++ xs) db coll k = Some fs
  | None => want (pre ++ xs) db coll k = want pre db coll k
  end.
Proof.
  induction xs as [|x xs IH] using rev_ind; intros H; [by rewrite app_nil_r|].
  apply Forall_app in H as [H [(Hdb & Hcoll & Hop & fs & Hm & Hw) _]%Forall_cons]. specialize (IH H).
  rewrite omap_app. cbn [omap list_omap]. unfold upsert_of at 2. rewrite Hm. cbn [fmap option_fmap option_map].
  rewrite last_for_snoc, app_assoc, want_snoc. cbn [fst snd].
  destruct (decide (document_key x = k)) as [Hk|Hk].
  - split; [done|]. exists fs. split_and!; [done..|]. rewrite decide_True by done. unfold outcome, entry_fields.
    rewrite decide_False by done. by rewrite Hm.
  - rewrite decide_False by (intros (? & ? & ?); done). exact IH.
Qed.

(** ** One batch *)

Lemma replicable_write x : replicable x → sync_operation x ≠ Delete →
  (sync_operation x = Insert ∨ sync_operation x = Update) ∧ ∃ fs, entry_metadata x = Some (Object fs) ∧ OMap.wf fs.
Proof. intros [_ _ _ [Hd|H]] Hn; [done|exact H]. Qed.
Definition one_batch (x : SyncEntry) (xs : list SyncEntry) : Prop := Forall (λ y, same_batch x y = true) xs.
Lemma same_batch_spec x y : same_batch x y = true ↔
  sync_database y = sync_database x ∧ sync_collection y = sync_collection x ∧ sync_operation y = sync_operation x.
Proof. unfold same_batch. rewrite !andb_true_iff, !String.eqb_eq, bool_decide_eq_true. tauto. Qed.
Lemma same_batch_refl x : same_batch x x = true.
Proof. by apply same_batch_spec. Qed.

Lemma write_batch_holds pre x xs post w : ready (storage w) → holds (storage w) pre →
  Forall replicable (x :: xs) → one_batch x xs → sync_operation x ≠ Delete →
  Forall (not_applied (state w)) (x :: xs) → whole_documents (pre ++ (x :: xs) ++ post) →
  ∃ e, apply_batch fresh (x :: xs) w = Some (Ok tt, mkWorker e (all_applied (state w) (x :: xs)) (cluster w)) ∧
    ready e ∧ holds e (pre ++ x :: xs).
Proof.
  intros Hr Hh Hrep Hone Hop Hna Hwd.
  assert (Forall (λ y, sync_database y = sync_database x ∧ sync_collection y = sync_collection x ∧ sync_operation y ≠ Delete ∧
    ∃ fs, entry_metadata y = Some (Object fs) ∧ OMap.wf fs) (x :: xs)) as Hall.
  { apply Forall_forall. intros y Hy. assert (same_batch x y = true) as (-> & -> & E)%same_batch_spec.
    { apply elem_of_cons in Hy as [->|Hy]; [apply same_batch_refl|by apply (proj1 (Forall_forall _ _) Hone)]. }
    rewrite E. split_and!; [done..|]. apply (replicable_write y); [by apply (proj1 (Forall_forall _ _) Hrep)|by rewrite E]. }
  pose proof (proj1 (Forall_cons _ _ _) Hrep) as [Hx _].
  destruct (apply_writes_ok x xs w) as (e & He & Hre & c & Hty & Hdc & Hse & Hoth); try done; [apply Hx..|by apply replicable_write| |].
  { eapply Forall_impl; [exact Hall|]. intros y (_ & _ & _ & fs & Hfs & _). by eexists. }
  exists e. split_and!; [done..|]. intros db coll k Hdb Hk. pose proof (Hh db coll k Hdb Hk) as Hsh.
  destruct (decide ((db, coll) = (sync_database x, sync_collection x))) as [[= -> ->]|Hne].
  2: { rewrite Hoth, want_other; [done| |done..]. eapply Forall_impl; [exact Hall|]. intros y (H1 & H2 & _) (H3 & H4 & _). congruence. }
  rewrite Hse. destruct (upsert_batch_docs c (omap upsert_of (x :: xs)) Hty) as (_ & _ & Hdocs). rewrite Hdocs.
  pose proof (last_upsert pre (x :: xs) (sync_database x) (sync_collection x) k Hall) as Hlast.
  destruct (last_for k _) as [[[rev now] [k' v]]|]; [|by rewrite Hlast, Hdc].
  destruct Hlast as (-> & fs & -> & Hwf & Hwant). rewrite Hwant.
  destruct (upserted_fields rev now k fs c Hwf) as (m & Hm & Hwm & Hget).
  { intros y Hy. rewrite Hdc in Hy. destruct (want pre (sync_database x) (sync_collection x) k); cbn in Hsh; [|congruence].
    destruct Hsh as (y' & m & Hy' & Hd & Hwm & _). exists m. split; [congruence|done]. }
  eexists _, m. split_and!; [done..|]. intros f Hf. rewrite Hget, Hdc by done.
  destruct (OMap.get f fs) as [v|] eqn:Ef; [done|].
  destruct (want pre (sync_database x) (sync_collection x) k) as [fs0|] eqn:E0; cbn [shows] in Hsh; [|by rewrite Hsh].
  destruct Hsh as (y & m0 & -> & Hd & _ & Hg0). cbn. rewrite Hd. cbn [value_get]. rewrite Hg0 by done.
  destruct (want_covers pre (x :: xs) post (sync_database x) (sync_collection x) k fs0 Hwd) as (fs' & Hfs' & Hc); [|done|].
  { eapply Forall_impl; [exact Hall|]. intros y' (_ & _ & Ho & fy & Hfy & _). unfold outcome, entry_fields.
    rewrite decide_False, Hfy by done. by eexists. }
  assert (fs' = fs) as -> by congruence. destruct (OMap.get f fs0) eqn:Ef0; [|done].
  destruct (Hc f Hf ltac:(by rewrite Ef0)) as [? ?]. congruence.
Qed.
Lemma delete_batch_holds pre x xs w : ready (storage w) → holds (storage w) pre →
  Forall replicable (x :: xs) → one_batch x xs → sync_operation x = Delete →
  Forall (not_applied (state w)) (x :: xs) →
  ∃ e, apply_batch fresh (x :: xs) w = Some (Ok tt, mkWorker e (all_applied (state w) (x :: xs)) (cluster w)) ∧
    ready e ∧ holds e (pre ++ x :: xs).
Proof.
  intros Hr Hh Hrep Hone Hop Hna. pose proof (proj1 (Forall_cons _ _ _) Hrep) as [Hx _].
  assert (Forall (λ y, sync_database y = sync_database x ∧ sync_collection y = sync_collection x ∧ sync_operation y = Delete) (x :: xs)) as Hall.
  { constructor; [done|]. eapply Forall_impl; [exact Hone|]. intros y (-> & -> & ->)%same_batch_spec. done. }
  destruct (apply_deletes_ok x xs w) as (e & He & Hre & Hse & Hoth); try done; [apply Hx..| |].
  { apply Forall_fmap. eapply Forall_impl; [exact Hrep|]. by intros y []. }
  exists e. split_and!; [done..|]. intros db coll k Hdb Hk. pose proof (Hh db coll k Hdb Hk) as Hsh.
  destruct (decide ((db, coll) = (sync_database x, sync_collection x))) as [[= -> ->]|Hne].
  2: { rewrite Hoth, want_other; [done| |done..]. eapply Forall_impl; [exact Hall|]. intros y (H1 & H2 & _) (H3 & H4 & _). congruence. }
  rewrite Hse by done. clear -Hall Hsh. revert Hall. generalize (x :: xs) as ys. intros ys Hall.
  assert (want (pre ++ ys) (sync_database x) (sync_collection x) k =
    if decide (k ∈ document_key <$> ys) then None else want pre (sync_database x) (sync_collection x) k) as ->; [|by case_decide].
  induction ys as [|y ys IH] using rev_ind; [rewrite app_nil_r, decide_False; [done|by intros ?%elem_of_nil]|].
  apply Forall_app in Hall as [Hall [(Hdb & Hcoll & Hop) _]%Forall_cons]. rewrite app_assoc, want_snoc, fmap_app.
  destruct (decide (document_key y = k)) as [Hk|Hk].
  - rewrite decide_True by done. unfold outcome. rewrite decide_True by done. rewrite decide_True; [done|]. cbn. set_solver.
  - rewrite decide_False by (intros (? & ? & ?); done). rewrite IH by done. apply decide_ext. cbn. set_solver.
Qed.

(** ** The numbers *)

(** Entries a node numbered itself, the first being [n + 1]. *)
Definition numbered (node : string) (n : nat) (xs : list SyncEntry) : Prop := ∀ i x, xs !! i = Some x →
  origin_node x = node ∧ sync_origin_sequence x = N.of_nat (n + i + 1) ∧ sync_sequence x = N.of_nat (n + i + 1).
Lemma numbered_split node n xs ys : numbered node n (xs ++ ys) ↔ numbered node n xs ∧ numbered node (n + length xs) ys.
Proof.
  split.
  - intros H. split; intros i x Hi; [apply H; by apply lookup_app_l_Some|].
    destruct (H (length xs + i) x) as (? & ? & ?); [rewrite lookup_app_r by lia; by rewrite Nat.add_comm, Nat.add_sub|].
    by replace (n + length xs + i + 1) with (n + (length xs + i) + 1) by lia.
  - intros [H1 H2] i x. rewrite lookup_app. destruct (xs !! i) eqn:E; [intros [= <-]; by apply H1|].
    apply lookup_ge_None in E. intros Hi. replace (n + i + 1) with (n + length xs + (i - length xs) + 1) by lia. by apply H2.
Qed.
Lemma numbered_head node n x xs : numbered node n (x :: xs) →
  origin_node x = node ∧ sync_origin_sequence x = N.of_nat (n + 1) ∧ sync_sequence x = N.of_nat (n + 1).
Proof. intros H. replace (n + 1) with (n + 0 + 1) by lia. by apply (H 0). Qed.
Lemma numbered_not_applied node n xs st : numbered node n xs → SyncState.get_origin_sequence node st = N.of_nat n →
  Forall (not_applied st) xs.
Proof.
  intros Hn Hst. apply Forall_forall. intros x [i Hi]%list_elem_of_lookup. destruct (Hn i x Hi) as (Ho & Hs & _).
  unfold not_applied, SyncState.is_duplicate. rewrite Ho, Hs. change (default 0%N _) with (SyncState.get_origin_sequence node st).
  rewrite Hst. apply N.leb_gt. lia.
Qed.
Lemma update_origin_get o seq st o' : SyncState.get_origin_sequence o' (SyncState.update_origin_sequence o seq st) =
  if decide (o' = o) then N.max (SyncState.get_origin_sequence o st) seq else SyncState.get_origin_sequence o' st.
Proof.
  unfold SyncState.update_origin_sequence, SyncState.get_origin_sequence. destruct (N.ltb_spec (default 0%N (SyncState.origin_sequences st !! o)) seq).
  - cbn. rewrite lookup_insert. repeat case_decide; try congruence. cbn. lia.
  - case_decide; [subst|done]. lia.
Qed.
Lemma all_applied_get node n xs st o : numbered node n xs → SyncState.get_origin_sequence node st = N.of_nat n →
  SyncState.get_origin_sequence o (all_applied st xs) =
  if decide (o = node) then N.of_nat (n + length xs) else SyncState.get_origin_sequence o st.
Proof.
  unfold all_applied. revert n st. induction xs as [|x xs IH]; intros n st Hn Hst; cbn [foldl length].
  - case_decide; [subst; rewrite Hst; f_equal; lia|done].
  - destruct (numbered_head _ _ _ _ Hn) as (Ho & Hs & _). apply (numbered_split _ _ [x] xs) in Hn as [_ Hn]. cbn [length] in Hn.
    rewrite (IH (n + 1)); [|done|].
    + rewrite update_origin_get, Ho. repeat case_decide; try congruence. f_equal. lia.
    + rewrite update_origin_get, Ho, Hs, decide_True, Hst by done. lia.
Qed.
Lemma max_sequence_numbered node n xs : numbered node n xs → xs ≠ [] → max_sequence xs = Some (N.of_nat (n + length xs)).
Proof.
  revert n. induction xs as [|x xs IH]; intros n Hn Hne; [done|].
  destruct (numbered_head _ _ _ _ Hn) as (_ & _ & Hs). apply (numbered_split _ _ [x] xs) in Hn as [_ Hn]. cbn [length] in Hn.
  unfold max_sequence. cbn [foldr]. fold (max_sequence xs). destruct xs as [|y xs].
  - cbn. rewrite Hs. do 2 f_equal.
  - rewrite (IH (n + 1)) by done. rewrite Hs. cbn [length]. f_equal. lia.
Qed.

(** ** Pages *)

Lemma take_while_split {A} (f : A → bool) l : l = take_while f l ++ drop (length (take_while f l)) l.
Proof. induction l as [|x l IH]; [done|]. cbn [take_while]. destruct (f x); [cbn; by f_equal|done]. Qed.
Lemma take_while_all {A} (f : A → bool) l : Forall (λ x, f x = true) (take_while f l).
Proof. induction l as [|x l IH]; [constructor|]. cbn [take_while]. destruct (f x) eqn:E; by constructor. Qed.

Lemma batch_holds pre x xs post w : ready (storage w) → holds (storage w) pre →
  Forall replicable (x :: xs) → one_batch x xs → Forall (not_applied (state w)) (x :: xs) →
  whole_documents (pre ++ (x :: xs) ++ post) →
  ∃ e, apply_batch fresh (x :: xs) w = Some (Ok tt, mkWorker e (all_applied (state w) (x :: xs)) (cluster w)) ∧
    ready e ∧ holds e (pre ++ x :: xs).
Proof.
  intros. destruct (decide (sync_operation x = Delete)); [by apply delete_batch_holds|by apply (write_batch_holds _ _ _ post)].
Qed.
Lemma replicable_data x : replicable x → data_operation (sync_operation x) = true.
Proof. by intros [_ _ _ [-> | [[-> | ->] _]]]. Qed.

Lemma apply_entries_holds node fuel rest n pre post w : length rest ≤ fuel →
  ready (storage w) → holds (storage w) pre → Forall replicable rest → whole_documents (pre ++ rest ++ post) →
  numbered node n rest → SyncState.get_origin_sequence node (state w) = N.of_nat n →
  ∃ e, apply_entries fresh fuel rest w = Some (Ok tt, mkWorker e (all_applied (state w) rest) (cluster w)) ∧
    ready e ∧ holds e (pre ++ rest).
Proof.
  revert rest n pre w. induction fuel as [|fuel IH]; intros [|x xs] n pre w Hf Hr Hh Hrep Hwd Hn Hst;
    try (cbn in Hf; lia); try (exists (storage w); rewrite app_nil_r; by destruct w).
  cbn [apply_entries]. rewrite replicable_data by by apply Forall_cons in Hrep as [? _].
  pose proof (take_while_split (same_batch x) xs) as Hsplit. pose proof (take_while_all (same_batch x) xs) as Hone.
  set (batch := take_while (same_batch x) xs) in *. set (rest := drop (length batch) xs) in *.
  assert (length xs = length batch + length rest) as Hlen by by rewrite <- length_app, <- Hsplit.
  clearbody batch rest. subst xs.
  change (x :: batch ++ rest) with ((x :: batch) ++ rest) in *.
  apply Forall_app in Hrep as [Hrep1 Hrep2]. apply numbered_split in Hn as [Hn1 Hn2].
  destruct (batch_holds pre x batch (rest ++ post) w) as (e & He & Hre & Hhe); try done;
    [by eapply numbered_not_applied|by rewrite <- app_assoc in Hwd|].
  unfold mbind, W_bind. rewrite He.
  destruct (IH rest (n + length (x :: batch)) (pre ++ x :: batch) (mkWorker e (all_applied (state w) (x :: batch)) (cluster w)))
    as (e' & He' & Hre' & Hhe'); try done.
  - rewrite length_app in Hf. cbn [length] in Hf. lia.
  - by rewrite <- !app_assoc in Hwd |- *.
  - cbn [state]. rewrite (all_applied_get node n) by done. by rewrite decide_True.
  - exists e'. split_and!; [|done|by rewrite <- app_assoc in Hhe'].
    rewrite He'. cbn [state cluster]. unfold all_applied. by rewrite foldl_app.
Qed.

(** The worker has applied the first [n] of the entries of [node], which it pulls from [addr]. *)
Record synced (node addr : string) (all : list SyncEntry) (n : nat) w : Prop := {
  sy_ready : ready (storage w);
  sy_holds : holds (storage w) (take n all);
  sy_node : SyncState.get_origin_sequence node (state w) = N.of_nat n;
  sy_addr : SyncState.get_origin_sequence addr (state w) = N.of_nat n;
  sy_le : n ≤ length all;
}.
(** The peer answers with the next entries, up to a limit. *)
Definition answers (all : list SyncEntry) (limit : nat) (reply : N → result TransportError SyncMessage) : Prop :=
  ∀ n, n ≤ length all → ∃ more compressed,
    reply (N.of_nat n) = Ok (SyncBatch (take limit (drop n all)) more (N.of_nat (length all)) compressed).
Lemma ltb_of_nat a b : (N.of_nat a <? N.of_nat b)%N = (a <? b)%nat.
Proof. destruct (Nat.ltb_spec a b); [apply N.ltb_lt|apply N.ltb_ge]; lia. Qed.

Section Pull.
Context (node addr : string) (all : list SyncEntry) (limit : nat) (reply : N → result TransportError SyncMessage).
Hypothesis distinct : addr ≠ node.
Hypothesis entries_numbered : numbered node 0 all.
Hypothesis entries_replicable : Forall replicable all.
Hypothesis entries_whole : whole_documents all.
Hypothesis limit_pos : 0 < limit.
Hypothesis peer_answers : answers all limit reply.

Lemma pull_page n w : synced node addr all n w → let n' := Nat.min (n + limit) (length all) in
  ∃ w', incremental_sync fresh addr reply w = Some (Ok (n' <? length all)%nat, w') ∧ synced node addr all n' w'.
Proof.
  intros [Hr Hh Hn Ha Hle] n'. destruct (peer_answers n Hle) as (more & compressed & Hreply).
  set (page := take limit (drop n all)) in *.
  assert (all = take n all ++ page ++ drop n' all) as Hall.
  { assert (drop n' all = drop (n + limit) all) as ->.
    { unfold n'. destruct (Nat.min_spec (n + limit) (length all)) as [[_ ->]|[Hge ->]]; [done|]. by rewrite !drop_ge by lia. }
    unfold page. by rewrite <- drop_drop, !take_drop. }
  assert (n' = n + length page) as Hn' by (unfold page; rewrite length_take, length_drop; lia).
  assert (length (take n all) = n) as Hpre by (rewrite length_take; lia).
  pose proof entries_numbered as Hnum. rewrite Hall in Hnum. apply numbered_split in Hnum as [_ Hnum]. rewrite Hpre in Hnum.
  apply numbered_split in Hnum as [Hnum _].
  destruct (apply_entries_holds node (length page) page n (take n all) (drop n' all) w) as (e & He & Hre & Hhe);
    try done; [rewrite Hall in entries_replicable; by apply Forall_app in entries_replicable as [_ [? _]%Forall_app]|by rewrite <- Hall|].
  pose proof (all_applied_get node n page (state w) node Hnum Hn) as Hgn. rewrite decide_True in Hgn by done.
  pose proof (all_applied_get node n page (state w) addr Hnum Hn) as Hga. rewrite decide_False in Hga by done.
  assert (take n' all = take n all ++ page) as Htake.
  { rewrite Hall at 1. rewrite app_assoc, take_app_length'; [done|]. rewrite length_app. lia. }
  unfold incremental_sync, mbind, W_bind, ask, sync. rewrite Ha, Hreply, He. cbn [state storage cluster].
  destruct (decide (page = [])) as [E|E].
  - rewrite E in *. cbn [max_sequence foldr default length] in *. eexists. split.
    + unfold mret, W_ret. unfold Datatypes.id. by rewrite ltb_of_nat, Hn', Nat.add_0_r.
    + rewrite app_nil_r in *. split; cbn; [done|by rewrite Htake|by rewrite Hn', Nat.add_0_r, Hn|by rewrite Hn', Nat.add_0_r|lia].
  - rewrite (max_sequence_numbered node n page Hnum E). rewrite (proj2 (N.ltb_lt _ _)) by (destruct page; [done|cbn [length]; lia]).
    cbn [default state storage cluster]. eexists. split.
    + unfold mret, W_ret. unfold Datatypes.id. by rewrite ltb_of_nat, Hn'.
    + split; cbn [state storage].
      * done.
      * by rewrite Htake.
      * by rewrite update_origin_get, decide_False, Hgn, Hn' by done.
      * rewrite update_origin_get, decide_True, Hga, Ha, Hn' by done. lia.
      * lia.
Qed.
Lemma pull_pages now (peer : SyncState.PeerInfo) fuel n w : SyncState.sync_address peer = addr → synced node addr all n w →
  0 < fuel → length all - n ≤ fuel * limit →
  ∃ w', sync_pages fresh fuel now peer reply w = Some (Ok true, w') ∧ synced node addr all (length all) w'.
Proof.
  intros Hp. revert n w. induction fuel as [|fuel IH]; intros n w Hs Hf Hlen; [lia|]. cbn [sync_pages].
  destruct (pull_page n w Hs) as (w' & Hw' & Hs'). rewrite Hp, Hw'. pose proof (sy_le _ _ _ _ _ Hs) as Hle.
  destruct (Nat.ltb_spec (Nat.min (n + limit) (length all)) (length all)) as [Hlt|Hge].
  - apply IH with (n := Nat.min (n + limit) (length all)); [done| |].
    + destruct fuel; lia.
    + cbn [Nat.mul] in Hlen. lia.
  - exists w'. split; [done|]. by replace (Nat.min (n + limit) (length all)) with (length all) in Hs' by lia.
Qed.
End Pull.

(** ** The log of the peer *)

Section Log.
Context {LDB : Type} `{log_store : !KvStore LDB} `{log_laws : !KvLaws LDB} `{log_reliable : !KvReliable LDB}.
Context `{entry_codec : !EntryCodec} `{entry_laws : !EntryCodecLaws}.
Notation SyncLog := (SyncLog LDB).

(** An entry of the node itself, not one it has from another node. *)
Definition own (node : string) (e : LogEntry) : Prop :=
  (entry_node e = "" ∨ entry_node e = node) ∧ origin_sequence e = None.
(** The entries of a log as they are sent on a connection, whose clock is [hlc]. *)
Definition sent (node : string) (hlc : Hlc.HybridLogicalClock) (h : list LogEntry) : list SyncEntry :=
  (λ e : LogEntry, to_sync_entry e hlc) <$> stamp_from node 0 h.
Definition page_limit (max_bytes : N) : nat := N.to_nat (N.max (max_bytes / 1024) 100).

Lemma sent_length node hlc h : length (sent node hlc h) = length h.
Proof. unfold sent. by rewrite length_fmap, stamp_from_length. Qed.
Lemma sent_numbered node hlc h : Forall (own node) h → numbered node 0 (sent node hlc h).
Proof.
  unfold sent. generalize 0 as n. induction h as [|e h IH]; intros n Hown; [by intros i x|].
  apply Forall_cons in Hown as [[Hn Ho] Hown]. cbn [stamp_from fmap list_fmap]. apply (numbered_split _ _ [_] _). split.
  - intros [|i] x; [|done]. intros [= <-]. unfold to_sync_entry, stamp. cbn. rewrite Ho. cbn.
    replace (n + 0 + 1) with (n + 1) by lia. split_and!; [|done..]. destruct Hn as [-> | ->]; [done|]. by case_match eqn:E; [apply String.eqb_eq in E|].
  - cbn [length]. replace (n + 1) with (S n) by lia. by apply IH.
Qed.
Lemma log_answers node max d (l : SyncLog) h hlc max_bytes : kv_view d = [] → rtc log_step (SyncLog.SyncLog.new node d max, []) (l, h) →
  (N.of_nat (length h) + 1 < u64_modulus)%N →
  answers (sent node hlc h) (page_limit max_bytes) (λ after, Ok (answer_incremental hlc after max_bytes l)).
Proof.
  intros Hd Hrun Hb n Hn. rewrite sent_length in Hn |- *. pose proof (run_reachable _ _ _ _ _ Hd Hrun) as Hinv.
  destruct (get_entries_run node max l h n (page_limit max_bytes) Hinv) as [Hseq Hget]; [unfold page_limit; lia|lia|].
  do 2 eexists. unfold answer_incremental. fold (page_limit max_bytes). rewrite Hget, Hseq.
  unfold sent. rewrite <- fmap_drop, <- fmap_take. reflexivity.
Qed.

End Log.

(** A peer whose log has moved past entries it no longer has answers with none, and a number that
    is larger; the replica asks again and again for the same page. *)
Lemma sync_spins now (peer : SyncState.PeerInfo) reply w more head compressed fuel :
  let addr := SyncState.sync_address peer in
  (SyncState.get_origin_sequence addr (state w) < head)%N →
  reply (SyncState.get_origin_sequence addr (state w)) = Ok (SyncBatch [] more head compressed) →
  sync_pages fresh fuel now peer reply w = Some (Ok false, w).
Proof.
  intros addr Hlt Hr. induction fuel as [|fuel IH]; [done|]. cbn [sync_pages]. fold addr.
  unfold incremental_sync, mbind, W_bind, ask. rewrite Hr. cbn [apply_entries length]. unfold mret, W_ret.
  cbn [max_sequence foldr]. rewrite (proj2 (N.ltb_lt _ _)) by exact Hlt. exact IH.
Qed.
End Props.
End SyncWorkerProps.

(** *** A concrete replica *)

Module SyncWorkerDemo.
Import DocumentDemo CollectionDemo DatabasesDemo SyncWorkerProps.

#[local] Instance demo_columnar : ColumnarOps demo_number DemoEngine := {
  columnar_insert _ _ _ _ e := e;
  columnar_delete _ _ _ e := e;
  columnar_create _ _ _ e := e;
  columnar_drop _ _ e := e;
  columnar_truncate _ _ e := e;
}.
#[local] Instance demo_shards : ShardConfigJson := { shard_config_to_vec _ := None; shard_config_from_slice _ := None }.
#[local] Instance demo_hash_order : HashOrder := λ l, l.
#[local] Instance demo_json_text : JsonText demo_number := {
  num_as_f64 _ := None;
  num_of_f64 _ := None;
  json_to_string := to_text;
  json_from_slice := of_text;
}.
#[local] Instance demo_entries : EntryCodec := { encode_entry := to_text; decode_entry := of_text }.
#[local] Instance demo_entries_laws : EntryCodecLaws.
Proof. intros e. apply of_to_text. Qed.

Definition write (op : Operation) (k : string) (doc : Value demo_number) : LogEntry :=
  mkEntry 0 "" "db" "c" op k (Some (to_text doc)) 0 None.
Definition history : list LogEntry :=
  [write Insert "k1" (Object [("a", Bool true)]); write Update "k1" (Object [("a", Bool false); ("b", Null)]);
   write Insert "k2" (Object [("a", Null)]); mkEntry 0 "" "db" "c" Delete "k2" None 0 None].
Definition peer_log : SyncLog map_store := (append_batch history (SyncLog.SyncLog.new "n1" empty_store 2)).2.
Definition peer : SyncState.PeerInfo := SyncState.mkPeer "n1" "host:1" "host:2" 0 true.
Definition clock : Hlc.HybridLogicalClock := Hlc.mkHLC 0 0 "n1".
Definition replica : Worker (Num:=demo_number) (DB:=map_store) (Stats:=unit) :=
  mkWorker engine0 (SyncState.empty_state "n2") None.

Lemma history_whole : whole_documents (Num:=demo_number) (sent "n1" clock history).
Proof.
  intros pre x post fs0 fs E H0 Hx.
  destruct pre as [|x1 pre]; [by injection E as <- <-|].
  destruct pre as [|x2 pre]; [injection E as <- <- <-; vm_compute in H0, Hx; injection H0 as <-; injection Hx as <-|].
  { intros f _. cbn. destruct (String.eqb f "a"); [by eexists|by intros [? ?]]. }
  destruct pre as [|x3 pre]; [by injection E as <- <- <- <-|].
  destruct pre as [|x4 pre]; [by injection E as <- <- <- <- <-|]. by destruct pre.
Qed.
Lemma history_replicable : Forall (replicable (Num:=demo_number)) (sent "n1" clock history).
Proof.
  assert (∀ (op : Operation) k (fs : list (string * Value demo_number)) n, op = Insert ∨ op = Update → plain k → OMap.wf fs →
    replicable (Num:=demo_number) (to_sync_entry (stamp "n1" n (write op k (Object fs))) clock)) as Hw.
  { intros op k fs n Hop Hk Hfs. split; [done..|]. right. split; [done|]. exists fs. split; [|done].
    unfold entry_metadata. cbn. apply of_to_text. }
  apply Forall_cons. split; [apply Hw; [by left|done|repeat constructor]|].
  apply Forall_cons. split; [apply Hw; [by right|done|repeat constructor]|].
  apply Forall_cons. split; [apply Hw; [by left|done|repeat constructor]|].
  apply Forall_singleton. split; [done..|by left].
Qed.
Lemma replica_synced : synced (Num:=demo_number) (DB:=map_store) (Stats:=unit) "n1" "host:1" (sent "n1" clock history) 0 replica.
Proof.
  split; [split; [apply engine0_wf|exists ∅; apply engine0_tree]| |done..|apply Nat.le_0_l].
  intros db coll k _ _. unfold stored. cbn [storage replica]. by rewrite family0.
Qed.
End SyncWorkerDemo.
