(* ===== verification/ClusterManager.v ===== *)
(** * The manager of the cluster (src/cluster/manager.rs, transport.rs)

    A node answers the messages of the others: requests to join and their answers, by which the
    nodes come to know each other, heartbeats and leaves, and batches of replicated entries, which
    it applies to its own storage. [handle_message] returns the messages the node sends in turn,
    with their addresses. The clock is an argument. *)

From S2P Require Import Prelude Text Json Transaction Codec Kv Hlc Document DocStore Indexes Collection CollectionBatch Databases Sharding SyncLog SyncState SyncTransport Cluster SyncWorker.
Import SyncLog.SyncLog.
Import Json Codec Document Serializer Indexes Collection CollectionBatch Databases SyncTransport.

(** The order of the groups of a batch in their hash map. *)
Class GroupOrder := group_order : list (string * string) → list (string * string).
Class GroupOrderLaws `{!GroupOrder} : Prop := group_order_perm l : group_order l ≡ₚ l.

Module ClusterManager.
Import Cluster.

Section Manager.
Context {Num : Type} `{!JsonNumber Num} `{!JsonText Num} `{!MetaJson Num} `{!DocumentJson Num}
  `{!DocCodec Num}.
Context `{hex_crate : !HexCrate} `{std_text : !StdText}.
Context {DB : Type} `{!KvStore DB} `{!Families DB} `{schema : !SchemaCheck Num DB}.
Context `{shard_json : !ShardConfigJson} `{order : !HashOrder} `{groups : !GroupOrder} `{hash : !Sharding.KeyHash}.
Context {Stats : Type}.
Notation Value := (Value Num).
Notation Engine := (Engine Num DB).
Notation ClusterState := (ClusterState Stats).
Notation M := (Databases.M Num DB).

Inductive ClusterMessage :=
| JoinRequest (node : Node)
| JoinResponse (success : bool) (peers : list Node)
| Heartbeat (from : string) (sequence : N) (stats : option Stats)
| Leave (from : string)
| Replication (msg : SyncMessage).

Record Manager := mkManager {
  local_node : Node;
  state : ClusterState;
  storage : option Engine;
}.
Definition with_state (s : ClusterState) (m : Manager) : Manager := mkManager (local_node m) s (storage m).
(** [ClusterManager::new] adds the node itself. *)
Definition new_manager (now : N) (nd : Node) (s : ClusterState) (st : option Engine) : Manager :=
  mkManager nd (add_member now nd Active s).2 st.
Definition local_node_id (m : Manager) : string := id (local_node m).
Definition get_node_address (n : string) (m : Manager) : option string := address ∘ node <$> get_member n (state m).
Definition get_node_api_address (n : string) (m : Manager) : option string := api_address ∘ node <$> get_member n (state m).

(** ** Health *)

Definition unavailable (st : NodeStatus) : bool :=
  match st with Dead | Leaving | Syncing | Joining | Suspected => true | Active => false end.
(** The age of a heartbeat from the future wraps. *)
Definition is_node_healthy (now : N) (n : string) (m : Manager) : bool :=
  if String.eqb n (id (local_node m)) then true
  else match get_member n (state m) with
       | None => false
       | Some mem => if unavailable (status mem) then false else negb (30000 <? sub64 now (last_heartbeat mem))%N
       end.
Definition get_healthy_nodes (now : N) (m : Manager) : list string :=
  (λ mem, id (node mem)) <$>
    List.filter (λ mem, if String.eqb (id (node mem)) (id (local_node m)) then true
                        else if unavailable (status mem) then false
                        else (sub64 now (last_heartbeat mem) <=? 30000)%N)
      (get_all_members (state m)).

(** ** Joining *)

Definition join_cluster (seed : string) (m : Manager) : list (string * ClusterMessage) := [(seed, JoinRequest (local_node m))].
Definition heartbeats (sequence : N) (stats : option Stats) (m : Manager) : list (string * ClusterMessage) :=
  (λ peer, (address peer, Heartbeat (id (local_node m)) sequence stats)) <$>
    filter (λ peer, id peer ≠ id (local_node m)) (active_nodes (state m)).

(** One peer of the answer: a new one is asked in turn. *)
Definition meet (now : N) (local : Node) (acc : ClusterState * list (string * ClusterMessage)) (peer : Node) :
    ClusterState * list (string * ClusterMessage) :=
  let '(s, out) := acc in
  if String.eqb (id peer) (id local) then (s, out)
  else
    let '(is_new, s') := add_member now peer Active s in
    (s', if is_new : bool then out ++ [(address peer, JoinRequest local)] else out).

(** ** Replicated entries *)

(** "Loop Detection" and "Cycle Detection via sequence". *)
Fixpoint valid_entries (local : string) (entries : list SyncEntry) (s : ClusterState) : list SyncEntry * ClusterState :=
  match entries with
  | [] => ([], s)
  | e :: entries' =>
      if String.eqb (origin_node e) local then valid_entries local entries' s
      else
        let '(fresh, s1) := check_and_update_origin_sequence (origin_node e) (sync_origin_sequence e) s in
        let '(rest, s2) := valid_entries local entries' s1 in
        (if fresh : bool then e :: rest else rest, s2)
  end.

(** The groups of the inserts and updates, by database and collection, and the other entries. *)
Definition is_write (e : SyncEntry) : bool := match sync_operation e with Insert | Update => true | _ => false end.
Definition entry_document (e : SyncEntry) : option Value := document_data e ≫= json_from_slice.
Definition group (db coll : string) (entries : list SyncEntry) : list (N * (string * Value)) :=
  omap (λ e, if is_write e && String.eqb (sync_database e) db && String.eqb (sync_collection e) coll
             then (λ v, (sync_sequence e, (document_key e, v))) <$> entry_document e else None) entries.
Definition group_keys (entries : list SyncEntry) : list (string * string) :=
  remove_dups (omap (λ e, if is_write e then (λ _, (sync_database e, sync_collection e)) <$> entry_document e else None) entries).
Definition other_entries (entries : list SyncEntry) : list SyncEntry := List.filter (λ e, negb (is_write e)) entries.

(** The place of the node among the addresses of the cluster. *)
Definition position (x : string) (l : list string) : option nat := fst <$> list_find (x =.) l.
Definition all_nodes (s : ClusterState) : list string := sort_by str_cmp ((λ m, address (node m)) <$> get_all_members s).

Variable fresh : N → string * Z.

(** "SHARD-AWARE FILTERING": only the documents this node holds a copy of. *)
Definition docs_to_apply (my_index : option nat) (num_nodes : nat) (config : option CollectionShardConfig)
    (docs : list (N * (string * Value))) : list (N * (string * Value)) :=
  match config, my_index with
  | Some c, Some i =>
      if (0 <? cs_num_shards c)%N && (0 <? num_nodes)%nat then
        List.filter (λ p, Sharding.is_shard_replica (N.to_nat (Sharding.route p.2.1 (cs_num_shards c))) i
                            (N.to_nat (cs_replication_factor c)) num_nodes) docs
      else docs
  | _, _ => docs
  end.
Definition apply_group (my_index : option nat) (num_nodes : nat) (entries : list SyncEntry) (dc : string * string) : M unit :=
  d ← get_database dc.1;
  match d with
  | Err _ => mret tt
  | Ok _ =>
      c ← db_get_collection dc.1 dc.2;
      match c with
      | Err _ => mret tt
      | Ok id =>
          config ← try_handle None id SyncWorker.get_shard_config;
          match docs_to_apply my_index num_nodes config (group dc.1 dc.2 entries) with
          | [] => mret tt
          | docs => on_handle id (upsert_batch ((λ p, (fresh p.1, p.2)) <$> docs)) ≫= λ _, mret tt
          end
      end
  end.
(** The groups are applied in a task whose panic is only logged; the collection whose column family
    is missing was in the caches, so that nothing had been changed for its group. *)
Fixpoint apply_groups (f : string * string → M unit) (l : list (string * string)) (e : Engine) : Engine :=
  match l with
  | [] => e
  | dc :: l' => match f dc e with Some (_, e') => apply_groups f l' e' | None => e end
  end.

(** [Collection::set_type] *)
Definition set_type (type_ : string) (c : Collection Num DB) : result DbError unit * Collection Num DB :=
  match kv_write [Put COLLECTION_TYPE_KEY type_] (db c) with
  | None => (Err (InternalError "Failed to set collection type"), c)
  | Some d => (Ok tt, mkCollection (name c) type_ d (doc_count c) (chunk_count c) (count_dirty c) (change_sender c) (vector_indexes c))
  end.
Definition in_db (db : string) (k : M unit) : M unit :=
  d ← get_database db;
  match d with Ok _ => k | Err _ => mret tt end.
Definition in_coll (db coll : string) (k : nat → M unit) : M unit :=
  c ← db_get_collection db coll;
  match c with Ok id => k id | Err _ => mret tt end.
Definition run {A} (id : nat) (f : Collection Num DB → A * Collection Num DB) : M unit := on_handle id f ≫= λ _, mret tt.
(** [from_slice(data).unwrap_or_default()] *)
Definition metadata (e : SyncEntry) : option Value := (λ d, default Null (json_from_slice d)) <$> document_data e.
Definition created (e : SyncEntry) (collection_type : option string) : M unit :=
  match metadata e with
  | None => mret tt
  | Some meta =>
      match collection_type with
      | Some t => in_coll (sync_database e) (sync_collection e) (λ id, run id (set_type t))
      | None => mret tt
      end ≫= λ _,
      match value_get "shardConfig" meta with
      | None | Some Null => mret tt
      | Some v => in_coll (sync_database e) (sync_collection e) (λ id, run id (SyncWorker.set_shard_config (SyncWorker.shard_config_of v)))
      end
  end.
(** The identifiers an insert generates are [fresh] ones. An error ends the entry and is logged. *)
Definition apply_sync_entry (e : SyncEntry) : M unit :=
  match sync_operation e with
  | CreateCollection =>
      in_db (sync_database e) (
        let collection_type := (metadata e ≫= value_get "type") ≫= as_str in
        r ← db_create_collection (sync_database e) (sync_collection e) collection_type;
        match r with
        | Ok _ | Err (CollectionAlreadyExists _) => created e collection_type
        | Err _ => mret tt
        end)
  | Insert | Update =>
      in_db (sync_database e) (in_coll (sync_database e) (sync_collection e) (λ id,
        match entry_document e with
        | Some doc => let '(rev, now) := fresh (sync_sequence e) in run id (insert rev rev now doc)
        | None => mret tt
        end))
  | Delete =>
      in_db (sync_database e) (in_coll (sync_database e) (sync_collection e) (λ id, run id (Collection.delete (document_key e))))
  | DeleteCollection =>
      in_db (sync_database e) (db_delete_collection (sync_database e) (sync_collection e) ≫= λ _, mret tt)
  | TruncateCollection =>
      in_db (sync_database e) (in_coll (sync_database e) (sync_collection e) (λ id,
        shards ← try_handle None id SyncWorker.get_shard_config;
        match shards with
        | Some config =>
            each (λ i, in_coll (sync_database e) (sync_collection e +:+ ("_s" +:+ dec (N.of_nat i))) (λ id, run id truncate))
              (List.seq 0 (N.to_nat (cs_num_shards config)))
        | None => mret tt
        end ≫= λ _, run id truncate))
  | CreateDatabase => create_database (sync_database e) ≫= λ _, mret tt
  | DeleteDatabase => delete_database (sync_database e) ≫= λ _, mret tt
  | _ => mret tt
  end.

Definition apply_valid (s : ClusterState) (local : Node) (valid : list SyncEntry) (e : Engine) : option Engine :=
  let nodes := all_nodes s in
  let e1 := apply_groups (apply_group (position (address local) nodes) (length nodes) valid) (group_order (group_keys valid)) e in
  snd <$> each apply_sync_entry (other_entries valid) e1.
(** [None]: an entry panicked, which ends the task of the message. *)
Definition handle_sync_message (msg : SyncMessage) (m : Manager) : option Manager :=
  match msg with
  | SyncBatch entries _ _ _ =>
      let '(valid, s) := valid_entries (id (local_node m)) entries (state m) in
      match valid, storage m with
      | [], _ | _, None => Some (with_state s m)
      | _, Some e => (λ e', mkManager (local_node m) s (Some e')) <$> apply_valid s (local_node m) valid e
      end
  | _ => Some m
  end.

Definition handle_message (now : N) (msg : ClusterMessage) (m : Manager) : option (Manager * list (string * ClusterMessage)) :=
  match msg with
  | JoinRequest nd =>
      let s := (add_member now nd Active (state m)).2 in
      Some (with_state s m, [(address nd, JoinResponse true (active_nodes s))])
  | JoinResponse success peers =>
      if success then
        let '(s, out) := foldl (meet now (local_node m)) (state m, []) peers in Some (with_state s m, out)
      else Some (m, [])
  | Heartbeat from sequence stats => Some (with_state (update_heartbeat now from sequence stats (state m)) m, [])
  | Leave from => Some (with_state (remove_member from (state m)) m, [])
  | Replication sync_msg => (λ m', (m', [])) <$> handle_sync_message sync_msg m
  end.
End Manager.
End ClusterManager.
