(* ===== verification/ClusterManagerProps.v ===== *)
(** * How a cluster forms

    Nodes that join through one seed, in any order and with their messages delivered in any order,
    come to know each other: [Net] is the network with the messages in flight, [deliver] hands one
    of them to its node. The deliveries end, and when no message is left every node that joined
    knows exactly the seed and the others that joined. Replicated batches are idempotent. *)

From S2P Require Import Prelude Text Json Transaction Codec Kv Hlc Document DocStore Indexes Collection CollectionProps CollectionBatch Databases DatabasesProps Sharding SyncLog SyncState SyncTransport Cluster SyncWorker ClusterManager.
Import SyncLog.SyncLog.
Import Json Codec Document Serializer Indexes Collection CollectionBatch Databases SyncTransport.

Module Membership.
Import Cluster ClusterManager.

Section Membership.
Context {Num : Type} `{!JsonNumber Num} `{!JsonText Num} `{!MetaJson Num} `{!DocumentJson Num}
  `{!DocCodec Num}.
Context `{hex_crate : !HexCrate} `{std_text : !StdText}.
Context {DB : Type} `{!KvStore DB} `{!Families DB} `{schema : !SchemaCheck Num DB}.
Context `{shard_json : !ShardConfigJson} `{order : !HashOrder} `{order_laws : !HashOrderLaws}.
Context `{groups : !GroupOrder} `{hash : !Sharding.KeyHash}.
Context {Stats : Type}.
Variable fresh : N → string * Z.
Notation Manager := (Manager (Num:=Num) (DB:=DB) (Stats:=Stats)).
Notation ClusterState := (ClusterState Stats).
Notation ClusterMessage := (ClusterMessage (Stats:=Stats)).
Implicit Types (m : Manager) (x y nd : Node) (s : ClusterState).

(** ** The network *)

(** The managers by address and the messages in flight. *)
Record Net := mkNet { nodes : gmap string Manager; soup : list (string * ClusterMessage) }.
Inductive deliver : Net → Net → Prop :=
| deliver_one ns pre a msg post m now m' out :
    ns !! a = Some m → handle_message fresh now msg m = Some (m', out) →
    deliver (mkNet ns (pre ++ (a, msg) :: post)) (mkNet (<[a := m']> ns) (pre ++ post ++ out)).
(** Nodes join through the address of the seed; the second component lists those that did. *)
Inductive step (seed : Node) : Net * list Node → Net * list Node → Prop :=
| step_join ns sp J m :
    ns !! address (local_node m) = Some m → local_node m ≠ seed →
    step seed (mkNet ns sp, J) (mkNet ns (sp ++ join_cluster (address seed) m), J ++ [local_node m])
| step_deliver net net' J : deliver net net' → step seed (net, J) (net', J).

Definition known m : gset string := dom (members (state m)).
Lemma elem_of_known i m : i ∈ known m ↔ is_Some (members (state m) !! i).
Proof. apply elem_of_dom. Qed.
(** At the start every node knows itself only, and no two nodes share an identifier. *)
Record initial (seed : Node) (net : Net) : Prop := {
  init_soup : soup net = [];
  init_seed : ∃ m, nodes net !! address seed = Some m ∧ local_node m = seed;
  init_self a m : nodes net !! a = Some m → address (local_node m) = a ∧
    ∃ now, members (state m) = {[ id (local_node m) := mkMember (local_node m) Active now 0 None ]};
  init_unique a b m m' : nodes net !! a = Some m → nodes net !! b = Some m' →
    id (local_node m) = id (local_node m') → a = b;
}.
Definition in_cluster (seed : Node) (J : list Node) x : Prop := x = seed ∨ x ∈ J.
Definition knows (net : Net) x y : Prop := ∃ m, nodes net !! address x = Some m ∧ id y ∈ known m.
(** Every node of the cluster knows the nodes of the cluster and no others. *)
Definition mesh (seed : Node) (J : list Node) (net : Net) : Prop :=
  ∀ x, in_cluster seed J x → ∃ m, nodes net !! address x = Some m ∧ local_node m = x ∧
    ∀ i, i ∈ known m ↔ ∃ y, in_cluster seed J y ∧ id y = i.

(** ** One message *)

(** The members of a manager are active, under their own names, and they are itself or nodes of [C]. *)
Definition good (C : Node → Prop) m : Prop :=
  (∃ mem, members (state m) !! id (local_node m) = Some mem ∧ node mem = local_node m) ∧
  ∀ i mem, members (state m) !! i = Some mem → status mem = Active ∧ id (node mem) = i ∧ (node mem = local_node m ∨ C (node mem)).
Lemma good_keyed C m : good C m → keyed (state m).
Proof. intros [_ H] i mem Hi. by destruct (H i mem Hi) as (_ & ? & _). Qed.
Lemma active_good C m nd : good C m → nd ∈ active_nodes (state m) ↔ ∃ mem, members (state m) !! id nd = Some mem ∧ node mem = nd.
Proof.
  intros Hg. unfold active_nodes. rewrite list_elem_of_fmap. split.
  - intros (mem & -> & [_ Hin]%list_elem_of_filter). exists mem. split; [|done]. by apply get_all_members_spec in Hin; [|eapply good_keyed].
  - intros (mem & Hm & <-). exists mem. split; [done|]. apply list_elem_of_filter. split; [by apply Hg in Hm as (? & _)|].
    apply get_all_members_spec; [by eapply good_keyed|done].
Qed.
Lemma add_member_members now nd st s : members (add_member now nd st s).2 = <[id nd := mkMember nd st now 0 None]> (members s).
Proof. done. Qed.
Lemma add_good C m now x s' : good C m → (x = local_node m ∨ C x) → s' = (add_member now x Active (state m)).2 →
  (id x = id (local_node m) → x = local_node m) →
  good C (with_state s' m) ∧ known (with_state s' m) = {[ id x ]} ∪ known m.
Proof.
  intros [[mem [Hm Hn]] Hall] Hx -> Hid. split.
  - split; cbn [with_state local_node state]; rewrite add_member_members.
    + destruct (decide (id x = id (local_node m))) as [E|E].
      * eexists. rewrite E, lookup_insert_eq. split; [done|]. by apply Hid.
      * exists mem. by rewrite lookup_insert_ne.
    + intros i mem'. rewrite lookup_insert. case_decide as E; [intros [= <-]; cbn; by split_and!|apply Hall].
  - unfold known. cbn [with_state state]. rewrite add_member_members. apply dom_insert_L.
Qed.

Section Answers.
Context (C : Node → Prop).
Hypothesis unique : ∀ x y, C x → C y → id x = id y → x = y.
Notation request m := (λ p : Node, (address p, JoinRequest (Stats:=Stats) (local_node m))).

(** The answer to a request adds its peers and asks those that are new. *)
Lemma meet_all now m (peers : list Node) s out : good C (with_state s m) → C (local_node m) → Forall C peers →
  ∃ s' news, foldl (meet now (local_node m)) (s, out) peers = (s', out ++ (request m <$> news)) ∧ good C (with_state s' m) ∧
    (dom (members s') : gset string) = list_to_set (id <$> peers) ∪ dom (members s) ∧
    (∀ p, p ∈ news → p ∈ peers ∧ p ≠ local_node m) ∧
    (∀ p, p ∈ peers → id p ∈ dom (members s) ∨ p ∈ news) ∧
    size (dom (members s')) = size (dom (members s)) + length news.
Proof.
  intros Hg Hl Hp. revert s out Hg. induction Hp as [|p peers Hc Hcs IH]; intros s out Hg.
  { exists s, []. cbn [foldl fmap list_fmap length]. rewrite app_nil_r. split_and!; [done|done|symmetry; apply (left_id_L ∅ (∪))|by intros p ?%elem_of_nil|by intros p ?%elem_of_nil|lia]. }
  cbn [foldl]. unfold meet at 2. destruct (String.eqb_spec (id p) (id (local_node m))) as [E|E].
  - destruct (IH s out Hg) as (s' & news & Hf & Hg' & Hd & Hn & Hin & Hsz). exists s', news.
    destruct Hg as [[mem [Hm _]] _]. cbn in Hm. assert (id p ∈ dom (members s)) as Hdom by (rewrite E; apply elem_of_dom; by eexists).
    split_and!; [done|done|rewrite Hd; clear -Hdom; set_solver| | |done].
    + intros q Hq. destruct (Hn q Hq). split; [by right|done].
    + intros q [->|Hq]%elem_of_cons; [by left|by apply Hin].
  - cbn [add_member]. set (s1 := set_members _ s).
    destruct (add_good C (with_state s m) now p s1 Hg) as [Hg1 Hk1]; [by right|done|done|].
    assert (dom (members s1) = {[ id p ]} ∪ dom (members s)) as Hd1 by exact Hk1.
    destruct (IH s1 (if negb (bool_decide (is_Some (members s !! id p))) then out ++ [(address p, JoinRequest (local_node m))] else out) Hg1)
      as (s' & news & Hf & Hg' & Hd & Hn & Hin & Hsz).
    case_bool_decide as Hs; cbn [negb] in *.
    + assert (id p ∈ dom (members s)) as Hps by by apply elem_of_dom. exists s', news. split_and!; [done|done|by rewrite Hd, Hd1, fmap_cons, list_to_set_cons, (assoc_L (∪)), (comm_L (∪) (list_to_set _))| | |].
      * intros q Hq. destruct (Hn q Hq). split; [by right|done].
      * intros q [->|Hq]%elem_of_cons; [by left|]. destruct (Hin q Hq) as [Hi|Hi]; [|by right]. left. rewrite Hd1 in Hi. by apply elem_of_union in Hi as [->%elem_of_singleton|].
      * rewrite Hsz, Hd1. do 2 f_equal. clear -Hps. set_solver.
    + assert (id p ∉ dom (members s)) as Hps by by rewrite elem_of_dom. exists s', (p :: news). split_and!; [|done|by rewrite Hd, Hd1, fmap_cons, list_to_set_cons, (assoc_L (∪)), (comm_L (∪) (list_to_set _))| | |].
      * rewrite Hf. cbn [fmap list_fmap]. by rewrite <- app_assoc.
      * intros q [->|Hq]%elem_of_cons; [split; [by left|by intros ->]|]. destruct (Hn q Hq). split; [by right|done].
      * intros q [->|Hq]%elem_of_cons; [right; by left|]. destruct (Hin q Hq) as [Hi|Hi]; [|right; by right].
        rewrite Hd1 in Hi. apply elem_of_union in Hi as [Hi|Hi]; [|by left].
        apply elem_of_singleton in Hi. right. rewrite (unique q p); [by left|by apply (proj1 (Forall_forall _ _) Hcs)|done|done].
      * rewrite Hsz, Hd1, size_union, size_singleton by (clear -Hps; set_solver). cbn [length]. lia.
Qed.
End Answers.

(** ** The invariant *)

Definition real (net : Net) x : Prop := ∃ m, nodes net !! address x = Some m ∧ local_node m = x.
(** [x] has asked [y]; [x] is about to be told of [y]. *)
Definition asked (net : Net) x y : Prop := (address y, JoinRequest x) ∈ soup net.
Definition told (net : Net) x y : Prop := ∃ peers, (address x, JoinResponse true peers) ∈ soup net ∧ y ∈ peers.

Definition msg_ok (C : Node → Prop) (seed nd : Node) (msg : ClusterMessage) : Prop :=
  match msg with
  | JoinRequest x => C x ∧ x ≠ seed
  | JoinResponse b peers => b = true ∧ nd ≠ seed ∧ Forall C peers
  | _ => False
  end.
Record inv (seed : Node) (net : Net) (C : Node → Prop) : Prop := {
  inv_node a m : nodes net !! a = Some m → address (local_node m) = a ∧ good C m;
  inv_unique x y : real net x → real net y → id x = id y → x = y;
  inv_real x : C x → real net x;
  inv_seed : C seed;
  inv_alone a m : nodes net !! a = Some m → ¬ C (local_node m) → known m = {[ id (local_node m) ]};
  inv_msg a msg : (a, msg) ∈ soup net → ∃ nd, C nd ∧ address nd = a ∧ msg_ok C seed nd msg;
  inv_sym x y : C x → C y → knows net x y → knows net y x ∨ asked net x y ∨ told net y x;
  inv_mesh x y : C x → C y → x ≠ y → knows net seed x → knows net seed y →
    knows net x y ∨ knows net y x ∨ told net x y ∨ told net y x;
  inv_joined x : C x → knows net seed x ∨ asked net x seed;
}.

(** What a delivery leaves of the network: the node [nd] knows more, the other nodes what they knew,
    and of the messages one is gone. *)
Section Delivered.
Context (C : Node → Prop) (seed nd : Node) (ns : gmap string Manager) (pre post out : list (string * ClusterMessage)).
Context (m m' : Manager) (msg : ClusterMessage).
Notation net := (mkNet ns (pre ++ (address nd, msg) :: post)).
Notation net' := (mkNet (<[address nd := m']> ns) (pre ++ post ++ out)).
Hypothesis Hm : ns !! address nd = Some m.
Hypothesis Hnd : local_node m = nd.
Hypothesis Hlocal : local_node m' = nd.
Hypothesis Hknown : known m ⊆ known m'.

Lemma delivered_real x : real net' x ↔ real net x.
Proof.
  unfold real. cbn [nodes]. rewrite lookup_insert. destruct (decide (address nd = address x)) as [E|E]; [|done].
  split; [intros (? & [= <-] & <-)|intros (m0 & Hm0 & <-)].
  - exists m. rewrite Hlocal, <- Hnd in *. split; [|done]. congruence.
  - exists m'. split; [done|]. rewrite Hlocal, <- Hnd. congruence.
Qed.
Lemma delivered_mono x y : knows net x y → knows net' x y.
Proof.
  intros (m0 & Hm0 & Hy). unfold knows. cbn [nodes] in *. rewrite lookup_insert. case_decide as E; [|by exists m0].
  exists m'. split; [done|]. assert (m0 = m) as -> by congruence. by apply Hknown.
Qed.
Lemma delivered_new x y : real net x → knows net' x y → knows net x y ∨ (x = nd ∧ id y ∈ known m').
Proof.
  intros (mx & Hmx & Hx) (m0 & Hm0 & Hy). unfold knows. cbn [nodes] in *. rewrite lookup_insert in Hm0. case_decide as E.
  - right. split; [|congruence]. rewrite <- Hx, <- Hnd. congruence.
  - left. by exists m0.
Qed.
Lemma delivered_soup p : p ∈ pre ++ (address nd, msg) :: post → p = (address nd, msg) ∨ p ∈ pre ++ post ++ out.
Proof. rewrite !elem_of_app, elem_of_cons. tauto. Qed.
Lemma delivered_out p : p ∈ pre ++ post ++ out → p ∈ out ∨ p ∈ pre ++ (address nd, msg) :: post.
Proof. rewrite !elem_of_app, elem_of_cons. tauto. Qed.
Lemma delivered_asked x y : asked net x y → (address y = address nd ∧ msg = JoinRequest x) ∨ asked net' x y.
Proof. intros [[= E <-]|H]%delivered_soup; [by left|by right]. Qed.
Lemma delivered_told x y : told net x y → (address x = address nd ∧ ∃ peers, msg = JoinResponse true peers ∧ y ∈ peers) ∨ told net' x y.
Proof. intros (peers & [[= E <-]|H]%delivered_soup & Hy); [left; split; [done|by exists peers]|right; by exists peers]. Qed.

Lemma delivered_inv : inv seed net C → C nd → good C m' →
  (∀ p, p ∈ out → ∃ nd', C nd' ∧ address nd' = p.1 ∧ msg_ok C seed nd' p.2) →
  (∀ y, C y → id y ∈ known m' → id y ∈ known m ∨ asked net' nd y ∨ told net' y nd) →
  (nd = seed → ∀ x y, C x → C y → x ≠ y → id x ∈ known m' → id y ∈ known m' → id x ∉ known m → told net' x y) →
  (∀ x, msg = JoinRequest x → id x ∈ known m') →
  (∀ peers y, msg = JoinResponse true peers → y ∈ peers → id y ∈ known m') →
  inv seed net' C.
Proof.
  intros Hi Hc Hg Hout Hnew Hseed Hreq Hresp.
  assert (∀ x, address x = address nd → C x → x = nd) as Haddr.
  { intros x Ex Hx. destruct (inv_real _ _ _ Hi x Hx) as (m0 & Hm0 & <-). cbn in Hm0. congruence. }
  assert (∀ y, id y ∈ known m' → knows net' nd y) as Hnd' by (intros y Hy; exists m'; cbn [nodes]; by rewrite lookup_insert_eq).
  assert (∀ y, id y ∈ known m → knows net nd y) as Hnd0 by (intros y Hy; by exists m).
  assert (∀ x y, C x → C y → knows net x y → knows net' y x ∨ asked net' x y ∨ told net' y x) as Hsym.
  { intros x y Hx Hy Hk. destruct (inv_sym _ _ _ Hi x y Hx Hy Hk) as [H|[H|H]]; [left; by apply delivered_mono| |].
    - destruct (delivered_asked x y H) as [[E1 E2]|?]; [|by right; left]. left. rewrite (Haddr y E1 Hy). by apply Hnd', Hreq.
    - destruct (delivered_told y x H) as [[E1 (peers & E2 & Hp)]|?]; [|by right; right]. left. rewrite (Haddr y E1 Hy).
      by eapply Hnd', Hresp. }
  assert (∀ x y, C x → C y → knows net x y ∨ knows net y x ∨ told net x y ∨ told net y x →
    knows net' x y ∨ knows net' y x ∨ told net' x y ∨ told net' y x) as Hmesh.
  { assert (∀ x y, C x → told net x y → knows net' x y ∨ told net' x y) as Ht.
    { intros x y Hx H. destruct (delivered_told x y H) as [[E1 (peers & E2 & Hp)]|?]; [left|by right].
      rewrite (Haddr x E1 Hx). by eapply Hnd', Hresp. }
    intros x y Hx Hy [H|[H|[H|H]]]; [left; by apply delivered_mono|right; left; by apply delivered_mono| |];
      apply Ht in H as [?|?]; tauto. }
  split.
  - intros a m0. cbn [nodes]. rewrite lookup_insert. case_decide as E; [intros [= <-]; by rewrite Hlocal|apply (inv_node _ _ _ Hi)].
  - intros x y Hx%delivered_real Hy%delivered_real. by apply (inv_unique _ _ _ Hi).
  - intros x Hx. apply delivered_real. by apply (inv_real _ _ _ Hi).
  - apply Hi.
  - intros a m0. cbn [nodes]. rewrite lookup_insert. case_decide as E; [intros [= <-]; by rewrite Hlocal|apply (inv_alone _ _ _ Hi)].
  - intros a msg' [H|H]%delivered_out; [by destruct (Hout _ H) as (nd' & ? & ? & ?); exists nd'|by apply (inv_msg _ _ _ Hi)].
  - intros x y Hx Hy [Hk|[-> Hk]]%delivered_new; [by apply Hsym| |by apply (inv_real _ _ _ Hi)].
    destruct (Hnew y Hy Hk) as [H|?]; [|tauto]. apply Hsym; [done..|by apply Hnd0].
  - intros x y Hx Hy Hne Hkx Hky.
    destruct (delivered_new seed x) as [Hx0|[Es Hx1]]; [apply (inv_real _ _ _ Hi), Hi|done| |];
      (destruct (delivered_new seed y) as [Hy0|[Es' Hy1]]; [apply (inv_real _ _ _ Hi), Hi|done| |]).
    + apply Hmesh; [done..|]. by apply (inv_mesh _ _ _ Hi).
    + destruct Hx0 as (m0 & Hm0 & Hx0). rewrite Es' in Hm0. cbn in Hm0. assert (m0 = m) as -> by congruence.
      destruct (decide (id y ∈ known m)) as [Hy0|Hy0].
      * apply Hmesh; [done..|]. apply (inv_mesh _ _ _ Hi); [done..| |]; rewrite Es'; by apply Hnd0.
      * right; right; right. apply Hseed; try done. by apply Hknown.
    + destruct Hy0 as (m0 & Hm0 & Hy0). rewrite Es in Hm0. cbn in Hm0. assert (m0 = m) as -> by congruence.
      destruct (decide (id x ∈ known m)) as [Hx0|Hx0].
      * apply Hmesh; [done..|]. apply (inv_mesh _ _ _ Hi); [done..| |]; rewrite Es; by apply Hnd0.
      * right; right; left. apply Hseed; try done. by apply Hknown.
    + destruct (decide (id x ∈ known m)) as [Hx0|Hx0]; [|right; right; left; by apply Hseed].
      destruct (decide (id y ∈ known m)) as [Hy0|Hy0]; [|right; right; right; by apply Hseed].
      apply Hmesh; [done..|]. apply (inv_mesh _ _ _ Hi); [done..| |]; rewrite Es; by apply Hnd0.
  - intros x Hx. destruct (inv_joined _ _ _ Hi x Hx) as [H|H]; [left; by apply delivered_mono|].
    destruct (delivered_asked x seed H) as [[E1 E2]|?]; [|by right]. left. rewrite (Haddr seed E1 (inv_seed _ _ _ Hi)). by apply Hnd', Hreq.
Qed.
End Delivered.

(** ** A delivery keeps the invariant and leaves less to do *)

Definition weight (msg : ClusterMessage) : nat := match msg with JoinRequest _ => 2 | _ => 1 end.
Definition in_flight (l : list (string * ClusterMessage)) : nat := sum_list_with (weight ∘ snd) l.
Definition ids (ns : gmap string Manager) : gset string := list_to_set ((λ p, id (local_node p.2)) <$> map_to_list ns).
(** Twice the introductions still to be made, and the messages in flight. *)
Definition unmet (u : nat) (ns : gmap string Manager) : nat := map_fold (λ _ m acc, 2 * (u - size (known m)) + acc) 0 ns.
Definition work (net : Net) : nat := unmet (size (ids (nodes net))) (nodes net) + in_flight (soup net).

Lemma elem_of_ids ns i : i ∈ ids ns ↔ ∃ a m, ns !! a = Some m ∧ id (local_node m) = i.
Proof.
  unfold ids. rewrite elem_of_list_to_set, list_elem_of_fmap. split.
  - intros ([a m] & -> & H%elem_of_map_to_list). by exists a, m.
  - intros (a & m & H & <-). exists (a, m). split; [done|]. by apply elem_of_map_to_list.
Qed.
Lemma ids_insert ns a m m' : ns !! a = Some m → local_node m' = local_node m → ids (<[a := m']> ns) = ids ns.
Proof.
  intros Hm Hl. apply set_eq. intros i. rewrite !elem_of_ids. split.
  - intros (b & m0 & Hb & <-). rewrite lookup_insert in Hb. case_decide; [injection Hb as <-; subst; exists b, m; by rewrite Hl|by exists b, m0].
  - intros (b & m0 & Hb & <-). destruct (decide (b = a)) as [->|Hne].
    + exists a, m'. rewrite lookup_insert_eq. split; [done|]. rewrite Hl. congruence.
    + exists b, m0. by rewrite lookup_insert_ne.
Qed.
Lemma unmet_delete u ns a m : ns !! a = Some m → unmet u ns = 2 * (u - size (known m)) + unmet u (base.delete a ns).
Proof. intros H. unfold unmet. rewrite (map_fold_delete_L _ _ a m ns); [done| |done]. intros. lia. Qed.
Lemma work_step ns pre a msg post m m' out : ns !! a = Some m → local_node m' = local_node m →
  known m ⊆ known m' → known m' ⊆ ids ns → in_flight out + 2 * size (known m) < weight msg + 2 * size (known m') →
  work (mkNet (<[a := m']> ns) (pre ++ post ++ out)) < work (mkNet ns (pre ++ (a, msg) :: post)).
Proof.
  intros Hm Hl Hk Hids Hw. unfold work. cbn [nodes soup]. rewrite (ids_insert ns a m m' Hm Hl).
  rewrite (unmet_delete _ ns a m Hm), (unmet_delete _ (<[a := m']> ns) a m') by apply lookup_insert_eq.
  rewrite delete_insert_eq. unfold in_flight in *. rewrite !sum_list_with_app. cbn [sum_list_with compose snd].
  pose proof (subseteq_size _ _ Hids). pose proof (subseteq_size _ _ Hk). lia.
Qed.

Lemma known_ids seed net C a m : inv seed net C → nodes net !! a = Some m → known m ⊆ ids (nodes net).
Proof.
  intros Hi Hm i Hin. destruct (inv_node _ _ _ Hi a m Hm) as [_ Hg]. apply elem_of_known in Hin as [mem Hmem].
  destruct Hg as [_ Hg]. destruct (Hg i mem Hmem) as (_ & Ei & [E|Hc]); apply elem_of_ids.
  - exists a, m. by rewrite <- E.
  - destruct (inv_real _ _ _ Hi _ Hc) as (m0 & Hm0 & E). exists (address (node mem)), m0. by rewrite E.
Qed.

Lemma deliver_request seed ns pre nd x post m now C m' out : let net := mkNet ns (pre ++ (address nd, JoinRequest x) :: post) in
  inv seed net C → C nd → C x → x ≠ seed → ns !! address nd = Some m → local_node m = nd →
  handle_message fresh now (JoinRequest x) m = Some (m', out) →
  let net' := mkNet (<[address nd := m']> ns) (pre ++ post ++ out) in inv seed net' C ∧ work net' < work net.
Proof.
  intros net Hi Hc Hx Hxs Hm Hnd Hh net'. destruct (inv_node _ _ _ Hi _ _ Hm) as [_ Hg]. injection Hh as <- <-.
  set (s' := set_members _ (state m)) in *.
  assert (∀ y z, C y → C z → id y = id z → y = z) as Huniq.
  { intros y z Hy Hz. apply (inv_unique _ _ _ Hi); by apply (inv_real _ _ _ Hi). }
  destruct (add_good C m now x s' Hg) as [Hg' Hk']; [by right|done|rewrite Hnd; by apply Huniq|].
  assert (∀ y, C y → id y ∈ known (with_state s' m) → y ∈ active_nodes s') as Hact.
  { intros y Hy [mem Hmem]%elem_of_known. apply (active_good C (with_state s' m) y Hg'). exists mem. split; [done|].
    destruct Hg' as [_ Hg']. destruct (Hg' _ _ Hmem) as (_ & Ei & [E|Hcm]); apply Huniq; try done. by rewrite E, <- Hnd in *. }
  assert (known m ⊆ known (with_state s' m)) as Hsub by (rewrite Hk'; apply union_subseteq_r).
  assert (inv seed net' C) as Hi'.
  { apply (delivered_inv C seed nd ns pre post _ m _ (JoinRequest x)); try done.
    - intros p ->%list_elem_of_singleton. exists x. split_and!; [done..|]. cbn [snd msg_ok]. split_and!; [done..|]. apply Forall_forall.
      intros y (mem & Hmem & <-)%(active_good C (with_state s' m) y Hg'). destruct Hg' as [_ Hg'].
      destruct (Hg' _ _ Hmem) as (_ & _ & [E|?]); [|done]. rewrite E. cbn. by rewrite Hnd.
    - intros y Hy Hky. rewrite Hk' in Hky. apply elem_of_union in Hky as [E%elem_of_singleton|?]; [|by left].
      right; right. apply Huniq in E as ->; [|done..]. eexists. split; [cbn [soup]; rewrite !elem_of_app; right; right; by left|].
      apply Hact; [done|]. apply Hsub. destruct Hg as [(mem & Hmem & _) _]. rewrite Hnd in Hmem. apply elem_of_known. by eexists.
    - intros _ y z Hy Hz Hne Hky Hkz Hold. rewrite Hk' in Hky. apply elem_of_union in Hky as [E%elem_of_singleton|?]; [|done].
      apply Huniq in E as ->; [|done..]. eexists. split; [cbn [soup]; rewrite !elem_of_app; right; right; by left|by apply Hact].
    - intros y [= <-]. rewrite Hk'. apply elem_of_union_l. by apply elem_of_singleton. }
  split; [done|]. apply (work_step ns pre (address nd) (JoinRequest x) post m); try done.
  - rewrite <- (ids_insert ns (address nd) m (with_state s' m) Hm eq_refl). apply (known_ids seed net' C (address nd) _ Hi').
    cbn [nodes]. apply lookup_insert_eq.
  - pose proof (subseteq_size _ _ Hsub). change (in_flight _) with 1. cbn [weight]. lia.
Qed.
Lemma in_flight_requests m (news : list Node) : in_flight ((λ p, (address p, JoinRequest (local_node m))) <$> news) = 2 * length news.
Proof. induction news as [|p news IH]; [done|]. cbn [fmap list_fmap length]. unfold in_flight in *. cbn [sum_list_with]. rewrite IH. cbn. lia. Qed.
Lemma deliver_response seed ns pre nd peers post m now C m' out : let net := mkNet ns (pre ++ (address nd, JoinResponse true peers) :: post) in
  inv seed net C → C nd → nd ≠ seed → Forall C peers → ns !! address nd = Some m → local_node m = nd →
  handle_message fresh now (JoinResponse true peers) m = Some (m', out) →
  let net' := mkNet (<[address nd := m']> ns) (pre ++ post ++ out) in inv seed net' C ∧ work net' < work net.
Proof.
  intros net Hi Hc Hns Hp Hm Hnd Hh net'. destruct (inv_node _ _ _ Hi _ _ Hm) as [_ Hg].
  assert (∀ y z, C y → C z → id y = id z → y = z) as Huniq.
  { intros y z Hy Hz. apply (inv_unique _ _ _ Hi); by apply (inv_real _ _ _ Hi). }
  destruct (meet_all C Huniq now m peers (state m) []) as (s' & news & Hf & Hg' & Hd & Hn & Hin & Hsz);
    [by destruct m|by rewrite Hnd|done|].
  cbn [handle_message] in Hh. rewrite Hf in Hh. injection Hh as <- <-. cbn [app] in *.
  assert (known (with_state s' m) = list_to_set (id <$> peers) ∪ known m) as Hk' by exact Hd.
  assert (known m ⊆ known (with_state s' m)) as Hsub by (rewrite Hk'; apply union_subseteq_r).
  assert (∀ y, y ∈ peers → id y ∈ known (with_state s' m)) as Hpk.
  { intros y Hy. rewrite Hk'. apply elem_of_union_l, elem_of_list_to_set, list_elem_of_fmap. by exists y. }
  assert (inv seed net' C) as Hi'.
  { apply (delivered_inv C seed nd ns pre post _ m _ (JoinResponse true peers)); try done.
    - intros q (p & -> & Hq)%list_elem_of_fmap. destruct (Hn p Hq) as [Hpp _]. exists p.
      split_and!; [by apply (proj1 (Forall_forall _ _) Hp)|done|]. cbn [snd msg_ok]. by rewrite Hnd.
    - intros y Hy Hky. rewrite Hk' in Hky. apply elem_of_union in Hky as [Hky|?]; [|by left].
      apply elem_of_list_to_set, list_elem_of_fmap in Hky as (p & E & Hpp).
      apply Huniq in E as ->; [|done|by apply (proj1 (Forall_forall _ _) Hp)].
      destruct (Hin p Hpp) as [Hold|Hnew]; [by left|]. right; left. unfold asked. cbn [soup]. rewrite !elem_of_app. right; right.
      apply list_elem_of_fmap. exists p. by rewrite Hnd.
    - intros peers' y [= <-]. apply Hpk. }
  split; [done|]. apply (work_step ns pre (address nd) (JoinResponse true peers) post m); try done.
  - rewrite <- (ids_insert ns (address nd) m (with_state s' m) Hm eq_refl). apply (known_ids seed net' C (address nd) _ Hi').
    cbn [nodes]. apply lookup_insert_eq.
  - rewrite in_flight_requests. unfold known. cbn [with_state state weight]. rewrite Hsz. lia.
Qed.
Lemma deliver_step seed net net' C : inv seed net C → deliver net net' → inv seed net' C ∧ work net' < work net.
Proof.
  intros Hi Hd. destruct Hd as [ns pre a msg post m now m' out Hm Hh].
  destruct (inv_msg _ _ _ Hi a msg) as (nd & Hc & <- & Hok); [cbn; set_solver|].
  assert (local_node m = nd) as Hnd. { destruct (inv_real _ _ _ Hi _ Hc) as (m0 & Hm0 & <-). cbn in Hm0. congruence. }
  destruct msg as [x|b peers| | |]; try done.
  - destruct Hok. by eapply deliver_request.
  - destruct Hok as (-> & ? & ?). by eapply deliver_response.
Qed.
(** A message in flight can be delivered. *)
Lemma deliver_progress seed net C : inv seed net C → soup net ≠ [] → ∃ net', deliver net net'.
Proof.
  intros Hi Hne. destruct net as [ns [|[a msg] post]]; [done|].
  destruct (inv_msg _ _ _ Hi a msg) as (nd & Hc & <- & Hok); [by left|].
  destruct (inv_real _ _ _ Hi _ Hc) as (m & Hm & _). cbn in Hm.
  assert (∃ m' out, handle_message fresh 0 msg m = Some (m', out)) as (m' & out & Hh).
  { destruct msg as [x|b peers| | |]; try done; [by do 2 eexists|]. cbn [handle_message]. destruct b; [|by do 2 eexists].
    destruct (foldl _ _ _) as [s' out]. by do 2 eexists. }
  eexists. by apply (deliver_one ns [] (address nd) msg post m 0 m' out).
Qed.

(** ** Joining *)

#[local] Instance Node_eq : EqDecision Node.
Proof. solve_decision. Defined.

Lemma inv_initial seed net : initial seed net → inv seed net (in_cluster seed []).
Proof.
  intros [Hs (ms & Hms & Els) Hself Huniq].
  assert (∀ a m, nodes net !! a = Some m → known m = {[ id (local_node m) ]}) as Hk.
  { intros a m Hm. destruct (Hself a m Hm) as (_ & now & E). unfold known. rewrite E. apply dom_singleton_L. }
  assert (∀ x, in_cluster seed [] x → x = seed) as Hc by by intros x [?|?%elem_of_nil].
  assert (knows net seed seed) as Hseed by (exists ms; split; [done|]; rewrite (Hk _ _ Hms), Els; by apply elem_of_singleton).
  split.
  - intros a m Hm. destruct (Hself a m Hm) as (Ha & now & E). split; [done|]. split.
    + rewrite E, lookup_singleton_eq. by eexists.
    + intros i mem. rewrite E. intros [<- <-]%lookup_singleton_Some. cbn. split_and!; [done..|by left].
  - intros x y (m & Hm & <-) (m' & Hm' & <-) E. pose proof (Huniq _ _ _ _ Hm Hm' E). congruence.
  - intros x ->%Hc. by exists ms.
  - by left.
  - intros a m Hm _. by apply (Hk a).
  - rewrite Hs. by intros a msg ?%elem_of_nil.
  - intros x y ->%Hc ->%Hc _. by left.
  - by intros x y ->%Hc ->%Hc.
  - intros x ->%Hc. by left.
Qed.
Lemma stranger seed net C x y : inv seed net C → C x → real net y → ¬ C y → ¬ knows net x y.
Proof.
  intros Hi Hx Hy Hn (m & Hm & [mem Hmem]%elem_of_known). destruct (inv_node _ _ _ Hi _ _ Hm) as [_ [_ Hg]].
  destruct (inv_real _ _ _ Hi x Hx) as (m0 & Hm0 & E0). assert (m0 = m) as -> by congruence.
  destruct (Hg _ _ Hmem) as (_ & Ei & Hor). assert (C (node mem)) as Hc by (destruct Hor as [-> |?]; [by rewrite E0|done]).
  apply Hn. rewrite <- (inv_unique _ _ _ Hi (node mem) y); [done|by apply (inv_real _ _ _ Hi)|done|done].
Qed.
Lemma inv_join seed ns sp J m : let net := mkNet ns sp in inv seed net (in_cluster seed J) →
  ns !! address (local_node m) = Some m → local_node m ≠ seed →
  inv seed (mkNet ns (sp ++ join_cluster (address seed) m)) (in_cluster seed (J ++ [local_node m])).
Proof.
  intros net Hi Hm Hne. set (x := local_node m) in *. set (C := in_cluster seed J) in *.
  assert (∀ y, in_cluster seed (J ++ [x]) y ↔ C y ∨ y = x) as HC.
  { intros y. unfold C, in_cluster. rewrite elem_of_app, list_elem_of_singleton. tauto. }
  assert (real net x) as Hx by by exists m.
  set (net' := mkNet _ _). set (C' := in_cluster seed (J ++ [x])) in *.
  assert (∀ y z, asked net y z → asked net' y z) as Hasked by (intros y z H; apply elem_of_app; by left).
  assert (∀ y z, told net y z → told net' y z) as Htold by (intros y z (ps & H & ?); exists ps; split; [apply elem_of_app; by left|done]).
  assert (∀ y, C' y → C y ∨ y = x ∧ ¬ C x) as Hcase.
  { intros y [?| ->]%HC; [by left|]. destruct (decide (x = seed ∨ x ∈ J)); [by left|by right]. }
  assert (¬ C x → ∀ y, C' y → knows net x y → y = x) as Halone.
  { intros Hn y Hy (m0 & Hm0 & Hk). assert (m0 = m) as -> by (cbn in Hm0; congruence). rewrite (inv_alone _ _ _ Hi _ _ Hm Hn) in Hk.
    apply elem_of_singleton in Hk. apply (inv_unique _ _ _ Hi); [|done|done]. apply HC in Hy as [?| ->]; [by apply (inv_real _ _ _ Hi)|done]. }
  split.
  - intros a m0 Hm0. destruct (inv_node _ _ _ Hi a m0 Hm0) as [Ha [Hs Hg]]. split; [done|]. split; [done|].
    intros i mem Hmem. destruct (Hg i mem Hmem) as (? & ? & [?|?]); split_and!; try done; [by left|]. right. apply HC. by left.
  - apply Hi.
  - intros y [?| ->]%HC; [by apply (inv_real _ _ _ Hi)|done].
  - apply HC. left. apply Hi.
  - intros a m0 Hm0 Hn. apply (inv_alone _ _ _ Hi a m0 Hm0). intros ?. apply Hn, HC. by left.
  - intros a msg [Hin| [= -> ->]%list_elem_of_singleton]%elem_of_app.
    + destruct (inv_msg _ _ _ Hi a msg Hin) as (nd & Hnd & Ha & Hok). exists nd. split_and!; [apply HC; by left|done|].
      destruct msg as [z|b ps| | |]; try done; cbn in *; destruct Hok as (H1 & H2).
      * split; [apply HC; by left|done].
      * destruct H2. split_and!; [done..|]. eapply Forall_impl; [done|]. intros z Hz. apply HC. by left.
    + exists seed. split_and!; [apply HC; left; apply Hi|done|]. split; [apply HC; by right|done].
  - intros y z Hy Hz Hk. destruct (Hcase y Hy) as [Hcy|[-> Hn]].
    + destruct (Hcase z Hz) as [Hcz|[-> Hn]]; [|by destruct (stranger _ _ _ y x Hi Hcy Hx Hn)].
      destruct (inv_sym _ _ _ Hi y z Hcy Hcz Hk) as [?|[?|?]]; [by left|right; left; by apply Hasked|right; right; by apply Htold].
    + left. pose proof (Halone Hn z Hz Hk) as E. rewrite E in Hk |- *. done.
  - intros y z Hy Hz Hd Hky Hkz. pose proof (inv_seed _ _ _ Hi) as Hs.
    destruct (Hcase y Hy) as [Hcy|[-> Hn]]; [|by destruct (stranger _ _ _ seed x Hi Hs Hx Hn)].
    destruct (Hcase z Hz) as [Hcz|[-> Hn]]; [|by destruct (stranger _ _ _ seed x Hi Hs Hx Hn)].
    destruct (inv_mesh _ _ _ Hi y z Hcy Hcz Hd Hky Hkz) as [?|[?|[?|?]]]; [by left|by right; left|right; right; left|right; right; right]; by apply Htold.
  - intros y [Hy| ->]%HC.
    + destruct (inv_joined _ _ _ Hi y Hy); [by left|right; by apply Hasked].
    + right. apply elem_of_app. right. by apply list_elem_of_singleton.
Qed.
Lemma inv_run seed net0 st : initial seed net0 → rtc (step seed) (net0, []) st → inv seed st.1 (in_cluster seed st.2).
Proof.
  intros H0 Hr. cut (∀ st0, inv seed st0.1 (in_cluster seed st0.2) → rtc (step seed) st0 st → inv seed st.1 (in_cluster seed st.2)).
  { intros H. apply (H (net0, []) (inv_initial _ _ H0) Hr). }
  clear H0 Hr. intros st0 Hi Hr. induction Hr as [|s1 s2 s3 Hs _ IH]; [done|]. apply IH. destruct Hs as [ns sp J m Hm Hne|net net' J Hd].
  - by apply inv_join.
  - cbn in *. by apply (deliver_step seed net).
Qed.
Lemma inv_quiet seed net J : inv seed net (in_cluster seed J) → soup net = [] → mesh seed J net.
Proof.
  intros Hi Hs. assert (∀ x y, ¬ asked net x y) as Ha by (intros x y H; unfold asked in H; rewrite Hs in H; by apply elem_of_nil in H).
  assert (∀ x y, ¬ told net x y) as Ht by (intros x y (ps & H & _); rewrite Hs in H; by apply elem_of_nil in H).
  intros x Hx. destruct (inv_real _ _ _ Hi x Hx) as (m & Hm & E). exists m. split_and!; [done..|]. intros i. split.
  - intros [mem Hmem]%elem_of_known. destruct (inv_node _ _ _ Hi _ _ Hm) as [_ [_ Hg]].
    destruct (Hg _ _ Hmem) as (_ & <- & [H|?]); [|by eexists]. exists x. by rewrite H, E.
  - intros (y & Hy & <-). assert (∀ z, in_cluster seed J z → knows net seed z) as Hseed.
    { intros z Hz. destruct (inv_joined _ _ _ Hi z Hz); [done|by destruct (Ha z seed)]. }
    destruct (decide (x = y)) as [<-|Hne].
    { destruct (inv_node _ _ _ Hi _ _ Hm) as [_ [(mem & Hmem & _) _]]. rewrite E in Hmem. apply elem_of_known. by eexists. }
    assert (knows net x y) as (m0 & Hm0 & Hk); [|congruence].
    destruct (inv_mesh _ _ _ Hi x y Hx Hy Hne (Hseed x Hx) (Hseed y Hy)) as [?|[H|[?|?]]];
      [done| |by destruct (Ht x y)|by destruct (Ht y x)].
    destruct (inv_sym _ _ _ Hi y x Hy Hx H) as [?|[?|?]]; [done|by destruct (Ha y x)|by destruct (Ht x y)].
Qed.
(** C13: the cluster forms. Nodes join through one seed, at any times, while the messages are
    delivered in any order: from every point on, the deliveries end, they go on as long as there
    is a message in flight, and when there is none left the seed and all the nodes that joined
    know exactly each other. *)
Theorem cluster_forms seed net0 net J : initial seed net0 → rtc (step seed) (net0, []) (net, J) →
  sn deliver net ∧
  (∀ net', rtc deliver net net' → soup net' ≠ [] → ∃ net'', deliver net' net'') ∧
  (∀ net', rtc deliver net net' → soup net' = [] → mesh seed J net').
Proof.
  intros H0 Hr. pose proof (inv_run seed net0 (net, J) H0 Hr) as Hi. cbn in Hi.
  assert (∀ net', rtc deliver net net' → inv seed net' (in_cluster seed J)) as Hall.
  { intros net' Hd. revert Hi. clear H0 Hr. induction Hd as [|n1 n2 n3 Hd _ IH]; [done|]. intros Hi. by apply IH, (deliver_step seed n1). }
  split_and!.
  - clear Hall H0 Hr. remember (work net) as w eqn:Ew. revert net Ew Hi. induction (lt_wf w) as [w _ IH]. intros net -> Hi.
    constructor. intros net' Hd. destruct (deliver_step seed net net' _ Hi Hd) as [Hi' Hlt]. by eapply IH.
  - intros net' Hd. apply (deliver_progress seed net' (in_cluster seed J)). by apply Hall.
  - intros net' Hd. apply inv_quiet. by apply Hall.
Qed.

(** Delivering the first message, as often as there is one. *)
Fixpoint deliver_first (k : nat) (net : Net) : Net :=
  match k, soup net with
  | S k', (a, msg) :: post =>
      match nodes net !! a with
      | Some m => match handle_message fresh 0 msg m with
                  | Some (m', out) => deliver_first k' (mkNet (<[a := m']> (nodes net)) (post ++ out))
                  | None => net
                  end
      | None => net
      end
  | _, _ => net
  end.
Lemma deliver_first_rtc k net : rtc deliver net (deliver_first k net).
Proof.
  revert net. induction k as [|k IH]; intros [ns sp]; cbn [deliver_first soup]; [done|]. destruct sp as [|[a msg] post]; [done|].
  cbn [nodes]. destruct (ns !! a) as [m|] eqn:Em; [|done]. destruct (handle_message fresh 0 msg m) as [[m' out]|] eqn:Eh; [|done].
  eapply rtc_l; [|apply IH]. by apply (deliver_one ns [] a msg post m 0 m' out).
Qed.

(** ** Replicated batches *)

(** A batch that arrives again is ignored: what it changed, it changed the first time. *)
Definition seen s (e : SyncEntry) : Prop := ∃ n, max_origin_sequences s !! origin_node e = Some n ∧ (sync_origin_sequence e ≤ n)%N.
Lemma check_seen s e : seen s e → check_and_update_origin_sequence (origin_node e) (sync_origin_sequence e) s = (false, s).
Proof.
  intros (n & Hn & Hle). unfold check_and_update_origin_sequence. rewrite Hn. cbn. rewrite (proj2 (N.ltb_ge _ _)) by done.
  rewrite insert_id by done. by destruct s.
Qed.
Lemma check_makes_seen s e : let s' := (check_and_update_origin_sequence (origin_node e) (sync_origin_sequence e) s).2 in
  seen s' e ∧ ∀ e', seen s e' → seen s' e'.
Proof.
  unfold check_and_update_origin_sequence, seen. cbn zeta.
  destruct (N.ltb_spec (default 0%N (max_origin_sequences s !! origin_node e)) (sync_origin_sequence e)) as [Hlt|Hge]; cbn [snd max_origin_sequences].
  - split; [eexists; by rewrite lookup_insert_eq|]. intros e' (n & Hn & Hle). rewrite lookup_insert. case_decide as E; [|by exists n].
    eexists. split; [done|]. rewrite <- E in Hn. rewrite Hn in Hlt. cbn in Hlt. lia.
  - split; [eexists; by rewrite lookup_insert_eq|]. intros e' (n & Hn & Hle). rewrite lookup_insert. case_decide as E; [|by exists n].
    eexists. split; [done|]. rewrite <- E in Hn. by rewrite Hn.
Qed.
Lemma valid_entries_seen local (entries : list SyncEntry) s : let s' := (valid_entries local entries s).2 in
  (∀ e, seen s e → seen s' e) ∧ Forall (λ e, origin_node e = local ∨ seen s' e) entries.
Proof.
  revert s. induction entries as [|e entries IH]; intros s; [by split|]. cbn [valid_entries].
  destruct (String.eqb_spec (origin_node e) local) as [El|El].
  - destruct (IH s) as [H1 H2]. split; [done|]. constructor; [by left|done].
  - destruct (check_makes_seen s e) as [Hs Hm]. destruct (check_and_update_origin_sequence _ _ s) as [f s1]. cbn [snd] in *.
    destruct (IH s1) as [H1 H2]. destruct (valid_entries local entries s1) as [rest s2]. cbn [snd] in *. split; [by auto|].
    constructor; [right; by auto|done].
Qed.
Lemma valid_entries_again local (entries : list SyncEntry) s : Forall (λ e, origin_node e = local ∨ seen s e) entries →
  valid_entries local entries s = ([], s).
Proof.
  induction 1 as [|e entries He _ IH]; [done|]. cbn [valid_entries].
  destruct (String.eqb_spec (origin_node e) local) as [El|El]; [done|]. destruct He as [?|He]; [done|]. by rewrite (check_seen s e He), IH.
Qed.
(** a batch of replicated entries that arrives a second time changes nothing, whatever it did
    the first time; nor does one that holds only entries of the node itself. *)
Theorem replicated_once (entries : list SyncEntry) more current compressed m m' :
  handle_sync_message fresh (SyncBatch entries more current compressed) m = Some m' →
  handle_sync_message fresh (SyncBatch entries more current compressed) m' = Some m' ∧
  (Forall (λ e, origin_node e = id (local_node m)) entries → m' = m).
Proof.
  cbn [handle_sync_message]. destruct (valid_entries_seen (id (local_node m)) entries (state m)) as [_ Hall].
  destruct (valid_entries _ entries (state m)) as [valid s] eqn:Ev. cbn [snd] in Hall. intros Hh.
  assert (local_node m' = local_node m ∧ state m' = s) as [El Es].
  { destruct valid, (storage m); try by injection Hh as <-. apply fmap_Some in Hh as (e' & _ & ->). done. }
  split.
  - rewrite El, Es, (valid_entries_again _ _ _ Hall). by destruct m', (storage m); cbn in *; subst.
  - intros Hown. rewrite (valid_entries_again (id (local_node m)) entries (state m)) in Ev; [|eapply Forall_impl; [exact Hown|by left]].
    injection Ev as <- <-. injection Hh as <-. by destruct m.
Qed.
End Membership.
End Membership.

(** *** Concrete clusters *)

Module MembershipDemo.
Import Cluster ClusterManager Membership DocumentDemo CollectionDemo DatabasesDemo.
#[local] Instance demo_order : HashOrder := λ l, l.
#[local] Instance demo_order_laws : HashOrderLaws.
Proof. by intros l. Qed.
#[local] Instance demo_groups : GroupOrder := λ l, l.
#[local] Instance demo_hash : Sharding.KeyHash := { Sharding.seahash _ := 0%N; Sharding.default_hash _ := 0%N }.
#[local] Instance demo_shards : ShardConfigJson := { shard_config_to_vec _ := None; shard_config_from_slice _ := None }.
#[local] Instance demo_json_text : JsonText demo_number := {
  num_as_f64 _ := None;
  num_of_f64 _ := None;
  json_to_string := to_text;
  json_from_slice := of_text;
}.
Notation DemoManager := (Manager (Num:=demo_number) (DB:=map_store) (Stats:=unit)).
Definition demo_node (n : string) : Node := mkNode n n n 0.
Definition alone (n : string) : DemoManager := new_manager 0 (demo_node n) (new n) None.
Definition demo_fresh (n : N) : string * Z := ("r", Z.of_N n).

Definition net0 : Net (Num:=demo_number) (DB:=map_store) (Stats:=unit) :=
  mkNet {[ "s" := alone "s"; "a" := alone "a"; "b" := alone "b" ]} [].
Definition joining : Net (Num:=demo_number) (DB:=map_store) (Stats:=unit) :=
  mkNet (nodes net0) (join_cluster "s" (alone "a") ++ join_cluster "s" (alone "b")).
Lemma net0_lookup a (m : DemoManager) : nodes net0 !! a = Some m → m = alone a.
Proof.
  cbn [nodes net0]. intros [[<- <-]|[_ [[<- <-]|[_ [<- <-]%lookup_singleton_Some]]%lookup_insert_Some]]%lookup_insert_Some; done.
Qed.
Lemma net0_initial : initial (demo_node "s") net0.
Proof.
  split.
  - done.
  - exists (alone "s"). by vm_compute.
  - intros a m ->%net0_lookup. split; [done|]. exists 0%N. reflexivity.
  - intros a b m m' ->%net0_lookup ->%net0_lookup. done.
Qed.
Lemma cluster_forms_witness :
  sn (deliver demo_fresh) joining ∧
  mesh (demo_node "s") [demo_node "a"; demo_node "b"] (deliver_first demo_fresh 20 joining).
Proof.
  destruct (cluster_forms demo_fresh (demo_node "s") net0 joining [demo_node "a"; demo_node "b"]) as (Hsn & _ & Hmesh).
  - exact net0_initial.
  - eapply rtc_l; [apply (step_join _ (demo_node "s") (nodes net0) [] [] (alone "a")); [reflexivity|discriminate]|].
    eapply rtc_l; [apply (step_join _ (demo_node "s") (nodes net0) _ [demo_node "a"] (alone "b")); [reflexivity|discriminate]|].
    apply rtc_refl.
  - split; [exact Hsn|]. apply Hmesh; [apply deliver_first_rtc|vm_compute; reflexivity].
Defined.

(** With a chain of seeds the cluster does not form: [a] joins through [b], and [b] afterwards
    through [s]; no message is left, and [a] and [s] do not know each other. *)
Definition chained : Net (Num:=demo_number) (DB:=map_store) (Stats:=unit) :=
  let n1 := deliver_first demo_fresh 20 (mkNet (nodes net0) (join_cluster "b" (alone "a"))) in
  deliver_first demo_fresh 20 (mkNet (nodes n1) (join_cluster "s" (alone "b"))).
Example chain_incomplete : soup chained = [] ∧
  elements ∘ known <$> nodes chained !! "a" = Some ["a"; "b"] ∧ elements ∘ known <$> nodes chained !! "s" = Some ["s"; "b"].
Proof. vm_compute. by split_and!. Qed.

(** A batch is applied out of order: its deletions come after its writes, so that a document
    deleted and written again by the same batch is gone. *)
Definition sync_entry (n : N) (op : Operation) (data : option string) : SyncEntry :=
  mkSyncEntry n "peer" n 0 0 "db" "c" op "k1" data None None [] false None None None.
Definition rewritten : list SyncEntry :=
  [sync_entry 1 Delete None; sync_entry 2 Insert (Some (to_text (Object [("a", Bool true)] : Value demo_number)))].
Definition with_doc : DemoManager :=
  mkManager (demo_node "n") (new "n")
    (match (opened ≫= λ r, match r with Ok id => on_handle id (insert "g1" "r1" 1 doc1) ≫= λ _, mret tt | Err _ => mret tt end) engine0 with
     | Some (_, e) => Some e
     | None => None
     end).
Definition stored_k1 (m : DemoManager) : option bool :=
  storage m ≫= λ e, families e !! "db:c" ≫= λ d, Some (match kv_get (doc_key "k1") d with Some _ => true | None => false end).
Example batch_reordered : stored_k1 with_doc = Some true ∧
  (handle_sync_message demo_fresh (SyncBatch rewritten false 2 false) with_doc ≫= stored_k1) = Some false.
Proof. vm_compute. by split. Qed.
Lemma rewritten_handled : is_Some (handle_sync_message demo_fresh (SyncBatch rewritten false 2 false) with_doc).
Proof.
  destruct (handle_sync_message _ _ _) as [m'|] eqn:E; [by eexists|]. pose proof (proj2 batch_reordered) as H. by rewrite E in H.
Qed.
Lemma replicated_once_witness :
  ∃ m', handle_sync_message demo_fresh (SyncBatch rewritten false 2 false) with_doc = Some m' ∧
    handle_sync_message demo_fresh (SyncBatch rewritten false 2 false) m' = Some m'.
Proof.
  destruct rewritten_handled as [m' Hm]. exists m'. split; [exact Hm|].
  exact (proj1 (replicated_once demo_fresh rewritten false 2 false with_doc m' Hm)).
Defined.
End MembershipDemo.
