(* ===== verification/SyncSessions.v ===== *)
(** * Sessions of offline clients (src/sync/session.rs, src/server/handlers/sync.rs)

    [Sessions]: the session of a device, its signed identifier, and the manager of the sessions with
    its index by device. [SyncHandlers]: the requests of the clients, which register, pull the
    changes of the replication log page by page through their subscriptions and filter, and push
    their own changes. The HMAC is the class [HmacCrate]; the clock, the generated identifiers and
    the parsed parts of a request are arguments. *)

From S2P Require Import Prelude Text Json Transaction Codec Kv VersionVector Hlc Indexes F64 SdbqlLexer SyncLog.
Import SyncLog.SyncLog.
Import Json Codec Indexes.

(** HMAC-SHA256 of a text under a key, in hexadecimal. *)
Class HmacCrate := hmac_hex : string → string → string.
Class HmacLaws `{!HmacCrate} : Prop := hmac_length data secret : String.length (hmac_hex data secret) = 64.

Module Sessions.

Record ClientCapabilities := mkCapabilities {
  delta_sync : bool; crdt_types : bool; compression : bool; max_batch_size : N }.
Definition no_capabilities : ClientCapabilities := mkCapabilities false false false 0.
Record SyncSession := mkSession {
  session_id : string;
  device_id : string;
  user_id : option string;
  api_key : string;
  last_vector : VersionVector.VersionVector;
  last_sequence : N;
  filter_query : option string;
  subscriptions : list string;
  created_at : N;
  last_activity : N;
  is_online : bool;
  capabilities : ClientCapabilities;
}.
Definition new (now : N) (session_id device_id api_key : string) : SyncSession :=
  mkSession session_id device_id None api_key VersionVector.new 0 None [] now now true no_capabilities.

(** ** Signed identifiers *)

Section Signed.
Context `{hmac : !HmacCrate}.

Definition sign_hmac (data secret : string) : string := hmac_hex data secret.
(** The comparison in constant time: the bits in which the bytes differ. *)
Fixpoint differences (a b : string) : N :=
  match a, b with
  | String c a', String d b' => N.lor (N.lxor (N_of_ascii c) (N_of_ascii d)) (differences a' b')
  | _, _ => 0
  end.
Definition verify_hmac (data signature secret : string) : bool :=
  let expected := sign_hmac data secret in
  if (String.length expected =? String.length signature)%nat then (differences expected signature =? 0)%N else false.

Definition new_secure (nonce : string) (now : N) (device_id api_key secret : string) : SyncSession :=
  let signature := sign_hmac (device_id +:+ (nonce +:+ api_key)) secret in
  new now (device_id +:+ ("-" +:+ (nonce +:+ ("-" +:+ signature)))) device_id api_key.

(** Slices of bytes; where the code slices without looking at the byte before, the place may lie
    inside a character. *)
Definition upto (n : nat) (s : string) : string := String.substring 0 n s.
Definition from (n : nat) (s : string) : string := String.substring n (String.length s - n) s.
Definition dash_at (n : nat) (s : string) : bool := match String.get n s with Some c => Ascii.eqb c "-" | None => false end.
Definition verify_session_id (session_id api_key secret : string) : bool :=
  if (String.length session_id <? 65)%nat then false
  else
    let signature_start := String.length session_id - 64 in
    if negb (dash_at (signature_start - 1) session_id) then false
    else
      let signature := from signature_start session_id in
      let prefix := upto (signature_start - 1) session_id in
      if (String.length prefix <? 37)%nat then false
      else
        let nonce_start := String.length prefix - 36 in
        if negb (dash_at (nonce_start - 1) prefix) then false
        else
          let nonce := from nonce_start prefix in
          let device_id := upto (nonce_start - 1) prefix in
          verify_hmac (device_id +:+ (nonce +:+ api_key)) signature secret.
(** [None]: the slice panics; [is_char_boundary] looks at the byte behind the place. *)
Definition char_boundary (n : nat) (s : string) : bool :=
  match String.get n s with Some c => negb ((128 <=? N_of_ascii c)%N && (N_of_ascii c <? 192)%N) | None => true end.
Definition extract_device_id (session_id : string) : option (option string) :=
  if (String.length session_id <? 65 + 37)%nat then Some None
  else
    let cut := String.length session_id - 64 - 1 in
    if negb (char_boundary cut session_id) then None
    else
      let prefix := upto cut session_id in
      if (String.length prefix <? 37)%nat then Some None
      else
        let cut' := String.length prefix - 36 - 1 in
        if char_boundary cut' prefix then Some (Some (upto cut' prefix)) else None.
End Signed.

(** ** Changes of a session *)

Definition touch (now : N) (s : SyncSession) : SyncSession :=
  mkSession (session_id s) (device_id s) (user_id s) (api_key s) (last_vector s) (last_sequence s) (filter_query s)
    (subscriptions s) (created_at s) now (is_online s) (capabilities s).
Definition update_vector (now : N) (v : VersionVector.VersionVector) (s : SyncSession) : SyncSession :=
  touch now (mkSession (session_id s) (device_id s) (user_id s) (api_key s) v (last_sequence s) (filter_query s)
    (subscriptions s) (created_at s) (last_activity s) (is_online s) (capabilities s)).
Definition update_sequence (now : N) (n : N) (s : SyncSession) : SyncSession :=
  touch now (mkSession (session_id s) (device_id s) (user_id s) (api_key s) (last_vector s) n (filter_query s)
    (subscriptions s) (created_at s) (last_activity s) (is_online s) (capabilities s)).
Definition with_subscriptions (l : list string) (s : SyncSession) : SyncSession :=
  mkSession (session_id s) (device_id s) (user_id s) (api_key s) (last_vector s) (last_sequence s) (filter_query s)
    l (created_at s) (last_activity s) (is_online s) (capabilities s).
Definition with_filter (f : option string) (s : SyncSession) : SyncSession :=
  mkSession (session_id s) (device_id s) (user_id s) (api_key s) (last_vector s) (last_sequence s) f
    (subscriptions s) (created_at s) (last_activity s) (is_online s) (capabilities s).
Definition subscribe (now : N) (c : string) (s : SyncSession) : SyncSession :=
  touch now (if bool_decide (c ∈ subscriptions s) then s else with_subscriptions (subscriptions s ++ [c]) s).
Definition unsubscribe (now : N) (c : string) (s : SyncSession) : SyncSession :=
  touch now (with_subscriptions (filter (λ x, x ≠ c) (subscriptions s)) s).
Definition set_online (now : N) (online : bool) (s : SyncSession) : SyncSession :=
  let s' := mkSession (session_id s) (device_id s) (user_id s) (api_key s) (last_vector s) (last_sequence s) (filter_query s)
    (subscriptions s) (created_at s) (last_activity s) online (capabilities s) in
  if online then touch now s' else s'.
(** The difference wraps when the clock was set back. *)
Definition is_expired (now max_inactive : N) (s : SyncSession) : bool := (max_inactive <? sub64 now (last_activity s))%N.

(** ** The manager *)

Record Manager := mkManager {
  sessions : gmap string SyncSession;
  device_index : gmap string (list string);
  max_inactive_ms : N;
}.
Definition new_manager : Manager := mkManager ∅ ∅ (7 * 24 * 60 * 60 * 1000).
Definition with_expiration (max : N) : Manager := mkManager ∅ ∅ max.
Definition set_sessions (m : gmap string SyncSession) (g : Manager) : Manager := mkManager m (device_index g) (max_inactive_ms g).
Definition register_session (s : SyncSession) (g : Manager) : Manager :=
  mkManager (<[session_id s := s]> (sessions g))
    (<[device_id s := default [] (device_index g !! device_id s) ++ [session_id s]]> (device_index g)) (max_inactive_ms g).
Definition get_session (i : string) (g : Manager) : option SyncSession := sessions g !! i.
Definition get_device_sessions (d : string) (g : Manager) : list SyncSession :=
  omap (λ i, sessions g !! i) (default [] (device_index g !! d)).
Definition update_session (s : SyncSession) (g : Manager) : Manager :=
  match sessions g !! session_id s with
  | Some _ => set_sessions (<[session_id s := s]> (sessions g)) g
  | None => g
  end.
Definition modify_session (f : SyncSession → SyncSession) (i : string) (g : Manager) : Manager := set_sessions (alter f i (sessions g)) g.
Definition update_session_vector (now : N) (i : string) (v : VersionVector.VersionVector) : Manager → Manager :=
  modify_session (update_vector now v) i.
Definition update_session_sequence (now : N) (i : string) (n : N) : Manager → Manager := modify_session (update_sequence now n) i.
Definition set_session_online (now : N) (i : string) (online : bool) : Manager → Manager := modify_session (set_online now online) i.
Definition remove_session (i : string) (g : Manager) : Manager :=
  match sessions g !! i with
  | None => g
  | Some s =>
      mkManager (base.delete i (sessions g))
        (match device_index g !! device_id s with
         | Some ids =>
             match filter (λ x, x ≠ i) ids with
             | [] => base.delete (device_id s) (device_index g)
             | ids' => <[device_id s := ids']> (device_index g)
             end
         | None => device_index g
         end) (max_inactive_ms g)
  end.
Definition remove_device_sessions (d : string) (g : Manager) : Manager :=
  foldl (λ g i, remove_session i g) g (default [] (device_index g !! d)).
Definition all_sessions `{!HashOrder} (g : Manager) : list SyncSession :=
  omap (λ i, sessions g !! i) (hash_order (elements (dom (sessions g)))).
Definition get_active_sessions `{!HashOrder} (g : Manager) : list SyncSession := List.filter is_online (all_sessions g).
Definition get_subscribers `{!HashOrder} (c : string) (g : Manager) : list SyncSession :=
  List.filter (λ s, bool_decide (c ∈ subscriptions s)) (all_sessions g).
Definition cleanup_expired `{!HashOrder} (now : N) (g : Manager) : nat * Manager :=
  let expired := session_id <$> List.filter (is_expired now (max_inactive_ms g)) (all_sessions g) in
  (length expired, foldl (λ g i, remove_session i g) g expired).
Definition session_count (g : Manager) : nat := size (sessions g).
Definition online_count `{!HashOrder} (g : Manager) : nat := length (get_active_sessions g).
End Sessions.

(** ** The filter of a session *)

Module SimpleFilter.
Section Filter.
Context {Num : Type} `{!JsonNumber Num} `{!JsonText Num} `{floats : !FloatText} `{std_text : !StdText}.
Notation Value := (Value Num).

Fixpoint drop_white (cs : list string) : list string :=
  match cs with c :: cs' => if char_whitespace c then drop_white cs' else cs | [] => [] end.
Definition trim (s : string) : string := collect (rev (drop_white (rev (drop_white (chars s))))).
(** [find]: what is before and after the first occurrence. *)
Fixpoint find_str (p s : string) : option (string * string) :=
  if starts_with p s then Some ("", String.substring (String.length p) (String.length s - String.length p) s)
  else match s with
       | EmptyString => None
       | String c s' => (λ q, (String c q.1, q.2)) <$> find_str p s'
       end.
Definition get_nested_field (doc : Value) (path : string) : Value :=
  let parts := split_on "." path in
  let parts := match parts with first :: rest => if String.eqb first "doc" then rest else parts | [] => [] end in
  (fix go (v : Value) (ps : list string) : Value :=
     match ps with [] => v | k :: ps' => match value_get k v with Some v' => go v' ps' | None => Null end end) doc parts.

Definition double_quote : ascii := ascii_of_nat 34.
Definition quoted (q : ascii) (v : string) : bool :=
  starts_with (String q "") v && match String.get (String.length v - 1) v with Some c => Ascii.eqb c q | None => false end.
(** A lone quote is cut from its first byte to before it: the slice panics. *)
Definition parse_filter_value (value : string) : option Value :=
  let v := trim value in
  if quoted "'" v || quoted double_quote v then
    if (String.length v <? 2)%nat then None else Some (JString (String.substring 1 (String.length v - 2) v))
  else if String.eqb v "true" then Some (Bool true)
  else if String.eqb v "false" then Some (Bool false)
  else if String.eqb v "null" then Some Null
  else match parse_i64 v with
       | Some n => Some (Number (num_of_i64 n))
       | None =>
           match parse_f64 v with
           | Some f => Some (match num_of_f64 f with Some n => Number n | None => Null end)
           | None => Some (JString v)
           end
       end.
Definition as_f64_or_zero (n : Num) : N := default 0%N (num_as_f64 n).
Definition values_equal (a b : Value) : bool :=
  match a, b with
  | JString s1, JString s2 => String.eqb s1 s2
  | Number n1, Number n2 => F64.eqb (as_f64_or_zero n1) (as_f64_or_zero n2)
  | Bool b1, Bool b2 => Bool.eqb b1 b2
  | Null, Null => true
  | _, _ => value_eqb a b
  end.
Definition compare_numbers (a b : Value) : Z :=
  let number v := match v with Number n => as_f64_or_zero n | _ => 0%N end in
  if F64.ltb (number a) (number b) then (-1)%Z else if F64.ltb (number b) (number a) then 1%Z else 0%Z.

Definition operators : list string := ["=="; "!="; ">="; "<="; ">"; "<"].
Definition compare_with (op : string) (a b : Value) : bool :=
  if String.eqb op "==" then values_equal a b
  else if String.eqb op "!=" then negb (values_equal a b)
  else if String.eqb op ">" then (0 <? compare_numbers a b)%Z
  else if String.eqb op "<" then (compare_numbers a b <? 0)%Z
  else if String.eqb op ">=" then (0 <=? compare_numbers a b)%Z
  else if String.eqb op "<=" then (compare_numbers a b <=? 0)%Z
  else true.
(** [None]: a panic. *)
Definition evaluate_simple_filter (filter_query : string) (doc : Value) : option bool :=
  let f := trim filter_query in
  if String.eqb f "" then Some true
  else
    (fix go (ops : list string) : option bool :=
       match ops with
       | [] => Some true
       | op :: ops' =>
           match find_str op f with
           | Some (lhs, rhs) =>
               compare_value ← parse_filter_value (trim rhs);
               Some (compare_with op (get_nested_field doc (trim lhs)) compare_value)
           | None => go ops'
           end
       end) operators.
End Filter.
End SimpleFilter.

(** ** The requests of the clients *)

Module SyncHandlers.
Import Sessions SimpleFilter.

Inductive ChangeOperation := CInsert | CUpdate | CDelete.

Section Handlers.
Context {Num : Type} `{!JsonNumber Num} `{!JsonText Num} `{!MetaJson Num} `{floats : !FloatText} `{std_text : !StdText}.
Context `{hmac : !HmacCrate} `{entry_codec : !EntryCodec}.
Context {LDB : Type} `{log_store : !KvStore LDB}.
Notation Value := (Value Num).
Notation SyncLog := (SyncLog LDB).
Notation VersionVector := VersionVector.VersionVector.

Record SyncChange := mkChange {
  ch_database : string;
  ch_collection : string;
  ch_key : string;
  ch_operation : ChangeOperation;
  ch_data : option Value;
  ch_parents : list VersionVector;
  ch_vector : VersionVector;
  ch_timestamp : N;
  ch_is_delta : bool;
  ch_patch : option Value;
}.
Definition change_operation (o : Operation) : ChangeOperation :=
  match o with
  | Insert => CInsert
  | Update => CUpdate
  | Delete => CDelete
  | CreateCollection | DeleteCollection | TruncateCollection | CreateDatabase | DeleteDatabase
  | ColumnarInsert | ColumnarCreateCollection => CInsert
  | ColumnarDelete | ColumnarDropCollection | ColumnarTruncate => CDelete
  | _ => CUpdate
  end.
Definition log_entry_to_sync_change (e : LogEntry) : SyncChange :=
  mkChange (database e) (collection e) (key e) (change_operation (operation e)) (data e ≫= json_from_slice) []
    (VersionVector.with_node (entry_node e) (sequence e)) (timestamp e) false None.

Record Server := mkServer {
  session_manager : option Manager;
  replication_log : option SyncLog;
  cluster_secret : string;
}.
Definition set_manager (g : Manager) (s : Server) : Server := mkServer (Some g) (replication_log s) (cluster_secret s).
Definition no_manager : DbError := InternalError "Sync session manager not initialized".
Definition not_found (i : string) : DbError := BadRequest ("Session '" +:+ (i +:+ "' not found")).
Definition required (field : string) : DbError := BadRequest (field +:+ " is required").
Definition text (field : string) (req : Value) : option string := value_get field req ≫= as_str.
Definition as_array (v : Value) : option (list Value) := match v with Array l => Some l | _ => None end.

Record RegisterResponse := mkRegistered { r_session_id : string; r_server_vector : VersionVector; r_capabilities : ClientCapabilities }.
Definition register_sync_session (uuid : string) (now : N) (req : Value) (s : Server) : result DbError RegisterResponse * Server :=
  match text "device_id" req with
  | None => (Err (required "device_id"), s)
  | Some device =>
      match text "api_key" req with
      | None => (Err (required "api_key"), s)
      | Some key =>
          let subs := match value_get "subscriptions" req ≫= as_array with Some l => omap as_str l | None => [] end in
          let session :=
            if String.eqb (cluster_secret s) "" then Sessions.new now (device +:+ ("-" +:+ uuid)) device key
            else new_secure uuid now device key (cluster_secret s) in
          let session := with_filter (text "filter_query" req) (with_subscriptions subs session) in
          match session_manager s with
          | None => (Err no_manager, s)
          | Some g =>
              (Ok (mkRegistered (session_id session) VersionVector.new (mkCapabilities true true true 1048576)),
               set_manager (register_session session g) s)
          end
      end
  end.

(** The session of a request, when it exists and its identifier is signed. *)
Definition authenticated (i : string) (s : Server) : result DbError (Manager * SyncSession) :=
  match session_manager s with
  | None => Err no_manager
  | Some g =>
      match get_session i g with
      | None => Err (not_found i)
      | Some session =>
          if negb (String.eqb (cluster_secret s) "") && negb (verify_session_id i (api_key session) (cluster_secret s))
          then Err (BadRequest "Invalid session signature")
          else Ok (g, session)
      end
  end.

(** *** Pull *)

Definition subscribed (session : SyncSession) (e : LogEntry) : bool :=
  match subscriptions session with [] => true | l => bool_decide (collection e ∈ l) end.
(** [None]: a panic. *)
Definition passes_filter (session : SyncSession) (e : LogEntry) : option bool :=
  match filter_query session with
  | None => Some true
  | Some f =>
      match operation e with
      | Delete => Some true
      | _ => match data e ≫= json_from_slice with Some doc => evaluate_simple_filter f doc | None => Some true end
      end
  end.
Fixpoint filtered (session : SyncSession) (l : list LogEntry) : option (list LogEntry) :=
  match l with
  | [] => Some []
  | e :: l' =>
      b ← passes_filter session e;
      rest ← filtered session l';
      Some (if b : bool then e :: rest else rest)
  end.
Definition max_seq (after : N) (l : list LogEntry) : N :=
  default after (foldr (λ e acc, Some (match acc with Some n => N.max (sequence e) n | None => sequence e end)) None l).
(** "increment", and again while the counter is below the number. *)
Definition raise_to (v : VersionVector) (e : LogEntry) : VersionVector :=
  let current := VersionVector.get v (entry_node e) in
  if (current <? sequence e)%N
  then N.iter (sequence e - current) (λ v, (VersionVector.increment v (entry_node e)).2) v
  else v.

Record PullResponse := mkPulled { p_changes : list SyncChange; p_server_vector : VersionVector; p_has_more : bool }.
Definition pull_limit (req : Value) : nat := N.to_nat (default 100%N (value_get "limit" req ≫= as_u64)).
Definition pull_changes (now : N) (req : Value) (s : Server) : option (result DbError PullResponse * Server) :=
  match text "session_id" req with
  | None => Some (Err (required "session_id"), s)
  | Some i =>
      match authenticated i s with
      | Err e => Some (Err e, s)
      | Ok (g, session) =>
          let limit := pull_limit req in
          let after_sequence := last_sequence session in
          match replication_log s with
          | None => Some (Err (InternalError "Replication log not initialized"), s)
          | Some log =>
              let log_entries := get_entries_after after_sequence limit log in
              found ← filtered session (List.filter (subscribed session) log_entries);
              let changes := log_entry_to_sync_change <$> found in
              let server_vector := foldl raise_to VersionVector.new found in
              let g' := update_session_vector now i server_vector
                          (update_session_sequence now i (max_seq after_sequence found) g) in
              Some (Ok (mkPulled changes server_vector (length changes =? limit)%nat), set_manager g' s)
          end
      end
  end.

(** *** Push *)

Definition pushed_operation (o : ChangeOperation) : Operation :=
  match o with CInsert => Insert | CUpdate => Update | CDelete => Delete end.
Definition pushed_entry (device : string) (c : SyncChange) : LogEntry :=
  mkEntry 0 device (ch_database c) (ch_collection c) (pushed_operation (ch_operation c)) (ch_key c)
    (ch_data c ≫= value_to_vec) (ch_timestamp c) None.
Record PushResponse := mkPushed { u_server_vector : VersionVector; u_accepted : nat; u_rejected : nat }.
(** [changes] and [client_vector]: the fields of the request of these names, as they deserialize;
    empty ones where they do not. *)
Definition push_changes (now : N) (req : Value) (changes : list SyncChange) (client_vector : VersionVector) (s : Server) :
    result DbError PushResponse * Server :=
  match text "session_id" req with
  | None => (Err (required "session_id"), s)
  | Some i =>
      match authenticated i s with
      | Err e => (Err e, s)
      | Ok (g, session) =>
          let log' := (λ l, foldl (λ l c, (append (pushed_entry (device_id session) c) l).2) l changes) <$> replication_log s in
          let server_vector := (VersionVector.increment client_vector (device_id session)).2 in
          (Ok (mkPushed server_vector (length changes) 0),
           mkServer (Some (update_session_vector now i server_vector g)) log' (cluster_secret s))
      end
  end.

(** *** The other requests *)

Definition existing (i : string) (s : Server) : result DbError Manager :=
  match session_manager s with
  | None => Err no_manager
  | Some g => match get_session i g with Some _ => Ok g | None => Err (not_found i) end
  end.
Definition acknowledge_changes (now : N) (req : Value) (applied_vector : VersionVector) (s : Server) : result DbError unit * Server :=
  match text "session_id" req with
  | None => (Err (required "session_id"), s)
  | Some i =>
      match existing i s with
      | Err e => (Err e, s)
      | Ok g => (Ok tt, set_manager (update_session_vector now i applied_vector g) s)
      end
  end.
(** "TODO: Query conflict store": no conflicts. *)
Definition list_conflicts (i : string) (s : Server) : result DbError (list Value) :=
  match existing i s with Err e => Err e | Ok _ => Ok [] end.
Definition resolve_conflict (req : Value) (s : Server) : result DbError (string * string) :=
  match text "session_id" req with
  | None => Err (required "session_id")
  | Some i =>
      match text "document_key" req with
      | None => Err (required "document_key")
      | Some document_key =>
          match text "resolution" req with
          | None => Err (required "resolution")
          | Some resolution =>
              match existing i s with
              | Err e => Err e
              | Ok _ =>
                  if negb (String.eqb resolution "local" || String.eqb resolution "remote" || String.eqb resolution "merged")
                  then Err (BadRequest "resolution must be 'local', 'remote', or 'merged'")
                  else if String.eqb resolution "merged" && negb (bool_decide (is_Some (value_get "merged_data" req)))
                  then Err (BadRequest "merged_data is required when resolution is 'merged'")
                  else Ok (document_key, resolution)
              end
          end
      end
  end.
End Handlers.
End SyncHandlers.
