(* ===== verification/SyncSessionsProps.v ===== *)
(** * Properties of the sessions of offline clients

    Identifiers: exactly the signed ones are accepted. The manager: its index by device agrees with
    its sessions. Pulling: a client receives, in order and once, the entries of the log that pass
    its subscriptions and its filter, up to the point its session has come to; it comes no further
    when a page holds no such entry. Pushing: what one client pushes, another one pulls. *)

From S2P Require Import Prelude Text Json Transaction Codec Kv VersionVector Hlc Indexes F64 SdbqlLexer SyncLog SyncSessions.
Import SyncLog.SyncLog.
Import Json Codec Indexes Sessions SimpleFilter SyncHandlers.

(** ** Identifiers *)

Module SessionIds.
Section Ids.
Context `{hmac : !HmacCrate} `{hmac_laws : !HmacLaws}.

Lemma differences_zero a b : String.length a = String.length b → differences a b = 0%N ↔ a = b.
Proof.
  revert b. induction a as [|c a IH]; intros [|d b]; cbn [String.length differences]; intros Hl; try done.
  rewrite N.lor_eq_0_iff, N.lxor_eq_0_iff, IH by lia. split; [intros [E ->]|by intros [= -> ->]].
  apply (f_equal ascii_of_N) in E. rewrite !ascii_N_embedding in E. by subst.
Qed.
Lemma verify_hmac_spec data signature secret : verify_hmac data signature secret = true ↔ signature = hmac_hex data secret.
Proof.
  unfold verify_hmac, sign_hmac. destruct (Nat.eqb_spec (String.length (hmac_hex data secret)) (String.length signature)) as [E|E].
  - rewrite N.eqb_eq, differences_zero by done. split; congruence.
  - split; [done|]. by intros ->.
Qed.
Lemma get_app a c b : String.get (String.length a) (a +:+ String c b) = Some c.
Proof. induction a as [|d a IH]; [done|]. exact IH. Qed.
Lemma upto_app a b : upto (String.length a) (a +:+ b) = a.
Proof. unfold upto. by rewrite substring_app_l. Qed.
Lemma from_app a b : from (String.length a) (a +:+ b) = b.
Proof. unfold from. rewrite str_length_app, Nat.add_comm, Nat.add_sub. by rewrite substring_app_r. Qed.
(** A text with a dash at a place, and what is before and behind it. *)
Lemma dash_split n s : dash_at n s = true → ∃ a b, s = a +:+ ("-" +:+ b) ∧ String.length a = n.
Proof.
  unfold dash_at. destruct (String.get n s) as [c|] eqn:E; [|done]. intros ->%Ascii.eqb_eq. revert n E.
  induction s as [|c s IH]; intros n E; [by destruct n|]. destruct n as [|n]; cbn in E.
  - injection E as ->. by exists "", s.
  - destruct (IH n E) as (a & b & -> & <-). by exists (String c a), b.
Qed.
Lemma from_dash a b : from (S (String.length a)) (a +:+ ("-" +:+ b)) = b.
Proof.
  assert (S (String.length a) = String.length (a +:+ "-")) as -> by (rewrite str_length_app; cbn; lia).
  rewrite <- str_app_assoc. apply from_app.
Qed.

(** the identifiers a server accepts are exactly the signed ones: those of a device and a nonce of
    36 bytes, followed by the HMAC of the device, the nonce and the API key; in particular those of
    its own sessions. *)
Theorem session_id_authentic i key secret :
  verify_session_id i key secret = true ↔
  ∃ device nonce, String.length nonce = 36 ∧
    i = device +:+ ("-" +:+ (nonce +:+ ("-" +:+ hmac_hex (device +:+ (nonce +:+ key)) secret))).
Proof.
  unfold verify_session_id. split.
  - destruct (Nat.ltb_spec (String.length i) 65) as [|Hlen]; [done|]. cbn zeta.
    destruct (dash_at _ i) eqn:Hd; [|done]. cbn [negb]. destruct (dash_split _ _ Hd) as (p & sig & -> & Hp).
    rewrite !str_length_app in *. change (String.length "-") with 1 in *.
    replace (String.length p + (1 + String.length sig) - 64 - 1) with (String.length p) by lia.
    replace (String.length p + (1 + String.length sig) - 64) with (S (String.length p)) by lia.
    rewrite from_dash, upto_app. destruct (Nat.ltb_spec (String.length p) 37) as [|Hlp]; [done|].
    destruct (dash_at _ p) eqn:Hd2; [|done]. cbn [negb]. destruct (dash_split _ _ Hd2) as (device & nonce & -> & Hdev).
    rewrite !str_length_app in *. change (String.length "-") with 1 in *.
    replace (String.length device + (1 + String.length nonce) - 36 - 1) with (String.length device) by lia.
    replace (String.length device + (1 + String.length nonce) - 36) with (S (String.length device)) by lia.
    rewrite from_dash, upto_app. intros ->%verify_hmac_spec. exists device, nonce. split; [lia|]. by rewrite !str_app_assoc.
  - intros (device & nonce & Hn & ->). set (sig := hmac_hex _ _). assert (String.length sig = 64) as Hs by apply hmac_length.
    assert (device +:+ ("-" +:+ (nonce +:+ ("-" +:+ sig))) = (device +:+ ("-" +:+ nonce)) +:+ ("-" +:+ sig)) as ->
      by by rewrite !str_app_assoc.
    set (p := device +:+ ("-" +:+ nonce)). assert (String.length p = String.length device + 37) as Hp.
    { unfold p. rewrite !str_length_app, Hn. done. }
    assert (String.length (p +:+ ("-" +:+ sig)) = String.length p + 65) as Hl.
    { rewrite !str_length_app, Hs. done. }
    rewrite Hl. destruct (Nat.ltb_spec (String.length p + 65) 65); [lia|]. cbn zeta.
    replace (String.length p + 65 - 64 - 1) with (String.length p) by lia.
    replace (String.length p + 65 - 64) with (S (String.length p)) by lia.
    unfold dash_at at 1. change ("-" +:+ sig) with (String "-" sig). rewrite get_app. cbn [Ascii.eqb negb Bool.eqb].
    change (String "-" sig) with ("-" +:+ sig). rewrite from_dash, upto_app. rewrite Hp.
    destruct (Nat.ltb_spec (String.length device + 37) 37); [lia|].
    replace (String.length device + 37 - 36 - 1) with (String.length device) by lia.
    replace (String.length device + 37 - 36) with (S (String.length device)) by lia.
    unfold dash_at, p. change ("-" +:+ nonce) with (String "-" nonce). rewrite get_app. cbn [Ascii.eqb negb Bool.eqb].
    change (String "-" nonce) with ("-" +:+ nonce). rewrite from_dash, upto_app. by apply verify_hmac_spec.
Qed.
(** The signed text does not mark where the nonce ends and the key begins: the signature of one
    session is that of another device with another nonce and the rest of the key. *)
Lemma signature_shift device nonce c key secret :
  hmac_hex (device +:+ ((String c nonce) +:+ key)) secret = hmac_hex ((device +:+ String c "") +:+ (nonce +:+ key)) secret.
Proof. by rewrite str_app_assoc. Qed.
End Ids.
End SessionIds.

(** ** The manager *)

Module SessionIndex.
Section Index.
Context `{order : !HashOrder}.
Implicit Types (g : Manager) (s : SyncSession) (i d : string).

(** The calls of the manager. Identifiers are registered once; a session keeps its device. *)
Inductive call : Manager → Manager → Prop :=
| call_register s g : sessions g !! session_id s = None → call g (register_session s g)
| call_update s g : (∀ s', sessions g !! session_id s = Some s' → device_id s = device_id s') → call g (update_session s g)
| call_vector now i v g : call g (update_session_vector now i v g)
| call_sequence now i n g : call g (update_session_sequence now i n g)
| call_online now i b g : call g (set_session_online now i b g)
| call_remove i g : call g (remove_session i g)
| call_remove_device d g : call g (remove_device_sessions d g)
| call_cleanup now g : call g (cleanup_expired now g).2.

Record coherent g : Prop := {
  co_id i s : sessions g !! i = Some s → session_id s = i;
  co_index d : match device_index g !! d with
               | Some ids => ids ≠ [] ∧ NoDup ids ∧ ∀ i, i ∈ ids ↔ ∃ s, sessions g !! i = Some s ∧ device_id s = d
               | None => ∀ i s, sessions g !! i = Some s → device_id s ≠ d
               end;
}.
Lemma coherent_ids g d i : coherent g →
  i ∈ default [] (device_index g !! d) ↔ ∃ s, sessions g !! i = Some s ∧ device_id s = d.
Proof.
  intros [_ H]. specialize (H d). destruct (device_index g !! d) as [ids|]; [apply H|]. cbn. split; [by intros ?%elem_of_nil|].
  intros (s & Hs & Hd). by destruct (H i s Hs).
Qed.
Lemma coherent_nodup g d : coherent g → NoDup (default [] (device_index g !! d)).
Proof. intros [_ H]. specialize (H d). destruct (device_index g !! d) as [ids|]; [apply H|constructor]. Qed.

Lemma register_coherent s g : coherent g → sessions g !! session_id s = None → coherent (register_session s g).
Proof.
  intros Hc Hn. pose proof Hc as [Hid Hix]. split; cbn [register_session sessions device_index].
  - intros i s'. rewrite lookup_insert. case_decide; [intros [= <-]; done|apply Hid].
  - intros d. rewrite lookup_insert. case_decide as E.
    + rewrite <- E. clear d E. assert (session_id s ∉ default [] (device_index g !! device_id s)) as Hni.
      { rewrite coherent_ids by done. intros (s' & Hs' & _). congruence. }
      split_and!; [by destruct (default _ _)| |].
      * apply NoDup_app. split; [by apply coherent_nodup|]. split; [by intros x Hx ->%list_elem_of_singleton|apply NoDup_singleton].
      * intros i. rewrite elem_of_app, list_elem_of_singleton, coherent_ids, lookup_insert by done. split.
        -- intros [(s' & Hs' & Hd)| ->]; [|exists s; by rewrite decide_True].
           exists s'. rewrite decide_False; [done|]. intros E. congruence.
        -- intros (s' & Hs' & Hd). case_decide; [by right|left; by exists s'].
    + specialize (Hix d). destruct (device_index g !! d) as [ids|].
      * destruct Hix as (? & ? & Hin). split_and!; [done..|]. intros i. rewrite Hin, lookup_insert. case_decide as Ei; [|done].
        split; [intros (s' & Hs' & _); congruence|intros (s' & [= <-] & Hd); done].
      * intros i s'. rewrite lookup_insert. case_decide; [by intros [= <-]|apply Hix].
Qed.
(** A change of sessions that keeps their identifiers and devices. *)
Lemma keep_coherent g m : coherent g → (∀ i, (device_id <$> m !! i) = (device_id <$> sessions g !! i)) →
  (∀ i s, m !! i = Some s → session_id s = i) → coherent (set_sessions m g).
Proof.
  intros [Hid Hix] Hdev Hid'. split; [done|]. intros d. cbn [set_sessions device_index sessions].
  assert (∀ i, (∃ s, m !! i = Some s ∧ device_id s = d) ↔ ∃ s, sessions g !! i = Some s ∧ device_id s = d) as Heq.
  { intros i. specialize (Hdev i). destruct (m !! i) as [s|], (sessions g !! i) as [s'|]; try done.
    injection Hdev as Hdev. split; intros (? & [= <-] & <-); eauto. }
  specialize (Hix d). destruct (device_index g !! d) as [ids|].
  - destruct Hix as (? & ? & Hin). split_and!; [done..|]. intros i. by rewrite Hin, Heq.
  - intros i s Hs Hd. destruct (proj1 (Heq i)) as (s' & Hs' & Hd'); [by exists s|]. by apply (Hix i s').
Qed.
Lemma modify_coherent f i g : coherent g → (∀ s, session_id (f s) = session_id s ∧ device_id (f s) = device_id s) →
  coherent (modify_session f i g).
Proof.
  intros Hc Hf. apply keep_coherent; [done| |].
  - intros j. rewrite lookup_alter. case_decide; [subst|done]. destruct (sessions g !! j) as [s|]; [|done]. cbn. f_equal. apply Hf.
  - intros j s. rewrite lookup_alter. case_decide; [subst|apply Hc]. destruct (sessions g !! j) as [s'|] eqn:E; [|done].
    intros [= <-]. rewrite (proj1 (Hf s')). by apply Hc.
Qed.
Lemma remove_coherent i g : coherent g → coherent (remove_session i g).
Proof.
  intros Hc. pose proof Hc as [Hid Hix]. unfold remove_session. destruct (sessions g !! i) as [s|] eqn:Es; [|done].
  pose proof (Hix (device_id s)) as Hs. destruct (device_index g !! device_id s) as [ids|] eqn:Ei; [|by destruct (Hs i s Es)].
  destruct Hs as (Hne & Hnd & Hin).
  assert (∀ j, j ∈ filter (λ x, x ≠ i) ids ↔ ∃ s', base.delete i (sessions g) !! j = Some s' ∧ device_id s' = device_id s) as Hin'.
  { intros j. rewrite list_elem_of_filter, Hin, lookup_delete. case_decide as E; [subst; naive_solver|naive_solver]. }
  assert (∀ d, d ≠ device_id s → match device_index g !! d with
    | Some ids => ids ≠ [] ∧ NoDup ids ∧ ∀ j, j ∈ ids ↔ ∃ s, base.delete i (sessions g) !! j = Some s ∧ device_id s = d
    | None => ∀ j s, base.delete i (sessions g) !! j = Some s → device_id s ≠ d end) as Hother.
  { intros d Hd. specialize (Hix d). destruct (device_index g !! d).
    - destruct Hix as (? & ? & H). split_and!; [done..|]. intros j. rewrite H, lookup_delete. case_decide; [|done]. subst. naive_solver.
    - intros j s' [_ Hj]%lookup_delete_Some. by apply (Hix j). }
  split; cbn [sessions device_index].
  - intros j s' [_ Hj]%lookup_delete_Some. by apply Hid.
  - intros d. destruct (filter (λ x, x ≠ i) ids) as [|j ids'] eqn:Ef.
    + rewrite lookup_delete. case_decide as E; [|by apply Hother]. intros j s' Hj Hd. apply (elem_of_nil j). apply Hin'.
      exists s'. by subst.
    + rewrite lookup_insert. case_decide as E; [|by apply Hother]. subst d. split_and!; [done| |done].
      rewrite <- Ef. by apply NoDup_filter.
Qed.
Lemma remove_all_coherent l g : coherent g → coherent (foldl (λ g i, remove_session i g) g l).
Proof. revert g. induction l as [|i l IH]; intros g Hc; [done|]. apply IH. by apply remove_coherent. Qed.

(** whatever the calls of the manager, its index by device and its sessions agree: a device is
    listed exactly while it has sessions, each of them once, and the sessions of a device are those
    the index names. *)
Theorem sessions_coherent max g : rtc call (with_expiration max) g →
  coherent g ∧ ∀ d s, s ∈ get_device_sessions d g ↔ sessions g !! session_id s = Some s ∧ device_id s = d.
Proof.
  intros Hr. assert (coherent g) as Hc.
  { cut (∀ g0, coherent g0 → rtc call g0 g → coherent g).
    { intros H. apply (H (with_expiration max)); [|done]. split; cbn; [by intros i s; rewrite lookup_empty|].
      intros d. rewrite lookup_empty. intros i s. by rewrite lookup_empty. }
    clear max Hr. intros g0 H0 Hr. induction Hr as [|g1 g2 g3 Hs _ IH]; [done|]. apply IH. destruct Hs.
    - by apply register_coherent.
    - unfold update_session. destruct (sessions g !! session_id s) as [s'|] eqn:E; [|done]. apply keep_coherent; [done| |].
      + intros j. rewrite lookup_insert. case_decide; [subst|done]. rewrite E. cbn. f_equal. by apply H.
      + intros j s0. rewrite lookup_insert. case_decide; [by intros [= <-]|apply H0].
    - by apply modify_coherent.
    - by apply modify_coherent.
    - apply modify_coherent; [done|]. intros s. by destruct b.
    - by apply remove_coherent.
    - by apply remove_all_coherent.
    - by apply remove_all_coherent. }
  split; [done|]. intros d s. unfold get_device_sessions. rewrite list_elem_of_omap. split.
  - intros (i & Hi & Hs). pose proof (co_id _ Hc i s Hs) as <-. split; [done|].
    apply coherent_ids in Hi as (s' & Hs' & Hd); [|done]. congruence.
  - intros [Hs Hd]. exists (session_id s). split; [|done]. apply coherent_ids; [done|]. by exists s.
Qed.
End Index.
End SessionIndex.

(** ** Pulling and pushing *)

Module PullProps.
Section Pull.
Context {Num : Type} `{!JsonNumber Num} `{!JsonText Num} `{!MetaJson Num} `{floats : !FloatText} `{std_text : !StdText}.
Context `{hmac : !HmacCrate} `{entry_codec : !EntryCodec} `{entry_laws : !EntryCodecLaws}.
Context {LDB : Type} `{log_store : !KvStore LDB} `{log_laws : !KvLaws LDB} `{log_reliable : !KvReliable LDB}.
Notation Value := (Value Num).
Notation SyncLog := (SyncLog LDB).
Notation Server := (Server (LDB:=LDB)).
Notation SyncChange := (SyncChange (Num:=Num)).
Implicit Types (s : Server) (session : SyncSession) (e : LogEntry) (l : SyncLog) (h : list LogEntry).

(** The entries a session asks for. *)
Definition keeps session e : bool := subscribed session e && default false (passes_filter (Num:=Num) session e).
(** The filter of the session does not panic on them. *)
Definition filter_runs session (es : list LogEntry) : Prop :=
  Forall (λ e, subscribed session e = true → is_Some (passes_filter (Num:=Num) session e)) es.
Lemma filtered_keeps session es : filter_runs session es →
  filtered (Num:=Num) session (List.filter (subscribed session) es) = Some (List.filter (keeps session) es).
Proof.
  induction 1 as [|e es He _ IH]; [done|]. cbn [List.filter]. unfold keeps at 1. destruct (subscribed session e); [|done].
  destruct (He eq_refl) as [b Hb]. cbn [filtered]. rewrite Hb. cbn [mbind option_bind andb]. rewrite IH. cbn. by destruct b.
Qed.

(** The last element that passes a test. *)
Lemma last_passing {A} (f : A → bool) (es : list A) :
  List.filter f es = [] ∨ ∃ a (e : A) b, es = a ++ e :: b ∧ f e = true ∧ List.filter f b = [].
Proof.
  induction es as [|x es [IH|(a & e & b & -> & He & Hb)]]; [by left| |].
  - destruct (f x) eqn:E; [right; by exists [], x, es|left; cbn; by rewrite E].
  - right. by exists (x :: a), e, b.
Qed.
Lemma filter_app_bool {A} (f : A → bool) (a b : list A) : List.filter f (a ++ b) = List.filter f a ++ List.filter f b.
Proof. induction a as [|x a IH]; [done|]. cbn. destruct (f x); cbn; by rewrite IH. Qed.
Lemma elem_of_page {A} (x : A) (n limit : nat) (all : list A) : x ∈ take limit (drop n all) → x ∈ all.
Proof. intros (i & Hi & _)%elem_of_take. rewrite lookup_drop in Hi. by eapply list_elem_of_lookup_2. Qed.
Lemma max_seq_last after es e : Forall (λ x, (sequence x <= sequence e)%N) es → max_seq after (es ++ [e]) = sequence e.
Proof.
  intros H. unfold max_seq. set (f := λ e acc, _). assert (foldr f None (es ++ [e]) = Some (sequence e)) as ->; [|done].
  induction H as [|x es Hx _ IH]; [done|]. cbn [app foldr]. rewrite IH. unfold f. f_equal. lia.
Qed.
(** What a page brings: the entries up to the last one that passes, whose number the session comes
    to. *)
Lemma page_exact session all (n limit : nat) : numbered_from 0 all → n ≤ length all →
  let found := List.filter (keeps session) (take limit (drop n all)) in
  ∃ n', max_seq (N.of_nat n) found = N.of_nat n' ∧ n ≤ n' ≤ length all ∧
    found = List.filter (keeps session) (drop n (take n' all)) ∧
    (found = [] → n' = n) ∧
    (Forall (λ e, keeps session e = true) all → n' = Nat.min (n + limit) (length all)).
Proof.
  intros Hnum Hle found. destruct (last_passing (keeps session) (take limit (drop n all))) as [E|(a & e & b & E & He & Hb)].
  - exists n. unfold found. rewrite E. split_and!; [done|done|done| |done|].
    + rewrite drop_ge by (rewrite length_take; lia). done.
    + intros Hall. destruct (take limit (drop n all)) as [|x xs] eqn:Et.
      * apply (f_equal length) in Et. rewrite length_take, length_drop in Et. cbn in Et. lia.
      * assert (x ∈ all) as Hx. { apply (elem_of_page x n limit). rewrite Et. by left. }
        cbn in E. by rewrite (proj1 (Forall_forall _ _) Hall x Hx) in E.
  - assert (∀ j x, (a ++ e :: b) !! j = Some x → sequence x = N.of_nat (n + j + 1)) as Hseq.
    { intros j x Hj. rewrite <- E in Hj. apply lookup_take_Some in Hj as [Hj _]. rewrite lookup_drop in Hj.
      rewrite (Hnum _ _ Hj). f_equal. }
    assert (sequence e = N.of_nat (n + length a + 1)) as Hse by (apply Hseq; by rewrite list_lookup_middle).
    assert (found = List.filter (keeps session) a ++ [e]) as Hf.
    { unfold found. rewrite E, filter_app_bool. cbn [List.filter]. by rewrite He, Hb. }
    assert (length (a ++ e :: b) ≤ length all - n) as Hlen by (rewrite <- E, length_take, length_drop; lia).
    rewrite length_app in Hlen. cbn [length] in Hlen.
    exists (n + length a + 1). split_and!; [|lia|lia| | |].
    + rewrite Hf, max_seq_last; [done|]. apply Forall_forall. intros x Hx. apply list_elem_of_In, filter_In in Hx as [Hx _].
      apply list_elem_of_In, list_elem_of_lookup in Hx as [j Hj]. pose proof (lookup_lt_Some _ _ _ Hj).
      rewrite Hse, (Hseq j x) by by apply lookup_app_l_Some. lia.
    + assert (drop n (take (n + length a + 1) all) = a ++ [e]) as ->.
      { assert (drop n all = (a ++ [e]) ++ (b ++ drop limit (drop n all))) as Hd.
        { rewrite <- (take_drop limit (drop n all)) at 1. rewrite E. by rewrite <- !app_assoc. }
        replace (n + length a + 1) with (n + length (a ++ [e])) by (rewrite length_app; cbn; lia).
        rewrite <- take_drop_commute, Hd. by rewrite take_app_length. }
      rewrite filter_app_bool. cbn [List.filter]. by rewrite He.
    + rewrite Hf. intros Hn. by apply app_nil in Hn as [_ ?].
    + intros Hall. assert (b = []) as ->.
      { destruct b as [|y b]; [done|]. assert (y ∈ all) as Hy.
        { apply (elem_of_page y n limit). rewrite E. clear. set_solver. }
        cbn in Hb. by rewrite (proj1 (Forall_forall _ _) Hall y Hy) in Hb. }
      apply (f_equal length) in E. rewrite length_take, length_drop, length_app in E. cbn [length] in E. lia.
Qed.

(** The session [i] of the server, on the log [l]. *)
Definition at_session s (i : string) session l : Prop :=
  ∃ g, authenticated i s = Ok (g, session) ∧ session_manager s = Some g ∧ sessions g !! i = Some session ∧ replication_log s = Some l.
Definition same_interest session session' : Prop :=
  subscriptions session' = subscriptions session ∧ filter_query session' = filter_query session ∧ device_id session' = device_id session.
Lemma keeps_same session session' e : same_interest session session' → keeps session' e = keeps session e.
Proof. intros (H1 & H2 & _). unfold keeps, subscribed, passes_filter. by rewrite H1, H2. Qed.
Lemma runs_same session session' es : same_interest session session' → filter_runs session es → filter_runs session' es.
Proof.
  intros (H1 & H2 & _). unfold filter_runs, subscribed, passes_filter. by rewrite H1, H2.
Qed.
Lemma update_at_session s i session l g now v : at_session s i session l → session_manager s = Some g →
  at_session (set_manager (update_session_vector now i v g) s) i (update_vector now v session) l.
Proof.
  intros (g0 & Ha & Hg & Hs & Hl) Hg'. assert (g0 = g) as -> by congruence.
  exists (update_session_vector now i v g). unfold authenticated in *. cbn [set_manager session_manager cluster_secret replication_log].
  rewrite Hg in Ha. unfold get_session in *. rewrite Hs in Ha.
  assert (sessions (update_session_vector now i v g) !! i = Some (update_vector now v session)) as Hs'.
  { cbn. by rewrite lookup_alter_eq, Hs. }
  rewrite Hs'. split_and!; try done. destruct (_ && _); done.
Qed.

Definition pulled_from (all : list LogEntry) session (n limit : nat) : list LogEntry :=
  List.filter (keeps session) (take limit (drop n all)).
Lemma pulled_page node max l h s i session now (req : Value) n : run_inv node max (l, h) → (N.of_nat (length h) + 1 < u64_modulus)%N →
  at_session s i session l → last_sequence session = N.of_nat n → n ≤ length h →
  filter_runs session (stamp_from node 0 h) → text "session_id" req = Some i → 0 < pull_limit req →
  let found := pulled_from (stamp_from node 0 h) session n (pull_limit req) in
  ∃ s' session', pull_changes now req s =
      Some (Ok (mkPulled (log_entry_to_sync_change <$> found) (foldl raise_to VersionVector.new found) (length found =? pull_limit req)%nat), s') ∧
    at_session s' i session' l ∧ last_sequence session' = max_seq (N.of_nat n) found ∧ same_interest session session'.
Proof.
  intros Hrun Hb (g & Ha & Hg & Hs & Hl) Hn Hle Hf Hreq Hlim found.
  destruct (get_entries_run node max l h n (pull_limit req) Hrun Hlim) as [_ Hget]; [lia|].
  unfold pull_changes. rewrite Hreq, Ha, Hl, Hn, Hget, filtered_keeps.
  2: { apply Forall_forall. intros e He%elem_of_page. by apply (proj1 (Forall_forall _ _) Hf). }
  cbn [mbind option_bind]. fold (pulled_from (stamp_from node 0 h) session n (pull_limit req)). fold found. rewrite length_fmap.
  set (v := foldl _ _ found). set (session1 := update_sequence now (max_seq (N.of_nat n) found) session).
  set (g1 := update_session_sequence now i (max_seq (N.of_nat n) found) g).
  assert (at_session (set_manager g1 s) i session1 l) as H1.
  { exists g1. unfold authenticated in *. cbn [set_manager session_manager cluster_secret replication_log].
    rewrite Hg in Ha. unfold get_session in *. rewrite Hs in Ha.
    assert (sessions g1 !! i = Some session1) as Hs1 by (cbn; by rewrite lookup_alter_eq, Hs).
    rewrite Hs1. split_and!; try done. change (api_key session1) with (api_key session). destruct (_ && _); done. }
  eexists _, (update_vector now v session1). split_and!; [reflexivity| |done|done..].
  apply (update_at_session (set_manager g1 s) i session1 l g1 now v H1 eq_refl).
Qed.

(** Pulling again and again. *)
Fixpoint pulls (now : N) (reqs : list Value) s : option (list SyncChange * Server) :=
  match reqs with
  | [] => Some ([], s)
  | req :: reqs' =>
      match pull_changes now req s with
      | Some (Ok r, s') => (λ p, (p_changes r ++ p.1, p.2)) <$> pulls now reqs' s'
      | _ => None
      end
  end.
(** C19: pulling delivers exactly. A client that pulls again and again, with positive limits and a
    filter that does not panic, receives the entries of the log that pass its subscriptions and its
    filter between the number its session starts from and the one it has come to, all of them, in
    order and once; where every entry passes it comes as far as the limits of its pulls allow, and
    otherwise it may stay where it is. *)
Theorem pulls_exact node max d l h s i session now (reqs : list Value) n :
  kv_view d = [] → rtc log_step (SyncLog.SyncLog.new node d max, []) (l, h) → (N.of_nat (length h) + 1 < u64_modulus)%N →
  at_session s i session l → last_sequence session = N.of_nat n → n ≤ length h →
  filter_runs session (stamp_from node 0 h) → Forall (λ req, text "session_id" req = Some i ∧ 0 < pull_limit req) reqs →
  ∃ n' s' session', n ≤ n' ≤ length h ∧
    pulls now reqs s = Some (log_entry_to_sync_change <$> List.filter (keeps session) (drop n (take n' (stamp_from node 0 h))), s') ∧
    at_session s' i session' l ∧ last_sequence session' = N.of_nat n' ∧
    (Forall (λ e, keeps session e = true) (stamp_from node 0 h) → n' = Nat.min (n + sum_list_with pull_limit reqs) (length h)).
Proof.
  intros Hd Hr Hb. pose proof (run_reachable node max d l h Hd Hr) as Hrun. clear Hd Hr.
  assert (numbered_from 0 (stamp_from node 0 h)) as Hnum by apply stamp_from_numbered.
  assert (length (stamp_from node 0 h) = length h) as Hlen by apply stamp_from_length.
  revert s session n. induction reqs as [|req reqs IH]; intros s session n Hs Hn Hle Hf Hreqs.
  - exists n, s, session. cbn [pulls sum_list_with]. rewrite drop_ge by (rewrite length_take; lia). split_and!; try done. lia.
  - apply Forall_cons in Hreqs as [[Hi Hlim] Hreqs].
    destruct (pulled_page node max l h s i session now req n) as (s1 & session1 & Hp & Hs1 & Hn1 & Hsame); try done.
    destruct (page_exact session (stamp_from node 0 h) n (pull_limit req) Hnum ltac:(lia)) as (n1 & Hmax & Hb1 & Hfound & _ & Hall1).
    unfold pulled_from in *. rewrite Hmax in Hn1.
    destruct (IH s1 session1 n1) as (n' & s' & session' & Hb' & Hps & Hs' & Hn' & Hall'); try done; [lia|by eapply runs_same|].
    exists n', s', session'. cbn [pulls]. rewrite Hp, Hps. cbn [fmap option_fmap option_map p_changes fst snd].
    split_and!; [lia|lia| |done|done|].
    + do 2 f_equal. rewrite Hfound. assert (∀ es, List.filter (keeps session1) es = List.filter (keeps session) es) as ->.
      { intros es. induction es as [|e es IHes]; [done|]. cbn. by rewrite IHes, (keeps_same _ _ _ Hsame). }
      rewrite <- fmap_app, <- filter_app_bool. do 2 f_equal.
      rewrite <- (take_drop n1 (take n' (stamp_from node 0 h))) at 2. rewrite take_take, Nat.min_l by lia.
      by rewrite drop_app_le by (rewrite length_take; lia).
    + intros Hall. rewrite Hall'; [|by eapply Forall_impl; [exact Hall|]; intros e He; rewrite (keeps_same _ _ _ Hsame)].
      rewrite (Hall1 Hall). cbn [sum_list_with]. lia.
Qed.

(** a page without an entry of interest is the end. When the next entries, as many as the limit,
    do not pass, a pull returns no changes, says that there are no more, and leaves the session
    where it is, whatever the log holds behind them and however it grows. *)
Theorem pull_starves node max d l h h' s i session now (req : Value) n :
  kv_view d = [] → rtc log_step (SyncLog.SyncLog.new node d max, []) (l, h ++ h') → (N.of_nat (length (h ++ h')) + 1 < u64_modulus)%N →
  at_session s i session l → last_sequence session = N.of_nat n → filter_runs session (stamp_from node 0 (h ++ h')) →
  text "session_id" req = Some i → 0 < pull_limit req → n + pull_limit req ≤ length h →
  Forall (λ e, keeps session e = false) (drop n (stamp_from node 0 h)) →
  ∃ s' session', pull_changes now req s = Some (Ok (mkPulled [] VersionVector.new false), s') ∧
    at_session s' i session' l ∧ last_sequence session' = N.of_nat n ∧ same_interest session session'.
Proof.
  intros Hd Hr Hb Hs Hn Hf Hi Hlim Hle Hno. pose proof (run_reachable node max d l _ Hd Hr) as Hrun.
  rewrite length_app in Hb.
  destruct (pulled_page node max l (h ++ h') s i session now req n) as (s' & session' & Hp & Hs' & Hn' & Hsame); try done;
    [rewrite length_app; lia..|].
  assert (pulled_from (stamp_from node 0 (h ++ h')) session n (pull_limit req) = []) as Hempty.
  { unfold pulled_from. rewrite stamp_from_app, drop_app_le by (rewrite stamp_from_length; lia).
    rewrite take_app_le by (rewrite length_drop, stamp_from_length; lia).
    revert Hno. generalize (drop n (stamp_from node 0 h)) as es. generalize (pull_limit req) as k.
    intros k es Hno. revert k. induction Hno as [|e es He _ IH]; intros [|k]; try done. cbn. by rewrite He. }
  exists s', session'. rewrite Hp, Hempty in *. split_and!; try done. cbn. by destruct (pull_limit req); [lia|].
Qed.

(** *** What is pushed is pulled *)

Lemma append_all_run node max l h (es : list LogEntry) : run_inv node max (l, h) → (N.of_nat (length h + length es) < u64_modulus)%N →
  run_inv node max (foldl (λ l e, (append e l).2) l es, h ++ es).
Proof.
  revert l h. induction es as [|e es IH]; intros l h Hrun Hb; [by rewrite app_nil_r|]. cbn [foldl length] in *.
  rewrite cons_middle, app_assoc. apply IH; [|rewrite length_app; cbn; lia].
  apply (run_step node max (l, h)); [|done]. constructor.
  pose proof (rep_seq _ _ (run_rep _ _ _ Hrun)) as Hseq. cbn [fst snd] in Hseq. rewrite stamp_from_length in Hseq. rewrite Hseq. lia.
Qed.
Lemma push_log device (cs : list SyncChange) (l : SyncLog) :
  foldl (λ l c, (append (pushed_entry device c) l).2) l cs = foldl (λ l e, (append e l).2) l (pushed_entry device <$> cs).
Proof. revert l. induction cs as [|c cs IH]; intros l; [done|]. cbn. apply IH. Qed.

(** What a client is told of the change number [n] another one pushed. *)
Definition received (device : string) (n : nat) (c : SyncChange) : SyncChange :=
  mkChange (ch_database c) (ch_collection c) (ch_key c) (ch_operation c) (ch_data c) []
    (VersionVector.with_node device (N.of_nat n)) (ch_timestamp c) false None.
Definition json_kept (c : SyncChange) : Prop :=
  match ch_data c with Some v => ∃ b, value_to_vec v = Some b ∧ json_from_slice b = Some v | None => True end.
Lemma received_stamped device node n (cs : list SyncChange) : device ≠ "" → Forall json_kept cs →
  log_entry_to_sync_change <$> stamp_from node n (pushed_entry device <$> cs) = imap (λ j, received device (n + j + 1)) cs.
Proof.
  intros Hd Hj. revert n. induction Hj as [|c cs Hc _ IH]; intros n; [done|]. cbn [fmap list_fmap stamp_from imap]. f_equal.
  - unfold log_entry_to_sync_change, stamp, received. cbn. rewrite (proj2 (String.eqb_neq _ _) Hd).
    unfold json_kept in Hc. replace (n + 0 + 1) with (n + 1) by lia. f_equal.
    + by destruct (ch_operation c).
    + destruct (ch_data c) as [v|]; [|done]. destruct Hc as (b & Hb & Hv). cbn. by rewrite Hb.
  - rewrite IH. apply imap_ext. intros j x _. cbn. f_equal. lia.
Qed.
(** what one client pushes another one pulls. The changes a client pushes are accepted, and a
    client without subscriptions and filter that had come to the end of the log is told exactly
    these changes by its next pull, in order, with their documents and under the device that pushed
    them. *)
Theorem push_pull node max d l h s i1 i2 session1 session2 now now' (req1 req2 : Value) (cs : list SyncChange) v :
  kv_view d = [] → rtc log_step (SyncLog.SyncLog.new node d max, []) (l, h) → (N.of_nat (length h + length cs) + 1 < u64_modulus)%N →
  at_session s i1 session1 l → at_session s i2 session2 l → i1 ≠ i2 → device_id session1 ≠ "" → Forall json_kept cs →
  subscriptions session2 = [] → filter_query session2 = None → last_sequence session2 = N.of_nat (length h) →
  text "session_id" req1 = Some i1 → text "session_id" req2 = Some i2 → 0 < pull_limit req2 → length cs ≤ pull_limit req2 →
  ∃ v' s' r s'', push_changes now req1 cs v s = (Ok (mkPushed v' (length cs) 0), s') ∧
    pull_changes now' req2 s' = Some (Ok r, s'') ∧
    p_changes r = imap (λ j, received (device_id session1) (length h + j + 1)) cs.
Proof.
  intros Hd Hr Hb (g & Ha & Hg & Hs1 & Hl) (g2 & Ha2 & Hg2 & Hs2 & _) Hne Hdev Hj Hsub Hfil Hseq Hr1 Hr2 Hpos Hlim.
  assert (g2 = g) as -> by congruence. pose proof (run_reachable node max d l h Hd Hr) as Hrun.
  unfold push_changes. rewrite Hr1, Ha, Hl. cbn [fmap option_fmap option_map]. rewrite push_log.
  set (l' := foldl _ l _). set (v' := (VersionVector.increment v (device_id session1)).2). set (s' := mkServer _ _ _).
  pose proof (append_all_run node max l h (pushed_entry (device_id session1) <$> cs) Hrun) as Hrun'.
  rewrite length_fmap in Hrun'. specialize (Hrun' ltac:(lia)). fold l' in Hrun'.
  assert (at_session s' i2 session2 l') as Hat.
  { eexists. cbn [s' session_manager replication_log]. unfold authenticated in *. cbn [s' session_manager cluster_secret].
    rewrite Hg in Ha2. unfold get_session in *. rewrite Hs2 in Ha2.
    assert (sessions (update_session_vector now i1 v' g) !! i2 = Some session2) as Hs' by (cbn; by rewrite lookup_alter_ne).
    rewrite Hs'. split_and!; try done. destruct (_ && _); done. }
  destruct (pulled_page node max l' (h ++ (pushed_entry (device_id session1) <$> cs)) s' i2 session2 now' req2 (length h))
    as (s'' & session'' & Hp & _); try done; [rewrite length_app, length_fmap; lia|rewrite length_app; lia| |].
  { apply Forall_forall. intros e _ _. unfold passes_filter. rewrite Hfil. by eexists. }
  exists v', s'. eexists. exists s''.
  split; [done|]. split; [exact Hp|]. cbn [p_changes]. rewrite <- (received_stamped _ node) by done.
  f_equal. unfold pulled_from. rewrite stamp_from_app, drop_app_length' by by rewrite stamp_from_length.
  rewrite take_ge by (rewrite stamp_from_length, length_fmap; lia). cbn [Nat.add].
  generalize (stamp_from node (length h) (pushed_entry (device_id session1) <$> cs)) as es.
  induction es as [|e es IH]; [done|]. cbn [List.filter]. unfold keeps at 1, subscribed, passes_filter. rewrite Hsub, Hfil. cbn. by rewrite IH.
Qed.
End Pull.
End PullProps.

(** *** Concrete sessions *)

Module SessionDemo.
Import SessionIds SessionIndex PullProps.
#[local] Instance demo_hmac : HmacCrate := λ _ _, Radix.fixed 16 64 0.
#[local] Instance demo_hmac_laws : HmacLaws.
Proof. intros data secret. apply Radix.fixed_length. Qed.
#[local] Instance demo_order : HashOrder := λ l, l.
#[local] Instance demo_entries : EntryCodec := { encode_entry := to_text; decode_entry := of_text }.
#[local] Instance demo_entries_laws : EntryCodecLaws.
Proof. intros e. apply of_to_text. Qed.
#[local] Instance demo_json_text : JsonText demo_number := {
  num_as_f64 _ := None;
  num_of_f64 _ := None;
  json_to_string := to_text;
  json_from_slice := of_text;
}.
#[local] Instance demo_meta : MetaJson demo_number := {
  index_from_slice _ := None;
  geo_index_from_slice _ := None;
  fulltext_index_from_slice _ := None;
  ttl_index_from_slice _ := None;
  value_to_vec v := Some (to_text v);
  value_to_string v := to_text v;
  rfc3339_timestamp _ := None;
}.
#[local] Instance demo_std : StdText := {
  to_lowercase s := s;
  char_alphanumeric c := negb (String.eqb c " ");
  char_whitespace c := String.eqb c " ";
  utf8_lossy s := s;
}.
#[local] Instance demo_floats : FloatText := λ _, None.

Definition nonce36 : string := Radix.fixed 10 36 7.
Lemma session_id_authentic_witness :
  verify_session_id (session_id (new_secure nonce36 0 "d1" "key" "secret")) "key" "secret" = true.
Proof. apply session_id_authentic. exists "d1", nonce36. split; reflexivity. Defined.

Definition demo_session (i device : string) (n : N) (subs : list string) : SyncSession :=
  update_sequence 0 n (with_subscriptions subs (Sessions.new 0 i device "key")).
Lemma sessions_coherent_witness :
  coherent (register_session (demo_session "s1" "d1" 0 []) (with_expiration 5)) ∧
  demo_session "s1" "d1" 0 [] ∈ get_device_sessions "d1" (register_session (demo_session "s1" "d1" 0 []) (with_expiration 5)).
Proof.
  destruct (sessions_coherent 5 (register_session (demo_session "s1" "d1" 0 []) (with_expiration 5))) as [Hc Hs].
  - eapply rtc_l; [|apply rtc_refl]. constructor. reflexivity.
  - split; [exact Hc|]. apply Hs. split; reflexivity.
Defined.

Definition entry (coll k : string) : LogEntry := mkEntry 0 "" "db" coll Insert k None 0 None.
Definition history : list LogEntry := [entry "a" "k1"; entry "b" "k2"; entry "a" "k3"].
Definition demo_log : SyncLog map_store := (append_batch history (SyncLog.SyncLog.new "n1" empty_store 2)).2.
Lemma session_run : rtc log_step (SyncLog.SyncLog.new "n1" empty_store 2, []) (demo_log, history).
Proof. eapply rtc_l; [|apply rtc_refl]. by apply (step_append_batch _ [] _). Qed.
Definition manager : Manager :=
  register_session (demo_session "s3" "d3" 0 ["x"])
    (register_session (demo_session "s2" "d2" 3 []) (register_session (demo_session "s1" "d1" 0 ["a"]) (with_expiration 5))).
Definition server : Server (LDB:=map_store) := mkServer (Some manager) (Some demo_log) "".
Definition pull_request (i : string) (limit : N) : Value demo_number :=
  Object [("limit", Number (PosInt limit)); ("session_id", JString i)].
Lemma server_session i s : sessions manager !! i = Some s → at_session server i s demo_log.
Proof. intros H. exists manager. unfold authenticated. cbn [server session_manager cluster_secret]. unfold get_session. by rewrite H. Qed.
Lemma no_filter s es : filter_query s = None → filter_runs (Num:=demo_number) s es.
Proof. intros H. apply Forall_forall. intros e _ _. unfold passes_filter. rewrite H. by eexists. Qed.

Lemma pulls_exact_witness : ∃ n' s', pulls 0 [pull_request "s1" 2; pull_request "s1" 2] server =
  Some (log_entry_to_sync_change <$>
    List.filter (keeps (Num:=demo_number) (demo_session "s1" "d1" 0 ["a"])) (drop 0 (take n' (stamp_from "n1" 0 history))), s').
Proof.
  destruct (pulls_exact "n1" 2 empty_store demo_log history server "s1" (demo_session "s1" "d1" 0 ["a"]) 0
    [pull_request "s1" 2; pull_request "s1" 2] 0) as (n' & s' & _ & _ & Hp & _).
  - reflexivity.
  - exact session_run.
  - reflexivity.
  - apply server_session. reflexivity.
  - reflexivity.
  - cbn. lia.
  - apply no_filter. reflexivity.
  - repeat constructor.
  - exists n', s'. exact Hp.
Defined.
(** The session subscribes to one collection, and the two next entries are of others. *)
Lemma pull_starves_witness : ∃ s', pull_changes 0 (pull_request "s3" 2) server = Some (Ok (mkPulled [] VersionVector.new false), s').
Proof.
  destruct (pull_starves "n1" 2 empty_store demo_log history [] server "s3" (demo_session "s3" "d3" 0 ["x"]) 0 (pull_request "s3" 2) 0)
    as (s' & _ & Hp & _).
  - reflexivity.
  - exact session_run.
  - reflexivity.
  - apply server_session. reflexivity.
  - reflexivity.
  - apply no_filter. reflexivity.
  - reflexivity.
  - vm_compute. lia.
  - vm_compute. lia.
  - repeat constructor.
  - exists s'. exact Hp.
Defined.
Definition pushed : list (SyncChange (Num:=demo_number)) :=
  [mkChange "db" "c" "k9" CInsert (Some (Object [("a", Bool true)])) [] VersionVector.new 7 false None].
Lemma push_pull_witness : ∃ v' s' r s'', push_changes 0 (pull_request "s1" 1) pushed VersionVector.new server = (Ok (mkPushed v' 1 0), s') ∧
  pull_changes 0 (pull_request "s2" 5) s' = Some (Ok r, s'') ∧ p_changes r = imap (λ j, received "d1" (3 + j + 1)) pushed.
Proof.
  apply (push_pull "n1" 2 empty_store demo_log history server "s1" "s2" (demo_session "s1" "d1" 0 ["a"]) (demo_session "s2" "d2" 3 [])).
  - reflexivity.
  - exact session_run.
  - reflexivity.
  - apply server_session. reflexivity.
  - apply server_session. reflexivity.
  - discriminate.
  - discriminate.
  - constructor; [|constructor]. eexists. split; [reflexivity|apply of_to_text].
  - reflexivity.
  - reflexivity.
  - reflexivity.
  - reflexivity.
  - reflexivity.
  - vm_compute. lia.
  - vm_compute. lia.
Defined.
(** A filter that compares with a lone quote makes every pull panic. *)
Example lone_quote_panics : evaluate_simple_filter "doc.a == '" (Object [] : Value demo_number) = None.
Proof. vm_compute. reflexivity. Qed.
End SessionDemo.
