(* ===== verification/Columnar.v ===== *)
(** * Columnar collections (src/storage/columnar.rs)

    A columnar collection stores its rows twice in one column family: whole, under the identifier
    of the row, and value by value under the name of the column; beside them the metadata and the
    entries of five kinds of index. An operation returns its result and what it leaves behind, on
    errors too: the writes of an operation are separate, so that a failed one keeps those before it.
    The handle of the column family is looked up by every operation and may be gone ([cf]). The
    identifiers generated for rows and the clock are arguments; the serde, lz4, hex and bloom-filter
    crates and the texts of dates are the class [ColumnarCrates]. *)

From S2P Require Import Prelude Text Json Transaction Codec Kv F64 Document Indexes SdbqlLexer SdbqlValue.
Import Json Codec.

Module Columnar.

(** ** Data *)

Inductive ColumnType := Int64 | Float64 | StringType | BoolType | Timestamp | JsonType.
Inductive ColumnarIndexType := Sorted | Hash | Bitmap | MinMax | Bloom.
#[export] Instance ColumnarIndexType_eq : EqDecision ColumnarIndexType.
Proof. solve_decision. Defined.
Inductive CompressionType := NoCompression | Lz4.
Record ColumnDef := mkColumn {
  col_name : string;
  data_type : ColumnType;
  nullable : bool;
  indexed : bool;
  index_type : option ColumnarIndexType;
}.
Record Meta := mkMeta {
  meta_name : string;
  columns : list ColumnDef;
  row_count : N;
  compression : CompressionType;
  created_at : Z;
  last_updated_at : Z;
}.
Inductive AggregateOp := Sum | Avg | Count | Min | Max | CountDistinct.
Record IndexMeta := mkIndexMeta {
  im_column : string;
  im_type : ColumnarIndexType;
  im_created_at : Z;
}.
Inductive GroupByColumn := Simple (name : string) | TimeBucket (name interval : string).
Definition group_name (g : GroupByColumn) : string :=
  match g with Simple n => n | TimeBucket n _ => n end.

Section Data.
Context {Num : Type}.
Inductive ColumnFilter :=
| FEq (col : string) (v : Value Num)
| FNe (col : string) (v : Value Num)
| FGt (col : string) (v : Value Num)
| FGte (col : string) (v : Value Num)
| FLt (col : string) (v : Value Num)
| FLte (col : string) (v : Value Num)
| FIn (col : string) (vs : list (Value Num))
| FAnd (fs : list ColumnFilter)
| FOr (fs : list ColumnFilter).
Record MinMaxChunk := mkChunk { chunk_min : Value Num; chunk_max : Value Num; chunk_count : N }.
End Data.
Arguments ColumnFilter : clear implicits.
Arguments MinMaxChunk : clear implicits.

Record Columnar (DB : Type) := mkColumnar {
  name : string;
  cf_name : string;
  cf : option DB;
  meta : Meta;
}.
Arguments mkColumnar {DB} name cf_name cf meta.
Arguments name {DB} c : rename.
Arguments cf_name {DB} c : rename.
Arguments cf {DB} c : rename.
Arguments meta {DB} c : rename.

(** What the file uses of lz4_flex, hex, serde_json on its own types, fastbloom and chrono. *)
Class ColumnarCrates (Num : Type) := {
  lz4_compress : string → string;                       (* [compress_prepend_size] *)
  lz4_decompress : string → option string;              (* [decompress_size_prepended] *)
  hex_decode : string → option string;
  meta_to_vec : Meta → option string;
  meta_from_slice : string → option Meta;
  index_meta_to_vec : IndexMeta → option string;
  index_meta_from_slice : string → option IndexMeta;
  ids_to_vec : list N → option string;
  ids_from_slice : string → option (list N);
  uuids_to_vec : list string → option string;
  uuids_from_slice : string → option (list string);
  chunk_to_vec : MinMaxChunk Num → option string;
  chunk_from_slice : string → option (MinMaxChunk Num);
  BloomFilter : Type;
  bloom_new : BloomFilter;                              (* [with_num_bits(10_000).expected_items(1000)] *)
  bloom_insert : string → BloomFilter → BloomFilter;
  bloom_contains : string → BloomFilter → bool;
  bloom_to_vec : BloomFilter → option string;
  bloom_from_slice : string → option BloomFilter;
  timestamp_to_rfc3339 : Z → option string;             (* [from_timestamp(t, 0)], [to_rfc3339] *)
}.
(** The documented behaviour of these crates. *)
Class ColumnarLaws (Num : Type) `{crates : !ColumnarCrates Num} : Prop := {
  lz4_roundtrip s : lz4_decompress (lz4_compress s) = Some s;
  meta_roundtrip m : ∃ b, meta_to_vec m = Some b ∧ meta_from_slice b = Some m;
  index_meta_roundtrip m : ∃ b, index_meta_to_vec m = Some b ∧ index_meta_from_slice b = Some m;
  ids_roundtrip l : ∃ b, ids_to_vec l = Some b ∧ ids_from_slice b = Some l;
  uuids_roundtrip l : ∃ b, uuids_to_vec l = Some b ∧ uuids_from_slice b = Some l;
  chunk_roundtrip c : ∃ b, chunk_to_vec c = Some b ∧ chunk_from_slice b = Some c;
  bloom_roundtrip f : ∃ b, bloom_to_vec f = Some b ∧ bloom_from_slice b = Some f;
  bloom_inserted x f : bloom_contains x (bloom_insert x f) = true;
  bloom_kept x y f : bloom_contains x f = true → bloom_contains x (bloom_insert y f) = true;
}.

(** ** Keys *)

Definition COL_DATA_PREFIX : string := "col:".
Definition COL_META_PREFIX : string := "col_meta:".
Definition COL_ROW_PREFIX : string := "col_row:".
Definition COL_IDX_PREFIX : string := "col_idx:".
Definition COL_IDX_META_PREFIX : string := "col_idx_meta:".
Definition COL_IDX_BITMAP_PREFIX : string := "col_idx_bmp:".
Definition COL_IDX_MINMAX_PREFIX : string := "col_idx_mm:".
Definition COL_IDX_BLOOM_PREFIX : string := "col_idx_blo:".
Definition MINMAX_CHUNK_SIZE : N := 1000.

(** [strip_prefix] of a key that has the prefix; keys are texts, which [from_utf8_lossy] keeps. *)
Definition strip_prefix (p k : string) : string :=
  String.substring (String.length p) (String.length k - String.length p) k.
Definition column_prefix (column : string) : string := COL_DATA_PREFIX +:+ (column +:+ ":").
Definition col_key (column uuid : string) : string := column_prefix column +:+ uuid.
Definition row_key (uuid : string) : string := COL_ROW_PREFIX +:+ uuid.
Definition meta_key (n : string) : string := COL_META_PREFIX +:+ n.
Definition idx_meta_key (column : string) : string := COL_IDX_META_PREFIX +:+ column.
Definition index_prefix (column : string) : string := COL_IDX_PREFIX +:+ (column +:+ ":").

(** [u64] ranges. *)
Definition range (n : N) : list N := N.of_nat <$> seq 0 (N.to_nat n).
Definition range_from (a b : N) : list N := (λ i, (a + i)%N) <$> range (b - a).

Section Columnar.
Context {Num : Type} `{json_num : !JsonNumber Num} `{json_text : !JsonText Num} `{value_text : !ValueText Num}.
Context `{meta_json : !Indexes.MetaJson Num} `{hex_crate : !Indexes.HexCrate} `{std_text : !Indexes.StdText}.
Context `{crates : !ColumnarCrates Num} `{tables : !CharTables} `{float_text : !FloatText} `{order : !HashOrder}.
Context {DB : Type} `{store : !KvStore DB}.
Notation Value := (Value Num).
Notation ColumnFilter := (ColumnFilter Num).
Notation MinMaxChunk := (MinMaxChunk Num).
Notation Columnar := (Columnar DB).

Definition infer_from_value (v : Value) : ColumnType :=
  match v with
  | Bool _ => BoolType
  | Number n => match num_as_i64 n with Some _ => Int64 | None => Float64 end
  | JString s => match Indexes.rfc3339_timestamp s with Some _ => Timestamp | None => StringType end
  | Array _ | Object _ => JsonType
  | Null => StringType
  end.
Definition aggregate_from_str (s : string) : option AggregateOp :=
  let u := to_uppercase s in
  if String.eqb u "SUM" then Some Sum
  else if String.eqb u "AVG" || String.eqb u "AVERAGE" then Some Avg
  else if String.eqb u "COUNT" then Some Count
  else if String.eqb u "MIN" then Some Min
  else if String.eqb u "MAX" then Some Max
  else if String.eqb u "COUNT_DISTINCT" then Some CountDistinct
  else None.

(** ** The writes of an operation *)

Definition store_error : DbError := InternalError "rocksdb".
Definition json_error : DbError := JsonError "serde_json".
Definition no_cf (n : string) : DbError := CollectionNotFound ("Columnar CF '" +:+ (n +:+ "' not found")).
Definition no_column (c : string) : DbError := BadRequest ("Column '" +:+ (c +:+ "' not found")).

(** The metadata under the write lock and the column family. *)
Definition M (A : Type) : Type := Meta * DB → result DbError A * (Meta * DB).
#[export] Instance M_ret : MRet M := λ A a s, (Ok a, s).
#[export] Instance M_bind : MBind M := λ A B k m s,
  match m s with (Ok a, s') => k a s' | (Err e, s') => (Err e, s') end.
Definition throw {A} (e : DbError) : M A := λ s, (Err e, s).
Definition lift {A} (r : result DbError A) : M A := λ s, (r, s).
Definition get_meta : M Meta := λ s, (Ok s.1, s).
Definition set_meta (m : Meta) : M unit := λ s, (Ok tt, (m, s.2)).
Definition db : M DB := λ s, (Ok s.2, s).
Definition write_with (e : DbError) (op : write_op) : M unit := λ s,
  match kv_write [op] s.2 with Some d => (Ok tt, (s.1, d)) | None => (Err e, s) end.
Definition put (k v : string) : M unit := write_with store_error (Put k v).
Definition for_each {A} (f : A → M unit) : list A → M unit :=
  fix go l := match l with [] => mret tt | x :: l' => f x ≫= λ _, go l' end.

Definition with_cf {A} (m : M A) (c : Columnar) : result DbError A * Columnar :=
  match cf c with
  | None => (Err (no_cf (cf_name c)), c)
  | Some d => let '(r, (m', d')) := m (meta c, d) in (r, mkColumnar (name c) (cf_name c) (Some d') m')
  end.
(** A reader. *)
Definition reading {A} (f : Meta → DB → result DbError A) (c : Columnar) : result DbError A :=
  match cf c with None => Err (no_cf (cf_name c)) | Some d => f (meta c) d end.

(** ** Compression *)

Definition compress_data (data : string) (t : CompressionType) : string :=
  match t with NoCompression => data | Lz4 => lz4_compress data end.
Definition decompress_data (data : string) (t : CompressionType) : result DbError string :=
  match t with
  | NoCompression => Ok data
  | Lz4 => ok_or (lz4_decompress data) (InternalError "LZ4 decompression failed")
  end.
Definition to_vec (v : Value) : result DbError string := ok_or (Indexes.value_to_vec v) json_error.
(** A stored value. *)
Definition decode_value (t : CompressionType) (bytes : string) : result DbError Value :=
  result_bind (decompress_data bytes t) (λ b, ok_or (json_from_slice b) json_error).
Definition decoded (t : CompressionType) (bytes : string) : option Value :=
  match decode_value t bytes with Ok v => Some v | Err _ => None end.

(** ** Creating and loading *)

Definition family (db_name n : string) : string := db_name +:+ (":_columnar_" +:+ n).
Definition save_meta (n : string) : M unit :=
  m ← get_meta; b ← lift (ok_or (meta_to_vec m) json_error); put (meta_key n) b.
Definition with_count (n : N) (m : Meta) : Meta :=
  mkMeta (meta_name m) (columns m) n (compression m) (created_at m) (last_updated_at m).
Definition touched (now : Z) (m : Meta) : Meta :=
  mkMeta (meta_name m) (columns m) (row_count m) (compression m) (created_at m) now.
Definition with_columns (l : list ColumnDef) (m : Meta) : Meta :=
  mkMeta (meta_name m) l (row_count m) (compression m) (created_at m) (last_updated_at m).

(** The store is changed also when the creation fails after a write. *)
Definition new (now : Z) (n db_name : string) (d : option DB) (cols : list ColumnDef) (t : CompressionType)
    : result DbError Columnar * option DB :=
  let f := family db_name n in
  let m := mkMeta n cols 0 t now now in
  let '(r, c) := with_cf (save_meta n) (mkColumnar n f d m) in
  match r with Ok _ => (Ok c, cf c) | Err e => (Err e, cf c) end.
Definition load (n db_name : string) (d : option DB) : result DbError Columnar :=
  match d with
  | None => Err (CollectionNotFound ("Columnar collection '" +:+ (n +:+ "' not found")))
  | Some db =>
      match kv_get (meta_key n) db with
      | None => Err (CollectionNotFound ("Columnar collection metadata '" +:+ (n +:+ "' not found")))
      | Some b =>
          match meta_from_slice b with
          | None => Err json_error
          | Some m => Ok (mkColumnar n (family db_name n) d m)
          end
      end
  end.

(** ** Values as index keys *)

Definition f64_nonneg (bits : N) : bool :=
  match F64.partial_cmp bits 0 with Some Eq | Some Gt => true | _ => false end.
Definition hex16 (n : N) : string := Radix.pad 16 16 n.
(** [i as u64] *)
Definition i64_to_u64 (z : Z) : N := Z.to_N (z mod 2 ^ 64).
Definition encode_value_for_key (v : Value) : string :=
  match v with
  | Null => "0:"
  | Bool b => "1:" +:+ (if b then "1" else "0")
  | Number n =>
      match num_as_i64 n with
      | Some i => "2:" +:+ hex16 (wrap64 (i64_to_u64 i + sign_bit))
      | None =>
          match num_as_f64 n with
          | Some f => "3:" +:+ hex16 (if f64_nonneg f then N.lxor f sign_bit else N.lnot f 64)
          | None => "9:" +:+ num_to_string n
          end
      end
  | JString s => "4:" +:+ Indexes.hex_encode s
  | _ => "9:" +:+ json_to_string v
  end.
(** [u64 as i64] *)
Definition u64_to_i64 (n : N) : Z := if (n <? 2 ^ 63)%N then Z.of_N n else (Z.of_N n - 2 ^ 64)%Z.
Definition decode_index_value (encoded : string) : option Value :=
  match split_once ":" encoded with
  | None => None
  | Some (tag, rest) =>
      if String.eqb tag "0" then Some Null
      else if String.eqb tag "1" then Some (Bool (String.eqb rest "1"))
      else if String.eqb tag "2" then
        n ← Radix.from_str_radix 16 u64_modulus rest; Some (Number (num_of_i64 (u64_to_i64 (sub64 n sign_bit))))
      else if String.eqb tag "3" then
        n ← Radix.from_str_radix 16 u64_modulus rest;
        Number <$> num_of_f64 (if negb (N.land n sign_bit =? 0)%N then N.lxor n sign_bit else N.lnot n 64)
      else if String.eqb tag "4" then
        b ← hex_decode rest; if utf8_valid b then Some (JString b) else None
      else None
  end.
Definition encode_index_key (column : string) (v : Value) : string := index_prefix column +:+ encode_value_for_key v.
Definition encode_bitmap_key (column : string) (v : Value) : string :=
  COL_IDX_BITMAP_PREFIX +:+ (column +:+ (":" +:+ encode_value_for_key v)).
Definition encode_minmax_key (column : string) (chunk_id : N) : string :=
  COL_IDX_MINMAX_PREFIX +:+ (column +:+ (":" +:+ dec chunk_id)).
Definition encode_bloom_key (column : string) (chunk_id : N) : string :=
  COL_IDX_BLOOM_PREFIX +:+ (column +:+ (":" +:+ dec chunk_id)).

Definition compare_values (a b : Value) : comparison :=
  match a, b with
  | Number x, Number y =>
      default Eq (F64.partial_cmp (default 0%N (num_as_f64 x)) (default 0%N (num_as_f64 y)))
  | JString x, JString y => str_cmp x y
  | Bool x, Bool y => bool_cmp x y
  | _, _ => Eq
  end.

(** ** Index entries *)

(** What is stored under a key, or a default. *)
Definition stored {A} (from_slice : string → option A) (dflt : A) (k : string) : M A :=
  d ← db;
  match kv_get k d with
  | Some b => lift (ok_or (from_slice b) json_error)
  | None => mret dflt
  end.
Definition store_as {A} (to_vec : A → option string) (k : string) (x : A) : M unit :=
  b ← lift (ok_or (to_vec x) json_error); put k b.
Definition append_row_to_index (k : string) (row_id : N) : M unit :=
  row_ids ← stored ids_from_slice [] k; store_as ids_to_vec k (row_ids ++ [row_id]).
Definition append_uuid_to_index (k uuid : string) : M unit :=
  let k := k +:+ "_uuids" in
  uuids ← stored uuids_from_slice [] k; store_as uuids_to_vec k (uuids ++ [uuid]).

(** A bitmap is its bytes. *)
Definition bitmap_bytes (s : string) : list N := N_of_ascii <$> list_ascii_of_string s.
Definition bitmap_text (l : list N) : string := string_of_list_ascii (ascii_of_N <$> l).
Definition set_bit (row_id : N) (bitmap : list N) : list N :=
  let byte_idx := N.to_nat (row_id / 8) in
  let bitmap := if (length bitmap <=? byte_idx)%nat then bitmap ++ replicate (S byte_idx - length bitmap) 0%N else bitmap in
  alter (λ b, N.lor b (N.shiftl 1 (row_id mod 8))) byte_idx bitmap.
Definition byte_rows (byte_idx : nat) (byte : N) : list N :=
  (λ bit, (N.of_nat byte_idx * 8 + bit)%N) <$> List.filter (N.testbit byte) (range 8).
Definition bitmap_rows (bitmap : list N) : list N := concat (imap byte_rows bitmap).
Definition append_row_to_bitmap_index (k : string) (row_id : N) : M unit :=
  d ← db;
  bitmap ← match kv_get k d with
           | Some b => lift (decompress_data b Lz4)
           | None => mret ""
           end;
  put k (compress_data (bitmap_text (set_bit row_id (bitmap_bytes bitmap))) Lz4).
Definition update_bloom_index (column : string) (v : Value) (row_id : N) : M unit :=
  let k := encode_bloom_key column (row_id / MINMAX_CHUNK_SIZE) in
  filter ← stored bloom_from_slice bloom_new k;
  store_as bloom_to_vec k (bloom_insert (json_to_string v) filter).
Definition widen (v : Value) (c : MinMaxChunk) : MinMaxChunk :=
  mkChunk (match compare_values v (chunk_min c) with Lt => v | _ => chunk_min c end)
          (match compare_values v (chunk_max c) with Gt => v | _ => chunk_max c end)
          (wrap64 (chunk_count c + 1)).
Definition update_minmax_index (column : string) (v : Value) (row_id : N) : M unit :=
  let k := encode_minmax_key column (row_id / MINMAX_CHUNK_SIZE) in
  chunk ← stored chunk_from_slice (mkChunk v v 0) k;
  store_as chunk_to_vec k (widen v chunk).

Definition field (obj : list (string * Value)) (col : string) : Value := default Null (OMap.get col obj).
Definition update_indexes_for_row_uuid (cols : list ColumnDef) (obj : list (string * Value)) (uuid : string) : M unit :=
  for_each (λ col,
    if indexed col then
      match index_type col with
      | Some MinMax => mret tt
      | _ => append_uuid_to_index (encode_index_key (col_name col) (field obj (col_name col))) uuid
      end
    else mret tt) cols.

(** ** Rows *)

Definition store_column (t : CompressionType) (obj : list (string * Value)) (uuid : string) (col : ColumnDef) : M unit :=
  b ← lift (to_vec (field obj (col_name col)));
  put (col_key (col_name col) uuid) (compress_data b t).
(** The columns, the indexes and the whole row, in this order. *)
Definition store_row (uuid : string) (obj : list (string * Value)) : M unit :=
  m ← get_meta;
  for_each (store_column (compression m) obj uuid) (columns m) ≫= λ _,
  update_indexes_for_row_uuid (columns m) obj uuid ≫= λ _,
  b ← lift (to_vec (Object obj));
  put (row_key uuid) (compress_data b (compression m)).
Definition insert_row (acc : list string) (p : string * Value) : M (list string) :=
  match p.2 with
  | Object obj => store_row p.1 obj ≫= λ _, mret (acc ++ [p.1])
  | _ => mret acc
  end.
Fixpoint insert_loop (acc : list string) (rows : list (string * Value)) : M (list string) :=
  match rows with
  | [] => mret acc
  | p :: rows' => acc' ← insert_row acc p; insert_loop acc' rows'
  end.
(** Each row with the identifier generated for it. *)
Definition insert_rows (now : Z) (rows : list (string * Value)) (c : Columnar) : result DbError (list string) * Columnar :=
  match rows with
  | [] => (Ok [], c)
  | _ =>
      with_cf (ids ← insert_loop [] rows;
               m ← get_meta;
               set_meta (touched now (with_count (wrap64 (row_count m + N.of_nat (length ids))) m)) ≫= λ _,
               save_meta (name c) ≫= λ _, mret ids) c
  end.
Definition has_row (uuid : string) : M bool :=
  d ← db; mret (match kv_get (row_key uuid) d with Some _ => true | None => false end).
Definition insert_row_with_id (now : Z) (uuid : string) (row : Value) (c : Columnar) : result DbError bool * Columnar :=
  with_cf (exists_ ← has_row uuid;
           if exists_ : bool then mret false
           else
             match row with
             | Object obj =>
                 store_row uuid obj ≫= λ _,
                 m ← get_meta;
                 set_meta (touched now (with_count (wrap64 (row_count m + 1)) m)) ≫= λ _,
                 save_meta (name c) ≫= λ _, mret true
             | _ => throw (BadRequest "Row must be a JSON object")
             end) c.
Definition delete_row (now : Z) (uuid : string) (c : Columnar) : result DbError bool * Columnar :=
  with_cf (exists_ ← has_row uuid;
           if exists_ : bool then
             m ← get_meta;
             for_each (λ col, write_with store_error (Del (col_key (col_name col) uuid))) (columns m) ≫= λ _,
             write_with store_error (Del (row_key uuid)) ≫= λ _,
             set_meta (touched now (with_count (if (0 <? row_count m)%N then row_count m - 1 else row_count m) m)) ≫= λ _,
             save_meta (name c) ≫= λ _, mret true
           else mret false) c.

(** ** Reading *)

Definition row_uuids (d : DB) : list string :=
  (λ p, strip_prefix COL_ROW_PREFIX p.1) <$> Indexes.scan_prefix COL_ROW_PREFIX d.
Definition list_row_uuids : Columnar → result DbError (list string) := reading (λ _ d, Ok (row_uuids d)).
Definition has_column (m : Meta) (column : string) : bool := existsb (λ c, String.eqb (col_name c) column) (columns m).
Definition stored_value (m : Meta) (d : DB) (column uuid : string) : result DbError Value :=
  match kv_get (col_key column uuid) d with
  | Some b => decode_value (compression m) b
  | None => Ok Null
  end.
Definition collect {A B} (f : A → result DbError B) : list A → result DbError (list B) :=
  fix go l := match l with
              | [] => Ok []
              | x :: l' => result_bind (f x) (λ y, result_bind (go l') (λ ys, Ok (y :: ys)))
              end.
Definition read_column (column : string) (uuids : option (list string)) : Columnar → result DbError (list Value) :=
  reading (λ m d,
    if has_column m column then collect (stored_value m d column) (default (row_uuids d) uuids)
    else Err (no_column column)).
Definition projected (m : Meta) (d : DB) (cols : list string) (uuid : string) : result DbError Value :=
  result_bind (collect (λ col, result_bind (stored_value m d col uuid) (λ v, Ok (col, v))) cols)
    (λ fields, Ok (Object (foldl (λ o p, OMap.insert p.1 p.2 o) [] fields))).
Definition read_columns (cols : list string) (uuids : option (list string)) : Columnar → result DbError (list Value) :=
  reading (λ m d,
    match List.find (λ col, negb (has_column m col)) cols with
    | Some col => Err (no_column col)
    | None => collect (projected m d cols) (default (row_uuids d) uuids)
    end).
Definition count (c : Columnar) : N := row_count (meta c).
Definition read_column_value (column uuid : string) : Columnar → result DbError Value :=
  reading (λ m d, stored_value m d column uuid).
Definition at_position {A} (l : list A) (i : N) : option A := l !! N.to_nat i.
Definition positions_to_uuids (positions : list N) (c : Columnar) : result DbError (list string) :=
  result_bind (list_row_uuids c) (λ all, Ok (omap (at_position all) positions)).
Definition read_column_by_positions (column : string) (positions : list N) (c : Columnar) : result DbError (list Value) :=
  result_bind (positions_to_uuids positions c) (λ uuids, read_column column (Some uuids) c).
Definition metadata (c : Columnar) : Meta := meta c.

(** ** Aggregates *)

Definition json_number (f : N) : Value :=
  match num_of_f64 f with Some n => Number n | None => Number (num_of_i64 (F64.as_i64 f)) end.
Definition as_f64 : Value → option N := Values.as_f64.
(** The counters of the loops are [i32]. *)
Definition i32 (n : nat) : Z := ((Z.of_nat n + 2 ^ 31) mod 2 ^ 32 - 2 ^ 31)%Z.
Definition column_bytes (column : string) (d : DB) : list string := (Indexes.scan_prefix (column_prefix column) d).*2.
Definition column_numbers (m : Meta) (column : string) (d : DB) : list N :=
  omap (λ b, decoded (compression m) b ≫= as_f64) (column_bytes column d).
Definition sum_f64 (l : list N) : N := foldl F64.add 0%N l.
Definition lower (cur n : N) : N := if F64.ltb n cur then n else cur.
Definition higher (cur n : N) : N := if F64.ltb cur n then n else cur.
Definition reduce (f : N → N → N) (l : list N) : option N :=
  match l with [] => None | x :: l' => Some (foldl f x l') end.
Definition number_or_null (o : option N) : Value := match o with Some f => json_number f | None => Null end.
Definition distinct (l : list string) : nat := length (remove_dups l).
Definition aggregate (column : string) (op : AggregateOp) : Columnar → result DbError Value :=
  reading (λ m d,
    let numbers := column_numbers m column d in
    Ok (match op with
        | Count => Number (num_of_i64 (i32 (length (column_bytes column d))))
        | Sum => json_number (sum_f64 numbers)
        | Avg =>
            if (i32 (length numbers) =? 0)%Z then Null
            else json_number (F64.div (sum_f64 numbers) (F64.of_int (i32 (length numbers))))
        | Min => number_or_null (reduce lower numbers)
        | Max => number_or_null (reduce higher numbers)
        | CountDistinct =>
            Number (num_of_u64 (N.of_nat (distinct (json_to_string <$> omap (decoded (compression m)) (column_bytes column d)))))
        end)).

(** [min_by] keeps the first of equal elements, [max_by] the last. *)
Definition cmp_f64 (a b : N) : comparison := default Eq (F64.partial_cmp a b).
Definition min_by (x y : N) : N := match cmp_f64 x y with Gt => y | _ => x end.
Definition max_by (x y : N) : N := match cmp_f64 x y with Gt => x | _ => y end.
Definition compute_aggregate (values : list Value) (op : AggregateOp) : Value :=
  let nums := omap as_f64 values in
  let sum := foldl F64.add sum_start nums in
  match op with
  | Count => Number (num_of_u64 (N.of_nat (length values)))
  | Sum => json_number sum
  | Avg =>
      match nums with
      | [] => Null
      | _ => json_number (F64.div sum (F64.of_int (Z.of_nat (length nums))))
      end
  | Min => number_or_null (reduce min_by nums)
  | Max => number_or_null (reduce max_by nums)
  | CountDistinct => Number (num_of_u64 (N.of_nat (distinct (json_to_string <$> values))))
  end.

(** ** Groups *)

(** [split_at] panics inside a character. *)
Definition parse_interval (s : string) : outcome (option (Z * string)) :=
  let len := String.length s in
  if (len <? 2)%nat then Done None
  else
    let unit := String.substring (len - 1) 1 s in
    if continues unit then Panics
    else Done ((λ n, (n, unit)) <$> parse_i64 (String.substring 0 (len - 1) s)).
Definition bucket_size (num : Z) (unit : string) : Z :=
  let times := if String.eqb unit "m" then 60%Z else if String.eqb unit "h" then 3600%Z
               else if String.eqb unit "d" then 86400%Z else 1%Z in
  Values.wrap_i64 (num * times).
(** Dividing by a bucket of no seconds panics; a timestamp is never [i64::MIN]. *)
Definition bucketed (ts size : Z) : outcome Z :=
  if (size =? 0)%Z then Panics else Done (Values.wrap_i64 (Z.quot ts size * size)).
Definition group_key_part (g : GroupByColumn) (v : Value) : outcome string :=
  match g with
  | Simple _ => Done (json_to_string v)
  | TimeBucket _ interval =>
      match Indexes.rfc3339_timestamp (default "" (as_str v)) with
      | None => Done (json_to_string v)
      | Some ts =>
          p ← parse_interval interval;
          let '(num, unit) := default (1%Z, "h") p in
          b ← bucketed ts (bucket_size num unit);
          Done (default (json_to_string v) (timestamp_to_rfc3339 b))
      end
  end.
Definition of_result {A} (r : result DbError A) : outcome A := match r with Ok a => Done a | Err e => Fails e end.
Fixpoint group_key_parts (gs : list GroupByColumn) (uuid : string) (c : Columnar) : outcome (list string) :=
  match gs with
  | [] => Done []
  | g :: gs' =>
      v ← of_result (read_column_value (group_name g) uuid c);
      part ← group_key_part g v;
      parts ← group_key_parts gs' uuid c;
      Done (part :: parts)
  end.
(** [entry(key).or_default().push(uuid)] *)
Fixpoint add_to_group (k uuid : string) (groups : list (string * list string)) : list (string * list string) :=
  match groups with
  | [] => [(k, [uuid])]
  | (k', l) :: groups' => if String.eqb k k' then (k', l ++ [uuid]) :: groups' else (k', l) :: add_to_group k uuid groups'
  end.
Fixpoint group_rows (gs : list GroupByColumn) (uuids : list string) (groups : list (string * list string)) (c : Columnar)
    : outcome (list (string * list string)) :=
  match uuids with
  | [] => Done groups
  | uuid :: uuids' =>
      parts ← group_key_parts gs uuid c;
      group_rows gs uuids' (add_to_group (String.concat "|" parts) uuid groups) c
  end.
Definition group_field (g : GroupByColumn) (part : string) : Value :=
  match g with
  | TimeBucket _ _ => JString part
  | Simple _ =>
      match parse_f64 part with
      | Some f => Number (default (num_of_i64 0) (num_of_f64 f))
      | None => JString part
      end
  end.
Definition group_object (gs : list GroupByColumn) (k : string) (agg : Value) : Value :=
  let fields := zip_with (λ g part, (group_name g, group_field g part)) gs (split_on "|" k) in
  Object (OMap.insert "_agg" agg (foldl (λ o p, OMap.insert p.1 p.2 o) [] fields)).
Fixpoint group_results (gs : list GroupByColumn) (agg_column : string) (op : AggregateOp)
    (groups : list (string * list string)) (keys : list string) (c : Columnar) : outcome (list Value) :=
  match keys with
  | [] => Done []
  | k :: keys' =>
      values ← of_result (read_column agg_column (Some (default [] (snd <$> List.find (λ g, String.eqb g.1 k) groups))) c);
      rest ← group_results gs agg_column op groups keys' c;
      Done (group_object gs k (compute_aggregate values op) :: rest)
  end.
Definition group_by (gs : list GroupByColumn) (agg_column : string) (op : AggregateOp) (c : Columnar) : outcome (list Value) :=
  uuids ← of_result (list_row_uuids c);
  groups ← group_rows gs uuids [] c;
  group_results gs agg_column op groups (hash_order groups.*1) c.

(** ** Indexes *)

Definition mark_index (ix : bool) (ty : option ColumnarIndexType) (c : ColumnDef) : ColumnDef :=
  mkColumn (col_name c) (data_type c) (nullable c) ix ty.
Definition column_at (column : string) (m : Meta) : option (nat * ColumnDef) :=
  list_find (λ c, col_name c = column) (columns m).
Definition set_column (i : nat) (c : ColumnDef) (m : Meta) : Meta := with_columns (<[i := c]> (columns m)) m.
Definition index_row (column : string) (ty : ColumnarIndexType) (v : Value) (row_id : N) : M unit :=
  match ty with
  | Bitmap => append_row_to_bitmap_index (encode_bitmap_key column v) row_id
  | MinMax => update_minmax_index column v row_id
  | Bloom => update_bloom_index column v row_id
  | _ => append_row_to_index (encode_index_key column v) row_id
  end.
Definition index_stored_row (column : string) (ty : ColumnarIndexType) (p : N * string) : M unit :=
  m ← get_meta; d ← db;
  match kv_get (col_key column p.2) d ≫= decoded (compression m) with
  | Some v => index_row column ty v p.1
  | None => mret tt
  end.
Definition enumerate {A} (l : list A) : list (N * A) := imap (λ i x, (N.of_nat i, x)) l.
Definition create_index (now : Z) (column : string) (ty : ColumnarIndexType) (c : Columnar) : result DbError unit * Columnar :=
  with_cf (m ← get_meta;
           match column_at column m with
           | None => throw (no_column column)
           | Some (i, col) =>
               if indexed col then throw (BadRequest ("Column '" +:+ (column +:+ "' already has an index")))
               else
                 d ← db;
                 for_each (index_stored_row column ty) (enumerate (row_uuids d)) ≫= λ _,
                 store_as index_meta_to_vec (idx_meta_key column) (mkIndexMeta column ty now) ≫= λ _,
                 set_meta (set_column i (mark_index true (Some ty) col) m) ≫= λ _,
                 save_meta (name c)
           end) c.
Definition drop_index (column : string) (c : Columnar) : result DbError unit * Columnar :=
  with_cf (m ← get_meta;
           match column_at column m with
           | None => throw (no_column column)
           | Some (i, col) =>
               if indexed col then
                 d ← db;
                 for_each (λ p, write_with store_error (Del p.1)) (Indexes.scan_prefix (index_prefix column) d) ≫= λ _,
                 write_with store_error (Del (idx_meta_key column)) ≫= λ _,
                 set_meta (set_column i (mark_index false (index_type col) col) m) ≫= λ _,
                 save_meta (name c)
               else throw (BadRequest ("Column '" +:+ (column +:+ "' has no index")))
           end) c.
Definition stored_index_meta (column : string) (d : DB) : option IndexMeta :=
  kv_get (idx_meta_key column) d ≫= index_meta_from_slice.
Definition list_indexes : Columnar → result DbError (list IndexMeta) :=
  reading (λ m d, Ok (omap (λ col, if indexed col then stored_index_meta (col_name col) d else None) (columns m))).
Definition has_index (column : string) (m : Meta) : bool :=
  existsb (λ c, String.eqb (col_name c) column && indexed c) (columns m).
Definition has_sorted_index (column : string) (c : Columnar) : bool :=
  has_index column (meta c) &&
  match cf c with
  | Some d =>
      match stored_index_meta column d with
      | Some im => bool_decide (im_type im = Sorted)
      | None => false
      end
  | None => false
  end.
Definition get_index_type (column : string) (m : Meta) : option ColumnarIndexType :=
  List.find (λ c, String.eqb (col_name c) column && indexed c) (columns m) ≫= index_type.

(** *** Lookups *)

Definition index_lookup_bitmap (column : string) (v : Value) : Columnar → result DbError (list N) :=
  reading (λ _ d,
    Ok (match kv_get (encode_bitmap_key column v) d with
        | Some b =>
            match decompress_data b Lz4 with Ok bitmap => bitmap_rows (bitmap_bytes bitmap) | Err _ => [] end
        | None => []
        end)).
Definition index_lookup_eq (column : string) (v : Value) : Columnar → result DbError (list N) :=
  reading (λ _ d,
    match kv_get (encode_index_key column v) d with
    | Some b => ok_or (ids_from_slice b) json_error
    | None => Ok []
    end).
(** The comparison a range filter makes, and which of its outcomes match. *)
Definition range_test (f : ColumnFilter) (o : comparison) : bool :=
  match f with
  | FGt _ _ => match o with Gt => true | _ => false end
  | FGte _ _ => match o with Lt => false | _ => true end
  | FLt _ _ => match o with Lt => true | _ => false end
  | FLte _ _ => match o with Gt => false | _ => true end
  | _ => false
  end.
Definition filter_value (f : ColumnFilter) : Value :=
  match f with FEq _ v | FNe _ v | FGt _ v | FGte _ v | FLt _ v | FLte _ v => v | _ => Null end.
Definition chunk_matches (f : ColumnFilter) (c : MinMaxChunk) : bool :=
  match f with
  | FGt _ v | FGte _ v => range_test f (compare_values (chunk_max c) v)
  | FLt _ v | FLte _ v => range_test f (compare_values (chunk_min c) v)
  | _ => false
  end.
Definition div_ceil (a b : N) : N := (a + b - 1) / b.
Definition chunk_rows (row_count chunk_id : N) : list N :=
  let start := (chunk_id * MINMAX_CHUNK_SIZE)%N in
  range_from start (N.min (start + MINMAX_CHUNK_SIZE) row_count).
Definition candidate_rows (chunk : N → bool) (row_count : N) : list N :=
  flat_map (λ i, if chunk i then chunk_rows row_count i else []) (range (div_ceil row_count MINMAX_CHUNK_SIZE)).
Definition get_candidate_rows_from_minmax (column : string) (f : ColumnFilter) : Columnar → result DbError (list N) :=
  reading (λ m d,
    Ok (candidate_rows (λ i, match kv_get (encode_minmax_key column i) d ≫= chunk_from_slice with
                             | Some c => chunk_matches f c
                             | None => false
                             end) (row_count m))).
Definition get_candidate_rows_from_bloom (column : string) (v : Value) : Columnar → result DbError (list N) :=
  reading (λ m d,
    Ok (candidate_rows (λ i, match kv_get (encode_bloom_key column i) d ≫= bloom_from_slice with
                             | Some b => bloom_contains (json_to_string v) b
                             | None => true
                             end) (row_count m))).
(** [sort] and [dedup] *)
Fixpoint dedup (l : list N) : list N :=
  match l with
  | x :: (y :: _) as l' => if (x =? y)%N then dedup l' else x :: dedup l'
  | l => l
  end.
Definition sort_dedup (l : list N) : list N := dedup (sort_by N.compare l).
Definition entry_rows (column : string) (f : ColumnFilter) (p : string * string) : list N :=
  let prefix := index_prefix column in
  match decode_index_value (strip_prefix prefix p.1) with
  | Some v => if range_test f (compare_values v (filter_value f)) then default [] (ids_from_slice p.2) else []
  | None => []
  end.
Definition index_range_scan (column : string) (f : ColumnFilter) : Columnar → result DbError (list N) :=
  reading (λ _ d, Ok (sort_dedup (flat_map (entry_rows column f) (Indexes.scan_prefix (index_prefix column) d)))).

(** ** Filters *)

Definition positions_where (test : Value → bool) (values : list Value) (n : N) : list N :=
  List.filter (λ i, match at_position values i with Some v => test v | None => false end) (range n).
Definition verified (test : Value → bool) (ids : list N) (values : list Value) : list N :=
  fst <$> List.filter (λ p, test p.2) (zip ids values).
Definition full_scan (column : string) (test : Value → bool) (n : N) (c : Columnar) : result DbError (list N) :=
  result_bind (read_column column None c) (λ values, Ok (positions_where test values n)).
Definition verify_candidates (column : string) (test : Value → bool) (ids : list N) (c : Columnar) : result DbError (list N) :=
  result_bind (read_column_by_positions column ids c) (λ values, Ok (verified test ids values)).

Definition filter_eq (column : string) (v : Value) (n : N) (c : Columnar) : result DbError (list N) :=
  match get_index_type column (meta c) with
  | Some Bitmap => index_lookup_bitmap column v c
  | Some Sorted | Some Hash => index_lookup_eq column v c
  | Some Bloom =>
      result_bind (get_candidate_rows_from_bloom column v c) (λ ids, verify_candidates column (λ w, value_eqb w v) ids c)
  | _ => full_scan column (λ w, value_eqb w v) n c
  end.
Definition threshold (f : ColumnFilter) : N :=
  default (match f with FGt _ _ | FGte _ _ => N.lor F64.infinity sign_bit | _ => F64.infinity end) (as_f64 (filter_value f)).
Definition number_test (f : ColumnFilter) (w : Value) : bool :=
  match as_f64 w with
  | Some n => match F64.partial_cmp n (threshold f) with Some o => range_test f o | None => false end
  | None => false
  end.
Definition filter_range (column : string) (f : ColumnFilter) (n : N) (c : Columnar) : result DbError (list N) :=
  if has_sorted_index column c then index_range_scan column f c
  else
    match get_index_type column (meta c) with
    | Some MinMax =>
        result_bind (get_candidate_rows_from_minmax column f c) (λ ids, verify_candidates column (number_test f) ids c)
    | _ => full_scan column (number_test f) n c
    end.
Definition contained (vs : list Value) (w : Value) : bool := existsb (λ v, value_eqb v w) vs.
Definition filter_in (column : string) (vs : list Value) (n : N) (c : Columnar) : result DbError (list N) :=
  let union (look : Value → Columnar → result DbError (list N)) :=
    result_bind (collect (λ v, look v c) vs) (λ ls, Ok (sort_dedup (concat ls))) in
  match get_index_type column (meta c) with
  | Some Bitmap => union (index_lookup_bitmap column)
  | Some Hash | Some Sorted => union (index_lookup_eq column)
  | Some Bloom =>
      result_bind (union (get_candidate_rows_from_bloom column)) (λ ids, verify_candidates column (contained vs) ids c)
  | _ => full_scan column (contained vs) n c
  end.
Definition mem (l : list N) (i : N) : bool := existsb (N.eqb i) l.
(** The rows [0..n]; the conjuncts of [And] are applied to as many rows as are left. *)
Fixpoint apply_filter (c : Columnar) (f : ColumnFilter) (n : N) {struct f} : result DbError (list N) :=
  match f with
  | FEq column v => filter_eq column v n c
  | FNe column v => full_scan column (λ w, negb (value_eqb w v)) n c
  | FGt column _ | FGte column _ | FLt column _ | FLte column _ => filter_range column f n c
  | FIn column vs => filter_in column vs n c
  | FAnd fs =>
      (fix go (fs : list ColumnFilter) (rows : list N) : result DbError (list N) :=
         match fs with
         | [] => Ok rows
         | f :: fs' =>
             result_bind (apply_filter c f (N.of_nat (length rows)))
               (λ matching, go fs' (List.filter (mem matching) rows))
         end) fs (range n)
  | FOr fs =>
      (fix go (fs : list ColumnFilter) (acc : list N) : result DbError (list N) :=
         match fs with
         | [] => Ok (sort_dedup acc)
         | f :: fs' => result_bind (apply_filter c f n) (λ matching, go fs' (acc ++ matching))
         end) fs []
  end.
Definition scan_filtered (f : ColumnFilter) (cols : list string) (c : Columnar) : result DbError (list Value) :=
  result_bind (apply_filter c f (row_count (meta c))) (λ positions,
  result_bind (positions_to_uuids positions c) (λ uuids, read_columns cols (Some uuids) c)).

(** ** Sizes, truncating and dropping *)

Record ColumnarStats := mkStats {
  st_name : string; st_rows : N; st_columns : nat; st_compressed : N; st_uncompressed : N; st_ratio : N;
}.
(** The iteration has no end but that of the family. *)
Definition stats (c : Columnar) : result DbError ColumnarStats :=
  reading (λ m d,
    let values := (kv_from COL_DATA_PREFIX d).*2 in
    let total (l : list string) := foldl (λ n s, wrap64 (n + N.of_nat (String.length s))) 0%N l in
    let compressed := total values in
    let uncompressed := total (omap (λ s, match decompress_data s (compression m) with Ok b => Some b | Err _ => None end) values) in
    let f64 n := F64.of_int (Z.of_N n) in
    Ok (mkStats (name c) (row_count m) (length (columns m)) compressed uncompressed
          (if (0 <? compressed)%N then F64.div (f64 uncompressed) (f64 compressed) else F64.of_int 1))) c.
Definition delete_from (prefix : string) : M unit :=
  d ← db; for_each (λ p, write_with (InternalError "Failed to delete") (Del p.1)) (kv_from prefix d).
Definition truncate : Columnar → result DbError unit * Columnar :=
  with_cf (delete_from COL_DATA_PREFIX ≫= λ _,
           delete_from COL_ROW_PREFIX ≫= λ _,
           delete_from "idx:" ≫= λ _,
           m ← get_meta;
           set_meta (with_count 0 m) ≫= λ _,
           b ← lift (ok_or (meta_to_vec (with_count 0 m)) (InternalError "Failed to serialize meta"));
           write_with (InternalError "Failed to save meta") (Put "meta" b)).
(** [drop_cf], which can fail. *)
Definition drop (dropped : bool) (c : Columnar) : result DbError unit * Columnar :=
  match cf c with
  | Some _ => if dropped then (Ok tt, mkColumnar (name c) (cf_name c) None (meta c)) else (Err (InternalError "Failed to drop CF"), c)
  | None => (Err (InternalError "Failed to drop CF"), c)
  end.
End Columnar.
End Columnar.
