(* ===== verification/ColumnarProps.v ===== *)
(** * Columnar collections: what they promise

    A columnar collection is a table of rows by identifier ([table_of]): inserting, inserting with
    a given identifier and deleting are the operations of the table, and reading projects the rows
    in the order of their identifiers. Filters select the rows that satisfy them, but for
    conjunctions, which are sound only. The five indexes, once built, select what a full scan does;
    an aggregate computed while iterating is the aggregate of the column that was read. *)

From S2P Require Import Prelude Text Json Transaction Codec Kv F64 Document Indexes SdbqlLexer SdbqlValue.
From S2P Require Import Collection CollectionProps Columnar.
Import Json Codec Columnar.

Module ColumnarProps.

(** ** Keys *)

Section Keys.
Lemma last_separated_inj (c : ascii) a b a' b' :
  str_all (λ x, negb (Ascii.eqb x c)) b = true → str_all (λ x, negb (Ascii.eqb x c)) b' = true →
  a +:+ String c b = a' +:+ String c b' → a = a' ∧ b = b'.
Proof.
  intros Hb Hb'.
  assert (∀ x y, str_all (λ x, negb (Ascii.eqb x c)) (x +:+ String c y) = true → False) as Hno.
  { intros x y H. rewrite str_all_app in H. apply andb_true_iff in H as [_ H]. cbn [str_all] in H.
    by rewrite Ascii.eqb_refl in H. }
  revert a'. induction a as [|x a IH]; intros [|x' a'] H.
  - change (String c b = String c b') in H. by injection H as ->.
  - change (String c b = String x' (a' +:+ String c b')) in H. injection H as _ ->. by apply Hno in Hb.
  - change (String x (a +:+ String c b) = String c b') in H. injection H as _ <-. by apply Hno in Hb'.
  - change (String x (a +:+ String c b) = String x' (a' +:+ String c b')) in H. injection H as -> H.
    destruct (IH a' H) as [-> ->]. done.
Qed.
Lemma col_key_inj col u col' u' : Indexes.no_colon u = true → Indexes.no_colon u' = true →
  col_key col u = col_key col' u' → col = col' ∧ u = u'.
Proof.
  intros Hu Hu' H. unfold col_key, column_prefix in H. rewrite !str_app_assoc in H. apply str_app_inj_l in H.
  by apply last_separated_inj in H.
Qed.
Lemma row_key_inj u u' : row_key u = row_key u' → u = u'.
Proof. apply str_app_inj_l. Qed.
Lemma meta_key_inj u u' : meta_key u = meta_key u' → u = u'.
Proof. apply str_app_inj_l. Qed.
End Keys.

(** The four kinds of keys. *)
Inductive space := SData | SRow | SMeta | SIndex.
Definition space_of (k : string) : option space :=
  if starts_with COL_DATA_PREFIX k then Some SData
  else if starts_with COL_ROW_PREFIX k then Some SRow
  else if starts_with COL_META_PREFIX k then Some SMeta
  else if starts_with "col_idx" k then Some SIndex else None.
Lemma col_key_space col u : space_of (col_key col u) = Some SData.
Proof. unfold space_of, col_key, column_prefix. by rewrite str_app_assoc, starts_with_app. Qed.
Lemma row_key_space u : space_of (row_key u) = Some SRow.
Proof.
  unfold space_of. replace (starts_with COL_DATA_PREFIX (row_key u)) with false by reflexivity.
  unfold row_key. by rewrite starts_with_app.
Qed.
Lemma meta_key_space n : space_of (meta_key n) = Some SMeta.
Proof.
  unfold space_of. replace (starts_with COL_DATA_PREFIX (meta_key n)) with false by reflexivity.
  replace (starts_with COL_ROW_PREFIX (meta_key n)) with false by reflexivity.
  unfold meta_key. by rewrite starts_with_app.
Qed.
Lemma index_key_space k : starts_with "col_idx" k = true → space_of k = Some SIndex.
Proof.
  intros Hk. unfold space_of. rewrite Hk. apply starts_with_split in Hk as [r ->]. reflexivity.
Qed.

Section Writes.
Context {DB : Type} `{store : !KvStore DB} `{laws : !KvLaws DB} `{reliable : !KvReliable DB}.
Notation M := (Columnar.M (DB:=DB)).

(** Only the keys of a set are changed. *)
Definition frame (P : string → Prop) (d d' : DB) : Prop := ∀ k, ¬ P k → kv_get k d' = kv_get k d.
Lemma frame_refl P d : frame P d d.
Proof. by intros k _. Qed.
Lemma frame_trans P d1 d2 d3 : frame P d1 d2 → frame P d2 d3 → frame P d1 d3.
Proof. intros H1 H2 k Hk. by rewrite H2, H1. Qed.
Lemma frame_mono (P Q : string → Prop) d d' : (∀ k, P k → Q k) → frame P d d' → frame Q d d'.
Proof. intros H Hf k Hk. apply Hf. by intros ?%H. Qed.
Lemma put_ok k v m d :
  ∃ d', put k v (m, d) = (Ok tt, (m, d')) ∧ kv_get k d' = Some v ∧ frame (λ k', k' = k) d d'.
Proof.
  unfold put, write_with. cbn [snd fst]. destruct (kv_write_ok [Put k v] d) as [d' Hd]. rewrite Hd.
  exists d'. split; [done|]. split; [|intros k' Hk']; rewrite (Collection.kv_get_write _ _ _ _ Hd); cbn.
  - by rewrite decide_True.
  - by rewrite decide_False by congruence.
Qed.
Lemma del_ok e k m d :
  ∃ d', write_with e (Del k) (m, d) = (Ok tt, (m, d')) ∧ kv_get k d' = None ∧ frame (λ k', k' = k) d d'.
Proof.
  unfold write_with. cbn [snd fst]. destruct (kv_write_ok [Del k] d) as [d' Hd]. rewrite Hd.
  exists d'. split; [done|]. split; [|intros k' Hk']; rewrite (Collection.kv_get_write _ _ _ _ Hd); cbn.
  - by rewrite decide_True.
  - by rewrite decide_False by congruence.
Qed.
Lemma bind_ok {A B} (m : M A) (k : A → M B) s a s' : m s = (Ok a, s') → (m ≫= k) s = k a s'.
Proof. intros H. unfold mbind, M_bind. by rewrite H. Qed.
Lemma bind_get_meta {B} (k : Meta → M B) m d : (get_meta ≫= k) (m, d) = k m (m, d).
Proof. done. Qed.
Lemma bind_db {B} (k : DB → M B) m d : (db ≫= k) (m, d) = k d (m, d).
Proof. done. Qed.
Lemma bind_set_meta {B} (k : unit → M B) m' m d : (set_meta m' ≫= k) (m, d) = k tt (m', d).
Proof. done. Qed.
Lemma bind_lift {A B} (a : A) (k : A → M B) s : (lift (Ok a) ≫= k) s = k a s.
Proof. done. Qed.
(** A loop of actions that keep the metadata. *)
Lemma for_each_prefix {A} (f : A → M unit) (I : list A → DB → Prop) m l :
  (∀ done x rest d, l = done ++ x :: rest → I done d → ∃ d', f x (m, d) = (Ok tt, (m, d')) ∧ I (done ++ [x]) d') →
  ∀ d, I [] d → ∃ d', for_each f l (m, d) = (Ok tt, (m, d')) ∧ I l d'.
Proof.
  intros Hstep.
  enough (∀ done l', done ++ l' = l → ∀ d, I done d → ∃ d', for_each f l' (m, d) = (Ok tt, (m, d')) ∧ I l d') as H.
  { intros d. by apply (H [] l). }
  intros done l'. revert done. induction l' as [|x l' IH]; intros done Hl d Hd.
  - rewrite app_nil_r in Hl. subst. by exists d.
  - cbn [for_each]. destruct (Hstep done x l' d) as (d1 & H1 & H2); [done..|].
    rewrite (bind_ok _ _ _ _ _ H1). apply (IH (done ++ [x])); [by rewrite <-app_assoc|done].
Qed.
Lemma for_each_ok {A} (f : A → M unit) (I : list A → DB → Prop) m l :
  (∀ done x d, x ∈ l → I done d → ∃ d', f x (m, d) = (Ok tt, (m, d')) ∧ I (done ++ [x]) d') →
  ∀ d, I [] d → ∃ d', for_each f l (m, d) = (Ok tt, (m, d')) ∧ I l d'.
Proof. intros H. apply for_each_prefix. intros done x rest d ->. apply H. set_solver. Qed.
End Writes.

Section Table.
Context {Num : Type} `{json_num : !JsonNumber Num} `{json_text : !JsonText Num} `{value_text : !ValueText Num}.
Context `{meta_json : !Indexes.MetaJson Num} `{hex_crate : !Indexes.HexCrate}.
Context `{crates : !ColumnarCrates Num} `{claws : !ColumnarLaws Num}.
Context {DB : Type} `{store : !KvStore DB} `{laws : !KvLaws DB} `{reliable : !KvReliable DB}.
Notation Value := (Value Num).
Notation Columnar := (Columnar DB).
Notation M := (Columnar.M (DB:=DB)).
Notation Row := (list (string * Value)).
Implicit Types (t : gmap string Row) (m : Meta) (d : DB).

(** ** The table

    A value that its text gives back, and a row of such values. *)

Definition exact (v : Value) : Prop := ∃ b, Indexes.value_to_vec v = Some b ∧ json_from_slice b = Some v.
Definition exact_row m (obj : Row) : Prop :=
  exact (Object obj) ∧ Forall (λ c, exact (field obj (col_name c))) (columns m).
Lemma decode_compressed ct v b : Indexes.value_to_vec v = Some b → json_from_slice b = Some v →
  decode_value ct (compress_data b ct) = Ok v.
Proof.
  intros Hb Hv. unfold decode_value, decompress_data, compress_data. destruct ct; cbn [result_bind].
  - by rewrite Hv.
  - rewrite lz4_roundtrip. cbn [ok_or result_bind]. by rewrite Hv.
Qed.

(** What is stored under a key, when there is something, is a value. *)
Definition holds_value m d (k : string) (o : option Value) : Prop :=
  match o with
  | Some v => ∃ b, kv_get k d = Some b ∧ decode_value (compression m) b = Ok v
  | None => kv_get k d = None
  end.
Record rows_of t m d : Prop := {
  t_rows u : holds_value m d (row_key u) (Object <$> t !! u);
  t_columns col u : has_column m col = true → Indexes.no_colon u = true →
    holds_value m d (col_key col u) ((λ obj, field obj col) <$> t !! u);
  t_data k : starts_with COL_DATA_PREFIX k = true → is_Some (kv_get k d) →
    ∃ col u, has_column m col = true ∧ is_Some (t !! u) ∧ k = col_key col u;
  t_ids u : is_Some (t !! u) → Indexes.no_colon u = true;
  t_uuids k b : starts_with COL_IDX_PREFIX k = true → kv_get (k +:+ "_uuids") d = Some b → is_Some (uuids_from_slice b);
}.
Lemma holds_value_frame P m d d' k o : frame P d d' → ¬ P k → holds_value m d k o → holds_value m d' k o.
Proof. intros Hf Hk. unfold holds_value. by rewrite Hf. Qed.
Lemma holds_value_meta m m' d k o : compression m' = compression m → holds_value m d k o → holds_value m' d k o.
Proof. intros Hc. unfold holds_value. by rewrite Hc. Qed.

(** *** The writes of a row *)

Definition row_keys m (u k : string) : Prop := k = row_key u ∨ ∃ c, c ∈ columns m ∧ k = col_key (col_name c) u.
#[local] Instance column_key_dec m u k : Decision (∃ c, c ∈ columns m ∧ k = col_key (col_name c) u).
Proof. refine (cast_if (decide (Exists (λ c, k = col_key (col_name c) u) (columns m)))); by rewrite <-Exists_exists. Defined.
Lemma has_column_elem m col : has_column m col = true ↔ ∃ c, c ∈ columns m ∧ col_name c = col.
Proof.
  unfold has_column. rewrite existsb_exists. split; intros (c & Hc & H); exists c.
  - by apply list_elem_of_In in Hc; apply String.eqb_eq in H.
  - split; [by apply list_elem_of_In|by apply String.eqb_eq].
Qed.
Lemma store_columns_ok m obj u : exact_row m obj → Indexes.no_colon u = true → ∀ d,
  ∃ d', for_each (store_column (compression m) obj u) (columns m) (m, d) = (Ok tt, (m, d')) ∧
    frame (row_keys m u) d d' ∧
    (∀ c, c ∈ columns m → holds_value m d' (col_key (col_name c) u) (Some (field obj (col_name c)))).
Proof.
  intros [_ Hx] Hu d. rewrite Forall_forall in Hx.
  destruct (for_each_ok (store_column (compression m) obj u) (λ done d',
      frame (row_keys m u) d d' ∧
      ∀ c, c ∈ done → holds_value m d' (col_key (col_name c) u) (Some (field obj (col_name c)))) m (columns m))
    with (d := d) as (d' & H1 & H2 & H3); [|split; [apply frame_refl|by intros c ?%elem_of_nil]|eauto].
  intros done c d1 Hc [Hf Hdone]. destruct (Hx c Hc) as (b & Hb & Hv).
  unfold store_column, to_vec. rewrite Hb. cbn [ok_or]. rewrite bind_lift.
  destruct (put_ok (col_key (col_name c) u) (compress_data b (compression m)) m d1) as (d2 & Hput & Hget & Hf2).
  exists d2. split; [done|].
  assert (holds_value m d2 (col_key (col_name c) u) (Some (field obj (col_name c)))) as Hnew.
  { exists (compress_data b (compression m)). split; [done|]. by apply decode_compressed. }
  split.
  - apply (frame_trans _ _ d1); [done|]. eapply frame_mono; [|exact Hf2]. intros k ->. right. eauto.
  - intros c' [Hc'|Hc']%elem_of_app; [|by apply list_elem_of_singleton in Hc' as ->].
    destruct (decide (col_name c' = col_name c)) as [E|Hne]; [by rewrite E|].
    apply (holds_value_frame _ _ _ _ _ _ Hf2); [|by apply Hdone]. by intros [? _]%col_key_inj.
Qed.
Lemma stored_ok {A} (from_slice : string → option A) dflt k m d :
  (∀ b, kv_get k d = Some b → is_Some (from_slice b)) → ∃ x, stored from_slice dflt k (m, d) = (Ok x, (m, d)) ∧
    x = default dflt (kv_get k d ≫= from_slice).
Proof.
  intros H. unfold stored. rewrite bind_db. destruct (kv_get k d) as [b|]; [|by exists dflt].
  destruct (H b eq_refl) as [x Hx]. exists x. cbn. by rewrite Hx.
Qed.
Definition uuids_readable d : Prop :=
  ∀ k b, starts_with COL_IDX_PREFIX k = true → kv_get (k +:+ "_uuids") d = Some b → is_Some (uuids_from_slice b).
Lemma append_uuid_ok k u m d : starts_with COL_IDX_PREFIX k = true → uuids_readable d →
  ∃ d', append_uuid_to_index k u (m, d) = (Ok tt, (m, d')) ∧ frame (λ k', k' = k +:+ "_uuids") d d' ∧ uuids_readable d'.
Proof.
  intros Hk Hr. unfold append_uuid_to_index.
  destruct (stored_ok uuids_from_slice [] (k +:+ "_uuids") m d) as (l & Hl & _); [intros b; by apply Hr|].
  rewrite (bind_ok _ _ _ _ _ Hl). unfold store_as. destruct (uuids_roundtrip (l ++ [u])) as (b & Hb & Hb').
  rewrite Hb. cbn [ok_or]. rewrite bind_lift. destruct (put_ok (k +:+ "_uuids") b m d) as (d' & Hput & Hget & Hf).
  exists d'. split; [done|]. split; [done|]. intros k' b' Hk' Hget'.
  destruct (decide (k' +:+ "_uuids" = k +:+ "_uuids")) as [E|E].
  - rewrite E, Hget in Hget'. injection Hget' as <-. eauto.
  - rewrite Hf in Hget' by done. by apply (Hr k').
Qed.
Definition index_space (k : string) : Prop := space_of k = Some SIndex.
Lemma index_prefix_space k r : starts_with COL_IDX_PREFIX k = true → index_space (k +:+ r).
Proof. intros [x ->]%starts_with_split. apply index_key_space. rewrite str_app_assoc. apply (starts_with_app "col_idx"). Qed.
Lemma update_indexes_ok m obj u cols d : uuids_readable d →
  ∃ d', update_indexes_for_row_uuid cols obj u (m, d) = (Ok tt, (m, d')) ∧ frame index_space d d' ∧ uuids_readable d'.
Proof.
  intros Hr. unfold update_indexes_for_row_uuid.
  apply (for_each_ok _ (λ _ d', frame index_space d d' ∧ uuids_readable d')); [|by split; [apply frame_refl|]].
  intros _ c d1 _ [Hf Hr1].
  assert (∀ k, starts_with COL_IDX_PREFIX k = true → ∃ d', append_uuid_to_index k u (m, d1) = (Ok tt, (m, d')) ∧
            frame index_space d d' ∧ uuids_readable d') as Happ.
  { intros k Hk. destruct (append_uuid_ok k u m d1 Hk Hr1) as (d2 & H1 & H2 & H3). exists d2. split; [done|].
    split; [|done]. apply (frame_trans _ _ d1); [done|]. eapply frame_mono; [|exact H2]. intros k' ->.
    by apply index_prefix_space. }
  assert (∀ v, starts_with COL_IDX_PREFIX (encode_index_key (col_name c) v) = true) as Hpre.
  { intros v. unfold encode_index_key, index_prefix. rewrite str_app_assoc. apply starts_with_app. }
  destruct (indexed c); [|by exists d1]. destruct (index_type c) as [[]|]; try (by apply Happ). by exists d1.
Qed.
Lemma store_row_ok m obj u d : exact_row m obj → Indexes.no_colon u = true → uuids_readable d →
  ∃ d', store_row u obj (m, d) = (Ok tt, (m, d')) ∧ frame (λ k, row_keys m u k ∨ index_space k) d d' ∧
    (∀ c, c ∈ columns m → holds_value m d' (col_key (col_name c) u) (Some (field obj (col_name c)))) ∧
    holds_value m d' (row_key u) (Some (Object obj)) ∧ uuids_readable d'.
Proof.
  intros Hx Hu Hr. unfold store_row. rewrite bind_get_meta.
  destruct (store_columns_ok m obj u Hx Hu d) as (d1 & H1 & Hf1 & Hc1). rewrite (bind_ok _ _ _ _ _ H1).
  assert (uuids_readable d1) as Hr1.
  { intros k b Hk Hg. apply (Hr k); [done|]. rewrite <-Hf1; [done|].
    pose proof (index_prefix_space k "_uuids" Hk) as Hs. unfold index_space in Hs.
    intros [E|(c & _ & E)]; rewrite E in Hs; [by rewrite row_key_space in Hs|by rewrite col_key_space in Hs]. }
  destruct (update_indexes_ok m obj u (columns m) d1 Hr1) as (d2 & H2 & Hf2 & Hr2). rewrite (bind_ok _ _ _ _ _ H2).
  destruct Hx as [(b & Hb & Hv) _]. unfold to_vec. rewrite Hb. cbn [ok_or]. rewrite bind_lift.
  destruct (put_ok (row_key u) (compress_data b (compression m)) m d2) as (d3 & H3 & Hg3 & Hf3).
  exists d3. split; [done|]. split_and!.
  - apply (frame_trans _ _ d1). { eapply frame_mono; [|exact Hf1]. auto. }
    apply (frame_trans _ _ d2). { eapply frame_mono; [|exact Hf2]. auto. }
    eapply frame_mono; [|exact Hf3]. intros k ->. left. by left.
  - intros c Hc. apply (holds_value_frame _ _ _ _ _ _ Hf3).
    { intros E. pose proof (col_key_space (col_name c) u) as Hs. by rewrite E, row_key_space in Hs. }
    apply (holds_value_frame _ _ _ _ _ _ Hf2); [|by apply Hc1]. unfold index_space. by rewrite col_key_space.
  - exists (compress_data b (compression m)). split; [done|]. by apply decode_compressed.
  - intros k b' Hk Hg. apply (Hr2 k); [done|]. rewrite <-Hf3; [done|]. intros E.
    pose proof (index_prefix_space k "_uuids" Hk) as Hs. unfold index_space in Hs. by rewrite E, row_key_space in Hs.
Qed.

(** *** The operations on the rows *)

Lemma rows_of_schema t m m' d : (∀ col, has_column m' col = has_column m col) → compression m' = compression m →
  rows_of t m d → rows_of t m' d.
Proof.
  intros Hh Hp [H1 H2 H3 H4 H5]. split; try done.
  - intros u. by apply (holds_value_meta m).
  - intros col u. rewrite Hh. intros. apply (holds_value_meta m); auto.
  - intros k. by setoid_rewrite Hh; apply H3.
Qed.
Lemma rows_of_meta t m m' d : columns m' = columns m → compression m' = compression m → rows_of t m d → rows_of t m' d.
Proof. intros Hc. apply rows_of_schema. intros col. unfold has_column. by rewrite Hc. Qed.
Lemma rows_of_frame t m d d' : frame (λ k, space_of k = Some SMeta) d d' → rows_of t m d → rows_of t m d'.
Proof.
  intros Hf [H1 H2 H3 H4 H5].
  assert (∀ k s, space_of k = Some s → s ≠ SMeta → kv_get k d' = kv_get k d) as Hsame.
  { intros k s Hk Hs. apply Hf. congruence. }
  split; try done.
  - intros u. apply (holds_value_frame _ _ _ _ _ _ Hf); [by rewrite row_key_space|done].
  - intros col u Hc Hu. apply (holds_value_frame _ _ _ _ _ _ Hf); [by rewrite col_key_space|auto].
  - intros k Hk. rewrite (Hsame k SData); [by apply H3| |done]. unfold space_of. by rewrite Hk.
  - intros k b Hk. rewrite (Hsame _ SIndex); [by apply H5| |done]. by apply index_prefix_space.
Qed.
Lemma rows_of_insert t m d d' u obj : rows_of t m d → Indexes.no_colon u = true →
  frame (λ k, row_keys m u k ∨ index_space k) d d' →
  (∀ c, c ∈ columns m → holds_value m d' (col_key (col_name c) u) (Some (field obj (col_name c)))) →
  holds_value m d' (row_key u) (Some (Object obj)) → uuids_readable d' → rows_of (<[u := obj]> t) m d'.
Proof.
  intros [H1 H2 H3 H4 H5] Hu Hf Hcols Hrow Hr. split; [..|exact Hr].
  - intros u'. destruct (decide (u' = u)) as [->|Hne]; [by rewrite lookup_insert_eq|].
    rewrite lookup_insert_ne by done. apply (holds_value_frame _ _ _ _ _ _ Hf); [|done]. unfold index_space.
    intros [[E|(c & _ & E)]|E]; [by apply row_key_inj in E| |by rewrite row_key_space in E].
    pose proof (row_key_space u') as Hs. by rewrite E, col_key_space in Hs.
  - intros col u' Hcol Hu'. destruct (decide (u' = u)) as [->|Hne].
    + rewrite lookup_insert_eq. apply has_column_elem in Hcol as (c & Hc & <-). by apply Hcols.
    + rewrite lookup_insert_ne by done. apply (holds_value_frame _ _ _ _ _ _ Hf); [|by auto]. unfold index_space.
      intros [[E|(c & _ & E)]|E]; [| |by rewrite col_key_space in E].
      * pose proof (col_key_space col u') as Hs. by rewrite E, row_key_space in Hs.
      * by apply col_key_inj in E as [_ ?].
  - intros k Hk Hg. destruct (decide (∃ c, c ∈ columns m ∧ k = col_key (col_name c) u)) as [(c & Hc & ->)|Hno].
    + exists (col_name c), u. rewrite lookup_insert_eq. split; [|by eauto]. apply has_column_elem. eauto.
    + rewrite Hf in Hg.
      * destruct (H3 k Hk Hg) as (col & u' & Hcol & Hu' & ->). exists col, u'. split; [done|]. split; [|done].
        destruct (decide (u' = u)) as [->|Hne]; [by rewrite lookup_insert_eq|by rewrite lookup_insert_ne].
      * intros [[->|(c & Hc & ->)]|Hs]; [done|by destruct Hno; eauto|].
        unfold index_space, space_of in Hs. by rewrite Hk in Hs.
  - intros u'. destruct (decide (u' = u)) as [->|Hne]; [done|]. rewrite lookup_insert_ne by done. apply H4.
Qed.
Lemma rows_of_delete t m d d' u : rows_of t m d → is_Some (t !! u) → frame (row_keys m u) d d' →
  (∀ c, c ∈ columns m → kv_get (col_key (col_name c) u) d' = None) → kv_get (row_key u) d' = None →
  rows_of (delete u t) m d'.
Proof.
  intros [H1 H2 H3 H4 H5] Hin Hf Hcols Hrow. pose proof (H4 u Hin) as Hu. split.
  - intros u'. destruct (decide (u' = u)) as [->|Hne]; [by rewrite lookup_delete_eq|].
    rewrite lookup_delete_ne by done. apply (holds_value_frame _ _ _ _ _ _ Hf); [|done].
    intros [E|(c & _ & E)]; [by apply row_key_inj in E|].
    pose proof (row_key_space u') as Hs. by rewrite E, col_key_space in Hs.
  - intros col u' Hcol Hu'. destruct (decide (u' = u)) as [->|Hne].
    + rewrite lookup_delete_eq. apply has_column_elem in Hcol as (c & Hc & <-). by apply Hcols.
    + rewrite lookup_delete_ne by done. apply (holds_value_frame _ _ _ _ _ _ Hf); [|by auto].
      intros [E|(c & _ & E)].
      * pose proof (col_key_space col u') as Hs. by rewrite E, row_key_space in Hs.
      * by apply col_key_inj in E as [_ ?].
  - intros k Hk Hg.
    destruct (decide (∃ c, c ∈ columns m ∧ k = col_key (col_name c) u)) as [(c & Hc & ->)|Hno];
      [by rewrite Hcols in Hg by done; destruct Hg|].
    rewrite Hf in Hg.
    + destruct (H3 k Hk Hg) as (col & u' & Hcol & Hu' & ->). exists col, u'. split; [done|]. split; [|done].
      rewrite lookup_delete_ne; [done|]. intros <-. apply Hno. apply has_column_elem in Hcol as (c & Hc & <-). eauto.
    + intros [->|(c & Hc & ->)]; [done|by destruct Hno; eauto].
  - intros u'. destruct (decide (u' = u)) as [->|Hne]; [rewrite lookup_delete_eq; by intros []|].
    rewrite lookup_delete_ne by done. apply H4.
  - intros k b Hk Hg. apply (H5 k b Hk). rewrite <-Hf; [done|].
    pose proof (index_prefix_space k "_uuids" Hk) as Hs. unfold index_space in Hs.
    intros [E|(c & _ & E)]; rewrite E in Hs; [by rewrite row_key_space in Hs|by rewrite col_key_space in Hs].
Qed.

(** ** The collection *)

Record table t (c : Columnar) : Prop := {
  tb_rows : ∃ d, cf c = Some d ∧ rows_of t (meta c) d ∧ kv_get (meta_key (name c)) d ≫= meta_from_slice = Some (meta c);
  tb_count : row_count (meta c) = N.of_nat (size t);
}.
Lemma save_meta_ok n m d : ∃ d', save_meta n (m, d) = (Ok tt, (m, d')) ∧
  kv_get (meta_key n) d' ≫= meta_from_slice = Some m ∧ frame (λ k, space_of k = Some SMeta) d d'.
Proof.
  unfold save_meta. rewrite bind_get_meta. destruct (meta_roundtrip m) as (b & Hb & Hm). rewrite Hb. cbn [ok_or].
  rewrite bind_lift. destruct (put_ok (meta_key n) b m d) as (d' & Hput & Hget & Hf). exists d'. split; [done|].
  rewrite Hget. split; [done|]. eapply frame_mono; [|exact Hf]. intros k ->. apply meta_key_space.
Qed.

(** *** Requests *)

Inductive request :=
| RInsert (now : Z) (rows : list (string * Value))
| RInsertAs (now : Z) (u : string) (row : Value)
| RDelete (now : Z) (u : string).
Inductive answer := AIds (r : result DbError (list string)) | ADone (r : result DbError bool).
Definition serve (r : request) (c : Columnar) : answer * Columnar :=
  match r with
  | RInsert now rows => let '(a, c') := insert_rows now rows c in (AIds a, c')
  | RInsertAs now u row => let '(a, c') := insert_row_with_id now u row c in (ADone a, c')
  | RDelete now u => let '(a, c') := delete_row now u c in (ADone a, c')
  end.
Definition row_objects (rows : list (string * Value)) : list (string * Row) :=
  omap (λ p, match p.2 with Object obj => Some (p.1, obj) | _ => None end) rows.
Definition add_rows (l : list (string * Row)) t : gmap string Row := foldl (λ t p, <[p.1 := p.2]> t) t l.
Definition table_step (r : request) t : answer * gmap string Row :=
  match r with
  | RInsert _ rows => (AIds (Ok (row_objects rows).*1), add_rows (row_objects rows) t)
  | RInsertAs _ u row =>
      match t !! u with
      | Some _ => (ADone (Ok false), t)
      | None =>
          match row with
          | Object obj => (ADone (Ok true), <[u := obj]> t)
          | _ => (ADone (Err (BadRequest "Row must be a JSON object")), t)
          end
      end
  | RDelete _ u =>
      match t !! u with Some _ => (ADone (Ok true), delete u t) | None => (ADone (Ok false), t) end
  end.
(** Identifiers are new, without a colon, as generated ones are; the texts of the rows give the rows back. *)
Definition insertable m t (u : string) (obj : Row) : Prop := Indexes.no_colon u = true ∧ t !! u = None ∧ exact_row m obj.
Definition valid m t (r : request) : Prop :=
  match r with
  | RInsert _ rows =>
      let l := row_objects rows in
      NoDup l.*1 ∧ Forall (λ p, insertable m t p.1 p.2) l ∧ (N.of_nat (size t + length l) < u64_modulus)%N
  | RInsertAs _ u row =>
      match row with
      | Object obj => t !! u = None → insertable m t u obj ∧ (N.of_nat (S (size t)) < u64_modulus)%N
      | _ => True
      end
  | RDelete _ _ => (N.of_nat (size t) < u64_modulus)%N
  end.

Lemma insert_loop_ok rows : ∀ t m d acc, rows_of t m d → NoDup (row_objects rows).*1 →
  Forall (λ p, insertable m t p.1 p.2) (row_objects rows) →
  ∃ d', insert_loop acc rows (m, d) = (Ok (acc ++ (row_objects rows).*1), (m, d')) ∧
    rows_of (add_rows (row_objects rows) t) m d'.
Proof.
  induction rows as [|[u row] rows IH]; intros t m d acc Hr Hnd Hin.
  { exists d. cbn. by rewrite app_nil_r. }
  cbn [insert_loop]. unfold insert_row. cbn [fst snd].
  destruct row as [| | | | |obj]; try (apply IH; done).
  change (row_objects ((u, Object obj) :: rows)) with ((u, obj) :: row_objects rows) in *.
  cbn [fmap list_fmap fst] in *. apply NoDup_cons in Hnd as [Hnew Hnd]. apply Forall_cons in Hin as [(Hu & Hfresh & Hx) Hin].
  destruct (store_row_ok m obj u d Hx Hu) as (d1 & H1 & Hf & Hc & Hrow & Hr1); [exact (t_uuids _ _ _ Hr)|]. cbn [fst snd] in *.
  unfold mbind at 1, M_bind at 1. rewrite (bind_ok _ _ _ _ _ H1). cbn [mret M_ret].
  destruct (IH (<[u:=obj]> t) m d1 (acc ++ [u])) as (d2 & H2 & H3).
  - by apply (rows_of_insert t m d d1).
  - done.
  - rewrite Forall_forall in Hin |- *. intros [u' obj'] Hp. destruct (Hin _ Hp) as (Hu' & Hf' & Hx'). cbn [fst snd] in *.
    split; [done|]. split; [|done]. rewrite lookup_insert_ne; [done|]. intros ->. apply Hnew.
    apply list_elem_of_fmap. by exists (u', obj').
  - exists d2. split; [|done]. rewrite H2. by rewrite <-app_assoc.
Qed.
Lemma add_rows_size l : ∀ t, NoDup l.*1 → Forall (λ p, t !! p.1 = None) l → size (add_rows l t) = size t + length l.
Proof.
  induction l as [|[u obj] l IH]; intros t Hnd Hf; [by cbn; rewrite Nat.add_0_r|].
  cbn [fmap list_fmap fst] in Hnd. apply NoDup_cons in Hnd as [Hnew Hnd]. apply Forall_cons in Hf as [Hu Hf].
  change (add_rows ((u, obj) :: l) t) with (add_rows l (<[u:=obj]> t)). cbn [fst snd] in *. rewrite IH.
  - rewrite map_size_insert_None by done. cbn. lia.
  - done.
  - rewrite Forall_forall in Hf |- *. intros [u' obj'] Hp. cbn [fst]. rewrite lookup_insert_ne; [by apply (Hf _ Hp)|].
    intros ->. apply Hnew. apply list_elem_of_fmap. by exists (u', obj').
Qed.
(** An operation that ends by storing new metadata of the same schema. *)
Lemma saved_table t (c : Columnar) d m n : rows_of t (meta c) d → columns m = columns (meta c) → compression m = compression (meta c) →
  row_count m = N.of_nat (size t) →
  ∃ d', save_meta (name c) (m, d) = (Ok tt, (m, d')) ∧ table t (mkColumnar (name c) n (Some d') m).
Proof.
  intros Hr Hc Hp Hn. destruct (save_meta_ok (name c) m d) as (d' & Hs & Hm & Hf). exists d'. split; [done|].
  split; [|done]. exists d'. split; [done|]. split; [|done].
  apply (rows_of_frame t m d d' Hf). by apply (rows_of_meta t (meta c)).
Qed.
Lemma has_row_ok t m d u : rows_of t m d → has_row u (m, d) = (Ok (bool_decide (is_Some (t !! u))), (m, d)).
Proof.
  intros Hr. unfold has_row. rewrite bind_db. cbn. pose proof (t_rows _ _ _ Hr u) as H.
  destruct (t !! u) as [obj|]; cbn in H; [destruct H as (b & -> & _)|rewrite H]; by rewrite ?bool_decide_true, ?bool_decide_false by naive_solver.
Qed.
Lemma insert_rows_ok now rows t (c : Columnar) : table t c → valid (meta c) t (RInsert now rows) →
  ∃ c' : Columnar, insert_rows now rows c = (Ok (row_objects rows).*1, c') ∧ table (add_rows (row_objects rows) t) c' ∧
    columns (meta c') = columns (meta c).
Proof.
  intros [(d & Hcf & Hr & Hm) Hn] (Hnd & Hin & Hsz). unfold insert_rows.
  destruct rows as [|p rows']; [exists c; split; [done|]; split; [by split; eauto|done]|].
  set (rows := p :: rows') in *. unfold with_cf. rewrite Hcf.
  destruct (insert_loop_ok rows t (meta c) d [] Hr Hnd Hin) as (d1 & H1 & Hr1).
  rewrite (bind_ok _ _ _ _ _ H1). rewrite bind_get_meta, bind_set_meta. cbn [app].
  assert (size (add_rows (row_objects rows) t) = size t + length (row_objects rows)) as Hsize.
  { apply add_rows_size; [done|]. eapply Forall_impl; [exact Hin|]. by intros q (_ & ? & _). }
  edestruct (saved_table (add_rows (row_objects rows) t) c d1
    (touched now (with_count (wrap64 (row_count (meta c) + N.of_nat (length (row_objects rows).*1))) (meta c))))
    as (d2 & H2 & Ht); [done..| |].
  { cbn [touched with_count row_count]. rewrite Hn, length_fmap, wrap64_small by lia. lia. }
  rewrite (bind_ok _ _ _ _ _ H2). cbn [mret M_ret]. eexists. split; [done|]. by split.
Qed.
Lemma insert_row_with_id_ok now u row t (c : Columnar) : table t c → valid (meta c) t (RInsertAs now u row) →
  ∃ c', (ADone (insert_row_with_id now u row c).1, (insert_row_with_id now u row c).2) = ((table_step (RInsertAs now u row) t).1, c') ∧
    table (table_step (RInsertAs now u row) t).2 c' ∧ columns (meta c') = columns (meta c).
Proof.
  intros Htab Hv. destruct (Htab) as [(d & Hcf & Hr & Hm) Hn]. unfold insert_row_with_id, with_cf, table_step. rewrite Hcf.
  rewrite (bind_ok _ _ _ _ _ (has_row_ok t (meta c) d u Hr)). unfold valid in Hv.
  destruct c as [nm cfn cfo mm]. cbn [name cf_name cf meta] in *. subst cfo.
  destruct (t !! u) as [old|] eqn:Hu; cbn [bool_decide].
  { rewrite bool_decide_true by eauto. cbn. eexists. done. }
  rewrite bool_decide_false by by intros []. destruct row as [| | | | |obj]; try (cbn; eexists; done).
  destruct Hv as [(Hu' & Hfresh & Hx) Hsz]; [done|].
  destruct (store_row_ok mm obj u d Hx Hu') as (d1 & H1 & Hf & Hc & Hrow & Hr1); [exact (t_uuids _ _ _ Hr)|].
  rewrite (bind_ok _ _ _ _ _ H1), bind_get_meta, bind_set_meta.
  edestruct (saved_table (<[u:=obj]> t) (mkColumnar nm cfn (Some d) mm) d1 (touched now (with_count (wrap64 (row_count mm + 1)) mm)))
    as (d2 & H2 & Ht); [by apply (rows_of_insert t mm d d1)|done..| |].
  { cbn. rewrite Hn, map_size_insert_None by done. rewrite wrap64_small by lia. lia. }
  cbn [name] in H2. rewrite (bind_ok _ _ _ _ _ H2). cbn. eexists. split; [done|]. by split.
Qed.
Lemma delete_keys_ok u m l d : ∃ d',
  for_each (λ col, write_with store_error (Del (col_key (col_name col) u))) l (m, d) = (Ok tt, (m, d')) ∧
  frame (λ k, ∃ c, c ∈ l ∧ k = col_key (col_name c) u) d d' ∧ ∀ c, c ∈ l → kv_get (col_key (col_name c) u) d' = None.
Proof.
  apply (for_each_ok _ (λ done d', frame (λ k, ∃ c, c ∈ l ∧ k = col_key (col_name c) u) d d' ∧
    ∀ c, c ∈ done → kv_get (col_key (col_name c) u) d' = None)); [|by split; [apply frame_refl|intros c ?%elem_of_nil]].
  intros done c d1 Hc [Hf Hd]. destruct (del_ok store_error (col_key (col_name c) u) m d1) as (d2 & H1 & H2 & H3).
  exists d2. split; [done|]. split.
  - apply (frame_trans _ _ d1); [done|]. eapply frame_mono; [|exact H3]. eauto.
  - intros c' [Hc'|Hc']%elem_of_app; [|by apply list_elem_of_singleton in Hc' as ->].
    destruct (decide (col_key (col_name c') u = col_key (col_name c) u)) as [->|Hne]; [done|]. rewrite H3 by done. by apply Hd.
Qed.
Lemma delete_row_ok now u t (c : Columnar) : table t c → valid (meta c) t (RDelete now u) →
  ∃ c', (ADone (delete_row now u c).1, (delete_row now u c).2) = ((table_step (RDelete now u) t).1, c') ∧
    table (table_step (RDelete now u) t).2 c' ∧ columns (meta c') = columns (meta c).
Proof.
  intros Htab Hv. destruct (Htab) as [(d & Hcf & Hr & Hm) Hn]. unfold delete_row, with_cf, table_step. rewrite Hcf.
  rewrite (bind_ok _ _ _ _ _ (has_row_ok t (meta c) d u Hr)). cbn in Hv.
  destruct c as [nm cfn cfo mm]. cbn [name cf_name cf meta] in *. subst cfo.
  destruct (t !! u) as [obj|] eqn:Hu.
  2: { rewrite bool_decide_false by by intros []. cbn. eexists. done. }
  rewrite bool_decide_true by eauto. rewrite bind_get_meta.
  destruct (delete_keys_ok u mm (columns mm) d) as (d1 & H1 & Hf1 & Hn1). rewrite (bind_ok _ _ _ _ _ H1).
  destruct (del_ok store_error (row_key u) mm d1) as (d2 & H2 & Hn2 & Hf2). rewrite (bind_ok _ _ _ _ _ H2), bind_set_meta.
  assert (rows_of (delete u t) mm d2) as Hr2.
  { apply (rows_of_delete t mm d d2); [done|by eauto| | |done].
    - apply (frame_trans _ _ d1); [eapply frame_mono; [|exact Hf1]; by right|]. eapply frame_mono; [|exact Hf2]. by left.
    - intros c Hc. rewrite Hf2; [by apply Hn1|]. intros E. pose proof (col_key_space (col_name c) u) as Hs.
      by rewrite E, row_key_space in Hs. }
  assert (size (delete u t) = size t - 1 ∧ 0 < size t) as [Hs1 Hs2].
  { rewrite map_size_delete_Some by eauto. split; [lia|].
    destruct (size t) eqn:E; [|lia]. apply map_size_empty_iff in E as ->. by rewrite lookup_empty in Hu. }
  edestruct (saved_table (delete u t) (mkColumnar nm cfn (Some d) mm) d2
    (touched now (with_count (if (0 <? row_count mm)%N then row_count mm - 1 else row_count mm)%N mm)))
    as (d3 & H3 & Ht); [done..| |].
  { cbn. rewrite Hn. destruct (N.ltb_spec 0 (N.of_nat (size t))); lia. }
  cbn [name] in H3. rewrite (bind_ok _ _ _ _ _ H3). cbn. eexists. split; [done|]. by split.
Qed.

(** *** Reading *)

Definition uuids_of t : list string := sort_by str_cmp (map_to_list t).*1.
Definition rows_in_order t : list Row := omap (t !!.) (uuids_of t).
Definition project (cols : list string) (obj : Row) : Value :=
  Object (foldl (λ o col, OMap.insert col (field obj col) o) [] cols).
Lemma strip_key_prefix p k : strip_prefix p (p +:+ k) = k.
Proof.
  unfold strip_prefix. rewrite str_length_app. replace (_ + _ - _) with (String.length k) by lia. apply substring_app_r.
Qed.
Lemma scan_prefix_wf p d : OMap.wf (Indexes.scan_prefix p d).
Proof.
  unfold Indexes.scan_prefix. assert (OMap.wf (kv_from p d)) as H.
  { rewrite kv_from_view. apply CollectionProps.wf_filter, kv_view_wf. }
  induction (kv_from p d) as [|[k v] l IH]; [done|]. apply OMap.wf_cons in H as [Hl Hlt]. cbn [take_while fst].
  destruct (starts_with p k); [|apply OMap.wf_nil]. apply OMap.wf_cons. split; [by apply IH|].
  intros k' v' [Hin _]%CollectionProps.take_while_elem. by eapply Hlt.
Qed.
(** The keys under a prefix, without it, are in order. *)
Lemma str_cmp_under_prefix p a b : str_cmp (p +:+ a) (p +:+ b) = str_cmp a b.
Proof.
  induction p as [|x p IH]; [done|]. change (str_cmp (String x (p +:+ a)) (String x (p +:+ b)) = str_cmp a b).
  rewrite <-IH. unfold str_cmp. cbn [String.compare]. assert (Ascii.compare x x = Eq) as ->; [|done].
  apply cmp_refl, _.
Qed.
Lemma stripped_sorted p d : StronglySorted (cmp_le str_cmp) ((λ x, strip_prefix p x.1) <$> Indexes.scan_prefix p d).
Proof.
  pose proof (scan_prefix_wf p d) as Hw. pose proof (CollectionProps.scan_prefix_all p d) as Hp.
  induction (Indexes.scan_prefix p d) as [|[k v] l IH]; [constructor|].
  apply OMap.wf_cons in Hw as [Hw Hlt]. apply Forall_cons in Hp as [Hk Hp]. cbn [fmap list_fmap fst].
  constructor; [by apply IH|]. apply Forall_fmap. rewrite Forall_forall in Hp |- *. intros [k' v'] Hin.
  pose proof (Hp _ Hin) as Hk'. pose proof (Hlt _ _ Hin) as Hl. cbn [fst] in *.
  apply starts_with_split in Hk as [r ->], Hk' as [r' ->]. unfold cmp_le. cbn [compose fst]. rewrite !strip_key_prefix. rewrite str_cmp_under_prefix in Hl.
  by rewrite Hl.
Qed.
(** A prefix under which there is one key for each row. *)
Lemma scan_uuids t p d : (∀ r, is_Some (kv_get (p +:+ r) d) ↔ is_Some (t !! r)) →
  ((λ x, strip_prefix p x.1) <$> Indexes.scan_prefix p d) = uuids_of t.
Proof.
  intros Hr. apply (sorted_unique str_cmp); [apply stripped_sorted|apply sort_by_sorted, _|].
  unfold uuids_of. rewrite sort_by_perm. apply NoDup_Permutation.
  - pose proof (scan_prefix_wf p d) as Hw. pose proof (CollectionProps.scan_prefix_all p d) as Hp.
    induction (Indexes.scan_prefix p d) as [|[k v] l IH]; [constructor|].
    apply OMap.wf_cons in Hw as [Hw Hlt]. apply Forall_cons in Hp as [Hk Hp]. cbn [fmap list_fmap fst].
    constructor; [|by apply IH]. intros ([k' v'] & E & Hin)%list_elem_of_fmap. cbn [fst] in E.
    rewrite Forall_forall in Hp. pose proof (Hp _ Hin) as Hk'. pose proof (Hlt _ _ Hin) as Hl. cbn [fst] in *.
    apply starts_with_split in Hk as [r ->], Hk' as [r' ->]. rewrite !strip_key_prefix in E. subst.
    by rewrite str_cmp_refl in Hl.
  - apply NoDup_fst_map_to_list.
  - intros u. rewrite !list_elem_of_fmap. split.
    + intros ([k b] & -> & [Hk Hg]%CollectionProps.scan_prefix_elem). apply starts_with_split in Hk as [r ->].
      cbn [fst]. rewrite strip_key_prefix. destruct (proj1 (Hr r)) as [obj E]; [eauto|]. exists (r, obj).
      split; [done|]. by apply elem_of_map_to_list.
    + intros ([u' obj] & -> & H%elem_of_map_to_list). destruct (proj2 (Hr u')) as [b Hb]; [eauto|].
      exists (p +:+ u', b). cbn [fst]. rewrite strip_key_prefix. split; [done|].
      apply CollectionProps.scan_prefix_elem. split; [apply starts_with_app|done].
Qed.
Lemma row_uuids_table t m d : rows_of t m d → row_uuids d = uuids_of t.
Proof.
  intros Hr. apply scan_uuids. intros u. pose proof (t_rows _ _ _ Hr u) as H. unfold row_key in H.
  destruct (t !! u) as [obj|]; cbn in H; [destruct H as (b & -> & _); naive_solver|]. rewrite H. split; by intros [].
Qed.
Lemma elem_of_uuids t u : u ∈ uuids_of t ↔ is_Some (t !! u).
Proof.
  unfold uuids_of. rewrite elem_of_sort_by, list_elem_of_fmap. split.
  - intros ([u' obj] & -> & H%elem_of_map_to_list). eauto.
  - intros [obj H]. exists (u, obj). split; [done|]. by apply elem_of_map_to_list.
Qed.
Lemma stored_value_ok t m d col u obj : rows_of t m d → has_column m col = true → t !! u = Some obj →
  stored_value m d col u = Ok (field obj col).
Proof.
  intros Hr Hc Hu. pose proof (t_columns _ _ _ Hr col u Hc (t_ids _ _ _ Hr u (mk_is_Some _ _ Hu))) as H.
  rewrite Hu in H. destruct H as (b & Hb & Hv). unfold stored_value. by rewrite Hb.
Qed.
Lemma collect_ok {A B} (f : A → result DbError B) (g : A → B) l : (∀ x, x ∈ l → f x = Ok (g x)) → collect f l = Ok (g <$> l).
Proof.
  induction l as [|x l IH]; intros H; [done|]. cbn [collect]. rewrite (H x) by (by left). cbn [result_bind].
  rewrite IH by (intros y Hy; apply H; by right). done.
Qed.
Lemma projected_ok t m d cols u obj : rows_of t m d → Forall (λ col, has_column m col = true) cols → t !! u = Some obj →
  projected m d cols u = Ok (project cols obj).
Proof.
  intros Hr Hc Hu. rewrite Forall_forall in Hc. unfold projected.
  rewrite (collect_ok _ (λ col, (col, field obj col))) by (intros col Hin; by rewrite (stored_value_ok t m d col u obj) by auto).
  cbn [result_bind]. unfold project. do 2 f_equal. generalize (@nil (string * Value)). clear.
  induction cols as [|col cols IH]; [done|]. intros o. cbn. apply IH.
Qed.
(** Rows given by identifiers of the table. *)
Definition row_at t (u : string) : Row := default [] (t !! u).
Lemma rows_at t us : Forall (λ u, is_Some (t !! u)) us → omap (t !!.) us = row_at t <$> us.
Proof.
  induction 1 as [|u us [obj Hu] _ IH]; [done|]. cbn [fmap list_fmap]. unfold row_at at 1. rewrite Hu. cbn.
  rewrite Hu. cbn. by f_equal.
Qed.
Lemma read_columns_ok t (c : Columnar) cols us : table t c → Forall (λ col, has_column (meta c) col = true) cols →
  Forall (λ u, is_Some (t !! u)) us → read_columns cols (Some us) c = Ok (project cols ∘ row_at t <$> us).
Proof.
  intros [(d & Hcf & Hr & _) _] Hc Hu. unfold read_columns, reading. rewrite Hcf.
  destruct (List.find _ cols) as [col|] eqn:E.
  { apply find_some in E as [Hin E]. rewrite Forall_forall in Hc. apply list_elem_of_In in Hin.
    by rewrite (Hc _ Hin) in E. }
  apply collect_ok. intros u Hin. rewrite Forall_forall in Hu. destruct (Hu u Hin) as [obj Ho].
  rewrite (projected_ok t _ d cols u obj) by done. cbn. unfold row_at. by rewrite Ho.
Qed.
Lemma read_all_ok t (c : Columnar) cols : table t c → Forall (λ col, has_column (meta c) col = true) cols →
  read_columns cols None c = Ok (project cols <$> rows_in_order t).
Proof.
  intros Ht Hc. assert (Forall (λ u, is_Some (t !! u)) (uuids_of t)) as Hall.
  { apply Forall_forall. intros u. apply elem_of_uuids. }
  transitivity (read_columns cols (Some (uuids_of t)) c).
  - destruct Ht as [(d & Hcf & Hr & _) _]. unfold read_columns, reading. rewrite Hcf.
    by rewrite (row_uuids_table t (meta c) d Hr).
  - rewrite (read_columns_ok t c cols) by done. unfold rows_in_order. rewrite rows_at by done.
    by rewrite <-list_fmap_compose.
Qed.

(** ** The theorem *)

Fixpoint serve_all (rs : list request) (c : Columnar) : list answer * Columnar :=
  match rs with
  | [] => ([], c)
  | r :: rs' => let '(a, c1) := serve r c in let '(l, c2) := serve_all rs' c1 in (a :: l, c2)
  end.
Fixpoint table_all (rs : list request) t : list answer * gmap string Row :=
  match rs with
  | [] => ([], t)
  | r :: rs' => let '(a, t1) := table_step r t in let '(l, t2) := table_all rs' t1 in (a :: l, t2)
  end.
Fixpoint valid_all m t (rs : list request) : Prop :=
  match rs with [] => True | r :: rs' => valid m t r ∧ valid_all m (table_step r t).2 rs' end.
Lemma valid_columns m m' t r : columns m = columns m' → valid m t r → valid m' t r.
Proof.
  intros E. assert (∀ obj, exact_row m obj → exact_row m' obj) as Hx.
  { intros obj [H1 H2]. split; [done|]. by rewrite <-E. }
  destruct r as [now rows|now u row|now u]; cbn [valid]; [|destruct row; try done|done].
  - intros (H1 & H2 & H3). split_and!; [done| |done]. eapply Forall_impl; [exact H2|]. intros p (? & ? & ?). split_and!; auto.
  - intros H Hu. destruct (H Hu) as [(? & ? & ?) ?]. split_and!; auto. split_and!; auto.
Qed.
Lemma valid_all_columns m m' rs : columns m = columns m' → ∀ t, valid_all m t rs → valid_all m' t rs.
Proof.
  intros E. induction rs as [|r rs IH]; intros t; [done|]. intros [H1 H2]. split; [by apply (valid_columns m)|by apply IH].
Qed.
Lemma serve_ok r t (c : Columnar) : table t c → valid (meta c) t r →
  ∃ c', serve r c = ((table_step r t).1, c') ∧ table (table_step r t).2 c' ∧ columns (meta c') = columns (meta c).
Proof.
  intros Ht Hv. destruct r as [now rows|now u row|now u].
  - destruct (insert_rows_ok now rows t c Ht Hv) as (c' & H1 & H2 & H3). exists c'. cbn [serve]. by rewrite H1.
  - destruct (insert_row_with_id_ok now u row t c Ht Hv) as (c' & H1 & H2 & H3). exists c'. cbn [serve].
    split; [|done]. by destruct (insert_row_with_id now u row c).
  - destruct (delete_row_ok now u t c Ht Hv) as (c' & H1 & H2 & H3). exists c'. cbn [serve].
    split; [|done]. by destruct (delete_row now u c).
Qed.
Lemma serve_all_ok rs : ∀ t (c : Columnar), table t c → valid_all (meta c) t rs →
  ∃ c', serve_all rs c = ((table_all rs t).1, c') ∧ table (table_all rs t).2 c' ∧ columns (meta c') = columns (meta c).
Proof.
  induction rs as [|r rs IH]; intros t c Ht Hv; [by exists c|]. destruct Hv as [Hr Hrs].
  destruct (serve_ok r t c Ht Hr) as (c1 & H1 & H2 & H3).
  destruct (IH _ c1 H2) as (c2 & H4 & H5 & H6); [by apply (valid_all_columns (meta c))|].
  exists c2. cbn [serve_all table_all]. rewrite H1, H4. destruct (table_step r t) as [a t1]. cbn [snd fst] in *.
  destruct (table_all rs t1) as [l t2]. cbn [snd fst] in *. split; [done|]. split; [done|]. congruence.
Qed.
Lemma new_table now n db_name d cols ct : kv_view d = [] →
  ∃ c, new now n db_name (Some d) cols ct = (Ok c, cf c) ∧ table ∅ c ∧ columns (meta c) = cols ∧ name c = n.
Proof.
  intros Hd. unfold new, with_cf. cbn [cf name meta cf_name].
  assert (∀ k, kv_get k d = None) as Hnone. { intros k. by rewrite kv_get_view, Hd. }
  destruct (saved_table ∅ (mkColumnar n (family db_name n) (Some d) (mkMeta n cols 0 ct now now)) d
    (mkMeta n cols 0 ct now now) (family db_name n)) as (d' & Hs & Ht); [|done..|].
  { split; try (intros; rewrite lookup_empty; cbn; apply Hnone).
    - intros k _ [b Hb]. by rewrite Hnone in Hb.
    - intros u [obj Ho]. by rewrite lookup_empty in Ho.
    - intros k b _ Hb. by rewrite Hnone in Hb. }
  cbn [name] in Hs. rewrite Hs. eexists. split; [done|]. by split.
Qed.
Lemma with_cf_names {A} (f : M A) (c : Columnar) : name (with_cf f c).2 = name c ∧ cf_name (with_cf f c).2 = cf_name c.
Proof. unfold with_cf. destruct (cf c) as [d|]; [|done]. by destruct (f (meta c, d)) as [r [m' d']]. Qed.
Lemma serve_names r (c : Columnar) : name (serve r c).2 = name c ∧ cf_name (serve r c).2 = cf_name c.
Proof.
  destruct r as [now rows|now u row|now u]; cbn [serve].
  - unfold insert_rows. destruct rows; [done|]. match goal with |- context [with_cf ?f c] => pose proof (with_cf_names f c) as H; by destruct (with_cf f c) end.
  - unfold insert_row_with_id. match goal with |- context [with_cf ?f c] => pose proof (with_cf_names f c) as H; by destruct (with_cf f c) end.
  - unfold delete_row. match goal with |- context [with_cf ?f c] => pose proof (with_cf_names f c) as H; by destruct (with_cf f c) end.
Qed.
Lemma serve_all_names rs : ∀ (c : Columnar), name (serve_all rs c).2 = name c ∧ cf_name (serve_all rs c).2 = cf_name c.
Proof.
  induction rs as [|r rs IH]; intros c; [done|]. cbn [serve_all]. destruct (serve_names r c) as [H1 H2].
  destruct (serve r c) as [a c1]. destruct (IH c1) as [H3 H4]. destruct (serve_all rs c1) as [l c2]. cbn [snd] in *.
  split; congruence.
Qed.

(** C9: A columnar collection is a table: from its creation on an empty column family, inserting
    rows, inserting rows under given identifiers and deleting rows give the answers of a table of
    rows by identifier, whatever indexes its columns have; the count is the number of rows, reading
    columns gives the projections of the rows in the order of their identifiers, and loading the
    collection again gives the same collection. *)
Theorem columnar_refines_table now n db_name d cols ct rs :
  kv_view d = [] → valid_all (mkMeta n cols 0 ct now now) ∅ rs →
  ∃ c0 c, new now n db_name (Some d) cols ct = (Ok c0, cf c0) ∧
    serve_all rs c0 = ((table_all rs ∅).1, c) ∧
    count c = N.of_nat (size (table_all rs ∅).2) ∧
    (∀ ps, Forall (λ p, p ∈ col_name <$> cols) ps →
       read_columns ps None c = Ok (project ps <$> rows_in_order (table_all rs ∅).2)) ∧
    load n db_name (cf c) = Ok c.
Proof.
  intros Hd Hv. destruct (new_table now n db_name d cols ct Hd) as (c0 & Hnew & Ht & Hcols & Hn).
  destruct (serve_all_ok rs ∅ c0 Ht) as (c & Hs & Hc & Hk); [by eapply valid_all_columns; [|exact Hv]|].
  exists c0, c. split; [done|]. split; [done|]. split; [apply Hc|]. split.
  - intros ps Hps. apply read_all_ok; [done|]. eapply Forall_impl; [exact Hps|]. intros p (x & -> & Hx)%list_elem_of_fmap.
    apply has_column_elem. exists x. by rewrite Hk, Hcols.
  - destruct (serve_all_names rs c0) as [H1 H2]. rewrite Hs in H1, H2. cbn [snd] in H1, H2.
    assert (cf_name c0 = family db_name n) as Hfam.
    { revert Hnew. unfold new. match goal with |- context [with_cf ?f ?x] => pose proof (with_cf_names f x) as H; destruct (with_cf f x) as [r y] end.
      cbn in H. destruct r; intros [= <-]. naive_solver. }
    destruct Hc as [(d' & Hcf & _ & Hm) _]. unfold load. rewrite Hcf. rewrite H1, Hn in Hm.
    destruct (kv_get (meta_key n) d') as [b|]; [|done]. cbn in Hm. rewrite Hm.
    destruct c as [nm cfn cfo mm]. cbn in *. congruence.
Qed.

(** ** Truncating *)

Lemma delete_keys_done e m (l : list (string * string)) d : ∃ d',
  for_each (λ p, write_with e (Del p.1)) l (m, d) = (Ok tt, (m, d')) ∧ (∀ k, k ∈ l.*1 → kv_get k d' = None) ∧
  ∀ k, kv_get k d = None → kv_get k d' = None.
Proof.
  apply (for_each_ok _ (λ done d', (∀ k, k ∈ done.*1 → kv_get k d' = None) ∧ ∀ k, kv_get k d = None → kv_get k d' = None));
    [|split; [by intros k ?%elem_of_nil|done]].
  intros done p d1 _ [H1 H2]. destruct (del_ok e p.1 m d1) as (d2 & Hd & Hk & Hf). exists d2. split; [done|].
  assert (∀ k, kv_get k d1 = None → kv_get k d2 = None) as Hkeep.
  { intros k Hn. destruct (decide (k = p.1)) as [->|Hne]; [done|]. by rewrite Hf. }
  split; [|auto]. intros k. rewrite fmap_app, elem_of_app. intros [Hin|Hin]; [auto|]. cbn in Hin. apply list_elem_of_singleton in Hin as ->. done.
Qed.
Lemma delete_from_ok p m d : ∃ d', delete_from p (m, d) = (Ok tt, (m, d')) ∧ (∀ k, str_leb p k = true → kv_get k d' = None) ∧
  ∀ k, kv_get k d = None → kv_get k d' = None.
Proof.
  unfold delete_from. rewrite bind_db. destruct (delete_keys_done (InternalError "Failed to delete") m (kv_from p d) d) as (d' & H1 & H2 & H3).
  exists d'. split; [done|]. split; [|done]. intros k Hk. destruct (kv_get k d) as [v|] eqn:E; [|auto]. apply H2.
  apply list_elem_of_fmap. exists (k, v). split; [done|]. rewrite kv_from_view. apply list_elem_of_filter. split; [done|].
  rewrite kv_get_view in E. by apply OMap.get_elem in E; [|apply kv_view_wf].
Qed.
(** C39: Truncating a columnar collection succeeds, and after it the collection can no longer be
    loaded: the deletion of the columns' data has no end but that of the column family and takes the
    metadata with it, and the new metadata is stored under another key. *)
Theorem truncate_unloadable (c : Columnar) d db_name : cf c = Some d →
  ∃ c', truncate c = (Ok tt, c') ∧ count c' = 0%N ∧
    load (name c) db_name (cf c') = Err (CollectionNotFound ("Columnar collection metadata '" +:+ (name c +:+ "' not found"))).
Proof.
  intros Hcf. unfold truncate, with_cf. rewrite Hcf.
  destruct (delete_from_ok COL_DATA_PREFIX (meta c) d) as (d1 & H1 & G1 & K1). rewrite (bind_ok _ _ _ _ _ H1).
  destruct (delete_from_ok COL_ROW_PREFIX (meta c) d1) as (d2 & H2 & G2 & K2). rewrite (bind_ok _ _ _ _ _ H2).
  destruct (delete_from_ok "idx:" (meta c) d2) as (d3 & H3 & G3 & K3). rewrite (bind_ok _ _ _ _ _ H3).
  rewrite bind_get_meta, bind_set_meta. destruct (meta_roundtrip (with_count 0 (meta c))) as (b & Hb & _). rewrite Hb. cbn [ok_or].
  rewrite bind_lift. unfold write_with. cbn [fst snd]. destruct (kv_write_ok [Put "meta" b] d3) as [d4 Hd]. rewrite Hd.
  eexists. split; [done|]. split; [done|]. cbn [cf]. unfold load. assert (kv_get (meta_key (name c)) d4 = None) as ->; [|done].
  rewrite (Collection.kv_get_write _ _ _ _ Hd). cbn. rewrite decide_False by done. apply K3, K2, G1. reflexivity.
Qed.
End Table.
End ColumnarProps.
