(* ===== verification/ColumnarFilters.v ===== *)
(** * Columnar collections: filters, indexes and aggregates

    What a filter selects, against the meaning of the filter on a row; that an index that has been
    built selects what a full scan selects; and that the aggregates computed by iterating over the
    stored values are those of the column that is read. *)

From S2P Require Import Prelude Text Json Transaction Codec Kv F64 Document Indexes SdbqlLexer SdbqlValue.
From S2P Require Import Collection CollectionProps Columnar ColumnarProps.
Import Json Codec Columnar ColumnarProps.

Module ColumnarFilters.

(** ** Ranges of positions *)

Lemma range_succ n : range (N.succ n) = range n ++ [n].
Proof. unfold range. rewrite N2Nat.inj_succ, seq_S, fmap_app. cbn. by rewrite N2Nat.id. Qed.
Lemma range_S n : range (N.of_nat (S n)) = range (N.of_nat n) ++ [N.of_nat n].
Proof. rewrite Nat2N.inj_succ. apply range_succ. Qed.
Lemma elem_of_range i n : i ∈ range n ↔ (i < n)%N.
Proof.
  unfold range. rewrite list_elem_of_fmap. setoid_rewrite elem_of_seq. split; [intros (k & -> & ?); lia|].
  intros H. exists (N.to_nat i). lia.
Qed.
Lemma range_length n : length (range n) = N.to_nat n.
Proof. unfold range. by rewrite length_fmap, length_seq. Qed.
Lemma mem_spec l i : mem l i = true ↔ i ∈ l.
Proof.
  unfold mem. rewrite existsb_exists. setoid_rewrite N.eqb_eq. setoid_rewrite <-list_elem_of_In. naive_solver.
Qed.
Lemma In_filter {A} (p : A → bool) x l : x ∈ List.filter p l ↔ x ∈ l ∧ p x = true.
Proof. rewrite !list_elem_of_In. apply filter_In. Qed.
Definition increasing (l : list N) : Prop := StronglySorted N.lt l.
Lemma range_increasing n : increasing (range n).
Proof.
  induction n as [|n IH] using N.peano_ind; [constructor|]. rewrite range_succ. unfold increasing.
  assert (∀ i, i ∈ range n → (i < n)%N) as Hlt by (intros i; apply elem_of_range). revert Hlt IH.
  induction (range n) as [|x l IHl]; intros Hlt Hs; [repeat constructor|]. apply StronglySorted_inv in Hs as [Hs Hx].
  cbn [app]. constructor; [apply IHl; [|done]; intros i Hi; apply Hlt; by right|].
  apply Forall_app. split; [done|]. repeat constructor. apply Hlt. by left.
Qed.
Lemma filter_increasing p l : increasing l → increasing (List.filter p l).
Proof.
  induction 1 as [|x l Hl IH Hx]; [constructor|]. cbn. destruct (p x); [|done]. constructor; [done|].
  rewrite Forall_forall in Hx |- *. intros y [Hy _]%In_filter. auto.
Qed.
Lemma increasing_unique l1 l2 : increasing l1 → increasing l2 → (∀ i, i ∈ l1 ↔ i ∈ l2) → l1 = l2.
Proof.
  intros H1 H2 He. assert (∀ l, increasing l → StronglySorted (cmp_le N.compare) l ∧ NoDup l) as Hi.
  { induction 1 as [|x l Hl [IH1 IH2] Hx]; [by split; constructor|]. rewrite Forall_forall in Hx. split; constructor; try done.
    - apply Forall_forall. intros y Hy. specialize (Hx y Hy). unfold cmp_le. rewrite N.compare_le_iff. lia.
    - intros Hin. specialize (Hx _ Hin). lia. }
  destruct (Hi _ H1), (Hi _ H2). apply (sorted_unique N.compare); [done..|]. by apply NoDup_Permutation.
Qed.
Lemma dedup_spec l : StronglySorted (cmp_le N.compare) l → increasing (dedup l) ∧ ∀ i, i ∈ dedup l ↔ i ∈ l.
Proof.
  induction 1 as [|x l Hl [IH1 IH2] Hx]; [by split; [constructor|]|]. rewrite Forall_forall in Hx.
  destruct l as [|y l']; [by split; [repeat constructor|]|]. cbn [dedup]. fold (dedup (y :: l')).
  destruct (N.eqb_spec x y) as [->|Hne].
  - split; [done|]. intros i. rewrite IH2. set_solver.
  - split.
    + constructor; [done|]. apply Forall_forall. intros i Hi%IH2.
      assert (cmp_le N.compare x y) as Hxy by (apply Hx; by left).
      assert (cmp_le N.compare y i) as Hyi.
      { apply elem_of_cons in Hi as [->|Hi]; [unfold cmp_le; by rewrite N.compare_refl|].
        apply StronglySorted_inv in Hl as [_ Hl]. rewrite Forall_forall in Hl. auto. }
      unfold cmp_le in *. rewrite N.compare_le_iff in *. lia.
    + intros i. rewrite !elem_of_cons, IH2. by rewrite elem_of_cons.
Qed.
Lemma sort_dedup_spec l : increasing (sort_dedup l) ∧ ∀ i, i ∈ sort_dedup l ↔ i ∈ l.
Proof.
  destruct (dedup_spec (sort_by N.compare l)) as [H1 H2]; [apply sort_by_sorted, _|]. split; [done|].
  intros i. unfold sort_dedup. by rewrite H2, elem_of_sort_by.
Qed.
(** A set of positions below [n], in order. *)
Lemma sort_dedup_range l n : Forall (λ i, (i < n)%N) l → sort_dedup l = List.filter (mem l) (range n).
Proof.
  intros H. destruct (sort_dedup_spec l) as [H1 H2]. apply increasing_unique; [done|by apply filter_increasing, range_increasing|].
  intros i. rewrite H2, In_filter, mem_spec, elem_of_range. rewrite Forall_forall in H. naive_solver.
Qed.
Lemma filter_filter {A} (p q : A → bool) l : List.filter p (List.filter q l) = List.filter (λ x, q x && p x) l.
Proof. induction l as [|x l IH]; [done|]. cbn. destruct (q x); cbn; [destruct (p x)|]; by rewrite IH. Qed.
Lemma filter_eq_range (p q : N → bool) n : (∀ i, (i < n)%N → p i = q i) → List.filter p (range n) = List.filter q (range n).
Proof.
  intros H. assert (∀ i, i ∈ range n → p i = q i) as Hr by (intros i; rewrite elem_of_range; auto). revert Hr.
  generalize (range n). induction l as [|x l IH]; [done|]. intros Hr. cbn. rewrite (Hr x) by (by left).
  rewrite IH by (intros i Hi; apply Hr; by right). done.
Qed.
Lemma fmap_sublist_of {A B} (f : A → B) l1 l2 : l1 `sublist_of` l2 → (f <$> l1) `sublist_of` (f <$> l2).
Proof. induction 1; cbn; by constructor. Qed.
(** The elements at selected positions. *)
Section Positions.
Context {A : Type} (dflt : A).
Definition nth_or (l : list A) (i : N) : A := default dflt (l !! N.to_nat i).
Lemma nth_or_app l x i : (i < N.of_nat (length l))%N → nth_or (l ++ [x]) i = nth_or l i.
Proof. intros H. unfold nth_or. by rewrite lookup_app_l by lia. Qed.
Lemma nth_or_last l x : nth_or (l ++ [x]) (N.of_nat (length l)) = x.
Proof. unfold nth_or. rewrite Nat2N.id, lookup_app_r, Nat.sub_diag by lia. done. Qed.
Lemma nth_filter (q : A → bool) l : nth_or l <$> List.filter (λ i, q (nth_or l i)) (range (N.of_nat (length l))) = List.filter q l.
Proof.
  induction l as [|x l IH] using rev_ind; [done|]. rewrite length_app, Nat.add_1_r, range_S, !List.filter_app, fmap_app, <-IH.
  f_equal.
  - rewrite (filter_eq_range _ (λ i, q (nth_or l i))) by (intros i Hi; by rewrite nth_or_app).
    apply list_fmap_ext. intros k i Hk. apply list_elem_of_lookup_2, In_filter in Hk as [Hk%elem_of_range _].
    by apply nth_or_app.
  - cbn. rewrite nth_or_last. destruct (q x); cbn; by rewrite ?nth_or_last.
Qed.
Lemma nth_sublist (p : N → bool) (q : A → bool) l : (∀ i, (i < N.of_nat (length l))%N → p i = true → q (nth_or l i) = true) →
  nth_or l <$> List.filter p (range (N.of_nat (length l))) `sublist_of` List.filter q l.
Proof.
  intros H. rewrite <-nth_filter. apply fmap_sublist_of.
  assert (∀ i, i ∈ range (N.of_nat (length l)) → p i = true → q (nth_or l i) = true) as Hr
    by (intros i; rewrite elem_of_range; auto). revert Hr. generalize (range (N.of_nat (length l))).
  induction l0 as [|x l0 IH]; intros Hr; [constructor|]. cbn. destruct (p x) eqn:E.
  - rewrite (Hr x) by (by left || done). constructor. apply IH. intros i Hi. apply Hr. by right.
  - destruct (q (nth_or l x)); [constructor|]; apply IH; intros i Hi; apply Hr; by right.
Qed.
End Positions.

Section Filters.
Context {Num : Type} `{json_num : !JsonNumber Num} `{json_text : !JsonText Num} `{value_text : !ValueText Num}.
Context `{meta_json : !Indexes.MetaJson Num} `{hex_crate : !Indexes.HexCrate}.
Context `{crates : !ColumnarCrates Num} `{claws : !ColumnarLaws Num}.
Context {DB : Type} `{store : !KvStore DB} `{laws : !KvLaws DB} `{reliable : !KvReliable DB}.
Notation Value := (Value Num).
Notation ColumnFilter := (ColumnFilter Num).
Notation Columnar := (Columnar DB).
Notation M := (Columnar.M (DB:=DB)).
Notation Row := (list (string * Value)).
Implicit Types (t : gmap string Row) (m : Meta) (d : DB).

(** ** The meaning of a filter *)

Lemma ColumnFilter_nested_ind (P : ColumnFilter → Prop) :
  (∀ col v, P (FEq col v)) → (∀ col v, P (FNe col v)) → (∀ col v, P (FGt col v)) → (∀ col v, P (FGte col v)) →
  (∀ col v, P (FLt col v)) → (∀ col v, P (FLte col v)) → (∀ col vs, P (FIn col vs)) →
  (∀ fs, Forall P fs → P (FAnd fs)) → (∀ fs, Forall P fs → P (FOr fs)) → ∀ f, P f.
Proof.
  intros H1 H2 H3 H4 H5 H6 H7 H8 H9. fix IH 1.
  intros [col v|col v|col v|col v|col v|col v|col vs|fs|fs];
    [apply H1|apply H2|apply H3|apply H4|apply H5|apply H6|apply H7|apply H8|apply H9];
    induction fs as [|f fs IHfs]; constructor; [exact (IH f)|exact IHfs|exact (IH f)|exact IHfs].
Qed.
(** The column a simple filter tests, and its test of a value. *)
Definition value_test (f : ColumnFilter) (w : Value) : bool :=
  match f with
  | FEq _ v => value_eqb w v
  | FNe _ v => negb (value_eqb w v)
  | FIn _ vs => contained vs w
  | _ => number_test f w
  end.
Fixpoint sat (f : ColumnFilter) (obj : Row) : bool :=
  match f with
  | FEq col _ | FNe col _ | FGt col _ | FGte col _ | FLt col _ | FLte col _ | FIn col _ => value_test f (field obj col)
  | FAnd fs => forallb (λ f, sat f obj) fs
  | FOr fs => existsb (λ f, sat f obj) fs
  end.
(** No conjunction of two or more filters. *)
Fixpoint conj_free (f : ColumnFilter) : bool :=
  match f with
  | FAnd fs => (length fs <=? 1) && forallb conj_free fs
  | FOr fs => forallb conj_free fs
  | _ => true
  end.
Fixpoint filter_columns (f : ColumnFilter) : list string :=
  match f with
  | FEq col _ | FNe col _ | FGt col _ | FGte col _ | FLt col _ | FLte col _ | FIn col _ => [col]
  | FAnd fs | FOr fs => flat_map filter_columns fs
  end.

(** ** Scans *)

Definition nth_row t : N → Row := nth_or [] (rows_in_order t).
Lemma rows_in_order_length t : length (rows_in_order t) = size t.
Proof.
  unfold rows_in_order. rewrite rows_at by (apply Forall_forall; intros u; apply elem_of_uuids).
  rewrite length_fmap. unfold uuids_of. rewrite sort_by_length, length_fmap. apply length_map_to_list.
Qed.
Lemma uuids_length t : length (uuids_of t) = size t.
Proof. unfold uuids_of. by rewrite sort_by_length, length_fmap, length_map_to_list. Qed.
Lemma nth_row_at t i : (i < N.of_nat (size t))%N → ∃ u, uuids_of t !! N.to_nat i = Some u ∧ nth_row t i = row_at t u ∧ is_Some (t !! u).
Proof.
  intros Hi. destruct (lookup_lt_is_Some_2 (uuids_of t) (N.to_nat i)) as [u Hu]; [rewrite uuids_length; lia|].
  exists u. split; [done|]. assert (is_Some (t !! u)) as Hs by (apply elem_of_uuids; by eapply list_elem_of_lookup_2).
  split; [|done]. unfold nth_row, nth_or, rows_in_order.
  rewrite rows_at by (apply Forall_forall; intros v; apply elem_of_uuids). by rewrite list_lookup_fmap, Hu.
Qed.
Lemma read_column_ok t (c : Columnar) col us : table t c → has_column (meta c) col = true →
  Forall (λ u, is_Some (t !! u)) us → read_column col (Some us) c = Ok ((λ u, field (row_at t u) col) <$> us).
Proof.
  intros [(d & Hcf & Hr & _) _] Hc Hu. unfold read_column, reading. rewrite Hcf, Hc. apply collect_ok. intros u Hin.
  rewrite Forall_forall in Hu. destruct (Hu u Hin) as [obj Ho]. rewrite (stored_value_ok t _ d col u obj) by done.
  unfold row_at. by rewrite Ho.
Qed.
Lemma read_all_column t (c : Columnar) col : table t c → has_column (meta c) col = true →
  read_column col None c = Ok ((λ row, field row col) <$> rows_in_order t).
Proof.
  intros Ht Hc. assert (Forall (λ u, is_Some (t !! u)) (uuids_of t)) as Hall by (apply Forall_forall; intros u; apply elem_of_uuids).
  transitivity (read_column col (Some (uuids_of t)) c).
  - destruct Ht as [(d & Hcf & Hr & _) _]. unfold read_column, reading. rewrite Hcf. by rewrite (row_uuids_table t (meta c) d Hr).
  - rewrite (read_column_ok t c col) by done. unfold rows_in_order. rewrite rows_at by done. by rewrite <-list_fmap_compose.
Qed.
Lemma full_scan_ok t (c : Columnar) col test n : table t c → has_column (meta c) col = true → (n <= N.of_nat (size t))%N →
  full_scan col test n c = Ok (List.filter (λ i, test (field (nth_row t i) col)) (range n)).
Proof.
  intros Ht Hc Hn. unfold full_scan. rewrite (read_all_column t c col Ht Hc). cbn [result_bind]. f_equal.
  apply filter_eq_range. intros i Hi. unfold at_position, nth_row, nth_or. rewrite list_lookup_fmap.
  destruct (lookup_lt_is_Some_2 (rows_in_order t) (N.to_nat i)) as [row Hrow]; [rewrite rows_in_order_length; lia|].
  by rewrite Hrow.
Qed.
Lemma positions_ok t (c : Columnar) l : table t c → positions_to_uuids l c = Ok (omap (at_position (uuids_of t)) l).
Proof.
  intros [(d & Hcf & Hr & _) _]. unfold positions_to_uuids, list_row_uuids, reading. rewrite Hcf. cbn [result_bind].
  by rewrite (row_uuids_table t (meta c) d Hr).
Qed.
Lemma at_positions t l : Forall (λ i, (i < N.of_nat (size t))%N) l →
  Forall (λ u, is_Some (t !! u)) (omap (at_position (uuids_of t)) l) ∧ row_at t <$> omap (at_position (uuids_of t)) l = nth_row t <$> l.
Proof.
  induction 1 as [|i l Hi _ [IH1 IH2]]; [done|]. destruct (nth_row_at t i Hi) as (u & Hu & Hr & Hs).
  assert (omap (at_position (uuids_of t)) (i :: l) = u :: omap (at_position (uuids_of t)) l) as ->
    by (cbn; unfold at_position at 1; by rewrite Hu).
  split; [by constructor|]. cbn [fmap list_fmap]. by rewrite Hr, IH2.
Qed.
(** Selecting positions and reading them. *)
Lemma selected_ok t (c : Columnar) cols l : table t c → Forall (λ col, has_column (meta c) col = true) cols →
  Forall (λ i, (i < N.of_nat (size t))%N) l →
  result_bind (positions_to_uuids l c) (λ us, read_columns cols (Some us) c) = Ok (project cols <$> (nth_row t <$> l)).
Proof.
  intros Ht Hc Hl. destruct (at_positions t l Hl) as [H1 H2]. rewrite (positions_ok t c l Ht). cbn [result_bind].
  rewrite (read_columns_ok t c cols) by done. by rewrite list_fmap_compose, H2.
Qed.

(** ** Filters without an index *)

Definition unindexed m : Prop := Forall (λ c, indexed c = false) (columns m).
Lemma unindexed_none m col : unindexed m → has_index col m = false ∧ get_index_type col m = None.
Proof.
  unfold unindexed, has_index, get_index_type. induction 1 as [|c l Hc _ IH]; [done|]. cbn.
  rewrite Hc, andb_false_r. exact IH.
Qed.
(** A list of positions below [n] given by a test. *)
Definition selects t (f : ColumnFilter) (n : N) (r : result DbError (list N)) : Prop :=
  ∃ p, r = Ok (List.filter p (range n)) ∧ (∀ i, (i < n)%N → p i = true → sat f (nth_row t i) = true) ∧
    (conj_free f = true → ∀ i, (i < n)%N → p i = sat f (nth_row t i)).
Lemma scan_selects t (c : Columnar) f col n : table t c → has_column (meta c) col = true → (n <= N.of_nat (size t))%N →
  (∀ obj, sat f obj = value_test f (field obj col)) → selects t f n (full_scan col (value_test f) n c).
Proof.
  intros Ht Hc Hn Hf. exists (λ i, sat f (nth_row t i)). rewrite (full_scan_ok t c col _ n) by done.
  split; [|done]. f_equal. apply filter_eq_range. intros i _. by rewrite Hf.
Qed.
Lemma mem_filter (l : list N) p n : List.filter (mem l) (List.filter p (range n)) = List.filter (λ i, p i && mem l i) (range n).
Proof. apply filter_filter. Qed.
Lemma filter_true n : List.filter (λ _, true) (range n) = range n.
Proof. generalize (range n). induction l as [|x l IH]; [done|]. cbn. by rewrite IH. Qed.
Definition selecting t (c : Columnar) (f : ColumnFilter) : Prop :=
  ∀ n, (n <= N.of_nat (size t))%N → selects t f n (apply_filter c f n).
(** The loops of the conjunction and of the disjunction. *)
Definition and_loop (c : Columnar) : list ColumnFilter → list N → result DbError (list N) :=
  fix go fs rows :=
    match fs with
    | [] => Ok rows
    | f :: fs' =>
        result_bind (apply_filter c f (N.of_nat (length rows))) (λ matching, go fs' (List.filter (mem matching) rows))
    end.
Definition or_loop (c : Columnar) (n : N) : list ColumnFilter → list N → result DbError (list N) :=
  fix go fs acc :=
    match fs with
    | [] => Ok (sort_dedup acc)
    | f :: fs' => result_bind (apply_filter c f n) (λ matching, go fs' (acc ++ matching))
    end.
Lemma and_loop_sound t (c : Columnar) n fs : (n <= N.of_nat (size t))%N → Forall (selecting t c) fs → ∀ p,
  ∃ q, and_loop c fs (List.filter p (range n)) = Ok (List.filter q (range n)) ∧
    ∀ i, (i < n)%N → q i = true → p i = true ∧ forallb (λ f, sat f (nth_row t i)) fs = true.
Proof.
  intros Hn. induction 1 as [|f fs Hf _ IH]; intros p; [by exists p|]. cbn [and_loop].
  set (k := N.of_nat (length (List.filter p (range n)))).
  assert (k <= n)%N as Hk. { unfold k. pose proof (filter_length_le p (range n)) as H. rewrite range_length in H. lia. }
  destruct (Hf k) as (q & -> & Hsound & _); [lia|]. cbn [result_bind]. rewrite mem_filter.
  destruct (IH (λ i, p i && mem (List.filter q (range k)) i)) as (q' & Hq' & Hs). exists q'. split; [done|].
  intros i Hi Hqi. destruct (Hs i Hi Hqi) as [H1 H2]. apply andb_true_iff in H1 as [Hp Hm].
  apply mem_spec, In_filter in Hm as [Hik%elem_of_range Hm]. split; [done|]. cbn [forallb].
  by rewrite (Hsound i Hik Hm), H2.
Qed.
Lemma and_selects t (c : Columnar) fs : Forall (selecting t c) fs → selecting t c (FAnd fs).
Proof.
  intros Hfs n Hn. change (apply_filter c (FAnd fs) n) with (and_loop c fs (range n)).
  destruct (conj_free (FAnd fs)) eqn:E.
  - destruct fs as [|f [|g fs]]; [| |done].
    + exists (λ _, true). by rewrite filter_true.
    + apply Forall_inv in Hfs. cbn in E. rewrite andb_true_r in E. destruct (Hfs n Hn) as (q & Hq & _ & Hexact).
      cbn [and_loop]. rewrite range_length, N2Nat.id, Hq. cbn [result_bind].
      rewrite <-(filter_true n) at 2. rewrite mem_filter. exists (λ i, mem (List.filter q (range n)) i). split; [done|].
      assert (∀ i, (i < n)%N → mem (List.filter q (range n)) i = sat (FAnd [f]) (nth_row t i)) as H; [|by split; [intros i Hi; rewrite H|]].
      intros i Hi. cbn [sat forallb]. rewrite andb_true_r, <-(Hexact E i Hi). apply eq_bool_prop_intro.
      rewrite !Is_true_true, mem_spec, In_filter, elem_of_range. naive_solver.
  - destruct (and_loop_sound t c n fs Hn Hfs (λ _, true)) as (q & Hq & Hs). rewrite filter_true in Hq.
    exists q. split; [done|]. split; [|by rewrite E]. intros i Hi Hqi. by apply Hs.
Qed.
Lemma or_loop_spec t (c : Columnar) n fs : (n <= N.of_nat (size t))%N → Forall (selecting t c) fs → ∀ acc,
  Forall (λ i, (i < n)%N) acc → ∃ l, or_loop c n fs acc = Ok (List.filter (mem l) (range n)) ∧
    (∀ i, i ∈ l → i ∈ acc ∨ (i < n)%N ∧ existsb (λ f, sat f (nth_row t i)) fs = true) ∧
    (forallb conj_free fs = true → ∀ i, (i < n)%N → i ∈ l ↔ i ∈ acc ∨ existsb (λ f, sat f (nth_row t i)) fs = true).
Proof.
  intros Hn. induction 1 as [|f fs Hf _ IH]; intros acc Hacc.
  { exists acc. cbn [or_loop]. rewrite (sort_dedup_range acc n) by done. cbn. naive_solver. }
  cbn [or_loop]. destruct (Hf n Hn) as (q & -> & Hsound & Hexact). cbn [result_bind].
  destruct (IH (acc ++ List.filter q (range n))) as (l & Hl & H1 & H2).
  { apply Forall_app. split; [done|]. apply Forall_forall. by intros i [Hi%elem_of_range _]%In_filter. }
  exists l. split; [done|]. split.
  - intros i Hi. destruct (H1 i Hi) as [[Ha|[Hr%elem_of_range Hq]%In_filter]%elem_of_app|[Hr Hs]]; [by left|right|right]; cbn.
    + by rewrite (Hsound i Hr Hq).
    + by rewrite Hs, orb_true_r.
  - cbn [forallb existsb]. intros [E1 E2]%andb_true_iff i Hi. rewrite (H2 E2 i Hi), elem_of_app, In_filter, elem_of_range.
    rewrite orb_true_iff, <-(Hexact E1 i Hi). naive_solver.
Qed.
Lemma or_selects t (c : Columnar) fs : Forall (selecting t c) fs → selecting t c (FOr fs).
Proof.
  intros Hfs n Hn. change (apply_filter c (FOr fs) n) with (or_loop c n fs []).
  destruct (or_loop_spec t c n fs Hn Hfs []) as (l & Hl & H1 & H2); [done|]. exists (mem l). split; [done|]. split.
  - intros i Hi Hm%mem_spec. destruct (H1 i Hm) as [?%elem_of_nil|[_ ?]]; done.
  - intros E i Hi. apply eq_bool_prop_intro. rewrite !Is_true_true, mem_spec, (H2 E i Hi). cbn. set_solver.
Qed.
Lemma filter_selects t (c : Columnar) f : table t c → unindexed (meta c) →
  Forall (λ col, has_column (meta c) col = true) (filter_columns f) → selecting t c f.
Proof.
  intros Ht Hu. assert (∀ col, has_sorted_index col c = false) as Hs.
  { intros col. unfold has_sorted_index. by rewrite (proj1 (unindexed_none (meta c) col Hu)). }
  assert (∀ col, get_index_type col (meta c) = None) as Hi by (intros col; apply unindexed_none, Hu).
  induction f as [col v|col v|col v|col v|col v|col v|col vs|fs IH|fs IH] using ColumnFilter_nested_ind; intros Hc;
    cbn [filter_columns] in Hc.
  1-7: apply Forall_inv in Hc; intros n Hn; cbn [apply_filter];
    unfold filter_eq, filter_range, filter_in; rewrite ?Hs, ?Hi;
    lazymatch goal with |- selects _ ?f _ _ => by apply (scan_selects t c f col) end.
  - apply and_selects. rewrite Forall_forall in *. intros f Hf. apply IH; [done|]. apply Forall_forall. intros col Hcol.
    apply (proj1 (Forall_forall _ _) Hc). apply list_elem_of_In, in_flat_map. exists f. by rewrite <-!list_elem_of_In.
  - apply or_selects. rewrite Forall_forall in *. intros f Hf. apply IH; [done|]. apply Forall_forall. intros col Hcol.
    apply (proj1 (Forall_forall _ _) Hc). apply list_elem_of_In, in_flat_map. exists f. by rewrite <-!list_elem_of_In.
Qed.

(** C38: A filtered scan of a collection without indexes answers with the projections of rows that
    satisfy the filter, in the order of their identifiers and each once; when the filter has no
    conjunction of several parts they are all the rows that satisfy it. *)
Theorem scan_filtered_rows t (c : Columnar) f cols : table t c → unindexed (meta c) →
  Forall (λ col, has_column (meta c) col = true) (filter_columns f ++ cols) →
  ∃ kept, scan_filtered f cols c = Ok (project cols <$> kept) ∧
    kept `sublist_of` List.filter (sat f) (rows_in_order t) ∧
    (conj_free f = true → kept = List.filter (sat f) (rows_in_order t)).
Proof.
  intros Ht Hu [Hf Hc]%Forall_app. pose proof (tb_count _ _ Ht) as Hn.
  destruct (filter_selects t c f Ht Hu Hf (row_count (meta c))) as (p & Hp & Hsound & Hexact); [lia|].
  exists (nth_row t <$> List.filter p (range (row_count (meta c)))). unfold scan_filtered. rewrite Hp. cbn [result_bind].
  rewrite Hn, <-rows_in_order_length in *. split; [|split].
  - apply selected_ok; [done..|]. rewrite <-rows_in_order_length. apply Forall_forall. by intros i [Hi%elem_of_range _]%In_filter.
  - by apply nth_sublist.
  - intros E. rewrite (filter_eq_range _ _ _ (Hexact E)). apply nth_filter.
Qed.

(** ** Aggregates *)

(** No column's name continues that of the column with a colon. *)
Definition own_prefix m col : Prop := ∀ col', has_column m col' = true → starts_with (col +:+ ":") col' = false.
Lemma column_keys t m d col r : rows_of t m d → has_column m col = true → own_prefix m col →
  is_Some (kv_get (column_prefix col +:+ r) d) ↔ is_Some (t !! r).
Proof.
  intros Hr Hc Hown. split.
  - intros Hg. destruct (t_data _ _ _ Hr (column_prefix col +:+ r)) as (col' & u & Hc' & Hu & E); [|done|].
    { unfold column_prefix. rewrite !str_app_assoc. apply starts_with_app. }
    specialize (Hown col' Hc'). pose proof (t_ids _ _ _ Hr u Hu) as Hno. unfold col_key, column_prefix in E.
    rewrite !str_app_assoc in E. apply str_app_inj_l in E. revert E Hown. clear -Hu Hno. revert col'.
    induction col as [|x col IH]; intros [|x' col'] E Hown.
    + change (String ":" r = String ":" u) in E. by injection E as ->.
    + change (String ":" r = String x' (col' +:+ String ":" u)) in E. injection E as <- _.
      change (starts_with (String ":" "") (String ":" col') = false) in Hown. rewrite starts_with_cons, Ascii.eqb_refl in Hown.
      by destruct col'.
    + change (String x (col +:+ String ":" r) = String ":" u) in E. injection E as _ <-. unfold Indexes.no_colon in Hno.
      rewrite str_all_app in Hno. by apply andb_true_iff in Hno as [_ ?].
    + change (String x (col +:+ String ":" r) = String x' (col' +:+ String ":" u)) in E. injection E as -> E.
      change (starts_with (String x' (col +:+ ":")) (String x' col') = false) in Hown.
      rewrite starts_with_cons, Ascii.eqb_refl in Hown. by apply (IH col').
  - intros Hu. pose proof (t_columns _ _ _ Hr col r Hc (t_ids _ _ _ Hr r Hu)) as H. destruct Hu as [obj Ho]. rewrite Ho in H.
    destruct H as (b & Hb & _). unfold col_key in Hb. rewrite Hb. eauto.
Qed.
Lemma column_values t m d col : rows_of t m d → has_column m col = true → own_prefix m col →
  decoded (compression m) <$> column_bytes col d = Some <$> ((λ row, field row col) <$> rows_in_order t).
Proof.
  intros Hr Hc Hown. unfold rows_in_order. rewrite rows_at by (apply Forall_forall; intros u; apply elem_of_uuids).
  rewrite <-(scan_uuids t (column_prefix col) d) by (intros r; by apply (column_keys t m d)).
  unfold column_bytes. rewrite <-!list_fmap_compose. apply list_fmap_ext. intros i [k b] Hi. cbn [compose fst snd].
  apply list_elem_of_lookup_2, CollectionProps.scan_prefix_elem in Hi as [Hk Hg]. apply starts_with_split in Hk as [r ->].
  rewrite strip_key_prefix. destruct (proj1 (column_keys t m d col r Hr Hc Hown)) as [obj Ho]; [eauto|].
  pose proof (t_columns _ _ _ Hr col r Hc (t_ids _ _ _ Hr r (mk_is_Some _ _ Ho))) as H. rewrite Ho in H.
  destruct H as (b' & Hb' & Hv). unfold col_key in Hb'. rewrite Hg in Hb'. injection Hb' as <-. unfold decoded. rewrite Hv.
  unfold row_at. by rewrite Ho.
Qed.
Lemma omap_decoded {A B C} (f : A → option B) (g : B → option C) (l : list A) (l' : list B) : f <$> l = Some <$> l' →
  omap (λ x, f x ≫= g) l = omap g l' ∧ omap f l = l'.
Proof.
  revert l'. induction l as [|x l IH]; intros [|y l'] H; try done. cbn in H. injection H as H1 H2.
  destruct (IH _ H2) as [H3 H4]. cbn. rewrite H1. cbn. rewrite H3, H4. done.
Qed.
Lemma foldl_ext_in (f g : N → N → N) : (∀ x y, f x y = g x y) → ∀ l a, foldl f a l = foldl g a l.
Proof. intros H. induction l as [|x l IH]; intros a; [done|]. cbn. by rewrite H, IH. Qed.
Lemma lower_min x y : lower x y = min_by x y.
Proof.
  unfold lower, min_by, cmp_f64, F64.ltb, F64.partial_cmp. rewrite orb_comm. destruct (_ || _); [done|]. cbn.
  rewrite Z.compare_antisym. by destruct (f64_num x ?= f64_num y)%Z.
Qed.
(** An aggregate computed by iterating over the stored values of a column is the aggregate
    of the column that is read, for counts below 2^31, sums and averages (with the sum of no floats
    starting from 0.0), minima and numbers of distinct values, in a collection whose columns' names
    do not continue one another with a colon. *)
Theorem aggregate_reads_column t (c : Columnar) col op values : table t c → has_column (meta c) col = true →
  own_prefix (meta c) col → sum_start = 0%N → op ≠ Max → (N.of_nat (size t) < 2 ^ 31)%N →
  (∀ n, (n < 2 ^ 31)%Z → (0 <= n)%Z → (num_of_i64 n : Num) = num_of_u64 (Z.to_N n)) →
  read_column col None c = Ok values →
  aggregate col op c = Ok (compute_aggregate values op).
Proof.
  intros Ht Hc Hown Hs Hop Hsz Hint Hread. rewrite (read_all_column t c col Ht Hc) in Hread. injection Hread as <-.
  destruct (Ht) as [(d & Hcf & Hr & _) _]. unfold aggregate, reading. rewrite Hcf. f_equal.
  pose proof (column_values t (meta c) d col Hr Hc Hown) as Hv. set (vs := (λ row, field row col) <$> rows_in_order t) in *.
  destruct (omap_decoded _ as_f64 _ _ Hv) as [Hn Hd]. unfold column_numbers, compute_aggregate. rewrite Hn, Hd, Hs.
  assert (length (column_bytes col d) = length vs) as Hlen by (apply (f_equal length) in Hv; by rewrite !length_fmap in Hv).
  assert (length vs = size t) as Hvs by (unfold vs; by rewrite length_fmap, rows_in_order_length).
  assert (∀ n, (N.of_nat n < 2 ^ 31)%N → i32 n = Z.of_nat n) as Hi32.
  { intros n Hlt. unfold i32. rewrite Z.mod_small by lia. lia. }
  assert (length (omap as_f64 vs) ≤ length vs) as Hle.
  { clear. induction vs as [|v vs IH]; [done|]. cbn. destruct (as_f64 v); cbn; lia. }
  destruct op; [done| | | |done|done].
  - rewrite Hi32 by lia. destruct (omap as_f64 vs) as [|x l]; [done|]. destruct (Z.eqb_spec (Z.of_nat (length (x :: l))) 0); [by cbn in *; lia|done].
  - rewrite Hlen, Hi32 by lia. rewrite Hint by lia. do 2 f_equal. lia.
  - unfold number_or_null, reduce. destruct (omap as_f64 vs); [done|]. by rewrite (foldl_ext_in _ _ lower_min).
Qed.
End Filters.
End ColumnarFilters.
