(* ===== verification/ColumnarIndexes.v ===== *)
(** * Columnar collections: an index selects what a scan selects

    For each of the five kinds of index: building it on a column of a collection makes the filters on
    that column answer as before. The entries of an index after [k] rows are an invariant of the loop
    of [create_index]. The last part runs the columnar collections on concrete rows. *)

From S2P Require Import Prelude Text Json Transaction Codec Kv F64 Document Indexes SdbqlLexer SdbqlValue.
From S2P Require Import Collection CollectionProps Columnar ColumnarProps ColumnarFilters.
Import Json Codec Columnar ColumnarProps ColumnarFilters.

(** What the documentation of serde_json says of numbers: those that are [i64] are determined by it,
    and equal numbers are both [i64] or neither. *)
Class IntegerLaws (Num : Type) `{!JsonNumber Num} `{!ValueText Num} : Prop := {
  int_canonical (n : Num) i : num_as_i64 n = Some i → n = num_of_i64 i ∧ (- 2 ^ 63 <= i < 2 ^ 63)%Z;
  int_eqb (a b : Num) : num_eqb a b = true → num_as_i64 a = num_as_i64 b;
}.

(** What the grammar of JSON says of the end of a text. *)
Definition ends_in (c : ascii) (s : string) : Prop := ∃ r, s = r +:+ String c "".
Class TextEnds (Num : Type) `{!JsonNumber Num} `{!JsonText Num} `{!ValueText Num} : Prop := {
  array_ends l : ends_in "]" (json_to_string (Array l : Value Num));
  object_ends o : ends_in "}" (json_to_string (Object o : Value Num));
  number_ends (n : Num) : ¬ ends_in "s" (num_to_string n);
}.

Module ColumnarIndexes.

(** ** Bitmaps *)

Lemma byte_rows_elem k b j : j ∈ byte_rows k b ↔ (j / 8 = N.of_nat k)%N ∧ N.testbit b (j mod 8) = true.
Proof.
  unfold byte_rows. rewrite list_elem_of_fmap. setoid_rewrite In_filter. setoid_rewrite elem_of_range. split.
  - intros (r & -> & Hr & Hb). rewrite N.add_comm, N.div_add, N.div_small, N.Div0.mod_add, N.mod_small by lia. done.
  - intros [Hd Hb]. exists (j mod 8)%N. split; [|split; [by apply N.mod_lt|done]].
    pose proof (N.div_mod j 8). lia.
Qed.
Lemma imap_rows_elem bm : ∀ k j, j ∈ concat (imap (λ i, byte_rows (k + i)) bm) ↔
  ∃ i b, bm !! i = Some b ∧ (j / 8 = N.of_nat (k + i))%N ∧ N.testbit b (j mod 8) = true.
Proof.
  induction bm as [|b bm IH]; intros k j.
  - cbn. split; [by intros ?%elem_of_nil|]. by intros (i & b & Hi & _).
  - rewrite imap_cons. cbn [concat]. rewrite elem_of_app, byte_rows_elem.
    assert (imap ((λ i, byte_rows (k + i)) ∘ S) bm = imap (λ i, byte_rows (S k + i)) bm) as ->.
    { apply imap_ext. intros i x _. cbn. by rewrite Nat.add_succ_r. }
    rewrite IH. split.
    + intros [[H1 H2]|(i & b' & H1 & H2 & H3)].
      * exists 0, b. rewrite Nat.add_0_r in *. done.
      * exists (S i), b'. split; [done|]. split; [|done]. rewrite H2. f_equal. lia.
    + intros ([|i] & b' & H1 & H2 & H3).
      * left. cbn in H1. injection H1 as <-. rewrite Nat.add_0_r in *. done.
      * right. exists i, b'. split; [done|]. split; [|done]. rewrite H2. f_equal. lia.
Qed.
Lemma bitmap_rows_elem bm j : j ∈ bitmap_rows bm ↔ ∃ b, bm !! N.to_nat (j / 8) = Some b ∧ N.testbit b (j mod 8) = true.
Proof.
  unfold bitmap_rows. change (imap byte_rows bm) with (imap (λ i, byte_rows (0 + i)) bm). rewrite imap_rows_elem. split.
  - intros (i & b & H1 & H2 & H3). exists b. cbn in H2. rewrite H2, Nat2N.id. done.
  - intros (b & H1 & H2). exists (N.to_nat (j / 8)), b. cbn. rewrite N2Nat.id. done.
Qed.
Lemma bitmap_rows_increasing bm : increasing (bitmap_rows bm).
Proof.
  unfold bitmap_rows. change (imap byte_rows bm) with (imap (λ i, byte_rows (0 + i)) bm). generalize 0.
  induction bm as [|b bm IH]; intros k; [constructor|]. rewrite imap_cons. cbn [concat].
  assert (imap ((λ i, byte_rows (k + i)) ∘ S) bm = imap (λ i, byte_rows (S k + i)) bm) as ->.
  { apply imap_ext. intros i x _. cbn. by rewrite Nat.add_succ_r. }
  rewrite Nat.add_0_r. assert (increasing (byte_rows k b)) as Hb.
  { unfold byte_rows, increasing. pose proof (filter_increasing (N.testbit b) _ (range_increasing 8)) as H. revert H.
    generalize (List.filter (N.testbit b) (range 8)). induction 1 as [|x l Hl IHl Hx]; [constructor|]. cbn. constructor; [done|].
    apply Forall_fmap. eapply Forall_impl; [exact Hx|]. intros y Hy. cbn. lia. }
  assert (∀ j, j ∈ concat (imap (λ i, byte_rows (S k + i)) bm) → (N.of_nat k < j / 8)%N) as Hrest.
  { intros j (i & b' & _ & H & _)%imap_rows_elem. lia. }
  assert (∀ j, j ∈ byte_rows k b → (j / 8 = N.of_nat k)%N) as Hfirst by (intros j Hj; by apply byte_rows_elem in Hj as [? _]).
  specialize (IH (S k)). revert Hfirst Hb. induction (byte_rows k b) as [|x l IHl]; intros Hfirst Hb; [done|].
  apply StronglySorted_inv in Hb as [Hl Hx]. cbn [app]. constructor; [apply IHl; [intros j Hj; apply Hfirst; by right|done]|].
  apply Forall_app. split; [done|]. apply Forall_forall. intros j Hj%Hrest. specialize (Hfirst x ltac:(by left)).
  apply N.lt_nge. intros Hle. apply (N.Div0.div_le_mono _ _ 8) in Hle. lia.
Qed.
Lemma set_bit_elem i bm j : j ∈ bitmap_rows (set_bit i bm) ↔ j = i ∨ j ∈ bitmap_rows bm.
Proof.
  unfold set_bit. set (k := N.to_nat (i / 8)).
  set (bm' := if (length bm <=? k)%nat then bm ++ replicate (S k - length bm) 0%N else bm).
  assert (∀ j, j ∈ bitmap_rows bm' ↔ j ∈ bitmap_rows bm) as Hpad.
  { intros j'. rewrite !bitmap_rows_elem. unfold bm'. destruct (Nat.leb_spec (length bm) k) as [Hle|]; [|done].
    split; [|intros (b & Hb & H); exists b; split; [by apply lookup_app_l_Some|done]].
    intros (b & [Hb|[Hb1 Hb2]]%lookup_app_Some & H); [by eauto|]. apply lookup_replicate in Hb2 as [-> _]. by rewrite N.bits_0 in H. }
  rewrite <-Hpad, !bitmap_rows_elem. assert (is_Some (bm' !! k)) as [b Hb].
  { apply lookup_lt_is_Some. unfold bm'. destruct (Nat.leb_spec (length bm) k); [rewrite length_app, length_replicate|]; lia. }
  assert (∀ r, N.testbit (N.lor b (N.shiftl 1 (i mod 8))) r = N.testbit b r || (r =? i mod 8)%N) as Hbits.
  { intros r. rewrite N.lor_spec, N.shiftl_1_l, N.pow2_bits_eqb. by rewrite N.eqb_sym. }
  destruct (decide (N.to_nat (j / 8) = k)) as [E|Hne].
  - rewrite E, list_lookup_alter_eq, Hb. cbn. split.
    + intros (b' & [= <-] & H). rewrite Hbits in H. apply orb_true_iff in H as [H|H%N.eqb_eq]; [by eauto|].
      left. pose proof (N.div_mod j 8). pose proof (N.div_mod i 8). unfold k in E. lia.
    + intros [->|(b' & [= <-] & H)]; eexists; (split; [done|]); rewrite Hbits; [by rewrite N.eqb_refl, orb_true_r|by rewrite H].
  - rewrite list_lookup_alter_ne by done. split; [by right|]. intros [->|H]; [by destruct Hne|done].
Qed.
(** The bytes of a bitmap are bytes. *)
Definition bytes_ok (bm : list N) : Prop := Forall (λ b, (b < 256)%N) bm.
Lemma or_byte b r : (b < 256)%N → (r < 8)%N → (N.lor b (N.shiftl 1 r) < 256)%N.
Proof.
  assert (forallb (λ b, forallb (λ r, (N.lor b (N.shiftl 1 r) <? 256)%N) (range 8)) (range 256) = true) as H by reflexivity.
  intros Hb Hr. rewrite forallb_forall in H. specialize (H b). rewrite <-list_elem_of_In, elem_of_range in H. specialize (H Hb).
  rewrite forallb_forall in H. specialize (H r). rewrite <-list_elem_of_In, elem_of_range in H. by apply N.ltb_lt, H.
Qed.
Lemma set_bit_bytes i bm : bytes_ok bm → bytes_ok (set_bit i bm).
Proof.
  intros H. unfold set_bit, bytes_ok. apply Forall_alter.
  - destruct (_ <=? _)%nat; [|done]. apply Forall_app. split; [done|]. by apply Forall_replicate.
  - intros b _ Hb. apply or_byte; [done|]. by apply N.mod_lt.
Qed.
Lemma bitmap_roundtrip bm : bytes_ok bm → bitmap_bytes (bitmap_text bm) = bm.
Proof.
  intros H. unfold bitmap_bytes, bitmap_text. rewrite list_ascii_of_string_of_list_ascii, <-list_fmap_compose.
  induction H as [|b bm Hb _ IH]; [done|]. cbn. rewrite N_ascii_embedding by done. by f_equal.
Qed.

(** ** Values and their keys *)

Section Keys.
Context {Num : Type} `{json_num : !JsonNumber Num} `{number_laws : !JsonNumberLaws Num} `{json_text : !JsonText Num}.
Context `{value_text : !ValueText Num} `{integers : !IntegerLaws Num} `{hex_crate : !Indexes.HexCrate} `{hex_laws : !Indexes.HexLaws}.
Notation Value := (Value Num).

(** The values whose key and text determine them. *)
Definition plain (v : Value) : Prop :=
  match v with
  | Null | Bool _ | JString _ => True
  | Number n => is_Some (num_as_i64 n)
  | _ => False
  end.
Lemma i64_key_inj i j : (- 2 ^ 63 <= i < 2 ^ 63)%Z → (- 2 ^ 63 <= j < 2 ^ 63)%Z →
  hex16 (wrap64 (i64_to_u64 i + sign_bit)) = hex16 (wrap64 (i64_to_u64 j + sign_bit)) → i = j.
Proof.
  intros Hi Hj H.
  assert (∀ n, (n < u64_modulus)%N → Radix.from_str_radix 16 u64_modulus (hex16 n) = Some n) as Hp.
  { intros n Hn. by apply Radix.from_str_radix_pad. }
  assert (wrap64 (i64_to_u64 i + sign_bit) = wrap64 (i64_to_u64 j + sign_bit)) as E.
  { pose proof (Hp _ (wrap64_lt (i64_to_u64 i + sign_bit))) as E1. rewrite H, Hp in E1 by apply wrap64_lt. congruence. }
  assert (∀ z, (- 2 ^ 63 <= z < 2 ^ 63)%Z → Z.of_N (wrap64 (i64_to_u64 z + sign_bit)) = (z + 2 ^ 63)%Z) as Hz.
  { intros z Hz. unfold wrap64, i64_to_u64, u64_modulus, sign_bit. rewrite N2Z.inj_mod, N2Z.inj_add, Z2N.id by (apply Z.mod_pos_bound; lia).
    change (Z.of_N (2 ^ 63)) with (2 ^ 63)%Z. change (Z.of_N (2 ^ 64)) with (2 ^ 64)%Z.
    rewrite Zplus_mod_idemp_l. apply Z.mod_small. lia. }
  apply (f_equal Z.of_N) in E. rewrite !Hz in E by done. lia.
Qed.
Lemma plain_key v w : plain v → encode_value_for_key w = encode_value_for_key v ↔ w = v.
Proof.
  intros Hv. split; [|by intros ->]. unfold encode_value_for_key.
  destruct v as [|b|n|s| |], w as [|b'|n'|s'|l'|o']; cbn [plain] in Hv; try done;
    repeat match goal with
    | H : is_Some _ |- _ => destruct H as [i Hi]; rewrite Hi
    | |- context [num_as_i64 n'] => destruct (num_as_i64 n') as [i'|] eqn:Hi'
    | |- context [num_as_f64 n'] => destruct (num_as_f64 n')
    end; try done.
  - by destruct b, b'.
  - intros H%str_app_inj_l. destruct (int_canonical _ _ Hi) as [-> Hb], (int_canonical _ _ Hi') as [-> Hb'].
    by rewrite (i64_key_inj i' i).
  - intros H%str_app_inj_l. by apply Indexes.hex_inj in H as ->.
Qed.
Lemma plain_eqb v w : plain v → value_eqb w v = true ↔ w = v.
Proof.
  intros Hv. split.
  - destruct v as [|b|n|s| |], w as [|b'|n'|s'| |]; cbn [plain value_eqb] in *; try done.
    + by intros ->%Bool.eqb_prop.
    + intros E. destruct Hv as [i Hi]. pose proof (int_eqb _ _ E) as Hi'. rewrite Hi in Hi'.
      destruct (int_canonical _ _ Hi) as [-> _], (int_canonical _ _ Hi') as [-> _]. done.
    + by intros ->%String.eqb_eq.
  - intros ->. destruct v as [|b|n|s| |]; cbn [plain value_eqb] in *; try done; [apply Bool.eqb_reflx|apply num_eqb_refl|apply String.eqb_refl].
Qed.
Lemma plain_eqb_sym v w : plain v → value_eqb v w = value_eqb w v.
Proof.
  intros Hv. destruct (value_eqb w v) eqn:E.
  - apply plain_eqb in E as ->; [|done]. by apply plain_eqb.
  - destruct (value_eqb v w) eqn:E'; [|done]. assert (w = v) as ->; [|congruence].
    destruct v as [|b|n|s| |], w as [|b'|n'|s'| |]; cbn [plain value_eqb] in *; try done.
    + by apply Bool.eqb_prop in E' as ->.
    + destruct Hv as [i Hi]. pose proof (int_eqb _ _ E') as Hi'. rewrite Hi in Hi'. symmetry in Hi'.
      destruct (int_canonical _ _ Hi) as [-> _], (int_canonical _ _ Hi') as [-> _]. done.
    + by apply String.eqb_eq in E' as ->.
Qed.
End Keys.

(** ** Building an index *)

Section Build.
Context {Num : Type} `{json_num : !JsonNumber Num} `{number_laws : !JsonNumberLaws Num} `{json_text : !JsonText Num}.
Context `{value_text : !ValueText Num} `{integers : !IntegerLaws Num}.
Context `{meta_json : !Indexes.MetaJson Num} `{hex_crate : !Indexes.HexCrate} `{hex_laws : !Indexes.HexLaws}.
Context `{crates : !ColumnarCrates Num} `{claws : !ColumnarLaws Num}.
Context {DB : Type} `{store : !KvStore DB} `{laws : !KvLaws DB} `{reliable : !KvReliable DB}.
Notation Value := (Value Num).
Notation ColumnFilter := (ColumnFilter Num).
Notation Columnar := (Columnar DB).
Notation M := (Columnar.M (DB:=DB)).
Notation Row := (list (string * Value)).
Implicit Types (t : gmap string Row) (m : Meta) (d : DB).

Definition no_index_data d : Prop := ∀ k, index_space k → kv_get k d = None.
Lemma enumerate_at {A} (l : list A) en p rest : enumerate l = en ++ p :: rest →
  p.1 = N.of_nat (length en) ∧ l !! length en = Some p.2.
Proof.
  intros H. assert (enumerate l !! length en = Some p) as Hp by (by rewrite H, list_lookup_middle).
  unfold enumerate in Hp. rewrite list_lookup_imap in Hp. destruct (l !! length en) as [x|]; [|done].
  cbn in Hp. by injection Hp as <-.
Qed.
Lemma enumerate_length {A} (l : list A) : length (enumerate l) = length l.
Proof. apply length_imap. Qed.

(** The value of a column in a row. *)
Definition val t (col : string) (i : N) : Value := field (nth_row t i) col.
(** The columns after an index is marked. *)
Lemma marked_columns m col i cd ty : unindexed m → column_at col m = Some (i, cd) →
  let m' := set_column i (mark_index true (Some ty) cd) m in
  get_index_type col m' = Some ty ∧ has_index col m' = true ∧
  (∀ col', col' ≠ col → get_index_type col' m' = None ∧ has_index col' m' = false) ∧
  (∀ col', has_column m' col' = has_column m col').
Proof.
  intros Hu Hc. unfold column_at in Hc. apply list_find_Some in Hc as (Hi & Hn & _).
  pose proof (take_drop_middle _ _ _ Hi) as Hl. assert (length (take i (columns m)) = i) as Hlen.
  { apply lookup_lt_Some in Hi. rewrite length_take. lia. }
  set (l1 := take i (columns m)) in *. set (l2 := list.drop (S i) (columns m)) in *.
  assert (∀ x, <[i := x]> (columns m) = l1 ++ x :: l2) as Hins.
  { intros x. rewrite <-Hl, <-Hlen, insert_app_r_alt, Nat.sub_diag by lia. done. }
  unfold set_column, with_columns, get_index_type, has_index, has_column, unindexed in *. cbn [columns].
  rewrite Hins. rewrite <-Hl in Hu |- *.
  apply Forall_app in Hu as [Hu1 [_ Hu2]%Forall_cons].
  assert (∀ l, Forall (λ c, indexed c = false) l → ∀ x,
    List.find (λ c, String.eqb (col_name c) x && indexed c) l = None ∧ existsb (λ c, String.eqb (col_name c) x && indexed c) l = false) as Hnone.
  { induction 1 as [|c l Hcl _ IH]; intros x; [done|]. cbn. rewrite Hcl, andb_false_r. apply IH. }
  assert (∀ (l l' : list ColumnDef) q, List.find q l = None → List.find q (l ++ l') = List.find q l') as Hfind.
  { induction l as [|c l IH]; intros l' q Hq; [done|]. cbn in *. destruct (q c); [done|by apply IH]. }
  split_and!.
  - rewrite Hfind by apply Hnone, Hu1. cbn. by rewrite Hn, String.eqb_refl.
  - rewrite existsb_app, (proj2 (Hnone _ Hu1 col)). cbn. by rewrite Hn, String.eqb_refl.
  - intros col' Hne. rewrite Hfind by apply Hnone, Hu1. rewrite existsb_app, (proj2 (Hnone _ Hu1 col')). cbn.
    assert (String.eqb (col_name cd) col' = false) as -> by (apply String.eqb_neq; congruence). cbn.
    by destruct (Hnone _ Hu2 col') as [-> ->].
  - intros col'. by rewrite !existsb_app.
Qed.

Lemma frame_index_rows t m d d' : frame index_space d d' → rows_of t m d → uuids_readable d' → rows_of t m d'.
Proof.
  intros Hf [H1 H2 H3 H4 H5] Hr. split; [..|done|exact Hr].
  - intros u. apply (holds_value_frame _ _ _ _ _ _ Hf); [|done]. unfold index_space. by rewrite row_key_space.
  - intros col u Hc Hu. apply (holds_value_frame _ _ _ _ _ _ Hf); [|auto]. unfold index_space. by rewrite col_key_space.
  - intros k Hk. rewrite Hf; [by apply H3|]. unfold index_space, space_of. by rewrite Hk.
Qed.
(** [create_index] with an invariant of its loop. *)
Lemma create_index_ok t (c : Columnar) d now col i cd ty (I : N → DB → Prop) :
  table t c → cf c = Some d → unindexed (meta c) → column_at col (meta c) = Some (i, cd) →
  I 0%N d → (∀ k d1, (k < N.of_nat (size t))%N → I k d1 →
    ∃ d2, index_row col ty (val t col k) k (meta c, d1) = (Ok tt, (meta c, d2)) ∧ frame index_space d1 d2 ∧ I (N.succ k) d2) →
  (∀ k d1 d2, I k d1 → frame (λ x, x = idx_meta_key col ∨ space_of x = Some SMeta) d1 d2 → I k d2) →
  (∀ k d1, I k d1 → uuids_readable d1) →
  ∃ c' d', create_index now col ty c = (Ok tt, c') ∧ cf c' = Some d' ∧ I (N.of_nat (size t)) d' ∧ table t c' ∧
    meta c' = set_column i (mark_index true (Some ty) cd) (meta c) ∧
    stored_index_meta col d' = Some (mkIndexMeta col ty now).
Proof.
  intros Htab Hcf Hu Hc HI0 Hstep Hstable Hread. destruct Htab as [(d0 & Hcf0 & Hr & Hm) Hn].
  rewrite Hcf in Hcf0. injection Hcf0 as <-. unfold create_index, with_cf. rewrite Hcf, bind_get_meta, Hc.
  assert (indexed cd = false) as ->.
  { unfold column_at in Hc. apply list_find_Some in Hc as (Hi & _ & _). by apply (Forall_lookup_1 _ _ _ _ Hu Hi). }
  assert (has_column (meta c) col = true) as Hcol.
  { unfold column_at in Hc. apply list_find_Some in Hc as (Hi & Hn' & _). apply has_column_elem. exists cd.
    split; [by eapply list_elem_of_lookup_2|done]. }
  rewrite bind_db, (row_uuids_table t (meta c) d Hr).
  destruct (for_each_prefix (index_stored_row col ty) (λ done d1, frame index_space d d1 ∧ I (N.of_nat (length done)) d1)
    (meta c) (enumerate (uuids_of t))) with (d := d) as (d1 & H1 & Hf1 & HI1); [|by split; [apply frame_refl|]|].
  { intros done p rest d1 Hen [Hf HI]. destruct (enumerate_at _ _ _ _ Hen) as [Hp1 Hp2].
    assert (N.of_nat (length done) < N.of_nat (size t))%N as Hlt.
    { rewrite <-(uuids_length t). apply lookup_lt_Some in Hp2. lia. }
    destruct (nth_row_at t _ Hlt) as (u & Hu1 & Hu2 & [obj Ho]). rewrite Nat2N.id, Hp2 in Hu1. injection Hu1 as <-.
    unfold index_stored_row. rewrite bind_get_meta, bind_db.
    assert (kv_get (col_key col p.2) d1 ≫= decoded (compression (meta c)) = Some (val t col (N.of_nat (length done)))) as ->.
    { rewrite Hf by (unfold index_space; by rewrite col_key_space).
      pose proof (t_columns _ _ _ Hr col p.2 Hcol (t_ids _ _ _ Hr p.2 (mk_is_Some _ _ Ho))) as Hv. rewrite Ho in Hv.
      destruct Hv as (b & -> & Hb). cbn. unfold decoded. rewrite Hb. unfold val, row_at in *. rewrite Hu2, Ho. done. }
    destruct (Hstep _ d1 Hlt HI) as (d2 & H2 & Hf2 & HI2). exists d2. rewrite Hp1. split; [done|].
    split; [by apply (frame_trans _ _ d1)|]. by rewrite length_app, Nat.add_1_r, Nat2N.inj_succ. }
  rewrite enumerate_length, uuids_length in HI1. rewrite (bind_ok _ _ _ _ _ H1).
  destruct (index_meta_roundtrip (mkIndexMeta col ty now)) as (b & Hb & Hb'). unfold store_as at 1.
  rewrite Hb. cbn [ok_or]. unfold mbind at 1, M_bind at 1. rewrite bind_lift.
  destruct (put_ok (idx_meta_key col) b (meta c) d1) as (d2 & H2 & Hg2 & Hf2). rewrite H2, bind_set_meta.
  set (m' := set_column i (mark_index true (Some ty) cd) (meta c)).
  destruct (save_meta_ok (name c) m' d2) as (d3 & H3 & Hm3 & Hf3). rewrite H3.
  assert (I (N.of_nat (size t)) d3) as HI3.
  { apply (Hstable _ d1); [done|]. apply (frame_trans _ _ d2); eapply frame_mono; [|exact Hf2| |exact Hf3]; auto. }
  eexists _, d3. split; [done|]. split; [done|]. split; [done|]. split_and!; [|done|].
  - split; [|done]. exists d3. split; [done|]. split; [|done]. cbn [meta].
    apply (rows_of_schema t (meta c)); [apply (marked_columns (meta c) col i cd ty Hu Hc)|done|].
    assert (frame (λ x, index_space x ∨ space_of x = Some SMeta) d d3) as Hf.
    { apply (frame_trans _ _ d1); [eapply frame_mono; [|exact Hf1]; auto|].
      apply (frame_trans _ _ d2); [eapply frame_mono; [|exact Hf2]; intros x ->; left; apply index_key_space; apply (starts_with_app "col_idx")|].
      eapply frame_mono; [|exact Hf3]; auto. }
    apply (rows_of_frame t (meta c) d2 d3 Hf3). apply (frame_index_rows t (meta c) d d2); [|done|].
    + apply (frame_trans _ _ d1); [done|]. eapply frame_mono; [|exact Hf2]. intros x ->. apply index_key_space, (starts_with_app "col_idx").
    + apply (Hread (N.of_nat (size t))). apply (Hstable _ d1); [done|]. eapply frame_mono; [|exact Hf2]. auto.
  - unfold stored_index_meta. rewrite Hf3; [by rewrite Hg2|].
    assert (space_of (idx_meta_key col) = Some SIndex) as -> by apply index_key_space, (starts_with_app "col_idx"). done.
Qed.

(** *** Keys of entries *)

Lemma ne_by_prefix q k k' : starts_with q k = false → starts_with q k' = true → k ≠ k'.
Proof. intros H1 H2 ->. congruence. Qed.
Lemma ends_in_unique c c' s : ends_in c s → ends_in c' s → c = c'.
Proof.
  intros [r ->] [r' H]. revert r' H. induction r as [|x r IH]; intros [|x' r'] H.
  - by injection H as ->.
  - change (String c "" = String x' (r' +:+ String c' "")) in H. injection H as -> H. by destruct r'.
  - change (String x (r +:+ String c "") = String c' "") in H. injection H as -> H. by destruct r.
  - change (String x (r +:+ String c "") = String x' (r' +:+ String c' "")) in H. injection H as -> H. by apply (IH r').
Qed.
Lemma ends_in_app c a b : ends_in c b → ends_in c (a +:+ b).
Proof. intros [r ->]. exists (a +:+ r). by rewrite str_app_assoc. Qed.
(** A text of lower-case hexadecimal digits, or an empty one after another. *)
Lemma hex_ends a b : ends_in "s" (String a (String ":" b)) → str_all Indexes.hex_digit b = true → False.
Proof.
  intros [r Hr] Hb. destruct r as [|x [|y r]].
  - done.
  - change (String a (String ":" b) = String x (String "s" "")) in Hr. by injection Hr as _ ?.
  - change (String a (String ":" b) = String x (String y (r +:+ String "s" ""))) in Hr. injection Hr as _ _ ->.
    rewrite str_all_app in Hb. by apply andb_true_iff in Hb as [_ ?].
Qed.
Context `{ends : !TextEnds Num}.
Lemma hex16_digits n : str_all Indexes.hex_digit (hex16 n) = true.
Proof.
  unfold hex16, Radix.pad. by apply Radix.fixed_all.
Qed.
Lemma key_end v : ¬ ends_in "s" (encode_value_for_key v).
Proof.
  unfold encode_value_for_key. destruct v as [|b|n|s|l|o].
  - intros H. by apply (hex_ends "0" "" H).
  - intros H. destruct b; by apply (hex_ends "1" _ H).
  - destruct (num_as_i64 n) as [i|]; [intros H; apply (hex_ends "2" _ H), hex16_digits|].
    destruct (num_as_f64 n) as [f|]; [intros H; apply (hex_ends "3" _ H), hex16_digits|].
    intros [r H]. destruct (number_ends n). destruct r as [|x [|y r]].
    + done.
    + change (String "9" (String ":" (num_to_string n)) = String x (String "s" "")) in H. by injection H as _ ?.
    + change (String "9" (String ":" (num_to_string n)) = String x (String y (r +:+ String "s" ""))) in H.
      injection H as _ _ ->. by exists r.
  - intros H. apply (hex_ends "4" _ H), Indexes.hex_alphabet.
  - intros H. assert (ends_in "]" ("9:" +:+ json_to_string (Array l))) as H' by apply ends_in_app, array_ends.
    by pose proof (ends_in_unique _ _ _ H H').
  - intros H. assert (ends_in "}" ("9:" +:+ json_to_string (Object o))) as H' by apply ends_in_app, object_ends.
    by pose proof (ends_in_unique _ _ _ H H').
Qed.
Lemma key_nonempty v : ∃ a r, encode_value_for_key v = String a r.
Proof.
  unfold encode_value_for_key. destruct v as [|b|n|s|l|o]; try by eexists _, _.
  destruct (num_as_i64 n); [by eexists _, _|]. destruct (num_as_f64 n); by eexists _, _.
Qed.
Lemma ends_in_suffix c a x b : ends_in c (a +:+ String x b) → ends_in c (String x b).
Proof.
  induction a as [|y a IH]; [done|]. intros [[|z r] H].
  - change (String y (a +:+ String x b) = String c "") in H. injection H as _ H. by destruct a.
  - change (String y (a +:+ String x b) = String z (r +:+ String c "")) in H. injection H as _ H. apply IH. by exists r.
Qed.
Lemma index_key_no_uuids col v k : encode_index_key col v ≠ k +:+ "_uuids".
Proof.
  intros H. apply (key_end v). destruct (key_nonempty v) as (a & r & E). rewrite E.
  apply (ends_in_suffix _ (index_prefix col)). rewrite <-E. unfold encode_index_key in H. rewrite H.
  apply (ends_in_app _ k "_uuids"). by exists "_uuid".
Qed.
Lemma uuids_readable_frame P d d' : (∀ k, starts_with COL_IDX_PREFIX k = true → ¬ P (k +:+ "_uuids")) →
  frame P d d' → uuids_readable d → uuids_readable d'.
Proof. intros HP Hf Hr k b Hk Hg. apply (Hr k b Hk). rewrite <-Hf; [done|]. by apply HP. Qed.
Lemma no_data_readable d : no_index_data d → uuids_readable d.
Proof. intros H k b Hk Hg. by rewrite H in Hg by by apply index_prefix_space. Qed.
Lemma starts_with_more p k r : starts_with p k = true → starts_with p (k +:+ r) = true.
Proof. intros [x ->]%starts_with_split. rewrite str_app_assoc. apply starts_with_app. Qed.

(** *** Lists of positions and bitmaps *)

(** The rows among the first [k] whose value has the key of [v]. *)
Definition hits t col (v : Value) (k : N) : list N :=
  List.filter (λ i, String.eqb (encode_value_for_key (val t col i)) (encode_value_for_key v)) (range k).
Lemma hits_succ t col v k : hits t col v (N.succ k) =
  hits t col v k ++ (if String.eqb (encode_value_for_key (val t col k)) (encode_value_for_key v) then [k] else []).
Proof. unfold hits. rewrite range_succ, List.filter_app. cbn. by destruct (String.eqb _ _). Qed.
Lemma hits_key t col v w k : encode_value_for_key v = encode_value_for_key w → hits t col v k = hits t col w k.
Proof. intros H. unfold hits. by rewrite H. Qed.
Definition ids_entry t col k d (v : Value) : Prop :=
  match hits t col v k with
  | [] => kv_get (encode_index_key col v) d = None
  | l => ∃ b, kv_get (encode_index_key col v) d = Some b ∧ ids_from_slice b = Some l
  end.
Definition ids_inv t col (k : N) d : Prop := (∀ v, ids_entry t col k d v) ∧ uuids_readable d.
Lemma index_key_space' col v : index_space (encode_index_key col v).
Proof. unfold encode_index_key, index_prefix. rewrite str_app_assoc. by apply index_prefix_space. Qed.
Lemma ids_start t col d : no_index_data d → ids_inv t col 0 d.
Proof.
  intros H. split; [|by apply no_data_readable]. intros v. unfold ids_entry. cbn. apply H, index_key_space'.
Qed.
Lemma index_key_inj col v w : encode_index_key col v = encode_index_key col w → encode_value_for_key v = encode_value_for_key w.
Proof. apply str_app_inj_l. Qed.
Lemma ids_step t col k m d : ids_inv t col k d →
  ∃ d', append_row_to_index (encode_index_key col (val t col k)) k (m, d) = (Ok tt, (m, d')) ∧
    frame index_space d d' ∧ ids_inv t col (N.succ k) d'.
Proof.
  intros [Hinv Hr]. unfold append_row_to_index. set (key := encode_index_key col (val t col k)).
  destruct (stored_ok ids_from_slice [] key m d) as (l & Hl & El).
  { intros b Hb. pose proof (Hinv (val t col k)) as H. unfold ids_entry in H. fold key in H.
    destruct (hits t col (val t col k) k); [congruence|]. destruct H as (b' & Hb' & H). rewrite Hb in Hb'. injection Hb' as <-. eauto. }
  assert (l = hits t col (val t col k) k) as ->.
  { pose proof (Hinv (val t col k)) as H. unfold ids_entry in H. fold key in H.
    destruct (hits t col (val t col k) k); [by rewrite H in El|]. destruct H as (b & Hb & H). rewrite Hb in El. cbn in El. by rewrite H in El. }
  rewrite (bind_ok _ _ _ _ _ Hl). unfold store_as. destruct (ids_roundtrip (hits t col (val t col k) k ++ [k])) as (b & Hb & Hb').
  rewrite Hb. cbn [ok_or]. rewrite bind_lift. destruct (put_ok key b m d) as (d' & Hput & Hget & Hf). exists d'. split; [done|]. split.
  { eapply frame_mono; [|exact Hf]. intros x ->. apply index_key_space'. }
  split; [|eapply uuids_readable_frame; [|exact Hf|done]; intros x _ E; by apply (index_key_no_uuids col (val t col k) x)].
  intros v. unfold ids_entry. rewrite hits_succ. destruct (String.eqb_spec (encode_value_for_key (val t col k)) (encode_value_for_key v)) as [E|Hne].
  - rewrite (hits_key t col v (val t col k) k) by done.
    assert (encode_index_key col v = key) as -> by (unfold key, encode_index_key; by rewrite E).
    destruct (hits t col (val t col k) k); cbn [app]; eauto.
  - rewrite app_nil_r. rewrite Hf by (intros E%index_key_inj; congruence). apply Hinv.
Qed.
Lemma ids_stable t col k d d' : ids_inv t col k d → frame (λ x, x = idx_meta_key col ∨ space_of x = Some SMeta) d d' → ids_inv t col k d'.
Proof.
  intros [Hinv Hr] Hf. split.
  - intros v. unfold ids_entry. rewrite Hf; [apply Hinv|]. intros [E|E]; [|by rewrite (index_key_space' col v) in E].
    revert E. apply (ne_by_prefix COL_IDX_META_PREFIX); [reflexivity|apply starts_with_app].
  - eapply uuids_readable_frame; [|exact Hf|done]. intros k' Hk [E|E]; [|by rewrite (index_prefix_space k' _ Hk) in E].
    revert E. apply not_eq_sym, (ne_by_prefix COL_IDX_PREFIX); [reflexivity|by apply starts_with_more].
Qed.
Lemma ids_lookup t col v (c : Columnar) d : cf c = Some d → ids_inv t col (N.of_nat (size t)) d →
  index_lookup_eq col v c = Ok (hits t col v (N.of_nat (size t))).
Proof.
  intros Hc [Hinv _]. unfold index_lookup_eq, reading. rewrite Hc. specialize (Hinv v). unfold ids_entry in Hinv.
  destruct (hits t col v _); [by rewrite Hinv|]. destruct Hinv as (b & -> & Hb). by rewrite Hb.
Qed.

Lemma bitmap_key_app col v : encode_bitmap_key col v = (COL_IDX_BITMAP_PREFIX +:+ (col +:+ ":")) +:+ encode_value_for_key v.
Proof. unfold encode_bitmap_key. by rewrite !str_app_assoc. Qed.
Lemma bitmap_key_space col v : index_space (encode_bitmap_key col v).
Proof. apply index_key_space, (starts_with_app "col_idx"). Qed.
Definition bitmap_entry t col k d (v : Value) : Prop :=
  ∃ bm, bytes_ok bm ∧ (∀ j, j ∈ bitmap_rows bm ↔ j ∈ hits t col v k) ∧
    (kv_get (encode_bitmap_key col v) d = None ∧ bm = [] ∨
     kv_get (encode_bitmap_key col v) d = Some (compress_data (bitmap_text bm) Lz4)).
Definition bitmap_inv t col (k : N) d : Prop := (∀ v, bitmap_entry t col k d v) ∧ uuids_readable d.
Lemma bitmap_start t col d : no_index_data d → bitmap_inv t col 0 d.
Proof.
  intros H. split; [|by apply no_data_readable]. intros v. exists []. split; [constructor|]. split; [done|].
  left. split; [|done]. apply H, bitmap_key_space.
Qed.
Lemma special_key_no_uuids key k : starts_with "col_idx_" key = true → starts_with COL_IDX_PREFIX k = true → key ≠ k +:+ "_uuids".
Proof. intros [r ->]%starts_with_split [r' ->]%starts_with_split. rewrite str_app_assoc. discriminate. Qed.
Lemma special_frame (key : string) d d' : starts_with "col_idx_" key = true → frame (λ x, x = key) d d' → uuids_readable d → uuids_readable d'.
Proof.
  intros Hk Hf. eapply uuids_readable_frame; [|exact Hf]. intros k Hk' E. by apply (special_key_no_uuids key k Hk Hk').
Qed.
Lemma bitmap_step t col k m d : bitmap_inv t col k d →
  ∃ d', append_row_to_bitmap_index (encode_bitmap_key col (val t col k)) k (m, d) = (Ok tt, (m, d')) ∧
    frame index_space d d' ∧ bitmap_inv t col (N.succ k) d'.
Proof.
  intros [Hinv Hr]. unfold append_row_to_bitmap_index. set (key := encode_bitmap_key col (val t col k)). rewrite bind_db.
  destruct (Hinv (val t col k)) as (bm & Hbytes & Hrows & Hst). fold key in Hst.
  set (cont := λ bitmap : string, put (DB:=DB) key (compress_data (bitmap_text (set_bit k (bitmap_bytes bitmap))) Lz4)).
  assert ((match kv_get key d with Some b => lift (decompress_data b Lz4) | None => mret "" end ≫= cont) (m, d) =
          put key (compress_data (bitmap_text (set_bit k bm)) Lz4) (m, d)) as ->.
  { destruct Hst as [[-> ->]| ->]; [done|]. cbn [decompress_data compress_data]. rewrite lz4_roundtrip. cbn [ok_or].
    rewrite bind_lift. unfold cont. by rewrite bitmap_roundtrip. }
  destruct (put_ok key (compress_data (bitmap_text (set_bit k bm)) Lz4) m d) as (d' & Hput & Hget & Hf).
  exists d'. split; [done|]. split; [eapply frame_mono; [|exact Hf]; intros x ->; apply bitmap_key_space|].
  split; [|apply (special_frame key d d'); [apply (starts_with_app "col_idx_")|done..]]. intros v. unfold bitmap_entry. setoid_rewrite hits_succ.
  destruct (String.eqb_spec (encode_value_for_key (val t col k)) (encode_value_for_key v)) as [E|Hne].
  - exists (set_bit k bm). split; [by apply set_bit_bytes|].
    assert (encode_bitmap_key col v = key) as -> by (unfold key, encode_bitmap_key; by rewrite E). split; [|by right].
    intros j. rewrite set_bit_elem, Hrows, (hits_key t col v (val t col k) k) by done. rewrite elem_of_app, list_elem_of_singleton. naive_solver.
  - destruct (Hinv v) as (bm' & Hb' & Hr' & Hs'). exists bm'. rewrite app_nil_r. split; [done|]. split; [done|].
    rewrite Hf; [done|]. unfold key. rewrite !bitmap_key_app. intros E%str_app_inj_l. congruence.
Qed.
Lemma bitmap_stable t col k d d' : bitmap_inv t col k d → frame (λ x, x = idx_meta_key col ∨ space_of x = Some SMeta) d d' → bitmap_inv t col k d'.
Proof.
  intros [Hinv Hr] Hf. split.
  - intros v. unfold bitmap_entry. rewrite Hf; [apply Hinv|]. intros [E|E]; [|by rewrite (bitmap_key_space col v) in E].
    revert E. apply (ne_by_prefix COL_IDX_META_PREFIX); [reflexivity|apply starts_with_app].
  - eapply uuids_readable_frame; [|exact Hf|done]. intros k' Hk [E|E]; [|by rewrite (index_prefix_space k' _ Hk) in E].
    revert E. apply not_eq_sym, (special_key_no_uuids (idx_meta_key col)); [apply (starts_with_app "col_idx_")|done].
Qed.
Lemma hits_increasing t col v k : increasing (hits t col v k).
Proof. apply filter_increasing, range_increasing. Qed.
Lemma bitmap_lookup t col v (c : Columnar) d : cf c = Some d → bitmap_inv t col (N.of_nat (size t)) d →
  index_lookup_bitmap col v c = Ok (hits t col v (N.of_nat (size t))).
Proof.
  intros Hc [Hinv _]. unfold index_lookup_bitmap, reading. rewrite Hc. destruct (Hinv v) as (bm & Hb & Hr & Hst). f_equal.
  assert (bitmap_rows bm = hits t col v (N.of_nat (size t))) as <-.
  { apply increasing_unique; [apply bitmap_rows_increasing|apply hits_increasing|done]. }
  destruct Hst as [[-> ->]| ->]; [done|]. cbn [decompress_data compress_data]. rewrite lz4_roundtrip. cbn [ok_or].
  by rewrite bitmap_roundtrip.
Qed.

(** *** Chunks of rows *)

Lemma range_split a b : (a <= b)%N → range b = range a ++ range_from a b.
Proof.
  intros H. unfold range_from. set (k := (b - a)%N). replace b with (a + k)%N by lia. clearbody k. clear H b.
  induction k as [|k IH] using N.peano_ind; [by rewrite N.add_0_r, app_nil_r|].
  rewrite N.add_succ_r, !range_succ, IH, fmap_app, app_assoc. done.
Qed.
Lemma elem_of_range_from a b i : i ∈ range_from a b ↔ (a <= i < b)%N.
Proof.
  unfold range_from. rewrite list_elem_of_fmap. setoid_rewrite elem_of_range. split; [intros (k & -> & ?); lia|].
  intros H. exists (i - a)%N. lia.
Qed.
Lemma filter_const {A} (p : A → bool) b l : (∀ x, x ∈ l → p x = b) → List.filter p l = if b then l else [].
Proof.
  induction l as [|x l IH]; intros H; [by destruct b|]. cbn. rewrite (H x) by (by left). rewrite IH by (intros y Hy; apply H; by right).
  by destruct b.
Qed.
Lemma chunk_of i j : (j * MINMAX_CHUNK_SIZE <= i < j * MINMAX_CHUNK_SIZE + MINMAX_CHUNK_SIZE)%N → (i / MINMAX_CHUNK_SIZE = j)%N.
Proof. unfold MINMAX_CHUNK_SIZE. intros H. symmetry. apply (N.div_unique _ _ _ (i - j * 1000)); lia. Qed.
Lemma candidates_upto (p : N → bool) n c :
  flat_map (λ i, if p i then chunk_rows n i else []) (range c) =
  List.filter (λ i, p (i / MINMAX_CHUNK_SIZE)%N) (range (N.min (c * MINMAX_CHUNK_SIZE) n)).
Proof.
  induction c as [|c IH] using N.peano_ind; [by rewrite N.mul_0_l, N.min_0_l|]. rewrite range_succ, flat_map_app, IH. cbn [flat_map]. rewrite app_nil_r.
  rewrite (range_split (N.min (c * MINMAX_CHUNK_SIZE) n) (N.min (N.succ c * MINMAX_CHUNK_SIZE) n)) by (unfold MINMAX_CHUNK_SIZE; lia).
  rewrite List.filter_app. f_equal. unfold chunk_rows.
  replace (range_from (N.min (c * MINMAX_CHUNK_SIZE) n) (N.min (N.succ c * MINMAX_CHUNK_SIZE) n))
    with (range_from (c * MINMAX_CHUNK_SIZE) (N.min (c * MINMAX_CHUNK_SIZE + MINMAX_CHUNK_SIZE) n)).
  - symmetry. apply filter_const. intros i Hi%elem_of_range_from. f_equal. apply chunk_of. lia.
  - replace (N.succ c * MINMAX_CHUNK_SIZE)%N with (c * MINMAX_CHUNK_SIZE + MINMAX_CHUNK_SIZE)%N by lia.
    destruct (N.le_gt_cases (c * MINMAX_CHUNK_SIZE) n) as [Hle|Hgt]; [by rewrite (N.min_l (c * MINMAX_CHUNK_SIZE) n)|].
    rewrite !(N.min_r _ n) by lia. unfold range_from. rewrite N.sub_diag. replace (n - c * MINMAX_CHUNK_SIZE)%N with 0%N by lia. done.
Qed.
Lemma candidate_rows_eq (p : N → bool) n : candidate_rows p n = List.filter (λ i, p (i / MINMAX_CHUNK_SIZE)%N) (range n).
Proof.
  unfold candidate_rows. rewrite candidates_upto. rewrite N.min_r; [done|]. unfold div_ceil, MINMAX_CHUNK_SIZE.
  pose proof (N.div_mod (n + 1000 - 1) 1000). pose proof (N.mod_lt (n + 1000 - 1) 1000). lia.
Qed.
Lemma verified_map (test : Value → bool) (f : N → Value) ids : verified test ids (f <$> ids) = List.filter (λ i, test (f i)) ids.
Proof.
  unfold verified. induction ids as [|i ids IH]; [done|]. cbn. destruct (test (f i)); cbn; [f_equal|]; exact IH.
Qed.
Lemma verify_ok t (c : Columnar) col test q n : table t c → has_column (meta c) col = true → (n <= N.of_nat (size t))%N →
  verify_candidates col test (List.filter q (range n)) c = Ok (List.filter (λ i, q i && test (val t col i)) (range n)).
Proof.
  intros Ht Hc Hn. unfold verify_candidates, read_column_by_positions. rewrite (positions_ok t c _ Ht). cbn [result_bind].
  destruct (at_positions t (List.filter q (range n))) as [H1 H2].
  { apply Forall_forall. intros i [Hi%elem_of_range _]%In_filter. lia. }
  rewrite (read_column_ok t c col) by done. cbn [result_bind]. f_equal.
  assert (((λ u, field (row_at t u) col) <$> omap (at_position (uuids_of t)) (List.filter q (range n))) =
          (val t col <$> List.filter q (range n))) as ->.
  { transitivity ((λ row, field row col) <$> (row_at t <$> omap (at_position (uuids_of t)) (List.filter q (range n)))).
    - by rewrite <-list_fmap_compose.
    - rewrite H2. by rewrite <-list_fmap_compose. }
  rewrite verified_map. apply filter_filter.
Qed.
(** A chunk that holds a row that passes the test is a candidate. *)
Lemma pruned_scan t (c : Columnar) col test (p : N → bool) : table t c → has_column (meta c) col = true →
  (∀ i, (i < N.of_nat (size t))%N → test (val t col i) = true → p (i / MINMAX_CHUNK_SIZE)%N = true) →
  verify_candidates col test (candidate_rows p (N.of_nat (size t))) c =
  Ok (List.filter (λ i, test (val t col i)) (range (N.of_nat (size t)))).
Proof.
  intros Ht Hc H. rewrite candidate_rows_eq, (verify_ok t c) by done. f_equal. apply filter_eq_range. intros i Hi.
  destruct (test (val t col i)) eqn:E; [|by rewrite andb_false_r]. by rewrite (H i Hi E).
Qed.

(** *** Summaries of chunks *)

Section Chunks.
Context {X : Type} (prefix : string) (from_slice : string → option X) (to_slice : X → option string).
Context (codec : ∀ x, ∃ b, to_slice x = Some b ∧ from_slice b = Some x).
Context (wf : X → Prop) (covers : X → Value → Prop).
Context (Hprefix : starts_with "col_idx_" prefix = true).

Definition chunk_key (col : string) (j : N) : string := prefix +:+ (col +:+ (":" +:+ dec j)).
Lemma dec_inj i j : dec i = dec j → i = j.
Proof.
  intros H. assert (∀ n bound, (n < bound)%N → Radix.from_str_radix 10 bound (dec n) = Some n) as Hp.
  { intros n bound Hn. by apply Radix.from_str_radix_pad. }
  pose proof (Hp i (N.succ (N.max i j)) ltac:(lia)) as H1. rewrite H, Hp in H1 by lia. congruence.
Qed.
Lemma chunk_key_inj col i j : chunk_key col i = chunk_key col j → i = j.
Proof. unfold chunk_key. intros H%str_app_inj_l%str_app_inj_l%str_app_inj_l. by apply dec_inj. Qed.
Lemma chunk_key_special col j : starts_with "col_idx_" (chunk_key col j) = true.
Proof. by apply starts_with_more. Qed.
Lemma chunk_key_space col j : index_space (chunk_key col j).
Proof.
  apply index_key_space. apply starts_with_split in Hprefix as [r E]. unfold chunk_key. rewrite E.
  rewrite str_app_assoc. apply (starts_with_app "col_idx").
Qed.
Definition chunk_inv t col (k : N) d : Prop :=
  (∀ j, match kv_get (chunk_key col j) d with
        | Some b => ∃ x, from_slice b = Some x ∧ wf x ∧ ∀ i, (i < k)%N → (i / MINMAX_CHUNK_SIZE = j)%N → covers x (val t col i)
        | None => ∀ i, (i < k)%N → (i / MINMAX_CHUNK_SIZE ≠ j)%N
        end) ∧ uuids_readable d.
Lemma chunk_start t col d : no_index_data d → chunk_inv t col 0 d.
Proof.
  intros H. split; [|by apply no_data_readable]. intros j. rewrite H by apply chunk_key_space. lia.
Qed.
Lemma chunk_step t col k m d dflt (g : X → X) : chunk_inv t col k d → wf dflt →
  (∀ x, wf x → wf (g x)) → covers (g dflt) (val t col k) → (∀ x, wf x → covers (g x) (val t col k)) →
  (∀ x i, wf x → (i < k)%N → covers x (val t col i) → covers (g x) (val t col i)) →
  ∃ d', (x ← stored from_slice dflt (chunk_key col (k / MINMAX_CHUNK_SIZE)); store_as to_slice (chunk_key col (k / MINMAX_CHUNK_SIZE)) (g x)) (m, d)
          = (Ok tt, (m, d')) ∧ frame index_space d d' ∧ chunk_inv t col (N.succ k) d'.
Proof.
  intros [Hinv Hr] Hd Hwf Hcd Hc Hkeep. set (key := chunk_key col (k / MINMAX_CHUNK_SIZE)).
  pose proof (Hinv (k / MINMAX_CHUNK_SIZE)%N) as Hcur. fold key in Hcur.
  destruct (stored_ok from_slice dflt key m d) as (x & Hx & Ex).
  { intros b Hb. rewrite Hb in Hcur. destruct Hcur as (x & Hx & _). eauto. }
  rewrite (bind_ok _ _ _ _ _ Hx). unfold store_as. destruct (codec (g x)) as (b & Hb & Hb'). rewrite Hb. cbn [ok_or]. rewrite bind_lift.
  destruct (put_ok key b m d) as (d' & Hput & Hget & Hf). exists d'. split; [done|].
  split; [eapply frame_mono; [|exact Hf]; intros y ->; apply chunk_key_space|].
  split; [|apply (special_frame key d d'); [apply chunk_key_special|done..]].
  intros j. destruct (decide (j = k / MINMAX_CHUNK_SIZE)%N) as [->|Hne].
  - fold key. rewrite Hget. exists (g x). split; [done|]. destruct (kv_get key d) as [b0|].
    + destruct Hcur as (x0 & E & Hw & Hcov). cbn in Ex. rewrite E in Ex. cbn in Ex. subst x0. split; [by apply Hwf|].
      intros i Hi Hij. destruct (decide (i = k)) as [->|]; [by apply Hc|]. apply Hkeep; [done|lia|]. apply Hcov; [lia|done].
    + cbn in Ex. subst x. split; [by apply Hwf|]. intros i Hi Hij. destruct (decide (i = k)) as [->|]; [done|].
      destruct (Hcur i ltac:(lia) Hij).
  - rewrite Hf by (by intros E%chunk_key_inj). specialize (Hinv j). destruct (kv_get (chunk_key col j) d).
    + destruct Hinv as (x0 & E & Hw & Hcov). exists x0. split; [done|]. split; [done|]. intros i Hi Hij. apply Hcov; [|done].
      destruct (decide (i = k)) as [->|]; [by destruct Hne|lia].
    + intros i Hi Hij. destruct (decide (i = k)) as [->|]; [by destruct Hne|]. apply (Hinv i); [lia|done].
Qed.
Lemma chunk_stable t col k d d' : (∀ j, starts_with COL_IDX_META_PREFIX (chunk_key col j) = false) →
  chunk_inv t col k d → frame (λ x, x = idx_meta_key col ∨ space_of x = Some SMeta) d d' → chunk_inv t col k d'.
Proof.
  intros Hno [Hinv Hr] Hf. split.
  - intros j. rewrite Hf; [apply Hinv|]. intros [E|E]; [|by rewrite (chunk_key_space col j) in E].
    revert E. apply (ne_by_prefix COL_IDX_META_PREFIX); [apply Hno|apply starts_with_app].
  - eapply uuids_readable_frame; [|exact Hf|done]. intros k' Hk [E|E]; [|by rewrite (index_prefix_space k' _ Hk) in E].
    revert E. apply not_eq_sym, (special_key_no_uuids (idx_meta_key col)); [apply (starts_with_app "col_idx_")|done].
Qed.
End Chunks.

(** *** Minimum and maximum, and bloom filters *)

Context (finite_numbers : ∀ (n : Num) x, num_as_f64 n = Some x → f64_finite x = true).
Definition numeric (w : Value) : Prop := is_Some (as_f64 w).
Definition num (w : Value) : Z := f64_num (default 0%N (as_f64 w)).
Lemma finite_not_nan x : f64_finite x = true → F64.is_nan x = false.
Proof.
  unfold f64_finite, F64.is_nan, F64.magnitude, F64.infinity. intros [_ H]%andb_true_iff. apply N.ltb_lt in H. apply N.ltb_ge.
  pose proof (N.div_mod (x mod sign_bit) (2 ^ 52)). pose proof (N.mod_lt (x mod sign_bit) (2 ^ 52)). lia.
Qed.
Lemma numeric_finite w x : as_f64 w = Some x → F64.is_nan x = false.
Proof. destruct w; try done. intros H. by eapply finite_not_nan, finite_numbers. Qed.
Lemma compare_numeric v w : numeric v → numeric w → compare_values v w = Z.compare (num v) (num w).
Proof.
  intros [x Hx] [y Hy]. unfold num. rewrite Hx, Hy. cbn [default Datatypes.id]. pose proof (numeric_finite v x Hx) as Nx.
  pose proof (numeric_finite w y Hy) as Ny. destruct v, w; try done. unfold as_f64, Values.as_f64 in Hx, Hy. cbn [compare_values].
  rewrite Hx, Hy. cbn. unfold F64.partial_cmp. by rewrite Nx, Ny.
Qed.
Definition all_numeric t col : Prop := ∀ i, (i < N.of_nat (size t))%N → numeric (val t col i).
Definition chunk_wf t col (ch : MinMaxChunk Num) : Prop := all_numeric t col → numeric (chunk_min ch) ∧ numeric (chunk_max ch).
Definition chunk_covers t col (ch : MinMaxChunk Num) (w : Value) : Prop :=
  all_numeric t col → (num (chunk_min ch) <= num w <= num (chunk_max ch))%Z.
Definition minmax_inv t col : N → DB → Prop :=
  chunk_inv COL_IDX_MINMAX_PREFIX chunk_from_slice (chunk_wf t col) (chunk_covers t col) t col.
Definition bloom_inv t col : N → DB → Prop :=
  chunk_inv COL_IDX_BLOOM_PREFIX bloom_from_slice (λ _, True) (λ f w, bloom_contains (json_to_string w) f = true) t col.
Lemma widen_wf t col v ch : (all_numeric t col → numeric v) → chunk_wf t col ch → chunk_wf t col (widen v ch).
Proof.
  intros Hv Hw Ha. destruct (Hw Ha). unfold widen. cbn.
  split; [destruct (compare_values v (chunk_min ch))|destruct (compare_values v (chunk_max ch))]; auto.
Qed.
Lemma widen_bounds t col v ch : (all_numeric t col → numeric v) → chunk_wf t col ch → all_numeric t col →
  (num (chunk_min (widen v ch)) <= Z.min (num v) (num (chunk_min ch)))%Z ∧
  (Z.max (num v) (num (chunk_max ch)) <= num (chunk_max (widen v ch)))%Z.
Proof.
  intros Hv Hw Ha. destruct (Hw Ha) as [H1 H2]. specialize (Hv Ha). unfold widen. cbn.
  rewrite (compare_numeric v (chunk_min ch)), (compare_numeric v (chunk_max ch)) by done.
  destruct (Z.compare_spec (num v) (num (chunk_min ch))), (Z.compare_spec (num v) (num (chunk_max ch))); lia.
Qed.
Lemma minmax_step t col k m d : (k < N.of_nat (size t))%N → minmax_inv t col k d →
  ∃ d', update_minmax_index col (val t col k) k (m, d) = (Ok tt, (m, d')) ∧ frame index_space d d' ∧ minmax_inv t col (N.succ k) d'.
Proof.
  intros Hk Hinv. assert (all_numeric t col → numeric (val t col k)) as Hv by (intros H; by apply H).
  apply (chunk_step COL_IDX_MINMAX_PREFIX chunk_from_slice chunk_to_vec chunk_roundtrip (chunk_wf t col) (chunk_covers t col)
    eq_refl t col k m d (mkChunk (val t col k) (val t col k) 0) (widen (val t col k))); [done|by intros H; split; apply Hv|..].
  - intros x. by apply widen_wf.
  - intros Ha. assert (chunk_wf t col (mkChunk (val t col k) (val t col k) 0)) as Hw by (intros H; split; by apply Hv).
    destruct (widen_bounds t col _ _ Hv Hw Ha) as [H1 H2]. cbn [chunk_min chunk_max] in H1, H2. lia.
  - intros x Hx Ha. destruct (widen_bounds t col _ _ Hv Hx Ha). lia.
  - intros x i Hx Hi Hc Ha. destruct (widen_bounds t col _ _ Hv Hx Ha). specialize (Hc Ha). lia.
Qed.
Lemma bloom_step t col k m d : bloom_inv t col k d →
  ∃ d', update_bloom_index col (val t col k) k (m, d) = (Ok tt, (m, d')) ∧ frame index_space d d' ∧ bloom_inv t col (N.succ k) d'.
Proof.
  intros Hinv. apply (chunk_step COL_IDX_BLOOM_PREFIX bloom_from_slice bloom_to_vec bloom_roundtrip (λ _, True)
    (λ f w, bloom_contains (json_to_string w) f = true) eq_refl t col k m d bloom_new (bloom_insert (json_to_string (val t col k))));
    [done|done|done|apply bloom_inserted|intros; apply bloom_inserted|intros x i _ _; apply bloom_kept].
Qed.
(** What an index holds after [k] rows. *)
Definition index_inv t col (ty : ColumnarIndexType) : N → DB → Prop :=
  match ty with
  | Bitmap => bitmap_inv t col
  | MinMax => minmax_inv t col
  | Bloom => bloom_inv t col
  | _ => ids_inv t col
  end.
Lemma index_built t (c : Columnar) d now col ty : table t c → cf c = Some d → no_index_data d → unindexed (meta c) →
  has_column (meta c) col = true →
  ∃ c' d', create_index now col ty c = (Ok tt, c') ∧ cf c' = Some d' ∧ index_inv t col ty (N.of_nat (size t)) d' ∧ table t c' ∧
    get_index_type col (meta c') = Some ty ∧ has_sorted_index col c' = bool_decide (ty = Sorted) ∧
    (∀ col', col' ≠ col → get_index_type col' (meta c') = None ∧ has_sorted_index col' c' = false) ∧
    (∀ col', has_column (meta c') col' = has_column (meta c) col').
Proof.
  intros Ht Hcf Hno Hu Hcol. destruct (column_at col (meta c)) as [[i cd]|] eqn:Hc.
  2: { apply list_find_None in Hc. apply has_column_elem in Hcol as (x & Hx & E). rewrite Forall_forall in Hc. by destruct (Hc x Hx). }
  destruct (create_index_ok t c d now col i cd ty (index_inv t col ty)) as (c' & d' & H1 & H2 & H3 & H4 & H5 & H6); [done..| | | | |].
  - destruct ty; [by apply ids_start|by apply ids_start|by apply bitmap_start|by apply chunk_start|by apply chunk_start].
  - intros k d1 Hk HI. destruct ty; [by apply ids_step|by apply ids_step|by apply bitmap_step|by apply minmax_step|by apply bloom_step].
  - intros k d1 d2. destruct ty; [apply ids_stable|apply ids_stable|apply bitmap_stable|by apply chunk_stable|by apply chunk_stable].
  - intros k d1 HI. destruct ty; by destruct HI.
  - exists c', d'. destruct (marked_columns (meta c) col i cd ty Hu Hc) as (M1 & M2 & M3 & M4). rewrite <-H5 in *.
    split; [done|]. split; [done|]. split; [done|]. split; [done|]. split; [done|]. split_and!.
    + unfold has_sorted_index. by rewrite M2, H2, H6.
    + intros col' Hne. destruct (M3 col' Hne) as [M5 M6]. split; [done|]. unfold has_sorted_index. by rewrite M6.
    + done.
Qed.

(** *** Filters through an index *)

Lemma hits_plain t col v n : plain v → hits t col v n = List.filter (λ i, value_eqb (val t col i) v) (range n).
Proof.
  intros Hv. apply filter_eq_range. intros i _. apply eq_bool_prop_intro. rewrite !Is_true_true, String.eqb_eq.
  by rewrite plain_key, plain_eqb.
Qed.
Lemma mem_concat (f : Value → list N) vs i : mem (concat (f <$> vs)) i = existsb (λ v, mem (f v) i) vs.
Proof. unfold mem. induction vs as [|v vs IH]; [done|]. cbn. by rewrite existsb_app, IH. Qed.
(** The sorted union of lookups. *)
Lemma union_ok (c : Columnar) (look : Value → Columnar → result DbError (list N)) vs (p : Value → N → bool) n :
  (∀ v, v ∈ vs → look v c = Ok (List.filter (p v) (range n))) →
  result_bind (collect (λ v, look v c) vs) (λ ls, Ok (sort_dedup (concat ls))) = Ok (List.filter (λ i, existsb (λ v, p v i) vs) (range n)).
Proof.
  intros H. rewrite (collect_ok _ (λ v, List.filter (p v) (range n))) by done. cbn [result_bind]. f_equal.
  rewrite (sort_dedup_range _ n).
  - apply filter_eq_range. intros i Hi. rewrite mem_concat. clear H. induction vs as [|v vs IH]; [done|]. cbn [existsb]. f_equal; [|done].
    apply eq_bool_prop_intro. rewrite !Is_true_true, mem_spec, In_filter, elem_of_range. naive_solver.
  - apply Forall_concat, Forall_fmap, Forall_forall. intros v _. apply Forall_forall. by intros i [Hi%elem_of_range _]%In_filter.
Qed.
Definition leaf (f : ColumnFilter) (col : string) : Prop := match f with FAnd _ | FOr _ => False | _ => filter_columns f = [col] end.
(** What a filter on an indexed column may ask. *)
Definition supported t col (ty : ColumnarIndexType) (f : ColumnFilter) : Prop :=
  match f with
  | FEq _ v => plain v
  | FIn _ vs => Forall plain vs
  | FGt _ v | FGte _ v | FLt _ v | FLte _ v => ty ≠ Sorted ∧ (ty = MinMax → numeric v ∧ all_numeric t col)
  | _ => True
  end.
Lemma leaf_scan t (c : Columnar) f col n : table t c → has_column (meta c) col = true → leaf f col → (n <= N.of_nat (size t))%N →
  get_index_type col (meta c) = None → has_sorted_index col c = false →
  apply_filter c f n = Ok (List.filter (λ i, value_test f (val t col i)) (range n)).
Proof.
  intros Ht Hc Hl Hn Hi Hs. destruct f; try done; injection Hl as ->; cbn [apply_filter];
    unfold filter_eq, filter_range, filter_in; rewrite ?Hi, ?Hs; by apply (full_scan_ok t c).
Qed.
Lemma minmax_candidates t (c : Columnar) d col f i : (∃ v, f = FGt col v ∨ f = FGte col v ∨ f = FLt col v ∨ f = FLte col v) →
  cf c = Some d → minmax_inv t col (N.of_nat (size t)) d → all_numeric t col → numeric (filter_value f) →
  (i < N.of_nat (size t))%N → number_test f (val t col i) = true →
  match kv_get (encode_minmax_key col (i / MINMAX_CHUNK_SIZE)) d ≫= chunk_from_slice with Some ch => chunk_matches f ch | None => false end = true.
Proof.
  intros Hf Hcf [Hinv _] Ha [y Hy] Hi Htest. specialize (Hinv (i / MINMAX_CHUNK_SIZE)%N).
  change (chunk_key COL_IDX_MINMAX_PREFIX col (i / MINMAX_CHUNK_SIZE)) with (encode_minmax_key col (i / MINMAX_CHUNK_SIZE)) in Hinv.
  destruct (kv_get _ d) as [b|]; [|by destruct (Hinv i Hi)]. destruct Hinv as (ch & Hch & Hwf & Hcov). cbn. rewrite Hch.
  destruct (Hwf Ha) as [N1 N2]. pose proof (Hcov i Hi eq_refl Ha) as Hb. destruct (Ha i Hi) as [x Hx].
  unfold number_test in Htest. rewrite Hx in Htest. unfold threshold in Htest. rewrite Hy in Htest. cbn [default Datatypes.id] in Htest.
  unfold F64.partial_cmp in Htest. rewrite (numeric_finite _ x Hx), (numeric_finite _ y Hy) in Htest. cbn [orb] in Htest.
  assert (num (val t col i) = f64_num x) as Ex by (unfold num; by rewrite Hx).
  destruct Hf as (v & [->|[->|[->| ->]]]); cbn [filter_value] in Hy; cbn [chunk_matches];
    (rewrite compare_numeric; [|done|by exists y]); assert (num v = f64_num y) as Ey by (unfold num; by rewrite Hy);
    rewrite Ey; cbn [range_test] in *; destruct (Z.compare_spec (f64_num x) (f64_num y)); try done.
  - destruct (Z.compare_spec (num (chunk_max ch)) (f64_num y)); [lia|lia|done].
  - destruct (Z.compare_spec (num (chunk_max ch)) (f64_num y)); [done|lia|done].
  - destruct (Z.compare_spec (num (chunk_max ch)) (f64_num y)); [done|lia|done].
  - destruct (Z.compare_spec (num (chunk_min ch)) (f64_num y)); [lia|done|lia].
  - destruct (Z.compare_spec (num (chunk_min ch)) (f64_num y)); [done|done|lia].
  - destruct (Z.compare_spec (num (chunk_min ch)) (f64_num y)); [done|done|lia].
Qed.
Lemma bloom_candidates t d col v i : bloom_inv t col (N.of_nat (size t)) d → plain v → (i < N.of_nat (size t))%N →
  value_eqb (val t col i) v = true →
  match kv_get (encode_bloom_key col (i / MINMAX_CHUNK_SIZE)) d ≫= bloom_from_slice with
  | Some b => bloom_contains (json_to_string v) b | None => true end = true.
Proof.
  intros [Hinv _] Hv Hi E%plain_eqb; [|done]. specialize (Hinv (i / MINMAX_CHUNK_SIZE)%N).
  change (chunk_key COL_IDX_BLOOM_PREFIX col (i / MINMAX_CHUNK_SIZE)) with (encode_bloom_key col (i / MINMAX_CHUNK_SIZE)) in Hinv.
  destruct (kv_get _ d) as [b|]; [|done]. destruct Hinv as (x & Hx & _ & Hcov). cbn. rewrite Hx. rewrite <-E. by apply Hcov.
Qed.
Lemma contained_sym vs w : Forall plain vs → contained vs w = existsb (λ v, value_eqb w v) vs.
Proof. unfold contained. induction 1 as [|v vs Hv _ IH]; [done|]. cbn. by rewrite IH, (plain_eqb_sym v w). Qed.
Lemma indexed_filter t (c : Columnar) d col ty f : table t c → cf c = Some d → index_inv t col ty (N.of_nat (size t)) d →
  has_column (meta c) col = true → get_index_type col (meta c) = Some ty → has_sorted_index col c = bool_decide (ty = Sorted) →
  leaf f col → supported t col ty f →
  apply_filter c f (N.of_nat (size t)) = Ok (List.filter (λ i, value_test f (val t col i)) (range (N.of_nat (size t)))).
Proof.
  intros Ht Hcf HI Hcol Hty Hs Hl Hsup. pose proof (tb_count _ _ Ht) as Hn.
  assert (∀ v, plain v → get_candidate_rows_from_bloom col v c = Ok (candidate_rows (λ i,
    match kv_get (encode_bloom_key col i) d ≫= bloom_from_slice with Some b => bloom_contains (json_to_string v) b | None => true end) (N.of_nat (size t)))) as Hbl.
  { intros v _. unfold get_candidate_rows_from_bloom, reading. by rewrite Hcf, Hn. }
  assert (∀ f, (∃ v, f = FGt col v ∨ f = FGte col v ∨ f = FLt col v ∨ f = FLte col v) → supported t col ty f →
    filter_range col f (N.of_nat (size t)) c = Ok (List.filter (λ i, number_test f (val t col i)) (range (N.of_nat (size t))))) as Hrange.
  { intros g Hg Hsg. unfold filter_range. rewrite Hs, Hty.
    assert (ty ≠ Sorted ∧ (ty = MinMax → numeric (filter_value g) ∧ all_numeric t col)) as [Hns Hmm]
      by (destruct Hg as (v & [->|[->|[->| ->]]]); exact Hsg).
    rewrite bool_decide_false by done. destruct ty; try (by apply (full_scan_ok t c)). destruct (Hmm eq_refl) as [Hv Ha].
    unfold get_candidate_rows_from_minmax, reading. rewrite Hcf, Hn. cbn [result_bind].
    apply (pruned_scan t c col); [done..|]. intros i Hi Htest. by apply (minmax_candidates t c d col g i). }
  destruct f as [col' v|col' v|col' v|col' v|col' v|col' v|col' vs|fs|fs]; try done; injection Hl as ->; cbn [apply_filter supported] in *.
  - unfold filter_eq. rewrite Hty. destruct ty; cbn [index_inv] in HI.
    + rewrite (ids_lookup t col v c d Hcf HI). by rewrite hits_plain.
    + rewrite (ids_lookup t col v c d Hcf HI). by rewrite hits_plain.
    + rewrite (bitmap_lookup t col v c d Hcf HI). by rewrite hits_plain.
    + by apply (full_scan_ok t c).
    + rewrite Hbl by done. cbn [result_bind]. apply (pruned_scan t c col); [done..|]. intros i Hi. by apply (bloom_candidates t d col v i).
  - by apply (full_scan_ok t c).
  - apply Hrange; [eexists; eauto|done].
  - apply Hrange; [eexists; eauto|done].
  - apply Hrange; [eexists; eauto|done].
  - apply Hrange; [eexists; eauto|done].
  - assert (∀ (look : Value → Columnar → result DbError (list N)), (∀ v, look v c = Ok (hits t col v (N.of_nat (size t)))) →
      result_bind (collect (λ v, look v c) vs) (λ ls, Ok (sort_dedup (concat ls))) =
      Ok (List.filter (λ i, contained vs (val t col i)) (range (N.of_nat (size t))))) as Hun.
    { intros look Hlook. rewrite (union_ok c look vs (λ v i, value_eqb (val t col i) v) (N.of_nat (size t))).
      - f_equal. apply filter_eq_range. intros i _. by rewrite contained_sym.
      - intros v Hv. rewrite Forall_forall in Hsup. by rewrite Hlook, hits_plain by auto. }
    unfold filter_in. rewrite Hty. destruct ty; cbn [index_inv] in HI.
    + apply Hun. intros v. by apply (ids_lookup t col v c d).
    + apply Hun. intros v. by apply (ids_lookup t col v c d).
    + apply Hun. intros v. by apply (bitmap_lookup t col v c d).
    + by apply (full_scan_ok t c).
    + rewrite (union_ok c (get_candidate_rows_from_bloom col) vs (λ v i,
        match kv_get (encode_bloom_key col (i / MINMAX_CHUNK_SIZE)) d ≫= bloom_from_slice with Some b => bloom_contains (json_to_string v) b | None => true end)
        (N.of_nat (size t))).
      2: { intros v Hv. rewrite Forall_forall in Hsup. rewrite Hbl by auto. by rewrite candidate_rows_eq. }
      cbn [result_bind]. rewrite (verify_ok t c) by done. f_equal. apply filter_eq_range. intros i Hi. cbn [value_test].
      destruct (contained vs (val t col i)) eqn:E; [|by rewrite andb_false_r]. rewrite andb_true_r.
      rewrite contained_sym in E by done. apply existsb_exists in E as (v & Hv & E). apply existsb_exists. exists v. split; [done|].
      apply (bloom_candidates t d col v i); [done| |done..]. rewrite Forall_forall in Hsup. by apply Hsup, list_elem_of_In.
Qed.

(** C10: Building an index of any of the five kinds on a column of a collection without an index and
    without index data succeeds, and a filter with one condition, on this column or another, selects
    the same rows through the index as a full scan did. On the indexed column the condition is
    equality or membership with nulls, booleans, integers and strings, an inequality, or a comparison
    that does not go through a sorted index, nor through minima and maxima unless the column and the
    bound are numbers. *)
Theorem index_transparent t (c : Columnar) d now col ty f col' cols :
  table t c → cf c = Some d → no_index_data d → unindexed (meta c) → has_column (meta c) col = true →
  leaf f col' → (col' = col → supported t col ty f) → Forall (λ x, has_column (meta c) x = true) (col' :: cols) →
  ∃ c', create_index now col ty c = (Ok tt, c') ∧ get_index_type col (meta c') = Some ty ∧ table t c' ∧
    apply_filter c' f (count c') = apply_filter c f (count c) ∧ scan_filtered f cols c' = scan_filtered f cols c.
Proof.
  intros Ht Hcf Hno Hu Hcol Hl Hsup [Hcol' Hcols]%Forall_cons.
  destruct (index_built t c d now col ty) as (c' & d' & H1 & H2 & H3 & H4 & H5 & H6 & H7 & H8); [done..|].
  exists c'. split; [done|]. split; [done|]. split; [done|]. unfold count, scan_filtered.
  pose proof (tb_count _ _ Ht) as Hn. pose proof (tb_count _ _ H4) as Hn'. rewrite Hn, Hn'.
  set (l := List.filter (λ i, value_test f (val t col' i)) (range (N.of_nat (size t)))).
  assert (apply_filter c f (N.of_nat (size t)) = Ok l) as Hc.
  { destruct (unindexed_none (meta c) col' Hu) as [U1 U2]. apply leaf_scan; [done..|]. unfold has_sorted_index. by rewrite U1. }
  assert (apply_filter c' f (N.of_nat (size t)) = Ok l) as Hc'.
  { destruct (decide (col' = col)) as [->|Hne].
    - apply (indexed_filter t c' d' col ty f); try done; [by rewrite H8|by apply Hsup].
    - destruct (H7 col' Hne). apply leaf_scan; try done. by rewrite H8. }
  rewrite Hc, Hc'. split; [done|]. cbn [result_bind].
  assert (Forall (λ i, (i < N.of_nat (size t))%N) l) as Hlt by (apply Forall_forall; by intros i [Hi%elem_of_range _]%In_filter).
  rewrite (selected_ok t c cols l), (selected_ok t c' cols l); try done.
  eapply Forall_impl; [exact Hcols|]. intros x Hx. by rewrite H8.
Qed.
End Build.
End ColumnarIndexes.

(** * Columnar collections on concrete rows

    Instances of the crates, the witnesses of the theorems, and what goes wrong: conjunctions that
    lose rows, indexes that do not follow the rows inserted or deleted after they were built. *)

Module ColumnarDemo.
Import ColumnarIndexes.

(** ** Instances *)

Definition type_code (t : ColumnType) : N :=
  match t with Int64 => 0 | Float64 => 1 | StringType => 2 | BoolType => 3 | Timestamp => 4 | JsonType => 5 end.
Definition type_of (n : N) : ColumnType :=
  match n with 0%N => Int64 | 1%N => Float64 | 2%N => StringType | 3%N => BoolType | 4%N => Timestamp | _ => JsonType end.
Definition index_code (t : ColumnarIndexType) : N := match t with Sorted => 0 | Hash => 1 | Bitmap => 2 | MinMax => 3 | Bloom => 4 end.
Definition index_of (n : N) : ColumnarIndexType :=
  match n with 0%N => Sorted | 1%N => Hash | 2%N => Bitmap | 3%N => MinMax | _ => Bloom end.
Definition compression_code (t : CompressionType) : bool := match t with Lz4 => true | NoCompression => false end.
Definition compression_of (b : bool) : CompressionType := if b then Lz4 else NoCompression.
#[local] Instance ColumnType_eq : EqDecision ColumnType.
Proof. solve_decision. Defined.
#[local] Instance CompressionType_eq : EqDecision CompressionType.
Proof. solve_decision. Defined.
#[local] Instance ColumnDef_eq : EqDecision ColumnDef.
Proof. solve_decision. Defined.
#[local] Instance Meta_eq : EqDecision Meta.
Proof. solve_decision. Defined.
#[local] Instance IndexMeta_eq : EqDecision IndexMeta.
Proof. solve_decision. Defined.
#[local] Instance chunk_eq : EqDecision (MinMaxChunk demo_number).
Proof. solve_decision. Defined.
#[local] Program Instance ColumnType_countable : Countable ColumnType := inj_countable' type_code type_of _.
Next Obligation. by intros []. Qed.
#[local] Program Instance IndexType_countable : Countable ColumnarIndexType := inj_countable' index_code index_of _.
Next Obligation. by intros []. Qed.
#[local] Program Instance CompressionType_countable : Countable CompressionType := inj_countable' compression_code compression_of _.
Next Obligation. by intros []. Qed.
#[local] Program Instance ColumnDef_countable : Countable ColumnDef :=
  inj_countable' (λ c, (col_name c, data_type c, nullable c, indexed c, index_type c))
    (λ '(a, b, c, d, e), mkColumn a b c d e) _.
Next Obligation. by intros []. Qed.
#[local] Program Instance Meta_countable : Countable Meta :=
  inj_countable' (λ m, (meta_name m, columns m, row_count m, compression m, created_at m, last_updated_at m))
    (λ '(a, b, c, d, e, f), mkMeta a b c d e f) _.
Next Obligation. by intros []. Qed.
#[local] Program Instance IndexMeta_countable : Countable IndexMeta :=
  inj_countable' (λ m, (im_column m, im_type m, im_created_at m)) (λ '(a, b, c), mkIndexMeta a b c) _.
Next Obligation. by intros []. Qed.
#[local] Program Instance chunk_countable : Countable (MinMaxChunk demo_number) :=
  inj_countable' (λ m, (chunk_min m, chunk_max m, chunk_count m)) (λ '(a, b, c), mkChunk a b c) _.
Next Obligation. by intros []. Qed.

#[local] Existing Instances CollectionDemo.demo_hex CollectionDemo.demo_hex_laws.
Definition end_mark (v : Value demo_number) : string := match v with Array _ => "]" | Object _ => "}" | _ => "" end.
#[local] Instance demo_json_text : JsonText demo_number := {
  num_as_f64 n := match n with Float b => if f64_finite b then Some b else None | _ => None end;
  num_of_f64 b := if f64_finite b then Some (Float b) else None;
  json_to_string v := to_text v +:+ end_mark v;
  json_from_slice := of_text;
}.
#[local] Instance demo_value_text : ValueText demo_number := {
  num_as_i64 n :=
    match n with
    | PosInt n => if (n <? 2 ^ 63)%N then Some (Z.of_N n) else None
    | NegInt z => if (- 2 ^ 63 <=? z)%Z && (z <? 0)%Z then Some z else None
    | Float _ => None
    end;
  num_to_string _ := "";
  f64_to_string _ := "";
  value_debug _ := "";
  powf _ _ := 0%N;
  sum_start := 0%N;
  regex_build _ := None;
}.
#[local] Instance demo_meta : Indexes.MetaJson demo_number := {
  index_from_slice _ := None;
  geo_index_from_slice _ := None;
  fulltext_index_from_slice _ := None;
  ttl_index_from_slice _ := None;
  value_to_vec v := Some (to_text v);
  value_to_string v := to_text v;
  rfc3339_timestamp _ := None;
}.
#[local] Instance demo_crates : ColumnarCrates demo_number := {
  lz4_compress s := "z" +:+ s;
  lz4_decompress s := match s with String _ s' => Some s' | EmptyString => None end;
  hex_decode _ := None;
  meta_to_vec m := Some (to_text m);
  meta_from_slice := of_text;
  index_meta_to_vec m := Some (to_text m);
  index_meta_from_slice := of_text;
  ids_to_vec l := Some (to_text l);
  ids_from_slice := of_text;
  uuids_to_vec l := Some (to_text l);
  uuids_from_slice := of_text;
  chunk_to_vec c := Some (to_text c);
  chunk_from_slice := of_text;
  BloomFilter := list string;
  bloom_new := [];
  bloom_insert x f := x :: f;
  bloom_contains x f := existsb (String.eqb x) f;
  bloom_to_vec f := Some (to_text f);
  bloom_from_slice := of_text;
  timestamp_to_rfc3339 _ := None;
}.
#[local] Instance demo_claws : ColumnarLaws demo_number.
Proof.
  split; try (intros x; eexists; split; [reflexivity|apply of_to_text]).
  - done.
  - intros x f. cbn. by rewrite String.eqb_refl.
  - intros x y f H. change (existsb (String.eqb x) f = true) in H. cbn. by rewrite H, orb_true_r.
Qed.
#[local] Instance demo_integers : IntegerLaws demo_number.
Proof.
  split.
  - intros [n|z|b] i; cbn; [|destruct (_ && _) eqn:E; [|done]|done].
    + destruct (N.ltb_spec n (2 ^ 63)); [|done]. intros [= <-]. unfold num_of_i64. cbn.
      destruct (Z.ltb_spec (Z.of_N n) 0); [lia|]. rewrite N2Z.id. split; [done|]. lia.
    + intros [= <-]. apply andb_true_iff in E as [E1%Z.leb_le E2]. cbn. rewrite E2. apply Z.ltb_lt in E2. split; [done|]. lia.
  - intros [n|z|b] [n'|z'|b']; cbn; try done.
    + by intros ->%N.eqb_eq.
    + by intros ->%Z.eqb_eq.
Qed.
#[local] Instance demo_ends : TextEnds demo_number.
Proof.
  split.
  - intros l. by eexists.
  - intros o. by eexists.
  - intros n [r H]. by destruct r.
Qed.
Lemma column_finite (n : demo_number) x : num_as_f64 n = Some x → f64_finite x = true.
Proof. destruct n as [| |b]; cbn; try done. destruct (f64_finite b) eqn:E; [|done]. by intros [= <-]. Qed.
Lemma all_exact (v : Value demo_number) : exact v.
Proof. exists (to_text v). split; [done|]. apply of_to_text. Qed.
Lemma all_exact_row m obj : exact_row (Num:=demo_number) m obj.
Proof. split; [apply all_exact|]. apply Forall_forall. intros c _. apply all_exact. Qed.

(** ** A collection *)

Notation Value := (Value demo_number).
Notation Coll := (Columnar map_store).
Definition int (n : N) : Value := Number (PosInt n).
Definition row (a b : Value) : list (string * Value) := [("a", a); ("b", b)].
Definition schema : list ColumnDef := [mkColumn "a" Int64 true false None; mkColumn "b" Int64 true false None].
Definition run : list request :=
  [RInsert 1 [("u1", Object (row (int 1) (int 7))); ("u2", Null); ("u3", Object (row (int 2) (int 8)))];
   RInsertAs 2 "u4" (Object (row (int 2) (int 9)));
   RInsertAs 2 "u4" (Object (row (int 5) (int 5)));
   RDelete 3 "u1"; RDelete 3 "u1";
   RInsertAs 4 "u5" (Object (row (int 3) (int 7)))].
Definition created : Coll :=
  match new 0 "c" "db" (Some empty_store) schema Lz4 with (Ok c, _) => c | _ => mkColumnar "" "" None (mkMeta "" [] 0 Lz4 0 0) end.
Definition demo : Coll := (serve_all run created).2.
Definition demo_table : gmap string (list (string * Value)) := (table_all run ∅).2.
Ltac insertable := split; [reflexivity|split; [vm_compute; reflexivity|apply all_exact_row]].
Lemma run_valid : valid_all (mkMeta "c" schema 0 Lz4 0 0) ∅ run.
Proof.
  unfold run. cbn [valid_all]. split_and!; try exact I.
  - split_and!; [|repeat (apply Forall_cons; split; [insertable|]); apply Forall_nil; exact I|vm_compute; reflexivity].
    apply (bool_decide_unpack _). vm_compute. exact I.
  - intros _. split; [insertable|vm_compute; reflexivity].
  - intros H. vm_compute in H. discriminate H.
  - vm_compute. reflexivity.
  - vm_compute. reflexivity.
  - intros _. split; [insertable|vm_compute; reflexivity].
Qed.
Lemma empty_view : kv_view empty_store = [].
Proof. reflexivity. Qed.
Lemma demo_is_table : table demo_table demo.
Proof.
  destruct (new_table 0 "c" "db" empty_store schema Lz4 empty_view) as (c0 & H & Ht & Hc & _).
  assert (c0 = created) as ->. { unfold created. by rewrite H. }
  destruct (serve_all_ok run ∅ created Ht) as (c' & Hs & Ht' & _).
  { eapply valid_all_columns; [|exact run_valid]. by rewrite Hc. }
  unfold demo, demo_table. by rewrite Hs.
Qed.
Lemma columnar_refines_table_witness :
  ∃ c0 c, new 0 "c" "db" (Some empty_store) schema Lz4 = (Ok c0, cf c0) ∧ serve_all run c0 = ((table_all run ∅).1, c) ∧
    count c = 3%N ∧ read_columns ["b"] None c = Ok [Object [("b", int 8)]; Object [("b", int 9)]; Object [("b", int 7)]] ∧
    load "c" "db" (cf c) = Ok c.
Proof.
  destruct (columnar_refines_table 0 "c" "db" empty_store schema Lz4 run empty_view run_valid) as (c0 & c & H1 & H2 & H3 & H4 & H5).
  exists c0, c. split; [exact H1|]. split; [exact H2|]. split; [rewrite H3; vm_compute; reflexivity|]. split; [|exact H5].
  rewrite (H4 ["b"]); [vm_compute; reflexivity|]. apply Forall_cons. split; [|apply Forall_nil; exact I].
  apply (bool_decide_unpack _). vm_compute. exact I.
Defined.
Definition two_or_seven : ColumnFilter demo_number := FOr [FEq "a" (int 2); FIn "b" [int 7]].
Lemma scan_filtered_rows_witness :
  scan_filtered two_or_seven ["a"] demo = Ok [Object [("a", int 2)]; Object [("a", int 2)]; Object [("a", int 3)]].
Proof.
  destruct (scan_filtered_rows demo_table demo two_or_seven ["a"] demo_is_table) as (kept & -> & _ & H).
  - vm_compute. repeat constructor.
  - vm_compute. repeat constructor.
  - rewrite (H eq_refl). vm_compute. reflexivity.
Defined.
Lemma aggregate_reads_column_witness : aggregate "b" Count demo = Ok (Number (PosInt 3)).
Proof.
  destruct (read_column "b" None demo) as [values|e] eqn:E; [|vm_compute in E; discriminate E].
  rewrite (aggregate_reads_column demo_table demo "b" Count values demo_is_table).
  - vm_compute in E. injection E as <-. vm_compute. reflexivity.
  - vm_compute. reflexivity.
  - intros col' H. apply has_column_elem in H as (x & Hx & <-). revert x Hx. apply Forall_forall. vm_compute. repeat constructor.
  - reflexivity.
  - discriminate.
  - vm_compute. reflexivity.
  - intros n _ Hn. cbn. destruct (Z.ltb_spec n 0); [lia|reflexivity].
  - exact E.
Defined.
Lemma truncate_unloadable_witness :
  ∃ c', truncate demo = (Ok tt, c') ∧ count c' = 0%N ∧ is_ok (load "c" "db" (cf c')) = false.
Proof.
  destruct (cf demo) as [d|] eqn:E; [|vm_compute in E; discriminate E].
  destruct (truncate_unloadable demo d "db" E) as (c' & H1 & H2 & H3). exists c'. split; [exact H1|]. split; [exact H2|].
  change "c" with (name demo). rewrite H3. reflexivity.
Defined.
Definition is_index (k : string) : bool := match space_of k with Some SIndex => true | _ => false end.
Lemma no_index_check (d : map_store) : forallb (λ p, negb (is_index p.1)) (kv_view d) = true → no_index_data d.
Proof.
  intros H k Hk. rewrite kv_get_view. destruct (OMap.get k (kv_view d)) as [v|] eqn:E; [|done].
  apply OMap.get_elem in E; [|apply kv_view_wf]. rewrite forallb_forall in H. apply list_elem_of_In, H in E. cbn [fst] in E.
  unfold is_index in E. unfold index_space in Hk. by rewrite Hk in E.
Qed.
Lemma index_transparent_witness :
  ∃ c', create_index 9 "a" Bitmap demo = (Ok tt, c') ∧ get_index_type "a" (meta c') = Some Bitmap ∧
    scan_filtered (FEq "a" (int 2)) ["b"] c' = Ok [Object [("b", int 8)]; Object [("b", int 9)]].
Proof.
  destruct (cf demo) as [d|] eqn:E; [|vm_compute in E; discriminate E].
  assert (no_index_data d) as Hno.
  { apply no_index_check. vm_compute in E. injection E as <-. vm_compute. reflexivity. }
  destruct (index_transparent column_finite demo_table demo d 9 "a" Bitmap (FEq "a" (int 2)) "a" ["b"] demo_is_table E Hno)
    as (c' & H1 & H2 & _ & _ & H3).
  - vm_compute. repeat constructor.
  - vm_compute. reflexivity.
  - reflexivity.
  - intros _. vm_compute. eexists. reflexivity.
  - vm_compute. repeat constructor.
  - exists c'. split; [exact H1|]. split; [exact H2|]. rewrite H3. vm_compute. reflexivity.
Defined.

(** ** What goes wrong *)

(** The second condition of a conjunction is evaluated on as many rows as satisfy the first, counted
    from the first row: the row that satisfies both is lost. *)
Example conjunction_loses_row :
  let f := FAnd [FEq "a" (int 3); FEq "b" (int 7)] in
  scan_filtered f ["a"] demo = Ok [] ∧ List.filter (sat f) (rows_in_order demo_table) = [row (int 3) (int 7)].
Proof. vm_compute. by split. Qed.
(** A row inserted after an index was built is not found through it. *)
Definition indexed_demo (ty : ColumnarIndexType) : Coll := (create_index 9 "a" ty demo).2.
Definition grown (ty : ColumnarIndexType) : Coll := (insert_row_with_id 10 "u6" (Object (row (int 4) (int 1))) (indexed_demo ty)).2.
Example insert_not_indexed :
  (λ ty, scan_filtered (FEq "a" (int 4)) ["b"] (grown ty)) <$> [Sorted; Hash; Bitmap; Bloom] = replicate 4 (Ok []) ∧
  scan_filtered (FEq "a" (int 4)) ["b"] (grown MinMax) = Ok [Object [("b", int 1)]].
Proof. vm_compute. by split. Qed.
(** After a deletion the positions of the index name other rows. *)
Example delete_shifts_index :
  scan_filtered (FEq "a" (int 2)) ["a"] (delete_row 10 "u3" (indexed_demo Hash)).2 = Ok [Object [("a", int 2)]; Object [("a", int 3)]].
Proof. vm_compute. reflexivity. Qed.
(** A chunk whose first value is no number has no bounds, and a comparison skips it. *)
Definition half : Value := Number (Float 4602678819172646912).
Definition floats : Coll :=
  (serve_all [RInsert 1 [("u1", Object (row Null Null)); ("u2", Object (row half Null))]] created).2.
Definition zero_f : Value := Number (Float 0).
Example null_hides_chunk :
  scan_filtered (FGt "a" zero_f) ["a"] floats = Ok [Object [("a", half)]] ∧
  scan_filtered (FGt "a" zero_f) ["a"] (create_index 9 "a" MinMax floats).2 = Ok [].
Proof. vm_compute. by split. Qed.
(** With a sorted index a comparison matches values of other kinds. *)
Example sorted_range_matches_null :
  scan_filtered (FGte "a" (JString "x")) ["a"] (create_index 9 "a" Sorted floats).2 = Ok [Object [("a", Null)]; Object [("a", half)]] ∧
  scan_filtered (FGte "a" (JString "x")) ["a"] floats = Ok [Object [("a", half)]].
Proof. vm_compute. by split. Qed.
(** Dropping a bitmap index keeps its bits, which a new one takes over. *)
Definition rebuilt : Coll :=
  (create_index 12 "a" Bitmap (delete_row 11 "u5" (drop_index "a" (indexed_demo Bitmap)).2).2).2.
Example bitmap_survives_drop :
  apply_filter rebuilt (FEq "a" (int 3)) (count rebuilt) = Ok [2%N] ∧ count rebuilt = 2%N.
Proof. vm_compute. by split. Qed.
End ColumnarDemo.
