(* ===== verification/NodeStore.v ===== *)
(** * The storage of a node, as its server and its coordinator use it

    A tree of databases and collections (what [DatabasesProps.engine_refines_tree] shows the
    engine of src/storage to be), with the methods of a collection reached through their names:
    [storage.get_database(db)?.get_collection(coll)?.method(..)]. The sharding configuration and
    the shard table are stored beside the documents of a collection
    (src/storage/collection/core.rs). The ordering of the names is that of [list_databases] and
    [list_collections], a parameter. *)

From S2P Require Import Prelude Text Json Transaction Codec Kv Document DocStore Indexes Collection CollectionBatch Databases Sharding SyncLog SyncState SyncTransport Cluster SyncWorker.
Import Json Codec Document Serializer Indexes Collection CollectionBatch Databases.

(** [ShardTable] of src/sharding/coordinator.rs, and its derived JSON conversions. *)
Record ShardTable := mkTable {
  t_database : string;
  t_collection : string;
  t_num_shards : N;
  t_replication_factor : N;
  t_shard_key : string;
  t_assignments : gmap nat Sharding.ShardAssignment;
}.
Class ShardTableJson := {
  shard_table_to_vec : ShardTable → option string;
  shard_table_from_slice : string → option ShardTable;
}.

Module NodeStore.
Local Open Scope solidb_scope.

Definition SHARD_TABLE_KEY : string := "_stats:shard_table".
Definition no_database (n : string) : DbError := CollectionNotFound ("Database '" +:+ (n +:+ "' not found")).

Section Store.
Context {Num : Type} `{!JsonNumber Num} `{!JsonText Num} `{!MetaJson Num} `{!DocumentJson Num}
  `{!DocCodec Num}.
Context `{hex_crate : !HexCrate} `{std_text : !StdText}.
Context {DB : Type} `{!KvStore DB} `{!Families DB} `{schema : !SchemaCheck Num DB}.
Context `{shard_json : !ShardConfigJson} `{table_json : !ShardTableJson}.
Notation Collection := (Collection Num DB).

Notation Store := (gmap string (gmap string Collection)).

Definition get_database (n : string) (s : Store) : result DbError (gmap string Collection) :=
  ok_or (s !! n) (no_database n).
Definition get_collection (db coll : string) (s : Store) : result DbError Collection :=
  let? d := get_database db s in ok_or (d !! coll) (CollectionNotFound coll).
Definition set_collection (db coll : string) (c : Collection) (s : Store) : Store :=
  match s !! db with Some d => <[db := <[coll := c]> d]> s | None => s end.

(** A method of the collection; the collection is shared, so that the next call sees what it left. *)
Definition call {A} (db coll : string) (f : Collection → result DbError A * Collection) (s : Store) :
    result DbError A * Store :=
  match get_collection db coll s with
  | Err e => (Err e, s)
  | Ok c => let '(r, c') := f c in (r, set_collection db coll c' s)
  end.
(** A method that only reads. *)
Definition read {A} (db coll : string) (f : Collection → result DbError A) (s : Store) : result DbError A :=
  let? c := get_collection db coll s in f c.

(** [Database::create_collection]; when the type cannot be written the column family is there. *)
Definition opened (n : string) (d : DB) : Collection := attach d (new_handle n (Some d)).
Definition create_collection (db coll : string) (collection_type : option string) (s : Store) : result DbError unit * Store :=
  match get_database db s with
  | Err e => (Err e, s)
  | Ok d =>
      let cf_name := collection_cf_name db coll in
      match d !! coll with
      | Some _ => (Err (CollectionAlreadyExists coll), s)
      | None =>
          match cf_create cf_name with
          | None => (Err (InternalError "Failed to create collection"), s)
          | Some f =>
              match kv_write [Put COLLECTION_TYPE_KEY (default "document" collection_type)] f with
              | None => (Err (InternalError "Failed to set collection type"), set_collection db coll (opened cf_name f) s)
              | Some f' => (Ok tt, set_collection db coll (opened cf_name f') s)
              end
          end
      end
  end.
(** [match db.get_collection(n) { Err(_) => db.create_collection(n, None)?; .. }] *)
Definition ensure_collection (db coll : string) (s : Store) : result DbError unit * Store :=
  match get_collection db coll s with
  | Ok _ => (Ok tt, s)
  | Err _ => create_collection db coll None s
  end.
(** [Database::delete_collection] *)
Definition delete_collection (db coll : string) (s : Store) : result DbError unit * Store :=
  match s !! db with
  | None => (Err (no_database db), s)
  | Some d =>
      match d !! coll with
      | None => (Err (CollectionNotFound coll), s)
      | Some _ =>
          if cf_drop (collection_cf_name db coll) then (Ok tt, <[db := base.delete coll d]> s)
          else (Err (InternalError "Failed to delete collection"), s)
      end
  end.
(** The databases in the order of their keys, the collections in that of the column families. *)
Definition list_databases (s : Store) : list string := sort_by str_cmp (elements (dom s)).
Definition list_collections (db : string) (s : Store) : list string := list_cf (dom (default ∅ (s !! db))).

(** ** Sharding metadata of a collection (src/storage/collection/core.rs) *)

Definition get_shard_config (c : Collection) : option CollectionShardConfig :=
  (SyncWorker.get_shard_config c).1.
Definition set_shard_table (t : ShardTable) (c : Collection) : result DbError unit * Collection :=
  match shard_table_to_vec t with
  | None => (Err (JsonError ""), c)
  | Some bytes =>
      match kv_write [Put SHARD_TABLE_KEY bytes] (db c) with
      | Some d => (Ok tt, set_db d c)
      | None => (Err (InternalError "Failed to store shard table"), c)
      end
  end.
Definition get_stored_shard_table (c : Collection) : option ShardTable :=
  kv_get SHARD_TABLE_KEY (db c) ≫= shard_table_from_slice.
(** [if let Ok(db) .. { if let Ok(coll) .. { coll.get_shard_config() } }] *)
Definition config_of (db coll : string) (s : Store) : option CollectionShardConfig :=
  match get_collection db coll s with Ok c => get_shard_config c | Err _ => None end.
Definition table_of (db coll : string) (s : Store) : option ShardTable :=
  match get_collection db coll s with Ok c => get_stored_shard_table c | Err _ => None end.
(** [let _ = coll.set_shard_table(&table)], if the collection is there. *)
Definition persist_table (db coll : string) (t : ShardTable) (s : Store) : Store := (call db coll (set_shard_table t) s).2.

(** ** Lookups *)

Definition coll_at (db coll : string) (s : Store) : option Collection := s !! db ≫= λ d, d !! coll.
Lemma get_collection_at db coll c s : get_collection db coll s = Ok c ↔ coll_at db coll s = Some c.
Proof.
  unfold get_collection, get_database, coll_at. destruct (s !! db) as [d|]; cbn; [|done]. destruct (d !! coll); cbn; naive_solver.
Qed.
Lemma lookup_set db coll c s db' coll' : is_Some (coll_at db coll s) →
  coll_at db' coll' (set_collection db coll c s) =
  if decide (db' = db ∧ coll' = coll) then Some c else coll_at db' coll' s.
Proof.
  unfold coll_at, set_collection. intros [x Hx]. destruct (s !! db) as [d|] eqn:Hd; [|done]. cbn in Hx.
  destruct (decide (db' = db)) as [->|Hne].
  - rewrite lookup_insert_eq, Hd. cbn. destruct (decide (coll' = coll)) as [->|Hc].
    + by rewrite lookup_insert_eq, decide_True.
    + rewrite lookup_insert_ne, decide_False by naive_solver. done.
  - by rewrite lookup_insert_ne, decide_False by naive_solver.
Qed.
Lemma call_found {A} db coll c (f : Collection → result DbError A * Collection) s : coll_at db coll s = Some c →
  call db coll f s = ((f c).1, set_collection db coll (f c).2 s).
Proof. intros H%get_collection_at. unfold call. rewrite H. by destruct (f c). Qed.
Lemma call_lookup {A} db coll c (f : Collection → result DbError A * Collection) s db' coll' : coll_at db coll s = Some c →
  coll_at db' coll' (call db coll f s).2 = if decide (db' = db ∧ coll' = coll) then Some (f c).2 else coll_at db' coll' s.
Proof. intros H. rewrite (call_found _ _ _ _ _ H). apply lookup_set. by eexists. Qed.
Lemma call_missing {A} db coll (f : Collection → result DbError A * Collection) s : coll_at db coll s = None →
  ∃ e, call db coll f s = (Err e, s).
Proof.
  intros H. unfold call. destruct (get_collection db coll s) as [c|e] eqn:E; [|by exists e].
  apply get_collection_at in E. congruence.
Qed.
(** A call changes no other collection, whether its collection exists or not. *)
Lemma call_other {A} db coll (f : Collection → result DbError A * Collection) s db' coll' : (db', coll') ≠ (db, coll) →
  coll_at db' coll' (call db coll f s).2 = coll_at db' coll' s.
Proof.
  intros Hne. destruct (coll_at db coll s) as [c|] eqn:H.
  - rewrite (call_lookup _ _ _ _ _ _ _ H), decide_False by naive_solver. done.
  - by destruct (call_missing db coll f s H) as [e ->].
Qed.
Lemma create_other db coll t s db' coll' : (db', coll') ≠ (db, coll) →
  coll_at db' coll' (create_collection db coll t s).2 = coll_at db' coll' s.
Proof.
  intros Hne. unfold create_collection, get_database, set_collection, coll_at. destruct (s !! db) as [d|] eqn:Hd; [|done]. cbn [ok_or].
  destruct (d !! coll); [done|]. destruct (cf_create _) as [f|]; [|done].
  assert (∀ c, (<[db:=<[coll:=c]> d]> s : Store) !! db' ≫= (.!! coll') = s !! db' ≫= (.!! coll')) as H.
  { intros c. destruct (decide (db' = db)) as [->|]; [|by rewrite lookup_insert_ne].
    rewrite lookup_insert_eq, Hd. cbn. by rewrite lookup_insert_ne by naive_solver. }
  destruct (kv_write _ f); apply H.
Qed.
End Store.
End NodeStore.
