(* ===== verification/SdbqlStore.v ===== *)
(** * SDBQL: the executor over the storage of a node

    The executor of src/sdbql/executor/mod.rs on the collections of [Collection], without a shard
    coordinator: [QueryExecutor::with_database] and its variants. The interface [DataStore] is
    instantiated with the collections of the node, their indexes and filters, and the
    replication log; the theorem on FOR with FILTER is stated of this instance. *)

From S2P Require Import Prelude Text Json Transaction Codec Kv F64 Document DocStore Indexes Collection CollectionProps CollectionBatch StoreInstance Databases Sharding SyncLog SyncState SyncTransport Cluster SyncWorker NodeStore.
From S2P Require Import SdbqlLexer SdbqlAst SdbqlValue SdbqlExec SdbqlQuery SdbqlQueryProps.
Import Json Codec Document Serializer Indexes Collection CollectionProps CollectionBatch.

Module SdbqlStore.
Local Open Scope solidb_scope.

(** The rest of what a query reads and changes beside the collections: the filters of the
    collections in memory, the keys, revisions and times drawn so far, the replication log. *)
Record ExecutorState (Num DB : Type) `{filter_crates : !FilterCrates} := mkExecutorState {
  st_store : gmap string (gmap string (Collection Num DB));
  st_filters : gmap string (gmap string Filters);
  st_draws : nat;
  st_log : option (SyncLog.SyncLog DB);
}.
Arguments mkExecutorState {Num DB filter_crates} _ _ _ _.
Arguments st_store {Num DB filter_crates} _.
Arguments st_filters {Num DB filter_crates} _.
Arguments st_draws {Num DB filter_crates} _.
Arguments st_log {Num DB filter_crates} _.

Section Executor.
Context {Num : Type} `{json_number : !JsonNumber Num} `{json_text : !JsonText Num} `{meta_json : !MetaJson Num}
  `{document_json : !DocumentJson Num} `{doc_codec : !DocCodec Num}.
Context `{hex_crate : !HexCrate} `{std_text : !StdText} `{uuid_text : !UuidText}.
Context {DB : Type} `{kv_store : !KvStore DB} `{schema : !SchemaCheck Num DB} `{filter_crates : !FilterCrates}.
Context `{entry_codec : !SyncLog.EntryCodec}.
(** [self.database]; the key, the revision and the time of the [n]-th draw; serde_json's reading of
    a document. *)
Context (database : option string) (draw : nat → fresh) (document_from_slice : string → option (Document Num)).
Notation Value := (Value Num).
Notation Document := (Document Num).
Notation Collection := (Collection Num DB).
Notation State := (ExecutorState Num DB).
(** A collection by its database and its name. *)
Notation Handle := (string * string)%type.
Implicit Types (s : State) (p : Handle).

Definition stored_doc (x : Document) : Doc Num := (key x, to_value x).
Definition stored_docs (l : list Document) : list (Doc Num) := stored_doc <$> l.

(** ** Opening *)

Definition coll_of p s : option Collection := NodeStore.coll_at p.1 p.2 (st_store s).
(** [StorageEngine::get_collection]: a name with its database, or a collection of [_system]. Column
    families whose name has no database, those of [StorageEngine::create_collection], are not in the
    tree. *)
Definition get_absolute (name : string) s : outcome Handle :=
  let exact := match split_once ":" name with
               | Some p => match coll_of p s with Some _ => Some p | None => None end
               | None => None
               end in
  match exact with
  | Some p => Done p
  | None =>
      match coll_of ("_system", name) s with
      | Some _ => Done ("_system", name)
      | None => Fails (CollectionNotFound name)
      end
  end.
Definition get_collection (name : string) s : outcome Handle :=
  match database with
  | Some db_name =>
      match NodeStore.get_collection db_name name (st_store s) with
      | Ok _ => Done (db_name, name)
      | Err e => Fails e
      end
  | None => get_absolute name s
  end.

(** ** Reading and writing through a handle

    A handle is opened before it is used, and no operation of the executor drops a collection. *)

Definition read {A} (none : A) (f : Collection → A) p s : A :=
  match coll_of p s with Some c => f c | None => none end.
Definition filters_of p s : Filters := default no_filters (default ∅ (st_filters s !! p.1) !! p.2).
Definition set_filters p (fs : Filters) s : State :=
  mkExecutorState (st_store s) (<[p.1 := <[p.2 := fs]> (default ∅ (st_filters s !! p.1))]> (st_filters s))
    (st_draws s) (st_log s).
Definition set_coll p (c : Collection) s : State :=
  mkExecutorState (NodeStore.set_collection p.1 p.2 c (st_store s)) (st_filters s) (st_draws s) (st_log s).
Definition drawn (n : nat) s : State :=
  mkExecutorState (st_store s) (st_filters s) (st_draws s + n) (st_log s).
(** The next [n] draws. *)
Definition next_draws (n : nat) s : list fresh := draw <$> seq (st_draws s) n.
(** A method of the collection that draws up to [n] times. *)
Definition write_with {A B} (n : nat) (f : list fresh → Collection → result DbError A * Collection) (g : A → B) p :
    Exec State B := λ s,
  match coll_of p s with
  | None => (s, Fails (CollectionNotFound p.2))
  | Some c =>
      let '(r, c') := f (next_draws n s) c in
      (set_coll p c' (drawn n s), match r with Ok a => Done (g a) | Err e => Fails e end)
  end.
Definition first_draw (l : list fresh) : fresh := default ("", "", 0%Z) (head l).
Definition dated (l : list fresh) : list (string * Z) := (λ f, (f.1.2, f.2)) <$> l.

(** ** The operations *)

Definition lookup_eq p (field : string) (value : Value) s : option (list (Doc Num)) :=
  read None (λ c, stored_docs <$> (Indexes.index_lookup_eq field value (db c) (filters_of p s)).1) p s.
Definition lookup_range (lookup : string → Value → DB → option (list Document)) p (field : string) (value : Value) s :
    option (list (Doc Num)) :=
  read None (λ c, stored_docs <$> lookup field value (db c)) p s.
(** [!collection.list_indexes().is_empty()] *)
Definition list_indexes_any (c : Collection) : bool :=
  existsb (λ i, match get_index (idx_name i) c with Some _ => true | None => false end) (get_all_indexes (db c)) ||
  negb (Nat.eqb (length (get_all_fulltext_indexes (db c))) 0).
Definition index_documents_of p (docs : list (Doc Num)) : Exec State () := λ s,
  match coll_of p s with
  | None => (s, Fails (CollectionNotFound p.2))
  | Some c =>
      let '(_, (fs, c')) := CollectionBatch.index_documents docs (filters_of p s) c in
      (set_filters p fs (set_coll p c' s), Done ())
  end.
Definition operation_of (op : LogOp) : SyncLog.Operation :=
  match op with LogInsert => SyncLog.Insert | LogUpdate => SyncLog.Update | LogDelete => SyncLog.Delete end.
Definition log_entry (db_name collection : string) (op : LogOp) (k : string) (data : option Value) (now : Z) : SyncLog.LogEntry :=
  SyncLog.mkEntry 0 "" db_name collection (operation_of op) k (data ≫= value_to_vec) (Z.to_N (now mod 2 ^ 64)) None.
(** The log of a batch is appended entry by entry. *)
Definition log_mutation_of (collection : string) (op : LogOp) (k : string) (data : option Value) s : State :=
  match st_log s, database with
  | Some l, Some db_name =>
      let entry := log_entry db_name collection op k data (first_draw (next_draws 1 s)).2 in
      mkExecutorState (st_store s) (st_filters s) (st_draws s + 1) (Some (SyncLog.append entry l).2)
  | _, _ => s
  end.
(** What only a coordinator does; an executor without one does not call it. *)
Definition no_coordinator {A} : Exec State A := fail_with "No shard coordinator".

#[export] Instance storage : DataStore Num State Handle := {
  open_collection := get_collection;
  open_absolute := get_absolute;
  coll_scan p limit := read [] (λ c, stored_docs (scan c (N.to_nat <$> limit))) p;
  coll_all := read [] (λ c, stored_docs (all c));
  coll_get p k := read None (λ c, match get c k with Ok x => Some (stored_doc x) | Err _ => None end) p;
  coll_count := read 0%N count;
  SdbqlExec.index_lookup_eq := lookup_eq;
  SdbqlExec.index_lookup_gt := lookup_range Indexes.index_lookup_gt;
  SdbqlExec.index_lookup_gte := lookup_range Indexes.index_lookup_gte;
  SdbqlExec.index_lookup_lt := lookup_range Indexes.index_lookup_lt;
  SdbqlExec.index_lookup_lte := lookup_range Indexes.index_lookup_lte;
  SdbqlExec.index_sorted p field ascending limit :=
    read None (λ c, stored_docs <$> CollectionBatch.index_sorted document_from_slice field ascending (N.to_nat <$> limit) c) p;
  has_indexes := read false list_indexes_any;
  coll_insert p v :=
    write_with 1 (λ l, let '(k, rev, now) := first_draw l in insert k rev now v) stored_doc p;
  coll_insert_batch p vs :=
    write_with (length vs) (λ l, insert_batch (zip l vs)) stored_docs p;
  SdbqlExec.index_documents := index_documents_of;
  coll_update p k v :=
    write_with 1 (λ l, let '(_, rev, now) := first_draw l in Collection.update rev now k v) stored_doc p;
  coll_update_batch p us :=
    write_with (length us) (λ l, update_batch (zip (dated l) us)) stored_docs p;
  coll_delete p k := write_with 0 (λ _, Collection.delete k) (λ r, r) p;
  coll_delete_batch p ks := write_with 0 (λ _, delete_batch ks) (λ r, r) p;
  log_mutation := log_mutation_of;
  sharded _ _ := false;
  coord_insert_batch _ _ := no_coordinator;
  coord_update _ _ _ := no_coordinator;
  coord_delete _ _ := no_coordinator;
  scatter_gather_docs _ _ := no_coordinator;
}.
End Executor.

(** ** The documents a filter selects *)

Lemma NoDup_omap_inj {A B} (f : A → option B) l : NoDup l →
  (∀ x y b, x ∈ l → y ∈ l → f x = Some b → f y = Some b → x = y) → NoDup (omap f l).
Proof.
  intros Hl. induction Hl as [|x l Hx Hl IH]; intros Hinj; cbn; [constructor|].
  assert (NoDup (omap f l)) as Hn.
  { apply IH. intros y z b Hy Hz. apply Hinj; by right. }
  destruct (f x) as [b|] eqn:Hb; [|done]. constructor; [|done].
  intros (y & Hy & Hyb)%list_elem_of_omap. assert (x = y) as -> by by eapply (Hinj x y b); [left|right|..]. done.
Qed.
Lemma list_filter_fmap {A B} (f : A → B) (P : B → Prop) `{∀ x, Decision (P x)} (l : list A) :
  filter P (f <$> l) = f <$> filter (λ x, P (f x)) l.
Proof. induction l as [|x l IH]; [done|]. cbn [fmap list_fmap]. rewrite !filter_cons, IH. by case_decide. Qed.
Lemma NoDup_take_while {A} (f : A → bool) l : NoDup l → NoDup (take_while f l).
Proof.
  intros Hl. induction Hl as [|x l Hx Hl IH]; cbn; [constructor|]. destruct (f x); [|constructor].
  constructor; [|done]. by intros [? _]%take_while_elem.
Qed.
Lemma NoDup_map {A} (m : list (string * A)) : OMap.wf m → NoDup m.
Proof.
  unfold OMap.wf. intros H. apply (NoDup_fmap_1 fst). induction H as [|k l Hs IH Hall]; constructor; [|done].
  rewrite Forall_forall in Hall. intros Hin%Hall. by rewrite str_cmp_refl in Hin.
Qed.

Import Values Eval IndexOpt Clauses.

Section Filter.
Context {Num : Type} `{json_number : !JsonNumber Num} `{json_text : !JsonText Num} `{meta_json : !MetaJson Num}
  `{document_json : !DocumentJson Num} `{doc_codec : !DocCodec Num}.
Context `{hex_crate : !HexCrate} `{std_text : !StdText} `{uuid_text : !UuidText}.
Context {DB : Type} `{kv_store : !KvStore DB} `{schema : !SchemaCheck Num DB} `{filter_crates : !FilterCrates}.
Context `{entry_codec : !SyncLog.EntryCodec}.
Context `{codec_laws : !DocCodecLaws Num} `{hex_laws : !HexLaws} `{kv_laws : !KvLaws DB} `{std_laws : !StdTextLaws}.
Notation Value := (Value Num).
Notation Document := (Document Num).
Notation Collection := (Collection Num DB).

(** The state of a collection in which a comparison with the field can be answered through its
    indexes: the entries are those of the documents, the keys of the documents are texts outside the
    space of the expiry entries, and the index of the field, if there is one, is an index over this
    field alone, with a name of its own, that has no filter in memory. *)
Record searchable (field : string) (d : DB) : Prop := {
  sr_names : names_ok d;
  sr_consistent : consistent d;
  sr_docs k x : doc_of d k = Some x → plain k ∧ utf8_valid k = true ∧ key x = k;
  sr_index i : get_index_for_field field d = Some i →
    idx_fields i = [field] ∧ only_index d i ∧ idx_type i ≠ Bloom ∧ idx_type i ≠ Cuckoo;
}.

Lemma get_field_extract (v : Value) field : get_field_value v field = extract_field_value v field.
Proof.
  unfold get_field_value, extract_field_value. generalize (split_on "." field). intros l. revert v.
  induction l as [|part l IH]; intros v; cbn; [done|]. by destruct (value_get part v).
Qed.
Lemma encode_text (v : Value) t : encode_key v = encode_key (JString t) ↔ v = JString t.
Proof.
  split; [|by intros ->]. destruct v as [|[]| |s| |]; try done. intros [= H%(f_equal content)].
  by rewrite !content_push in H; subst.
Qed.
Lemma scan_NoDup (c : Collection) field : searchable field (db c) → NoDup (scan c None).
Proof.
  intros Hs. unfold scan. apply NoDup_omap_inj.
  { rewrite kv_from_view. apply NoDup_filter, NoDup_map, kv_view_wf. }
  intros [e v] [e' v'] x. rewrite kv_from_view. intros [_ Hin]%list_elem_of_filter [_ Hin']%list_elem_of_filter. cbn [fst snd].
  destruct (starts_with DOC_PREFIX e) eqn:Hp; [|done]. destruct (starts_with DOC_PREFIX e') eqn:Hp'; [|done].
  apply starts_with_split in Hp as [k ->], Hp' as [k' ->]. intros Hx Hx'.
  apply OMap.get_elem in Hin, Hin'; [|apply kv_view_wf..]. rewrite <- kv_get_view in Hin, Hin'.
  assert (doc_of (db c) k = Some x) as H1 by (unfold doc_of, doc_key; by rewrite Hin).
  assert (doc_of (db c) k' = Some x) as H2 by (unfold doc_of, doc_key; by rewrite Hin').
  apply (sr_docs _ _ Hs) in H1 as (_ & _ & <-), H2 as (_ & _ & <-). congruence.
Qed.
(** Each document is entered once under an index. *)
Lemma lookup_NoDup field i (value : Value) d : searchable field d → get_index_for_field field d = Some i →
  NoDup (read_docs d ((λ p, doc_key (utf8_lossy p.2)) <$> scan_prefix (value_prefix i [value]) d)).
Proof.
  intros Hs Hi. destruct (sr_index _ _ Hs i Hi) as (_ & Hone & _).
  assert (∀ e k, (e, k) ∈ scan_prefix (value_prefix i [value]) d →
    ∃ x, doc_of d k = Some x ∧ utf8_lossy k = k ∧ entry_key_for k (to_value x) i = Some e) as Hentry.
  { intros e k (x & _ & Hx & He & _)%prefix_entries; [|apply Hs|apply Hs|done].
    exists x. split_and!; [done| |done]. apply utf8_lossy_valid. by apply (sr_docs _ _ Hs k x). }
  unfold read_docs. apply NoDup_omap_inj.
  - apply NoDup_fmap_2_strong.
    + intros [e k] [e' k'] (x & Hx & Hk & He)%Hentry (x' & Hx' & Hk' & He')%Hentry. cbn [snd]. rewrite Hk, Hk'.
      intros ->%doc_key_inj. congruence.
    + unfold scan_prefix. rewrite kv_from_view. apply NoDup_take_while, NoDup_filter, NoDup_map, kv_view_wf.
  - intros e e' x ([e0 k] & -> & (y & Hy & Hk & _)%Hentry)%list_elem_of_fmap ([e0' k'] & -> & (y' & Hy' & Hk' & _)%Hentry)%list_elem_of_fmap.
    cbn [snd]. rewrite Hk, Hk'. intros H1 H2. unfold doc_of in Hy, Hy'. rewrite Hy in H1. rewrite Hy' in H2.
    simplify_eq. f_equal. by rewrite <- (proj2 (proj2 (sr_docs _ _ Hs k x Hy))), <- (proj2 (proj2 (sr_docs _ _ Hs k' x Hy'))).
Qed.

Context `{value_text : !ValueText Num} `{char_tables : !CharTables} `{query_text : !QueryText Num}.
Context (database : option string) (draw : nat → fresh) (document_from_slice : string → option Document).
#[local] Existing Instance storage.
Notation State := (ExecutorState Num DB).
Notation executor := (storage database draw document_from_slice).
Implicit Types (p : string * string) (s : State).

(** The executor's equality lookup and the filter after a scan select the same documents. *)
Lemma lookup_text p field t c docs s : coll_of p s = Some c → searchable field (db c) →
  lookup_eq p field (JString t) s = Some docs →
  docs ≡ₚ filter (selects field t) (stored_docs (scan c None)).
Proof.
  intros Hp Hs. unfold lookup_eq, read. rewrite Hp. unfold Indexes.index_lookup_eq.
  destruct (get_index_for_field field (db c)) as [i|] eqn:Hi; [|done].
  pose proof (lookup_NoDup field i (JString t) (db c) Hs Hi) as Hnd.
  destruct (sr_index _ _ Hs i Hi) as (Hf & Hone & Hb & Hcu).
  assert (∀ item fs, filter_admits i item (db c) fs = (true, fs)) as -> by (unfold filter_admits; by destruct (idx_type i)).
  cbn [negb fst fmap option_fmap option_map]. intros [= <-]. unfold stored_docs.
  rewrite list_filter_fmap. apply fmap_Permutation, NoDup_Permutation; [done| |].
  { apply NoDup_filter. by eapply scan_NoDup. }
  intros x. rewrite (lookup_reads field i (JString t)), list_elem_of_filter, scan_docs; [|apply Hs..| |done|done|done].
  - unfold selects, stored_doc, compose. cbn [snd]. setoid_rewrite get_field_extract. setoid_rewrite encode_text.
    split; [|intros (He & k & Hk); exists k; by destruct (sr_docs _ _ Hs k x Hk)]. naive_solver.
  - intros k [y Hy]. by apply (sr_docs _ _ Hs k y).
Qed.
(** A limited scan of the storage is the front of the full one. *)
#[export] Instance storage_scans : ScanLaws (store:=executor).
Proof.
  split; [|done]. intros p n s. rewrite take_limit_take. cbn. unfold read. destruct (coll_of p s); [|by rewrite take_nil].
  unfold stored_docs. by rewrite <- fmap_take.
Qed.
(** Loading a filter for a test leaves every later answer as it was, so that [lookup_eq] leaves the
    state as it is. *)
Lemma admits_again i item item' d (fs : Filters) :
  (filter_admits i item' d (filter_admits i item d fs).2).1 = (filter_admits i item' d fs).1.
Proof.
  unfold filter_admits, bloom_check, cuckoo_check, get_or_create_bloom_filter, preload_cuckoo_filter.
  destruct (idx_type i); try done.
  - destruct (bloom_filters fs !! idx_name i) as [b|] eqn:Hb; cbn; [by rewrite Hb|]. by rewrite lookup_insert_eq.
  - destruct (cuckoo_filters fs !! idx_name i) as [b|] eqn:Hb; cbn; rewrite ?Hb; [done|].
    by rewrite lookup_insert_eq; cbn; rewrite lookup_insert_eq.
Qed.
(** The executor over the storage opens the collection of its database. *)
Lemma opens dbn name c s : database = Some dbn → coll_of (dbn, name) s = Some c →
  get_collection database name s = Done (dbn, name).
Proof. intros -> Hc%NodeStore.get_collection_at. unfold get_collection. cbn [fst snd] in Hc. by rewrite Hc. Qed.

(** C12: Over the collections of the storage, an executor with a database and without a shard
    coordinator answers FOR var IN collection FILTER var.field == text with the rows of exactly the
    documents a full scan of the collection finds whose field is that text, each once, and changes
    nothing, whether an index serves the comparison or not; the collection is [searchable], and no
    variable of the query has its name. *)
Theorem for_filter_text `{functions : !Functions Num State} `{order : !HashOrder} (bind_vars : gmap string Value)
    fuel c ctx dbn coll field t s :
  database = Some dbn → coll_of (dbn, for_collection c) s = Some coll → searchable field (db coll) →
  source_expression c = None → is_collection c = true → ctx !! for_collection c = None →
  ∃ rows, execute_body_clauses (store:=executor) bind_vars
      (Executor.evaluate_expr_with_context (store:=executor) bind_vars (3 + fuel))
      [BodyClause.For c; BodyClause.Filter (mkFilter (field_is (for_variable c) field t))] ctx None s =
      (s, Done (rows, no_stats)) ∧
    rows ≡ₚ rows_of c ctx (filter (selects field t) (stored_docs (scan coll None))).
Proof.
  intros Hdb Hcoll Hs Hsrc Hc Hctx.
  assert (coll_scan (DataStore:=executor) (dbn, for_collection c) None s = stored_docs (scan coll None)) as Hscan.
  { cbn. unfold read. by rewrite Hcoll. }
  rewrite <- Hscan. apply (for_filter_rows (store:=executor)).
  - split_and!; try done. by apply (opens dbn (for_collection c) coll).
  - intros docs. rewrite Hscan. by apply lookup_text.
Qed.
End Filter.
End SdbqlStore.

(** ** A concrete executor *)

Module ExecutorDemo.
Import DocumentDemo CollectionDemo SdbqlStore Values Eval IndexOpt Clauses.
#[local] Existing Instances demo_number_ops ascii_tables demo_text.
#[local] Instance demo_value_text : ValueText demo_number := QueryDemo.demo_value_text.
#[local] Instance demo_query_text : QueryText demo_number := QueryDemo.demo_query_text.
#[local] Existing Instance QueryDemo.demo_functions.
#[local] Instance demo_order : HashOrder := λ l, l.
#[local] Instance demo_uuid : UuidText := λ _, None.
#[local] Instance demo_entries : SyncLog.EntryCodec := { SyncLog.encode_entry := to_text; SyncLog.decode_entry := of_text }.
Notation State := (ExecutorState demo_number map_store).

Definition named (k a : string) : Value demo_number := Object [("_key", JString k); ("a", JString a)].
Definition cx : DemoCollection := snd (insert "g1" "r1" 1 (named "k1" "x") c0).
Definition cy : DemoCollection := snd (insert "g2" "r2" 2 (named "k2" "y") cx).
Definition demo_draw (n : nat) : fresh := ("g", "r", 5%Z).
#[local] Instance demo_executor : DataStore demo_number State (string * string) :=
  storage (Some "db") demo_draw (λ _, None).
Definition state_of (c : DemoCollection) : State := mkExecutorState {["db" := {["c" := c]}]} ∅ 0 None.
Definition for_d : ForClause (Expression demo_number) := mkFor "d" "c" None None.
Definition where_a (t : string) : list (BodyClause (Expression demo_number)) :=
  [BodyClause.For for_d; BodyClause.Filter (mkFilter (field_is "d" "a" t))].
Definition run (t : string) (s : State) : State * outcome (list (gmap string (Value demo_number)) * MutationStats) :=
  execute_body_clauses ∅ (Executor.evaluate_expr_with_context ∅ 3) (where_a t) ∅ None s.

Lemma cx_consistent : consistent (db cx) ∧ names_ok (db cx).
Proof.
  eapply (run_consistent (RInsert "g1" "r1" 1 (named "k1" "x")) c0); [apply c0_consistent..|by split|].
  cbn [CollectionProps.run]. rewrite (surjective_pairing (insert _ _ _ _ _)). reflexivity.
Qed.
Lemma cy_consistent : consistent (db cy) ∧ names_ok (db cy).
Proof.
  eapply (run_consistent (RInsert "g2" "r2" 2 (named "k2" "y")) cx); [apply cx_consistent..| |].
  - split; [done|]. vm_compute. reflexivity.
  - cbn [CollectionProps.run]. rewrite (surjective_pairing (insert _ _ _ _ _)). reflexivity.
Qed.
Definition x_of (k a : string) (rev : string) (now : Z) : Document demo_number :=
  with_key rev now "db:c" k (Object [("a", JString a)]).
Lemma cy_docs k x : doc_of (db cy) k = Some x → x = x_of "k1" "x" "r1" 1 ∧ k = "k1" ∨ x = x_of "k2" "y" "r2" 2 ∧ k = "k2".
Proof.
  intros E. assert (is_Some (doc_of (db cy) k)) as H by by eexists.
  listed H; vm_compute in E; try discriminate E; injection E as <-; [left|right]; by vm_compute.
Qed.
Lemma cy_searchable : searchable "a" (db cy).
Proof.
  split; [apply cy_consistent..| |].
  - intros k x [[-> ->]|[-> ->]]%cy_docs; done.
  - intros i Hi. vm_compute in Hi. injection Hi as <-. split; [done|]. split; [|done].
    apply demo_only; [vm_compute; reflexivity|]. left.
Qed.
Lemma for_filter_text_witness :
  ∃ rows, run "y" (state_of cy) = (state_of cy, Done (rows, no_stats)) ∧
    rows ≡ₚ [{["d" := to_value (x_of "k2" "y" "r2" 2)]}].
Proof.
  destruct (for_filter_text (Some "db") demo_draw (λ _, None) ∅ 0 for_d ∅ "db" cy "a" "y" (state_of cy))
    as (rows & E & H); [done|done|exact cy_searchable|done..|].
  exists rows. split; [exact E|]. etransitivity; [exact H|]. by vm_compute.
Defined.

(** Inserting a document enters it into a Bloom index but not into the filter in memory that the
    lookup asks first: the query through the index does not find the document that is stored, until
    [index_documents] feeds the filter. *)
Definition cb : DemoCollection :=
  mkCollection "db:c" "document" (default empty_store (kv_write [Put (idx_meta_key "bloom_a") "BL"] empty_store)) 0 0 false [] [].
Definition inserted : State := (coll_insert ("db", "c") (named "k1" "x") (state_of cb)).1.
Definition fed : State := (SdbqlExec.index_documents ("db", "c") (coll_scan ("db", "c") None inserted) inserted).1.
Example bloom_misses_inserted :
  (coll_scan ("db", "c") None inserted).*1 = ["k1"] ∧ (run "x" inserted).2 = Done ([], no_stats) ∧
  (run "x" fed).2 = Done ([{["d" := to_value (x_of "k1" "x" "r" 5)]}], no_stats).
Proof. vm_compute. done. Qed.
End ExecutorDemo.
