(* ===== verification/Triggers.v ===== *)
(** * Triggers (src/triggers/mod.rs) and the jobs they create (src/queue/types.rs)

    A write of a document creates a job for each trigger of its collection and event. The clock
    and the generated identifiers are arguments; the derived JSON conversions of the structs are
    the class [Serde]; waking the queue workers is a counter of notifications. *)

From S2P Require Import Prelude Text Json Transaction Codec Kv Document DocStore Indexes Collection CollectionBatch Databases Sharding SyncLog SyncState SyncTransport Cluster SyncWorker NodeStore.
Import Json Codec Document Serializer Indexes Collection CollectionBatch Databases NodeStore.

Module Jobs.
Inductive JobStatus := Pending | Running | Completed | Failed.
#[export] Instance JobStatus_eq_dec : EqDecision JobStatus.
Proof. solve_decision. Defined.

Section Data.
Context {Num : Type}.
(** [retry_count : u32], [max_retries] and [priority : i32]; [started_at] and [completed_at] in
    milliseconds, the other times in seconds. *)
Record Job := mkJob {
  job_id : string;
  job_rev : option string;
  queue : string;
  priority : Z;
  script_path : string;
  params : Value Num;
  status : JobStatus;
  retry_count : N;
  max_retries : Z;
  last_error : option string;
  cron_job_id : option string;
  run_at : N;
  job_created_at : N;
  started_at : option N;
  completed_at : option N;
}.
Record CronJob := mkCron {
  cron_id : string;
  cron_rev : option string;
  cron_name : string;
  cron_expression : string;
  cron_queue : string;
  cron_priority : Z;
  cron_max_retries : Z;
  cron_script_path : string;
  cron_params : Value Num;
  last_run : option N;
  next_run : option N;
  cron_created_at : N;
}.
End Data.
Arguments Job : clear implicits.
Arguments CronJob : clear implicits.
End Jobs.

Module Triggers.
Import Jobs.
Local Open Scope solidb_scope.

Inductive TriggerEvent := OnInsert | OnUpdate | OnDelete.
#[export] Instance TriggerEvent_eq_dec : EqDecision TriggerEvent.
Proof. solve_decision. Defined.
Definition as_str (e : TriggerEvent) : string :=
  match e with OnInsert => "insert" | OnUpdate => "update" | OnDelete => "delete" end.

Record Trigger := mkTrigger {
  tr_id : string;
  tr_rev : option string;
  tr_name : string;
  tr_collection : string;
  events : list TriggerEvent;
  tr_script_path : string;
  tr_queue : string;
  tr_priority : Z;
  tr_max_retries : Z;
  enabled : bool;
  tr_filter : option string;
  tr_created_at : N;
  tr_updated_at : N;
}.
Definition default_queue : string := "default".
Definition default_max_retries : Z := 5.
Definition default_enabled : bool := true.
Definition new (id : string) (now : N) (name collection : string) (evs : list TriggerEvent) (script_path : string) : Trigger :=
  mkTrigger id None name collection evs script_path default_queue 0 default_max_retries default_enabled None now now.
Definition matches_event (e : TriggerEvent) (t : Trigger) : bool := enabled t && bool_decide (e ∈ events t).

(** What one fired trigger draws: the identifier of the job and what its document draws. *)
Record Draw := mkDraw { d_job : string; d_secs : N; d_key : string; d_rev : string; d_time : Z }.

Section Fire.
Context {Num : Type} `{!JsonNumber Num} `{!JsonText Num} `{!MetaJson Num} `{!DocumentJson Num}
  `{!DocCodec Num}.
Context `{hex_crate : !HexCrate} `{std_text : !StdText}.
Context {DB : Type} `{!KvStore DB} `{!Families DB} `{schema : !SchemaCheck Num DB}.
Context `{trigger_serde : !Serde Num Trigger} `{job_serde : !Serde Num (Job Num)}.
Notation Value := (Value Num).
Notation Store := (gmap string (gmap string (Collection Num DB))).

Definition TRIGGERS : string := "_triggers".
Definition JOBS : string := "_jobs".

Definition get_triggers_for_collection (db coll : string) (s : Store) : result DbError (list Trigger) :=
  let? d := get_database db s in
  match d !! TRIGGERS with
  | None => Ok []
  | Some c =>
      Ok (omap (λ doc, match from_json (to_value doc) with
                       | Ok t => if String.eqb (tr_collection t) coll && enabled t then Some t else None
                       | Err _ => None
                       end) (scan c None))
  end.

(** [TriggerJobParams] as JSON; absent documents are left out. *)
Definition job_params (t : Trigger) (e : TriggerEvent) (doc : Document Num) (old_doc : option Value) : Value :=
  Object (foldl (λ m p, OMap.insert p.1 p.2 m) []
    ([("trigger_name", JString (tr_name t)); ("event", JString (as_str e)); ("collection", JString (tr_collection t));
      ("key", JString (key doc))] ++
     match e with OnDelete => [] | _ => [("data", to_value doc)] end ++
     match old_doc with Some v => [("old_data", v)] | None => [] end)).
Definition trigger_job (w : Draw) (t : Trigger) (e : TriggerEvent) (doc : Document Num) (old_doc : option Value) : Job Num :=
  mkJob (d_job w) None (tr_queue t) (tr_priority t) (tr_script_path t) (job_params t e doc old_doc) Pending 0
    (tr_max_retries t) None None (d_secs w) (d_secs w) None None.
Definition create_trigger_job (w : Draw) (db : string) (t : Trigger) (e : TriggerEvent) (doc : Document Num)
    (old_doc : option Value) (s : Store) : result DbError string * Store :=
  match get_database db s with
  | Err err => (Err err, s)
  | Ok _ =>
      match ensure_collection db JOBS s with
      | (Err err, s1) => (Err err, s1)
      | (Ok _, s1) =>
          match call db JOBS (insert (d_key w) (d_rev w) (d_time w) (to_json (trigger_job w t e doc old_doc))) s1 with
          | (Err err, s2) => (Err err, s2)
          | (Ok _, s2) => (Ok (d_job w), s2)
          end
      end
  end.

(** The loop over the triggers; a job that cannot be created is only logged. *)
Fixpoint fire_loop (draw : nat → Draw) (i : nat) (db : string) (e : TriggerEvent) (doc : Document Num)
    (old_doc : option Value) (ts : list Trigger) (s : Store) : list string * Store :=
  match ts with
  | [] => ([], s)
  | t :: ts' =>
      if matches_event e t then
        let '(r, s1) := create_trigger_job (draw i) db t e doc old_doc s in
        let '(ids, s2) := fire_loop draw (S i) db e doc old_doc ts' s1 in
        (match r with Ok id => id :: ids | Err _ => ids end, s2)
      else fire_loop draw (S i) db e doc old_doc ts' s
  end.
Definition is_system (coll : string) : bool := starts_with "_" coll.
Definition fire_triggers (draw : nat → Draw) (db coll : string) (e : TriggerEvent) (doc : Document Num)
    (old_doc : option Value) (s : Store) : result DbError (list string) * Store :=
  if is_system coll then (Ok [], s)
  else
    match get_triggers_for_collection db coll s with
    | Err err => (Err err, s)
    | Ok ts => let '(ids, s') := fire_loop draw 0 db e doc old_doc ts s in (Ok ids, s')
    end.

(** ** Firing triggers only touches the jobs *)

Lemma ensure_other db coll (s : Store) db' coll' : (db', coll') ≠ (db, coll) →
  coll_at db' coll' (ensure_collection db coll s).2 = coll_at db' coll' s.
Proof. intros H. unfold ensure_collection. destruct (get_collection _ _ _); [done|by apply create_other]. Qed.
Lemma create_job_other w db t e doc old (s : Store) db' coll' : coll' ≠ JOBS →
  coll_at db' coll' (create_trigger_job w db t e doc old s).2 = coll_at db' coll' s.
Proof.
  intros H. assert ((db', coll') ≠ (db, JOBS)) as Hne by naive_solver. unfold create_trigger_job.
  destruct (get_database db s); [|done]. pose proof (ensure_other db JOBS s db' coll' Hne) as He.
  destruct (ensure_collection db JOBS s) as [[u|err] s1]; cbn in *; [|done].
  match goal with |- context [call db JOBS ?f s1] =>
    pose proof (call_other db JOBS f s1 db' coll' Hne) as Hc; destruct (call db JOBS f s1) as [[]] end; cbn in *; congruence.
Qed.
Lemma fire_loop_other draw i db e doc old ts (s : Store) db' coll' : coll' ≠ JOBS →
  coll_at db' coll' (fire_loop draw i db e doc old ts s).2 = coll_at db' coll' s.
Proof.
  intros H. revert i s. induction ts as [|t ts IH]; intros i s; [done|]. cbn [fire_loop].
  destruct (matches_event e t); [|apply IH].
  pose proof (create_job_other (draw i) db t e doc old s db' coll' H) as Hc.
  destruct (create_trigger_job _ _ _ _ _ _ s) as [r s1]. pose proof (IH (S i) s1) as Hi.
  destruct (fire_loop _ _ _ _ _ _ ts s1) as [ids s2]. cbn in *. congruence.
Qed.
Lemma fire_other draw db coll e doc old (s : Store) db' coll' : coll' ≠ JOBS →
  coll_at db' coll' (fire_triggers draw db coll e doc old s).2 = coll_at db' coll' s.
Proof.
  intros H. unfold fire_triggers. destruct (is_system coll); [done|]. destruct (get_triggers_for_collection _ _ _) as [ts|]; [|done].
  pose proof (fire_loop_other draw 0 db e doc old ts s db' coll' H) as Hf. by destruct (fire_loop _ _ _ _ _ _ _ s).
Qed.
End Fire.
End Triggers.
