(* ===== verification/Coordinator.v ===== *)
(** * The sharding coordinator (src/sharding/coordinator.rs, healing.rs, cleanup.rs) and the
    document handlers it calls on other nodes (src/server/handlers/documents.rs)

    A sharded collection is stored as physical collections [name_s0], [name_s1], ..., each on a
    primary node and its replicas. A [System] is the nodes of a cluster by their API address,
    the node that runs the coordinator ([me]), and the network: the fate of each request to come,
    in order ([Delivered] when the list is used up). A lost response leaves the remote node
    changed. Health is judged at the time [now]; hash maps are walked in the order [ShardOrder]. *)

From S2P Require Import Prelude Text Json Transaction Codec Kv Hlc Document DocStore Indexes Collection CollectionBatch Databases Sharding SyncLog SyncState SyncTransport Cluster SyncWorker ClusterManager NodeStore Triggers.
Import Json Codec Document Serializer Indexes Collection CollectionBatch Databases NodeStore Jobs Triggers.

(** The text of an HTTP status: its number and its reason. *)
Class HttpStatus := show_status : N → string.
(** The order in which the shards of a batch are walked. *)
Class ShardOrder := shard_order : list N → list N.
Class ShardOrderLaws `{!ShardOrder} : Prop := shard_order_perm l : shard_order l ≡ₚ l.

Module Coordinator.
Local Open Scope solidb_scope.

Inductive Fate := Delivered | RequestLost | ResponseLost.

Definition physical (coll : string) (shard : N) : string := coll +:+ ("_s" +:+ dec shard).
Definition table_key (db coll : string) : string := db +:+ ("." +:+ coll).
(** The status of an error response (src/error.rs). *)
Definition status (e : DbError) : N :=
  match e with
  | CollectionNotFound _ | DocumentNotFound _ | TransactionNotFound _ | RoleNotFound _ => 404
  | CollectionAlreadyExists _ | ConflictError _ | TransactionConflict _ => 409
  | InvalidDocument _ | ParseError _ | BadRequest _ | SchemaValidationError _ => 400
  | Unauthorized _ => 401
  | Forbidden _ => 403
  | OperationNotSupported _ => 501
  | TransactionTimeout _ => 408
  | _ => 500
  end.
(** [is_physical_shard_collection] of src/server/handlers/system.rs: [_s] and digits at the end.
    The text behind the last [_s]. *)
Fixpoint after_last_s (s : string) : option string :=
  match s with
  | EmptyString => None
  | String _ s' =>
      match after_last_s s' with
      | Some t => Some t
      | None => if starts_with "_s" s then Some (substring 2 (String.length s - 2) s) else None
      end
  end.
Definition is_physical_shard_collection (n : string) : bool :=
  match after_last_s n with
  | Some suffix => negb (String.eqb suffix "") && str_all (in_range 48 57) suffix
  | None => false
  end.

(** What a write draws: the key the coordinator gives, what the collection draws, and the draws
    of the triggers. *)
Record Stamp := mkStamp { s_uuid : string; s_key : string; s_rev : string; s_time : Z; s_jobs : nat → Draw }.

Section Coordinator.
Context {Num : Type} `{!JsonNumber Num} `{!JsonText Num} `{!MetaJson Num} `{!DocumentJson Num}
  `{!DocCodec Num}.
Context `{hex_crate : !HexCrate} `{std_text : !StdText}.
Context {DB : Type} `{!KvStore DB} `{!Families DB} `{schema : !SchemaCheck Num DB}.
Context `{shard_json : !ShardConfigJson} `{table_json : !ShardTableJson} `{hash : !Sharding.KeyHash} `{members : !HashOrder} `{shards : !ShardOrder}.
Context `{trigger_serde : !Serde Num Trigger} `{job_serde : !Serde Num (Job Num)} `{http : !HttpStatus}.
Context {Stats : Type}.
Notation Value := (Value Num).
Notation Collection := (Collection Num DB).
Notation Store := (gmap string (gmap string Collection)).
Notation Manager := (ClusterManager.Manager (Num:=Num) (DB:=DB) (Stats:=Stats)).

(** ** Nodes *)

Record Node := mkNode {
  store : Store;
  cluster_manager : option Manager;
  shard_tables : gmap string ShardTable;
  recently_failed_nodes : gmap string N;
  is_rebalancing : bool;
  last_reshard_time : option N;
  replication_log : option (list SyncLog.LogEntry);
}.
Definition set_store (s : Store) (n : Node) : Node :=
  mkNode s (cluster_manager n) (shard_tables n) (recently_failed_nodes n) (is_rebalancing n) (last_reshard_time n) (replication_log n).
Definition set_tables (t : gmap string ShardTable) (n : Node) : Node :=
  mkNode (store n) (cluster_manager n) t (recently_failed_nodes n) (is_rebalancing n) (last_reshard_time n) (replication_log n).
Definition set_failed (f : gmap string N) (n : Node) : Node :=
  mkNode (store n) (cluster_manager n) (shard_tables n) f (is_rebalancing n) (last_reshard_time n) (replication_log n).
Definition set_reshard_time (t : option N) (n : Node) : Node :=
  mkNode (store n) (cluster_manager n) (shard_tables n) (recently_failed_nodes n) (is_rebalancing n) t (replication_log n).
(** [if let Some(ref log) = replication_log { let _ = log.append(entry); }] *)
Definition append (e : SyncLog.LogEntry) (n : Node) : Node :=
  mkNode (store n) (cluster_manager n) (shard_tables n) (recently_failed_nodes n) (is_rebalancing n) (last_reshard_time n)
    ((λ l, l ++ [e]) <$> replication_log n).
Definition on_store {A} (f : Store → A * Store) (n : Node) : A * Node := let '(a, s) := f (store n) in (a, set_store s n).

(** [ShardCoordinator::new] *)
Definition new (s : Store) (m : option Manager) (log : option (list SyncLog.LogEntry)) : Node := mkNode s m ∅ ∅ false None log.

Variable now : N.

Definition my_node_id (n : Node) : string :=
  match cluster_manager n with Some m => ClusterManager.local_node_id m | None => "local" end.
Definition healthy_nodes (m : Manager) : list string := ClusterManager.get_healthy_nodes now m.
Definition get_node_addresses (n : Node) : list string :=
  match cluster_manager n with
  | Some m => (λ x, Cluster.address (Cluster.node x)) <$> Cluster.get_all_members (ClusterManager.state m)
  | None => ["local"]
  end.
Definition get_node_ids (n : Node) : list string :=
  match cluster_manager n with
  | Some m => (λ x, Cluster.id (Cluster.node x)) <$> Cluster.get_all_members (ClusterManager.state m)
  | None => ["local"]
  end.
Definition get_node_api_address (id : string) (n : Node) : option string :=
  m ← cluster_manager n; ClusterManager.get_node_api_address id m.
Definition get_healthy_node_count (n : Node) : nat :=
  match cluster_manager n with Some m => length (healthy_nodes m) | None => 1 end.
Definition MAX_BLOB_REPLICAS : N := 10.
Definition MIN_BLOB_REPLICAS : N := 2.
(** The count is cast to [u16]. *)
Definition calculate_blob_replication_factor (n : Node) : N :=
  N.min MAX_BLOB_REPLICAS (N.max MIN_BLOB_REPLICAS ((N.of_nat (get_healthy_node_count n) mod u16_modulus) / 2)).

(** ** Recently failed nodes (healing.rs) *)

Definition was_recently_failed (id : string) (n : Node) : bool :=
  match recently_failed_nodes n !! id with Some t => ((now - t) / 1000 <? 300)%N | None => false end.
Definition record_node_failure (id : string) (n : Node) : Node := set_failed (<[id := now]> (recently_failed_nodes n)) n.
Definition clear_node_failure (id : string) (n : Node) : Node := set_failed (base.delete id (recently_failed_nodes n)) n.
Definition cleanup_old_failures (n : Node) : Node :=
  set_failed (filter (λ p, ((now - p.2) / 1000 < 3600)%N) (recently_failed_nodes n)) n.
Definition clear_failures_for_healthy_nodes (n : Node) : Node :=
  match cluster_manager n with
  | Some m => foldl (λ n id, clear_node_failure id n) n (healthy_nodes m)
  | None => n
  end.
Definition should_pause_resharding (n : Node) : bool :=
  match cluster_manager n with
  | Some m =>
      let healthy := length (healthy_nodes m) in
      let total := length (Cluster.get_all_members (ClusterManager.state m)) in
      (healthy <? (total + 1) / 2)%nat || (total / 2 <? size (recently_failed_nodes n))%nat
  | None => false
  end.
Definition mark_reshard_completed (n : Node) : Node := set_reshard_time (Some now) n.
Definition check_recent_resharding (n : Node) : bool :=
  is_rebalancing n ||
  match last_reshard_time n with Some t => ((now - t) / 1000 <? 10)%N | None => false end.

(** ** Shard tables *)

(** Only healthy nodes are given shards. *)
Definition compute_shard_table (db coll : string) (config : CollectionShardConfig) (n : Node) : result string ShardTable :=
  let nodes := match cluster_manager n with Some m => sort_by str_cmp (healthy_nodes m) | None => ["local"] end in
  match nodes with
  | [] => Err "No nodes available"
  | _ =>
      let? a := Sharding.compute_assignments nodes (N.to_nat (cs_num_shards config)) (N.to_nat (cs_replication_factor config)) None in
      Ok (mkTable db coll (cs_num_shards config) (cs_replication_factor config) (cs_shard_key config) a)
  end.
Definition cache_table (db coll : string) (t : ShardTable) (n : Node) : Node :=
  set_tables (<[table_key db coll := t]> (shard_tables n)) n.
(** A primary that is not healthy, or a number of shards that is not that of the configuration. *)
Definition is_stale (db coll : string) (t : ShardTable) (n : Node) : bool :=
  match cluster_manager n with
  | Some m =>
      existsb (λ a, negb (bool_decide (Sharding.primary_node a ∈ healthy_nodes m))) (map_to_list (t_assignments t)).*2 ||
      match config_of db coll (store n) with Some c => negb (cs_num_shards c =? t_num_shards t)%N | None => false end
  | None => false
  end.
Definition load_shard_table (db coll : string) (n : Node) : option ShardTable * Node :=
  match get_collection db coll (store n) with
  | Err _ => (None, n)
  | Ok c =>
      match get_shard_config c with
      | None => (None, n)
      | Some config =>
          if (cs_num_shards config =? 0)%N then (None, n)
          else match get_stored_shard_table c with
               | Some t => (Some t, cache_table db coll t n)
               | None =>
                   match compute_shard_table db coll config n with
                   | Ok t => (Some t, cache_table db coll t (set_store (persist_table db coll t (store n)) n))
                   | Err _ => (None, n)
                   end
               end
      end
  end.
Definition get_shard_table (db coll : string) (n : Node) : option ShardTable * Node :=
  match shard_tables n !! table_key db coll with
  | Some t => if is_stale db coll t n then load_shard_table db coll n else (Some t, n)
  | None => load_shard_table db coll n
  end.
Definition init_collection (db coll : string) (config : CollectionShardConfig) (n : Node) : result string ShardTable * Node :=
  match compute_shard_table db coll config n with
  | Err e => (Err e, n)
  | Ok t => (Ok t, cache_table db coll t (set_store (persist_table db coll t (store n)) n))
  end.
Definition update_shard_table_cache (t : ShardTable) (n : Node) : Node :=
  let n1 := cache_table (t_database t) (t_collection t) t n in
  set_store (persist_table (t_database t) (t_collection t) t (store n1)) n1.

(** The first healthy replica becomes the primary, the primary a replica; the table is cached
    and stored, and the failure recorded. *)
Definition promoted (shard : nat) (r : string) (a : Sharding.ShardAssignment) : Sharding.ShardAssignment :=
  Sharding.mkAssignment shard r (List.filter (λ x, negb (String.eqb x r)) (Sharding.replica_nodes a) ++ [Sharding.primary_node a]).
Definition promote_replica (db coll : string) (shard : N) (n : Node) : option string * Node :=
  match shard_tables n !! table_key db coll with
  | None => (None, n)
  | Some t =>
      match t_assignments t !! N.to_nat shard, cluster_manager n with
      | Some a, Some m =>
          match List.find (λ r, ClusterManager.is_node_healthy now r m) (Sharding.replica_nodes a) with
          | None => (None, n)
          | Some r =>
              let t' := mkTable (t_database t) (t_collection t) (t_num_shards t) (t_replication_factor t) (t_shard_key t)
                          (<[N.to_nat shard := promoted (N.to_nat shard) r a]> (t_assignments t)) in
              let n1 := record_node_failure (Sharding.primary_node a) (cache_table db coll t' n) in
              (Some r, set_store (persist_table db coll t' (store n1)) n1)
          end
      | _, _ => (None, n)
      end
  end.

(** ** The document handlers, called with the header [X-Shard-Direct] *)

Definition entry (db coll key : string) (op : SyncLog.Operation) (data : option string) : SyncLog.LogEntry :=
  SyncLog.mkEntry 0 "" db coll op key data now None.
(** [fire_collection_triggers], whose outcome is ignored. *)
Definition fire (w : Stamp) (db coll : string) (e : TriggerEvent) (doc : Document Num) (old : option Value) (n : Node) : Node :=
  if is_system coll then n
  else set_store (fire_triggers (s_jobs w) db coll e doc old (store n)).2 n.
Definition insert_document (w : Stamp) (db coll : string) (data : Value) (n : Node) : result DbError Value * Node :=
  match on_store (call db coll (insert (s_key w) (s_rev w) (s_time w) data)) n with
  | (Err e, n1) => (Err e, n1)
  | (Ok doc, n1) =>
      let n2 := if is_physical_shard_collection coll then n1
                else append (entry db coll (key doc) SyncLog.Insert (value_to_vec (to_value doc))) n1 in
      (Ok (to_value doc), fire w db coll OnInsert doc None n2)
  end.
(** On a collection without a sharding configuration of its own, as the physical ones are. *)
Definition get_document (db coll k : string) (n : Node) : result DbError Value :=
  let? doc := read db coll (λ c, get c k) (store n) in Ok (to_value doc).
Definition not_replicated (db coll : string) (n : Node) : bool :=
  is_physical_shard_collection coll || match config_of db coll (store n) with Some _ => true | None => false end.
Definition update_document (w : Stamp) (db coll k : string) (data : Value) (n : Node) : result DbError Value * Node :=
  let old := match get_document db coll k n with Ok v => Some v | Err _ => None end in
  match on_store (call db coll (Collection.update (s_rev w) (s_time w) k data)) n with
  | (Err e, n1) => (Err e, n1)
  | (Ok doc, n1) =>
      let n2 := if not_replicated db coll n1 then n1
                else append (entry db coll (key doc) SyncLog.Update (value_to_vec (to_value doc))) n1 in
      (Ok (to_value doc), fire w db coll OnUpdate doc old n2)
  end.
Definition PROTECTED_COLLECTIONS : list string := ["_admins"; "_api_keys"].
Definition is_protected_collection (db coll : string) : bool :=
  String.eqb db "_system" && existsb (String.eqb coll) PROTECTED_COLLECTIONS.
Definition delete_document (w : Stamp) (db coll k : string) (n : Node) : result DbError unit * Node :=
  if is_protected_collection db coll
  then (Err (BadRequest ("Cannot delete documents from protected collection: " +:+ coll)), n)
  else
    let old := read db coll (λ c, get c k) (store n) in
    match on_store (call db coll (Collection.delete k)) n with
    | (Err e, n1) => (Err e, n1)
    | (Ok _, n1) =>
        let n2 := if not_replicated db coll n1 then n1
                  else append (SyncLog.mkEntry 0 (match cluster_manager n1 with Some m => ClusterManager.local_node_id m | None => "" end)
                                 db coll SyncLog.Delete k None now None) n1 in
        (Ok tt, match old with Ok doc => fire w db coll OnDelete doc (Some (to_value doc)) n2 | Err _ => n2 end)
    end.

(** The revisions and times of the documents of a batch. *)
Definition Stamps : Type := nat → string * Z.
Definition stamped (ws : Stamps) (l : list (string * Value)) : list (string * Z * (string * Value)) :=
  imap (λ i p, (ws i, p)) l.
Definition keyed_docs (docs : list Value) : list (string * Value) :=
  List.filter (λ p, negb (String.eqb p.1 "")) ((λ d, (default "" (value_get "_key" d ≫= Json.as_str), d)) <$> docs).
Definition upsert (ws : Stamps) (db coll : string) (l : list (string * Value)) (n : Node) : result DbError N * Node :=
  on_store (call db coll (upsert_batch (stamped ws l))) n.
Definition insert_documents_replica (ws : Stamps) (db coll : string) (docs : list Value) (n : Node) : result DbError N * Node :=
  upsert ws db coll (keyed_docs docs) n.
(** The batch endpoint, without the forwarding to the replicas, which is done by a task of its own
    and left out for a migration. A name that is not that of a physical shard takes inserts. *)
Definition batch_upserts (coll : string) : bool := SyncWorker.is_physical_shard coll.
Definition insert_documents (ws : Stamps) (keys : nat → string) (db coll : string) (docs : list Value) (n : Node) :
    result DbError N * Node :=
  if batch_upserts coll then upsert ws db coll (keyed_docs docs) n
  else
    match on_store (call db coll (insert_batch (imap (λ i d, (keys i, (ws i).1, (ws i).2, d)) docs))) n with
    | (Ok l, n1) => (Ok (N.of_nat (length l)), n1)
    | (Err e, n1) => (Err e, n1)
    end.
(** The shard named by a physical collection, and the replicas the primary forwards to. *)
Definition shard_of (coll : string) : option (string * N) :=
  suffix ← after_last_s coll;
  i ← Radix.from_str_radix 10 u16_modulus suffix;
  Some (substring 0 (String.length coll - (String.length suffix + 2)) coll, i).
Definition replica_addresses (db coll : string) (n : Node) : list string * Node :=
  if is_rebalancing n then ([], n)
  else match shard_of coll with
       | None => ([], n)
       | Some (base_coll, i) =>
           match get_shard_table db base_coll n with
           | (None, n1) => ([], n1)
           | (Some t, n1) =>
               match t_assignments t !! N.to_nat i with
               | Some a => (omap (λ r, get_node_api_address r n1) (Sharding.replica_nodes a), n1)
               | None => ([], n1)
               end
           end
       end.
Definition verify_documents_exist (db coll : string) (keys : list string) (n : Node) : result DbError (list string) :=
  let? c := get_collection db coll (store n) in
  Ok (List.filter (λ k, is_ok (get c k)) keys).

(** ** The system *)

Record System := mkSystem { nodes : gmap string Node; me : string; fates : list Fate }.
Definition set_node (a : string) (n : Node) (s : System) : System := mkSystem (<[a := n]> (nodes s)) (me s) (fates s).
Definition M (A : Type) : Type := System → result DbError A * System.
#[global] Instance M_ret : MRet M := λ _ x s, (Ok x, s).
#[global] Instance M_bind : MBind M := λ _ _ f m s,
  match m s with (Ok x, s') => f x s' | (Err e, s') => (Err e, s') end.
Definition throw {A} (e : DbError) : M A := λ s, (Err e, s).
Definition lift {A} (r : result DbError A) : M A := λ s, (r, s).

Definition local {A} (f : Node → result DbError A * Node) : M A := λ s,
  match nodes s !! me s with
  | Some n => let '(r, n') := f n in (r, set_node (me s) n' s)
  | None => (Err (InternalError "no node"), s)
  end.
Definition ask {A} (f : Node → A) : M A := local (λ n, (Ok (f n), n)).
Definition change (f : Node → Node) : M unit := local (λ n, (Ok tt, f n)).

(** A request and its response, if there is one. *)
Definition next_fate (s : System) : Fate * System :=
  match fates s with
  | [] => (Delivered, s)
  | f :: fs => (f, mkSystem (nodes s) (me s) fs)
  end.
Definition request {A} (addr : string) (handler : Node → result DbError A * Node) : M (option (result DbError A)) := λ s,
  let '(f, s1) := next_fate s in
  match f, nodes s1 !! addr with
  | RequestLost, _ | _, None => (Ok None, s1)
  | _, Some n =>
      let '(r, n') := handler n in
      (Ok (match f with ResponseLost => None | _ => Some r end), set_node addr n' s1)
  end.

Definition shard_table (db coll : string) : M ShardTable :=
  local (λ n, let '(o, n') := get_shard_table db coll n in (ok_or o (InternalError "Shard table not found"), n')).
Definition assignment (t : ShardTable) (shard : N) : M Sharding.ShardAssignment :=
  lift (ok_or (t_assignments t !! N.to_nat shard) (InternalError "Shard assignment not found")).
Definition is_local (primary local_id : string) : bool := String.eqb primary local_id || String.eqb primary "local".

(** The key of a document, given to one that has none, and the text its shard is computed from. *)
Definition with_document_key (uuid : string) (document : Value) : string * Value :=
  match value_get "_key" document ≫= Json.as_str with
  | Some k => (k, document)
  | None => (uuid, match document with Object m => Object (OMap.insert "_key" (JString uuid) m) | v => v end)
  end.
Definition shard_key_value (config : CollectionShardConfig) (k : string) (document : Value) : string :=
  if String.eqb (cs_shard_key config) "_key" then k
  else default k (value_get (cs_shard_key config) document ≫= Json.as_str).

(** ** Single documents *)

(** [coll.insert(document)?] on the own shard. *)
Definition insert_local (w : Stamp) (db phys : string) (document : Value) : M Value :=
  doc ← local (on_store (call db phys (insert (s_key w) (s_rev w) (s_time w) document)));
  mret (to_value doc).
(** The node to write to: the primary, or a replica promoted in its place. *)
Definition target_node (db coll : string) (shard : N) (primary : string) : M string :=
  m ← ask cluster_manager;
  match m with
  | None => mret primary
  | Some m =>
      if ClusterManager.is_node_healthy now primary m then mret primary
      else
        p ← local (λ n, let '(o, n') := promote_replica db coll shard n in (Ok o, n'));
        lift (ok_or p (InternalError ("Primary " +:+ (primary +:+ " unhealthy and no healthy replica for failover"))))
  end.
(** The texts of its errors: no manager, no address, no response (followed by the text of the
    error, which is left out), an error status. *)
Record Texts := mkTexts { x_missing : string; x_unknown : string; x_lost : string; x_failed : string }.
Definition forward {A} (x : Texts) (target : string) (handler : Node → result DbError A * Node) : M A :=
  m ← ask cluster_manager;
  match m with
  | None => throw (InternalError (x_missing x))
  | Some m =>
      match ClusterManager.get_node_api_address target m with
      | None => throw (InternalError (x_unknown x))
      | Some addr =>
          r ← request addr handler;
          match r with
          | None => throw (InternalError (x_lost x))
          | Some (Ok v) => mret v
          | Some (Err e) => throw (InternalError (x_failed x +:+ show_status (status e)))
          end
      end
  end.
Definition insert (w : Stamp) (db coll : string) (config : CollectionShardConfig) (document : Value) : M Value :=
  let '(k, document) := with_document_key (s_uuid w) document in
  let shard := Sharding.route (shard_key_value config k document) (cs_num_shards config) in
  let phys := physical coll shard in
  table ← shard_table db coll;
  a ← assignment table shard;
  let primary := Sharding.primary_node a in
  local_id ← ask my_node_id;
  if is_local primary local_id then insert_local w db phys document
  else
    target ← target_node db coll shard primary;
    if String.eqb target local_id then insert_local w db phys document
    else forward (mkTexts "Cluster manager missing for remote write" ("Target node " +:+ (target +:+ " address unknown"))
                    "Forwarding failed: " "Remote insert failed: ") target (insert_document w db phys document).

(** The nodes are asked in turn until one answers; 404 is an answer. *)
Fixpoint read_from (db phys k : string) (targets : list string) : M Value :=
  match targets with
  | [] => throw (InternalError "All nodes failed for shard read")
  | t :: targets' =>
      addr ← ask (get_node_api_address t);
      match addr with
      | None => read_from db phys k targets'
      | Some addr =>
          r ← request addr (λ n, (get_document db phys k n, n));
          match r with
          | Some (Ok v) => mret v
          | Some (Err e) => if (status e =? 404)%N then throw (DocumentNotFound k) else read_from db phys k targets'
          | None => read_from db phys k targets'
          end
      end
  end.
Definition nodes_to_try (a : Sharding.ShardAssignment) (n : Node) : list string :=
  match cluster_manager n with
  | Some m => if ClusterManager.is_node_healthy now (Sharding.primary_node a) m
              then Sharding.primary_node a :: Sharding.replica_nodes a else Sharding.replica_nodes a
  | None => [Sharding.primary_node a]
  end.
(** The shard is computed from the key, whatever the shard key of the collection. *)
Definition get (db coll k : string) : M Value :=
  table ← shard_table db coll;
  let shard := Sharding.route k (t_num_shards table) in
  let phys := physical coll shard in
  a ← assignment table shard;
  local_id ← ask my_node_id;
  if is_local (Sharding.primary_node a) local_id then
    doc ← local (λ n, (read db phys (λ c, Collection.get c k) (store n), n));
    mret (to_value doc)
  else
    targets ← ask (nodes_to_try a);
    match targets with
    | [] => throw (InternalError "No healthy nodes for shard")
    | _ => read_from db phys k targets
    end.

(** A write of the own shard is logged, although the other nodes do not apply it. *)
Definition update (w : Stamp) (db coll : string) (config : CollectionShardConfig) (k : string) (document : Value) : M Value :=
  let shard := Sharding.route k (cs_num_shards config) in
  let phys := physical coll shard in
  table ← shard_table db coll;
  a ← assignment table shard;
  local_id ← ask my_node_id;
  if is_local (Sharding.primary_node a) local_id then
    _ ← local (on_store (call db phys (Collection.update (s_rev w) (s_time w) k document)));
    _ ← change (append (entry db phys k SyncLog.Update (value_to_vec document)));
    mret document
  else forward (mkTexts "Cluster manager missing" "Primary node unknown" "Forwarding update failed: " "Remote update failed: ")
         (Sharding.primary_node a) (update_document w db phys k document).
Definition delete (w : Stamp) (db coll : string) (config : CollectionShardConfig) (k : string) : M unit :=
  let shard := Sharding.route k (cs_num_shards config) in
  let phys := physical coll shard in
  table ← shard_table db coll;
  a ← assignment table shard;
  local_id ← ask my_node_id;
  if is_local (Sharding.primary_node a) local_id then
    _ ← local (on_store (call db phys (Collection.delete k)));
    change (append (entry db phys k SyncLog.Delete None))
  else forward (mkTexts "Cluster manager missing" "Primary node unknown" "Forwarding delete failed: " "Remote delete failed: ")
         (Sharding.primary_node a) (delete_document w db phys k).
(** Only the logical collection of the node itself. *)
Definition scan_all_shards (db coll : string) : M (list (Document Num)) :=
  c ← local (λ n, (get_collection db coll (store n), n)); mret (scan c None).

(** ** Batches *)

(** The documents of each shard. *)
Definition group_by_shard {A} (shard : A → N) (l : list A) : list (N * list A) :=
  (λ s, (s, List.filter (λ x, (shard x =? s)%N) l)) <$> shard_order (remove_dups (shard <$> l)).
Definition document_shard (config : CollectionShardConfig) (p : string * Value) : N :=
  Sharding.route (shard_key_value config p.1 p.2) (cs_num_shards config).

(** A request whose handler also starts tasks that send requests of their own, without an answer. *)
Definition Task : Type := string * (Node → Node).
Definition run_task (s : System) (t : Task) : System :=
  let '(f, s1) := next_fate s in
  match f, nodes s1 !! t.1 with
  | RequestLost, _ | _, None => s1
  | _, Some n => set_node t.1 (t.2 n) s1
  end.
Definition run_tasks (l : list Task) : M unit := λ s, (Ok tt, foldl run_task s l).
Definition request_with_tasks {A} (addr : string) (handler : Node → (result DbError A * list Task) * Node) :
    M (option (result DbError A)) := λ s,
  let '(f, s1) := next_fate s in
  match f, nodes s1 !! addr with
  | RequestLost, _ | _, None => (Ok None, s1)
  | _, Some n =>
      let '((r, tasks), n') := handler n in
      (Ok (match f with ResponseLost => None | _ => Some r end), foldl run_task (set_node addr n' s1) tasks)
  end.
Definition replica_task (ws : Stamps) (db coll : string) (docs : list Value) (addr : string) : Task :=
  (addr, λ n, (insert_documents_replica ws db coll docs n).2).
(** The batch endpoint: a primary forwards what it stored to its replicas, unless it is a migration. *)
Definition insert_documents_batch (migration : bool) (ws : Stamps) (keys : nat → string) (db coll : string)
    (docs : list Value) (n : Node) : (result DbError N * list Task) * Node :=
  match insert_documents ws keys db coll docs n with
  | (Err e, n1) => ((Err e, []), n1)
  | (Ok count, n1) =>
      if migration then ((Ok count, []), n1)
      else let '(addrs, n2) := replica_addresses db coll n1 in
           ((Ok count, replica_task ws db coll docs <$> addrs), n2)
  end.

Inductive Place := Nowhere | Here | There (addr : string).
Definition place (t : ShardTable) (shard : N) (n : Node) : Place :=
  match t_assignments t !! N.to_nat shard with
  | None => Nowhere
  | Some a =>
      if is_local (Sharding.primary_node a) (my_node_id n) then Here
      else match get_node_api_address (Sharding.primary_node a) n with Some addr => There addr | None => Nowhere end
  end.
Definition is_here (p : Place) : bool := match p with Here => true | _ => false end.
Definition total (l : list (N * list Value)) : N := foldl (λ n p, n + N.of_nat (length p.2))%N 0%N l.

(** The batches of the own shards: the first that has no collection ends the whole call; the
    others go to the replicas afterwards. *)
Fixpoint local_batches (ws : Stamps) (db coll : string) (t : ShardTable) (l : list (N * list Value)) :
    M (N * N * list Task) :=
  match l with
  | [] => mret (0%N, 0%N, [])
  | (shard, batch) :: l' =>
      let phys := physical coll shard in
      _ ← local (λ n, (get_collection db phys (store n), n));
      r ← local (λ n, let '(r, n') := upsert ws db phys (keyed_docs batch) n in (Ok r, n'));
      addrs ← ask (λ n, match t_assignments t !! N.to_nat shard with
                        | Some a => omap (λ x, get_node_api_address x n) (Sharding.replica_nodes a)
                        | None => []
                        end);
      rest ← local_batches ws db coll t l';
      mret (match r with
            | Ok count => ((count + rest.1.1)%N, rest.1.2, (replica_task ws db phys batch <$> addrs) ++ rest.2)
            | Err _ => (rest.1.1, (N.of_nat (length batch) + rest.1.2)%N, rest.2)
            end)
  end.
Fixpoint remote_batches (ws : Stamps) (keys : nat → string) (db coll : string) (l : list (string * N * list Value)) :
    M (N * N) :=
  match l with
  | [] => mret (0, 0)%N
  | (addr, shard, batch) :: l' =>
      r ← request_with_tasks addr (insert_documents_batch false ws keys db (physical coll shard) batch);
      rest ← remote_batches ws keys db coll l';
      let n := N.of_nat (length batch) in
      mret (match r with
            | Some (Ok _) => (n + rest.1, rest.2)%N
            | _ => (rest.1, n + rest.2)%N
            end)
  end.
(** The answer: how many documents were stored and how many were not. *)
Definition insert_batch (ws : Stamps) (keys : nat → string) (db coll : string) (config : CollectionShardConfig)
    (documents : list Value) : M (N * N) :=
  table ← shard_table db coll;
  let docs := imap (λ i d, with_document_key (keys i) d) documents in
  let batches := (λ p, (p.1, p.2.*2)) <$> group_by_shard (document_shard config) docs in
  placed ← ask (λ n, (λ p, (place table p.1 n, p)) <$> batches);
  let nowhere := total (omap (λ p, match p.1 with Nowhere => Some p.2 | _ => None end) placed) in
  here ← local_batches ws db coll table (omap (λ p, match p.1 with Here => Some p.2 | _ => None end) placed);
  there ← remote_batches ws keys db coll
            (omap (λ p, match p.1 with There addr => Some (addr, p.2.1, p.2.2) | _ => None end) placed);
  _ ← run_tasks here.2;
  mret ((here.1.1 + there.1)%N, (nowhere + here.1.2 + there.2)%N).

(** A batch sent during a migration is tried again up to [MAX_RETRIES] times after a server error
    or without a response. *)
Definition MAX_RETRIES : nat := 3.
Fixpoint send_with_retries (retries : nat) (ws : Stamps) (keys : nat → string) (addr db phys : string) (docs : list Value) : M bool :=
  r ← request_with_tasks addr (insert_documents_batch true ws keys db phys docs);
  let again := match retries with S n => send_with_retries n ws keys addr db phys docs | 0 => mret false end in
  match r with
  | Some (Ok _) => mret true
  | Some (Err e) => if (500 <=? status e)%N then again else mret false
  | None => again
  end.
(** The shards in turn, with the keys stored so far. A node that failed lately ends the loop. *)
Fixpoint upsert_shards (ws : Stamps) (keys : nat → string) (db coll : string) (t : ShardTable)
    (l : list (N * list (string * Value))) (done : list string) : M (list string) :=
  match l with
  | [] => mret done
  | (shard, batch) :: l' =>
      let phys := physical coll shard in
      match t_assignments t !! N.to_nat shard with
      | None => upsert_shards ws keys db coll t l' done
      | Some a =>
          let primary := Sharding.primary_node a in
          local_id ← ask my_node_id;
          if is_local primary local_id then
            _ ← local (λ n, (get_database db (store n), n));
            _ ← local (on_store (ensure_collection db phys));
            r ← local (λ n, let '(r, n') := upsert ws db phys batch n in (Ok r, n'));
            upsert_shards ws keys db coll t l' (if is_ok r then done ++ batch.*1 else done)
          else
            addr ← ask (get_node_api_address primary);
            match addr with
            | None => upsert_shards ws keys db coll t l' done
            | Some addr =>
                failed ← ask (was_recently_failed primary);
                if failed : bool then mret done
                else
                  sent ← send_with_retries MAX_RETRIES ws keys addr db phys batch.*2;
                  let done' := if sent : bool then done ++ batch.*1 else done in
                  _ ← change (λ n, match done', batch with [], _ :: _ => record_node_failure primary n | _, _ => n end);
                  upsert_shards ws keys db coll t l' done'
            end
      end
  end.
(** The keys of the documents that were stored. *)
Definition upsert_batch_to_shards (ws : Stamps) (keys : nat → string) (db coll : string) (config : CollectionShardConfig)
    (documents : list (string * Value)) : M (list string) :=
  table ← shard_table db coll;
  upsert_shards ws keys db coll table (group_by_shard (document_shard config) documents) [].

(** ** Shards that no longer belong to the node (cleanup.rs)

    [strip_suffix] with a predicate removes one character: a name is taken for that of a shard
    only when it ends in [_s] and a single digit. *)
Definition orphan_name (n : string) : option (string * N) :=
  let len := String.length n in
  let base_name := substring 0 (len - 1) n in
  if str_all (in_range 48 57) (substring (len - 1) 1 n) && (0 <? len)%nat
     && String.eqb (substring (len - 3) 2 n) "_s" && (3 <=? len)%nat
  then (λ i, (substring 0 (len - 3) n, i)) <$> Radix.from_str_radix 10 u16_modulus (substring (len - 1) 1 n)
  else None.
(** A shard without a table is kept. *)
Definition assigned_here (db coll : string) (shard : N) (n : Node) : bool :=
  match shard_tables n !! table_key db coll with
  | None => true
  | Some t =>
      match t_assignments t !! N.to_nat shard with
      | Some a => String.eqb (Sharding.primary_node a) (my_node_id n) || bool_decide (my_node_id n ∈ Sharding.replica_nodes a)
      | None => false
      end
  end.
Definition cleanup_one (db : string) (acc : N * Node) (coll : string) : N * Node :=
  let '(count, n) := acc in
  match orphan_name coll with
  | None => acc
  | Some (base_coll, i) =>
      if assigned_here db base_coll i n then acc
      else match delete_collection db coll (store n) with
           | (Ok _, s) => ((count + 1)%N, set_store s n)
           | (Err _, s) => (count, set_store s n)
           end
  end.
Definition cleanup_orphaned_shards (n : Node) : N * Node :=
  foldl (λ acc db, foldl (cleanup_one db) acc (list_collections db (store acc.2))) (0%N, n) (list_databases (store n)).
End Coordinator.
End Coordinator.
