(* ===== verification/CoordinatorProps.v ===== *)
(** * A sharded collection behaves as one map

    Whatever node of a healthy cluster a client talks to, inserts, reads, updates and deletes of
    a collection sharded by its keys act on a single finite map: the coordinator finds the shard
    and its primary, forwards the request, and only that document changes. *)

From S2P Require Import Prelude Text Json Transaction Codec Kv Hlc Document DocStore Indexes Collection CollectionProps CollectionBatch Databases Sharding SyncLog SyncState SyncTransport Cluster SyncWorker ClusterManager NodeStore Triggers Coordinator.
Import Json Codec Document Serializer Indexes Collection CollectionProps CollectionBatch Databases NodeStore Jobs Triggers.

Module CoordinatorProps.
Import Coordinator.

(** ** One document of a collection *)

Section Collections.
Context {Num : Type} `{!JsonNumber Num} `{!JsonText Num} `{!MetaJson Num} `{!DocumentJson Num}
  `{!DocCodec Num} `{!DocCodecLaws Num}.
Context `{hex_crate : !HexCrate} `{std_text : !StdText} `{hex_laws : !HexLaws}.
Context {DB : Type} `{!KvStore DB} `{!KvLaws DB} `{schema : !SchemaCheck Num DB}.
Notation Collection := (Collection Num DB).
Implicit Types (c : Collection) (k : string) (x : Document Num).

Definition found (k : string) (o : option (Document Num)) : result DbError (Document Num) :=
  match o with Some x => Ok x | None => Err (DocumentNotFound k) end.
(** [c'] is [c] with [o] under [k]. *)
Definition becomes k (o : option (Document Num)) c c' : Prop :=
  collection_type c' = collection_type c ∧
  ∀ k', plain k' → Collection.get c' k' = if decide (k' = k) then found k o else Collection.get c k'.

Lemma becomes_write k o op entries c c' :
  plain k → op = match o with Some b => Put (doc_key k) b | None => Del (doc_key k) end →
  Forall (entry_space ∘ op_target) entries → kv_write (op :: entries) (db c) = Some (db c') →
  ∀ k', plain k' → kv_get (doc_key k') (db c') = if decide (k' = k) then o else kv_get (doc_key k') (db c).
Proof.
  intros Hk -> He Hw k' Hk'. rewrite (kv_get_write _ _ _ _ Hw). cbn [foldl]. rewrite entries_keep_docs by done.
  destruct o as [b|]; cbn [write_key]; destruct (decide (k' = k)) as [->|Hne].
  - by rewrite decide_True.
  - by rewrite decide_False by by intros ?%doc_key_inj.
  - by rewrite decide_True.
  - by rewrite decide_False by by intros ?%doc_key_inj.
Qed.
Lemma becomes_put k x bytes entries c c' : plain k → serialize_doc x = Ok bytes →
  Forall (entry_space ∘ op_target) entries → kv_write (Put (doc_key k) bytes :: entries) (db c) = Some (db c') →
  collection_type c' = collection_type c → becomes k (Some x) c c'.
Proof.
  intros Hk Hb He Hw Ht. split; [done|]. intros k' Hk'. unfold Collection.get.
  rewrite (becomes_write k (Some bytes) _ entries c c' Hk eq_refl He Hw k' Hk').
  apply deserialize_serialize in Hb as [Hd _]. by case_decide.
Qed.
Lemma insert_becomes gk rev t v c r c' : Collection.insert gk rev t v c = (r, c') →
  match r with
  | Ok x => (∃ v', take_key gk v = Ok (key x, v') ∧ x = with_key rev t (name c) (key x) v') ∧
      (plain (key x) → becomes (key x) (Some x) c c')
  | Err _ => c' = c
  end.
Proof.
  intros H%insert_wrote. destruct r as [x|]; [|done].
  destruct H as (v' & bytes & entries & Htk & Hx & _ & Hb & He & Hw & _ & Ht). split; [by exists v'|]. intros Hk.
  apply (becomes_put (key x) x bytes entries); [done|done| |done|done]. by apply (insert_entries_idx _ _ _ _ He).
Qed.
Lemma update_becomes rev t k v c r c' : plain k → Collection.update rev t k v c = (r, c') →
  match r with
  | Ok x => becomes k (Some x) c c' ∧ ∃ x0, Collection.get c k = Ok x0 ∧ x = Document.update rev t v x0
  | Err _ => c' = c
  end.
Proof.
  intros Hk H%update_wrote. destruct r as [x|]; [|done]. destruct H as (x0 & Hx0 & Hu).
  apply write_update_wrote in Hu as (-> & bytes & entries & Hb & He & Hw & _ & Ht). split.
  - apply (becomes_put k _ bytes entries); [done|done| |done|done]. by apply (update_entries_idx _ _ _ _ _ He).
  - exists x0. split; [by apply get_doc_of|done].
Qed.
Lemma delete_becomes k c r c' : plain k → collection_type c ≠ "blob" → Collection.delete k c = (r, c') →
  match r with
  | Ok _ => becomes k None c c' ∧ is_ok (Collection.get c k) = true
  | Err _ => c' = c
  end.
Proof.
  intros Hk Hb [[-> Hr]|(x & entries & d1 & Hx & He & Hw & Hs & Ht & Hcnt)]%delete_wrote; [by destruct r|].
  destruct r as [[]|]; cbn [is_ok] in Hcnt; [|by destruct Hcnt]. apply get_doc_of in Hx. split; [|by rewrite Hx].
  split; [done|]. intros k' Hk'. unfold Collection.get.
  assert (kv_get (doc_key k') (db c') = kv_get (doc_key k') d1) as ->.
  { apply (proj1 Hs). by apply (prefixes_disjoint DOC_PREFIX); [| |apply starts_with_app]. }
  rewrite (becomes_write k None _ entries c (set_db d1 c) Hk eq_refl); [case_decide; [by subst|done]| |done|done].
  by apply (delete_entries_idx _ _ _ _ He).
Qed.
End Collections.

(** ** Names of shards *)

Lemma ends_in_digit_app s1 s2 : s2 ≠ "" → SyncWorker.ends_in_digit (s1 +:+ s2) = SyncWorker.ends_in_digit s2.
Proof.
  intros H. induction s1 as [|a s1 IH]; [done|]. change (String a s1 +:+ s2) with (String a (s1 +:+ s2)). cbn [SyncWorker.ends_in_digit].
  destruct (s1 +:+ s2) eqn:E; [|exact IH]. destruct s1, s2; done.
Qed.
Lemma all_digits_end s : s ≠ "" → str_all (in_range 48 57) s = true → SyncWorker.ends_in_digit s = true.
Proof.
  induction s as [|a s IH]; [done|]. cbn [str_all SyncWorker.ends_in_digit]. rewrite andb_true_iff. intros _ [Ha Hs].
  destruct s; [done|]. by apply IH.
Qed.
Lemma dec_is_digits i : str_all (in_range 48 57) (dec i) = true.
Proof.
  unfold dec, Radix.pad. generalize (Nat.max 1 (Radix.width 10 i)) as w. intros w. revert i. induction w as [|w IH]; intros i; [done|].
  cbn [Radix.fixed]. rewrite str_all_app, IH. cbn [str_all andb]. rewrite andb_true_r.
  assert (i mod 10 < 10)%N as Hd by by apply N.mod_lt.
  pose proof (Radix.digits16_forall (λ d, negb (d <? 10)%N || in_range 48 57 (Radix.digit d)) eq_refl (i mod 10)) as H.
  cbn beta in H. rewrite (proj2 (N.ltb_lt _ _) Hd) in H. apply H. lia.
Qed.
Lemma physical_digit coll i : SyncWorker.ends_in_digit (physical coll i) = true.
Proof.
  unfold physical. rewrite !ends_in_digit_app; [|by apply dec_nonempty|by destruct (dec i)].
  apply all_digits_end; [apply dec_nonempty|apply dec_is_digits].
Qed.
Lemma physical_named coll i n : SyncWorker.ends_in_digit n = false → physical coll i ≠ n.
Proof. intros H E. pose proof (physical_digit coll i). congruence. Qed.
Lemma physical_base coll i : physical coll i ≠ coll.
Proof. intros E%(f_equal String.length). unfold physical in E. rewrite !str_length_app in E. cbn in E. lia. Qed.
Lemma physical_inj coll i j : (i < u64_modulus)%N → (j < u64_modulus)%N → physical coll i = physical coll j → i = j.
Proof.
  unfold physical. intros Hi Hj H. apply (inj (String.append coll)) in H. apply (inj (String.append "_s")) in H.
  apply (f_equal parse_usize) in H. rewrite !parse_dec in H by done. congruence.
Qed.
Lemma route_lt `{hash : !Sharding.KeyHash} k n : (0 < n)%N → (Sharding.route k n < n)%N.
Proof. intros H. unfold Sharding.route. destruct (N.eqb_spec n 0); [lia|]. by apply N.mod_lt. Qed.

Section Cluster_.
Context {Num : Type} `{!JsonNumber Num} `{!JsonText Num} `{!MetaJson Num} `{!DocumentJson Num}
  `{!DocCodec Num} `{!DocCodecLaws Num}.
Context `{hex_crate : !HexCrate} `{std_text : !StdText} `{hex_laws : !HexLaws}.
Context {DB : Type} `{!KvStore DB} `{!KvLaws DB} `{!Families DB} `{schema : !SchemaCheck Num DB}.
Context `{shard_json : !ShardConfigJson} `{table_json : !ShardTableJson} `{hash : !Sharding.KeyHash} `{members : !HashOrder}.
Context `{trigger_serde : !Serde Num Trigger} `{job_serde : !Serde Num (Job Num)} `{http : !HttpStatus}.
Context {Stats : Type}.
Notation Value := (Value Num).
Notation Collection := (Collection Num DB).
Notation Node := (Node (Num:=Num) (DB:=DB) (Stats:=Stats)).
Notation System := (System (Num:=Num) (DB:=DB) (Stats:=Stats)).
Implicit Types (nd : Node) (sys : System) (c : Collection) (k : string) (x : Document Num) (m : gmap string (Document Num)).

Context (now : N) (db coll : string) (t : ShardTable) (config : CollectionShardConfig) (home : N → string).

(** *** Nodes *)

(** The node has its collection [n] changed from [c] to [c'], and nothing else but jobs and the log. *)
Record node_step (n : string) c c' nd nd' : Prop := {
  ns_manager : cluster_manager nd' = cluster_manager nd;
  ns_tables : shard_tables nd' = shard_tables nd;
  ns_other db' coll' : coll' ≠ JOBS → (db', coll') ≠ (db, n) → coll_at db' coll' (store nd') = coll_at db' coll' (store nd);
  ns_before : coll_at db n (store nd) = Some c;
  ns_after : coll_at db n (store nd') = Some c';
}.
Lemma call_step {A} n c (f : Collection → result DbError A * Collection) nd : coll_at db n (store nd) = Some c →
  ∃ nd', on_store (call db n f) nd = ((f c).1, nd') ∧ node_step n c (f c).2 nd nd'.
Proof.
  intros H. unfold on_store. pose proof (call_lookup db n c f (store nd) db n H) as Ha. rewrite decide_True in Ha by done.
  pose proof (λ db' coll', call_other db n f (store nd) db' coll') as Ho.
  rewrite (call_found _ _ _ f _ H) in *. eexists. split; [done|]. by split; cbn in *; auto.
Qed.
Lemma step_append n c c' nd nd' e : node_step n c c' nd nd' → node_step n c c' nd (append e nd').
Proof. by intros [? ? ? ? ?]. Qed.
Lemma step_fire n c c' nd nd' w coll0 ev doc old : n ≠ JOBS → node_step n c c' nd nd' →
  node_step n c c' nd (fire w db coll0 ev doc old nd').
Proof.
  intros Hn [H1 H2 H3 H4 H5]. unfold fire. destruct (is_system coll0); [done|]. split; cbn; [done..| |done|].
  - intros db' coll' Hj Hne. rewrite fire_other by done. by apply H3.
  - by rewrite fire_other.
Qed.
Lemma physical_jobs i : physical coll i ≠ JOBS.
Proof. by apply physical_named. Qed.

Lemma insert_document_step w i v nd c : coll_at db (physical coll i) (store nd) = Some c →
  ∃ nd', insert_document now w db (physical coll i) v nd =
           (match (Collection.insert (s_key w) (s_rev w) (s_time w) v c).1 with Ok x => Ok (to_value x) | Err e => Err e end, nd') ∧
         node_step (physical coll i) c (Collection.insert (s_key w) (s_rev w) (s_time w) v c).2 nd nd'.
Proof.
  intros H. unfold insert_document.
  destruct (call_step _ _ (Collection.insert (s_key w) (s_rev w) (s_time w) v) _ H) as (nd1 & -> & Hs).
  destruct (Collection.insert _ _ _ v c) as [[x|e] c']; cbn [fst snd] in *; [|by eexists].
  eexists. split; [done|]. apply step_fire; [apply physical_jobs|]. destruct (is_physical_shard_collection _); [done|by apply step_append].
Qed.
Lemma update_document_step w i k v nd c : coll_at db (physical coll i) (store nd) = Some c →
  ∃ nd', update_document now w db (physical coll i) k v nd =
           (match (Collection.update (s_rev w) (s_time w) k v c).1 with Ok x => Ok (to_value x) | Err e => Err e end, nd') ∧
         node_step (physical coll i) c (Collection.update (s_rev w) (s_time w) k v c).2 nd nd'.
Proof.
  intros H. unfold update_document.
  destruct (call_step _ _ (Collection.update (s_rev w) (s_time w) k v) _ H) as (nd1 & -> & Hs).
  destruct (Collection.update _ _ _ v c) as [[x|e] c']; cbn [fst snd] in *; [|by eexists].
  eexists. split; [done|]. apply step_fire; [apply physical_jobs|]. destruct (not_replicated _ _ _); [done|by apply step_append].
Qed.
Lemma delete_document_step w i k nd c : coll_at db (physical coll i) (store nd) = Some c →
  ∃ nd', delete_document now w db (physical coll i) k nd = ((Collection.delete k c).1, nd') ∧
         node_step (physical coll i) c (Collection.delete k c).2 nd nd'.
Proof.
  intros H. unfold delete_document.
  assert (is_protected_collection db (physical coll i) = false) as ->.
  { unfold is_protected_collection. cbn [existsb PROTECTED_COLLECTIONS].
    rewrite (proj2 (String.eqb_neq (physical coll i) "_admins")), (proj2 (String.eqb_neq (physical coll i) "_api_keys"))
      by by apply physical_named. apply andb_false_r. }
  destruct (call_step _ _ (Collection.delete k) _ H) as (nd1 & -> & Hs).
  destruct (Collection.delete k c) as [[x|e] c']; cbn [fst snd] in *; [|by eexists].
  destruct x. eexists. split; [done|].
  destruct (read _ _ _ _); [apply step_fire; [apply physical_jobs|]|]; (destruct (not_replicated _ _ _); [done|by apply step_append]).
Qed.

(** *** The system *)

Notation num_shards := (t_num_shards t).
Notation shard k := (Sharding.route k (t_num_shards t)).

(** Every node has the table and can reach the primary of every shard, which is healthy and at
    [home i] and has the physical collection. *)
Definition reaches (a : string) nd (p : string) (i : N) : Prop :=
  if is_local p (my_node_id nd) then a = home i
  else ∃ mgr, cluster_manager nd = Some mgr ∧ ClusterManager.is_node_healthy now p mgr = true ∧
         ClusterManager.get_node_api_address p mgr = Some (home i).
Definition knows nd : Prop := shard_tables nd !! table_key db coll = Some t ∧ is_stale now db coll t nd = false.
Record healthy sys : Prop := {
  h_fates : fates sys = [];
  h_knows a nd : nodes sys !! a = Some nd → knows nd;
  h_primary i : (i < num_shards)%N → ∃ asg, t_assignments t !! N.to_nat i = Some asg ∧
    ∀ a nd, nodes sys !! a = Some nd → reaches a nd (Sharding.primary_node asg) i;
  h_home i : (i < num_shards)%N → ∃ nd c, nodes sys !! home i = Some nd ∧
    coll_at db (physical coll i) (store nd) = Some c ∧ collection_type c ≠ "blob";
}.
(** The collection as a map: the document of each key is that of its shard at its primary. *)
Definition shows sys m : Prop := ∀ k, plain k → ∃ nd c, nodes sys !! home (shard k) = Some nd ∧
  coll_at db (physical coll (shard k)) (store nd) = Some c ∧ Collection.get c k = found k (m !! k).

Hypothesis some_shards : (0 < num_shards)%N.
Hypothesis ordinary : coll ≠ JOBS.

Lemma shard_lt k : (shard k < num_shards)%N.
Proof. by apply route_lt. Qed.
Lemma shard_u64 k : (shard k < u64_modulus)%N.
Proof.
  unfold Sharding.route. destruct (N.eqb_spec num_shards 0); [lia|].
  eapply N.le_lt_trans; [by apply N.Div0.mod_le|]. unfold wrap64. by apply N.mod_lt.
Qed.
Lemma step_knows i c c' nd nd' : node_step (physical coll i) c c' nd nd' → knows nd → knows nd'.
Proof.
  intros [Hm Ht Ho _ _] [Hk Hs]. split; [congruence|]. rewrite <- Hs. unfold is_stale. rewrite Hm.
  assert (config_of db coll (store nd') = config_of db coll (store nd)) as ->; [|done].
  pose proof (Ho db coll ordinary) as H. unfold config_of.
  assert ((db, coll) ≠ (db, physical coll i)) as Hne by (intros [=E]; by apply (physical_base coll i)).
  specialize (H Hne). destruct (get_collection db coll (store nd)) as [d|] eqn:E.
  - apply get_collection_at in E. rewrite E in H. apply get_collection_at in H. by rewrite H.
  - destruct (get_collection db coll (store nd')) as [d|] eqn:E'; [|done]. apply get_collection_at in E'.
    rewrite E' in H. symmetry in H. apply get_collection_at in H. congruence.
Qed.

(** The document [k] of its shard becomes [o]; or the collection stays as it is. *)
Lemma system_step sys m k o nd nd' c c' b :
  healthy sys → shows sys m → plain k → nodes sys !! home (shard k) = Some nd →
  node_step (physical coll (shard k)) c c' nd nd' → becomes k o c c' →
  let sys' := mkSystem (<[home (shard k) := nd']> (nodes sys)) b (fates sys) in
  healthy sys' ∧ shows sys' (partial_alter (λ _, o) k m).
Proof.
  intros [Hf Hk Hp Hh] Hm Hpk Hnd Hs [Ht Hg]. cbn zeta. split.
  - split; [done|..].
    + intros a nd1. cbn. intros [[<- <-]|[_ H]]%lookup_insert_Some; [|by eapply Hk]. eapply step_knows; [done|by eapply Hk].
    + intros i Hi. destruct (Hp i Hi) as (asg & Ha & Hr). exists asg. split; [done|]. intros a nd1. cbn.
      intros [[<- <-]|[_ H]]%lookup_insert_Some; [|by apply Hr]. pose proof (Hr _ _ Hnd) as H. unfold reaches, my_node_id in *.
      by rewrite (ns_manager _ _ _ _ _ Hs).
    + intros i Hi. destruct (Hh i Hi) as (nd1 & c1 & H1 & H2 & H3). cbn.
      destruct (decide (home i = home (shard k))) as [E|E]; [|by exists nd1, c1; rewrite lookup_insert_ne].
      rewrite E in *. rewrite Hnd in H1. injection H1 as <-. rewrite lookup_insert_eq.
      destruct (decide (physical coll i = physical coll (shard k))) as [E'|E'].
      * exists nd', c'. rewrite E' in *. split_and!; [done|apply Hs|]. rewrite Ht. rewrite (ns_before _ _ _ _ _ Hs) in H2. by injection H2 as ->.
      * exists nd', c1. split_and!; [done| |done]. rewrite (ns_other _ _ _ _ _ Hs); [done|by apply physical_named|naive_solver].
  - intros k' Hk'. destruct (Hm k' Hk') as (nd1 & c1 & H1 & H2 & H3). cbn.
    destruct (decide (home (shard k') = home (shard k))) as [E|E].
    2: { exists nd1, c1. rewrite lookup_insert_ne, lookup_partial_alter_ne by congruence. done. }
    rewrite E in *. rewrite Hnd in H1. injection H1 as <-. rewrite lookup_insert_eq.
    destruct (decide (shard k' = shard k)) as [E'|E'].
    + rewrite E' in *. exists nd', c'. split_and!; [done|apply Hs|]. rewrite Hg by done.
      rewrite (ns_before _ _ _ _ _ Hs) in H2. injection H2 as <-.
      destruct (decide (k' = k)) as [->|Hne]; [by rewrite lookup_partial_alter_eq|by rewrite lookup_partial_alter_ne].
    + exists nd', c1. rewrite lookup_partial_alter_ne by congruence. split_and!; [done| |done].
      rewrite (ns_other _ _ _ _ _ Hs); [done|by apply physical_named|].
      intros [=E'']. apply E', (physical_inj coll); [apply shard_u64..|done].
Qed.
Lemma becomes_same c k m : plain k → Collection.get c k = found k (m !! k) → becomes k (m !! k) c c.
Proof. intros Hk H. split; [done|]. intros k' _. by case_decide; subst. Qed.
Lemma system_idle sys m k nd nd' c b :
  healthy sys → shows sys m → plain k → nodes sys !! home (shard k) = Some nd →
  node_step (physical coll (shard k)) c c nd nd' → 
  let sys' := mkSystem (<[home (shard k) := nd']> (nodes sys)) b (fates sys) in healthy sys' ∧ shows sys' m.
Proof.
  intros Hh Hm Hk Hnd Hs. pose proof (system_step sys m k (m !! k) nd nd' c c b Hh Hm Hk Hnd Hs) as H.
  rewrite partial_alter_id in H by done. apply H.
  apply becomes_same; [done|]. destruct (Hm k Hk) as (nd1 & c1 & H1 & H2 & H3).
  rewrite Hnd in H1. injection H1 as <-. rewrite (ns_before _ _ _ _ _ Hs) in H2. by injection H2 as <-.
Qed.

(** *** Steps of the coordinator *)

Lemma same_node a nd sys : nodes sys !! a = Some nd → set_node a nd sys = sys.
Proof. destruct sys. cbn. intros H. unfold set_node. cbn. by rewrite insert_id. Qed.
Lemma local_step {A} (f : Node → result DbError A * Node) sys nd r nd' : nodes sys !! me sys = Some nd → f nd = (r, nd') →
  local f sys = (r, set_node (me sys) nd' sys).
Proof. intros H E. unfold local. by rewrite H, E. Qed.
Lemma local_same {A} (f : Node → result DbError A * Node) sys nd r : nodes sys !! me sys = Some nd → f nd = (r, nd) →
  local f sys = (r, sys).
Proof. intros H E. rewrite (local_step _ _ _ _ _ H E). by rewrite same_node. Qed.
Lemma ask_ok {A} (f : Node → A) sys nd : nodes sys !! me sys = Some nd → ask f sys = (Ok (f nd), sys).
Proof. intros H. by apply (local_same _ _ nd). Qed.
Lemma change_ok f sys nd : nodes sys !! me sys = Some nd → change f sys = (Ok tt, set_node (me sys) (f nd) sys).
Proof. intros H. by apply (local_step _ _ nd). Qed.
Lemma request_ok {A} addr (h : Node → result DbError A * Node) sys nd r nd' : fates sys = [] → nodes sys !! addr = Some nd →
  h nd = (r, nd') → request addr h sys = (Ok (Some r), set_node addr nd' sys).
Proof. intros Hf H E. unfold request, next_fate. by rewrite Hf, H, E. Qed.
Lemma shard_table_ok sys nd : nodes sys !! me sys = Some nd → knows nd → shard_table now db coll sys = (Ok t, sys).
Proof.
  intros H [Hk Hs]. apply (local_same _ _ nd); [done|]. unfold get_shard_table. by rewrite Hk, Hs.
Qed.
Lemma forward_ok {A} (x : Texts) p i (h : Node → result DbError A * Node) sys nd nd1 r nd1' :
  fates sys = [] → nodes sys !! me sys = Some nd → is_local p (my_node_id nd) = false → reaches (me sys) nd p i →
  nodes sys !! home i = Some nd1 → h nd1 = (r, nd1') →
  forward x p h sys = (match r with Ok v => Ok v | Err e => Err (InternalError (x_failed x +:+ show_status (status e))) end,
                       set_node (home i) nd1' sys).
Proof.
  intros Hf Hn Hl Hr H1 E. unfold reaches in Hr. rewrite Hl in Hr. destruct Hr as (mgr & Hm & _ & Ha).
  unfold forward, mbind, M_bind. rewrite (ask_ok _ _ _ Hn), Hm, Ha, (request_ok _ _ _ _ _ _ Hf H1 E). by destruct r.
Qed.

(** *** Requests to any of the nodes *)

Inductive Req :=
| QInsert (w : Stamp) (v : Value)
| QGet (k : string)
| QUpdate (w : Stamp) (k : string) (v : Value)
| QDelete (w : Stamp) (k : string).
Definition serve (a : string) (r : Req) sys : result DbError (option Value) * System :=
  let s := mkSystem (nodes sys) a (fates sys) in
  match r with
  | QInsert w v => (v ← insert now w db coll config v; mret (Some v)) s
  | QGet k => (v ← get now db coll k; mret (Some v)) s
  | QUpdate w k v => (v ← update now w db coll config k v; mret (Some v)) s
  | QDelete w k => (_ ← delete now w db coll config k; mret None) s
  end.
Definition req_key (r : Req) : string :=
  match r with QInsert w v => (with_document_key (s_uuid w) v).1 | QGet k | QUpdate _ k _ | QDelete _ k => k end.
(** The key is plain; an insert is of an object, with a new key. *)
Definition admissible_req (r : Req) m : Prop :=
  plain (req_key r) ∧ match r with QInsert _ v => is_object v = true ∧ wf_value v ∧ m !! req_key r = None | _ => True end.

Hypothesis by_key : cs_shard_key config = "_key".
Hypothesis same_count : cs_num_shards config = num_shards.

(** Where a request is served: at the caller itself, or at the primary it forwards to. *)
Lemma caller_place sys m a nd k : healthy sys → shows sys m → nodes sys !! a = Some nd → plain k →
  ∃ asg nd1 c, t_assignments t !! N.to_nat (shard k) = Some asg ∧
    reaches a nd (Sharding.primary_node asg) (shard k) ∧
    nodes sys !! home (shard k) = Some nd1 ∧ coll_at db (physical coll (shard k)) (store nd1) = Some c ∧
    collection_type c ≠ "blob" ∧ Collection.get c k = found k (m !! k) ∧ knows nd.
Proof.
  intros Hh Hm Ha Hk. destruct (h_primary _ Hh (shard k) (shard_lt k)) as (asg & H1 & H2).
  destruct (h_home _ Hh (shard k) (shard_lt k)) as (nd1 & c & H3 & H4 & H5).
  destruct (Hm k Hk) as (nd2 & c2 & H6 & H7 & H8). rewrite H3 in H6. injection H6 as <-. rewrite H4 in H7. injection H7 as <-.
  exists asg, nd1, c. split_and!; try done; [by apply H2|by eapply h_knows].
Qed.
Lemma table_bind {A} (f : ShardTable → M A) sys nd : nodes sys !! me sys = Some nd → knows nd →
  (shard_table now db coll ≫= f) sys = f t sys.
Proof. intros H1 H2. unfold mbind, M_bind. by rewrite (shard_table_ok _ _ H1 H2). Qed.
Lemma assigned_bind {A} (f : Sharding.ShardAssignment → M A) i asg sys : t_assignments t !! N.to_nat i = Some asg →
  (assignment t i ≫= f) sys = f asg sys.
Proof. intros H. unfold mbind, M_bind, assignment, lift. by rewrite H. Qed.
Lemma ask_bind {A B} (g : Node → A) (f : A → M B) sys nd : nodes sys !! me sys = Some nd → (ask g ≫= f) sys = f (g nd) sys.
Proof. intros H. unfold mbind, M_bind. by rewrite (ask_ok _ _ _ H). Qed.
Lemma local_true p nd a i : is_local p (my_node_id nd) = true → reaches a nd p i → a = home i.
Proof. unfold reaches. by intros ->. Qed.

(** A write goes to the collection of the shard at its primary: its outcome is that of the
    collection, but for the text of an error, and the node of the primary takes the step. *)
Definition wrote {A} sys k c c' (r : result DbError A) (res : result DbError A * System) : Prop :=
  ∃ nd1 nd1' b, nodes sys !! home (shard k) = Some nd1 ∧ node_step (physical coll (shard k)) c c' nd1 nd1' ∧
    res.2 = mkSystem (<[home (shard k) := nd1']> (nodes sys)) b (fates sys) ∧
    match r with Ok v => res.1 = Ok v | Err _ => is_ok res.1 = false end.
Lemma wrote_local {A B} (f : Collection → result DbError A * Collection) (g : A → M B) (h : A → B) (fix_log : Node → Node)
    sys nd k c :
  nodes sys !! home (shard k) = Some nd → me sys = home (shard k) → coll_at db (physical coll (shard k)) (store nd) = Some c →
  (∀ nd', node_step (physical coll (shard k)) c (f c).2 nd nd' → node_step (physical coll (shard k)) c (f c).2 nd (fix_log nd')) →
  (∀ v s nd', nodes s !! me s = Some nd' → g v s = (Ok (h v), set_node (me s) (fix_log nd') s)) →
  wrote sys k c (f c).2 (match (f c).1 with Ok v => Ok (h v) | Err e => Err e end)
    ((local (on_store (call db (physical coll (shard k)) f)) ≫= g) sys).
Proof.
  intros H1 E H2 Hfix Hg. destruct (call_step _ _ f _ H2) as (nd' & Hc & Hs).
  assert (nodes sys !! me sys = Some nd) as Hme by by rewrite E.
  unfold mbind, M_bind. rewrite (local_step _ _ _ _ _ Hme Hc). destruct (f c) as [[v|e] c']; cbn [fst snd] in *.
  - rewrite (Hg v _ nd') by (cbn; by rewrite lookup_insert_eq). exists nd, (fix_log nd'), (me sys).
    split_and!; [done|by apply Hfix| |done]. cbn. unfold set_node. cbn. by rewrite insert_insert_eq, E.
  - exists nd, nd', (me sys). split_and!; [done|done| |done]. unfold set_node. cbn. by rewrite E.
Qed.
Lemma wrote_forward {A} (x : Texts) p sys nd nd1 nd1' k c c' (r : result DbError A) h :
  fates sys = [] → nodes sys !! me sys = Some nd → is_local p (my_node_id nd) = false → reaches (me sys) nd p (shard k) →
  nodes sys !! home (shard k) = Some nd1 → h nd1 = (r, nd1') → node_step (physical coll (shard k)) c c' nd1 nd1' →
  wrote sys k c c' r (forward x p h sys).
Proof.
  intros Hf Hn Hl Hr H1 E Hs. rewrite (forward_ok x p (shard k) h sys nd nd1 r nd1') by done.
  exists nd1, nd1', (me sys). split_and!; [done..|by destruct r].
Qed.

Lemma insert_writes sys m nd w v k v' : healthy sys → shows sys m → nodes sys !! me sys = Some nd → plain k →
  with_document_key (s_uuid w) v = (k, v') →
  ∃ c, Collection.get c k = found k (m !! k) ∧ collection_type c ≠ "blob" ∧
  wrote sys k c (Collection.insert (s_key w) (s_rev w) (s_time w) v' c).2
    (match (Collection.insert (s_key w) (s_rev w) (s_time w) v' c).1 with Ok x => Ok (to_value x) | Err e => Err e end)
    (insert now w db coll config v sys).
Proof.
  intros Hh Hm Ha Hk Hv. destruct (caller_place _ _ _ _ k Hh Hm Ha Hk) as (asg & nd1 & c & Has & Hr & H1 & H2 & Hb & Hg & Hkn).
  exists c. split_and!; [done..|]. unfold insert. rewrite Hv. unfold shard_key_value. rewrite by_key, same_count.
  change (String.eqb "_key" "_key") with true. cbn iota.
  rewrite (table_bind _ _ _ Ha Hkn), (assigned_bind _ _ _ _ Has), (ask_bind _ _ _ _ Ha).
  destruct (is_local (Sharding.primary_node asg) (my_node_id nd)) eqn:Hl.
  - pose proof (local_true _ _ _ _ Hl Hr) as E. rewrite E in Ha. rewrite H1 in Ha. injection Ha as ->.
    by apply (wrote_local (Collection.insert (s_key w) (s_rev w) (s_time w) v') _ to_value Datatypes.id _ nd);
      [| | | |intros x s nd' Hn; rewrite same_node].
  - pose proof Hr as Hr'. unfold reaches in Hr'. rewrite Hl in Hr'. destruct Hr' as (mgr & Hmg & Hhe & Had).
    assert (target_node now db coll (shard k) (Sharding.primary_node asg) sys = (Ok (Sharding.primary_node asg), sys)) as Ht.
    { unfold target_node. rewrite (ask_bind _ _ _ _ Ha), Hmg, Hhe. done. }
    unfold mbind at 1, M_bind at 1. rewrite Ht. apply orb_false_iff in Hl as Hl'. destruct Hl' as [-> _].
    destruct (insert_document_step w (shard k) v' nd1 c H2) as (nd1' & Hi & Hs).
    by apply (wrote_forward _ _ sys nd nd1 nd1'); [apply h_fates| | | | | |].
Qed.
Lemma update_writes sys m nd w k v : healthy sys → shows sys m → nodes sys !! me sys = Some nd → plain k →
  ∃ c, Collection.get c k = found k (m !! k) ∧ collection_type c ≠ "blob" ∧ ∃ u,
  wrote sys k c (Collection.update (s_rev w) (s_time w) k v c).2
    (match (Collection.update (s_rev w) (s_time w) k v c).1 with Ok x => Ok (u x) | Err e => Err e end)
    (update now w db coll config k v sys).
Proof.
  intros Hh Hm Ha Hk. destruct (caller_place _ _ _ _ k Hh Hm Ha Hk) as (asg & nd1 & c & Has & Hr & H1 & H2 & Hb & Hg & Hkn).
  exists c. split_and!; [done..|]. unfold update. rewrite same_count.
  rewrite (table_bind _ _ _ Ha Hkn), (assigned_bind _ _ _ _ Has), (ask_bind _ _ _ _ Ha).
  destruct (is_local (Sharding.primary_node asg) (my_node_id nd)) eqn:Hl.
  - pose proof (local_true _ _ _ _ Hl Hr) as E. rewrite E in Ha. rewrite H1 in Ha. injection Ha as ->. exists (λ _, v).
    apply (wrote_local (Collection.update (s_rev w) (s_time w) k v) _ (λ _, v) (append (entry now db (physical coll (shard k)) k SyncLog.Update (value_to_vec v))) _ nd);
      [done..|by intros; apply step_append|].
    intros x s nd' Hn. unfold mbind, M_bind. by rewrite (change_ok _ _ _ Hn).
  - exists to_value. destruct (update_document_step w (shard k) k v nd1 c H2) as (nd1' & Hi & Hs).
    by apply (wrote_forward _ _ sys nd nd1 nd1'); [apply h_fates| | | | | |].
Qed.
Lemma delete_writes sys m nd w k : healthy sys → shows sys m → nodes sys !! me sys = Some nd → plain k →
  ∃ c, Collection.get c k = found k (m !! k) ∧ collection_type c ≠ "blob" ∧
  wrote sys k c (Collection.delete k c).2 (Collection.delete k c).1 (delete now w db coll config k sys).
Proof.
  intros Hh Hm Ha Hk. destruct (caller_place _ _ _ _ k Hh Hm Ha Hk) as (asg & nd1 & c & Has & Hr & H1 & H2 & Hb & Hg & Hkn).
  exists c. split_and!; [done..|]. unfold delete. rewrite same_count.
  rewrite (table_bind _ _ _ Ha Hkn), (assigned_bind _ _ _ _ Has), (ask_bind _ _ _ _ Ha).
  destruct (is_local (Sharding.primary_node asg) (my_node_id nd)) eqn:Hl.
  - pose proof (local_true _ _ _ _ Hl Hr) as E. rewrite E in Ha. rewrite H1 in Ha. injection Ha as ->.
    pose proof (wrote_local (Collection.delete k) (λ _, change (append (entry now db (physical coll (shard k)) k SyncLog.Delete None)))
      (λ _, tt) (append (entry now db (physical coll (shard k)) k SyncLog.Delete None)) sys nd k c H1 E H2) as H.
    destruct (Collection.delete k c) as [[[]|]] eqn:Ed; apply H; try (by intros; apply step_append);
      intros x s nd' Hn; by apply change_ok.
  - destruct (delete_document_step w (shard k) k nd1 c H2) as (nd1' & Hi & Hs).
    by apply (wrote_forward _ _ sys nd nd1 nd1'); [apply h_fates| | | | | |].
Qed.
(** A read changes nothing. *)
Lemma get_reads sys m nd k : healthy sys → shows sys m → nodes sys !! me sys = Some nd → plain k →
  get now db coll k sys = (match m !! k with Some x => Ok (to_value x) | None => Err (DocumentNotFound k) end, sys).
Proof.
  intros Hh Hm Ha Hk. destruct (caller_place _ _ _ _ k Hh Hm Ha Hk) as (asg & nd1 & c & Has & Hr & H1 & H2 & Hb & Hg & Hkn).
  unfold get. rewrite (table_bind _ _ _ Ha Hkn), (assigned_bind _ _ _ _ Has), (ask_bind _ _ _ _ Ha).
  assert (∀ nd', coll_at db (physical coll (shard k)) (store nd') = Some c →
    read db (physical coll (shard k)) (λ c, Collection.get c k) (store nd') = found k (m !! k)) as Hread.
  { intros nd' Hc%get_collection_at. unfold read. rewrite Hc. cbn [result_bind]. done. }
  destruct (is_local (Sharding.primary_node asg) (my_node_id nd)) eqn:Hl.
  - pose proof (local_true _ _ _ _ Hl Hr) as E. rewrite E in Ha. rewrite H1 in Ha. injection Ha as ->.
    unfold mbind, M_bind. rewrite (local_same _ _ nd (found k (m !! k))); [by destruct (m !! k)|by rewrite E|by rewrite Hread].
  - pose proof Hr as Hr'. unfold reaches in Hr'. rewrite Hl in Hr'. destruct Hr' as (mgr & Hmg & Hhe & Had).
    rewrite (ask_bind _ _ _ _ Ha). unfold nodes_to_try. rewrite Hmg, Hhe. cbn [read_from].
    rewrite (ask_bind _ _ _ _ Ha). unfold get_node_api_address. rewrite Hmg. cbn [mbind option_bind]. rewrite Had.
    unfold mbind, M_bind.
    rewrite (request_ok _ _ _ nd1 (get_document db (physical coll (shard k)) k nd1) nd1) by (done || apply Hh).
    rewrite same_node by done. unfold get_document. rewrite (Hread _ H2). by destruct (m !! k).
Qed.

Lemma keyed_take gk u (v : Value) k v' : is_object v = true → wf_value v → with_document_key u v = (k, v') →
  ∃ d, take_key gk v' = Ok (k, d).
Proof.
  intros Ho Hw. unfold with_document_key. destruct v as [| | | | |fs]; try done. cbn [value_get].
  assert (∃ d, take_key gk (Object (OMap.insert "_key" (JString u) fs)) = Ok (u, d)) as Hnew.
  { eexists. unfold take_key. apply wf_Object in Hw as [Hw _]. by rewrite OMap.get_insert, decide_True. }
  destruct (OMap.get "_key" fs) as [kv|] eqn:E; [|by intros [= <- <-]].
  destruct kv as [| | |s| |]; cbn; intros [= <- <-]; try done. eexists. unfold take_key. by rewrite E.
Qed.
Lemma healthy_me sys a : healthy sys → healthy (mkSystem (nodes sys) a (fates sys)).
Proof. intros [? ? ? ?]. by split. Qed.
(** The state after a write. *)
Lemma wrote_ok {A} sys m k c c' (v : A) (res : result DbError A * System) o : healthy sys → shows sys m → plain k →
  wrote sys k c c' (Ok v) res → becomes k o c c' →
  res.1 = Ok v ∧ healthy res.2 ∧ shows res.2 (partial_alter (λ _, o) k m).
Proof.
  intros Hh Hm Hk (nd1 & nd1' & b & H1 & Hs & -> & Hr) Hb. split; [done|]. by apply (system_step sys m k o nd1 nd1' c c').
Qed.
Lemma wrote_err {A} sys m k c e (res : result DbError A * System) : healthy sys → shows sys m → plain k →
  wrote sys k c c (Err e) res → is_ok res.1 = false ∧ healthy res.2 ∧ shows res.2 m.
Proof.
  intros Hh Hm Hk (nd1 & nd1' & b & H1 & Hs & -> & Hr). split; [done|]. by apply (system_idle sys m k nd1 nd1' c).
Qed.

End Cluster_.
End CoordinatorProps.
