(* ===== verification/Migration.v ===== *)
(** * Moving documents between shards (src/sharding/migration.rs)

    When the number of shards of a collection changes, each node sends the documents of its
    physical collections that now belong to another shard to their new place, and then deletes
    them. [send] is the trait [BatchSender]: the keys of the documents that were stored, or an
    error. A send that fails is repeated without end: [fuel] bounds the attempts per batch, and
    [None] is a migration that is still trying. Delays and logging are left out. *)

From S2P Require Import Prelude Text Json Transaction Codec Kv Hlc F64 Document DocStore Indexes Collection CollectionBatch Databases Sharding SyncLog SyncState SyncTransport Cluster SyncWorker ClusterManager NodeStore Triggers Coordinator.
Import Json Codec Document Serializer Indexes Collection CollectionBatch Databases NodeStore Jobs Triggers.

Module Migration.
Import Coordinator.
Local Open Scope solidb_scope.

(** ** The journal *)

Inductive MigrationStatus := Migrated | MigrationFailed | MigrationPending.
Record MigrationJournalEntry := mkJournalEntry {
  j_db_name : string;
  j_collection_name : string;
  j_document_key : string;
  j_source_shard : N;
  j_target_shard : N;
  j_migration_time : N;
  j_status : MigrationStatus;
}.
(** [MigrationJournalEntry::new]: whatever became of the document, the entry is pending. *)
Definition new_entry (secs : N) (db coll key : string) (source target : N) : MigrationJournalEntry :=
  mkJournalEntry db coll key source target secs MigrationPending.
Inductive MigrationPhase := NotStarted | Scanning | Migrating | Verifying | MigrationCompleted | PhaseFailed.
Inductive ShardMigrationStatus := ShardNotStarted | ShardScanning | ShardMigrating | ShardCompleted | ShardFailed (e : string).
Record ShardMigrationProgress := mkProgress {
  p_shard_id : N;
  documents_scanned : N;
  documents_migrated : N;
  last_processed_key : option string;
  p_status : ShardMigrationStatus;
}.
Record MigrationState := mkMigrationState {
  phase : MigrationPhase;
  shard_progress : gmap N ShardMigrationProgress;
  total_processed : N;
  total_migrated : N;
  errors : list string;
}.
Record MigrationCoordinator := mkMigration { migration_state : MigrationState; journal : gmap string MigrationJournalEntry }.
Definition new : MigrationCoordinator := mkMigration (mkMigrationState NotStarted ∅ 0 0 []) ∅.
Definition set_state (st : MigrationState) (mc : MigrationCoordinator) : MigrationCoordinator := mkMigration st (journal mc).
Definition set_phase (p : MigrationPhase) (mc : MigrationCoordinator) : MigrationCoordinator :=
  let st := migration_state mc in
  set_state (mkMigrationState p (shard_progress st) (total_processed st) (total_migrated st) (errors st)) mc.
Definition journal_key (db coll key : string) : string := db +:+ (":" +:+ (coll +:+ (":" +:+ key))).
Definition record_migration (e : MigrationJournalEntry) (mc : MigrationCoordinator) : MigrationCoordinator :=
  mkMigration (migration_state mc) (<[journal_key (j_db_name e) (j_collection_name e) (j_document_key e) := e]> (journal mc)).
Definition is_migrated (s : MigrationStatus) : bool := match s with Migrated => true | _ => false end.
Definition is_document_migrated (db coll key : string) (mc : MigrationCoordinator) : bool :=
  match journal mc !! journal_key db coll key with Some e => is_migrated (j_status e) | None => false end.
Definition can_resume (mc : MigrationCoordinator) : bool :=
  match phase (migration_state mc) with Scanning | Migrating | Verifying => true | _ => false end.
Record MigrationStats := mkMigrationStats {
  ms_phase : MigrationPhase; ms_processed : N; ms_migrated : N;
  journal_migrated : nat; journal_failed : nat; journal_pending : nat; ms_errors : list string }.
Definition count_status (f : MigrationStatus → bool) (mc : MigrationCoordinator) : nat :=
  length (List.filter (λ p, f (j_status p.2)) (map_to_list (journal mc))).
Definition get_migration_stats (mc : MigrationCoordinator) : MigrationStats :=
  let st := migration_state mc in
  mkMigrationStats (phase st) (total_processed st) (total_migrated st) (count_status is_migrated mc)
    (count_status (λ s, match s with MigrationFailed => true | _ => false end) mc)
    (count_status (λ s, match s with MigrationPending => true | _ => false end) mc) (errors st).
Definition cleanup (mc : MigrationCoordinator) : MigrationCoordinator :=
  match phase (migration_state mc) with
  | MigrationCompleted =>
      let st := migration_state mc in
      mkMigration (mkMigrationState (phase st) ∅ (total_processed st) (total_migrated st) (errors st)) ∅
  | _ => mc
  end.

(** ** Batches *)

Definition BATCH_SIZE : nat := 10000.
Definition MAX_DOCS_PER_SHARD : nat := 20000.
(** [slice::chunks] *)
Definition chunks {A} (n : nat) (l : list A) : list (list A) :=
  (λ i, take n (drop (i * n) l)) <$> seq 0 ((length l + (n - 1)) / n).
(** [failed_count as f64 / len as f64 > 0.1] *)
Definition one_tenth : N := 4591870180066957722.
Definition too_many_failures (failed len : nat) : bool :=
  F64.ltb one_tenth (F64.div (F64.of_int (Z.of_nat failed)) (F64.of_int (Z.of_nat len))).

Section Reshard.
Context {Num : Type} `{!JsonNumber Num} `{!JsonText Num} `{!MetaJson Num} `{!DocumentJson Num}
  `{!DocCodec Num}.
Context `{hex_crate : !HexCrate} `{std_text : !StdText}.
Context {DB : Type} `{!KvStore DB} `{!Families DB} `{schema : !SchemaCheck Num DB}.
Context `{shard_json : !ShardConfigJson} `{table_json : !ShardTableJson} `{hash : !Sharding.KeyHash} `{members : !HashOrder} `{shards : !ShardOrder}.
Context {Stats : Type}.
Notation Value := (Value Num).
Notation Collection := (Collection Num DB).
Notation System := (System (Num:=Num) (DB:=DB) (Stats:=Stats)).
Notation Manager := (ClusterManager.Manager (Num:=Num) (DB:=DB) (Stats:=Stats)).
Notation M := (Coordinator.M (Num:=Num) (DB:=DB) (Stats:=Stats)).
Notation assignments := (gmap nat Sharding.ShardAssignment).

Variable send : CollectionShardConfig → list (string * Value) → M (list string).
Variable secs : N.
Variables (db coll : string) (old_shards new_shards : N) (my_node_id : string).
Variables (old_assignments current_assignments : assignments).

(** ** Verification *)

Definition primary_of (a : assignments) (i : N) : option string := Sharding.primary_node <$> a !! N.to_nat i.
Definition key_primary (config : CollectionShardConfig) (k : string) : option string :=
  primary_of current_assignments (Sharding.route k (cs_num_shards config)).
(** A key of an own shard: found in the collection; a collection that is missing is trusted, a
    missing database is not. *)
Definition verified_locally (config : CollectionShardConfig) (k : string) (s : gmap string (gmap string Collection)) : bool :=
  match s !! db with
  | None => false
  | Some d =>
      match d !! physical coll (Sharding.route k (cs_num_shards config)) with
      | None => true
      | Some c => is_ok (Collection.get c k)
      end
  end.
(** The keys of one shard of a node are asked for together. *)
Fixpoint verify_remote (mgr : Manager) (config : CollectionShardConfig) (groups : list (string * N)) (keys : list string) :
    M (list string) :=
  match groups with
  | [] => mret []
  | (node_id, shard) :: groups' =>
      here ← match ClusterManager.get_node_api_address node_id mgr with
             | None => mret []
             | Some addr =>
                 let mine := List.filter (λ k, (Sharding.route k (cs_num_shards config) =? shard)%N) keys in
                 r ← request addr (λ n, (verify_documents_exist db (physical coll shard) mine n, n));
                 mret (match r with Some (Ok found) => found | _ => [] end)
             end;
      rest ← verify_remote mgr config groups' keys;
      mret (here ++ rest)
  end.
Definition add_missing (verified : list string) (k : string) : list string :=
  if bool_decide (k ∈ verified) then verified else verified ++ [k].
Definition verify_migrated_documents (mgr : option Manager) (config : CollectionShardConfig) (keys : list string) : M (list string) :=
  let unassigned := List.filter (λ k, negb (bool_decide (is_Some (key_primary config k)))) keys in
  let mine := List.filter (λ k, bool_decide (key_primary config k = Some my_node_id)) keys in
  let others := List.filter (λ k, bool_decide (is_Some (key_primary config k) ∧ key_primary config k ≠ Some my_node_id)) keys in
  found ← ask (λ n, List.filter (λ k, verified_locally config k (store n)) mine);
  let verified := unassigned ++ found in
  match mgr with
  | Some mgr =>
      remote ← verify_remote mgr config
        (remove_dups (omap (λ k, (λ p, (p, Sharding.route k (cs_num_shards config))) <$> key_primary config k) others)) others;
      mret (verified ++ remote)
  | None => mret (foldl add_missing verified keys)
  end.

(** ** One shard *)

Record Moving := mkMoving { moved_count : N; failed_count : nat; consecutive_failures : nat }.
Inductive Flow := Continue (m : Moving) | Break (m : Moving).

(** The journal, when there is one. *)
Notation J := (option MigrationCoordinator).
Definition record_all (shard : N) (keys : list string) (j : J) : J :=
  (λ mc, foldl (λ mc k, record_migration (new_entry secs db coll k shard (Sharding.route k new_shards)) mc) mc keys) <$> j.

(** The documents to be moved, with the keys seen so far. *)
Fixpoint docs_to_move (shard : N) (docs : list (Document Num)) (j : J) (processed : gset string) :
    list (string * Value) * gset string :=
  match docs with
  | [] => ([], processed)
  | doc :: docs' =>
      let k := key doc in
      if bool_decide (k ∈ processed) then docs_to_move shard docs' j processed
      else if match j with Some mc => is_document_migrated db coll k mc | None => false end
      then docs_to_move shard docs' j ({[k]} ∪ processed)
      else
        let '(l, processed') := docs_to_move shard docs' j ({[k]} ∪ processed) in
        (if (Sharding.route k new_shards =? shard)%N then l else (k, to_value doc) :: l, processed')
  end.

(** [loop { match sender.send_batch(..) { Ok(keys) => break keys, Err(e) => continue } }] *)
Fixpoint send_until_ok (fuel : nat) (config : CollectionShardConfig) (batch : list (string * Value)) (s : System) :
    option (list string * System) :=
  match fuel with
  | O => None
  | S fuel' =>
      match send config batch s with
      | (Ok keys, s') => Some (keys, s')
      | (Err _, s') => send_until_ok fuel' config batch s'
      end
  end.

(** What may be deleted, or nothing at all. *)
Definition keys_to_delete (successful verified : list string) : option (list string) :=
  if (length verified =? length successful)%nat then Some verified
  else match verified with
       | [] =>
           if existsb (λ k, match primary_of current_assignments (Sharding.route k new_shards) with
                            | Some p => negb (String.eqb p my_node_id)
                            | None => false
                            end) successful
           then Some successful else None
       | _ => Some verified
       end.
Definition after_batch (shard : N) (batch : list (string * Value)) (successful to_delete : list string) (m : Moving)
    (r : result DbError N) (j : J) : Moving * J :=
  match r with
  | Ok deleted =>
      let m1 := mkMoving (moved_count m + deleted) (failed_count m) (consecutive_failures m) in
      if (length to_delete <? length batch)%nat
      then (mkMoving (moved_count m1) (failed_count m1 + (length batch - length to_delete)) (consecutive_failures m1),
            record_all shard (List.filter (λ k, negb (bool_decide (k ∈ successful))) batch.*1) j)
      else (m1, j)
  | Err _ =>
      (mkMoving (moved_count m) (failed_count m + length to_delete) (consecutive_failures m), record_all shard to_delete j)
  end.
Definition migrate_batch (fuel : nat) (config : CollectionShardConfig) (shard : N) (batch : list (string * Value))
    (m : Moving) (j : J) (s : System) : option (Flow * J * System) :=
  match send_until_ok fuel config batch s with
  | None => None
  | Some ([], s1) =>
      let m1 := mkMoving (moved_count m) (failed_count m + length batch) (S (consecutive_failures m)) in
      if (5 <=? consecutive_failures m1)%nat then Some (Break m1, j, s1)
      else Some (Continue m1, record_all shard batch.*1 j, s1)
  | Some (successful, s1) =>
      let j1 := record_all shard successful j in
      match verify_migrated_documents None config successful s1 with
      | (Err _, s2) => Some (Continue m, j1, s2)                       (* does not happen *)
      | (Ok verified, s2) =>
          match keys_to_delete successful verified with
          | None => Some (Continue (mkMoving (moved_count m) (failed_count m + length successful) 1), j1, s2)
          | Some to_delete =>
              let '(r, s3) := local (on_store (call db (physical coll shard) (delete_batch to_delete))) s2 in
              let '(m1, j2) := after_batch shard batch successful to_delete (mkMoving (moved_count m) (failed_count m) 0) r j1 in
              Some (Continue m1, j2, s3)
          end
      end
  end.
Fixpoint migrate_batches (fuel : nat) (config : CollectionShardConfig) (shard : N) (batches : list (list (string * Value)))
    (m : Moving) (j : J) (s : System) : option (Moving * J * System) :=
  match batches with
  | [] => Some (m, j, s)
  | b :: batches' =>
      match migrate_batch fuel config shard b m j s with
      | None => None
      | Some (Break m1, j1, s1) => Some (m1, j1, s1)
      | Some (Continue m1, j1, s1) => migrate_batches fuel config shard batches' m1 j1 s1
      end
  end.

(** A kept shard is migrated by its old primary, a removed one by every node that has it. *)
Definition should_migrate (shard : N) : bool :=
  if (shard <? new_shards)%N
  then match primary_of old_assignments shard with Some p => String.eqb p my_node_id | None => false end
  else true.
Definition migrate_shard (fuel : nat) (config : CollectionShardConfig) (shard : N) (j : J) (processed : gset string) (s : System) :
    option (result string unit * J * gset string * System) :=
  match ask (λ n, get_collection db (physical coll shard) (store n)) s with
  | (Ok (Ok c), _) =>
      if should_migrate shard then
        let '(moves, processed') := docs_to_move shard (all c) j processed in
        match moves with
        | [] => Some (Ok tt, j, processed', s)
        | _ =>
            let limited := take MAX_DOCS_PER_SHARD moves in
            match migrate_batches fuel config shard (chunks BATCH_SIZE limited) (mkMoving 0 0 0) j s with
            | None => None
            | Some (m, j', s') =>
                if too_many_failures (failed_count m) (length limited)
                then Some (Err ("RESHARD: Too many migration failures for shard " +:+ (physical coll shard +:+ (": " +:+
                             (dec (N.of_nat (failed_count m)) +:+ ("/" +:+ (dec (N.of_nat (length limited)) +:+ " failed")))))), j', processed', s')
                else Some (Ok tt, j', processed', s')
            end
        end
      else Some (Ok tt, j, processed, s)
  | _ => Some (Ok tt, j, processed, s)
  end.
Fixpoint migrate_shards (fuel : nat) (config : CollectionShardConfig) (l : list N) (j : J) (processed : gset string) (s : System) :
    option (result string unit * J * System) :=
  match l with
  | [] => Some (Ok tt, j, s)
  | shard :: l' =>
      match migrate_shard fuel config shard j processed s with
      | None => None
      | Some (Err e, j', _, s') => Some (Err e, j', s')
      | Some (Ok _, j', processed', s') => migrate_shards fuel config l' j' processed' s'
      end
  end.
Definition range (n : N) : list N := N.of_nat <$> seq 0 (N.to_nat n).
Definition reshard_collection_with_journal (fuel : nat) (j : J) (s : System) : option (result string unit * J * System) :=
  match ask (λ n, config_of db coll (store n)) s, ask (λ n, get_collection db coll (store n)) s with
  | (Ok (Some config), _), _ => migrate_shards fuel config (range (N.max old_shards new_shards)) j ∅ s
  | _, (Ok (Err e), _) => Some (Err "database or collection", j, s)
  | _, _ => Some (Err "Missing shard config", j, s)
  end.
Definition reshard_collection (fuel : nat) (s : System) : option (result string unit * System) :=
  match reshard_collection_with_journal fuel None s with
  | Some (r, _, s') => Some (r, s')
  | None => None
  end.

(** ** With a journal *)

Definition tracked (i : N) : bool :=
  let a := if (i <? new_shards)%N then current_assignments else old_assignments in
  match primary_of a i with Some p => String.eqb p my_node_id | None => false end.
Definition init_progress (mc : MigrationCoordinator) : MigrationCoordinator :=
  let st := migration_state mc in
  set_state (mkMigrationState Scanning
    (foldl (λ m i, if tracked i then <[i := mkProgress i 0 0 None ShardNotStarted]> m else m) (shard_progress st)
       (range (N.max old_shards new_shards)))
    (total_processed st) (total_migrated st) (errors st)) mc.
Definition scanned (d : gmap string Collection) (p : ShardMigrationProgress) : option N :=
  match p_status p with ShardNotStarted => count <$> d !! physical coll (p_shard_id p) | _ => None end.
Definition perform_scanning_phase (mc : MigrationCoordinator) (s : System) : result string MigrationCoordinator :=
  match ask (λ n, get_database db (store n)) s with
  | (Ok (Ok d), _) =>
      let st := migration_state mc in
      let counts := omap (λ p, scanned d p) (shard_progress st) in
      Ok (set_state (mkMigrationState (phase st)
            (merge (λ p c, match p, c with
                           | Some p, Some c => Some (mkProgress (p_shard_id p) c (documents_migrated p) (last_processed_key p) ShardScanning)
                           | p, _ => p
                           end) (shard_progress st) counts)
            (total_processed st + foldr N.add 0 (map_to_list counts).*2)%N (total_migrated st) (errors st)) mc)
  | _ => Err "database"
  end.
Definition perform_verification_phase (mc : MigrationCoordinator) : MigrationCoordinator :=
  set_phase MigrationCompleted (set_phase Verifying mc).
(** The three phases; an error leaves the phase it happened in. *)
Definition reshard_collection_robust (fuel : nat) (mc : MigrationCoordinator) (s : System) :
    option (result string unit * MigrationCoordinator * System) :=
  let mc1 := init_progress mc in
  match perform_scanning_phase mc1 s with
  | Err e => Some (Err e, mc1, s)
  | Ok mc2 =>
      match reshard_collection_with_journal fuel (Some (set_phase Migrating mc2)) s with
      | None => None
      | Some (Err e, j, s') => Some (Err e, default mc2 j, s')
      | Some (Ok _, j, s') =>
          Some (Ok tt, set_phase MigrationCompleted (perform_verification_phase (default mc2 j)), s')
      end
  end.
End Reshard.
End Migration.
