(* ===== verification/MigrationProps.v ===== *)
(** * A migration loses no document

    What a batch of upserts and deletions of a migration does to the documents of a cluster, and
    that no document of a node that moves its shards is lost, whatever requests or responses the
    network loses and however the migration ends. *)

From S2P Require Import Prelude Text Json Transaction Codec Kv Hlc Document DocStore Indexes Collection CollectionProps CollectionBatch CollectionBatchProps IndexLife Databases Sharding SyncLog SyncState SyncTransport Cluster SyncWorker SyncWorkerProps ClusterManager NodeStore Triggers Coordinator CoordinatorProps Migration.
Import Json Codec Document Serializer Indexes Collection CollectionProps CollectionBatch CollectionBatchProps.BatchProps Databases NodeStore Jobs Triggers.

Module MigrationProps.
Import Coordinator CoordinatorProps Migration BatchDocs.

(** ** Documents *)

Section Docs.
Context {Num : Type} `{!JsonNumber Num} `{!JsonText Num} `{!MetaJson Num} `{!DocumentJson Num} `{!DocumentJsonLaws Num}
  `{!DocCodec Num} `{!DocCodecLaws Num}.
Context `{hex_crate : !HexCrate} `{std_text : !StdText} `{hex_laws : !HexLaws}.
Context {DB : Type} `{!KvStore DB} `{!KvLaws DB} `{!KvReliable DB}.
Notation Value := (Value Num).
Notation Document := (Document Num).
Notation Collection := (Collection Num DB).
Implicit Types (c : Collection) (k : string) (x : Document).

(** A document as collections store it: under its key, an object without metadata. *)
Definition tidy k x : Prop :=
  plain k ∧ k ≠ "" ∧ key x = k ∧
  ∃ m, data x = Object m ∧ OMap.wf m ∧ ∀ f, f ∈ system_fields → OMap.get f m = None.
(** [x] has the fields of the value, metadata aside. *)
Definition has_fields (v : Value) x : Prop :=
  ∀ f w, starts_with_underscore f = false → value_get f v = Some w → value_get f (data x) = Some w.
(** What is sent of a stored document. *)
Definition sendable (p : string * Value) : Prop :=
  plain p.1 ∧ p.1 ≠ "" ∧ ∃ fs, p.2 = Object fs ∧ OMap.wf fs ∧ OMap.get "_key" fs = Some (JString p.1).

Lemma tidy_sendable k x : tidy k x → sendable (k, to_value x).
Proof.
  intros (Hp & Hk & Hx & m & Hd & Hm & Hs). split_and!; [done..|]. destruct (to_value_object x m Hd Hm) as (fs & Hv & Hf).
  exists fs. split_and!; [done..|]. pose proof (to_value_get x m "_key" Hd Hm Hs) as H. rewrite Hv in H. cbn in *. congruence.
Qed.
Lemma fields_of_document k x y : tidy k x → has_fields (to_value x) y → has_fields (data x) y.
Proof.
  intros (_ & _ & _ & m & Hd & Hm & Hs) H f w Hf Hw. apply H; [done|]. rewrite Hd in Hw. cbn in Hw.
  rewrite (to_value_get x m f Hd Hm Hs).
  repeat (match goal with |- context [String.eqb f ?s] => destruct (String.eqb_spec f s) as [->|_]; [done|] end). done.
Qed.
Lemma upserted_tidy rev now k (fs : list (string * Value)) c : plain k → k ≠ "" → OMap.wf fs →
  (∀ x, doc_of (db c) k = Some x → tidy k x) →
  tidy k (upserted rev now k (Object fs) c).1 ∧ has_fields (Object fs) (upserted rev now k (Object fs) c).1.
Proof.
  intros Hp Hk Hw Hx. destruct (upserted_fields rev now k fs c Hw) as (m & Hd & Hm & Hg).
  { intros x H. destruct (Hx x H) as (_ & _ & _ & m & ? & ? & _). eauto. }
  split.
  - split_and!; [done|done| |].
    + unfold upserted. unfold doc_of in Hx. destruct (kv_get (doc_key k) (db c)) as [b|]; [|done].
      destruct (deserialize_doc b) as [x|]; [|done]. by destruct (Hx x eq_refl) as (_ & _ & ? & _).
    + exists m. split_and!; [done..|]. intros f Hf. apply system_underscore in Hf as Hu. unfold upserted in Hd. unfold doc_of in Hx.
      set (new := OMap.insert "_key" (JString k) fs) in *. assert (OMap.wf new) as Hnew by by apply OMap.wf_insert.
      assert (∀ m', strip (Object new) = Object m' → OMap.get f m' = None) as Hstrip.
      { intros m' [= <-]. destruct (remove_all_get system_fields new f Hnew) as [H _].
        etransitivity; [exact H|]. by rewrite decide_True. }
      destruct (kv_get (doc_key k) (db c)) as [b|]; [|by apply Hstrip].
      destruct (deserialize_doc b) as [x|]; [|by apply Hstrip].
      destruct (Hx x eq_refl) as (_ & _ & _ & m0 & Hd0 & Hm0 & Hs0). cbn [fst] in Hd. unfold Document.update in Hd. cbn [data] in Hd.
      rewrite Hd0 in Hd. injection Hd as <-. destruct (update_fields_get new m0 f Hnew Hm0) as [_ H].
      etransitivity; [exact H|]. rewrite Hu. by apply Hs0.
  - intros f w Hf Hv. rewrite Hd. cbn in *. by rewrite (Hg f Hf), Hv.
Qed.

(** Deleting a batch brings no document. *)
Definition is_del (o : write_op) : Prop := match o with Del _ => True | Put _ _ => False end.
Lemma dels_shrink e o ops : Forall is_del ops → foldl (write_key e) o ops = o ∨ foldl (write_key e) o ops = None.
Proof.
  intros H. revert o. induction H as [|op ops Hop _ IH]; intros o; [by left|]. cbn [foldl]. destruct op as [|e']; [done|].
  cbn [write_key]. case_decide; [|apply IH]. right. by destruct (IH None) as [->| ->].
Qed.
Lemma delete_entries_dels d k (v : Value) l : delete_entries d k v = Ok l → Forall is_del l.
Proof. unfold delete_entries. cbn. intros [= <-]. rewrite !Forall_app. split_and!; apply Forall_fmap, Forall_true; done. Qed.
Lemma delete_loop_dels keys (st : Collection * deletion) : Forall is_del (del_batch st.2) →
  Forall is_del (del_batch (foldl delete_one st keys).2).
Proof.
  revert st. induction keys as [|k keys IH]; intros [c del] H; [done|]. cbn [foldl]. apply IH. unfold delete_one.
  destruct (Collection.get c k) as [x|]; [|done]. cbn [snd del_batch]. apply Forall_app. split; [done|]. constructor; [done|].
  destruct (delete_entries _ _ _) as [l|] eqn:E; [by eapply delete_entries_dels|constructor].
Qed.
Lemma delete_batch_shrinks keys c k x : doc_of (db (delete_batch keys c).2) k = Some x → doc_of (db c) k = Some x.
Proof.
  unfold delete_batch. destruct (deleting_all c [] keys (c, mkDeletion [] []) []) as [bs Hd]; [by constructor|].
  pose proof (delete_loop_dels keys (c, mkDeletion [] [])) as Hdel. specialize (Hdel ltac:(constructor)).
  destruct (foldl delete_one _ keys) as [c1 del]. destruct Hd as [Hs _ _ _ _ _ _]. cbn [fst snd] in *.
  destruct (del_docs del) as [|p docs]; [cbn; intros H; by rewrite <- (same_docs_doc_of _ _ _ Hs)|].
  unfold write. destruct (kv_write (del_batch del) (db c1)) as [d'|] eqn:Hw.
  2: { cbn. intros H. by rewrite <- (same_docs_doc_of _ _ _ Hs). }
  cbn [snd]. set (events := _ <$> p :: docs). set (c2 := sub_count _ _). destruct (send_all_keeps events c2) as (Hsd & _ & _).
  unfold doc_of at 1. rewrite Hsd. change (db c2) with d'. rewrite (kv_get_write _ _ _ _ Hw). intros H.
  rewrite <- (same_docs_doc_of _ _ _ Hs). unfold doc_of.
  destruct (dels_shrink (doc_key k) (kv_get (doc_key k) (db c1)) _ Hdel) as [E|E]; rewrite E in H; [done|done].
Qed.

(** A batch of upserts of different keys: the documents of the batch have the fields sent, the
    others stay; a batch that fails changes nothing. *)
Definition holds_sent (o : option Document) (k : string) (v : Value) : Prop := ∃ x, o = Some x ∧ tidy k x ∧ has_fields v x.
Lemma last_for_in ws (l : list (string * Value)) k rev t k' v : last_for k (stamped ws l) = Some (rev, t, (k', v)) →
  k' = k ∧ (k, v) ∈ l.
Proof.
  intros H. unfold last_for in H. apply last_Some_elem_of, list_elem_of_filter in H as [Hk Hin]. cbn in Hk. subst k'. split; [done|].
  unfold stamped in Hin. apply elem_of_lookup_imap in Hin as (i & p & E & Hp). injection E as Ew Ep. subst p. by apply list_elem_of_lookup_2 in Hp.
Qed.
Lemma last_for_some ws (l : list (string * Value)) k v : (k, v) ∈ l → is_Some (last_for k (stamped ws l)).
Proof.
  intros [i Hi]%list_elem_of_lookup. unfold last_for.
  assert ((ws i, (k, v)) ∈ filter (λ p : string * Z * (string * Value), p.2.1 = k) (stamped ws l)) as Hin.
  { apply list_elem_of_filter. split; [done|]. apply elem_of_lookup_imap. by exists i, (k, v). }
  destruct (filter _ _) as [|q qs]; [by apply elem_of_nil in Hin|]. by apply last_is_Some.
Qed.
Lemma unique_value (l : list (string * Value)) k v w : NoDup l.*1 → (k, v) ∈ l → (k, w) ∈ l → v = w.
Proof.
  intros Hn. induction l as [|[k0 v0] l IH]; [by intros ?%elem_of_nil|]. cbn in Hn. apply NoDup_cons in Hn as [Hk Hn].
  assert (∀ u, (k0, u) ∈ l → False) as Hno by (intros u Hu; apply Hk, list_elem_of_fmap; by exists (k0, u)).
  intros [E|H1]%elem_of_cons [E'|H2]%elem_of_cons; [congruence|injection E as -> ->|injection E' as -> ->|by apply IH]; naive_solver.
Qed.
Lemma upsert_collection ws l c : Forall sendable l → NoDup l.*1 → (∀ k x, doc_of (db c) k = Some x → tidy k x) →
  (is_ok (upsert_batch (stamped ws l) c).1 = true → ∀ k v, (k, v) ∈ l → holds_sent (doc_of (db (upsert_batch (stamped ws l) c).2) k) k v) ∧
  ∀ k, doc_of (db (upsert_batch (stamped ws l) c).2) k = doc_of (db c) k ∨
       ∃ v, (k, v) ∈ l ∧ holds_sent (doc_of (db (upsert_batch (stamped ws l) c).2) k) k v.
Proof.
  intros Hs Hn Ht. destruct (decide (collection_type c = "timeseries")) as [E|E].
  - destruct l as [|p l]; [by split; [intros _ k v ?%elem_of_nil|left]|]. unfold upsert_batch, stamped. cbn [imap].
    rewrite E. cbn. by split; [|left].
  - destruct (upsert_batch_docs c (stamped ws l) E) as (_ & _ & Hd).
    assert (∀ k rev t k' v, last_for k (stamped ws l) = Some (rev, t, (k', v)) →
      (k, v) ∈ l ∧ holds_sent (doc_of (db (upsert_batch (stamped ws l) c).2) k) k v) as Hlast.
    { intros k rev t k' v Hl. destruct (last_for_in _ _ _ _ _ _ _ Hl) as [-> Hin]. split; [done|]. rewrite Hd, Hl.
      destruct (proj1 (Forall_forall _ _) Hs _ Hin) as (Hp & Hk & fs & Hf & Hw & _). cbn in Hf, Hp, Hk. subst v.
      destruct (upserted_tidy rev t k fs c Hp Hk Hw) as [H1 H2]; [by apply Ht|]. by eexists. }
    split.
    + intros _ k v Hin. destruct (last_for_some ws l k v Hin) as [[[rev t] [k' w]] Hl].
      destruct (Hlast _ _ _ _ _ Hl) as [Hin' H]. by rewrite (unique_value l k v w).
    + intros k. destruct (last_for k (stamped ws l)) as [[[rev t] [k' v]]|] eqn:Hl; [right; exists v; by eapply Hlast|].
      left. by rewrite Hd, Hl.
Qed.
Lemma keyed_docs_sendable (l : list (string * Value)) : Forall sendable l → keyed_docs l.*2 = l.
Proof.
  induction 1 as [|[k v] l (Hp & Hk & fs & Hv & _ & Hg) _ IH]; [done|]. cbn in Hk, Hv, Hg. subst v.
  unfold keyed_docs in *. cbn. rewrite Hg. cbn. rewrite (proj2 (String.eqb_neq _ _) Hk). cbn. by rewrite IH.
Qed.
End Docs.

Lemma contains_s_app a b : SyncWorker.contains_s b = true → SyncWorker.contains_s (a +:+ b) = true.
Proof. intros H. induction a as [|x a IH]; [done|]. change (String x a +:+ b) with (String x (a +:+ b)). cbn [SyncWorker.contains_s]. by rewrite IH, orb_true_r. Qed.
Lemma physical_batch coll i : batch_upserts (physical coll i) = true.
Proof. unfold batch_upserts, SyncWorker.is_physical_shard. rewrite physical_digit, andb_true_r. unfold physical. apply contains_s_app. change ("_s" +:+ dec i) with (String "_" (String "s" (dec i))). cbn [SyncWorker.contains_s]. pose proof (starts_with_app "s" (dec i)) as H. change ("s" +:+ dec i) with (String "s" (dec i)) in H. by rewrite H. Qed.

(** ** Documents of a cluster *)

Section System_.
Context {Num : Type} `{!JsonNumber Num} `{!JsonText Num} `{!MetaJson Num} `{!DocumentJson Num} `{!DocumentJsonLaws Num}
  `{!DocCodec Num} `{!DocCodecLaws Num}.
Context `{hex_crate : !HexCrate} `{std_text : !StdText} `{hex_laws : !HexLaws}.
Context {DB : Type} `{!KvStore DB} `{!KvLaws DB} `{!KvReliable DB} `{!Families DB} `{!FamiliesLaws DB} `{schema : !SchemaCheck Num DB}.
Context `{shard_json : !ShardConfigJson} `{table_json : !ShardTableJson} `{hash : !Sharding.KeyHash} `{members : !HashOrder}
  `{shards : !ShardOrder} `{shards_laws : !ShardOrderLaws}.
Context {Stats : Type}.
Notation Value := (Value Num).
Notation Document := (Document Num).
Notation Collection := (Collection Num DB).
Notation Node := (Node (Num:=Num) (DB:=DB) (Stats:=Stats)).
Notation System := (System (Num:=Num) (DB:=DB) (Stats:=Stats)).
Implicit Types (nd : Node) (sys : System) (k : string) (x : Document) (l : list (string * Value)).

Context (now : N) (db coll : string) (new_shards : N).
Notation target k := (Sharding.route k new_shards).
Notation u64 i := (i < u64_modulus)%N.

Definition node_doc nd (i : N) k : option Document := coll_at db (physical coll i) (store nd) ≫= λ c, doc_of (Collection.db c) k.
Definition doc_at sys (a : string) (i : N) k : option Document := nodes sys !! a ≫= λ nd, node_doc nd i k.
Definition tidy_node nd : Prop := ∀ i k x, u64 i → node_doc nd i k = Some x → tidy k x.
Definition tidy_system sys : Prop := ∀ a i k x, u64 i → doc_at sys a i k = Some x → tidy k x.
(** Documents of [l] have been stored in their shards, and nothing else has changed. *)
Definition node_grows l nd nd' : Prop := ∀ i k, u64 i →
  node_doc nd' i k = node_doc nd i k ∨ i = target k ∧ ∃ v, (k, v) ∈ l ∧ holds_sent (node_doc nd' i k) k v.
Definition grows l sys sys' : Prop := me sys' = me sys ∧ ∀ a i k, u64 i →
  doc_at sys' a i k = doc_at sys a i k ∨ i = target k ∧ ∃ v, (k, v) ∈ l ∧ holds_sent (doc_at sys' a i k) k v.
(** The document is in its shard, somewhere. *)
Definition stored sys k (v : Value) : Prop := ∃ a, holds_sent (doc_at sys a (target k) k) k v.

Lemma target_u64 k : u64 (target k).
Proof.
  unfold Sharding.route. destruct (N.eqb_spec new_shards 0); [done|].
  eapply N.le_lt_trans; [by apply N.Div0.mod_le|]. unfold wrap64. by apply N.mod_lt.
Qed.
Lemma grows_refl l sys : grows l sys sys.
Proof. split; [done|]. by left. Qed.
Lemma grows_trans l s1 s2 s3 : grows l s1 s2 → grows l s2 s3 → grows l s1 s3.
Proof.
  intros [H1 G1] [H2 G2]. split; [congruence|]. intros a i k Hi.
  destruct (G2 a i k Hi) as [E|?]; [|by right]. rewrite E. by apply G1.
Qed.
Lemma grows_tidy l s1 s2 : grows l s1 s2 → tidy_system s1 → tidy_system s2.
Proof.
  intros [_ G] Ht a i k x Hi Hx. destruct (G a i k Hi) as [E|(_ & v & _ & y & E & Hy & _)]; [rewrite E in Hx; by eapply Ht|congruence].
Qed.
Lemma grows_stored l s1 s2 k v : grows l s1 s2 → NoDup l.*1 → (k, v) ∈ l → stored s1 k v → stored s2 k v.
Proof.
  intros [_ G] Hn Hin [a Ha]. exists a. destruct (G a (target k) k (target_u64 k)) as [->|(_ & w & Hw & H)]; [done|].
  by rewrite (unique_value l k v w).
Qed.
Lemma grows_node l sys a nd nd' : nodes sys !! a = Some nd → node_grows l nd nd' → grows l sys (set_node a nd' sys).
Proof.
  intros Ha G. split; [done|]. intros b i k Hi. unfold doc_at. cbn. destruct (decide (b = a)) as [->|Hne].
  - rewrite lookup_insert_eq, Ha. cbn. by apply G.
  - rewrite lookup_insert_ne by done. by left.
Qed.
Lemma tidy_nodes sys a nd : tidy_system sys → nodes sys !! a = Some nd → tidy_node nd.
Proof. intros Ht Ha i k x Hi Hx. eapply (Ht a i); [done|]. unfold doc_at. by rewrite Ha. Qed.

(** *** Steps that touch no document *)

Definition quiet nd nd' : Prop := ∀ i k, node_doc nd' i k = node_doc nd i k.
Lemma quiet_grows l nd nd' : quiet nd nd' → node_grows l nd nd'.
Proof. intros H i k _. left. apply H. Qed.
Lemma local_grows {A} l (f : Node → result DbError A * Node) sys r sys' : local f sys = (r, sys') →
  (∀ nd, nodes sys !! me sys = Some nd → node_grows l nd (f nd).2) → grows l sys sys'.
Proof.
  unfold local. destruct (nodes sys !! me sys) as [nd|] eqn:Hm; [|intros [= _ <-] _; apply grows_refl].
  destruct (f nd) as [r' nd'] eqn:E. intros [= _ <-] H. apply (grows_node l _ _ nd); [done|]. pose proof (H nd eq_refl) as G. by rewrite E in G.
Qed.
Lemma ask_result {A} (f : Node → A) sys r sys' : ask f sys = (r, sys') → sys' = sys ∧
  match r with Ok v => ∃ nd, nodes sys !! me sys = Some nd ∧ v = f nd | Err _ => True end.
Proof.
  unfold ask, local. destruct (nodes sys !! me sys) as [nd|] eqn:Hm; intros [= <- <-]; [|done].
  rewrite same_node by done. split; [done|]. by exists nd.
Qed.
Lemma call_quiet {A} n (f : Collection → result DbError A * Collection) nd : (∀ i, physical coll i ≠ n) →
  quiet nd (on_store (call db n f) nd).2.
Proof.
  intros Hn i k. unfold on_store, node_doc. destruct (call db n f (store nd)) as [r s] eqn:E. cbn.
  pose proof (call_other db n f (store nd) db (physical coll i)) as H. rewrite E in H. cbn in H. rewrite H; [done|].
  intros [=H']. by apply (Hn i).
Qed.
Lemma persist_quiet t nd : quiet nd (set_store (persist_table db coll t (store nd)) nd).
Proof.
  intros i k. unfold node_doc, persist_table. cbn. rewrite call_other; [done|]. intros [=H]. by apply (physical_base coll i).
Qed.
Lemma table_quiet nd : quiet nd (get_shard_table now db coll nd).2.
Proof.
  assert (quiet nd (load_shard_table now db coll nd).2) as H.
  { unfold load_shard_table. destruct (get_collection _ _ _) as [c|]; [|done]. destruct (get_shard_config c) as [config|]; [|done].
    destruct (cs_num_shards config =? 0)%N; [done|]. destruct (get_stored_shard_table c); [done|].
    destruct (compute_shard_table _ _ _ _ _) as [t|]; [|done]. cbn. intros i k. by rewrite <- (persist_quiet t nd i k). }
  unfold get_shard_table. destruct (_ !! _) as [t|]; [|done]. destruct (is_stale _ _ _ _ _); done.
Qed.
(** A new collection holds no document. *)
Lemma fresh_docs n d d' v k : cf_create n = Some d → kv_write [Put COLLECTION_TYPE_KEY v] d = Some d' → doc_of d k = None ∧ doc_of d' k = None.
Proof.
  intros H%cf_create_empty Hw. assert (∀ e, kv_get e d = None) as Hn by (intros e; by rewrite kv_get_view, H).
  unfold doc_of. rewrite (kv_get_write _ _ _ _ Hw), Hn. cbn [foldl write_key]. by rewrite decide_False.
Qed.
Lemma ensure_quiet n nd : quiet nd (on_store (ensure_collection db n) nd).2.
Proof.
  intros i k. unfold on_store, ensure_collection. destruct (get_collection db n (store nd)) as [c|e] eqn:Eg; [done|].
  destruct (decide (physical coll i = n)) as [<-|Hne].
  - unfold create_collection. unfold get_collection in Eg. destruct (get_database db (store nd)) as [d|] eqn:Ed; [|done]. cbn in Eg.
    unfold get_database in Ed. destruct (store nd !! db) as [d0|] eqn:Es; [|done]. injection Ed as ->.
    destruct (d !! physical coll i) as [c|] eqn:Ec; [done|].
    assert (node_doc nd i k = None) as -> by (unfold node_doc, coll_at; rewrite Es; cbn; by rewrite Ec).
    destruct (cf_create _) as [f|] eqn:Ef; [|unfold node_doc, coll_at; cbn; rewrite Es; cbn; by rewrite Ec].
    destruct (kv_write_ok [Put COLLECTION_TYPE_KEY (default "document" None)] f) as [f' Hf']. rewrite Hf'.
    unfold node_doc, coll_at, set_collection. cbn. rewrite Es, lookup_insert_eq. cbn. rewrite lookup_insert_eq. cbn.
    by destruct (fresh_docs _ _ _ _ k Ef Hf').
  - pose proof (create_other db n None (store nd) db (physical coll i)) as H. unfold node_doc.
    destruct (create_collection db n None (store nd)) as [r s]. cbn in *. rewrite H; [done|]. congruence.
Qed.
(** *** A batch for one shard *)

(** The part of [l] for the shard [i]. *)
Record part (l : list (string * Value)) (i : N) (batch : list (string * Value)) : Prop := {
  part_sendable : Forall sendable batch;
  part_unique : NoDup batch.*1;
  part_in p : p ∈ batch → p ∈ l ∧ target p.1 = i;
}.
(** The keys have been stored with their documents. *)
Definition sent l sys (ks : list string) : Prop := ∀ k, k ∈ ks → ∃ v, (k, v) ∈ l ∧ stored sys k v.

Lemma upsert_grows ws l i batch nd r nd' : part l i batch → u64 i → tidy_node nd → upsert ws db (physical coll i) batch nd = (r, nd') →
  node_grows l nd nd' ∧ (is_ok r = true → ∀ k v, (k, v) ∈ batch → holds_sent (node_doc nd' i k) k v).
Proof.
  intros [Hs Hn Hin] Hi Ht E. unfold upsert, on_store in E. destruct (coll_at db (physical coll i) (store nd)) as [c|] eqn:Hc.
  2: { destruct (call_missing db _ (upsert_batch (stamped ws batch)) _ Hc) as [e H]. rewrite H in E. injection E as <- <-.
       split; [|done]. by apply quiet_grows. }
  pose proof (λ j, call_lookup db _ c (upsert_batch (stamped ws batch)) (store nd) db (physical coll j) Hc) as Hl.
  rewrite (call_found _ _ _ (upsert_batch (stamped ws batch)) _ Hc) in *. cbn [fst snd] in Hl. injection E as <- <-.
  destruct (upsert_collection ws batch c Hs Hn) as [Hok Hall].
  { intros k x Hx. apply (Ht i); [done|]. unfold node_doc. by rewrite Hc. }
  assert (∀ k, node_doc (set_store (set_collection db (physical coll i) (upsert_batch (stamped ws batch) c).2 (store nd)) nd) i k =
    doc_of (Collection.db (upsert_batch (stamped ws batch) c).2) k) as Hd.
  { intros k. unfold node_doc. cbn [store set_store]. by rewrite Hl, decide_True. }
  split; [|intros Hr k v Hk; rewrite Hd; by apply Hok].
  intros j k Hj. destruct (decide (j = i)) as [->|Hne].
  - rewrite Hd. destruct (Hall k) as [E|(v & Hv & H)]; [left; rewrite E; unfold node_doc; by rewrite Hc|right].
    destruct (Hin _ Hv) as [Hl' Ht']. split; [done|]. by exists v.
  - left. unfold node_doc. cbn [store set_store]. rewrite Hl, decide_False; [done|]. intros [_ E]. by apply Hne, (physical_inj coll).
Qed.

Lemma fate_grows l sys : grows l sys (next_fate sys).2.
Proof. unfold next_fate. destruct (fates sys); (split; [done|by left]). Qed.
Lemma fate_me sys : me (next_fate sys).2 = me sys ∧ nodes (next_fate sys).2 = nodes sys.
Proof. unfold next_fate. by destruct (fates sys). Qed.
Lemma stored_batch l i batch sys a nd' : part l i batch → (∀ k v, (k, v) ∈ batch → holds_sent (node_doc nd' i k) k v) →
  sent l (set_node a nd' sys) batch.*1.
Proof.
  intros Hp H k ([k' v] & -> & Hin)%list_elem_of_fmap. exists v. destruct (part_in _ _ _ Hp _ Hin) as [Hl Ht]. split; [done|].
  exists a. unfold doc_at. cbn in *. rewrite lookup_insert_eq. cbn. rewrite Ht. by apply H.
Qed.
Lemma request_grows ws keys l i batch addr sys r sys' : part l i batch → u64 i → tidy_system sys →
  request_with_tasks addr (insert_documents_batch now true ws keys db (physical coll i) batch.*2) sys = (r, sys') →
  grows l sys sys' ∧ ∃ o, r = Ok o ∧ ∀ n, o = Some (Ok n) → sent l sys' batch.*1.
Proof.
  intros Hp Hi Ht. unfold request_with_tasks. pose proof (fate_grows l sys) as Hg. destruct (fate_me sys) as [_ Hn].
  destruct (next_fate sys) as [f s1]. cbn [snd] in *.
  destruct f; [| |]; try (intros [= <- <-]; split; [done|by eexists]);
  (destruct (nodes s1 !! addr) as [nd|] eqn:Ha; [|intros [= <- <-]; split; [done|by eexists]]);
  unfold insert_documents_batch, insert_documents; rewrite physical_batch, (keyed_docs_sendable _ (part_sendable _ _ _ Hp));
  destruct (upsert ws db (physical coll i) batch nd) as [[n|e] nd'] eqn:Hu;
  (destruct (upsert_grows _ _ _ _ _ _ _ Hp Hi (tidy_nodes _ _ _ (grows_tidy _ _ _ Hg Ht) Ha) Hu) as [Hgr Hst]);
  intros [= <- <-]; cbn [foldl]; (split; [by eapply grows_trans; [|apply (grows_node _ _ _ nd)]|]); eexists; (split; [done|]);
  intros ?; try done; intros _; apply (stored_batch _ i); auto.
Qed.
Lemma send_grows n ws keys l i batch addr sys r sys' : part l i batch → u64 i → tidy_system sys →
  send_with_retries now n ws keys addr db (physical coll i) batch.*2 sys = (r, sys') →
  grows l sys sys' ∧ ∃ b, r = Ok b ∧ (b = true → sent l sys' batch.*1).
Proof.
  intros Hp Hi. revert sys r sys'. induction n as [|n IH]; intros sys r sys' Ht E;
  cbn [send_with_retries] in E; unfold mbind, M_bind in E;
  (destruct (request_with_tasks _ _ _) as [r1 s1] eqn:E1);
  (destruct (request_grows _ _ _ _ _ _ _ _ _ Hp Hi Ht E1) as (Hg & o & -> & Hs));
  (destruct o as [[m|e]|]; [injection E as <- <-; split; [done|]; eexists; split; [done|]; intros _; by eapply Hs|..]).
  1-2: try case_match; injection E as <- <-; (split; [done|by eexists]).
  - destruct (500 <=? status e)%N; [|injection E as <- <-; split; [done|by eexists]].
    destruct (IH s1 r sys' (grows_tidy _ _ _ Hg Ht) E) as [Hg2 Hr]. split; [by eapply grows_trans|done].
  - destruct (IH s1 r sys' (grows_tidy _ _ _ Hg Ht) E) as [Hg2 Hr]. split; [by eapply grows_trans|done].
Qed.
(** *** All the shards of a batch *)

Lemma sent_grows l s1 s2 ks : grows l s1 s2 → NoDup l.*1 → sent l s1 ks → sent l s2 ks.
Proof. intros Hg Hn H k (v & Hv & Hs)%H. exists v. split; [done|]. by apply (grows_stored l s1). Qed.
Lemma sent_app l sys ks1 ks2 : sent l sys ks1 → sent l sys ks2 → sent l sys (ks1 ++ ks2).
Proof. intros H1 H2 k [?|?]%elem_of_app; auto. Qed.
(** A step of the node itself. *)
Lemma local_upsert ws l i batch sys r sys' : part l i batch → u64 i → tidy_system sys →
  local (λ n, let '(r, n') := upsert ws db (physical coll i) batch n in (Ok r, n')) sys = (r, sys') →
  grows l sys sys' ∧ ∀ n, r = Ok n → is_ok n = true → sent l sys' batch.*1.
Proof.
  intros Hp Hi Ht. unfold local. destruct (nodes sys !! me sys) as [nd|] eqn:Hm; [|intros [= <- <-]; split; [apply grows_refl|done]].
  destruct (upsert ws db (physical coll i) batch nd) as [r0 nd'] eqn:Hu.
  destruct (upsert_grows _ _ _ _ _ _ _ Hp Hi (tidy_nodes _ _ _ Ht Hm) Hu) as [Hg Hs]. intros [= <- <-].
  split; [by apply (grows_node _ _ _ nd)|]. intros n [= <-] Hok. apply (stored_batch _ i); auto.
Qed.
Lemma upsert_shards_grows ws keys t l groups done_ sys r sys' :
  Forall (λ g, part l g.1 g.2 ∧ u64 g.1) groups → NoDup l.*1 → tidy_system sys → sent l sys done_ →
  upsert_shards now ws keys db coll t groups done_ sys = (r, sys') →
  grows l sys sys' ∧ ∀ ks, r = Ok ks → sent l sys' ks.
Proof.
  intros Hgs Hn. revert done_ sys. induction Hgs as [|[i batch] groups [Hp Hi] _ IH]; intros done_ sys Ht Hd E; cbn [upsert_shards] in E.
  { injection E as <- <-. split; [apply grows_refl|]. by intros ks [= <-]. }
  destruct (t_assignments t !! N.to_nat i) as [a|]; [|by apply (IH done_)].
  unfold mbind, M_bind in E. destruct (ask my_node_id sys) as [ra s0] eqn:Ea. destruct (ask_result _ _ _ _ Ea) as [-> _].
  destruct ra as [id|]; [|injection E as <- <-; by split; [apply grows_refl|]].
  assert (∀ s1 ks1, grows l sys s1 → sent l s1 ks1 → upsert_shards now ws keys db coll t groups ks1 s1 = (r, sys') →
    grows l sys sys' ∧ ∀ ks, r = Ok ks → sent l sys' ks) as Hnext.
  { intros s1 ks1 Hg H1 E1. destruct (IH ks1 s1 (grows_tidy _ _ _ Hg Ht) H1 E1) as [Hg2 H2]. split; [by eapply grows_trans|done]. }
  assert (∀ s1 (b : bool), grows l sys s1 → (b = true → sent l s1 batch.*1) → sent l s1 (if b then done_ ++ batch.*1 else done_)) as Hmore.
  { intros s1 b Hg H1. apply (sent_grows _ _ s1) in Hd; [|done..]. destruct b; [apply sent_app|]; auto. }
  destruct (is_local _ id).
  - destruct (local (λ n, (get_database db (store n), n)) sys) as [r1 s1] eqn:E1.
    assert (grows l sys s1) as G1 by (apply (local_grows _ _ _ _ _ E1); intros; by apply quiet_grows).
    destruct r1; [|injection E as <- <-; by split].
    destruct (local (on_store (ensure_collection db (physical coll i))) s1) as [r2 s2] eqn:E2.
    assert (grows l sys s2) as G2.
    { eapply grows_trans; [done|]. apply (local_grows _ _ _ _ _ E2). intros; apply quiet_grows, ensure_quiet. }
    destruct r2; [|injection E as <- <-; by split].
    destruct (local _ s2) as [r3 s3] eqn:E3. destruct (local_upsert _ _ _ _ _ _ _ Hp Hi (grows_tidy _ _ _ G2 Ht) E3) as [G3 H3].
    assert (grows l sys s3) as G by by eapply grows_trans.
    destruct r3 as [r3|]; [|injection E as <- <-; by split]. apply (Hnext _ _ G) in E; [done|]. apply Hmore; [done|]. by apply H3.
  - destruct (ask (get_node_api_address _) sys) as [rb s1] eqn:Eb. destruct (ask_result _ _ _ _ Eb) as [-> _].
    destruct rb as [[addr|]|]; [|by apply (IH done_)|injection E as <- <-; by split; [apply grows_refl|]].
    destruct (ask (was_recently_failed now _) sys) as [rf s1] eqn:Ef. destruct (ask_result _ _ _ _ Ef) as [-> _].
    destruct rf as [[]|]; [injection E as <- <-; split; [apply grows_refl|by intros ks [= <-]]| |injection E as <- <-; by split; [apply grows_refl|]].
    destruct (send_with_retries _ _ _ _ _ _ _ _ sys) as [rs s1] eqn:Es.
    destruct (send_grows _ _ _ _ _ _ _ _ _ _ Hp Hi Ht Es) as (G1 & b & -> & Hb).
    destruct (change _ s1) as [rc s2] eqn:Ec. assert (grows l s1 s2) as G2.
    { apply (local_grows _ _ _ _ _ Ec). intros nd _. apply quiet_grows. cbn. intros j k. repeat case_match; done. }
    assert (grows l sys s2) as G by by eapply grows_trans.
    destruct rc; [|injection E as <- <-; by split]. apply (Hnext _ _ G) in E; [done|]. apply Hmore; [done|].
    intros Hb'. by apply (sent_grows _ s1); [| |apply Hb].
Qed.
Definition by_key (config : CollectionShardConfig) : Prop := cs_shard_key config = "_key" ∧ cs_num_shards config = new_shards.
Lemma group_parts config l : by_key config → Forall sendable l → NoDup l.*1 →
  Forall (λ g, part l g.1 g.2 ∧ u64 g.1) (group_by_shard (document_shard config) l).
Proof.
  intros [Hk Hc] Hs Hn. assert (∀ p : string * Value, document_shard config p = target p.1) as Hd.
  { intros p. unfold document_shard, shard_key_value. by rewrite Hk, Hc. }
  apply Forall_forall. intros [i batch] (j & E & Hj)%list_elem_of_fmap. injection E as -> ->. cbn [fst snd].
  rewrite (shard_order_perm _) in Hj. apply elem_of_remove_dups, list_elem_of_fmap in Hj as (p & -> & _).
  assert (List.filter (λ q, document_shard config q =? document_shard config p)%N l = filter (λ q, document_shard config q = document_shard config p) l) as ->.
  { clear. induction l as [|q l IH]; [done|]. cbn [List.filter]. rewrite filter_cons, IH. case_decide as E; case_match eqn:E'; try done;
      [by apply N.eqb_neq in E'|by apply N.eqb_eq in E']. }
  split; [|rewrite Hd; apply target_u64]. split.
  - apply Forall_forall. intros q [_ Hin]%list_elem_of_filter. by apply (proj1 (Forall_forall _ _) Hs).
  - eapply sublist_NoDup; [exact Hn|]. apply fmap_sublist, sublist_filter.
  - intros q [Hq Hin]%list_elem_of_filter. by rewrite <- (Hd q).
Qed.

(** *** The sender *)

(** Every call draws stamps of its own. *)
Context (ws : System → Stamps) (keys : System → nat → string).
Definition sender (config : CollectionShardConfig) l : Coordinator.M (list string) := λ sys,
  upsert_batch_to_shards now (ws sys) (keys sys) db coll config l sys.
Lemma sender_grows config l sys r sys' : by_key config → Forall sendable l → NoDup l.*1 → tidy_system sys →
  sender config l sys = (r, sys') → grows l sys sys' ∧ ∀ ks, r = Ok ks → sent l sys' ks.
Proof.
  intros Hb Hs Hn Ht. unfold sender, upsert_batch_to_shards, mbind, M_bind. destruct (shard_table now db coll sys) as [r1 s1] eqn:E1.
  assert (grows l sys s1) as G1.
  { apply (local_grows _ _ _ _ _ E1). intros nd _. apply quiet_grows. pose proof (table_quiet nd) as H.
    destruct (get_shard_table now db coll nd) as [o nd']. exact H. }
  destruct r1 as [t|]; [|by intros [= <- <-]]. intros E.
  destruct (upsert_shards_grows _ _ _ _ _ _ _ _ _ (group_parts config l Hb Hs Hn) Hn (grows_tidy _ _ _ G1 Ht) ltac:(intros k ?%elem_of_nil; done) E) as [G2 H2].
  split; [by eapply grows_trans|done].
Qed.
Lemma send_until_grows fuel config l sys ks sys' : by_key config → Forall sendable l → NoDup l.*1 → tidy_system sys →
  send_until_ok sender fuel config l sys = Some (ks, sys') → grows l sys sys' ∧ sent l sys' ks.
Proof.
  intros Hb Hs Hn. revert sys. induction fuel as [|fuel IH]; intros sys Ht; [done|]. cbn [send_until_ok].
  destruct (sender config l sys) as [r s1] eqn:E. destruct (sender_grows _ _ _ _ _ Hb Hs Hn Ht E) as [G1 H1].
  destruct r as [ks1|]; [intros [= <- <-]; by split; [|apply H1]|]. intros E2.
  destruct (IH s1 (grows_tidy _ _ _ G1 Ht) E2) as [G2 H2]. split; [by eapply grows_trans|done].
Qed.

(** *** What is deleted has been sent *)

Context (my_node_id : string) (old_assignments current_assignments : gmap nat Sharding.ShardAssignment).
Lemma std_filter_sub {A} (f : A → bool) (l : list A) : List.filter f l ⊆ l.
Proof. intros x Hx. apply list_elem_of_In, filter_In in Hx as [Hx _]. by apply list_elem_of_In. Qed.
Lemma add_missing_sub (verified l ks : list string) : verified ⊆ ks → l ⊆ ks → foldl add_missing verified l ⊆ ks.
Proof.
  revert verified. induction l as [|k l IH]; intros verified Hv Hl; [done|]. cbn [foldl]. apply IH; [|set_solver].
  unfold add_missing. case_bool_decide; set_solver.
Qed.
Lemma verify_sub config ks sys r sys' :
  verify_migrated_documents (Num:=Num) (DB:=DB) (Stats:=Stats) db coll my_node_id current_assignments None config ks sys = (r, sys') →
  sys' = sys ∧ ∀ v, r = Ok v → v ⊆ ks.
Proof.
  unfold verify_migrated_documents, mbind, M_bind. destruct (ask _ sys) as [r1 s1] eqn:E1.
  destruct (ask_result _ _ _ _ E1) as [-> H1]. destruct r1 as [found|]; [|intros [= <- <-]; by split].
  intros [= <- <-]. split; [done|]. intros v [= <-]. destruct H1 as (nd & _ & ->). apply add_missing_sub; [|done].
  apply list_subseteq_app_iff_l. split; [apply std_filter_sub|]. etransitivity; apply std_filter_sub.
Qed.
Lemma to_delete_sub (successful verified l : list string) : verified ⊆ successful →
  keys_to_delete new_shards my_node_id current_assignments successful verified = Some l → l ⊆ successful.
Proof.
  intros H. unfold keys_to_delete. case_match; [by intros [= <-]|]. destruct verified as [|k v]; [|by intros [= <-]].
  case_match; [by intros [= <-]|done].
Qed.
Lemma delete_docs shard ks sys r sys' : u64 shard → Forall plain ks →
  local (on_store (call db (physical coll shard) (delete_batch ks))) sys = (r, sys') →
  me sys' = me sys ∧ ∀ a i k, u64 i →
    (∀ x, doc_at sys' a i k = Some x → doc_at sys a i k = Some x) ∧
    (plain k → a ≠ me sys ∨ i ≠ shard ∨ k ∉ ks → doc_at sys' a i k = doc_at sys a i k).
Proof.
  intros Hsh Hp. unfold local. destruct (nodes sys !! me sys) as [nd|] eqn:Hm; [|intros [= _ <-]; done].
  unfold on_store. destruct (call db (physical coll shard) (delete_batch ks) (store nd)) as [r0 st] eqn:Ec. intros [= _ <-].
  split; [done|]. intros a i k Hi. unfold doc_at. cbn [nodes set_node]. destruct (decide (a = me sys)) as [->|Hne].
  2: { by rewrite lookup_insert_ne. }
  rewrite lookup_insert_eq, Hm. cbn [mbind option_bind]. unfold node_doc. cbn [store set_store].
  destruct (decide (i = shard)) as [->|Hne].
  2: { pose proof (call_other db (physical coll shard) (delete_batch ks) (store nd) db (physical coll i)) as H. rewrite Ec in H. cbn in H.
       rewrite H; [done|]. intros [=E]. by apply Hne, (physical_inj coll). }
  destruct (coll_at db (physical coll shard) (store nd)) as [c|] eqn:Hc.
  2: { destruct (call_missing db _ (delete_batch ks) _ Hc) as [e H]. rewrite H in Ec. injection Ec as _ <-. by rewrite Hc. }
  pose proof (call_lookup db _ c (delete_batch ks) (store nd) db (physical coll shard) Hc) as H. rewrite Ec, decide_True in H by done.
  cbn [snd] in H. rewrite H. cbn [mbind option_bind]. split; [intros x; apply delete_batch_shrinks|].
  intros Hk Hor. destruct (delete_batch_docs c ks Hp) as (_ & _ & Hd). rewrite Hd by done. rewrite decide_False; [done|]. naive_solver.
Qed.

(** *** One document, followed through the migration *)

Section Followed.
Context (k0 : string) (x0 : Document) (s0 : N).
Hypothesis s0_u64 : u64 s0.

(** The document is still where it was or has been stored in its shard, and this node has no
    other document of the key. *)
Record safe sys : Prop := {
  safe_tidy : tidy_system sys;
  safe_only i y : u64 i → doc_at sys (me sys) i k0 = Some y → i = target k0 ∨ i = s0 ∧ y = x0;
  safe_kept : doc_at sys (me sys) s0 k0 = Some x0 ∨ stored sys k0 (to_value x0);
}.
Record moving (shard : N) l : Prop := {
  mv_sendable : Forall sendable l;
  mv_unique : NoDup l.*1;
  mv_away p : p ∈ l → target p.1 ≠ shard;
  mv_followed v : (k0, v) ∈ l → v = to_value x0;
}.
Lemma moving_sub shard l l' : sublist l' l → moving shard l → moving shard l'.
Proof.
  intros Hs [H1 H2 H3 H4]. assert (∀ p, p ∈ l' → p ∈ l) as Hin by (intros p Hp; by eapply elem_of_sublist).
  split; [|eapply sublist_NoDup; [exact H2|by apply fmap_sublist]|auto|auto].
  apply Forall_forall. intros p Hp. apply (proj1 (Forall_forall _ _) H1). auto.
Qed.
Lemma safe_grows l sys sys' : grows l sys sys' → (∀ v, (k0, v) ∈ l → v = to_value x0) → safe sys → safe sys'.
Proof.
  intros G Hl [Ht Ho Hk]. pose proof G as [Hm Hg]. split; [by eapply grows_tidy| |]; rewrite Hm.
  - intros i y Hi Hy. destruct (Hg (me sys) i k0 Hi) as [E|[E _]]; [rewrite E in Hy; by apply Ho|by left].
  - destruct Hk as [Hk|[a Ha]].
    + destruct (Hg (me sys) s0 k0 s0_u64) as [E|(E & v & Hv & Hs)]; [left; congruence|right]. rewrite (Hl v Hv) in Hs.
      exists (me sys). by rewrite <- E.
    + right. exists a. destruct (Hg a (target k0) k0 (target_u64 k0)) as [->|(_ & v & Hv & Hs)]; [done|]. by rewrite (Hl v Hv) in Hs.
Qed.
Lemma safe_plain sys : safe sys → plain k0.
Proof. intros [Ht _ [H|[a (x & H & (Hp & _) & _)]]]; [|done]. by apply (Ht _ s0 k0 x0) in H as [? _]. Qed.
Lemma safe_delete shard ks sys r sys' : u64 shard → Forall plain ks → safe sys →
  (k0 ∈ ks → target k0 ≠ shard ∧ stored sys k0 (to_value x0)) →
  local (on_store (call db (physical coll shard) (delete_batch ks))) sys = (r, sys') → safe sys'.
Proof.
  intros Hsh Hp Hsafe Hks E. pose proof (safe_plain _ Hsafe) as Hpk. destruct Hsafe as [Ht Ho Hk].
  destruct (delete_docs _ _ _ _ _ Hsh Hp E) as [Hm Hd]. split; rewrite ?Hm.
  - intros a i k x Hi Hx. apply Hd in Hx; [|done]. by eapply Ht.
  - intros i y Hi Hy. apply Hd in Hy; [|done]. by apply Ho.
  - assert (stored sys k0 (to_value x0) → k0 ∈ ks → stored sys' k0 (to_value x0)) as Hst.
    { intros [a Ha] Hin. exists a. destruct (Hd a (target k0) k0 (target_u64 k0)) as [_ H].
      rewrite H; [done|done|]. right. left. by apply Hks. }
    destruct (decide (k0 ∈ ks)) as [Hin|Hnot]; [right; apply Hst; [by apply Hks|done]|]. destruct Hk as [Hk|[a Ha]].
    + left. rewrite (proj2 (Hd (me sys) s0 k0 s0_u64)); auto.
    + right. exists a. rewrite (proj2 (Hd a (target k0) k0 (target_u64 k0))); auto.
Qed.
Context (secs : N) (old_shards : N) (config : CollectionShardConfig).
Hypothesis sharded_by_key : by_key config.
Notation migrate_batch_ := (migrate_batch sender secs db coll new_shards my_node_id current_assignments).
Notation migrate_batches_ := (migrate_batches sender secs db coll new_shards my_node_id current_assignments).
Notation migrate_shard_ := (migrate_shard sender secs db coll new_shards my_node_id old_assignments current_assignments).
Notation migrate_shards_ := (migrate_shards sender secs db coll new_shards my_node_id old_assignments current_assignments).

Lemma migrate_batch_safe fuel shard batch m j sys f j' sys' : u64 shard → moving shard batch → safe sys →
  migrate_batch_ fuel config shard batch m j sys = Some (f, j', sys') → safe sys'.
Proof.
  intros Hsh Hmv Hsafe. pose proof Hmv as [Hs Hu Haway Hv]. unfold migrate_batch.
  destruct (send_until_ok sender fuel config batch sys) as [[ks s1]|] eqn:E1; [|done].
  destruct (send_until_grows _ _ _ _ _ _ sharded_by_key Hs Hu (safe_tidy _ Hsafe) E1) as [G1 Hsent].
  pose proof (safe_grows _ _ _ G1 Hv Hsafe) as Hsafe1.
  destruct ks as [|k1 ks1]; [case_match; intros [= _ _ <-]; done|]. set (ks := k1 :: ks1) in *.
  destruct (verify_migrated_documents _ _ _ _ _ _ _ s1) as [rv s2] eqn:E2. destruct (verify_sub _ _ _ _ _ E2) as [-> Hsub].
  destruct rv as [verified|]; [|intros [= _ _ <-]; done].
  destruct (keys_to_delete _ _ _ ks verified) as [dels|] eqn:E3; [|intros [= _ _ <-]; done].
  assert (∀ k, k ∈ dels → ∃ v, (k, v) ∈ batch ∧ stored s1 k v) as Hdels.
  { intros k Hk. by apply Hsent, (to_delete_sub _ _ _ (Hsub _ eq_refl) E3). }
  destruct (local _ s1) as [r s3] eqn:E4. destruct (after_batch _ _ _ _ _ _ _ _ _ _ _) as [m1 j2]. intros [= _ _ <-].
  apply (safe_delete shard dels s1 r); [done| |done| |done].
  - apply Forall_forall. intros k (v & Hin & _)%Hdels. by apply (proj1 (Forall_forall _ _) Hs) in Hin as [? _].
  - intros (v & Hin & Hst)%Hdels. split; [by apply (Haway _ Hin)|]. by rewrite (Hv v Hin) in Hst.
Qed.
Lemma migrate_batches_safe fuel shard batches m j sys m' j' sys' : u64 shard → Forall (moving shard) batches → safe sys →
  migrate_batches_ fuel config shard batches m j sys = Some (m', j', sys') → safe sys'.
Proof.
  intros Hsh Hb. revert m j sys. induction Hb as [|b bs Hb _ IH]; intros m j sys Hsafe; cbn [migrate_batches]; [by intros [= _ _ <-]|].
  destruct (migrate_batch_ _ _ _ _ _ _ _) as [[[[m1|m1] j1] s1]|] eqn:E; [| |done];
    pose proof (migrate_batch_safe _ _ _ _ _ _ _ _ _ Hsh Hb Hsafe E) as H1; [by apply IH|by intros [= _ _ <-]].
Qed.
Lemma chunks_sub {A} n (l b : list A) : b ∈ chunks n l → sublist b l.
Proof.
  intros (i & -> & _)%list_elem_of_fmap. etransitivity; [apply sublist_take|apply sublist_drop].
Qed.

(** What a shard moves: each key once, with its document, away from the shard. *)
Lemma docs_to_move_spec shard docs j processed moves processed' :
  docs_to_move db coll new_shards shard docs j processed = (moves, processed') →
  NoDup moves.*1 ∧ ∀ k v, (k, v) ∈ moves → k ∉ processed ∧ target k ≠ shard ∧ ∃ x, x ∈ docs ∧ key x = k ∧ v = to_value x.
Proof.
  revert processed moves processed'. induction docs as [|x docs IH]; intros processed moves processed'; cbn [docs_to_move].
  { intros [= <- _]. split; [constructor|]. by intros k v ?%elem_of_nil. }
  case_bool_decide as Hp.
  { intros E. destruct (IH _ _ _ E) as [H1 H2]. split; [done|]. intros k v (? & ? & y & ? & ?)%H2. split_and!; [done..|]. exists y. by split; [right|]. }
  assert (∀ l p, docs_to_move db coll new_shards shard docs j ({[key x]} ∪ processed) = (l, p) → NoDup l.*1 ∧ key x ∉ l.*1 ∧
    ∀ k v, (k, v) ∈ l → k ∉ processed ∧ target k ≠ shard ∧ ∃ y, y ∈ x :: docs ∧ key y = k ∧ v = to_value y) as Hrec.
  { intros l p E. destruct (IH _ _ _ E) as [H1 H2]. split_and!; [done|..].
    - intros ([k v] & Ek & Hin)%list_elem_of_fmap. cbn in Ek. apply H2 in Hin as [Hin _]. set_solver.
    - intros k v (Hk & Ht & y & Hy & E1 & E2)%H2. split_and!; [set_solver|done|]. exists y. by split; [right|]. }
  case_match; [intros E; by destruct (Hrec _ _ E) as (? & _ & ?)|].
  destruct (docs_to_move _ _ _ _ _ _ _) as [l p] eqn:E. destruct (Hrec _ _ eq_refl) as (H1 & H2 & H3).
  destruct (N.eqb_spec (target (key x)) shard) as [Ht|Ht]; intros [= <- _]; [done|]. split; [by constructor|].
  intros k v [[= -> ->]|Hin]%elem_of_cons; [|by apply H3]. split_and!; [done..|]. exists x. by split; [left|].
Qed.
Lemma shard_moves sys nd c shard j processed moves processed' : u64 shard → safe sys → nodes sys !! me sys = Some nd →
  coll_at db (physical coll shard) (store nd) = Some c →
  docs_to_move db coll new_shards shard (all c) j processed = (moves, processed') → moving shard moves.
Proof.
  intros Hsh [Ht Ho _] Hm Hc E. destruct (docs_to_move_spec _ _ _ _ _ _ E) as [Hu Hs].
  assert (∀ k v, (k, v) ∈ moves → target k ≠ shard ∧ ∃ x, doc_at sys (me sys) shard k = Some x ∧ tidy k x ∧ v = to_value x) as Hdoc.
  { intros k v (_ & Hne & x & (k' & Hx)%IndexLife.all_elem & <- & ->)%Hs. split; [done|].
    assert (doc_at sys (me sys) shard k' = Some x) as Hat by (unfold doc_at, node_doc; rewrite Hm; cbn; by rewrite Hc).
    pose proof (Ht _ _ _ _ Hsh Hat) as Hti. exists x. assert (key x = k') as -> by apply Hti. done. }
  split; [|done|by intros [k v] (? & _)%Hdoc|].
  - apply Forall_forall. intros [k v] (_ & x & _ & Hx & ->)%Hdoc. by apply tidy_sendable.
  - intros v (Hne & x & Hx & _ & ->)%Hdoc. apply Ho in Hx as [?|[_ ->]]; [congruence|done|done].
Qed.
Lemma migrate_shard_safe fuel shard j processed sys r j' p' sys' : u64 shard → safe sys →
  migrate_shard_ fuel config shard j processed sys = Some (r, j', p', sys') → safe sys'.
Proof.
  intros Hsh Hsafe. unfold migrate_shard. destruct (ask _ sys) as [ra s1] eqn:Ea. destruct (ask_result _ _ _ _ Ea) as [_ Ha].
  destruct ra as [[c|]|]; [|by intros [= _ _ _ <-]..]. destruct Ha as (nd & Hm & Hc). symmetry in Hc. apply get_collection_at in Hc.
  destruct (should_migrate _ _ _ _); [|by intros [= _ _ _ <-]]. destruct (docs_to_move _ _ _ _ _ _ _) as [moves p1] eqn:Em.
  pose proof (shard_moves _ _ _ _ _ _ _ _ Hsh Hsafe Hm Hc Em) as Hmv. destruct moves as [|q moves]; [by intros [= _ _ _ <-]|].
  destruct (migrate_batches_ _ _ _ _ _ _ _) as [[[m1 j1] s2]|] eqn:Eb; [|done].
  assert (safe s2) as H2.
  { apply (migrate_batches_safe _ _ _ _ _ _ _ _ _ Hsh) in Eb; [done| |done]. apply Forall_forall. intros b Hb%chunks_sub.
    eapply moving_sub; [|exact Hmv]. etransitivity; [exact Hb|apply sublist_take]. }
  case_match; by intros [= _ _ _ <-].
Qed.
Lemma migrate_shards_safe fuel is_ j processed sys r j' sys' : Forall (λ i, u64 i) is_ → safe sys →
  migrate_shards_ fuel config is_ j processed sys = Some (r, j', sys') → safe sys'.
Proof.
  intros Hl. revert j processed sys. induction Hl as [|i is_ Hi _ IH]; intros j processed sys Hsafe; cbn [migrate_shards]; [by intros [= _ _ <-]|].
  destruct (migrate_shard_ _ _ _ _ _ _) as [[[[[u|e] j1] p1] s1]|] eqn:E; [| |done];
    pose proof (migrate_shard_safe _ _ _ _ _ _ _ _ _ Hi Hsafe E) as H1; [by apply IH|by intros [= _ _ <-]].
Qed.
End Followed.

(** The documents that [safe] follows: a tidy system in which this node has no other document of
    the key, unless it is in the shard of the key already. *)
Lemma safe_start sys k x s : tidy_system sys → doc_at sys (me sys) s k = Some x →
  (∀ i y, u64 i → doc_at sys (me sys) i k = Some y → i = target k ∨ i = s) → safe k x s sys.
Proof.
  intros Ht Hx Ho. split; [done| |by left]. intros i y Hi Hy. destruct (Ho i y Hi Hy) as [?| ->]; [by left|right]. split; congruence.
Qed.

End System_.
End MigrationProps.
