(* ===== verification/ShardingDemo.v ===== *)
(** * Concrete clusters

    Two nodes with a sharded collection, on which the theorems about the coordinator and about
    migrations are applied, and where the shard is not the one of the key. *)

From S2P Require Import Prelude Text Json Transaction Codec Kv Hlc Document DocStore Indexes Collection CollectionProps CollectionBatch CollectionBatchProps Databases DatabasesProps Sharding SyncLog SyncState SyncTransport Cluster SyncWorker ClusterManager NodeStore Triggers Coordinator CoordinatorProps Migration MigrationProps.
Import Json Codec Document Serializer Indexes Collection CollectionProps CollectionBatch Databases NodeStore Jobs Triggers.

Module ShardingDemo.
Import DocumentDemo CollectionDemo DatabasesDemo Coordinator CoordinatorProps Migration MigrationProps.

#[local] Instance demo_order : HashOrder := λ l, l.
#[local] Instance demo_shard_order : ShardOrder := λ l, l.
#[local] Instance demo_shard_order_laws : ShardOrderLaws.
Proof. by intros l. Qed.
(** Keys are hashed to their first character. *)
#[local] Instance demo_hash : Sharding.KeyHash := {
  Sharding.seahash s := match s with String c _ => N_of_ascii c | EmptyString => 0%N end;
  Sharding.default_hash _ := 0%N;
}.
Definition keyed (n : N) : CollectionShardConfig := mkCollectionShards n "_key" 1.
Definition by_city : CollectionShardConfig := mkCollectionShards 3 "city" 1.
#[local] Instance demo_config : ShardConfigJson := {
  shard_config_to_vec _ := None;
  shard_config_from_slice s :=
    if String.eqb s "two" then Some (keyed 2) else if String.eqb s "three" then Some (keyed 3)
    else if String.eqb s "city" then Some by_city else None;
}.
#[local] Instance demo_table : ShardTableJson := { shard_table_to_vec _ := None; shard_table_from_slice _ := None }.
#[local] Instance demo_http : HttpStatus := dec.
#[local] Instance demo_triggers : Serde demo_number Trigger := { to_json _ := Null; from_json _ := Err ""; json_fields := [] }.
#[local] Instance demo_jobs : Serde demo_number (Job demo_number) := { to_json _ := Null; from_json _ := Err ""; json_fields := [] }.
#[local] Instance demo_json_text : JsonText demo_number := {
  num_as_f64 _ := None;
  num_of_f64 _ := None;
  json_to_string := to_text;
  json_from_slice := of_text;
}.

(** ** Two nodes *)

Notation DemoNode := (Coordinator.Node (Num:=demo_number) (DB:=map_store) (Stats:=unit)).
Notation DemoSystem := (Coordinator.System (Num:=demo_number) (DB:=map_store) (Stats:=unit)).
Definition member (n host : string) : Cluster.Node := Cluster.mkNode n host host 0.
Definition n1 : Cluster.Node := member "n1" "h1".
Definition n2 : Cluster.Node := member "n2" "h2".
Definition manager (own other : Cluster.Node) : ClusterManager.Manager (Num:=demo_number) (DB:=map_store) (Stats:=unit) :=
  let m := ClusterManager.new_manager 0 own (Cluster.new (Cluster.id own)) None in
  ClusterManager.with_state (Cluster.add_member 0 other Cluster.Active (ClusterManager.state m)).2 m.
(** Shard [0] is on the first node, the others are on the second. *)
Definition table_for (n : N) (shard_key : string) : ShardTable :=
  mkTable "db" "c" n 1 shard_key
    (list_to_map ((λ i, (i, Sharding.mkAssignment i (if (i =? 0)%nat then "n1" else "n2") [])) <$> seq 0 (N.to_nat n))).
Definition empty_coll (n : string) : DemoCollection := mkCollection n "document" empty_store 0 0 false [] [].
Definition sharded (config : string) : DemoCollection :=
  mkCollection "db:c" "document" (default empty_store (kv_write [Put SHARD_CONFIG_KEY config] empty_store)) 0 0 false [] [].
Definition node (own other : Cluster.Node) (t : ShardTable) (d : gmap string DemoCollection) : DemoNode :=
  Coordinator.mkNode {["db" := d]} (Some (manager own other)) {[table_key "db" "c" := t]} ∅ false None None.
Definition w : Stamp := mkStamp "u" "g" "r" 1 (λ _, mkDraw "" 0 "" "" 0).

(** ** A healthy cluster *)

Definition t2 : ShardTable := table_for 2 "_key".
Definition home (i : N) : string := if (i =? 0)%N then "h1" else "h2".
Definition nd1 : DemoNode := node n1 n2 t2 {["c" := sharded "two"; "c_s0" := empty_coll "db:c_s0"]}.
Definition nd2 : DemoNode := node n2 n1 t2 {["c" := sharded "two"; "c_s1" := empty_coll "db:c_s1"]}.
Definition sys2 : DemoSystem := mkSystem {["h1" := nd1; "h2" := nd2]} "h1" [].
Lemma sys2_nodes a nd : nodes sys2 !! a = Some nd → a = "h1" ∧ nd = nd1 ∨ a = "h2" ∧ nd = nd2.
Proof. cbn [nodes sys2]. intros [[<- <-]|[_ [<- <-]%lookup_singleton_Some]]%lookup_insert_Some; [by left|by right]. Qed.
Lemma below_2 (i : N) : (i < 2)%N → i = 0%N ∨ i = 1%N.
Proof. lia. Qed.
Ltac computes := vm_compute; reflexivity.
Lemma reaches_here a (nd : DemoNode) p i : is_local p (my_node_id nd) = true → a = home i → reaches 0 home a nd p i.
Proof. intros H E. unfold reaches. by rewrite H. Qed.
Lemma reaches_there a (nd : DemoNode) p i mgr : is_local p (my_node_id nd) = false → cluster_manager nd = Some mgr →
  ClusterManager.is_node_healthy 0 p mgr = true → ClusterManager.get_node_api_address p mgr = Some (home i) → reaches 0 home a nd p i.
Proof. intros H. unfold reaches. rewrite H. eauto. Qed.
Lemma sys2_homes i : (i < 2)%N → ∃ nd c, nodes sys2 !! home i = Some nd ∧ coll_at "db" (physical "c" i) (store nd) = Some c ∧ 
  collection_type c = "document" ∧ ∀ k, Collection.get c k = Err (DocumentNotFound k).
Proof.
  intros [-> | ->]%below_2; [exists nd1, (empty_coll "db:c_s0")|exists nd2, (empty_coll "db:c_s1")];
    (split; [computes|]); (split; [computes|]); (split; reflexivity).
Qed.
Lemma sys2_healthy : healthy 0 "db" "c" t2 home sys2.
Proof.
  split.
  - reflexivity.
  - intros a nd [[_ ->]|[_ ->]]%sys2_nodes; (split; computes).
  - intros i [-> | ->]%below_2; [exists (Sharding.mkAssignment 0 "n1" [])|exists (Sharding.mkAssignment 1 "n2" [])]; (split; [computes|]);
      intros a nd [[-> ->]|[-> ->]]%sys2_nodes.
    + apply reaches_here; computes.
    + apply (reaches_there _ _ _ _ (manager n2 n1)); [computes|reflexivity|computes|computes].
    + apply (reaches_there _ _ _ _ (manager n1 n2)); [computes|reflexivity|computes|computes].
    + apply reaches_here; computes.
  - intros i (nd & c & H1 & H2 & H3 & _)%sys2_homes. exists nd, c. split_and!; [done|done|by rewrite H3].
Qed.
Lemma sys2_shows : shows "db" "c" t2 home sys2 ∅.
Proof.
  intros k Hk. destruct (sys2_homes (Sharding.route k 2)) as (nd & c & H1 & H2 & _ & H3); [by apply route_lt|].
  exists nd, c. rewrite lookup_empty. by split_and!.
Qed.
Definition doc_a : Value demo_number := Object [("_key", JString "a"); ("x", Bool true)].

(** ** A migration from two shards to three

    The first request of the migration is lost, and the response to the second. *)

Definition put (docs : list (Value demo_number)) (n : string) : DemoCollection :=
  foldl (λ c v, (Collection.insert "g" "r" 1 v c).2) (empty_coll n) docs.
Definition doc_b : Value demo_number := Object [("_key", JString "b"); ("x", Bool true)].
Definition doc_c : Value demo_number := Object [("_key", JString "c"); ("x", Bool false)].
Definition shard_0 : DemoCollection := put [doc_b; doc_c] "db:c_s0".
Definition t3 : ShardTable := table_for 3 "_key".
Definition from_nd : DemoNode := node n1 n2 t3 {["c" := sharded "three"; "c_s0" := shard_0]}.
Definition to_nd : DemoNode :=
  node n2 n1 t3 {["c" := sharded "three"; "c_s1" := empty_coll "db:c_s1"; "c_s2" := empty_coll "db:c_s2"]}.
Definition sys3 : DemoSystem := mkSystem {["h1" := from_nd; "h2" := to_nd]} "h1" [RequestLost; ResponseLost].
Definition migrated (fuel : nat) (sys : DemoSystem) :=
  reshard_collection_with_journal (sender 0 "db" "c" (λ _ _, ("r2", 2%Z)) (λ _ _, "g2")) 0 "db" "c" 2 3 "n1"
    (t_assignments t2) (t_assignments t3) fuel None sys.
Definition x_b : Document demo_number := with_key "r" 1 "db:c_s0" "b" (Object [("x", Bool true)]).

Lemma shard_0_docs k x : doc_of (Collection.db shard_0) k = Some x → tidy k x.
Proof.
  intros H. assert (is_Some (doc_of (Collection.db shard_0) k)) as Hs by (by eexists). apply doc_of_listed in Hs. vm_compute in Hs.
  apply elem_of_cons in Hs as [->|[->|[]%elem_of_nil]%elem_of_cons]; vm_compute in H; injection H as <-;
    (split_and!; [reflexivity|discriminate|reflexivity|]; eexists; (split; [reflexivity|]); (split; [repeat constructor|]));
    intros f Hf; repeat (apply elem_of_cons in Hf as [->|Hf]; [reflexivity|]); by apply elem_of_nil in Hf.
Qed.
Lemma plain_docs c k : Collection.db c = empty_store ∨ (∃ s, c = sharded s) → doc_of (Num:=demo_number) (Collection.db (DB:=map_store) c) k = None.
Proof. intros [-> |[s ->]]; reflexivity. Qed.
Lemma from_docs i k x : node_doc "db" "c" from_nd i k = Some x → physical "c" i = "c_s0" ∧ tidy k x.
Proof.
  unfold node_doc, coll_at. change (store from_nd) with ({["db" := {["c" := sharded "three"; "c_s0" := shard_0]}]} : gmap string (gmap string DemoCollection)).
  rewrite lookup_singleton_eq. cbn [mbind option_bind].
  destruct ({["c" := sharded "three"; "c_s0" := shard_0]} !! physical "c" i) as [c|] eqn:E; [|done].
  apply lookup_insert_Some in E as [[E _]|[_ [<- <-]%lookup_singleton_Some]]; [by destruct (physical_base "c" i)|].
  cbn. intros H. split; [done|by apply shard_0_docs].
Qed.
Lemma to_docs i k : node_doc "db" "c" to_nd i k = None.
Proof.
  unfold node_doc, coll_at. change (store to_nd) with
    ({["db" := {["c" := sharded "three"; "c_s1" := empty_coll "db:c_s1"; "c_s2" := empty_coll "db:c_s2"]}]} : gmap string (gmap string DemoCollection)).
  rewrite lookup_singleton_eq. cbn [mbind option_bind].
  destruct ({["c" := _; "c_s1" := _; "c_s2" := _]} !! physical "c" i) as [c|] eqn:E; [|done].
  by apply lookup_insert_Some in E as [[_ <-]|[_ [[_ <-]|[_ [_ <-]%lookup_singleton_Some]]%lookup_insert_Some]].
Qed.
Lemma sys3_doc a i k x : doc_at "db" "c" sys3 a i k = Some x → a = "h1" ∧ physical "c" i = "c_s0" ∧ tidy k x.
Proof.
  unfold doc_at. cbn [nodes sys3]. destruct ({["h1" := from_nd; "h2" := to_nd]} !! a) as [nd|] eqn:E; [|done].
  apply lookup_insert_Some in E as [[<- <-]|[_ [<- <-]%lookup_singleton_Some]]; cbn [mbind option_bind].
  - intros H. split; [done|by apply from_docs].
  - by rewrite to_docs.
Qed.
(** The shards of the two nodes in which a key is found. *)
Definition places (sys : DemoSystem) (k : string) : list (string * N) :=
  filter (λ p, is_Some (doc_at "db" "c" sys p.1 p.2 k)) [("h1", 0%N); ("h1", 1%N); ("h1", 2%N); ("h2", 0%N); ("h2", 1%N); ("h2", 2%N)].
(** The document has been moved, and the other one has stayed. *)
Example document_moved :
  (λ o, (places o.2 "b", places o.2 "c")) <$> migrated 1 sys3 = Some ([("h2", 2%N)], [("h1", 0%N)]).
Proof. vm_compute. reflexivity. Qed.

(** ** A shard key of its own

    The coordinator inserts by the field and looks for the key: what it has just inserted it does
    not find. And a migration finds the document in a shard that is not the one of its key, sends
    it to the shard of its field, which is the same one, and then deletes it. *)

Definition doc_city (city : string) : Value demo_number := Object [("_key", JString "b"); ("city", JString city)].
Definition tc : ShardTable := table_for 3 "city".
Definition sys_city (docs : list (Value demo_number)) : DemoSystem :=
  mkSystem {["h1" := node n1 n2 tc {["c" := sharded "city"; "c_s0" := put docs "db:c_s0"]};
             "h2" := node n2 n1 tc {["c" := sharded "city"; "c_s1" := empty_coll "db:c_s1"; "c_s2" := empty_coll "db:c_s2"]}]} "h1" [].
Example inserted_not_found :
  let '(r, sys') := insert 0 w "db" "c" by_city (doc_city "a") (sys_city []) in
  is_ok r = true ∧ places sys' "b" = [("h2", 1%N)] ∧ (get 0 "db" "c" "b" sys').1 = Err (DocumentNotFound "b").
Proof. vm_compute. by split_and!. Qed.
Example migration_loses_document :
  places (sys_city [doc_city "c"]) "b" = [("h1", 0%N)] ∧
  (λ o, (o.1, places o.2 "b")) <$> migrated 1 (sys_city [doc_city "c"]) = Some (Ok tt, None, []).
Proof. vm_compute. by split. Qed.

(** ** Shards above the ninth are not cleaned up, and the journal never records a migration *)

Example orphans_above_nine : orphan_name "c_s9" = Some ("c", 9%N) ∧ orphan_name "c_s10" = None.
Proof. vm_compute. by split. Qed.
Example journal_stays_pending :
  (λ o, (o.1.1, journal_pending (get_migration_stats o.1.2), journal_migrated (get_migration_stats o.1.2), places o.2 "b")) <$>
    reshard_collection_robust (sender 0 "db" "c" (λ _ _, ("r2", 2%Z)) (λ _ _, "g2")) 0 "db" "c" 2 3 "n1"
      (t_assignments t2) (t_assignments t3) 1 Migration.new sys3 = Some (Ok tt, 1, 0, [("h2", 2%N)]).
Proof. vm_compute. reflexivity. Qed.
End ShardingDemo.
