(* ===== verification/Scripts.v ===== *)
(** * Scripts and services: cache, index, handlers and routing
    (src/scripting/types.rs, src/scripting/engine/cache.rs, script_index.rs, src/server/script_handlers.rs)

    Lua scripts are stored in the collection [_scripts] of a database, under services stored in
    [_services]. The server keeps an index of the scripts by path and method and a cache of
    their bytecode beside the collections, which the handlers keep up to date; a request is
    served by the script the index finds, or else by a scan of the collection. The Lua
    interpreter is left out: routing ends with the script and the parameters of the path. *)

From S2P Require Import Prelude Text Json Transaction Document Indexes Sharding SyncLog DocStore Databases SdbqlLexer.
Import Indexes Json Document Databases.

Module ScriptTypes.
Record Script := mkScript {
  key : string;
  name : string;
  methods : list string;
  path : string;
  database : string;
  service : string;
  collection : option string;
  code : string;
  description : option string;
  created_at : string;
  updated_at : string;
}.
Record Service := mkService {
  s_key : string;
  s_name : string;
  s_description : option string;
  s_version : option string;
  s_database : string;
  s_enabled : bool;
  s_require_auth : bool;
  s_created_at : string;
  s_updated_at : string;
}.
#[export] Instance script_eq : EqDecision Script.
Proof. solve_decision. Defined.
Definition default_enabled : bool := true.
Definition default_database : string := "_system".
Definition default_service : string := "default".
End ScriptTypes.

(** ** The cache of compiled scripts (cache.rs) *)

Module ScriptCache.
Record CacheEntry := mkCached { bytecode : string; last_access : N; access_count : N; code_hash : N }.
Record Cache := mkCache { entries : gmap string CacheEntry; max_size : nat; hits : N; misses : N; evictions : N }.
Definition new (n : nat) : Cache := mkCache ∅ n 0 0 0.
Definition with_default_size : Cache := new 1000.
Record CacheStats := mkCacheStats { st_entries : nat; st_max_size : nat; st_hits : N; st_misses : N; st_evictions : N }.

Section Cache.
Context `{hash : !Sharding.KeyHash} `{order : !HashOrder}.
Definition hash_code (code : string) : N := wrap64 (Sharding.default_hash code).
Definition cache_key (script_key code : string) : string := script_key +:+ (":" +:+ Radix.fixed 16 16 (hash_code code)).

(** The entry accessed longest ago, if there is one accessed before now. *)
Definition lru (now : N) (m : gmap string CacheEntry) : option string :=
  (foldl (λ acc k, match m !! k with
                   | Some e => if (last_access e <? acc.2)%N then (Some k, last_access e) else acc
                   | None => acc
                   end) (None, now) (hash_order (elements (dom m)))).1.
Definition evict_lru (now : N) (c : Cache) : Cache :=
  match lru now (entries c) with
  | Some k => mkCache (base.delete k (entries c)) (max_size c) (hits c) (misses c) (wrap64 (evictions c + 1))
  | None => c
  end.
Definition touch (now : N) (e : CacheEntry) : CacheEntry := mkCached (bytecode e) now (wrap64 (access_count e + 1)) (code_hash e).
(** [get], and the first half of [get_or_compile]. *)
Definition get (now : N) (script_key code : string) (c : Cache) : option string * Cache :=
  let k := cache_key script_key code in
  match entries c !! k with
  | Some e =>
      if (code_hash e =? hash_code code)%N
      then (Some (bytecode e), mkCache (<[k := touch now e]> (entries c)) (max_size c) (wrap64 (hits c + 1)) (misses c) (evictions c))
      else (None, mkCache (entries c) (max_size c) (hits c) (wrap64 (misses c + 1)) (evictions c))
  | None => (None, mkCache (entries c) (max_size c) (hits c) (wrap64 (misses c + 1)) (evictions c))
  end.
Definition insert (now : N) (script_key code b : string) (c : Cache) : Cache :=
  let c1 := if (max_size c <=? size (entries c))%nat then evict_lru now c else c in
  mkCache (<[cache_key script_key code := mkCached b now 1 (hash_code code)]> (entries c1))
    (max_size c1) (hits c1) (misses c1) (evictions c1).
Definition get_or_compile {E} (now : N) (script_key code : string) (compile : string → result E string) (c : Cache) :
    result E string * Cache :=
  match get now script_key code c with
  | (Some b, c1) => (Ok b, c1)
  | (None, c1) =>
      match compile code with
      | Err e => (Err e, c1)
      | Ok b => (Ok b, insert now script_key code b c1)
      end
  end.
Definition invalidate (script_key : string) (c : Cache) : Cache :=
  mkCache (filter (λ p, starts_with (script_key +:+ ":") p.1 = false) (entries c)) (max_size c) (hits c) (misses c) (evictions c).
Definition clear (c : Cache) : Cache := mkCache ∅ (max_size c) (hits c) (misses c) (evictions c).
Definition stats (c : Cache) : CacheStats := mkCacheStats (size (entries c)) (max_size c) (hits c) (misses c) (evictions c).
End Cache.
End ScriptCache.

(** ** The index of the scripts (script_index.rs) *)

Module ScriptIndex.
Import ScriptTypes.
Notation IndexKey := (string * string * string * string)%type.
Record ScriptIndex := mkIndex { exact_paths : gmap IndexKey Script; pattern_paths : gmap (string * string) (list Script) }.
Definition new : ScriptIndex := mkIndex ∅ ∅.
Record IndexStats := mkIndexStats { exact_entries : nat; pattern_entries : nat; stat_databases : nat }.

(** [str::eq_ignore_ascii_case] *)
Definition eq_ignore_ascii_case (a b : string) : bool := String.eqb (ascii_upper a) (ascii_upper b).
(** The parts of the path, a parameter matching any. *)
Fixpoint parts_match (pattern actual : list string) : bool :=
  match pattern, actual with
  | [], [] => true
  | p :: ps, a :: as_ => (starts_with ":" p || String.eqb p a) && parts_match ps as_
  | _, _ => false
  end.
Definition path_matches (pattern path : string) : bool := parts_match (split_on "/" pattern) (split_on "/" path).
Definition has_parameters (path : string) : bool := negb (no_colon path).

Section Index.
Context `{tables : !CharTables}.
Definition find (db service_ path_ method : string) (i : ScriptIndex) : option Script :=
  let m := to_uppercase method in
  match exact_paths i !! (db, service_, path_, m) with
  | Some s => Some s
  | None =>
      match (if String.eqb m "GET" then exact_paths i !! (db, service_, path_, "WS") else None) with
      | Some s => Some s
      | None =>
          List.find (λ s, existsb (λ x, eq_ignore_ascii_case x m || eq_ignore_ascii_case x "WS") (methods s) &&
                          path_matches (path s) path_) (default [] (pattern_paths i !! (db, service_)))
      end
  end.
Definition insert (s : Script) (i : ScriptIndex) : ScriptIndex :=
  if has_parameters (path s)
  then mkIndex (exact_paths i)
         (<[(database s, service s) := default [] (pattern_paths i !! (database s, service s)) ++ [s]]> (pattern_paths i))
  else mkIndex (foldl (λ m x, <[(database s, service s, path s, to_uppercase x) := s]> m) (exact_paths i) (methods s)) (pattern_paths i).
Definition remove (script_key db service_ : string) (i : ScriptIndex) : ScriptIndex :=
  mkIndex (filter (λ p, ScriptTypes.key p.2 ≠ script_key) (exact_paths i))
    (alter (filter (λ s, ScriptTypes.key s ≠ script_key)) (db, service_) (pattern_paths i)).
Definition clear (_ : ScriptIndex) : ScriptIndex := new.
(** From the scripts of a database; those that belong to another one are only left out when a
    single database is indexed. *)
Definition rebuild (scripts : list (string * list Script)) (i : ScriptIndex) : ScriptIndex :=
  foldl (λ i p, foldl (λ i s, insert s i) i p.2) (clear i) scripts.
Definition rebuild_database (db : string) (scripts : list Script) (i : ScriptIndex) : ScriptIndex :=
  foldl (λ i s, if String.eqb (database s) db then insert s i else i)
    (mkIndex (filter (λ p, p.1.1.1.1 ≠ db) (exact_paths i)) (filter (λ p, p.1.1 ≠ db) (pattern_paths i))) scripts.
Definition stats (i : ScriptIndex) : IndexStats :=
  mkIndexStats (size (exact_paths i)) (sum_list_with (λ p, length p.2) (map_to_list (pattern_paths i)))
    (size (list_to_set ((λ p, p.1.1) <$> map_to_list (pattern_paths i)) ∪
           list_to_set ((λ p, p.1.1.1.1) <$> map_to_list (exact_paths i)) : gset string)).
End Index.
End ScriptIndex.

(** ** Handlers and routing (script_handlers.rs) *)

Module ScriptHandlers.
Import ScriptTypes.
Local Open Scope solidb_scope.

Definition SCRIPTS_COLLECTION : string := "_scripts".
Definition SERVICES_COLLECTION : string := "_services".

Record CreateScriptRequest := mkScriptRequest {
  r_name : string; r_path : string; r_methods : list string; r_code : string; r_description : option string;
  r_collection : option string; r_service : string }.
Record CreateScriptResponse := mkScriptResponse {
  cs_id : string; cs_name : string; cs_path : string; cs_methods : list string; cs_service : string; cs_created_at : string }.
Record ScriptSummary := mkScriptSummary {
  ss_id : string; ss_name : string; ss_path : string; ss_methods : list string; ss_description : option string;
  ss_database : string; ss_service : string; ss_collection : option string; ss_created_at : string; ss_updated_at : string }.
Record CreateServiceRequest := mkServiceRequest {
  q_key : string; q_name : string; q_description : option string; q_version : option string; q_enabled : bool; q_require_auth : bool }.
Record CreateServiceResponse := mkServiceResponse { sr_key : string; sr_name : string; sr_database : string; sr_created_at : string }.
Record ServiceSummary := mkServiceSummary { sv_service : Service; sv_script_count : nat }.
Record UpdateServiceRequest := mkServiceUpdate {
  u_name : option string; u_description : option string; u_version : option string; u_enabled : option bool; u_require_auth : option bool }.
Record DeleteServiceResponse := mkServiceDeleted { sd_deleted : bool; sd_scripts_deleted : N }.

(** What a request draws: the time as text and in milliseconds, and what the collection draws. *)
Record Draw := mkDraw { d_text : string; d_millis : N; d_key : string; d_rev : string; d_time : Z }.

(** [path.replace(['/', ':', '*'], "_").trim_matches('_')] *)
Fixpoint trim_start (c : ascii) (s : string) : string :=
  match s with
  | String a s' => if Ascii.eqb a c then trim_start c s' else s
  | EmptyString => ""
  end.
Fixpoint trim_end (c : ascii) (s : string) : string :=
  match s with
  | EmptyString => ""
  | String a s' => match trim_end c s' with
                   | EmptyString => if Ascii.eqb a c then "" else String a ""
                   | t => String a t
                   end
  end.
Definition sanitize_path_to_key (path : string) : string :=
  trim_end "_" (trim_start "_" (replace_char "*" "_" (replace_char ":" "_" (replace_char "/" "_" path)))).
(** The parameters of the path. *)
Definition extract_path_params (pattern path : string) : gmap string string :=
  let ps := split_on "/" pattern in
  let qs := split_on "/" path in
  if (length ps =? length qs)%nat
  then foldl (λ m p, if starts_with ":" p.1 then <[substring 1 (String.length p.1 - 1) p.1 := p.2]> m else m) ∅ (zip ps qs)
  else ∅.
(** [s.splitn(3, '/')] *)
Definition splitn3 (s : string) : list string :=
  match split_once "/" s with
  | None => [s]
  | Some (a, r) => match split_once "/" r with None => [a; r] | Some (b, r') => [a; b; r'] end
  end.

Section Handlers.
Context {Num C : Type} `{!DocStore Num C} `{!MetaJson Num} `{!DocumentJson Num} `{std_text : !StdText} `{tables : !CharTables}
  `{hash : !Sharding.KeyHash}.
Context `{script_serde : !Serde Num Script} `{service_serde : !Serde Num Service}.
Notation Value := (Value Num).
Notation Document := (Document Num).

Record Server := mkServer {
  databases : gmap string (gmap string C);
  script_index : ScriptIndex.ScriptIndex;
  script_cache : ScriptCache.Cache;
  replication_log : option (list SyncLog.LogEntry);
}.
Definition set_databases (d : gmap string (gmap string C)) (s : Server) : Server :=
  mkServer d (script_index s) (script_cache s) (replication_log s).
Definition H (A : Type) : Type := Server → result DbError A * Server.
#[global] Instance H_ret : MRet H := λ _ x s, (Ok x, s).
#[global] Instance H_bind : MBind H := λ _ _ f m s,
  match m s with (Ok x, s') => f x s' | (Err e, s') => (Err e, s') end.
Definition throw {A} (e : DbError) : H A := λ s, (Err e, s).
Definition lift {A} (r : result DbError A) : H A := λ s, (r, s).
Definition modify (f : Server → Server) : H unit := λ s, (Ok tt, f s).

(** *** Storage *)

Definition get_database (db : string) (s : Server) : result DbError (gmap string C) :=
  ok_or (databases s !! db) (CollectionNotFound ("Database '" +:+ (db +:+ "' not found"))).
Definition get_collection (db coll : string) (s : Server) : result DbError C :=
  let? d := get_database db s in ok_or (d !! coll) (CollectionNotFound coll).
Definition the_database (db : string) : H unit := λ s, (let? _ := get_database db s in Ok tt, s).
Definition the_collection (db coll : string) : H C := λ s, (get_collection db coll s, s).
Definition set_collection (db coll : string) (c : C) (s : Server) : Server :=
  set_databases (<[db := <[coll := c]> (default ∅ (databases s !! db))]> (databases s)) s.
(** [if db.get_collection(n).is_err() { db.create_collection(n, None)?; }] *)
Definition ensure_collection (db coll : string) : H unit := λ s,
  match get_collection db coll s with
  | Ok _ => (Ok tt, s)
  | Err _ =>
      match ds_new (collection_cf_name db coll) with
      | Ok c => (Ok tt, set_collection db coll c s)
      | Err e => (Err e, s)
      end
  end.
(** A method of a collection that has been opened. *)
Definition call {A} (db coll : string) (f : C → result DbError A * C) : H A := λ s,
  match get_collection db coll s with
  | Err e => (Err e, s)
  | Ok c => let '(r, c') := f c in (r, set_collection db coll c' s)
  end.
Definition log_write (w : Draw) (db coll : string) (op : SyncLog.Operation) (k : string) (data : option string) : H unit :=
  modify (λ s, mkServer (databases s) (script_index s) (script_cache s)
    ((λ l, l ++ [SyncLog.mkEntry 0 "" db coll op k data (d_millis w) None]) <$> replication_log s)).
Definition on_index (f : ScriptIndex.ScriptIndex → ScriptIndex.ScriptIndex) : H unit :=
  modify (λ s, mkServer (databases s) (f (script_index s)) (script_cache s) (replication_log s)).
Definition forget (k : string) : H unit :=
  modify (λ s, mkServer (databases s) (script_index s) (ScriptCache.invalidate k (script_cache s)) (replication_log s)).

(** The stored scripts that can be read. *)
Definition scripts_in (c : C) : list Script :=
  omap (λ d, match from_json (to_value d) with Ok s => Some s | Err _ => None end) (ds_scan c).
Definition read_script (d : Document) : result DbError Script :=
  match from_json (to_value d) with Ok s => Ok s | Err _ => Err (InternalError "Corrupted script data") end.
Definition read_service (d : Document) : result DbError Service :=
  match from_json (to_value d) with Ok s => Ok s | Err _ => Err (InternalError "Corrupted service data") end.
Fixpoint read_all {A} (f : Document → result DbError A) (l : list Document) : result DbError (list A) :=
  match l with
  | [] => Ok []
  | d :: l' => let? x := f d in let? xs := read_all f l' in Ok (x :: xs)
  end.
(** [ScriptIndex::rebuild] and [rebuild_database], from the storage; databases in their order. *)
Definition rebuild (s : Server) : Server :=
  mkServer (databases s)
    (ScriptIndex.rebuild
       ((λ db, (db, match get_collection db SCRIPTS_COLLECTION s with Ok c => scripts_in c | Err _ => [] end)) <$>
          sort_by str_cmp (elements (dom (databases s)))) (script_index s))
    (script_cache s) (replication_log s).
Definition rebuild_database (db : string) (s : Server) : Server :=
  mkServer (databases s)
    (ScriptIndex.rebuild_database db (match get_collection db SCRIPTS_COLLECTION s with Ok c => scripts_in c | Err _ => [] end) (script_index s))
    (script_cache s) (replication_log s).

(** *** Scripts *)

Definition script_id (db : string) (req : CreateScriptRequest) : string :=
  match r_collection req with
  | Some col => db +:+ ("_" +:+ (r_service req +:+ ("_" +:+ (col +:+ ("_" +:+ sanitize_path_to_key (r_path req))))))
  | None => db +:+ ("_" +:+ (r_service req +:+ ("_" +:+ sanitize_path_to_key (r_path req))))
  end.
Definition new_script (w : Draw) (db : string) (req : CreateScriptRequest) : Script :=
  mkScript (script_id db req) (r_name req) (r_methods req) (r_path req) db (r_service req) (r_collection req) (r_code req)
    (r_description req) (d_text w) (d_text w).
Definition create_script_handler (w : Draw) (db : string) (req : CreateScriptRequest) : H CreateScriptResponse :=
  the_database db ≫= λ _, ensure_collection db SCRIPTS_COLLECTION ≫= λ _,
  c ← the_collection db SCRIPTS_COLLECTION;
  let id := script_id db req in
  if is_ok (ds_get c id)
  then throw (BadRequest ("Script with path '" +:+ (r_path req +:+ "' already exists in this scope")))
  else
    let script := new_script w db req in
    call db SCRIPTS_COLLECTION (ds_insert (d_key w) (d_rev w) (d_time w) (to_json script)) ≫= λ _,
    on_index (ScriptIndex.insert script) ≫= λ _,
    log_write w db SCRIPTS_COLLECTION SyncLog.Insert id (value_to_vec (to_json script)) ≫= λ _,
    mret (mkScriptResponse id (r_name req) (r_path req) (r_methods req) (r_service req) (d_text w)).

Definition script_summary (s : Script) : ScriptSummary :=
  mkScriptSummary (key s) (name s) (path s) (methods s) (description s) (database s) (service s) (collection s) (created_at s) (updated_at s).
Definition list_scripts_handler (db : string) : H (list ScriptSummary) := λ s,
  match get_database db s with
  | Err e => (Err e, s)
  | Ok _ =>
      match get_collection db SCRIPTS_COLLECTION s with
      | Err (CollectionNotFound _) => (Ok [], s)
      | Err e => (Err e, s)
      | Ok c => (let? l := read_all read_script (ds_scan c) in
                 Ok (script_summary <$> List.filter (λ x, String.eqb (database x) db) l), s)
      end
  end.
Definition get_script_handler (db id : string) : H Script :=
  c ← the_collection db SCRIPTS_COLLECTION; lift (let? d := ds_get c id in read_script d).

Definition updated_script (w : Draw) (id : string) (req : CreateScriptRequest) (existing : Script) : Script :=
  mkScript id (r_name req) (r_methods req) (r_path req) (database existing) (service existing) (collection existing) (r_code req)
    (r_description req) (created_at existing) (d_text w).
Definition update_script_handler (w : Draw) (db id : string) (req : CreateScriptRequest) : H Script :=
  existing ← get_script_handler db id;
  let script := updated_script w id req existing in
  call db SCRIPTS_COLLECTION (ds_update (d_rev w) (d_time w) id (to_json script)) ≫= λ _,
  on_index (λ i, ScriptIndex.insert script (ScriptIndex.remove id (database script) (service script) i)) ≫= λ _,
  forget id ≫= λ _,
  log_write w db SCRIPTS_COLLECTION SyncLog.Update id (value_to_vec (to_json script)) ≫= λ _,
  mret script.
Definition delete_script_handler (w : Draw) (db id : string) : H bool :=
  script ← get_script_handler db id;
  call db SCRIPTS_COLLECTION (ds_delete id) ≫= λ _,
  on_index (ScriptIndex.remove id db (service script)) ≫= λ _,
  forget id ≫= λ _,
  log_write w db SCRIPTS_COLLECTION SyncLog.Delete id None ≫= λ _,
  mret true.

(** *** Services *)

Definition new_service (w : Draw) (db : string) (req : CreateServiceRequest) : Service :=
  mkService (q_key req) (q_name req) (q_description req) (q_version req) db (q_enabled req) (q_require_auth req) (d_text w) (d_text w).
Definition create_service_handler (w : Draw) (db : string) (req : CreateServiceRequest) : H CreateServiceResponse :=
  the_database db ≫= λ _, ensure_collection db SERVICES_COLLECTION ≫= λ _,
  c ← the_collection db SERVICES_COLLECTION;
  if is_ok (ds_get c (q_key req))
  then throw (BadRequest ("Service '" +:+ (q_key req +:+ ("' already exists in database '" +:+ (db +:+ "'")))))
  else
    let service := new_service w db req in
    call db SERVICES_COLLECTION (ds_insert (d_key w) (d_rev w) (d_time w) (to_json service)) ≫= λ _,
    log_write w db SERVICES_COLLECTION SyncLog.Insert (q_key req) (value_to_vec (to_json service)) ≫= λ _,
    mret (mkServiceResponse (q_key req) (q_name req) db (d_text w)).
Definition list_services_handler (db : string) : H (list ServiceSummary) := λ s,
  match get_database db s with
  | Err e => (Err e, s)
  | Ok _ =>
      match get_collection db SERVICES_COLLECTION s with
      | Err (CollectionNotFound _) => (Ok [], s)
      | Err e => (Err e, s)
      | Ok c =>
          let scripts := match get_collection db SCRIPTS_COLLECTION s with
                         | Ok sc => List.filter (λ x, String.eqb (database x) db) (scripts_in sc)
                         | Err _ => []
                         end in
          (let? l := read_all read_service (ds_scan c) in
           Ok ((λ v, mkServiceSummary v (length (List.filter (λ x, String.eqb (service x) (s_key v)) scripts))) <$>
                 List.filter (λ v, String.eqb (s_database v) db) l), s)
      end
  end.
Definition get_service_handler (db k : string) : H Service :=
  c ← the_collection db SERVICES_COLLECTION; lift (let? d := ds_get c k in read_service d).
(** [o.or(d)] *)
Definition or_else {A} (o d : option A) : option A := match o with Some x => Some x | None => d end.
Definition updated_service (w : Draw) (req : UpdateServiceRequest) (existing : Service) : Service :=
  mkService (s_key existing) (default (s_name existing) (u_name req)) (or_else (u_description req) (s_description existing))
    (or_else (u_version req) (s_version existing)) (s_database existing) (default (s_enabled existing) (u_enabled req))
    (default (s_require_auth existing) (u_require_auth req)) (s_created_at existing) (d_text w).
Definition update_service_handler (w : Draw) (db k : string) (req : UpdateServiceRequest) : H Service :=
  existing ← get_service_handler db k;
  let service := updated_service w req existing in
  call db SERVICES_COLLECTION (ds_update (d_rev w) (d_time w) k (to_json service)) ≫= λ _,
  log_write w db SERVICES_COLLECTION SyncLog.Update k (value_to_vec (to_json service)) ≫= λ _,
  mret service.
(** A script that cannot be deleted is left out of the count. *)
Definition delete_scripts (w : Draw) (db service_ : string) : list string → Server → N * Server :=
  fix go keys s :=
    match keys with
    | [] => (0%N, s)
    | k :: keys' =>
        match (call db SCRIPTS_COLLECTION (ds_delete k) ≫= λ _,
               on_index (ScriptIndex.remove k db service_) ≫= λ _, forget k ≫= λ _,
               log_write w db SCRIPTS_COLLECTION SyncLog.Delete k None) s with
        | (Ok _, s') => let '(n, s'') := go keys' s' in ((n + 1)%N, s'')
        | (Err _, s') => go keys' s'
        end
    end.
Definition delete_service_handler (w : Draw) (db k : string) : H DeleteServiceResponse :=
  the_database db ≫= λ _,
  n ← (λ s, match get_collection db SCRIPTS_COLLECTION s with
            | Ok c =>
                let '(n, s') := delete_scripts w db k
                  (key <$> List.filter (λ x, String.eqb (database x) db && String.eqb (service x) k) (scripts_in c)) s in
                (Ok n, s')
            | Err _ => (Ok 0%N, s)
            end);
  the_collection db SERVICES_COLLECTION ≫= λ _,
  call db SERVICES_COLLECTION (ds_delete k) ≫= λ _,
  log_write w db SERVICES_COLLECTION SyncLog.Delete k None ≫= λ _,
  mret (mkServiceDeleted true n).

(** *** Routing *)

Definition handles (method : string) (ws : bool) (s : Script) : bool :=
  existsb (λ m, ScriptIndex.eq_ignore_ascii_case m method || ws && ScriptIndex.eq_ignore_ascii_case m "WS") (methods s).
Definition find_script_for_service_path (db service_ path_ method : string) (ws : bool) (s : Server) : result DbError Script :=
  let? c := get_collection db SCRIPTS_COLLECTION s in
  ok_or (List.find (λ x, String.eqb (database x) db && String.eqb (service x) service_ && handles method ws x &&
                         ScriptIndex.path_matches (path x) path_) (scripts_in c))
    (DocumentNotFound ("No script found for " +:+ (method +:+ (" " +:+ (db +:+ ("/" +:+ (service_ +:+ ("/" +:+ (path_ +:+ (" in " +:+ db)))))))))).
(** The index first, then the collection. *)
Definition find_script (db service_ path_ method : string) (ws : bool) (s : Server) : result DbError Script :=
  match ScriptIndex.find db service_ path_ method (script_index s) with
  | Some x => Ok x
  | None => find_script_for_service_path db service_ path_ method ws s
  end.
Definition no_service (k db : string) : DbError := DocumentNotFound ("Service '" +:+ (k +:+ ("' not found in database '" +:+ (db +:+ "'")))).
(** The service of the path: it exists, is enabled, and may ask for authentication. *)
Definition check_service (db k : string) (authenticated : bool) (s : Server) : result DbError Service :=
  let? _ := get_database db s in
  let? service := match get_collection db SERVICES_COLLECTION s with
                  | Err (CollectionNotFound _) => Err (no_service k db)
                  | Err e => Err e
                  | Ok c =>
                      match ds_get c k with
                      | Err (DocumentNotFound _) => Err (no_service k db)
                      | Err e => Err e
                      | Ok d =>
                          let? v := read_service d in
                          if s_enabled v then Ok v else Err (BadRequest ("Service '" +:+ (k +:+ "' is disabled")))
                      end
                  end in
  if s_require_auth service && negb authenticated
  then Err (Unauthorized "Authentication required for this service") else Ok service.
(** [execute_service_script_handler] up to the execution: the script and the parameters. *)
Definition execute_service_script_handler (uri_path method : string) (authenticated ws : bool) (s : Server) :
    result DbError (Script * gmap string string) :=
  let remaining := if starts_with "/api/" uri_path then substring 5 (String.length uri_path - 5) uri_path else uri_path in
  match splitn3 remaining with
  | db :: k :: rest =>
      let script_path := match rest with p :: _ => p | [] => "" end in
      let? _ := check_service db k authenticated s in
      let? script := find_script db k script_path method ws s in
      Ok (script, extract_path_params (path script) script_path)
  | _ => Err (BadRequest "Invalid API path. Expected /api/{db}/{service}/{path}")
  end.
End Handlers.
End ScriptHandlers.
