(* ===== verification/ScriptsProps.v ===== *)
(** * The scripts a request can reach

    The index of the scripts is kept beside the collections: [coherent] says that everything in
    it is stored now, in the database and service it is found under. Every handler keeps it, so a
    request is served by a script that is stored, in its present version, and a request some
    stored script can serve is served. *)

From S2P Require Import Prelude Text Json Transaction Codec Kv Document Indexes Collection CollectionProps Sharding SyncLog DocStore StoreInstance Databases SdbqlLexer AuthDemo Scripts.
Import Indexes Json Document Databases ScriptTypes ScriptHandlers.

(** ** The index *)

Module ScriptIndexProps.
Import ScriptIndex.
Section Index.
Context `{tables : !CharTables}.
Implicit Types (i : ScriptIndex) (s : Script) (P : Script → Prop).

(** Every entry satisfies [P] and stands where its fields say. *)
Record in_order P i : Prop := {
  exact_in k s : exact_paths i !! k = Some s →
    P s ∧ has_parameters (path s) = false ∧ ∃ x, x ∈ methods s ∧ k = (database s, service s, path s, to_uppercase x);
  pattern_in k l s : pattern_paths i !! k = Some l → s ∈ l → P s ∧ has_parameters (path s) = true ∧ k = (database s, service s);
}.
Lemma new_in_order P : in_order P new.
Proof. by split. Qed.
Lemma in_order_mono P Q i : (∀ s, P s → Q s) → in_order P i → in_order Q i.
Proof.
  intros HPQ [He Hp]. split.
  - intros k s Hs. destruct (He k s Hs) as (? & ? & ?). auto.
  - intros k l s Hl Hs. destruct (Hp k l s Hl Hs) as (? & ? & ?). auto.
Qed.
Lemma insert_exact s (m : gmap IndexKey Script) l k s' :
  foldl (λ m x, <[(database s, service s, path s, to_uppercase x) := s]> m) m l !! k = Some s' →
  m !! k = Some s' ∨ s' = s ∧ ∃ x, x ∈ l ∧ k = (database s, service s, path s, to_uppercase x).
Proof.
  revert m. induction l as [|x l IH]; intros m H; cbn [foldl] in H; [by left|].
  apply IH in H as [H|(-> & y & Hy & ->)]; [|right; split; [done|]; exists y; by split; [right|]].
  apply lookup_insert_Some in H as [[<- <-]|[_ H]]; [|by left]. right. split; [done|]. exists x. by split; [left|].
Qed.
Lemma entry_insert_in_order P i s : in_order P i → P s → in_order P (insert s i).
Proof.
  intros [He Hp] Hs. unfold insert. destruct (has_parameters (path s)) eqn:Hpar; split; cbn [exact_paths pattern_paths]; try done.
  - intros k l s'. rewrite lookup_insert_Some. intros [[<- <-]|[_ Hl]] Hin; [|by apply (Hp k l)].
    apply elem_of_app in Hin as [Hin|Hin].
    + destruct (pattern_paths i !! (database s, service s)) as [l|] eqn:Hl; [by apply (Hp _ l)|by apply elem_of_nil in Hin].
    + apply list_elem_of_singleton in Hin as ->. done.
  - intros k s' [H|(-> & x & Hx & ->)]%insert_exact; [by apply He|]. split_and!; [done..|]. by exists x.
Qed.
Lemma remove_in_order P i k db svc : in_order P i →
  in_order (λ s, P s ∧ (key s ≠ k ∨ (database s, service s) ≠ (db, svc))) (remove k db svc i).
Proof.
  intros [He Hp]. split; cbn [exact_paths pattern_paths remove].
  - intros k' s [H Hk]%map_lookup_filter_Some. destruct (He _ _ H) as (? & ? & ?). cbn in Hk. auto.
  - intros k' l s Hl Hs. destruct (decide (k' = (db, svc))) as [->|Hne].
    + rewrite lookup_alter_eq in Hl. destruct (pattern_paths i !! (db, svc)) as [l0|] eqn:Hl0; [|done].
      injection Hl as <-. apply list_elem_of_filter in Hs as [Hk Hs]. destruct (Hp _ _ _ Hl0 Hs) as (? & ? & ?). auto.
    + rewrite lookup_alter_ne in Hl by done. destruct (Hp _ _ _ Hl Hs) as (? & ? & ->). auto.
Qed.
Lemma rebuild_in_order P i l : Forall (λ p, Forall P p.2) l → in_order P (rebuild l i).
Proof.
  unfold rebuild, clear. intros Hl. assert (in_order P new) as H by apply new_in_order. revert H. generalize new as j.
  induction Hl as [|p l Hp _ IH]; intros j Hj; cbn [foldl]; [done|]. apply IH. clear -Hp Hj. revert j Hj.
  induction Hp as [|s l Hs _ IH]; intros j Hj; cbn [foldl]; [done|]. by apply IH, entry_insert_in_order.
Qed.
Lemma rebuild_database_in_order P i db l : in_order P i → Forall (λ s, database s = db → P s) l →
  in_order P (rebuild_database db l i).
Proof.
  unfold rebuild_database. intros [He Hp] Hl.
  assert (in_order P (mkIndex (filter (λ p, p.1.1.1.1 ≠ db) (exact_paths i)) (filter (λ p, p.1.1 ≠ db) (pattern_paths i)))) as H.
  { split; cbn [exact_paths pattern_paths].
    - intros k s [H _]%map_lookup_filter_Some. by apply He.
    - intros k l' s [H _]%map_lookup_filter_Some Hs. by apply (Hp k l'). }
  revert H. generalize (mkIndex (filter (λ p, p.1.1.1.1 ≠ db) (exact_paths i)) (filter (λ p, p.1.1 ≠ db) (pattern_paths i))).
  induction Hl as [|s l Hs _ IH]; intros j Hj; cbn [foldl]; [done|]. apply IH.
  destruct (String.eqb_spec (database s) db); [|done]. apply entry_insert_in_order; auto.
Qed.

(** The script [s] may serve the method: one of its methods is the method, or a web socket. *)
Definition serves (method : string) s : Prop :=
  ∃ x, x ∈ methods s ∧
    (to_uppercase x = to_uppercase method ∨ eq_ignore_ascii_case x (to_uppercase method) = true ∨
     eq_ignore_ascii_case x method = true ∨ to_uppercase x = "WS" ∨ eq_ignore_ascii_case x "WS" = true).
Lemma path_matches_refl p : path_matches p p = true.
Proof.
  unfold path_matches. generalize (split_on "/" p) as l. induction l as [|a l IH]; [done|]. cbn [parts_match].
  by rewrite String.eqb_refl, orb_true_r.
Qed.
Lemma find_in_order P i db svc p m s : in_order P i → find db svc p m i = Some s →
  P s ∧ database s = db ∧ service s = svc ∧ path_matches (path s) p = true ∧ serves m s.
Proof.
  intros [He Hp]. unfold find.
  destruct (exact_paths i !! (db, svc, p, to_uppercase m)) as [s'|] eqn:H1.
  { intros [= ->]. destruct (He _ _ H1) as (HP & _ & x & Hx & [= -> -> -> Hm]). split_and!; [done..|apply path_matches_refl|].
    exists x. split; [done|]. by left. }
  destruct (if String.eqb (to_uppercase m) "GET" then _ else None) as [s'|] eqn:H2.
  { destruct (String.eqb_spec (to_uppercase m) "GET") as [_|]; [|done]. intros [= ->].
    destruct (He _ _ H2) as (HP & _ & x & Hx & [= -> -> -> Hm]). split_and!; [done..|apply path_matches_refl|]. exists x.
    split; [done|]. by do 3 right; left. }
  intros [Hin [Hm Hpm]%andb_true_iff]%List.find_some. apply list_elem_of_In in Hin.
  destruct (pattern_paths i !! (db, svc)) as [l|] eqn:Hl; [|by apply elem_of_nil in Hin].
  destruct (Hp _ _ _ Hl Hin) as (HP & _ & [= -> ->]). split_and!; [done..|].
  apply existsb_exists in Hm as (x & Hx%list_elem_of_In & [Hm|Hm]%orb_true_iff); exists x; auto 10.
Qed.
End Index.
End ScriptIndexProps.

(** ** The cache *)

Module ScriptCacheProps.
Import ScriptCache.
Section Cache.
Context `{hash : !Sharding.KeyHash} `{order : !HashOrder} `{order_laws : !HashOrderLaws}.
Context {E : Type} (compile : string → result E string).
Implicit Types (c : Cache) (m : gmap string CacheEntry) (now : N).

(** What is done to the cache: a script is run, its entries are dropped, or all are. *)
Inductive use := Run (now : N) (script_key code : string) | Invalidate (script_key : string) | Clear.
Definition apply_use c (u : use) : option (result E string) * Cache :=
  match u with
  | Run now k code => let '(r, c') := get_or_compile now k code compile c in (Some r, c')
  | Invalidate k => (None, invalidate k c)
  | Clear => (None, clear c)
  end.
Fixpoint uses c (l : list use) : list (option (result E string)) * Cache :=
  match l with
  | [] => ([], c)
  | u :: l' => let '(r, c1) := apply_use c u in let '(rs, c2) := uses c1 l' in (r :: rs, c2)
  end.
(** Without a cache. *)
Definition answer (u : use) : option (result E string) := match u with Run _ _ code => Some (compile code) | _ => None end.

(** *** The entries hold what the compiler gives *)

Definition entry_sound (codes : list string) (e : CacheEntry) : Prop :=
  ∃ code, code ∈ codes ∧ code_hash e = hash_code code ∧ compile code = Ok (bytecode e).
Definition sound (codes : list string) m : Prop := map_Forall (λ _, entry_sound codes) m.
Definition no_collision (codes : list string) : Prop := ∀ x y, x ∈ codes → y ∈ codes → hash_code x = hash_code y → x = y.
Lemma sound_evict codes now c : sound codes (entries c) → sound codes (entries (evict_lru now c)).
Proof. unfold evict_lru. intros Hs. destruct (lru now (entries c)); [by apply map_Forall_delete|done]. Qed.
Lemma run_sound codes now k code c : no_collision codes → code ∈ codes → sound codes (entries c) →
  (get_or_compile now k code compile c).1 = compile code ∧ sound codes (entries (get_or_compile now k code compile c).2).
Proof.
  intros Hno Hcode Hs.
  assert (∀ b c1, compile code = Ok b → sound codes (entries c1) → sound codes (entries (insert now k code b c1))) as Hins.
  { intros b c1 Hb Hs1. cbn [insert entries]. apply map_Forall_insert_2.
    - by exists code.
    - by destruct (max_size c1 <=? size (entries c1))%nat; [apply sound_evict|]. }
  assert (∀ c1, entries c1 = entries c →
    (match compile code with Err e => (Err e, c1) | Ok b => (Ok b, insert now k code b c1) end).1 = compile code ∧
    sound codes (entries (match compile code with Err e => (Err e, c1) | Ok b => (Ok b, insert now k code b c1) end).2)) as Hmiss.
  { intros c1 H1. destruct (compile code) as [b|e] eqn:Hb; (split; [done|]); cbn [snd]; [|by rewrite H1].
    apply Hins; [done|by rewrite H1]. }
  unfold get_or_compile, get. destruct (entries c !! cache_key k code) as [e|] eqn:He; [|by apply Hmiss].
  destruct (N.eqb_spec (code_hash e) (hash_code code)) as [Hh|_]; [|by apply Hmiss].
  destruct (Hs _ _ He) as (code' & Hin & Hh' & Hb). assert (code' = code) as -> by (apply Hno; congruence). split; [by rewrite Hb|].
  apply map_Forall_insert_2; [|done]. by exists code.
Qed.
Definition codes_of (l : list use) : list string := omap (λ u, match u with Run _ _ code => Some code | _ => None end) l.
Lemma uses_transparent codes l c : no_collision codes → codes_of l ⊆ codes → sound codes (entries c) → (uses c l).1 = answer <$> l.
Proof.
  intros Hno. revert c. induction l as [|u l IH]; intros c Hl Hs; [done|]. cbn [uses fmap list_fmap].
  assert ((apply_use c u).1 = answer u ∧ sound codes (entries (apply_use c u).2)) as [Hr Hs1].
  { destruct u as [now k code|k|]; cbn [apply_use].
    - destruct (run_sound codes now k code c) as [H1 H2]; [done|apply Hl; by left|done|].
      destruct (get_or_compile now k code compile c). cbn in *. by rewrite H1.
    - split; [done|]. intros k' e [H _]%map_lookup_filter_Some. by apply (Hs k').
    - split; [done|]. apply map_Forall_empty. }
  destruct (apply_use c u) as [r c1]. cbn [fst snd] in Hr, Hs1.
  assert (codes_of l ⊆ codes) as Hl' by (intros x Hx; apply Hl; unfold codes_of; cbn; destruct u; [by right|done..]).
  specialize (IH c1 Hl' Hs1). destruct (uses c1 l) as [rs c2]. cbn [fst] in *. by rewrite Hr, IH.
Qed.

(** *** The number of entries *)

Definition older now m : Prop := map_Forall (λ _ e, (last_access e < now)%N) m.
Lemma lru_some now m : m ≠ ∅ → older now m → ∃ k, lru now m = Some k ∧ is_Some (m !! k).
Proof.
  intros Hne Ho. unfold lru.
  assert (∀ k, k ∈ hash_order (elements (dom m)) ↔ is_Some (m !! k)) as Hdom.
  { intros k. rewrite (hash_order_perm (elements (dom m))), elem_of_elements. apply elem_of_dom. }
  assert (∀ l acc, (∀ k, k ∈ l → is_Some (m !! k)) → (∀ k, acc.1 = Some k → is_Some (m !! k)) →
    (is_Some acc.1 ∨ acc.2 = now ∧ l ≠ []) →
    ∃ k, (foldl (λ acc k, match m !! k with
           | Some e => if (last_access e <? acc.2)%N then (Some k, last_access e) else acc
           | None => acc end) acc l).1 = Some k ∧ is_Some (m !! k)) as Hloop.
  { intros l. induction l as [|k l IH]; intros acc Hl Hacc Hcase; cbn [foldl].
    - destruct Hcase as [[k Hk]|[_ ?]]; [|done]. exists k. auto.
    - destruct (Hl k (list_elem_of_here _ _)) as [e He]. rewrite He. apply IH; [intros k' Hk'; apply Hl; by right| |].
      + intros k'. destruct (last_access e <? acc.2)%N; [intros [= <-]; by exists e|by apply Hacc].
      + left. destruct Hcase as [Hs|[Hn _]]; [by destruct (last_access e <? acc.2)%N|].
        rewrite Hn. assert ((last_access e <? now)%N = true) as -> by (apply N.ltb_lt, (Ho k e He)). done. }
  apply Hloop; [intros k; apply Hdom|done|]. right. split; [done|]. intros Hnil. apply Hne, map_empty. intros k.
  apply eq_None_not_Some. intros Hk%Hdom. rewrite Hnil in Hk. by apply elem_of_nil in Hk.
Qed.
Definition fits (n : nat) now c : Prop := max_size c = n ∧ size (entries c) ≤ n ∧ older now (entries c).
Lemma evict_older now t c : older t (entries c) → older t (entries (evict_lru now c)).
Proof. unfold evict_lru. intros Ho. destruct (lru now (entries c)); [by apply map_Forall_delete|done]. Qed.
Lemma insert_fits n now k code b c : 0 < n → fits n now c → fits n (now + 1) (insert now k code b c).
Proof.
  intros Hn (Hm & Hs & Ho). set (c1 := if (max_size c <=? size (entries c))%nat then evict_lru now c else c).
  assert (max_size c1 = n ∧ size (entries c1) < n ∧ older now (entries c1)) as (Hm1 & Hs1 & Ho1).
  { unfold c1. destruct (Nat.leb_spec (max_size c) (size (entries c))) as [Hfull|Hfree]; [|by rewrite <- Hm].
    assert (entries c ≠ ∅) as Hne by (intros Hemp; rewrite Hemp, map_size_empty in Hfull; lia).
    destruct (lru_some now (entries c) Hne Ho) as (k0 & Hk0 & e0 & He0). unfold evict_lru. rewrite Hk0. cbn [max_size entries].
    split_and!; [done| |by apply map_Forall_delete]. rewrite map_size_delete, He0.
    assert (size (entries c) ≠ 0) by (by intros ?%map_size_empty_inv). lia. }
  split_and!; [exact Hm1| |].
  - cbn [insert entries]. fold c1. rewrite map_size_insert. destruct (entries c1 !! _); cbn; unfold id; lia.
  - cbn [insert entries]. fold c1. apply map_Forall_insert_2; [cbn; lia|]. eapply map_Forall_impl; [exact Ho1|]. cbn. lia.
Qed.
Lemma fits_later n now now' c : (now ≤ now')%N → fits n now c → fits n now' c.
Proof. intros Hle (? & ? & Ho). split_and!; [done..|]. eapply map_Forall_impl; [exact Ho|]. cbn. lia. Qed.
Lemma run_fits n now k code c : 0 < n → fits n now c → fits n (now + 1) (get_or_compile now k code compile c).2.
Proof.
  intros Hn Hf. pose proof Hf as (Hm & Hs & Ho). unfold get_or_compile, get.
  assert (∀ c1, entries c1 = entries c → max_size c1 = max_size c → fits n (now + 1)
    (match compile code with Err e => (Err e, c1) | Ok b => (Ok b, insert now k code b c1) end).2) as Hmiss.
  { intros c1 H1 H2. assert (fits n now c1) as Hf1 by (unfold fits; by rewrite H1, H2).
    destruct (compile code); [by apply insert_fits|]. by apply (fits_later n now); [lia|]. }
  destruct (entries c !! cache_key k code) as [e|] eqn:He; [|by apply Hmiss].
  destruct (code_hash e =? hash_code code)%N; [|by apply Hmiss]. split_and!; [done| |].
  - cbn [entries snd]. by rewrite map_size_insert, He.
  - cbn [entries snd]. apply map_Forall_insert_2; [cbn; lia|]. eapply map_Forall_impl; [exact Ho|]. cbn. lia.
Qed.
Definition times_of (l : list use) : list N := omap (λ u, match u with Run now _ _ => Some now | _ => None end) l.
Lemma uses_fit n l now c : 0 < n → StronglySorted N.lt (times_of l) → Forall (N.le now) (times_of l) → fits n now c →
  size (entries (uses c l).2) ≤ n.
Proof.
  intros Hn. revert now c. induction l as [|u l IH]; intros now c Hsort Hall Hf; [by destruct Hf as (_ & ? & _)|]. cbn [uses].
  assert (∃ now', fits n now' (apply_use c u).2 ∧ StronglySorted N.lt (times_of l) ∧ Forall (N.le now') (times_of l)) as (now' & Hf' & Hs' & Ha').
  { destruct u as [t k code|k|]; cbn [apply_use] in *.
    - change (times_of (Run t k code :: l)) with (t :: times_of l) in *. apply StronglySorted_inv in Hsort as [Hs Hlt].
      inversion_clear Hall as [|? ? Hle _]. exists (t + 1)%N. split_and!; [|done|].
      + pose proof (run_fits n t k code c Hn (fits_later n now t c Hle Hf)) as H. by destruct (get_or_compile t k code compile c).
      + eapply Forall_impl; [exact Hlt|]. cbn. intros x Hx. lia.
    - exists now. split_and!; [|done..]. destruct Hf as (Hm & Hs & Ho). split_and!; [done| |].
      + cbn [entries invalidate snd]. etrans; [apply map_subseteq_size, map_filter_subseteq|done].
      + intros k' e [H _]%map_lookup_filter_Some. by apply (Ho k').
    - exists now. split_and!; [|done..]. destruct Hf as (Hm & Hs & Ho). split_and!; [done|cbn; rewrite map_size_empty; lia|apply map_Forall_empty]. }
  destruct (apply_use c u) as [r c1]. cbn [snd] in Hf'. specialize (IH now' c1 Hs' Ha' Hf'). by destruct (uses c1 l).
Qed.
(** Whatever is done to the cache, a script runs as if it were compiled each time, as long as no
    two of the codes have one hash; and the cache holds no more entries than it may when the
    clock advances between the runs. *)
Theorem script_cache_transparent n l : no_collision (codes_of l) →
  (uses (new n) l).1 = answer <$> l ∧
  (0 < n → StronglySorted N.lt (times_of l) → size (entries (uses (new n) l).2) ≤ n).
Proof.
  intros Hno. split.
  - apply (uses_transparent (codes_of l)); [done..|]. apply map_Forall_empty.
  - intros Hn Hs. apply (uses_fit n l 0 (new n)); [done..| |].
    + apply Forall_true. intros x. lia.
    + split_and!; [done|cbn; rewrite map_size_empty; lia|apply map_Forall_empty].
Qed.
End Cache.
End ScriptCacheProps.

(** ** The server *)

Module ScriptsProps.
Import ScriptIndexProps.
Section Handlers.
Context {Num C : Type} `{store : !DocStore Num C} `{meta : !MetaJson Num} `{doc_json : !DocumentJson Num} `{std_text : !StdText}
  `{tables : !CharTables} `{hash : !Sharding.KeyHash}.
Context `{script_serde : !Serde Num Script} `{service_serde : !Serde Num Service}.
Context `{doc_laws : !DocumentJsonLaws Num} `{store_laws : !DocStoreLaws Num C} `{store_updates : !DocStoreUpdates Num C}.
Context `{script_laws : !SerdeLaws Num Script key} `{script_full : !SerdeFull Num Script}.
Implicit Types (sv : Server (C:=C)) (s : Script) (c : C) (d : Document Num).

(** *** Changes of a collection *)

Definition keys_fine c : Prop := store_ok c ∧ ∀ d, d ∈ ds_scan c → key_ok (Document.key d).
(** The document of the key [k] is now [o]. *)
Definition changed c (k : string) (o : option (Document Num)) c' : Prop :=
  store_ok c' ∧ ∀ d, d ∈ ds_scan c' ↔ o = Some d ∨ d ∈ ds_scan c ∧ Document.key d ≠ k.
Lemma insert_changed gk gr now s c d c' : keys_fine c → key_ok (key s) →
  ds_insert gk gr now (to_json s) c = (Ok d, c') →
  changed c (key s) (Some d) c' ∧ Document.key d = key s ∧ from_json (to_value d) = Ok s.
Proof.
  intros [Hc Hks] Hk Hi. pose proof (to_json_object (key_of:=key) s) as Ho. pose proof (to_json_wf (key_of:=key) s) as Hw.
  pose proof (insert_key _ _ _ _ _ _ _ Ho Hi) as Hkd. rewrite (to_json_key (key_of:=key) s) in Hkd. injection Hkd as Hkd.
  rewrite Hkd in Hk |- *. destruct (insert_store _ _ _ _ _ _ _ Hc Ho Hw Hi Hk) as (Hc' & Hd & Hscan).
  split_and!; [|done|by apply (stored_readable (key_of:=key))]. split; [done|]. intros d'. split.
  - intros Hin. destruct (insert_brings _ _ _ _ _ _ _ d' Hc Ho Hw Hi Hk Hin) as [->|Hold]; [by left|].
    apply Hscan in Hin as [->|?]; auto.
  - intros [[= <-]|[Hin Hne]]; apply Hscan; auto.
Qed.
Lemma update_changed gr now s c d c' : keys_fine c → key_ok (key s) →
  ds_update gr now (key s) (to_json s) c = (Ok d, c') →
  changed c (key s) (Some d) c' ∧ Document.key d = key s ∧ from_json (to_value d) = Ok s.
Proof.
  intros [Hc Hks] Hk Hu. pose proof (to_json_object (key_of:=key) s) as Ho. pose proof (to_json_wf (key_of:=key) s) as Hw.
  destruct (update_store _ _ _ _ _ _ _ Hc Hk Ho Hw Hu) as (Hc' & Hkd & (d0 & _ & Hf) & Hscan).
  assert (d ∈ ds_scan c') as Hin by (apply Hscan; [by rewrite Hkd|by left]).
  split_and!; [|done|].
  - split; [done|]. intros d'. split.
    + intros Hin'. destruct (update_brings _ _ _ _ _ _ _ d' Hc Hk Ho Hw Hu Hin') as [->|Hold]; [by left|].
      apply Hscan in Hin' as [->|?]; auto.
    + intros [[= <-]|[Hold Hne]]; [done|]. apply Hscan; auto.
  - assert (key_ok (Document.key d)) as Hkk by by rewrite Hkd.
    by apply (updated_readable (key_of:=key) d d0 s (scan_clean _ _ Hc' Hin Hkk) (scan_wf _ _ Hc' Hin Hkk)).
Qed.
Lemma delete_changed k c r c' : keys_fine c → key_ok k → ds_delete k c = (r, c') →
  match r with
  | Ok _ => changed c k None c'
  | Err _ => store_ok c' ∧ ∀ d, d ∈ ds_scan c' ↔ d ∈ ds_scan c
  end.
Proof.
  intros [Hc Hks] Hk Hd. pose proof (delete_store _ _ _ _ Hc Hk Hd) as [Hc' Hscan]. pose proof (λ d, delete_brings _ _ _ _ d Hc Hk Hd) as Hb.
  destruct r; (split; [done|]); intros d; split.
  - intros Hin. right. apply Hscan; auto.
  - intros [?|[Hin Hne]]; [done|]. apply Hscan; auto.
  - auto.
  - intros Hin. apply Hscan; auto.
Qed.

(** *** The invariant *)

Definition scripts_at sv (db : string) : option C := databases sv !! db ≫= lookup SCRIPTS_COLLECTION.
(** The script is stored, in the database it names. *)
Definition held (at_ : string → option C) s : Prop :=
  ∃ c d, at_ (database s) = Some c ∧ d ∈ ds_scan c ∧ from_json (to_value d) = Ok s.
Definition stores_fine (at_ : string → option C) : Prop := ∀ db c, at_ db = Some c →
  keys_fine c ∧ ∀ d s, d ∈ ds_scan c → from_json (to_value d) = Ok s → database s = db ∧ key s = Document.key d.
Definition coherent_at (at_ : string → option C) (i : ScriptIndex.ScriptIndex) : Prop := stores_fine at_ ∧ in_order (held at_) i.
Definition coherent sv : Prop := coherent_at (scripts_at sv) (script_index sv).

Lemma held_ext at_ at' s : (∀ db, at' db = at_ db) → held at_ s → held at' s.
Proof. intros He (c & d & H & ?). exists c, d. by rewrite He. Qed.
Lemma coherent_ext at_ at' i : (∀ db, at' db = at_ db) → coherent_at at_ i → coherent_at at' i.
Proof.
  intros He [Hs Hi]. split; [intros db c; rewrite He; apply Hs|]. eapply in_order_mono; [|exact Hi]. intros s. by apply held_ext.
Qed.
(** One collection changes at one key. *)
Lemma changed_fine at_ db c k o c' : stores_fine at_ → at_ db = Some c → changed c k o c' →
  (∀ d, o = Some d → key_ok (Document.key d) ∧ ∀ s, from_json (to_value d) = Ok s → database s = db ∧ key s = Document.key d) →
  stores_fine (λ db', if decide (db' = db) then Some c' else at_ db').
Proof.
  intros Hf Hc [Hc' Hscan] Ho db' c1 H1. case_decide as Hd; [subst db'; injection H1 as <-|by apply Hf].
  destruct (Hf _ _ Hc) as [[_ Hk] Hs]. split.
  - split; [done|]. intros d [Hd|[Hd _]]%Hscan; [by apply Ho|by apply Hk].
  - intros d s [Hd|[Hd _]]%Hscan Hr; [by apply (Ho d)|by apply Hs].
Qed.
Lemma changed_held at_ db c k o c' s : stores_fine at_ → at_ db = Some c → changed c k o c' →
  held at_ s → database s ≠ db ∨ key s ≠ k → held (λ db', if decide (db' = db) then Some c' else at_ db') s.
Proof.
  intros Hf Hc [_ Hscan] (c0 & d & Hc0 & Hd & Hr) Hne. destruct (decide (database s = db)) as [Hdb|Hdb].
  - rewrite Hdb, Hc in Hc0. injection Hc0 as <-. exists c', d. rewrite decide_True by done. split_and!; [done| |done].
    apply Hscan. right. split; [done|]. destruct (Hf _ _ Hc) as [_ Hs]. destruct (Hs _ _ Hd Hr) as [_ <-]. naive_solver.
  - exists c0, d. by rewrite decide_False.
Qed.
(** The script of the key [k] belongs to the service [svc]. *)
Definition of_service c (k svc : string) : Prop :=
  ∀ d s, d ∈ ds_scan c → Document.key d = k → from_json (to_value d) = Ok s → service s = svc.
Lemma read_of_service c k d s : keys_fine c → key_ok k → ds_get c k = Ok d → from_json (to_value d) = Ok s → of_service c k (service s).
Proof.
  intros [Hc _] Hk Hg Hr d' s' Hd' Hk' Hr'. assert (ds_get c k = Ok d') as Hg' by by apply get_scan.
  rewrite Hg in Hg'. injection Hg' as <-. rewrite Hr in Hr'. by injection Hr' as <-.
Qed.
(** The script of the key [k], of the service [svc], is replaced or removed. *)
Lemma removed_coherent at_ i db c k svc c' o : coherent_at at_ i → at_ db = Some c → changed c k o c' →
  of_service c k svc →
  in_order (held (λ db', if decide (db' = db) then Some c' else at_ db')) (ScriptIndex.remove k db svc i).
Proof.
  intros [Hf Hi] Hc Hch Hsvc. eapply in_order_mono; [|apply remove_in_order, Hi]. intros s [Hh Hne].
  apply (changed_held at_ db c k o c'); try done. destruct (decide (database s = db)) as [Hdb|]; [|by left]. right. intros Hk.
  destruct Hh as (c0 & d & Hc0 & Hd & Hr). rewrite Hdb, Hc in Hc0. injection Hc0 as <-.
  destruct (Hf _ _ Hc) as [_ Hs]. destruct (Hs _ _ Hd Hr) as [_ Hkd]. assert (service s = svc) as Hv by (apply (Hsvc d); congruence).
  rewrite Hdb, Hv in Hne. naive_solver.
Qed.

(** *** Storage operations *)

Lemma scripts_at_get sv db c : get_collection db SCRIPTS_COLLECTION sv = Ok c ↔ scripts_at sv db = Some c.
Proof.
  unfold get_collection, get_database, scripts_at. destruct (databases sv !! db) as [m|]; [|done]. cbn.
  destruct (m !! SCRIPTS_COLLECTION); cbn; naive_solver.
Qed.
Lemma scripts_at_set sv db coll c db' :
  scripts_at (set_collection db coll c sv) db' =
  if decide (db' = db) then if decide (coll = SCRIPTS_COLLECTION) then Some c else scripts_at sv db else scripts_at sv db'.
Proof.
  unfold scripts_at, set_collection. cbn [databases set_databases]. destruct (decide (db' = db)) as [->|Hne].
  - rewrite lookup_insert_eq. cbn. case_decide as Hc; [rewrite Hc; by rewrite lookup_insert_eq|].
    rewrite lookup_insert_ne by done. by destruct (databases sv !! db).
  - by rewrite lookup_insert_ne.
Qed.
Definition keeps {A} (h : H (C:=C) A) : Prop := ∀ sv, coherent sv → coherent (h sv).2.
Lemma keeps_pure {A} (h : H (C:=C) A) : (∀ sv, (h sv).2 = sv) → keeps h.
Proof. intros Hh sv H. by rewrite Hh. Qed.
Lemma keeps_bind {A B} (h : H (C:=C) A) (f : A → H (C:=C) B) : keeps h → (∀ x, keeps (f x)) → keeps (h ≫= f).
Proof.
  intros Hh Hf sv Hsv. unfold mbind, H_bind. specialize (Hh sv Hsv). destruct (h sv) as [[x|e] sv']; [by apply Hf|done].
Qed.
Lemma keeps_log w db coll op k v : keeps (log_write w db coll op k v).
Proof. by intros sv. Qed.
Lemma keeps_forget k : keeps (forget k).
Proof. by intros sv. Qed.
Lemma set_other sv db coll c : coll ≠ SCRIPTS_COLLECTION → coherent sv → coherent (set_collection db coll c sv).
Proof.
  intros Hne Hsv. apply (coherent_ext (scripts_at sv)); [|done]. intros db'. rewrite scripts_at_set.
  case_decide; [|done]. rewrite decide_False by done. congruence.
Qed.
Lemma keeps_call {A} db coll (f : C → result DbError A * C) : coll ≠ SCRIPTS_COLLECTION → keeps (call db coll f).
Proof.
  intros Hne sv Hsv. unfold call. destruct (get_collection db coll sv) as [c|]; [|done].
  destruct (f c) as [r c']. by apply set_other.
Qed.
Lemma set_empty sv db c : store_ok c → ds_scan c = [] → scripts_at sv db = None → coherent sv →
  coherent (set_collection db SCRIPTS_COLLECTION c sv).
Proof.
  intros Hc He Hn [Hf Hi].
  apply (coherent_ext (λ db', if decide (db' = db) then Some c else scripts_at sv db')).
  { intros db'. rewrite scripts_at_set. case_decide; [by rewrite decide_True|done]. }
  split.
  - intros db' c'. case_decide as Hd; [|by apply Hf]. intros [= <-]. split; [split; [done|]|]; rewrite He; set_solver.
  - eapply in_order_mono; [|exact Hi]. intros s (c0 & d & H0 & Hd & Hr). exists c0, d. rewrite decide_False; [done|].
    intros Hs. congruence.
Qed.
Lemma keeps_ensure db coll : keeps (ensure_collection db coll).
Proof.
  intros sv Hsv. unfold ensure_collection. destruct (get_collection db coll sv) as [c|e] eqn:Hg; [done|].
  destruct (ds_new (collection_cf_name db coll)) as [c|] eqn:Hn; [|done]. cbn [snd].
  apply new_store in Hn as [Hc He]. destruct (decide (coll = SCRIPTS_COLLECTION)) as [->|Hne]; [|by apply set_other].
  apply set_empty; [done..| |done]. destruct (scripts_at sv db) as [c0|] eqn:H0; [|done]. apply scripts_at_get in H0. congruence.
Qed.

(** *** Writes of a script *)

(** A write of the collection and then of the index. *)
Lemma write_index {A B} sv db c (f : C → result DbError A * C) g (rest : H (C:=C) B) :
  scripts_at sv db = Some c → keeps rest →
  coherent_at (λ db', if decide (db' = db) then Some (f c).2 else scripts_at sv db')
    (match (f c).1 with Ok _ => g (script_index sv) | Err _ => script_index sv end) →
  coherent ((call db SCRIPTS_COLLECTION f ≫= λ _, on_index g ≫= λ _, rest) sv).2.
Proof.
  intros Hc Hrest Hco. pose proof (proj2 (scripts_at_get sv db c) Hc) as Hg. unfold mbind, H_bind, call. rewrite Hg.
  destruct (f c) as [r c'] eqn:Hf. cbn [fst snd] in Hco.
  assert (∀ db', scripts_at (set_collection db SCRIPTS_COLLECTION c' sv) db' =
    if decide (db' = db) then Some c' else scripts_at sv db') as Hat.
  { intros db'. rewrite scripts_at_set. case_decide; [by rewrite decide_True|done]. }
  destruct r as [x|e]; [|by apply (coherent_ext _ _ _ Hat)]. unfold on_index, modify. apply Hrest.
  by apply (coherent_ext _ _ _ Hat).
Qed.
Lemma unchanged_coherent at_ db c i : at_ db = Some c → coherent_at at_ i →
  coherent_at (λ db', if decide (db' = db) then Some c else at_ db') i.
Proof. intros Hc. apply coherent_ext. intros db'. case_decide; congruence. Qed.
Lemma same_scan_coherent at_ db c c' i : at_ db = Some c → store_ok c' → (∀ d, d ∈ ds_scan c' ↔ d ∈ ds_scan c) →
  coherent_at at_ i → coherent_at (λ db', if decide (db' = db) then Some c' else at_ db') i.
Proof.
  intros Hc Hc' Hs [Hf Hi]. split.
  - intros db' c1. case_decide as Hd; [|by apply Hf]. intros [= <-]. subst db'. destruct (Hf _ _ Hc) as [[_ Hk] Hr]. split.
    + split; [done|]. intros d Hd%Hs. by apply Hk.
    + intros d s Hd%Hs. by apply Hr.
  - eapply in_order_mono; [|exact Hi]. intros s (c0 & d & H0 & Hd & Hr). destruct (decide (database s = db)) as [Hdb|Hdb].
    + rewrite Hdb, Hc in H0. injection H0 as <-. exists c', d. rewrite decide_True by done. split_and!; [done|by apply Hs|done].
    + exists c0, d. by rewrite decide_False.
Qed.
Lemma insert_script sv db c w s {B} (rest : H (C:=C) B) : coherent sv → scripts_at sv db = Some c → keeps rest →
  database s = db → key_ok (key s) → is_ok (ds_get c (key s)) = false →
  coherent ((call db SCRIPTS_COLLECTION (ds_insert (d_key w) (d_rev w) (d_time w) (to_json s)) ≫= λ _,
             on_index (ScriptIndex.insert s) ≫= λ _, rest) sv).2.
Proof.
  intros Hsv Hc Hrest Hdb Hk Hnew. apply (write_index sv db c); [done..|]. destruct Hsv as [Hf Hi]. destruct (Hf _ _ Hc) as [Hfine Hread].
  destruct (ds_insert (d_key w) (d_rev w) (d_time w) (to_json s) c) as [[d|e] c'] eqn:Hins; cbn [fst snd].
  2: { apply insert_fails in Hins as ->. by apply unchanged_coherent. }
  apply insert_changed in Hins as (Hch & Hkd & Hr); [|done..]. split.
  - apply (changed_fine _ _ c (key s) (Some d)); [done..|]. intros d' [= <-]. rewrite Hkd. split; [done|]. intros s' Hr'.
    rewrite Hr in Hr'. by injection Hr' as <-.
  - apply entry_insert_in_order.
    + eapply in_order_mono; [|exact Hi]. intros s' Hh. apply (changed_held _ _ c (key s) (Some d)); try done.
      destruct (decide (database s' = db)) as [Hd'|]; [|by left]. right. intros Hks. destruct Hh as (c0 & d0 & H0 & Hd0 & Hr0).
      rewrite Hd', Hc in H0. injection H0 as <-. destruct (Hread _ _ Hd0 Hr0) as [_ Hkd0].
      assert (ds_get c (key s) = Ok d0) as Hget by (apply get_scan; [apply Hfine|done|split; [done|congruence]]).
      by rewrite Hget in Hnew.
    + exists c', d. rewrite decide_True by done. split_and!; [done| |done]. apply Hch. by left.
Qed.
Lemma update_script sv db c w s {B} (rest : H (C:=C) B) : coherent sv → scripts_at sv db = Some c → keeps rest →
  database s = db → key_ok (key s) →
  of_service c (key s) (service s) →
  coherent ((call db SCRIPTS_COLLECTION (ds_update (d_rev w) (d_time w) (key s) (to_json s)) ≫= λ _,
             on_index (λ i, ScriptIndex.insert s (ScriptIndex.remove (key s) (database s) (service s) i)) ≫= λ _, rest) sv).2.
Proof.
  intros Hsv Hc Hrest Hdb Hk Hsvc. apply (write_index sv db c); [done..|]. pose proof Hsv as [Hf Hi]. destruct (Hf _ _ Hc) as [Hfine Hread].
  destruct (ds_update (d_rev w) (d_time w) (key s) (to_json s) c) as [[d|e] c'] eqn:Hu; cbn [fst snd].
  2: { apply update_fails in Hu as ->. by apply unchanged_coherent. }
  apply update_changed in Hu as (Hch & Hkd & Hr); [|done..]. split.
  - apply (changed_fine _ _ c (key s) (Some d)); [done..|]. intros d' [= <-]. rewrite Hkd. split; [done|]. intros s' Hr'.
    rewrite Hr in Hr'. by injection Hr' as <-.
  - apply entry_insert_in_order.
    + rewrite Hdb. by apply (removed_coherent _ _ db c (key s) (service s) c' (Some d)).
    + exists c', d. rewrite decide_True by done. split_and!; [done| |done]. apply Hch. by left.
Qed.
Lemma delete_script sv db c k svc {B} (rest : H (C:=C) B) : coherent sv → scripts_at sv db = Some c → keeps rest → key_ok k →
  of_service c k svc →
  coherent ((call db SCRIPTS_COLLECTION (ds_delete k) ≫= λ _, on_index (ScriptIndex.remove k db svc) ≫= λ _, rest) sv).2.
Proof.
  intros Hsv Hc Hrest Hk Hsvc. apply (write_index sv db c); [done..|]. pose proof Hsv as [Hf Hi]. destruct (Hf _ _ Hc) as [Hfine Hread].
  destruct (ds_delete k c) as [r c'] eqn:Hd; cbn [fst snd]. apply delete_changed in Hd; [|done..].
  destruct r; [|by apply (same_scan_coherent _ _ c); destruct Hd]. split.
  - by apply (changed_fine _ _ c k None).
  - by apply (removed_coherent _ _ db c k svc c' None).
Qed.

(** *** The handlers *)

Lemma keeps_ret {A} (x : A) : keeps (mret x).
Proof. by apply keeps_pure. Qed.
Lemma keeps_the_database db : keeps (the_database db).
Proof. by apply keeps_pure. Qed.
Lemma keeps_the_collection db coll : keeps (the_collection db coll).
Proof. by apply keeps_pure. Qed.
Lemma keeps_throw {A} e : keeps (throw (A:=A) e).
Proof. by apply keeps_pure. Qed.
Lemma keeps_lift {A} (r : result DbError A) : keeps (lift r).
Proof. by apply keeps_pure. Qed.
Hint Resolve keeps_ret keeps_the_database keeps_the_collection keeps_throw keeps_lift keeps_log keeps_forget keeps_ensure : scripts.
Hint Extern 1 (keeps (call _ SERVICES_COLLECTION _)) => by apply keeps_call : scripts.
Hint Extern 2 (keeps (_ ≫= _)) => apply keeps_bind; [|intros ?] : scripts.
Hint Extern 1 (keeps (if ?b then _ else _)) => destruct b : scripts.

(** Continue with the collection of the scripts. *)
Lemma with_scripts {A} db (f : C → H (C:=C) A) sv : coherent sv →
  (∀ c, scripts_at sv db = Some c → coherent (f c sv).2) → coherent ((the_collection db SCRIPTS_COLLECTION ≫= f) sv).2.
Proof.
  intros Hsv Hf. unfold mbind, H_bind, the_collection. destruct (get_collection db SCRIPTS_COLLECTION sv) as [c|] eqn:Hg; [|done].
  apply Hf. by apply scripts_at_get.
Qed.
Lemma create_script_keeps w db req : key_ok (script_id db req) → keeps (create_script_handler w db req).
Proof.
  intros Hk. unfold create_script_handler. apply keeps_bind; [auto with scripts|intros _].
  apply keeps_bind; [auto with scripts|intros _]. intros sv Hsv. apply with_scripts; [done|]. intros c Hc. cbn zeta.
  destruct (is_ok (ds_get c (script_id db req))) eqn:Hnew; [done|].
  apply (insert_script sv db c w (new_script w db req)); auto with scripts.
Qed.
(** Continue with a script that has been read. *)
Lemma with_script {A} db id (f : Script → H (C:=C) A) sv : coherent sv → key_ok id →
  (∀ c s, scripts_at sv db = Some c → of_service c id (service s) → database s = db → key s = id → coherent (f s sv).2) →
  coherent ((get_script_handler db id ≫= f) sv).2.
Proof.
  intros Hsv Hk Hf. unfold get_script_handler, mbind, H_bind, the_collection, lift.
  destruct (get_collection db SCRIPTS_COLLECTION sv) as [c|] eqn:Hg; [|done]. apply scripts_at_get in Hg.
  destruct (ds_get c id) as [d|] eqn:Hd; [|done]. unfold result_bind, read_script. destruct (from_json (to_value d)) as [s|] eqn:Hr; [|done].
  destruct Hsv as [Hst _]. destruct (Hst _ _ Hg) as [Hfine Hread].
  destruct (proj1 (get_scan c id d (proj1 Hfine) Hk) Hd) as [Hin Hkd]. destruct (Hread _ _ Hin Hr) as [Hdb Hks].
  apply (Hf c s); [done| |done|congruence]. by apply (read_of_service c id d).
Qed.
Lemma update_script_keeps w db id req : key_ok id → keeps (update_script_handler w db id req).
Proof.
  intros Hk sv Hsv. unfold update_script_handler. apply with_script; [done..|]. intros c s Hc Hsvc Hdb Hks. cbn zeta.
  apply (update_script sv db c w (updated_script w id req s)); auto with scripts.
Qed.
Lemma delete_script_keeps w db id : key_ok id → keeps (delete_script_handler w db id).
Proof.
  intros Hk sv Hsv. unfold delete_script_handler. apply with_script; [done..|]. intros c s Hc Hsvc Hdb Hks.
  apply (delete_script sv db c); auto with scripts.
Qed.
Lemma create_service_keeps w db req : keeps (create_service_handler w db req).
Proof. unfold create_service_handler. cbn zeta. auto 10 with scripts. Qed.
Lemma update_service_keeps w db k req : keeps (update_service_handler w db k req).
Proof. unfold update_service_handler, get_service_handler. cbn zeta. auto 10 with scripts. Qed.

(** The scripts of a service are deleted one by one. *)
Lemma call_scripts_at {A B} sv db c (f : C → result DbError A * C) (rest : A → H (C:=C) B) :
  scripts_at sv db = Some c → (∀ x sv1, (rest x sv1).2.(databases) = databases sv1) →
  scripts_at ((call db SCRIPTS_COLLECTION f ≫= rest) sv).2 db = Some (f c).2.
Proof.
  intros Hc Hrest. pose proof (proj2 (scripts_at_get sv db c) Hc) as Hg. unfold mbind, H_bind, call. rewrite Hg.
  destruct (f c) as [[x|e] c'].
  - unfold scripts_at. rewrite Hrest. change (scripts_at (set_collection db SCRIPTS_COLLECTION c' sv) db = Some c').
    by rewrite scripts_at_set, !decide_True.
  - cbn [snd]. by rewrite scripts_at_set, !decide_True.
Qed.
Lemma delete_scripts_keeps w db svc keys sv c : coherent sv → scripts_at sv db = Some c →
  (∀ k, k ∈ keys → key_ok k ∧ of_service c k svc) → coherent (delete_scripts w db svc keys sv).2.
Proof.
  revert sv c. induction keys as [|k keys IH]; intros sv c Hsv Hc Hkeys; [done|]. cbn [delete_scripts].
  destruct (Hkeys k (list_elem_of_here _ _)) as [Hk Hsvc].
  set (rest := forget k ≫= λ _, log_write w db SCRIPTS_COLLECTION SyncLog.Delete k None).
  assert (keeps rest) as Hrest by (unfold rest; auto with scripts).
  pose proof (delete_script sv db c k svc rest Hsv Hc Hrest Hk Hsvc) as Hco.
  pose proof (call_scripts_at sv db c (ds_delete k) (λ _, on_index (ScriptIndex.remove k db svc) ≫= λ _, rest) Hc (λ _ _, eq_refl)) as Hat.
  destruct ((call db SCRIPTS_COLLECTION (ds_delete k) ≫= λ _, on_index (ScriptIndex.remove k db svc) ≫= λ _, rest) sv) as [r sv1].
  assert (coherent (delete_scripts w db svc keys sv1).2) as Hgo.
  { apply (IH _ _ Hco Hat). intros k' Hk'. destruct (Hkeys k' (list_elem_of_further _ _ _ Hk')) as [Hok Hs]. split; [done|].
    intros d s Hd. apply Hs. destruct (ds_delete k c) as [r0 c0] eqn:Hdel. destruct Hsv as [Hst _]. destruct (Hst _ _ Hc) as [[Hso _] _].
    by apply (delete_brings k c r0 c0). }
  destruct r; [|done]. by destruct (delete_scripts w db svc keys sv1).
Qed.
Lemma scripts_in_elem c s : s ∈ scripts_in c ↔ ∃ d, d ∈ ds_scan c ∧ from_json (to_value d) = Ok s.
Proof.
  unfold scripts_in. rewrite list_elem_of_omap. split; intros (d & Hd & Hr); exists d; (split; [done|]).
  - destruct (from_json (to_value d)) as [s'|]; [|done]. by injection Hr as ->.
  - by rewrite Hr.
Qed.
Lemma delete_service_keeps w db k : keeps (delete_service_handler w db k).
Proof.
  unfold delete_service_handler. apply keeps_bind; [auto with scripts|intros _].
  apply keeps_bind; [|intros n; auto 10 with scripts]. intros sv Hsv.
  destruct (get_collection db SCRIPTS_COLLECTION sv) as [c|] eqn:Hg; [|done]. apply scripts_at_get in Hg.
  pose proof Hsv as [Hst _]. destruct (Hst _ _ Hg) as [Hfine Hread].
  match goal with |- context [delete_scripts w db k ?keys sv] =>
    assert (coherent (delete_scripts w db k keys sv).2) as Hco; [|by destruct (delete_scripts w db k keys sv)] end.
  apply (delete_scripts_keeps _ _ _ _ _ c); [done..|]. intros id (s & -> & Hs)%list_elem_of_fmap.
  apply list_elem_of_In, List.filter_In in Hs as [Hs%list_elem_of_In [_ Hv%String.eqb_eq]%andb_true_iff].
  apply scripts_in_elem in Hs as (d & Hd & Hr). destruct (Hread _ _ Hd Hr) as [_ Hkd].
  assert (key_ok (key s)) as Hk by (rewrite Hkd; by apply Hfine). split; [done|]. rewrite <- Hv.
  apply (read_of_service c (key s) d); [done..| |done]. by apply get_scan; [apply Hfine| |].
Qed.
(** An index built from the storage. *)
Lemma rebuild_coherent sv : stores_fine (scripts_at sv) → coherent (rebuild sv).
Proof.
  intros Hf. split; [exact Hf|]. cbn [rebuild script_index]. apply rebuild_in_order. apply Forall_fmap, Forall_forall. intros db _. cbn.
  apply Forall_forall. intros s Hs. destruct (get_collection db SCRIPTS_COLLECTION sv) as [c|] eqn:Hg; [|by apply elem_of_nil in Hs].
  apply scripts_at_get in Hg. apply scripts_in_elem in Hs as (d & Hd & Hr). destruct (Hf _ _ Hg) as [_ Hread].
  destruct (Hread _ _ Hd Hr) as [<- _]. by exists c, d.
Qed.
Lemma rebuild_database_coherent db sv : coherent sv → coherent (rebuild_database db sv).
Proof.
  intros [Hf Hi]. split; [exact Hf|]. cbn [rebuild_database script_index]. apply rebuild_database_in_order; [done|].
  apply Forall_forall. intros s Hs Hdb. destruct (get_collection db SCRIPTS_COLLECTION sv) as [c|] eqn:Hg; [|by apply elem_of_nil in Hs].
  apply scripts_at_get in Hg. apply scripts_in_elem in Hs as (d & Hd & Hr). exists c, d. by rewrite Hdb.
Qed.

(** *** Runs of the server *)

(** A request for scripts or services, a new database, or any write outside [_scripts]. *)
Inductive step sv : Server (C:=C) → Prop :=
  | create_script_step w db req : key_ok (script_id db req) → step sv (create_script_handler w db req sv).2
  | update_script_step w db id req : key_ok id → step sv (update_script_handler w db id req sv).2
  | delete_script_step w db id : key_ok id → step sv (delete_script_handler w db id sv).2
  | create_service_step w db req : step sv (create_service_handler w db req sv).2
  | update_service_step w db k req : step sv (update_service_handler w db k req sv).2
  | delete_service_step w db k : step sv (delete_service_handler w db k sv).2
  | rebuild_step db : step sv (rebuild_database db sv)
  | database_step db : databases sv !! db = None → step sv (set_databases (<[db := ∅]> (databases sv)) sv)
  | write_step db coll c : coll ≠ SCRIPTS_COLLECTION → step sv (set_collection db coll c sv).
Lemma request_coherent sv sv' : coherent sv → step sv sv' → coherent sv'.
Proof.
  intros Hsv [| | | | | | |db Hnone|]; [by apply create_script_keeps|by apply update_script_keeps|by apply delete_script_keeps|
    by apply create_service_keeps|by apply update_service_keeps|by apply delete_service_keeps|by apply rebuild_database_coherent| |by apply set_other].
  apply (coherent_ext (scripts_at sv)); [|done]. intros db'. unfold scripts_at. cbn [databases set_databases].
  destruct (decide (db' = db)) as [->|Hne]; [|by rewrite lookup_insert_ne]. by rewrite lookup_insert_eq, Hnone.
Qed.

(** C20: From the index built at start, of scripts that name their database and their key, through any
    requests for scripts and services, new databases and writes outside [_scripts], with keys outside
    the reserved spaces and no database dropped: a request reaches only a script that is stored now, in
    its present version, in the database and service of the request, whose path matches and one of
    whose methods is the method of the request or a web socket; and a request that a stored script
    handles reaches one. *)
Theorem scripts_routed sv sv' db svc p m ws : stores_fine (scripts_at sv) → rtc step (rebuild sv) sv' →
  (∀ s, find_script db svc p m ws sv' = Ok s →
     held (scripts_at sv') s ∧ database s = db ∧ service s = svc ∧ ScriptIndex.path_matches (path s) p = true ∧ serves m s) ∧
  (∀ s, held (scripts_at sv') s → database s = db → service s = svc → ScriptIndex.path_matches (path s) p = true →
     handles m ws s = true → is_ok (find_script db svc p m ws sv') = true).
Proof.
  intros Hf Hsteps. assert (coherent sv') as [Hst Hi].
  { assert (coherent (rebuild sv)) as H0 by by apply rebuild_coherent. induction Hsteps; eauto using request_coherent. }
  unfold find_script, find_script_for_service_path. split.
  - intros s. destruct (ScriptIndex.find db svc p m (script_index sv')) as [s'|] eqn:Hfind.
    { intros [= <-]. by apply (find_in_order (held (scripts_at sv')) (script_index sv')). }
    destruct (get_collection db SCRIPTS_COLLECTION sv') as [c|] eqn:Hg; [|done]. apply scripts_at_get in Hg. cbn [result_bind].
    destruct (List.find _ (scripts_in c)) as [s'|] eqn:Hs; [|done]. intros [= ->]. apply List.find_some in Hs as [Hin Hb].
    rewrite !andb_true_iff, !String.eqb_eq in Hb. destruct Hb as [[[Hdb Hsvc] Hm] Hp]. split_and!; try done.
    + apply list_elem_of_In, scripts_in_elem in Hin as (d & Hd & Hr). exists c, d. by rewrite Hdb.
    + apply existsb_exists in Hm as (x & Hx%list_elem_of_In & Hm). exists x. split; [done|].
      apply orb_true_iff in Hm as [Hm|[_ Hm]%andb_true_iff]; auto 10.
  - intros s (c & d & Hc & Hd & Hr) Hdb Hsvc Hp Hm. destruct (ScriptIndex.find db svc p m (script_index sv')); [done|].
    rewrite Hdb in Hc. apply scripts_at_get in Hc. rewrite Hc. cbn [result_bind].
    destruct (List.find _ (scripts_in c)) as [s'|] eqn:Hs; [done|]. exfalso.
    assert (s ∈ scripts_in c) as Hin%list_elem_of_In by (apply scripts_in_elem; by exists d).
    pose proof (List.find_none _ _ Hs s Hin) as Hb. cbn beta in Hb. by rewrite Hdb, Hsvc, !String.eqb_refl, Hm, Hp in Hb.
Qed.
End Handlers.
End ScriptsProps.

(** ** Concrete inputs *)

(** The collections are those of [Collection] over the map store; the derived conversions write a
    struct as its key and the rest as text. *)
Module ScriptsDemo.
Import DocumentDemo CollectionDemo AuthDemo ScriptsProps.
#[local] Existing Instances demo_number_ops Codec.demo_text ascii_tables.
(** A struct as the list of its fields. *)
Definition opt (o : option string) : list string := match o with Some x => [x] | None => [] end.
Definition script_fields (s : Script) : list (list string) :=
  [[key s; name s; path s; database s; service s; code s; ScriptTypes.created_at s; ScriptTypes.updated_at s];
   methods s; opt (collection s); opt (description s)].
Definition script_of_fields (l : list (list string)) : option Script :=
  match l with
  | [[k; n; p; d; v; c; t; u]; ms; col; des] => Some (mkScript k n ms p d v (head col) c (head des) t u)
  | _ => None
  end.
#[local] Instance Script_countable : Countable Script.
Proof. refine (inj_countable script_fields script_of_fields _). by intros [? ? ? ? ? ? [] ? [] ? ?]. Defined.
#[local] Instance Service_eq : EqDecision Service.
Proof. solve_decision. Defined.
Definition flag (b : bool) : string := if b then "y" else "n".
Definition service_fields (s : Service) : list (list string) :=
  [[s_key s; s_name s; s_database s; flag (s_enabled s); flag (s_require_auth s); s_created_at s; s_updated_at s];
   opt (s_description s); opt (s_version s)].
Definition service_of_fields (l : list (list string)) : option Service :=
  match l with
  | [[k; n; d; e; r; t; u]; des; v] => Some (mkService k n (head des) (head v) d (String.eqb e "y") (String.eqb r "y") t u)
  | _ => None
  end.
#[local] Instance Service_countable : Countable Service.
Proof. refine (inj_countable service_fields service_of_fields _). by intros [? ? [] [] ? [] [] ? ?]. Defined.
#[local] Instance demo_script : Serde demo_number Script := keyed_serde Script key.
#[local] Instance demo_service : Serde demo_number Service := keyed_serde Service s_key.
#[local] Instance demo_script_laws : SerdeLaws demo_number Script key := keyed_laws Script key.
#[local] Instance demo_script_full : SerdeFull demo_number Script.
Proof.
  split.
  - intros s k Hk. change (k ∈ ["_key"; "body"]) in Hk. repeat (apply elem_of_cons in Hk as [->|Hk]; [by eexists|]). by apply elem_of_nil in Hk.
  - intros k Hk. change (k ∈ ["_key"; "body"]) in Hk. apply elem_of_cons in Hk as [->|Hk]; [by left|].
    apply list_elem_of_singleton in Hk as ->. by right.
Qed.
#[local] Instance demo_hash : Sharding.KeyHash := { Sharding.seahash _ := 0%N; Sharding.default_hash s := N.of_nat (String.length s) }.
#[local] Instance demo_order : HashOrder := λ l, l.
#[local] Instance demo_order_laws : HashOrderLaws.
Proof. intros l. done. Qed.
#[local] Instance demo_store : DocStore demo_number DemoCollection := collection_store families.
#[local] Instance demo_store_laws : DocStoreLaws demo_number DemoCollection := collection_store_laws families.
#[local] Instance demo_store_updates : DocStoreUpdates demo_number DemoCollection.
Proof. apply (collection_store_updates families). intros n d [= <-] k. done. Qed.

(** *** A server *)

Definition start : Server (C:=DemoCollection) :=
  mkServer {[ "shop" := ∅ ]} ScriptIndex.new ScriptCache.with_default_size (Some []).
Definition draw (n : N) : Draw := mkDraw "now" n ("key" +:+ dec n) ("rev" +:+ dec n) 0.
Definition service_request : CreateServiceRequest := mkServiceRequest "api" "API" None None true false.
Definition users_request : CreateScriptRequest := mkScriptRequest "Users" "users/:id" ["get"] "return 1" None None "api".
Definition hello_request : CreateScriptRequest := mkScriptRequest "Hello" "hello" ["GET"] "return 2" None None "api".
Definition with_service := (create_service_handler (draw 1) "shop" service_request (rebuild start)).2.
Definition with_users := (create_script_handler (draw 2) "shop" users_request with_service).2.
Definition with_hello := (create_script_handler (draw 3) "shop" hello_request with_users).2.
Definition hello_changed : CreateScriptRequest := mkScriptRequest "Hello" "hello" ["GET"] "return 3" None None "api".
Definition with_update := (update_script_handler (draw 4) "shop" "shop_api_hello" hello_changed with_hello).2.
Lemma start_fine : stores_fine (scripts_at start).
Proof.
  intros db c. unfold scripts_at. cbn [start databases]. destruct (decide (db = "shop")) as [->|Hne].
  - rewrite lookup_singleton_eq. done.
  - by rewrite lookup_singleton_ne.
Qed.
Lemma scripts_run : rtc step (rebuild start) with_update.
Proof.
  eapply rtc_l; [apply (create_service_step _ (draw 1) "shop" service_request)|].
  eapply rtc_l; [apply (create_script_step _ (draw 2) "shop" users_request); done|].
  eapply rtc_l; [apply (create_script_step _ (draw 3) "shop" hello_request); done|].
  eapply rtc_l; [apply (update_script_step _ (draw 4) "shop" "shop_api_hello" hello_changed); done|].
  apply rtc_refl.
Qed.
Definition hello_now : Script :=
  mkScript "shop_api_hello" "Hello" ["GET"] "hello" "shop" "api" None "return 3" None "now" "now".
Lemma scripts_routed_witness :
  find_script "shop" "api" "hello" "GET" false with_update = Ok hello_now ∧ held (scripts_at with_update) hello_now ∧
  is_ok (find_script "shop" "api" "hello" "GET" false with_update) = true.
Proof.
  assert (find_script "shop" "api" "hello" "GET" false with_update = Ok hello_now) as Hfind by (vm_compute; reflexivity).
  destruct (scripts_routed start with_update "shop" "api" "hello" "GET" false start_fine scripts_run) as [Hs Hc].
  destruct (Hs hello_now Hfind) as (Hh & Hdb & Hsvc & Hp & Hm).
  split; [exact Hfind|]. split; [exact Hh|]. apply (Hc hello_now Hh Hdb Hsvc Hp). reflexivity.
Defined.

(** *** Where the index and the collections part *)

(** A database is dropped and created again with the same service: the request is served by the
    script of the dropped database, which is stored no more. *)
Definition dropped := set_databases (base.delete "shop" (databases with_update)) with_update.
Definition created_again := set_databases (<[ "shop" := ∅ ]> (databases dropped)) dropped.
Definition served_again := (create_service_handler (draw 5) "shop" service_request created_again).2.
Example dropped_script_runs :
  execute_service_script_handler "/api/shop/api/hello" "GET" false false served_again = Ok (hello_now, ∅) ∧
  (list_scripts_handler "shop" served_again).1 = Ok [].
Proof. split; vm_compute; reflexivity. Qed.
(** A script for web sockets with a parameter in its path answers a plain request through the
    index; the scan of the collection refuses it. *)
Definition room_request : CreateScriptRequest := mkScriptRequest "Room" "rooms/:id" ["WS"] "return 4" None None "api".
Definition with_room := (create_script_handler (draw 5) "shop" room_request with_service).2.
Example socket_script_answers_delete :
  is_ok (find_script "shop" "api" "rooms/1" "DELETE" false with_room) = true ∧
  is_ok (find_script_for_service_path "shop" "api" "rooms/1" "DELETE" false with_room) = false.
Proof. split; vm_compute; reflexivity. Qed.
(** Two scripts share a path, one of them for a collection: a request reaches the last one written,
    and after its deletion the other. *)
Definition orders_request (col : option string) (code_ : string) : CreateScriptRequest :=
  mkScriptRequest "Orders" "orders" ["GET"] code_ None col "api".
Definition with_orders :=
  (create_script_handler (draw 6) "shop" (orders_request (Some "orders") "return 6")
     (create_script_handler (draw 5) "shop" (orders_request None "return 5") with_service).2).2.
Definition code_found (sv : Server (C:=DemoCollection)) : option string :=
  match find_script "shop" "api" "orders" "GET" false sv with Ok s => Some (code s) | Err _ => None end.
Example last_script_wins :
  code_found with_orders = Some "return 6" ∧
  code_found (delete_script_handler (draw 7) "shop" "shop_api_orders_orders" with_orders).2 = Some "return 5".
Proof. split; vm_compute; reflexivity. Qed.
(** Scripts of two services have one key, and the second is refused. *)
Definition reports_request (svc p : string) : CreateScriptRequest := mkScriptRequest "Report" p ["GET"] "return 7" None None svc.
Example ids_collide :
  (create_script_handler (draw 8) "shop" (reports_request "api_reports" "daily")
     (create_script_handler (draw 7) "shop" (reports_request "api" "reports/daily") with_service).2).1 =
  Err (BadRequest "Script with path 'daily' already exists in this scope").
Proof. vm_compute. reflexivity. Qed.
(** The cache grows beyond its size when the clock has not advanced since its entries were used. *)
Example cache_overfull :
  size (ScriptCache.entries (ScriptCache.insert 1 "b" "22" "y" (ScriptCache.insert 1 "a" "1" "x" (ScriptCache.new 1)))) = 2.
Proof. vm_compute. reflexivity. Qed.
Definition cache_uses : list ScriptCacheProps.use :=
  [ScriptCacheProps.Run 1 "a" "1"; ScriptCacheProps.Run 2 "b" "22"; ScriptCacheProps.Run 3 "a" "1"; ScriptCacheProps.Invalidate "a";
   ScriptCacheProps.Run 4 "a" "333"].
Lemma script_cache_transparent_witness :
  (ScriptCacheProps.uses (E:=string) Ok (ScriptCache.new 2) cache_uses).1 = ScriptCacheProps.answer Ok <$> cache_uses ∧
  size (ScriptCache.entries (ScriptCacheProps.uses (E:=string) Ok (ScriptCache.new 2) cache_uses).2) ≤ 2.
Proof.
  destruct (ScriptCacheProps.script_cache_transparent (E:=string) Ok 2 cache_uses) as [Hr Hs].
  - intros x y Hx Hy. change (ScriptCacheProps.codes_of cache_uses) with ["1"; "22"; "1"; "333"] in Hx, Hy.
    repeat (apply elem_of_cons in Hx as [->|Hx]; [|]); [..|by apply elem_of_nil in Hx];
      repeat (apply elem_of_cons in Hy as [->|Hy]; [done|]); by apply elem_of_nil in Hy.
  - split; [exact Hr|]. apply Hs; [lia|]. repeat (constructor; [|repeat constructor]). constructor.
Defined.
End ScriptsDemo.
